(* ===== verification/_CoqProject ===== *)
-Q . S2P
Prelude.v
Tlv.v
Name.v
Uri.v
Packet.v
FaceKeyed.v
RttEstimator.v
PitEntry.v
FibEntry.v
CityHash.v
StrategyRegistry.v
NodeStore.v
Hashtable.v
NameTree.v
NameTreeInv.v
Tables.v
Fib.v
Pit.v
ContentStore.v
CsInv.v
DeadNonceList.v
Measurements.v
StrategyChoice.v
Cleanup.v
Frames.v
RateControl.v
FaceTable.v
Forwarder.v
Accessor.v
FwAlgorithm.v
Strategy.v
Actions.v
StrategyInv.v
AccessStrategy.v
NccStrategy.v
AsfStrategy.v
MeasuringInv.v
Pipelines.v
PipelinesInv.v
SystemInv.v
Effects.v
Timers.v
Multicast.v
Segments.v
Drain.v
Drops.v
Measuring.v
Block.v
LpPacket.v
LpFragments.v
LpReassembly.v
ObjectMonad.v
NameWire.v
SignatureWire.v
InterestWire.v
InterestObject.v
DataWire.v
DataObject.v
LpFields.v
LpReliability.v
LpWindow.v
LpRelInv.v
LpRelEvents.v
GenericLinkService.v
LinkServiceInv.v
LinkReceive.v
LinkTheorems.v
LinkDelivery.v
LinkCarried.v
RibEntry.v
RibLookup.v
FibUpdater.v
Rib.v
RibTree.v
RibFib.v
RibQueue.v
Readvertise.v
ReadvertiseInv.v
ClientFace.v
FileTransfer.v
