(* ===== verification/Prelude.v ===== *)
(** * NDN-multicast: a verification library

    The repository is a modified Named Data Networking stack: the library ndn-cxx
    (src/NDN/ndn-cxx), the forwarding daemon NFD (src/NDN/NFD), file transfer on top
    (src/NDN/transmission) and an SVC video player. The changes of the repository are in NFD:
    Data for several wireless stations goes out once, as a multicast frame at the rate of the
    slowest station (fw/strategy.cpp, fw/nl_interface.cpp), and the announcement of a file
    makes the forwarder itself request the file's segments (fw/forwarder.cpp).

    The library models the forwarding plane: an Interest that comes in on a face is entered
    in the PIT, answered from the Content Store or handed to the strategy of its name, which
    sends it along the FIB; Data is matched with the PIT, cached and sent to the downstreams
    of the entries it satisfies; Nacks go back the same way; entries expire. Above the plane it
    models the RIB, which decides what the FIB holds; below it the link service, with
    fragmentation and reliable delivery, and the packets on the wire; and on top of it the
    client face and the file transfer programs, which the segment requests of the forwarder
    serve. Directory names below are relative to
    src/NDN/NFD/daemon unless they start with ndn-cxx or transmission.

    ** Files and the code they model

    Encodings and names.
    - Tlv: VAR-NUMBER and nonNegativeInteger (ndn-cxx encoding/tlv.hpp, encoder.cpp).
    - Name: components, canonical order, naming conventions (ndn-cxx name-component.cpp,
      name.cpp).
    - Uri: names as URIs, escapes, the number parsers (ndn-cxx name.cpp,
      impl/name-component-types.hpp, util/string-helper.cpp); the names of segments
      as the forwarder and the programs write and read them.
    - Packet: the fields of Interest, Data, Nack and Face the plane uses.
    - CityHash: the 64-bit hash (common/city-hash.cpp).

    Packets on the wire.
    - Block: elements with their wire (ndn-cxx encoding/block.cpp, block-helpers.cpp).
    - ObjectMonad: methods that change an object and may throw or fail an assertion;
      NameWire (ndn-cxx delegation-list.cpp, name.cpp), SignatureWire (key-locator.cpp,
      signature-info.cpp), InterestWire and InterestObject (interest.cpp), DataWire and
      DataObject (data.cpp, meta-info.cpp): formats, and the objects with the wire they keep.
    - LpPacket (ndn-cxx lp/packet.cpp), LpFragments (face/lp-fragmenter.cpp), LpReassembly
      (face/lp-reassembler.cpp and the numbering of face/generic-link-service.cpp).

    The link service.
    - RttEstimator (ndn-cxx util/rtt-estimator.cpp), LpFields (the classes of header fields,
      ndn-cxx lp/, prefix-announcement.cpp, security/validity-period.cpp).
    - LpReliability (face/lp-reliability.cpp), against the class [LinkOps] of what it calls of
      its link service. LpWindow: its map of fragments as a queue. LpRelInv: the invariant,
      proved against the laws [LinkLaws] of the service; LpRelEvents: every event keeps it.
    - GenericLinkService (face/generic-link-service.cpp, link-service.cpp): the service, and
      that it has the operations [LinkOps]; LinkServiceInv: that it obeys the laws, Acks that
      ride on packets; LinkReceive: receiving anything; LinkDelivery and LinkCarried: from one
      service to another; LinkTheorems: what the layer promises, and cases where it errs.

    Table entries: FaceKeyed (lists of records per face), PitEntry (table/pit-entry.cpp and
    its records), FibEntry (table/fib-entry.cpp).

    The name tree and the tables on it.
    - NodeStore: the interface of a store of nodes, a class with laws; its instances are the
      finite map and Hashtable (table/name-tree-hashtable.cpp).
    - NameTree, NameTreeInv: lookup, matches, enumerations (table/name-tree.cpp), written
      against the interface; the refinement of the hashtable version to the map version, the
      invariant, and what lookups mean.
    - Tables: the state the four tables share and its invariant [ts_ok]. Fib, Pit,
      Measurements, StrategyChoice (table/fib.cpp, pit.cpp, measurements.cpp,
      strategy-choice.cpp), StrategyRegistry (static part of fw/strategy.cpp), Cleanup
      (table/cleanup.cpp), each with its meaning as a map from names; Frames: what each
      operation leaves of the other tables.

    The other tables: ContentStore and CsInv (table/cs.cpp and both policies), DeadNonceList
    (table/dead-nonce-list.cpp), FaceTable (fw/face-table.cpp, table/network-region-table.cpp).

    Forwarding.
    - Forwarder: the state [Fw], the state and error monad [M], outgoing pipelines
      (fw/forwarder.cpp). A face or PIT entry is an address; using an address without an
      object is the error [DanglingFace] or [DanglingPitEntry]. What is sent is a trace.
    - FwAlgorithm (fw/algorithm.cpp, retx-suppression-*.cpp), RateControl
      (fw/nl_interface.cpp), Strategy (fw/strategy.cpp and the strategies best-route, in two
      versions, multicast and random, behind the interface [StrategyOps]).
    - Accessor (table/measurements-accessor.cpp, strategy-info-host.hpp): what strategies keep
      on PIT and Measurements entries, and their timers; AccessStrategy, NccStrategy and
      AsfStrategy (fw/access-strategy.cpp, ncc-strategy.cpp, asf-*.cpp): the strategies that
      measure.
    - Pipelines: incoming pipelines, [Event], [handle], the relations [step] and [reachable].

    Proofs about forwarding.
    - Actions: the invariant [fw_ok], the triple [keeps]; StrategyInv: the contract
      [StrategyLaws] of a strategy, and that those of the file Strategy meet it;
      MeasuringInv: that those that measure meet it; PipelinesInv: the pipelines for any
      strategies with the contract. Effects: the further contracts of strategies, about timers
      (for Timers) and about the entries they touch (for Segments).
    - SystemInv: safety of every event, invariant of every reachable state.
    - Timers and Drain: every entry is scheduled to expire; the timers empty the PIT.
    - Multicast: what [sendDataToAll] sends. Segments: the entries a file announcement makes.
      Drops: what the incoming Interest pipeline refuses. Measuring: what the measuring
      strategies do, and cases in which their assertions fail.

    The RIB.
    - RibEntry (rib/rib-entry.cpp), RibLookup (searches of rib/rib.cpp), FibUpdater (the
      computations of rib/fib-updater.cpp), Rib (the tree, the queue of updates, the commands
      and their replies).
    - RibTree: the tree and the map of prefixes to routes. RibFib: what the FIB shall hold, and
      that the updater's effects give it. RibQueue: an update from request to callback, and
      evaluated cases in which the updater is wrong.
    - Readvertise (rib/readvertise): which prefixes are advertised to another RIB, their
      commands, replies and timers. ReadvertiseInv: the invariant, and evaluated cases of
      replies and timers that come too late.

    Applications: ClientFace (ndn-cxx face.cpp, impl/face-impl.hpp), FileTransfer
    (transmission/FileServer.cpp, FileClient.hpp).

    ** What the theorems show

    System: [forwarder_step_safe], [reachable_invariant] (the state stays consistent, nothing
    dangling is used and no assertion fails but in the cases stated, and nothing forbidden is
    sent); [sendDataToAll_spec], [file_segments_pending] (the repository's own features do what
    they are for); [entries_expire], [pit_drains] (nothing stays pending for ever, file segments
    aside, see [file_entries_never_expire]); [interest_drops] (loops and scope);
    [access_new_interest] (whereto the access strategy sends).
    Tables: each operation against a finite map or a scan of everything it may find, with the
    invariant kept ([findAllDataMatches_spec], [pit_findOrInsert_spec],
    [longest_prefix_match], [hashtable_is_map], [cs_find_spec] and so on).
    RIB: [rib_is_a_map] (the tree is that of a map of prefixes to routes, and no assertion
    fails); [update_completes] (for prefixes that come with a route and go with it, the FIB is
    what the table asks for when all commands succeeded, in whatever order);
    [readvertise_invariant] (every advertised prefix has its routes counted and something
    under way for what it wants, as long as replies and timers come in time).
    Packets: [interest_roundtrip], [data_roundtrip], [lp_roundtrip] (decoding what was encoded);
    [interest_operations], [data_operations] (every method keeps the object well formed and
    the kept wire that of its fields).
    Link: [link_delivers] (what is sent is passed on at the other side, with the tags, whatever
    the order in which its blocks arrive), [fragments_reassemble]; [reliability_invariant]
    (every packet handed over is pending, acknowledged, or given up, in the counters too),
    [send_window_is_queue], [reliability_drains], [acks_piggyback]; [receive_safe] (nothing
    that arrives breaks the service). Applications: [callbacks_once], [file_transfer] (the file is written as it
    was read). Encodings: round trips, equality of the fast and slow paths, bounds of reads.

    ** Choices of the model

    - Machine integers are kept at their width where they can overflow: hashes, numbers of
      TLV and URIs, hop limits, costs, FaceIds (whose exhaustion is excluded by [enabled]).
      Times are nanoseconds in Z. Counters of packets are unbounded.
    - Fuel: [decimal] gets the bit length of its number, CityHash's loop the number of 64-byte
      blocks, the walk to the root of the name tree the length of the name plus one, the
      resize and enumeration loops the number of nodes, the walk to the ancestors of a RIB
      entry the length of its name plus one, the walk down its subtree the number of entries
      plus one, the queue of updates its length, the search for lost fragments the size of the
      window plus one, the idle loop the number of queued Acks; each is shown enough by the theorems about
      its result.
    - A pointer to a name tree node is the node's name, an iterator of the Content Store is
      the full name of its Data; PIT entries and faces have addresses of their own because
      the code shares and outlives them.
    - The clock does not advance while one event is handled.
    - The reliability component is proved for windows with room: that fewer than 2^64 sequence
      numbers are in use is part of [admissible]. A network packet of the component has an
      identifier, its fragments are named by their sequence numbers. Double precision is
      computed exactly where the code uses it (averages of round trips, marking intervals).
      [link_delivers] is without reliability, which may drop and repeat packets.
    - A RIB entry is its name with an identifier; a reply to a command carries the update and
      the callback that the closure in the code holds. [update_completes] is for updates with
      the code's results right; the other updates are modelled as well, and the cases of
      RibQueue show where their results are wrong, so no such theorem holds of them.
    - Parameters: the class [Env] (random draws, shuffle, the order of unordered sets, what
      the kernel reports of a station, the URI format of the environment), with [EnvLaws] for
      the permutations and the ranges; boost's [lexical_cast]; the hash of a component in Hashtable; the registry; [asf_accepts],
      whether the ASF strategy accepts its parameters ([asf_params_ok] is what it does); the
      strategies, as instances of [StrategyOps] that meet the contract. Witnesses instantiate
      them all.
    - Assertions of the code are failures of the model where the pipelines can reach them:
      those of the forwarder on freshness periods, of PIT entries on the Interest they are for
      ([assert_canMatch]), of [sendData] on the Data, of [lookupFib] on hints, of the face
      table, of Strategy Choice on the empty prefix, of the measuring strategies. Those that
      only check what a function has just computed are theorems: of [Pit_findOrInsert]
      ([pit_findOrInsert_asserts]), of the policies of the Content Store ([policy_assertions]);
      that of [recordNack] is an output of the client face, as a build without assertions goes on.
    - The timers of the measuring strategies are events: one may fire at any time after it is
      due, as long as its item or the scheduler has it. A strategy object is the prefix of the
      Strategy Choice entry that owns it and how often that has been replaced.
    - [enabled] says when an event can happen: packets on faces of the table, with names of
      valid components and at most the depth of the name tree; timers when due; nexthops for
      FIB entries that exist and faces in the table; a new face object at an address no live
      object, nor the pointer to the multicast face, has.

    ** Not modelled

    Sockets, transports, the dispatch of management commands,
    signing of prefix announcements, validation and keys, the netlink exchange itself: I/O, or
    layers around the plane. SHA-256
    and random numbers are parameters. The self-learning strategy posts work to the thread of
    the RIB and needs tags that the packets of the pipelines do not have; it fits [StrategyOps].
    src/Wireless is copied kernel C code;
    OpenSVCDecoder and websocketpp are vendored; NFD's tools, tests and documentation are not
    the program. *)

From Stdlib Require Export Strings.Byte.
From stdpp Require Export prelude gmap list sorting strings.

(** ** Scope and notations *)

Declare Scope ndn_scope.
Delimit Scope ndn_scope with ndn.
#[global] Open Scope ndn_scope.

(** ** Hint databases shared by the component files *)

Create HintDb ndn discriminated.
Create HintDb ndn_order discriminated.

(** ** Tactics *)

(** Split every conjunction of the goal and close what is immediate. *)
Ltac split_conj := repeat match goal with |- _ ∧ _ => split end; try done.

(** Destruct the scrutinee of a [match] or [if] in the goal, keeping the equation. *)
Ltac case_scrutinee :=
  match goal with
  | |- context [match ?x with _ => _ end] =>
      lazymatch x with context [match _ with _ => _ end] => fail | _ => destruct x eqn:? end
  end.

(** Boolean tests to propositions, everywhere. *)
Ltac bool_to_prop :=
  repeat match goal with
  | H : (_ && _)%bool = true |- _ => apply andb_prop in H as [? ?]
  | H : (_ || _)%bool = true |- _ => apply orb_prop in H as [H|H]
  | H : (_ || _)%bool = false |- _ => apply orb_false_elim in H as [? ?]
  | H : negb _ = true |- _ => apply negb_true_iff in H
  | H : negb _ = false |- _ => apply negb_false_iff in H
  | H : bool_decide _ = true |- _ => apply bool_decide_eq_true_1 in H
  | H : bool_decide _ = false |- _ => apply bool_decide_eq_false_1 in H
  | H : (_ <? _)%Z = true |- _ => apply Z.ltb_lt in H
  | H : (_ <? _)%Z = false |- _ => apply Z.ltb_ge in H
  | H : (_ <=? _)%Z = true |- _ => apply Z.leb_le in H
  | H : (_ <=? _)%Z = false |- _ => apply Z.leb_gt in H
  | H : (_ <? _)%N = true |- _ => apply N.ltb_lt in H
  | H : (_ <? _)%N = false |- _ => apply N.ltb_ge in H
  | H : (_ <=? _)%N = true |- _ => apply N.leb_le in H
  | H : (_ <=? _)%N = false |- _ => apply N.leb_gt in H
  | H : (_ <? _)%nat = true |- _ => apply Nat.ltb_lt in H
  | H : (_ <? _)%nat = false |- _ => apply Nat.ltb_ge in H
  | H : (_ <=? _)%nat = true |- _ => apply Nat.leb_le in H
  | H : (_ <=? _)%nat = false |- _ => apply Nat.leb_gt in H
  end.

(** ** Bytes

    A [uint8_t] is a [Byte.byte]; [bN] is its value. *)

Definition bN (b : byte) : N := Byte.to_N b.

(** [static_cast<uint8_t>(n)]. *)
Definition Nb (n : N) : byte :=
  match Byte.of_N (n mod 256) with Some b => b | None => x00 end.

#[global] Arguments bN : simpl never.
#[global] Arguments Nb : simpl never.

#[global] Instance byte_eq_dec : EqDecision byte := Byte.byte_eq_dec.

Lemma bN_bound (b : byte) : (bN b < 256)%N.
Proof. pose proof (Byte.to_N_bounded b). unfold bN. lia. Qed.

Lemma Nb_bN (b : byte) : Nb (bN b) = b.
Proof.
  unfold Nb. rewrite N.mod_small by apply bN_bound. unfold bN. by rewrite Byte.of_to_N.
Qed.

Lemma bN_Nb (n : N) : bN (Nb n) = (n mod 256)%N.
Proof.
  unfold bN, Nb. destruct (Byte.of_N (n mod 256)) eqn:E; [by apply Byte.to_of_N|].
  apply Byte.of_N_None_iff in E. pose proof (N.mod_lt n 256). lia.
Qed.

#[global] Instance bN_inj : Inj (=) (=) bN.
Proof. intros a b E. rewrite <- (Nb_bN a), <- (Nb_bN b). by rewrite E. Qed.

#[global] Program Instance byte_countable : Countable byte := inj_countable' bN Nb _.
Next Obligation. apply Nb_bN. Qed.

#[global] Instance byte_inhabited : Inhabited byte := populate x00.

(** [w]-bit unsigned and 32-bit signed wrap-around. *)
Definition u8 (z : Z) : Z := z mod 2 ^ 8.
Definition u16 (z : Z) : Z := z mod 2 ^ 16.
Definition u32 (z : Z) : Z := z mod 2 ^ 32.
Definition u64 (z : Z) : Z := z mod 2 ^ 64.
Definition i32 (z : Z) : Z := (z + 2 ^ 31) mod 2 ^ 32 - 2 ^ 31.

Lemma i32_small (z : Z) : (- 2 ^ 31 <= z < 2 ^ 31)%Z -> i32 z = z.
Proof. intros. unfold i32. rewrite Z.mod_small; lia. Qed.

(** The sign of an [int] result of a comparison function. *)
Definition sgn (z : Z) : comparison := Z.compare z 0.

(** [std::memcmp]/[std::lexicographical_compare] on unsigned bytes: the first
    difference decides, then the shorter array comes first. *)
Fixpoint bytes_cmp (l k : list byte) : comparison :=
  match l, k with
  | [], [] => Eq
  | [], _ :: _ => Lt
  | _ :: _, [] => Gt
  | a :: l', b :: k' =>
      match N.compare (bN a) (bN b) with Eq => bytes_cmp l' k' | c => c end
  end.

(** ** Comparison functions

    A comparison function that decides a total order. The components that sort
    or search (names, name components, the Content Store) share these laws. *)

Class TotalCmp {A} (cmp : A -> A -> comparison) : Prop := {
  cmp_eq : forall x y, cmp x y = Eq <-> x = y;
  cmp_opp : forall x y, cmp y x = CompOpp (cmp x y);
  cmp_lt_trans : forall x y z, cmp x y = Lt -> cmp y z = Lt -> cmp x z = Lt;
}.

Section total_cmp.
Context {A} {cmp : A -> A -> comparison} `{!TotalCmp cmp}.

Lemma cmp_refl x : cmp x x = Eq.
Proof. by apply cmp_eq. Qed.

Lemma cmp_gt_lt x y : cmp x y = Gt <-> cmp y x = Lt.
Proof. rewrite (cmp_opp (cmp:=cmp) x y). destruct (cmp x y); simpl; naive_solver. Qed.

Lemma cmp_irrefl x : cmp x x <> Lt.
Proof. by rewrite cmp_refl. Qed.

Lemma cmp_asym x y : cmp x y = Lt -> cmp y x <> Lt.
Proof. rewrite (cmp_opp (cmp:=cmp) x y). by destruct (cmp x y). Qed.

Lemma cmp_le_lt_trans x y z : cmp x y <> Gt -> cmp y z = Lt -> cmp x z = Lt.
Proof.
  destruct (cmp x y) eqn:E; try done; [apply cmp_eq in E as ->; done|].
  intros _. by apply cmp_lt_trans.
Qed.

Lemma cmp_lt_le_trans x y z : cmp x y = Lt -> cmp y z <> Gt -> cmp x z = Lt.
Proof.
  intros H. destruct (cmp y z) eqn:E; try done; [by apply cmp_eq in E as <-|].
  intros _. by eapply cmp_lt_trans.
Qed.
End total_cmp.

(** Writing to a key that is there. *)
Lemma alter_is_insert `{Countable K} {V} (g : V -> V) (k : K) (v : V) (m : gmap K V) :
  m !! k = Some v -> alter g k m = <[k := g v]> m.
Proof.
  intros E. apply map_eq. intros j. rewrite lookup_alter, lookup_insert.
  case_decide; [subst; by rewrite E|done].
Qed.

(** Lexicographic product of two comparison results. *)
Definition cmp_then (c d : comparison) : comparison :=
  match c with Eq => d | _ => c end.

Lemma cmp_then_lt c d : cmp_then c d = Lt <-> c = Lt \/ (c = Eq /\ d = Lt).
Proof. destruct c; simpl; naive_solver. Qed.

#[global] Instance N_compare_total : TotalCmp N.compare.
Proof.
  split; [apply N.compare_eq_iff | intros; by rewrite N.compare_antisym |].
  intros x y z. rewrite !N.compare_lt_iff. lia.
Qed.

#[global] Instance bytes_cmp_total : TotalCmp bytes_cmp.
Proof.
  split.
  - induction x as [|a l IH]; intros [|b k]; simpl; try done.
    destruct (N.compare_spec (bN a) (bN b)) as [E|E|E]; [|split; [done|]..].
    + apply (inj bN) in E as ->. rewrite IH. naive_solver.
    + intros [= -> ->]. lia.
    + intros [= -> ->]. lia.
  - induction x as [|a l IH]; intros [|b k]; simpl; try done.
    rewrite (N.compare_antisym (bN a)). destruct (N.compare _ _); simpl; auto.
  - induction x as [|a l IH]; intros [|b k] [|c m]; simpl; try done.
    destruct (N.compare_spec (bN a) (bN b)) as [E|E|E];
    destruct (N.compare_spec (bN b) (bN c)) as [F|F|F]; try done;
    destruct (N.compare_spec (bN a) (bN c)) as [G|G|G]; try done; try lia; eauto.
Qed.

Lemma bytes_cmp_app_eq l k l' k' :
  length l = length k ->
  bytes_cmp (l ++ l') (k ++ k') = cmp_then (bytes_cmp l k) (bytes_cmp l' k').
Proof.
  revert k. induction l as [|a l IH]; intros [|b k] H; try done. simpl.
  destruct (N.compare (bN a) (bN b)); [|done..]. apply IH. by injection H.
Qed.

(** Pairs, the first component first. *)
Definition pair_cmp {A B} (c : A -> A -> comparison) (d : B -> B -> comparison) (x y : A * B) : comparison :=
  cmp_then (c x.1 y.1) (d x.2 y.2).

#[global] Instance pair_cmp_total {A B} (c : A -> A -> comparison) (d : B -> B -> comparison)
  `{!TotalCmp c, !TotalCmp d} : TotalCmp (pair_cmp c d).
Proof.
  split; unfold pair_cmp.
  - intros [a b] [a' b']; simpl. destruct (c a a') eqn:E; simpl.
    + apply cmp_eq in E as ->. rewrite (cmp_eq (cmp:=d)). naive_solver.
    + split; [done|]. intros [= -> ->]. by rewrite cmp_refl in E.
    + split; [done|]. intros [= -> ->]. by rewrite cmp_refl in E.
  - intros [a b] [a' b']; simpl. rewrite (cmp_opp (cmp:=c) a a'). destruct (c a a'); simpl; [|done..].
    apply cmp_opp.
  - intros [a b] [a' b'] [a'' b'']; simpl. rewrite !cmp_then_lt.
    intros [H|[->%cmp_eq H]] [H'|[H'%cmp_eq K]]; subst.
    + left. by eapply cmp_lt_trans.
    + by left.
    + by left.
    + right. split; [by apply cmp_refl|]. by eapply cmp_lt_trans.
Qed.

(** ** Floating point

    Products of a floating-point constant [m * 2 ^ e] and an integer, as the code uses them
    for load factors and capacities: the integer is converted, the product rounded to the
    nearest value with [prec] significant bits, ties to even, and truncated to an integer. *)

Definition fp_round (prec p : Z) : Z :=
  let s := Z.max 0 (Z.log2 p - (prec - 1)) in
  let q := Z.shiftr p s in
  let r := (p - Z.shiftl q s)%Z in
  let half := Z.shiftl 1 s in
  let q' := match Z.compare (2 * r) half with
            | Lt => q
            | Gt => (q + 1)%Z
            | Eq => if Z.even q then q else (q + 1)%Z
            end in
  if (s =? 0)%Z then p else Z.shiftl q' s.

(** [static_cast<size_t>(f * n)] for [f = m * 2 ^ e]. *)
Definition fp_mul (prec : Z) (f : Z * Z) (n : Z) : Z :=
  Z.shiftl (fp_round prec (f.1 * fp_round prec n)) f.2.

(** The rounded product is off by less than one unit of the last kept bit. *)
Lemma fp_round_error prec p :
  (0 < p)%Z -> let s := Z.max 0 (Z.log2 p - (prec - 1)) in (Z.abs (fp_round prec p - p) <= 2 ^ s)%Z.
Proof.
  intros Hp s. unfold fp_round. fold s. assert (0 <= s)%Z by (unfold s; lia).
  pose proof (Z.pow_pos_nonneg 2 s). destruct (Z.eqb_spec s 0) as [E|E]; [lia|].
  rewrite !Z.shiftl_mul_pow2, Z.shiftr_div_pow2 by lia.
  pose proof (Z.div_mod p (2 ^ s)). pose proof (Z.mod_pos_bound p (2 ^ s)).
  repeat case_match; nia.
Qed.

Lemma fp_round_small prec p : (Z.log2 p < prec)%Z -> fp_round prec p = p.
Proof. intros H. unfold fp_round. rewrite (proj2 (Z.eqb_eq _ _)); [done|lia]. Qed.

Lemma fp_round_pos prec p : (0 < p)%Z -> (1 <= prec)%Z -> (0 < fp_round prec p)%Z.
Proof.
  intros Hp Hprec. unfold fp_round. destruct (Z.eqb_spec (Z.max 0 (Z.log2 p - (prec - 1))) 0) as [|Hs]; [done|].
  set (s := Z.max 0 (Z.log2 p - (prec - 1))) in *. assert (0 < s <= Z.log2 p)%Z by lia.
  assert (0 < Z.shiftr p s)%Z.
  { rewrite Z.shiftr_div_pow2 by lia. apply Z.div_str_pos. split; [lia|].
    etransitivity; [|apply (Z.log2_spec p); lia]. apply Z.pow_le_mono_r; lia. }
  rewrite Z.shiftl_mul_pow2 by lia. apply Z.mul_pos_pos; [|lia]. repeat case_match; lia.
Qed.
