(* ===== verification/Tlv.v ===== *)
(** * TLV numbers (ndn-cxx/encoding/tlv.hpp, encoder.cpp)

    VAR-NUMBER and nonNegativeInteger, the two number formats of NDN-TLV. An
    iterator pair [begin, end) is the list of bytes that remain between the two;
    a reader returns the bytes left after [begin] was advanced. Exceptions are
    [inl], values [inr]. *)

From S2P Require Import Prelude.

Local Open Scope N_scope.

(** [tlv::Error], with one constructor per message that is thrown; what derives from it in
    ndn-cxx is caught as one. *)
Inductive tlv_error :=
  | EmptyBuffer
  | InsufficientData
  | IllegalType (type : N)
  | InvalidLength (size : N)
  | LengthExceedsBoundary          (* Block::Error *)
  | UnexpectedType (type : N)      (* a packet of another TLV-TYPE *)
  | UnrecognizedField (type : N)   (* lp::Packet::Error, and unrecognized critical elements *)
  | RepeatedField (type : N)
  | UnsortedFields
  | InvalidValue (type : N).       (* a field whose value does not decode *)

(** Values or exceptions: [m] may throw, [f] goes on otherwise. *)
#[global] Instance tlv_bind : MBind (sum tlv_error) :=
  fun A B f m => match m with inl e => inl e | inr x => f x end.
#[global] Instance tlv_ret : MRet (sum tlv_error) := fun A x => inr x.

Definition u8_max : N := 255.
Definition u16_max : N := 65535.
Definition u32_max : N := 4294967295.

(** ** Big-endian integers: what [native_to_big]/[big_to_native] and [memcpy] do *)

Fixpoint be_encode (k : nat) (n : N) : list byte :=
  match k with
  | O => []
  | S k' => be_encode k' (n / 256) ++ [Nb n]
  end.

Definition be_decode (l : list byte) : N :=
  fold_left (fun acc b => acc * 256 + bN b) l 0.

(** ** Reading *)

(** [ReadNumberSlow::operator()]: a byte at a time, from any input iterator. *)
Fixpoint read_number_slow (size : nat) (l : list byte) (number : N) : bool * N * list byte :=
  match size, l with
  | O, _ => (true, number, l)
  | S _, [] => (false, number, [])
  | S size', b :: l' =>
      read_number_slow size' l' (N.lor (N.shiftl number 8) (bN b) mod 2 ^ 64)
  end.

(** [ReadNumberFast::operator()]: one [memcpy] of 1, 2, 4 or 8 bytes; any other
    size is [NDN_CXX_UNREACHABLE], which is [None] here. *)
Definition read_number_fast (size : nat) (l : list byte) : option (bool * N * list byte) :=
  if (length l <? size)%nat then Some (false, 0, l)
  else match size with
  | 1%nat | 2%nat | 4%nat | 8%nat => Some (true, be_decode (take size l), drop size l)
  | _ => None
  end.

(** The [noexcept] overload of [readVarNumber]: [None] for [false]. *)
Definition readVarNumber_opt (l : list byte) : option (N * list byte) :=
  match l with
  | [] => None
  | firstOctet :: l' =>
      if bN firstOctet <? 253 then Some (bN firstOctet, l')
      else
        let size := if bN firstOctet =? 253 then 2%nat
                    else if bN firstOctet =? 254 then 4%nat else 8%nat in
        match read_number_fast size l' with
        | Some (true, number, rest) => Some (number, rest)
        | _ => None
        end
  end.

(** The [noexcept] overload of [readType]. *)
Definition readType_opt (l : list byte) : option (N * list byte) :=
  match readVarNumber_opt l with
  | None => None
  | Some (number, rest) =>
      if (number =? 0) || (u32_max <? number) then None else Some (number, rest)
  end.

(** The throwing overloads. *)
Definition readVarNumber (l : list byte) : tlv_error + (N * list byte) :=
  match l with
  | [] => inl EmptyBuffer
  | _ => match readVarNumber_opt l with
         | None => inl InsufficientData
         | Some r => inr r
         end
  end.

Definition readType (l : list byte) : tlv_error + (N * list byte) :=
  match readVarNumber l with
  | inl e => inl e
  | inr (type, rest) =>
      if (type =? 0) || (u32_max <? type) then inl (IllegalType type) else inr (type, rest)
  end.

Definition readNonNegativeInteger (size : nat) (l : list byte) : tlv_error + (N * list byte) :=
  if negb ((size =? 1) || (size =? 2) || (size =? 4) || (size =? 8))%nat
  then inl (InvalidLength (N.of_nat size))
  else match read_number_fast size l with
       | Some (true, number, rest) => inr (number, rest)
       | _ => inl InsufficientData
       end.

(** ** Writing *)

Definition sizeOfVarNumber (number : N) : N :=
  if number <? 253 then 1 else if number <=? u16_max then 3
  else if number <=? u32_max then 5 else 9.

(** [writeVarNumber], and what [Encoder::prependVarNumber]/[appendVarNumber] leave
    in the buffer: the marker byte, then the number in network byte order. *)
Definition writeVarNumber (number : N) : list byte :=
  if number <? 253 then [Nb number]
  else if number <=? u16_max then Nb 253 :: be_encode 2 number
  else if number <=? u32_max then Nb 254 :: be_encode 4 number
  else Nb 255 :: be_encode 8 number.

Definition sizeOfNonNegativeInteger (integer : N) : N :=
  if integer <=? u8_max then 1 else if integer <=? u16_max then 2
  else if integer <=? u32_max then 4 else 8.

Definition writeNonNegativeInteger (integer : N) : list byte :=
  if integer <=? u8_max then [Nb integer]
  else if integer <=? u16_max then be_encode 2 integer
  else if integer <=? u32_max then be_encode 4 integer
  else be_encode 8 integer.

(** [Encoder::prependVarNumber] on a buffer that ends with [rest]: the value bytes are
    prepended first, the marker last. *)
Definition prependByteArray (array rest : list byte) : list byte := array ++ rest.

Definition prependVarNumber (varNumber : N) (rest : list byte) : N * list byte :=
  if varNumber <? 253 then (1, prependByteArray [Nb varNumber] rest)
  else if varNumber <=? u16_max then
    (3, prependByteArray [Nb 253] (prependByteArray (be_encode 2 varNumber) rest))
  else if varNumber <=? u32_max then
    (5, prependByteArray [Nb 254] (prependByteArray (be_encode 4 varNumber) rest))
  else (9, prependByteArray [Nb 255] (prependByteArray (be_encode 8 varNumber) rest)).

Definition appendByteArray (buf array : list byte) : list byte := buf ++ array.

Definition appendVarNumber (varNumber : N) (buf : list byte) : N * list byte :=
  if varNumber <? 253 then (1, appendByteArray buf [Nb varNumber])
  else if varNumber <=? u16_max then
    (3, appendByteArray (appendByteArray buf [Nb 253]) (be_encode 2 varNumber))
  else if varNumber <=? u32_max then
    (5, appendByteArray (appendByteArray buf [Nb 254]) (be_encode 4 varNumber))
  else (9, appendByteArray (appendByteArray buf [Nb 255]) (be_encode 8 varNumber)).

(** ** Big-endian lemmas *)

Lemma length_be_encode k n : length (be_encode k n) = k.
Proof. revert n. induction k; intros; simpl; rewrite ?length_app, ?IHk; simpl; lia. Qed.

Lemma be_decode_app l k : be_decode (l ++ k) = be_decode l * 256 ^ N.of_nat (length k) + be_decode k.
Proof.
  unfold be_decode. rewrite fold_left_app. generalize (fold_left (λ acc b, acc * 256 + bN b) l 0).
  induction k as [|b k IH] using rev_ind; intros a; simpl; [lia|].
  rewrite !fold_left_app, length_app. simpl. rewrite IH.
  replace (N.of_nat (length k + 1)) with (N.succ (N.of_nat (length k))) by lia.
  rewrite N.pow_succ_r'. lia.
Qed.

Lemma be_decode_encode k n : be_decode (be_encode k n) = n mod 256 ^ N.of_nat k.
Proof.
  revert n. induction k as [|k IH]; intros n; [by rewrite N.mod_1_r|].
  cbn [be_encode]. rewrite be_decode_app, IH. unfold be_decode at 1.
  cbn [fold_left length]. rewrite bN_Nb, N.pow_1_r.
  replace (N.of_nat (S k)) with (N.succ (N.of_nat k)) by lia.
  rewrite N.pow_succ_r', N.Div0.mod_mul_r. lia.
Qed.

Lemma be_decode_bound l : be_decode l < 256 ^ N.of_nat (length l).
Proof.
  induction l as [|b l IH] using rev_ind; [done|].
  rewrite be_decode_app, length_app. unfold be_decode at 2. simpl.
  pose proof (bN_bound b). replace (N.of_nat (length l + 1)) with (N.succ (N.of_nat (length l))) by lia.
  rewrite N.pow_succ_r'. lia.
Qed.

Lemma be_encode_decode l : be_encode (length l) (be_decode l) = l.
Proof.
  induction l as [|b l IH] using rev_ind; [done|].
  rewrite length_app, Nat.add_comm. cbn [length Nat.add be_encode].
  replace (be_decode (l ++ [b])) with (bN b + be_decode l * 256)
    by (rewrite be_decode_app; unfold be_decode at 3; simpl; rewrite N.pow_1_r; lia).
  pose proof (bN_bound b) as Hb. f_equal.
  - rewrite N.div_add by done. by rewrite N.div_small, N.add_0_l, IH.
  - f_equal. rewrite <- (Nb_bN b) at 2. unfold Nb. by rewrite N.Div0.mod_add.
Qed.

(** Big-endian encoding of equal width compares like the numbers. *)
Lemma be_encode_cmp k m n :
  m < 256 ^ N.of_nat k -> n < 256 ^ N.of_nat k ->
  bytes_cmp (be_encode k m) (be_encode k n) = N.compare m n.
Proof.
  revert m n. induction k as [|k IH]; intros m n Hm Hn.
  { simpl in *. replace m with n by lia. by rewrite N.compare_refl. }
  replace (N.of_nat (S k)) with (N.succ (N.of_nat k)) in Hm, Hn by lia.
  rewrite N.pow_succ_r' in Hm, Hn. cbn [be_encode].
  rewrite bytes_cmp_app_eq by by rewrite !length_be_encode.
  rewrite IH by (apply N.Div0.div_lt_upper_bound; lia).
  pose proof (N.div_mod m 256 ltac:(done)). pose proof (N.div_mod n 256 ltac:(done)).
  pose proof (N.mod_lt m 256 ltac:(done)). pose proof (N.mod_lt n 256 ltac:(done)).
  simpl. rewrite !bN_Nb. clear IH Hm Hn.
  generalize dependent (m mod 256). generalize dependent (n mod 256).
  generalize dependent (m / 256). generalize dependent (n / 256). intros qn qm rn Hn Hrn rm Hm Hrm.
  destruct (N.compare_spec qm qn) as [E|E|E]; simpl.
  - destruct (N.compare_spec rm rn); symmetry;
      [apply N.compare_eq_iff | apply N.compare_lt_iff | apply N.compare_gt_iff]; lia.
  - symmetry. apply N.compare_lt_iff. lia.
  - symmetry. apply N.compare_gt_iff. lia.
Qed.

Lemma take_drop_encode k n rest :
  take k (be_encode k n ++ rest) = be_encode k n /\ drop k (be_encode k n ++ rest) = rest.
Proof. rewrite take_app_length', drop_app_length' by by rewrite length_be_encode. done. Qed.

Lemma read_number_fast_encode k n rest :
  In k [1; 2; 4; 8]%nat -> n < 256 ^ N.of_nat k ->
  read_number_fast k (be_encode k n ++ rest) = Some (true, n, rest).
Proof.
  intros Hk Hn. unfold read_number_fast. rewrite length_app, length_be_encode.
  rewrite (proj2 (Nat.ltb_ge _ _)) by lia. destruct (take_drop_encode k n rest) as [-> ->].
  rewrite be_decode_encode, N.mod_small by done.
  simpl in Hk. by destruct Hk as [<-|[<-|[<-|[<-|[]]]]].
Qed.

#[global] Arguments be_encode : simpl never.
#[global] Arguments be_decode : simpl never.
#[global] Arguments read_number_fast : simpl never.

Lemma u16_lt n : n <= u16_max -> n < 256 ^ N.of_nat 2.
Proof. unfold u16_max. simpl. lia. Qed.

Lemma u32_lt n : n <= u32_max -> n < 256 ^ N.of_nat 4.
Proof. unfold u32_max. simpl. lia. Qed.

Lemma u64_lt n : n < 2 ^ 64 -> n < 256 ^ N.of_nat 8.
Proof. simpl. lia. Qed.

#[export] Hint Resolve u16_lt u32_lt u64_lt : ndn.

(** Split on the range a number falls in: one VAR-NUMBER format per case. *)
Ltac var_number_cases n :=
  destruct (N.ltb_spec n 253); [| destruct (N.leb_spec n u16_max); [| destruct (N.leb_spec n u32_max)]].

(** What the marker byte selects. *)
Lemma readVarNumber_opt_marker m k n rest :
  In (m, k) [(253, 2%nat); (254, 4%nat); (255, 8%nat)] -> n < 256 ^ N.of_nat k ->
  readVarNumber_opt (Nb m :: be_encode k n ++ rest) = Some (n, rest).
Proof.
  intros Hmk Hn. unfold readVarNumber_opt.
  assert (read_number_fast k (be_encode k n ++ rest) = Some (true, n, rest)) as E.
  { apply read_number_fast_encode; [|done]. simpl in Hmk.
    destruct Hmk as [[= <- <-]|[[= <- <-]|[[= <- <-]|[]]]]; simpl; tauto. }
  simpl in Hmk. destruct Hmk as [[= <- <-]|[[= <- <-]|[[= <- <-]|[]]]];
    match goal with |- context [bN ?b] => let v := eval vm_compute in (bN b) in change (bN b) with v end;
    cbv beta iota zeta delta [N.ltb N.eqb N.compare Pos.compare Pos.compare_cont Pos.eqb]; by rewrite E.
Qed.

Lemma readVarNumber_opt_write (n : N) (rest : list byte) :
  n < 2 ^ 64 -> readVarNumber_opt (writeVarNumber n ++ rest) = Some (n, rest).
Proof.
  intros Hn. unfold writeVarNumber. var_number_cases n; cbn [app];
    [|apply readVarNumber_opt_marker; [simpl; tauto|auto with ndn]..].
  unfold readVarNumber_opt. rewrite bN_Nb, N.mod_small by lia. by rewrite (proj2 (N.ltb_lt _ _)).
Qed.

Lemma writeVarNumber_nonempty n : writeVarNumber n <> [].
Proof. unfold writeVarNumber. by var_number_cases n. Qed.

(** VAR-NUMBER round trip. *)
Lemma readVarNumber_write (n : N) (rest : list byte) :
  n < 2 ^ 64 -> readVarNumber (writeVarNumber n ++ rest) = inr (n, rest).
Proof.
  intros Hn. unfold readVarNumber. rewrite readVarNumber_opt_write by done.
  destruct (writeVarNumber n ++ rest) eqn:E; [|done].
  apply app_eq_nil in E as [E _]. by apply writeVarNumber_nonempty in E.
Qed.
Lemma length_writeVarNumber (n : N) : N.of_nat (length (writeVarNumber n)) = sizeOfVarNumber n.
Proof. unfold writeVarNumber, sizeOfVarNumber. var_number_cases n; simpl; rewrite ?length_be_encode; done. Qed.
Lemma sizeOfVarNumber_bound (n : N) : 1 <= sizeOfVarNumber n <= 9.
Proof. unfold sizeOfVarNumber. var_number_cases n; lia. Qed.
Lemma sizeOfVarNumber_mono (m n : N) : m <= n -> sizeOfVarNumber m <= sizeOfVarNumber n.
Proof. unfold sizeOfVarNumber, u16_max, u32_max. intros H. repeat case_scrutinee; bool_to_prop; lia. Qed.
Lemma readType_write (n : N) (rest : list byte) :
  0 < n <= u32_max -> readType (writeVarNumber n ++ rest) = inr (n, rest).
Proof.
  intros Hn. unfold readType. rewrite readVarNumber_write by (unfold u32_max in *; lia).
  rewrite (proj2 (N.eqb_neq _ _)) by lia. by rewrite (proj2 (N.ltb_ge _ _)) by lia.
Qed.

Lemma read_write_nonneg (n : N) (rest : list byte) :
  n < 2 ^ 64 ->
  readNonNegativeInteger (N.to_nat (sizeOfNonNegativeInteger n)) (writeNonNegativeInteger n ++ rest)
    = inr (n, rest) /\
  N.of_nat (length (writeNonNegativeInteger n)) = sizeOfNonNegativeInteger n.
Proof.
  intros Hn. unfold writeNonNegativeInteger, sizeOfNonNegativeInteger, readNonNegativeInteger.
  destruct (N.leb_spec n u8_max) as [H|H];
    [|destruct (N.leb_spec n u16_max); [|destruct (N.leb_spec n u32_max)]]; split; try done;
    cbn [N.to_nat Pos.to_nat Pos.iter_op Nat.add Nat.eqb orb negb].
  - change [Nb n] with (be_encode 1 n). rewrite read_number_fast_encode; try done; [by left|].
    unfold u8_max in H. change (256 ^ N.of_nat 1) with 256. lia.
  - rewrite read_number_fast_encode; [done|simpl; tauto|auto with ndn].
  - rewrite read_number_fast_encode; [done|simpl; tauto|auto with ndn].
  - rewrite read_number_fast_encode; [done|simpl; tauto|auto with ndn].
Qed.

(** The byte that is shifted in lands on the eight zero bits. *)
Lemma land_shiftl_byte (a : N) (b : byte) : N.land (N.shiftl a 8) (bN b) = 0.
Proof.
  pose proof (bN_bound b) as Hb. apply N.bits_inj. intros i. rewrite N.land_spec, N.bits_0.
  destruct (N.lt_ge_cases i 8) as [Hi|Hi]; [by rewrite N.shiftl_spec_low|].
  destruct (N.eq_dec (bN b) 0) as [->|]; [by rewrite N.bits_0, andb_false_r|].
  rewrite (N.bits_above_log2 (bN b)); [by rewrite andb_false_r|].
  apply N.log2_lt_pow2; [lia|]. eapply N.lt_le_trans; [exact Hb|].
  change 256 with (2 ^ 8). apply N.pow_le_mono_r; lia.
Qed.

(** [(number << 8) | b] on a number that has room for another byte. *)
Lemma shift_in_byte (a : N) (b : byte) :
  a < 2 ^ 56 -> N.lor (N.shiftl a 8) (bN b) mod 2 ^ 64 = a * 256 + bN b.
Proof.
  intros Ha. pose proof (bN_bound b) as Hb. pose proof (land_shiftl_byte a b) as Hz.
  rewrite <- N.lxor_lor, <- N.add_nocarry_lxor, N.shiftl_mul_pow2 by done.
  apply N.mod_small. change (2 ^ 8) with 256. change (2 ^ 64) with (256 * 2 ^ 56). lia.
Qed.

Lemma read_number_slow_spec size l a :
  (size <= 8)%nat -> (size <= length l)%nat -> a < 256 ^ N.of_nat (8 - size) ->
  read_number_slow size l a
  = (true, a * 256 ^ N.of_nat size + be_decode (take size l), drop size l).
Proof.
  revert l a. induction size as [|size IH]; intros [|b l] a Hs Hl Ha; try (simpl in *; lia).
  - change (be_decode (take 0 [])) with 0. simpl. rewrite N.pow_0_r. do 2 f_equal. lia.
  - change (be_decode (take 0 (b :: l))) with 0. simpl. rewrite N.pow_0_r. do 2 f_equal. lia.
  - assert (a < 2 ^ 56).
    { eapply N.lt_le_trans; [exact Ha|]. change (2 ^ 56) with (256 ^ 7). apply N.pow_le_mono_r; lia. }
    cbn [read_number_slow take drop]. rewrite shift_in_byte by done. simpl in Hl.
    rewrite IH; [| lia | lia |].
    + change (b :: take size l) with ([b] ++ take size l). rewrite be_decode_app.
      rewrite length_take, Nat.min_l by lia. unfold be_decode at 2. cbn [fold_left].
      replace (N.of_nat (S size)) with (N.succ (N.of_nat size)) by lia.
      rewrite N.pow_succ_r'. do 2 f_equal. lia.
    + replace (N.of_nat (8 - size)) with (N.succ (N.of_nat (8 - S size))) by lia.
      rewrite N.pow_succ_r'. pose proof (bN_bound b). lia.
Qed.

Lemma read_number_slow_short size l a :
  (length l < size)%nat -> (read_number_slow size l a).1.1 = false.
Proof.
  revert l a. induction size as [|size IH]; intros [|b l] a; simpl; try lia; try done.
  intros. apply IH. lia.
Qed.

(** The two [ReadNumber] implementations agree: for the widths TLV uses, the byte-wise loop
    on an input iterator succeeds exactly when the [memcpy] version on a contiguous iterator
    does, with the same number and the same position; the accumulator never overflows. *)
Theorem read_number_fast_slow (size : nat) (l : list byte) :
  In size [1; 2; 4; 8]%nat ->
  exists r, read_number_fast size l = Some r /\
    (r.1.1 = true -> read_number_slow size l 0 = r) /\
    (r.1.1 = false <-> (read_number_slow size l 0).1.1 = false).
Proof.
  intros Hs. assert (size <= 8)%nat by (simpl in Hs; lia).
  unfold read_number_fast. destruct (Nat.ltb_spec (length l) size) as [Hl|Hl].
  - exists (false, 0, l). split; [done|]. split; [done|]. by rewrite read_number_slow_short.
  - exists (true, be_decode (take size l), drop size l).
    rewrite read_number_slow_spec by (done || (apply N.neq_0_lt_0, N.pow_nonzero; done)).
    rewrite N.mul_0_l, N.add_0_l. split; [|done].
    simpl in Hs. by destruct Hs as [<-|[<-|[<-|[<-|[]]]]].
Qed.

Lemma read_number_fast_slow_witness :
  In 2%nat [1; 2; 4; 8]%nat /\
  exists r, read_number_fast 2 [x01; x02; x03] = Some r /\ r.1.2 = 258.
Proof.
  split; [simpl; tauto|].
  destruct (read_number_fast_slow 2 [x01; x02; x03] ltac:(simpl; tauto)) as (r & H & _).
  exists r. split; [exact H|]. injection H as <-. reflexivity.
Defined.

(** Both encoders of [Encoder] lay down [writeVarNumber] and report its length. *)
Lemma prependVarNumber_write n rest :
  prependVarNumber n rest = (sizeOfVarNumber n, writeVarNumber n ++ rest).
Proof. unfold prependVarNumber, sizeOfVarNumber, writeVarNumber. by var_number_cases n. Qed.

Lemma appendVarNumber_write n buf :
  appendVarNumber n buf = (sizeOfVarNumber n, buf ++ writeVarNumber n).
Proof.
  unfold appendVarNumber, sizeOfVarNumber, writeVarNumber, appendByteArray.
  var_number_cases n; rewrite <- ?app_assoc; done.
Qed.

(** VAR-NUMBER encodings are ordered like the numbers, whatever follows them: the first
    byte grows with the width, and equal widths are big-endian. *)
Definition first_octet (n : N) : N :=
  if n <? 253 then n else if n <=? u16_max then 253 else if n <=? u32_max then 254 else 255.

Definition octets_after (n : N) : nat :=
  if n <? 253 then 0%nat else if n <=? u16_max then 2%nat else if n <=? u32_max then 4%nat else 8%nat.

Lemma writeVarNumber_shape n :
  writeVarNumber n = Nb (first_octet n) :: be_encode (octets_after n) n.
Proof. unfold writeVarNumber, first_octet, octets_after. by var_number_cases n. Qed.

Lemma first_octet_cmp m n :
  (first_octet m = first_octet n /\ octets_after m = octets_after n /\ (octets_after m = 0%nat -> m = n)) \/
  (N.compare (first_octet m) (first_octet n) = N.compare m n /\ m <> n).
Proof.
  unfold first_octet, octets_after.
  var_number_cases m; var_number_cases n; unfold u16_max, u32_max in *;
    destruct (N.compare_spec m n); subst; try (left; split_conj; lia);
    right; (split; [|lia]); first [done | apply N.compare_lt_iff; lia | apply N.compare_gt_iff; lia].
Qed.

Lemma first_octet_bound n : first_octet n < 256.
Proof. unfold first_octet. var_number_cases n; lia. Qed.

Lemma octets_after_fit n : n < 2 ^ 64 -> octets_after n <> 0%nat -> n < 256 ^ N.of_nat (octets_after n).
Proof. intros H. unfold octets_after. var_number_cases n; intros; auto with ndn. done. Qed.

Lemma writeVarNumber_cmp m n l k :
  m < 2 ^ 64 -> n < 2 ^ 64 ->
  bytes_cmp (writeVarNumber m ++ l) (writeVarNumber n ++ k)
  = cmp_then (N.compare m n) (bytes_cmp l k).
Proof.
  intros Hm Hn. rewrite !writeVarNumber_shape. cbn [app bytes_cmp].
  rewrite !bN_Nb, !N.mod_small by apply first_octet_bound.
  destruct (first_octet_cmp m n) as [(E & O & Z) | [E Hne]].
  - rewrite E, N.compare_refl, <- O, bytes_cmp_app_eq by by rewrite !length_be_encode.
    destruct (decide (octets_after m = 0%nat)) as [H|H].
    + rewrite H. rewrite (Z H), N.compare_refl. done.
    + rewrite be_encode_cmp; [done| by apply octets_after_fit |].
      rewrite O. apply octets_after_fit; [done|]. by rewrite <- O.
  - rewrite E. destruct (N.compare_spec m n); try done.
Qed.
