(* ===== verification/Name.v ===== *)
(** * Names (ndn-cxx/name-component.cpp, impl/name-component-types.hpp, name.cpp)

    A [Component] is its TLV-TYPE and its TLV-VALUE; a [Name] is the list of its
    components. Successors, canonical order, the two code paths of
    [Component::compare], sub-names, and the naming conventions (version, segment,
    byte offset, timestamp, sequence number) with their encoders and decoders. *)

From S2P Require Import Prelude Tlv.

(** TLV-TYPE numbers of name components (tlv.hpp). *)
Definition ImplicitSha256DigestComponent : N := 1.
Definition ParametersSha256DigestComponent : N := 2.
Definition GenericNameComponent : N := 8.
Definition KeywordNameComponent : N := 32.
Definition SegmentNameComponent : N := 33.
Definition ByteOffsetNameComponent : N := 34.
Definition VersionNameComponent : N := 35.
Definition TimestampNameComponent : N := 36.
Definition SequenceNumNameComponent : N := 37.
Definition NameComponentMin : N := 1.
Definition NameComponentMax : N := 65535.
Definition DIGEST_SIZE : nat := 32.

Record Component := mkComponent { c_type : N; c_value : list byte }.

#[global] Instance Component_eq_dec : EqDecision Component.
Proof. solve_decision. Defined.
#[global] Program Instance Component_countable : Countable Component :=
  inj_countable' (fun c => (c_type c, c_value c)) (fun p => mkComponent p.1 p.2) _.
Next Obligation. by intros []. Qed.

Abbreviation Name := (list Component).

(** A generic component from bytes. *)
Definition generic (v : list byte) : Component := mkComponent GenericNameComponent v.

(** ** Component types *)

Definition isSha256Type (type : N) : bool :=
  (type =? ImplicitSha256DigestComponent)%N || (type =? ParametersSha256DigestComponent)%N.

(** [Component::ensureValid]: the type range, and what [Sha256ComponentType::check]
    asks of the two digest types; [false] is the [Component::Error] it throws. *)
Definition ensureValid (c : Component) : bool :=
  (NameComponentMin <=? c_type c)%N && (c_type c <=? NameComponentMax)%N &&
  (if isSha256Type (c_type c) then (length (c_value c) =? DIGEST_SIZE)%nat else true).

Definition isGeneric (c : Component) : bool := (c_type c =? GenericNameComponent)%N.

(** [Sha256ComponentType::match] on the implicit digest type. *)
Definition isImplicitSha256Digest (c : Component) : bool :=
  (c_type c =? ImplicitSha256DigestComponent)%N && (length (c_value c) =? DIGEST_SIZE)%nat.

Definition isParametersSha256Digest (c : Component) : bool :=
  (c_type c =? ParametersSha256DigestComponent)%N && (length (c_value c) =? DIGEST_SIZE)%nat.

(** [ComponentType::getMinValue]. *)
Definition getMinValue (type : N) : list byte :=
  if isSha256Type type then replicate DIGEST_SIZE x00 else [].

(** The loop of [getSuccessorImpl], from the last byte: [l] is the value reversed, the
    result the carry [isOverflow] and the new bytes, still reversed. *)
Fixpoint increment_rev (l : list byte) : bool * list byte :=
  match l with
  | [] => (true, [])
  | b :: l' =>
      let newValue := Nb (bN b + 1) in
      if decide (newValue = x00)
      then let '(isOverflow, r) := increment_rev l' in (isOverflow, newValue :: r)
      else (false, newValue :: l')
  end.

(** [ComponentType::getSuccessorImpl]: whether TLV-LENGTH was extended, and the block. *)
Definition getSuccessorImpl (c : Component) : bool * Component :=
  let '(isOverflow, r) := increment_rev (reverse (c_value c)) in
  let value := reverse r in
  (isOverflow, mkComponent (c_type c) (if isOverflow then value ++ [x00] else value)).

(** [getSuccessor] of the type's rules: [Sha256ComponentType] refuses to grow. *)
Definition type_getSuccessor (c : Component) : bool * Component :=
  let '(isExtended, successor) := getSuccessorImpl c in
  if isSha256Type (c_type c)
  then if isExtended then (true, c) else (false, successor)
  else (false, successor).

(** [Component::getSuccessor]. *)
Definition comp_getSuccessor (c : Component) : Component :=
  let '(isOverflow, successor) := type_getSuccessor c in
  if negb isOverflow then successor
  else let type := (c_type c + 1)%N in mkComponent type (getMinValue type).

(** ** Comparison *)

(** [Component::wireEncode]: value, then its length, then the type, each prepended. *)
Definition comp_wireEncode (c : Component) : list byte :=
  let buf := c_value c in
  let buf := (prependVarNumber (N.of_nat (length (c_value c))) buf).2 in
  (prependVarNumber (c_type c) buf).2.

(** [Component::compare] when both sides have wire encoding:
    [memcmp(wire(), other.wire(), min(size(), other.size()))]. *)
Definition compare_wire (c d : Component) : comparison :=
  let w := comp_wireEncode c in
  let w' := comp_wireEncode d in
  let size := Nat.min (length w) (length w') in
  bytes_cmp (take size w) (take size w').

(** [Component::compare] otherwise: the differences are [int]s. *)
Definition compare_fields (c d : Component) : comparison :=
  let cmpType := i32 (Z.of_N (c_type c) - Z.of_N (c_type d)) in
  if negb (cmpType =? 0)%Z then sgn cmpType
  else
    let cmpSize := i32 (Z.of_nat (length (c_value c)) - Z.of_nat (length (c_value d))) in
    if negb (cmpSize =? 0)%Z then sgn cmpSize
    else match c_value c with
         | [] => Eq
         | _ => bytes_cmp (c_value c) (c_value d)
         end.

(** The canonical order: type, then length, then value. [comp_compare_paths] below shows
    that both code paths compute it. *)
Definition comp_cmp (c d : Component) : comparison :=
  cmp_then (N.compare (c_type c) (c_type d))
    (cmp_then (N.compare (N.of_nat (length (c_value c))) (N.of_nat (length (c_value d))))
       (bytes_cmp (c_value c) (c_value d))).

(** Sizes for which the [int] differences and the TLV lengths are exact. *)
Definition comp_small (c : Component) : Prop :=
  (c_type c <= NameComponentMax)%N /\ (N.of_nat (length (c_value c)) < 2 ^ 31)%N.

(** ** Naming conventions *)

(** [g_conventionDecoding]/[g_conventionEncoding]: which of the two styles are on. *)
Record Conventions := mkConventions {
  canDecodeMarker : bool;
  canDecodeTyped : bool;
  encodeMarker : bool;
}.

(** The initial values: decode either, encode markers. *)
Definition default_conventions : Conventions := mkConventions true true true.

Definition SEGMENT_MARKER : byte := x00.
Definition SEGMENT_OFFSET_MARKER : byte := xfb.
Definition VERSION_MARKER : byte := xfd.
Definition TIMESTAMP_MARKER : byte := xfc.
Definition SEQUENCE_NUMBER_MARKER : byte := xfe.

Definition isNumber (c : Component) : bool :=
  let n := length (c_value c) in
  ((n =? 1) || (n =? 2) || (n =? 4) || (n =? 8))%nat.

Definition isNumberWithMarker (marker : byte) (c : Component) : bool :=
  let n := length (c_value c) in
  ((n =? 2) || (n =? 3) || (n =? 5) || (n =? 9))%nat &&
  (if decide (head (c_value c) = Some marker) then true else false).

(** The common shape of the five [is*] predicates. *)
Definition isConvention (cv : Conventions) (marker : byte) (type : N) (c : Component) : bool :=
  (canDecodeMarker cv && (c_type c =? GenericNameComponent)%N && isNumberWithMarker marker c)
  || (canDecodeTyped cv && (c_type c =? type)%N && isNumber c).

Definition isVersion (cv : Conventions) := isConvention cv VERSION_MARKER VersionNameComponent.
Definition isSegment (cv : Conventions) := isConvention cv SEGMENT_MARKER SegmentNameComponent.
Definition isByteOffset (cv : Conventions) :=
  isConvention cv SEGMENT_OFFSET_MARKER ByteOffsetNameComponent.
Definition isTimestamp (cv : Conventions) :=
  isConvention cv TIMESTAMP_MARKER TimestampNameComponent.
Definition isSequenceNumber (cv : Conventions) :=
  isConvention cv SEQUENCE_NUMBER_MARKER SequenceNumNameComponent.

(** [Component::toNumber]: [None] is the [Error] it throws. *)
Definition toNumber (c : Component) : option N :=
  if negb (isNumber c) then None
  else match readNonNegativeInteger (length (c_value c)) (c_value c) with
       | inr (n, _) => Some n
       | inl _ => None
       end.

Definition toNumberWithMarker (marker : byte) (c : Component) : option N :=
  if negb (isNumberWithMarker marker c) then None
  else match readNonNegativeInteger (length (c_value c) - 1) (tail (c_value c)) with
       | inr (n, _) => Some n
       | inl _ => None
       end.

Definition toConvention (cv : Conventions) (marker : byte) (type : N) (c : Component) : option N :=
  if canDecodeMarker cv && (c_type c =? GenericNameComponent)%N then toNumberWithMarker marker c
  else if canDecodeTyped cv && (c_type c =? type)%N then toNumber c
  else None.

Definition toVersion (cv : Conventions) := toConvention cv VERSION_MARKER VersionNameComponent.
Definition toSegment (cv : Conventions) := toConvention cv SEGMENT_MARKER SegmentNameComponent.
Definition toByteOffset (cv : Conventions) :=
  toConvention cv SEGMENT_OFFSET_MARKER ByteOffsetNameComponent.
Definition toSequenceNumber (cv : Conventions) :=
  toConvention cv SEQUENCE_NUMBER_MARKER SequenceNumNameComponent.

Definition fromNumber (number : N) (type : N) : Component :=
  mkComponent type (writeNonNegativeInteger number).

Definition fromNumberWithMarker (marker : byte) (number : N) : Component :=
  mkComponent GenericNameComponent (marker :: writeNonNegativeInteger number).

Definition fromConvention (cv : Conventions) (marker : byte) (type : N) (number : N) : Component :=
  if encodeMarker cv then fromNumberWithMarker marker number else fromNumber number type.

Definition fromVersion (cv : Conventions) := fromConvention cv VERSION_MARKER VersionNameComponent.
Definition fromSegment (cv : Conventions) := fromConvention cv SEGMENT_MARKER SegmentNameComponent.
Definition fromByteOffset (cv : Conventions) :=
  fromConvention cv SEGMENT_OFFSET_MARKER ByteOffsetNameComponent.
Definition fromSequenceNumber (cv : Conventions) :=
  fromConvention cv SEQUENCE_NUMBER_MARKER SequenceNumNameComponent.

(** ** Names *)

(** [Name::npos], the largest [size_t]. *)
Definition npos : Z := 2 ^ 64 - 1.

(** [Name::at]: negative indices count from the end; out of bounds throws. *)
Definition Name_at (n : Name) (i : Z) : option Component :=
  let i := if (i <? 0)%Z then (i + Z.of_nat (length n))%Z else i in
  if (i <? 0)%Z || (Z.of_nat (length n) <=? i)%Z then None else n !! Z.to_nat i.

(** [Name::getSubName]: the sum [iStart + nComponents] is a [size_t]. *)
Definition getSubName (n : Name) (iStartComponent nComponents : Z) : Name :=
  let size := Z.of_nat (length n) in
  let i := if (iStartComponent <? 0)%Z then (iStartComponent + size)%Z else iStartComponent in
  let iStart := if (i <? 0)%Z then 0%Z else i in
  let iEnd := if (nComponents =? npos)%Z then size else Z.min size (u64 (iStart + nComponents)) in
  take (Z.to_nat (iEnd - iStart)) (drop (Z.to_nat iStart) n).

(** [Name::getPrefix]: [size() + nComponents] wraps when it is negative. *)
Definition getPrefix (n : Name) (nComponents : Z) : Name :=
  if (nComponents <? 0)%Z then getSubName n 0 (u64 (Z.of_nat (length n) + nComponents))
  else getSubName n 0 nComponents.

Definition append (n m : Name) : Name := n ++ m.

(** [Name::isPrefixOf]: the size test, then the loop over this name. *)
Fixpoint prefix_loop (n other : Name) : bool :=
  match n, other with
  | [], _ => true
  | c :: n', d :: other' => bool_decide (c = d) && prefix_loop n' other'
  | _ :: _, [] => false
  end.

Definition isPrefixOf (n other : Name) : bool :=
  if (length other <? length n)%nat then false else prefix_loop n other.

Definition Name_equals (n other : Name) : bool :=
  if negb (length n =? length other)%nat then false else prefix_loop n other.

(** [Name::compare] on two whole names: the common components in turn, then the
    difference of the sizes. *)
Fixpoint Name_cmp (n other : Name) : comparison :=
  match n, other with
  | [], [] => Eq
  | [], _ :: _ => Lt
  | _ :: _, [] => Gt
  | c :: n', d :: other' =>
      match comp_cmp c d with Eq => Name_cmp n' other' | r => r end
  end.

(** [Name::compare(pos1, count1, other, pos2, count2)]: the loop over [count] positions,
    then [count1 - count2]. *)
Fixpoint compare_loop (count : nat) (n other : Name) (pos1 pos2 : nat) : comparison :=
  match count with
  | O => Eq
  | S count' =>
      match n !! pos1, other !! pos2 with
      | Some c, Some d =>
          match comp_cmp c d with
          | Eq => compare_loop count' n other (S pos1) (S pos2)
          | r => r
          end
      | _, _ => Eq
      end
  end.

Definition Name_compare (n : Name) (pos1 count1 : nat) (other : Name) (pos2 count2 : nat)
    : comparison :=
  let count1 := Nat.min count1 (length n - pos1) in
  let count2 := Nat.min count2 (length other - pos2) in
  match compare_loop (Nat.min count1 count2) n other pos1 pos2 with
  | Eq => Nat.compare count1 count2
  | r => r
  end.

(** [Name::getSuccessor]; the successor of the empty name is one zero digest. *)
Definition Name_getSuccessor (n : Name) : Name :=
  match last n with
  | None => [mkComponent ImplicitSha256DigestComponent (replicate DIGEST_SIZE x00)]
  | Some c => append (getPrefix n (-1)) [comp_getSuccessor c]
  end.

(** [Name::wireEncode]: the components' encodings, prepended by length and type 7. *)
Definition tlv_Name : N := 7.

Definition Name_wireEncode (n : Name) : list byte :=
  let value := foldr (fun c buf => comp_wireEncode c ++ buf) [] n in
  (prependVarNumber tlv_Name (prependVarNumber (N.of_nat (length value)) value).2).2.

(** ** Laws of the canonical order *)

#[global] Instance comp_cmp_total : TotalCmp comp_cmp.
Proof.
  assert (forall l k, N.compare (N.of_nat (length (l : list byte))) (N.of_nat (length (k : list byte))) = Eq
     <-> length l = length k) as Hlen by (intros; rewrite N.compare_eq_iff; lia).
  split.
  - intros [t v] [t' v']. unfold comp_cmp, cmp_then; simpl. split.
    + destruct (N.compare t t') eqn:E; try done. destruct (N.compare (N.of_nat _) _) eqn:E'; try done.
      intros E''. apply N.compare_eq_iff in E as ->. by apply (cmp_eq (cmp:=bytes_cmp)) in E'' as ->.
    + intros [= -> ->]. by rewrite !N.compare_refl, (cmp_refl (cmp:=bytes_cmp)).
  - intros [t v] [t' v']. unfold comp_cmp; simpl.
    rewrite (cmp_opp (cmp:=N.compare) t), (cmp_opp (cmp:=N.compare) (N.of_nat (length v))),
      (cmp_opp (cmp:=bytes_cmp) v).
    destruct (N.compare t t'); simpl; [|done..]. by destruct (N.compare _ _).
  - intros [t v] [t' v'] [t'' v'']. unfold comp_cmp; simpl. rewrite !cmp_then_lt.
    rewrite !N.compare_lt_iff, !N.compare_eq_iff.
    intros [H|[-> [H|[L H]]]] [H'|[-> [H'|[L' H']]]]; try (left; lia); right; (split; [done|]);
      try (left; lia). right. split; [lia|]. by eapply cmp_lt_trans.
Qed.

#[global] Instance Name_cmp_total : TotalCmp Name_cmp.
Proof.
  split.
  - induction x as [|a l IH]; intros [|b k]; simpl; try done.
    destruct (comp_cmp a b) eqn:E.
    + apply cmp_eq in E as ->. rewrite IH. naive_solver.
    + split; [done|]. intros [= -> ->]. by rewrite (cmp_refl (cmp:=comp_cmp)) in E.
    + split; [done|]. intros [= -> ->]. by rewrite (cmp_refl (cmp:=comp_cmp)) in E.
  - induction x as [|a l IH]; intros [|b k]; simpl; try done.
    rewrite (cmp_opp (cmp:=comp_cmp) a b). destruct (comp_cmp a b); simpl; auto.
  - induction x as [|a l IH]; intros [|b k] [|c m]; simpl; try done.
    destruct (comp_cmp a b) eqn:E; destruct (comp_cmp b c) eqn:F; try done;
      rewrite ?(proj1 (cmp_eq a b) E), ?(proj1 (cmp_eq b c) F) in *;
      rewrite ?E, ?F, ?(cmp_refl (cmp:=comp_cmp)); eauto.
    by rewrite (cmp_lt_trans _ _ _ E F).
Qed.

Lemma comp_wireEncode_eq c :
  comp_wireEncode c
  = writeVarNumber (c_type c) ++ writeVarNumber (N.of_nat (length (c_value c))) ++ c_value c.
Proof. unfold comp_wireEncode. by rewrite !prependVarNumber_write. Qed.

Lemma comp_small_64 c :
  comp_small c -> (c_type c < 2 ^ 64)%N /\ (N.of_nat (length (c_value c)) < 2 ^ 64)%N.
Proof. unfold comp_small, NameComponentMax. split; lia. Qed.

(** Lexical order of the whole encodings is the canonical order. *)
Lemma comp_wire_cmp c d :
  comp_small c -> comp_small d -> bytes_cmp (comp_wireEncode c) (comp_wireEncode d) = comp_cmp c d.
Proof.
  intros [Hc Hc']%comp_small_64 [Hd Hd']%comp_small_64.
  by rewrite !comp_wireEncode_eq, !writeVarNumber_cmp.
Qed.

(** [memcmp] over the shorter size finds the difference when neither array is a proper
    prefix of the other. *)
Lemma bytes_cmp_take_min l k :
  (forall r, l ++ r = k -> r = []) -> (forall r, k ++ r = l -> r = []) ->
  bytes_cmp (take (Nat.min (length l) (length k)) l) (take (Nat.min (length l) (length k)) k)
  = bytes_cmp l k.
Proof.
  revert k. induction l as [|a l IH]; intros [|b k] H H'; simpl in *; try done.
  - by specialize (H (b :: k) eq_refl).
  - by specialize (H' (a :: l) eq_refl).
  - destruct (N.compare_spec (bN a) (bN b)) as [E|E|E]; try done.
    apply (inj bN) in E as ->. apply IH; intros r <-; [by apply H | by apply H'].
Qed.

(** TLV is prefix-free: an encoding followed by bytes is no encoding of another. *)
Lemma comp_wire_prefix_free c d r :
  comp_small c -> comp_small d -> comp_wireEncode c ++ r = comp_wireEncode d -> r = [].
Proof.
  intros [Hc Hc']%comp_small_64 [Hd Hd']%comp_small_64 E.
  rewrite !comp_wireEncode_eq in E. rewrite <- !app_assoc in E.
  pose proof (readVarNumber_opt_write _ (writeVarNumber (N.of_nat (length (c_value c))) ++ c_value c ++ r) Hc) as R.
  rewrite E, readVarNumber_opt_write in R by done. injection R as _ R.
  pose proof (readVarNumber_opt_write _ (c_value c ++ r) Hc') as R'.
  rewrite <- R, readVarNumber_opt_write in R' by done. injection R' as L V.
  apply (f_equal length) in V. rewrite length_app in V. apply length_zero_iff_nil. lia.
Qed.

(** [Component::compare] has two code paths: [memcmp] on the wire encodings (the comment
    says TLV's lexical order happens to be the canonical order) and the [int] differences of
    type, length and value. On components whose value is below 2^31 bytes both return the
    same sign, which is the canonical order (type, then length, then bytes), and it is [Eq]
    exactly on equal components. *)
Theorem comp_compare_paths (c d : Component) :
  comp_small c -> comp_small d ->
  compare_wire c d = comp_cmp c d /\ compare_fields c d = comp_cmp c d /\
  (comp_cmp c d = Eq <-> c = d).
Proof.
  intros Hc Hd. split_conj; [| |apply cmp_eq].
  - unfold compare_wire. rewrite bytes_cmp_take_min; [by apply comp_wire_cmp|..];
      intros r; by apply comp_wire_prefix_free.
  - destruct Hc as [Hc Hc'], Hd as [Hd Hd']. unfold compare_fields, comp_cmp.
    unfold NameComponentMax in *. rewrite !i32_small by lia. unfold sgn.
    destruct (N.compare_spec (c_type c) (c_type d)) as [E|E|E]; simpl;
      [rewrite E, Z.sub_diag; simpl
      |rewrite (proj2 (Z.eqb_neq _ _)) by lia; simpl; apply Z.compare_lt_iff; lia
      |rewrite (proj2 (Z.eqb_neq _ _)) by lia; simpl; apply Z.compare_gt_iff; lia].
    destruct (N.compare_spec (N.of_nat (length (c_value c))) (N.of_nat (length (c_value d)))) as [F|F|F];
      simpl; [rewrite (proj2 (Z.eqb_eq _ _)) by lia; simpl
      |rewrite (proj2 (Z.eqb_neq _ _)) by lia; simpl; apply Z.compare_lt_iff; lia
      |rewrite (proj2 (Z.eqb_neq _ _)) by lia; simpl; apply Z.compare_gt_iff; lia].
    destruct (c_value c), (c_value d); simpl in *; try done; lia.
Qed.

Lemma comp_compare_paths_witness :
  compare_wire (generic [x41]) (generic [x42]) = Lt /\ compare_fields (generic [x41]) (generic [x42]) = Lt.
Proof.
  destruct (comp_compare_paths (generic [x41]) (generic [x42])) as (-> & -> & _);
    [by split..|]. by vm_compute.
Defined.

(** ** Prefixes and sub-names *)

Lemma prefix_loop_spec n m : (length n <= length m)%nat -> prefix_loop n m = true <-> n `prefix_of` m.
Proof.
  revert m. induction n as [|c n IH]; intros [|d m] H; simpl in *; try lia.
  - split; [intros; apply prefix_nil | done].
  - split; [intros; apply prefix_nil | done].
  - rewrite andb_true_iff, bool_decide_eq_true, IH by lia. split.
    + intros [-> ?]. by apply prefix_cons.
    + intros H'. split; [by eapply prefix_cons_inv_1 | by eapply prefix_cons_inv_2].
Qed.

Lemma isPrefixOf_spec n m : isPrefixOf n m = true <-> n `prefix_of` m.
Proof.
  unfold isPrefixOf. destruct (Nat.ltb_spec (length m) (length n)) as [H|H].
  - split; [done|]. intros ?%prefix_length. lia.
  - by apply prefix_loop_spec.
Qed.

Lemma Name_equals_spec n m : Name_equals n m = true <-> n = m.
Proof.
  unfold Name_equals. destruct (Nat.eqb_spec (length n) (length m)) as [H|H]; simpl.
  - rewrite prefix_loop_spec by lia. split; [|by intros ->].
    intros [k ->]. rewrite length_app in H. destruct k; simpl in *; [by rewrite app_nil_r|lia].
  - split; [done|]. by intros ->.
Qed.

#[global] Instance isPrefixOf_dec n m : Decision (isPrefixOf n m = true) := decide _.

Lemma isPrefixOf_refl n : isPrefixOf n n = true.
Proof. by apply isPrefixOf_spec. Qed.

Lemma isPrefixOf_nil n : isPrefixOf [] n = true.
Proof. apply isPrefixOf_spec, prefix_nil. Qed.

#[export] Hint Resolve isPrefixOf_refl isPrefixOf_nil : ndn.

Definition name_small (n : Name) : Prop := (Z.of_nat (length n) < 2 ^ 63)%Z.

Lemma u64_small z : (0 <= z < 2 ^ 64)%Z -> u64 z = z.
Proof. apply Z.mod_small. Qed.

Lemma getPrefix_nonneg n (k : nat) :
  (Z.of_nat k < 2 ^ 63)%Z -> getPrefix n (Z.of_nat k) = take k n.
Proof.
  intros Hk. unfold getPrefix, getSubName.
  rewrite (proj2 (Z.ltb_ge _ _)) by lia. cbn [Z.ltb]. change (0 <? 0)%Z with false. cbv iota.
  change (if (0 <? 0)%Z then 0%Z else 0%Z) with 0%Z. rewrite Z.add_0_l, Z.sub_0_r.
  change (Z.to_nat 0) with 0%nat. rewrite drop_0.
  rewrite (proj2 (Z.eqb_neq _ _)) by (unfold npos; lia).
  rewrite u64_small by lia. replace (Z.to_nat _) with (Nat.min (length n) k) by lia.
  destruct (Nat.min_spec (length n) k) as [[? ->]|[? ->]]; [|done].
  by rewrite !take_ge by lia.
Qed.

Lemma getPrefix_neg n :
  name_small n -> n <> [] -> getPrefix n (-1) = take (length n - 1) n.
Proof.
  intros Hn Hne. assert (0 < length n)%nat by (destruct n; simpl; [done|lia]).
  pose proof Hn as Hn'. unfold name_small in Hn'.
  rewrite <- (getPrefix_nonneg n (length n - 1)) by lia.
  unfold getPrefix. change (-1 <? 0)%Z with true. cbv iota.
  rewrite (proj2 (Z.ltb_ge (Z.of_nat _) _)) by lia.
  rewrite u64_small by lia. f_equal. lia.
Qed.

(** The whole-name comparison is the general one on the full ranges. *)
Lemma compare_loop_spec n m i :
  (length n - i <= length n)%nat ->
  match compare_loop (Nat.min (length n - i) (length m - i)) n m i i with
  | Eq => Nat.compare (length n - i) (length m - i)
  | r => r
  end = Name_cmp (drop i n) (drop i m).
Proof.
  intros _. remember (Nat.min (length n - i) (length m - i)) as k eqn:Hk.
  revert i Hk. induction k as [|k IH]; intros i Hk; simpl.
  - destruct (Nat.le_gt_cases (length n) i) as [H|H].
    + rewrite (drop_ge n) by lia. replace (length n - i)%nat with 0%nat by lia.
      destruct (drop i m) eqn:E; apply (f_equal length) in E; rewrite length_drop in E; simpl in *.
      * by rewrite E.
      * rewrite E. done.
    + rewrite (drop_ge m) by lia. replace (length m - i)%nat with 0%nat by lia.
      destruct (drop i n) eqn:E; apply (f_equal length) in E; rewrite length_drop in E; simpl in *.
      * lia.
      * rewrite E. done.
  - destruct (lookup_lt_is_Some_2 n i) as [c Hc]; [lia|].
    destruct (lookup_lt_is_Some_2 m i) as [d Hd]; [lia|].
    rewrite Hc, Hd, (drop_S n c i Hc), (drop_S m d i Hd). simpl.
    destruct (comp_cmp c d); try done. rewrite <- IH by lia.
    replace (length n - i)%nat with (S (length n - S i)) by (apply lookup_lt_Some in Hc; lia).
    by replace (length m - i)%nat with (S (length m - S i)) by (apply lookup_lt_Some in Hd; lia).
Qed.

Lemma Name_compare_full n m :
  Name_compare n 0 (length n) m 0 (length m) = Name_cmp n m.
Proof.
  unfold Name_compare. rewrite !Nat.sub_0_r, !Nat.min_id.
  pose proof (compare_loop_spec n m 0) as H. rewrite !Nat.sub_0_r in H. by apply H.
Qed.

(** The ranges the tables use: the tails from a position on, and a prefix of the first
    name against the whole of the second. *)
Lemma Name_compare_tail n m k c d :
  (length n <= c)%nat -> (length m <= d)%nat ->
  Name_compare n k c m k d = Name_cmp (drop k n) (drop k m).
Proof.
  intros Hc Hd. unfold Name_compare.
  replace (Nat.min c (length n - k)) with (length n - k)%nat by lia.
  replace (Nat.min d (length m - k)) with (length m - k)%nat by lia.
  apply (compare_loop_spec n m k). lia.
Qed.

Lemma compare_loop_take k n m p q count :
  (p + count <= k)%nat -> compare_loop count (take k n) m p q = compare_loop count n m p q.
Proof.
  revert p q. induction count as [|c IH]; intros p q H; simpl; [done|].
  rewrite lookup_take, decide_True by lia. by rewrite IH by lia.
Qed.

Lemma Name_compare_prefix n m k d :
  (length m <= d)%nat -> Name_compare n 0 k m 0 d = Name_cmp (take k n) m.
Proof.
  intros Hd. pose proof (Name_compare_tail (take k n) m 0 (length n) d) as H.
  rewrite !drop_0 in H. rewrite <- H by (rewrite ?length_take; lia).
  unfold Name_compare. rewrite length_take, !Nat.sub_0_r.
  replace (Nat.min (length n) (Nat.min k (length n))) with (Nat.min k (length n)) by lia.
  rewrite compare_loop_take; [done|lia].
Qed.

(** ** Successors *)

Lemma bytes_cmp_be l k :
  length l = length k -> bytes_cmp l k = N.compare (be_decode l) (be_decode k).
Proof.
  intros H. rewrite <- (be_encode_decode l) at 1. rewrite <- (be_encode_decode k) at 1.
  rewrite <- H. apply be_encode_cmp; [apply be_decode_bound|]. rewrite H. apply be_decode_bound.
Qed.

Lemma Nb_succ_zero b : Nb (bN b + 1) = x00 <-> bN b = 255%N.
Proof.
  pose proof (bN_bound b). rewrite <- (inj_iff bN), bN_Nb. change (bN x00) with 0%N. split.
  - intros E. destruct (N.eq_dec (bN b) 255%N); [done|]. rewrite N.mod_small in E; lia.
  - by intros ->.
Qed.

(** Increment with carry is addition of one modulo 256^length. *)
Lemma increment_rev_spec l :
  let '(o, r) := increment_rev l in
  length r = length l /\
  (o = false -> be_decode (reverse r) = (be_decode (reverse l) + 1)%N) /\
  (o = true -> (be_decode (reverse l) + 1 = 256 ^ N.of_nat (length l))%N /\
               r = replicate (length l) x00).
Proof.
  induction l as [|b l IH]; simpl; [done|].
  assert (forall v k, be_decode (reverse (v :: k)) = (be_decode (reverse k) * 256 + bN v)%N) as S.
  { intros v k. rewrite reverse_cons, be_decode_app. simpl. unfold be_decode at 2. simpl. lia. }
  case_decide as E.
  - apply Nb_succ_zero in E as E'. destruct (increment_rev l) as [o r]. destruct IH as (IHl & IHf & IHt).
    split_conj; simpl; [by f_equal| |]; intros ->.
    + rewrite !S, IHf, E, E' by done. change (bN x00) with 0%N. lia.
    + destruct IHt as [IHt ->]; [done|]. rewrite S, E'. split; [|done].
      replace (N.of_nat (Datatypes.S (length l))) with (N.succ (N.of_nat (length l))) by lia.
      rewrite N.pow_succ_r'. lia.
  - split_conj. intros _. rewrite !S, bN_Nb, N.mod_small; [lia|].
    pose proof (bN_bound b). rewrite Nb_succ_zero in E. lia.
Qed.

Lemma be_decode_zeros k : be_decode (replicate k x00) = 0%N.
Proof.
  induction k as [|k IH]; [done|]. change (replicate (S k) x00) with ([x00] ++ replicate k x00).
  rewrite be_decode_app, IH. change (be_decode [x00]) with 0%N. lia.
Qed.

Lemma bytes_cmp_zeros_le k v : length v = k -> bytes_cmp (replicate k x00) v <> Gt.
Proof.
  intros <-. rewrite bytes_cmp_be by by rewrite length_replicate.
  rewrite be_decode_zeros. intros ?%N.compare_gt_iff. lia.
Qed.

(** The canonical order in numbers. *)
Lemma comp_lt_iff c d :
  comp_cmp c d = Lt <->
  (c_type c < c_type d)%N \/
  (c_type c = c_type d /\
   (length (c_value c) < length (c_value d) \/
    (length (c_value c) = length (c_value d) /\
     (be_decode (c_value c) < be_decode (c_value d))%N))).
Proof.
  unfold comp_cmp. rewrite !cmp_then_lt, !N.compare_lt_iff, !N.compare_eq_iff.
  split; (intros [H|[H [H'|[H' H'']]]]; [by left|right; split; [done|left; lia]|]);
    right; (split; [done|]); right; (split; [lia|]).
  - rewrite bytes_cmp_be in H'' by lia. by apply N.compare_lt_iff in H''.
  - rewrite bytes_cmp_be by done. by apply N.compare_lt_iff.
Qed.

Lemma cmp_not_gt {A} (cmp : A -> A -> comparison) `{!TotalCmp cmp} x y :
  cmp x y <> Gt <-> cmp y x <> Lt.
Proof. by rewrite cmp_gt_lt. Qed.

(** What [getSuccessorImpl] does to the value. *)
Lemma getSuccessorImpl_spec c :
  let '(o, s) := getSuccessorImpl c in
  c_type s = c_type c /\
  (o = false -> length (c_value s) = length (c_value c) /\
                be_decode (c_value s) = (be_decode (c_value c) + 1)%N) /\
  (o = true -> (be_decode (c_value c) + 1 = 256 ^ N.of_nat (length (c_value c)))%N /\
               c_value s = replicate (S (length (c_value c))) x00).
Proof.
  unfold getSuccessorImpl. pose proof (increment_rev_spec (reverse (c_value c))) as H.
  destruct (increment_rev _) as [o r]. rewrite length_reverse, reverse_involutive in H.
  destruct H as (Hl & Hf & Ht). simpl. split_conj; intros ->.
  - rewrite length_reverse. auto.
  - destruct Ht as [Ht ->]; [done|]. split; [done|].
    by rewrite reverse_replicate, <- replicate_S_end.
Qed.

Lemma isSha256Type_cases t : isSha256Type t = true -> (t = 1 \/ t = 2)%N.
Proof. unfold isSha256Type. rewrite orb_true_iff, !N.eqb_eq. done. Qed.

Lemma ensureValid_digest c :
  ensureValid c = true -> isSha256Type (c_type c) = true -> length (c_value c) = DIGEST_SIZE.
Proof.
  unfold ensureValid. intros H E. rewrite E in H. bool_to_prop. by apply Nat.eqb_eq.
Qed.

Lemma getMinValue_least t d :
  ensureValid d = true -> c_type d = t ->
  (length (getMinValue t) < length (c_value d))%nat \/
  (length (getMinValue t) = length (c_value d) /\ (be_decode (getMinValue t) <= be_decode (c_value d))%N).
Proof.
  intros Hd Ht. unfold getMinValue. destruct (isSha256Type t) eqn:E.
  - rewrite <- Ht in E. rewrite (ensureValid_digest d Hd E), length_replicate, be_decode_zeros.
    right. split; [done|lia].
  - simpl. destruct (c_value d); simpl; [right|left; lia]. split; [done|].
    change (be_decode []) with 0%N. lia.
Qed.

(** The successor is the least valid component above [c]. *)
Lemma comp_getSuccessor_spec c d :
  ensureValid c = true -> ensureValid d = true ->
  comp_cmp c d = Lt <-> comp_cmp (comp_getSuccessor c) d <> Gt.
Proof.
  intros Hc Hd. rewrite (cmp_not_gt comp_cmp), !comp_lt_iff.
  pose proof (getSuccessorImpl_spec c) as H. unfold comp_getSuccessor, type_getSuccessor.
  destruct (getSuccessorImpl c) as [o s]. destruct H as (Ht & Hf & Htr).
  pose proof (be_decode_bound (c_value d)) as Bd.
  destruct (isSha256Type (c_type c)) eqn:E; [destruct o|]; cbn [negb].
  - destruct Htr as [Hm _]; [done|]. cbn [c_type c_value].
    assert (c_type c = c_type d -> length (c_value c) = length (c_value d)) as Hlen.
    { intros Hcd. rewrite (ensureValid_digest c Hc E), ensureValid_digest; [done..|by rewrite <- Hcd]. }
    pose proof (getMinValue_least (c_type c + 1) d Hd) as Hmin. split.
    + intros [H|[H [H'|[H' H'']]]]; [|rewrite Hlen in H' by done; lia|rewrite H' in Hm; lia].
      intros [K|[K [K'|[K' K'']]]]; destruct Hmin; lia.
    + intros K. destruct (N.lt_ge_cases (c_type c) (c_type d)); [by left|].
      exfalso. apply K. left. lia.
  - destruct Hf as [Hl Hv]; [done|]. rewrite Ht, Hl, Hv. lia.
  - rewrite Ht. destruct o.
    + destruct Htr as [Hm Hv]; [done|]. rewrite Hv, length_replicate, be_decode_zeros. split.
      * intros [H|[H [H'|[H' H'']]]]; [lia| |rewrite H' in Hm; lia].
        intros [K|[K [K'|[K' K'']]]]; lia.
      * intros K. destruct (N.lt_trichotomy (c_type c) (c_type d)) as [|[Heq|]]; [by left| |];
          [|exfalso; apply K; left; lia]. right. split; [done|]. left.
        destruct (Nat.le_gt_cases (length (c_value d)) (length (c_value c))); [|lia].
        exfalso. apply K. right. split; [done|]. left. lia.
    + destruct Hf as [Hl Hv]; [done|]. rewrite Hl, Hv. lia.
Qed.

Lemma comp_lt_successor c : ensureValid c = true -> comp_cmp c (comp_getSuccessor c) = Lt.
Proof.
  intros Hc. pose proof (comp_getSuccessor_spec c c Hc Hc) as H.
  rewrite (cmp_refl (cmp:=comp_cmp)) in H. apply (cmp_gt_lt (cmp:=comp_cmp)).
  destruct (comp_cmp (comp_getSuccessor c) c); [..|done]; destruct H as [_ H]; by discriminate H.
Qed.

Definition valid_name (n : Name) : Prop := Forall (fun c => ensureValid c = true) n /\ name_small n.

Lemma Name_getSuccessor_snoc n c :
  name_small (n ++ [c]) -> Name_getSuccessor (n ++ [c]) = n ++ [comp_getSuccessor c].
Proof.
  intros Hs. unfold Name_getSuccessor. rewrite last_snoc, getPrefix_neg by (done || by destruct n).
  rewrite length_app, Nat.add_sub, take_app_length. done.
Qed.

Lemma Name_cmp_app_eq n x y : Name_cmp (n ++ x) (n ++ y) = Name_cmp x y.
Proof. induction n as [|c n IH]; simpl; [done|]. by rewrite (cmp_refl (cmp:=comp_cmp)). Qed.

(** The names a non-empty name is a prefix of are those from it up to its successor. *)
Lemma successor_range (n x : Name) :
  n <> [] -> valid_name n -> Forall (fun c => ensureValid c = true) x ->
  isPrefixOf n x = true <->
  Name_cmp n x <> Gt /\ Name_cmp x (Name_getSuccessor n) = Lt.
Proof.
  intros Hne [Hv Hs] Hx. destruct n as [|c n _] using rev_ind; [done|].
  rewrite Name_getSuccessor_snoc by done. apply Forall_app in Hv as [_ Hc].
  apply Forall_cons in Hc as [Hc _]. rewrite isPrefixOf_spec. clear Hs Hne. revert x Hx.
  induction n as [|e n IH]; intros [|d x] Hx; cbn [app Name_cmp].
  - split; [by intros ?%prefix_nil_inv|by intros []].
  - apply Forall_cons in Hx as [Hd _]. pose proof (comp_getSuccessor_spec c d Hc Hd) as Hsucc. split.
    + intros ->%prefix_cons_inv_1. rewrite (cmp_refl (cmp:=comp_cmp)).
      split; [by destruct x|]. by rewrite comp_lt_successor.
    + intros [H1 H2]. assert (comp_cmp c d = Eq) as ->%cmp_eq; [|apply prefix_cons, prefix_nil].
      destruct (comp_cmp c d) eqn:E; [done| |done]. exfalso.
      assert (comp_cmp d (comp_getSuccessor c) <> Lt) as K by by apply (cmp_not_gt comp_cmp), Hsucc.
      destruct (comp_cmp d (comp_getSuccessor c)) eqn:F; try done. by destruct x.
  - split; [by intros ?%prefix_nil_inv|by intros []].
  - apply Forall_cons in Hx as [_ Hx]. destruct (comp_cmp e d) eqn:E.
    + apply cmp_eq in E as ->. rewrite (cmp_refl (cmp:=comp_cmp)), <- IH by done.
      split; [apply prefix_cons_inv_2|apply prefix_cons].
    + split; [intros ->%prefix_cons_inv_1; by rewrite (cmp_refl (cmp:=comp_cmp)) in E|].
      intros [_ H]. rewrite (proj2 (cmp_gt_lt d e) E) in H. done.
    + split; [intros ->%prefix_cons_inv_1; by rewrite (cmp_refl (cmp:=comp_cmp)) in E|by intros []].
Qed.

(** the documented contract of [Name::getSuccessor], on which every prefix range scan of
    the program rests (the Content Store, the strategy registry): for a non-empty valid name
    [n], the valid names that [n] is a prefix of are exactly those in the half-open interval
    [n, n.getSuccessor()) of the canonical order. *)
Theorem prefix_range (n x : Name) :
  n <> [] -> valid_name n -> Forall (fun c => ensureValid c = true) x ->
  isPrefixOf n x = true <->
  Name_cmp n x <> Gt /\ Name_cmp x (Name_getSuccessor n) = Lt.
Proof. apply successor_range. Qed.

Lemma prefix_range_witness :
  let n := [generic [x41]; generic [xff]] in
  isPrefixOf n (n ++ [generic [x00]]) = true /\ Name_cmp (n ++ [generic [x00]]) (Name_getSuccessor n) = Lt.
Proof.
  intros n. assert (isPrefixOf n (n ++ [generic [x00]]) = true) as H by by vm_compute.
  split; [exact H|]. refine (proj2 (proj1 (prefix_range n (n ++ [generic [x00]]) _ _ _) H)); [done| |].
  - split; [by repeat constructor|by vm_compute].
  - by repeat constructor.
Defined.

(** ** Naming conventions *)

Lemma writeNonNegativeInteger_length n :
  let k := length (writeNonNegativeInteger n) in k = 1 \/ k = 2 \/ k = 4 \/ k = 8.
Proof.
  unfold writeNonNegativeInteger. repeat case_scrutinee; simpl; rewrite ?length_be_encode; auto.
Qed.

Lemma readNonNegativeInteger_write n :
  (n < 2 ^ 64)%N ->
  readNonNegativeInteger (length (writeNonNegativeInteger n)) (writeNonNegativeInteger n) = inr (n, []).
Proof.
  intros Hn. destruct (read_write_nonneg n [] Hn) as [H L].
  by rewrite <- L, Nat2N.id, app_nil_r in H.
Qed.

(** Every naming convention round-trips under either encoding style: a component made by
    [fromVersion], [fromSegment], ... from a 64-bit number is recognised by the matching
    predicate and decodes to that number, when decoding accepts the style used to encode. *)
Theorem convention_roundtrip (cv : Conventions) (marker : byte) (type n : N) :
  (n < 2 ^ 64)%N -> type <> GenericNameComponent ->
  (if encodeMarker cv then canDecodeMarker cv else canDecodeTyped cv) = true ->
  isConvention cv marker type (fromConvention cv marker type n) = true /\
  toConvention cv marker type (fromConvention cv marker type n) = Some n.
Proof.
  intros Hn Ht Hcv. pose proof (writeNonNegativeInteger_length n) as L.
  pose proof (readNonNegativeInteger_write n Hn) as R.
  unfold isConvention, toConvention, fromConvention.
  destruct (encodeMarker cv); rewrite Hcv; cbn [fromNumberWithMarker fromNumber c_type c_value].
  - rewrite N.eqb_refl. cbn [andb]. unfold toNumberWithMarker, isNumberWithMarker.
    cbn [fromNumberWithMarker c_value length tail head]. rewrite decide_True by done.
    rewrite Nat.sub_succ, Nat.sub_0_r, R.
    by destruct L as [->|[->|[->| ->]]].
  - rewrite N.eqb_refl, (proj2 (N.eqb_neq _ _) Ht), andb_false_r. cbn [andb orb].
    unfold toNumber, isNumber. cbn [fromNumber c_value]. rewrite R.
    by destruct L as [->|[->|[->| ->]]].
Qed.

Lemma convention_roundtrip_witness :
  toVersion default_conventions (fromVersion default_conventions 5) = Some 5%N.
Proof. exact (proj2 (convention_roundtrip default_conventions VERSION_MARKER VersionNameComponent 5 eq_refl ltac:(done) eq_refl)). Defined.
