(* ===== verification/Uri.v ===== *)
(** * The URI syntax of names (ndn-cxx name.cpp, name-component.cpp,
    impl/name-component-types.hpp, util/string-helper.cpp)

    Printing a name as a URI and parsing it back, with percent escapes, typed components,
    hexadecimal digests and decimal numbers. Strings are lists of bytes. The C library's
    number parsers ([strtoul], [stoull], [stoi]) are here too; and, at the end, the names of
    file segments and the counts that the forwarder and the file transfer programs write and
    read as text. *)

From S2P Require Import Prelude Tlv Name.

Abbreviation text := (list byte) (only parsing).
Definition str (s : string) : text := String.list_byte_of_string s.

(** ** Numbers *)

Definition is_digit (c : byte) : bool := (48 <=? bN c)%N && (bN c <=? 57)%N.
Definition digit (n : N) : byte := Nb (48 + n).

(** [std::to_string] of an unsigned number; the fuel is enough for the number's bits. *)
Fixpoint decimal (fuel : nat) (n : N) : text :=
  match fuel with
  | O => [digit n]
  | S fuel' => if (n <? 10)%N then [digit n] else decimal fuel' (n / 10) ++ [digit (n mod 10)]
  end.
Definition to_string (n : N) : text := decimal (N.to_nat (N.size n)) n.

(** The common part of the number parsers: white space, a sign, digits. The result is the
    sign and the value; [None] when there is no digit. *)
Definition is_space (c : byte) : bool := ((9 <=? bN c) && (bN c <=? 13) || (bN c =? 32))%N.
Fixpoint skip_space (l : text) : text :=
  match l with
  | c :: l' => if is_space c then skip_space l' else l
  | [] => []
  end.
Fixpoint digits (acc : N) (l : text) : N :=
  match l with
  | c :: l' => if is_digit c then digits (acc * 10 + (bN c - 48)) l' else acc
  | [] => acc
  end.
Definition parse_int (l : text) : option (bool * N) :=
  let l := skip_space l in
  let '(neg, l) := match l with
                   | c :: l' => if (bN c =? 45)%N then (true, l') else if (bN c =? 43)%N then (false, l') else (false, l)
                   | [] => (false, [])
                   end in
  match l with
  | c :: _ => if is_digit c then Some (neg, digits 0 l) else None
  | [] => None
  end.

(** [std::strtoul] with base 10, on 64 bits. *)
Definition wrap_neg (neg : bool) (n : N) : N := if neg then ((2 ^ 64 - n) mod 2 ^ 64)%N else n.
Definition strtoul (l : text) : N :=
  match parse_int l with
  | None => 0
  | Some (neg, n) => if (2 ^ 64 <=? n)%N then 2 ^ 64 - 1 else wrap_neg neg n
  end.
(** [std::stoull] and [std::stoi]: [None] is an exception. *)
Definition stoull (l : text) : option N :=
  '(neg, n) ← parse_int l; if (2 ^ 64 <=? n)%N then None else Some (wrap_neg neg n).
Definition stoi (l : text) : option Z :=
  '(neg, n) ← parse_int l;
  let z := if neg : bool then (- Z.of_N n)%Z else Z.of_N n in
  if ((- 2 ^ 31 <=? z) && (z <? 2 ^ 31))%Z then Some z else None.

(** ** Escapes and hexadecimal *)

Definition isUnreserved (c : byte) : bool :=
  let n := bN c in
  ((97 <=? n) && (n <=? 122) || (65 <=? n) && (n <=? 90) || (48 <=? n) && (n <=? 57)
   || (n =? 45) || (n =? 46) || (n =? 95) || (n =? 126))%N.

Definition toHexChar (n : N) (wantUpperCase : bool) : byte :=
  let n := N.land n 15 in
  if (n <? 10)%N then Nb (48 + n) else Nb ((if wantUpperCase then 55 else 87) + n).
Definition fromHexChar (c : byte) : option N :=
  let n := bN c in
  if ((48 <=? n) && (n <=? 57))%N then Some (n - 48)%N
  else if ((65 <=? n) && (n <=? 70))%N then Some (n - 55)%N
  else if ((97 <=? n) && (n <=? 102))%N then Some (n - 87)%N
  else None.

Definition escape_byte (c : byte) : text :=
  if isUnreserved c then [c]
  else [x25; toHexChar (N.shiftr (bN c) 4) true; toHexChar (bN c) true].
Definition escape (l : text) : text := mjoin (escape_byte <$> l).
Fixpoint unescape (l : text) : text :=
  match l with
  | [] => []
  | c :: rest =>
      match rest with
      | h :: l :: rest' =>
          if bool_decide (c = x25) then
            match fromHexChar h, fromHexChar l with
            | Some hi, Some lo => Nb (hi * 16 + lo) :: unescape rest'
            | _, _ => c :: h :: l :: unescape rest'
            end
          else c :: unescape rest
      | _ => c :: unescape rest
      end
  end.

(** [printHex] in lower case, and [fromHex]; [None] is the [StringHelperError]. *)
Definition printHex (l : text) : text :=
  mjoin ((fun c => [toHexChar (N.shiftr (bN c) 4) false; toHexChar (bN c) false]) <$> l).
Fixpoint fromHex (l : text) : option text :=
  match l with
  | [] => Some []
  | [_] => None
  | h :: l :: rest =>
      match fromHexChar h, fromHexChar l with
      | Some hi, Some lo => (fun r => Nb (hi * 16 + lo) :: r) <$> fromHex rest
      | _, _ => None
      end
  end.

(** ** Components *)

(** The URI prefixes of the component types that have one. *)
Definition uriPrefixes : list (text * N) :=
  [(str "sha256digest", ImplicitSha256DigestComponent); (str "params-sha256", ParametersSha256DigestComponent);
   (str "seg", SegmentNameComponent); (str "off", ByteOffsetNameComponent); (str "v", VersionNameComponent);
   (str "t", TimestampNameComponent); (str "seq", SequenceNumNameComponent)].
Definition findByUriPrefix (p : text) : option N :=
  snd <$> find (fun e => bool_decide (e.1 = p)) uriPrefixes.
Definition getAltUriPrefix (type : N) : option text :=
  fst <$> find (fun e => (e.2 =? type)%N) uriPrefixes.

(** A component with the checks of its constructor: [None] is the [Error] it throws. *)
Definition make_component (type : N) (value : text) : option Component :=
  let c := mkComponent type value in if ensureValid c then Some c else None.

Definition is_period (c : byte) : bool := bool_decide (c = x2e).
Definition writeUriEscapedValue (c : Component) : text :=
  (if forallb is_period (c_value c) then [x2e; x2e; x2e] else []) ++ escape (c_value c).
(** [ComponentType::writeUri] of the base class. *)
Definition writeUri_plain (c : Component) : text := to_string (c_type c) ++ [x3d] ++ writeUriEscapedValue c.
(** [Component::toUri]: [alt] chooses the alternate format. *)
Definition comp_toUri (alt : bool) (c : Component) : text :=
  if negb alt then writeUri_plain c
  else if isGeneric c then writeUriEscapedValue c
  else match getAltUriPrefix (c_type c) with
       | None => writeUri_plain c
       | Some p =>
           if isSha256Type (c_type c) then p ++ [x3d] ++ printHex (c_value c)
           else match toNumber c with
                | Some n => p ++ [x3d] ++ to_string n
                | None => writeUri_plain c
                end
       end.

(** [parseUriEscapedValue] and [parseAltUriValue]. *)
Definition parseUriEscapedValue (type : N) (input : text) : option Component :=
  let value := unescape input in
  if forallb is_period value then
    if (length value <? 3)%nat then None else make_component type (take (length value - 3) value)
  else make_component type value.
Definition parseAltUriValue (type : N) (input : text) : option Component :=
  if isSha256Type type then value ← fromHex input; make_component type value
  else n ← stoull input; if bool_decide (to_string n = input) then Some (fromNumber n type) else None.

(** The text before and after the first byte that satisfies [P]. *)
Fixpoint split_at (P : byte -> bool) (l : text) : text * option text :=
  match l with
  | [] => ([], None)
  | c :: l' => if P c then ([], Some l') else let '(a, b) := split_at P l' in (c :: a, b)
  end.
Definition is_eq (c : byte) : bool := bool_decide (c = x3d).
Definition is_slash (c : byte) : bool := bool_decide (c = x2f).
Definition is_colon (c : byte) : bool := bool_decide (c = x3a).

(** [Component::fromEscapedString]. *)
Definition fromEscapedString (input : text) : option Component :=
  match split_at is_eq input with
  | (_, None) => parseUriEscapedValue GenericNameComponent input
  | (typePrefix, Some value) =>
      let type := strtoul typePrefix in
      if (NameComponentMin <=? type)%N && (type <=? NameComponentMax)%N && bool_decide (to_string type = typePrefix)
      then parseUriEscapedValue type value
      else ct ← findByUriPrefix typePrefix; parseAltUriValue ct value
  end.

(** ** Names *)

Definition Name_toUri (alt : bool) (n : Name) : text :=
  match n with
  | [] => [x2f]
  | _ => mjoin ((fun c => x2f :: comp_toUri alt c) <$> n)
  end.

(** The loop that cuts the rest of a URI at its slashes; nothing follows a final slash. *)
Fixpoint uri_components (cur : text) (l : text) : list text :=
  match l with
  | [] => match cur with [] => [] | _ => [cur] end
  | c :: l' => if is_slash c then cur :: uri_components [] l' else uri_components (cur ++ [c]) l'
  end.

(** [Name::Name(std::string)]: [None] is an exception. *)
Definition drop_scheme (uri : text) : text :=
  match split_at is_colon uri with
  | (_, None) => uri
  | (before, Some after) => if existsb is_slash before then uri else after
  end.
Definition drop_authority (uri : text) : text :=
  match uri with
  | c :: rest =>
      if is_slash c then
        match rest with
        | d :: rest' => if is_slash d then match split_at is_slash rest' with (_, Some r) => r | _ => [] end else rest
        | [] => []
        end
      else uri
  | [] => []
  end.
Definition Name_of_uri (uri : text) : option Name :=
  mapM fromEscapedString (uri_components [] (drop_authority (drop_scheme uri))).

Example uri_examples :
  Name_of_uri (str "File") = Some [generic (str "File")] /\
  Name_of_uri (str "ndn:/a/seg=5/...") = Some [generic (str "a"); fromNumber 5 SegmentNameComponent; generic []] /\
  Name_toUri true [generic (str "a b"); generic []] = str "/a%20b/..." /\
  Name_of_uri (str "/a//b") = None.
Proof. by vm_compute. Qed.

(** ** Numbers print and parse back *)

Lemma bN_digit n : (n < 10)%N -> bN (digit n) = (48 + n)%N.
Proof. intros H. unfold digit. rewrite bN_Nb, N.mod_small; lia. Qed.
Lemma is_digit_digit n : (n < 10)%N -> is_digit (digit n) = true.
Proof. intros H. unfold is_digit. rewrite bN_digit by done. apply andb_true_iff. rewrite !N.leb_le. lia. Qed.

Lemma decimal_digits fuel n : (n < 10 * 2 ^ N.of_nat fuel)%N -> Forall (fun c => is_digit c = true) (decimal fuel n).
Proof.
  revert n. induction fuel as [|f IH]; intros n H; simpl.
  - repeat constructor. apply is_digit_digit. simpl in H. lia.
  - destruct (N.ltb_spec n 10); [repeat constructor; by apply is_digit_digit|].
    apply Forall_app. split.
    + apply IH. rewrite Nat2N.inj_succ, N.pow_succ_r' in H. apply N.Div0.div_lt_upper_bound. lia.
    + repeat constructor. apply is_digit_digit, N.mod_lt. lia.
Qed.

Lemma digits_app a l k : Forall (fun c => is_digit c = true) l -> digits a (l ++ k) = digits (digits a l) k.
Proof. intros H. revert a. induction H as [|c l Hc _ IH]; intros a; simpl; [done|]. rewrite Hc. apply IH. Qed.

Lemma digits_decimal fuel n : (n < 10 * 2 ^ N.of_nat fuel)%N -> digits 0 (decimal fuel n) = n.
Proof.
  revert n. induction fuel as [|f IH]; intros n H; cbn [decimal].
  - simpl in H. unfold digits. rewrite is_digit_digit, bN_digit by lia. lia.
  - destruct (N.ltb_spec n 10).
    + unfold digits. rewrite is_digit_digit, bN_digit by done. lia.
    + assert (n / 10 < 10 * 2 ^ N.of_nat f)%N as Hf.
      { rewrite Nat2N.inj_succ, N.pow_succ_r' in H. apply N.Div0.div_lt_upper_bound. lia. }
      rewrite digits_app by by apply decimal_digits. rewrite IH by done. unfold digits.
      assert (n mod 10 < 10)%N by (apply N.mod_lt; lia).
      rewrite is_digit_digit, bN_digit by done. pose proof (N.div_mod' n 10) as Hd. clear -Hd. set (q := (n `div` 10)%N) in *. set (r := (n `mod` 10)%N) in *. clearbody q r. lia.
Qed.

Lemma size_enough n : (n < 10 * 2 ^ N.of_nat (N.to_nat (N.size n)))%N.
Proof. rewrite N2Nat.id. pose proof (N.size_gt n). lia. Qed.

Lemma to_string_digits n : Forall (fun c => is_digit c = true) (to_string n).
Proof. apply decimal_digits, size_enough. Qed.

Lemma digit_range c : is_digit c = true -> (48 <= bN c <= 57)%N.
Proof. unfold is_digit. rewrite andb_true_iff, !N.leb_le. lia. Qed.

Lemma to_string_cons n : exists c l, to_string n = c :: l /\ is_digit c = true.
Proof.
  pose proof (to_string_digits n) as H. destruct (to_string n) as [|c l] eqn:E; [|inversion H; eauto].
  exfalso. unfold to_string in E. destruct (N.to_nat (N.size n)); simpl in E; [done|].
  destruct (n <? 10)%N; [done|]. by apply app_nil in E as [_ ?].
Qed.

(** What follows the number does not matter if it is no digit. *)
Lemma parse_int_to_string n rest :
  match rest with [] => True | c :: _ => is_digit c = false end ->
  parse_int (to_string n ++ rest) = Some (false, n).
Proof.
  intros Hr. destruct (to_string_cons n) as (c & l & E & Hc). pose proof (digit_range c Hc).
  assert (digits 0 (to_string n ++ rest) = n) as Hd.
  { rewrite digits_app by apply to_string_digits. unfold to_string.
    rewrite digits_decimal by apply size_enough. destruct rest as [|d r]; simpl; [done|]. by rewrite Hr. }
  rewrite E in *. unfold parse_int. simpl app in *. cbn [skip_space].
  assert (is_space c = false) as ->.
  { unfold is_space. apply orb_false_iff. rewrite andb_false_iff, !N.leb_gt, N.eqb_neq. lia. }
  rewrite (proj2 (N.eqb_neq (bN c) 45)), (proj2 (N.eqb_neq (bN c) 43)) by lia. rewrite Hc. by rewrite Hd.
Qed.

Lemma parse_to_string n : parse_int (to_string n) = Some (false, n).
Proof. rewrite <- (app_nil_r (to_string n)). by apply parse_int_to_string. Qed.

Lemma strtoul_to_string n : (n < 2 ^ 64)%N -> strtoul (to_string n) = n.
Proof. intros H. unfold strtoul. rewrite parse_to_string. by rewrite (proj2 (N.leb_gt _ _)). Qed.
Lemma stoull_to_string n : (n < 2 ^ 64)%N -> stoull (to_string n) = Some n.
Proof. intros H. unfold stoull. rewrite parse_to_string. simpl. by rewrite (proj2 (N.leb_gt _ _)). Qed.

(** ** Escapes *)

(** A fact about every byte, by running through all of them. *)
Lemma every_byte (P : byte -> bool) : forallb (fun n => P (Nb (N.of_nat n))) (seq 0 256) = true -> forall b, P b = true.
Proof.
  intros H b. rewrite forallb_forall in H. specialize (H (N.to_nat (bN b))).
  rewrite N2Nat.id, Nb_bN in H. apply H. apply in_seq. pose proof (bN_bound b). lia.
Qed.

Definition escaped_ok (b : byte) : bool :=
  match escape_byte b with
  | [c] => bool_decide (c = b) && isUnreserved b
  | [p; h; l] => bool_decide (p = x25) &&
      match fromHexChar h, fromHexChar l with Some hi, Some lo => bool_decide (Nb (hi * 16 + lo) = b) | _, _ => false end
  | _ => false
  end.
Lemma escape_byte_ok b : escaped_ok b = true.
Proof. apply every_byte. by vm_compute. Qed.

Lemma unescape_plain c l : c <> x25 -> unescape (c :: l) = c :: unescape l.
Proof.
  intros H. cbn [unescape]. destruct l as [|h [|l' r]]; [done..|]. by rewrite bool_decide_false.
Qed.

Lemma unescape_escape_byte b l : unescape (escape_byte b ++ l) = b :: unescape l.
Proof.
  pose proof (escape_byte_ok b) as H. unfold escaped_ok in H.
  destruct (escape_byte b) as [|c [|h [|k [|]]]]; try done; bool_to_prop; subst.
  - simpl app. apply unescape_plain. intros ->. by vm_compute in H0.
  - simpl app. cbn [unescape]. rewrite bool_decide_true by done.
    destruct (fromHexChar h), (fromHexChar k); try done. bool_to_prop. by subst.
Qed.

Lemma unescape_escape l : unescape (escape l) = l.
Proof.
  unfold escape. induction l as [|b l IH]; [done|]. cbn [fmap list_fmap mjoin list_join].
  rewrite unescape_escape_byte. f_equal. exact IH.
Qed.

Lemma unescape_periods k l : Forall (fun c => is_period c = true) k -> unescape (k ++ l) = k ++ unescape l.
Proof.
  induction 1 as [|c k Hc _ IH]; [done|]. simpl app. rewrite unescape_plain, IH; [done|].
  unfold is_period in Hc. bool_to_prop. by subst.
Qed.

(** Printed text has none of the delimiters. *)
Definition no_delim (c : byte) : bool := negb (is_slash c) && negb (is_eq c).
Lemma escape_no_delim l : Forall (fun c => no_delim c = true) (escape l).
Proof.
  unfold escape. induction l as [|b l IH]; simpl; [constructor|]. apply Forall_app. split; [|done].
  apply Forall_forall. intros c Hc. assert (forallb no_delim (escape_byte b) = true) as H.
  { apply (every_byte (fun b => forallb no_delim (escape_byte b))). by vm_compute. }
  rewrite forallb_forall in H. by apply H, list_elem_of_In.
Qed.
Lemma to_string_no_delim n : Forall (fun c => no_delim c = true) (to_string n).
Proof.
  eapply Forall_impl; [apply to_string_digits|]. intros c Hc%digit_range. unfold no_delim, is_slash, is_eq.
  rewrite !bool_decide_false; [done|intros ->; unfold bN in Hc; simpl in Hc; lia..].
Qed.

Definition hex_ok (b : byte) : bool :=
  let h := toHexChar (N.shiftr (bN b) 4) false in
  let l := toHexChar (bN b) false in
  no_delim h && no_delim l &&
  match fromHexChar h, fromHexChar l with Some hi, Some lo => bool_decide (Nb (hi * 16 + lo) = b) | _, _ => false end.
Lemma hex_byte_ok b : hex_ok b = true.
Proof. apply every_byte. by vm_compute. Qed.

Lemma fromHex_printHex l : fromHex (printHex l) = Some l /\ Forall (fun c => no_delim c = true) (printHex l).
Proof.
  unfold printHex. induction l as [|b l [IH1 IH2]]; [by split|]. cbn [fmap list_fmap mjoin list_join app fromHex].
  pose proof (hex_byte_ok b) as H. unfold hex_ok in H. apply andb_prop in H as [H H2]. apply andb_prop in H as [H0 H1].
  split; [|by repeat constructor]. destruct (fromHexChar (toHexChar (N.shiftr (bN b) 4) false)) as [hi|]; [|done].
  destruct (fromHexChar (toHexChar (bN b) false)) as [lo|]; [|done]. apply bool_decide_eq_true_1 in H2.
  etrans; [apply (f_equal (fmap _)); exact IH1|]. simpl. by rewrite H2.
Qed.

(** ** Components *)

Lemma split_at_none P l : Forall (fun c => P c = false) l -> split_at P l = (l, None).
Proof. induction 1 as [|c l Hc _ IH]; simpl; [done|]. by rewrite Hc, IH. Qed.
Lemma split_at_app P l c r : Forall (fun c => P c = false) l -> P c = true -> split_at P (l ++ c :: r) = (l, Some r).
Proof. intros H Hc. induction H as [|d l Hd _ IH]; simpl; [by rewrite Hc|]. by rewrite Hd, IH. Qed.

Lemma no_delim_eq l : Forall (fun c => no_delim c = true) l -> Forall (fun c => is_eq c = false) l.
Proof. intros H. eapply Forall_impl; [exact H|]. unfold no_delim. intros c ?. by bool_to_prop. Qed.
Lemma no_delim_slash l : Forall (fun c => no_delim c = true) l -> Forall (fun c => is_slash c = false) l.
Proof. intros H. eapply Forall_impl; [exact H|]. unfold no_delim. intros c ?. by bool_to_prop. Qed.

Lemma make_component_ok c : ensureValid c = true -> make_component (c_type c) (c_value c) = Some c.
Proof. intros H. unfold make_component. destruct c as [t v]. simpl. by rewrite H. Qed.

Lemma periods_take l : forallb is_period l = true -> take (length l) (x2e :: x2e :: x2e :: l) = l.
Proof.
  intros H. assert (l = replicate (length l) x2e) as E.
  { induction l as [|c l IH]; [done|]. simpl in *. bool_to_prop. unfold is_period in *. bool_to_prop. subst. f_equal. auto. }
  clear H. revert E. generalize (length l). intros n ->.
  change (x2e :: x2e :: x2e :: replicate n x2e) with (replicate (3 + n) x2e).
  rewrite take_replicate. f_equal. lia.
Qed.

(** The escaped value of a component parses back. *)
Lemma escaped_value_parses c :
  ensureValid c = true -> parseUriEscapedValue (c_type c) (writeUriEscapedValue c) = Some c.
Proof.
  intros Hv. unfold parseUriEscapedValue, writeUriEscapedValue.
  destruct (forallb is_period (c_value c)) eqn:E.
  - rewrite unescape_periods by by repeat constructor. rewrite unescape_escape. cbn [app forallb]. rewrite E.
    change (is_period x2e) with true. cbn [length Nat.ltb Nat.leb andb].
    replace (S (S (S (length (c_value c)))) - 3)%nat with (length (c_value c)) by lia.
    rewrite periods_take by done. by apply make_component_ok.
  - cbn [app]. rewrite unescape_escape, E. by apply make_component_ok.
Qed.

Lemma escaped_value_no_delim c : Forall (fun b => no_delim b = true) (writeUriEscapedValue c).
Proof.
  apply Forall_app. split; [|apply escape_no_delim]. destruct (forallb _ _); by repeat constructor.
Qed.
Lemma escaped_value_nonempty c : writeUriEscapedValue c <> [].
Proof.
  unfold writeUriEscapedValue. destruct (c_value c) as [|b l]; [done|]. intros [_ H]%app_nil.
  unfold escape, escape_byte in H. simpl in H. by destruct (isUnreserved b).
Qed.

(** A component whose number, if its alternate format shows one, is in its shortest form. *)
Definition uri_exact (c : Component) : Prop :=
  forall n, is_Some (getAltUriPrefix (c_type c)) -> isSha256Type (c_type c) = false -> toNumber c = Some n ->
  c = fromNumber n (c_type c).

Definition parses_back (c : Component) (t : text) : Prop :=
  fromEscapedString t = Some c /\ Forall (fun b => is_slash b = false) t /\ t <> [].

Lemma typed_parses c p v :
  Forall (fun b => no_delim b = true) p -> Forall (fun b => no_delim b = true) v ->
  (if (NameComponentMin <=? strtoul p)%N && (strtoul p <=? NameComponentMax)%N && bool_decide (to_string (strtoul p) = p)
   then parseUriEscapedValue (strtoul p) v
   else ct ← findByUriPrefix p; parseAltUriValue ct v) = Some c ->
  parses_back c (p ++ [x3d] ++ v).
Proof.
  intros Hp Hv H. split_and!; [| |by destruct p].
  - unfold fromEscapedString. simpl app. by rewrite split_at_app by (done || by apply no_delim_eq).
  - apply Forall_app. split; [by apply no_delim_slash|]. apply Forall_app. split; [by repeat constructor|by apply no_delim_slash].
Qed.

Lemma plain_parses c : ensureValid c = true -> parses_back c (writeUri_plain c).
Proof.
  intros Hv. apply typed_parses; [apply to_string_no_delim|apply escaped_value_no_delim|].
  pose proof Hv as Ht. unfold ensureValid in Ht. rewrite !andb_true_iff in Ht. destruct Ht as [[H1 H2] _].
  rewrite strtoul_to_string by (apply N.leb_le in H2; unfold NameComponentMax in H2; lia).
  rewrite H1, H2, bool_decide_true by done. by apply escaped_value_parses.
Qed.

Lemma alt_prefix_cases t p :
  getAltUriPrefix t = Some p -> Forall (fun b => no_delim b = true) p /\ parse_int p = None /\ findByUriPrefix p = Some t.
Proof.
  unfold getAltUriPrefix. intros H. apply fmap_Some in H as ([q u] & Hf & ->). apply find_some in Hf as [Hin E%N.eqb_eq].
  simpl in *. subst u. repeat destruct Hin as [[= <- <-]|Hin]; try done; (split; [by repeat constructor|by vm_compute]).
Qed.

Lemma toNumber_bound c n : toNumber c = Some n -> (n < 2 ^ 64)%N.
Proof.
  unfold toNumber, isNumber. destruct (negb _) eqn:E; [done|]. apply negb_false_iff in E. rewrite !orb_true_iff, !Nat.eqb_eq in E.
  destruct (readNonNegativeInteger _ _) as [|[k r]] eqn:R; [done|]. intros [= <-].
  unfold readNonNegativeInteger, read_number_fast in R. rewrite Nat.ltb_irrefl in R.
  assert (forall k, be_decode (take k (c_value c)) < 2 ^ 64)%N as Hb.
  { intros j. pose proof (be_decode_bound (take j (c_value c))) as H. eapply N.lt_le_trans; [exact H|].
    change (2 ^ 64)%N with (256 ^ 8)%N. apply N.pow_le_mono_r; [done|]. rewrite length_take. lia. }
  destruct E as [[[E|E]|E]|E]; rewrite E in R; simpl in R; injection R as <- _; apply Hb || (destruct (c_value c); simpl; pose proof (bN_bound b); lia).
Qed.

Lemma comp_parses alt c :
  ensureValid c = true -> (alt = true -> uri_exact c) -> parses_back c (comp_toUri alt c).
Proof.
  intros Hv Hx. unfold comp_toUri. destruct alt; [|by apply plain_parses]. cbn [negb].
  destruct (isGeneric c) eqn:G.
  { unfold isGeneric in G. apply N.eqb_eq in G. pose proof (escaped_value_no_delim c) as Hd. split_and!.
    - unfold fromEscapedString. rewrite split_at_none by by apply no_delim_eq. rewrite <- G. by apply escaped_value_parses.
    - by apply no_delim_slash.
    - apply escaped_value_nonempty. }
  destruct (getAltUriPrefix (c_type c)) as [p|] eqn:Ep; [|by apply plain_parses].
  destruct (alt_prefix_cases _ _ Ep) as (Hp & Hi & Hf).
  assert (strtoul p = 0%N) as H0 by (unfold strtoul; by rewrite Hi).
  destruct (isSha256Type (c_type c)) eqn:S.
  - destruct (fromHex_printHex (c_value c)) as [Hh Hd]. apply typed_parses; [done..|].
    rewrite H0. cbn [N.leb NameComponentMin N.compare andb]. rewrite Hf. simpl. unfold parseAltUriValue.
    rewrite S, Hh. simpl. by apply make_component_ok.
  - destruct (toNumber c) as [n|] eqn:En; [|by apply plain_parses].
    apply typed_parses; [done|apply to_string_no_delim|].
    rewrite H0. cbn [N.leb NameComponentMin N.compare andb]. rewrite Hf. simpl. unfold parseAltUriValue.
    rewrite S, stoull_to_string by by eapply toNumber_bound. simpl. rewrite bool_decide_true by done.
    f_equal. symmetry. apply (Hx eq_refl n); [by eexists|done..].
Qed.

(** ** Names *)

Lemma uri_components_slash cur l r :
  Forall (fun b => is_slash b = false) l -> uri_components cur (l ++ x2f :: r) = (cur ++ l) :: uri_components [] r.
Proof.
  intros H. revert cur. induction H as [|c l Hc _ IH]; intros cur; simpl; [by rewrite app_nil_r|].
  rewrite Hc, IH. by rewrite <- app_assoc.
Qed.
Lemma uri_components_end cur l :
  Forall (fun b => is_slash b = false) l -> cur ++ l <> [] -> uri_components cur l = [cur ++ l].
Proof.
  intros H. revert cur. induction H as [|c l Hc _ IH]; intros cur Hne; simpl; [by destruct cur; rewrite ?app_nil_r|].
  rewrite Hc, IH by (rewrite <- app_assoc; by destruct cur). by rewrite <- app_assoc.
Qed.

Lemma uri_components_join ts t :
  Forall (fun t => Forall (fun b => is_slash b = false) t /\ t <> []) (t :: ts) ->
  uri_components [] (t ++ mjoin ((fun t => x2f :: t) <$> ts)) = t :: ts.
Proof.
  revert t. induction ts as [|u ts IH]; intros t [[Ht Hne] H]%Forall_cons.
  - cbn [fmap list_fmap mjoin list_join]. rewrite app_nil_r. by apply (uri_components_end []).
  - change (mjoin ((fun t => x2f :: t) <$> (u :: ts))) with (x2f :: u ++ mjoin ((fun t => x2f :: t) <$> ts)).
    rewrite uri_components_slash by done. by rewrite IH.
Qed.

Lemma drop_scheme_slash r : drop_scheme (x2f :: r) = x2f :: r.
Proof.
  unfold drop_scheme. cbn [split_at]. change (is_colon x2f) with false. cbn iota.
  destruct (split_at is_colon r) as [a [b|]]; [|done]. done.
Qed.

(** Components printed one by one parse back, also when their formats differ. *)
Lemma components_parse n ts :
  n <> [] -> Forall2 parses_back n ts -> Name_of_uri (mjoin ((fun t => x2f :: t) <$> ts)) = Some n.
Proof.
  intros Hn HP. destruct HP as [|c t n ts Hc HP]; [done|]. unfold Name_of_uri.
  change (mjoin ((fun t => x2f :: t) <$> (t :: ts))) with (x2f :: t ++ mjoin ((fun t => x2f :: t) <$> ts)).
  rewrite drop_scheme_slash. pose proof Hc as (_ & Hs & Hne).
  assert (forall r, drop_authority (x2f :: t ++ r) = t ++ r) as ->.
  { intros r. unfold drop_authority. change (is_slash x2f) with true. cbn iota.
    destruct t as [|b t]; [done|]. simpl app. apply Forall_cons in Hs as [-> _]. done. }
  rewrite uri_components_join.
  - apply mapM_Some. constructor; [apply Hc|]. eapply Forall2_flip, Forall2_impl; [exact HP|]. by intros x y (? & _).
  - constructor; [by destruct Hc|]. apply Forall_forall. intros u Hu.
    apply list_elem_of_lookup in Hu as [k Hk]. destruct (Forall2_lookup_r _ _ _ _ _ HP Hk) as (x & _ & _ & ? & ?). done.
Qed.

Lemma name_uri_parses alt n :
  Forall (fun c => ensureValid c = true /\ (alt = true -> uri_exact c)) n -> Name_of_uri (Name_toUri alt n) = Some n.
Proof.
  intros H. destruct n as [|c n]; [done|]. unfold Name_toUri.
  assert (Forall2 parses_back (c :: n) (comp_toUri alt <$> (c :: n))) as HP.
  { apply Forall2_fmap_r, Forall_Forall2_diag. eapply Forall_impl; [exact H|]. intros x []. by apply comp_parses. }
  rewrite <- (components_parse (c :: n) _) by done. do 2 f_equal. by rewrite <- list_fmap_compose.
Qed.

(** C39: A name printed as a URI parses back to the same name, in the canonical format always, and
    in the alternate format when the numbers it shows in decimal are in their shortest
    encoding; components of the registered digest and number types, all-period and empty
    components, and bytes that need escapes included. *)
Theorem uri_roundtrip (alt : bool) (n : Name) :
  valid_name n -> (alt = true -> Forall uri_exact n) -> Name_of_uri (Name_toUri alt n) = Some n.
Proof.
  intros [Hv _] Hx. apply name_uri_parses. apply Forall_forall. intros c Hc. split.
  - by eapply Forall_forall in Hv.
  - intros Ha. specialize (Hx Ha). by eapply Forall_forall in Hx.
Qed.

Lemma uri_roundtrip_witness :
  Name_of_uri (Name_toUri true [generic (str "a/b"); generic []; fromNumber 300 SegmentNameComponent]) =
  Some [generic (str "a/b"); generic []; fromNumber 300 SegmentNameComponent].
Proof.
  apply (uri_roundtrip true).
  - split; [by repeat constructor|by vm_compute].
  - intros _. repeat constructor; intros k H1 _ H3; vm_compute in H1; try (by destruct H1).
    vm_compute in H3. by injection H3 as <-.
Defined.

(** A number that is not in its shortest form changes its encoding when it is printed and
    parsed. *)
Lemma long_number_changes :
  Name_of_uri (Name_toUri true [mkComponent SegmentNameComponent [x00; x05]]) = Some [mkComponent SegmentNameComponent [x05]].
Proof. by vm_compute. Qed.

(** ** The names of file segments

    The forwarder and the file transfer programs build the names /Segment/f/k as URIs and
    parse them, and send counts as decimal text. Here: the names that come out are the
    intended ones, and the numbers are read back. *)

Lemma digit_plain c : is_digit c = true -> c <> x25 /\ is_period c = false.
Proof.
  intros Hc%digit_range. unfold is_period. rewrite bool_decide_eq_false.
  split; intros ->; unfold bN in Hc; simpl in Hc; lia.
Qed.

Lemma unescape_digits l : Forall (fun c => is_digit c = true) l -> unescape l = l.
Proof. induction 1 as [|c l Hc _ IH]; [done|]. by rewrite unescape_plain, IH by apply digit_plain, Hc. Qed.

Definition number_component (n : N) : Component := generic (to_string n).

Lemma number_parses n : parses_back (number_component n) (to_string n).
Proof.
  pose proof (to_string_no_delim n) as Hd. destruct (to_string_cons n) as (c & l & E & Hc).
  split_and!; [|by apply no_delim_slash|by rewrite E].
  unfold fromEscapedString. rewrite split_at_none by by apply no_delim_eq.
  unfold parseUriEscapedValue. rewrite unescape_digits by apply to_string_digits.
  assert (forallb is_period (to_string n) = false) as ->.
  { rewrite E. simpl. by rewrite (proj2 (digit_plain c Hc)). }
  by apply (make_component_ok (number_component n)).
Qed.

(** The name of segment [k] of the file with the name component [c], and its parts. *)
Definition segment_name (c : Component) (k : nat) : Name :=
  [generic (str "Segment"); c; number_component (N.of_nat k)].

Lemma segment_uri_parses alt c k :
  ensureValid c = true -> (alt = true -> uri_exact c) ->
  Name_of_uri (str "/Segment" ++ Name_toUri alt [c] ++ str "/" ++ to_string (N.of_nat k)) = Some (segment_name c k).
Proof.
  intros Hv Hx.
  assert (str "/Segment" ++ Name_toUri alt [c] ++ str "/" ++ to_string (N.of_nat k)
    = mjoin ((fun t => x2f :: t) <$> [str "Segment"; comp_toUri alt c; to_string (N.of_nat k)])) as ->.
  { cbn [fmap list_fmap mjoin list_join Name_toUri]. rewrite !app_nil_r. done. }
  apply components_parse; [done|]. constructor; [|constructor; [|constructor; [|constructor]]].
  - split_and!; [by vm_compute|by repeat constructor|done].
  - by apply comp_parses.
  - apply number_parses.
Qed.

(** A count written in decimal is read back, whatever follows it in the packet. *)
Lemma stoi_decimal n rest :
  (n < 2 ^ 31)%N -> match rest with [] => True | c :: _ => is_digit c = false end -> stoi (to_string n ++ rest) = Some (Z.of_N n).
Proof.
  intros Hn Hr. unfold stoi. rewrite parse_int_to_string by done. simpl.
  rewrite (proj2 (Z.leb_le _ _)), (proj2 (Z.ltb_lt _ _)) by lia. done.
Qed.

Lemma number_component_inj j k : number_component j = number_component k -> j = k.
Proof. intros [= E]. pose proof (parse_to_string j) as H. rewrite E, parse_to_string in H. by injection H. Qed.
Lemma segment_name_inj j k c : segment_name c j = segment_name c k -> j = k.
Proof. intros [= E]. assert (N.of_nat j = N.of_nat k) by (apply number_component_inj; unfold number_component; by rewrite E). lia. Qed.

Lemma getSubName_second a c rest : getSubName (a :: c :: rest) 1 1 = [c].
Proof.
  unfold getSubName. change (1 =? npos)%Z with false. change (1 <? 0)%Z with false. cbv zeta iota.
  change (1 <? 0)%Z with false. change (u64 (1 + 1)%Z) with 2%Z.
  rewrite Z.min_r; [reflexivity|]. change (2 <= Z.of_nat (length (a :: c :: rest)))%Z. cbn [length]. lia.
Qed.
Lemma getSubName_third a b c rest : getSubName (a :: b :: c :: rest) 2 1 = [c].
Proof.
  unfold getSubName. change (1 =? npos)%Z with false. change (2 <? 0)%Z with false. cbv zeta iota.
  change (2 <? 0)%Z with false. change (u64 (2 + 1)%Z) with 3%Z.
  rewrite Z.min_r; [reflexivity|]. change (3 <= Z.of_nat (length (a :: b :: c :: rest)))%Z. cbn [length]. lia.
Qed.

Lemma escape_digits l : Forall (fun c => is_digit c = true) l -> escape l = l.
Proof.
  induction 1 as [|x l Hx _ IH]; [done|]. change (escape (x :: l)) with (escape_byte x ++ escape l). rewrite IH.
  unfold escape_byte. assert (isUnreserved x = true) as ->; [|done].
  unfold isUnreserved, is_digit in *. rewrite Hx. by rewrite !orb_true_r.
Qed.

(** A digits-only component is shown as its digits in the alternate format. *)
Lemma number_uri n : Name_toUri true [number_component n] = x2f :: to_string n.
Proof.
  cbn [Name_toUri fmap list_fmap mjoin list_join]. rewrite app_nil_r. f_equal. unfold comp_toUri. simpl.
  unfold writeUriEscapedValue. simpl. destruct (to_string_cons n) as (c & l & E & Hc).
  assert (forallb is_period (to_string n) = false) as -> by (rewrite E; simpl; by rewrite (proj2 (digit_plain c Hc))).
  simpl. apply escape_digits, to_string_digits.
Qed.
