(* ===== verification/Packet.v ===== *)
(** * Packets and faces (ndn-cxx interest.cpp, data.cpp, lp/nack-header.cpp; NFD face.hpp)

    The fields of an Interest, a Data, a Nack and a Face that the forwarding plane reads
    or writes. Times are nanoseconds on the steady clock, in [Z]. *)

From S2P Require Import Prelude Name.

(** ** Time *)

Abbreviation time := Z (only parsing).
Definition ms : Z := 1000000.

(** ** Faces *)

Inductive FaceScope := FACE_SCOPE_NONE | FACE_SCOPE_NON_LOCAL | FACE_SCOPE_LOCAL.
Inductive LinkType :=
| LINK_TYPE_NONE | LINK_TYPE_POINT_TO_POINT | LINK_TYPE_MULTI_ACCESS | LINK_TYPE_AD_HOC.

#[global] Instance FaceScope_eq_dec : EqDecision FaceScope.
Proof. solve_decision. Defined.
#[global] Instance LinkType_eq_dec : EqDecision LinkType.
Proof. solve_decision. Defined.

(** [FaceId] and the reserved ids of face-common.hpp. *)
Definition INVALID_FACEID : N := 0.
Definition FACEID_CONTENT_STORE : N := 254.
Definition FACEID_RESERVED_MAX : N := 255.

(** A face object. It is always used through its address, a [FacePtr]: two faces are the
    same when their addresses are. [f_id] changes when the face leaves the face table. *)
Abbreviation FacePtr := N (only parsing).

Record Face := mkFace {
  f_id : N;
  f_scope : FaceScope;
  f_linkType : LinkType;
  f_localHost : string;    (* getLocalUri().getHost() *)
  f_remoteHost : string;   (* getRemoteUri().getHost() *)
  f_nInHopLimitZero : N;
  f_nOutHopLimitZero : N;
}.

(** ** Interests *)

Record Delegation := mkDelegation { del_preference : N; del_name : Name }.

#[global] Instance Delegation_eq_dec : EqDecision Delegation.
Proof. solve_decision. Defined.

Record Interest := mkInterest {
  i_name : Name;
  i_canBePrefix : bool;
  i_mustBeFresh : bool;
  i_nonce : N;                       (* the 4-byte nonce *)
  i_lifetime : Z;                    (* InterestLifetime, milliseconds *)
  i_hopLimit : option N;
  i_forwardingHint : list Delegation;
  (* tags *)
  i_incomingFaceId : option N;
  i_nextHopFaceId : option N;
  i_pitToken : option (list byte);
}.

#[global] Instance Interest_eq_dec : EqDecision Interest.
Proof. solve_decision. Defined.

(** ** Data *)

Record Data := mkData {
  d_name : Name;
  d_content : list byte;
  d_freshness : Z;                   (* FreshnessPeriod, milliseconds *)
  d_digest : list byte;              (* the implicit SHA-256 digest, 32 bytes *)
  (* tags *)
  d_incomingFaceId : option N;
  d_pitToken : option (list byte);
  d_noCache : bool;                  (* CachePolicyTag NO_CACHE present *)
}.

#[global] Instance Data_eq_dec : EqDecision Data.
Proof. solve_decision. Defined.

Definition digest_component (d : Data) : Component :=
  mkComponent ImplicitSha256DigestComponent (d_digest d).

(** [Data::getFullName]: the name with the implicit digest appended. *)
Definition getFullName (d : Data) : Name := append (d_name d) [digest_component d].

(** [Interest::matchesData]. *)
Definition matchesData (i : Interest) (d : Data) : bool :=
  let interestNameLength := length (i_name i) in
  let dataName := d_name d in
  let fullNameLength := (length dataName + 1)%nat in
  let nameOk :=
    if (interestNameLength =? fullNameLength)%nat then
      if match last (i_name i) with Some c => isImplicitSha256Digest c | None => false end
      then Name_equals (i_name i) (getFullName d)
      else false
    else if i_canBePrefix i then isPrefixOf (i_name i) dataName
         else Name_equals (i_name i) dataName in
  if negb nameOk then false
  else if i_mustBeFresh i && (d_freshness d <=? 0)%Z then false
  else true.

(** [Interest::matchesInterest]. *)
Definition matchesInterest (i other : Interest) : bool :=
  Name_equals (i_name i) (i_name other) &&
  Bool.eqb (i_canBePrefix i) (i_canBePrefix other) &&
  Bool.eqb (i_mustBeFresh i) (i_mustBeFresh other).

(** ** Nacks *)

Inductive NackReason := NACK_NONE | CONGESTION | DUPLICATE | NO_ROUTE.

#[global] Instance NackReason_eq_dec : EqDecision NackReason.
Proof. solve_decision. Defined.

Definition nack_underlying (r : NackReason) : N :=
  match r with NACK_NONE => 0 | CONGESTION => 50 | DUPLICATE => 100 | NO_ROUTE => 150 end.

(** [lp::isLessSevere]: NONE is the most severe. *)
Definition isLessSevere (x y : NackReason) : bool :=
  match x, y with
  | NACK_NONE, _ => false
  | _, NACK_NONE => true
  | _, _ => (nack_underlying x <? nack_underlying y)%N
  end.

Record Nack := mkNack { n_interest : Interest; n_reason : NackReason }.

(** ** Scope prefixes (fw/scope-prefix.cpp) *)

Definition ascii_component (s : string) : Component := generic (String.list_byte_of_string s).
Definition LOCALHOST : Name := [ascii_component "localhost"].
Definition LOCALHOP : Name := [ascii_component "localhop"].

(** ** What a match means *)

Lemma last_digest_length n c :
  last n = Some c -> isImplicitSha256Digest c = true -> c_type c = ImplicitSha256DigestComponent.
Proof. unfold isImplicitSha256Digest. intros _ H. bool_to_prop. by apply N.eqb_eq. Qed.

Lemma matchesData_iff (i : Interest) (d : Data) :
  length (d_digest d) = DIGEST_SIZE ->
  matchesData i d = true <->
  (i_name i = getFullName d \/ i_name i = d_name d \/
   (i_canBePrefix i = true /\ isPrefixOf (i_name i) (d_name d) = true)) /\
  (i_mustBeFresh i = true -> (0 < d_freshness d)%Z).
Proof.
  intros Hd. unfold matchesData.
  assert (forall b f : bool, (if negb b then false else if f then false else true) = true
     <-> b = true /\ f = false) as Hif by (intros [] []; naive_solver).
  rewrite Hif. apply Morphisms_Prop.and_iff_morphism; [|rewrite andb_false_iff, Z.leb_gt; destruct (i_mustBeFresh i); naive_solver].
  unfold getFullName, append. destruct (Nat.eqb_spec (length (i_name i)) (length (d_name d) + 1)) as [L|L].
  - assert (isPrefixOf (i_name i) (d_name d) = true -> False) as Hno.
    { intros H%isPrefixOf_spec%prefix_length. lia. }
    split.
    + case_match; [|done]. intros ?%Name_equals_spec. by left.
    + intros [H|[H|[_ H]]]; [|rewrite H in L; lia|by apply Hno in H].
      rewrite H, last_snoc. unfold isImplicitSha256Digest. simpl. rewrite Hd. simpl.
      by apply Name_equals_spec.
  - split.
    + destruct (i_canBePrefix i); [auto|]. intros H%Name_equals_spec. auto.
    + intros [H|[H|[Hc H]]].
      * rewrite H, length_app in L. simpl in L. lia.
      * destruct (i_canBePrefix i); rewrite H; [apply isPrefixOf_refl|by apply Name_equals_spec].
      * by rewrite Hc.
Qed.

(** [Interest::matchesData] against its meaning: an Interest takes a Data when its name is
    the full name of the Data (digest included), or is the Data's name, or, with CanBePrefix,
    is a prefix of the Data's name; and, with MustBeFresh, only if the Data has a positive
    FreshnessPeriod. *)
Theorem matchesData_spec (i : Interest) (d : Data) :
  length (d_digest d) = DIGEST_SIZE ->
  matchesData i d = true <->
  (i_name i = getFullName d \/ i_name i = d_name d \/
   (i_canBePrefix i = true /\ isPrefixOf (i_name i) (d_name d) = true)) /\
  (i_mustBeFresh i = true -> (0 < d_freshness d)%Z).
Proof. apply matchesData_iff. Qed.

Definition sample_interest : Interest :=
  mkInterest [ascii_component "a"] true false 1 4000 None [] None None None.
Definition sample_data : Data :=
  mkData [ascii_component "a"; ascii_component "b"] [x01] 0 (repeat x07 32) None None false.

Lemma matchesData_spec_witness :
  length (d_digest sample_data) = DIGEST_SIZE /\ matchesData sample_interest sample_data = true.
Proof.
  split; [reflexivity|]. apply (matchesData_spec sample_interest sample_data); [reflexivity|].
  split; [right; right; by vm_compute|]. by intros [=].
Defined.
