(* ===== verification/FaceKeyed.v ===== *)
(** * Lists of records keyed by face

    PIT in- and out-records and FIB nexthops are [std::list]s and [std::vector]s that the
    code searches with [std::find_if] for the record of one face. The searches, the in-place
    update and the erasure are the same for the three, so they are stated once. *)

From S2P Require Import Prelude.

Section face_keyed.
Context {R : Type} (key : R -> N).

(** [std::find_if(begin, end, [&] (r) { return &r.getFace() == &face; })]. *)
Fixpoint find_face (p : N) (l : list R) : option R :=
  match l with
  | [] => None
  | r :: l' => if (key r =? p)%N then Some r else find_face p l'
  end.

(** [erase(it)] of what [find_face] finds. *)
Fixpoint erase_face (p : N) (l : list R) : list R :=
  match l with
  | [] => []
  | r :: l' => if (key r =? p)%N then l' else r :: erase_face p l'
  end.

(** Assignment through the iterator that [find_face] finds. *)
Fixpoint update_face (f : R -> R) (p : N) (l : list R) : list R :=
  match l with
  | [] => []
  | r :: l' => if (key r =? p)%N then f r :: l' else r :: update_face f p l'
  end.

Lemma find_face_key p l r : find_face p l = Some r -> key r = p.
Proof. induction l as [|x l IH]; simpl; [done|]. case_match eqn:E; [|auto]. intros [= <-]. by apply N.eqb_eq. Qed.

Lemma find_face_elem p l r : find_face p l = Some r -> r ∈ l.
Proof. induction l as [|x l IH]; simpl; [done|]. case_match; [intros [= <-]|]; set_solver. Qed.

Lemma find_face_None p l : find_face p l = None <-> p ∉ key <$> l.
Proof.
  induction l as [|x l IH]; simpl; [set_solver|]. rewrite not_elem_of_cons, <- IH.
  destruct (N.eqb_spec (key x) p); naive_solver.
Qed.

Lemma find_face_is_Some p l : is_Some (find_face p l) <-> p ∈ key <$> l.
Proof.
  destruct (find_face p l) eqn:E.
  - split; [|done]. intros _. apply list_elem_of_fmap. exists r.
    split; [by erewrite find_face_key|by eapply find_face_elem].
  - apply find_face_None in E. split; [by intros []|done].
Qed.

Lemma find_face_NoDup l r : NoDup (key <$> l) -> r ∈ l -> find_face (key r) l = Some r.
Proof.
  induction l as [|x l IH]; simpl; [set_solver|]. intros [Hx Hl]%NoDup_cons [<-|Hr]%elem_of_cons.
  - by rewrite N.eqb_refl.
  - destruct (N.eqb_spec (key x) (key r)) as [E|E]; [|auto].
    destruct Hx. rewrite E. by apply list_elem_of_fmap_2.
Qed.

Lemma erase_face_sublist p l : erase_face p l `sublist_of` l.
Proof. induction l as [|x l IH]; simpl; [done|]. case_match; by constructor. Qed.

Lemma erase_face_keys p l : key <$> erase_face p l `sublist_of` key <$> l.
Proof. induction l as [|x l IH]; simpl; [done|]. case_match; by constructor. Qed.

Lemma erase_face_NoDup p l : NoDup (key <$> l) -> NoDup (key <$> erase_face p l).
Proof. intros H. exact (sublist_NoDup _ _ H (erase_face_keys p l)). Qed.

Lemma erase_face_not_elem p l : NoDup (key <$> l) -> p ∉ key <$> erase_face p l.
Proof.
  induction l as [|x l IH]; simpl; [set_solver|]. intros [Hx Hl]%NoDup_cons.
  destruct (N.eqb_spec (key x) p) as [<-|E]; [done|]. simpl. apply not_elem_of_cons. auto.
Qed.

Lemma erase_face_elem p l r : NoDup (key <$> l) -> r ∈ erase_face p l <-> r ∈ l /\ key r <> p.
Proof.
  induction l as [|x l IH]; simpl; [set_solver|]. intros [Hx Hl]%NoDup_cons.
  rewrite elem_of_cons. destruct (N.eqb_spec (key x) p) as [<-|E].
  - split; [|naive_solver]. intros Hr. split; [by right|]. intros Hk. apply Hx. rewrite <- Hk.
    by apply list_elem_of_fmap_2.
  - rewrite elem_of_cons, IH by done. naive_solver.
Qed.

Lemma find_erase_ne p q l : p <> q -> find_face q (erase_face p l) = find_face q l.
Proof.
  intros H. induction l as [|x l IH]; simpl; [done|].
  destruct (N.eqb_spec (key x) p) as [E|E]; simpl.
  - by rewrite (proj2 (N.eqb_neq _ _)) by congruence.
  - by rewrite IH.
Qed.

Lemma find_erase_eq p l : NoDup (key <$> l) -> find_face p (erase_face p l) = None.
Proof. intros H. by apply find_face_None, erase_face_not_elem. Qed.

Lemma erase_face_id p l : p ∉ key <$> l -> erase_face p l = l.
Proof.
  induction l as [|x l IH]; simpl; [done|]. intros [Hx Hl]%not_elem_of_cons.
  rewrite (proj2 (N.eqb_neq _ _)) by congruence. by rewrite IH.
Qed.

Section update.
Context (f : R -> R) (f_key : forall r, key (f r) = key r).

Lemma update_face_keys p l : key <$> update_face f p l = key <$> l.
Proof. induction l as [|x l IH]; simpl; [done|]. case_match; csimpl; [by rewrite f_key|by rewrite IH]. Qed.

Lemma find_update_eq p l : find_face p (update_face f p l) = f <$> find_face p l.
Proof. induction l as [|x l IH]; simpl; [done|]. case_match eqn:E; simpl; by rewrite ?f_key, E. Qed.

Lemma find_update_ne p q l : p <> q -> find_face q (update_face f p l) = find_face q l.
Proof.
  intros H. induction l as [|x l IH]; simpl; [done|]. destruct (N.eqb_spec (key x) p) as [E|E]; simpl.
  - by rewrite f_key, !(proj2 (N.eqb_neq _ _)) by congruence.
  - by rewrite IH.
Qed.
End update.

Lemma update_face_Forall (P : R -> Prop) f p l :
  (forall r, P r -> P (f r)) -> Forall P l -> Forall P (update_face f p l).
Proof. intros Hf. induction 1; simpl; [done|]. case_match; constructor; auto. Qed.

Lemma erase_face_Forall (P : R -> Prop) p l : Forall P l -> Forall P (erase_face p l).
Proof. induction 1; simpl; [done|]. case_match; auto. Qed.
End face_keyed.

#[export] Hint Resolve erase_face_NoDup erase_face_Forall : ndn.
