(* ===== verification/RttEstimator.v ===== *)
(** * Estimation of round-trip times (ndn-cxx/util/rtt-estimator.cpp)

    With the default options, as the link service uses it:
    weights 1/8 and 1/4, timeouts between 200 ms and one minute, one expected sample. Durations
    are nanoseconds; the averages are computed in double precision. *)

From S2P Require Import Prelude.

Local Open Scope Z_scope.

Definition initialRto : Z := 1000000000.
Definition minRto : Z := 200000000.
Definition maxRto : Z := 60000000000.
Definition rtt_k : Z := 4.
Definition rtoBackoffMultiplier : Z := 2.
Definition clamp (x lo hi : Z) : Z := if x <? lo then lo else if hi <? x then hi else x.

Record RttEstimator := mkRttEstimator { re_sRtt : Z; re_rttVar : Z; re_rto : Z }.
Definition RttEstimator_new : RttEstimator := mkRttEstimator (-1) (-1) initialRto.
Definition hasSamples (e : RttEstimator) : bool := negb (re_sRtt e =? -1).

(** The average of [x] with weight [2^k - 1] and [y] with weight 1, divided by [2^k]: both
    products and the sum are rounded, the result is truncated. *)
Definition moving_average (k x y : Z) : Z :=
  Z.quot (fp_round 53 (fp_round 53 ((2 ^ k - 1) * fp_round 53 x) + fp_round 53 y)) (2 ^ k).
(** [addMeasurement(rtt)]. *)
Definition addMeasurement (rtt : Z) (e : RttEstimator) : RttEstimator :=
  let '(sRtt, rttVar) :=
    if negb (hasSamples e) then (rtt, Z.quot rtt 2)
    else (moving_average 3 (re_sRtt e) rtt, moving_average 2 (re_rttVar e) (Z.abs (re_sRtt e - rtt))) in
  mkRttEstimator sRtt rttVar (clamp (sRtt + rtt_k * rttVar) minRto maxRto).
Definition backoffRto (e : RttEstimator) : RttEstimator := mkRttEstimator (re_sRtt e) (re_rttVar e) (clamp (re_rto e * rtoBackoffMultiplier) minRto maxRto).

(** The timeout stays between its limits, once it is not the initial one. *)
Definition rto_ok (e : RttEstimator) : Prop := minRto <= re_rto e <= maxRto.
Lemma clamp_between x lo hi : lo <= hi -> lo <= clamp x lo hi <= hi.
Proof. unfold clamp. intros H. destruct (Z.ltb_spec x lo); [lia|]. destruct (Z.ltb_spec hi x); lia. Qed.
Lemma RttEstimator_new_ok : rto_ok RttEstimator_new.
Proof. done. Qed.
Lemma addMeasurement_ok rtt e : rto_ok (addMeasurement rtt e).
Proof. unfold addMeasurement. destruct (if negb (hasSamples e) then _ else _) as [s v]. by apply clamp_between. Qed.
Lemma backoffRto_ok e : rto_ok (backoffRto e).
Proof. by apply clamp_between. Qed.
Example two_samples : addMeasurement 100000000 (addMeasurement 200000000 RttEstimator_new) = mkRttEstimator 187500000 100000000 587500000.
Proof. vm_compute. reflexivity. Qed.
