(* ===== verification/PitEntry.v ===== *)
(** * PIT entries (table/pit-entry.cpp, pit-face-record.cpp, pit-in-record.cpp,
    pit-out-record.cpp, strategy-info-host.hpp)

    The record of one pending Interest: an in-record per downstream, an out-record per
    upstream, the expiry timer, and the items strategies leave on entries and records.
    [wf_entry] is the invariant the operations preserve: one record per face. *)

From S2P Require Import Prelude Name Packet FaceKeyed RttEstimator.

(** ** Strategy information *)

(** A strategy object, which the timers it sets point to: the prefix of the Strategy Choice
    entry that owns it, and how many strategies that entry had before. *)
Definition StrategyObject : Type := Name * N.
(** A [weak_ptr<Face>] that was set: the address, and how many faces had been freed there. *)
Definition WeakFace : Type := FacePtr * N.

(** [asf::FaceInfo]. Its two events are cancelled when they are replaced or when it goes, so
    they are part of it: when the first is due, and when and for which strategy object and
    which Interest the second. *)
Record AsfFaceInfo := mkAsfFaceInfo {
  fi_rtt : RttEstimator;
  fi_lastRtt : Z;
  fi_lastInterestName : Name;
  fi_nSilentTimeouts : N;
  fi_measurementExpiration : option time;
  fi_timeoutEvent : option (time * StrategyObject * Name);
}.

(** The items strategies leave: [RetxSuppressionExponential::PitInfo] (its interval in
    microseconds), [AccessStrategy::PitInfo] (the timer with the strategy object and the ids
    of the two faces) and [MtInfo], [NccStrategy::MeasurementsEntryInfo] (its prediction in
    microseconds) and [PitEntryInfo] (two timers; its interval, in microseconds, is set
    before the second timer), [asf::NamespaceInfo]. *)
Inductive StrategyInfo :=
| RetxPitInfo (suppressionInterval : Z)
| AccessPitInfo (rtoTimer : option (time * StrategyObject * N * N))
| AccessMtInfo (lastNexthop : N) (rtt : RttEstimator)
| NccMtInfo (bestFace previousFace : option WeakFace) (prediction : Z)
| NccPitInfo (bestFaceTimeout : option (time * StrategyObject)) (propagateTimer : option (time * StrategyObject * N)) (maxInterval : Z)
| AsfNamespaceInfo (fiMap : gmap N AsfFaceInfo) (isProbingDue isFirstProbeScheduled : bool).

(** [T::getTypeId()]. *)
Definition NCC_MT_INFO : Z := 1000.
Definition NCC_PIT_INFO : Z := 1001.
Definition ACCESS_PIT_INFO : Z := 1010.
Definition ACCESS_MT_INFO : Z := 1011.
Definition RETX_PIT_INFO : Z := 1020.
Definition ASF_NAMESPACE_INFO : Z := 1030.

(** [StrategyInfoHost::m_items]. *)
Abbreviation StrategyInfoHost := (gmap Z StrategyInfo) (only parsing).

(** [insertStrategyInfo]: the item present, or the new one, and whether it is new. *)
Definition insertStrategyInfo (id : Z) (new : StrategyInfo) (h : StrategyInfoHost)
  : StrategyInfo * bool * StrategyInfoHost :=
  match h !! id with
  | Some it => (it, false, h)
  | None => (new, true, <[id := new]> h)
  end.

Definition getStrategyInfo (id : Z) (h : StrategyInfoHost) : option StrategyInfo := h !! id.
Definition eraseStrategyInfo (id : Z) (h : StrategyInfoHost) : StrategyInfoHost := delete id h.

(** ** Records *)

(** [FaceRecord]: [m_face], [m_lastNonce], [m_lastRenewed], [m_expiry]. *)
Record FaceRecord := mkFaceRecord {
  fr_face : FacePtr;
  fr_lastNonce : N;
  fr_lastRenewed : time;
  fr_expiry : time;
  fr_info : StrategyInfoHost;
}.

(** [MAX_LIFETIME{10_days}], in milliseconds, and [TimePoint::min()]. *)
Definition MAX_LIFETIME : Z := 10 * 24 * 3600 * 1000.
Definition TIME_MIN : time := - 2 ^ 63.
Definition TIME_MAX : time := 2 ^ 63 - 1.

Definition FaceRecord_new (face : FacePtr) : FaceRecord := mkFaceRecord face 0 TIME_MIN TIME_MIN ∅.

(** [FaceRecord::update]. *)
Definition FaceRecord_update (now : time) (i : Interest) (r : FaceRecord) : FaceRecord :=
  let lifetime := Z.min (i_lifetime i) MAX_LIFETIME in
  mkFaceRecord (fr_face r) (i_nonce i) now (now + lifetime * ms) (fr_info r).

Record InRecord := mkInRecord { ir_rec : FaceRecord; ir_interest : option Interest }.
Record OutRecord := mkOutRecord { or_rec : FaceRecord; or_incomingNack : option NackReason }.

Definition ir_face (r : InRecord) : FacePtr := fr_face (ir_rec r).
Definition or_face (r : OutRecord) : FacePtr := fr_face (or_rec r).

(** [InRecord::update], [OutRecord::update] (inherited), [setIncomingNack],
    [clearIncomingNack]. *)
Definition InRecord_update (now : time) (i : Interest) (r : InRecord) : InRecord :=
  mkInRecord (FaceRecord_update now i (ir_rec r)) (Some i).
Definition OutRecord_update (now : time) (i : Interest) (r : OutRecord) : OutRecord :=
  mkOutRecord (FaceRecord_update now i (or_rec r)) (or_incomingNack r).
Definition setIncomingNack (n : Nack) (r : OutRecord) : OutRecord * bool :=
  if negb (i_nonce (n_interest n) =? fr_lastNonce (or_rec r))%N then (r, false)
  else (mkOutRecord (or_rec r) (Some (n_reason n)), true).
Definition clearIncomingNack (r : OutRecord) : OutRecord := mkOutRecord (or_rec r) None.
Definition set_or_info (h : StrategyInfoHost) (r : OutRecord) : OutRecord :=
  let f := or_rec r in
  mkOutRecord (mkFaceRecord (fr_face f) (fr_lastNonce f) (fr_lastRenewed f) (fr_expiry f) h)
              (or_incomingNack r).

(** ** Entries *)

(** [pit::Entry]. [pe_nte] is [m_nameTreeEntry], by the name of the name tree entry. *)
Record PitEntry := mkPitEntry {
  pe_interest : Interest;
  pe_inRecords : list InRecord;
  pe_outRecords : list OutRecord;
  pe_expiryTimer : option time;
  pe_isSatisfied : bool;
  pe_dataFreshnessPeriod : Z;
  pe_nte : option Name;
  pe_info : StrategyInfoHost;
}.

Definition PitEntry_new (i : Interest) : PitEntry := mkPitEntry i [] [] None false 0 None ∅.

Definition set_inRecords l (e : PitEntry) : PitEntry :=
  mkPitEntry (pe_interest e) l (pe_outRecords e) (pe_expiryTimer e) (pe_isSatisfied e)
             (pe_dataFreshnessPeriod e) (pe_nte e) (pe_info e).
Definition set_outRecords l (e : PitEntry) : PitEntry :=
  mkPitEntry (pe_interest e) (pe_inRecords e) l (pe_expiryTimer e) (pe_isSatisfied e)
             (pe_dataFreshnessPeriod e) (pe_nte e) (pe_info e).
Definition set_expiryTimer t (e : PitEntry) : PitEntry :=
  mkPitEntry (pe_interest e) (pe_inRecords e) (pe_outRecords e) t (pe_isSatisfied e)
             (pe_dataFreshnessPeriod e) (pe_nte e) (pe_info e).
Definition set_satisfied b fp (e : PitEntry) : PitEntry :=
  mkPitEntry (pe_interest e) (pe_inRecords e) (pe_outRecords e) (pe_expiryTimer e) b
             fp (pe_nte e) (pe_info e).
Definition set_nte n (e : PitEntry) : PitEntry :=
  mkPitEntry (pe_interest e) (pe_inRecords e) (pe_outRecords e) (pe_expiryTimer e)
             (pe_isSatisfied e) (pe_dataFreshnessPeriod e) n (pe_info e).
Definition set_pe_info h (e : PitEntry) : PitEntry :=
  mkPitEntry (pe_interest e) (pe_inRecords e) (pe_outRecords e) (pe_expiryTimer e)
             (pe_isSatisfied e) (pe_dataFreshnessPeriod e) (pe_nte e) h.

(** [Entry::getName]. *)
Definition pe_name (e : PitEntry) : Name := i_name (pe_interest e).

(** [Entry::canMatch]: the first [nEqualNameComps] components are known to be equal
    (the counts are [Name::npos], which [compare] cuts to the sizes). *)
Definition canMatch (e : PitEntry) (i : Interest) (nEqualNameComps : nat) : bool :=
  bool_decide (Name_compare (pe_name e) nEqualNameComps (length (pe_name e))
                            (i_name i) nEqualNameComps (length (i_name i)) = Eq) &&
  Bool.eqb (i_canBePrefix (pe_interest e)) (i_canBePrefix i) &&
  Bool.eqb (i_mustBeFresh (pe_interest e)) (i_mustBeFresh i).

Definition hasInRecords (e : PitEntry) : bool := match pe_inRecords e with [] => false | _ => true end.
Definition hasOutRecords (e : PitEntry) : bool := match pe_outRecords e with [] => false | _ => true end.

Definition getInRecord (e : PitEntry) (face : FacePtr) : option InRecord :=
  find_face ir_face face (pe_inRecords e).
Definition getOutRecord (e : PitEntry) (face : FacePtr) : option OutRecord :=
  find_face or_face face (pe_outRecords e).

(** [insertOrUpdateInRecord]: a new record goes to the front of the list. *)
Definition insertOrUpdateInRecord (now : time) (face : FacePtr) (i : Interest) (e : PitEntry)
  : PitEntry :=
  let l := match getInRecord e face with
           | Some _ => pe_inRecords e
           | None => mkInRecord (FaceRecord_new face) None :: pe_inRecords e
           end in
  set_inRecords (update_face ir_face (InRecord_update now i) face l) e.

Definition insertOrUpdateOutRecord (now : time) (face : FacePtr) (i : Interest) (e : PitEntry)
  : PitEntry :=
  let l := match getOutRecord e face with
           | Some _ => pe_outRecords e
           | None => mkOutRecord (FaceRecord_new face) None :: pe_outRecords e
           end in
  set_outRecords (update_face or_face (OutRecord_update now i) face l) e.

Definition deleteInRecord (face : FacePtr) (e : PitEntry) : PitEntry :=
  set_inRecords (erase_face ir_face face (pe_inRecords e)) e.
Definition deleteOutRecord (face : FacePtr) (e : PitEntry) : PitEntry :=
  set_outRecords (erase_face or_face face (pe_outRecords e)) e.
Definition clearInRecords (e : PitEntry) : PitEntry := set_inRecords [] e.

(** Writing through the iterator [getOutRecord] returned. *)
Definition updateOutRecord (f : OutRecord -> OutRecord) (face : FacePtr) (e : PitEntry) : PitEntry :=
  set_outRecords (update_face or_face f face (pe_outRecords e)) e.

(** [Pit::deleteInOutRecords]. *)
Definition deleteInOutRecords (face : FacePtr) (e : PitEntry) : PitEntry :=
  deleteOutRecord face (deleteInRecord face e).

(** ** Invariant *)

(** One record per face, and every in-record holds an Interest with the name and the
    selectors of the entry. *)
Definition same_request (i j : Interest) : Prop :=
  i_name i = i_name j /\ i_canBePrefix i = i_canBePrefix j /\ i_mustBeFresh i = i_mustBeFresh j.

Definition wf_inRecord (i : Interest) (r : InRecord) : Prop :=
  exists j, ir_interest r = Some j /\ same_request j i.

Record wf_entry (e : PitEntry) : Prop := {
  wf_in : NoDup (ir_face <$> pe_inRecords e);
  wf_out : NoDup (or_face <$> pe_outRecords e);
  wf_req : Forall (wf_inRecord (pe_interest e)) (pe_inRecords e);
}.

Lemma same_request_refl i : same_request i i.
Proof. done. Qed.

Lemma canMatch_spec e i k :
  take k (pe_name e) = take k (i_name i) ->
  canMatch e i k = true <-> same_request i (pe_interest e).
Proof.
  intros Hk. unfold canMatch, same_request. rewrite !andb_true_iff, bool_decide_eq_true, !eqb_true_iff.
  rewrite Name_compare_tail by done. rewrite (cmp_eq (cmp:=Name_cmp)).
  assert (drop k (pe_name e) = drop k (i_name i) <-> i_name i = pe_name e) as ->; [|naive_solver].
  split; [|by intros ->]. intros H. by rewrite <- (take_drop k (i_name i)), <- Hk, <- H, take_drop.
Qed.

Lemma wf_new i : wf_entry (PitEntry_new i).
Proof. split; constructor. Qed.

Lemma InRecord_update_face now i r : ir_face (InRecord_update now i r) = ir_face r.
Proof. done. Qed.
Lemma OutRecord_update_face now i r : or_face (OutRecord_update now i r) = or_face r.
Proof. done. Qed.

(** Keys and well-formedness of a list after insert-or-update; shared by both kinds of
    records. *)
Section upsert.
Context {R : Type} (key : R -> N) (new : R) (f : R -> R) (p : N).
Context (new_key : key new = p) (f_key : forall r, key (f r) = key r).

Definition upsert (l : list R) : list R :=
  update_face key f p (match find_face key p l with Some _ => l | None => new :: l end).

Lemma upsert_NoDup l : NoDup (key <$> l) -> NoDup (key <$> upsert l).
Proof using new_key f_key.
  intros H. unfold upsert. rewrite (update_face_keys key f f_key). case_match eqn:E; [done|].
  csimpl. constructor; [|done]. rewrite new_key. by apply find_face_None.
Qed.

Lemma upsert_find_eq l :
  find_face key p (upsert l) = Some (f (default new (find_face key p l))).
Proof using new_key f_key.
  unfold upsert. rewrite (find_update_eq key f f_key). case_match eqn:E; [by rewrite E|].
  simpl. by rewrite new_key, N.eqb_refl.
Qed.

Lemma upsert_find_ne q l : p <> q -> find_face key q (upsert l) = find_face key q l.
Proof using new_key f_key.
  intros H. unfold upsert. rewrite (find_update_ne key f f_key) by done.
  case_match; [done|]. simpl. by rewrite new_key, (proj2 (N.eqb_neq _ _)) by done.
Qed.

Lemma upsert_keys q l : q ∈ key <$> upsert l <-> q = p \/ q ∈ key <$> l.
Proof using new_key f_key.
  unfold upsert. rewrite (update_face_keys key f f_key). case_match eqn:E.
  - split; [auto|]. intros [->|?]; [|done]. by apply find_face_is_Some.
  - csimpl. rewrite elem_of_cons, new_key. done.
Qed.
End upsert.

Lemma insertOrUpdateInRecord_upsert now face i e :
  insertOrUpdateInRecord now face i e =
  set_inRecords (upsert ir_face (mkInRecord (FaceRecord_new face) None) (InRecord_update now i) face
                   (pe_inRecords e)) e.
Proof. done. Qed.

Lemma insertOrUpdateOutRecord_upsert now face i e :
  insertOrUpdateOutRecord now face i e =
  set_outRecords (upsert or_face (mkOutRecord (FaceRecord_new face) None) (OutRecord_update now i) face
                    (pe_outRecords e)) e.
Proof. done. Qed.

Lemma update_face_Forall_new {R} (key : R -> N) (P : R -> Prop) f p (r : R) (l : list R) :
  key r = p -> (forall x, P (f x)) -> Forall P l -> Forall P (update_face key f p (r :: l)).
Proof. intros Hk Hf Hl. simpl. rewrite Hk, N.eqb_refl. by constructor. Qed.

Lemma wf_insertOrUpdateInRecord now face i e :
  same_request i (pe_interest e) -> wf_entry e -> wf_entry (insertOrUpdateInRecord now face i e).
Proof.
  intros Hi [Hin Hout Hreq]. assert (forall r, wf_inRecord (pe_interest e) (InRecord_update now i r))
    by (intros r; by exists i).
  split; [|done|].
  - rewrite insertOrUpdateInRecord_upsert. by apply upsert_NoDup.
  - unfold insertOrUpdateInRecord. simpl. case_match.
    + by apply update_face_Forall.
    + by apply update_face_Forall_new.
Qed.

Lemma wf_insertOrUpdateOutRecord now face i e :
  wf_entry e -> wf_entry (insertOrUpdateOutRecord now face i e).
Proof.
  intros [Hin Hout Hreq]. split; [done| |done].
  rewrite insertOrUpdateOutRecord_upsert. by apply upsert_NoDup.
Qed.

Lemma wf_deleteInRecord face e : wf_entry e -> wf_entry (deleteInRecord face e).
Proof. intros [Hin Hout Hreq]. split; simpl; auto with ndn. Qed.

Lemma wf_deleteOutRecord face e : wf_entry e -> wf_entry (deleteOutRecord face e).
Proof. intros [Hin Hout Hreq]. split; simpl; auto with ndn. Qed.

Lemma wf_deleteInOutRecords face e : wf_entry e -> wf_entry (deleteInOutRecords face e).
Proof. intros H. by apply wf_deleteOutRecord, wf_deleteInRecord. Qed.

Lemma wf_clearInRecords e : wf_entry e -> wf_entry (clearInRecords e).
Proof. intros [Hin Hout Hreq]. split; [constructor|done|constructor]. Qed.

Lemma wf_updateOutRecord f face e :
  (forall r, or_face (f r) = or_face r) -> wf_entry e -> wf_entry (updateOutRecord f face e).
Proof.
  intros Hf [Hin Hout Hreq]. split; [done| |done].
  simpl. by rewrite (update_face_keys or_face f Hf).
Qed.

Lemma wf_set_expiryTimer t e : wf_entry e -> wf_entry (set_expiryTimer t e).
Proof. by intros []. Qed.
Lemma wf_set_satisfied b fp e : wf_entry e -> wf_entry (set_satisfied b fp e).
Proof. by intros []. Qed.
Lemma wf_set_nte n e : wf_entry e -> wf_entry (set_nte n e).
Proof. by intros []. Qed.
Lemma wf_set_pe_info h e : wf_entry e -> wf_entry (set_pe_info h e).
Proof. by intros []. Qed.

#[export] Hint Resolve wf_new wf_insertOrUpdateInRecord wf_insertOrUpdateOutRecord wf_deleteInRecord
  wf_deleteOutRecord wf_deleteInOutRecords wf_clearInRecords wf_updateOutRecord wf_set_expiryTimer
  wf_set_satisfied wf_set_nte wf_set_pe_info same_request_refl : ndn.

(** Renewing an Interest on a face: [insertOrUpdateInRecord] leaves exactly one in-record
    for the face, which carries the Interest, its nonce and the present time, and expires
    after the Interest's lifetime or ten days, whichever is shorter (so that the 64-bit
    nanosecond clock does not overflow); the item a strategy had left on the record stays,
    the records of other faces and the out-records are untouched, and the entry keeps its
    invariant. *)
Theorem insertOrUpdateInRecord_spec (now : time) (face : FacePtr) (i : Interest) (e : PitEntry) :
  wf_entry e -> same_request i (pe_interest e) ->
  (0 <= i_lifetime i)%Z -> (0 <= now <= TIME_MAX - MAX_LIFETIME * ms)%Z ->
  let e' := insertOrUpdateInRecord now face i e in
  (exists r, getInRecord e' face = Some r /\ ir_interest r = Some i /\
     fr_lastNonce (ir_rec r) = i_nonce i /\ fr_lastRenewed (ir_rec r) = now /\
     fr_expiry (ir_rec r) = (now + Z.min (i_lifetime i) MAX_LIFETIME * ms)%Z /\
     (now <= fr_expiry (ir_rec r) <= TIME_MAX)%Z /\
     fr_info (ir_rec r) = match getInRecord e face with Some o => fr_info (ir_rec o) | None => ∅ end) /\
  (forall face', face' <> face -> getInRecord e' face' = getInRecord e face') /\
  pe_outRecords e' = pe_outRecords e /\ wf_entry e'.
Proof.
  intros Hwf Hi Hl Hn e'. subst e'. split_conj; [| |auto with ndn].
  - rewrite insertOrUpdateInRecord_upsert. unfold getInRecord. simpl. rewrite upsert_find_eq by done.
    eexists. split; [done|]. simpl. unfold TIME_MAX, MAX_LIFETIME, ms in *. split_conj; [lia..|].
    by destruct (find_face _ _ _).
  - intros face' Hf. rewrite insertOrUpdateInRecord_upsert. unfold getInRecord. simpl.
    by rewrite upsert_find_ne by done.
Qed.

Lemma insertOrUpdateInRecord_spec_witness :
  wf_entry (PitEntry_new sample_interest) /\
  getInRecord (insertOrUpdateInRecord 5 256 sample_interest (PitEntry_new sample_interest)) 257 = None.
Proof.
  split; [apply wf_new|].
  destruct (insertOrUpdateInRecord_spec 5 256 sample_interest (PitEntry_new sample_interest))
    as (_ & H & _); [apply wf_new|done|by vm_compute|split; by vm_compute|]. by rewrite H.
Defined.
