(* ===== verification/FibEntry.v ===== *)
(** * FIB entries (table/fib-entry.cpp, fib-nexthop.hpp)

    A prefix and its nexthops, one per face, sorted by cost. *)

From S2P Require Import Prelude Name Packet FaceKeyed.

(** [fib::NextHop]; the cost is a [uint64_t]. *)
Record NextHop := mkNextHop { nh_face : FacePtr; nh_cost : N }.

#[global] Instance NextHop_eq_dec : EqDecision NextHop.
Proof. solve_decision. Defined.

(** [fib::Entry]; its [m_nameTreeEntry] is the name tree entry of [m_prefix]. *)
Record FibEntry := mkFibEntry { fe_prefix : Name; fe_nextHops : list NextHop }.

Definition FibEntry_new (prefix : Name) : FibEntry := mkFibEntry prefix [].
Definition set_nextHops l (e : FibEntry) : FibEntry := mkFibEntry (fe_prefix e) l.

Definition hasNextHops (e : FibEntry) : bool := match fe_nextHops e with [] => false | _ => true end.

(** [findNextHop]; the iterator is the index in the vector, [None] its [end()]. *)
Fixpoint findNextHop_from (k : nat) (face : FacePtr) (l : list NextHop) : option nat :=
  match l with
  | [] => None
  | nh :: l' => if (nh_face nh =? face)%N then Some k else findNextHop_from (S k) face l'
  end.
Definition findNextHop (e : FibEntry) (face : FacePtr) : option nat :=
  findNextHop_from 0 face (fe_nextHops e).
Definition hasNextHop (e : FibEntry) (face : FacePtr) : bool :=
  match findNextHop e face with Some _ => true | None => false end.

(** [sortNextHops]: [std::sort] by cost. The standard leaves the order of equal costs open;
    the definition keeps it, as the insertion sort for short ranges does. *)
Fixpoint insert_by_cost (nh : NextHop) (l : list NextHop) : list NextHop :=
  match l with
  | [] => [nh]
  | x :: l' => if (nh_cost x <=? nh_cost nh)%N then x :: insert_by_cost nh l' else nh :: l
  end.
Definition sort_by_cost (l : list NextHop) : list NextHop :=
  fold_left (fun acc nh => insert_by_cost nh acc) l [].
Definition sortNextHops (e : FibEntry) : FibEntry := set_nextHops (sort_by_cost (fe_nextHops e)) e.

(** [addOrUpdateNextHop]: the iterator taken before the sort is returned, so it denotes
    the position, not the nexthop. *)
Definition fe_addOrUpdateNextHop (face : FacePtr) (cost : N) (e : FibEntry) : FibEntry * nat * bool :=
  let '(l, it, isNew) :=
    match findNextHop e face with
    | Some k => (fe_nextHops e, k, false)
    | None => (fe_nextHops e ++ [mkNextHop face 0], length (fe_nextHops e), true)
    end in
  let l := alter (fun nh => mkNextHop (nh_face nh) cost) it l in
  (sortNextHops (set_nextHops l e), it, isNew).

Definition fe_removeNextHop (face : FacePtr) (e : FibEntry) : FibEntry * bool :=
  match findNextHop e face with
  | Some _ => (set_nextHops (erase_face nh_face face (fe_nextHops e)) e, true)
  | None => (e, false)
  end.

(** ** Sorting *)

Definition cost_le (x y : NextHop) : Prop := (nh_cost x <= nh_cost y)%N.

#[global] Instance cost_le_trans : Transitive cost_le.
Proof. intros x y z. unfold cost_le. lia. Qed.

Lemma insert_by_cost_perm nh l : insert_by_cost nh l ≡ₚ nh :: l.
Proof.
  induction l as [|x l IH]; simpl; [done|]. case_match; [|done].
  rewrite IH. apply Permutation_swap.
Qed.

Lemma insert_by_cost_sorted nh l : StronglySorted cost_le l -> StronglySorted cost_le (insert_by_cost nh l).
Proof.
  induction 1 as [|x l Hl IH Hx]; simpl; [repeat constructor|].
  destruct (N.leb_spec (nh_cost x) (nh_cost nh)) as [H|H].
  - constructor; [done|]. rewrite insert_by_cost_perm. by constructor.
  - constructor; [by constructor|]. constructor; [unfold cost_le; lia|].
    eapply Forall_impl; [exact Hx|]. unfold cost_le. simpl. intros. lia.
Qed.

Lemma sort_acc acc l :
  StronglySorted cost_le acc ->
  let r := fold_left (fun acc nh => insert_by_cost nh acc) l acc in
  StronglySorted cost_le r /\ r ≡ₚ l ++ acc.
Proof.
  revert acc. induction l as [|x l IH]; intros acc H; simpl; [done|].
  destruct (IH (insert_by_cost x acc)) as [S P]; [by apply insert_by_cost_sorted|].
  split; [done|]. rewrite P, insert_by_cost_perm. by rewrite Permutation_middle.
Qed.

Lemma sort_by_cost_sorted l : StronglySorted cost_le (sort_by_cost l).
Proof. apply (sort_acc []). constructor. Qed.

Lemma sort_by_cost_perm l : sort_by_cost l ≡ₚ l.
Proof. destruct (sort_acc [] l) as [_ P]; [constructor|]. by rewrite app_nil_r in P. Qed.

Lemma sort_by_cost_keys l : nh_face <$> sort_by_cost l ≡ₚ nh_face <$> l.
Proof. by rewrite sort_by_cost_perm. Qed.

(** ** Finding *)

Lemma findNextHop_from_spec k face l :
  match findNextHop_from k face l with
  | Some j => exists i nh, j = (k + i)%nat /\ l !! i = Some nh /\ nh_face nh = face
  | None => face ∉ nh_face <$> l
  end.
Proof.
  revert k. induction l as [|x l IH]; intros k; simpl; [apply not_elem_of_nil|].
  destruct (N.eqb_spec (nh_face x) face) as [E|E].
  - exists 0%nat, x. split_conj; lia.
  - specialize (IH (S k)). destruct (findNextHop_from (S k) face l).
    + destruct IH as (i & nh & -> & Hi & Hf). exists (S i), nh. split_conj; lia.
    + apply not_elem_of_cons. auto.
Qed.

Lemma hasNextHop_spec e face : hasNextHop e face = true <-> face ∈ nh_face <$> fe_nextHops e.
Proof.
  unfold hasNextHop, findNextHop. pose proof (findNextHop_from_spec 0 face (fe_nextHops e)) as H.
  case_match; [|done]. destruct H as (i & nh & _ & Hi & <-). split; [|done]. intros _.
  apply list_elem_of_fmap_2. by eapply list_elem_of_lookup_2.
Qed.

(** ** Invariant *)

Record wf_fib (e : FibEntry) : Prop := {
  wf_hops : NoDup (nh_face <$> fe_nextHops e);
  wf_sorted : StronglySorted cost_le (fe_nextHops e);
}.

Lemma wf_fib_new p : wf_fib (FibEntry_new p).
Proof. split; constructor. Qed.

Lemma StronglySorted_erase face l :
  StronglySorted cost_le l -> StronglySorted cost_le (erase_face nh_face face l).
Proof.
  induction 1 as [|x l Hl IH Hx]; simpl; [constructor|]. case_match; [done|].
  constructor; [done|]. by apply erase_face_Forall.
Qed.

Lemma wf_removeNextHop face e : wf_fib e -> wf_fib (fe_removeNextHop face e).1.
Proof.
  intros [H1 H2]. unfold fe_removeNextHop. case_match; simpl; split; simpl; auto with ndn.
  by apply StronglySorted_erase.
Qed.

(** The nexthop list before the sort: the cost of one face set, or the face appended. *)
Definition upserted (face : FacePtr) (cost : N) (l : list NextHop) : list NextHop :=
  match findNextHop_from 0 face l with
  | Some k => alter (fun nh => mkNextHop (nh_face nh) cost) k l
  | None => l ++ [mkNextHop face cost]
  end.

Lemma fe_addOrUpdateNextHop_list face cost e :
  fe_nextHops (fe_addOrUpdateNextHop face cost e).1.1 = sort_by_cost (upserted face cost (fe_nextHops e)).
Proof.
  unfold fe_addOrUpdateNextHop, upserted, findNextHop. destruct (findNextHop_from _ _ _) as [k|]; [done|].
  simpl. by rewrite alter_app_r_alt, Nat.sub_diag.
Qed.

Lemma upserted_elem face cost l nh :
  NoDup (nh_face <$> l) ->
  nh ∈ upserted face cost l <-> nh = mkNextHop face cost \/ (nh ∈ l /\ nh_face nh <> face).
Proof.
  intros Hnd. unfold upserted. pose proof (findNextHop_from_spec 0 face l) as H.
  destruct (findNextHop_from 0 face l) as [k|].
  - destruct H as (i & x & -> & Hi & <-). simpl. rewrite !list_elem_of_lookup. split.
    + intros [j Hj]. destruct (decide (i = j)) as [->|Hne].
      * rewrite list_lookup_alter_eq, Hi in Hj. left. by injection Hj.
      * rewrite list_lookup_alter_ne in Hj by done. right. split; [by exists j|].
        intros E. apply Hne. apply (NoDup_lookup _ _ _ (nh_face x) Hnd); rewrite list_lookup_fmap.
        { by rewrite Hi. } { by rewrite Hj, <- E. }
    + intros [->|[[j Hj] Hne]].
      * exists i. by rewrite list_lookup_alter_eq, Hi.
      * exists j. rewrite list_lookup_alter_ne; [done|]. intros <-. congruence.
  - rewrite elem_of_app, list_elem_of_singleton. split.
    + intros [Hl| ->]; [|by left]. right. split; [done|]. intros E. apply H. rewrite <- E.
      by apply list_elem_of_fmap_2.
    + intros [->|[? _]]; auto.
Qed.

Lemma upserted_keys face cost l : NoDup (nh_face <$> l) -> NoDup (nh_face <$> upserted face cost l).
Proof.
  intros Hnd. unfold upserted. pose proof (findNextHop_from_spec 0 face l) as H.
  destruct (findNextHop_from 0 face l) as [k|].
  - rewrite (list_fmap_alter _ _ id) by (by apply Forall_true).
    by rewrite list_alter_id.
  - rewrite fmap_app. apply NoDup_app. split_conj; [|apply NoDup_singleton].
    intros x Hx ->%list_elem_of_singleton. done.
Qed.

Lemma addOrUpdateNextHop_wf face cost e :
  wf_fib e ->
  wf_fib (fe_addOrUpdateNextHop face cost e).1.1 /\
  fe_prefix (fe_addOrUpdateNextHop face cost e).1.1 = fe_prefix e.
Proof.
  intros [Hnd Hs]. split.
  - split; rewrite fe_addOrUpdateNextHop_list; [|apply sort_by_cost_sorted].
    rewrite sort_by_cost_keys. by apply upserted_keys.
  - unfold fe_addOrUpdateNextHop. by destruct (findNextHop e face).
Qed.

(** [fib::Entry::addOrUpdateNextHop] adds the face with the given cost, or replaces the
    cost of the face it already has, keeps every other nexthop, one nexthop per face, and
    leaves the list sorted by cost; [removeNextHop] then takes exactly that face away. *)
Theorem addOrUpdateNextHop_spec (face : FacePtr) (cost : N) (e : FibEntry) :
  wf_fib e ->
  let '(e', it, isNew) := fe_addOrUpdateNextHop face cost e in
  wf_fib e' /\ fe_prefix e' = fe_prefix e /\
  (forall nh, nh ∈ fe_nextHops e' <->
     nh = mkNextHop face cost \/ (nh ∈ fe_nextHops e /\ nh_face nh <> face)) /\
  isNew = negb (hasNextHop e face) /\
  (fe_removeNextHop face e').2 = true /\
  (forall nh, nh ∈ fe_nextHops (fe_removeNextHop face e').1 <->
     nh ∈ fe_nextHops e /\ nh_face nh <> face).
Proof.
  intros Hwf0. pose proof Hwf0 as [Hnd Hs]. pose proof (fe_addOrUpdateNextHop_list face cost e) as HL.
  destruct (addOrUpdateNextHop_wf face cost e Hwf0) as [Hwf HP].
  assert ((fe_addOrUpdateNextHop face cost e).2 = negb (hasNextHop e face)) as HN.
  { unfold fe_addOrUpdateNextHop, hasNextHop. by destruct (findNextHop e face). }
  destruct (fe_addOrUpdateNextHop face cost e) as [[e' it] isNew]. simpl in *.
  assert (forall nh, nh ∈ fe_nextHops e' <->
     nh = mkNextHop face cost \/ (nh ∈ fe_nextHops e /\ nh_face nh <> face)) as Helem.
  { intros nh. rewrite HL, sort_by_cost_perm. by apply upserted_elem. }
  assert (hasNextHop e' face = true) as Hhas.
  { apply hasNextHop_spec, list_elem_of_fmap. exists (mkNextHop face cost). split; [done|].
    apply Helem. by left. }
  unfold hasNextHop in Hhas. unfold fe_removeNextHop. destruct (findNextHop e' face); [|done].
  split_conj. intros nh. simpl. rewrite erase_face_elem by apply Hwf. rewrite Helem.
  split; [|naive_solver]. intros [[->|?] ?]; done.
Qed.

Definition sample_fib : FibEntry := mkFibEntry [] [mkNextHop 256 5; mkNextHop 257 9].

Lemma addOrUpdateNextHop_spec_witness :
  wf_fib sample_fib /\ fe_nextHops (fe_addOrUpdateNextHop 258 7 sample_fib).1.1
                       = [mkNextHop 256 5; mkNextHop 258 7; mkNextHop 257 9] /\
  fe_prefix (fe_addOrUpdateNextHop 258 7 sample_fib).1.1 = [].
Proof.
  assert (wf_fib sample_fib) as H.
  { split; simpl; [|repeat constructor; unfold cost_le; simpl; lia]. repeat constructor; set_solver. }
  split; [exact H|]. split; [reflexivity|].
  destruct (addOrUpdateNextHop_spec 258 7 sample_fib H) as (_ & Hp & _). exact Hp.
Defined.

(** The iterator [addOrUpdateNextHop] returns denotes another nexthop when the new one is
    not the most expensive: [Fib::addOrUpdateNextHop] then announces the wrong nexthop. *)
Lemma returned_iterator_is_stale :
  let '(e', it, isNew) := fe_addOrUpdateNextHop 258 7 sample_fib in
  isNew = true /\ fe_nextHops e' !! it = Some (mkNextHop 257 9).
Proof. by vm_compute. Qed.
