(* ===== verification/CityHash.v ===== *)
(** * CityHash64 (common/city-hash.cpp)

    The hash function of the name tree's hashtable and of the Dead Nonce List. Words are
    [uint64]/[uint32] values in [Z], reduced after every operation that can overflow.
    A fetch from the buffer is [None] when it reads outside of it, so that a defined hash
    says that the function stays within the array. *)

From S2P Require Import Prelude.
Open Scope Z_scope.

(** ** Words *)

Definition mul64 (x y : Z) : Z := u64 (x * y).
Definition add64 (x y : Z) : Z := u64 (x + y).
Definition sub64 (x y : Z) : Z := u64 (x - y).

(** Little-endian value of bytes ([memcpy] into a word on a little-endian host). *)
Fixpoint le_decode (l : list byte) : Z :=
  match l with
  | [] => 0
  | b :: l' => Z.of_N (bN b) + 256 * le_decode l'
  end.

Definition fetch (k : nat) (s : list byte) (off : Z) : option Z :=
  if (0 <=? off) && (off + Z.of_nat k <=? Z.of_nat (length s))
  then Some (le_decode (take k (drop (Z.to_nat off) s))) else None.
Definition Fetch64 : list byte -> Z -> option Z := fetch 8.
Definition Fetch32 : list byte -> Z -> option Z := fetch 4.

(** [s[i]]. *)
Definition Fetch8 : list byte -> Z -> option Z := fetch 1.

(** Reverse the [n] low bytes: [bswap_64] is [bswap 8]. *)
Fixpoint bswap (n : nat) (x acc : Z) : Z :=
  match n with
  | O => acc
  | S n' => bswap n' (Z.shiftr x 8) (Z.lor (Z.shiftl acc 8) (Z.land x 255))
  end.
Definition bswap_64 (x : Z) : Z := bswap 8 x 0.

Definition k0 : Z := 0xc3a5c85c97cb3127.
Definition k1 : Z := 0xb492b66fbe98f273.
Definition k2 : Z := 0x9ae16a3b2f90404f.

Definition Rotate (val shift : Z) : Z :=
  if shift =? 0 then val else Z.lor (Z.shiftr val shift) (u64 (Z.shiftl val (64 - shift))).

Definition ShiftMix (val : Z) : Z := Z.lxor val (Z.shiftr val 47).

(** ** Mixing *)

(** The three-argument [HashLen16]; [Hash128to64] is the same with a constant. *)
Definition HashLen16_mul (u v mul : Z) : Z :=
  let a := mul64 (Z.lxor u v) mul in
  let a := Z.lxor a (Z.shiftr a 47) in
  let b := mul64 (Z.lxor v a) mul in
  let b := Z.lxor b (Z.shiftr b 47) in
  mul64 b mul.

Definition Hash128to64 (lo hi : Z) : Z :=
  let kMul := 0x9ddfea08eb382d69 in
  let a := mul64 (Z.lxor lo hi) kMul in
  let a := Z.lxor a (Z.shiftr a 47) in
  let b := mul64 (Z.lxor hi a) kMul in
  let b := Z.lxor b (Z.shiftr b 47) in
  mul64 b kMul.

Definition HashLen16 (u v : Z) : Z := Hash128to64 u v.

Definition HashLen0to16 (s : list byte) (len : Z) : option Z :=
  if 8 <=? len then
    let mul := add64 k2 (len * 2) in
    f0 ← Fetch64 s 0;
    let a := add64 f0 k2 in
    b ← Fetch64 s (len - 8);
    let c := add64 (mul64 (Rotate b 37) mul) a in
    let d := mul64 (add64 (Rotate a 25) b) mul in
    Some (HashLen16_mul c d mul)
  else if 4 <=? len then
    let mul := add64 k2 (len * 2) in
    a ← Fetch32 s 0;
    e ← Fetch32 s (len - 4);
    Some (HashLen16_mul (add64 len (u64 (Z.shiftl a 3))) e mul)
  else if 0 <? len then
    a ← Fetch8 s 0;
    b ← Fetch8 s (Z.shiftr len 1);
    c ← Fetch8 s (len - 1);
    let y := u32 (a + u32 (Z.shiftl b 8)) in
    let z := u32 (len + u32 (Z.shiftl c 2)) in
    Some (mul64 (ShiftMix (Z.lxor (mul64 y k2) (mul64 z k0))) k2)
  else Some k2.

Definition HashLen17to32 (s : list byte) (len : Z) : option Z :=
  let mul := add64 k2 (len * 2) in
  f0 ← Fetch64 s 0;
  let a := mul64 f0 k1 in
  b ← Fetch64 s 8;
  fc ← Fetch64 s (len - 8);
  let c := mul64 fc mul in
  fd ← Fetch64 s (len - 16);
  let d := mul64 fd k2 in
  Some (HashLen16_mul (add64 (add64 (Rotate (add64 a b) 43) (Rotate c 30)) d)
                      (add64 (add64 a (Rotate (add64 b k2) 18)) c) mul).

(** [WeakHashLen32WithSeeds] on words, then on 32 bytes of the buffer. *)
Definition WeakHashLen32 (w x y z a b : Z) : Z * Z :=
  let a := add64 a w in
  let b := Rotate (add64 (add64 b a) z) 21 in
  let c := a in
  let a := add64 a x in
  let a := add64 a y in
  let b := add64 b (Rotate a 44) in
  (add64 a z, add64 b c).

Definition WeakHashLen32WithSeeds (s : list byte) (off a b : Z) : option (Z * Z) :=
  w ← Fetch64 s off;
  x ← Fetch64 s (off + 8);
  y ← Fetch64 s (off + 16);
  z ← Fetch64 s (off + 24);
  Some (WeakHashLen32 w x y z a b).

Definition HashLen33to64 (s : list byte) (len : Z) : option Z :=
  let mul := add64 k2 (len * 2) in
  f0 ← Fetch64 s 0;
  let a := mul64 f0 k2 in
  b ← Fetch64 s 8;
  c ← Fetch64 s (len - 24);
  d ← Fetch64 s (len - 32);
  fe ← Fetch64 s 16;
  let e := mul64 fe k2 in
  ff ← Fetch64 s 24;
  let f := mul64 ff 9 in
  g ← Fetch64 s (len - 8);
  fh ← Fetch64 s (len - 16);
  let h := mul64 fh mul in
  let u := add64 (Rotate (add64 a g) 43) (mul64 (add64 (Rotate b 30) c) 9) in
  let v := add64 (add64 (Z.lxor (add64 a g) d) f) 1 in
  let w := add64 (bswap_64 (mul64 (add64 u v) mul)) h in
  let x := add64 (Rotate (add64 e f) 42) c in
  let y := mul64 (add64 (bswap_64 (mul64 (add64 v w) mul)) g) mul in
  let z := add64 (add64 e f) c in
  let a := add64 (bswap_64 (add64 (mul64 (add64 x z) mul) y)) b in
  let b := mul64 (ShiftMix (add64 (add64 (mul64 (add64 z a) mul) d) h)) mul in
  Some (add64 b x).

(** ** The loop over 64-byte chunks *)

(** [v], [w], [x], [y], [z]. *)
Record CityState := mkCity { cv : Z * Z; cw : Z * Z; cx : Z; cy : Z; cz : Z }.

(** One iteration of the [do] loop at offset [s] of the buffer. *)
Definition city_chunk (s : list byte) (off : Z) (st : CityState) : option CityState :=
  let '(mkCity v w x y z) := st in
  f8 ← Fetch64 s (off + 8);
  let x := mul64 (Rotate (add64 (add64 (add64 x y) v.1) f8) 37) k1 in
  f48 ← Fetch64 s (off + 48);
  let y := mul64 (Rotate (add64 (add64 y v.2) f48) 42) k1 in
  let x := Z.lxor x w.2 in
  f40 ← Fetch64 s (off + 40);
  let y := add64 y (add64 v.1 f40) in
  let z := mul64 (Rotate (add64 z w.1) 33) k1 in
  v' ← WeakHashLen32WithSeeds s off (mul64 v.2 k1) (add64 x w.1);
  f16 ← Fetch64 s (off + 16);
  w' ← WeakHashLen32WithSeeds s (off + 32) (add64 z w.2) (add64 y f16);
  Some (mkCity v' w' z y x).

(** [do { ... s += 64; len -= 64; } while (len != 0)]: [None] too if the fuel runs out. *)
Fixpoint city_loop (fuel : nat) (s : list byte) (off len : Z) (st : CityState) : option CityState :=
  match fuel with
  | O => None
  | S fuel' =>
      st' ← city_chunk s off st;
      let off := off + 64 in
      let len := sub64 len 64 in
      if negb (len =? 0) then city_loop fuel' s off len st' else Some st'
  end.

Definition CityHash64_long (s : list byte) (len : Z) : option Z :=
  x ← Fetch64 s (len - 40);
  y1 ← Fetch64 s (len - 16);
  y2 ← Fetch64 s (len - 56);
  let y := add64 y1 y2 in
  z1 ← Fetch64 s (len - 48);
  z2 ← Fetch64 s (len - 24);
  let z := HashLen16 (add64 z1 len) z2 in
  v ← WeakHashLen32WithSeeds s (len - 64) len z;
  w ← WeakHashLen32WithSeeds s (len - 32) (add64 y k1) x;
  f0 ← Fetch64 s 0;
  let x := add64 (mul64 x k1) f0 in
  let len' := Z.ldiff (u64 (len - 1)) 63 in
  '(mkCity v w x y z) ← city_loop (S (length s / 64)) s 0 len' (mkCity v w x y z);
  Some (HashLen16 (add64 (add64 (HashLen16 v.1 w.1) (mul64 (ShiftMix y) k1)) z)
                  (add64 (HashLen16 v.2 w.2) x)).

Definition CityHash64 (s : list byte) : option Z :=
  let len := Z.of_nat (length s) in
  if len <=? 32 then
    if len <=? 16 then HashLen0to16 s len else HashLen17to32 s len
  else if len <=? 64 then HashLen33to64 s len
  else CityHash64_long s len.

Definition CityHash64WithSeeds (s : list byte) (seed0 seed1 : Z) : option Z :=
  h ← CityHash64 s; Some (HashLen16 (sub64 h seed0) seed1).

Definition CityHash64WithSeed (s : list byte) (seed : Z) : option Z :=
  CityHash64WithSeeds s k2 seed.

Example CityHash64_empty : CityHash64 [] = Some 0x9ae16a3b2f90404f.
Proof. by vm_compute. Qed.

(** ** Fetches stay inside the buffer *)

Lemma u64_bound z : 0 <= u64 z < 2 ^ 64.
Proof. unfold u64. by apply Z.mod_pos_bound. Qed.

Lemma u64_id z : 0 <= z < 2 ^ 64 -> u64 z = z.
Proof. intros. unfold u64. by rewrite Z.mod_small. Qed.

Lemma fetch_Some k s off :
  0 <= off -> off + Z.of_nat k <= Z.of_nat (length s) -> is_Some (fetch k s off).
Proof.
  intros. unfold fetch. rewrite (proj2 (Z.leb_le _ _)), (proj2 (Z.leb_le _ _)) by lia. by eexists.
Qed.

(** Discharge the first fetch of the goal: its offset is in range by arithmetic. *)
Ltac fetch_ok :=
  match goal with
  | |- context [fetch ?k ?s ?off] =>
      let v := fresh "v" in
      destruct (fetch_Some k s off) as [v ->]; [lia|lia|]; cbn [mbind option_bind]; cbv zeta
  end.

Definition in_word (o : option Z) : Prop := exists h, o = Some h /\ 0 <= h < 2 ^ 64.

Lemma in_word_u64 z : in_word (Some (u64 z)).
Proof. eexists. split; [done|apply u64_bound]. Qed.

Lemma HashLen0to16_ok s : Z.of_nat (length s) <= 16 -> in_word (HashLen0to16 s (Z.of_nat (length s))).
Proof.
  intros H. unfold HashLen0to16, Fetch64, Fetch32, Fetch8. set (len := Z.of_nat (length s)) in *.
  destruct (Z.leb_spec 8 len); [repeat fetch_ok; apply in_word_u64|].
  destruct (Z.leb_spec 4 len); [repeat fetch_ok; apply in_word_u64|].
  destruct (Z.ltb_spec 0 len); [|by exists k2].
  assert (0 <= Z.shiftr len 1 <= len - 1).
  { rewrite Z.shiftr_div_pow2 by lia. change (2 ^ 1) with 2.
    pose proof (Z.div_lt_upper_bound len 2 len). pose proof (Z.div_pos len 2). lia. }
  repeat fetch_ok. apply in_word_u64.
Qed.

Lemma HashLen17to32_ok s :
  16 < Z.of_nat (length s) -> in_word (HashLen17to32 s (Z.of_nat (length s))).
Proof. intros H. unfold HashLen17to32, Fetch64. repeat fetch_ok. apply in_word_u64. Qed.

Lemma HashLen33to64_ok s :
  32 < Z.of_nat (length s) -> in_word (HashLen33to64 s (Z.of_nat (length s))).
Proof. intros H. unfold HashLen33to64, Fetch64. repeat fetch_ok. apply in_word_u64. Qed.

Lemma WeakHash_ok s off a b :
  0 <= off -> off + 32 <= Z.of_nat (length s) -> is_Some (WeakHashLen32WithSeeds s off a b).
Proof. intros. unfold WeakHashLen32WithSeeds, Fetch64. repeat fetch_ok. by eexists. Qed.

Lemma city_chunk_ok s off st :
  0 <= off -> off + 64 <= Z.of_nat (length s) -> is_Some (city_chunk s off st).
Proof.
  intros H1 H2. destruct st as [v w x y z]. unfold city_chunk, Fetch64. repeat fetch_ok.
  match goal with |- context [WeakHashLen32WithSeeds s off ?a ?b] =>
    destruct (WeakHash_ok s off a b) as [? ->]; [lia|lia|]; cbn [mbind option_bind]; cbv zeta end.
  match goal with |- context [WeakHashLen32WithSeeds s (off + 32) ?a ?b] =>
    destruct (WeakHash_ok s (off + 32) a b) as [? ->]; [lia|lia|]; cbn [mbind option_bind]; cbv zeta end.
  by eexists.
Qed.

(** [k] chunks left: the loop ends with [k] rounds of fuel, inside the buffer. *)
Lemma city_loop_ok k : forall fuel s off st,
  (0 < k <= fuel)%nat -> 0 <= off -> 64 * Z.of_nat k < 2 ^ 64 ->
  off + 64 * Z.of_nat k <= Z.of_nat (length s) ->
  is_Some (city_loop fuel s off (64 * Z.of_nat k) st).
Proof.
  induction k as [|k IH]; intros fuel s off st Hf Ho Hk Hl; [lia|].
  destruct fuel as [|fuel]; [lia|]. cbn [city_loop].
  destruct (city_chunk_ok s off st) as [st' ->]; [lia|lia|]. cbn [mbind option_bind]; cbv zeta.
  replace (sub64 (64 * Z.of_nat (S k)) 64) with (64 * Z.of_nat k)
    by (unfold sub64; rewrite u64_id; lia).
  destruct (Z.eqb_spec (64 * Z.of_nat k) 0) as [E|E]; simpl; [by eexists|].
  apply IH; lia.
Qed.

(** [(len - 1) & ~63] is a positive multiple of 64 that leaves at least one byte. *)
Lemma round_down_64 (len : Z) :
  64 < len < 2 ^ 64 ->
  exists k, Z.ldiff (u64 (len - 1)) 63 = 64 * Z.of_nat k /\ (0 < k)%nat /\ 64 * Z.of_nat k < len.
Proof.
  intros H. rewrite u64_id by lia. exists (Z.to_nat ((len - 1) / 64)).
  pose proof (Z.div_mod (len - 1) 64). pose proof (Z.mod_pos_bound (len - 1) 64).
  pose proof (Z.div_le_lower_bound (len - 1) 64 1).
  change 63 with (Z.ones 6). rewrite Z.ldiff_ones_r, Z.shiftl_mul_pow2, Z.shiftr_div_pow2 by lia.
  change (2 ^ 6) with 64. rewrite Z2Nat.id by lia. split_conj; lia.
Qed.

Lemma CityHash64_long_ok s :
  64 < Z.of_nat (length s) < 2 ^ 64 -> in_word (CityHash64_long s (Z.of_nat (length s))).
Proof.
  intros H. unfold CityHash64_long, Fetch64. repeat fetch_ok.
  match goal with |- context [WeakHashLen32WithSeeds s ?o ?a ?b] =>
    destruct (WeakHash_ok s o a b) as [? ->]; [lia|lia|]; cbn [mbind option_bind]; cbv zeta end.
  match goal with |- context [WeakHashLen32WithSeeds s ?o ?a ?b] =>
    destruct (WeakHash_ok s o a b) as [? ->]; [lia|lia|]; cbn [mbind option_bind]; cbv zeta end.
  destruct (round_down_64 (Z.of_nat (length s))) as (k & -> & Hk & Hl); [lia|].
  match goal with |- context [city_loop ?f s 0 _ ?st] =>
    destruct (city_loop_ok k f s 0 st) as [[] ->]; try lia end.
  - split; [done|]. apply Nat.le_succ_r. left. apply Nat.div_le_lower_bound; lia.
  - apply in_word_u64.
Qed.

(** [CityHash64] of any buffer shorter than 2^64 bytes reads no byte outside of the
    buffer, its chunk loop ends, and the result is a 64-bit word; the same of the seeded
    hash the Dead Nonce List uses. *)
Theorem CityHash64_in_bounds (s : list byte) (seed : Z) :
  Z.of_nat (length s) < 2 ^ 64 ->
  (exists h, CityHash64 s = Some h /\ 0 <= h < 2 ^ 64) /\
  (exists h, CityHash64WithSeed s seed = Some h /\ 0 <= h < 2 ^ 64).
Proof.
  intros H. assert (in_word (CityHash64 s)) as (h & E & Hh).
  { unfold CityHash64. destruct (Z.leb_spec (Z.of_nat (length s)) 32).
    - destruct (Z.leb_spec (Z.of_nat (length s)) 16); [by apply HashLen0to16_ok|by apply HashLen17to32_ok].
    - destruct (Z.leb_spec (Z.of_nat (length s)) 64); [by apply HashLen33to64_ok|].
      by apply CityHash64_long_ok. }
  split; [by exists h|]. unfold CityHash64WithSeed, CityHash64WithSeeds. rewrite E.
  apply in_word_u64.
Qed.

Lemma CityHash64_in_bounds_witness :
  Z.of_nat (length (replicate 130 x41)) < 2 ^ 64 /\ is_Some (CityHash64 (replicate 130 x41)).
Proof.
  split; [by vm_compute|].
  destruct (CityHash64_in_bounds (replicate 130 x41) 0) as [(h & -> & _) _]; [by vm_compute|].
  by exists h.
Defined.

(** The hash as a function: the default is never taken. *)
Definition hash64 (s : list byte) : N := Z.to_N (default 0 (CityHash64 s)).
