(* ===== verification/StrategyRegistry.v ===== *)
(** * The strategy registry (fw/strategy.cpp, static part)

    The strategy types and their names, the search of the registry for an instance name,
    and the creation of a strategy instance. The registry is a [std::map] ordered by the
    canonical order of names: an association list sorted by [Name_cmp]. *)

From S2P Require Import Prelude Tlv Name.

(** The types registered by [NFD_REGISTER_STRATEGY]. *)
Inductive StrategyType :=
| AccessStrategy | AsfStrategy | BestRouteStrategy | BestRouteStrategy2
| MulticastStrategy | NccStrategy | RandomStrategy | SelfLearningStrategy.

#[global] Instance StrategyType_eq_dec : EqDecision StrategyType.
Proof. solve_decision. Defined.

Definition word (s : string) : Component := generic (String.list_byte_of_string s).

(** [getStrategyName] of each type: [/localhost/nfd/strategy/<name>/%FD<version>]. *)
Definition strategy_name (s : string) (version : byte) : Name :=
  [word "localhost"; word "nfd"; word "strategy"; word s; generic [xfd; version]].
Definition getStrategyName (s : StrategyType) : Name :=
  match s with
  | AccessStrategy => strategy_name "access" x01
  | AsfStrategy => strategy_name "asf" x03
  | BestRouteStrategy => strategy_name "best-route" x01
  | BestRouteStrategy2 => strategy_name "best-route" x05
  | MulticastStrategy => strategy_name "multicast" x03
  | NccStrategy => strategy_name "ncc" x01
  | RandomStrategy => strategy_name "random" x01
  | SelfLearningStrategy => strategy_name "self-learning" x01
  end.

Definition Registry : Type := list (Name * StrategyType).
Definition name_lt (a b : Name) : bool := match Name_cmp a b with Lt => true | _ => false end.

(** [Strategy::registerType]: [registry[strategyName] = ...]. *)
Fixpoint reg_insert (k : Name) (s : StrategyType) (r : Registry) : Registry :=
  match r with
  | [] => [(k, s)]
  | e :: r' => if name_lt e.1 k then e :: reg_insert k s r' else (k, s) :: r
  end.
Definition registerType (s : StrategyType) (r : Registry) : Registry := reg_insert (getStrategyName s) s r.
Definition getRegistry : Registry :=
  fold_right registerType []
    [AccessStrategy; AsfStrategy; BestRouteStrategy; BestRouteStrategy2;
     MulticastStrategy; NccStrategy; RandomStrategy; SelfLearningStrategy].

(** [registry.lower_bound], and the entry before it. *)
Definition reg_lower_bound (k : Name) (r : Registry) : option (Name * StrategyType) :=
  head (List.filter (fun e => negb (name_lt e.1 k)) r).
Definition reg_before (k : Name) (r : Registry) : option (Name * StrategyType) :=
  last (List.filter (fun e => name_lt e.1 k) r).

(** [Strategy::parseInstanceName]: the loop from the last component down to the second. *)
Record ParsedInstanceName := mkParsed {
  strategyName : Name;
  version : option N;
  parameters : Name;
}.
Fixpoint parse_loop (input : Name) (i : nat) : ParsedInstanceName :=
  match i with
  | O => mkParsed input None []
  | S i' =>
      match input !! i with
      | Some c =>
          if isVersion default_conventions c
          then mkParsed (getPrefix input (Z.of_nat (i + 1))) (toVersion default_conventions c)
                        (getSubName input (Z.of_nat (i + 1)) npos)
          else parse_loop input i'
      | None => parse_loop input i'
      end
  end.
Definition parseInstanceName (input : Name) : ParsedInstanceName := parse_loop input (length input - 1).

(** [Strategy::makeInstanceName]. *)
Definition makeInstanceName (input strategyName : Name) : Name :=
  if existsb (isVersion default_conventions) input then input
  else append input (match last strategyName with Some c => [c] | None => [] end).

(** [Strategy::find]; [None] is [registry.end()]. *)
Definition Strategy_find (r : Registry) (instanceName : Name) : option (Name * StrategyType) :=
  let parsed := parseInstanceName instanceName in
  match version parsed with
  | Some _ =>
      match reg_lower_bound (strategyName parsed) r with
      | Some found => if isPrefixOf (getPrefix (strategyName parsed) (-1)) found.1 then Some found else None
      | None => None
      end
  | None =>
      match strategyName parsed with
      | [] => None
      | _ =>
          match reg_before (Name_getSuccessor (strategyName parsed)) r with
          | Some found => if isPrefixOf (strategyName parsed) found.1 then Some found else None
          | None => None
          end
      end
  end.

(** [Strategy::areSameType]. *)
Definition areSameType (r : Registry) (a b : Name) : bool :=
  bool_decide (fst <$> Strategy_find r a = fst <$> Strategy_find r b).

(** [Strategy::create]: the constructors accept no parameters (ASF, whose parameters
    [boost::lexical_cast] parses, accepts those of [asf_accepts]) and no other version than
    their own. *)
Inductive create_error := NotRegistered | InvalidArgument.

(** A strategy instance is its type and its instance name. *)
Abbreviation StrategyInstance := (StrategyType * Name)%type (only parsing).

Definition Strategy_create (r : Registry) (asf_accepts : Name -> bool) (instanceName : Name)
  : create_error + StrategyInstance :=
  match Strategy_find r instanceName with
  | None => inl NotRegistered
  | Some (_, s) =>
      let parsed := parseInstanceName instanceName in
      let paramsOk := match parameters parsed, s with
                      | [], _ => true
                      | ps, AsfStrategy => asf_accepts ps
                      | _, _ => false
                      end in
      let own := last (getStrategyName s) ≫= toVersion default_conventions in
      let versionOk := match version parsed with
                       | Some v => bool_decide (own = Some v)
                       | None => true
                       end in
      if paramsOk && versionOk then inr (s, makeInstanceName instanceName (getStrategyName s))
      else inl InvalidArgument
  end.

(** The type of the strategy an instance name stands for. *)
Definition strategy_type (r : Registry) (instanceName : Name) : option StrategyType :=
  snd <$> Strategy_find r instanceName.

Definition strategy_prefix : Name := [word "localhost"; word "nfd"; word "strategy"].

Example registry_order :
  getRegistry.*2 = [AsfStrategy; NccStrategy; AccessStrategy; RandomStrategy; MulticastStrategy;
                    BestRouteStrategy; BestRouteStrategy2; SelfLearningStrategy].
Proof. by vm_compute. Qed.
Example find_latest :
  Strategy_find getRegistry (strategy_prefix ++ [word "best-route"]) =
  Some (getStrategyName BestRouteStrategy2, BestRouteStrategy2).
Proof. by vm_compute. Qed.

(** ** What the search finds *)

Definition name_le (a b : Name) : Prop := Name_cmp a b <> Gt.
Definition reg_lt (a b : Name * StrategyType) : Prop := Name_cmp a.1 b.1 = Lt.

(** The entries [std::map] keeps: sorted, one per name. *)
Definition reg_ok (r : Registry) : Prop :=
  StronglySorted reg_lt r /\ Forall (fun e => valid_name e.1) r.

Lemma name_lt_true a b : name_lt a b = true <-> Name_cmp a b = Lt.
Proof. unfold name_lt. by destruct (Name_cmp a b). Qed.
Lemma name_lt_false a b : name_lt a b = false <-> name_le b a.
Proof.
  unfold name_lt, name_le. rewrite (cmp_opp (cmp:=Name_cmp) a b). destruct (Name_cmp a b); simpl; naive_solver.
Qed.
Lemma name_le_trans a b c : name_le a b -> name_le b c -> name_le a c.
Proof.
  unfold name_le. intros H1 H2 H3. apply (cmp_gt_lt (cmp:=Name_cmp)) in H3.
  apply H1, (cmp_gt_lt (cmp:=Name_cmp)). exact (cmp_le_lt_trans _ _ _ H2 H3).
Qed.
Lemma name_le_antisym a b : name_le a b -> name_le b a -> a = b.
Proof.
  unfold name_le. rewrite (cmp_opp (cmp:=Name_cmp) a b). destruct (Name_cmp a b) eqn:E; simpl; try done.
  intros _ _. by apply (cmp_eq (cmp:=Name_cmp)).
Qed.
Lemma name_lt_le a b : Name_cmp a b = Lt -> name_le a b.
Proof. unfold name_le. by intros ->. Qed.

Lemma elem_of_filter (P : Name * StrategyType -> bool) r x : x ∈ List.filter P r <-> x ∈ r /\ P x = true.
Proof. by rewrite !list_elem_of_In, List.filter_In. Qed.

Lemma filter_sorted (P : Name * StrategyType -> bool) r :
  StronglySorted reg_lt r -> StronglySorted reg_lt (List.filter P r).
Proof.
  induction 1 as [|e r Hr IH He]; [constructor|]. simpl. destruct (P e); [|done].
  constructor; [done|]. apply Forall_forall. intros x [Hx _]%elem_of_filter.
  by eapply Forall_forall in He.
Qed.

Lemma sorted_head r e :
  StronglySorted reg_lt r -> head r = Some e <-> e ∈ r /\ forall x, x ∈ r -> name_le e.1 x.1.
Proof.
  intros Hs. destruct Hs as [|f r Hr Hf]; simpl; [split; [done|by intros [?%not_elem_of_nil _]]|]. split.
  - intros [= <-]. split; [by left|]. intros x [->|Hx]%elem_of_cons.
    + unfold name_le. by rewrite (cmp_refl (cmp:=Name_cmp)).
    + eapply Forall_forall in Hf; [|done]. by apply name_lt_le.
  - intros [[->|He]%elem_of_cons Hmin]; [done|]. eapply Forall_forall in Hf; [|done].
    specialize (Hmin f ltac:(left)). unfold name_le in Hmin. apply (cmp_gt_lt (cmp:=Name_cmp)) in Hf. done.
Qed.

Lemma sorted_last r e :
  StronglySorted reg_lt r -> last r = Some e <-> e ∈ r /\ forall x, x ∈ r -> name_le x.1 e.1.
Proof.
  induction 1 as [|f r Hr IH Hf]; simpl; [split; [done|by intros [?%not_elem_of_nil _]]|].
  destruct r as [|g r].
  - split.
    + intros [= <-]. split; [by left|]. intros x [->|?%not_elem_of_nil]%elem_of_cons; [|done].
      unfold name_le. by rewrite (cmp_refl (cmp:=Name_cmp)).
    + by intros [[->|?%not_elem_of_nil]%elem_of_cons _].
  - rewrite last_cons_cons, IH. split.
    + intros [He Hmax]. split; [by right|]. intros x [->|Hx]%elem_of_cons; [|auto].
      apply name_lt_le. by eapply Forall_forall in Hf.
    + intros [[->|He]%elem_of_cons Hmax]; [|split; [done|intros; apply Hmax; by right]].
      exfalso. specialize (Hmax g ltac:(right; left)).
      apply Forall_cons in Hf as [Hf _]. apply (cmp_gt_lt (cmp:=Name_cmp)) in Hf. done.
Qed.

(** Names between two names with a common prefix have that prefix. *)
Lemma prefix_convex q k f e :
  q <> [] -> valid_name q -> valid_name k -> valid_name f -> valid_name e ->
  q `prefix_of` k -> q `prefix_of` e -> name_le k f -> name_le f e -> q `prefix_of` f.
Proof.
  intros Hne Hq [Hk _] [Hf _] [He _] Pk Pe H1 H2. apply isPrefixOf_spec, (successor_range q f Hne Hq Hf).
  apply isPrefixOf_spec, (successor_range q k Hne Hq Hk) in Pk as [K1 _].
  apply isPrefixOf_spec, (successor_range q e Hne Hq He) in Pe as [_ E2].
  split; [by eapply name_le_trans|]. exact (cmp_le_lt_trans _ _ _ H2 E2).
Qed.

Definition least (P : Name -> Prop) (r : Registry) (e : Name * StrategyType) : Prop :=
  e ∈ r /\ P e.1 /\ forall x, x ∈ r -> P x.1 -> name_le e.1 x.1.
Definition greatest (P : Name -> Prop) (r : Registry) (e : Name * StrategyType) : Prop :=
  e ∈ r /\ P e.1 /\ forall x, x ∈ r -> P x.1 -> name_le x.1 e.1.

(** The search with the range [lower_bound] gives, for a bound that has the prefix. *)
Lemma lower_bound_least q k r e :
  reg_ok r -> q <> [] -> valid_name q -> valid_name k -> q `prefix_of` k ->
  (match reg_lower_bound k r with
   | Some found => if isPrefixOf q found.1 then Some found else None
   | None => None end) = Some e <->
  least (fun x => q `prefix_of` x /\ name_le k x) r e.
Proof.
  intros [Hs Hv] Hne Hq Hk Pk. unfold reg_lower_bound.
  assert (forall x, x ∈ List.filter (fun e => negb (name_lt e.1 k)) r <-> x ∈ r /\ name_le k x.1) as Hin.
  { intros x. rewrite elem_of_filter, negb_true_iff, name_lt_false. tauto. }
  pose proof (filter_sorted (fun e => negb (name_lt e.1 k)) r Hs) as HS.
  assert (forall x, x ∈ r -> valid_name x.1) as Hval by (by apply Forall_forall).
  pose proof (fun f => sorted_head _ f HS) as HH.
  set (l := List.filter _ r) in *. clearbody l. split.
  - destruct (head l) as [f|] eqn:E; [|done]. destruct (isPrefixOf q f.1) eqn:P; [|done]. intros [= <-].
    destruct (proj1 (HH f) eq_refl) as [Hf Hmin]. apply Hin in Hf as [Hf Hkf]. split_and!; [done|by apply isPrefixOf_spec|done|].
    intros x Hx [_ Hle]. apply Hmin, Hin. done.
  - intros (He & [Pe Hke] & Hmin). assert (e ∈ l) as Hel by (by apply Hin).
    destruct (head l) as [f|] eqn:E; [|by apply head_None in E as ->; apply not_elem_of_nil in Hel].
    assert (f = e) as ->; [|rewrite (proj2 (isPrefixOf_spec _ _) Pe); done].
    pose proof (proj1 (HH f) eq_refl) as [Hf Hfmin]. apply Hin in Hf as [Hf Hkf].
    assert (q `prefix_of` f.1) as Pf by (eapply (prefix_convex q k f.1 e.1); eauto).
    assert (f.1 = e.1) as Ee by (apply name_le_antisym; auto).
    assert (Some f = Some e) as E'; [|congruence]. apply HH. split; [done|]. rewrite <- Ee. exact Hfmin.
Qed.

Lemma before_greatest q r e :
  reg_ok r -> q <> [] -> valid_name q ->
  (match reg_before (Name_getSuccessor q) r with
   | Some found => if isPrefixOf q found.1 then Some found else None
   | None => None end) = Some e <->
  greatest (fun x => q `prefix_of` x) r e.
Proof.
  intros [Hs Hv] Hne Hq. unfold reg_before.
  pose proof (filter_sorted (fun e => name_lt e.1 (Name_getSuccessor q)) r Hs) as HS.
  assert (forall x, x ∈ List.filter (fun e => name_lt e.1 (Name_getSuccessor q)) r <->
            x ∈ r /\ Name_cmp x.1 (Name_getSuccessor q) = Lt) as Hin.
  { intros x. rewrite elem_of_filter, name_lt_true. tauto. }
  assert (forall x, x ∈ r -> q `prefix_of` x.1 <-> name_le q x.1 /\ Name_cmp x.1 (Name_getSuccessor q) = Lt) as HP.
  { intros x Hx. rewrite <- isPrefixOf_spec. apply successor_range; [done..|].
    eapply Forall_forall in Hv; [|done]. apply Hv. }
  pose proof (fun f => sorted_last _ f HS) as HH.
  set (l := List.filter _ r) in *. clearbody l. split.
  - destruct (last l) as [f|] eqn:E; [|done]. destruct (isPrefixOf q f.1) eqn:P; [|done]. intros [= <-].
    destruct (proj1 (HH f) eq_refl) as [Hf Hmax]. apply Hin in Hf as [Hf _]. split_and!; [done|by apply isPrefixOf_spec|].
    intros x Hx Px. apply Hmax, Hin. split; [done|]. by apply HP.
  - intros (He & Pe & Hmax). assert (e ∈ l) as Hel by (apply Hin; split; [done|by apply HP]).
    destruct (last l) as [f|] eqn:E; [|by apply last_None in E as ->; apply not_elem_of_nil in Hel].
    assert (f = e) as ->; [|rewrite (proj2 (isPrefixOf_spec _ _) Pe); done].
    pose proof (proj1 (HH f) eq_refl) as [Hf Hfmax]. apply Hin in Hf as [Hf Hfs].
    assert (q `prefix_of` f.1) as Pf.
    { apply HP; [done|]. split; [|done]. eapply name_le_trans; [|by apply Hfmax]. by apply HP. }
    assert (f.1 = e.1) as Ee by (apply name_le_antisym; auto).
    assert (Some f = Some e) as E'; [|congruence]. apply HH. split; [done|]. rewrite <- Ee. exact Hfmax.
Qed.

(** ** Instance names *)

Lemma readNonNegativeInteger_ok k l :
  (k = 1 \/ k = 2 \/ k = 4 \/ k = 8)%nat -> length l = k -> exists n r, readNonNegativeInteger k l = inr (n, r).
Proof.
  intros Hk Hl. unfold readNonNegativeInteger, read_number_fast. rewrite Hl, Nat.ltb_irrefl.
  destruct Hk as [->|[->|[->| ->]]]; simpl; eauto.
Qed.

Lemma isVersion_toVersion c :
  isVersion default_conventions c = true -> is_Some (toVersion default_conventions c).
Proof.
  unfold isVersion, toVersion, isConvention, toConvention. cbn [canDecodeMarker canDecodeTyped andb].
  assert (isNumberWithMarker VERSION_MARKER c = true -> is_Some (toNumberWithMarker VERSION_MARKER c)) as H1.
  { intros H. unfold toNumberWithMarker. rewrite H. simpl. unfold isNumberWithMarker in H.
    apply andb_true_iff in H as [H _]. rewrite !orb_true_iff, !Nat.eqb_eq in H.
    destruct (readNonNegativeInteger_ok (length (c_value c) - 1) (tail (c_value c))) as (n & r & ->);
      [lia|by destruct (c_value c); simpl; lia|by eexists]. }
  assert (isNumber c = true -> is_Some (toNumber c)) as H2.
  { intros H. unfold toNumber. rewrite H. simpl. unfold isNumber in H.
    rewrite !orb_true_iff, !Nat.eqb_eq in H.
    destruct (readNonNegativeInteger_ok (length (c_value c)) (c_value c)) as (n & r & ->); [lia|done|by eexists]. }
  destruct (N.eqb_spec (c_type c) GenericNameComponent) as [->|_]; simpl; [|by destruct (_ =? _)%N].
  rewrite orb_false_r. exact H1.
Qed.

(** [parseInstanceName] splits the name after its last version component, the first
    component of the name not counting. *)
Lemma parse_loop_spec input i :
  name_small input -> (i < length input)%nat ->
  let p := parse_loop input i in
  (p = mkParsed input None [] /\
   forall j c, (0 < j <= i)%nat -> input !! j = Some c -> isVersion default_conventions c = false) \/
  (exists j c, (0 < j <= i)%nat /\ input !! j = Some c /\ isVersion default_conventions c = true /\
     p = mkParsed (take (j + 1) input) (toVersion default_conventions c) (drop (j + 1) input)).
Proof.
  intros Hs. induction i as [|i IH]; intros Hi; cbn [parse_loop].
  - left. split; [done|]. lia.
  - destruct (lookup_lt_is_Some_2 input (S i) Hi) as [c Hc]. rewrite Hc.
    destruct (isVersion default_conventions c) eqn:Ev.
    + right. exists (S i), c. split_and!; [lia|lia|done|done|].
      unfold name_small in Hs. f_equal; [apply getPrefix_nonneg; lia|].
      unfold getSubName. rewrite (proj2 (Z.ltb_ge (Z.of_nat (S i + 1)) 0)) by lia.
      rewrite (proj2 (Z.ltb_ge (Z.of_nat (S i + 1)) 0)) by lia. rewrite Z.eqb_refl, Nat2Z.id.
      apply take_ge. rewrite length_drop. lia.
    + destruct IH as [[-> IH]|(j & d & Hj & Hd)]; [lia| |].
      * left. split; [done|]. intros j d Hj Hd. destruct (decide (j = S i)) as [->|]; [congruence|].
        apply (IH j); [lia|done].
      * right. exists j, d. split_and!; [lia|lia|apply Hd..].
Qed.

Lemma find_spec r input e :
  reg_ok r -> valid_name input -> input <> [] ->
  let p := parseInstanceName input in
  Strategy_find r input = Some e <->
  match version p with
  | Some _ => least (fun x => take (length (strategyName p) - 1) input `prefix_of` x /\ name_le (strategyName p) x) r e
  | None => greatest (fun x => input `prefix_of` x) r e
  end.
Proof.
  intros Hr Hv Hne. cbn zeta. unfold Strategy_find, parseInstanceName.
  assert (0 < length input)%nat as Hl by (destruct input; simpl; [done|lia]).
  destruct Hv as [Hv Hs].
  destruct (parse_loop_spec input (length input - 1) Hs ltac:(lia)) as [[-> _]|(j & c & Hj & Hc & Ev & ->)];
    cbn [version strategyName].
  - destruct input as [|c l]; [done|]. apply before_greatest; [done|done|by split].
  - destruct (isVersion_toVersion c Ev) as [v ->].
    assert (length (take (j + 1) input) = (j + 1)%nat) as HL by (rewrite length_take; lia).
    assert (forall k, valid_name (take k input)) as Hvk.
    { intros k. split; [by apply Forall_take|]. unfold name_small in *. rewrite length_take. lia. }
    rewrite getPrefix_neg by (apply Hvk || by intros E; rewrite E in HL; simpl in HL; lia).
    rewrite HL, take_take. replace (Nat.min (j + 1 - 1) (j + 1)) with (j + 1 - 1)%nat by lia.
    apply lower_bound_least; [done| |done|done|].
    + intros E. apply (f_equal length) in E. rewrite length_take in E. simpl in E. lia.
    + exists (drop (j + 1 - 1) (take (j + 1) input)). rewrite <- (take_drop (j + 1 - 1) (take (j + 1) input)) at 1.
      by rewrite take_take, Nat.min_l by lia.
Qed.

(** [Strategy::find]. For an instance name with a version, the strategy found is the
    least registered one that has the name's prefix and is not below the name: the exact
    version or the next higher one. Without a version it is the greatest registered one
    below the name: the highest version. The name is its parsed parts
    put together, and the program's own registry is sorted and of valid names. *)
Theorem strategy_find_spec (r : Registry) (input : Name) (e : Name * StrategyType) :
  reg_ok r -> valid_name input -> input <> [] ->
  let p := parseInstanceName input in
  (Strategy_find r input = Some e <->
   match version p with
   | Some _ => least (fun x => take (length (strategyName p) - 1) input `prefix_of` x /\ name_le (strategyName p) x) r e
   | None => greatest (fun x => input `prefix_of` x) r e
   end) /\
  (strategyName p ++ parameters p = input) /\ reg_ok getRegistry.
Proof.
  intros Hr Hv Hne p. split; [by apply find_spec|]. split.
  - assert (0 < length input)%nat by (destruct input; simpl; [done|lia]).
    unfold p, parseInstanceName.
    destruct (parse_loop_spec input (length input - 1)) as [[-> _]|(j & c & _ & _ & _ & ->)];
      [apply Hv|lia|apply app_nil_r|apply take_drop].
  - split; [|by repeat constructor]. by repeat constructor.
Qed.

Lemma strategy_find_spec_witness :
  reg_ok getRegistry /\
  Strategy_find getRegistry (strategy_name "best-route" x02) = Some (getStrategyName BestRouteStrategy2, BestRouteStrategy2) /\
  reg_ok getRegistry.
Proof.
  assert (reg_ok getRegistry) as H by (split; by repeat constructor).
  split; [exact H|]. split; [by vm_compute|].
  destruct (strategy_find_spec getRegistry (strategy_name "best-route" x02)
              (getStrategyName BestRouteStrategy2, BestRouteStrategy2) H) as (_ & _ & H');
    [split; [by repeat constructor|by vm_compute]|done|exact H'].
Defined.

(** An instance created from a name that is a proper prefix of its strategy's name gets an
    instance name that stands for another strategy type: the version component is appended
    to the short name, and the next higher registered name below the short name is found. *)
Lemma short_name_wrong_type :
  Strategy_create getRegistry (fun _ => false) strategy_prefix
    = inr (SelfLearningStrategy, strategy_prefix ++ [generic [xfd; x01]]) /\
  strategy_type getRegistry (strategy_prefix ++ [generic [xfd; x01]]) = Some AsfStrategy.
Proof. by vm_compute. Qed.
