(* ===== verification/NodeStore.v ===== *)
(** * What the name tree asks of its node store

    [NameTree] keeps its nodes in a [Hashtable]; it needs find, insert, erase, writes
    through a node pointer, and an enumeration. The class states these operations and
    their laws against a finite map from names to entries. A node pointer is represented
    by the name of its node: a store holds at most one node per name. The map itself is
    the first instance; Hashtable.v is the second. *)

From S2P Require Import Prelude Name.

Class NodeStore (E S : Type) := {
  (** [find(name, prefixLen)]. *)
  ns_find : S -> Name -> nat -> option E;
  (** [insert(name, prefixLen)] of a new entry; whether it is new. *)
  ns_insert : E -> S -> Name -> nat -> S * bool;
  (** [erase(node)]. *)
  ns_erase : S -> Name -> S;
  (** A write through the pointer of a node. *)
  ns_modify : (E -> E) -> Name -> S -> S;
  (** The nodes in the order of the enumeration. *)
  ns_elems : S -> list (Name * E);
}.

(** The laws: [ns_view] is the map the store stands for, on stores satisfying [ns_wf]. *)
Class NodeStoreLaws (E S : Type) `{!NodeStore E S} := {
  ns_wf : S -> Prop;
  ns_view : S -> gmap Name E;
  ns_find_view s n k : ns_wf s -> (k <= length n)%nat -> ns_find s n k = ns_view s !! take k n;
  ns_insert_wf e s n k : ns_wf s -> (k <= length n)%nat -> (Z.of_nat k < 2 ^ 63)%Z -> ns_wf (ns_insert e s n k).1;
  ns_insert_view e s n k : ns_wf s -> (k <= length n)%nat -> (Z.of_nat k < 2 ^ 63)%Z ->
    ns_view (ns_insert e s n k).1 =
      match ns_view s !! take k n with Some _ => ns_view s | None => <[take k n := e]> (ns_view s) end;
  ns_insert_new e s n k : ns_wf s -> (k <= length n)%nat -> (Z.of_nat k < 2 ^ 63)%Z ->
    (ns_insert e s n k).2 = bool_decide (ns_view s !! take k n = None);
  ns_erase_wf s n : ns_wf s -> is_Some (ns_view s !! n) -> ns_wf (ns_erase s n);
  ns_erase_view s n : ns_wf s -> is_Some (ns_view s !! n) -> ns_view (ns_erase s n) = delete n (ns_view s);
  ns_modify_wf f n s : ns_wf s -> ns_wf (ns_modify f n s);
  ns_modify_view f n s : ns_wf s -> ns_view (ns_modify f n s) = alter f n (ns_view s);
  ns_elems_view s : ns_wf s -> ns_elems s ≡ₚ map_to_list (ns_view s);
}.

(** ** The map as a store *)

#[global] Instance gmap_store {E} : NodeStore E (gmap Name E) := {
  ns_find m n k := m !! take k n;
  ns_insert e m n k :=
    match m !! take k n with Some _ => (m, false) | None => (<[take k n := e]> m, true) end;
  ns_erase m n := delete n m;
  ns_modify f n m := alter f n m;
  ns_elems m := map_to_list m;
}.

#[global] Program Instance gmap_store_laws {E} : NodeStoreLaws E (gmap Name E) := {
  ns_wf _ := True;
  ns_view m := m;
}.
Next Obligation. done. Qed.
Next Obligation. done. Qed.
Next Obligation. intros; simpl; by case_match. Qed.
Next Obligation. intros; simpl; by case_match. Qed.
Next Obligation. done. Qed.
Next Obligation. done. Qed.
Next Obligation. done. Qed.
Next Obligation. done. Qed.
Next Obligation. done. Qed.

(** ** Runs

    A sequence of operations on a store, with what each returns. Erasing is through the
    pointer of a node, so it happens to nodes that exist. *)

Inductive store_op (E : Type) :=
  | OpFind (n : Name) (k : nat)
  | OpInsert (e : E) (n : Name) (k : nat)
  | OpErase (n : Name)
  | OpModify (f : E -> E) (n : Name).
#[global] Arguments OpFind {E}.
#[global] Arguments OpInsert {E}.
#[global] Arguments OpErase {E}.
#[global] Arguments OpModify {E}.

Inductive store_out (E : Type) := OutFound (o : option E) | OutNew (b : bool) | OutUnit.
#[global] Arguments OutFound {E}.
#[global] Arguments OutNew {E}.
#[global] Arguments OutUnit {E}.

Section run.
Context {E S : Type} `{!NodeStore E S}.

Definition exec (s : S) (op : store_op E) : S * store_out E :=
  match op with
  | OpFind n k => (s, OutFound (ns_find s n k))
  | OpInsert e n k => let '(s', b) := ns_insert e s n k in (s', OutNew b)
  | OpErase n => match ns_find s n (length n) with
                 | Some _ => (ns_erase s n, OutUnit) | None => (s, OutUnit) end
  | OpModify f n => (ns_modify f n s, OutUnit)
  end.

Fixpoint run (s : S) (ops : list (store_op E)) : S * list (store_out E) :=
  match ops with
  | [] => (s, [])
  | op :: ops' => let '(s, o) := exec s op in let '(s, os) := run s ops' in (s, o :: os)
  end.
End run.

Definition op_ok {E} (op : store_op E) : Prop :=
  match op with
  | OpFind n k | OpInsert _ n k => (k <= length n)%nat /\ (Z.of_nat k < 2 ^ 63)%Z
  | _ => True
  end.

Section simulation.
Context {E S : Type} `{!NodeStore E S, !NodeStoreLaws E S}.

Lemma exec_view (s : S) (op : store_op E) :
  ns_wf s -> op_ok op ->
  ns_wf (exec s op).1 /\ ns_view (exec s op).1 = (exec (ns_view s) op).1 /\
  (exec s op).2 = (exec (ns_view s) op).2.
Proof.
  intros Hwf Hop. destruct op as [n k|e n k|n|f n]; simpl in *.
  - destruct Hop. by rewrite ns_find_view.
  - destruct Hop as [Hk Hk']. pose proof (ns_insert_wf e s n k Hwf Hk Hk') as H1.
    pose proof (ns_insert_view e s n k Hwf Hk Hk') as H2.
    pose proof (ns_insert_new e s n k Hwf Hk Hk') as H3.
    destruct (ns_insert e s n k) as [s' b]. simpl in *. rewrite H2, H3.
    destruct (ns_view s !! take k n); simpl; split_conj.
  - rewrite ns_find_view by done. rewrite take_ge by done.
    destruct (ns_view s !! n) eqn:En; simpl; [|done].
    assert (is_Some (ns_view s !! n)) by (by rewrite En).
    split_conj; [by apply ns_erase_wf|by apply ns_erase_view].
  - split_conj; [by apply ns_modify_wf|by apply ns_modify_view].
Qed.

Lemma run_view (s : S) (ops : list (store_op E)) :
  ns_wf s -> Forall op_ok ops ->
  ns_wf (run s ops).1 /\ ns_view (run s ops).1 = (run (ns_view s) ops).1 /\
  (run s ops).2 = (run (ns_view s) ops).2.
Proof.
  intros Hwf Hops. revert s Hwf. induction Hops as [|op ops Hop Hops IH]; intros s Hwf; simpl; [done|].
  destruct (exec_view s op Hwf Hop) as (H1 & H2 & H3).
  destruct (exec s op) as [s' o], (exec (ns_view s) op) as [m o']. simpl in *. subst.
  destruct (IH s' H1) as (H4 & H5 & H6).
  destruct (run s' ops), (run (ns_view s') ops). simpl in *. by subst.
Qed.
End simulation.
