(* ===== verification/Hashtable.v ===== *)
(** * The name tree's hashtable (table/name-tree-hashtable.cpp)

    Buckets of nodes, a node in the bucket its hash selects; the number of buckets follows
    the number of nodes. The hash of a name is the exclusive or of the hashes of its
    components. The table is a store of nodes: an instance of [NodeStore] with its laws,
    for any hash function on components. *)

From S2P Require Import Prelude Name CityHash NodeStore.

(** ** Hashes of names *)

Section hash.
Context (hash : Component -> N).

(** [computeHash(name, prefixLen)]. *)
Definition computeHash (name : Name) (prefixLen : nat) : N :=
  fold_left (fun h c => N.lxor h (hash c)) (take (Nat.min prefixLen (length name)) name) 0%N.

(** [computeHashes(name, prefixLen)]: the sequence of the hashes of the prefixes. *)
Fixpoint hashes_from (h : N) (l : Name) : list N :=
  match l with
  | [] => []
  | c :: l' => let h := N.lxor h (hash c) in h :: hashes_from h l'
  end.
Definition computeHashes (name : Name) (prefixLen : nat) : list N :=
  0%N :: hashes_from 0%N (take (Nat.min prefixLen (length name)) name).

Lemma hashes_from_lookup l h k :
  (k <= length l)%nat ->
  (h :: hashes_from h l) !! k = Some (fold_left (fun h c => N.lxor h (hash c)) (take k l) h).
Proof.
  revert h k. induction l as [|c l IH]; intros h [|k] H; simpl in *; try done; [lia|].
  by rewrite IH by lia.
Qed.

(** The assertion of [find] and [insert]: the i-th hash of the sequence is the hash of
    the i-th prefix. *)
Lemma computeHashes_lookup name prefixLen k :
  (k <= prefixLen)%nat -> (k <= length name)%nat ->
  computeHashes name prefixLen !! k = Some (computeHash name k).
Proof.
  intros H1 H2. unfold computeHashes. rewrite hashes_from_lookup by (rewrite length_take; lia).
  unfold computeHash. by rewrite take_take, !Nat.min_l by lia.
Qed.
End hash.

(** [HashFunc::compute(comp.wire(), comp.size())]. *)
Definition component_hash (c : Component) : N := hash64 (comp_wireEncode c).

(** ** Load factors

    [float * size_t] has 24 significant bits. *)
Open Scope Z_scope.

Definition f32_mul : Z * Z -> Z -> Z := fp_mul 24.

(** [HashtableOptions]. *)
Record Options := mkOptions {
  initialSize : Z;
  minSize : Z;
  expandLoadFactor : Z * Z;
  expandFactor : Z * Z;
  shrinkLoadFactor : Z * Z;
  shrinkFactor : Z * Z;
}.

(** [HashtableOptions(size)] with the default factors 0.5f, 2.0f, 0.1f, 0.5f. *)
Definition HashtableOptions (size : Z) : Options :=
  mkOptions size size (1, -1) (1, 1) (13421773, -27) (1, -1).

Close Scope Z_scope.

(** ** The table *)

Section hashtable.
Context {E : Type} (hash : Component -> N).

(** [Node]: [hash] and the entry with its name. The [prev] and [next] pointers are the
    order of the bucket's list. *)
Record Node := mkNode { n_hash : N; n_name : Name; n_entry : E }.

Record Hashtable := mkHashtable {
  m_buckets : list (list Node);
  m_options : Options;
  m_size : Z;
  m_expandThreshold : Z;
  m_shrinkThreshold : Z;
}.

Definition getNBuckets (ht : Hashtable) : N := N.of_nat (length (m_buckets ht)).
Definition computeBucketIndex (ht : Hashtable) (h : N) : nat := N.to_nat (h mod getNBuckets ht).

Definition computeThresholds (ht : Hashtable) : Hashtable :=
  let nb := Z.of_N (getNBuckets ht) in
  mkHashtable (m_buckets ht) (m_options ht) (m_size ht)
              (f32_mul (expandLoadFactor (m_options ht)) nb)
              (f32_mul (shrinkLoadFactor (m_options ht)) nb).

Definition set_buckets (bs : list (list Node)) (ht : Hashtable) : Hashtable :=
  mkHashtable bs (m_options ht) (m_size ht) (m_expandThreshold ht) (m_shrinkThreshold ht).
Definition set_size (n : Z) (ht : Hashtable) : Hashtable :=
  mkHashtable (m_buckets ht) (m_options ht) n (m_expandThreshold ht) (m_shrinkThreshold ht).

(** [Hashtable(options)]. *)
Definition Hashtable_new (o : Options) : Hashtable :=
  computeThresholds (mkHashtable (replicate (Z.to_nat (initialSize o)) []) o 0 0 0).

(** [attach]: at the head of the bucket. *)
Definition attach (bucket : nat) (node : Node) (ht : Hashtable) : Hashtable :=
  set_buckets (alter (fun l => node :: l) bucket (m_buckets ht)) ht.

(** [detach]: unlink the node from the bucket. *)
Fixpoint unlink (name : Name) (l : list Node) : list Node :=
  match l with
  | [] => []
  | x :: l' => if bool_decide (n_name x = name) then l' else x :: unlink name l'
  end.
Definition detach (bucket : nat) (name : Name) (ht : Hashtable) : Hashtable :=
  set_buckets (alter (unlink name) bucket (m_buckets ht)) ht.

(** [resize]: every node, bucket after bucket, is attached to the new buckets. *)
Definition resize (newNBuckets : Z) (ht : Hashtable) : Hashtable :=
  if (Z.of_N (getNBuckets ht) =? newNBuckets)%Z then ht
  else
    let fresh := set_buckets (replicate (Z.to_nat newNBuckets) []) ht in
    computeThresholds
      (fold_left (fun t node => attach (computeBucketIndex t (n_hash node)) node t)
                 (mjoin (m_buckets ht)) fresh).

(** The search of [findOrInsert] in one bucket. *)
Fixpoint bucket_find (name : Name) (prefixLen : nat) (h : N) (l : list Node) : option Node :=
  match l with
  | [] => None
  | x :: l' =>
      if (n_hash x =? h)%N &&
         bool_decide (Name_compare name 0 prefixLen (n_name x) 0 (length (n_name x)) = Eq)
      then Some x else bucket_find name prefixLen h l'
  end.

Definition bucket_of (ht : Hashtable) (h : N) : list Node :=
  default [] (m_buckets ht !! computeBucketIndex ht h).

(** [findOrInsert]; [new] is the entry a new node is constructed with. *)
Definition findOrInsert (new : E) (name : Name) (prefixLen : nat) (h : N) (allowInsert : bool)
    (ht : Hashtable) : Hashtable * option Node * bool :=
  let bucket := computeBucketIndex ht h in
  match bucket_find name prefixLen h (bucket_of ht h) with
  | Some node => (ht, Some node, false)
  | None =>
      if negb allowInsert then (ht, None, false)
      else
        let node := mkNode h (getPrefix name (Z.of_nat prefixLen)) new in
        let ht := attach bucket node ht in
        let ht := set_size (m_size ht + 1) ht in
        let ht := if (m_expandThreshold ht <? m_size ht)%Z
                  then resize (f32_mul (expandFactor (m_options ht)) (Z.of_N (getNBuckets ht))) ht
                  else ht in
        (ht, Some node, true)
  end.

(** [find(name, prefixLen)]. *)
Definition ht_find (ht : Hashtable) (name : Name) (prefixLen : nat) : option E :=
  n_entry <$> bucket_find name prefixLen (computeHash hash name prefixLen)
                (bucket_of ht (computeHash hash name prefixLen)).

(** [insert(name, prefixLen, hashes)]. *)
Definition ht_insert (new : E) (ht : Hashtable) (name : Name) (prefixLen : nat) : Hashtable * bool :=
  let '(ht, _, isNew) := findOrInsert new name prefixLen (computeHash hash name prefixLen) true ht in
  (ht, isNew).

(** [erase(node)]; the node's hash is that of its name. *)
Definition ht_erase (ht : Hashtable) (name : Name) : Hashtable :=
  let bucket := computeBucketIndex ht (computeHash hash name (length name)) in
  let ht := detach bucket name ht in
  let ht := set_size (m_size ht - 1) ht in
  if (m_size ht <? m_shrinkThreshold ht)%Z
  then resize (Z.max (minSize (m_options ht))
                     (f32_mul (shrinkFactor (m_options ht)) (Z.of_N (getNBuckets ht)))) ht
  else ht.

(** A write to the entry of a node: the node stays where it is. *)
Definition node_modify (f : E -> E) (name : Name) (x : Node) : Node :=
  if bool_decide (n_name x = name) then mkNode (n_hash x) (n_name x) (f (n_entry x)) else x.
Definition ht_modify (f : E -> E) (name : Name) (ht : Hashtable) : Hashtable :=
  set_buckets (map (map (node_modify f name)) (m_buckets ht)) ht.

(** [FullEnumerationImpl]: bucket after bucket, each from its head. *)
Definition ht_nodes (ht : Hashtable) : list Node := mjoin (m_buckets ht).
Definition node_pair (x : Node) : Name * E := (n_name x, n_entry x).
Definition ht_elems (ht : Hashtable) : list (Name * E) := node_pair <$> ht_nodes ht.
End hashtable.
#[global] Arguments Node : clear implicits.
#[global] Arguments Hashtable : clear implicits.

Example thresholds_16 : let t := Hashtable_new (E:=unit) (HashtableOptions 16) in
  (m_expandThreshold t, m_shrinkThreshold t) = (8, 1)%Z.
Proof. reflexivity. Qed.
Example thresholds_1024 : let t := Hashtable_new (E:=unit) (HashtableOptions 1024) in
  (m_expandThreshold t, m_shrinkThreshold t) = (512, 102)%Z.
Proof. reflexivity. Qed.

(** ** The invariant *)

(** Usable options: some bucket is always left, and expanding never gives none. *)
Definition options_ok (o : Options) : Prop :=
  (0 < minSize o <= initialSize o)%Z /\ (forall nb, 0 < nb -> 0 < f32_mul (expandFactor o) nb)%Z.

Section invariant.
Context {E : Type} (hash : Component -> N).
Implicit Types (ht : Hashtable E) (x : Node E) (l : list (Node E)).

(** A node is in the bucket of its hash, which is the hash of its name. *)
Definition hashed x : Prop := n_hash x = computeHash hash (n_name x) (length (n_name x)).

Record ht_wf ht : Prop := {
  wf_opts : options_ok (m_options ht);
  wf_nb : (0 < getNBuckets ht)%N;
  wf_placed : forall b l x, m_buckets ht !! b = Some l -> x ∈ l ->
                b = computeBucketIndex ht (n_hash x);
  wf_hashed : Forall hashed (ht_nodes ht);
  wf_names : NoDup (n_name <$> ht_nodes ht);
  wf_size : m_size ht = Z.of_nat (length (ht_nodes ht));
}.

Definition ht_view ht : gmap Name E := list_to_map (ht_elems ht).

Lemma computeHash_take name k :
  computeHash hash (take k name) (length (take k name)) = computeHash hash name k.
Proof.
  unfold computeHash. rewrite take_take, length_take. f_equal. f_equal. lia.
Qed.

Lemma ht_elems_names ht : (ht_elems ht).*1 = n_name <$> ht_nodes ht.
Proof. unfold ht_elems. by rewrite <- list_fmap_compose. Qed.

Lemma bucket_index_lt ht h :
  (0 < getNBuckets ht)%N -> (computeBucketIndex ht h < length (m_buckets ht))%nat.
Proof.
  intros H. unfold computeBucketIndex. pose proof (N.mod_lt h (getNBuckets ht)).
  unfold getNBuckets in *. lia.
Qed.

Lemma elem_of_nodes ht x : x ∈ ht_nodes ht <-> exists b l, m_buckets ht !! b = Some l /\ x ∈ l.
Proof.
  unfold ht_nodes. rewrite list_elem_of_join. setoid_rewrite list_elem_of_lookup at 2. naive_solver.
Qed.

(** ** Searching a bucket *)

Lemma bucket_find_Some name k h l x :
  bucket_find name k h l = Some x -> x ∈ l /\ n_hash x = h /\ n_name x = take k name.
Proof.
  induction l as [|y l IH]; simpl; [done|]. case_match eqn:B; [|set_solver].
  intros [= <-]. bool_to_prop. match goal with H : (_ =? _)%N = true |- _ => apply N.eqb_eq in H as -> end.
  split_conj; [by left|].
  symmetry. apply (cmp_eq (cmp:=Name_cmp)). by rewrite <- Name_compare_prefix with (d := length (n_name y)).
Qed.

Lemma bucket_find_None name k h l x :
  bucket_find name k h l = None -> x ∈ l -> n_hash x = h -> n_name x <> take k name.
Proof.
  induction l as [|y l IH]; simpl; [set_solver|]. case_match eqn:B; [done|].
  intros H [->|Hx]%elem_of_cons Hh Hn; [|by eapply IH].
  rewrite Hh, N.eqb_refl in B. simpl in B. bool_to_prop. apply B.
  rewrite Name_compare_prefix by done. by apply cmp_eq.
Qed.

Lemma nodes_bucket ht x : ht_wf ht -> x ∈ ht_nodes ht -> x ∈ bucket_of ht (n_hash x).
Proof.
  intros Hwf (b & l & Hb & Hx)%elem_of_nodes. pose proof (wf_placed _ Hwf b l x Hb Hx) as ->.
  unfold bucket_of. by rewrite Hb.
Qed.

Lemma bucket_nodes ht h x : x ∈ bucket_of ht h -> x ∈ ht_nodes ht.
Proof.
  unfold bucket_of. destruct (m_buckets ht !! _) as [l|] eqn:El; simpl; [|set_solver].
  intros Hx. apply elem_of_nodes. eauto.
Qed.

Lemma view_lookup ht x : ht_wf ht -> x ∈ ht_nodes ht -> ht_view ht !! n_name x = Some (n_entry x).
Proof.
  intros Hwf Hx. apply elem_of_list_to_map.
  - rewrite ht_elems_names. apply Hwf.
  - apply list_elem_of_fmap. by exists x.
Qed.

Lemma view_lookup_None ht n : n ∉ n_name <$> ht_nodes ht -> ht_view ht !! n = None.
Proof. intros H. apply not_elem_of_list_to_map. by rewrite ht_elems_names. Qed.

Lemma view_lookup_is_Some ht n : is_Some (ht_view ht !! n) -> exists x, x ∈ ht_nodes ht /\ n_name x = n.
Proof.
  intros H. destruct (decide (n ∈ n_name <$> ht_nodes ht)) as [(x & -> & Hx)%list_elem_of_fmap|Hn].
  - by exists x.
  - rewrite view_lookup_None in H by done. by destruct H.
Qed.

(** The search finds the node of the prefix when there is one. *)
Lemma search_spec ht name k :
  ht_wf ht ->
  let h := computeHash hash name k in
  match bucket_find name k h (bucket_of ht h) with
  | Some x => x ∈ ht_nodes ht /\ n_name x = take k name
  | None => take k name ∉ n_name <$> ht_nodes ht
  end.
Proof.
  intros Hwf h. destruct (bucket_find name k h (bucket_of ht h)) as [x|] eqn:F.
  - apply bucket_find_Some in F as (Hx & Hh & Hn). by apply bucket_nodes in Hx.
  - intros (x & Hn & Hx)%list_elem_of_fmap. pose proof (nodes_bucket ht x Hwf Hx) as Hb.
    assert (n_hash x = h) as Hh.
    { pose proof (proj1 (Forall_forall _ _) (wf_hashed _ Hwf) x Hx) as ->.
      rewrite <- Hn. apply computeHash_take. }
    rewrite Hh in Hb. by apply (bucket_find_None name k h _ x F).
Qed.

(** ** Attaching, detaching, resizing *)

Lemma concat_alter_cons {A} (x : A) b (bs : list (list A)) :
  (b < length bs)%nat -> mjoin (alter (cons x) b bs) ≡ₚ x :: mjoin bs.
Proof.
  revert b. induction bs as [|l bs IH]; intros [|b] H; simpl in *; try lia; [done|].
  cbn. rewrite (IH b) by lia. by rewrite Permutation_middle.
Qed.

Lemma unlink_perm name l x :
  NoDup (n_name <$> l) -> x ∈ l -> n_name x = name -> l ≡ₚ x :: unlink name l.
Proof.
  induction l as [|y l IH]; [set_solver|]. intros [Hy Hl]%NoDup_cons Hx <-. simpl.
  apply elem_of_cons in Hx as [->|Hx]; [by rewrite bool_decide_true|].
  rewrite bool_decide_false.
  - rewrite (IH Hl Hx eq_refl) at 1. apply Permutation_swap.
  - intros E'. apply Hy. rewrite E'. by apply list_elem_of_fmap_2.
Qed.

Lemma unlink_sub name l x : x ∈ unlink name l -> x ∈ l.
Proof. induction l as [|y l IH]; simpl; [done|]. case_match; set_solver. Qed.

Lemma concat_alter_unlink name b l x (bs : list (list (Node E))) :
  NoDup (n_name <$> mjoin bs) -> bs !! b = Some l -> x ∈ l -> n_name x = name ->
  mjoin bs ≡ₚ x :: mjoin (alter (unlink name) b bs).
Proof.
  revert b. induction bs as [|k bs IH]; intros [|b] Hnd Hb Hx Hn; simplify_eq/=.
  - rewrite fmap_app in Hnd. apply NoDup_app in Hnd as (Hl & _ & _).
    rewrite (unlink_perm (n_name x) l x Hl Hx eq_refl) at 1. done.
  - rewrite fmap_app in Hnd. apply NoDup_app in Hnd as (_ & _ & Hbs).
    rewrite (IH b Hbs Hb Hx eq_refl). by rewrite Permutation_middle.
Qed.

Lemma attach_nb b x ht : getNBuckets (attach b x ht) = getNBuckets ht.
Proof. unfold attach, getNBuckets. simpl. by rewrite length_alter. Qed.

Lemma index_nb ht ht' h : getNBuckets ht = getNBuckets ht' -> computeBucketIndex ht h = computeBucketIndex ht' h.
Proof. unfold computeBucketIndex. by intros ->. Qed.

Lemma attach_nodes x ht :
  (0 < getNBuckets ht)%N -> ht_nodes (attach (computeBucketIndex ht (n_hash x)) x ht) ≡ₚ x :: ht_nodes ht.
Proof. intros H. by apply concat_alter_cons, bucket_index_lt. Qed.

(** Every node is in the bucket of its hash. *)
Definition all_placed ht : Prop :=
  forall b l x, m_buckets ht !! b = Some l -> x ∈ l -> b = computeBucketIndex ht (n_hash x).

Lemma attach_placed x ht :
  all_placed ht -> all_placed (attach (computeBucketIndex ht (n_hash x)) x ht).
Proof.
  intros Hp b l y Hb Hy. rewrite (index_nb _ ht) by apply attach_nb. simpl in Hb.
  rewrite list_lookup_alter in Hb. case_decide as D; [|by eapply Hp].
  subst b. destruct (m_buckets ht !! _) as [k|] eqn:Ek; simplify_eq/=.
  apply elem_of_cons in Hy as [->|Hy]; [done|]. by eapply Hp.
Qed.

Definition attach_all ht l : Hashtable E :=
  fold_left (fun t node => attach (computeBucketIndex t (n_hash node)) node t) l ht.

Lemma attach_all_spec l ht :
  (0 < getNBuckets ht)%N -> all_placed ht ->
  getNBuckets (attach_all ht l) = getNBuckets ht /\ all_placed (attach_all ht l) /\
  ht_nodes (attach_all ht l) ≡ₚ l ++ ht_nodes ht /\
  m_options (attach_all ht l) = m_options ht /\ m_size (attach_all ht l) = m_size ht.
Proof.
  revert ht. induction l as [|x l IH]; intros ht Hn Hp; [done|]. simpl.
  destruct (IH (attach (computeBucketIndex ht (n_hash x)) x ht)) as (H1 & H2 & H3 & H4 & H5).
  - by rewrite attach_nb.
  - by apply attach_placed.
  - split_conj.
    + by rewrite H1, attach_nb.
    + rewrite H3, (attach_nodes x ht Hn). by rewrite Permutation_middle.
Qed.

(** The parts of the invariant that depend on the nodes only. *)
Definition nodes_ok (size : Z) l : Prop :=
  Forall hashed l /\ NoDup (n_name <$> l) /\ size = Z.of_nat (length l).

#[local] Instance nodes_ok_proper size : Proper ((≡ₚ) ==> iff) (nodes_ok size).
Proof.
  intros l k P. unfold nodes_ok.
  assert (Forall hashed l <-> Forall hashed k) as -> by by rewrite P.
  assert (NoDup (n_name <$> l) <-> NoDup (n_name <$> k)) as -> by by rewrite P.
  by rewrite (Permutation_length P).
Qed.

Lemma wf_build ht :
  options_ok (m_options ht) -> (0 < getNBuckets ht)%N -> all_placed ht ->
  nodes_ok (m_size ht) (ht_nodes ht) -> ht_wf ht.
Proof. intros ??? (?&?&?). by split. Qed.

Lemma wf_nodes_ok ht : ht_wf ht -> nodes_ok (m_size ht) (ht_nodes ht).
Proof. by intros []. Qed.

Lemma resize_spec nb ht :
  (0 < nb)%Z -> options_ok (m_options ht) -> (0 < getNBuckets ht)%N -> all_placed ht ->
  nodes_ok (m_size ht) (ht_nodes ht) ->
  ht_wf (resize nb ht) /\ ht_nodes (resize nb ht) ≡ₚ ht_nodes ht.
Proof.
  intros Hnb Ho Hn Hp Hok. unfold resize. case_match; [by split; [apply wf_build|]|].
  destruct (attach_all_spec (mjoin (m_buckets ht)) (set_buckets (replicate (Z.to_nat nb) []) ht))
    as (H1 & H2 & H3 & H4 & H5).
  - unfold getNBuckets. simpl. rewrite length_replicate. lia.
  - intros b l x [-> _]%lookup_replicate Hx. by apply not_elem_of_nil in Hx.
  - assert (mjoin (replicate (Z.to_nat nb) (@nil (Node E))) = []) as E0 by (clear; induction (Z.to_nat nb) as [|k IH]; [done|exact IH]).
    unfold ht_nodes in H3 at 2. simpl in H3. rewrite E0, app_nil_r in H3.
    fold (attach_all (set_buckets (replicate (Z.to_nat nb) []) ht) (mjoin (m_buckets ht))).
    set (t := attach_all _ _) in *. split; [|by rewrite <- H3].
    apply wf_build; simpl.
    + by rewrite H4.
    + change (getNBuckets (computeThresholds t)) with (getNBuckets t). rewrite H1.
      unfold getNBuckets. simpl. rewrite length_replicate. lia.
    + exact H2.
    + rewrite H5. change (ht_nodes (computeThresholds t)) with (ht_nodes t). by rewrite H3.
Qed.

Lemma view_perm ht ht' :
  NoDup (n_name <$> ht_nodes ht) -> ht_nodes ht ≡ₚ ht_nodes ht' -> ht_view ht = ht_view ht'.
Proof.
  intros Hn P. unfold ht_view. apply list_to_map_proper.
  - by rewrite ht_elems_names.
  - unfold ht_elems. by rewrite P.
Qed.

Lemma view_cons ht ht' x :
  NoDup (n_name <$> ht_nodes ht') -> ht_nodes ht' ≡ₚ x :: ht_nodes ht ->
  ht_view ht' = <[n_name x := n_entry x]> (ht_view ht).
Proof.
  intros Hn P. unfold ht_view.
  rewrite (list_to_map_proper (ht_elems ht') (node_pair x :: ht_elems ht)); [done|..].
  - by rewrite ht_elems_names.
  - unfold ht_elems. by rewrite P.
Qed.

(** ** The operations *)

Lemma ht_find_view ht name k : ht_wf ht -> ht_find hash ht name k = ht_view ht !! take k name.
Proof.
  intros Hwf. unfold ht_find. pose proof (search_spec ht name k Hwf) as H. simpl in H.
  destruct (bucket_find _ _ _ _) as [x|]; simpl.
  - destruct H as [Hx <-]. by rewrite view_lookup.
  - by rewrite view_lookup_None.
Qed.

Lemma ht_insert_spec e ht name k :
  ht_wf ht -> (Z.of_nat k < 2 ^ 63)%Z ->
  let '(ht', isNew) := ht_insert hash e ht name k in
  ht_wf ht' /\ isNew = bool_decide (ht_view ht !! take k name = None) /\
  ht_view ht' = match ht_view ht !! take k name with
                | Some _ => ht_view ht | None => <[take k name := e]> (ht_view ht) end.
Proof.
  intros Hwf Hk. unfold ht_insert, findOrInsert. pose proof (search_spec ht name k Hwf) as H.
  simpl in H. destruct (bucket_find _ _ _ _) as [x|]; simpl.
  { destruct H as [Hx <-]. rewrite view_lookup by done. done. }
  rewrite (view_lookup_None _ _ H), bool_decide_true by done.
  set (x := mkNode (computeHash hash name k) (getPrefix name (Z.of_nat k)) e).
  assert (n_name x = take k name) as Hx by (unfold x; simpl; by apply getPrefix_nonneg).
  set (t := set_size _ _).
  assert (ht_nodes t ≡ₚ x :: ht_nodes ht) as Pt by (apply (attach_nodes x ht), Hwf).
  assert (0 < getNBuckets t)%N as Hnb.
  { change (getNBuckets t) with (getNBuckets (attach (computeBucketIndex ht (n_hash x)) x ht)).
    rewrite attach_nb. apply Hwf. }
  assert (all_placed t) as Hpl by exact (attach_placed x ht (wf_placed _ Hwf)).
  assert (nodes_ok (m_size t) (ht_nodes t)) as Hok.
  { rewrite Pt. destruct (wf_nodes_ok _ Hwf) as (A1 & A2 & A3). unfold nodes_ok. split_conj.
    - constructor; [|exact A1]. unfold hashed. rewrite Hx. symmetry. apply computeHash_take.
    - change (NoDup (n_name x :: (n_name <$> ht_nodes ht))). constructor; [by rewrite Hx|exact A2].
    - simpl. lia. }
  assert (forall t', ht_wf t' -> ht_nodes t' ≡ₚ ht_nodes t ->
            ht_view t' = <[take k name := e]> (ht_view ht)) as Hv.
  { intros t' Ht' P. rewrite <- Hx. apply view_cons; [apply Ht'|by rewrite P]. }
  assert (options_ok (m_options t)) as Ho by apply Hwf.
  case_match.
  - destruct (resize_spec (f32_mul (expandFactor (m_options t)) (Z.of_N (getNBuckets t))) t)
      as [W P]; auto. apply Ho. lia.
  - assert (ht_wf t) by (by apply wf_build). auto.
Qed.

Lemma ht_erase_spec ht name :
  ht_wf ht -> is_Some (ht_view ht !! name) ->
  ht_wf (ht_erase hash ht name) /\ ht_view (ht_erase hash ht name) = delete name (ht_view ht).
Proof.
  intros Hwf (x & Hx & Hn)%view_lookup_is_Some. unfold ht_erase.
  assert (n_hash x = computeHash hash name (length name)) as Hh.
  { rewrite <- Hn. apply (proj1 (Forall_forall _ _) (wf_hashed _ Hwf) x Hx). }
  rewrite <- Hh. set (t := set_size _ _). pose proof Hx as (b & l & Hb & Hl)%elem_of_nodes.
  assert (b = computeBucketIndex ht (n_hash x)) as Eb by (by eapply wf_placed).
  assert (ht_nodes ht ≡ₚ x :: ht_nodes t) as P.
  { unfold t, detach, ht_nodes. simpl. rewrite <- Eb.
    by apply (concat_alter_unlink name b l x); [apply Hwf|..]. }
  assert (getNBuckets t = getNBuckets ht) as Hnb
    by (unfold t, detach, getNBuckets; simpl; by rewrite length_alter).
  pose proof (wf_nodes_ok _ Hwf) as Hok. rewrite P in Hok. destruct Hok as (H1 & H2 & H3).
  apply Forall_cons in H1 as [_ H1]. csimpl in H2. apply NoDup_cons in H2 as [H2' H2].
  assert (nodes_ok (m_size t) (ht_nodes t)) as Hok by (unfold nodes_ok; split_conj; simpl in *; lia).
  assert (all_placed t) as Hpl.
  { intros c k y Hc Hy. rewrite (index_nb t ht) by done. unfold t in Hc. simpl in Hc.
    rewrite list_lookup_alter in Hc. case_decide as D; [subst c|by eapply wf_placed].
    apply fmap_Some in Hc as (k' & Hk' & ->). eapply (wf_placed _ Hwf); [exact Hk'|].
    by eapply unlink_sub. }
  assert (forall t', ht_wf t' -> ht_nodes t' ≡ₚ ht_nodes t -> ht_view t' = delete name (ht_view ht)) as Hv.
  { intros t' Ht' P'. rewrite (view_cons t' ht x); [|apply Hwf|by rewrite P, P'].
    rewrite Hn, delete_insert_id; [done|]. apply view_lookup_None. by rewrite P', <- Hn. }
  assert (options_ok (m_options t)) as Ho by apply Hwf. assert (0 < getNBuckets t)%N by (rewrite Hnb; apply Hwf).
  case_match.
  - match goal with |- context [resize ?nb t] => destruct (resize_spec nb t) as [W P']; auto end.
    destruct Ho as [? _]. lia.
  - assert (ht_wf t) by (by apply wf_build). auto.
Qed.

(** Writing to an entry changes no name and no hash. *)
Lemma node_modify_name (f : E -> E) name x : n_name (node_modify f name x) = n_name x.
Proof. unfold node_modify. by case_bool_decide. Qed.
Lemma node_modify_hash (f : E -> E) name x : n_hash (node_modify f name x) = n_hash x.
Proof. unfold node_modify. by case_bool_decide. Qed.

Lemma ht_modify_nodes f name ht : ht_nodes (ht_modify f name ht) = node_modify f name <$> ht_nodes ht.
Proof.
  unfold ht_nodes, ht_modify. simpl. induction (m_buckets ht) as [|l bs IH]; [done|].
  cbn. rewrite fmap_app. by f_equal.
Qed.

Lemma ht_modify_nb f name ht : getNBuckets (ht_modify f name ht) = getNBuckets ht.
Proof. unfold getNBuckets, ht_modify. simpl. by rewrite length_map. Qed.

Lemma list_to_map_modify (f : E -> E) name l :
  list_to_map (M:=gmap Name E) (node_pair <$> (node_modify f name <$> l))
  = alter f name (list_to_map (node_pair <$> l)).
Proof.
  induction l as [|x l IH]; csimpl; [by rewrite alter_empty|].
  rewrite IH. unfold node_pair, node_modify. simpl. case_bool_decide as D; simpl.
  - subst. rewrite alter_insert_eq, insert_alter. by rewrite decide_True.
  - by rewrite alter_insert_ne.
Qed.

Lemma ht_modify_spec f name ht :
  ht_wf ht -> ht_wf (ht_modify f name ht) /\ ht_view (ht_modify f name ht) = alter f name (ht_view ht).
Proof.
  intros Hwf. split; [apply wf_build|].
  - apply Hwf.
  - rewrite ht_modify_nb. apply Hwf.
  - intros b l x Hb Hx. rewrite (index_nb _ ht) by apply ht_modify_nb.
    unfold ht_modify in Hb. simpl in Hb. change (map ?g ?k) with (g <$> k) in Hb.
    rewrite list_lookup_fmap in Hb. destruct (m_buckets ht !! b) as [k|] eqn:Ek; simplify_eq/=.
    apply list_elem_of_fmap in Hx as (y & -> & Hy). rewrite node_modify_hash. by eapply wf_placed.
  - rewrite ht_modify_nodes. destruct (wf_nodes_ok _ Hwf) as (H1 & H2 & H3). unfold nodes_ok. split_conj.
    + apply Forall_fmap. eapply Forall_impl; [exact H1|]. intros x Hx. unfold hashed. simpl.
      by rewrite node_modify_hash, node_modify_name.
    + rewrite <- list_fmap_compose. erewrite list_fmap_ext; [exact H2|].
      intros i x _. apply node_modify_name.
    + by rewrite length_fmap.
  - unfold ht_view, ht_elems. rewrite ht_modify_nodes. apply list_to_map_modify.
Qed.
End invariant.

(** ** The instance *)

Section instance.
Context {E : Type} (hash : Component -> N).

Definition ht_store_of : NodeStore E (Hashtable E) := {|
  ns_find := ht_find hash;
  ns_insert e := ht_insert hash e;
  ns_erase := ht_erase hash;
  ns_modify := ht_modify;
  ns_elems := ht_elems;
|}.

Lemma ht_elems_view (ht : Hashtable E) : ht_wf hash ht -> ht_elems ht ≡ₚ map_to_list (ht_view ht).
Proof.
  intros Hwf. unfold ht_view. rewrite map_to_list_to_map; [done|].
  rewrite ht_elems_names. apply Hwf.
Qed.

#[program] Definition ht_laws_of : @NodeStoreLaws E (Hashtable E) ht_store_of := {|
  ns_wf := ht_wf hash;
  ns_view := ht_view;
|}.
Next Obligation. intros; simpl. by apply ht_find_view. Qed.
Next Obligation.
  intros e s n k Hwf Hk Hk'. pose proof (ht_insert_spec hash e s n k Hwf Hk') as H.
  simpl. destruct (ht_insert _ _ _ _ _). apply H.
Qed.
Next Obligation.
  intros e s n k Hwf Hk Hk'. pose proof (ht_insert_spec hash e s n k Hwf Hk') as H.
  simpl. destruct (ht_insert _ _ _ _ _). apply H.
Qed.
Next Obligation.
  intros e s n k Hwf Hk Hk'. pose proof (ht_insert_spec hash e s n k Hwf Hk') as H.
  simpl. destruct (ht_insert _ _ _ _ _). apply H.
Qed.
Next Obligation. intros s n Hwf Hn. by apply ht_erase_spec. Qed.
Next Obligation. intros s n Hwf Hn. by apply ht_erase_spec. Qed.
Next Obligation. intros f n s Hwf. exact (proj1 (ht_modify_spec hash f n s Hwf)). Qed.
Next Obligation. intros f n s Hwf. exact (proj2 (ht_modify_spec hash f n s Hwf)). Qed.
Next Obligation. intros s Hwf. by apply ht_elems_view. Qed.

Lemma ht_new_wf o :
  options_ok o -> ht_wf hash (Hashtable_new (E:=E) o) /\ ht_view (Hashtable_new (E:=E) o) = ∅.
Proof.
  intros Ho. pose proof Ho as [Hs _].
  assert (ht_nodes (Hashtable_new (E:=E) o) = []) as Hn.
  { unfold ht_nodes, Hashtable_new. simpl. induction (Z.to_nat (initialSize o)) as [|k IH]; [done|exact IH]. }
  split; [|unfold ht_view, ht_elems; by rewrite Hn]. apply wf_build.
  - exact Ho.
  - unfold getNBuckets, Hashtable_new. simpl. rewrite length_replicate. lia.
  - intros b l x [-> _]%lookup_replicate Hx. by apply not_elem_of_nil in Hx.
  - rewrite Hn. unfold nodes_ok. split_conj; constructor.
Qed.
End instance.

(** The store of the program: CityHash64 of the components' encodings. *)
#[global] Instance ht_store {E} : NodeStore E (Hashtable E) := ht_store_of component_hash.
#[global] Instance ht_store_laws {E} : NodeStoreLaws E (Hashtable E) := ht_laws_of component_hash.

Lemma HashtableOptions_ok n : (0 < n)%Z -> options_ok (HashtableOptions n).
Proof.
  intros Hn. split; [simpl; lia|]. intros nb Hnb. unfold f32_mul, fp_mul, expandFactor, HashtableOptions.
  cbn [fst snd]. rewrite Z.shiftl_mul_pow2 by lia.
  pose proof (fp_round_pos 24 (1 * fp_round 24 nb)). pose proof (fp_round_pos 24 nb). lia.
Qed.

(** C28: The name tree's hashtable is a map from names to entries: whatever finds, inserts,
    erases and writes are performed on a new table, each returns what it returns on a finite
    map, across the expansions and contractions of the bucket array and whichever hashes
    collide, and the table keeps its invariant. *)
Theorem hashtable_is_map {E} (n : Z) (ops : list (store_op E)) :
  (0 < n)%Z -> Forall op_ok ops ->
  let t := Hashtable_new (HashtableOptions n) in
  (run t ops).2 = (run (∅ : gmap Name E) ops).2 /\
  ht_view (run t ops).1 = (run (∅ : gmap Name E) ops).1 /\
  ht_wf component_hash (run t ops).1.
Proof.
  intros Hn Hops t. destruct (ht_new_wf (E:=E) component_hash (HashtableOptions n)) as [Hwf Hv];
    [by apply HashtableOptions_ok|].
  destruct (run_view (NodeStoreLaws0:=ht_store_laws) t ops Hwf Hops) as (H1 & H2 & H3).
  assert (ns_view t = (∅ : gmap Name E)) as Hv' by exact Hv. rewrite Hv' in H2, H3. split_conj.
Qed.

Lemma hashtable_is_map_witness :
  let ops := [OpInsert 7%N [] 0; OpInsert 8%N [generic [x41]] 1; OpInsert 9%N [generic [x42]] 1;
              OpErase [generic [x41]]; OpFind [generic [x42]] 1; OpFind [generic [x41]] 1] in
  Forall op_ok ops /\
  (run (Hashtable_new (HashtableOptions 2)) ops).2
  = [OutNew true; OutNew true; OutNew true; OutUnit; OutFound (Some 9%N); OutFound None].
Proof.
  intros ops. assert (Forall op_ok ops) as H by (repeat constructor; simpl; lia).
  split; [exact H|]. destruct (hashtable_is_map 2 ops) as (-> & _ & _); [lia|exact H|]. by vm_compute.
Defined.
