(* ===== verification/NameTree.v ===== *)
(** * The name tree (table/name-tree.cpp, name-tree-entry.cpp, name-tree-iterator.cpp)

    One node per name and per prefix of it, each carrying the table entries of that name:
    a FIB entry, PIT entries, a Measurements entry and a Strategy Choice entry. The
    operations are written against the [NodeStore] interface, so they run both on the
    hashtable and on a finite map; [nt_refines] (below) says the two agree. An entry pointer
    is the name of the node; a PIT entry is an address in the PIT's heap. *)

From S2P Require Import Prelude Name Packet PitEntry FibEntry StrategyRegistry NodeStore Hashtable.

(** ** Table entries kept in a node *)

Abbreviation PitPtr := N (only parsing).

(** [measurements::Entry]; [m_cleanup] is the time its event is scheduled for. *)
Record MeasEntry := mkMeasEntry {
  me_name : Name;
  me_expiry : time;
  me_cleanup : option time;
  me_info : StrategyInfoHost;
}.

(** [strategy_choice::Entry]. *)
Record ScEntry := mkScEntry { sc_prefix : Name; sc_strategy : StrategyInstance }.

(** [name_tree::Entry]: [m_parent], [m_children] and the table entries. *)
Record NTE := mkNTE {
  nte_parent : option Name;
  nte_children : list Name;
  nte_fib : option FibEntry;
  nte_pits : list PitPtr;
  nte_meas : option MeasEntry;
  nte_sc : option ScEntry;
}.

Definition NTE_new : NTE := mkNTE None [] None [] None None.

Definition set_nteParent p (e : NTE) :=
  mkNTE p (nte_children e) (nte_fib e) (nte_pits e) (nte_meas e) (nte_sc e).
Definition set_nteChildren c (e : NTE) :=
  mkNTE (nte_parent e) c (nte_fib e) (nte_pits e) (nte_meas e) (nte_sc e).
Definition setFibEntry f (e : NTE) :=
  mkNTE (nte_parent e) (nte_children e) f (nte_pits e) (nte_meas e) (nte_sc e).
Definition set_ntePits l (e : NTE) :=
  mkNTE (nte_parent e) (nte_children e) (nte_fib e) l (nte_meas e) (nte_sc e).
Definition setMeasurementsEntry m (e : NTE) :=
  mkNTE (nte_parent e) (nte_children e) (nte_fib e) (nte_pits e) m (nte_sc e).
Definition setStrategyChoiceEntry s (e : NTE) :=
  mkNTE (nte_parent e) (nte_children e) (nte_fib e) (nte_pits e) (nte_meas e) s.

Definition hasChildren (e : NTE) : bool := match nte_children e with [] => false | _ => true end.

(** [Entry::hasTableEntries], [Entry::isEmpty]. *)
Definition hasTableEntries (e : NTE) : bool :=
  match nte_fib e with Some _ => true | None => false end ||
  match nte_pits e with [] => false | _ => true end ||
  match nte_meas e with Some _ => true | None => false end ||
  match nte_sc e with Some _ => true | None => false end.
Definition isEmpty (e : NTE) : bool := negb (hasChildren e) && negb (hasTableEntries e).

(** [Entry::insertPitEntry] and [Entry::erasePitEntry]: the last element takes the place of
    the erased one. *)
Definition insertPitEntry (p : PitPtr) (e : NTE) : NTE := set_ntePits (nte_pits e ++ [p]) e.
Fixpoint index_of (p : N) (l : list N) : option nat :=
  match l with
  | [] => None
  | x :: l' => if (x =? p)%N then Some 0%nat else S <$> index_of p l'
  end.
Definition swap_remove (p : N) (l : list N) : list N :=
  match index_of p l, last l with
  | Some i, Some b => take (length l - 1) (<[i := b]> l)
  | _, _ => l
  end.
Definition erasePitEntry (p : PitPtr) (e : NTE) : NTE := set_ntePits (swap_remove p (nte_pits e)) e.

(** [NameTree::getMaxDepth]. *)
Definition getMaxDepth : nat := 32.

Definition EntrySelector := Name -> NTE -> bool.
Definition AnyEntry : EntrySelector := fun _ _ => true.

(** ** The operations *)

Section nametree.
Context {S : Type} `{!NodeStore NTE S}.
Implicit Types (s : S) (name : Name).

(** Dereferencing an entry pointer. *)
Definition nt_get s name : option NTE := ns_find s name (length name).

(** [Entry::setParent] and [Entry::unsetParent]. *)
Definition setParent (child parent : Name) s : S :=
  ns_modify (fun e => set_nteChildren (nte_children e ++ [child]) e) parent
    (ns_modify (set_nteParent (Some parent)) child s).
Fixpoint list_erase (n : Name) (l : list Name) : list Name :=
  match l with
  | [] => []
  | x :: l' => if bool_decide (x = n) then l' else x :: list_erase n l'
  end.
Definition unsetParent (child : Name) s : S :=
  match nt_get s child ≫= nte_parent with
  | Some parent =>
      ns_modify (set_nteParent None) child
        (ns_modify (fun e => set_nteChildren (list_erase child (nte_children e)) e) parent s)
  | None => s
  end.

(** [NameTree::lookup(name, prefixLen)]: the loop over the prefixes. *)
Fixpoint lookup_loop (name : Name) (i count : nat) (parent : option Name) s : S :=
  match count with
  | O => s
  | Datatypes.S count' =>
      let '(s, isNew) := ns_insert NTE_new s name i in
      let s := match isNew, parent with
               | true, Some p => setParent (take i name) p s
               | _, _ => s
               end in
      lookup_loop name (i + 1) count' (Some (take i name)) s
  end.
Definition nt_lookup (name : Name) (prefixLen : nat) s : S * Name :=
  (lookup_loop name 0 (prefixLen + 1) None s, take prefixLen name).

(** [NameTree::eraseIfEmpty]; a node is deeper than its parent, so the name's length
    bounds the loop. *)
Fixpoint eraseIfEmpty_loop (fuel : nat) (entry : option Name) (canEraseAncestors : bool)
    (nErased : nat) s : S * nat :=
  match fuel, entry with
  | Datatypes.S fuel', Some n =>
      match nt_get s n with
      | Some e =>
          if isEmpty e then
            let parent := nte_parent e in
            let s := match parent with Some _ => unsetParent n s | None => s end in
            let s := ns_erase s n in
            let nErased := (nErased + 1)%nat in
            if canEraseAncestors then eraseIfEmpty_loop fuel' parent canEraseAncestors nErased s
            else (s, nErased)
          else (s, nErased)
      | None => (s, nErased)
      end
  | _, _ => (s, nErased)
  end.
Definition eraseIfEmpty (n : Name) (canEraseAncestors : bool) s : S * nat :=
  eraseIfEmpty_loop (length n + 1) (Some n) canEraseAncestors 0 s.

(** [findExactMatch]. *)
Definition findExactMatch (name : Name) (prefixLen : nat) s : option Name :=
  let prefixLen := Nat.min (length name) prefixLen in
  if (getMaxDepth <? prefixLen)%nat then None
  else match ns_find s name prefixLen with Some _ => Some (take prefixLen name) | None => None end.

(** [findLongestPrefixMatch(name)]: [i] from the depth down to 0. *)
Fixpoint lpm_name_loop (name : Name) (sel : EntrySelector) (i : nat) s : option Name :=
  let hit := match ns_find s name i with Some e => sel (take i name) e | None => false end in
  if hit then Some (take i name)
  else match i with O => None | Datatypes.S i' => lpm_name_loop name sel i' s end.
Definition lpm_name (name : Name) (sel : EntrySelector) s : option Name :=
  lpm_name_loop name sel (Nat.min (length name) getMaxDepth) s.

(** [findLongestPrefixMatch(entry)]: up the parent pointers. *)
Fixpoint lpm_entry_loop (fuel : nat) (entry : option Name) (sel : EntrySelector) s : option Name :=
  match fuel, entry with
  | Datatypes.S fuel', Some n =>
      match nt_get s n with
      | Some e => if sel n e then Some n else lpm_entry_loop fuel' (nte_parent e) sel s
      | None => None
      end
  | _, _ => None
  end.
Definition lpm_entry (entry : Name) (sel : EntrySelector) s : option Name :=
  lpm_entry_loop (length entry + 1) (Some entry) sel s.

(** [findLongestPrefixMatch(pitEntry)]: first down to the deepest node of the name. *)
Fixpoint descend (name : Name) (i count : nat) (nte : Name) s : Name :=
  match count with
  | O => nte
  | Datatypes.S count' =>
      match findExactMatch name i s with
      | None => nte
      | Some exact => descend name (i + 1) count' exact s
      end
  end.
Definition lpm_pit (nte name : Name) (sel : EntrySelector) s : option Name :=
  let depth := Nat.min (length name) getMaxDepth in
  let nte := if (length nte <? length name)%nat
             then descend name (length nte + 1) (depth - length nte) nte s else nte in
  lpm_entry nte sel s.

(** [findAllMatches]: the longest match and the matches above it. *)
Fixpoint matches_above (fuel : nat) (entry : option Name) (sel : EntrySelector) s : list Name :=
  match fuel, entry with
  | Datatypes.S fuel', Some n =>
      match nt_get s n with
      | Some e => (if sel n e then [n] else []) ++ matches_above fuel' (nte_parent e) sel s
      | None => []
      end
  | _, _ => []
  end.
Definition findAllMatches (name : Name) (sel : EntrySelector) s : list Name :=
  match lpm_name name sel s with
  | Some n => matches_above (length n + 1) (Some n) sel s
  | None => []
  end.

(** [fullEnumerate]. *)
Definition fullEnumerate (sel : EntrySelector) s : list Name :=
  (filter (fun p => sel p.1 p.2 = true) (ns_elems s)).*1.

(** [PartialEnumerationImpl::advance]: the pre-order traversal below [ref], as a machine
    over the current entry and [wantChildren]. [scan_siblings] is its inner loop: the
    sibling to visit, or the one whose children come next, or the end of the siblings. *)
Definition SubTreeSelector := Name -> NTE -> bool * bool.
Definition wants (sel : SubTreeSelector) (n : Name) s : bool * bool :=
  match nt_get s n with Some e => sel n e | None => (false, false) end.

Inductive scan_result := Visit (n : Name) (wantChildren : bool) | Descend (n : Name) | NoMore.

Fixpoint scan_siblings (sel : SubTreeSelector) (rest : list Name) s : scan_result :=
  match rest with
  | [] => NoMore
  | x :: rest' =>
      let '(wantSelf, wantChildren) := wants sel x s in
      if wantSelf then Visit x wantChildren
      else if wantChildren then Descend x
      else scan_siblings sel rest' s
  end.

(** What follows the first occurrence of [n]. *)
Fixpoint after_elem (n : Name) (l : list Name) : list Name :=
  match l with
  | [] => []
  | x :: l' => if bool_decide (x = n) then l' else after_elem n l'
  end.

Fixpoint traverse (fuel : nat) (sel : SubTreeSelector) (ref cur : Name) (wantChildren : bool) s
  : option (Name * bool) :=
  match fuel with
  | O => None
  | Datatypes.S fuel' =>
      match nt_get s cur with
      | None => None
      | Some e =>
          if negb (bool_decide (cur = ref)) || (wantChildren && hasChildren e) then
            match wantChildren, nte_children e with
            | true, front :: _ =>
                let '(wantSelf, wantChildren) := wants sel front s in
                if wantSelf then Some (front, wantChildren)
                else traverse fuel' sel ref front wantChildren s
            | _, _ =>
                match nte_parent e with
                | None => None
                | Some parent =>
                    let siblings := match nt_get s parent with Some pe => nte_children pe | None => [] end in
                    match scan_siblings sel (after_elem cur siblings) s with
                    | Visit n wantChildren => Some (n, wantChildren)
                    | Descend n => traverse fuel' sel ref n true s
                    | NoMore => traverse fuel' sel ref parent false s
                    end
                end
            end
          else None
      end
  end.

(** The entries the iterator visits, from its first [advance] to the end. Each entry is
    entered and left at most once. *)
Fixpoint visit_all (fuel : nat) (sel : SubTreeSelector) (ref : Name) (at_ : option (Name * bool)) s
  : list Name :=
  match fuel, at_ with
  | Datatypes.S fuel', Some (n, wantChildren) =>
      n :: visit_all fuel' sel ref
             (traverse (2 * length (ns_elems s) + 1) sel ref n wantChildren s) s
  | _, _ => []
  end.
Definition partialEnumerate (prefix : Name) (sel : SubTreeSelector) s : list Name :=
  match findExactMatch prefix (length prefix) s with
  | None => []
  | Some ref =>
      let '(wantSelf, wantChildren) := wants sel ref s in
      let first := if wantSelf then Some (ref, wantChildren)
                   else traverse (2 * length (ns_elems s) + 1) sel ref ref wantChildren s in
      visit_all (length (ns_elems s) + 1) sel ref first s
  end.
End nametree.

#[global] Arguments nt_get : simpl never.
#[global] Arguments setParent : simpl never.
#[global] Arguments unsetParent : simpl never.
#[global] Arguments nt_lookup : simpl never.
#[global] Arguments eraseIfEmpty : simpl never.
#[global] Arguments getMaxDepth : simpl never.

(** ** The operations on the map, as the rest of the development uses them *)

Abbreviation NT := (@gmap Name (@list_eq_dec Component Component_eq_dec)
  (@list_countable Component Component_eq_dec Component_countable) NTE) (only parsing).

Definition sample_nt : NT :=
  let ab := [generic [x61]; generic [x62]] in
  let m := (nt_lookup ab 2 (∅ : NT)).1 in
  (nt_lookup [generic [x61]; generic [x63]] 2 m).1.

Example lookup_creates_prefixes : size sample_nt = 4%nat.
Proof. by vm_compute. Qed.
Example enumerates_subtree :
  partialEnumerate [generic [x61]] (fun _ _ => (true, true)) sample_nt
  = [[generic [x61]]; [generic [x61]; generic [x62]]; [generic [x61]; generic [x63]]].
Proof. by vm_compute. Qed.

(** ** Any store against the map *)

Section refinement.
Context {S : Type} `{!NodeStore NTE S, !NodeStoreLaws NTE S}.
Implicit Types (s : S) (name n : Name).

Lemma nt_get_view s n : ns_wf s -> nt_get s n = ns_view s !! n.
Proof. intros H. unfold nt_get. by rewrite ns_find_view, take_ge. Qed.
Lemma nt_get_map (m : NT) n : nt_get m n = m !! n.
Proof. unfold nt_get. simpl. by rewrite take_ge. Qed.
Lemma nt_get_refines s n : ns_wf s -> nt_get s n = nt_get (ns_view s) n.
Proof. intros H. by rewrite nt_get_view, nt_get_map. Qed.

Lemma modify_dom (f : NTE -> NTE) n (k : Name) (m : NT) : is_Some (m !! k) -> is_Some (alter f n m !! k).
Proof. intros [e He]. rewrite lookup_alter. case_decide; subst; rewrite ?He; eauto. Qed.

(** A store operation [f] that mirrors [g] on the map. *)
Definition mirrors (f : S -> S) (g : NT -> NT) s : Prop := ns_wf (f s) /\ ns_view (f s) = g (ns_view s).

Lemma modify_mirrors f n s : ns_wf s -> mirrors (ns_modify f n) (ns_modify f n) s.
Proof. intros H. split; [by apply ns_modify_wf|by apply ns_modify_view]. Qed.

Lemma setParent_mirrors c p s : ns_wf s -> mirrors (setParent c p) (setParent c p) s.
Proof.
  intros H. destruct (modify_mirrors (set_nteParent (Some p)) c s H) as [H1 H2].
  unfold setParent. split; [by apply ns_modify_wf|]. rewrite ns_modify_view by done. by rewrite H2.
Qed.

Lemma unsetParent_mirrors c s : ns_wf s -> mirrors (unsetParent c) (unsetParent c) s.
Proof.
  intros H. unfold mirrors, unsetParent. rewrite <- nt_get_refines by done.
  destruct (nt_get s c ≫= nte_parent) as [p|]; [|done].
  match goal with |- context [ns_modify ?f p s] =>
    destruct (modify_mirrors f p s H) as [H1 H2] end.
  split; [by apply ns_modify_wf|]. rewrite ns_modify_view by done. by rewrite H2.
Qed.

Lemma lookup_loop_mirrors name count : forall i parent s,
  ns_wf s -> (i + count <= length name + 1)%nat -> (Z.of_nat (i + count) <= 2 ^ 63)%Z ->
  mirrors (lookup_loop name i count parent) (lookup_loop name i count parent) s.
Proof.
  unfold mirrors. induction count as [|count IH]; intros i parent s Hwf Hi Hz; [done|].
  cbn [lookup_loop]. destruct (exec_view s (OpInsert NTE_new name i) Hwf) as (H1 & H2 & H3); [simpl; lia|].
  simpl in H1, H2, H3. change (ns_insert NTE_new s name i) with (ns_insert NTE_new s name i).
  destruct (ns_insert NTE_new s name i) as [t b] eqn:Et.
  simpl in H1, H2, H3 |- *. destruct (ns_view s !! take i name) as [e|]; simpl in *; simplify_eq.
  - rewrite <- H2. by apply IH; [|lia|lia].
  - rewrite <- H2. destruct parent as [p|]; [|by apply IH; [|lia|lia]].
    destruct (setParent_mirrors (take i name) p t H1) as [H4 H5]. rewrite <- H5.
    by apply IH; [|lia|lia].
Qed.

Lemma eraseIfEmpty_mirrors fuel : forall (n : option Name) b k s,
  ns_wf s -> ns_wf (eraseIfEmpty_loop fuel n b k s).1 /\
  ns_view (eraseIfEmpty_loop fuel n b k s).1 = (eraseIfEmpty_loop fuel n b k (ns_view s)).1 /\
  (eraseIfEmpty_loop fuel n b k s).2 = (eraseIfEmpty_loop fuel n b k (ns_view s)).2.
Proof.
  induction fuel as [|fuel IH]; intros n b k s Hwf; [done|].
  cbn [eraseIfEmpty_loop]. destruct n as [n|]; [|done].
  rewrite <- nt_get_refines by done. destruct (nt_get s n) as [e|] eqn:He; [|done].
  destruct (isEmpty e); [|done].
  assert (exists t, (match nte_parent e with Some _ => unsetParent n s | None => s end) = t /\ ns_wf t /\
    (match nte_parent e with Some _ => unsetParent n (ns_view s) | None => ns_view s end) = ns_view t /\
    is_Some (ns_view t !! n)) as (t & -> & Ht & -> & Hn).
  { rewrite nt_get_view in He by done. eexists. split; [done|]. destruct (nte_parent e).
    - destruct (unsetParent_mirrors n s Hwf) as [H1 H2]. split_conj. rewrite H2. unfold unsetParent.
      destruct (nt_get _ _ ≫= nte_parent); [|by rewrite He]. by repeat apply modify_dom.
    - by rewrite He. }
  change (ns_erase (ns_view t) n) with (delete n (ns_view t)).
  rewrite <- (ns_erase_view t n Ht Hn). pose proof (ns_erase_wf t n Ht Hn).
  destruct b; [by apply IH|done].
Qed.

Lemma findExactMatch_mirrors name k s :
  ns_wf s -> findExactMatch name k s = findExactMatch name k (ns_view s).
Proof.
  intros H. unfold findExactMatch. case_match; [done|]. rewrite ns_find_view by (done || lia). done.
Qed.

Lemma lpm_name_mirrors name sel s : ns_wf s -> lpm_name name sel s = lpm_name name sel (ns_view s).
Proof.
  intros H. unfold lpm_name. assert (Nat.min (length name) getMaxDepth <= length name)%nat as Hi by lia.
  revert Hi. induction (Nat.min (length name) getMaxDepth) as [|i IH]; intros Hi; cbn [lpm_name_loop];
    rewrite ns_find_view by done; [done|]. simpl. by rewrite IH by lia.
Qed.

Lemma lpm_entry_mirrors sel s : ns_wf s -> forall n, lpm_entry n sel s = lpm_entry n sel (ns_view s).
Proof.
  intros H n. unfold lpm_entry. generalize (length n + 1)%nat (Some n). clear n.
  induction n as [|k IH]; intros n; [done|]. cbn [lpm_entry_loop]. destruct n as [n|]; [|done].
  rewrite <- nt_get_refines by done. destruct (nt_get s n); [|done]. by rewrite IH.
Qed.

Lemma descend_mirrors name s : ns_wf s -> forall count i n,
  descend name i count n s = descend name i count n (ns_view s).
Proof.
  intros H. induction count as [|c IH]; intros i n; [done|]. cbn [descend].
  rewrite <- findExactMatch_mirrors by done. case_match; auto.
Qed.

Lemma matches_above_mirrors sel s : ns_wf s -> forall k (n : option Name),
  matches_above k n sel s = matches_above k n sel (ns_view s).
Proof.
  intros H. induction k as [|k IH]; intros n; [done|]. cbn [matches_above]. destruct n as [n|]; [|done].
  rewrite <- nt_get_refines by done. destruct (nt_get s n); [|done]. by rewrite IH.
Qed.

(** The name tree's operations do on any node store that obeys the interface, the
    program's hashtable among them, what they do on a finite map from names to entries:
    they keep the store's invariant, leave it standing for the map they leave, and the
    searches by name, by entry and by PIT entry return the same entries. *)
Theorem nt_refines (s : S) (name : Name) (k : nat) (b : bool) (sel : EntrySelector) :
  ns_wf s -> (k <= length name)%nat -> (k <= getMaxDepth)%nat ->
  (ns_wf (nt_lookup name k s).1 /\ ns_view (nt_lookup name k s).1 = (nt_lookup name k (ns_view s)).1) /\
  (ns_wf (eraseIfEmpty name b s).1 /\
   ns_view (eraseIfEmpty name b s).1 = (eraseIfEmpty name b (ns_view s)).1 /\
   (eraseIfEmpty name b s).2 = (eraseIfEmpty name b (ns_view s)).2) /\
  findExactMatch name k s = findExactMatch name k (ns_view s) /\
  lpm_name name sel s = lpm_name name sel (ns_view s) /\
  lpm_entry name sel s = lpm_entry name sel (ns_view s) /\
  lpm_pit (take k name) name sel s = lpm_pit (take k name) name sel (ns_view s) /\
  findAllMatches name sel s = findAllMatches name sel (ns_view s) /\
  fullEnumerate sel s ≡ₚ fullEnumerate sel (ns_view s).
Proof.
  intros Hwf Hk Hd. unfold getMaxDepth in Hd. split_and!.
  - apply (lookup_loop_mirrors name (k + 1) 0 None s Hwf); lia.
  - apply (lookup_loop_mirrors name (k + 1) 0 None s Hwf); lia.
  - by apply eraseIfEmpty_mirrors.
  - by apply eraseIfEmpty_mirrors.
  - by apply eraseIfEmpty_mirrors.
  - by apply findExactMatch_mirrors.
  - by apply lpm_name_mirrors.
  - by apply lpm_entry_mirrors.
  - unfold lpm_pit. rewrite descend_mirrors by done. case_match; by apply lpm_entry_mirrors.
  - unfold findAllMatches. rewrite lpm_name_mirrors by done. case_match; [|done].
    by apply matches_above_mirrors.
  - unfold fullEnumerate. by rewrite (ns_elems_view s Hwf).
Qed.
End refinement.

Lemma nt_refines_witness :
  let s := Hashtable_new (HashtableOptions 16) : Hashtable NTE in
  ns_wf s /\ findAllMatches [generic [x61]] AnyEntry (nt_lookup [generic [x61]] 1 s).1
             = [[generic [x61]]; []] /\
  ns_view (nt_lookup [generic [x61]] 1 s).1 = (nt_lookup [generic [x61]] 1 (ns_view s)).1.
Proof.
  intros s. assert (ns_wf s) as Hs by (apply ht_new_wf, HashtableOptions_ok; lia).
  split; [exact Hs|]. split; [by vm_compute|].
  destruct (nt_refines s [generic [x61]] 1 true AnyEntry Hs) as ([_ H] & _); [simpl; lia|unfold getMaxDepth; lia|].
  exact H.
Defined.
