(* ===== verification/NameTreeInv.v ===== *)
(** * The name tree's invariant and what its operations mean

    Over the finite map that NameTree.v refines to: the parent pointers and children lists
    describe the prefix relation, every prefix of a name in the tree is in the tree, and the
    depth is bounded. [tbl] is the abstract view of the tree: the table entries of every
    name, none for a name without a node. Creating and erasing nodes never changes it. *)

From S2P Require Import Prelude Name Packet PitEntry FibEntry NodeStore NameTree.

Definition parent_of (n : Name) : Name := take (length n - 1) n.

Lemma parent_of_take (n : Name) i : (i < length n)%nat -> parent_of (take (Datatypes.S i) n) = take i n.
Proof. intros H. unfold parent_of. rewrite length_take, take_take. f_equal. lia. Qed.

Lemma parent_of_length n : n <> [] -> Datatypes.S (length (parent_of n)) = length n.
Proof. intros H. unfold parent_of. rewrite length_take. destruct n; simpl in *; [done|lia]. Qed.

Lemma parent_of_ne n : n <> [] -> parent_of n <> n.
Proof. intros H E. apply parent_of_length in H. rewrite E in H. lia. Qed.

Record nt_ok (m : NT) : Prop := {
  ok_depth : forall n e, m !! n = Some e -> (length n <= getMaxDepth)%nat;
  ok_parent : forall n e, m !! n = Some e ->
    nte_parent e = if bool_decide (n = []) then None else Some (parent_of n);
  ok_up : forall n, is_Some (m !! n) -> n <> [] -> is_Some (m !! parent_of n);
  ok_children : forall n e c, m !! n = Some e ->
    c ∈ nte_children e <-> c <> [] /\ parent_of c = n /\ is_Some (m !! c);
  ok_nodup : forall n e, m !! n = Some e -> NoDup (nte_children e);
}.

(** The table entries of a node. *)
Definition Tables : Type := option FibEntry * list PitPtr * option MeasEntry * option ScEntry.
Definition no_tables : Tables := (None, [], None, None).
Definition tables_of (e : NTE) : Tables := (nte_fib e, nte_pits e, nte_meas e, nte_sc e).
Definition tbl (m : NT) (n : Name) : Tables :=
  match m !! n with Some e => tables_of e | None => no_tables end.

(** A node is in use when it has children or table entries. *)
Definition no_garbage (m : NT) : Prop := forall n e, m !! n = Some e -> isEmpty e = false.

Lemma nt_ok_empty : nt_ok ∅.
Proof. split; intros n; try intros [e H]; intros; simplify_map_eq. Qed.

Lemma hasTableEntries_spec e : hasTableEntries e = false <-> tables_of e = no_tables.
Proof.
  unfold hasTableEntries, tables_of, no_tables. destruct e as [p c [f|] [|x l] [me|] [sc|]]; simpl; naive_solver.
Qed.

Lemma isEmpty_spec e : isEmpty e = true <-> nte_children e = [] /\ tables_of e = no_tables.
Proof.
  unfold isEmpty. rewrite andb_true_iff, !negb_true_iff, hasTableEntries_spec. unfold hasChildren.
  destruct (nte_children e); naive_solver.
Qed.

(** ** Prefixes are closed *)

Lemma ok_prefix m n p : nt_ok m -> is_Some (m !! n) -> p `prefix_of` n -> is_Some (m !! p).
Proof.
  intros Hok Hn [k ->]. revert Hn. induction k as [|c k IH] using rev_ind; [by rewrite app_nil_r|].
  intros Hn. apply IH. apply (ok_up _ Hok) in Hn; [|destruct p, k; done].
  rewrite app_assoc in Hn. unfold parent_of in Hn. rewrite length_app in Hn. simpl in Hn.
  replace (length (p ++ k) + 1 - 1)%nat with (length (p ++ k)) in Hn by lia.
  by rewrite take_app_length in Hn.
Qed.

(** ** Adding a node *)

Lemma setParent_map (c p : Name) (m : NT) :
  setParent c p m = alter (fun e => set_nteChildren (nte_children e ++ [c]) e) p
                      (alter (set_nteParent (Some p)) c m).
Proof. done. Qed.

(** What a new leaf makes of the tree. *)
Definition add_leaf (n : Name) (m : NT) : NT :=
  if bool_decide (n = []) then <[n := NTE_new]> m else setParent n (parent_of n) (<[n := NTE_new]> m).

Lemma add_leaf_lookup n m x :
  m !! n = None ->
  add_leaf n m !! x =
    if bool_decide (x = n) then Some (set_nteParent (if bool_decide (n = []) then None else Some (parent_of n)) NTE_new)
    else if bool_decide (n <> [] /\ x = parent_of n)
         then (fun e => set_nteChildren (nte_children e ++ [n]) e) <$> m !! x
         else m !! x.
Proof.
  intros Hn. unfold add_leaf. destruct (bool_decide_reflect (n = [])) as [->|Hne].
  - case_bool_decide; subst; [by rewrite lookup_insert_eq|]. rewrite lookup_insert_ne by done.
    case_bool_decide; naive_solver.
  - rewrite setParent_map. pose proof (parent_of_ne n Hne).
    destruct (bool_decide_reflect (x = n)) as [->|Hx].
    { by rewrite lookup_alter_ne, lookup_alter_eq, lookup_insert_eq by done. }
    case_bool_decide as D.
    + destruct D as [_ ->]. by rewrite lookup_alter_eq, lookup_alter_ne, lookup_insert_ne by done.
    + rewrite !lookup_alter_ne, lookup_insert_ne; naive_solver.
Qed.

Lemma add_leaf_dom n m x : m !! n = None -> is_Some (add_leaf n m !! x) <-> x = n \/ is_Some (m !! x).
Proof.
  intros Hn. rewrite add_leaf_lookup by done. case_bool_decide; [naive_solver|].
  case_bool_decide; [rewrite fmap_is_Some|]; naive_solver.
Qed.

Lemma nt_ok_add_leaf n m :
  nt_ok m -> m !! n = None -> (length n <= getMaxDepth)%nat ->
  (n <> [] -> is_Some (m !! parent_of n)) -> nt_ok (add_leaf n m).
Proof.
  intros Hok Hn Hd Hp.
  pose proof (fun x => add_leaf_dom n m x Hn) as Hdom.
  assert (forall c, is_Some (m !! c) -> c <> [] -> parent_of c <> n) as Hno.
  { intros c Hc Hne E. apply (ok_up _ Hok) in Hc; [|done]. rewrite E, Hn in Hc. by destruct Hc. }
  split.
  - intros x e. rewrite add_leaf_lookup by done. case_bool_decide; [naive_solver|].
    case_bool_decide; [intros (e' & He & ->)%fmap_Some|intros He]; by apply (ok_depth _ Hok) in He.
  - intros x e. rewrite add_leaf_lookup by done. case_bool_decide; [by intros [= <-]; subst|].
    case_bool_decide; [intros (e' & He & ->)%fmap_Some|intros He]; by apply (ok_parent _ Hok) in He.
  - intros x Hx Hne. apply Hdom. apply Hdom in Hx as [->|Hx]; right; [auto|]. by apply (ok_up _ Hok).
  - intros x e c. rewrite add_leaf_lookup, Hdom by done. case_bool_decide as Hxn.
    + intros [= <-]. subst x. simpl. split; [set_solver|]. intros (Hc & E & [->|Hc']).
      * by apply parent_of_ne in Hc.
      * by apply Hno in Hc'.
    + case_bool_decide as Hxp.
      * destruct Hxp as [Hne ->]. intros (e' & He & ->)%fmap_Some. simpl.
        rewrite elem_of_app, list_elem_of_singleton, (ok_children _ Hok _ _ c He). naive_solver.
      * intros He. rewrite (ok_children _ Hok _ _ c He). naive_solver.
  - intros x e. rewrite add_leaf_lookup by done. case_bool_decide; [intros [= <-]; constructor|].
    case_bool_decide as Hxp; [intros (e' & He & ->)%fmap_Some|intros He]; [|by apply (ok_nodup _ Hok) in He].
    simpl. apply NoDup_app. split_conj; [by eapply ok_nodup| |apply NoDup_singleton].
    intros y Hy ->%list_elem_of_singleton. apply (ok_children _ Hok _ _ _ He) in Hy as (_ & _ & Hy).
    rewrite Hn in Hy. by destruct Hy.
Qed.

Lemma tbl_add_leaf n m x : m !! n = None -> tbl (add_leaf n m) x = tbl m x.
Proof.
  intros Hn. unfold tbl. rewrite add_leaf_lookup by done. case_bool_decide; [subst; by rewrite Hn|].
  case_bool_decide; [|done]. by destruct (m !! x).
Qed.

(** ** [lookup] *)

(** One round of the loop of [lookup] is: nothing, or a new leaf. *)
Lemma lookup_round (name : Name) (i count : nat) (parent : option Name) (m : NT) :
  parent = (if bool_decide (take i name = []) then None else Some (parent_of (take i name))) ->
  lookup_loop name i (Datatypes.S count) parent m =
  lookup_loop name (i + 1) count (Some (take i name))
    (match m !! take i name with Some _ => m | None => add_leaf (take i name) m end).
Proof.
  intros ->. cbn [lookup_loop ns_insert gmap_store]. destruct (m !! take i name) eqn:E; [done|].
  unfold add_leaf. by case_bool_decide.
Qed.

Lemma lookup_loop_ok (name : Name) : forall (count i : nat) (parent : option Name) (m : NT),
  nt_ok m -> (i + count <= length name + 1)%nat -> (i + count <= getMaxDepth + 1)%nat ->
  parent = (if bool_decide (i = 0%nat) then None else Some (take (i - 1) name)) ->
  (forall j, (j < i)%nat -> is_Some (m !! take j name)) ->
  let m' := lookup_loop name i count parent m in
  nt_ok m' /\ (forall x, tbl m' x = tbl m x) /\
  (forall j, (j < i + count)%nat -> is_Some (m' !! take j name)) /\
  (forall x, is_Some (m' !! x) <->
     is_Some (m !! x) \/ exists j, (i <= j < i + count)%nat /\ x = take j name).
Proof.
  induction count as [|count IH]; intros i parent m Hok Hi Hd Hp Hup m'.
  { subst m'. simpl. split_and!; [done|done|intros j Hj; apply Hup; lia|].
    intros x. split; [by left|]. intros [?|(j & ? & _)]; [done|lia]. }
  subst m'. rewrite lookup_round.
  2: { rewrite Hp. destruct i as [|i]; [done|]. rewrite parent_of_take by lia.
       rewrite (bool_decide_false (Datatypes.S i = 0%nat)) by lia.
       rewrite bool_decide_false; [by replace (Datatypes.S i - 1)%nat with i by lia|].
       intros E. apply (f_equal length) in E. rewrite length_take in E. cbn [length] in E. lia. }
  set (m1 := match m !! take i name with Some _ => m | None => add_leaf (take i name) m end).
  assert (nt_ok m1 /\ (forall x, tbl m1 x = tbl m x) /\
          (forall x, is_Some (m1 !! x) <-> is_Some (m !! x) \/ x = take i name)) as (Hok1 & Ht1 & Hd1).
  { unfold m1. destruct (m !! take i name) as [e|] eqn:E.
    - split_conj. intros x. split; [by left|]. intros [?| ->]; eauto.
    - split_and!.
      + apply nt_ok_add_leaf; [done|done|rewrite length_take; lia|]. intros Hne.
        destruct i as [|i]; [done|]. rewrite parent_of_take by lia. apply Hup. lia.
      + intros x. by apply tbl_add_leaf.
      + intros x. rewrite add_leaf_dom by done. tauto. }
  clearbody m1. destruct (IH (i + 1)%nat (Some (take i name)) m1) as (H1 & H2 & H3 & H4); [done|lia|lia|..].
  - rewrite bool_decide_false by lia. by replace (i + 1 - 1)%nat with i by lia.
  - intros j Hj. apply Hd1. destruct (decide (j = i)) as [->|]; [by right|]. left. apply Hup. lia.
  - split_and!; [done|intros x; by rewrite H2, Ht1|intros j Hj; apply H3; lia|].
    intros x. rewrite H4, Hd1. split.
    + intros [[?| ->]|(j & ? & ->)]; [by left|right; exists i; split; [lia|done]|right; exists j; split; [lia|done]].
    + intros [?|(j & ? & ->)]; [by left; left|]. destruct (decide (j = i)) as [->|]; [by left; right|].
      right. exists j. split; [lia|done].
Qed.

Lemma nt_lookup_ok (name : Name) (k : nat) (m : NT) :
  nt_ok m -> (k <= length name)%nat -> (k <= getMaxDepth)%nat ->
  let m' := (nt_lookup name k m).1 in
  nt_ok m' /\ (forall x, tbl m' x = tbl m x) /\ is_Some (m' !! take k name) /\
  (forall x, is_Some (m' !! x) <-> is_Some (m !! x) \/ x `prefix_of` take k name).
Proof.
  intros Hok Hk Hd m'. destruct (lookup_loop_ok name (k + 1) 0 None m) as (H1 & H2 & H3 & H4);
    [done|lia|lia|done|lia|]. unfold m', nt_lookup. simpl in *. split_and!; [done|done|apply H3; lia|].
  intros x. rewrite H4. split; intros [?|H]; [by left| |by left|]; right.
  - destruct H as (j & Hj & ->). exists (drop j (take k name)).
    replace (take j name) with (take j (take k name)) by (rewrite take_take; f_equal; lia).
    by rewrite take_drop.
  - exists (length x). apply prefix_length in H as Hl. rewrite length_take in Hl. split; [lia|].
    destruct H as [z H]. replace (take (length x) name) with (take (length x) (take k name))
      by (rewrite take_take; f_equal; lia). by rewrite H, take_app_length.
Qed.

(** ** Erasing empty nodes *)

(** [eraseIfEmpty] takes a leaf without table entries away. *)
Definition del_leaf (n : Name) (m : NT) : NT :=
  delete n (if bool_decide (n = []) then m else unsetParent n m).

Lemma list_erase_elem n c l : NoDup l -> c ∈ list_erase n l <-> c ∈ l /\ c <> n.
Proof.
  induction l as [|x l IH]; [set_solver|]. intros [Hx Hl]%NoDup_cons. simpl.
  case_bool_decide; subst; rewrite elem_of_cons; [|rewrite elem_of_cons, IH by done]; naive_solver.
Qed.

Lemma list_erase_NoDup n l : NoDup l -> NoDup (list_erase n l).
Proof.
  induction l as [|x l IH]; [done|]. intros [Hx Hl]%NoDup_cons. simpl. case_bool_decide; [done|].
  constructor; [|auto]. intros Hin. apply Hx. by apply list_erase_elem in Hin as [? _].
Qed.

Lemma del_leaf_lookup n m e x :
  nt_ok m -> m !! n = Some e ->
  del_leaf n m !! x =
    if bool_decide (x = n) then None
    else if bool_decide (n <> [] /\ x = parent_of n)
         then (fun e => set_nteChildren (list_erase n (nte_children e)) e) <$> m !! x
         else m !! x.
Proof.
  intros Hok He. unfold del_leaf.
  destruct (bool_decide_reflect (x = n)) as [->|Hxn]; [by rewrite lookup_delete_eq|].
  rewrite lookup_delete_ne by done. destruct (bool_decide_reflect (n = [])) as [->|Hne].
  { case_bool_decide; naive_solver. }
  unfold unsetParent. rewrite nt_get_map, He. simpl. rewrite (ok_parent _ Hok n e He).
  rewrite bool_decide_false by done. pose proof (parent_of_ne n Hne). cbn [ns_modify gmap_store].
  rewrite lookup_alter_ne by done. case_bool_decide as D.
  - destruct D as [_ ->]. by rewrite lookup_alter_eq.
  - rewrite lookup_alter_ne; naive_solver.
Qed.

Lemma del_leaf_inv n m e x x' :
  nt_ok m -> m !! n = Some e -> del_leaf n m !! x = Some x' ->
  exists y, m !! x = Some y /\ x <> n /\ nte_parent x' = nte_parent y /\ tables_of x' = tables_of y /\
    NoDup (nte_children x') /\ forall c, c ∈ nte_children x' <-> c ∈ nte_children y /\ c <> n.
Proof.
  intros Hok He. rewrite (del_leaf_lookup n m e x Hok He). case_bool_decide; [done|].
  case_bool_decide as D.
  - intros (y & Hy & ->)%fmap_Some. pose proof (ok_nodup _ Hok _ _ Hy). exists y. split_and!; [done..| |].
    + by apply list_erase_NoDup.
    + intros c. simpl. by apply list_erase_elem.
  - intros Hy. exists x'. split_and!; [done..|by eapply ok_nodup|]. intros c. split; [|by intros []].
    intros Hc. split; [done|]. intros ->. apply (ok_children _ Hok _ _ _ Hy) in Hc. naive_solver.
Qed.

Lemma del_leaf_dom n m e x :
  nt_ok m -> m !! n = Some e -> is_Some (del_leaf n m !! x) <-> x <> n /\ is_Some (m !! x).
Proof.
  intros Hok He. rewrite (del_leaf_lookup n m e x Hok He). case_bool_decide; [split; [by intros []|naive_solver]|].
  case_bool_decide; [rewrite fmap_is_Some|]; naive_solver.
Qed.

Lemma nt_ok_del_leaf n m e :
  nt_ok m -> m !! n = Some e -> nte_children e = [] -> nt_ok (del_leaf n m).
Proof.
  intros Hok He Hc. pose proof (fun x => del_leaf_dom n m e x Hok He) as Hdom. split.
  - intros x x' (y & Hy & _)%(del_leaf_inv n m e); [by eapply ok_depth|done..].
  - intros x x' (y & Hy & _ & -> & _)%(del_leaf_inv n m e); [by eapply ok_parent|done..].
  - intros x [Hxn Hx]%Hdom Hne. apply Hdom. split; [|by apply (ok_up _ Hok)].
    intros E. assert (x ∈ nte_children e) as Hin by by apply (ok_children _ Hok n e x He).
    rewrite Hc in Hin. by apply not_elem_of_nil in Hin.
  - intros x x' c (y & Hy & Hxn & _ & _ & _ & Hch)%(del_leaf_inv n m e); [|done..].
    rewrite Hch, Hdom, (ok_children _ Hok x y c Hy). naive_solver.
  - intros x x' (y & _ & _ & _ & _ & Hnd & _)%(del_leaf_inv n m e); done.
Qed.

Lemma tbl_del_leaf n m e x :
  nt_ok m -> m !! n = Some e -> tables_of e = no_tables -> tbl (del_leaf n m) x = tbl m x.
Proof.
  intros Hok He Ht. unfold tbl. rewrite (del_leaf_lookup n m e x Hok He).
  case_bool_decide; [subst; by rewrite He, Ht|]. case_bool_decide; [|done]. by destruct (m !! x).
Qed.

(** One round of the loop of [eraseIfEmpty]. *)
Lemma erase_round (fuel : nat) (n : Name) (e : NTE) (b : bool) (k : nat) (m : NT) :
  nt_ok m -> m !! n = Some e -> isEmpty e = true ->
  eraseIfEmpty_loop (Datatypes.S fuel) (Some n) b k m =
  (if b then eraseIfEmpty_loop fuel (nte_parent e) b (k + 1) (del_leaf n m) else (del_leaf n m, (k + 1)%nat)).
Proof.
  intros Hok He Hemp. cbn [eraseIfEmpty_loop]. rewrite nt_get_map, He, Hemp.
  rewrite (ok_parent _ Hok n e He). unfold del_leaf. by case_bool_decide.
Qed.

(** Every node but those on the path from [n] up is in use. *)
Definition garbage_at (on : option Name) (m : NT) : Prop :=
  forall x e, m !! x = Some e -> isEmpty e = true -> Some x = on.

Lemma garbage_del_leaf n m e :
  nt_ok m -> m !! n = Some e -> garbage_at (Some n) m -> garbage_at (nte_parent e) (del_leaf n m).
Proof.
  intros Hok He Hg x x' Hx Hemp.
  apply (del_leaf_inv n m e) in Hx as (y & Hy & Hxn & _ & Ht & _ & Hch); [|done..].
  rewrite isEmpty_spec in Hemp. destruct Hemp as [Hc Ht'].
  destruct (isEmpty y) eqn:Ey; [apply (Hg x y Hy) in Ey; congruence|].
  assert (nte_children y <> []) as Hcy.
  { intros E. assert (isEmpty y = true) by (apply isEmpty_spec; split; congruence). congruence. }
  assert (n ∈ nte_children y) as Hn.
  { destruct (nte_children y) as [|c l] eqn:El; [done|].
    destruct (decide (c = n)) as [->|Hcn]; [by left|].
    assert (c ∈ nte_children x') as Hin by (apply Hch; split; [by left|done]).
    rewrite Hc in Hin. by apply not_elem_of_nil in Hin. }
  apply (ok_children _ Hok x y n Hy) in Hn as (Hne & <- & _).
  by rewrite (ok_parent _ Hok n e He), bool_decide_false.
Qed.

Lemma eraseIfEmpty_loop_ok : forall (fuel : nat) (n : option Name) (b : bool) (k : nat) (m : NT),
  nt_ok m -> (match n with Some n => is_Some (m !! n) /\ (length n < fuel)%nat | None => True end) ->
  let m' := (eraseIfEmpty_loop fuel n b k m).1 in
  nt_ok m' /\ (forall x, tbl m' x = tbl m x) /\
  (forall x, is_Some (m' !! x) -> is_Some (m !! x)) /\
  (b = true -> garbage_at n m -> no_garbage m').
Proof.
  induction fuel as [|fuel IH]; intros n b k m Hok Hn m'; subst m'.
  { destruct n as [n|]; [lia|]. simpl. split_and!; try done. intros _ Hg x e Hx.
    destruct (isEmpty e) eqn:E; [|done]. by apply (Hg x e Hx) in E. }
  destruct n as [n|].
  2: { simpl. split_and!; try done. intros _ Hg x e Hx.
       destruct (isEmpty e) eqn:E; [|done]. by apply (Hg x e Hx) in E. }
  destruct Hn as [[e He] Hf]. destruct (isEmpty e) eqn:Hemp.
  2: { cbn [eraseIfEmpty_loop]. rewrite nt_get_map, He, Hemp. split_and!; try done. intros _ Hg x x' Hx.
       destruct (isEmpty x') eqn:E; [|done]. pose proof (Hg x x' Hx E) as [= ->]. simpl in Hx. congruence. }
  rewrite (erase_round fuel n e b k m Hok He Hemp). pose proof Hemp as [Hc Ht]%isEmpty_spec.
  pose proof (nt_ok_del_leaf n m e Hok He Hc) as Hok'.
  pose proof (fun x => tbl_del_leaf n m e x Hok He Ht) as Htb.
  pose proof (fun x => del_leaf_dom n m e x Hok He) as Hdom.
  destruct b; [|split_and!; [done|done|intros x Hx; by apply Hdom in Hx as [_ ?]|done]].
  destruct (IH (nte_parent e) true (k + 1)%nat (del_leaf n m) Hok') as (H1 & H2 & H3 & H4).
  - rewrite (ok_parent _ Hok n e He). case_bool_decide as Hne; [done|]. split.
    + apply Hdom. split; [by apply parent_of_ne|]. apply (ok_up _ Hok); [by exists e|done].
    + pose proof (parent_of_length n Hne). lia.
  - split_and!; [done|intros x; by rewrite H2|intros x Hx; apply H3, Hdom in Hx; tauto|].
    intros _ Hg. apply H4; [done|]. by apply garbage_del_leaf.
Qed.

(** C27: The name tree's invariant and abstract view. [lookup] creates the node of the
    prefix and all of its ancestors and nothing else; [eraseIfEmpty] only takes away unused
    nodes, and, when the node it is called on is the only unused one, leaves none; both keep
    the parent pointers, the children lists and the depth bound right, and neither changes
    the table entries of any name. *)
Theorem name_tree_inv (m : NT) (name : Name) (k : nat) :
  nt_ok m ->
  ((k <= length name)%nat -> (k <= getMaxDepth)%nat ->
   let m' := (nt_lookup name k m).1 in
   nt_ok m' /\ (forall x, tbl m' x = tbl m x) /\
   (forall x, is_Some (m' !! x) <-> is_Some (m !! x) \/ x `prefix_of` take k name)) /\
  (is_Some (m !! name) ->
   let m' := (eraseIfEmpty name true m).1 in
   nt_ok m' /\ (forall x, tbl m' x = tbl m x) /\
   (garbage_at (Some name) m -> no_garbage m')).
Proof.
  intros Hok. split.
  - intros Hk Hd m'. destruct (nt_lookup_ok name k m Hok Hk Hd) as (H1 & H2 & _ & H4). done.
  - intros Hn m'. destruct (eraseIfEmpty_loop_ok (length name + 1) (Some name) true 0 m Hok) as (H1 & H2 & _ & H4);
      [split; [done|lia]|]. split_and!; [done|done|auto].
Qed.

Lemma name_tree_inv_witness :
  nt_ok ∅ /\ nt_ok sample_nt /\ size (eraseIfEmpty [generic [x61]; generic [x62]] true sample_nt).1 = 3%nat.
Proof.
  split; [apply nt_ok_empty|]. split; [|by vm_compute].
  destruct (name_tree_inv ∅ [generic [x61]; generic [x62]] 2 nt_ok_empty) as [H _].
  destruct H as [H _]; [apply Nat.leb_le; reflexivity..|].
  destruct (name_tree_inv _ [generic [x61]; generic [x63]] 2 H) as [H' _].
  apply H'; apply Nat.leb_le; reflexivity.
Defined.

(** ** Searches *)

Definition hit (m : NT) (sel : EntrySelector) (p : Name) : Prop := exists e, m !! p = Some e /\ sel p e = true.

Definition longest_hit (m : NT) (sel : EntrySelector) (name p : Name) : Prop :=
  p `prefix_of` name /\ hit m sel p /\
  forall q, q `prefix_of` name -> hit m sel q -> (length q <= length p)%nat.

Section searches.
Context (m : NT) (sel : EntrySelector) (Hok : nt_ok m).
Implicit Types name n p : Name.

Lemma hit_in p : hit m sel p -> is_Some (m !! p).
Proof using Type. intros (e & -> & _). by eexists. Qed.

Lemma hit_depth p : hit m sel p -> (length p <= getMaxDepth)%nat.
Proof using Hok. intros (e & He & _). by eapply ok_depth. Qed.

(** The test of one round of [lpm_name_loop]. *)
Lemma hit_test name i :
  (match ns_find m name i with Some e => sel (take i name) e | None => false end) = true
  <-> hit m sel (take i name).
Proof using Type. unfold hit. simpl. destruct (m !! take i name); naive_solver. Qed.

Lemma lpm_loop_spec name i :
  match lpm_name_loop name sel i m with
  | Some p => exists j, (j <= i)%nat /\ p = take j name /\ hit m sel p /\
                forall k, (j < k <= i)%nat -> ~ hit m sel (take k name)
  | None => forall k, (k <= i)%nat -> ~ hit m sel (take k name)
  end.
Proof using Type.
  induction i as [|i IH]; cbn [lpm_name_loop]; pose proof (hit_test name) as Ht.
  - specialize (Ht 0%nat). destruct (match ns_find m name 0 with Some _ => _ | None => _ end).
    + exists 0%nat. split_and!; [lia|done|by apply Ht|lia].
    + intros k Hk. replace k with 0%nat by lia. intros H. by apply Ht in H.
  - specialize (Ht (Datatypes.S i)).
    destruct (match ns_find m name (Datatypes.S i) with Some _ => _ | None => _ end).
    + exists (Datatypes.S i). split_and!; [lia|done|by apply Ht|lia].
    + destruct (lpm_name_loop name sel i m) as [p|].
      * destruct IH as (j & Hj & -> & Hh & Hk). exists j. split_and!; [lia|done|done|].
        intros k Hk'. destruct (decide (k = Datatypes.S i)) as [->|]; [by intros ?%Ht|]. apply Hk. lia.
      * intros k Hk. destruct (decide (k = Datatypes.S i)) as [->|]; [by intros ?%Ht|]. apply IH. lia.
Qed.

Lemma prefix_take p name : p `prefix_of` name <-> exists k, (k <= length name)%nat /\ p = take k name.
Proof using Type.
  split.
  - intros [z ->]. exists (length p). rewrite length_app, take_app_length. split; [lia|done].
  - intros (k & _ & ->). exists (drop k name). by rewrite take_drop.
Qed.

Lemma lpm_name_spec name p : lpm_name name sel m = Some p <-> longest_hit m sel name p.
Proof using Hok.
  unfold lpm_name, longest_hit. pose proof (lpm_loop_spec name (Nat.min (length name) getMaxDepth)) as H.
  assert (forall q, q `prefix_of` name -> hit m sel q ->
            exists k, (k <= Nat.min (length name) getMaxDepth)%nat /\ q = take k name /\ length q = k) as Hq.
  { intros q (k & Hk & ->)%prefix_take Hh. apply hit_depth in Hh. rewrite length_take in Hh. exists k.
    rewrite length_take. split_and!; [lia|done|lia]. }
  destruct (lpm_name_loop _ _ _ _) as [r|].
  - destruct H as (j & Hj & -> & Hh & Hk). assert (longest_hit m sel name (take j name)) as HL.
    { split_and!; [apply prefix_take; exists j; split; [lia|done]|done|].
      intros q Hp Hhq. destruct (Hq q Hp Hhq) as (k & Hk' & -> & _). rewrite !length_take.
      destruct (decide (j < k)%nat); [|lia]. exfalso. by apply (Hk k); [lia|]. }
    split; [by intros [= <-]|]. intros (Hp & Hhp & Hmax). f_equal. destruct HL as (HL1 & HL2 & HL3).
    pose proof (HL3 p Hp Hhp) as Hle. pose proof (Hmax _ HL1 HL2) as Hge.
    destruct (Hq p Hp Hhp) as (k & Hk1 & -> & Hk2). rewrite !length_take in *. f_equal. lia.
  - split; [done|]. intros (Hp & Hhp & _). exfalso.
    destruct (Hq p Hp Hhp) as (k & Hk & -> & _). by apply (H k).
Qed.

(** Walking up from a node is counting the prefix length down. *)
Lemma lpm_up name i : forall fuel : nat,
  (i < fuel)%nat -> (i <= length name)%nat -> is_Some (m !! take i name) ->
  lpm_entry_loop fuel (Some (take i name)) sel m = lpm_name_loop name sel i m.
Proof using Hok.
  induction i as [|i IH]; intros fuel Hf Hi Hin; destruct fuel as [|fuel]; try lia;
    destruct Hin as [e He]; cbn [lpm_entry_loop lpm_name_loop]; rewrite nt_get_map;
    cbn [ns_find gmap_store]; rewrite He; rewrite (ok_parent _ Hok _ _ He).
  - destruct (sel _ e); [done|]. simpl. by destruct fuel.
  - destruct (sel _ e); [done|]. rewrite bool_decide_false.
    + rewrite parent_of_take by lia. apply IH; [lia|lia|].
      apply (ok_prefix m (take (Datatypes.S i) name)); [done|by exists e|].
      apply prefix_take. exists i. rewrite length_take. split; [lia|]. rewrite take_take. f_equal. lia.
    + intros E. apply (f_equal length) in E. rewrite length_take in E. cbn [length] in E. lia.
Qed.

Lemma lpm_entry_name n : is_Some (m !! n) -> lpm_entry n sel m = lpm_name n sel m.
Proof using Hok.
  intros Hn. unfold lpm_entry, lpm_name. pose proof Hn as [e He]. apply (ok_depth _ Hok) in He.
  rewrite Nat.min_l by done. rewrite <- (firstn_all n) at 2. apply lpm_up; [lia|done|].
  by rewrite firstn_all.
Qed.

(** The descent stops at the deepest node of the name. *)
Lemma descend_spec name : forall count k,
  (k + count <= Nat.min (length name) getMaxDepth)%nat -> is_Some (m !! take k name) ->
  exists j, (k <= j <= k + count)%nat /\ descend name (k + 1) count (take k name) m = take j name /\
    is_Some (m !! take j name) /\ (j = (k + count)%nat \/ m !! take (Datatypes.S j) name = None).
Proof using Type.
  induction count as [|count IH]; intros k Hk Hin; cbn [descend].
  { exists k. split_and!; [lia|lia|done|done|left; lia]. }
  unfold findExactMatch. rewrite Nat.min_r by lia.
  rewrite (proj2 (Nat.ltb_ge _ _)) by lia. cbn [ns_find gmap_store]. rewrite !Nat.add_1_r.
  destruct (m !! take (Datatypes.S k) name) as [e|] eqn:He.
  - destruct (IH (Datatypes.S k)) as (j & Hj & H1 & H2 & H3); [lia|by exists e|].
    rewrite Nat.add_1_r in H1. exists j. split_and!; [lia|lia|exact H1|done|]. destruct H3; [left; lia|by right].
  - exists k. split_and!; [lia|lia|done|done|by right].
Qed.

Lemma lpm_loop_skip name i j :
  (j <= i)%nat -> (forall k, (j < k <= i)%nat -> ~ hit m sel (take k name)) ->
  lpm_name_loop name sel i m = lpm_name_loop name sel j m.
Proof using Type.
  induction 1 as [|i Hi IH]; intros Hk; [done|]. cbn [lpm_name_loop].
  rewrite (proj1 (not_true_iff_false _)); [apply IH; intros; apply Hk; lia|].
  intros H%hit_test. by apply (Hk (Datatypes.S i)); [lia|].
Qed.

Lemma lpm_pit_name nte name :
  is_Some (m !! nte) -> nte `prefix_of` name -> lpm_pit nte name sel m = lpm_name name sel m.
Proof using Hok.
  intros Hn Hp. pose proof Hn as [e He]. apply (ok_depth _ Hok) in He. unfold lpm_pit.
  apply prefix_length in Hp as Hl. destruct (Nat.ltb_spec (length nte) (length name)) as [L|L].
  2: { rewrite lpm_entry_name by done. f_equal. destruct Hp as [z ->]. rewrite length_app in L.
       destruct z; simpl in L; [by rewrite app_nil_r|lia]. }
  apply prefix_take in Hp as (k & Hk & ->). rewrite length_take in *. rewrite Nat.min_l in * by done.
  destruct (descend_spec name (Nat.min (length name) getMaxDepth - k) k) as (j & Hj & -> & Hin & Hend);
    [lia|done|].
  unfold lpm_entry, lpm_name. rewrite length_take. rewrite (lpm_up name j); [|lia|lia|done].
  symmetry. apply lpm_loop_skip; [lia|]. intros i Hi Hh%hit_in. destruct Hend as [->|Hend]; [lia|].
  apply (ok_prefix m _ (take (Datatypes.S j) name) Hok) in Hh; [rewrite Hend in Hh; by destruct Hh|].
  apply prefix_take. exists (Datatypes.S j). rewrite length_take, take_take. split; [lia|]. f_equal. lia.
Qed.

Lemma matches_above_spec name i x : forall fuel : nat,
  (i < fuel)%nat -> (i <= length name)%nat -> is_Some (m !! take i name) ->
  x ∈ matches_above fuel (Some (take i name)) sel m
  <-> exists j, (j <= i)%nat /\ x = take j name /\ hit m sel x.
Proof using Hok.
  induction i as [|i IH]; intros fuel Hf Hi Hin; destruct fuel as [|fuel]; try lia;
    pose proof Hin as [e He]; cbn [matches_above]; rewrite nt_get_map, He, elem_of_app.
  - rewrite (ok_parent _ Hok _ _ He), bool_decide_true by done.
    assert (x ∉ matches_above fuel None sel m) as Hno by (destruct fuel; set_solver).
    split.
    + intros [H|H]; [|done]. exists 0%nat. destruct (sel _ e) eqn:Es; [|set_solver].
      apply list_elem_of_singleton in H as ->. split_and!; [lia|done|by exists e].
    + intros (j & Hj & -> & Hh). replace j with 0%nat in * by lia. left. destruct Hh as (e' & He' & Hs).
      rewrite He in He'. simplify_eq. rewrite Hs. by left.
  - rewrite (ok_parent _ Hok _ _ He), bool_decide_false.
    + rewrite parent_of_take by lia. rewrite IH; [|lia|lia|].
      * split.
        -- intros [H|(j & Hj & -> & Hh)]; [|exists j; split_and!; [lia|done|done]].
           exists (Datatypes.S i). destruct (sel _ e) eqn:Es; [|set_solver].
           apply list_elem_of_singleton in H as ->. split_and!; [lia|done|by exists e].
        -- intros (j & Hj & -> & Hh). destruct (decide (j = Datatypes.S i)) as [->|].
           ++ left. destruct Hh as (e' & He' & Hs). rewrite He in He'. simplify_eq. rewrite Hs. by left.
           ++ right. exists j. split_and!; [lia|done|done].
      * apply (ok_prefix m (take (Datatypes.S i) name)); [done|done|].
        apply prefix_take. exists i. rewrite length_take. split; [lia|]. rewrite take_take. f_equal. lia.
    + intros E. apply (f_equal length) in E. rewrite length_take in E. cbn [length] in E. lia.
Qed.

Lemma findAllMatches_spec name x :
  x ∈ findAllMatches name sel m <-> x `prefix_of` name /\ hit m sel x.
Proof using Hok.
  unfold findAllMatches. destruct (lpm_name name sel m) as [p|] eqn:E.
  - apply lpm_name_spec in E as (Hp & Hh & Hmax). apply prefix_take in Hp as (k & Hk & ->).
    rewrite matches_above_spec; [|rewrite length_take; lia|done|by apply hit_in]. split.
    + intros (j & Hj & -> & Hx). split; [|done]. apply prefix_take. exists j. split; [lia|done].
    + intros [Hx Hhx]. pose proof (Hmax x Hx Hhx) as Hle. apply prefix_take in Hx as (j & Hj & ->).
      rewrite !length_take in Hle. exists j. split_and!; [lia|done|done].
  - split; [set_solver|]. intros [Hx Hhx]. exfalso.
    assert (forall (n : nat) q, q `prefix_of` name -> hit m sel q -> (length name - length q <= n)%nat -> False) as Hno.
    { induction n as [|n IH]; intros q Hq Hh Hn.
      - assert (longest_hit m sel name q) as L; [|apply lpm_name_spec in L; congruence].
        split_and!; [done|done|]. intros r Hr _. apply prefix_length in Hr. lia.
      - assert (longest_hit m sel name q) as L; [|apply lpm_name_spec in L; congruence].
        split_and!; [done|done|]. intros r Hr Hhr.
        destruct (decide (length r <= length q)%nat); [done|]. exfalso. apply (IH r); [done|done|lia]. }
    eapply Hno; eauto.
Qed.
End searches.

(** C26: Longest prefix match. The search by name through the hashtable, the search by entry
    along the parent pointers, and the search by PIT entry (down to the deepest node of a
    name that is too deep or ends in a digest, then up) all return the longest prefix of the
    name whose node the selector accepts; and the iteration over all matches visits exactly
    the accepted prefixes. *)
Theorem longest_prefix_match (m : NT) (sel : EntrySelector) (name nte : Name) :
  nt_ok m -> is_Some (m !! nte) -> nte `prefix_of` name ->
  (forall p, lpm_name name sel m = Some p <-> longest_hit m sel name p) /\
  lpm_pit nte name sel m = lpm_name name sel m /\
  lpm_entry nte sel m = lpm_name nte sel m /\
  (forall x, x ∈ findAllMatches name sel m <-> x `prefix_of` name /\ hit m sel x).
Proof.
  intros Hok Hn Hp. split_and!.
  - intros p. by apply lpm_name_spec.
  - by apply lpm_pit_name.
  - by apply lpm_entry_name.
  - intros x. by apply findAllMatches_spec.
Qed.

Lemma longest_prefix_match_witness :
  let m := (nt_lookup [generic [x61]] 1 ∅).1 : NT in
  nt_ok m /\ lpm_pit [] [generic [x61]; generic [x62]] AnyEntry m = Some [generic [x61]].
Proof.
  intros m. assert (nt_ok m) as Hm.
  { destruct (nt_lookup_ok [generic [x61]] 1 ∅) as [H _]; [apply nt_ok_empty|apply Nat.leb_le; reflexivity..|exact H]. }
  split; [exact Hm|].
  destruct (longest_prefix_match m AnyEntry [generic [x61]; generic [x62]] [] Hm) as (_ & -> & _);
    [by eexists; vm_compute|by exists [generic [x61]; generic [x62]]|]. by vm_compute.
Defined.
