(* ===== verification/Tables.v ===== *)
(** * The tables on the name tree: their shared state and invariant

    The FIB, the PIT, the Measurements and the Strategy Choice keep their entries in the
    nodes of one name tree. [TableState] is the tree with the heap of PIT entries and the
    item counters; [ts_ok] is the invariant every table operation preserves. Each table is
    also seen abstractly as a map from names ([fib_map], [meas_map], [sc_map]) which creating
    and erasing nodes does not change. *)

From S2P Require Import Prelude Name Packet PitEntry FibEntry NodeStore NameTree NameTreeInv.

(** [NameTree::m_ht], the PIT entries behind the [shared_ptr]s, the address of the next one,
    and [m_nItems] of the four tables. *)
Record TableState := mkTS {
  ts_nt : NT;
  ts_pit : gmap PitPtr PitEntry;
  ts_nextPit : PitPtr;
  ts_nFib : Z;
  ts_nPit : Z;
  ts_nMeas : Z;
  ts_nSc : Z;
}.

Definition ts_empty : TableState := mkTS ∅ ∅ 1 0 0 0 0.

Definition set_nt m (t : TableState) : TableState :=
  mkTS m (ts_pit t) (ts_nextPit t) (ts_nFib t) (ts_nPit t) (ts_nMeas t) (ts_nSc t).
Definition set_pit h (t : TableState) : TableState :=
  mkTS (ts_nt t) h (ts_nextPit t) (ts_nFib t) (ts_nPit t) (ts_nMeas t) (ts_nSc t).
Definition set_nFib n (t : TableState) : TableState :=
  mkTS (ts_nt t) (ts_pit t) (ts_nextPit t) n (ts_nPit t) (ts_nMeas t) (ts_nSc t).
Definition set_nPit n (t : TableState) : TableState :=
  mkTS (ts_nt t) (ts_pit t) (ts_nextPit t) (ts_nFib t) n (ts_nMeas t) (ts_nSc t).
Definition set_nMeas n (t : TableState) : TableState :=
  mkTS (ts_nt t) (ts_pit t) (ts_nextPit t) (ts_nFib t) (ts_nPit t) n (ts_nSc t).
Definition set_nSc n (t : TableState) : TableState :=
  mkTS (ts_nt t) (ts_pit t) (ts_nextPit t) (ts_nFib t) (ts_nPit t) (ts_nMeas t) n.

(** A write to a node, and to a PIT entry. *)
Definition nte_modify (f : NTE -> NTE) (n : Name) (t : TableState) : TableState :=
  set_nt (ns_modify f n (ts_nt t)) t.
Definition pit_modify (f : PitEntry -> PitEntry) (p : PitPtr) (t : TableState) : TableState :=
  set_pit (alter f p (ts_pit t)) t.

(** [m_nameTree.lookup] and [m_nameTree.eraseIfEmpty]. *)
Definition ts_lookup (name : Name) (k : nat) (t : TableState) : TableState :=
  set_nt (nt_lookup name k (ts_nt t)).1 t.
Definition ts_eraseIfEmpty (n : Name) (t : TableState) : TableState :=
  set_nt (eraseIfEmpty n true (ts_nt t)).1 t.

(** ** The tables as maps *)

Definition fib_map (m : NT) : gmap Name FibEntry := omap nte_fib m.
Definition meas_map (m : NT) : gmap Name MeasEntry := omap nte_meas m.
Definition sc_map (m : NT) : gmap Name ScEntry := omap nte_sc m.
Definition pits_at (m : NT) (n : Name) : list PitPtr := match m !! n with Some e => nte_pits e | None => [] end.

(** The node a PIT entry for an Interest belongs to: its name without an implicit digest,
    cut at the depth limit. *)
Definition hasDigest (name : Name) : bool :=
  match last name with Some c => isImplicitSha256Digest c | None => false end.
Definition pit_depth (name : Name) : nat :=
  Nat.min (length name - (if hasDigest name then 1 else 0)) getMaxDepth.
Definition pit_node (name : Name) : Name := take (pit_depth name) name.

Record ts_ok (t : TableState) : Prop := {
  ts_tree : nt_ok (ts_nt t);
  ts_fib_ok : forall n f, fib_map (ts_nt t) !! n = Some f -> fe_prefix f = n /\ wf_fib f;
  ts_sc_ok : forall n s, sc_map (ts_nt t) !! n = Some s -> sc_prefix s = n;
  ts_meas_ok : forall n e, meas_map (ts_nt t) !! n = Some e -> me_name e = n;
  ts_pits : forall n p, p ∈ pits_at (ts_nt t) n <-> exists e, ts_pit t !! p = Some e /\ pe_nte e = Some n;
  ts_pits_nodup : forall n, NoDup (pits_at (ts_nt t) n);
  ts_pit_node : forall p e n, ts_pit t !! p = Some e -> pe_nte e = Some n -> n = pit_node (pe_name e);
  ts_pit_wf : forall p e, ts_pit t !! p = Some e -> wf_entry e;
  ts_pit_unique : forall p q e f, ts_pit t !! p = Some e -> ts_pit t !! q = Some f ->
    is_Some (pe_nte e) -> is_Some (pe_nte f) -> same_request (pe_interest e) (pe_interest f) -> p = q;
  ts_fresh : forall p, is_Some (ts_pit t !! p) -> (p < ts_nextPit t)%N;
}.

(** ** Table entries decide the maps *)

Lemma fib_map_tbl m n : fib_map m !! n = (tbl m n).1.1.1.
Proof. unfold fib_map, tbl. rewrite lookup_omap. by destruct (m !! n). Qed.
Lemma pits_at_tbl m n : pits_at m n = (tbl m n).1.1.2.
Proof. unfold pits_at, tbl. by destruct (m !! n). Qed.
Lemma meas_map_tbl m n : meas_map m !! n = (tbl m n).1.2.
Proof. unfold meas_map, tbl. rewrite lookup_omap. by destruct (m !! n). Qed.
Lemma sc_map_tbl m n : sc_map m !! n = (tbl m n).2.
Proof. unfold sc_map, tbl. rewrite lookup_omap. by destruct (m !! n). Qed.

(** Two trees with the same table entries. *)
Definition tbl_eq (m m' : NT) : Prop := forall n, tbl m n = tbl m' n.

#[global] Instance tbl_eq_equiv : Equivalence tbl_eq.
Proof. split; [by intros m n|by intros m m' H n|intros m1 m2 m3 H H' n; by rewrite H]. Qed.

#[global] Instance fib_map_proper : Proper (tbl_eq ==> (=)) fib_map.
Proof. intros m m' H. apply map_eq. intros n. by rewrite !fib_map_tbl, H. Qed.
#[global] Instance sc_map_proper : Proper (tbl_eq ==> (=)) sc_map.
Proof. intros m m' H. apply map_eq. intros n. by rewrite !sc_map_tbl, H. Qed.
#[global] Instance meas_map_proper : Proper (tbl_eq ==> (=)) meas_map.
Proof. intros m m' H. apply map_eq. intros n. by rewrite !meas_map_tbl, H. Qed.
#[global] Instance pits_at_proper : Proper (tbl_eq ==> (=) ==> (=)) pits_at.
Proof. intros m m' H n _ <-. by rewrite !pits_at_tbl, H. Qed.

(** The invariant depends on the tree's shape and its table entries only. *)
Lemma ts_ok_set_nt m t : ts_ok t -> nt_ok m -> tbl_eq m (ts_nt t) -> ts_ok (set_nt m t).
Proof.
  intros [] Hm E. split; simpl; try done; intros *; try setoid_rewrite E; eauto.
Qed.

Lemma tbl_eq_lookup name k (m : NT) :
  nt_ok m -> (k <= length name)%nat -> (k <= getMaxDepth)%nat -> tbl_eq (nt_lookup name k m).1 m.
Proof. intros Hok Hk Hd n. by apply nt_lookup_ok. Qed.

Lemma ts_ok_lookup name k t :
  ts_ok t -> (k <= length name)%nat -> (k <= getMaxDepth)%nat -> ts_ok (ts_lookup name k t).
Proof.
  intros H Hk Hd. apply ts_ok_set_nt; [done|by apply nt_lookup_ok; [apply H|..]|].
  by apply tbl_eq_lookup; [apply H|..].
Qed.

Lemma eraseIfEmpty_ok n (m : NT) :
  nt_ok m -> nt_ok (eraseIfEmpty n true m).1 /\ tbl_eq (eraseIfEmpty n true m).1 m.
Proof.
  intros Hok. destruct (m !! n) as [e|] eqn:E.
  - destruct (eraseIfEmpty_loop_ok (length n + 1) (Some n) true 0 m Hok) as (H1 & H2 & _); [split; [by exists e|lia]|].
    done.
  - unfold eraseIfEmpty. rewrite Nat.add_1_r. cbn [eraseIfEmpty_loop]. rewrite nt_get_map, E. done.
Qed.

Lemma ts_ok_eraseIfEmpty n t : ts_ok t -> ts_ok (ts_eraseIfEmpty n t).
Proof. intros H. destruct (eraseIfEmpty_ok n (ts_nt t)) as [H1 H2]; [apply H|]. by apply ts_ok_set_nt. Qed.

(** ** Writes to table entries *)

(** A write that leaves the tree's links alone keeps its shape. *)
Definition keeps_links (f : NTE -> NTE) : Prop :=
  forall e, nte_parent (f e) = nte_parent e /\ nte_children (f e) = nte_children e.

Lemma nt_ok_modify f n m : keeps_links f -> nt_ok m -> nt_ok (alter f n m).
Proof.
  intros Hf Hok.
  assert (forall x, is_Some (alter f n m !! x) <-> is_Some (m !! x)) as Hdom.
  { intros x. rewrite lookup_alter. case_decide; subst; [apply fmap_is_Some|done]. }
  assert (forall x e, alter f n m !! x = Some e ->
            exists y, m !! x = Some y /\ nte_parent e = nte_parent y /\ nte_children e = nte_children y) as Hc.
  { intros x e. rewrite lookup_alter. case_decide; subst; [|by exists e].
    intros (y & -> & ->)%fmap_Some. exists y. split; [done|apply Hf]. }
  split.
  - intros x e (y & Hy & _)%Hc. by eapply ok_depth.
  - intros x e (y & Hy & -> & _)%Hc. by eapply ok_parent.
  - intros x Hx Hne. apply Hdom. apply Hdom in Hx. by apply (ok_up _ Hok).
  - intros x e c (y & Hy & _ & ->)%Hc. rewrite Hdom. by apply (ok_children _ Hok).
  - intros x e (y & Hy & _ & ->)%Hc. by eapply ok_nodup.
Qed.

Lemma tbl_modify f n m x :
  tbl (alter f n m) x = if bool_decide (x = n) then match m !! n with Some e => tables_of (f e) | None => no_tables end
                        else tbl m x.
Proof.
  unfold tbl. case_bool_decide; subst; [rewrite lookup_alter_eq|by rewrite lookup_alter_ne].
  by destruct (m !! n).
Qed.

#[export] Hint Resolve ts_ok_lookup ts_ok_eraseIfEmpty nt_ok_modify : ndn.

Lemma ts_ok_empty : ts_ok ts_empty.
Proof.
  split; simpl.
  - apply nt_ok_empty.
  - intros n f. by rewrite fib_map_tbl.
  - intros n f. by rewrite sc_map_tbl.
  - intros n f. by rewrite meas_map_tbl.
  - intros n p. rewrite pits_at_tbl. setoid_rewrite lookup_empty. set_solver.
  - intros n. rewrite pits_at_tbl. constructor.
  - intros p e n. by rewrite lookup_empty.
  - intros p e. by rewrite lookup_empty.
  - intros p q e f. by rewrite lookup_empty.
  - intros p [e He]. by rewrite lookup_empty in He.
Qed.
