(* ===== verification/Fib.v ===== *)
(** * The Forwarding Information Base (table/fib.cpp)

    The operations on the name tree, and their meaning on [fib_map], the finite map from
    prefixes to FIB entries. *)

From S2P Require Import Prelude Name Packet FaceKeyed PitEntry FibEntry NodeStore NameTree NameTreeInv Tables.

Definition nteHasFibEntry : EntrySelector :=
  fun _ e => match nte_fib e with Some _ => true | None => false end.

(** [Fib::s_emptyEntry]. *)
Definition s_emptyEntry : FibEntry := FibEntry_new [].

Definition fib_of (on : option Name) (t : TableState) : FibEntry :=
  match on ≫= fun n => nt_get (ts_nt t) n ≫= nte_fib with Some f => f | None => s_emptyEntry end.

(** [findLongestPrefixMatch] of a name, of a PIT entry and of a Measurements entry. *)
Definition Fib_lpm_name (name : Name) (t : TableState) : FibEntry :=
  fib_of (lpm_name name nteHasFibEntry (ts_nt t)) t.
Definition Fib_lpm_pit (e : PitEntry) (t : TableState) : FibEntry :=
  fib_of (nte ← pe_nte e; lpm_pit nte (pe_name e) nteHasFibEntry (ts_nt t)) t.
Definition Fib_lpm_meas (e : MeasEntry) (t : TableState) : FibEntry :=
  fib_of (lpm_entry (me_name e) nteHasFibEntry (ts_nt t)) t.

Definition Fib_findExactMatch (prefix : Name) (t : TableState) : option FibEntry :=
  n ← findExactMatch prefix (length prefix) (ts_nt t); nt_get (ts_nt t) n ≫= nte_fib.

(** [Fib::insert]; the second component says whether the entry is new. *)
Definition Fib_insert (prefix : Name) (t : TableState) : TableState * bool :=
  let t := ts_lookup prefix (length prefix) t in
  match nt_get (ts_nt t) prefix ≫= nte_fib with
  | Some _ => (t, false)
  | None =>
      let t := nte_modify (setFibEntry (Some (FibEntry_new prefix))) prefix t in
      (set_nFib (ts_nFib t + 1) t, true)
  end.

(** [Fib::erase(nte, canDeleteNte)] and [Fib::erase(prefix)]. *)
Definition Fib_erase_nte (nte : Name) (canDeleteNte : bool) (t : TableState) : TableState :=
  let t := nte_modify (setFibEntry None) nte t in
  let t := if canDeleteNte then ts_eraseIfEmpty nte t else t in
  set_nFib (ts_nFib t - 1) t.
Definition Fib_erase (prefix : Name) (t : TableState) : TableState :=
  match findExactMatch prefix (length prefix) (ts_nt t) with
  | Some nte => Fib_erase_nte nte true t
  | None => t
  end.

(** [Fib::addOrUpdateNextHop] on the entry of a prefix, with what it passes to the
    [afterNewNextHop] signal: the nexthop at the iterator [addOrUpdateNextHop] returned. *)
Definition Fib_addOrUpdateNextHop (prefix : Name) (face : FacePtr) (cost : N) (t : TableState)
  : TableState * option (Name * option NextHop) :=
  match nt_get (ts_nt t) prefix ≫= nte_fib with
  | None => (t, None)
  | Some entry =>
      let '(entry', it, isNew) := fe_addOrUpdateNextHop face cost entry in
      (nte_modify (setFibEntry (Some entry')) prefix t,
       if isNew then Some (fe_prefix entry', fe_nextHops entry' !! it) else None)
  end.

Inductive RemoveNextHopResult := NO_SUCH_NEXTHOP | NEXTHOP_REMOVED | FIB_ENTRY_REMOVED.

Definition Fib_removeNextHop (prefix : Name) (face : FacePtr) (t : TableState)
  : TableState * RemoveNextHopResult :=
  match nt_get (ts_nt t) prefix ≫= nte_fib with
  | None => (t, NO_SUCH_NEXTHOP)
  | Some entry =>
      let '(entry', isRemoved) := fe_removeNextHop face entry in
      let t := nte_modify (setFibEntry (Some entry')) prefix t in
      if negb isRemoved then (t, NO_SUCH_NEXTHOP)
      else if negb (hasNextHops entry') then (Fib_erase_nte prefix false t, FIB_ENTRY_REMOVED)
      else (t, NEXTHOP_REMOVED)
  end.

(** ** Meaning on [fib_map] *)

Lemma setFib_links f : keeps_links (setFibEntry f).
Proof. done. Qed.

Lemma fib_map_set f n m :
  is_Some (m !! n) -> fib_map (alter (setFibEntry f) n m) = partial_alter (fun _ => f) n (fib_map m).
Proof.
  intros [e He]. apply map_eq. intros x. rewrite fib_map_tbl, tbl_modify, He.
  case_bool_decide; [subst; by rewrite lookup_partial_alter_eq|].
  by rewrite lookup_partial_alter_ne, fib_map_tbl.
Qed.

Lemma set_fib_others f n m :
  sc_map (alter (setFibEntry f) n m) = sc_map m /\ meas_map (alter (setFibEntry f) n m) = meas_map m /\
  forall x, pits_at (alter (setFibEntry f) n m) x = pits_at m x.
Proof.
  assert (forall x, (tbl (alter (setFibEntry f) n m) x).1.1.2 = (tbl m x).1.1.2 /\
    (tbl (alter (setFibEntry f) n m) x).1.2 = (tbl m x).1.2 /\
    (tbl (alter (setFibEntry f) n m) x).2 = (tbl m x).2) as H.
  { intros x. rewrite tbl_modify. case_bool_decide; [|done]. subst. unfold tbl. by destruct (m !! n). }
  split_and!; [apply map_eq; intros x; rewrite !sc_map_tbl; apply H
              |apply map_eq; intros x; rewrite !meas_map_tbl; apply H|].
  intros x. rewrite !pits_at_tbl. apply H.
Qed.

Lemma ts_ok_setFib f n t :
  ts_ok t -> is_Some (ts_nt t !! n) ->
  (forall e, f = Some e -> fe_prefix e = n /\ wf_fib e) ->
  ts_ok (nte_modify (setFibEntry f) n t).
Proof.
  intros [] Hn Hf. destruct (set_fib_others f n (ts_nt t)) as (H1 & H2 & H3).
  split; simpl; rewrite ?H1, ?H2; try done; try (intros *; rewrite H3; eauto).
  - by apply nt_ok_modify.
  - intros x e. rewrite fib_map_set by done. destruct (decide (n = x)) as [->|];
      [rewrite lookup_partial_alter_eq; auto|rewrite lookup_partial_alter_ne by done; auto].
Qed.

Lemma fib_node m n f : fib_map m !! n = Some f -> exists e, m !! n = Some e /\ nte_fib e = Some f.
Proof. unfold fib_map. rewrite lookup_omap. intros (e & ? & ?)%bind_Some. eauto. Qed.

Lemma nt_get_fib m n : nt_get m n ≫= nte_fib = fib_map m !! n.
Proof. unfold fib_map. by rewrite nt_get_map, lookup_omap. Qed.

Lemma fib_of_Some p t :
  fib_of (Some p) t = match fib_map (ts_nt t) !! p with Some f => f | None => s_emptyEntry end.
Proof. unfold fib_of. by rewrite <- nt_get_fib. Qed.

Lemma hit_fib m p : hit m nteHasFibEntry p <-> is_Some (fib_map m !! p).
Proof.
  unfold hit, nteHasFibEntry, fib_map. rewrite lookup_omap. destruct (m !! p) as [e|]; simpl.
  - split; [intros (e' & [= <-] & H); by destruct (nte_fib e)|].
    intros [f Hf]. exists e. by rewrite Hf.
  - split; [by intros (? & ? & _)|by intros []].
Qed.

(** The entry a longest prefix match has to give: that of the longest prefix of the name in
    the map, or the empty entry. *)
Definition fib_lpm_spec (m : gmap Name FibEntry) (name : Name) (r : FibEntry) : Prop :=
  (exists p, p `prefix_of` name /\ m !! p = Some r /\
     forall q, q `prefix_of` name -> is_Some (m !! q) -> (length q <= length p)%nat) \/
  (r = s_emptyEntry /\ forall q, q `prefix_of` name -> m !! q = None).

Lemma fib_of_lpm name t :
  ts_ok t -> fib_lpm_spec (fib_map (ts_nt t)) name (fib_of (lpm_name name nteHasFibEntry (ts_nt t)) t).
Proof.
  intros Hok. pose proof (ts_tree _ Hok) as Ht.
  destruct (lpm_name name nteHasFibEntry (ts_nt t)) as [p|] eqn:E.
  - left. apply lpm_name_spec in E as (Hp & Hh & Hmax); [|done]. exists p. split; [done|]. split.
    + rewrite fib_of_Some. apply hit_fib in Hh as [f Hf]. by rewrite Hf.
    + intros q Hq Hs. by apply Hmax; [|apply hit_fib].
  - right. split; [done|]. intros q Hq. apply eq_None_not_Some. intros Hs%hit_fib.
    assert (findAllMatches name nteHasFibEntry (ts_nt t) = []) as H by (unfold findAllMatches; by rewrite E).
    assert (q ∈ findAllMatches name nteHasFibEntry (ts_nt t)) as Hin by (by apply findAllMatches_spec).
    rewrite H in Hin. by apply not_elem_of_nil in Hin.
Qed.

(** C30: FIB lookup: for a name, and for a PIT entry (whose node may be shallower than its
    name), the FIB gives the entry of the longest prefix of the name that has one, and its
    empty entry exactly when no prefix has one. *)
Theorem fib_lookup_spec (name : Name) (p : PitPtr) (e : PitEntry) (t : TableState) :
  ts_ok t -> ts_pit t !! p = Some e -> is_Some (pe_nte e) ->
  fib_lpm_spec (fib_map (ts_nt t)) name (Fib_lpm_name name t) /\
  fib_lpm_spec (fib_map (ts_nt t)) (pe_name e) (Fib_lpm_pit e t).
Proof.
  intros Hok Hp [nte Hn]. split; [by apply fib_of_lpm|].
  unfold Fib_lpm_pit. rewrite Hn. simpl.
  rewrite lpm_pit_name; [by apply fib_of_lpm|by apply ts_tree| |].
  - assert (p ∈ pits_at (ts_nt t) nte) as Hin by (apply (ts_pits _ Hok); eauto).
    unfold pits_at in Hin. destruct (ts_nt t !! nte); [by eexists|]. by apply not_elem_of_nil in Hin.
  - rewrite (ts_pit_node _ Hok p e nte Hp Hn). apply prefix_take. exists (pit_depth (pe_name e)).
    split; [unfold pit_depth; lia|done].
Qed.

(** [m_nItems] counts the entries. *)
Definition fib_counted (t : TableState) : Prop := ts_nFib t = Z.of_nat (size (fib_map (ts_nt t))).

Lemma ts_ok_set_nFib n t : ts_ok t -> ts_ok (set_nFib n t).
Proof. by intros []. Qed.

Lemma fib_insert_map prefix t :
  ts_ok t -> (length prefix <= getMaxDepth)%nat ->
  let '(t', isNew) := Fib_insert prefix t in
  ts_ok t' /\ is_Some (ts_nt t' !! prefix) /\
  isNew = bool_decide (fib_map (ts_nt t) !! prefix = None) /\
  fib_map (ts_nt t') = (if isNew then <[prefix := FibEntry_new prefix]> (fib_map (ts_nt t)) else fib_map (ts_nt t)) /\
  ts_nFib t' = (if isNew then ts_nFib t + 1 else ts_nFib t)%Z.
Proof.
  intros Hok Hd. pose proof (ts_ok_lookup prefix (length prefix) t Hok ltac:(done) Hd) as Hok'.
  pose proof (tbl_eq_lookup prefix (length prefix) (ts_nt t) (ts_tree _ Hok) ltac:(done) Hd) as Heq.
  assert (is_Some ((nt_lookup prefix (length prefix) (ts_nt t)).1 !! prefix)) as Hin.
  { destruct (nt_lookup_ok prefix (length prefix) (ts_nt t)) as (_ & _ & H & _); [apply Hok|done|done|].
    by rewrite firstn_all in H. }
  unfold Fib_insert. rewrite nt_get_fib.
  assert (fib_map (ts_nt (ts_lookup prefix (length prefix) t)) = fib_map (ts_nt t)) as HF
    by exact (fib_map_proper _ _ Heq).
  change (ts_nFib t) with (ts_nFib (ts_lookup prefix (length prefix) t)).
  change (nt_lookup prefix (length prefix) (ts_nt t)).1 with (ts_nt (ts_lookup prefix (length prefix) t)) in Hin.
  set (t1 := ts_lookup prefix (length prefix) t) in *. clearbody t1.
  rewrite HF. destruct (fib_map (ts_nt t) !! prefix) as [f|] eqn:Ef; simpl.
  - by rewrite HF.
  - split_and!.
    + apply ts_ok_set_nFib, ts_ok_setFib; [done|done|].
      intros e [= <-]. split; [done|apply wf_fib_new].
    + rewrite lookup_alter_eq. by apply fmap_is_Some.
    + done.
    + rewrite fib_map_set by done. by rewrite HF.
    + done.
Qed.


Lemma fib_erase_map nte b t :
  ts_ok t -> is_Some (ts_nt t !! nte) ->
  let t' := Fib_erase_nte nte b t in
  ts_ok t' /\ fib_map (ts_nt t') = delete nte (fib_map (ts_nt t)) /\ ts_nFib t' = (ts_nFib t - 1)%Z.
Proof.
  intros Hok Hin t'. assert (ts_ok (nte_modify (setFibEntry None) nte t)) as Hok' by (by apply ts_ok_setFib).
  subst t'. unfold Fib_erase_nte. destruct b; simpl.
  - destruct (eraseIfEmpty_ok nte (alter (setFibEntry None) nte (ts_nt t))) as [_ H2]; [apply (ts_tree _ Hok')|].
    split_and!; [by apply ts_ok_set_nFib, ts_ok_eraseIfEmpty| |done].
    rewrite (fib_map_proper _ _ H2). by rewrite fib_map_set.
  - split_and!; [by apply ts_ok_set_nFib|by rewrite fib_map_set|done].
Qed.

Lemma set_fib_counted f g n t :
  fib_counted t -> is_Some (ts_nt t !! n) -> fib_map (ts_nt t) !! n = Some g ->
  fib_counted (nte_modify (setFibEntry (Some f)) n t).
Proof.
  unfold fib_counted. intros Hc Hin Hg. simpl. rewrite Hc, fib_map_set by done.
  change (partial_alter _ n _) with (<[n := f]> (fib_map (ts_nt t))). rewrite map_size_insert_Some; eauto.
Qed.

Lemma fib_insert_ok prefix t :
  ts_ok t -> fib_counted t -> (length prefix <= getMaxDepth)%nat ->
  let '(t', isNew) := Fib_insert prefix t in
  ts_ok t' /\ fib_counted t' /\
  fib_map (ts_nt t') = match fib_map (ts_nt t) !! prefix with
                       | Some _ => fib_map (ts_nt t)
                       | None => <[prefix := FibEntry_new prefix]> (fib_map (ts_nt t)) end.
Proof.
  intros Hok Hc Hd.
  pose proof (fib_insert_map prefix t Hok Hd) as H. destruct (Fib_insert prefix t) as [t' isNew].
  destruct H as (H1 & _ & -> & H3 & H4). unfold fib_counted in *. rewrite H3, H4, Hc.
  destruct (fib_map (ts_nt t) !! prefix) eqn:E; simpl; split_and!; try done.
  rewrite map_size_insert_None by done. lia.
Qed.

Lemma fib_add_ok prefix face cost e t :
  ts_ok t -> fib_counted t -> fib_map (ts_nt t) !! prefix = Some e ->
  let t' := (Fib_addOrUpdateNextHop prefix face cost t).1 in
  ts_ok t' /\ fib_counted t' /\
  fib_map (ts_nt t') = <[prefix := (fe_addOrUpdateNextHop face cost e).1.1]> (fib_map (ts_nt t)).
Proof.
  intros Hok Hc He. unfold Fib_addOrUpdateNextHop. rewrite nt_get_fib, He. simpl.
  pose proof (fib_node _ _ _ He) as (x & Hx & _). assert (is_Some (ts_nt t !! prefix)) as Hin by by eexists.
  destruct (ts_fib_ok _ Hok _ _ He) as [Hp Hwf].
  pose proof (addOrUpdateNextHop_wf face cost e Hwf) as [Hwf' Hp'].
  destruct (fe_addOrUpdateNextHop face cost e) as [[e' it] isNew]. simpl in *. split_and!.
  + apply ts_ok_setFib; [done|done|]. intros ? [= <-]. split; [congruence|done].
  + by eapply set_fib_counted.
  + by rewrite fib_map_set.
Qed.

Lemma fib_remove_ok prefix face e t :
  ts_ok t -> fib_counted t -> fib_map (ts_nt t) !! prefix = Some e ->
  let '(t', r) := Fib_removeNextHop prefix face t in
  ts_ok t' /\ fib_counted t' /\
  fib_map (ts_nt t') = match r with
                       | NO_SUCH_NEXTHOP => fib_map (ts_nt t)
                       | NEXTHOP_REMOVED => <[prefix := (fe_removeNextHop face e).1]> (fib_map (ts_nt t))
                       | FIB_ENTRY_REMOVED => delete prefix (fib_map (ts_nt t)) end /\
  (r = FIB_ENTRY_REMOVED <-> hasNextHop e face = true /\ fe_nextHops (fe_removeNextHop face e).1 = []).
Proof.
  intros Hok Hc He. unfold Fib_removeNextHop. rewrite nt_get_fib, He. simpl.
  pose proof (fib_node _ _ _ He) as (x & Hx & _). assert (is_Some (ts_nt t !! prefix)) as Hin by by eexists.
  destruct (ts_fib_ok _ Hok _ _ He) as [Hp Hwf]. pose proof (wf_removeNextHop face e Hwf) as Hwf'.
  unfold fe_removeNextHop, hasNextHop in *.
  destruct (findNextHop e face) as [k|] eqn:Ek; simpl in *.
  + set (e' := set_nextHops _ e) in *.
    assert (ts_ok (nte_modify (setFibEntry (Some e')) prefix t)) as Hok'.
    { apply ts_ok_setFib; [done|done|]. by intros ? [= <-]. }
    unfold hasNextHops. destruct (fe_nextHops e') as [|h l] eqn:Eh; simpl.
    * destruct (fib_erase_map prefix false (nte_modify (setFibEntry (Some e')) prefix t) Hok') as (H1 & H2 & H3);
        [simpl; rewrite lookup_alter_eq; by apply fmap_is_Some|].
      unfold fib_counted in *. simpl in *. rewrite H2, fib_map_set by done.
      change (partial_alter _ prefix _) with (<[prefix := e']> (fib_map (ts_nt t))).
      rewrite delete_insert_eq. split_and!; [done| |done|done].
      rewrite map_size_delete, He, Hc. assert (size (fib_map (ts_nt t)) <> 0%nat); [|lia].
      intros E%map_size_empty_inv. by rewrite E in He.
    * split_and!; [done|by eapply set_fib_counted|by rewrite fib_map_set|].
      unfold e' in Eh. simpl in Eh. rewrite Eh. naive_solver.
  + assert (ts_ok (nte_modify (setFibEntry (Some e)) prefix t)) as Hok'.
    { apply ts_ok_setFib; [done|done|]. by intros ? [= <-]. }
    split_and!; [done|by eapply set_fib_counted| |naive_solver].
    rewrite fib_map_set by done. change (partial_alter _ prefix _) with (<[prefix := e]> (fib_map (ts_nt t))).
    by rewrite insert_id.
Qed.

(** C31: The FIB as a map from prefixes to entries: [insert] adds an empty entry where there
    is none, [addOrUpdateNextHop] and [removeNextHop] change the entry of their prefix only,
    and the entry disappears with its last nexthop; the invariant of the tables is kept and
    [m_nItems] stays the number of entries. *)
Theorem fib_update_spec (prefix : Name) (face : FacePtr) (cost : N) (t : TableState) :
  ts_ok t -> fib_counted t -> (length prefix <= getMaxDepth)%nat ->
  (let '(t', isNew) := Fib_insert prefix t in
   ts_ok t' /\ fib_counted t' /\
   fib_map (ts_nt t') = match fib_map (ts_nt t) !! prefix with
                        | Some _ => fib_map (ts_nt t)
                        | None => <[prefix := FibEntry_new prefix]> (fib_map (ts_nt t)) end) /\
  (forall e, fib_map (ts_nt t) !! prefix = Some e ->
     let t' := (Fib_addOrUpdateNextHop prefix face cost t).1 in
     ts_ok t' /\ fib_counted t' /\
     fib_map (ts_nt t') = <[prefix := (fe_addOrUpdateNextHop face cost e).1.1]> (fib_map (ts_nt t))) /\
  (forall e, fib_map (ts_nt t) !! prefix = Some e ->
     let '(t', r) := Fib_removeNextHop prefix face t in
     ts_ok t' /\ fib_counted t' /\
     fib_map (ts_nt t') = match r with
                          | NO_SUCH_NEXTHOP => fib_map (ts_nt t)
                          | NEXTHOP_REMOVED => <[prefix := (fe_removeNextHop face e).1]> (fib_map (ts_nt t))
                          | FIB_ENTRY_REMOVED => delete prefix (fib_map (ts_nt t)) end /\
     (r = FIB_ENTRY_REMOVED <-> hasNextHop e face = true /\ fe_nextHops (fe_removeNextHop face e).1 = [])).
Proof.
  intros Hok Hc Hd. split_and!.
  - by apply fib_insert_ok.
  - intros e He. by apply fib_add_ok.
  - intros e He. by apply fib_remove_ok.
Qed.

Lemma fib_update_spec_witness :
  ts_ok ts_empty /\ fib_counted ts_empty /\ fib_counted (Fib_insert [generic [x61]] ts_empty).1.
Proof.
  assert (fib_counted ts_empty) as Hc by reflexivity. split; [exact ts_ok_empty|]. split; [exact Hc|].
  destruct (fib_update_spec [generic [x61]] 256 10 ts_empty) as [H _];
    [exact ts_ok_empty|exact Hc|apply Nat.leb_le; reflexivity|].
  destruct (Fib_insert [generic [x61]] ts_empty) as [t' isNew]. apply H.
Defined.

(** [Fib::erase] of a prefix whose node has no FIB entry still counts one entry less: after
    the insertion of /a/a and the erasure of /a the FIB has one entry and [m_nItems] is 0. *)
Lemma fib_erase_miscounts :
  let t := Fib_erase [generic [x61]] (Fib_insert [generic [x61]; generic [x61]] ts_empty).1 in
  size (fib_map (ts_nt t)) = 1%nat /\ ts_nFib t = 0%Z /\ ~ fib_counted t.
Proof. cbn zeta. unfold fib_counted. split_and!; [by vm_compute|by vm_compute|]. intros H. by vm_compute in H. Qed.
