(* ===== verification/Pit.v ===== *)
(** * The Pending Interest Table (table/pit.cpp)

    Find-or-insert of the entry for an Interest, the search of all entries a Data
    satisfies, and erasure, on the name tree and the heap of entries. *)

From S2P Require Import Prelude Name Packet FaceKeyed PitEntry FibEntry NodeStore NameTree NameTreeInv Tables Fib.

Definition nteHasPitEntries : EntrySelector := fun _ e => match nte_pits e with [] => false | _ => true end.

(** The [find_if] over the PIT entries of a node. *)
Fixpoint find_match (i : Interest) (nteDepth : nat) (l : list PitPtr) (t : TableState) : option PitPtr :=
  match l with
  | [] => None
  | p :: l' =>
      match ts_pit t !! p with
      | Some e => if canMatch e i nteDepth then Some p else find_match i nteDepth l' t
      | None => find_match i nteDepth l' t
      end
  end.

(** [nte->insertPitEntry(make_shared<Entry>(interest))]. *)
Definition new_pit_entry (i : Interest) (nte : Name) (t : TableState) : TableState * PitPtr :=
  let p := ts_nextPit t in
  let e := set_nte (Some nte) (PitEntry_new i) in
  let m := ns_modify (insertPitEntry p) nte (ts_nt t) in
  (mkTS m (<[p := e]> (ts_pit t)) (p + 1) (ts_nFib t) (ts_nPit t + 1) (ts_nMeas t) (ts_nSc t), p).

(** [Pit::findOrInsert]: the entry and whether it is new. *)
Definition Pit_findOrInsert (i : Interest) (allowInsert : bool) (t : TableState)
  : TableState * (option PitPtr * bool) :=
  let name := i_name i in
  let nteDepth := pit_depth name in
  let '(t, nte) := if allowInsert then (ts_lookup name nteDepth t, Some (take nteDepth name))
                   else (t, findExactMatch name nteDepth (ts_nt t)) in
  match nte with
  | None => (t, (None, true))
  | Some nte =>
      match find_match i nteDepth (pits_at (ts_nt t) nte) t with
      | Some p => (t, (Some p, false))
      | None =>
          if negb allowInsert then (t, (None, true))
          else let '(t, p) := new_pit_entry i nte t in (t, (Some p, true))
      end
  end.

(** [Pit::find] and [Pit::insert]. *)
Definition Pit_find (i : Interest) (t : TableState) : option PitPtr := (Pit_findOrInsert i false t).2.1.
Definition Pit_insert (i : Interest) (t : TableState) : TableState * (option PitPtr * bool) :=
  Pit_findOrInsert i true t.

(** [Pit::findAllDataMatches]. *)
Definition pit_matches (d : Data) (t : TableState) (p : PitPtr) : bool :=
  match ts_pit t !! p with Some e => matchesData (pe_interest e) d | None => false end.
Definition Pit_findAllDataMatches (d : Data) (t : TableState) : list PitPtr :=
  mjoin ((fun n => filter (fun p => pit_matches d t p = true) (pits_at (ts_nt t) n))
         <$> findAllMatches (d_name d) nteHasPitEntries (ts_nt t)).

(** [Pit::erase]. *)
Definition Pit_erase (p : PitPtr) (canDeleteNte : bool) (t : TableState) : TableState :=
  match ts_pit t !! p ≫= pe_nte with
  | None => t
  | Some nte =>
      let t := nte_modify (erasePitEntry p) nte t in
      let t := pit_modify (set_nte None) p t in
      let t := if canDeleteNte then ts_eraseIfEmpty nte t else t in
      set_nPit (ts_nPit t - 1) t
  end.

Definition Pit_deleteInOutRecords (p : PitPtr) (face : FacePtr) (t : TableState) : TableState :=
  pit_modify (deleteInOutRecords face) p t.

(** ** Where entries are *)

(** The entries the PIT holds. *)
Definition attached (t : TableState) (p : PitPtr) (e : PitEntry) : Prop :=
  ts_pit t !! p = Some e /\ is_Some (pe_nte e).

Lemma attached_node t p e :
  ts_ok t -> attached t p e -> pe_nte e = Some (pit_node (pe_name e)) /\ p ∈ pits_at (ts_nt t) (pit_node (pe_name e)).
Proof.
  intros Hok [Hp [n Hn]]. pose proof (ts_pit_node _ Hok p e n Hp Hn) as <-. split; [done|].
  apply (ts_pits _ Hok). eauto.
Qed.

Lemma pits_at_attached t n p :
  ts_ok t -> p ∈ pits_at (ts_nt t) n -> exists e, attached t p e /\ pit_node (pe_name e) = n.
Proof.
  intros Hok Hp. apply (ts_pits _ Hok) in Hp as (e & He & Hn). exists e. split; [split; [done|by eexists]|].
  symmetry. by eapply ts_pit_node.
Qed.

Lemma pits_at_node m n p : p ∈ pits_at m n -> is_Some (m !! n).
Proof. unfold pits_at. destruct (m !! n); [by eexists|]. by intros ?%not_elem_of_nil. Qed.

Lemma pit_depth_le name : (pit_depth name <= length name)%nat.
Proof. unfold pit_depth. lia. Qed.
Lemma pit_depth_max name : (pit_depth name <= getMaxDepth)%nat.
Proof. unfold pit_depth. lia. Qed.

Lemma pit_node_length name : length (pit_node name) = pit_depth name.
Proof. unfold pit_node. rewrite length_take. pose proof (pit_depth_le name). lia. Qed.

(** Entries of the same node: the components above the node are equal. *)
Lemma same_node_take n m : pit_node n = pit_node m -> take (pit_depth m) n = take (pit_depth m) m.
Proof.
  intros H. pose proof (f_equal length H) as L. rewrite !pit_node_length in L.
  rewrite <- L at 1. exact H.
Qed.

Lemma find_match_spec i t l :
  ts_ok t -> (forall p, p ∈ l -> exists e, attached t p e /\ pit_node (pe_name e) = pit_node (i_name i)) ->
  match find_match i (pit_depth (i_name i)) l t with
  | Some p => p ∈ l /\ exists e, attached t p e /\ same_request i (pe_interest e)
  | None => forall p e, p ∈ l -> attached t p e -> ~ same_request i (pe_interest e)
  end.
Proof.
  intros Hok. induction l as [|p l IH]; intros Hl; simpl; [set_solver|].
  destruct (Hl p) as (e & He & Hn); [by left|]. pose proof He as [Hp _]. rewrite Hp.
  assert (canMatch e i (pit_depth (i_name i)) = true <-> same_request i (pe_interest e)) as Hm
    by (by apply canMatch_spec, same_node_take).
  destruct (canMatch e i _).
  - split; [by left|]. exists e. split; [done|by apply Hm].
  - specialize (IH (fun q Hq => Hl q (list_elem_of_further _ _ _ Hq))).
    destruct (find_match _ _ l t); [destruct IH; split; [by right|done]|].
    intros q f [->|Hq]%elem_of_cons Hf; [|by eapply IH]. intros Hs.
    destruct Hf as [Hf _]. rewrite Hp in Hf. simplify_eq. by apply Hm in Hs.
Qed.

(** ** Writing PIT entries *)

(** Writes that keep the entry's request and place. *)
Definition keeps_place (f : PitEntry -> PitEntry) : Prop :=
  forall e, pe_nte (f e) = pe_nte e /\ pe_interest (f e) = pe_interest e.

Lemma ts_ok_pit_modify f p t :
  keeps_place f -> (forall e, ts_pit t !! p = Some e -> wf_entry e -> wf_entry (f e)) ->
  ts_ok t -> ts_ok (pit_modify f p t).
Proof.
  intros Hf Hwf Hok.
  assert (forall q e, ts_pit (pit_modify f p t) !! q = Some e -> exists e', ts_pit t !! q = Some e' /\
            pe_nte e = pe_nte e' /\ pe_interest e = pe_interest e' /\ wf_entry e) as Hinv.
  { intros q e. simpl. rewrite lookup_alter. case_decide as D; [subst q|].
    - intros (e' & He' & ->)%fmap_Some. exists e'. destruct (Hf e') as [H1 H2].
      split_and!; [done|done|done|]. apply Hwf; [done|by eapply ts_pit_wf].
    - intros He. exists e. split_and!; [done..|by eapply ts_pit_wf]. }
  assert (forall q e', ts_pit t !! q = Some e' -> exists e, ts_pit (pit_modify f p t) !! q = Some e /\
            pe_nte e = pe_nte e') as Hfwd.
  { intros q e' He'. simpl. rewrite lookup_alter. case_decide; [subst; rewrite He'; simpl; eexists; split; [done|apply Hf]|eauto]. }
  split; try (by apply Hok).
  - intros n q. change (ts_nt (pit_modify f p t)) with (ts_nt t). rewrite (ts_pits _ Hok n q). split.
    + intros (e & He & Hn). destruct (Hfwd q e He) as (e' & He' & E). exists e'. split; [done|congruence].
    + intros (e & (e' & He' & E & _)%Hinv & Hn). exists e'. split; [done|congruence].
  - intros q e n (e' & He' & E & E' & _)%Hinv Hn. unfold pe_name. rewrite E'. eapply (ts_pit_node _ Hok); [done|congruence].
  - intros q e (e' & _ & _ & _ & W)%Hinv. done.
  - intros q r e e' (x & Hx & E1 & E2 & _)%Hinv (y & Hy & E3 & E4 & _)%Hinv.
    rewrite E1, E2, E3, E4. by eapply (ts_pit_unique _ Hok).
  - intros q (e & (e' & He' & _)%Hinv). apply (ts_fresh _ Hok). by eexists.
Qed.

Lemma keeps_place_records face : keeps_place (deleteInOutRecords face).
Proof. done. Qed.

Lemma pits_links p : keeps_links (insertPitEntry p) /\ keeps_links (erasePitEntry p).
Proof. done. Qed.

Lemma index_of_spec p l :
  match index_of p l with Some i => l !! i = Some p | None => p ∉ l end.
Proof.
  induction l as [|x l IH]; simpl; [set_solver|]. destruct (N.eqb_spec x p) as [->|H]; [done|].
  destruct (index_of p l); simpl; [done|]. by apply not_elem_of_cons.
Qed.

(** Moving the last element into the place of the erased one loses nothing else. *)
Lemma swap_remove_perm p l : p ∈ l -> l ≡ₚ p :: swap_remove p l.
Proof.
  intros Hp. unfold swap_remove. pose proof (index_of_spec p l) as Hi.
  destruct (index_of p l) as [i|]; [|done]. destruct l as [|b l _] using rev_ind; [done|].
  rewrite last_snoc, length_app. simpl. rewrite Nat.add_sub. destruct (decide (i < length l)%nat) as [Hl|Hl].
  - rewrite lookup_app_l in Hi by done. rewrite insert_app_l, take_app_length' by (by rewrite ?length_insert).
    assert (l ≡ₚ p :: (take i l ++ drop (S i) l)) as H1
      by (rewrite <- (take_drop_middle l i p Hi) at 1; by rewrite Permutation_middle).
    assert (<[i:=b]> l ≡ₚ b :: (take i l ++ drop (S i) l)) as H2
      by (rewrite insert_take_drop by done; by rewrite Permutation_middle).
    set (X := take i l ++ drop (S i) l) in *. clearbody X. rewrite H2, H1. simpl.
    apply perm_skip. by rewrite <- Permutation_cons_append.
  - rewrite lookup_app_r in Hi by lia. apply list_lookup_singleton_Some in Hi as [Hi ->].
    rewrite insert_app_r_alt by lia. rewrite take_app_length. by rewrite <- Permutation_cons_append.
Qed.

Lemma swap_remove_spec p l : NoDup l -> NoDup (swap_remove p l) /\ forall q, q ∈ swap_remove p l <-> q ∈ l /\ q <> p.
Proof.
  intros Hnd. destruct (decide (p ∈ l)) as [Hp|Hp].
  - apply swap_remove_perm in Hp as HP. set (r := swap_remove p l) in *. clearbody r.
    rewrite HP in Hnd. apply NoDup_cons in Hnd as [Hn Hnd].
    split; [done|]. intros q. rewrite HP, elem_of_cons. naive_solver.
  - unfold swap_remove. pose proof (index_of_spec p l) as Hi.
    destruct (index_of p l) as [i|]; [by apply list_elem_of_lookup_2 in Hi|]. split; [done|]. naive_solver.
Qed.

(** Rewriting the PIT entries of a node. *)
Section set_pits.
Context (g : list PitPtr -> list PitPtr) (n : Name) (m : NT).
Let f (e : NTE) : NTE := set_ntePits (g (nte_pits e)) e.

Lemma pits_at_set x :
  is_Some (m !! n) -> pits_at (alter f n m) x = if bool_decide (x = n) then g (pits_at m n) else pits_at m x.
Proof.
  intros [e He]. rewrite !pits_at_tbl, tbl_modify. unfold tbl. by case_bool_decide; rewrite ?He.
Qed.

Lemma set_pits_others :
  fib_map (alter f n m) = fib_map m /\ sc_map (alter f n m) = sc_map m /\ meas_map (alter f n m) = meas_map m.
Proof.
  assert (forall x, (tbl (alter f n m) x).1.1.1 = (tbl m x).1.1.1 /\
    (tbl (alter f n m) x).1.2 = (tbl m x).1.2 /\ (tbl (alter f n m) x).2 = (tbl m x).2) as H.
  { intros x. rewrite tbl_modify. case_bool_decide; [|done]. subst. unfold tbl. by destruct (m !! n). }
  split_and!; apply map_eq; intros x; rewrite ?fib_map_tbl, ?sc_map_tbl, ?meas_map_tbl; apply H.
Qed.
End set_pits.

(** ** [findOrInsert] *)

Lemma fresh_not_attached t e : ts_ok t -> ts_pit t !! ts_nextPit t = Some e -> False.
Proof. intros Hok He. assert (ts_nextPit t < ts_nextPit t)%N; [|lia]. apply (ts_fresh _ Hok). by eexists. Qed.

Lemma new_pit_entry_ok i t :
  ts_ok t -> is_Some (ts_nt t !! pit_node (i_name i)) ->
  (forall p e, attached t p e -> ~ same_request i (pe_interest e)) ->
  ts_ok (new_pit_entry i (pit_node (i_name i)) t).1.
Proof.
  intros Hok Hin Hno. set (n := pit_node (i_name i)) in *. set (p := ts_nextPit t).
  pose proof (pits_at_set (fun l => l ++ [p]) n (ts_nt t)) as HP.
  destruct (set_pits_others (fun l => l ++ [p]) n (ts_nt t)) as (H1 & H2 & H3).
  change (fun e => set_ntePits (nte_pits e ++ [p]) e) with (insertPitEntry p) in *.
  assert (forall e, ts_pit t !! p = Some e -> False) as Hfresh by (intros e; by apply fresh_not_attached).
  assert (forall q, p ∉ pits_at (ts_nt t) q) as Hnp.
  { intros q Hq. apply (ts_pits _ Hok) in Hq as (e & He & _). by eapply Hfresh. }
  unfold new_pit_entry. split; simpl; fold p; rewrite ?H1, ?H2, ?H3; try (by apply Hok).
  - apply nt_ok_modify; [done|apply Hok].
  - intros x q. rewrite HP by done. case_bool_decide as D.
    + subst x. rewrite elem_of_app, list_elem_of_singleton, (ts_pits _ Hok). split.
      * intros [(e & He & Hn)| ->]; [exists e|exists (set_nte (Some n) (PitEntry_new i))].
        -- rewrite lookup_insert_ne; [done|]. intros <-. by eapply Hfresh.
        -- by rewrite lookup_insert_eq.
      * intros (e & He & Hn). apply lookup_insert_Some in He as [[<- <-]|[Hne He]]; [by right|left; eauto].
    + rewrite (ts_pits _ Hok). split; intros (e & He & Hn); exists e; (split; [|done]).
      * rewrite lookup_insert_ne; [done|]. intros <-. by eapply Hfresh.
      * apply lookup_insert_Some in He as [[<- <-]|[Hne He]]; [|done]. simpl in Hn. congruence.
  - intros x. rewrite HP by done. case_bool_decide; [|by apply Hok].
    apply NoDup_app. split_and!; [by apply Hok| |apply NoDup_singleton].
    intros q Hq ->%list_elem_of_singleton. by eapply Hnp.
  - intros q e x He Hn. apply lookup_insert_Some in He as [[<- <-]|[Hne He]].
    + simpl in Hn. by simplify_eq.
    + by eapply (ts_pit_node _ Hok).
  - intros q e He. apply lookup_insert_Some in He as [[<- <-]|[Hne He]]; [auto with ndn|by eapply ts_pit_wf].
  - intros q r e e' He He' Ha Ha' Hs.
    apply lookup_insert_Some in He. apply lookup_insert_Some in He'.
    destruct He as [[<- <-]|[Hne He]], He' as [[<- <-]|[Hne' He']]; [done| | |by eapply (ts_pit_unique _ Hok)].
    + exfalso. by eapply (Hno r e').
    + exfalso. eapply (Hno q e); [done|]. by destruct Hs as (?&?&?).
  - intros q. rewrite lookup_insert_is_Some'. intros [<-|Hq]; [lia|]. apply (ts_fresh _ Hok) in Hq. lia.
Qed.

Lemma pit_findOrInsert_ok (i : Interest) (allowInsert : bool) (t : TableState) :
  ts_ok t ->
  let '(t', (r, isNew)) := Pit_findOrInsert i allowInsert t in
  ts_ok t' /\
  match r with
  | Some p => exists e, attached t' p e /\ same_request i (pe_interest e) /\
      (if isNew then ts_pit t !! p = None /\ e = set_nte (Some (pit_node (i_name i))) (PitEntry_new i)
       else ts_pit t !! p = Some e)
  | None => allowInsert = false /\ isNew = true
  end /\
  (isNew = false <-> exists p e, attached t p e /\ same_request i (pe_interest e)) /\
  (forall p e, ts_pit t !! p = Some e -> ts_pit t' !! p = Some e).
Proof.
  intros Hok. unfold Pit_findOrInsert.
  assert (forall t1, ts_ok t1 -> ts_pit t1 = ts_pit t -> forall l, (forall p, p ∈ l <-> p ∈ pits_at (ts_nt t1) (pit_node (i_name i))) ->
    match find_match i (pit_depth (i_name i)) l t1 with
    | Some p => exists e, attached t1 p e /\ same_request i (pe_interest e)
    | None => forall p e, attached t1 p e -> ~ same_request i (pe_interest e)
    end) as Hfind.
  { intros t1 Hok1 _ l Hl. pose proof (find_match_spec i t1 l Hok1) as H.
    destruct (find_match i _ l t1) as [p|].
    - apply H. intros q Hq. apply pits_at_attached; [done|]. by apply Hl.
    - intros p e He Hs. apply (H (fun q Hq => pits_at_attached t1 _ q Hok1 (proj1 (Hl q) Hq)) p e); [|done|done].
      apply Hl. replace (i_name i) with (pe_name e) by (symmetry; apply Hs). by apply attached_node. }
  destruct allowInsert.
  - set (t1 := ts_lookup (i_name i) (pit_depth (i_name i)) t).
    assert (ts_ok t1) as Hok1 by (apply ts_ok_lookup; auto using pit_depth_le, pit_depth_max).
    assert (is_Some (ts_nt t1 !! pit_node (i_name i))) as Hin.
    { apply nt_lookup_ok; auto using pit_depth_le, pit_depth_max. apply Hok. }
    fold (pit_node (i_name i)). specialize (Hfind t1 Hok1 eq_refl _ (fun p => iff_refl _)).
    destruct (find_match _ _ _ t1) as [p|] eqn:Ef; simpl.
    + destruct Hfind as (e & He & Hs). split_and!; [done| | |done].
      * exists e. split_and!; [done|done|apply He].
      * split; [|done]. intros _. exists p, e. by split.
    + pose proof (new_pit_entry_ok i t1 Hok1 Hin Hfind) as Hok2. unfold new_pit_entry in *. simpl in *.
      assert (ts_pit t !! ts_nextPit t = None) as Hnone.
      { apply eq_None_not_Some. intros [e He]. exact (fresh_not_attached t e Hok He). }
      split_and!; [done| | |].
      * eexists. split_and!; [split; [apply lookup_insert_eq|by eexists]|done|done|done].
      * split; [done|]. intros (q & e & He & Hs). by destruct (Hfind q e He Hs).
      * intros q e He. rewrite lookup_insert_ne; [done|]. intros <-. change (ts_nextPit t1) with (ts_nextPit t) in He. congruence.
  - unfold findExactMatch. rewrite (proj2 (Nat.ltb_ge _ _)) by (pose proof (pit_depth_max (i_name i)); lia).
    rewrite Nat.min_r by apply pit_depth_le. cbn [ns_find gmap_store]. fold (pit_node (i_name i)).
    destruct (ts_nt t !! pit_node (i_name i)) as [x|] eqn:Ex.
    + specialize (Hfind t Hok eq_refl _ (fun p => iff_refl _)).
      destruct (find_match _ _ _ t) as [p|] eqn:Ef; simpl.
      * destruct Hfind as (e & He & Hs). split_and!; [done| | |done].
        -- exists e. split_and!; [done|done|apply He].
        -- split; [|done]. intros _. exists p, e. by split.
      * split_and!; [done|done|done| |done]. split; [done|]. intros (q & e & He & Hs). by destruct (Hfind q e He Hs).
    + simpl. split_and!; [done|done|done| |done]. split; [done|]. intros (q & e & He & Hs).
      apply attached_node in He as [_ He]; [|done].
      replace (pe_name e) with (i_name i) in He by apply Hs. apply pits_at_node in He. rewrite Ex in He. by destruct He.
Qed.

(** The assertions on the way: [Entry::canMatch] asserts that the entries it is asked about, on
    the node of the Interest, have the name components of that node in common with it; and a
    node that is found when none may be made asserts to be in use, which holds where the name
    tree has no unused nodes. *)
Lemma pit_findOrInsert_asserts i t :
  ts_ok t ->
  (forall p e, p ∈ pits_at (ts_nt t) (pit_node (i_name i)) -> ts_pit t !! p = Some e ->
     take (pit_depth (i_name i)) (pe_name e) = take (pit_depth (i_name i)) (i_name i)) /\
  (no_garbage (ts_nt t) -> forall x, ts_nt t !! pit_node (i_name i) = Some x -> isEmpty x = false).
Proof.
  intros Hok. split; [|by intros Hg x Hx; apply (Hg _ x Hx)].
  intros p e Hp He. apply pits_at_attached in Hp as (e' & [He' [n Hn]] & Hnode); [|done]. rewrite He in He'. injection He' as <-.
  assert (pit_node (pe_name e) = pit_node (i_name i)) as E.
  { destruct (attached_node t p e Hok) as [Hn' _]; [by split; [|exists n]|]. congruence. }
  assert (pit_depth (pe_name e) = pit_depth (i_name i)) as Ed; [|by rewrite <- Ed at 1; exact E].
  apply (f_equal length) in E. unfold pit_node in E. rewrite !length_take in E.
  pose proof (pit_depth_le (pe_name e)). pose proof (pit_depth_le (i_name i)). lia.
Qed.

(** Without permission to insert, nothing is inserted. *)
Lemma pit_findOrInsert_readonly i t : (Pit_findOrInsert i false t).1 = t.
Proof. unfold Pit_findOrInsert. cbn zeta. by repeat case_match. Qed.

(** The only entry that may be added is the one given. *)
Lemma pit_findOrInsert_adds i allowInsert t :
  let '(t', (r, isNew)) := Pit_findOrInsert i allowInsert t in
  forall p, is_Some (ts_pit t' !! p) -> is_Some (ts_pit t !! p) \/ (isNew = true /\ r = Some p).
Proof.
  unfold Pit_findOrInsert. cbn zeta. repeat case_match; simplify_eq/=; auto.
  intros p. unfold new_pit_entry in *. simplify_eq/=. rewrite lookup_insert_is_Some'. intros [->|?]; auto.
Qed.

(** C25: [Pit::findOrInsert]: the PIT has at most one entry per request (name, CanBePrefix,
    MustBeFresh). An Interest whose request has an entry gets that entry, which is not new.
    Otherwise a new entry without records is created and given when insertion is allowed,
    and no entry is given when it is not. Nothing at all changes in the tables when
    insertion is not allowed; entries already there are untouched in any case, no other
    entry is added, and the invariant of the tables is kept. *)
Theorem pit_findOrInsert_spec (i : Interest) (allowInsert : bool) (t : TableState) :
  ts_ok t ->
  let '(t', (r, isNew)) := Pit_findOrInsert i allowInsert t in
  ts_ok t' /\
  match r with
  | Some p => exists e, attached t' p e /\ same_request i (pe_interest e) /\
      (if isNew then allowInsert = true /\ ts_pit t !! p = None /\
                     e = set_nte (Some (pit_node (i_name i))) (PitEntry_new i)
       else ts_pit t !! p = Some e)
  | None => allowInsert = false /\ isNew = true
  end /\
  (isNew = false <-> exists p e, attached t p e /\ same_request i (pe_interest e)) /\
  (forall p e, ts_pit t !! p = Some e -> ts_pit t' !! p = Some e) /\
  (forall p, is_Some (ts_pit t' !! p) -> is_Some (ts_pit t !! p) \/ (isNew = true /\ r = Some p)) /\
  (allowInsert = false -> t' = t).
Proof.
  intros Hok. pose proof (pit_findOrInsert_ok i allowInsert t Hok) as H.
  pose proof (pit_findOrInsert_adds i allowInsert t) as Ha.
  assert (allowInsert = false -> (Pit_findOrInsert i allowInsert t).1 = t) as Hr
    by (intros ->; apply pit_findOrInsert_readonly).
  destruct (Pit_findOrInsert i allowInsert t) as [t' [r isNew]]. simpl in Ha, Hr.
  destruct H as (H1 & H2 & H3 & H4). split_and!; try done. destruct r as [p|]; [|done].
  destruct H2 as (e & He & Hs & H2). exists e. split_and!; [done|done|].
  destruct isNew; [|done]. destruct H2 as [Hn ->]. split_and!; [|done|done].
  destruct allowInsert; [done|]. rewrite Hr in He by done. destruct He as [He _]. congruence.
Qed.

(** ** Data matching *)

Lemma hit_pits m p : hit m nteHasPitEntries p <-> pits_at m p <> [].
Proof.
  unfold hit, nteHasPitEntries, pits_at. destruct (m !! p) as [e|]; simpl.
  - split; [intros (e' & [= <-] & H) E; by rewrite E in H|]. intros H. exists e. by destruct (nte_pits e).
  - split; [by intros (? & ? & _)|done].
Qed.

(** The node of a pending Interest is a prefix of the name of any Data that satisfies it. *)
Lemma matching_node i d :
  length (d_digest d) = DIGEST_SIZE -> matchesData i d = true -> pit_node (i_name i) `prefix_of` d_name d.
Proof.
  intros Hd Hm. apply matchesData_iff in Hm as [Hn _]; [|done].
  assert (pit_node (i_name i) `prefix_of` i_name i) as Hp
    by (apply prefix_take; exists (pit_depth (i_name i)); split; [apply pit_depth_le|done]).
  destruct Hn as [Hn|[Hn|[_ Hn%isPrefixOf_spec]]]; [|by rewrite <- Hn|by etrans].
  unfold pit_node, pit_depth, hasDigest. rewrite Hn. unfold getFullName, append.
  rewrite last_snoc. unfold isImplicitSha256Digest. simpl. rewrite Hd. simpl.
  rewrite length_app. simpl. rewrite Nat.add_sub. rewrite take_app_le by lia.
  apply prefix_take. exists (Nat.min (length (d_name d)) getMaxDepth). split; [lia|done].
Qed.

Lemma findAllDataMatches_sound d t p :
  ts_ok t -> p ∈ Pit_findAllDataMatches d t -> exists e, attached t p e /\ matchesData (pe_interest e) d = true.
Proof.
  intros Hok (l & Hp & Hl)%list_elem_of_join. apply list_elem_of_fmap in Hl as (n & -> & Hn).
  apply list_elem_of_filter in Hp as [Hm Hp]. apply pits_at_attached in Hp as (e & He & _); [|done].
  exists e. split; [done|]. destruct He as [He _]. unfold pit_matches in Hm. by rewrite He in Hm.
Qed.

Lemma findAllDataMatches_elem d t p :
  ts_ok t -> length (d_digest d) = DIGEST_SIZE ->
  p ∈ Pit_findAllDataMatches d t <-> exists e, attached t p e /\ matchesData (pe_interest e) d = true.
Proof.
  intros Hok Hd. split; [by apply findAllDataMatches_sound|]. intros (e & He & Hm). unfold Pit_findAllDataMatches.
  rewrite list_elem_of_join. pose proof (attached_node t p e Hok He) as [_ Hp].
  exists (filter (fun p => pit_matches d t p = true) (pits_at (ts_nt t) (pit_node (pe_name e)))). split.
  - apply list_elem_of_filter. split; [|done]. unfold pit_matches. destruct He as [-> _]. done.
  - apply list_elem_of_fmap. exists (pit_node (pe_name e)). split; [done|].
    apply findAllMatches_spec; [apply Hok|]. split; [by apply matching_node|].
    apply hit_pits. intros E. rewrite E in Hp. by apply not_elem_of_nil in Hp.
Qed.

(** C24: [Pit::findAllDataMatches] returns exactly the entries of the PIT whose Interest the
    Data satisfies: none is missed although only the nodes on the Data's name are visited
    (an Interest with an implicit digest or a name beyond the depth limit is on such a node
    too), and the PIT is not changed. *)
Theorem findAllDataMatches_spec (d : Data) (t : TableState) (p : PitPtr) :
  ts_ok t -> length (d_digest d) = DIGEST_SIZE ->
  p ∈ Pit_findAllDataMatches d t <->
  exists e, attached t p e /\ matchesData (pe_interest e) d = true.
Proof. apply findAllDataMatches_elem. Qed.

(** ** Erasure *)

(** [m_nItems] counts the entries. *)
Definition pit_counted (t : TableState) : Prop :=
  ts_nPit t = Z.of_nat (size (filter (fun kv => is_Some (pe_nte kv.2)) (ts_pit t))).

Lemma pit_erase_ok p b t e :
  ts_ok t -> attached t p e ->
  let t' := Pit_erase p b t in
  ts_ok t' /\ ts_pit t' = <[p := set_nte None e]> (ts_pit t) /\ ts_nPit t' = (ts_nPit t - 1)%Z.
Proof.
  intros Hok He t'. destruct (attached_node t p e Hok He) as [Hn Hin]. pose proof He as [Hp _].
  set (n := pit_node (pe_name e)) in *. pose proof (pits_at_node _ _ _ Hin) as Hnode.
  pose proof (pits_at_set (swap_remove p) n (ts_nt t)) as HP.
  destruct (set_pits_others (swap_remove p) n (ts_nt t)) as (H1 & H2 & H3).
  change (fun e => set_ntePits (swap_remove p (nte_pits e)) e) with (erasePitEntry p) in *.
  set (t1 := pit_modify (set_nte None) p (nte_modify (erasePitEntry p) n t)).
  assert (ts_pit t1 = <[p := set_nte None e]> (ts_pit t)) as Hheap.
  { simpl. apply map_eq. intros q. rewrite lookup_alter, lookup_insert. case_decide; subst; [by rewrite Hp|done]. }
  assert (ts_ok t1) as Hok1.
  { destruct (swap_remove_spec p (pits_at (ts_nt t) n)) as [Hnd Hel]; [by apply Hok|].
    split; rewrite ?Hheap; simpl; rewrite ?H1, ?H2, ?H3; try (by apply Hok).
    - apply nt_ok_modify; [done|apply Hok].
    - intros x q. rewrite HP by done. case_bool_decide as D.
      + subst x. rewrite Hel, (ts_pits _ Hok). split.
        * intros [(f & Hf & Hfn) Hq]. exists f. by rewrite lookup_insert_ne.
        * intros (f & Hf & Hfn). apply lookup_insert_Some in Hf as [[<- <-]|[Hne Hf]]; [done|]. split; [eauto|done].
      + rewrite (ts_pits _ Hok). split; intros (f & Hf & Hfn); exists f; (split; [|done]).
        * rewrite lookup_insert_ne; [done|]. intros <-. rewrite Hp in Hf. simplify_eq.
        * apply lookup_insert_Some in Hf as [[<- <-]|[Hne Hf]]; done.
    - intros x. rewrite HP by done. by case_bool_decide; [|apply Hok].
    - intros q f x Hf Hfn. apply lookup_insert_Some in Hf as [[<- <-]|[Hne Hf]]; [done|by eapply (ts_pit_node _ Hok)].
    - intros q f Hf. apply lookup_insert_Some in Hf as [[<- <-]|[Hne Hf]]; [|by eapply ts_pit_wf].
      apply wf_set_nte. by eapply ts_pit_wf.
    - intros q r f g Hf Hg Ha Ha' Hs. apply lookup_insert_Some in Hf. apply lookup_insert_Some in Hg.
      destruct Hf as [[<- <-]|[Hne Hf]]; [by destruct Ha|]. destruct Hg as [[<- <-]|[Hne' Hg]]; [by destruct Ha'|].
      by eapply (ts_pit_unique _ Hok).
    - intros q. rewrite lookup_insert_is_Some'. intros [<-|Hq]; apply (ts_fresh _ Hok); [by eexists|done]. }
  assert (t' = set_nPit (ts_nPit t - 1) (if b then ts_eraseIfEmpty n t1 else t1)) as ->.
  { unfold t', Pit_erase. rewrite Hp. simpl. rewrite Hn. by destruct b. }
  split_and!; [|by destruct b|by destruct b].
  destruct b; [pose proof (ts_ok_eraseIfEmpty n t1 Hok1) as []|pose proof Hok1 as []]; by split.
Qed.

Lemma findOrInsert_false i t t' p b : Pit_findOrInsert i false t = (t', (Some p, b)) -> b = false.
Proof. unfold Pit_findOrInsert. by repeat case_match; intros; simplify_eq. Qed.

Lemma pit_find_attached i t p :
  ts_ok t -> Pit_find i t = Some p -> exists e, attached t p e /\ same_request i (pe_interest e).
Proof.
  intros Hok. unfold Pit_find. pose proof (pit_findOrInsert_ok i false t Hok) as H.
  destruct (Pit_findOrInsert i false t) as [t' [[q|] b]] eqn:E; [|done]. simpl. intros [= <-].
  assert (b = false) as -> by (by eapply findOrInsert_false).
  assert (t' = t) as ->.
  { revert E. unfold Pit_findOrInsert. by repeat case_match; intros; simplify_eq. }
  destruct H as (_ & (e & He & Hs & _) & _). by exists e.
Qed.

(** [Pit::erase] takes exactly the given entry out of the PIT: every other entry stays
    where it is and as it is, although its node may move its last entry and unused nodes
    disappear; the invariant is kept, [m_nItems] stays the number of entries, and an
    Interest of the erased request finds no entry any more. *)
Theorem pit_erase_spec (p : PitPtr) (e : PitEntry) (canDeleteNte : bool) (t : TableState) :
  ts_ok t -> pit_counted t -> attached t p e ->
  let t' := Pit_erase p canDeleteNte t in
  ts_ok t' /\ pit_counted t' /\
  (forall q f, attached t' q f <-> attached t q f /\ q <> p) /\
  Pit_find (pe_interest e) t' = None.
Proof.
  intros Hok Hc He t'. destruct (pit_erase_ok p canDeleteNte t e Hok He) as (Hok' & Hh & Hn). fold t' in Hok', Hh, Hn.
  assert (forall q f, attached t' q f <-> attached t q f /\ q <> p) as Ha.
  { intros q f. unfold attached. rewrite Hh. split.
    - intros [Hq Hf]. apply lookup_insert_Some in Hq as [[<- <-]|[Hne Hq]]; [by destruct Hf|done].
    - intros [[Hq Hf] Hne]. by rewrite lookup_insert_ne. }
  split_and!; [done| |done|].
  - unfold pit_counted in *. rewrite Hn, Hh, Hc. pose proof He as [Hp Hs].
    rewrite map_filter_insert_False by (by intros []).
    rewrite map_filter_delete, map_size_delete, (map_lookup_filter_Some_2 _ _ _ _ Hp Hs).
    assert (size (filter (fun kv : PitPtr * PitEntry => is_Some (pe_nte kv.2)) (ts_pit t)) <> 0%nat); [|lia].
    intros E%map_size_empty_inv.
    pose proof (map_lookup_filter_Some_2 (fun kv : PitPtr * PitEntry => is_Some (pe_nte kv.2)) (ts_pit t) p e Hp Hs) as H.
    rewrite E in H. by rewrite lookup_empty in H.
  - unfold Pit_find. pose proof (pit_findOrInsert_ok (pe_interest e) false t' Hok') as H.
    destruct (Pit_findOrInsert (pe_interest e) false t') as [t2 [[q|] isNew]] eqn:E; [|done].
    assert (isNew = false) as -> by (by eapply findOrInsert_false).
    destruct H as (_ & _ & [H _] & _). destruct (H eq_refl) as (q' & f & Hf & Hs).
    apply Ha in Hf as [Hf Hne]. destruct Hne. destruct He as [Hp Hpe], Hf as [Hq Hfe].
    symmetry. by eapply (ts_pit_unique _ Hok).
Qed.

(** ** Instances *)

Definition sample_tables : TableState := (Pit_insert sample_interest ts_empty).1.

Lemma sample_tables_ok : ts_ok sample_tables.
Proof.
  pose proof (pit_findOrInsert_ok sample_interest true ts_empty ts_ok_empty) as H.
  unfold sample_tables, Pit_insert. destruct (Pit_findOrInsert sample_interest true ts_empty) as [t [r b]]. apply H.
Qed.

Definition sample_entry : PitEntry := set_nte (Some [ascii_component "a"]) (PitEntry_new sample_interest).

Lemma sample_attached : attached sample_tables 1 sample_entry.
Proof. split; [by vm_compute|by eexists]. Qed.

Lemma fib_lookup_spec_witness :
  ts_ok sample_tables /\ Fib_lpm_pit sample_entry sample_tables = s_emptyEntry /\
  fib_lpm_spec (fib_map (ts_nt sample_tables)) (pe_name sample_entry) (Fib_lpm_pit sample_entry sample_tables).
Proof.
  split; [exact sample_tables_ok|]. split; [by vm_compute|].
  destruct (fib_lookup_spec [] 1 sample_entry sample_tables) as [_ H];
    [exact sample_tables_ok|apply sample_attached|by eexists|]. exact H.
Defined.

Definition sample_data_interest : Interest :=
  mkInterest (d_name sample_data) false true 2 4000 None [] None None None.

Lemma pit_findOrInsert_spec_witness :
  Pit_find sample_interest sample_tables = Some 1%N /\
  ts_ok (Pit_findOrInsert sample_data_interest true sample_tables).1.
Proof.
  split; [by vm_compute|].
  pose proof (pit_findOrInsert_spec sample_data_interest true sample_tables sample_tables_ok) as H.
  destruct (Pit_findOrInsert sample_data_interest true sample_tables) as [t' [r isNew]].
  exact (proj1 H).
Defined.

Lemma findAllDataMatches_spec_witness :
  ts_ok sample_tables /\ 1%N ∈ Pit_findAllDataMatches sample_data sample_tables.
Proof.
  split; [exact sample_tables_ok|].
  apply (findAllDataMatches_spec sample_data sample_tables 1 sample_tables_ok); [reflexivity|].
  exists sample_entry. split; [exact sample_attached|by vm_compute].
Defined.

Lemma pit_erase_spec_witness :
  ts_ok sample_tables /\ pit_counted sample_tables /\
  Pit_find sample_interest (Pit_erase 1 true sample_tables) = None.
Proof.
  assert (pit_counted sample_tables) as Hc by by vm_compute.
  split; [exact sample_tables_ok|]. split; [exact Hc|].
  apply (pit_erase_spec 1 sample_entry true sample_tables sample_tables_ok Hc sample_attached).
Defined.
