(* ===== verification/ContentStore.v ===== *)
(** * The Content Store (table/cs.cpp, cs-entry.cpp, cs-policy.cpp, cs-policy-lru.cpp,
    cs-policy-priority-fifo.cpp)

    A set of Data packets ordered by name and implicit digest, with a replacement policy.
    The set is the list of its entries in order; an entry reference (an iterator of the set)
    is the full name of the entry's Data. *)

From S2P Require Import Prelude Name Packet.

(** ** Entries *)

Record CsEntry := mkCsEntry { ce_data : Data; ce_isUnsolicited : bool; ce_freshUntil : time }.

Definition ce_fullName (e : CsEntry) : Name := getFullName (ce_data e).
Definition ce_isFresh (now : time) (e : CsEntry) : bool := (now <=? ce_freshUntil e)%Z.
Definition updateFreshUntil (now : time) (e : CsEntry) : CsEntry :=
  mkCsEntry (ce_data e) (ce_isUnsolicited e) (now + d_freshness (ce_data e) * ms).
Definition clearUnsolicited (e : CsEntry) : CsEntry := mkCsEntry (ce_data e) false (ce_freshUntil e).
Definition CsEntry_new (now : time) (d : Data) (isUnsolicited : bool) : CsEntry :=
  updateFreshUntil now (mkCsEntry d isUnsolicited 0).

Definition canSatisfy (now : time) (i : Interest) (e : CsEntry) : bool :=
  if negb (matchesData i (ce_data e)) then false
  else if i_mustBeFresh i && negb (ce_isFresh now e) then false
  else true.

(** [compareQueryWithData] and [compareDataWithData]. *)
Definition queryIsFullName (q : Name) : bool :=
  match last q with Some c => isImplicitSha256Digest c | None => false end.
Definition compareQueryWithData (q : Name) (d : Data) : comparison :=
  let cmp := if queryIsFullName q
             then Name_compare q 0 (length q - 1) (d_name d) 0 (length (d_name d))
             else Name_compare q 0 (length q) (d_name d) 0 (length (d_name d)) in
  match cmp with
  | Eq => match last q with
          | Some c => if queryIsFullName q then comp_cmp c (digest_component d) else Lt
          | None => Lt
          end
  | r => r
  end.
Definition compareDataWithData (l r : Data) : comparison :=
  match Name_compare (d_name l) 0 (length (d_name l)) (d_name r) 0 (length (d_name r)) with
  | Eq => comp_cmp (digest_component l) (digest_component r)
  | c => c
  end.

Definition is_lt (c : comparison) : bool := match c with Lt => true | _ => false end.
(** [entry < queryName] and [lhs < rhs]. *)
Definition entry_lt_query (e : CsEntry) (q : Name) : bool :=
  match compareQueryWithData q (ce_data e) with Gt => true | _ => false end.
Definition entry_lt (l r : CsEntry) : bool := is_lt (compareDataWithData (ce_data l) (ce_data r)).

(** ** The set *)

Abbreviation Table := (list CsEntry) (only parsing).

(** [emplace]: the position is that of the order; an equivalent entry stays. *)
Fixpoint emplace (e : CsEntry) (l : Table) : Table * bool :=
  match l with
  | [] => ([e], true)
  | x :: l' =>
      if entry_lt e x then (e :: l, true)
      else if entry_lt x e then let '(l', b) := emplace e l' in (x :: l', b)
      else (l, false)
  end.

(** [lower_bound]: the index of the first entry not below the query. *)
Fixpoint lower_bound (q : Name) (l : Table) : nat :=
  match l with
  | [] => 0
  | x :: l' => if entry_lt_query x q then S (lower_bound q l') else 0
  end.

Definition findPrefixRange (prefix : Name) (l : Table) : nat * nat :=
  (lower_bound prefix l,
   if (0 <? length prefix)%nat then lower_bound (Name_getSuccessor prefix) l else length l).

(** Assignment through, and [erase] of, an entry reference. *)
Definition entry_update (f : CsEntry -> CsEntry) (n : Name) (l : Table) : Table :=
  map (fun e => if bool_decide (ce_fullName e = n) then f e else e) l.
Definition entry_erase (n : Name) (l : Table) : Table :=
  filter (fun e => ce_fullName e <> n) l.
Definition entry_find (n : Name) (l : Table) : option CsEntry :=
  list_find (fun e => ce_fullName e = n) l ≫= fun p => Some p.2.

(** ** Replacement policies *)

Inductive QueueType := QUEUE_UNSOLICITED | QUEUE_STALE | QUEUE_FIFO.

#[global] Instance QueueType_eq_dec : EqDecision QueueType.
Proof. solve_decision. Defined.

(** [EntryInfo]; [ei_moveStale] is the time the [moveStaleEventId] event is scheduled for. *)
Record EntryInfo := mkEntryInfo { ei_queueType : QueueType; ei_moveStale : option time }.

(** [PriorityFifoPolicy]: [m_queues] and [m_entryInfoMap]. *)
Record PFifo := mkPFifo {
  pf_unsolicited : list Name;
  pf_stale : list Name;
  pf_fifo : list Name;
  pf_info : gmap Name EntryInfo;
}.

Inductive Policy := PolicyLru (m_queue : list Name) | PolicyPriorityFifo (s : PFifo).

Record Cs := mkCs {
  cs_table : Table;
  cs_policy : Policy;
  cs_limit : nat;
  cs_shouldAdmit : bool;
  cs_shouldServe : bool;
}.

Definition set_table l (c : Cs) : Cs := mkCs l (cs_policy c) (cs_limit c) (cs_shouldAdmit c) (cs_shouldServe c).
Definition set_policy p (c : Cs) : Cs := mkCs (cs_table c) p (cs_limit c) (cs_shouldAdmit c) (cs_shouldServe c).
Definition set_limit n (c : Cs) : Cs := mkCs (cs_table c) (cs_policy c) n (cs_shouldAdmit c) (cs_shouldServe c).
Definition enableAdmit (b : bool) (c : Cs) : Cs :=
  mkCs (cs_table c) (cs_policy c) (cs_limit c) b (cs_shouldServe c).
Definition enableServe (b : bool) (c : Cs) : Cs :=
  mkCs (cs_table c) (cs_policy c) (cs_limit c) (cs_shouldAdmit c) b.

Definition remove_name (n : Name) (q : list Name) : list Name := filter (fun x => x <> n) q.

(** [LruPolicy::insertToQueue]. *)
Definition insertToQueue (i : Name) (isNewEntry : bool) (q : list Name) : list Name :=
  let q := if bool_decide (i ∈ q) then q else q ++ [i] in
  if negb isNewEntry then remove_name i q ++ [i] else q.

Definition pf_queue (t : QueueType) (s : PFifo) : list Name :=
  match t with QUEUE_UNSOLICITED => pf_unsolicited s | QUEUE_STALE => pf_stale s | QUEUE_FIFO => pf_fifo s end.
Definition pf_set_queue (t : QueueType) (q : list Name) (s : PFifo) : PFifo :=
  match t with
  | QUEUE_UNSOLICITED => mkPFifo q (pf_stale s) (pf_fifo s) (pf_info s)
  | QUEUE_STALE => mkPFifo (pf_unsolicited s) q (pf_fifo s) (pf_info s)
  | QUEUE_FIFO => mkPFifo (pf_unsolicited s) (pf_stale s) q (pf_info s)
  end.
Definition pf_set_info (m : gmap Name EntryInfo) (s : PFifo) : PFifo :=
  mkPFifo (pf_unsolicited s) (pf_stale s) (pf_fifo s) m.

(** [PriorityFifoPolicy::attachQueue], [detachQueue] and [moveToStaleQueue]. *)
Definition attachQueue (now : time) (e : CsEntry) (s : PFifo) : PFifo :=
  let i := ce_fullName e in
  let info :=
    if ce_isUnsolicited e then mkEntryInfo QUEUE_UNSOLICITED None
    else if negb (ce_isFresh now e) then mkEntryInfo QUEUE_STALE None
    else mkEntryInfo QUEUE_FIFO (Some (now + d_freshness (ce_data e) * ms)%Z) in
  let t := ei_queueType info in
  let s := pf_set_queue t (pf_queue t s ++ [i]) s in
  pf_set_info (<[i := info]> (pf_info s)) s.
Definition detachQueue (i : Name) (s : PFifo) : PFifo :=
  match pf_info s !! i with
  | None => s
  | Some info =>
      let t := ei_queueType info in
      let s := pf_set_queue t (remove_name i (pf_queue t s)) s in
      pf_set_info (delete i (pf_info s)) s
  end.
Definition moveToStaleQueue (i : Name) (s : PFifo) : PFifo :=
  let s := pf_set_queue QUEUE_FIFO (remove_name i (pf_fifo s)) s in
  let s := pf_set_queue QUEUE_STALE (pf_stale s ++ [i]) s in
  pf_set_info (<[i := mkEntryInfo QUEUE_STALE None]> (pf_info s)) s.

(** The entry [evictOne] and the LRU loop take. *)
Definition victim (p : Policy) : option Name :=
  match p with
  | PolicyLru q => head q
  | PolicyPriorityFifo s =>
      match pf_unsolicited s with
      | i :: _ => Some i
      | [] => match pf_stale s with i :: _ => Some i | [] => head (pf_fifo s) end
      end
  end.
Definition policy_drop (i : Name) (p : Policy) : Policy :=
  match p with
  | PolicyLru q => PolicyLru (tail q)
  | PolicyPriorityFifo s => PolicyPriorityFifo (detachQueue i s)
  end.

(** [evictEntries] of both policies: the signal [beforeEvict] erases the entry from the
    table. Every round takes one entry, so the size of the table is enough fuel. *)
Fixpoint evict_loop (fuel : nat) (c : Cs) : Cs :=
  match fuel with
  | O => c
  | S fuel' =>
      if (cs_limit c <? length (cs_table c))%nat then
        match victim (cs_policy c) with
        | None => c
        | Some i => evict_loop fuel' (set_table (entry_erase i (cs_table c)) (set_policy (policy_drop i (cs_policy c)) c))
        end
      else c
  end.
Definition evictEntries (c : Cs) : Cs := evict_loop (length (cs_table c)) c.

Definition afterInsert (now : time) (e : CsEntry) (c : Cs) : Cs :=
  evictEntries
    (set_policy (match cs_policy c with
                 | PolicyLru q => PolicyLru (insertToQueue (ce_fullName e) true q)
                 | PolicyPriorityFifo s => PolicyPriorityFifo (attachQueue now e s)
                 end) c).
Definition afterRefresh (now : time) (e : CsEntry) (c : Cs) : Cs :=
  set_policy (match cs_policy c with
              | PolicyLru q => PolicyLru (insertToQueue (ce_fullName e) false q)
              | PolicyPriorityFifo s => PolicyPriorityFifo (attachQueue now e (detachQueue (ce_fullName e) s))
              end) c.
Definition beforeErase (i : Name) (c : Cs) : Cs :=
  set_policy (match cs_policy c with
              | PolicyLru q => PolicyLru (remove_name i q)
              | PolicyPriorityFifo s => PolicyPriorityFifo (detachQueue i s)
              end) c.
Definition beforeUse (i : Name) (c : Cs) : Cs :=
  match cs_policy c with
  | PolicyLru q => set_policy (PolicyLru (insertToQueue i false q)) c
  | PolicyPriorityFifo _ => c
  end.
Definition setLimit (n : nat) (c : Cs) : Cs := evictEntries (set_limit n c).

(** The [moveStaleEventId] event of an entry. *)
Definition cs_moveToStale (i : Name) (c : Cs) : Cs :=
  match cs_policy c with
  | PolicyPriorityFifo s => set_policy (PolicyPriorityFifo (moveToStaleQueue i s)) c
  | PolicyLru _ => c
  end.

(** ** The store *)

Definition Cs_new (nMaxPackets : nat) : Cs := mkCs [] (PolicyLru []) nMaxPackets true true.

(** [Cs::insert]. *)
Definition Cs_insert (now : time) (d : Data) (isUnsolicited : bool) (c : Cs) : Cs :=
  if negb (cs_shouldAdmit c) || (cs_limit c =? 0)%nat then c
  else if d_noCache d then c
  else
    let '(l, isNewEntry) := emplace (CsEntry_new now d isUnsolicited) (cs_table c) in
    let i := getFullName d in
    let l := entry_update (updateFreshUntil now) i l in
    if negb isNewEntry then
      let l := entry_update (fun e => if ce_isUnsolicited e && negb isUnsolicited
                                      then clearUnsolicited e else e) i l in
      match entry_find i l with
      | Some e => afterRefresh now e (set_table l c)
      | None => set_table l c
      end
    else
      match entry_find i l with
      | Some e => afterInsert now e (set_table l c)
      | None => set_table l c
      end.

(** [Cs::eraseImpl]. *)
Fixpoint erase_entries (l : list CsEntry) (c : Cs) : Cs :=
  match l with
  | [] => c
  | e :: l' =>
      let c := beforeErase (ce_fullName e) c in
      erase_entries l' (set_table (entry_erase (ce_fullName e) (cs_table c)) c)
  end.
Definition Cs_erase (prefix : Name) (limit : nat) (c : Cs) : Cs * nat :=
  let '(first, last_) := findPrefixRange prefix (cs_table c) in
  let victims := take limit (take (last_ - first) (drop first (cs_table c))) in
  (erase_entries victims c, length victims).

(** [Cs::findImpl]. *)
Definition Cs_find (now : time) (i : Interest) (c : Cs) : Cs * option CsEntry :=
  if negb (cs_shouldServe c) || (cs_limit c =? 0)%nat then (c, None)
  else
    let '(first, last_) := findPrefixRange (i_name i) (cs_table c) in
    match list_find (fun e => canSatisfy now i e = true) (take (last_ - first) (drop first (cs_table c))) with
    | None => (c, None)
    | Some (_, e) => (beforeUse (ce_fullName e) c, Some e)
    end.
