(* ===== verification/CsInv.v ===== *)
(** * The Content Store's invariant and theorems

    The table is sorted and has one entry per full name; the policy's queues hold exactly
    the entries of the table, each once; the limit is respected. [find], although it only
    looks at the range of the Interest's name, gives what a scan of the whole table gives. *)

From S2P Require Import Prelude Name Packet ContentStore.

(** ** The order *)

(** The key of an entry: the Data's name, then its implicit digest. *)
Definition data_key (d : Data) : Name * Component := (d_name d, digest_component d).
Definition ce_key (e : CsEntry) : Name * Component := data_key (ce_data e).
Definition key_cmp : Name * Component -> Name * Component -> comparison := pair_cmp Name_cmp comp_cmp.
Definition key_lt (x y : Name * Component) : Prop := key_cmp x y = Lt.

Lemma compareData_key l r : compareDataWithData l r = key_cmp (data_key l) (data_key r).
Proof.
  unfold compareDataWithData, key_cmp, pair_cmp. rewrite Name_compare_full. simpl.
  by destruct (Name_cmp (d_name l) (d_name r)).
Qed.

Lemma key_fullName d d' : data_key d = data_key d' <-> getFullName d = getFullName d'.
Proof.
  unfold data_key, getFullName, append. split; [by intros [= -> H]; unfold digest_component; rewrite H|].
  intros H%app_inj_2; [|done].
  destruct H as [H1 H2]. injection H2 as H2. unfold digest_component. by rewrite H1, H2.
Qed.

Lemma ce_key_fullName e e' : ce_key e = ce_key e' <-> ce_fullName e = ce_fullName e'.
Proof. apply key_fullName. Qed.

(** A query against an entry, with the query's digest split off when it ends in one. *)
Lemma compareQuery_full q c d :
  isImplicitSha256Digest c = true ->
  compareQueryWithData (q ++ [c]) d = key_cmp (q, c) (data_key d).
Proof.
  intros Hc. unfold compareQueryWithData, queryIsFullName, key_cmp, pair_cmp. rewrite last_snoc, Hc.
  rewrite Name_compare_prefix by done. rewrite length_app. simpl. rewrite Nat.add_sub, take_app_length.
  by destruct (Name_cmp q (d_name d)).
Qed.

Lemma compareQuery_plain q d :
  queryIsFullName q = false ->
  compareQueryWithData q d = match Name_cmp q (d_name d) with Eq => Lt | r => r end.
Proof.
  intros Hq. unfold compareQueryWithData. rewrite Hq, Name_compare_full.
  destruct (Name_cmp q (d_name d)); [by destruct (last q)|done..].
Qed.

(** A query is above an initial part of a sorted table. *)
Lemma entry_lt_query_mono q x y :
  key_lt (ce_key x) (ce_key y) -> entry_lt_query y q = true -> entry_lt_query x q = true.
Proof.
  unfold entry_lt_query. destruct x as [x ? ?], y as [y ? ?]. unfold ce_key. simpl. intros Hxy.
  destruct (queryIsFullName q) eqn:Hq.
  - unfold queryIsFullName in Hq. destruct q as [|c q _] using rev_ind; [done|].
    rewrite last_snoc in Hq. rewrite !compareQuery_full by done.
    destruct (key_cmp (q, c) (data_key y)) eqn:E; try done. intros _.
    apply (cmp_gt_lt (cmp:=key_cmp)) in E. assert (key_cmp (data_key x) (q, c) = Lt) as H
      by (by eapply (cmp_lt_trans (cmp:=key_cmp))).
    by rewrite (proj2 (cmp_gt_lt (cmp:=key_cmp) (q, c) (data_key x)) H).
  - rewrite !compareQuery_plain by done. destruct (Name_cmp q (d_name y)) eqn:E; try done. intros _.
    apply (cmp_gt_lt (cmp:=Name_cmp)) in E. assert (Name_cmp (d_name x) q = Lt) as H.
    { unfold key_lt, key_cmp, pair_cmp in Hxy. apply cmp_then_lt in Hxy as [H|[H%cmp_eq _]]; simpl in H.
      - by eapply (cmp_lt_trans (cmp:=Name_cmp)).
      - by rewrite H. }
    by rewrite (proj2 (cmp_gt_lt (cmp:=Name_cmp) q (d_name x)) H).
Qed.

(** ** Sorted tables *)

Definition cs_sorted (l : list CsEntry) : Prop := StronglySorted key_lt (ce_key <$> l).

Lemma cs_sorted_cons e l : cs_sorted (e :: l) <-> cs_sorted l /\ Forall (fun x => key_lt (ce_key e) (ce_key x)) l.
Proof.
  unfold cs_sorted. csimpl. split.
  - intros [H1 H2]%StronglySorted_inv. split; [done|]. rewrite Forall_fmap in H2. exact H2.
  - intros [H1 H2]. constructor; [done|]. rewrite Forall_fmap. exact H2.
Qed.

Lemma cs_sorted_NoDup l : cs_sorted l -> NoDup (ce_fullName <$> l).
Proof.
  induction l as [|e l IH]; [constructor|]. intros [Hl He]%cs_sorted_cons. csimpl. constructor; [|auto].
  intros (x & Hx & Hin)%list_elem_of_fmap. apply ce_key_fullName in Hx.
  pose proof (proj1 (Forall_forall _ _) He x Hin) as K. simpl in K. unfold key_lt in K.
  rewrite Hx in K. by apply cmp_irrefl in K.
Qed.

Lemma lower_bound_spec q l :
  cs_sorted l ->
  Forall (fun e => entry_lt_query e q = true) (take (lower_bound q l) l) /\
  Forall (fun e => entry_lt_query e q = false) (drop (lower_bound q l) l).
Proof.
  induction l as [|x l IH]; intros Hs; simpl; [by split|]. apply cs_sorted_cons in Hs as [Hl Hx].
  destruct (IH Hl) as [H1 H2]. destruct (entry_lt_query x q) eqn:E; simpl.
  - split; [by constructor|done].
  - split; [constructor|]. constructor; [done|]. eapply Forall_impl; [exact Hx|]. intros y Hy. simpl in Hy.
    apply not_true_iff_false. intros H. apply (entry_lt_query_mono q x y Hy) in H. congruence.
Qed.

Lemma list_find_skip {A} (P : A -> Prop) `{!forall x, Decision (P x)} l k :
  Forall (fun x => ~ P x) l -> snd <$> list_find P (l ++ k) = snd <$> list_find P k.
Proof.
  induction 1 as [|x l Hx Hl IH]; simpl; [done|]. rewrite decide_False by done.
  rewrite <- IH. by destruct (list_find P (l ++ k)).
Qed.

Lemma list_find_nil {A} (P : A -> Prop) `{!forall x, Decision (P x)} l :
  Forall (fun x => ~ P x) l -> list_find P l = None.
Proof. induction 1; simpl; [done|]. rewrite decide_False by done. by rewrite IHForall. Qed.

Lemma list_find_app_snd {A} (P : A -> Prop) `{!forall x, Decision (P x)} l k :
  snd <$> list_find P (l ++ k) = match list_find P l with Some (_, x) => Some x | None => snd <$> list_find P k end.
Proof.
  induction l as [|x l IH]; simpl; [done|]. case_decide; [done|].
  destruct (list_find P l) as [[? ?]|], (list_find P (l ++ k)) as [[? ?]|], (list_find P k) as [[? ?]|];
    simpl in *; congruence.
Qed.

(** Searching a range finds what searching everything finds, when no hit lies outside. *)
Lemma list_find_range {A} (P : A -> Prop) `{!forall x, Decision (P x)} (l : list A) (a b : nat) :
  Forall (fun x => ~ P x) (take a l) -> Forall (fun x => ~ P x) (drop b l) ->
  snd <$> list_find P (take (b - a) (drop a l)) = snd <$> list_find P l.
Proof.
  intros Ha Hb. rewrite <- (take_drop a l) at 2. rewrite (list_find_skip P _ _ Ha).
  destruct (decide (a <= b)%nat) as [Hab|Hab].
  - rewrite <- (take_drop (b - a) (drop a l)) at 2. rewrite list_find_app_snd, drop_drop.
    replace (a + (b - a))%nat with b by lia. rewrite (list_find_nil P _ Hb).
    by destruct (list_find P (take (b - a) (drop a l))) as [[? ?]|].
  - replace (b - a)%nat with 0%nat by lia. simpl. rewrite list_find_nil; [done|].
    assert (drop a l = drop (a - b) (drop b l)) as -> by (rewrite drop_drop; f_equal; lia).
    by apply Forall_drop.
Qed.

(** ** The range of an Interest *)

(** A Data name as producers make them: valid components, no implicit digest among them. *)
Definition plain_data (d : Data) : Prop :=
  Forall (fun c => ensureValid c = true /\ c_type c <> ImplicitSha256DigestComponent) (d_name d) /\
  length (d_digest d) = DIGEST_SIZE.

Lemma successor_type c : (c_type c <= c_type (comp_getSuccessor c))%N.
Proof.
  unfold comp_getSuccessor, type_getSuccessor. pose proof (getSuccessorImpl_spec c) as H.
  destruct (getSuccessorImpl c) as [o s]. destruct H as [H _].
  destruct (isSha256Type (c_type c)); [destruct o|]; simpl; lia.
Qed.

Lemma digest_type c : isImplicitSha256Digest c = true -> c_type c = ImplicitSha256DigestComponent.
Proof. unfold isImplicitSha256Digest. intros H. bool_to_prop. by apply N.eqb_eq. Qed.

Lemma ensureValid_type c : ensureValid c = true -> (1 <= c_type c)%N.
Proof. unfold ensureValid, NameComponentMin. intros H. bool_to_prop. lia. Qed.

(** The bounds, for a query that is a prefix of the Data's name: [c] is its last component. *)
Lemma range_prefix q c r d :
  plain_data d -> d_name d = q ++ c :: r -> name_small (q ++ [c]) ->
  compareQueryWithData (q ++ [c]) d <> Gt /\
  compareQueryWithData (Name_getSuccessor (q ++ [c])) d = Gt.
Proof.
  intros [Hp _] Hd Hsm. rewrite Hd in Hp. apply Forall_app in Hp as [_ Hp].
  apply Forall_cons in Hp as [[Hv Ht] _]. pose proof (ensureValid_type c Hv) as H1.
  assert (forall c', (c_type c <= c_type c')%N -> isImplicitSha256Digest c' = false) as Hnd.
  { intros c' Hle. apply not_true_iff_false. intros E%digest_type.
    unfold ImplicitSha256DigestComponent in *. lia. }
  rewrite Name_getSuccessor_snoc by done.
  rewrite !compareQuery_plain by (unfold queryIsFullName; rewrite last_snoc; apply Hnd, successor_type || apply Hnd; done).
  rewrite Hd. split.
  - change (c :: r) with ([c] ++ r). rewrite Name_cmp_app_eq. simpl. rewrite (cmp_refl (cmp:=comp_cmp)).
    by destruct r.
  - rewrite Name_cmp_app_eq. simpl. pose proof (comp_lt_successor c Hv) as Hlt.
    by rewrite (proj2 (cmp_gt_lt (cmp:=comp_cmp) _ _) Hlt).
Qed.

(** The bounds, for the full name of the Data. *)
Lemma range_full d :
  length (d_digest d) = DIGEST_SIZE -> name_small (getFullName d) ->
  compareQueryWithData (getFullName d) d <> Gt /\
  compareQueryWithData (Name_getSuccessor (getFullName d)) d = Gt.
Proof.
  intros Hd Hsm. unfold getFullName, append in *.
  assert (isImplicitSha256Digest (digest_component d) = true) as Hi
    by (unfold isImplicitSha256Digest; simpl; by rewrite Hd).
  assert (ensureValid (digest_component d) = true) as Hv by (unfold ensureValid; simpl; by rewrite Hd).
  rewrite compareQuery_full by done. rewrite Name_getSuccessor_snoc by done.
  pose proof (comp_lt_successor _ Hv) as Hlt. split.
  - unfold data_key. by rewrite (cmp_refl (cmp:=key_cmp)).
  - destruct (isImplicitSha256Digest (comp_getSuccessor (digest_component d))) eqn:E.
    + rewrite compareQuery_full by done. unfold key_cmp, pair_cmp. simpl.
      rewrite (cmp_refl (cmp:=Name_cmp)). simpl. by apply (cmp_gt_lt (cmp:=comp_cmp)).
    + rewrite compareQuery_plain by (unfold queryIsFullName; by rewrite last_snoc).
      rewrite <- (app_nil_r (d_name d)) at 2. by rewrite Name_cmp_app_eq.
Qed.

Lemma matching_in_range i d :
  plain_data d -> name_small (i_name i) -> matchesData i d = true ->
  compareQueryWithData (i_name i) d <> Gt /\
  (i_name i <> [] -> compareQueryWithData (Name_getSuccessor (i_name i)) d = Gt).
Proof.
  intros Hp Hsm Hm. apply matchesData_iff in Hm as [Hn _]; [|apply Hp].
  assert (i_name i `prefix_of` d_name d ->
          compareQueryWithData (i_name i) d <> Gt /\
          (i_name i <> [] -> compareQueryWithData (Name_getSuccessor (i_name i)) d = Gt)) as Hpre.
  { intros [r Hr]. destruct (i_name i) as [|c q _] using rev_ind.
    - rewrite compareQuery_plain by done. split; [|done]. by destruct (d_name d).
    - rewrite <- app_assoc in Hr. destruct (range_prefix q c r d Hp Hr Hsm). done. }
  destruct Hn as [Hn|[Hn|[_ Hn]]].
  - rewrite Hn in *. destruct (range_full d) as [H1 H2]; [apply Hp|done|]. done.
  - apply Hpre. by rewrite Hn.
  - by apply Hpre, isPrefixOf_spec.
Qed.

Lemma canSatisfy_matches now i e : canSatisfy now i e = true -> matchesData i (ce_data e) = true.
Proof. unfold canSatisfy. by destruct (matchesData i (ce_data e)). Qed.

(** No entry that satisfies the Interest lies outside of its range. *)
Lemma range_complete now i l :
  cs_sorted l -> Forall (fun e => plain_data (ce_data e)) l -> name_small (i_name i) ->
  let '(a, b) := findPrefixRange (i_name i) l in
  Forall (fun e => ~ canSatisfy now i e = true) (take a l) /\
  Forall (fun e => ~ canSatisfy now i e = true) (drop b l).
Proof.
  intros Hs Hp Hsm. unfold findPrefixRange.
  assert (forall e, e ∈ l -> canSatisfy now i e = true -> entry_lt_query e (i_name i) = false /\
            (i_name i <> [] -> entry_lt_query e (Name_getSuccessor (i_name i)) = true)) as Hr.
  { intros e He Hc%canSatisfy_matches. pose proof (proj1 (Forall_forall _ _) Hp e He) as Hpe. simpl in Hpe.
    destruct (matching_in_range i (ce_data e) Hpe Hsm Hc) as [H1 H2]. unfold entry_lt_query. split.
    - by destruct (compareQueryWithData (i_name i) (ce_data e)).
    - intros Hne. by rewrite H2. }
  split.
  - destruct (lower_bound_spec (i_name i) l Hs) as [H _]. apply Forall_forall. intros e He Hc.
    pose proof (proj1 (Forall_forall _ _) H e He) as Hlt. simpl in Hlt.
    apply elem_of_take in He as (k & Hk & _). apply list_elem_of_lookup_2 in Hk.
    destruct (Hr e Hk Hc) as [Hf _]. congruence.
  - destruct (i_name i) as [|c q] eqn:Ei; simpl; [by rewrite drop_all|].
    destruct (lower_bound_spec (Name_getSuccessor (c :: q)) l Hs) as [_ H]. apply Forall_forall. intros e He Hc.
    pose proof (proj1 (Forall_forall _ _) H e He) as Hlt. simpl in Hlt.
    apply list_elem_of_lookup in He as [k Hk]. rewrite lookup_drop in Hk. apply list_elem_of_lookup_2 in Hk.
    destruct (Hr e Hk Hc) as [_ Hf]. rewrite Hf in Hlt; done.
Qed.

(** ** Policies *)

Definition names_of (l : list CsEntry) : list Name := ce_fullName <$> l.

Record pf_ok (l : list CsEntry) (s : PFifo) : Prop := {
  pf_nodup : forall t, NoDup (pf_queue t s);
  pf_in : forall t n, n ∈ pf_queue t s <-> exists info, pf_info s !! n = Some info /\ ei_queueType info = t;
  pf_dom : forall n, is_Some (pf_info s !! n) <-> n ∈ names_of l;
  pf_timer : forall n info, pf_info s !! n = Some info ->
    is_Some (ei_moveStale info) <-> ei_queueType info = QUEUE_FIFO;
}.

(** The queues of the policy hold the entries of the table, each once. *)
Definition policy_ok (l : list CsEntry) (p : Policy) : Prop :=
  match p with
  | PolicyLru q => NoDup q /\ forall n, n ∈ q <-> n ∈ names_of l
  | PolicyPriorityFifo s => pf_ok l s
  end.

Lemma remove_name_elem n x q : x ∈ remove_name n q <-> x ∈ q /\ x <> n.
Proof. unfold remove_name. rewrite list_elem_of_filter. naive_solver. Qed.
Lemma remove_name_NoDup n q : NoDup q -> NoDup (remove_name n q).
Proof. apply NoDup_filter. Qed.

Lemma remove_name_id n q : n ∉ q -> remove_name n q = q.
Proof.
  unfold remove_name. induction q as [|x q IH]; [done|]. intros [Hx Hq]%not_elem_of_cons.
  rewrite filter_cons_True by congruence. by rewrite IH.
Qed.

Lemma insertToQueue_spec i b q :
  NoDup q -> (b = true -> i ∉ q) ->
  insertToQueue i b q = remove_name i q ++ [i] /\ NoDup (insertToQueue i b q) /\
  (forall n, n ∈ insertToQueue i b q <-> n = i \/ n ∈ q).
Proof.
  intros Hq Hb.
  assert (insertToQueue i b q = remove_name i q ++ [i]) as E.
  { unfold insertToQueue. destruct b; simpl.
    - specialize (Hb eq_refl). rewrite bool_decide_false by done. by rewrite remove_name_id.
    - case_bool_decide; [done|]. unfold remove_name. rewrite filter_app, (filter_cons_False _ i []) by auto.
      by rewrite app_nil_r. }
  rewrite E. split_and!; [done| |].
  - apply NoDup_app. split_and!; [by apply remove_name_NoDup| |apply NoDup_singleton].
    intros x [_ Hx]%remove_name_elem ->%list_elem_of_singleton. done.
  - intros n. rewrite elem_of_app, list_elem_of_singleton, remove_name_elem.
    destruct (decide (n = i)); naive_solver.
Qed.

Lemma pf_queue_set t t' q s : pf_queue t (pf_set_queue t' q s) = if bool_decide (t = t') then q else pf_queue t s.
Proof. by destruct t, t'. Qed.
Lemma pf_queue_info t m s : pf_queue t (pf_set_info m s) = pf_queue t s.
Proof. by destruct t. Qed.
Lemma pf_info_set t q s : pf_info (pf_set_queue t q s) = pf_info s.
Proof. by destruct t. Qed.

(** Attaching an entry that is in no queue, and detaching one. *)
Lemma pf_attach now e l l' s :
  pf_ok l s -> ce_fullName e ∉ names_of l ->
  (forall n, n ∈ names_of l' <-> n = ce_fullName e \/ n ∈ names_of l) -> pf_ok l' (attachQueue now e s).
Proof.
  intros [Hnd Hin Hdom Ht] Hn Hl'. unfold attachQueue. set (i := ce_fullName e) in *.
  set (info := if ce_isUnsolicited e then _ else _).
  assert (pf_info s !! i = None) as Hnone by (apply eq_None_not_Some; by rewrite Hdom).
  assert (forall t, i ∉ pf_queue t s) as Hq.
  { intros t (x & Hx & _)%Hin. congruence. }
  split; simpl; rewrite ?pf_info_set; try setoid_rewrite pf_queue_info; try setoid_rewrite pf_queue_set.
  - intros t. case_bool_decide; [|done]. subst. apply NoDup_app.
    split_and!; [done| |apply NoDup_singleton]. intros x Hx ->%list_elem_of_singleton. by eapply Hq.
  - intros t n. destruct (decide (n = i)) as [->|Hni].
    + rewrite lookup_insert_eq. case_bool_decide as D.
      * rewrite elem_of_app. split; [intros _; by exists info|]. intros _. right. by left.
      * split; [intros Hx; by apply Hq in Hx|]. intros (x & [= <-] & Hx). congruence.
    + rewrite lookup_insert_ne by done. rewrite <- Hin. case_bool_decide; [|done]. subst.
      rewrite elem_of_app, list_elem_of_singleton. naive_solver.
  - intros n. rewrite Hl', <- Hdom. destruct (decide (n = i)) as [->|Hni].
    + rewrite lookup_insert_eq. split; [by left|by eexists].
    + rewrite lookup_insert_ne by done. naive_solver.
  - intros n x. destruct (decide (n = i)) as [->|Hni].
    + rewrite lookup_insert_eq. intros [= <-]. unfold info.
      destruct (ce_isUnsolicited e); [split; [by intros []|done]|].
      destruct (negb _); simpl; split; try done; by intros [].
    + rewrite lookup_insert_ne by done. apply Ht.
Qed.

Lemma pf_detach i l l' s :
  pf_ok l s -> (forall n, n ∈ names_of l' <-> n ∈ names_of l /\ n <> i) -> pf_ok l' (detachQueue i s).
Proof.
  intros [Hnd Hin Hdom Ht] Hl'. unfold detachQueue. destruct (pf_info s !! i) as [info|] eqn:Ei.
  - split; simpl; rewrite ?pf_info_set; try setoid_rewrite pf_queue_info; try setoid_rewrite pf_queue_set.
    + intros t. case_bool_decide; [|done]. by apply remove_name_NoDup.
    + intros t n. destruct (decide (n = i)) as [->|Hni].
      * rewrite lookup_delete_eq. split; [|by intros (? & ? & _)]. case_bool_decide as D.
        -- by intros [_ ?]%remove_name_elem.
        -- intros (x & Hx & E)%Hin. congruence.
      * rewrite lookup_delete_ne by done. rewrite <- Hin. case_bool_decide; [|done]. subst.
        rewrite remove_name_elem. naive_solver.
    + intros n. rewrite Hl', <- Hdom. destruct (decide (n = i)) as [->|Hni].
      * rewrite lookup_delete_eq. split; [by intros []|by intros []].
      * rewrite lookup_delete_ne by done. naive_solver.
    + intros n x. destruct (decide (n = i)) as [->|Hni]; [by rewrite lookup_delete_eq|].
      rewrite lookup_delete_ne by done. apply Ht.
  - split; [done|done| |done]. intros n. rewrite Hl', Hdom. split; [|by intros []]. intros Hn. split; [done|].
    intros ->. apply Hdom in Hn. rewrite Ei in Hn. by destruct Hn.
Qed.

(** ** Table operations *)

Lemma entry_erase_names i l n : n ∈ names_of (entry_erase i l) <-> n ∈ names_of l /\ n <> i.
Proof.
  unfold names_of, entry_erase. rewrite !list_elem_of_fmap. split.
  - intros (e & -> & [He Hl]%list_elem_of_filter). split; [by exists e|done].
  - intros [(e & -> & He) Hn]. exists e. split; [done|]. by apply list_elem_of_filter.
Qed.

Lemma entry_erase_sorted i l : cs_sorted l -> cs_sorted (entry_erase i l).
Proof.
  induction l as [|e l IH]; [done|]. intros [Hl He]%cs_sorted_cons. unfold entry_erase.
  rewrite filter_cons. case_decide; [|by apply IH]. apply cs_sorted_cons. split; [by apply IH|].
  apply Forall_forall. intros x [_ Hx]%list_elem_of_filter. by apply (proj1 (Forall_forall _ _) He).
Qed.

Lemma entry_erase_Forall (P : CsEntry -> Prop) i l : Forall P l -> Forall P (entry_erase i l).
Proof. intros H. apply Forall_forall. intros x [_ Hx]%list_elem_of_filter. by apply (proj1 (Forall_forall _ _) H). Qed.

Lemma entry_erase_length i l :
  cs_sorted l -> i ∈ names_of l -> S (length (entry_erase i l)) = length l.
Proof.
  intros Hs%cs_sorted_NoDup. unfold names_of, entry_erase. induction l as [|e l IH]; [set_solver|].
  csimpl in Hs. apply NoDup_cons in Hs as [He Hl]. csimpl. intros [->|Hi]%elem_of_cons; rewrite filter_cons.
  - rewrite decide_False by auto. f_equal. f_equal.
    assert (forall x, x ∈ l -> ce_fullName x <> ce_fullName e) as Hx.
    { intros x Hx E. apply He, list_elem_of_fmap. exists x. split; [congruence|done]. }
    clear -Hx. induction l as [|x l IH]; [done|]. rewrite filter_cons_True by (apply Hx; by left).
    f_equal. apply IH. intros y Hy. apply Hx. by right.
  - rewrite decide_True; [simpl; f_equal; by apply IH|]. intros E. by rewrite E in He.
Qed.

(** A write that keeps the Data keeps keys and names. *)
Section update.
Context (f : CsEntry -> CsEntry) (f_data : forall e, ce_data (f e) = ce_data e) (i : Name).

Lemma entry_update_keys l : ce_key <$> entry_update f i l = ce_key <$> l.
Proof using f_data.
  unfold entry_update. induction l as [|e l IH]; [done|]. csimpl. rewrite IH. f_equal.
  case_bool_decide; [|done]. unfold ce_key. by rewrite f_data.
Qed.
Lemma entry_update_names l : names_of (entry_update f i l) = names_of l.
Proof using f_data.
  unfold entry_update, names_of. induction l as [|e l IH]; [done|]. csimpl. rewrite IH. f_equal.
  case_bool_decide; [|done]. unfold ce_fullName. by rewrite f_data.
Qed.
Lemma entry_update_sorted l : cs_sorted l -> cs_sorted (entry_update f i l).
Proof using f_data. unfold cs_sorted. by rewrite entry_update_keys. Qed.
Lemma entry_update_data l : ce_data <$> entry_update f i l = ce_data <$> l.
Proof using f_data.
  unfold entry_update. induction l as [|e l IH]; [done|]. csimpl. rewrite IH. f_equal.
  case_bool_decide; [|done]. by rewrite f_data.
Qed.
Lemma entry_update_length l : length (entry_update f i l) = length l.
Proof using Type. apply length_map. Qed.
End update.

Lemma entry_find_spec i l : i ∈ names_of l -> exists e, entry_find i l = Some e /\ e ∈ l /\ ce_fullName e = i.
Proof.
  intros (x & Hx & Hin)%list_elem_of_fmap. unfold entry_find.
  destruct (list_find_elem_of (fun e => ce_fullName e = i) l x Hin (eq_sym Hx)) as [[k e] He].
  rewrite He. apply list_find_Some in He as (Hk & Hn & _). exists e. split_and!; [done|by eapply list_elem_of_lookup_2|done].
Qed.

Lemma entry_lt_key x y : entry_lt x y = true <-> key_lt (ce_key x) (ce_key y).
Proof. unfold entry_lt, key_lt. rewrite compareData_key. by destruct (key_cmp _ _). Qed.

(** [emplace] keeps the order, adds the entry if its full name is new, and nothing else. *)
Lemma emplace_spec e l :
  cs_sorted l ->
  let '(l', b) := emplace e l in
  cs_sorted l' /\ (b = false -> l' = l /\ ce_fullName e ∈ names_of l) /\
  (b = true -> l' ≡ₚ e :: l /\ ce_fullName e ∉ names_of l).
Proof.
  induction l as [|x l IH]; intros Hs; simpl.
  { split_and!; [by apply cs_sorted_cons|done|]. intros _. split; [done|]. by apply not_elem_of_nil. }
  pose proof Hs as [Hl Hx]%cs_sorted_cons. specialize (IH Hl).
  destruct (entry_lt e x) eqn:E1; [apply entry_lt_key in E1|].
  - assert (Forall (fun y => key_lt (ce_key e) (ce_key y)) (x :: l)) as Hall.
    { constructor; [done|]. eapply Forall_impl; [exact Hx|]. intros y Hy. by eapply (cmp_lt_trans (cmp:=key_cmp)). }
    split_and!; [by apply cs_sorted_cons|done|]. intros _. split; [done|].
    change (ce_fullName e ∉ ce_fullName <$> (x :: l)).
    intros (y & Hy & Hin)%list_elem_of_fmap. apply ce_key_fullName in Hy.
    pose proof (proj1 (Forall_forall _ _) Hall y Hin) as K. simpl in K. unfold key_lt in K. rewrite Hy in K.
    by apply (cmp_irrefl (cmp:=key_cmp)) in K.
  - destruct (entry_lt x e) eqn:E2; [apply entry_lt_key in E2|].
    + destruct (emplace e l) as [l' b]. destruct IH as (H1 & H2 & H3). split_and!.
      * apply cs_sorted_cons. split; [done|]. destruct b.
        -- destruct (H3 eq_refl) as [P _]. rewrite P. by constructor.
        -- by destruct (H2 eq_refl) as [-> _].
      * intros ->. destruct (H2 eq_refl) as [-> Hi]. split; [done|]. by right.
      * intros ->. destruct (H3 eq_refl) as [P Hi]. split; [rewrite P; apply Permutation_swap|].
        csimpl. intros [K|K]%elem_of_cons; [|done]. apply ce_key_fullName in K. unfold key_lt in E2.
        rewrite K in E2. by apply (cmp_irrefl (cmp:=key_cmp)) in E2.
    + split_and!; [done| |done]. intros _. split; [done|]. csimpl.
      apply elem_of_cons. left. apply ce_key_fullName, (cmp_eq (cmp:=key_cmp)).
      assert (key_cmp (ce_key e) (ce_key x) <> Lt) as N1 by (intros H%entry_lt_key; congruence).
      assert (key_cmp (ce_key x) (ce_key e) <> Lt) as N2 by (intros H%entry_lt_key; congruence).
      destruct (key_cmp (ce_key e) (ce_key x)) eqn:K; [done|done|]. by apply (cmp_gt_lt (cmp:=key_cmp)) in K.
Qed.

(** ** The invariant *)

Record cs_ok (c : Cs) : Prop := {
  cs_ok_sorted : cs_sorted (cs_table c);
  cs_ok_policy : policy_ok (cs_table c) (cs_policy c);
}.
Definition cs_within_limit (c : Cs) : Prop := (length (cs_table c) <= cs_limit c)%nat.

Lemma policy_ok_names l l' p : (forall n, n ∈ names_of l <-> n ∈ names_of l') -> policy_ok l p -> policy_ok l' p.
Proof.
  intros H. destruct p as [q|s]; simpl.
  - intros [H1 H2]. split; [done|]. intros n. by rewrite H2, H.
  - intros [H1 H2 H3 H4]. split; [done|done| |done]. intros n. by rewrite H3, H.
Qed.

(** There is an entry to evict as long as the table is not empty. *)
Lemma victim_spec l p :
  policy_ok l p -> l <> [] ->
  exists i, victim p = Some i /\ i ∈ names_of l /\ policy_ok (entry_erase i l) (policy_drop i p).
Proof.
  intros Hp Hne. destruct p as [q|s]; simpl in *.
  - destruct Hp as [Hnd Hq]. destruct q as [|i q].
    + destruct l as [|e l]; [done|]. assert (ce_fullName e ∈ @nil Name) as H by (apply Hq; by left).
      by apply not_elem_of_nil in H.
    + exists i. apply NoDup_cons in Hnd as [Hi Hnd]. split_and!; [done|apply Hq; by left|done|].
      intros n. rewrite entry_erase_names, <- Hq, elem_of_cons. naive_solver.
  - assert (exists i, match pf_unsolicited s with
                      | [] => match pf_stale s with [] => head (pf_fifo s) | i :: _ => Some i end
                      | i :: _ => Some i end = Some i /\ exists t, i ∈ pf_queue t s) as (i & Hi & t & Ht).
    { destruct (pf_unsolicited s) as [|i q] eqn:E1; [|exists i; split; [done|exists QUEUE_UNSOLICITED; simpl; rewrite E1; by left]].
      destruct (pf_stale s) as [|i q] eqn:E2; [|exists i; split; [done|exists QUEUE_STALE; simpl; rewrite E2; by left]].
      destruct (pf_fifo s) as [|i q] eqn:E3; [|exists i; split; [done|exists QUEUE_FIFO; simpl; rewrite E3; by left]].
      exfalso. destruct l as [|e l]; [done|].
      assert (is_Some (pf_info s !! ce_fullName e)) as [info Hinfo] by (apply (pf_dom _ _ Hp); by left).
      assert (ce_fullName e ∈ pf_queue (ei_queueType info) s) as H by (apply (pf_in _ _ Hp); eauto).
      destruct (ei_queueType info); simpl in H; rewrite ?E1, ?E2, ?E3 in H; by apply not_elem_of_nil in H. }
    exists i. split_and!; [done| |].
    + apply (pf_dom _ _ Hp). apply (pf_in _ _ Hp) in Ht as (info & -> & _). by eexists.
    + apply (pf_detach i l _ s Hp). intros n. apply entry_erase_names.
Qed.

(** Eviction takes entries until the limit holds, and only entries of the table. *)
Lemma evict_loop_ok fuel c :
  cs_ok c -> (length (cs_table c) <= fuel)%nat ->
  let c' := evict_loop fuel c in
  cs_ok c' /\ cs_within_limit c' /\ cs_limit c' = cs_limit c /\
  (forall e, e ∈ cs_table c' -> e ∈ cs_table c).
Proof.
  revert c. induction fuel as [|fuel IH]; intros c Hok Hf c'; subst c'; simpl.
  - split_and!; [done|unfold cs_within_limit; lia|done|done].
  - destruct (Nat.ltb_spec (cs_limit c) (length (cs_table c))) as [L|L]; [|done].
    destruct Hok as [Hs Hp]. destruct (victim_spec _ _ Hp) as (i & -> & Hi & Hp').
    { intros E. rewrite E in L. simpl in L. lia. }
    pose proof (entry_erase_length i (cs_table c) Hs Hi) as Hlen.
    set (c1 := set_table _ _).
    destruct (IH c1) as (H1 & H2 & H3 & H4); [by split; [apply entry_erase_sorted|]|simpl; lia|].
    split_and!; [exact H1|exact H2|exact H3|]. intros e He. apply H4 in He. simpl in He.
    by apply list_elem_of_filter in He as [_ He].
Qed.

Lemma evictEntries_ok c :
  cs_ok c -> cs_ok (evictEntries c) /\ cs_within_limit (evictEntries c) /\
  cs_limit (evictEntries c) = cs_limit c /\ (forall e, e ∈ cs_table (evictEntries c) -> e ∈ cs_table c).
Proof. intros H. by apply evict_loop_ok. Qed.

(** ** The operations *)

(** What the policy does with a new entry before evicting. *)
Definition policy_insert (now : time) (e : CsEntry) (p : Policy) : Policy :=
  match p with
  | PolicyLru q => PolicyLru (insertToQueue (ce_fullName e) true q)
  | PolicyPriorityFifo s => PolicyPriorityFifo (attachQueue now e s)
  end.

Lemma policy_insert_ok now e l l' p :
  policy_ok l p -> ce_fullName e ∉ names_of l ->
  (forall n, n ∈ names_of l' <-> n = ce_fullName e \/ n ∈ names_of l) -> policy_ok l' (policy_insert now e p).
Proof.
  intros Hp Hn Hl'. destruct p as [q|s]; simpl in *.
  - destruct Hp as [Hnd Hq]. destruct (insertToQueue_spec (ce_fullName e) true q Hnd) as (_ & H2 & H3).
    { intros _. by rewrite Hq. }
    split; [done|]. intros n. by rewrite H3, Hl', Hq.
  - by eapply pf_attach.
Qed.

Lemma afterRefresh_ok now e c :
  cs_ok c -> ce_fullName e ∈ names_of (cs_table c) ->
  cs_ok (afterRefresh now e c) /\ cs_table (afterRefresh now e c) = cs_table c.
Proof.
  intros [Hs Hp] He. split; [|done]. split; [done|]. unfold afterRefresh. simpl.
  destruct (cs_policy c) as [q|s]; simpl in *.
  - destruct Hp as [Hnd Hq]. destruct (insertToQueue_spec (ce_fullName e) false q Hnd) as (_ & H2 & H3); [done|].
    split; [done|]. intros n. rewrite H3, Hq. naive_solver.
  - set (l1 := entry_erase (ce_fullName e) (cs_table c)).
    assert (pf_ok l1 (detachQueue (ce_fullName e) s)) as Hd
      by (eapply pf_detach; [exact Hp|]; intros n; apply entry_erase_names).
    eapply pf_attach; [exact Hd| |].
    + unfold l1. rewrite entry_erase_names. naive_solver.
    + intros n. unfold l1. rewrite entry_erase_names. destruct (decide (n = ce_fullName e)) as [->|]; naive_solver.
Qed.

Lemma beforeUse_ok i c :
  cs_ok c -> i ∈ names_of (cs_table c) ->
  cs_ok (beforeUse i c) /\ cs_table (beforeUse i c) = cs_table c /\ cs_limit (beforeUse i c) = cs_limit c.
Proof.
  intros [Hs Hp] Hi. unfold beforeUse. destruct (cs_policy c) as [q|s] eqn:Ep; simpl in *.
  - split_and!; [|done|done]. split; [done|]. simpl. destruct Hp as [Hnd Hq].
    destruct (insertToQueue_spec i false q Hnd) as (_ & H2 & H3); [done|]. split; [done|].
    intros n. rewrite H3, Hq. naive_solver.
  - split_and!; [|done|done]. split; [done|]. by rewrite Ep.
Qed.

Lemma policy_erase_ok i l p :
  policy_ok l p ->
  policy_ok (entry_erase i l)
    (match p with PolicyLru q => PolicyLru (remove_name i q) | PolicyPriorityFifo s => PolicyPriorityFifo (detachQueue i s) end).
Proof.
  intros Hp. destruct p as [q|s]; simpl in *.
  - destruct Hp as [Hnd Hq]. split; [by apply remove_name_NoDup|]. intros n.
    by rewrite remove_name_elem, entry_erase_names, Hq.
  - eapply pf_detach; [exact Hp|]. intros n. apply entry_erase_names.
Qed.

Lemma erase_entries_ok vs c :
  cs_ok c ->
  cs_ok (erase_entries vs c) /\ cs_limit (erase_entries vs c) = cs_limit c /\
  cs_table (erase_entries vs c) = filter (fun e => ce_fullName e ∉ names_of vs) (cs_table c).
Proof.
  revert c. induction vs as [|v vs IH]; intros c Hok.
  - split_and!; [done|done|]. simpl. symmetry. induction (cs_table c) as [|e l IHl]; [done|].
    rewrite filter_cons_True by apply not_elem_of_nil. by rewrite IHl.
  - simpl. set (c1 := set_table _ _). assert (cs_ok c1) as Hok1.
    { destruct Hok as [Hs Hp]. split; [by apply entry_erase_sorted|]. by apply policy_erase_ok. }
    destruct (IH c1 Hok1) as (H1 & H2 & H3). split_and!; [done|done|]. rewrite H3. unfold c1. simpl.
    unfold entry_erase. rewrite list_filter_filter. apply list_filter_iff. intros e. csimpl.
    rewrite not_elem_of_cons. naive_solver.
Qed.

Lemma emplace_elem e l x : let '(l', b) := emplace e l in x ∈ l' -> x = e \/ x ∈ l.
Proof.
  induction l as [|y l IH]; simpl; [set_solver|].
  destruct (entry_lt e y); [set_solver|]. destruct (entry_lt y e); [|set_solver].
  destruct (emplace e l) as [l' b]. intros [->|H]%elem_of_cons; [right; by left|].
  destruct (IH H); [by left|right; by right].
Qed.

(** At most one entry over the limit: one entry is evicted, the policy's victim. *)
Lemma evict_one c :
  cs_ok c -> (length (cs_table c) <= S (cs_limit c))%nat ->
  cs_table (evictEntries c) =
    if (cs_limit c <? length (cs_table c))%nat
    then match victim (cs_policy c) with Some i => entry_erase i (cs_table c) | None => cs_table c end
    else cs_table c.
Proof.
  intros Hok Hl. unfold evictEntries. destruct (length (cs_table c)) as [|k] eqn:El; [by destruct (cs_limit c)|].
  simpl evict_loop. rewrite El. destruct (Nat.ltb_spec (cs_limit c) (S k)) as [L|L]; [|done].
  destruct Hok as [Hs Hp]. destruct (victim_spec _ _ Hp) as (i & -> & Hi & _); [by intros E; rewrite E in El|].
  pose proof (entry_erase_length i _ Hs Hi) as Hlen.
  destruct k as [|k]; [done|]. simpl. rewrite (proj2 (Nat.ltb_ge _ _)) by lia. done.
Qed.

Lemma entry_find_cons i e l :
  entry_find i (e :: l) = if decide (ce_fullName e = i) then Some e else entry_find i l.
Proof. unfold entry_find. simpl. case_decide; [done|]. by destruct (list_find _ l) as [[]|]. Qed.

Lemma entry_find_update f i l :
  (forall e, ce_data (f e) = ce_data e) -> entry_find i (entry_update f i l) = f <$> entry_find i l.
Proof.
  intros Hf. assert (forall e, ce_fullName (f e) = ce_fullName e) as Hn by (intros e; unfold ce_fullName; by rewrite Hf).
  induction l as [|e l IH]; [done|]. unfold entry_update in *. simpl map. rewrite !entry_find_cons.
  case_bool_decide as D; rewrite ?Hn; case_decide; try done.
Qed.

Lemma entry_update_id f i l : (forall x, x ∈ l -> ce_fullName x = i -> f x = x) -> entry_update f i l = l.
Proof.
  unfold entry_update. induction l as [|e l IH]; intros Hf; [done|]. simpl. rewrite IH.
  - case_bool_decide; [|done]. f_equal. by apply Hf; [left|].
  - intros x Hx. apply Hf. by right.
Qed.

(** The unique entry of a full name. *)
Lemma sorted_unique l x y : cs_sorted l -> x ∈ l -> y ∈ l -> ce_fullName x = ce_fullName y -> x = y.
Proof.
  intros Hs%cs_sorted_NoDup [k Hk]%list_elem_of_lookup [j Hj]%list_elem_of_lookup E.
  assert (k = j) as ->; [|congruence].
  apply (NoDup_lookup _ _ _ (ce_fullName x) Hs); rewrite list_lookup_fmap; [by rewrite Hk|by rewrite Hj, E].
Qed.

Lemma insert_existing now d u c :
  cs_ok c -> getFullName d ∈ names_of (cs_table c) ->
  emplace (CsEntry_new now d u) (cs_table c) = (cs_table c, false) ->
  cs_shouldAdmit c = true -> cs_limit c <> 0%nat -> d_noCache d = false ->
  let c' := Cs_insert now d u c in
  cs_ok c' /\ cs_limit c' = cs_limit c /\ ce_data <$> cs_table c' = ce_data <$> cs_table c /\
  exists x, entry_find (getFullName d) (cs_table c') = Some x /\
            ce_freshUntil x = (now + d_freshness (ce_data x) * ms)%Z /\
            (u = false -> ce_isUnsolicited x = false).
Proof.
  intros Hok Hi He Ha Hl Hn. unfold Cs_insert. rewrite Ha, Hn, He. apply Nat.eqb_neq in Hl. rewrite Hl. simpl.
  set (i := getFullName d) in *. set (g := fun e => if _ && _ then clearUnsolicited e else e).
  set (l1 := entry_update (updateFreshUntil now) i (cs_table c)).
  assert (forall e, ce_data (g e) = ce_data e) as Hg by (intros e; unfold g; by case_match).
  assert (forall e, ce_data (updateFreshUntil now e) = ce_data e) as Hf by done.
  assert (names_of (entry_update g i l1) = names_of (cs_table c)) as Hnames
    by (unfold l1; by rewrite !entry_update_names).
  destruct (entry_find_spec i (entry_update g i l1)) as (x & Hx & Hin & Hxi); [by rewrite Hnames|].
  rewrite Hx. assert (cs_ok (set_table (entry_update g i l1) c)) as Hok'.
  { destruct Hok as [Hs Hp]. split; simpl; [by apply entry_update_sorted, entry_update_sorted|].
    eapply policy_ok_names; [|exact Hp]. intros n. by rewrite Hnames. }
  destruct (afterRefresh_ok now x (set_table (entry_update g i l1) c) Hok') as [H1 H2];
    [simpl; rewrite Hxi, Hnames; done|].
  split_and!; [done|done| |].
  - rewrite H2. simpl. unfold l1. by rewrite !entry_update_data.
  - exists x. rewrite H2. split; [done|]. unfold l1 in Hx. rewrite !entry_find_update in Hx by done.
    destruct (entry_find i (cs_table c)) as [y|]; [|done]. simpl in Hx. injection Hx as <-.
    unfold g. split; [by case_match|]. intros ->. simpl. by destruct (ce_isUnsolicited y) eqn:Ey; simpl; rewrite ?Ey.
Qed.

Lemma insert_new now d u c l' :
  cs_ok c -> cs_within_limit c ->
  emplace (CsEntry_new now d u) (cs_table c) = (l', true) ->
  cs_shouldAdmit c = true -> cs_limit c <> 0%nat -> d_noCache d = false ->
  let e := CsEntry_new now d u in
  exists c1, Cs_insert now d u c = evictEntries c1 /\ cs_ok c1 /\ cs_limit c1 = cs_limit c /\
    cs_table c1 = l' /\ cs_policy c1 = policy_insert now e (cs_policy c).
Proof.
  intros Hok Hw He Ha Hl Hn e. unfold Cs_insert. rewrite Ha, Hn, He. apply Nat.eqb_neq in Hl. rewrite Hl. simpl.
  pose proof (emplace_spec e (cs_table c) (cs_ok_sorted _ Hok)) as H. fold e in He. rewrite He in H.
  destruct H as (Hs & _ & H). destruct (H eq_refl) as [P Hni].
  assert (e ∈ l') as Hel by (rewrite P; by left).
  assert (entry_update (updateFreshUntil now) (getFullName d) l' = l') as ->.
  { apply entry_update_id. intros x Hx Hxn. assert (x = e) as -> by (by eapply sorted_unique). done. }
  destruct (entry_find_spec (getFullName d) l') as (x & -> & Hx & Hxn);
    [apply list_elem_of_fmap; by exists e|].
  assert (x = e) as -> by (by eapply sorted_unique).
  eexists. split; [reflexivity|]. split_and!; [|done|done|done]. split; [done|]. simpl.
  eapply policy_insert_ok; [by apply Hok|exact Hni|]. intros n. unfold names_of. rewrite P. csimpl. by rewrite elem_of_cons.
Qed.

(** What the pipelines need of the operations: the invariant. *)
Lemma cs_insert_ok now d u c :
  cs_ok c -> cs_within_limit c -> cs_ok (Cs_insert now d u c) /\ cs_within_limit (Cs_insert now d u c).
Proof.
  intros Hok Hw. destruct (negb (cs_shouldAdmit c) || (cs_limit c =? 0)%nat || d_noCache d) eqn:Ead.
  { unfold Cs_insert. destruct (negb (cs_shouldAdmit c) || (cs_limit c =? 0)%nat); [done|]. simpl in Ead. by rewrite Ead. }
  bool_to_prop. match goal with H : (_ =? 0)%nat = false |- _ => apply Nat.eqb_neq in H as Hl end.
  pose proof (emplace_spec (CsEntry_new now d u) (cs_table c) (cs_ok_sorted _ Hok)) as He.
  destruct (emplace _ (cs_table c)) as [l' [|]] eqn:Eem; destruct He as (_ & Hf & _).
  - destruct (insert_new now d u c l') as (c1 & -> & Hok1 & _); [done..|].
    by destruct (evictEntries_ok c1 Hok1) as (? & ? & _).
  - destruct (Hf eq_refl) as [-> Hni].
    destruct (insert_existing now d u c) as (G1 & G2 & G3 & _); [done..|]. split; [done|].
    unfold cs_within_limit in *. rewrite G2. apply (f_equal length) in G3. rewrite !length_fmap in G3. lia.
Qed.

Lemma cs_find_ok now i c :
  cs_ok c -> let '(c', r) := Cs_find now i c in
  cs_ok c' /\ cs_table c' = cs_table c /\ cs_limit c' = cs_limit c /\
  (forall e, r = Some e -> e ∈ cs_table c /\ canSatisfy now i e = true).
Proof.
  intros Hok. unfold Cs_find. destruct (_ || _); [done|]. destruct (findPrefixRange _ _) as [a b].
  destruct (list_find _ (take (b - a) (drop a (cs_table c)))) as [[k e]|] eqn:E; [|done].
  apply list_find_Some in E as (Hk & Hc & _). apply list_elem_of_lookup_2 in Hk.
  assert (e ∈ cs_table c) as Hin.
  { apply elem_of_take in Hk as (j & Hj & _). rewrite lookup_drop in Hj. by eapply list_elem_of_lookup_2. }
  destruct (beforeUse_ok (ce_fullName e) c Hok) as (H1 & H2 & H3); [by apply list_elem_of_fmap_2|].
  split_and!; [done..|]. by intros ? [= <-].
Qed.

Lemma cs_find_used now i c e q :
  cs_ok c -> (Cs_find now i c).2 = Some e -> cs_policy c = PolicyLru q ->
  cs_policy (Cs_find now i c).1 = PolicyLru (remove_name (ce_fullName e) q ++ [ce_fullName e]).
Proof.
  intros [_ Hpol] Hr Hq. unfold Cs_find in *. destruct (_ || _); [done|]. destruct (findPrefixRange _ _) as [a b].
  destruct (list_find _ _) as [[k x]|]; [|done]. injection Hr as ->. unfold beforeUse. rewrite Hq in *. simpl. f_equal.
  by destruct (insertToQueue_spec (ce_fullName e) false q (proj1 Hpol)) as (-> & _).
Qed.

Lemma cs_find_off now i c :
  cs_shouldServe c = false \/ cs_limit c = 0%nat -> (Cs_find now i c).2 = None /\ (Cs_find now i c).1 = c.
Proof. unfold Cs_find. intros [-> | ->]; [done|]. by rewrite orb_true_r. Qed.

(** The scan of the range finds what a scan of the whole table would. *)
Lemma cs_find_complete now i c :
  cs_ok c -> Forall (fun e => plain_data (ce_data e)) (cs_table c) -> name_small (i_name i) ->
  cs_shouldServe c = true -> cs_limit c <> 0%nat ->
  (Cs_find now i c).2 = snd <$> list_find (fun e => canSatisfy now i e = true) (cs_table c).
Proof.
  intros Hok Hp Hsm Hserve Hl. unfold Cs_find. rewrite Hserve. apply Nat.eqb_neq in Hl. rewrite Hl. cbn [negb orb].
  pose proof (range_complete now i (cs_table c) (cs_ok_sorted _ Hok) Hp Hsm) as Hr.
  destruct (findPrefixRange (i_name i) (cs_table c)) as [a b]. destruct Hr as [Ha Hb].
  rewrite <- (list_find_range (fun e => canSatisfy now i e = true) (cs_table c) a b Ha Hb).
  by destruct (list_find _ _) as [[k e]|].
Qed.

Lemma cs_erase_ok prefix limit c :
  cs_ok c -> cs_within_limit c -> cs_ok (Cs_erase prefix limit c).1 /\ cs_within_limit (Cs_erase prefix limit c).1.
Proof.
  intros Hok Hw. unfold Cs_erase. destruct (findPrefixRange prefix (cs_table c)) as [a b]. simpl.
  destruct (erase_entries_ok (take limit (take (b - a) (drop a (cs_table c)))) c Hok) as (H1 & H2 & H3).
  split; [done|]. unfold cs_within_limit in *. rewrite H2, H3. etrans; [apply length_filter|done].
Qed.

(** A write to the entry of a full name that keeps the full name. *)
Lemma cs_retag_ok f i c :
  (forall e, ce_fullName e = i -> ce_fullName (f e) = i) ->
  cs_ok c -> cs_ok (set_table (entry_update f i (cs_table c)) c) /\
  length (entry_update f i (cs_table c)) = length (cs_table c).
Proof.
  intros Hf [Hs Hp]. assert (ce_key <$> entry_update f i (cs_table c) = ce_key <$> cs_table c) as HK.
  { unfold entry_update. clear -Hf. induction (cs_table c) as [|e l IH]; [done|]. csimpl. f_equal; [|done].
    case_bool_decide as D; [|done]. apply ce_key_fullName. rewrite D. by apply Hf. }
  split; [|apply length_map]. split; simpl; [unfold cs_sorted; by rewrite HK|].
  eapply policy_ok_names; [|exact Hp]. intros n. unfold names_of, entry_update. clear -Hf.
  induction (cs_table c) as [|e l IH]; [done|]. csimpl. rewrite !elem_of_cons, IH.
  case_bool_decide as D; [|done]. rewrite (Hf e D). by rewrite D.
Qed.

(** The stale-entry timer of priority FIFO fires for an entry of the FIFO queue. *)
Lemma cs_moveToStale_ok i s t c :
  cs_ok c -> cs_policy c = PolicyPriorityFifo s -> pf_info s !! i = Some (mkEntryInfo QUEUE_FIFO (Some t)) ->
  cs_ok (cs_moveToStale i c).
Proof.
  intros [Hs Hp] Ep Hi. unfold cs_moveToStale. rewrite Ep in *. split; [done|]. simpl in *.
  destruct Hp as [Hnd Hin Hdom Ht]. unfold moveToStaleQueue.
  assert (forall q, i ∈ pf_queue q s <-> q = QUEUE_FIFO) as Hq.
  { intros q. rewrite Hin, Hi. split; [by intros (? & [= <-] & <-)|intros ->; eauto]. }
  assert (i ∉ pf_stale s) as Hst by by rewrite (Hq QUEUE_STALE).
  split; simpl.
  - intros []; simpl; [apply (Hnd QUEUE_UNSOLICITED)| |apply remove_name_NoDup, (Hnd QUEUE_FIFO)].
    apply NoDup_app. split_and!; [apply (Hnd QUEUE_STALE)| |apply NoDup_singleton].
    by intros x Hx ->%list_elem_of_singleton.
  - intros q n. destruct (decide (n = i)) as [->|Hni].
    + rewrite lookup_insert_eq. destruct q; simpl.
      * rewrite (Hq QUEUE_UNSOLICITED). split; [done|]. intros (? & E & ?). by simplify_eq.
      * rewrite elem_of_app. split; [eauto|]. intros _. right. by left.
      * rewrite remove_name_elem. split; [by intros []|]. intros (? & E & ?). by simplify_eq.
    + rewrite lookup_insert_ne by done. rewrite <- Hin. destruct q; simpl; [done| |].
      * rewrite elem_of_app, list_elem_of_singleton. naive_solver.
      * rewrite remove_name_elem. naive_solver.
  - intros n. rewrite <- Hdom. destruct (decide (n = i)) as [->|Hni];
      [rewrite lookup_insert_eq, Hi; split; by eexists|by rewrite lookup_insert_ne].
  - intros n x. destruct (decide (n = i)) as [->|Hni];
      [rewrite lookup_insert_eq; intros [= <-]; simpl; split; [by intros []|done]|].
    rewrite lookup_insert_ne by done. apply Ht.
Qed.

(** C32: [Cs::insert]. The table stays sorted, the policy's queues stay in step with it and
    the capacity is respected, under both policies. A Data that is not admitted changes
    nothing; a Data already stored is refreshed and nothing is evicted; a new Data is added,
    and when the store was full exactly the policy's first choice is evicted for it. *)
Theorem cs_insert_spec (now : time) (d : Data) (isUnsolicited : bool) (c : Cs) :
  cs_ok c -> cs_within_limit c ->
  let c' := Cs_insert now d isUnsolicited c in
  let e := CsEntry_new now d isUnsolicited in
  cs_ok c' /\ cs_within_limit c' /\ cs_limit c' = cs_limit c /\
  (if negb (cs_shouldAdmit c) || (cs_limit c =? 0)%nat || d_noCache d then c' = c
   else if decide (getFullName d ∈ names_of (cs_table c)) then
     ce_data <$> cs_table c' = ce_data <$> cs_table c /\
     exists x, entry_find (getFullName d) (cs_table c') = Some x /\
               ce_freshUntil x = (now + d_freshness (ce_data x) * ms)%Z /\
               (isUnsolicited = false -> ce_isUnsolicited x = false)
   else
     if (length (cs_table c) <? cs_limit c)%nat then cs_table c' ≡ₚ e :: cs_table c
     else exists i, victim (policy_insert now e (cs_policy c)) = Some i /\
                    cs_table c' ≡ₚ entry_erase i (e :: cs_table c)).
Proof.
  intros Hok Hw c' e. destruct (negb (cs_shouldAdmit c) || (cs_limit c =? 0)%nat || d_noCache d) eqn:Ead.
  { assert (c' = c) as ->; [|done]. subst c'. unfold Cs_insert.
    destruct (negb (cs_shouldAdmit c) || (cs_limit c =? 0)%nat); [done|]. simpl in Ead. by rewrite Ead. }
  bool_to_prop. match goal with H : (_ =? 0)%nat = false |- _ => apply Nat.eqb_neq in H as Hl end.
  pose proof (emplace_spec e (cs_table c) (cs_ok_sorted _ Hok)) as He.
  destruct (emplace e (cs_table c)) as [l' b] eqn:Eem. destruct He as (Hs & Hf & Ht). destruct b.
  - destruct (Ht eq_refl) as [P Hni]. rewrite decide_False by exact Hni.
    destruct (insert_new now d isUnsolicited c l') as (c1 & Ec & Hok1 & Hl1 & Ht1 & Hp1); [done..|].
    subst c'. rewrite Ec. destruct (evictEntries_ok c1 Hok1) as (G1 & G2 & G3 & _).
    split_and!; [done|done|congruence|]. unfold cs_within_limit in Hw.
    assert (length (cs_table c1) = S (length (cs_table c))) as Hlen by (rewrite Ht1, P; done).
    rewrite evict_one by (done || lia). rewrite Hlen, Hl1, Ht1.
    destruct (Nat.ltb_spec (length (cs_table c)) (cs_limit c)) as [L|L].
    + rewrite (proj2 (Nat.ltb_ge _ _)) by lia. exact P.
    + rewrite (proj2 (Nat.ltb_lt _ _)) by lia.
      destruct (victim_spec (cs_table c1) (cs_policy c1)) as (i & Hi & _ & _);
        [apply Hok1|intros E; by rewrite E in Hlen|].
      rewrite Hi. exists i. split; [by rewrite <- Hi, Hp1|]. unfold entry_erase. by rewrite P.
  - destruct (Hf eq_refl) as [-> Hni]. rewrite decide_True by exact Hni.
    destruct (insert_existing now d isUnsolicited c) as (G1 & G2 & G3 & G4); [done..|].
    split_and!; [done| |done|done|done]. unfold cs_within_limit in *. fold c' in G2, G3. rewrite G2.
    apply (f_equal length) in G3. rewrite !length_fmap in G3. lia.
Qed.

Lemma cs_new_ok n : cs_ok (Cs_new n) /\ cs_within_limit (Cs_new n).
Proof. split; [split; [constructor|split; [constructor|done]]|unfold cs_within_limit; simpl; lia]. Qed.

Lemma cs_insert_spec_witness :
  cs_ok (Cs_new 1) /\ length (cs_table (Cs_insert 5 sample_data false (Cs_new 1))) = 1%nat /\
  cs_within_limit (Cs_insert 5 sample_data false (Cs_new 1)).
Proof.
  destruct (cs_new_ok 1) as [H1 H2]. split; [exact H1|]. split; [by vm_compute|].
  destruct (cs_insert_spec 5 sample_data false (Cs_new 1) H1 H2) as (_ & H & _). exact H.
Defined.

(** ** The policies' assertions

    [LruPolicy::insertToQueue] asserts that the entry is new to the queue exactly when the
    caller says so; [PriorityFifoPolicy] asserts that an entry attached has no queue yet,
    that one used, detached or moved has one, that one moved to the stale queue is in the
    FIFO queue, and both that there is an entry to evict. None of them can fail in a store
    whose policy is in step with its table. *)

Definition assert_isNew (i : Name) (p : Policy) : bool :=
  match p with
  | PolicyLru q => negb (bool_decide (i ∈ q))
  | PolicyPriorityFifo s => bool_decide (pf_info s !! i = None)
  end.
Definition assert_isPresent (i : Name) (p : Policy) : bool :=
  match p with
  | PolicyLru q => bool_decide (i ∈ q)
  | PolicyPriorityFifo s => bool_decide (is_Some (pf_info s !! i))
  end.
Definition assert_canEvict (p : Policy) : bool :=
  match victim p with Some i => assert_isPresent i p | None => false end.
Definition assert_isFifo (i : Name) (p : Policy) : bool :=
  match p with
  | PolicyLru _ => true
  | PolicyPriorityFifo s =>
      match pf_info s !! i with Some info => bool_decide (ei_queueType info = QUEUE_FIFO) | None => false end
  end.

Lemma policy_knows l p i : policy_ok l p ->
  (assert_isPresent i p = true <-> i ∈ names_of l) /\ (assert_isNew i p = true <-> i ∉ names_of l).
Proof.
  destruct p as [q|s]; simpl.
  - intros [_ H]. rewrite negb_true_iff, bool_decide_eq_true, bool_decide_eq_false, H. done.
  - intros [_ _ H _]. rewrite !bool_decide_eq_true, <- H, eq_None_not_Some. done.
Qed.

(** Insertion, whether it adds an entry or refreshes one; erasure and use of an entry found
    in the table; eviction while the table is over the limit; a stale timer that is armed. *)
Lemma policy_assertions (c : Cs) :
  cs_ok c ->
  (forall e, let '(_, isNewEntry) := emplace e (cs_table c) in
     (if isNewEntry then assert_isNew else assert_isPresent) (ce_fullName e) (cs_policy c) = true) /\
  (forall e, e ∈ cs_table c -> assert_isPresent (ce_fullName e) (cs_policy c) = true) /\
  (cs_table c <> [] -> assert_canEvict (cs_policy c) = true) /\
  (forall i s, cs_policy c = PolicyPriorityFifo s ->
     (exists info, pf_info s !! i = Some info /\ is_Some (ei_moveStale info)) ->
     assert_isFifo i (cs_policy c) = true).
Proof.
  intros [Hs Hp]. split_and!.
  - intros e. pose proof (emplace_spec e _ Hs) as H. destruct (emplace e _) as [l' b].
    destruct H as (_ & Hf & Ht). destruct b; [by apply (policy_knows _ _ _ Hp), Ht|by apply (policy_knows _ _ _ Hp), Hf].
  - intros e He. apply (policy_knows _ _ _ Hp), list_elem_of_fmap_2, He.
  - intros Hne. destruct (victim_spec _ _ Hp Hne) as (i & Hi & Hin & _). unfold assert_canEvict. rewrite Hi.
    by apply (policy_knows _ _ _ Hp).
  - intros i s E (info & Hi & Ht). rewrite E in *. simpl. rewrite Hi. by apply bool_decide_eq_true, (pf_timer _ _ Hp _ _ Hi).
Qed.

(** C33: [Cs::find]. The table is not changed, a Data that is returned is stored and
    satisfies the Interest (fresh if it asks for it), and under LRU the entry used becomes
    the last to be evicted; with serving off or no capacity nothing is found or changed.
    When no stored name has an implicit digest component in it ([plain_data]) and the
    Interest's name has fewer than 2^63 components ([name_small]), the lookup, which scans only the range between the Interest's name and its successor,
    returns exactly what a scan of the whole store in its order would: the first stored
    Data that satisfies the Interest; it then misses only when nothing stored satisfies
    it. ([cs_find_misses] shows why stored names are restricted.) *)
Theorem cs_find_spec (now : time) (i : Interest) (c : Cs) :
  cs_ok c ->
  let '(c', r) := Cs_find now i c in
  cs_ok c' /\ cs_table c' = cs_table c /\
  (forall e, r = Some e -> e ∈ cs_table c /\ canSatisfy now i e = true) /\
  (forall e q, r = Some e -> cs_policy c = PolicyLru q ->
     cs_policy c' = PolicyLru (remove_name (ce_fullName e) q ++ [ce_fullName e])) /\
  (cs_shouldServe c = false \/ cs_limit c = 0%nat -> r = None /\ c' = c) /\
  (Forall (fun e => plain_data (ce_data e)) (cs_table c) -> name_small (i_name i) ->
   cs_shouldServe c = true -> cs_limit c <> 0%nat ->
     r = snd <$> list_find (fun e => canSatisfy now i e = true) (cs_table c) /\
     (r = None <-> forall e, e ∈ cs_table c -> canSatisfy now i e = false)).
Proof.
  intros Hok. pose proof (cs_find_ok now i c Hok) as Hsound. pose proof (fun e q => cs_find_used now i c e q Hok) as Hlru.
  pose proof (cs_find_off now i c) as Hoff. pose proof (cs_find_complete now i c Hok) as Hall.
  destruct (Cs_find now i c) as [c' r]. simpl in *. destruct Hsound as (H1 & H2 & _ & H3).
  split_and!; try done. intros Hp Hsm Hserve Hl. rewrite (Hall Hp Hsm Hserve Hl). split; [done|].
  rewrite fmap_None, list_find_None, Forall_forall. setoid_rewrite not_true_iff_false. done.
Qed.

Lemma cs_find_spec_witness :
  let c := Cs_insert 5 sample_data false (Cs_new 1) in
  cs_ok c /\
  (Cs_find 6 sample_interest c).2 = snd <$> list_find (fun e => canSatisfy 6 sample_interest e = true) (cs_table c).
Proof.
  intros c. assert (cs_ok c) as Hok.
  { destruct (cs_new_ok 1) as [H1 _].
    destruct (insert_new 5 sample_data false (Cs_new 1) [CsEntry_new 5 sample_data false] H1)
      as (c1 & Ec & Hc1 & _); [unfold cs_within_limit; simpl; lia|reflexivity|reflexivity|done|reflexivity|].
    unfold c. rewrite Ec. by apply evictEntries_ok. }
  split; [exact Hok|]. pose proof (cs_find_spec 6 sample_interest c Hok) as H.
  destruct (Cs_find 6 sample_interest c) as [c' r]. destruct H as (_ & _ & _ & _ & _ & H).
  apply H; [by repeat constructor|by vm_compute|reflexivity|by vm_compute].
Defined.

(** A Data whose own name ends in a component of the implicit digest's type is stored, and
    satisfies the Interest for exactly that name, but the lookup takes the Interest's last
    component for the digest of a Data one component shorter and misses it. *)
Definition digest_named : Name := [ascii_component "a"; mkComponent ImplicitSha256DigestComponent (repeat x09 32)].
Example cs_find_misses :
  let d := mkData digest_named [x01] 0 (repeat x07 32) None None false in
  let i := mkInterest digest_named false false 1 4000 None [] None None None in
  let c := Cs_insert 5 d false (Cs_new 1) in
  Forall (fun c => ensureValid c = true) digest_named /\ matchesData i d = true /\
  (ce_data <$> cs_table c) = [d] /\ (Cs_find 6 i c).2 = None.
Proof. split_and!; [by repeat constructor|by vm_compute..]. Qed.

(** [Cs::erase] and [Cs::setLimit]. Erasure takes the first entries, in the store's
    order and at most as many as asked, of the range of the prefix, and nothing else, and
    returns how many it took; lowering the capacity evicts until it holds. Both keep the
    table and the policy's queues in step. *)
Theorem cs_erase_spec (prefix : Name) (limit : nat) (c : Cs) :
  cs_ok c ->
  let '(a, b) := findPrefixRange prefix (cs_table c) in
  let victims := take limit (take (b - a) (drop a (cs_table c))) in
  let '(c', n) := Cs_erase prefix limit c in
  cs_ok c' /\ n = length victims /\
  cs_table c' = filter (fun e => ce_fullName e ∉ names_of victims) (cs_table c) /\
  cs_ok (setLimit limit c) /\ cs_within_limit (setLimit limit c) /\ cs_limit (setLimit limit c) = limit.
Proof.
  intros Hok. unfold Cs_erase. destruct (findPrefixRange prefix (cs_table c)) as [a b].
  destruct (erase_entries_ok (take limit (take (b - a) (drop a (cs_table c)))) c Hok) as (H1 & _ & H3).
  assert (cs_ok (set_limit limit c)) as Hok' by (by destruct Hok).
  destruct (evictEntries_ok (set_limit limit c) Hok') as (G1 & G2 & G3 & _). done.
Qed.

Lemma cs_erase_spec_witness :
  cs_ok (Cs_new 3) /\ cs_within_limit (setLimit 0 (Cs_new 3)).
Proof.
  destruct (cs_new_ok 3) as [H _]. split; [exact H|].
  pose proof (cs_erase_spec [] 0 (Cs_new 3) H) as K. destruct (findPrefixRange [] (cs_table (Cs_new 3))).
  destruct (Cs_erase [] 0 (Cs_new 3)). apply K.
Defined.
