(* ===== verification/DeadNonceList.v ===== *)
(** * The Dead Nonce List (table/dead-nonce-list.cpp)

    A queue of hashes of name and nonce, with marks pushed at regular intervals; counting
    the marks tells how long entries live, and the capacity follows. *)

From S2P Require Import Prelude Name CityHash.
Open Scope Z_scope.

(** The 32-bit value of the nonce's bytes ([memcpy] into [uint32_t]) is an [N]. *)

Definition DEFAULT_LIFETIME : Z := 6000000000.
Definition MIN_LIFETIME : Z := 1000000.
Definition INITIAL_CAPACITY : Z := Z.shiftl 1 7.
Definition MIN_CAPACITY : Z := Z.shiftl 1 3.
Definition MAX_CAPACITY : Z := Z.shiftl 1 24.
Definition MARK : Z := 0.
Definition EXPECTED_MARK_COUNT : nat := 5.
Definition EVICT_LIMIT : Z := Z.shiftl 1 6.

(** The doubles 1.2 and 0.9. *)
Definition CAPACITY_UP : Z * Z := (5404319552844595, -52).
Definition CAPACITY_DOWN : Z * Z := (8106479329266893, -53).
Definition f64_mul : Z * Z -> Z -> Z := fp_mul 53.

(** [m_queue] (the sequenced index, oldest first), [m_capacity], [m_actualMarkCounts], and
    the times the two events are scheduled for. *)
Record DeadNonceList := mkDnl {
  dnl_lifetime : Z;
  dnl_queue : list Z;
  dnl_capacity : Z;
  dnl_actualMarkCounts : list nat;
  dnl_markEvent : Z;
  dnl_adjustEvent : Z;
}.

Definition markInterval (d : DeadNonceList) : Z := dnl_lifetime d / Z.of_nat EXPECTED_MARK_COUNT.

Definition Dnl_new (now lifetime : Z) : option DeadNonceList :=
  if lifetime <? MIN_LIFETIME then None
  else Some (mkDnl lifetime (replicate EXPECTED_MARK_COUNT MARK) INITIAL_CAPACITY []
                   (now + lifetime / Z.of_nat EXPECTED_MARK_COUNT) (now + lifetime)).

(** [makeEntry]. *)
Definition makeEntry (name : Name) (nonce : N) : Z :=
  default 0 (CityHash64WithSeed (Name_wireEncode name) (Z.of_N nonce)).

Definition countMarks (d : DeadNonceList) : nat := length (filter (fun e => e = MARK) (dnl_queue d)).
Definition Dnl_size (d : DeadNonceList) : nat := (length (dnl_queue d) - countMarks d)%nat.
Definition Dnl_has (name : Name) (nonce : N) (d : DeadNonceList) : bool :=
  bool_decide (makeEntry name nonce ∈ dnl_queue d).

Definition set_queue q (d : DeadNonceList) : DeadNonceList :=
  mkDnl (dnl_lifetime d) q (dnl_capacity d) (dnl_actualMarkCounts d) (dnl_markEvent d) (dnl_adjustEvent d).

(** [evictEntries]: from the front, at most [EVICT_LIMIT]. *)
Definition Dnl_evict (d : DeadNonceList) : DeadNonceList :=
  let nOverCapacity := Z.of_nat (length (dnl_queue d)) - dnl_capacity d in
  if nOverCapacity <=? 0 then d
  else set_queue (drop (Z.to_nat (Z.min nOverCapacity EVICT_LIMIT)) (dnl_queue d)) d.

Definition Dnl_add (name : Name) (nonce : N) (d : DeadNonceList) : DeadNonceList :=
  Dnl_evict (set_queue (dnl_queue d ++ [makeEntry name nonce]) d).

Definition Dnl_mark (now : Z) (d : DeadNonceList) : DeadNonceList :=
  let d := set_queue (dnl_queue d ++ [MARK]) d in
  mkDnl (dnl_lifetime d) (dnl_queue d) (dnl_capacity d) (countMarks d :: dnl_actualMarkCounts d)
        (now + markInterval d) (dnl_adjustEvent d).

(** [adjustCapacity]. [equal_range] ends at the beginning of the multiset when no count is
    at most the expected one (also when there is no count), and starts at its end when
    every count is below. *)
Definition new_capacity (counts : list nat) (capacity : Z) : Z :=
  if forallb (fun n => (EXPECTED_MARK_COUNT <? n)%nat) counts then
    Z.max MIN_CAPACITY (f64_mul CAPACITY_DOWN capacity)
  else if forallb (fun n => (n <? EXPECTED_MARK_COUNT)%nat) counts then
    Z.min MAX_CAPACITY (f64_mul CAPACITY_UP capacity)
  else capacity.

Definition Dnl_adjustCapacity (now : Z) (d : DeadNonceList) : DeadNonceList :=
  Dnl_evict (mkDnl (dnl_lifetime d) (dnl_queue d)
                   (new_capacity (dnl_actualMarkCounts d) (dnl_capacity d)) []
                   (dnl_markEvent d) (now + dnl_lifetime d)).

(** ** Capacity *)

Definition dnl_ok (d : DeadNonceList) : Prop := MIN_CAPACITY <= dnl_capacity d <= MAX_CAPACITY.

Lemma capacity_log c : MIN_CAPACITY <= c <= MAX_CAPACITY -> Z.log2 c <= 24.
Proof. intros [H1 H2]. change 24 with (Z.log2 MAX_CAPACITY). by apply Z.log2_le_mono. Qed.

(** The product of a double near one and a capacity is exact to less than one part in
    2^28. *)
Lemma f64_product m e c :
  MIN_CAPACITY <= c <= MAX_CAPACITY -> 0 < m < 2 ^ 53 -> e < 0 ->
  (m * c - 2 ^ 25) / 2 ^ (- e) <= f64_mul (m, e) c <= (m * c + 2 ^ 25) / 2 ^ (- e).
Proof.
  intros Hc Hm He. pose proof (capacity_log c Hc) as Hlog. unfold f64_mul, fp_mul. cbn [fst snd].
  rewrite (fp_round_small 53 c) by lia. destruct Hc as [Hc1 Hc2].
  change MIN_CAPACITY with 8 in Hc1. change MAX_CAPACITY with (2 ^ 24) in Hc2.
  assert (0 < m * c) as Hp by lia. pose proof (fp_round_error 53 (m * c) Hp) as Herr. cbv zeta in Herr.
  assert (m * c < 2 ^ 77) as Hlt by (replace (2 ^ 77) with (2 ^ 53 * 2 ^ 24) by reflexivity; nia).
  apply Z.log2_lt_pow2 in Hlt; [|done].
  assert (2 ^ Z.max 0 (Z.log2 (m * c) - (53 - 1)) <= 2 ^ 25) as Hs by (apply Z.pow_le_mono_r; lia).
  set (r := fp_round 53 (m * c)) in *. destruct e as [|e|e]; [lia|lia|].
  change (Z.shiftl r (Z.neg e)) with (Z.shiftr r (Z.pos e)). rewrite Z.shiftr_div_pow2 by done.
  change (- Z.neg e) with (Z.pos e). split; apply Z.div_le_mono; lia.
Qed.

Lemma capacity_up c : MIN_CAPACITY <= c <= MAX_CAPACITY -> c < f64_mul CAPACITY_UP c.
Proof.
  intros Hc. destruct (f64_product 5404319552844595 (-52) c) as [H _]; [done|lia|lia|].
  eapply Z.lt_le_trans; [|exact H]. apply Z.lt_le_trans with (c + 1); [lia|].
  change MIN_CAPACITY with 8 in Hc. apply Z.div_le_lower_bound; lia.
Qed.

Lemma capacity_down c : MIN_CAPACITY <= c <= MAX_CAPACITY -> 0 <= f64_mul CAPACITY_DOWN c < c.
Proof.
  intros Hc. destruct (f64_product 8106479329266893 (-53) c) as [H1 H2]; [done|lia|lia|].
  change MIN_CAPACITY with 8 in Hc. split.
  - eapply Z.le_trans; [|exact H1]. apply Z.div_le_lower_bound; lia.
  - eapply Z.le_lt_trans; [exact H2|]. apply Z.div_lt_upper_bound; lia.
Qed.

Lemma new_capacity_ok counts c :
  MIN_CAPACITY <= c <= MAX_CAPACITY -> MIN_CAPACITY <= new_capacity counts c <= MAX_CAPACITY.
Proof.
  intros Hc. pose proof (capacity_up c Hc). pose proof (capacity_down c Hc).
  unfold new_capacity, MIN_CAPACITY, MAX_CAPACITY in *. repeat case_match; lia.
Qed.

(** [DeadNonceList::adjustCapacity]: the capacity always stays between its bounds; it
    strictly shrinks (unless at the lower bound) when every mark count since the last
    adjustment was above the expected count, strictly grows (unless at the upper bound) when
    every one was below and there was one, and otherwise stays. *)
Theorem adjustCapacity_spec (now : Z) (d : DeadNonceList) :
  dnl_ok d ->
  let c := dnl_capacity d in
  let c' := dnl_capacity (Dnl_adjustCapacity now d) in
  let counts := dnl_actualMarkCounts d in
  MIN_CAPACITY <= c' <= MAX_CAPACITY /\
  (Forall (fun n => EXPECTED_MARK_COUNT < n)%nat counts -> c' < c \/ (c = MIN_CAPACITY /\ c' = c)) /\
  (counts <> [] -> Forall (fun n => n < EXPECTED_MARK_COUNT)%nat counts ->
     c < c' \/ (c = MAX_CAPACITY /\ c' = c)) /\
  (Exists (fun n => n <= EXPECTED_MARK_COUNT)%nat counts ->
   Exists (fun n => EXPECTED_MARK_COUNT <= n)%nat counts -> c' = c).
Proof.
  intros Hok c c' counts.
  assert (c' = new_capacity counts c) as -> by (unfold c', Dnl_adjustCapacity, Dnl_evict; by case_match).
  pose proof (new_capacity_ok counts c Hok) as Hb. pose proof (capacity_up c Hok) as Hup.
  pose proof (capacity_down c Hok) as Hdown. unfold dnl_ok in Hok. fold c in Hok.
  assert (forall (f : nat -> bool) (P : nat -> Prop), (forall n, f n = true <-> P n) ->
            forallb f counts = true <-> Forall P counts) as Hall.
  { intros f P Hf. clear -Hf. induction counts as [|n l IH]; simpl; [naive_solver|].
    rewrite andb_true_iff, Hf, IH, Forall_cons. done. }
  assert (forallb (fun n => (EXPECTED_MARK_COUNT <? n)%nat) counts = true <->
          Forall (fun n => EXPECTED_MARK_COUNT < n)%nat counts) as Hgt by (apply Hall; intros n; apply Nat.ltb_lt).
  assert (forallb (fun n => (n <? EXPECTED_MARK_COUNT)%nat) counts = true <->
          Forall (fun n => n < EXPECTED_MARK_COUNT)%nat counts) as Hlt by (apply Hall; intros n; apply Nat.ltb_lt).
  split; [done|]. unfold new_capacity in *. split_and!.
  - intros H%Hgt. rewrite H in Hb |- *. lia.
  - intros Hne H. destruct (forallb (fun n => (EXPECTED_MARK_COUNT <? n)%nat) counts) eqn:E.
    + pose proof (proj1 Hgt eq_refl) as E'. clear E Hgt Hlt. destruct counts as [|n l]; [done|]. apply Forall_cons in E' as [E _].
      apply Forall_cons in H as [H _]. lia.
    + apply Hlt in H. rewrite H in Hb |- *. lia.
  - intros H1 H2. apply Exists_exists in H1 as (x & Hx & Hxe), H2 as (y & Hy & Hye).
    destruct (forallb (fun n => (EXPECTED_MARK_COUNT <? n)%nat) counts) eqn:E.
    { pose proof (proj1 (Forall_forall _ _) (proj1 Hgt eq_refl) x Hx) as K. simpl in K. lia. }
    destruct (forallb (fun n => (n <? EXPECTED_MARK_COUNT)%nat) counts) eqn:E'; [|done].
    pose proof (proj1 (Forall_forall _ _) (proj1 Hlt eq_refl) y Hy) as K. simpl in K. lia.
Qed.

(** ** Remembering *)

Inductive dnl_op := DnlAdd (name : Name) (nonce : N) | DnlMark (now : Z) | DnlAdjust (now : Z).

Definition dnl_exec (d : DeadNonceList) (op : dnl_op) : DeadNonceList :=
  match op with
  | DnlAdd name nonce => Dnl_add name nonce d
  | DnlMark now => Dnl_mark now d
  | DnlAdjust now => Dnl_adjustCapacity now d
  end.
Definition pushes (op : dnl_op) : nat := match op with DnlAdjust _ => 0 | _ => 1 end.

(** [x] is in the queue with fewer than [k] entries behind it. *)
Definition near_back (x : Z) (k : nat) (q : list Z) : Prop := exists l r, q = l ++ x :: r /\ (length r < k)%nat.

Lemma near_back_elem x k q : near_back x k q -> x ∈ q.
Proof. intros (l & r & -> & _). apply elem_of_app. right. by left. Qed.

Lemma near_back_snoc x y k q : near_back x k q -> near_back x (S k) (q ++ [y]).
Proof.
  intros (l & r & -> & Hr). exists l, (r ++ [y]). rewrite length_app. simpl. split; [|lia].
  by rewrite <- app_assoc.
Qed.

Lemma near_back_evict x k d :
  dnl_ok d -> (Z.of_nat k <= MIN_CAPACITY) -> near_back x k (dnl_queue d) -> near_back x k (dnl_queue (Dnl_evict d)).
Proof.
  intros [Hc _] Hk (l & r & Hq & Hr). unfold Dnl_evict. case_match eqn:E; [by exists l, r|]. bool_to_prop. simpl.
  rewrite Hq in *. rewrite length_app in *. cbn [length] in *. exists (drop (Z.to_nat (Z.min (Z.of_nat (length l + S (length r)) - dnl_capacity d) EVICT_LIMIT)) l), r.
  split; [|done]. rewrite drop_app_le; [done|]. lia.
Qed.

Lemma dnl_ok_evict d : dnl_ok d -> dnl_ok (Dnl_evict d).
Proof. intros H. unfold Dnl_evict. by case_match. Qed.

Lemma dnl_exec_ok d op : dnl_ok d -> dnl_ok (dnl_exec d op).
Proof.
  intros H. destruct op; simpl; [by apply dnl_ok_evict|done|]. apply dnl_ok_evict.
  unfold dnl_ok. simpl. by apply new_capacity_ok.
Qed.

Lemma near_back_exec x k d op :
  dnl_ok d -> Z.of_nat (k + pushes op) <= MIN_CAPACITY -> near_back x k (dnl_queue d) ->
  near_back x (k + pushes op) (dnl_queue (dnl_exec d op)).
Proof.
  intros Hok Hk Hn. destruct op; simpl in *.
  - rewrite Nat.add_1_r in *. apply near_back_evict; [done|done|]. by apply near_back_snoc.
  - rewrite Nat.add_1_r. by apply near_back_snoc.
  - rewrite Nat.add_0_r in *. apply near_back_evict; [|done|done].
    unfold dnl_ok. simpl. by apply new_capacity_ok.
Qed.

(** C38: A nonce recorded in the Dead Nonce List is found at once and stays found through
    any further recordings, marks and capacity adjustments, as long as fewer than
    [MIN_CAPACITY] entries and marks have been pushed since. *)
Theorem dead_nonce_remembered (name : Name) (nonce : N) (ops : list dnl_op) (d : DeadNonceList) :
  dnl_ok d -> Z.of_nat (1 + sum_list_with pushes ops) <= MIN_CAPACITY ->
  Dnl_has name nonce (fold_left dnl_exec ops (Dnl_add name nonce d)) = true.
Proof.
  intros Hok Hk. unfold Dnl_has. apply bool_decide_eq_true.
  assert (near_back (makeEntry name nonce) 1 (dnl_queue (Dnl_add name nonce d))) as Hn.
  { apply near_back_evict; [done|done|]. exists (dnl_queue d), []. split; [done|simpl; lia]. }
  assert (dnl_ok (Dnl_add name nonce d)) as Hok' by by apply dnl_ok_evict.
  revert Hn Hok' Hk. generalize 1%nat. generalize (Dnl_add name nonce d). clear d Hok.
  induction ops as [|op ops IH]; intros d k Hn Hok Hk; simpl in *.
  - by eapply near_back_elem.
  - apply (IH _ (k + pushes op)%nat); [|by apply dnl_exec_ok|lia]. by apply near_back_exec; [|lia|].
Qed.

Lemma adjustCapacity_spec_witness :
  dnl_ok (mkDnl DEFAULT_LIFETIME [] 128 [6%nat; 7%nat] 0 0) /\
  dnl_capacity (Dnl_adjustCapacity 1 (mkDnl DEFAULT_LIFETIME [] 128 [6%nat; 7%nat] 0 0)) < 128.
Proof.
  assert (dnl_ok (mkDnl DEFAULT_LIFETIME [] 128 [6%nat; 7%nat] 0 0)) as H by (split; by vm_compute).
  split; [exact H|]. destruct (adjustCapacity_spec 1 _ H) as (_ & K & _).
  destruct K as [K|[K _]]; [repeat constructor|exact K|discriminate K].
Defined.

Lemma dead_nonce_remembered_witness :
  dnl_ok (mkDnl DEFAULT_LIFETIME [] 8 [] 0 0) /\
  Dnl_has [generic [x61]] 7 (fold_left dnl_exec [DnlMark 1; DnlAdjust 2; DnlAdd [] 9]
     (Dnl_add [generic [x61]] 7 (mkDnl DEFAULT_LIFETIME [] 8 [] 0 0))) = true.
Proof.
  assert (dnl_ok (mkDnl DEFAULT_LIFETIME [] 8 [] 0 0)) as H by (split; by vm_compute).
  split; [exact H|]. apply (dead_nonce_remembered _ _ _ _ H). by vm_compute.
Defined.
