(* ===== verification/Measurements.v ===== *)
(** * The Measurements table (table/measurements.cpp)

    Entries in which strategies keep what they measured of a name prefix. An entry lives
    until the cleanup event it was last scheduled for; [extendLifetime] reschedules it. An
    entry is identified by the name of its node. Times are nanoseconds. *)

From S2P Require Import Prelude Name Packet PitEntry FibEntry NodeStore NameTree NameTreeInv Tables Fib.

Definition getInitialLifetime : Z := 4000 * ms.

(** [Measurements::get(name_tree::Entry&)]. *)
Definition new_meas (now : time) (nte : Name) : MeasEntry :=
  mkMeasEntry nte (now + getInitialLifetime) (Some (now + getInitialLifetime)%Z) ∅.
Definition Meas_get_nte (now : time) (nte : Name) (t : TableState) : TableState :=
  match nt_get (ts_nt t) nte ≫= nte_meas with
  | Some _ => t
  | None => nte_modify (setMeasurementsEntry (Some (new_meas now nte))) nte (set_nMeas (ts_nMeas t + 1) t)
  end.

(** [Measurements::get] of a name, of a FIB entry and of a PIT entry: the table and the
    name of the entry. *)
Definition meas_node (name : Name) : Name := take (Nat.min (length name) getMaxDepth) name.
Definition Meas_get (now : time) (name : Name) (t : TableState) : TableState * Name :=
  let t := ts_lookup name (Nat.min (length name) getMaxDepth) t in
  (Meas_get_nte now (meas_node name) t, meas_node name).
Definition Meas_get_fib (now : time) (f : FibEntry) (t : TableState) : TableState * Name :=
  let t := if bool_decide (is_Some (fib_map (ts_nt t) !! fe_prefix f)) then t
           else ts_lookup (fe_prefix f) (length (fe_prefix f)) t in
  (Meas_get_nte now (fe_prefix f) t, fe_prefix f).
Definition Meas_get_pit (now : time) (e : PitEntry) (t : TableState) : option (TableState * Name) :=
  let name := pe_name e in
  if hasDigest name && (length name <=? getMaxDepth)%nat then
    Some (Meas_get_nte now name (ts_lookup name (length name) t), name)
  else nte ← pe_nte e; Some (Meas_get_nte now nte t, nte).

(** [Measurements::getParent]: [None] stands for [nullptr]. *)
Definition Meas_getParent (now : time) (child : Name) (t : TableState) : option (TableState * Name) :=
  match child with
  | [] => None
  | _ => nte ← nt_get (ts_nt t) child ≫= nte_parent; Some (Meas_get_nte now nte t, nte)
  end.

(** [Measurements::findLongestPrefixMatch] with a predicate, and [findExactMatch]. *)
Definition meas_pred (pred : MeasEntry -> bool) : EntrySelector :=
  fun _ e => match nte_meas e with Some m => pred m | None => false end.
Definition Meas_lpm (name : Name) (pred : MeasEntry -> bool) (t : TableState) : option Name :=
  lpm_name (getPrefix name (Z.of_nat getMaxDepth)) (meas_pred pred) (ts_nt t).
Definition Meas_lpm_pit (e : PitEntry) (pred : MeasEntry -> bool) (t : TableState) : option Name :=
  Meas_lpm (pe_name e) pred t.
Definition Meas_findExactMatch (name : Name) (t : TableState) : option MeasEntry :=
  n ← findExactMatch name (length name) (ts_nt t); nt_get (ts_nt t) n ≫= nte_meas.

(** [Measurements::extendLifetime] and [Measurements::cleanup]. *)
Definition extend_to (expiry : time) (e : MeasEntry) : MeasEntry :=
  if (expiry <=? me_expiry e)%Z then e
  else mkMeasEntry (me_name e) expiry (Some expiry) (me_info e).
Definition meas_modify (f : MeasEntry -> MeasEntry) (n : Name) (t : TableState) : TableState :=
  nte_modify (fun e => setMeasurementsEntry (f <$> nte_meas e) e) n t.
Definition Meas_extendLifetime (now : time) (n : Name) (lifetime : Z) (t : TableState) : TableState :=
  meas_modify (extend_to (now + lifetime)) n t.
Definition Meas_cleanup (n : Name) (t : TableState) : TableState :=
  let t := nte_modify (setMeasurementsEntry None) n t in
  let t := ts_eraseIfEmpty n t in
  set_nMeas (ts_nMeas t - 1) t.

(** ** Writes to the Measurements entries *)

(** Trees that differ in Measurements and Strategy Choice entries only. *)
Lemma ts_ok_put m t :
  ts_ok t -> nt_ok m -> fib_map m = fib_map (ts_nt t) -> (forall x, pits_at m x = pits_at (ts_nt t) x) ->
  (forall n s, sc_map m !! n = Some s -> sc_prefix s = n) ->
  (forall n e, meas_map m !! n = Some e -> me_name e = n) -> ts_ok (set_nt m t).
Proof.
  intros [] Hm HF HP HS HM. split; simpl; try done.
  - by rewrite HF.
  - intros n p. by rewrite HP.
  - intros n. by rewrite HP.
Qed.

(** A write to a node's Measurements entry touches that entry only. *)
Section write.
Context (h : option MeasEntry -> option MeasEntry) (n : Name) (m : NT) (Hn : is_Some (m !! n)).
Let w (e : NTE) : NTE := setMeasurementsEntry (h (nte_meas e)) e.

Lemma meas_write_map : meas_map (alter w n m) = partial_alter h n (meas_map m).
Proof.
  destruct Hn as [e He]. apply map_eq. intros x. rewrite meas_map_tbl, tbl_modify, He.
  case_bool_decide; [subst|by rewrite lookup_partial_alter_ne, meas_map_tbl].
  rewrite lookup_partial_alter_eq, meas_map_tbl. unfold tbl. by rewrite He.
Qed.

Lemma meas_write_others :
  fib_map (alter w n m) = fib_map m /\ sc_map (alter w n m) = sc_map m /\
  forall x, pits_at (alter w n m) x = pits_at m x.
Proof using Type.
  clear Hn.
  assert (forall x, (tbl (alter w n m) x).1.1 = (tbl m x).1.1 /\ (tbl (alter w n m) x).2 = (tbl m x).2) as H.
  { intros x. rewrite tbl_modify. case_bool_decide; [|done]. subst. unfold tbl. by destruct (m !! n). }
  split_and!; [apply map_eq; intros x; rewrite !fib_map_tbl; by rewrite (proj1 (H x))
              |apply map_eq; intros x; rewrite !sc_map_tbl; apply H|].
  intros x. rewrite !pits_at_tbl. by rewrite (proj1 (H x)).
Qed.
End write.

Lemma ts_ok_meas_write h n t :
  is_Some (ts_nt t !! n) -> ts_ok t ->
  (forall e, h (meas_map (ts_nt t) !! n) = Some e -> me_name e = n) ->
  ts_ok (nte_modify (fun e => setMeasurementsEntry (h (nte_meas e)) e) n t).
Proof.
  intros Hn Hok Hh. destruct (meas_write_others h n (ts_nt t)) as (H1 & H2 & H3).
  apply ts_ok_put; try done.
  - by apply nt_ok_modify; [|apply Hok].
  - intros x s. cbn [ns_modify gmap_store]. rewrite H2. by apply (ts_sc_ok _ Hok).
  - intros x e. cbn [ns_modify gmap_store]. rewrite (meas_write_map h n (ts_nt t) Hn).
    destruct (decide (n = x)) as [<-|]; [rewrite lookup_partial_alter_eq; auto|].
    rewrite lookup_partial_alter_ne by done. apply (ts_meas_ok _ Hok).
Qed.

(** ** The table's contract *)

Definition meas_counted (t : TableState) : Prop := ts_nMeas t = Z.of_nat (size (meas_map (ts_nt t))).

(** Every entry is scheduled to be cleaned up when it expires. *)
Definition meas_scheduled (t : TableState) : Prop :=
  forall n e, meas_map (ts_nt t) !! n = Some e -> me_cleanup e = Some (me_expiry e).

Lemma ts_ok_set_nMeas k t : ts_ok t -> ts_ok (set_nMeas k t).
Proof. by intros []. Qed.

Lemma nt_get_meas (m : NT) n : nt_get m n ≫= nte_meas = meas_map m !! n.
Proof. unfold meas_map. by rewrite nt_get_map, lookup_omap. Qed.

Lemma meas_node_lookup name t :
  ts_ok t -> let t' := ts_lookup name (Nat.min (length name) getMaxDepth) t in
  ts_ok t' /\ is_Some (ts_nt t' !! meas_node name) /\ meas_map (ts_nt t') = meas_map (ts_nt t) /\
  tbl_eq (ts_nt t') (ts_nt t).
Proof.
  intros Hok t'.
  assert (tbl_eq (ts_nt t') (ts_nt t)) as HE by (apply tbl_eq_lookup; [apply Hok|lia|lia]).
  split_and!; [apply ts_ok_lookup; [done|lia|lia]| |exact (meas_map_proper _ _ HE)|done].
  destruct (nt_lookup_ok name (Nat.min (length name) getMaxDepth) (ts_nt t)) as (_ & _ & H & _);
    [apply Hok|lia|lia|exact H].
Qed.

Lemma Meas_get_nte_ok now n t :
  ts_ok t -> is_Some (ts_nt t !! n) ->
  let t' := Meas_get_nte now n t in
  ts_ok t' /\ (meas_counted t -> meas_counted t') /\ (meas_scheduled t -> meas_scheduled t') /\
  meas_map (ts_nt t') = match meas_map (ts_nt t) !! n with
                        | Some _ => meas_map (ts_nt t)
                        | None => <[n := new_meas now n]> (meas_map (ts_nt t)) end /\
  fib_map (ts_nt t') = fib_map (ts_nt t) /\ (forall x, pits_at (ts_nt t') x = pits_at (ts_nt t) x).
Proof.
  intros Hok Hn. unfold Meas_get_nte. rewrite nt_get_meas.
  destruct (meas_map (ts_nt t) !! n) as [e|] eqn:E; [by split_and!|].
  pose proof (meas_write_map (fun _ => Some (new_meas now n)) n (ts_nt t) Hn) as HM. simpl in HM.
  destruct (meas_write_others (fun _ => Some (new_meas now n)) n (ts_nt t)) as (H1 & _ & H3).
  change (alter _ n (ts_nt t)) with (alter (setMeasurementsEntry (Some (new_meas now n))) n (ts_nt t)) in *.
  change (partial_alter _ n _) with (<[n := new_meas now n]> (meas_map (ts_nt t))) in HM.
  unfold meas_counted, meas_scheduled. simpl. rewrite HM. split_and!; [| | |done|done|done].
  - apply (ts_ok_meas_write (fun _ => Some (new_meas now n)) n (set_nMeas (ts_nMeas t + 1) t) Hn);
      [by apply ts_ok_set_nMeas|by intros e [= <-]].
  - intros ->. rewrite map_size_insert_None by done. lia.
  - intros HS x e. rewrite lookup_insert. case_decide; [by intros [= <-]|apply HS].
Qed.

(** The Measurements table. [get] finds or creates the entry of the (depth-limited)
    name, creating nothing else, with four seconds to live; [extendLifetime] makes an entry
    live until the later of its expiry and the new one, never shorter; [cleanup] removes
    exactly its entry; all keep the tables' invariant, the count of entries, and every entry
    scheduled for cleanup exactly at its expiry. *)
Theorem measurements_spec (now : time) (name : Name) (lifetime : Z) (t : TableState) :
  ts_ok t -> meas_counted t -> meas_scheduled t ->
  let n := meas_node name in
  let m := meas_map (ts_nt t) in
  (let t' := (Meas_get now name t).1 in
   ts_ok t' /\ meas_counted t' /\ meas_scheduled t' /\
   meas_map (ts_nt t') = match m !! n with Some _ => m | None => <[n := new_meas now n]> m end) /\
  (forall e, m !! n = Some e ->
   (let t' := Meas_extendLifetime now n lifetime t in
    ts_ok t' /\ meas_counted t' /\ meas_scheduled t' /\
    exists e', meas_map (ts_nt t') = <[n := e']> m /\ me_info e' = me_info e /\
               me_expiry e' = Z.max (me_expiry e) (now + lifetime)) /\
   (let t' := Meas_cleanup n t in
    ts_ok t' /\ meas_counted t' /\ meas_scheduled t' /\ meas_map (ts_nt t') = delete n m)).
Proof.
  intros Hok Hc Hs. cbn zeta. set (n := meas_node name). set (m := meas_map (ts_nt t)). split.
  - destruct (meas_node_lookup name t Hok) as (H1 & H2 & H3 & _). unfold Meas_get. simpl fst.
    destruct (Meas_get_nte_ok now n _ H1 H2) as (H4 & H5 & H6 & H7 & _).
    unfold meas_counted, meas_scheduled in *. rewrite H3 in *. fold m in H5, H6, H7.
    split_and!; [done|by apply H5|by apply H6|done].
  - intros e He.
    assert (is_Some (ts_nt t !! n)) as Hn.
    { unfold m, meas_map in He. rewrite lookup_omap in He. by destruct (ts_nt t !! n). }
    pose proof (Hs n e He) as Hse. pose proof (ts_meas_ok _ Hok n e He) as Hname. split.
    + set (x := extend_to (now + lifetime) e).
      assert (meas_map (ts_nt (Meas_extendLifetime now n lifetime t)) = <[n := x]> m) as HM.
      { unfold Meas_extendLifetime, meas_modify. simpl.
        change (meas_map (alter (fun y => setMeasurementsEntry (extend_to (now + lifetime) <$> nte_meas y) y) n (ts_nt t)) = <[n := x]> m).
        rewrite (meas_write_map (fmap (extend_to (now + lifetime))) n (ts_nt t) Hn).
        fold m. apply map_eq. intros y. rewrite lookup_partial_alter, lookup_insert. case_decide; [|done].
        subst y. by rewrite He. }
      unfold meas_counted, meas_scheduled. rewrite HM. split_and!.
      * apply (ts_ok_meas_write (fmap (extend_to (now + lifetime))) n t Hn); [done|].
        fold m. rewrite He. intros ? [= <-]. unfold extend_to. by case_match.
      * rewrite map_size_insert_Some by (by exists e). exact Hc.
      * intros y z. rewrite lookup_insert. case_decide; [intros [= <-]|apply Hs].
        unfold x, extend_to. by case_match.
      * exists x. unfold x, extend_to. destruct (Z.leb_spec (now + lifetime) (me_expiry e)); simpl; split_and!; try done; lia.
    + set (t1 := nte_modify (setMeasurementsEntry None) n t).
      assert (ts_ok t1) as Hok1 by (apply (ts_ok_meas_write (fun _ => None) n t Hn); done).
      destruct (eraseIfEmpty_ok n (ts_nt t1)) as [_ HE]; [apply Hok1|].
      assert (meas_map (ts_nt (Meas_cleanup n t)) = delete n m) as HM.
      { etrans; [exact (meas_map_proper _ _ HE)|].
        by apply (meas_write_map (fun _ => None) n (ts_nt t) Hn). }
      unfold meas_counted, meas_scheduled. rewrite HM. split_and!; [| | |done].
      * by apply ts_ok_set_nMeas, ts_ok_eraseIfEmpty.
      * simpl. rewrite map_size_delete, He, Hc. fold m.
        assert (size m <> 0%nat); [|lia]. intros E%map_size_empty_inv. by rewrite E in He.
      * intros y z [_ Hy]%lookup_delete_Some. exact (Hs y z Hy).
Qed.

Lemma measurements_spec_witness :
  ts_ok ts_empty /\ meas_map (ts_nt (Meas_get 5 [generic [x61]] ts_empty).1) !! [generic [x61]]
                    = Some (new_meas 5 [generic [x61]]).
Proof.
  split; [exact ts_ok_empty|].
  destruct (measurements_spec 5 [generic [x61]] 7 ts_empty) as [(_ & _ & _ & H) _];
    [exact ts_ok_empty|reflexivity|by intros n e H|].
  rewrite H. by vm_compute.
Defined.
