(* ===== verification/StrategyChoice.v ===== *)
(** * The Strategy Choice table (table/strategy-choice.cpp)

    The strategy in effect for a name is that of the longest prefix with a Strategy Choice
    entry. An entry holds its strategy by instance name. Changing the strategy of a prefix
    clears the strategy information the old one left on the PIT and Measurements entries
    the change covers, unless the types are the same. *)

From S2P Require Import Prelude Name Packet PitEntry FibEntry NodeStore NameTree NameTreeInv.
From S2P Require Import Tables Fib Pit Measurements StrategyRegistry.

Definition nteHasStrategyChoiceEntry : EntrySelector :=
  fun _ e => match nte_sc e with Some _ => true | None => false end.

(** [findEffectiveStrategy] of a name, of a PIT entry and of a Measurements entry. [None] is the null entry the code's assertion excludes. *)
Definition strategy_at (on : option Name) (t : TableState) : option StrategyInstance :=
  n ← on; sc_strategy <$> (nt_get (ts_nt t) n ≫= nte_sc).
Definition findEffectiveStrategy (prefix : Name) (t : TableState) : option StrategyInstance :=
  strategy_at (lpm_name prefix nteHasStrategyChoiceEntry (ts_nt t)) t.
(** The prefix of the Strategy Choice entry in effect, which owns the strategy object. *)
Definition owner_pit (e : PitEntry) (t : TableState) : option Name :=
  nte ← pe_nte e; lpm_pit nte (pe_name e) nteHasStrategyChoiceEntry (ts_nt t).
Definition owner_meas (n : Name) (t : TableState) : option Name := lpm_entry n nteHasStrategyChoiceEntry (ts_nt t).
Definition findEffectiveStrategy_pit (e : PitEntry) (t : TableState) : option StrategyInstance :=
  strategy_at (owner_pit e t) t.
Definition findEffectiveStrategy_meas (e : MeasEntry) (t : TableState) : option StrategyInstance :=
  strategy_at (owner_meas (me_name e) t) t.

(** [clearStrategyInfo]: of a PIT entry, its records, and of a Measurements entry. *)
Definition clear_record (r : FaceRecord) : FaceRecord :=
  mkFaceRecord (fr_face r) (fr_lastNonce r) (fr_lastRenewed r) (fr_expiry r) ∅.
Definition clear_pit_info (e : PitEntry) : PitEntry :=
  set_inRecords ((fun r => mkInRecord (clear_record (ir_rec r)) (ir_interest r)) <$> pe_inRecords e)
    (set_outRecords ((fun r => mkOutRecord (clear_record (or_rec r)) (or_incomingNack r)) <$> pe_outRecords e)
       (set_pe_info ∅ e)).
Definition clear_meas_info (e : MeasEntry) : MeasEntry :=
  mkMeasEntry (me_name e) (me_expiry e) (me_cleanup e) ∅.
Definition clearStrategyInfo (nte : Name) (t : TableState) : TableState :=
  let t := fold_left (fun t p => pit_modify clear_pit_info p t) (pits_at (ts_nt t) nte) t in
  meas_modify clear_meas_info nte t.

(** [changeStrategy]: the entries below [prefix], except below another Strategy Choice
    entry. *)
Definition change_selector (prefix : Name) : SubTreeSelector :=
  fun n e => if bool_decide (n = prefix) then (true, true)
             else match nte_sc e with Some _ => (false, false) | None => (true, true) end.
Definition changeStrategy (r : Registry) (prefix : Name) (oldStrategy newStrategy : StrategyInstance)
    (t : TableState) : TableState :=
  if areSameType r oldStrategy.2 newStrategy.2 then t
  else fold_left (fun t n => clearStrategyInfo n t)
         (partialEnumerate prefix (change_selector prefix) (ts_nt t)) t.

Inductive InsertResult := SC_OK | NOT_REGISTERED | EXCEPTION | DEPTH_EXCEEDED.

#[global] Instance InsertResult_eq_dec : EqDecision InsertResult.
Proof. solve_decision. Defined.

Definition set_sc (prefix : Name) (strategy : StrategyInstance) (t : TableState) : TableState :=
  nte_modify (setStrategyChoiceEntry (Some (mkScEntry prefix strategy))) prefix t.

(** [setDefaultStrategy]. An exception means that the forwarder does not start. *)
Definition setDefaultStrategy (r : Registry) (asf_accepts : Name -> bool) (strategyName : Name) (t : TableState)
  : option TableState :=
  match Strategy_create r asf_accepts strategyName with
  | inl _ => None
  | inr strategy =>
      let t := ts_lookup [] 0 t in
      Some (set_sc [] strategy (set_nSc (ts_nSc t + 1) t))
  end.

(** [StrategyChoice::insert]. A new entry holds no strategy until the end of the call:
    [oldStrategy] stands in for it, which [changeStrategy] does not read. The result [None] is the dereference of a null entry, when
    there is no strategy in effect at all. *)
Definition SC_insert (r : Registry) (asf_accepts : Name -> bool) (prefix strategyName : Name) (t : TableState)
  : option (TableState * InsertResult) :=
  if (getMaxDepth <? length prefix)%nat then Some (t, DEPTH_EXCEEDED)
  else match Strategy_create r asf_accepts strategyName with
  | inl InvalidArgument => Some (t, EXCEPTION)
  | inl NotRegistered => Some (t, NOT_REGISTERED)
  | inr strategy =>
      let t := ts_lookup prefix (length prefix) t in
      match nt_get (ts_nt t) prefix ≫= nte_sc with
      | Some entry =>
          if bool_decide ((sc_strategy entry).2 = strategy.2) then Some (t, SC_OK)
          else
            let t := changeStrategy r prefix (sc_strategy entry) strategy t in
            Some (set_sc prefix strategy t, SC_OK)
      | None =>
          oldStrategy ← findEffectiveStrategy prefix t;
          let t := set_sc prefix oldStrategy (set_nSc (ts_nSc t + 1) t) in
          let t := changeStrategy r prefix oldStrategy strategy t in
          Some (set_sc prefix strategy t, SC_OK)
      end
  end.

(** [StrategyChoice::erase]: [None] when the assertion that the prefix has a component fails,
    or for a null parent strategy. *)
Definition SC_erase (r : Registry) (prefix : Name) (t : TableState) : option TableState :=
  if (length prefix =? 0)%nat then None
  else
  match findExactMatch prefix (length prefix) (ts_nt t) with
  | None => Some t
  | Some nte =>
      match nt_get (ts_nt t) nte ≫= nte_sc with
      | None => Some t
      | Some entry =>
          parentStrategy ← findEffectiveStrategy (getPrefix prefix (-1)) t;
          let t := changeStrategy r prefix (sc_strategy entry) parentStrategy t in
          let t := nte_modify (setStrategyChoiceEntry None) nte t in
          let t := ts_eraseIfEmpty nte t in
          Some (set_nSc (ts_nSc t - 1) t)
      end
  end.

(** [StrategyChoice::get]. *)
Definition SC_get (prefix : Name) (t : TableState) : option Name :=
  n ← findExactMatch prefix (length prefix) (ts_nt t);
  (fun s => (sc_strategy s).2) <$> (nt_get (ts_nt t) n ≫= nte_sc).

(** ** Writes to the Strategy Choice entries *)

Section write.
Context (v : option ScEntry) (n : Name) (m : NT).

Lemma sc_write_map : is_Some (m !! n) -> sc_map (alter (setStrategyChoiceEntry v) n m) = partial_alter (fun _ => v) n (sc_map m).
Proof.
  intros [e He]. apply map_eq. intros x. rewrite sc_map_tbl, tbl_modify, He.
  case_bool_decide; [subst; by rewrite lookup_partial_alter_eq|by rewrite lookup_partial_alter_ne, sc_map_tbl].
Qed.

Lemma sc_write_others :
  fib_map (alter (setStrategyChoiceEntry v) n m) = fib_map m /\
  meas_map (alter (setStrategyChoiceEntry v) n m) = meas_map m /\
  forall x, pits_at (alter (setStrategyChoiceEntry v) n m) x = pits_at m x.
Proof.
  assert (forall x, (tbl (alter (setStrategyChoiceEntry v) n m) x).1 = (tbl m x).1) as H.
  { intros x. rewrite tbl_modify. case_bool_decide; [|done]. subst. unfold tbl. by destruct (m !! n). }
  split_and!; [apply map_eq; intros x; rewrite !fib_map_tbl; by rewrite H
              |apply map_eq; intros x; rewrite !meas_map_tbl; by rewrite H|].
  intros x. rewrite !pits_at_tbl. by rewrite H.
Qed.
End write.

Lemma ts_ok_sc_write v n t :
  is_Some (ts_nt t !! n) -> ts_ok t -> (forall s, v = Some s -> sc_prefix s = n) ->
  ts_ok (nte_modify (setStrategyChoiceEntry v) n t).
Proof.
  intros Hn Hok Hv. destruct (sc_write_others v n (ts_nt t)) as (H1 & H2 & H3).
  apply ts_ok_put; try done.
  - by apply nt_ok_modify; [|apply Hok].
  - intros x s. cbn [ns_modify gmap_store]. rewrite (sc_write_map v n (ts_nt t) Hn).
    destruct (decide (n = x)) as [<-|]; [rewrite lookup_partial_alter_eq; auto|].
    rewrite lookup_partial_alter_ne by done. apply (ts_sc_ok _ Hok).
  - intros x e. cbn [ns_modify gmap_store]. rewrite H2. apply (ts_meas_ok _ Hok).
Qed.

Lemma ts_ok_set_nSc k t : ts_ok t -> ts_ok (set_nSc k t).
Proof. by intros []. Qed.

Lemma nt_get_sc (m : NT) n : nt_get m n ≫= nte_sc = sc_map m !! n.
Proof. unfold sc_map. by rewrite nt_get_map, lookup_omap. Qed.

(** ** Clearing strategy information *)

(** What clearing the information of some entries may change. *)
Record only_info (t t' : TableState) : Prop := {
  oi_ok : ts_ok t -> ts_ok t';
  oi_node : forall n, is_Some (ts_nt t' !! n) <-> is_Some (ts_nt t !! n);
  oi_fib : fib_map (ts_nt t') = fib_map (ts_nt t);
  oi_sc : sc_map (ts_nt t') = sc_map (ts_nt t);
  oi_pits : forall n, pits_at (ts_nt t') n = pits_at (ts_nt t) n;
  oi_nSc : ts_nSc t' = ts_nSc t;
  oi_pit : forall p, ts_pit t' !! p = ts_pit t !! p \/ ts_pit t' !! p = clear_pit_info <$> ts_pit t !! p;
  oi_meas : forall n, meas_map (ts_nt t') !! n = meas_map (ts_nt t) !! n \/
                      meas_map (ts_nt t') !! n = clear_meas_info <$> meas_map (ts_nt t) !! n;
}.

Lemma clear_pit_idem e : clear_pit_info (clear_pit_info e) = clear_pit_info e.
Proof.
  destruct e as [i ins outs t s f n h]. unfold clear_pit_info, set_inRecords, set_outRecords, set_pe_info. simpl.
  by rewrite <- !list_fmap_compose.
Qed.

Lemma only_info_refl t : only_info t t.
Proof. split; auto. Qed.

Lemma only_info_trans t1 t2 t3 : only_info t1 t2 -> only_info t2 t3 -> only_info t1 t3.
Proof.
  intros H H'. split.
  - intros Hok. by apply H', H.
  - intros n. by rewrite (oi_node _ _ H'), (oi_node _ _ H).
  - by rewrite (oi_fib _ _ H'), (oi_fib _ _ H).
  - by rewrite (oi_sc _ _ H'), (oi_sc _ _ H).
  - intros n. by rewrite (oi_pits _ _ H'), (oi_pits _ _ H).
  - by rewrite (oi_nSc _ _ H'), (oi_nSc _ _ H).
  - intros p. destruct (oi_pit _ _ H' p) as [->| ->], (oi_pit _ _ H p) as [->| ->]; auto.
    right. rewrite <- option_fmap_compose. apply option_fmap_ext. intros e. apply clear_pit_idem.
  - intros n. destruct (oi_meas _ _ H' n) as [->| ->], (oi_meas _ _ H n) as [->| ->]; auto.
    right. by rewrite <- option_fmap_compose.
Qed.

Lemma only_info_fold {A} (f : A -> TableState -> TableState) l t :
  (forall a t, only_info t (f a t)) -> only_info t (fold_left (fun t a => f a t) l t).
Proof.
  intros Hf. revert t. induction l as [|a l IH]; intros t; [apply only_info_refl|].
  exact (only_info_trans _ _ _ (Hf a t) (IH _)).
Qed.

Lemma clear_pit_wf e : wf_entry e -> wf_entry (clear_pit_info e).
Proof.
  intros [H1 H2 H3]. split; simpl.
  - by rewrite <- list_fmap_compose.
  - by rewrite <- list_fmap_compose.
  - apply Forall_fmap. eapply Forall_impl; [exact H3|]. by intros r.
Qed.

Lemma only_info_pit p t : only_info t (pit_modify clear_pit_info p t).
Proof.
  split; try done; auto.
  - apply ts_ok_pit_modify; [done|]. intros e _. apply clear_pit_wf.
  - intros q. simpl. rewrite lookup_alter. case_decide; [subst; auto|auto].
Qed.

Lemma only_info_meas n t : only_info t (meas_modify clear_meas_info n t).
Proof.
  destruct (meas_write_others (fmap clear_meas_info) n (ts_nt t)) as (H1 & H2 & H3).
  destruct (decide (is_Some (ts_nt t !! n))) as [Hn|Hn].
  - pose proof (meas_write_map (fmap clear_meas_info) n (ts_nt t) Hn) as HM. split; try done.
    + intros Hok. apply (ts_ok_meas_write (fmap clear_meas_info) n t Hn Hok).
      intros e. destruct (meas_map (ts_nt t) !! n) as [x|] eqn:E; [|done]. intros [= <-].
      by apply (ts_meas_ok _ Hok n x).
    + intros x. simpl. rewrite lookup_alter. case_decide; [subst; by rewrite fmap_is_Some|done].
    + auto.
    + intros x. change (ts_nt (meas_modify clear_meas_info n t)) with
        (alter (fun e => setMeasurementsEntry (fmap clear_meas_info (nte_meas e)) e) n (ts_nt t)).
      rewrite HM. destruct (decide (n = x)) as [<-|]; [rewrite lookup_partial_alter_eq; auto|].
      rewrite lookup_partial_alter_ne by done. auto.
  - apply eq_None_not_Some in Hn.
    assert (meas_modify clear_meas_info n t = t) as ->; [|apply only_info_refl].
    destruct t. unfold meas_modify, nte_modify, set_nt. simpl in *. f_equal.
    apply map_eq. intros x. rewrite lookup_alter. case_decide; [subst; by rewrite Hn|done].
Qed.

Lemma clearStrategyInfo_only n t : only_info t (clearStrategyInfo n t).
Proof.
  eapply only_info_trans; [|apply only_info_meas].
  apply (only_info_fold (fun p t => pit_modify clear_pit_info p t)). apply only_info_pit.
Qed.

Lemma changeStrategy_only r prefix a b t : only_info t (changeStrategy r prefix a b t).
Proof.
  unfold changeStrategy. destruct (areSameType r a.2 b.2); [apply only_info_refl|].
  apply (only_info_fold clearStrategyInfo). apply clearStrategyInfo_only.
Qed.

(** ** The table's contract *)

Definition sc_counted (t : TableState) : Prop := ts_nSc t = Z.of_nat (size (sc_map (ts_nt t))).

(** The strategy in effect for a name: that of the longest prefix with an entry. *)
Definition effective (m : gmap Name ScEntry) (name : Name) (r : option StrategyInstance) : Prop :=
  exists p s, p `prefix_of` name /\ m !! p = Some s /\ r = Some (sc_strategy s) /\
    forall q, q `prefix_of` name -> is_Some (m !! q) -> (length q <= length p)%nat.

Lemma hit_sc (m : NT) p : hit m nteHasStrategyChoiceEntry p <-> is_Some (sc_map m !! p).
Proof.
  unfold hit, nteHasStrategyChoiceEntry, sc_map. rewrite lookup_omap. destruct (m !! p) as [e|]; simpl.
  - split; [intros (e' & [= <-] & H); by destruct (nte_sc e)|]. intros [f Hf]. exists e. by rewrite Hf.
  - split; [by intros (? & ? & _)|by intros []].
Qed.

Lemma findEffectiveStrategy_ok name t :
  ts_ok t -> is_Some (sc_map (ts_nt t) !! []) ->
  effective (sc_map (ts_nt t)) name (findEffectiveStrategy name t).
Proof.
  intros Hok Hroot. pose proof (ts_tree _ Hok) as Ht. unfold findEffectiveStrategy, strategy_at.
  destruct (lpm_name name nteHasStrategyChoiceEntry (ts_nt t)) as [p|] eqn:E.
  - apply lpm_name_spec in E as (Hp & [s Hs]%hit_sc & Hmax); [|done]. exists p, s. simpl.
    rewrite nt_get_sc, Hs. split_and!; [done..|]. intros q Hq Hx. by apply Hmax; [|apply hit_sc].
  - exfalso. assert ([] ∈ findAllMatches name nteHasStrategyChoiceEntry (ts_nt t)) as Hin.
    { apply findAllMatches_spec; [done|]. split; [apply prefix_nil|by apply hit_sc]. }
    unfold findAllMatches in Hin. rewrite E in Hin. by apply not_elem_of_nil in Hin.
Qed.

Lemma effective_is_Some m name r : effective m name r -> is_Some r.
Proof. intros (p & s & _ & _ & -> & _). by eexists. Qed.

(** Writing the entry of a prefix once its information is cleared. *)
Lemma set_sc_only v prefix t t' :
  ts_ok t -> only_info t t' -> is_Some (ts_nt t !! prefix) -> (forall s, v = Some s -> sc_prefix s = prefix) ->
  let t2 := nte_modify (setStrategyChoiceEntry v) prefix t' in
  ts_ok t2 /\ sc_map (ts_nt t2) = partial_alter (fun _ => v) prefix (sc_map (ts_nt t)) /\
  fib_map (ts_nt t2) = fib_map (ts_nt t) /\ (forall n, pits_at (ts_nt t2) n = pits_at (ts_nt t) n) /\
  ts_nSc t2 = ts_nSc t /\
  (forall p, ts_pit t2 !! p = ts_pit t !! p \/ ts_pit t2 !! p = clear_pit_info <$> ts_pit t !! p).
Proof.
  intros Hok HI Hn Hv t2. assert (is_Some (ts_nt t' !! prefix)) as Hn' by by apply (oi_node _ _ HI).
  destruct (sc_write_others v prefix (ts_nt t')) as (H1 & _ & H3). split_and!.
  - apply ts_ok_sc_write; [done|by apply (oi_ok _ _ HI)|done].
  - etrans; [by apply sc_write_map|]. by rewrite (oi_sc _ _ HI).
  - etrans; [exact H1|apply HI].
  - intros n. etrans; [exact (H3 n)|apply HI].
  - apply HI.
  - apply HI.
Qed.

Lemma sc_lookup_prefix prefix t :
  ts_ok t -> (length prefix <= getMaxDepth)%nat ->
  let t' := ts_lookup prefix (length prefix) t in
  ts_ok t' /\ is_Some (ts_nt t' !! prefix) /\ tbl_eq (ts_nt t') (ts_nt t).
Proof.
  intros Hok Hd t'. split_and!; [by apply ts_ok_lookup| |by apply tbl_eq_lookup; [apply Hok|..]].
  destruct (nt_lookup_ok prefix (length prefix) (ts_nt t)) as (_ & _ & H & _); [apply Hok|done|done|].
  by rewrite firstn_all in H.
Qed.

(** The entry [insert] leaves: an entry that has the instance name already stays. *)
Definition sc_entry_set (m : gmap Name ScEntry) (prefix : Name) (strategy : StrategyInstance) : ScEntry :=
  match m !! prefix with
  | Some e => if bool_decide ((sc_strategy e).2 = strategy.2) then e else mkScEntry prefix strategy
  | None => mkScEntry prefix strategy
  end.

Lemma sc_insert_ok r acc prefix sname t :
  ts_ok t -> sc_counted t -> is_Some (sc_map (ts_nt t) !! []) ->
  exists t' res, SC_insert r acc prefix sname t = Some (t', res) /\ ts_ok t' /\ sc_counted t' /\
    (if bool_decide (res = SC_OK) then
       exists inst, Strategy_create r acc sname = inr inst /\
         sc_map (ts_nt t') = <[prefix := sc_entry_set (sc_map (ts_nt t)) prefix inst]> (sc_map (ts_nt t))
     else t' = t) /\
    fib_map (ts_nt t') = fib_map (ts_nt t) /\ (forall n, pits_at (ts_nt t') n = pits_at (ts_nt t) n) /\
    (forall p, ts_pit t' !! p = ts_pit t !! p \/ ts_pit t' !! p = clear_pit_info <$> ts_pit t !! p).
Proof.
  intros Hok Hc Hroot. unfold SC_insert. destruct (Nat.ltb_spec getMaxDepth (length prefix)) as [|Hd].
  { exists t, DEPTH_EXCEEDED. split_and!; try done; auto. }
  destruct (Strategy_create r acc sname) as [[]|inst]; [eexists t, _; split_and!; try done; auto..|].
  destruct (sc_lookup_prefix prefix t Hok Hd) as (Hok1 & Hn & HE).
  assert (ts_nSc (ts_lookup prefix (length prefix) t) = ts_nSc t) as Hc1 by done.
  assert (ts_pit (ts_lookup prefix (length prefix) t) = ts_pit t) as Hp1 by done.
  set (t1 := ts_lookup prefix (length prefix) t) in *. clearbody t1.
  pose proof (sc_map_proper _ _ HE) as HS. pose proof (fib_map_proper _ _ HE) as HF.
  assert (forall n, pits_at (ts_nt t1) n = pits_at (ts_nt t) n) as HP by (intros n; exact (pits_at_proper _ _ HE n n eq_refl)).
  rewrite nt_get_sc. unfold sc_counted in *. destruct (sc_map (ts_nt t1) !! prefix) as [s0|] eqn:E0.
  - case_bool_decide as D.
    + exists t1, SC_OK. split_and!; [done|done|congruence| |done|done|rewrite Hp1; auto].
      cbn. exists inst. split; [done|]. unfold sc_entry_set. rewrite <- HS, E0, bool_decide_true by done.
      by rewrite insert_id.
    + destruct (set_sc_only (Some (mkScEntry prefix inst)) prefix t1 _ Hok1
        (changeStrategy_only r prefix (sc_strategy s0) inst t1) Hn) as (H1 & H2 & H3 & H4 & H5 & H6); [by intros ? [= <-]|].
      eexists _, SC_OK. unfold set_sc. split_and!; [done|exact H1| | |congruence|by intros n; rewrite H4|by rewrite <- Hp1].
      * rewrite H5, Hc1, Hc, H2, HS. change (partial_alter _ prefix _) with (<[prefix := mkScEntry prefix inst]> (sc_map (ts_nt t))).
        rewrite map_size_insert_Some; [done|]. exists s0. by rewrite <- HS.
      * exists inst. split; [done|]. unfold sc_entry_set. rewrite <- HS, E0, bool_decide_false by done. exact H2.
  - destruct (findEffectiveStrategy_ok prefix t1 Hok1) as (p & s1 & _ & _ & -> & _); [by rewrite HS|]. simpl.
    set (t2 := set_sc prefix (sc_strategy s1) (set_nSc (ts_nSc t1 + 1) t1)).
    destruct (set_sc_only (Some (mkScEntry prefix (sc_strategy s1))) prefix (set_nSc (ts_nSc t1 + 1) t1) _
        (ts_ok_set_nSc _ _ Hok1) (only_info_refl _) Hn) as (A1 & A2 & A3 & A4 & A5 & A6); [by intros ? [= <-]|].
    change (nte_modify _ prefix (set_nSc _ t1)) with t2 in *.
    assert (is_Some (ts_nt t2 !! prefix)) as Hn2.
    { unfold t2. simpl. rewrite lookup_alter_eq. by apply fmap_is_Some. }
    destruct (set_sc_only (Some (mkScEntry prefix inst)) prefix t2 _ A1
        (changeStrategy_only r prefix (sc_strategy s1) inst t2) Hn2) as (H1 & H2 & H3 & H4 & H5 & H6); [by intros ? [= <-]|].
    eexists (nte_modify (setStrategyChoiceEntry (Some (mkScEntry prefix inst))) prefix
               (changeStrategy r prefix (sc_strategy s1) inst t2)), SC_OK.
    simpl in A2, A3, A4, A5.
    assert (partial_alter (fun _ => Some (mkScEntry prefix inst)) prefix (sc_map (ts_nt t2))
            = <[prefix := mkScEntry prefix inst]> (sc_map (ts_nt t))) as HM.
    { etrans; [apply (f_equal (fun x => partial_alter _ prefix x)); exact A2|]. rewrite HS.
      change (partial_alter (fun _ => Some (mkScEntry prefix inst)) prefix
        (<[prefix := mkScEntry prefix (sc_strategy s1)]> (sc_map (ts_nt t))) = <[prefix := mkScEntry prefix inst]> (sc_map (ts_nt t))).
      change (<[prefix := mkScEntry prefix inst]> (<[prefix := mkScEntry prefix (sc_strategy s1)]> (sc_map (ts_nt t)))
              = <[prefix := mkScEntry prefix inst]> (sc_map (ts_nt t))). by rewrite insert_insert_eq. }
    split_and!; [done|exact H1| | | | |].
    + rewrite H5. change (ts_nSc t2) with (ts_nSc t1 + 1)%Z. rewrite Hc1, Hc, H2, HM, map_size_insert_None by (by rewrite <- HS). lia.
    + exists inst. split; [done|]. unfold sc_entry_set. rewrite <- HS, E0. rewrite H2, HM. by rewrite HS.
    + rewrite H3. etrans; [exact A3|done].
    + intros n. rewrite H4. etrans; [exact (A4 n)|done].
    + rewrite <- Hp1. exact H6.
Qed.

Lemma findExactMatch_full n (m : NT) :
  nt_ok m -> findExactMatch n (length n) m = match m !! n with Some _ => Some n | None => None end.
Proof.
  intros Hok. unfold findExactMatch. cbn [ns_find gmap_store]. rewrite Nat.min_id, firstn_all.
  destruct (Nat.ltb_spec getMaxDepth (length n)) as [Hd|]; [|done].
  destruct (m !! n) as [e|] eqn:E; [|done]. apply (ok_depth _ Hok) in E. lia.
Qed.

Lemma sc_erase_ok r prefix t :
  ts_ok t -> sc_counted t -> is_Some (sc_map (ts_nt t) !! []) -> prefix <> [] ->
  exists t', SC_erase r prefix t = Some t' /\ ts_ok t' /\ sc_counted t' /\
    sc_map (ts_nt t') = delete prefix (sc_map (ts_nt t)) /\
    fib_map (ts_nt t') = fib_map (ts_nt t) /\ (forall n, pits_at (ts_nt t') n = pits_at (ts_nt t) n) /\
    (forall p, ts_pit t' !! p = ts_pit t !! p \/ ts_pit t' !! p = clear_pit_info <$> ts_pit t !! p).
Proof.
  intros Hok Hc Hroot Hne. unfold SC_erase.
  assert ((length prefix =? 0)%nat = false) as -> by (by destruct prefix).
  assert (forall n, sc_map (ts_nt t) !! n = None -> delete n (sc_map (ts_nt t)) = sc_map (ts_nt t)) as Hdel
    by (intros; by apply delete_id).
  assert (findExactMatch prefix (length prefix) (ts_nt t) = None -> sc_map (ts_nt t) !! prefix = None) as Hnone.
  { rewrite (findExactMatch_full _ _ (ts_tree _ Hok)). unfold sc_map. rewrite lookup_omap.
    by destruct (ts_nt t !! prefix). }
  destruct (findExactMatch prefix (length prefix) (ts_nt t)) as [nte|] eqn:Ef.
  - assert (nte = prefix) as ->.
    { rewrite (findExactMatch_full _ _ (ts_tree _ Hok)) in Ef. by destruct (ts_nt t !! prefix); simplify_eq. }
    rewrite nt_get_sc. destruct (sc_map (ts_nt t) !! prefix) as [s|] eqn:E.
    + destruct (effective_is_Some _ _ _ (findEffectiveStrategy_ok (getPrefix prefix (-1)) t Hok Hroot)) as [s1 ->].
      assert (is_Some (ts_nt t !! prefix)) as Hn.
      { unfold sc_map in E. rewrite lookup_omap in E. by destruct (ts_nt t !! prefix). }
      cbn [mbind option_bind].
      destruct (set_sc_only None prefix t _ Hok (changeStrategy_only r prefix (sc_strategy s) s1 t) Hn)
        as (H1 & H2 & H3 & H4 & H5 & H6); [done|].
      set (t2 := nte_modify (setStrategyChoiceEntry None) prefix _) in *. clearbody t2.
      destruct (eraseIfEmpty_ok prefix (ts_nt t2)) as [_ HE]; [apply H1|].
      assert (sc_map (ts_nt (ts_eraseIfEmpty prefix t2)) = delete prefix (sc_map (ts_nt t))) as HM.
      { etrans; [exact (sc_map_proper _ _ HE)|exact H2]. }
      eexists. split; [done|]. unfold sc_counted in *. split_and!.
      * by apply ts_ok_set_nSc, ts_ok_eraseIfEmpty.
      * simpl. change (eraseIfEmpty prefix true (ts_nt t2)).1 with (ts_nt (ts_eraseIfEmpty prefix t2)).
        rewrite HM, map_size_delete, E, H5, Hc.
        assert (size (sc_map (ts_nt t)) <> 0%nat); [|lia]. intros X%map_size_empty_inv. by rewrite X in E.
      * exact HM.
      * etrans; [exact (fib_map_proper _ _ HE)|exact H3].
      * intros n. etrans; [exact (pits_at_proper _ _ HE n n eq_refl)|apply H4].
      * exact H6.
    + exists t. rewrite Hdel by done. split_and!; auto.
  - exists t. rewrite Hdel by auto. split_and!; auto.
Qed.

(** C34: The Strategy Choice table. Once the root has its default, every name has a strategy
    in effect, that of the longest prefix with an entry. A successful [insert] sets exactly
    the entry of its prefix (one that has the instance name already stays as it is) and any other result changes nothing; [erase] removes exactly
    its entry; neither ever looks for a strategy that is not there. Both leave the FIB and
    the PIT as they are, except that the strategy information of some PIT entries is cleared,
    keep the tables' invariant, and count the entries. *)
Theorem strategy_choice_spec (r : Registry) (acc : Name -> bool) (prefix sname name : Name) (t : TableState) :
  ts_ok t -> sc_counted t -> is_Some (sc_map (ts_nt t) !! []) ->
  effective (sc_map (ts_nt t)) name (findEffectiveStrategy name t) /\
  (exists t' res, SC_insert r acc prefix sname t = Some (t', res) /\ ts_ok t' /\ sc_counted t' /\
    (if bool_decide (res = SC_OK) then
       exists inst, Strategy_create r acc sname = inr inst /\
         sc_map (ts_nt t') = <[prefix := sc_entry_set (sc_map (ts_nt t)) prefix inst]> (sc_map (ts_nt t))
     else t' = t) /\
    fib_map (ts_nt t') = fib_map (ts_nt t) /\ (forall n, pits_at (ts_nt t') n = pits_at (ts_nt t) n) /\
    (forall p, ts_pit t' !! p = ts_pit t !! p \/ ts_pit t' !! p = clear_pit_info <$> ts_pit t !! p)) /\
  (prefix <> [] -> exists t', SC_erase r prefix t = Some t' /\ ts_ok t' /\ sc_counted t' /\
    sc_map (ts_nt t') = delete prefix (sc_map (ts_nt t)) /\
    fib_map (ts_nt t') = fib_map (ts_nt t) /\ (forall n, pits_at (ts_nt t') n = pits_at (ts_nt t) n) /\
    (forall p, ts_pit t' !! p = ts_pit t !! p \/ ts_pit t' !! p = clear_pit_info <$> ts_pit t !! p)).
Proof.
  intros Hok Hc Hroot. split; [by apply findEffectiveStrategy_ok|]. split; [by apply sc_insert_ok|].
  intros Hne. by apply sc_erase_ok.
Qed.

(** The tables as the forwarder sets them up: best-route is the default strategy. *)
Definition ts_init : TableState :=
  match setDefaultStrategy getRegistry (fun _ => false) (getStrategyName BestRouteStrategy2) ts_empty with
  | Some t => t
  | None => ts_empty
  end.

Lemma ts_init_ok : ts_ok ts_init /\ sc_counted ts_init /\ is_Some (sc_map (ts_nt ts_init) !! []).
Proof.
  split; [|split; [by vm_compute|by eexists; vm_compute]].
  assert (ts_init = set_sc [] (BestRouteStrategy2, getStrategyName BestRouteStrategy2) (set_nSc 1 (ts_lookup [] 0 ts_empty))) as -> by by vm_compute.
  destruct (sc_lookup_prefix [] ts_empty ts_ok_empty) as (H1 & H2 & _); [simpl; lia|].
  apply ts_ok_sc_write; [exact H2|by apply ts_ok_set_nSc|by intros s [= <-]].
Qed.

Lemma strategy_choice_spec_witness :
  exists t', SC_erase getRegistry [word "a"] ts_init = Some t' /\ ts_ok t'.
Proof.
  destruct ts_init_ok as (H1 & H2 & H3).
  destruct (strategy_choice_spec getRegistry (fun _ => false) [word "a"] (getStrategyName MulticastStrategy)
              [word "a"; word "b"] ts_init H1 H2 H3) as (_ & _ & H).
  destruct H as (t' & E & Hok & _); [discriminate|]. exists t'. split; [exact E|exact Hok].
Defined.

(** A change of strategy on the multicast prefix takes effect below it, and not above. *)
Example strategy_changes :
  let t := match SC_insert getRegistry (fun _ => false) [word "a"] (getStrategyName MulticastStrategy) ts_init with
           | Some (t, _) => t | None => ts_init end in
  findEffectiveStrategy [word "a"; word "b"] t = Some (MulticastStrategy, getStrategyName MulticastStrategy) /\
  findEffectiveStrategy [word "b"] t = Some (BestRouteStrategy2, getStrategyName BestRouteStrategy2).
Proof. by vm_compute. Qed.
