(* ===== verification/Cleanup.v ===== *)
(** * Cleanup when a face goes away (table/cleanup.cpp)

    One pass over the name tree takes the face out of every FIB entry and every PIT entry;
    the nodes it leaves without table entries are then erased, the longer names first. *)

From S2P Require Import Prelude Name Packet FaceKeyed PitEntry FibEntry NodeStore NameTree NameTreeInv.
From S2P Require Import Tables Fib Pit.

(** The body of the first loop: the node's FIB entry, its PIT entries, and whether it may
    have become empty. *)
Definition cleanup_pits (face : FacePtr) (l : list PitPtr) (t : TableState) : TableState :=
  fold_left (fun t p => Pit_deleteInOutRecords p face t) l t.
Definition cleanup_nte (face : FacePtr) (nte : Name) (t : TableState) : TableState :=
  let t := match nt_get (ts_nt t) nte ≫= nte_fib with
           | Some _ => (Fib_removeNextHop nte face t).1
           | None => t
           end in
  cleanup_pits face (pits_at (ts_nt t) nte) t.
Definition nte_unused (nte : Name) (t : TableState) : bool :=
  match nt_get (ts_nt t) nte with Some e => negb (hasTableEntries e) | None => false end.
Definition cleanup_visit (face : FacePtr) (s : TableState * list Name) (nte : Name) : TableState * list Name :=
  let t := cleanup_nte face nte s.1 in
  (t, if nte_unused nte t then nte :: s.2 else s.2).

(** [maybeEmptyNtes] walked from its end: a [multimap] by the length of the name. *)
Fixpoint insert_by_size (n : Name) (l : list Name) : list Name :=
  match l with
  | [] => [n]
  | x :: l' => if (length x <=? length n)%nat then n :: l else x :: insert_by_size n l'
  end.
Definition longest_first (l : list Name) : list Name := fold_right insert_by_size [] l.

Definition erase_unused (n : Name) (t : TableState) : TableState :=
  set_nt (eraseIfEmpty n false (ts_nt t)).1 t.

Definition cleanupOnFaceRemoval (face : FacePtr) (t : TableState) : TableState :=
  let '(t, maybeEmptyNtes) := fold_left (cleanup_visit face) (fullEnumerate AnyEntry (ts_nt t)) (t, []) in
  fold_left (fun t n => erase_unused n t) (longest_first maybeEmptyNtes) t.

(** ** The first loop *)

(** A FIB entry without the face; it goes with its last nexthop. *)
Definition drop_face (face : FacePtr) (f : FibEntry) : option FibEntry :=
  if hasNextHop f face then
    let f' := (fe_removeNextHop face f).1 in
    if hasNextHops f' then Some f' else None
  else Some f.

(** Same nodes, with the same links, and the same other tables. *)
Definition same_rest (t t' : TableState) : Prop :=
  (forall n, is_Some (ts_nt t' !! n) <-> is_Some (ts_nt t !! n)) /\
  sc_map (ts_nt t') = sc_map (ts_nt t) /\ meas_map (ts_nt t') = meas_map (ts_nt t) /\
  (forall n, pits_at (ts_nt t') n = pits_at (ts_nt t) n).

#[global] Instance same_rest_preorder : PreOrder same_rest.
Proof.
  split; [by intros t|]. intros t1 t2 t3 (A1 & A2 & A3 & A4) (B1 & B2 & B3 & B4). split_and!.
  - intros n. by rewrite B1.
  - congruence.
  - congruence.
  - intros n. by rewrite B4.
Qed.

Lemma setFib_same_rest f n t : same_rest t (nte_modify (setFibEntry f) n t).
Proof.
  destruct (set_fib_others f n (ts_nt t)) as (H1 & H2 & H3). split_and!; [|done..].
  intros x. simpl. rewrite lookup_alter. case_decide; [subst; apply fmap_is_Some|done].
Qed.

Lemma fib_remove_drop n face f t :
  ts_ok t -> fib_map (ts_nt t) !! n = Some f ->
  let t' := (Fib_removeNextHop n face t).1 in
  fib_map (ts_nt t') = partial_alter (fun _ => drop_face face f) n (fib_map (ts_nt t)) /\
  same_rest t t' /\ ts_pit t' = ts_pit t.
Proof.
  intros Hok Hf. unfold Fib_removeNextHop. rewrite nt_get_fib, Hf. unfold drop_face, fe_removeNextHop, hasNextHop.
  pose proof (fib_node _ _ _ Hf) as (x & Hx & _). assert (is_Some (ts_nt t !! n)) as Hn by by eexists.
  destruct (findNextHop f face) as [k|]; cbn [negb fst].
  - set (f' := set_nextHops _ f). set (t1 := nte_modify (setFibEntry (Some f')) n t).
    assert (fib_map (ts_nt t1) = <[n := f']> (fib_map (ts_nt t))) as HF by by apply fib_map_set.
    pose proof (setFib_same_rest (Some f') n t) as HR1. fold t1 in HR1.
    destruct (hasNextHops f'); cbn [negb fst]; [by split_and!|]. split_and!; [|etrans; [exact HR1|]|done].
    + etrans; [apply fib_map_set; by apply HR1|]. rewrite HF.
      apply map_eq. intros y. rewrite !lookup_partial_alter, lookup_insert. by repeat case_decide.
    + apply (setFib_same_rest None n t1).
  - split_and!; [by apply fib_map_set| |done]. apply setFib_same_rest.
Qed.

(** The records of the entries of a list of pointers. *)
Lemma cleanup_pits_ok face l t :
  ts_ok t -> NoDup l ->
  let t' := cleanup_pits face l t in
  ts_ok t' /\ ts_nt t' = ts_nt t /\
  (forall p, ts_pit t' !! p = (if bool_decide (p ∈ l) then deleteInOutRecords face <$> ts_pit t !! p else ts_pit t !! p)).
Proof.
  unfold cleanup_pits. revert t. induction l as [|q l IH]; intros t Hok Hnd; [done|].
  apply NoDup_cons in Hnd as [Hq Hnd]. cbn [fold_left].
  assert (ts_ok (Pit_deleteInOutRecords q face t)) as Hok1.
  { apply ts_ok_pit_modify; [done| |done]. intros e _. auto with ndn. }
  destruct (IH _ Hok1 Hnd) as (H1 & H2 & H3). split_and!; [done|done|].
  intros p. rewrite H3. unfold Pit_deleteInOutRecords, pit_modify. simpl. rewrite lookup_alter.
  destruct (decide (q = p)) as [<-|Hne].
  - by rewrite bool_decide_false, bool_decide_true by (done || by left).
  - rewrite (bool_decide_ext (p ∈ q :: l) (p ∈ l)); [done|]. rewrite elem_of_cons. naive_solver.
Qed.

(** What the first loop has done when it has visited the nodes [done]. *)
Record visited (face : FacePtr) (t : TableState) (done : list Name) (s : TableState * list Name) : Prop := {
  v_ok : ts_ok s.1;
  v_counted : fib_counted s.1;
  v_rest : same_rest t s.1;
  v_fib : forall n, fib_map (ts_nt s.1) !! n =
    if bool_decide (n ∈ done) then fib_map (ts_nt t) !! n ≫= drop_face face else fib_map (ts_nt t) !! n;
  v_pit : forall p e, ts_pit t !! p = Some e ->
    ts_pit s.1 !! p = Some (if match pe_nte e with Some n => bool_decide (n ∈ done) | None => false end
                            then deleteInOutRecords face e else e);
  v_unused : forall n, n ∈ s.2 <-> n ∈ done /\ is_Some (ts_nt t !! n) /\ tbl (ts_nt s.1) n = no_tables;
}.

Lemma tbl_ext (m m' : NT) n :
  fib_map m !! n = fib_map m' !! n -> pits_at m n = pits_at m' n -> meas_map m !! n = meas_map m' !! n ->
  sc_map m !! n = sc_map m' !! n -> tbl m n = tbl m' n.
Proof.
  rewrite !fib_map_tbl, !pits_at_tbl, !meas_map_tbl, !sc_map_tbl.
  destruct (tbl m n) as [[[? ?] ?] ?], (tbl m' n) as [[[? ?] ?] ?]. simpl. congruence.
Qed.

Lemma nte_unused_spec n t :
  nte_unused n t = true <-> is_Some (ts_nt t !! n) /\ tbl (ts_nt t) n = no_tables.
Proof.
  unfold nte_unused, tbl. rewrite nt_get_map. destruct (ts_nt t !! n) as [e|].
  - rewrite negb_true_iff, hasTableEntries_spec. split; [split; [by eexists|done]|by intros []].
  - split; [done|by intros [[] _]].
Qed.

(** Visiting one node, without the list. *)
Lemma cleanup_nte_ok face n t :
  ts_ok t -> fib_counted t ->
  let t' := cleanup_nte face n t in
  ts_ok t' /\ fib_counted t' /\ same_rest t t' /\
  (forall x, fib_map (ts_nt t') !! x = if bool_decide (x = n) then fib_map (ts_nt t) !! n ≫= drop_face face
                                       else fib_map (ts_nt t) !! x) /\
  (forall p, ts_pit t' !! p = if bool_decide (p ∈ pits_at (ts_nt t) n)
                              then deleteInOutRecords face <$> ts_pit t !! p else ts_pit t !! p).
Proof.
  intros Hok Hc. unfold cleanup_nte. rewrite nt_get_fib.
  set (t1 := match fib_map (ts_nt t) !! n with Some _ => _ | None => t end).
  assert (ts_ok t1 /\ fib_counted t1 /\ same_rest t t1 /\ ts_pit t1 = ts_pit t /\
    (forall x, fib_map (ts_nt t1) !! x = if bool_decide (x = n) then fib_map (ts_nt t) !! n ≫= drop_face face
                                         else fib_map (ts_nt t) !! x)) as (H1 & H2 & H3 & H4 & H5).
  { unfold t1. destruct (fib_map (ts_nt t) !! n) as [f|] eqn:E.
    - destruct (fib_remove_drop n face f t Hok E) as (A1 & A2 & A3).
      pose proof (fib_remove_ok n face f t Hok Hc E) as B.
      destruct (Fib_removeNextHop n face t) as [t2 r]. destruct B as (B1 & B2 & _). simpl in *.
      split_and!; [done..|]. intros x. rewrite A1, lookup_partial_alter.
      case_bool_decide; [subst; by rewrite decide_True|by rewrite decide_False].
    - split_and!; [done..|]. intros x. case_bool_decide; [by subst|done]. }
  clearbody t1.
  destruct (cleanup_pits_ok face (pits_at (ts_nt t1) n) t1 H1 (ts_pits_nodup _ H1 n)) as (A1 & A2 & A3).
  assert (same_rest t (cleanup_pits face (pits_at (ts_nt t1) n) t1)) as HR.
  { unfold same_rest in *. by rewrite A2. }
  split_and!; [done| |done|by rewrite A2|].
  - unfold fib_counted in *. rewrite A2. rewrite <- H2. clear. generalize (pits_at (ts_nt t1) n). intros l.
    revert t1. unfold cleanup_pits. induction l as [|p l IH]; intros t1; [done|]. simpl. by rewrite IH.
  - intros p. rewrite A3, H4. destruct H3 as (_ & _ & _ & H3). by rewrite H3.
Qed.

Lemma visited_step face t done s n :
  ts_ok t -> visited face t done s -> n ∉ done -> is_Some (ts_nt t !! n) ->
  visited face t (n :: done) (cleanup_visit face s n).
Proof.
  intros Ht [H1 H2 H3 H4 H5 H6] Hn Hin.
  destruct (cleanup_nte_ok face n s.1 H1 H2) as (A1 & A2 & A3 & A4 & A5).
  unfold cleanup_visit. set (t' := cleanup_nte face n s.1) in *. clearbody t'.
  assert (same_rest t t') as HR by (etrans; eassumption).
  split; simpl; try done.
  - intros x. rewrite A4, !H4. rewrite (bool_decide_false (n ∈ done)) by done.
    destruct (decide (x = n)) as [->|Hx]; [by rewrite !bool_decide_true by (done || by left)|].
    rewrite (bool_decide_false (x = n)) by done.
    rewrite (bool_decide_ext (x ∈ n :: done) (x ∈ done)); [done|]. rewrite elem_of_cons. naive_solver.
  - intros p e He. rewrite A5, (H5 p e He). simpl.
    destruct HR as (_ & _ & _ & HP). destruct H3 as (_ & _ & _ & HP1). rewrite HP1.
    assert (p ∈ pits_at (ts_nt t) n <-> pe_nte e = Some n) as Hpn.
    { rewrite (ts_pits _ Ht). split; [intros (e' & He' & <-); congruence|eauto]. }
    rewrite (bool_decide_ext _ _ Hpn). destruct (pe_nte e) as [x|] eqn:Ex.
    + destruct (decide (x = n)) as [->|Hx].
      * by rewrite (bool_decide_true (Some n = Some n)), (bool_decide_true (n ∈ n :: done)), (bool_decide_false (n ∈ done)) by (done || by left).
      * rewrite (bool_decide_false (Some x = Some n)) by congruence.
        rewrite (bool_decide_ext (x ∈ n :: done) (x ∈ done)); [done|]. rewrite elem_of_cons. naive_solver.
    + by rewrite bool_decide_false.
  - assert (forall x, x <> n -> tbl (ts_nt t') x = tbl (ts_nt s.1) x) as HT.
    { intros x Hx. destruct A3 as (_ & B2 & B3 & B4). apply tbl_ext; [|done|by rewrite B3|by rewrite B2].
      by rewrite A4, bool_decide_false. }
    intros x. destruct (nte_unused n t') eqn:Eu; [apply nte_unused_spec in Eu as [_ Eu]|].
    + rewrite !elem_of_cons, H6. split.
      * intros [->|(? & ? & <-)]; [split_and!; auto|].
        split_and!; [by right|done|]. apply HT. by intros ->.
      * intros ([->|Hx] & Hs & Htb); [by left|right]. split_and!; [done|done|]. rewrite <- HT; [done|].
        by intros ->.
    + rewrite elem_of_cons, H6. split.
      * intros (? & ? & <-). split_and!; [by right|done|]. apply HT. by intros ->.
      * intros ([->|Hx] & Hs & Htb).
        -- exfalso. assert (nte_unused n t' = true) as E; [|congruence]. apply nte_unused_spec. split; [by apply HR|done].
        -- split_and!; [done|done|]. rewrite <- HT; [done|]. by intros ->.
Qed.

(** ** The second loop *)

Definition by_size (l : list Name) : Prop := StronglySorted (fun a b => length b <= length a)%nat l.

Lemma insert_by_size_perm n l : insert_by_size n l ≡ₚ n :: l.
Proof.
  induction l as [|x l IH]; simpl; [done|]. destruct (_ <=? _)%nat; [done|]. rewrite IH. apply perm_swap.
Qed.

Lemma longest_first_perm l : longest_first l ≡ₚ l.
Proof. induction l as [|n l IH]; simpl; [done|]. by rewrite insert_by_size_perm, IH. Qed.

Lemma longest_first_sorted l : by_size (longest_first l).
Proof.
  induction l as [|n l IH]; simpl; [constructor|].
  induction IH as [|x k Hk IHk Hx]; simpl; [by repeat constructor|].
  destruct (Nat.leb_spec (length x) (length n)).
  - constructor; [by constructor|]. constructor; [done|]. eapply Forall_impl; [exact Hx|]. simpl. lia.
  - constructor; [done|]. apply Forall_forall. intros y. rewrite insert_by_size_perm.
    intros [->|Hy]%elem_of_cons; [lia|]. by eapply Forall_forall in Hx.
Qed.

Lemma erase_one n (m : NT) :
  nt_ok m -> (eraseIfEmpty n false m).1 =
             match m !! n with Some e => if isEmpty e then del_leaf n m else m | None => m end.
Proof.
  intros Hok. unfold eraseIfEmpty. rewrite Nat.add_1_r. destruct (m !! n) as [e|] eqn:E.
  - destruct (isEmpty e) eqn:Ee; [by rewrite (erase_round _ _ e)|].
    cbn [eraseIfEmpty_loop]. by rewrite nt_get_map, E, Ee.
  - cbn [eraseIfEmpty_loop]. by rewrite nt_get_map, E.
Qed.

(** Erasing a node changes the children of shorter names only. *)
Lemma erase_one_ok n (m : NT) :
  nt_ok m -> let m' := (eraseIfEmpty n false m).1 in
  nt_ok m' /\ tbl_eq m' m /\ (forall x, is_Some (m' !! x) -> is_Some (m !! x)) /\
  (forall x e', (length n <= length x)%nat -> m' !! x = Some e' ->
     exists e, m !! x = Some e /\ nte_children e' = nte_children e) /\
  (forall e', m' !! n = Some e' -> isEmpty e' = false).
Proof.
  intros Hok m'. subst m'. rewrite (erase_one n m Hok). destruct (m !! n) as [e|] eqn:E.
  2: { split_and!; try done; [eauto|]. intros e'. by rewrite E. }
  destruct (isEmpty e) eqn:Ee.
  2: { split_and!; try done; [eauto|]. intros e'. rewrite E. congruence. }
  pose proof Ee as [Hch Ht]%isEmpty_spec. pose proof (fun x => del_leaf_dom n m e x Hok E) as Hdom.
  split_and!.
  - by apply (nt_ok_del_leaf n m e).
  - intros x. by apply (tbl_del_leaf n m e).
  - intros x Hx. by apply Hdom in Hx as [_ ?].
  - intros x e' Hl. rewrite (del_leaf_lookup n m e x Hok E). case_bool_decide; [done|].
    case_bool_decide as D; [|eauto]. intros _. exfalso. destruct D as [Hne ->].
    pose proof (parent_of_length n Hne). lia.
  - intros e' He. assert (is_Some (del_leaf n m !! n)) as Hs by by eexists. by apply Hdom in Hs as [? _].
Qed.

Lemma erase_all_ok l : forall t,
  ts_ok t -> by_size l -> (forall n, n ∈ l -> tbl (ts_nt t) n = no_tables) ->
  let t' := fold_left (fun t n => erase_unused n t) l t in
  ts_ok t' /\ tbl_eq (ts_nt t') (ts_nt t) /\ ts_pit t' = ts_pit t /\ ts_nFib t' = ts_nFib t /\
  (forall x, is_Some (ts_nt t' !! x) -> is_Some (ts_nt t !! x)) /\
  (forall x e', (forall n, n ∈ l -> length n <= length x)%nat -> ts_nt t' !! x = Some e' ->
     exists e, ts_nt t !! x = Some e /\ nte_children e' = nte_children e) /\
  (forall n e, n ∈ l -> ts_nt t' !! n = Some e -> isEmpty e = false).
Proof.
  induction l as [|n l IH]; intros t Hok Hs Ht; cbn [fold_left].
  { split_and!; try done; [eauto|]. by intros n e ?%not_elem_of_nil. }
  inversion_clear Hs as [|? ? Hs' Hn].
  destruct (erase_one_ok n (ts_nt t) (ts_tree _ Hok)) as (A1 & A2 & A3 & A4 & A5).
  assert (ts_ok (erase_unused n t)) as Hok1 by by apply ts_ok_set_nt.
  destruct (IH (erase_unused n t) Hok1 Hs') as (B1 & B2 & B3 & B4 & B5 & B6 & B7).
  { intros x Hx. etrans; [apply A2|]. apply Ht. by right. }
  split_and!; try done.
  - etrans; [exact B2|exact A2].
  - intros x Hx. apply A3, B5, Hx.
  - intros x e' Hl He'. destruct (B6 x e') as (e & He & ->); [intros; apply Hl; by right|done|].
    apply A4; [apply Hl; by left|done].
  - intros x e [->|Hx]%elem_of_cons He; [|by apply (B7 x)].
    destruct (B6 n e) as (e1 & He1 & Hc); [|done|].
    { intros y Hy. by eapply Forall_forall in Hn. }
    apply A5 in He1 as He2. destruct (isEmpty e) eqn:E; [|done]. apply isEmpty_spec in E as [E1 E2].
    rewrite <- He2. symmetry. apply isEmpty_spec. split; [congruence|].
    assert (tbl (erase_unused n t).(ts_nt) n = no_tables) as Hx.
    { etrans; [apply A2|]. apply Ht. by left. }
    unfold tbl in Hx. change (ts_nt (erase_unused n t)) with (eraseIfEmpty n false (ts_nt t)).1 in *.
    change (ts_nt (erase_unused n t)) with (eraseIfEmpty n false (ts_nt t)).1 in He1. by rewrite He1 in Hx.
Qed.

(** ** The whole cleanup *)

Lemma fullEnumerate_any (m : NT) : NoDup (fullEnumerate AnyEntry m) /\ forall n, n ∈ fullEnumerate AnyEntry m <-> is_Some (m !! n).
Proof.
  unfold fullEnumerate. cbn [ns_elems gmap_store].
  assert (filter (fun p : Name * NTE => AnyEntry p.1 p.2 = true) (map_to_list m) = map_to_list m) as ->.
  { induction (map_to_list m) as [|p l IH]; [done|]. by rewrite filter_cons_True, IH. }
  split; [apply NoDup_fst_map_to_list|]. intros n. split.
  - intros ([x e] & -> & H)%list_elem_of_fmap. apply elem_of_map_to_list in H. by eexists.
  - intros [e He]. apply list_elem_of_fmap. exists (n, e). split; [done|]. by apply elem_of_map_to_list.
Qed.

Lemma visit_all_ok face t l : forall done s,
  ts_ok t -> visited face t done s -> NoDup (l ++ done) -> (forall n, n ∈ l -> is_Some (ts_nt t !! n)) ->
  exists done', (forall n, n ∈ done' <-> n ∈ l \/ n ∈ done) /\
    visited face t done' (fold_left (cleanup_visit face) l s).
Proof.
  induction l as [|n l IH]; intros done s Ht Hv Hnd Hin; simpl.
  - exists done. split; [|done]. intros n. rewrite elem_of_nil. tauto.
  - simpl in Hnd. apply NoDup_cons in Hnd as [Hn Hnd]. rewrite elem_of_app in Hn.
    destruct (IH (n :: done) (cleanup_visit face s n) Ht) as (d & Hd & Hv').
    + apply visited_step; [done|done|tauto|apply Hin; by left].
    + rewrite <- Permutation_middle. apply NoDup_cons. split; [rewrite elem_of_app; tauto|done].
    + intros x Hx. apply Hin. by right.
    + exists d. split; [|done]. intros x. rewrite Hd, !elem_of_cons. tauto.
Qed.

Lemma drop_face_gone face f f' : wf_fib f -> drop_face face f = Some f' -> hasNextHop f' face = false.
Proof.
  intros Hwf. unfold drop_face. destruct (hasNextHop f face) eqn:E; [|by intros [= <-]].
  destruct (hasNextHops _); [|done]. intros [= <-]. apply not_true_iff_false. rewrite hasNextHop_spec.
  unfold fe_removeNextHop, hasNextHop in *. destruct (findNextHop f face); [|done]. simpl.
  apply erase_face_not_elem. apply Hwf.
Qed.

Lemma cleanup_ok face t :
  ts_ok t -> fib_counted t ->
  let t' := cleanupOnFaceRemoval face t in
  ts_ok t' /\ fib_counted t' /\ no_garbage (ts_nt t') /\
  (forall n, fib_map (ts_nt t') !! n = fib_map (ts_nt t) !! n ≫= drop_face face) /\
  sc_map (ts_nt t') = sc_map (ts_nt t) /\ meas_map (ts_nt t') = meas_map (ts_nt t) /\
  (forall n, pits_at (ts_nt t') n = pits_at (ts_nt t) n) /\
  (forall p e, attached t p e -> ts_pit t' !! p = Some (deleteInOutRecords face e)).
Proof.
  intros Hok Hc. unfold cleanupOnFaceRemoval. destruct (fullEnumerate_any (ts_nt t)) as [Hnd Hall].
  destruct (visit_all_ok face t (fullEnumerate AnyEntry (ts_nt t)) [] (t, []) Hok) as (done & Hd & Hv).
  { split; simpl; try done.
    - intros p e He. by destruct (pe_nte e).
    - intros n. rewrite !elem_of_nil. tauto. }
  { by rewrite app_nil_r. }
  { intros n. apply Hall. }
  assert (forall n, n ∈ done <-> is_Some (ts_nt t !! n)) as Hdone.
  { intros n. rewrite Hd, Hall, elem_of_nil. tauto. }
  destruct (fold_left (cleanup_visit face) _ (t, [])) as [t1 l]. destruct Hv as [V1 V2 (R1 & R2 & R3 & R4) V4 V5 V6].
  simpl in *.
  assert (forall n, n ∈ longest_first l <-> is_Some (ts_nt t !! n) /\ tbl (ts_nt t1) n = no_tables) as Hl.
  { intros n. rewrite longest_first_perm, V6, Hdone. tauto. }
  destruct (erase_all_ok (longest_first l) t1 V1 (longest_first_sorted l)) as (B1 & B2 & B3 & B4 & B5 & _ & B7).
  { intros n Hn. by apply Hl in Hn as [_ ?]. }
  set (t2 := fold_left _ (longest_first l) t1) in *. clearbody t2. cbn zeta.
  pose proof (fib_map_proper _ _ B2) as HF. split_and!.
  - done.
  - unfold fib_counted in *. by rewrite HF, B4.
  - intros n e He. destruct (isEmpty e) eqn:Ee; [|done].
    rewrite <- Ee. apply (B7 n); [|done]. apply Hl. split.
    + apply R1, B5. by eexists.
    + rewrite <- (B2 n). unfold tbl. rewrite He. by apply isEmpty_spec in Ee as [_ ?].
  - intros n. rewrite HF, V4. case_bool_decide as D; [done|].
    rewrite Hdone in D. destruct (fib_map (ts_nt t) !! n) as [f|] eqn:E; [|done].
    apply fib_node in E as (x & Hx & _). exfalso. apply D. by eexists.
  - etrans; [exact (sc_map_proper _ _ B2)|done].
  - etrans; [exact (meas_map_proper _ _ B2)|done].
  - intros n. etrans; [exact (pits_at_proper _ _ B2 n n eq_refl)|apply R4].
  - intros p e He. rewrite B3, (V5 p e) by apply He.
    destruct (attached_node t p e Hok He) as [Hn Hp]. rewrite Hn, bool_decide_true; [done|].
    apply Hdone. by apply pits_at_node in Hp.
Qed.

(** C35: Cleanup on face removal. Afterwards no FIB entry has a nexthop to the face and no
    PIT entry a record of it; every FIB entry keeps its other nexthops and only one that had
    no other is gone; the PIT entries are the ones there were, every one still in the table
    and with its other records; Strategy Choice and Measurements entries are untouched; the tables' invariant holds and no unused node is
    left in the name tree (the assertion at the end of the function). *)
Theorem cleanup_spec (face : FacePtr) (t : TableState) :
  ts_ok t -> fib_counted t ->
  let t' := cleanupOnFaceRemoval face t in
  ts_ok t' /\ fib_counted t' /\ no_garbage (ts_nt t') /\
  (forall n, fib_map (ts_nt t') !! n = fib_map (ts_nt t) !! n ≫= drop_face face) /\
  (forall n f, fib_map (ts_nt t') !! n = Some f -> hasNextHop f face = false) /\
  (forall p e, attached t' p e <-> exists e0, attached t p e0 /\ e = deleteInOutRecords face e0) /\
  (forall p e, attached t' p e -> getInRecord e face = None /\ getOutRecord e face = None) /\
  sc_map (ts_nt t') = sc_map (ts_nt t) /\ meas_map (ts_nt t') = meas_map (ts_nt t).
Proof.
  intros Hok Hc. destruct (cleanup_ok face t Hok Hc) as (H1 & H2 & H3 & H4 & H5 & H6 & H7 & H8).
  set (t' := cleanupOnFaceRemoval face t) in *. cbn zeta. assert (forall p e, attached t' p e <-> exists e0, attached t p e0 /\ e = deleteInOutRecords face e0) as Hatt.
  { intros p e. split.
    - intros He. destruct (attached_node t' p e H1 He) as [Hn Hp]. rewrite H7 in Hp.
      apply pits_at_attached in Hp as (e0 & He0 & _); [|done]. exists e0. split; [done|].
      destruct He as [He _]. rewrite (H8 p e0 He0) in He. by injection He.
    - intros (e0 & He0 & ->). split; [by apply H8|]. apply He0. }
  split_and!; [done..| |done| |done|done].
  - intros n f. rewrite H4. intros (f0 & Hf0 & Hd)%bind_Some. apply (drop_face_gone face f0); [|done].
    by apply (ts_fib_ok _ Hok n f0).
  - intros p e (e0 & He0 & ->)%Hatt. destruct (ts_pit_wf _ Hok p e0) as [W1 W2 _]; [apply He0|].
    split; by apply find_erase_eq.
Qed.

Lemma cleanup_spec_witness :
  let t := (Fib_addOrUpdateNextHop [generic [x61]] 300 1 (Fib_insert [generic [x61]] ts_empty).1).1 in
  size (fib_map (ts_nt t)) = 1%nat /\ fib_counted (cleanupOnFaceRemoval 300 t) /\
  size (ts_nt (cleanupOnFaceRemoval 300 t)) = 0%nat.
Proof.
  intros t. split; [by vm_compute|]. split; [|by vm_compute].
  assert (ts_ok t /\ fib_counted t) as [H1 H2].
  { pose proof (fib_insert_ok [generic [x61]] ts_empty ts_ok_empty eq_refl ltac:(apply Nat.leb_le; reflexivity)) as H.
    assert (fib_map (ts_nt (Fib_insert [generic [x61]] ts_empty).1) !! [generic [x61]] = Some (FibEntry_new [generic [x61]]))
      as E by by vm_compute.
    unfold t. destruct (Fib_insert [generic [x61]] ts_empty) as [t1 b]. destruct H as (H1 & H2 & _).
    destruct (fib_add_ok [generic [x61]] 300 1 _ t1 H1 H2 E) as (H3 & H4 & _). split; [exact H3|exact H4]. }
  destruct (cleanup_spec 300 t H1 H2) as (_ & H & _). exact H.
Defined.
