(* ===== verification/Frames.v ===== *)
(** * What an operation of one table leaves of the other tables

    The four tables share one name tree; each operation changes the map of its own table
    only. With these lemmas the invariants of the tables combine into that of the forwarder. *)

From S2P Require Import Prelude Name Packet FaceKeyed PitEntry FibEntry NodeStore NameTree NameTreeInv.
From S2P Require Import Tables Fib Pit Measurements StrategyRegistry StrategyChoice Cleanup.

Definition fib_same (t t' : TableState) : Prop :=
  fib_map (ts_nt t') = fib_map (ts_nt t) /\ ts_nFib t' = ts_nFib t.
Definition sc_same (t t' : TableState) : Prop :=
  sc_map (ts_nt t') = sc_map (ts_nt t) /\ ts_nSc t' = ts_nSc t.
(** No entry joins the PIT except without records. *)
Definition pit_within (t t' : TableState) : Prop :=
  forall p e, attached t' p e -> attached t p e \/ (pe_inRecords e = [] /\ pe_outRecords e = []).

#[global] Instance fib_same_preorder : PreOrder fib_same.
Proof. split; [done|]. intros t1 t2 t3 [A1 A2] [B1 B2]. split; congruence. Qed.
#[global] Instance sc_same_preorder : PreOrder sc_same.
Proof. split; [done|]. intros t1 t2 t3 [A1 A2] [B1 B2]. split; congruence. Qed.

Lemma fib_same_counted t t' : fib_same t t' -> fib_counted t -> fib_counted t'.
Proof. intros [H1 H2]. unfold fib_counted. congruence. Qed.
Lemma sc_same_counted t t' : sc_same t t' -> sc_counted t -> sc_counted t'.
Proof. intros [H1 H2]. unfold sc_counted. congruence. Qed.

(** A new shape of the tree. *)
Lemma tbl_eq_same m t : tbl_eq m (ts_nt t) -> fib_same t (set_nt m t) /\ sc_same t (set_nt m t).
Proof. intros E. split; (split; [|done]); [exact (fib_map_proper _ _ E)|exact (sc_map_proper _ _ E)]. Qed.

Lemma eraseIfEmpty_same n t : ts_ok t -> fib_same t (ts_eraseIfEmpty n t) /\ sc_same t (ts_eraseIfEmpty n t).
Proof. intros H. apply tbl_eq_same, eraseIfEmpty_ok, H. Qed.

(** ** The PIT *)

Lemma new_entry_records i p q e (h : gmap PitPtr PitEntry) n :
  <[p := set_nte n (PitEntry_new i)]> h !! q = Some e ->
  h !! q = Some e \/ (pe_inRecords e = [] /\ pe_outRecords e = []).
Proof. intros [[_ <-]|[_ H]]%lookup_insert_Some; [by right|by left]. Qed.

Lemma pit_insert_frame i t :
  ts_ok t -> let t' := (Pit_insert i t).1 in fib_same t t' /\ sc_same t t' /\ pit_within t t' /\ meas_map (ts_nt t') = meas_map (ts_nt t).
Proof.
  intros Hok. unfold Pit_insert, Pit_findOrInsert.
  assert (tbl_eq (ts_nt (ts_lookup (i_name i) (pit_depth (i_name i)) t)) (ts_nt t)) as HE
    by (apply tbl_eq_lookup; auto using pit_depth_le, pit_depth_max; apply Hok).
  destruct (tbl_eq_same _ t HE) as [HF HS]. pose proof (meas_map_proper _ _ HE) as HM.
  assert (ts_pit (ts_lookup (i_name i) (pit_depth (i_name i)) t) = ts_pit t) as HP by done.
  change (set_nt (ts_nt (ts_lookup ?n ?k t)) t) with (ts_lookup n k t) in *.
  set (t1 := ts_lookup (i_name i) (pit_depth (i_name i)) t) in *. clearbody t1.
  destruct (find_match _ _ _ t1) as [p|]; cbn [negb fst]; [|unfold new_pit_entry; cbn [fst]].
  - split_and!; [done|done| |done]. intros p' e' [H1 H2]. rewrite HP in H1. by left.
  - destruct (set_pits_others (fun l => l ++ [ts_nextPit t1]) (take (pit_depth (i_name i)) (i_name i)) (ts_nt t1)) as (H1 & H2 & H3).
    split_and!; [etrans; [exact HF|]; by split|etrans; [exact HS|]; by split| |by etrans].
    intros q e [Hq Hn]. apply new_entry_records in Hq as [Hq|Hq]; [left; split; [by rewrite <- HP|done]|by right].
Qed.

Lemma pit_erase_frame p e b t :
  ts_ok t -> attached t p e -> let t' := Pit_erase p b t in fib_same t t' /\ sc_same t t'.
Proof.
  intros Hok He. pose proof He as [Hp _]. destruct (attached_node t p e Hok He) as [Hn Hin].
  unfold Pit_erase. rewrite Hp. simpl. rewrite Hn. set (n := pit_node (pe_name e)) in *.
  destruct (set_pits_others (swap_remove p) n (ts_nt t)) as (H1 & H2 & _).
  change (fun e => set_ntePits (swap_remove p (nte_pits e)) e) with (erasePitEntry p) in *.
  set (t1 := pit_modify (set_nte None) p (nte_modify (erasePitEntry p) n t)).
  assert (nt_ok (ts_nt t1)) as Hok1 by (apply nt_ok_modify; [done|apply Hok]).
  assert (fib_same t t1 /\ sc_same t t1) as [HF HS] by done.
  destruct b; [|done]. destruct (eraseIfEmpty_ok n (ts_nt t1) Hok1) as [_ HE].
  destruct (tbl_eq_same _ t1 HE) as [HF2 HS2]. split; [etrans; [exact HF|exact HF2]|etrans; [exact HS|exact HS2]].
Qed.

(** ** The FIB *)

Lemma set_fib_frame f n t : sc_same t (nte_modify (setFibEntry f) n t).
Proof. destruct (set_fib_others f n (ts_nt t)) as (H1 & _). by split. Qed.

Lemma fib_insert_frame prefix t :
  ts_ok t -> (length prefix <= getMaxDepth)%nat ->
  let t' := (Fib_insert prefix t).1 in sc_same t t' /\ ts_pit t' = ts_pit t.
Proof.
  intros Hok Hd. assert (tbl_eq (ts_nt (ts_lookup prefix (length prefix) t)) (ts_nt t)) as HE
    by (by apply tbl_eq_lookup; [apply Hok|..]).
  destruct (tbl_eq_same _ t HE) as [_ HS]. unfold Fib_insert.
  destruct (nt_get _ prefix ≫= nte_fib); [done|]. split; [|done]. etrans; [exact HS|].
  etrans; [apply set_fib_frame|]. done.
Qed.

Lemma fib_add_frame prefix face cost t :
  let t' := (Fib_addOrUpdateNextHop prefix face cost t).1 in sc_same t t' /\ ts_pit t' = ts_pit t.
Proof.
  unfold Fib_addOrUpdateNextHop. destruct (nt_get _ prefix ≫= nte_fib); [|done].
  destruct (fe_addOrUpdateNextHop _ _ _) as [[e' it] b]. split; [apply set_fib_frame|done].
Qed.

Lemma fib_erase_frame n b t :
  ts_ok t -> is_Some (ts_nt t !! n) -> let t' := Fib_erase_nte n b t in sc_same t t' /\ ts_pit t' = ts_pit t.
Proof.
  intros Hok Hn. assert (ts_ok (nte_modify (setFibEntry None) n t)) as Hok' by by apply ts_ok_setFib.
  unfold Fib_erase_nte. destruct b; (split; [|done]).
  - etrans; [apply set_fib_frame|]. etrans; [apply (eraseIfEmpty_same n _ Hok')|]. done.
  - etrans; [apply set_fib_frame|]. done.
Qed.

Lemma fib_remove_frame prefix face t :
  let t' := (Fib_removeNextHop prefix face t).1 in sc_same t t' /\ ts_pit t' = ts_pit t.
Proof.
  unfold Fib_removeNextHop. destruct (nt_get _ prefix ≫= nte_fib) as [e|]; [|done].
  destruct (fe_removeNextHop face e) as [e' b].
  assert (forall f, sc_same t (nte_modify (setFibEntry f) prefix t)) as H by (intros; apply set_fib_frame).
  destruct b; cbn [negb fst]; [|by split].
  destruct (hasNextHops e'); cbn [negb fst]; [by split|]. split; [|done].
  etrans; [apply H|]. etrans; [apply (set_fib_frame None prefix)|]. done.
Qed.

(** Where the nexthops of an entry come from after a change. *)
Lemma removed_hop face f nh : nh ∈ fe_nextHops (fe_removeNextHop face f).1 -> nh ∈ fe_nextHops f.
Proof.
  unfold fe_removeNextHop. destruct (findNextHop f face); [|done]. simpl. intros H.
  eapply elem_of_sublist; [exact H|apply erase_face_sublist].
Qed.

Lemma dropped_hop face f f' nh :
  wf_fib f -> drop_face face f = Some f' -> nh ∈ fe_nextHops f' -> nh ∈ fe_nextHops f /\ nh_face nh <> face.
Proof.
  intros Hwf Hd Hnh. pose proof (drop_face_gone face f f' Hwf Hd) as Hg. split.
  - unfold drop_face in Hd. destruct (hasNextHop f face); [|by injection Hd as <-].
    destruct (hasNextHops _); [|done]. injection Hd as <-. by eapply removed_hop.
  - intros E. apply not_true_iff_false in Hg. apply Hg, hasNextHop_spec. rewrite <- E. by apply list_elem_of_fmap_2.
Qed.

Lemma added_hop face cost f nh :
  wf_fib f -> nh ∈ fe_nextHops (fe_addOrUpdateNextHop face cost f).1.1 -> nh_face nh = face \/ nh ∈ fe_nextHops f.
Proof.
  intros Hwf. rewrite fe_addOrUpdateNextHop_list, sort_by_cost_perm.
  intros H. apply upserted_elem in H; [|apply Hwf]. destruct H as [->|[H _]]; [by left|by right].
Qed.

(** ** Measurements *)

Lemma meas_cleanup_frame n t :
  ts_ok t -> is_Some (ts_nt t !! n) ->
  let t' := Meas_cleanup n t in ts_ok t' /\ fib_same t t' /\ sc_same t t' /\ ts_pit t' = ts_pit t.
Proof.
  intros Hok Hn. assert (ts_ok (nte_modify (setMeasurementsEntry None) n t)) as Hok1
    by (apply (ts_ok_meas_write (fun _ => None) n t Hn); done).
  destruct (meas_write_others (fun _ => None) n (ts_nt t)) as (H1 & H2 & _).
  destruct (eraseIfEmpty_same n _ Hok1) as [HF HS].
  split_and!; [by apply ts_ok_set_nMeas, ts_ok_eraseIfEmpty| | |done].
  - etrans; [|etrans; [exact HF|done]]. by split.
  - etrans; [|etrans; [exact HS|done]]. by split.
Qed.

(** ** Strategy Choice *)

Lemma clear_nFib n t : ts_nFib (clearStrategyInfo n t) = ts_nFib t.
Proof.
  unfold clearStrategyInfo. generalize (pits_at (ts_nt t) n). intros l. revert t.
  induction l as [|p l IH]; intros t; [done|]. simpl. apply (IH (pit_modify clear_pit_info p t)).
Qed.

Lemma changeStrategy_nFib r prefix a b t : ts_nFib (changeStrategy r prefix a b t) = ts_nFib t.
Proof.
  unfold changeStrategy. destruct (areSameType _ _ _); [done|].
  generalize (partialEnumerate prefix (change_selector prefix) (ts_nt t)). intros l. revert t.
  induction l as [|n l IH]; intros t; [done|]. simpl. by rewrite IH, clear_nFib.
Qed.

Lemma sc_insert_nFib r acc prefix sname t t' res :
  SC_insert r acc prefix sname t = Some (t', res) -> ts_nFib t' = ts_nFib t.
Proof.
  unfold SC_insert. destruct (_ <? _)%nat; [by intros [= <- _]|].
  destruct (Strategy_create r acc sname) as [[]|inst]; [by intros [= <- _]..|].
  destruct (nt_get _ prefix ≫= nte_sc) as [e|].
  - destruct (bool_decide _); intros [= <- _]; [done|]. unfold set_sc. simpl. by rewrite changeStrategy_nFib.
  - destruct (findEffectiveStrategy prefix _); [|done]. intros [= <- _]. unfold set_sc. simpl.
    by rewrite changeStrategy_nFib.
Qed.

Lemma sc_erase_nFib r prefix t t' : SC_erase r prefix t = Some t' -> ts_nFib t' = ts_nFib t.
Proof.
  unfold SC_erase. destruct (_ =? _)%nat; [done|]. destruct (findExactMatch _ _ _) as [n|]; [|by intros [= <-]].
  destruct (nt_get _ n ≫= nte_sc); [|by intros [= <-]].
  destruct (findEffectiveStrategy _ _); [|done]. intros [= <-]. simpl. by rewrite changeStrategy_nFib.
Qed.

(** ** Cleanup *)

Lemma cleanup_nSc face t : ts_nSc (cleanupOnFaceRemoval face t) = ts_nSc t.
Proof.
  assert (forall l t, ts_nSc (fold_left (fun t n => erase_unused n t) l t) = ts_nSc t) as H1.
  { induction l as [|n l IH]; intros t0; [done|]. simpl. by rewrite IH. }
  assert (forall l t, ts_nSc (cleanup_pits face l t) = ts_nSc t) as H2.
  { unfold cleanup_pits. induction l as [|n l IH]; intros t0; [done|]. simpl. by rewrite IH. }
  assert (forall l s, ts_nSc (fold_left (cleanup_visit face) l s).1 = ts_nSc s.1) as H3.
  { induction l as [|n l IH]; intros s; [done|]. simpl. rewrite IH. simpl. unfold cleanup_nte. rewrite H2.
    destruct (nt_get _ n ≫= nte_fib); [|done]. apply (fib_remove_frame n face s.1). }
  unfold cleanupOnFaceRemoval. specialize (H3 (fullEnumerate AnyEntry (ts_nt t)) (t, [])).
  destruct (fold_left (cleanup_visit face) _ (t, [])) as [t1 l]. by rewrite H1.
Qed.
