(* ===== verification/RateControl.v ===== *)
(** * Multicast rate control (fw/nl_interface.cpp)

    The rates are floating-point megabits per second with one decimal digit (the kernel
    reports tenths, [parse_bitrate]); here they are integers in tenths. The netlink exchange
    (libnl, the kernel) is a parameter: what it reports for a station. *)

From S2P Require Import Prelude.

(** [parse_bitrate] followed by [atof]: the 32-bit attribute where there is one, else the
    16-bit one, read into an [int]; a rate that is not positive prints as "(unknown)", which
    [atof] reads as 0. *)
Definition parse_bitrate (bitrate32 bitrate16 : option Z) : Z :=
  let rate := match bitrate32, bitrate16 with
              | Some r, _ => i32 r
              | None, Some r => i32 r
              | None, None => 0%Z
              end in
  if (0 <? rate)%Z then rate else 0%Z.

(** What the station query reports: an error, or the receive-rate attributes if it has
    any. [get_rate]: -1 for an error, and the 0 it started from when no rate is reported. *)
Inductive StationReport :=
| QueryFailed
| NoRate
| RxRate (bitrate32 bitrate16 : option Z).
Definition get_rate (r : StationReport) : Z :=
  match r with
  | QueryFailed => (-10)%Z
  | NoRate => 0%Z
  | RxRate b32 b16 => parse_bitrate b32 b16
  end.

(** [set_rate]: the chain of comparisons, then what is passed to [set_mcast_rate]. *)
Definition quantize_rate (rate : Z) : Z :=
  if (rate <? 20)%Z then 10%Z
  else if (rate <? 60)%Z then 20%Z
  else if (rate <? 90)%Z then 60%Z
  else if (rate <? 120)%Z then 90%Z
  else if (rate <? 180)%Z then 120%Z
  else if (rate <? 240)%Z then 180%Z
  else if (rate <? 360)%Z then 240%Z
  else if (rate <? 480)%Z then 360%Z
  else if (rate <? 540)%Z then 480%Z
  else 540%Z.

(** The multicast rates the comparison chain knows. *)
Definition mcast_rates : list Z := [10; 20; 60; 90; 120; 180; 240; 360; 480; 540]%Z.

(** Case analysis on the comparisons of a goal. *)
Ltac ltb_cases := repeat match goal with |- context [(?a <? ?b)%Z] => destruct (Z.ltb_spec a b) end.

(** [set_rate] picks the greatest multicast rate that does not exceed the rate asked
    for, and the lowest one when every rate exceeds it; so a higher rate asked for never
    gives a lower one. *)
Theorem set_rate_floor (rate r' : Z) :
  let q := quantize_rate rate in
  q ∈ mcast_rates /\
  ((10 <= rate)%Z -> (q <= rate)%Z /\ (forall r, r ∈ mcast_rates -> (r <= rate)%Z -> (r <= q)%Z)) /\
  ((rate < 10)%Z -> q = 10%Z) /\
  ((rate <= r')%Z -> (q <= quantize_rate r')%Z).
Proof.
  unfold quantize_rate, mcast_rates.
  assert (forall r, r ∈ [10; 20; 60; 90; 120; 180; 240; 360; 480; 540]%Z <->
    (r = 10 \/ r = 20 \/ r = 60 \/ r = 90 \/ r = 120 \/ r = 180 \/ r = 240 \/ r = 360 \/ r = 480 \/ r = 540)%Z) as H.
  { intros r. rewrite !elem_of_cons, elem_of_nil. tauto. }
  cbn zeta. split_and!.
  - rewrite H. repeat case_match; tauto.
  - intros Hr. split; [|intros r Hin; rewrite H in Hin]; ltb_cases; lia.
  - intros Hr. ltb_cases; lia.
  - intros Hr. clear H. ltb_cases; lia.
Qed.

Lemma set_rate_floor_witness : quantize_rate 55 = 20%Z /\ (quantize_rate 55 <= quantize_rate 60)%Z.
Proof. split; [reflexivity|]. apply (set_rate_floor 55 60). by apply Z.leb_le. Defined.
