(* ===== verification/FaceTable.v ===== *)
(** * The face table and the network region table (fw/face-table.cpp,
    table/network-region-table.cpp)

    Face objects live in a heap of addresses; the table maps FaceIds to addresses. A face
    removed from the table keeps its object until its deferred deallocation ([face_free]),
    after which its address dangles. *)

From S2P Require Import Prelude Name Packet.

(** [m_lastFaceId], [m_faces] and [m_wireless_ether_multicast_face]. The constructor leaves
    the last one uninitialised: [None]. [ft_heap] holds the face objects. *)
Record FaceTable := mkFaceTable {
  ft_heap : gmap FacePtr Face;
  ft_lastFaceId : N;
  ft_faces : gmap N FacePtr;
  ft_wireless : option FacePtr;
}.

Definition FaceTable_new : FaceTable := mkFaceTable ∅ FACEID_RESERVED_MAX ∅ None.

Definition set_faceId (id : N) (f : Face) : Face :=
  mkFace id (f_scope f) (f_linkType f) (f_localHost f) (f_remoteHost f) (f_nInHopLimitZero f) (f_nOutHopLimitZero f).

(** The wireless interface and the multicast address compiled into the program. *)
Definition wireless_host : string := "wlx0013eff9002c".
Definition multicast_host : string := "01:00:5e:00:17:aa".
Definition is_wireless_multicast (f : Face) : bool :=
  String.eqb (f_localHost f) wireless_host && String.eqb (f_remoteHost f) multicast_host.

(** A face object just constructed, with [INVALID_FACEID]. *)
Definition face_new (p : FacePtr) (f : Face) (t : FaceTable) : FaceTable :=
  mkFaceTable (<[p := set_faceId INVALID_FACEID f]> (ft_heap t)) (ft_lastFaceId t) (ft_faces t) (ft_wireless t).

(** [FaceTable::get]. *)
Definition ft_get (id : N) (t : FaceTable) : option FacePtr := ft_faces t !! id.
Definition ft_size (t : FaceTable) : nat := size (ft_faces t).

(** [FaceTable::addImpl], of an object; [None] when the id is taken, and [BOOST_VERIFY] fails. *)
Definition ft_addImpl (p : FacePtr) (faceId : N) (t : FaceTable) : option FaceTable :=
  match ft_heap t !! p, ft_faces t !! faceId with
  | Some f, None =>
      let f := set_faceId faceId f in
      Some (mkFaceTable (<[p := f]> (ft_heap t)) (ft_lastFaceId t) (<[faceId := p]> (ft_faces t))
                        (if is_wireless_multicast f then Some p else ft_wireless t))
  | _, _ => None
  end.

(** [FaceTable::add]: the id is a 64-bit counter; [None] when an assertion fails. *)
Definition ft_add (p : FacePtr) (t : FaceTable) : option FaceTable :=
  f ← ft_heap t !! p;
  if negb (f_id f =? INVALID_FACEID)%N && bool_decide (is_Some (ft_faces t !! f_id f)) then Some t
  else
    let faceId := ((ft_lastFaceId t + 1) mod 2 ^ 64)%N in
    if (faceId <=? FACEID_RESERVED_MAX)%N then None
    else ft_addImpl p faceId (mkFaceTable (ft_heap t) faceId (ft_faces t) (ft_wireless t)).
Definition ft_addReserved (p : FacePtr) (faceId : N) (t : FaceTable) : option FaceTable :=
  f ← ft_heap t !! p;
  if (f_id f =? INVALID_FACEID)%N && (faceId <=? FACEID_RESERVED_MAX)%N then ft_addImpl p faceId t else None.

(** [FaceTable::remove], after the [beforeRemove] signal; [None] when the id is not in the
    table, and the assertion fails. *)
Definition ft_remove (faceId : N) (t : FaceTable) : option FaceTable :=
  p ← ft_faces t !! faceId;
  Some (mkFaceTable (alter (set_faceId INVALID_FACEID) p (ft_heap t)) (ft_lastFaceId t)
                    (delete faceId (ft_faces t)) (ft_wireless t)).

(** The deferred deallocation of a removed face. *)
Definition face_free (p : FacePtr) (t : FaceTable) : FaceTable :=
  mkFaceTable (delete p (ft_heap t)) (ft_lastFaceId t) (ft_faces t) (ft_wireless t).

(** [NetworkRegionTable::isInProducerRegion]. *)
Definition isInProducerRegion (regions : list Name) (forwardingHint : list Delegation) : bool :=
  existsb (fun regionName => existsb (fun d => isPrefixOf (del_name d) regionName) forwardingHint) regions.

(** ** Invariant *)

(** The table and the ids stored in the faces agree; ids are below the counter. *)
Record ft_ok (t : FaceTable) : Prop := {
  ft_in : forall id p, ft_faces t !! id = Some p -> exists f, ft_heap t !! p = Some f /\ f_id f = id;
  ft_id : forall p f, ft_heap t !! p = Some f -> f_id f <> INVALID_FACEID -> ft_faces t !! f_id f = Some p;
  ft_valid : forall p, ft_faces t !! INVALID_FACEID = Some p -> False;
  ft_bound : forall id p, ft_faces t !! id = Some p -> (id <= ft_lastFaceId t)%N;
  ft_last : (FACEID_RESERVED_MAX <= ft_lastFaceId t)%N;
}.

Lemma ft_new_ok : ft_ok FaceTable_new.
Proof. split; try done. Qed.

(** A face in the table, as the pipelines see it. *)
Definition in_table (t : FaceTable) (p : FacePtr) : Prop :=
  exists f, ft_heap t !! p = Some f /\ f_id f <> INVALID_FACEID.

Lemma in_table_spec t p : ft_ok t -> in_table t p <-> exists id, ft_faces t !! id = Some p.
Proof.
  intros Hok. split.
  - intros (f & Hf & Hid). exists (f_id f). by apply (ft_id _ Hok).
  - intros [id Hid]. destruct (ft_in _ Hok _ _ Hid) as (f & Hf & <-). exists f. split; [done|].
    intros E. rewrite E in Hid. by apply (ft_valid _ Hok) in Hid.
Qed.

Lemma face_new_ok p f t : ft_ok t -> ft_heap t !! p = None -> ft_ok (face_new p f t).
Proof.
  intros Hok Hp. split; simpl; try (by apply Hok).
  - intros id q Hq. destruct (ft_in _ Hok _ _ Hq) as (g & Hg & Hid). exists g. split; [|done].
    rewrite lookup_insert_ne; [done|congruence].
  - intros q g. rewrite lookup_insert_Some. intros [[<- <-]|[_ Hg]]; [done|]. by apply (ft_id _ Hok).
Qed.

(** A face of the heap gets an id that is free. *)
Lemma addImpl_ok p f id t :
  ft_ok t -> ft_heap t !! p = Some f -> f_id f = INVALID_FACEID -> id <> INVALID_FACEID ->
  ft_faces t !! id = None -> (id <= ft_lastFaceId t)%N ->
  exists t', ft_addImpl p id t = Some t' /\ ft_ok t' /\ ft_lastFaceId t' = ft_lastFaceId t /\
    ft_faces t' = <[id := p]> (ft_faces t) /\ ft_heap t' = <[p := set_faceId id f]> (ft_heap t) /\
    ft_wireless t' = if is_wireless_multicast f then Some p else ft_wireless t.
Proof.
  intros Hok Hp Hf Hid Hno Hle. unfold ft_addImpl. rewrite Hp, Hno. eexists. split; [done|]. split; [|done].
  assert (forall i, ft_faces t !! i = Some p -> False) as Hnp.
  { intros i Hi. destruct (ft_in _ Hok _ _ Hi) as (g & Hg & Hgi). rewrite Hp in Hg. injection Hg as <-.
    rewrite <- Hgi, Hf in Hi. by apply (ft_valid _ Hok) in Hi. }
  split; simpl.
  - intros i q. rewrite lookup_insert_Some. intros [[<- <-]|[Hne Hq]].
    + exists (set_faceId id f). by rewrite lookup_insert_eq.
    + destruct (ft_in _ Hok _ _ Hq) as (g & Hg & Hgi). exists g. split; [|done].
      rewrite lookup_insert_ne; [done|]. intros <-. by apply Hnp in Hq.
  - intros q g. rewrite lookup_insert_Some. intros [[<- <-]|[Hne Hg]] Hgi; [by rewrite lookup_insert_eq|].
    pose proof (ft_id _ Hok q g Hg Hgi) as Hi. rewrite lookup_insert_ne; [done|]. congruence.
  - intros q. rewrite lookup_insert_ne by done. by apply (ft_valid _ Hok).
  - intros i q. rewrite lookup_insert_Some. intros [[<- _]|[_ Hq]]; [done|by eapply (ft_bound _ Hok)].
  - apply Hok.
Qed.

Lemma remove_ok id p t : ft_ok t -> ft_faces t !! id = Some p ->
  exists f t', ft_heap t !! p = Some f /\ ft_remove id t = Some t' /\ ft_ok t' /\
    ft_heap t' = <[p := set_faceId INVALID_FACEID f]> (ft_heap t) /\ ft_faces t' = delete id (ft_faces t) /\
    ft_lastFaceId t' = ft_lastFaceId t /\ ft_wireless t' = ft_wireless t.
Proof.
  intros Hok Ep. unfold ft_remove. rewrite Ep. simpl. destruct (ft_in _ Hok _ _ Ep) as (f & Hf & Hid).
  assert (alter (set_faceId INVALID_FACEID) p (ft_heap t) = <[p := set_faceId INVALID_FACEID f]> (ft_heap t)) as ->
    by by apply alter_is_insert.
  eexists f, _. split; [done|]. split; [done|]. split; [|done].
  split; simpl; try (by apply Hok).
  - intros i q [Hne Hq]%lookup_delete_Some. destruct (ft_in _ Hok _ _ Hq) as (g & Hg & Hgi). exists g.
    split; [|done]. rewrite lookup_insert_ne; [done|]. intros <-. congruence.
  - intros q g. rewrite lookup_insert_Some. intros [[<- <-]|[Hne Hg]] Hgi; [done|].
    pose proof (ft_id _ Hok q g Hg Hgi) as Hi. rewrite lookup_delete_ne; [done|]. congruence.
  - intros q [_ Hq]%lookup_delete_Some. by apply (ft_valid _ Hok) in Hq.
  - intros i q [_ Hq]%lookup_delete_Some. by eapply (ft_bound _ Hok).
Qed.

Lemma face_free_ok p f t :
  ft_ok t -> ft_heap t !! p = Some f -> f_id f = INVALID_FACEID -> ft_ok (face_free p t).
Proof.
  intros Hok Hp Hf. split; simpl; try (by apply Hok).
  - intros i q Hq. destruct (ft_in _ Hok _ _ Hq) as (g & Hg & Hgi). exists g. split; [|done].
    rewrite lookup_delete_ne; [done|]. intros <-. rewrite Hp in Hg. injection Hg as <-.
    rewrite <- Hgi, Hf in Hq. by apply (ft_valid _ Hok) in Hq.
  - intros q g [_ Hg]%lookup_delete_Some. by apply (ft_id _ Hok).
Qed.

(** A face that is not in the table gets the next id. *)
Lemma add_ok p f t :
  ft_ok t -> ft_heap t !! p = Some f -> f_id f = INVALID_FACEID -> (ft_lastFaceId t + 1 < 2 ^ 64)%N ->
  let id := (ft_lastFaceId t + 1)%N in
  ft_faces t !! id = None /\ exists t', ft_add p t = Some t' /\ ft_ok t' /\ ft_lastFaceId t' = id /\
    ft_faces t' = <[id := p]> (ft_faces t) /\ ft_heap t' = <[p := set_faceId id f]> (ft_heap t) /\
    ft_wireless t' = if is_wireless_multicast f then Some p else ft_wireless t.
Proof.
  intros Hok Hf Hid Hlt id. unfold ft_add. rewrite Hf. simpl. rewrite Hid, N.eqb_refl. cbn [negb andb]. rewrite N.mod_small by done.
  fold id. set (t1 := mkFaceTable (ft_heap t) id (ft_faces t) (ft_wireless t)).
  pose proof (ft_last _ Hok) as Hl. unfold FACEID_RESERVED_MAX in *.
  assert ((id <=? 255)%N = false) as -> by (apply N.leb_gt; lia).
  assert (ft_faces t !! id = None) as Hno by (apply eq_None_not_Some; intros [q Hq]; apply (ft_bound _ Hok) in Hq; lia).
  split; [done|].
  assert (ft_ok t1) as Hok1.
  { split; simpl; try (by apply Hok).
    - intros i q Hq. apply (ft_bound _ Hok) in Hq. lia.
    - unfold FACEID_RESERVED_MAX. lia. }
  destruct (addImpl_ok p f id t1 Hok1 Hf Hid) as (t' & E & H); [unfold INVALID_FACEID; lia|done|done|]. by exists t'.
Qed.

(** ** Sequences of operations, and the ids that they give out *)

Inductive FaceOp := OpNew (p : FacePtr) (f : Face) | OpAdd (p : FacePtr) | OpRemove (id : N) | OpFree (p : FacePtr).
Definition face_op (op : FaceOp) (t : FaceTable) : option FaceTable :=
  match op with
  | OpNew p f => Some (face_new p f t)
  | OpAdd p => ft_add p t
  | OpRemove id => ft_remove id t
  | OpFree p => Some (face_free p t)
  end.
(** The ids that are new in the table after each operation, in order. *)
Definition new_ids (t t' : FaceTable) : list N := (map_to_list (ft_faces t' ∖ ft_faces t)).*1.
Fixpoint face_run (ops : list FaceOp) (t : FaceTable) : option (FaceTable * list N) :=
  match ops with
  | [] => Some (t, [])
  | op :: ops' =>
      t1 ← face_op op t; '(t2, ids) ← face_run ops' t1; Some (t2, new_ids t t1 ++ ids)
  end.

Lemma new_ids_elem t t' i : i ∈ new_ids t t' <-> is_Some (ft_faces t' !! i) /\ ft_faces t !! i = None.
Proof.
  unfold new_ids. rewrite list_elem_of_fmap. split.
  - intros ([j q] & -> & [H1 H2]%elem_of_map_to_list%lookup_difference_Some). split; [by eexists|done].
  - intros [[q Hq] Hn]. exists (i, q). split; [done|]. by apply elem_of_map_to_list, lookup_difference_Some.
Qed.

(** One operation gives out no id that is not above the counter. *)
Lemma face_op_ids op t t' :
  face_op op t = Some t' -> (ft_lastFaceId t + 1 < 2 ^ 64)%N ->
  (ft_lastFaceId t <= ft_lastFaceId t' <= ft_lastFaceId t + 1)%N /\ NoDup (new_ids t t') /\
  (forall i, i ∈ new_ids t t' -> (ft_lastFaceId t < i <= ft_lastFaceId t')%N).
Proof.
  intros E Hlt.
  assert (NoDup (new_ids t t')) as Hnd by apply NoDup_fst_map_to_list.
  assert ((ft_lastFaceId t <= ft_lastFaceId t' <= ft_lastFaceId t + 1)%N /\
    forall i, is_Some (ft_faces t' !! i) -> ft_faces t !! i = None -> (ft_lastFaceId t < i <= ft_lastFaceId t')%N) as [H1 H2].
  2: { split_and!; [apply H1..|done|]. intros i [Hs Hn]%new_ids_elem. by apply H2. }
  destruct op as [p f|p|id|p]; simpl in E.
  - injection E as <-. simpl. split; [lia|]. intros i [q Hq] Hn. congruence.
  - unfold ft_add in E. destruct (ft_heap t !! p) as [f|] eqn:Ef; [|done]. simpl in E.
    destruct (_ && _); [injection E as <-; split; [lia|]; intros i [q Hq] Hn; congruence|].
    rewrite N.mod_small in E by done. destruct (_ <=? _)%N; [done|]. unfold ft_addImpl in E. simpl in E. rewrite Ef in E.
    destruct (ft_faces t !! _) eqn:En; [done|]. injection E as <-. simpl. split; [lia|]. intros i Hs Hn.
    destruct (decide (i = (ft_lastFaceId t + 1)%N)) as [->|Hne]; [lia|]. rewrite lookup_insert_ne in Hs by done.
    rewrite Hn in Hs. by destruct Hs.
  - unfold ft_remove in E. destruct (ft_faces t !! id); [|done]. simpl in E. injection E as <-. simpl. split; [lia|].
    intros i [q [_ Hq]%lookup_delete_Some] Hn. congruence.
  - injection E as <-. simpl. split; [lia|]. intros i [q Hq] Hn. congruence.
Qed.

Lemma face_run_ids ops : forall t t' ids,
  face_run ops t = Some (t', ids) -> (ft_lastFaceId t + N.of_nat (length ops) < 2 ^ 64)%N ->
  NoDup ids /\ Forall (fun i => (ft_lastFaceId t < i <= ft_lastFaceId t')%N) ids /\ (ft_lastFaceId t <= ft_lastFaceId t')%N.
Proof.
  induction ops as [|op ops IH]; intros t t' ids H Hlt; simpl in H.
  { injection H as <- <-. split_and!; [constructor|constructor|lia]. }
  apply bind_Some in H as (t1 & E1 & H). apply bind_Some in H as ([t2 ids2] & E2 & [= <- <-]). cbn [length] in Hlt.
  destruct (face_op_ids op t t1 E1) as ([L1 L2] & N1 & I1); [lia|]. destruct (IH t1 t2 ids2 E2) as (N2 & F2 & L3); [lia|].
  rewrite Forall_forall in F2. split_and!; [|apply Forall_app; split; apply Forall_forall|lia].
  - apply NoDup_app. split_and!; [done| |done]. intros i Hi Hi2. apply I1 in Hi. apply F2 in Hi2. lia.
  - intros i Hi%I1. lia.
  - intros i Hi%F2. lia.
Qed.

(** C36: The face table. Adding a new face gives it the id after the last one given out, which
    no face in the table has and which is above the reserved range, and changes no other
    entry; removing takes exactly that face out, invalidates its id and leaves the counter
    alone, and asserts that the id is in the table; the id stored in a face and its place in
    the table always agree, also when a removed face is freed. Over any sequence of new faces,
    additions, removals and deallocations no id is given out twice: those given out are
    distinct and above all given out before. *)
Theorem face_table_spec (p : FacePtr) (f : Face) (id : N) (ops : list FaceOp) (t : FaceTable) :
  ft_ok t -> ft_heap t !! p = None -> (ft_lastFaceId t + 1 + N.of_nat (length ops) < 2 ^ 64)%N ->
  let id' := (ft_lastFaceId t + 1)%N in
  (exists t', ft_add p (face_new p f t) = Some t' /\
     ft_ok t' /\ ft_lastFaceId t' = id' /\ ft_faces t' = <[id' := p]> (ft_faces t) /\ ft_faces t !! id' = None /\
     (FACEID_RESERVED_MAX < id')%N /\ (forall i q, ft_faces t !! i = Some q -> (i < id')%N)) /\
  match ft_remove id t with
  | None => ft_faces t !! id = None
  | Some t' => ft_ok t' /\ ft_faces t' = delete id (ft_faces t) /\ ft_lastFaceId t' = ft_lastFaceId t /\
      exists q, ft_faces t !! id = Some q /\ ~ in_table t' q /\ ft_ok (face_free q t')
  end /\
  (forall t' ids, face_run ops t = Some (t', ids) ->
     NoDup ids /\ Forall (fun i => (ft_lastFaceId t < i <= ft_lastFaceId t')%N) ids).
Proof.
  intros Hok Hp Hlt id'. set (t1 := face_new p f t). pose proof (face_new_ok p f t Hok Hp) as Hok1. split_and!.
  - destruct (add_ok p (set_faceId INVALID_FACEID f) t1) as (Hno & t' & E & H1 & H2 & H3 & _);
      [done|apply lookup_insert_eq|done|simpl; lia|].
    exists t'. split_and!; [done..| |].
    + pose proof (ft_last _ Hok) as Hl. unfold FACEID_RESERVED_MAX, id' in *. lia.
    + intros i q Hq. apply (ft_bound _ Hok) in Hq. unfold id'. lia.
  - destruct (ft_faces t !! id) as [q|] eqn:Eq; [|by unfold ft_remove; rewrite Eq].
    destruct (remove_ok id q t Hok Eq) as (g & t' & Hg & -> & Hok' & Hh & Hf & Hl & _).
    assert (ft_heap t' !! q = Some (set_faceId INVALID_FACEID g)) as Hq by (rewrite Hh; by rewrite lookup_insert_eq).
    split_and!; [done..|]. exists q. split; [done|]. split; [|by eapply face_free_ok].
    intros (g' & Hg' & Hne). rewrite Hq in Hg'. by injection Hg' as <-.
  - intros t' ids H. destruct (face_run_ids ops t t' ids H) as (H1 & H2 & _); [lia|done].
Qed.

Definition sample_face (scope : FaceScope) (link : LinkType) : Face :=
  mkFace INVALID_FACEID scope link "eth0" "fe80::1" 0 0.

Lemma face_table_spec_witness :
  let f := sample_face FACE_SCOPE_LOCAL LINK_TYPE_POINT_TO_POINT in
  let ops := [OpNew 10 f; OpAdd 10; OpRemove 256; OpNew 11 f; OpAdd 11] in
  (exists t', face_run ops FaceTable_new = Some (t', [256; 257]%N)) /\
  exists t', ft_add 10 (face_new 10 f FaceTable_new) = Some t' /\ ft_faces t' !! 256%N = Some 10%N /\ ft_ok t'.
Proof.
  cbv zeta. split; [eexists; vm_compute; reflexivity|].
  destruct (face_table_spec 10 (sample_face FACE_SCOPE_LOCAL LINK_TYPE_POINT_TO_POINT) 1 [] FaceTable_new ft_new_ok)
    as [(t' & E & Hok & _ & Hf & _) _]; [reflexivity|reflexivity|]. exists t'. split; [exact E|]. split; [|exact Hok].
  rewrite Hf. reflexivity.
Defined.
