(* ===== verification/Forwarder.v ===== *)
(** * The forwarder's state and its outgoing pipelines (fw/forwarder.cpp)

    All state of the forwarding plane in one record, the state and error monad of the
    handlers, and the parts of [Forwarder] that the strategies call. What is sent goes to
    the trace [fw_out]. Faces and PIT entries are addresses: an address whose object is gone
    dangles, and its use is an error. *)

From S2P Require Import Prelude Name Packet FaceKeyed PitEntry FibEntry NodeStore NameTree NameTreeInv.
From S2P Require Import Tables Fib Pit Measurements StrategyRegistry StrategyChoice FaceTable ContentStore DeadNonceList RateControl RttEstimator.

(** [ForwarderCounters]. *)
Record Counters := mkCounters {
  nInInterests : N; nOutInterests : N;
  nInData : N; nOutData : N;
  nInNacks : N; nOutNacks : N;
  nSatisfiedInterests : N; nUnsatisfiedInterests : N;
  nCsHits : N; nCsMisses : N;
  nUnsolicitedData : N;
}.
Definition Counters_new : Counters := mkCounters 0 0 0 0 0 0 0 0 0 0 0.

(** What leaves the forwarder: a packet on a face, or a multicast rate set on an
    interface. *)
Inductive Output :=
| OutInterest (face : FacePtr) (i : Interest)
| OutData (face : FacePtr) (d : Data)
| OutNack (face : FacePtr) (n : Nack)
| OutRate (interface : string) (rate : Z).

(** [UnsolicitedDataPolicy] and its four subclasses. *)
Inductive UnsolicitedDataPolicy := DropAll | AdmitLocal | AdmitNetwork | AdmitAll.
Inductive UnsolicitedDataDecision := DROP | CACHE.
Definition decide_unsolicited (p : UnsolicitedDataPolicy) (inFace : Face) : UnsolicitedDataDecision :=
  match p with
  | DropAll => DROP
  | AdmitLocal => match f_scope inFace with FACE_SCOPE_LOCAL => CACHE | _ => DROP end
  | AdmitNetwork => match f_scope inFace with FACE_SCOPE_NON_LOCAL => CACHE | _ => DROP end
  | AdmitAll => CACHE
  end.

(** What strategies left to the scheduler, or keep of their own: the calls that nothing
    cancels, the round-trip times of faces that each access strategy has, and for the
    pointers that may outlive what they point to, how many faces were freed at an address
    and how many strategies a prefix had. *)
Inductive StrategyCall :=
| CallRtoTimeout (p : PitPtr) (inFace firstOutFace : N)
| CallPropagate (p : PitPtr) (inFace : N)
| CallBestFaceTimeout (p : PitPtr)
| CallAsfTimeout (interestName : Name) (faceId : N)
| CallProbe (prefix : Name).
Record StrategyState := mkStrategyState {
  ss_events : list (time * StrategyObject * StrategyCall);
  ss_fit : gmap Name (gmap N RttEstimator);
  ss_freed : gmap FacePtr N;
  ss_replaced : gmap Name N;
}.
Definition ss_init : StrategyState := mkStrategyState [] ∅ ∅ ∅.

Record Fw := mkFw {
  fw_now : time;                       (* steady_clock::now() *)
  fw_faces : FaceTable;
  fw_tables : TableState;
  fw_cs : Cs;
  fw_dnl : DeadNonceList;
  fw_regions : list Name;              (* m_networkRegionTable *)
  fw_unsolicited : UnsolicitedDataPolicy;
  fw_counters : Counters;
  fw_nRandom : N;                      (* how often the random generator was used *)
  fw_out : list Output;
  fw_strategy : StrategyState;
}.

Definition with_now x (s : Fw) := mkFw x (fw_faces s) (fw_tables s) (fw_cs s) (fw_dnl s) (fw_regions s) (fw_unsolicited s) (fw_counters s) (fw_nRandom s) (fw_out s) (fw_strategy s).
Definition with_faces x (s : Fw) := mkFw (fw_now s) x (fw_tables s) (fw_cs s) (fw_dnl s) (fw_regions s) (fw_unsolicited s) (fw_counters s) (fw_nRandom s) (fw_out s) (fw_strategy s).
Definition with_tables x (s : Fw) := mkFw (fw_now s) (fw_faces s) x (fw_cs s) (fw_dnl s) (fw_regions s) (fw_unsolicited s) (fw_counters s) (fw_nRandom s) (fw_out s) (fw_strategy s).
Definition with_cs x (s : Fw) := mkFw (fw_now s) (fw_faces s) (fw_tables s) x (fw_dnl s) (fw_regions s) (fw_unsolicited s) (fw_counters s) (fw_nRandom s) (fw_out s) (fw_strategy s).
Definition with_dnl x (s : Fw) := mkFw (fw_now s) (fw_faces s) (fw_tables s) (fw_cs s) x (fw_regions s) (fw_unsolicited s) (fw_counters s) (fw_nRandom s) (fw_out s) (fw_strategy s).
Definition with_counters x (s : Fw) := mkFw (fw_now s) (fw_faces s) (fw_tables s) (fw_cs s) (fw_dnl s) (fw_regions s) (fw_unsolicited s) x (fw_nRandom s) (fw_out s) (fw_strategy s).
Definition with_nRandom x (s : Fw) := mkFw (fw_now s) (fw_faces s) (fw_tables s) (fw_cs s) (fw_dnl s) (fw_regions s) (fw_unsolicited s) (fw_counters s) x (fw_out s) (fw_strategy s).
Definition with_out x (s : Fw) := mkFw (fw_now s) (fw_faces s) (fw_tables s) (fw_cs s) (fw_dnl s) (fw_regions s) (fw_unsolicited s) (fw_counters s) (fw_nRandom s) x (fw_strategy s).
Definition with_strategy x (s : Fw) := mkFw (fw_now s) (fw_faces s) (fw_tables s) (fw_cs s) (fw_dnl s) (fw_regions s) (fw_unsolicited s) (fw_counters s) (fw_nRandom s) (fw_out s) x.

(** The strategy object, if it is still there: [None] when its entry is gone or has another
    strategy. *)
Definition generation (n : Name) (s : Fw) : N := default 0%N (ss_replaced (fw_strategy s) !! n).
Definition object_strategy (o : StrategyObject) (s : Fw) : option StrategyInstance :=
  if (o.2 =? generation o.1 s)%N then strategy_at (Some o.1) (fw_tables s) else None.

(** ** The monad *)

(** How a handler goes wrong: by using a face, a PIT or Measurements entry or a strategy that is not there,
    the uninitialised pointer of the face table, a null strategy, or an iterator at its end;
    by an exception nothing catches; or by an assertion: that the freshness period of an
    entry's Data is not negative, that an Interest is for the entry it is recorded in
    ([pit::Entry::canMatch]), that Data satisfies the entry it is sent for, that an entry's
    forwarding hint is not in the producer region, that only the FIB entry of the root has no
    nexthops, those of the face table, and those of a strategy. *)
Inductive fw_error :=
| DanglingFace (p : FacePtr)
| DanglingPitEntry (p : PitPtr)
| DanglingMeasurements (n : Name)
| UninitialisedFace
| NullStrategy
| EndIterator
| UncaughtException
| AssertionFailed (t : StrategyType)
| DanglingStrategy (o : StrategyObject)
| NegativeFreshness
| InterestMismatch
| DataMismatch
| HintInProducerRegion
| EmptyFibEntry (prefix : Name)
| FaceTableAssertion.

Inductive Result (A : Type) := Done (a : A) (s : Fw) | Wrong (e : fw_error).
#[global] Arguments Done {A} a s.
#[global] Arguments Wrong {A} e.

Definition M (A : Type) : Type := Fw -> Result A.
#[global] Instance M_ret : MRet M := fun A a s => Done a s.
#[global] Instance M_bind : MBind M := fun A B f m s =>
  match m s with Done a s' => f a s' | Wrong e => Wrong e end.

Definition fail {A} (e : fw_error) : M A := fun _ => Wrong e.
Definition gets {A} (f : Fw -> A) : M A := fun s => Done (f s) s.
Definition modify (f : Fw -> Fw) : M unit := fun s => Done tt (f s).

(** A loop over a list. *)
Fixpoint forM {A} (l : list A) (f : A -> M unit) : M unit :=
  match l with
  | [] => mret tt
  | x :: l' => f x;; forM l' f
  end.

(** Dereferences, and writes through a pointer. *)
Definition the_face (p : FacePtr) : M Face :=
  o ← gets (fun s => ft_heap (fw_faces s) !! p);
  match o with Some f => mret f | None => fail (DanglingFace p) end.
Definition the_pit (p : PitPtr) : M PitEntry :=
  oe ← gets (fun s => ts_pit (fw_tables s) !! p);
  match oe with Some e => mret e | None => fail (DanglingPitEntry p) end.
Definition update_pit (p : PitPtr) (f : PitEntry -> PitEntry) : M unit :=
  modify (fun s => with_tables (pit_modify f p (fw_tables s)) s).
(** [BOOST_ASSERT(this->canMatch(interest))], where a record is inserted or updated. *)
Definition assert_canMatch (p : PitPtr) (i : Interest) : M unit :=
  e ← the_pit p;
  if canMatch e i 0 then mret tt else fail InterestMismatch.
Definition update_face_object (p : FacePtr) (f : Face -> Face) : M unit :=
  modify (fun s => with_faces (mkFaceTable (alter f p (ft_heap (fw_faces s))) (ft_lastFaceId (fw_faces s))
                                           (ft_faces (fw_faces s)) (ft_wireless (fw_faces s))) s).
Definition count (f : Counters -> Counters) : M unit := modify (fun s => with_counters (f (fw_counters s)) s).
Definition emit (o : Output) : M unit := modify (fun s => with_out (fw_out s ++ [o]) s).

Definition incInInterests c := mkCounters (nInInterests c + 1) (nOutInterests c) (nInData c) (nOutData c) (nInNacks c) (nOutNacks c) (nSatisfiedInterests c) (nUnsatisfiedInterests c) (nCsHits c) (nCsMisses c) (nUnsolicitedData c).
Definition incOutInterests c := mkCounters (nInInterests c) (nOutInterests c + 1) (nInData c) (nOutData c) (nInNacks c) (nOutNacks c) (nSatisfiedInterests c) (nUnsatisfiedInterests c) (nCsHits c) (nCsMisses c) (nUnsolicitedData c).
Definition incInData c := mkCounters (nInInterests c) (nOutInterests c) (nInData c + 1) (nOutData c) (nInNacks c) (nOutNacks c) (nSatisfiedInterests c) (nUnsatisfiedInterests c) (nCsHits c) (nCsMisses c) (nUnsolicitedData c).
Definition incOutData c := mkCounters (nInInterests c) (nOutInterests c) (nInData c) (nOutData c + 1) (nInNacks c) (nOutNacks c) (nSatisfiedInterests c) (nUnsatisfiedInterests c) (nCsHits c) (nCsMisses c) (nUnsolicitedData c).
Definition incInNacks c := mkCounters (nInInterests c) (nOutInterests c) (nInData c) (nOutData c) (nInNacks c + 1) (nOutNacks c) (nSatisfiedInterests c) (nUnsatisfiedInterests c) (nCsHits c) (nCsMisses c) (nUnsolicitedData c).
Definition incOutNacks c := mkCounters (nInInterests c) (nOutInterests c) (nInData c) (nOutData c) (nInNacks c) (nOutNacks c + 1) (nSatisfiedInterests c) (nUnsatisfiedInterests c) (nCsHits c) (nCsMisses c) (nUnsolicitedData c).
Definition incSatisfied (sat : bool) c := mkCounters (nInInterests c) (nOutInterests c) (nInData c) (nOutData c) (nInNacks c) (nOutNacks c) (nSatisfiedInterests c + if sat then 1 else 0) (nUnsatisfiedInterests c + if sat then 0 else 1) (nCsHits c) (nCsMisses c) (nUnsolicitedData c).
Definition incCsHits c := mkCounters (nInInterests c) (nOutInterests c) (nInData c) (nOutData c) (nInNacks c) (nOutNacks c) (nSatisfiedInterests c) (nUnsatisfiedInterests c) (nCsHits c + 1) (nCsMisses c) (nUnsolicitedData c).
Definition incCsMisses c := mkCounters (nInInterests c) (nOutInterests c) (nInData c) (nOutData c) (nInNacks c) (nOutNacks c) (nSatisfiedInterests c) (nUnsatisfiedInterests c) (nCsHits c) (nCsMisses c + 1) (nUnsolicitedData c).
Definition incUnsolicitedData c := mkCounters (nInInterests c) (nOutInterests c) (nInData c) (nOutData c) (nInNacks c) (nOutNacks c) (nSatisfiedInterests c) (nUnsatisfiedInterests c) (nCsHits c) (nCsMisses c) (nUnsolicitedData c + 1).

Definition incInHopLimitZero (f : Face) : Face :=
  mkFace (f_id f) (f_scope f) (f_linkType f) (f_localHost f) (f_remoteHost f) (f_nInHopLimitZero f + 1) (f_nOutHopLimitZero f).
Definition incOutHopLimitZero (f : Face) : Face :=
  mkFace (f_id f) (f_scope f) (f_linkType f) (f_localHost f) (f_remoteHost f) (f_nInHopLimitZero f) (f_nOutHopLimitZero f + 1).

(** ** Timers and the Dead Nonce List *)

(** [Forwarder::setExpiryTimer]: [duration] in milliseconds; the timer is the time the
    finalize pipeline is scheduled for. *)
Definition Fw_setExpiryTimer (p : PitPtr) (duration : Z) : M unit :=
  now ← gets fw_now;
  update_pit p (set_expiryTimer (Some (now + Z.max duration 0 * ms)%Z)).

(** [Forwarder::insertDeadNonceList]. *)
Definition dnl_add (name : Name) (nonce : N) : M unit :=
  modify (fun s => with_dnl (Dnl_add name nonce (fw_dnl s)) s).
Definition needDnl (e : PitEntry) (s : Fw) : bool :=
  if pe_isSatisfied e
  then i_mustBeFresh (pe_interest e) && (pe_dataFreshnessPeriod e * ms <? dnl_lifetime (fw_dnl s))%Z
  else true.
Definition insertDeadNonceList (p : PitPtr) (upstream : option FacePtr) : M unit :=
  e ← the_pit p;
  if pe_isSatisfied e && (pe_dataFreshnessPeriod e <? 0)%Z then fail NegativeFreshness
  else
  need ← gets (needDnl e);
  if negb need then mret tt
  else match upstream with
       | None => forM (pe_outRecords e) (fun r => dnl_add (pe_name e) (fr_lastNonce (or_rec r)))
       | Some face =>
           match getOutRecord e face with
           | Some r => dnl_add (pe_name e) (fr_lastNonce (or_rec r))
           | None => mret tt
           end
       end.

(** ** Outgoing pipelines *)

(** [Forwarder::onOutgoingInterest]: whether the Interest was sent. *)
Definition onOutgoingInterest (p : PitPtr) (egress : FacePtr) (i : Interest) : M bool :=
  f ← the_face egress;
  if bool_decide (i_hopLimit i = Some 0%N) && bool_decide (f_scope f = FACE_SCOPE_NON_LOCAL) then
    update_face_object egress incOutHopLimitZero;; mret false
  else
    assert_canMatch p i;;
    now ← gets fw_now;
    update_pit p (insertOrUpdateOutRecord now egress i);;
    emit (OutInterest egress i);;
    count incOutInterests;;
    mret true.

(** [Forwarder::onOutgoingData]. *)
Definition onOutgoingData (d : Data) (egress : FacePtr) : M bool :=
  f ← the_face egress;
  if (f_id f =? INVALID_FACEID)%N then mret false
  else if bool_decide (f_scope f = FACE_SCOPE_NON_LOCAL) && isPrefixOf LOCALHOST (d_name d) then mret false
  else emit (OutData egress d);; count incOutData;; mret true.

(** [Forwarder::onOutgoingNack]. *)
Definition onOutgoingNack (p : PitPtr) (egress : FacePtr) (reason : NackReason) : M bool :=
  f ← the_face egress;
  if (f_id f =? INVALID_FACEID)%N then mret false
  else
    e ← the_pit p;
    match getInRecord e egress with
    | None => mret false
    | Some r =>
        if negb (bool_decide (f_linkType f = LINK_TYPE_POINT_TO_POINT)) then mret false
        else match ir_interest r with
             | None => fail EndIterator
             | Some i =>
                 update_pit p (deleteInRecord egress);;
                 emit (OutNack egress (mkNack i reason));;
                 count incOutNacks;;
                 mret true
             end
    end.
