(* ===== verification/Accessor.v ===== *)
(** * What strategies keep (table/measurements-accessor.cpp, strategy-info-host.hpp)

    A strategy finds and creates Measurements entries through its accessor, which gives it
    only those that it is the strategy in effect for, and leaves items on PIT entries and
    on Measurements entries. A Measurements entry is the name of its node; the strategy
    object of a call is known by the prefix of the Strategy Choice entry that owns it. *)

From S2P Require Import Prelude Name Packet FaceKeyed PitEntry FibEntry NodeStore NameTree NameTreeInv.
From S2P Require Import Tables Fib Pit Measurements StrategyRegistry StrategyChoice FaceTable Forwarder.

(** ** The strategy object of a call *)

(** [this], in a trigger: the owner of the strategy in effect for the PIT entry. *)
Definition strategy_self (p : PitPtr) : M Name :=
  e ← the_pit p;
  t ← gets fw_tables;
  match owner_pit e t with Some n => mret n | None => fail NullStrategy end.
Definition object_of (self : Name) : M StrategyObject := g ← gets (generation self); mret (self, g).

(** ** [MeasurementsAccessor] *)

(** The entry, when the strategy is in effect for it; [None] is [nullptr]. *)
Definition acc_filter (self n : Name) : M (option Name) :=
  t ← gets fw_tables;
  mret (if bool_decide (owner_meas n t = Some self) then Some n else None).
Definition acc_get (self name : Name) : M (option Name) :=
  now ← gets fw_now;
  t ← gets fw_tables;
  let '(t, n) := Meas_get now name t in
  modify (with_tables t);; acc_filter self n.
Definition acc_get_fib (self : Name) (f : FibEntry) : M (option Name) :=
  now ← gets fw_now;
  t ← gets fw_tables;
  let '(t, n) := Meas_get_fib now f t in
  modify (with_tables t);; acc_filter self n.
Definition acc_get_pit (self : Name) (p : PitPtr) : M (option Name) :=
  e ← the_pit p;
  now ← gets fw_now;
  t ← gets fw_tables;
  match Meas_get_pit now e t with
  | Some (t, n) => modify (with_tables t);; acc_filter self n
  | None => fail EndIterator
  end.
Definition acc_getParent (self child : Name) : M (option Name) :=
  now ← gets fw_now;
  t ← gets fw_tables;
  match Meas_getParent now child t with
  | Some (t, n) => modify (with_tables t);; acc_filter self n
  | None => mret None
  end.
Definition acc_findLongestPrefixMatch (self name : Name) : M (option Name) :=
  t ← gets fw_tables;
  match Meas_lpm name (fun _ => true) t with Some n => acc_filter self n | None => mret None end.
Definition acc_findLongestPrefixMatch_pit (self : Name) (p : PitPtr) : M (option Name) :=
  e ← the_pit p;
  t ← gets fw_tables;
  match Meas_lpm_pit e (fun _ => true) t with Some n => acc_filter self n | None => mret None end.
Definition acc_extendLifetime (n : Name) (lifetime : Z) : M unit :=
  now ← gets fw_now;
  modify (fun s => with_tables (Meas_extendLifetime now n lifetime (fw_tables s)) s).

(** ** Items *)

Definition the_meas (n : Name) : M MeasEntry :=
  o ← gets (fun s => meas_map (ts_nt (fw_tables s)) !! n);
  match o with Some e => mret e | None => fail (DanglingMeasurements n) end.
Definition set_me_info (h : gmap Z StrategyInfo) (e : MeasEntry) : MeasEntry :=
  mkMeasEntry (me_name e) (me_expiry e) (me_cleanup e) h.
Definition update_meas (n : Name) (f : MeasEntry -> MeasEntry) : M unit :=
  modify (fun s => with_tables (meas_modify f n (fw_tables s)) s).

(** [getStrategyInfo], [insertStrategyInfo] (the item and whether it is new), and a write
    through the pointer they give. *)
Definition getMeasInfo (n : Name) (id : Z) : M (option StrategyInfo) :=
  e ← the_meas n; mret (getStrategyInfo id (me_info e)).
Definition insertMeasInfo (n : Name) (id : Z) (new : StrategyInfo) : M (StrategyInfo * bool) :=
  e ← the_meas n;
  let '(i, isNew, h) := insertStrategyInfo id new (me_info e) in
  update_meas n (set_me_info h);; mret (i, isNew).
Definition putMeasInfo (n : Name) (id : Z) (i : StrategyInfo) : M unit :=
  _ ← the_meas n; update_meas n (fun e => set_me_info (<[id := i]> (me_info e)) e).

Definition getPitInfo (p : PitPtr) (id : Z) : M (option StrategyInfo) :=
  e ← the_pit p; mret (getStrategyInfo id (pe_info e)).
Definition insertPitInfo (p : PitPtr) (id : Z) (new : StrategyInfo) : M (StrategyInfo * bool) :=
  e ← the_pit p;
  let '(i, isNew, h) := insertStrategyInfo id new (pe_info e) in
  update_pit p (set_pe_info h);; mret (i, isNew).
Definition putPitInfo (p : PitPtr) (id : Z) (i : StrategyInfo) : M unit :=
  _ ← the_pit p; update_pit p (fun e => set_pe_info (<[id := i]> (pe_info e)) e).

(** ** Pointers that may have expired *)

(** [weak_ptr<pit::Entry>::lock()], for a callback, when nothing else holds the entry. *)
Definition lock_pit (p : PitPtr) : M (option PitEntry) :=
  o ← gets (fun s => ts_pit (fw_tables s) !! p);
  mret (match o with Some e => if pe_nte e then Some e else None | None => None end).
(** A [weak_ptr] to the face at [q], and [lock()]. *)
Definition weak_face (q : FacePtr) : M WeakFace :=
  k ← gets (fun s => default 0%N (ss_freed (fw_strategy s) !! q)); mret (q, k).
Definition lock_face (w : option WeakFace) : M (option FacePtr) :=
  match w with
  | None => mret None
  | Some (q, k) =>
      freed ← gets (fun s => default 0%N (ss_freed (fw_strategy s) !! q));
      object ← gets (fun s => ft_heap (fw_faces s) !! q);
      mret (if (freed =? k)%N then (fun _ => q) <$> object else None)
  end.

(** ** Timers *)

(** Where the callback of a timer is kept: in the items whose destruction cancels it, or with
    the scheduler only. *)
Inductive TimerSource :=
| SrcRto (p : PitPtr)
| SrcBestFace (p : PitPtr)
| SrcPropagate (p : PitPtr)
| SrcAsf (n : Name) (faceId : N)
| SrcEvent (k : nat).

Definition pit_item (p : PitPtr) (id : Z) (s : Fw) : option StrategyInfo :=
  e ← ts_pit (fw_tables s) !! p; _ ← pe_nte e; pe_info e !! id.
Definition meas_item (n : Name) (id : Z) (s : Fw) : option StrategyInfo :=
  e ← meas_map (ts_nt (fw_tables s)) !! n; me_info e !! id.
Definition timer_at (src : TimerSource) (s : Fw) : option (time * StrategyObject * StrategyCall) :=
  match src with
  | SrcRto p => match pit_item p ACCESS_PIT_INFO s with
                | Some (AccessPitInfo (Some (t, o, i, f))) => Some (t, o, CallRtoTimeout p i f)
                | _ => None
                end
  | SrcBestFace p => match pit_item p NCC_PIT_INFO s with
                     | Some (NccPitInfo (Some (t, o)) _ _) => Some (t, o, CallBestFaceTimeout p)
                     | _ => None
                     end
  | SrcPropagate p => match pit_item p NCC_PIT_INFO s with
                      | Some (NccPitInfo _ (Some (t, o, i)) _) => Some (t, o, CallPropagate p i)
                      | _ => None
                      end
  | SrcAsf n f => match meas_item n ASF_NAMESPACE_INFO s with
                  | Some (AsfNamespaceInfo m _ _) => '(t, o, name) ← (m !! f ≫= fi_timeoutEvent); Some (t, o, CallAsfTimeout name f)
                  | _ => None
                  end
  | SrcEvent k => ss_events (fw_strategy s) !! k
  end.

Definition no_timeoutEvent (fi : AsfFaceInfo) : AsfFaceInfo :=
  mkAsfFaceInfo (fi_rtt fi) (fi_lastRtt fi) (fi_lastInterestName fi) (fi_nSilentTimeouts fi) (fi_measurementExpiration fi) None.
Definition without_timer (src : TimerSource) (i : StrategyInfo) : StrategyInfo :=
  match src, i with
  | SrcRto _, AccessPitInfo _ => AccessPitInfo None
  | SrcBestFace _, NccPitInfo _ t m => NccPitInfo None t m
  | SrcPropagate _, NccPitInfo b _ m => NccPitInfo b None m
  | SrcAsf _ f, AsfNamespaceInfo m d fp => AsfNamespaceInfo (alter no_timeoutEvent f m) d fp
  | _, _ => i
  end.
Definition with_events l (s : Fw) : Fw :=
  let x := fw_strategy s in with_strategy (mkStrategyState l (ss_fit x) (ss_freed x) (ss_replaced x)) s.
(** A timer that fires is no longer set. *)
Definition clear_timer (src : TimerSource) : M unit :=
  match src with
  | SrcRto p => update_pit p (fun e => set_pe_info (alter (without_timer src) ACCESS_PIT_INFO (pe_info e)) e)
  | SrcBestFace p | SrcPropagate p => update_pit p (fun e => set_pe_info (alter (without_timer src) NCC_PIT_INFO (pe_info e)) e)
  | SrcAsf n f => update_meas n (fun e => set_me_info (alter (without_timer src) ASF_NAMESPACE_INFO (me_info e)) e)
  | SrcEvent k => modify (fun s => with_events (delete k (ss_events (fw_strategy s))) s)
  end.
(** An event that is left to the scheduler. *)
Definition schedule_event (t : time) (o : StrategyObject) (c : StrategyCall) : M unit :=
  modify (fun s => with_events (ss_events (fw_strategy s) ++ [(t, o, c)]) s).
