(* ===== verification/FwAlgorithm.v ===== *)
(** * Forwarding algorithms and retransmission suppression (fw/algorithm.cpp,
    fw/retx-suppression-exponential.cpp, fw/retx-suppression-fixed.cpp)

    Predicates on PIT entries, faces and nexthops, as functions of the present time. *)

From S2P Require Import Prelude Name Packet FaceKeyed PitEntry FibEntry.

(** ** [algorithm.cpp] *)

Definition wouldViolateScope (inFace : Face) (i : Interest) (outFace : Face) : bool :=
  if bool_decide (f_scope outFace = FACE_SCOPE_LOCAL) then false
  else if isPrefixOf LOCALHOST (i_name i) then true
  else if isPrefixOf LOCALHOP (i_name i) then negb (bool_decide (f_scope inFace = FACE_SCOPE_LOCAL))
  else false.

Definition canForwardToLegacy (now : time) (e : PitEntry) (face : FacePtr) : bool :=
  let hasUnexpiredOutRecord :=
    existsb (fun r => (or_face r =? face)%N && (now <=? fr_expiry (or_rec r))%Z) (pe_outRecords e) in
  if hasUnexpiredOutRecord then false
  else
    let hasUnexpiredOtherInRecord :=
      existsb (fun r => negb (ir_face r =? face)%N && (now <=? fr_expiry (ir_rec r))%Z) (pe_inRecords e) in
    if negb hasUnexpiredOtherInRecord then false else true.

(** [findDuplicateNonce]: an [int] of flags. *)
Definition DUPLICATE_NONCE_NONE : Z := 0.
Definition DUPLICATE_NONCE_IN_SAME : Z := Z.shiftl 1 0.
Definition DUPLICATE_NONCE_IN_OTHER : Z := Z.shiftl 1 1.
Definition DUPLICATE_NONCE_OUT_SAME : Z := Z.shiftl 1 2.
Definition DUPLICATE_NONCE_OUT_OTHER : Z := Z.shiftl 1 3.
Definition findDuplicateNonce (e : PitEntry) (nonce : N) (face : FacePtr) : Z :=
  let dnw := fold_left (fun dnw r =>
      if (fr_lastNonce (ir_rec r) =? nonce)%N
      then Z.lor dnw (if (ir_face r =? face)%N then DUPLICATE_NONCE_IN_SAME else DUPLICATE_NONCE_IN_OTHER)
      else dnw) (pe_inRecords e) DUPLICATE_NONCE_NONE in
  fold_left (fun dnw r =>
      if (fr_lastNonce (or_rec r) =? nonce)%N
      then Z.lor dnw (if (or_face r =? face)%N then DUPLICATE_NONCE_OUT_SAME else DUPLICATE_NONCE_OUT_OTHER)
      else dnw) (pe_outRecords e) dnw.

Definition hasPendingOutRecords (now : time) (e : PitEntry) : bool :=
  existsb (fun r => (now <=? fr_expiry (or_rec r))%Z && bool_decide (or_incomingNack r = None)) (pe_outRecords e).

(** [std::max_element]: the first of the greatest; [None] for an empty range. *)
Fixpoint max_element {A} (key : A -> Z) (l : list A) : option A :=
  match l with
  | [] => None
  | x :: l' => match max_element key l' with
               | Some y => if (key x <? key y)%Z then Some y else Some x
               | None => Some x
               end
  end.

(** [getLastOutgoing]; [None] is the dereference of the end iterator. *)
Definition getLastOutgoing (e : PitEntry) : option time :=
  (fun r => fr_lastRenewed (or_rec r)) <$> max_element (fun r => fr_lastRenewed (or_rec r)) (pe_outRecords e).

(** [isNextHopEligible], of the face a nexthop leads to; [inFace] and [outFace] are the face
    objects, [out] the address of the latter. *)
Definition isNextHopEligible (inFace : Face) (i : Interest) (out : FacePtr) (outFace : Face)
    (e : PitEntry) (wantUnused : bool) (now : time) : bool :=
  if ((f_id outFace =? f_id inFace)%N && negb (bool_decide (f_linkType outFace = LINK_TYPE_AD_HOC)))
     || wouldViolateScope inFace i outFace then false
  else if wantUnused then
    match getOutRecord e out with
    | Some r => negb (now <? fr_expiry (or_rec r))%Z
    | None => true
    end
  else true.

(** ** [RetxSuppressionExponential] *)

Inductive RetxSuppressionResult := RETX_NEW | RETX_FORWARD | RETX_SUPPRESS.

#[global] Instance RetxSuppressionResult_eq_dec : EqDecision RetxSuppressionResult.
Proof. solve_decision. Defined.

(** The interval of [PitInfo], in microseconds, and the strategies' configuration: initial
    interval 10 ms, multiplier 2, maximum 250 ms. The multiplier is a [float]; doubling an
    interval of at most 250000 is exact in it. *)
Definition us : Z := 1000.
Definition RETX_SUPPRESSION_INITIAL : Z := 10000.
Definition RETX_SUPPRESSION_MAX : Z := 250000.
Definition suppressionInterval (si : StrategyInfo) : Z := match si with RetxPitInfo x => x | _ => 0 end.
Definition next_interval (x : Z) : Z := Z.min RETX_SUPPRESSION_MAX (x * 2).

(** [decidePerPitEntry]: the result and the entry with its item. [None] is
    [getLastOutgoing] without an out-record. *)
Definition decidePerPitEntry (now : time) (e : PitEntry) : option (RetxSuppressionResult * PitEntry) :=
  if negb (hasPendingOutRecords now e) then Some (RETX_NEW, e)
  else
    lastOutgoing ← getLastOutgoing e;
    let '(pi, _, h) := insertStrategyInfo RETX_PIT_INFO (RetxPitInfo RETX_SUPPRESSION_INITIAL) (pe_info e) in
    if (now - lastOutgoing <? suppressionInterval pi * us)%Z then Some (RETX_SUPPRESS, set_pe_info h e)
    else Some (RETX_FORWARD,
               set_pe_info (<[RETX_PIT_INFO := RetxPitInfo (next_interval (suppressionInterval pi))]> h) e).

(** [decidePerUpstream] and [incrementIntervalForOutRecord]. *)
Definition decidePerUpstream (now : time) (out : FacePtr) (e : PitEntry) : RetxSuppressionResult * PitEntry :=
  match getOutRecord e out with
  | None => (RETX_NEW, e)
  | Some r =>
      let '(pi, _, h) := insertStrategyInfo RETX_PIT_INFO (RetxPitInfo RETX_SUPPRESSION_INITIAL) (fr_info (or_rec r)) in
      let e := updateOutRecord (set_or_info h) out e in
      if (now - fr_lastRenewed (or_rec r) <? suppressionInterval pi * us)%Z then (RETX_SUPPRESS, e)
      else (RETX_FORWARD, e)
  end.
Definition increment_interval (r : OutRecord) : OutRecord :=
  let '(pi, _, h) := insertStrategyInfo RETX_PIT_INFO (RetxPitInfo RETX_SUPPRESSION_INITIAL) (fr_info (or_rec r)) in
  set_or_info (<[RETX_PIT_INFO := RetxPitInfo (next_interval (suppressionInterval pi))]> h) r.
Definition incrementIntervalForOutRecord (out : FacePtr) (e : PitEntry) : PitEntry :=
  updateOutRecord increment_interval out e.

(** ** [RetxSuppressionFixed] *)

Definition DEFAULT_MIN_RETX_INTERVAL : Z := 100.
Definition fixed_decidePerPitEntry (now : time) (minRetxInterval : Z) (e : PitEntry)
  : option RetxSuppressionResult :=
  if negb (hasPendingOutRecords now e) then Some RETX_NEW
  else
    lastOutgoing ← getLastOutgoing e;
    Some (if (now - lastOutgoing <? minRetxInterval * ms)%Z then RETX_SUPPRESS else RETX_FORWARD).

(** ** Duplicate nonces *)

(** A loop that collects flags. *)
Lemma testbit_fold {A} (hit : A -> bool) (flag : A -> Z) (k : Z) l : forall init,
  Z.testbit (fold_left (fun d r => if hit r then Z.lor d (flag r) else d) l init) k =
  Z.testbit init k || existsb (fun r => hit r && Z.testbit (flag r) k) l.
Proof.
  induction l as [|r l IH]; intros init; simpl; [by rewrite orb_false_r|].
  rewrite IH. destruct (hit r); [rewrite Z.lor_spec; by rewrite <- orb_assoc|done].
Qed.

Lemma existsb_exists' {A} (P : A -> bool) l : existsb P l = true <-> exists x, x ∈ l /\ P x = true.
Proof. rewrite existsb_exists. by setoid_rewrite list_elem_of_In. Qed.

(** Who used a nonce: an in-record or out-record, of the face or of another one. *)
Definition nonce_in (e : PitEntry) (nonce : N) (P : FacePtr -> Prop) : Prop :=
  exists r, r ∈ pe_inRecords e /\ fr_lastNonce (ir_rec r) = nonce /\ P (ir_face r).
Definition nonce_out (e : PitEntry) (nonce : N) (P : FacePtr -> Prop) : Prop :=
  exists r, r ∈ pe_outRecords e /\ fr_lastNonce (or_rec r) = nonce /\ P (or_face r).

Lemma dup_bit e nonce face k :
  Z.testbit (findDuplicateNonce e nonce face) k = true <->
  nonce_in e nonce (fun f => Z.testbit (if (f =? face)%N then DUPLICATE_NONCE_IN_SAME else DUPLICATE_NONCE_IN_OTHER) k = true) \/
  nonce_out e nonce (fun f => Z.testbit (if (f =? face)%N then DUPLICATE_NONCE_OUT_SAME else DUPLICATE_NONCE_OUT_OTHER) k = true).
Proof.
  unfold findDuplicateNonce. rewrite !testbit_fold, Z.bits_0. cbn [orb].
  rewrite orb_true_iff, !existsb_exists'. unfold nonce_in, nonce_out.
  setoid_rewrite andb_true_iff. setoid_rewrite N.eqb_eq. done.
Qed.

Lemma flag_bits (b : bool) (n m k : Z) :
  (0 <= n)%Z -> (0 <= m)%Z -> (0 <= k)%Z ->
  Z.testbit (if b then Z.shiftl 1 n else Z.shiftl 1 m) k = true <-> k = if b then n else m.
Proof.
  intros Hn Hm Hk. rewrite !Z.shiftl_1_l. destruct b; rewrite Z.pow2_bits_eqb by done; rewrite Z.eqb_eq; naive_solver.
Qed.

Lemma findDuplicateNonce_flags (e : PitEntry) (nonce : N) (face : FacePtr) :
  let d := findDuplicateNonce e nonce face in
  (Z.testbit d 0 = true <-> nonce_in e nonce (fun f => f = face)) /\
  (Z.testbit d 1 = true <-> nonce_in e nonce (fun f => f <> face)) /\
  (Z.testbit d 2 = true <-> nonce_out e nonce (fun f => f = face)) /\
  (Z.testbit d 3 = true <-> nonce_out e nonce (fun f => f <> face)) /\
  (forall k, (4 <= k)%Z -> Z.testbit d k = false) /\
  (d = DUPLICATE_NONCE_NONE <-> ~ nonce_in e nonce (fun _ => True) /\ ~ nonce_out e nonce (fun _ => True)).
Proof.
  cbn zeta.
  assert (forall k, (0 <= k)%Z -> Z.testbit (findDuplicateNonce e nonce face) k = true <->
    nonce_in e nonce (fun f => k = if (f =? face)%N then 0 else 1)%Z \/
    nonce_out e nonce (fun f => k = if (f =? face)%N then 2 else 3)%Z) as H.
  { intros k Hk. rewrite dup_bit. unfold nonce_in, nonce_out.
    unfold DUPLICATE_NONCE_IN_SAME, DUPLICATE_NONCE_IN_OTHER, DUPLICATE_NONCE_OUT_SAME, DUPLICATE_NONCE_OUT_OTHER.
    by setoid_rewrite flag_bits. }
  assert (forall f, (0 = if (f =? face)%N then 0 else 1)%Z <-> f = face) as B0
    by (intros f; destruct (N.eqb_spec f face); naive_solver).
  assert (forall f, (1 = if (f =? face)%N then 0 else 1)%Z <-> f <> face) as B1
    by (intros f; destruct (N.eqb_spec f face); naive_solver).
  assert (forall f, (2 = if (f =? face)%N then 2 else 3)%Z <-> f = face) as B2
    by (intros f; destruct (N.eqb_spec f face); naive_solver).
  assert (forall f, (3 = if (f =? face)%N then 2 else 3)%Z <-> f <> face) as B3
    by (intros f; destruct (N.eqb_spec f face); naive_solver).
  assert (forall k f, (k = if (f =? face)%N then 0 else 1)%Z -> (k < 2)%Z) as C1 by (intros k f ->; by destruct (_ =? _)%N).
  assert (forall k f, (k = if (f =? face)%N then 2 else 3)%Z -> (2 <= k < 4)%Z) as C2 by (intros k f ->; by destruct (_ =? _)%N).
  unfold nonce_in, nonce_out in *. split_and!.
  - rewrite H by done. setoid_rewrite B0. split; [|by left]. intros [?|(r & _ & _ & Hk%C2)]; [done|lia].
  - rewrite H by done. setoid_rewrite B1. split; [|by left]. intros [?|(r & _ & _ & Hk%C2)]; [done|lia].
  - rewrite H by done. setoid_rewrite B2. split; [|by right]. intros [(r & _ & _ & Hk%C1)|?]; [lia|done].
  - rewrite H by done. setoid_rewrite B3. split; [|by right]. intros [(r & _ & _ & Hk%C1)|?]; [lia|done].
  - intros k Hk. apply not_true_iff_false. rewrite H by lia.
    intros [(r & _ & _ & Hx%C1)|(r & _ & _ & Hx%C2)]; lia.
  - split.
    + intros E. split; intros (r & Hr & Hn & _).
      * specialize (H (if (ir_face r =? face)%N then 0 else 1)%Z). rewrite E, Z.bits_0 in H.
        destruct H as [_ H]; [by destruct (_ =? _)%N|]. discriminate H. left. eauto.
      * specialize (H (if (or_face r =? face)%N then 2 else 3)%Z). rewrite E, Z.bits_0 in H.
        destruct H as [_ H]; [by destruct (_ =? _)%N|]. discriminate H. right. eauto.
    + intros [N1 N2]. apply Z.bits_inj_0. intros k. destruct (Z.neg_nonneg_cases k) as [Hk|Hk]; [by apply Z.testbit_neg_r|].
      apply not_true_iff_false. rewrite H by done. intros [(r & Hr & Hn & _)|(r & Hr & Hn & _)]; eauto.
Qed.

(** [findDuplicateNonce]: the four flags say exactly whether an in-record of the same
    face, an in-record of another face, an out-record of the same face, an out-record of
    another face carries the nonce; no other bit is set, so the result is
    [DUPLICATE_NONCE_NONE] exactly when no record of the entry carries it. *)
Theorem findDuplicateNonce_spec (e : PitEntry) (nonce : N) (face : FacePtr) :
  let d := findDuplicateNonce e nonce face in
  (Z.testbit d 0 = true <-> nonce_in e nonce (fun f => f = face)) /\
  (Z.testbit d 1 = true <-> nonce_in e nonce (fun f => f <> face)) /\
  (Z.testbit d 2 = true <-> nonce_out e nonce (fun f => f = face)) /\
  (Z.testbit d 3 = true <-> nonce_out e nonce (fun f => f <> face)) /\
  (forall k, (4 <= k)%Z -> Z.testbit d k = false) /\
  (d = DUPLICATE_NONCE_NONE <-> ~ nonce_in e nonce (fun _ => True) /\ ~ nonce_out e nonce (fun _ => True)).
Proof. apply findDuplicateNonce_flags. Qed.

(** ** Retransmission suppression *)

Lemma max_element_Some {A} (key : A -> Z) l : l <> [] -> exists x, max_element key l = Some x /\ x ∈ l /\
  forall y, y ∈ l -> (key y <= key x)%Z.
Proof.
  induction l as [|x l IH]; [done|]. intros _. destruct l as [|y l].
  { exists x. simpl. split_and!; [done|by left|]. intros z [->|?%not_elem_of_nil]%elem_of_cons; [lia|done]. }
  destruct IH as (m & Hm & Hin & Hmax); [done|]. cbn [max_element] in *. rewrite Hm.
  destruct (Z.ltb_spec (key x) (key m)).
  - exists m. split_and!; [done|by right|]. intros z [->|Hz]%elem_of_cons; [lia|auto].
  - exists x. split_and!; [done|by left|]. intros z [->|Hz]%elem_of_cons; [lia|]. apply Hmax in Hz. lia.
Qed.

(** The interval in force for an entry: that of its item, or the initial one. *)
Definition interval_of (h : StrategyInfoHost) : Z :=
  match h !! RETX_PIT_INFO with Some si => suppressionInterval si | None => RETX_SUPPRESSION_INITIAL end.
Definition interval_ok (h : StrategyInfoHost) : Prop :=
  (RETX_SUPPRESSION_INITIAL <= interval_of h <= RETX_SUPPRESSION_MAX)%Z.

(** C37: [RetxSuppressionExponential::decidePerPitEntry]. An Interest without a pending
    out-record is new; otherwise it is suppressed exactly when less time than the interval in
    force has passed since the latest transmission, and a retransmission let through doubles
    the interval up to 250 ms. The interval never leaves the range from 10 ms to 250 ms,
    nothing else of the entry changes, and the latest out-record always exists where the
    code dereferences it. *)
Theorem decidePerPitEntry_spec (now : time) (e : PitEntry) :
  interval_ok (pe_info e) ->
  exists r e', decidePerPitEntry now e = Some (r, e') /\
    (r = RETX_NEW <-> hasPendingOutRecords now e = false) /\
    (r = RETX_NEW -> e' = e) /\
    (r <> RETX_NEW -> exists last, getLastOutgoing e = Some last /\
       (forall o, o ∈ pe_outRecords e -> (fr_lastRenewed (or_rec o) <= last)%Z) /\
       (r = RETX_SUPPRESS <-> (now - last < interval_of (pe_info e) * us)%Z)) /\
    (interval_of (pe_info e') = if decide (r = RETX_FORWARD)
                                then Z.min RETX_SUPPRESSION_MAX (interval_of (pe_info e) * 2)
                                else interval_of (pe_info e)) /\
    interval_ok (pe_info e') /\ e' = set_pe_info (pe_info e') e.
Proof.
  intros Hi. unfold decidePerPitEntry. destruct (hasPendingOutRecords now e) eqn:Hp; cbn [negb].
  2: { exists RETX_NEW, e. split_and!; try done. by destruct e. }
  destruct (max_element_Some (fun r => fr_lastRenewed (or_rec r)) (pe_outRecords e)) as (m & Hm & _ & Hmax).
  { intros E. unfold hasPendingOutRecords in Hp. by rewrite E in Hp. }
  assert (getLastOutgoing e = Some (fr_lastRenewed (or_rec m))) as HL by (unfold getLastOutgoing; by rewrite Hm).
  rewrite HL. cbn [mbind option_bind].
  destruct (insertStrategyInfo RETX_PIT_INFO (RetxPitInfo RETX_SUPPRESSION_INITIAL) (pe_info e)) as [[pi b] h] eqn:Eh.
  assert (suppressionInterval pi = interval_of (pe_info e) /\ interval_of h = interval_of (pe_info e)) as [E1 E2].
  { unfold insertStrategyInfo, interval_of in *. destruct (pe_info e !! RETX_PIT_INFO) as [si|] eqn:Es;
      injection Eh as <- <- <-; [by rewrite Es|]. by rewrite lookup_insert_eq. }
  rewrite E1. unfold interval_ok in *.
  destruct (Z.ltb_spec (now - fr_lastRenewed (or_rec m)) (interval_of (pe_info e) * us)) as [Hlt|Hge].
  - exists RETX_SUPPRESS, (set_pe_info h e). split; [done|]. split; [done|]. split; [done|].
    split; [|split; [by rewrite decide_False|split; [simpl; lia|done]]].
    intros _. eexists. split; [done|]. split; [exact Hmax|done].
  - set (h' := <[RETX_PIT_INFO := RetxPitInfo (next_interval (interval_of (pe_info e)))]> h).
    assert (interval_of h' = next_interval (interval_of (pe_info e))) as E3.
    { unfold interval_of at 1, h'. by rewrite lookup_insert_eq. }
    exists RETX_FORWARD, (set_pe_info h' e). split; [done|]. split; [done|]. split; [done|].
    cbn [pe_info set_pe_info]. rewrite E3, decide_True by done. unfold next_interval, RETX_SUPPRESSION_MAX, RETX_SUPPRESSION_INITIAL in *.
    split; [|split; [done|split; [lia|done]]].
    intros _. eexists. split; [done|]. split; [exact Hmax|]. split; [done|lia].
Qed.

Definition sent_entry : PitEntry := insertOrUpdateOutRecord 0 256 sample_interest (PitEntry_new sample_interest).

Lemma decidePerPitEntry_spec_witness :
  hasPendingOutRecords (5 * ms) sent_entry = true /\
  decidePerPitEntry (5 * ms) sent_entry = Some (RETX_SUPPRESS, set_pe_info {[RETX_PIT_INFO := RetxPitInfo 10000]} sent_entry) /\
  exists r e', decidePerPitEntry (5 * ms) sent_entry = Some (r, e') /\ interval_ok (pe_info e').
Proof.
  split; [by vm_compute|]. split; [by vm_compute|].
  destruct (decidePerPitEntry_spec (5 * ms) sent_entry) as (r & e' & H1 & _ & _ & _ & _ & H2 & _).
  - split; by apply Z.leb_le.
  - exists r, e'. split; [exact H1|exact H2].
Defined.
