(* ===== verification/Strategy.v ===== *)
(** * Forwarding strategies (fw/strategy.cpp, best-route-strategy.cpp, best-route-strategy2.cpp,
    multicast-strategy.cpp, random-strategy.cpp, process-nack-traits.cpp)

    [StrategyOps] is the interface between the forwarder and a strategy: one operation per
    trigger. The base class gives the actions (send an Interest, a Data, a Nack) and the
    default triggers; its strategies are those of the program that do not measure. *)

From S2P Require Import Prelude Name Packet FaceKeyed PitEntry FibEntry NodeStore NameTree NameTreeInv.
From S2P Require Import Tables Fib Pit StrategyRegistry StrategyChoice FaceTable RateControl Forwarder FwAlgorithm.

(** ** The environment

    What the program gets from elsewhere: random numbers, [std::shuffle] with the random
    engine, the iteration order of [std::unordered_set], the kernel's station reports, and
    whether the environment asks for the alternate URI format. *)
Class Env := {
  env_nonce : N -> N;
  env_shuffle : N -> list NextHop -> list NextHop;
  env_unordered : list FacePtr -> list FacePtr;
  env_station : time -> string -> string -> StationReport;
  env_alt_uri : bool;
  env_uniform : N -> Z -> Z;           (* the n-th draw, from 0 to the bound *)
  env_real : N -> Z;                   (* the n-th draw from [0, 1), times 2^128 *)
  env_other_nonce : N -> N -> N;       (* the first draw, from the n-th, that is another nonce *)
}.
Class EnvLaws `{Env} : Prop := {
  env_shuffle_perm : forall n l, env_shuffle n l ≡ₚ l;
  env_unordered_perm : forall l, env_unordered l ≡ₚ l;
  env_uniform_range : forall n k, (0 <= k -> 0 <= env_uniform n k <= k)%Z;
  env_real_range : forall n, (0 <= env_real n < 2 ^ 128)%Z;
  env_other_nonce_ne : forall n k, env_other_nonce n k <> k;
}.

(** The triggers of a strategy. *)
Record StrategyOps := mkStrategyOps {
  afterReceiveInterest : FacePtr -> Interest -> PitPtr -> M unit;
  beforeSatisfyInterest : PitPtr -> FacePtr -> Data -> M unit;
  afterContentStoreHit : PitPtr -> FacePtr -> Data -> M unit;
  afterReceiveData : PitPtr -> FacePtr -> Data -> M unit;
  afterReceiveNack : FacePtr -> Nack -> PitPtr -> M unit;
  onDroppedInterest : FacePtr -> Interest -> M unit;
  afterNewNextHop : NextHop -> PitPtr -> M unit;
  wantNewNextHopTrigger : bool;
  onTimer : StrategyObject -> StrategyCall -> M unit;      (* the callbacks of its timers *)
}.

Section strategy.
Context `{Env}.

(** ** Actions *)

Definition remove_pitToken (i : Interest) : Interest :=
  mkInterest (i_name i) (i_canBePrefix i) (i_mustBeFresh i) (i_nonce i) (i_lifetime i) (i_hopLimit i)
             (i_forwardingHint i) (i_incomingFaceId i) (i_nextHopFaceId i) None.
Definition set_d_pitToken (t : option (list byte)) (d : Data) : Data :=
  mkData (d_name d) (d_content d) (d_freshness d) (d_digest d) (d_incomingFaceId d) t (d_noCache d).

(** [Strategy::sendInterest]. *)
Definition sendInterest (p : PitPtr) (egress : FacePtr) (i : Interest) : M bool :=
  match i_pitToken i with
  | Some _ => onOutgoingInterest p egress (remove_pitToken i)
  | None => onOutgoingInterest p egress i
  end.

(** [Strategy::sendData]. *)
Definition sendData (p : PitPtr) (d : Data) (egress : FacePtr) : M bool :=
  e ← the_pit p;
  if negb (matchesData (pe_interest e) d) then fail DataMismatch
  else
  pitToken ← match getInRecord e egress with
             | None => mret None
             | Some r => match ir_interest r with
                         | Some i => mret (i_pitToken i)
                         | None => fail EndIterator
                         end
             end;
  update_pit p (deleteInRecord egress);;
  match pitToken with
  | Some t => onOutgoingData (set_d_pitToken (Some t) d) egress
  | None => onOutgoingData d egress
  end.

Definition sendNack (p : PitPtr) (egress : FacePtr) (reason : NackReason) : M bool :=
  onOutgoingNack p egress reason.
Definition rejectPendingInterest (p : PitPtr) : M unit := Fw_setExpiryTimer p 0.

(** A [std::set<Face*>]: in the order of the addresses. *)
Definition ptr_set (l : list FacePtr) : list FacePtr := merge_sort N.le (remove_dups l).

(** [Strategy::sendDataToAll]. First the pending downstreams: *)
Fixpoint pending_downstreams (now : time) (inFace : Face) (l : list InRecord) : M (list FacePtr) :=
  match l with
  | [] => mret []
  | r :: l' =>
      if (now <? fr_expiry (ir_rec r))%Z then
        f ← the_face (ir_face r);
        rest ← pending_downstreams now inFace l';
        if (f_id f =? f_id inFace)%N && negb (bool_decide (f_linkType f = LINK_TYPE_AD_HOC)) then mret rest
        else mret (ir_face r :: rest)
      else pending_downstreams now inFace l'
  end.

(** then the loop that counts the faces of the wireless interface and takes the least rate,
    until it has seen enough to decide for multicast: *)
Fixpoint scan_wireless (l : list FacePtr) (wirelessCount rateThreshold : Z) : M (Z * Z) :=
  match l with
  | [] => mret (wirelessCount, rateThreshold)
  | p :: l' =>
      f ← the_face p;
      if String.eqb (f_localHost f) wireless_host then
        now ← gets fw_now;
        let wirelessCount := (wirelessCount + 1)%Z in
        let rate := get_rate (env_station now (f_localHost f) (f_remoteHost f)) in
        let rateThreshold := if (rate <? rateThreshold)%Z then rate else rateThreshold in
        if String.eqb (f_remoteHost f) multicast_host || (0 <? wirelessCount)%Z
        then mret ((wirelessCount + 1)%Z, rateThreshold)
        else scan_wireless l' wirelessCount rateThreshold
      else scan_wireless l' wirelessCount rateThreshold
  end.

(** and last the transmissions. *)
Definition getWirelessMulticastEtherFace : M FacePtr :=
  o ← gets (fun s => ft_wireless (fw_faces s));
  match o with Some p => mret p | None => fail UninitialisedFace end.
Definition set_rate (host : string) (rate : Z) : M unit := emit (OutRate host (quantize_rate rate)).
Definition sendDataToAll (p : PitPtr) (inFace : FacePtr) (d : Data) : M unit :=
  e ← the_pit p;
  now ← gets fw_now;
  inF ← the_face inFace;
  l ← pending_downstreams now inF (pe_inRecords e);
  let pendingDownstreams := ptr_set l in
  '(wirelessCount, rateThreshold) ← scan_wireless pendingDownstreams (-1) 9990;
  if (0 <? wirelessCount)%Z then
    w ← getWirelessMulticastEtherFace;
    wf ← the_face w;
    set_rate (f_localHost wf) rateThreshold;;
    _ ← sendData p d w;
    forM pendingDownstreams (fun q =>
      f ← the_face q;
      if negb (String.eqb (f_localHost f) wireless_host) then sendData p d q;; mret tt else mret tt)
  else forM pendingDownstreams (fun q => sendData p d q;; mret tt).

(** [Strategy::sendNacks] to every downstream. *)
Definition sendNacks (p : PitPtr) (reason : NackReason) : M unit :=
  e ← the_pit p;
  forM (env_unordered (remove_dups (ir_face <$> pe_inRecords e))) (fun q => sendNack p q reason;; mret tt).

(** [Strategy::lookupFib]; the loop ends with the last entry looked up. *)
Fixpoint lookup_delegations (t : TableState) (fh : list Delegation) (found : FibEntry) : M FibEntry :=
  match fh with
  | [] => mret found
  | del :: fh' =>
      let fibEntry := Fib_lpm_name (del_name del) t in
      if hasNextHops fibEntry then mret fibEntry
      else match fe_prefix fibEntry with
           | [] => lookup_delegations t fh' fibEntry
           | prefix => fail (EmptyFibEntry prefix)
           end
  end.
Definition lookupFib (p : PitPtr) : M FibEntry :=
  e ← the_pit p;
  t ← gets fw_tables;
  match i_forwardingHint (pe_interest e) with
  | [] => mret (Fib_lpm_pit e t)
  | fh =>
      regions ← gets fw_regions;
      if isInProducerRegion regions fh then fail HintInProducerRegion
      else lookup_delegations t fh s_emptyEntry
  end.

(** ** Triggers of the base class *)

Definition base_beforeSatisfyInterest (p : PitPtr) (ingress : FacePtr) (d : Data) : M unit := mret tt.
Definition base_afterContentStoreHit (p : PitPtr) (ingress : FacePtr) (d : Data) : M unit :=
  sendData p d ingress;; mret tt.
Definition base_afterReceiveData (p : PitPtr) (ingress : FacePtr) (d : Data) : M unit :=
  base_beforeSatisfyInterest p ingress d;; sendDataToAll p ingress d.
Definition base_afterReceiveNack (ingress : FacePtr) (n : Nack) (p : PitPtr) : M unit := mret tt.
Definition base_onDroppedInterest (egress : FacePtr) (i : Interest) : M unit := mret tt.
Definition base_afterNewNextHop (nh : NextHop) (p : PitPtr) : M unit := mret tt.

(** A subclass that overrides two triggers. *)
Definition derive (afterInterest : FacePtr -> Interest -> PitPtr -> M unit)
    (afterNack : FacePtr -> Nack -> PitPtr -> M unit) : StrategyOps :=
  mkStrategyOps afterInterest base_beforeSatisfyInterest base_afterContentStoreHit
    base_afterReceiveData afterNack base_onDroppedInterest base_afterNewNextHop false (fun _ _ => mret tt).

(** ** [ProcessNackTraits::processNack] *)

(** The loop: how many out-records are not nacked, the last of them, and the least severe
    reason. *)
Fixpoint nack_scan (l : list OutRecord) (n : nat) (lastNotNacked : option FacePtr) (least : NackReason)
  : nat * option FacePtr * NackReason :=
  match l with
  | [] => (n, lastNotNacked, least)
  | r :: l' =>
      match or_incomingNack r with
      | None => nack_scan l' (S n) (Some (or_face r)) least
      | Some x => nack_scan l' n lastNotNacked (if isLessSevere x least then x else least)
      end
  end.
Definition processNack (inFace : FacePtr) (n : Nack) (p : PitPtr) : M unit :=
  e ← the_pit p;
  let '(nOutRecordsNotNacked, lastFaceNotNacked, outNack) := nack_scan (pe_outRecords e) 0 None NACK_NONE in
  let bidirectional := match nOutRecordsNotNacked, lastFaceNotNacked with
                       | 1%nat, Some f => match getInRecord e f with Some _ => Some f | None => None end
                       | _, _ => None
                       end in
  match bidirectional with
  | Some f => sendNack p f outNack;; mret tt
  | None => if (0 <? nOutRecordsNotNacked)%nat then mret tt else sendNacks p outNack
  end.

(** ** The strategies *)

(** [std::find_if] over the nexthops, with a predicate on the face they lead to. *)
Fixpoint find_nextHop (P : FacePtr -> Face -> bool) (l : list NextHop) : M (option NextHop) :=
  match l with
  | [] => mret None
  | nh :: l' => f ← the_face (nh_face nh); if P (nh_face nh) f then mret (Some nh) else find_nextHop P l'
  end.

(** [BestRouteStrategyBase::afterReceiveInterest]. *)
Definition bestRoute_afterReceiveInterest (ingress : FacePtr) (i : Interest) (p : PitPtr) : M unit :=
  e ← the_pit p;
  now ← gets fw_now;
  if hasPendingOutRecords now e then mret tt
  else
    fibEntry ← lookupFib p;
    inF ← the_face ingress;
    it ← find_nextHop (fun out f => negb (wouldViolateScope inF i f) && canForwardToLegacy now e out)
                      (fe_nextHops fibEntry);
    match it with
    | Some nh => sendInterest p (nh_face nh) i;; mret tt
    | None => rejectPendingInterest p
    end.

(** [decidePerPitEntry] and [decidePerUpstream] on the entry in the PIT. *)
Definition retx_perPitEntry (p : PitPtr) : M RetxSuppressionResult :=
  e ← the_pit p;
  now ← gets fw_now;
  match decidePerPitEntry now e with
  | None => fail EndIterator
  | Some (r, e') => update_pit p (fun _ => e');; mret r
  end.
Definition retx_perUpstream (p : PitPtr) (out : FacePtr) : M RetxSuppressionResult :=
  e ← the_pit p;
  now ← gets fw_now;
  let '(r, e') := decidePerUpstream now out e in
  update_pit p (fun _ => e');; mret r.

(** [findEligibleNextHopWithEarliestOutRecord]. *)
Fixpoint find_earliest (inF : Face) (i : Interest) (now : time) (e : PitEntry) (l : list NextHop)
    (found : option NextHop) (earliestRenewed : time) : M (option NextHop) :=
  match l with
  | [] => mret found
  | nh :: l' =>
      f ← the_face (nh_face nh);
      if negb (isNextHopEligible inF i (nh_face nh) f e false now) then find_earliest inF i now e l' found earliestRenewed
      else match getOutRecord e (nh_face nh) with
           | None => fail EndIterator
           | Some r =>
               if (fr_lastRenewed (or_rec r) <? earliestRenewed)%Z
               then find_earliest inF i now e l' (Some nh) (fr_lastRenewed (or_rec r))
               else find_earliest inF i now e l' found earliestRenewed
           end
  end.

(** [BestRouteStrategy2::afterReceiveInterest]. *)
Definition bestRoute2_afterReceiveInterest (ingress : FacePtr) (i : Interest) (p : PitPtr) : M unit :=
  suppression ← retx_perPitEntry p;
  match suppression with
  | RETX_SUPPRESS => mret tt
  | _ =>
      fibEntry ← lookupFib p;
      let nexthops := fe_nextHops fibEntry in
      e ← the_pit p;
      now ← gets fw_now;
      inF ← the_face ingress;
      match suppression with
      | RETX_NEW =>
          it ← find_nextHop (fun out f => isNextHopEligible inF i out f e false now) nexthops;
          match it with
          | None => sendNack p ingress NO_ROUTE;; rejectPendingInterest p
          | Some nh => sendInterest p (nh_face nh) i;; mret tt
          end
      | _ =>
          it ← find_nextHop (fun out f => isNextHopEligible inF i out f e true now) nexthops;
          match it with
          | Some nh => sendInterest p (nh_face nh) i;; mret tt
          | None =>
              it ← find_earliest inF i now e nexthops None TIME_MAX;
              match it with
              | None => mret tt
              | Some nh => sendInterest p (nh_face nh) i;; mret tt
              end
          end
      end
  end.

(** [MulticastStrategy::afterReceiveInterest]. *)
Definition multicast_nextHop (inF : Face) (i : Interest) (p : PitPtr) (nh : NextHop) : M unit :=
  let out := nh_face nh in
  suppressResult ← retx_perUpstream p out;
  match suppressResult with
  | RETX_SUPPRESS => mret tt
  | _ =>
      f ← the_face out;
      e ← the_pit p;
      now ← gets fw_now;
      if negb (isNextHopEligible inF i out f e false now) then mret tt
      else
        wasSent ← sendInterest p out i;
        if wasSent && bool_decide (suppressResult = RETX_FORWARD)
        then update_pit p (incrementIntervalForOutRecord out)
        else mret tt
  end.
Definition multicast_afterReceiveInterest (ingress : FacePtr) (i : Interest) (p : PitPtr) : M unit :=
  fibEntry ← lookupFib p;
  inF ← the_face ingress;
  forM (fe_nextHops fibEntry) (multicast_nextHop inF i p);;
  e ← the_pit p;
  now ← gets fw_now;
  if negb (hasPendingOutRecords now e) then
    sendNack p ingress NO_ROUTE;; rejectPendingInterest p
  else mret tt.

(** [RandomStrategy::afterReceiveInterest]. *)
Fixpoint filter_nextHops (P : FacePtr -> Face -> bool) (l : list NextHop) : M (list NextHop) :=
  match l with
  | [] => mret []
  | nh :: l' =>
      f ← the_face (nh_face nh);
      rest ← filter_nextHops P l';
      mret (if P (nh_face nh) f then nh :: rest else rest)
  end.
Definition random_afterReceiveInterest (ingress : FacePtr) (i : Interest) (p : PitPtr) : M unit :=
  fibEntry ← lookupFib p;
  e ← the_pit p;
  now ← gets fw_now;
  inF ← the_face ingress;
  nhs ← filter_nextHops (fun out f => isNextHopEligible inF i out f e false now) (fe_nextHops fibEntry);
  match nhs with
  | [] => sendNack p ingress NO_ROUTE;; rejectPendingInterest p
  | _ =>
      n ← gets fw_nRandom;
      modify (fun s => with_nRandom (n + 1)%N s);;
      match env_shuffle n nhs with
      | [] => fail EndIterator
      | nh :: _ => sendInterest p (nh_face nh) i;; mret tt
      end
  end.

Definition bestRoute_ops : StrategyOps := derive bestRoute_afterReceiveInterest base_afterReceiveNack.
Definition bestRoute2_ops : StrategyOps := derive bestRoute2_afterReceiveInterest processNack.
Definition multicast_ops : StrategyOps := derive multicast_afterReceiveInterest processNack.
Definition random_ops : StrategyOps := derive random_afterReceiveInterest processNack.
End strategy.
