(* ===== verification/Actions.v ===== *)
(** * Invariant of the forwarder, and reasoning about its handlers

    [fw_ok] is the invariant of the whole state: the invariants of the tables, and that every
    face a table refers to is in the face table. [evolves] says what a handler that runs for
    one packet leaves alone. [keeps P m] is the total-correctness triple the proofs about
    handlers use: from an [fw_ok] state with [P], [m] ends in an [fw_ok] state that evolved
    from it, or fails in one of the ways of [may_fail] that the code does not exclude;
    [keepsX X P m] allows the failures [X] besides. *)

From S2P Require Import Prelude Name Packet FaceKeyed PitEntry FibEntry NodeStore NameTree NameTreeInv.
From S2P Require Import Tables Fib Pit StrategyRegistry StrategyChoice FaceTable ContentStore CsInv DeadNonceList.
From S2P Require Import RateControl Forwarder FwAlgorithm.

(** ** The invariant *)

Definition records_in_table (faces : FaceTable) (e : PitEntry) : Prop :=
  (forall r, r ∈ pe_inRecords e -> in_table faces (ir_face r)) /\
  (forall r, r ∈ pe_outRecords e -> in_table faces (or_face r)).

Record fw_ok (s : Fw) : Prop := {
  fo_tables : ts_ok (fw_tables s);
  fo_fib : fib_counted (fw_tables s);
  fo_sc : sc_counted (fw_tables s);
  fo_root : is_Some (sc_map (ts_nt (fw_tables s)) !! []);
  fo_cs : cs_ok (fw_cs s);
  fo_limit : cs_within_limit (fw_cs s);
  fo_dnl : dnl_ok (fw_dnl s);
  fo_faces : ft_ok (fw_faces s);
  fo_wireless : forall w f, ft_wireless (fw_faces s) = Some w -> ft_heap (fw_faces s) !! w = Some f ->
    is_wireless_multicast f = true;
  fo_hops : forall n f nh, fib_map (ts_nt (fw_tables s)) !! n = Some f -> nh ∈ fe_nextHops f ->
    in_table (fw_faces s) (nh_face nh);
  fo_records : forall p e, attached (fw_tables s) p e -> records_in_table (fw_faces s) e;
  fo_hints : forall p e, attached (fw_tables s) p e ->
    isInProducerRegion (fw_regions s) (i_forwardingHint (pe_interest e)) = false;
}.

(** What a face is, its counters aside. *)
Definition face_static (f : Face) : N * FaceScope * LinkType * string * string :=
  (f_id f, f_scope f, f_linkType f, f_localHost f, f_remoteHost f).
Definition face_is (p : FacePtr) (f : Face) (t : FaceTable) : Prop :=
  face_static <$> ft_heap t !! p = Some (face_static f).
Definition same_faces (t t' : FaceTable) : Prop :=
  (forall p, face_static <$> ft_heap t !! p = face_static <$> ft_heap t' !! p) /\
  ft_lastFaceId t = ft_lastFaceId t' /\ ft_faces t = ft_faces t' /\ ft_wireless t = ft_wireless t'.

#[global] Instance same_faces_equiv : Equivalence same_faces.
Proof.
  split; [by intros t|intros t t' (H1 & H2 & H3 & H4); split_and!; [by intros p|done..]|].
  intros t1 t2 t3 (A1 & A2 & A3 & A4) (B1 & B2 & B3 & B4). split_and!; [intros p; by rewrite A1|congruence..].
Qed.

(** What may be sent: an Interest with no hops left goes to local faces only, one of the
    local host leaves it only with an explicit nexthop face; Data goes to faces with an id,
    and Data of the local host stays; Nacks go over point-to-point links; the multicast rate
    is one of the rates there are. *)
Definition out_ok (faces : FaceTable) (o : Output) : Prop :=
  match o with
  | OutInterest q i => exists f, face_is q f faces /\
      (i_hopLimit i = Some 0%N -> f_scope f <> FACE_SCOPE_NON_LOCAL) /\
      (isPrefixOf LOCALHOST (i_name i) = true -> f_scope f = FACE_SCOPE_LOCAL \/ is_Some (i_nextHopFaceId i))
  | OutData q d => exists f, face_is q f faces /\ f_id f <> INVALID_FACEID /\
      (isPrefixOf LOCALHOST (d_name d) = true -> f_scope f <> FACE_SCOPE_NON_LOCAL)
  | OutNack q _ => exists f, face_is q f faces /\ f_linkType f = LINK_TYPE_POINT_TO_POINT
  | OutRate _ rate => rate ∈ mcast_rates
  end.

Record evolves (s s' : Fw) : Prop := {
  ev_now : fw_now s' = fw_now s;
  ev_faces : same_faces (fw_faces s) (fw_faces s');
  ev_regions : fw_regions s' = fw_regions s;
  ev_choice : sc_map (ts_nt (fw_tables s')) = sc_map (ts_nt (fw_tables s));
  ev_fib : fib_map (ts_nt (fw_tables s')) = fib_map (ts_nt (fw_tables s));
  ev_meas : forall n, is_Some (meas_map (ts_nt (fw_tables s)) !! n) -> is_Some (meas_map (ts_nt (fw_tables s')) !! n);
  ev_replaced : ss_replaced (fw_strategy s') = ss_replaced (fw_strategy s);
  ev_attached : forall p e, attached (fw_tables s) p e ->
    exists e', attached (fw_tables s') p e' /\ pe_interest e' = pe_interest e;
  ev_out : exists new, fw_out s' = fw_out s ++ new /\ Forall (out_ok (fw_faces s)) new;
}.

Lemma face_is_same p f t t' : same_faces t t' -> face_is p f t <-> face_is p f t'.
Proof. intros [H _]. unfold face_is. by rewrite H. Qed.

Lemma in_table_face_is t p : in_table t p <-> exists f, face_is p f t /\ f_id f <> INVALID_FACEID.
Proof.
  unfold in_table, face_is. split.
  - intros (f & -> & H). by exists f.
  - intros (f & H1 & H). apply fmap_Some in H1 as (g & E & Hg). exists g. split; [done|]. injection Hg as Hg _ _ _ _. by rewrite <- Hg.
Qed.
Lemma in_table_same t t' p : same_faces t t' -> in_table t p <-> in_table t' p.
Proof. intros H. rewrite !in_table_face_is. by setoid_rewrite (face_is_same _ _ t t' H). Qed.

Lemma out_ok_same t t' o : same_faces t t' -> out_ok t o <-> out_ok t' o.
Proof. intros H. destruct o; simpl; by repeat setoid_rewrite (face_is_same _ _ t t' H). Qed.

#[global] Instance evolves_preorder : PreOrder evolves.
Proof.
  split; [intros s; split; [done|done|done|done|done|done|done|eauto|exists []; by rewrite app_nil_r]|].
  intros s1 s2 s3 [A1 A2 A3 C1 F1 E1 D1 A4 (n & A5 & A6)] [B1 B2 B3 C2 F2 E2 D2 B4 (m & B5 & B6)]. split.
  - congruence.
  - by etrans.
  - congruence.
  - congruence.
  - congruence.
  - auto.
  - congruence.
  - intros p e (e' & He' & Hi)%A4. destruct (B4 _ _ He') as (e'' & He'' & Hi'). exists e''. by rewrite Hi', Hi.
  - exists (n ++ m). rewrite B5, A5, app_assoc. split; [done|]. apply Forall_app. split; [done|].
    eapply Forall_impl; [exact B6|]. intros o. by apply out_ok_same.
Qed.

(** ** Triples *)

(** A strategy of the type is in the Strategy Choice table. *)
Definition uses (T : StrategyType) (s : Fw) : Prop :=
  exists n e, sc_map (ts_nt (fw_tables s)) !! n = Some e /\ (sc_strategy e).1 = T.
(** The strategies that keep measurements. *)
Definition measuring (T : StrategyType) : bool :=
  match T with AccessStrategy | AsfStrategy | NccStrategy => true | _ => false end.

(** The failures that depend on the state: the pointer to the wireless multicast face is unset
    or dangles, a forwarding hint leads to a FIB entry other than the root's without nexthops,
    or an assertion of a strategy in use that keeps measurements fails. *)
Definition may_fail (s : Fw) (e : fw_error) : Prop :=
  match e with
  | UninitialisedFace => ft_wireless (fw_faces s) = None
  | DanglingFace w => ft_wireless (fw_faces s) = Some w /\ ft_heap (fw_faces s) !! w = None
  | AssertionFailed T => measuring T = true /\ uses T s
  | EmptyFibEntry n => n <> [] /\ exists f, fib_map (ts_nt (fw_tables s)) !! n = Some f /\ fe_nextHops f = []
  | _ => False
  end.

Definition keeps {A} (P : Fw -> Prop) (m : M A) (Q : A -> Fw -> Prop) : Prop :=
  forall s, fw_ok s -> P s ->
  match m s with
  | Done a s' => fw_ok s' /\ evolves s s' /\ Q a s'
  | Wrong e => may_fail s e
  end.

(** Assertions that stay true as the state evolves. *)
Class Stable (P : Fw -> Prop) : Prop := stable : forall s s', fw_ok s -> fw_ok s' -> evolves s s' -> P s -> P s'.

Lemma object_strategy_sc o s :
  object_strategy o s = if (o.2 =? generation o.1 s)%N then sc_strategy <$> sc_map (ts_nt (fw_tables s)) !! o.1 else None.
Proof. unfold object_strategy, strategy_at. by rewrite <- nt_get_sc. Qed.

Lemma may_fail_evolves s s' e : evolves s s' -> may_fail s' e -> may_fail s e.
Proof.
  intros [_ (H1 & _ & _ & H4) _ HC HF _ _ _ _]. destruct e; simpl; try done; unfold uses; rewrite ?H4, ?HC, ?HF; try done.
  intros [-> H]. split; [done|]. specialize (H1 p). rewrite H in H1. by destruct (ft_heap (fw_faces s) !! p).
Qed.

Lemma keeps_weaken {A} (P P' : Fw -> Prop) (m : M A) (Q Q' : A -> Fw -> Prop) :
  keeps P' m Q' -> (forall s, P s -> P' s) -> (forall a s, Q' a s -> Q a s) -> keeps P m Q.
Proof.
  intros H HP HQ s Hs Ps. specialize (H s Hs (HP s Ps)). destruct (m s); [|done].
  destruct H as (? & ? & ?). split_and!; auto.
Qed.

Lemma keeps_ret {A} (P : Fw -> Prop) (a : A) Q : (forall s, P s -> Q a s) -> keeps P (mret a) Q.
Proof. intros H s Hs Ps. split_and!; [done|reflexivity|by apply H]. Qed.

Lemma keeps_done (P : Fw -> Prop) : keeps P (mret tt) (fun _ _ => True).
Proof. by apply keeps_ret. Qed.

Lemma keeps_bind {A B} (P : Fw -> Prop) `{!Stable P} (m : M A) (f : A -> M B) Q R :
  keeps P m Q -> (forall a, keeps (fun s => P s /\ Q a s) (f a) R) -> keeps P (m ≫= f) R.
Proof.
  intros Hm Hf s Hs Ps. specialize (Hm s Hs Ps). unfold mbind, M_bind. destruct (m s) as [a s1|e]; [|done].
  destruct Hm as (Hs1 & He1 & Qa). specialize (Hf a s1 Hs1 (conj (stable s s1 Hs Hs1 He1 Ps) Qa)).
  destruct (f a s1) as [b s2|e]; [|by eapply may_fail_evolves]. destruct Hf as (? & ? & ?). split_and!; [done|by etrans|done].
Qed.

(** The same, when nothing is said of the result of the first part. *)
Lemma keeps_then {A B} (P : Fw -> Prop) `{!Stable P} (m : M A) (f : A -> M B) R :
  keeps P m (fun _ _ => True) -> (forall a, keeps P (f a) R) -> keeps P (m ≫= f) R.
Proof. intros Hm Hf. eapply keeps_bind; [done|exact Hm|]. intros a. eapply keeps_weaken; [apply Hf|tauto|done]. Qed.

Lemma keeps_seq {A B} (P : Fw -> Prop) `{!Stable P} (m : M A) (k : M B) R :
  keeps P m (fun _ _ => True) -> keeps P k R -> keeps P (m;; k) R.
Proof. intros Hm Hk. by apply (keeps_then P m (fun _ => k)). Qed.

Lemma keeps_gets {A} (P : Fw -> Prop) (f : Fw -> A) : keeps P (gets f) (fun a s => P s /\ f s = a).
Proof. intros s Hs Ps. split_and!; [done|reflexivity|done..]. Qed.

Lemma keeps_get {A} (P : Fw -> Prop) (f : Fw -> A) : keeps P (gets f) (fun _ _ => True).
Proof. intros s Hs Ps. by split_and!. Qed.

Lemma keeps_pure {A} (P : Fw -> Prop) (X : Prop) (m : M A) Q :
  (X -> keeps P m Q) -> keeps (fun s => P s /\ X) m Q.
Proof. intros H s Hs [Ps Xh]. by apply H. Qed.

Lemma keeps_forM {A} (P : Fw -> Prop) `{!Stable P} (l : list A) (f : A -> M unit) :
  (forall x, x ∈ l -> keeps P (f x) (fun _ _ => True)) -> keeps P (forM l f) (fun _ _ => True).
Proof.
  induction l as [|x l IH]; intros H; simpl; [apply keeps_done|].
  apply keeps_seq; [done|apply H; by left|]. apply IH. intros y Hy. apply H. by right.
Qed.

(** The triple with more failures. *)
Definition keepsX (X : fw_error -> Prop) {A} (P : Fw -> Prop) (m : M A) (Q : A -> Fw -> Prop) : Prop :=
  forall s, fw_ok s -> P s ->
  match m s with
  | Done a s' => fw_ok s' /\ evolves s s' /\ Q a s'
  | Wrong e => may_fail s e \/ X e
  end.

Section more_failures.
Context (X : fw_error -> Prop).

Lemma keepsX_keeps {A} (P : Fw -> Prop) (m : M A) Q : keeps P m Q -> keepsX X P m Q.
Proof using Type. intros H s Hs HP. specialize (H s Hs HP). destruct (m s); [done|by left]. Qed.
Lemma keepsX_fail {A} (P : Fw -> Prop) e Q : (forall s, fw_ok s -> P s -> X e) -> keepsX X P (@fail A e) Q.
Proof using Type. intros H s Hs HP. right. by eapply H. Qed.
Lemma keepsX_weaken {A} (P P' : Fw -> Prop) (m : M A) (Q Q' : A -> Fw -> Prop) :
  keepsX X P' m Q' -> (forall s, P s -> P' s) -> (forall a s, Q' a s -> Q a s) -> keepsX X P m Q.
Proof using Type.
  intros H HP HQ s Hs Ps. specialize (H s Hs (HP s Ps)). destruct (m s); [|done].
  destruct H as (? & ? & ?). split_and!; auto.
Qed.
(** The first part may end the reason for [P], as long as [P1] stays. *)
Lemma keepsX_step {A B} (P P1 : Fw -> Prop) `{!Stable P1} (m : M A) (f : A -> M B) Q R :
  (forall s, P s -> P1 s) -> keepsX X P m Q -> (forall a, keepsX X (fun s => P1 s /\ Q a s) (f a) R) -> keepsX X P (m ≫= f) R.
Proof using Type.
  intros H1 Hm Hf s Hs Ps. specialize (Hm s Hs Ps). unfold mbind, M_bind. destruct (m s) as [a s1|e]; [|done].
  destruct Hm as (Hs1 & He1 & Qa). specialize (Hf a s1 Hs1 (conj (stable s s1 Hs Hs1 He1 (H1 s Ps)) Qa)).
  destruct (f a s1) as [b s2|e]; [destruct Hf as (? & ? & ?); split_and!; [done|by etrans|done]|].
  destruct Hf as [Hf|Hf]; [left; by eapply may_fail_evolves|by right].
Qed.
Lemma keepsX_bind {A B} (P : Fw -> Prop) `{!Stable P} (m : M A) (f : A -> M B) Q R :
  keepsX X P m Q -> (forall a, keepsX X (fun s => P s /\ Q a s) (f a) R) -> keepsX X P (m ≫= f) R.
Proof using Type. by apply keepsX_step. Qed.
Lemma keepsX_then {A B} (P : Fw -> Prop) `{!Stable P} (m : M A) (f : A -> M B) R :
  keepsX X P m (fun _ _ => True) -> (forall a, keepsX X P (f a) R) -> keepsX X P (m ≫= f) R.
Proof using Type. intros Hm Hf. eapply keepsX_bind; [done|exact Hm|]. intros a. eapply keepsX_weaken; [apply Hf|tauto|done]. Qed.
Lemma keepsX_seq {A B} (P : Fw -> Prop) `{!Stable P} (m : M A) (k : M B) R :
  keepsX X P m (fun _ _ => True) -> keepsX X P k R -> keepsX X P (m;; k) R.
Proof using Type. intros Hm Hk. by apply (keepsX_then P m (fun _ => k)). Qed.
Lemma keepsX_if {A} (P : Fw -> Prop) (b : bool) (m k : M A) Q :
  (b = true -> keepsX X P m Q) -> (b = false -> keepsX X P k Q) -> keepsX X P (if b then m else k) Q.
Proof using Type. destruct b; auto. Qed.
Lemma keepsX_forM {A} (P : Fw -> Prop) `{!Stable P} (l : list A) (f : A -> M unit) :
  (forall x, x ∈ l -> keepsX X P (f x) (fun _ _ => True)) -> keepsX X P (forM l f) (fun _ _ => True).
Proof using Type.
  induction l as [|x l IH]; intros H; simpl; [by apply keepsX_keeps, keeps_done|].
  apply keepsX_seq; [done|apply H; by left|]. apply IH. intros y Hy. apply H. by right.
Qed.
End more_failures.

(** Case analysis on the condition of an [if]. *)
Lemma keeps_if {A} (P : Fw -> Prop) (b : bool) (m k : M A) Q :
  (b = true -> keeps P m Q) -> (b = false -> keeps P k Q) -> keeps P (if b then m else k) Q.
Proof. destruct b; auto. Qed.

(** ** Stable assertions *)

Definition live (p : FacePtr) (s : Fw) : Prop := is_Some (ft_heap (fw_faces s) !! p).
Definition intab (p : FacePtr) (s : Fw) : Prop := in_table (fw_faces s) p.
Definition is_face (p : FacePtr) (f : Face) (s : Fw) : Prop := face_is p f (fw_faces s).
(** The entry at [p] is in the PIT, and it is for the Interest [i]. *)
Definition pending (p : PitPtr) (i : Interest) (s : Fw) : Prop :=
  exists e, attached (fw_tables s) p e /\ pe_interest e = i.
Definition entry_faces (e : PitEntry) (s : Fw) : Prop := records_in_table (fw_faces s) e.
Definition hops_in_table (l : list NextHop) (s : Fw) : Prop := forall nh, nh ∈ l -> intab (nh_face nh) s.

#[export] Instance stable_and P Q `{!Stable P, !Stable Q} : Stable (fun s => P s /\ Q s).
Proof. intros s s' H1 H2 He [HP HQ]. split; [exact (stable s s' H1 H2 He HP)|exact (stable s s' H1 H2 He HQ)]. Qed.
#[export] Instance stable_const X : Stable (fun _ => X).
Proof. by intros s s'. Qed.
#[export] Instance stable_forall {A} (P : A -> Fw -> Prop) `{!forall a, Stable (P a)} : Stable (fun s => forall a, P a s).
Proof. intros s s' H1 H2 He HP a. exact (stable s s' H1 H2 He (HP a)). Qed.
#[export] Instance stable_impl X P `{!Stable P} : Stable (fun s => X -> P s).
Proof. intros s s' H1 H2 He HP x. exact (stable s s' H1 H2 He (HP x)). Qed.
#[export] Instance stable_face p f : Stable (is_face p f).
Proof. intros s s' _ _ He. apply (face_is_same _ _ _ _ (ev_faces _ _ He)). Qed.
#[export] Instance stable_intab p : Stable (intab p).
Proof. intros s s' _ _ He. apply (in_table_same _ _ _ (ev_faces _ _ He)). Qed.
#[export] Instance stable_live p : Stable (live p).
Proof.
  intros s s' _ _ He [f Hf]. destruct (ev_faces _ _ He) as [H _]. specialize (H p). rewrite Hf in H. unfold live.
  destruct (ft_heap (fw_faces s') !! p); [by eexists|done].
Qed.
#[export] Instance stable_uses T : Stable (uses T).
Proof. intros s s' _ _ He. unfold uses. by rewrite (ev_choice _ _ He). Qed.
(** The Measurements entry is there. *)
Definition measured (n : Name) (s : Fw) : Prop := is_Some (meas_map (ts_nt (fw_tables s)) !! n).
#[export] Instance stable_measured n : Stable (measured n).
Proof. intros s s' _ _ He. apply (ev_meas _ _ He). Qed.
#[export] Instance stable_pending p i : Stable (pending p i).
Proof. intros s s' _ _ He (e & Ha & <-). destruct (ev_attached _ _ He p e Ha) as (e' & ? & ?). by exists e'. Qed.
#[export] Instance stable_entry_faces e : Stable (entry_faces e).
Proof.
  intros s s' _ _ He [H1 H2]. split; intros r Hr; [apply H1 in Hr|apply H2 in Hr];
    revert Hr; apply (in_table_same _ _ _ (ev_faces _ _ He)).
Qed.
#[export] Instance stable_hops l : Stable (hops_in_table l).
Proof. intros s s' H1 H2 He H nh Hnh. exact (stable (P:=intab (nh_face nh)) s s' H1 H2 He (H nh Hnh)). Qed.

Lemma intab_live p s : intab p s -> live p s.
Proof. intros (f & Hf & _). by exists f. Qed.
Lemma face_live p f s : is_face p f s -> live p s.
Proof. intros H. apply fmap_Some in H as (g & Hg & _). by exists g. Qed.

Lemma entry_in e r s : entry_faces e s -> r ∈ pe_inRecords e -> intab (ir_face r) s.
Proof. intros [H _] Hr. by apply H. Qed.
Lemma entry_out e r s : entry_faces e s -> r ∈ pe_outRecords e -> intab (or_face r) s.
Proof. intros [_ H] Hr. by apply H. Qed.

(** ** Primitive steps *)

Lemma the_face_done p f s : ft_heap (fw_faces s) !! p = Some f -> the_face p s = Done f s.
Proof. intros H. unfold the_face, gets, mbind, M_bind. by rewrite H. Qed.
Lemma the_pit_done p e s : ts_pit (fw_tables s) !! p = Some e -> the_pit p s = Done e s.
Proof. intros H. unfold the_pit, gets, mbind, M_bind. by rewrite H. Qed.

Lemma bind_done {A B} (m : M A) (f : A -> M B) a s s' : m s = Done a s' -> (m ≫= f) s = f a s'.
Proof. intros H. unfold mbind, M_bind. by rewrite H. Qed.

Lemma bind_wrong {A B} (m : M A) (f : A -> M B) s e : m s = Wrong e -> (m ≫= f) s = Wrong e.
Proof. intros H. unfold mbind, M_bind. by rewrite H. Qed.

Lemma fw_ok_same s s' :
  fw_tables s' = fw_tables s -> fw_cs s' = fw_cs s -> fw_faces s' = fw_faces s -> fw_regions s' = fw_regions s ->
  dnl_ok (fw_dnl s') -> fw_ok s -> fw_ok s'.
Proof. intros E1 E2 E3 E4 Hd []. split; rewrite ?E1, ?E2, ?E3, ?E4; auto. Qed.

Lemma evolves_same s s' new :
  fw_now s' = fw_now s -> fw_tables s' = fw_tables s -> fw_faces s' = fw_faces s -> fw_regions s' = fw_regions s ->
  ss_replaced (fw_strategy s') = ss_replaced (fw_strategy s) ->
  fw_out s' = fw_out s ++ new -> Forall (out_ok (fw_faces s)) new -> evolves s s'.
Proof. intros E1 E2 E3 E4 E6 E5 Hn. split; rewrite ?E1, ?E2, ?E3, ?E4, ?E5; eauto. reflexivity. Qed.

Lemma evolves_quiet s s' :
  fw_now s' = fw_now s -> fw_tables s' = fw_tables s -> fw_faces s' = fw_faces s -> fw_regions s' = fw_regions s ->
  ss_replaced (fw_strategy s') = ss_replaced (fw_strategy s) -> fw_out s' = fw_out s -> evolves s s'.
Proof. intros. apply evolves_same with []; rewrite ?app_nil_r; auto. Qed.

Lemma keeps_the_face (P : Fw -> Prop) p :
  (forall s, P s -> live p s) -> keeps P (the_face p) (fun f s => is_face p f s).
Proof.
  intros H s Hs Ps. destruct (H s Ps) as [f Hf]. unfold the_face, gets, mbind, M_bind. rewrite Hf.
  split_and!; [done|reflexivity|]. unfold is_face, face_is. by rewrite Hf.
Qed.

Lemma keeps_the_pit (P : Fw -> Prop) p i :
  (forall s, P s -> pending p i s) ->
  keeps P (the_pit p) (fun e s => (pe_interest e = i /\ wf_entry e) /\ entry_faces e s).
Proof.
  intros H s Hs Ps. destruct (H s Ps) as (e & Ha & Hi). pose proof Ha as [He Hn]. unfold the_pit, gets, mbind, M_bind.
  rewrite He. split; [done|]. split; [reflexivity|]. split; [split; [done|]|].
  - by eapply ts_pit_wf; [apply Hs|].
  - by apply (fo_records _ Hs p).
Qed.

(** A write to a PIT entry that keeps its place. *)
Record entry_step (s : Fw) (p : PitPtr) (g : PitEntry -> PitEntry) : Prop := {
  es_place : keeps_place g;
  es_wf : forall e, ts_pit (fw_tables s) !! p = Some e -> wf_entry e -> wf_entry (g e);
  es_faces : forall e, attached (fw_tables s) p e -> records_in_table (fw_faces s) e -> records_in_table (fw_faces s) (g e);
}.

Lemma pit_modify_nt g p t : ts_nt (pit_modify g p t) = ts_nt t.
Proof. done. Qed.

Lemma attached_modify g p t q e :
  keeps_place g -> attached (pit_modify g p t) q e <->
  exists e', attached t q e' /\ e = (if decide (p = q) then g e' else e').
Proof.
  intros Hg. unfold attached. simpl. rewrite lookup_alter. destruct (decide (p = q)) as [<-|].
  - split.
    + intros [(e' & He & ->)%fmap_Some Hn]. exists e'. split; [|done]. split; [done|]. by rewrite (proj1 (Hg e')) in Hn.
    + intros (e' & [He Hn] & ->). split; [by rewrite He|]. by rewrite (proj1 (Hg e')).
  - split; [intros []; by exists e|]. by intros (e' & [] & ->).
Qed.

Lemma fw_ok_update s p g : fw_ok s -> entry_step s p g -> fw_ok (with_tables (pit_modify g p (fw_tables s)) s).
Proof.
  intros Hs [Hp Hw Hf]. destruct Hs as [H1 H2 H3 H4 H5 H6 H7 H8 H9 H10 H11 H12]. split; try done.
  - by apply ts_ok_pit_modify.
  - intros q e He. simpl in He. apply attached_modify in He as (e' & He & ->); [|done]. simpl.
    case_decide; [subst; exact (Hf e' He (H11 _ e' He))|by apply (H11 q)].
  - intros q e He. simpl in He. apply attached_modify in He as (e' & He & ->); [|done]. simpl.
    case_decide; [rewrite (proj2 (Hp e'))|]; by apply (H12 q).
Qed.

Lemma evolves_update s p g : keeps_place g -> evolves s (with_tables (pit_modify g p (fw_tables s)) s).
Proof.
  intros Hp. split; try done.
  - intros q e He. destruct (decide (p = q)) as [->|Hne].
    + exists (g e). split; [|apply Hp]. apply attached_modify; [done|]. exists e. by rewrite decide_True.
    + exists e. split; [|done]. apply attached_modify; [done|]. exists e. by rewrite decide_False.
  - exists []. by rewrite app_nil_r.
Qed.

Lemma keeps_update_pit (P : Fw -> Prop) p g :
  (forall s, fw_ok s -> P s -> entry_step s p g) -> keeps P (update_pit p g) (fun _ _ => True).
Proof.
  intros H s Hs Ps. specialize (H s Hs Ps). split_and!; [by apply fw_ok_update|apply evolves_update, H|done].
Qed.

Lemma keeps_modify (P : Fw -> Prop) f :
  (forall s, fw_ok s -> P s -> fw_ok (f s) /\ evolves s (f s)) -> keeps P (modify f) (fun _ _ => True).
Proof. intros H s Hs Ps. by destruct (H s Hs Ps). Qed.

Lemma keeps_emit (P : Fw -> Prop) o :
  (forall s, fw_ok s -> P s -> out_ok (fw_faces s) o) -> keeps P (emit o) (fun _ _ => True).
Proof.
  intros H. apply keeps_modify. intros s Hs Ps. split; [by apply (fw_ok_same s); [..|apply Hs|]|].
  apply evolves_same with [o]; auto.
Qed.

Lemma keeps_count (P : Fw -> Prop) f : keeps P (count f) (fun _ _ => True).
Proof.
  apply keeps_modify. intros s Hs _. split; [by apply (fw_ok_same s); [..|apply Hs|]|]. by apply evolves_quiet.
Qed.

Lemma dnl_add_ok name nonce d : dnl_ok d -> dnl_ok (Dnl_add name nonce d).
Proof. intros H. unfold Dnl_add. by apply dnl_ok_evict. Qed.

Lemma keeps_dnl_add (P : Fw -> Prop) name nonce : keeps P (dnl_add name nonce) (fun _ _ => True).
Proof.
  apply keeps_modify. intros s Hs _.
  split; [apply (fw_ok_same s); [done..|apply dnl_add_ok, Hs|done]|]. by apply evolves_quiet.
Qed.

(** A write to a face's counters. *)
Lemma keeps_face_counter (P : Fw -> Prop) p g :
  (forall f, face_static (g f) = face_static f) -> keeps P (update_face_object p g) (fun _ _ => True).
Proof.
  intros Hg. apply keeps_modify. intros s Hs _.
  set (t' := mkFaceTable (alter g p (ft_heap (fw_faces s))) (ft_lastFaceId (fw_faces s)) (ft_faces (fw_faces s)) (ft_wireless (fw_faces s))).
  assert (same_faces (fw_faces s) t') as HE.
  { split_and!; [|done..]. intros q. simpl. rewrite lookup_alter. case_decide; [subst|done].
    destruct (ft_heap (fw_faces s) !! q); [|done]. simpl. by rewrite Hg. }
  assert (forall q f, ft_heap t' !! q = Some f -> exists f0, ft_heap (fw_faces s) !! q = Some f0 /\ face_static f = face_static f0) as Hb.
  { intros q f Hf. pose proof (proj1 HE q) as E. rewrite Hf in E. apply fmap_Some in E as (f0 & ? & ?). by exists f0. }
  assert (forall q f0, ft_heap (fw_faces s) !! q = Some f0 -> exists f, ft_heap t' !! q = Some f /\ f_id f = f_id f0) as Hc.
  { intros q f0 Hf. pose proof (proj1 HE q) as E. rewrite Hf in E. symmetry in E. apply fmap_Some in E as (f & ? & E).
    exists f. split; [done|]. by injection E as <- _ _ _ _. }
  destruct Hs as [H1 H2 H3 H4 H5 H6 H7 H8 H9 H10 H11 H12]. split; [split; simpl; try done|].
  - destruct H8 as [A1 A2 A3 A4 A5]. split; simpl; try done.
    + intros id q Hq. destruct (A1 _ _ Hq) as (f0 & Hf0 & <-). by apply Hc.
    + intros q f Hf Hid. destruct (Hb _ _ Hf) as (f0 & Hf0 & E). injection E as E _ _ _ _. rewrite E in *. by apply A2.
  - intros w f Hw Hf. destruct (Hb _ _ Hf) as (f0 & Hf0 & E). unfold is_wireless_multicast.
    injection E as _ _ _ -> ->. by apply (H9 w).
  - intros n f nh Hf Hnh. apply (in_table_same _ _ _ HE). by eapply H10.
  - intros q e He. destruct (H11 q e He) as [B1 B2]. split; intros r Hr; apply (in_table_same _ _ _ HE); auto.
  - split; simpl; try done; [eauto|exists []; by rewrite app_nil_r].
Qed.

(** ** Automation

    [keep_facts] takes an assertion apart; [keep_side] proves what a step asks of it. *)

#[export] Hint Resolve intab_live face_live entry_in entry_out : ndn.
#[export] Hint Resolve keeps_done keeps_count keeps_dnl_add : ndn.

Ltac keep_facts :=
  intros; repeat match goal with H : _ /\ _ |- _ => destruct H end.
Ltac keep_side := keep_facts; cbn beta in *; keep_facts; eauto with ndn.
(** One step of a handler: bind the result of a dereference. *)
Ltac keep_bind lem := eapply keeps_bind; [apply _|apply lem; keep_side|cbn beta].
Ltac keep_seq lem := apply keeps_seq; [apply _|first [apply lem; keep_side|eapply lem; keep_side]|].
Ltac keep_if E := apply keeps_if; intros E.

(** ** Entry steps of the pipelines *)

Section entry_steps.
Context (s : Fw) (p : PitPtr) (Hs : fw_ok s).

Lemma erase_face_sub {R} (key : R -> N) q l r : r ∈ erase_face key q l -> r ∈ l.
Proof using Type. intros Hr. eapply elem_of_sublist; [exact Hr|apply erase_face_sublist]. Qed.

Lemma step_timer t : entry_step s p (set_expiryTimer t).
Proof using Type. split; [done|intros e _ []; by split|done]. Qed.
Lemma step_satisfied b fp : entry_step s p (set_satisfied b fp).
Proof using Type. split; [done|intros e _ []; by split|done]. Qed.
Lemma step_deleteIn face : entry_step s p (deleteInRecord face).
Proof using Type.
  split; [done|intros e _; apply wf_deleteInRecord|]. intros e _ [H1 H2]. split; [|done].
  intros r Hr. apply H1. eapply erase_face_sub, Hr.
Qed.
Lemma step_deleteOut face : entry_step s p (deleteOutRecord face).
Proof using Type.
  split; [done|intros e _; apply wf_deleteOutRecord|]. intros e _ [H1 H2]. split; [done|].
  intros r Hr. apply H2. eapply erase_face_sub, Hr.
Qed.
Lemma step_clearIn : entry_step s p clearInRecords.
Proof using Type. split; [done|intros e _; apply wf_clearInRecords|]. intros e _ [_ H2]. split; [by intros r ?%not_elem_of_nil|done]. Qed.

Lemma update_face_elem {R} (key : R -> N) (f : R -> R) q l r :
  (forall x, key (f x) = key x) -> r ∈ update_face key f q l -> exists x, x ∈ l /\ key r = key x.
Proof using Type.
  intros Hf Hr. assert (key r ∈ key <$> update_face key f q l) as H by by apply list_elem_of_fmap_2.
  rewrite (update_face_keys key f Hf) in H. apply list_elem_of_fmap in H as (x & ? & ?). eauto.
Qed.

Lemma step_updateOut f face :
  (forall r, or_rec (f r) = or_rec r \/ or_face (f r) = or_face r) -> entry_step s p (updateOutRecord f face).
Proof using Type.
  intros Hf. assert (forall r, or_face (f r) = or_face r) as Hk.
  { intros r. destruct (Hf r) as [E|E]; [unfold or_face; by rewrite E|done]. }
  split; [done|intros e _; by apply wf_updateOutRecord|]. intros e _ [H1 H2]. split; [done|].
  intros r Hr. simpl in Hr. apply update_face_elem in Hr as (x & Hx & ->); auto.
Qed.

Lemma upsert_in_table {R} (key : R -> N) (new : R) (f : R -> R) q l :
  key new = q -> (forall x, key (f x) = key x) -> in_table (fw_faces s) q ->
  (forall r, r ∈ l -> in_table (fw_faces s) (key r)) -> forall r, r ∈ upsert key new f q l -> in_table (fw_faces s) (key r).
Proof using Type.
  intros Hn Hf Hq Hl r Hr. assert (key r ∈ key <$> upsert key new f q l) as H by by apply list_elem_of_fmap_2.
  apply upsert_keys in H as [->|H]; [done| |done|done]. apply list_elem_of_fmap in H as (x & -> & ?). auto.
Qed.

Lemma step_insertIn now face i :
  intab face s -> (forall e, attached (fw_tables s) p e -> same_request i (pe_interest e)) ->
  (exists e, attached (fw_tables s) p e) -> entry_step s p (insertOrUpdateInRecord now face i).
Proof using Type.
  intros Hf Hi [e0 [He0 Hn0]]. split; [done| |].
  - intros e He Hw. apply wf_insertOrUpdateInRecord; [|done]. apply Hi. rewrite He in He0. injection He0 as ->. by split.
  - intros e _ [H1 H2]. split; [|done]. rewrite insertOrUpdateInRecord_upsert. by apply upsert_in_table.
Qed.
Lemma step_insertOut now face i : intab face s -> entry_step s p (insertOrUpdateOutRecord now face i).
Proof using Type.
  intros Hf. split; [done|intros e _; apply wf_insertOrUpdateOutRecord|]. intros e _ [H1 H2]. split; [done|].
  rewrite insertOrUpdateOutRecord_upsert. by apply upsert_in_table.
Qed.
End entry_steps.

#[export] Hint Resolve step_timer step_satisfied step_deleteIn step_deleteOut step_clearIn step_insertOut : ndn.

(** ** The forwarder's actions *)

Lemma keeps_setExpiryTimer (P : Fw -> Prop) `{!Stable P} p d : keeps P (Fw_setExpiryTimer p d) (fun _ _ => True).
Proof.
  apply keeps_then; [apply _|apply keeps_get|]. intros now. apply keeps_update_pit. auto with ndn.
Qed.

(** Nonces go to the Dead Nonce List; the assertion fails for an entry that was satisfied by
    Data with a negative freshness period. *)
Definition negative_freshness (b : bool) (x : fw_error) : Prop := x = NegativeFreshness /\ b = true.
Definition unfresh (e : PitEntry) : bool := pe_isSatisfied e && (pe_dataFreshnessPeriod e <? 0)%Z.

Lemma keeps_insertDnl (P : Fw -> Prop) p e up :
  (forall s, P s -> ts_pit (fw_tables s) !! p = Some e) ->
  keepsX (negative_freshness (unfresh e)) P (insertDeadNonceList p up) (fun _ _ => True).
Proof.
  intros Hp s Hs HP. unfold insertDeadNonceList. rewrite (bind_done _ _ _ _ _ (the_pit_done p e s (Hp s HP))). unfold unfresh.
  destruct (pe_isSatisfied e && _) eqn:E; [by right|].
  enough (keeps (fun _ => True) (need ← gets (needDnl e); if negb need then mret tt
    else match up with
         | None => forM (pe_outRecords e) (fun r => dnl_add (pe_name e) (fr_lastNonce (or_rec r)))
         | Some face => match getOutRecord e face with
                        | Some r => dnl_add (pe_name e) (fr_lastNonce (or_rec r))
                        | None => mret tt
                        end
         end) (fun _ _ => True)) as H by (by apply (keepsX_keeps _ _ _ _ H)).
  apply keeps_then; [apply _|apply keeps_get|]. intros need.
  destruct (negb need); [apply keeps_done|]. destruct up as [q|].
  - destruct (getOutRecord e q); auto with ndn.
  - apply keeps_forM; [apply _|]. auto with ndn.
Qed.

(** After an entry has been satisfied by Data with the freshness period [z]. *)
Lemma keeps_satisfied_dnl (P : Fw -> Prop) `{!Stable P} {A} p i z up (k : M A) Q X :
  (forall s, P s -> pending p i s) -> (z < 0 -> X NegativeFreshness)%Z -> keepsX X P k Q ->
  keepsX X P (update_pit p (set_satisfied true z);; insertDeadNonceList p up;; k) Q.
Proof.
  intros Hp Hz Hk s Hs HP. destruct (Hp s HP) as (e & [He _] & _).
  pose proof (keeps_update_pit P p (set_satisfied true z) (fun s Hs _ => step_satisfied s p true z) s Hs HP) as HU.
  set (s1 := with_tables (pit_modify (set_satisfied true z) p (fw_tables s)) s).
  rewrite (bind_done (update_pit p (set_satisfied true z)) _ tt s s1) by done. destruct HU as (H1 & H2 & _).
  pose proof (keepsX_step X (fun s => P s /\ ts_pit (fw_tables s) !! p = Some (set_satisfied true z e)) P
    (insertDeadNonceList p up) (fun _ => k) (fun _ _ => True) Q (fun s H => proj1 H)) as HB.
  assert (keepsX X (fun s => P s /\ ts_pit (fw_tables s) !! p = Some (set_satisfied true z e)) (insertDeadNonceList p up) (fun _ _ => True)) as HD.
  { intros s' Hs' HP'. pose proof (keeps_insertDnl _ p (set_satisfied true z e) up (fun s H => proj2 H) s' Hs' HP') as H.
    destruct (insertDeadNonceList p up s'); [done|]. destruct H as [H|[-> H]]; [by left|right]. apply Hz.
    unfold unfresh in H. simpl in H. by apply Z.ltb_lt. }
  specialize (HB HD (fun _ => keepsX_weaken X _ P k Q Q Hk (fun s H => proj1 H) (fun _ _ H => H)) s1 H1).
  assert (P s1 /\ ts_pit (fw_tables s1) !! p = Some (set_satisfied true z e)) as HP1.
  { split; [exact (stable s s1 Hs H1 H2 HP)|]. unfold s1. simpl. by rewrite lookup_alter_eq, He. }
  specialize (HB HP1). destruct ((insertDeadNonceList p up;; k) s1) as [a s2|x]; [destruct HB as (? & ? & ?); split_and!; [done|by etrans|done]|].
  destruct HB as [HB|HB]; [left; by eapply may_fail_evolves|by right].
Qed.

(** The assertion of the insertion of records, for an Interest of the entry's request. *)
Lemma keeps_assert_canMatch (P : Fw -> Prop) p i j :
  (forall s, P s -> pending p j s) -> same_request i j -> keeps P (assert_canMatch p i) (fun _ _ => True).
Proof.
  intros Hp Hr s Hs HP. destruct (Hp s HP) as (e & [He _] & <-). unfold assert_canMatch.
  rewrite (bind_done _ _ _ _ _ (the_pit_done p e s He)). rewrite (proj2 (canMatch_spec e i 0 eq_refl) Hr). by apply (keeps_done P).
Qed.

(** The Interest may go out on the face. *)
Definition may_send (q : FacePtr) (i : Interest) (s : Fw) : Prop :=
  forall f, is_face q f s -> isPrefixOf LOCALHOST (i_name i) = true -> f_scope f = FACE_SCOPE_LOCAL \/ is_Some (i_nextHopFaceId i).

#[export] Instance stable_may_send q i : Stable (may_send q i).
Proof. intros s s' _ _ He H f Hf. apply H. by apply (face_is_same _ _ _ _ (ev_faces _ _ He)). Qed.

Lemma keeps_onOutgoingInterest (P : Fw -> Prop) `{!Stable P} p q i j :
  (forall s, P s -> pending p j s) -> same_request i j -> (forall s, P s -> intab q s) -> (forall s, P s -> may_send q i s) ->
  keeps P (onOutgoingInterest p q i) (fun _ _ => True).
Proof.
  intros Hp Hr Hq Hi. keep_bind keeps_the_face. intros f. apply keeps_if; intros Hc.
  - apply keeps_seq; [apply _|by apply keeps_face_counter|by apply keeps_ret].
  - apply keeps_seq; [apply _|apply keeps_assert_canMatch with j; [keep_side|done]|].
    apply keeps_then; [apply _|apply keeps_get|]. intros now.
    apply keeps_seq; [apply _|apply keeps_update_pit; intros s Hs HP; apply step_insertOut; keep_side|].
    apply keeps_seq; [apply _| |apply keeps_seq; [apply _|apply keeps_count|by apply keeps_ret]].
    apply keeps_emit. intros s Hs HP. exists f. apply andb_false_iff in Hc. rewrite !bool_decide_eq_false in Hc.
    keep_facts. split_and!; [done|intros; naive_solver|]. apply (Hi s); done.
Qed.

Lemma keeps_onOutgoingData (P : Fw -> Prop) `{!Stable P} q d :
  (forall s, P s -> live q s) -> keeps P (onOutgoingData d q) (fun _ _ => True).
Proof.
  intros Hq. keep_bind keeps_the_face. intros f. apply keeps_if; intros Hid; [by apply keeps_ret|].
  apply keeps_if; intros Hc; [by apply keeps_ret|].
  apply keeps_seq; [apply _| |apply keeps_seq; [apply _|apply keeps_count|by apply keeps_ret]].
  apply keeps_emit. intros s Hs HP. exists f. keep_facts. apply N.eqb_neq in Hid. split_and!; [done|done|].
  intros Hl. rewrite Hl, andb_true_r in Hc. by apply bool_decide_eq_false in Hc.
Qed.

Lemma getInRecord_elem e q r : getInRecord e q = Some r -> r ∈ pe_inRecords e /\ ir_face r = q.
Proof. intros H. split; [by eapply find_face_elem|by eapply find_face_key]. Qed.
Lemma getOutRecord_elem e q r : getOutRecord e q = Some r -> r ∈ pe_outRecords e /\ or_face r = q.
Proof. intros H. split; [by eapply find_face_elem|by eapply find_face_key]. Qed.

Lemma in_record_interest e q r : wf_entry e -> getInRecord e q = Some r -> exists j, ir_interest r = Some j.
Proof.
  intros [_ _ H] [Hr _]%getInRecord_elem. eapply Forall_forall in H; [|done]. destruct H as (j & ? & _). eauto.
Qed.

Lemma keeps_onOutgoingNack (P : Fw -> Prop) `{!Stable P} p q r i :
  (forall s, P s -> pending p i s) -> (forall s, P s -> live q s) ->
  keeps P (onOutgoingNack p q r) (fun _ _ => True).
Proof.
  intros Hp Hq. keep_bind keeps_the_face. intros f. apply keeps_if; intros Hid; [by apply keeps_ret|].
  keep_bind keeps_the_pit. intros e. destruct (getInRecord e q) as [x|] eqn:E; [|by apply keeps_ret].
  apply keeps_if; intros Hl; [by apply keeps_ret|].
  destruct (ir_interest x) as [j|] eqn:Ej.
  - apply keeps_seq; [apply _|apply keeps_update_pit; auto with ndn|].
    apply keeps_seq; [apply _| |apply keeps_seq; [apply _|apply keeps_count|by apply keeps_ret]].
    apply keeps_emit. intros s Hs HP. keep_facts. exists f. split; [done|].
    apply negb_false_iff, bool_decide_eq_true in Hl. done.
  - intros s Hs HP. keep_facts. destruct (in_record_interest e q x) as (j & ?); [done..|congruence].
Qed.
