(* ===== verification/StrategyInv.v ===== *)
(** * The contract of a strategy, and that the program's strategies meet it

    [StrategyLaws] is what the pipelines need of a strategy: each trigger, run for a pending
    PIT entry and a face of the table, keeps the forwarder's invariant, sends only what
    [out_ok] allows, and fails only as [may_fail] says. The actions of the base class are
    proved once; the strategies of Strategy are instances. *)

From S2P Require Import Prelude Name Packet FaceKeyed PitEntry FibEntry NodeStore NameTree NameTreeInv.
From S2P Require Import Tables Fib Pit StrategyRegistry StrategyChoice FaceTable RateControl Forwarder FwAlgorithm.
From S2P Require Import Strategy Actions.

Class StrategyLaws (T : StrategyType) (S : StrategyOps) : Prop := {
  sl_interest : forall ingress i p j, same_request i j ->
    keeps (fun s => (intab ingress s /\ pending p j s) /\ uses T s) (afterReceiveInterest S ingress i p) (fun _ _ => True);
  sl_satisfy : forall ingress d p j,
    keeps (fun s => (intab ingress s /\ pending p j s) /\ uses T s) (beforeSatisfyInterest S p ingress d) (fun _ _ => True);
  sl_hit : forall ingress d p j, matchesData j d = true ->
    keeps (fun s => (intab ingress s /\ pending p j s) /\ uses T s) (afterContentStoreHit S p ingress d) (fun _ _ => True);
  sl_data : forall ingress d p j, matchesData j d = true ->
    keeps (fun s => (intab ingress s /\ pending p j s) /\ uses T s) (afterReceiveData S p ingress d) (fun _ _ => True);
  sl_nack : forall ingress n p j,
    keeps (fun s => (intab ingress s /\ pending p j s) /\ uses T s) (afterReceiveNack S ingress n p) (fun _ _ => True);
  sl_dropped : forall egress i,
    keeps (fun s => intab egress s) (onDroppedInterest S egress i) (fun _ _ => True);
  sl_nexthop : forall nh p j,
    keeps (fun s => (intab (nh_face nh) s /\ pending p j s) /\ uses T s) (afterNewNextHop S nh p) (fun _ _ => True);
  sl_timer : forall o c,
    keeps (uses T) (onTimer S o c) (fun _ _ => True);
}.

Section actions.
Context {Henv : Env}.

Lemma keeps_sendInterest (P : Fw -> Prop) `{!Stable P} p q i j :
  (forall s, P s -> pending p j s) -> same_request i j -> (forall s, P s -> intab q s) -> (forall s, P s -> may_send q i s) ->
  keeps P (sendInterest p q i) (fun _ _ => True).
Proof.
  intros Hp Hr Hq Hi. unfold sendInterest. destruct (i_pitToken i); eapply keeps_onOutgoingInterest; eauto.
Qed.

Lemma keeps_sendData (P : Fw -> Prop) `{!Stable P} p d q j :
  (forall s, P s -> pending p j s) -> matchesData j d = true -> (forall s, P s -> live q s) ->
  keeps P (sendData p d q) (fun _ _ => True).
Proof.
  intros Hp Hm Hq. keep_bind keeps_the_pit. intros e. apply keeps_if; intros Hd.
  { intros s Hs HP. keep_facts. subst j. by rewrite Hm in Hd. }
  apply keeps_then; [apply _| |].
  - destruct (getInRecord e q) as [r|] eqn:E; [|by apply keeps_ret].
    destruct (ir_interest r) as [x|] eqn:Ex; [by apply keeps_ret|].
    intros s Hs HP. keep_facts. destruct (in_record_interest e q r) as (x & ?); [done..|congruence].
  - intros tok. apply keeps_seq; [apply _|apply keeps_update_pit; auto with ndn|].
    destruct tok; (apply keeps_onOutgoingData; [apply _|keep_side]).
Qed.

Lemma keeps_sendNack (P : Fw -> Prop) `{!Stable P} p q r i :
  (forall s, P s -> pending p i s) -> (forall s, P s -> live q s) -> keeps P (sendNack p q r) (fun _ _ => True).
Proof. apply keeps_onOutgoingNack; done. Qed.

Lemma keeps_reject (P : Fw -> Prop) `{!Stable P} p : keeps P (rejectPendingInterest p) (fun _ _ => True).
Proof. by apply keeps_setExpiryTimer. Qed.

Lemma keeps_void {A} (P : Fw -> Prop) `{!Stable P} (m : M A) :
  keeps P m (fun _ _ => True) -> keeps P (m;; mret tt) (fun _ _ => True).
Proof. intros Hm. apply keeps_seq; [done|done|apply keeps_done]. Qed.

(** Lists of faces of the table. *)
Definition all_in_table (l : list FacePtr) (s : Fw) : Prop := forall q, q ∈ l -> intab q s.
#[local] Instance stable_all l : Stable (all_in_table l).
Proof. intros s s' H1 H2 He Hl q Hq. exact (stable (P:=intab q) s s' H1 H2 He (Hl q Hq)). Qed.

Lemma keeps_pending_downstreams (P : Fw -> Prop) `{!Stable P} now inF l :
  (forall s, P s -> forall r, r ∈ l -> intab (ir_face r) s) ->
  keeps P (pending_downstreams now inF l) all_in_table.
Proof.
  induction l as [|r l IH]; intros Hl; simpl.
  - apply keeps_ret. intros s _ q Hq. by apply not_elem_of_nil in Hq.
  - assert (keeps P (pending_downstreams now inF l) all_in_table) as Hrec.
    { apply IH. intros s HP x Hx. apply Hl; [done|by right]. }
    apply keeps_if; intros _; [|done]. eapply keeps_bind; [apply _|apply keeps_the_face|].
    { intros s HP. apply intab_live, Hl; [done|by left]. }
    intros f. eapply keeps_bind; [apply _|eapply keeps_weaken; [exact Hrec|tauto|exact (fun _ _ H => H)]|].
    intros rest. apply keeps_if; intros _; apply keeps_ret; keep_facts; [done|].
    intros q [->|Hq]%elem_of_cons; [apply Hl; [done|by left]|auto].
Qed.

Lemma ptr_set_elem l q : q ∈ ptr_set l -> q ∈ l.
Proof. unfold ptr_set. rewrite merge_sort_Permutation. by rewrite elem_of_remove_dups. Qed.

Lemma keeps_scan (P : Fw -> Prop) `{!Stable P} l c r :
  (forall s, P s -> all_in_table l s) -> keeps P (scan_wireless l c r) (fun _ _ => True).
Proof.
  revert c r. induction l as [|q l IH]; intros c r Hl; simpl; [by apply keeps_ret|].
  assert (forall P' `{!Stable P'} c r, (forall s, P' s -> P s) -> keeps P' (scan_wireless l c r) (fun _ _ => True)) as Hrec.
  { intros P' HP' c' r' HPP. eapply keeps_weaken; [apply (IH c' r')|done|done]. intros s HP x Hx. apply Hl; [done|by right]. }
  eapply keeps_bind; [apply _|apply keeps_the_face|].
  { intros s HP. apply intab_live, Hl; [done|by left]. }
  intros f. apply keeps_if; intros _; [|apply Hrec; [apply _|tauto]].
  apply keeps_then; [apply _|apply keeps_get|]. intros now. apply keeps_if; intros _; [by apply keeps_ret|].
  apply Hrec; [apply _|tauto].
Qed.

Lemma quantize_in_rates r : quantize_rate r ∈ mcast_rates.
Proof. unfold quantize_rate, mcast_rates. ltb_cases; set_solver. Qed.

Lemma keeps_set_rate (P : Fw -> Prop) h r : keeps P (set_rate h r) (fun _ _ => True).
Proof. apply keeps_emit. intros s Hs HP. apply quantize_in_rates. Qed.

(** The wireless multicast face: reading its pointer, and the face behind it. *)
Lemma keeps_wireless {A} (P : Fw -> Prop) `{!Stable P} (k : FacePtr -> Face -> M A) Q :
  (forall w f, keeps (fun s => P s /\ is_face w f s) (k w f) Q) ->
  keeps P (w ← getWirelessMulticastEtherFace; f ← the_face w; k w f) Q.
Proof.
  intros Hk s Hs HP. unfold getWirelessMulticastEtherFace, the_face, gets, mbind, M_bind.
  destruct (ft_wireless (fw_faces s)) as [w|] eqn:Ew; [|done]. simpl.
  destruct (ft_heap (fw_faces s) !! w) as [f|] eqn:Ef; [|done]. simpl. apply Hk; [done|]. split; [done|].
  unfold is_face, face_is. by rewrite Ef.
Qed.

Lemma keeps_sendDataToAll (P : Fw -> Prop) `{!Stable P} p q d j :
  (forall s, P s -> pending p j s) -> matchesData j d = true -> (forall s, P s -> live q s) ->
  keeps P (sendDataToAll p q d) (fun _ _ => True).
Proof.
  intros Hp Hm Hq. keep_bind keeps_the_pit. intros e. apply keeps_then; [apply _|apply keeps_get|]. intros now.
  keep_bind keeps_the_face. intros f.
  eapply keeps_bind; [apply _|apply keeps_pending_downstreams; [apply _|]|].
  { keep_side. }
  intros l. eapply keeps_bind; [apply _|apply keeps_scan; [apply _|]|].
  { intros s [_ Hl] x Hx%ptr_set_elem. by apply Hl. }
  intros [c r]. apply keeps_if; intros _.
  - apply keeps_wireless; [apply _|]. intros w wf.
    apply keeps_seq; [apply _|apply keeps_set_rate|].
    apply keeps_seq; [apply _|eapply keeps_sendData; [apply _|keep_side|done|keep_side]|].
    apply keeps_forM; [apply _|]. intros x Hx%ptr_set_elem. eapply keeps_bind; [apply _|apply keeps_the_face|].
    { keep_facts. apply intab_live. auto. }
    intros xf. apply keeps_if; intros _; [|apply keeps_done]. apply keeps_void; [apply _|].
    eapply keeps_sendData; [apply _|keep_side|done|keep_side].
  - apply keeps_forM; [apply _|]. intros x Hx%ptr_set_elem. apply keeps_void; [apply _|].
    eapply keeps_sendData; [apply _|keep_side|done|]. keep_facts. apply intab_live. auto.
Qed.

Lemma keeps_sendNacks `{!EnvLaws} (P : Fw -> Prop) `{!Stable P} p r j :
  (forall s, P s -> pending p j s) -> keeps P (sendNacks p r) (fun _ _ => True).
Proof.
  intros Hp. keep_bind keeps_the_pit. intros e. apply keeps_forM; [apply _|]. intros q Hq.
  rewrite env_unordered_perm, elem_of_remove_dups in Hq. apply list_elem_of_fmap in Hq as (x & -> & Hx).
  apply keeps_void; [apply _|]. eapply keeps_sendNack; [apply _|keep_side|].
  keep_side.
Qed.

(** The FIB leads to faces of the table. *)
Lemma fib_of_hops s n : fw_ok s -> hops_in_table (fe_nextHops (fib_of n (fw_tables s))) s.
Proof.
  intros Hs nh Hnh. unfold fib_of in Hnh. destruct n as [n|]; [|by apply not_elem_of_nil in Hnh].
  simpl in Hnh. rewrite nt_get_fib in Hnh.
  destruct (fib_map (ts_nt (fw_tables s)) !! n) as [f|] eqn:E; simpl in Hnh; [|by apply not_elem_of_nil in Hnh].
  by eapply fo_hops.
Qed.

(** A FIB entry that a lookup gives, if it is not for the root, is in the FIB. *)
Lemma fib_of_prefix s n : fw_ok s ->
  fe_prefix (fib_of n (fw_tables s)) = [] \/ fib_map (ts_nt (fw_tables s)) !! fe_prefix (fib_of n (fw_tables s)) = Some (fib_of n (fw_tables s)).
Proof.
  intros Hs. unfold fib_of. destruct n as [n|]; [|by left]. simpl. rewrite nt_get_fib.
  destruct (fib_map (ts_nt (fw_tables s)) !! n) as [f|] eqn:E; simpl; [|by left]. right.
  by destruct (ts_fib_ok _ (fo_tables _ Hs) n f E) as [-> _].
Qed.

Lemma lookup_delegations_eval (R : FibEntry -> Fw -> Prop) s fh : fw_ok s -> (forall n, R (fib_of n (fw_tables s)) s) ->
  forall f, R f s -> match lookup_delegations (fw_tables s) fh f s with Done f' s' => s' = s /\ R f' s | Wrong e => may_fail s e end.
Proof.
  intros Hs HR. induction fh as [|d l IH]; intros f Hf; simpl; [done|]. set (g := Fib_lpm_name (del_name d) (fw_tables s)).
  destruct (hasNextHops g) eqn:Eh; [split; [done|apply HR]|]. destruct (fe_prefix g) as [|c n] eqn:Ep; [apply IH, HR|].
  assert (fe_prefix g = [] \/ fib_map (ts_nt (fw_tables s)) !! fe_prefix g = Some g) as [E|E] by (by apply fib_of_prefix); rewrite Ep in E; [done|].
  split; [done|]. exists g. split; [done|]. unfold hasNextHops in Eh. by destruct (fe_nextHops g).
Qed.

(** What holds of every FIB entry holds of the one [lookupFib] gives. *)
Lemma keeps_lookup (P : Fw -> Prop) p j (R : FibEntry -> Fw -> Prop) :
  (forall s, P s -> pending p j s) -> (forall s n, fw_ok s -> R (fib_of n (fw_tables s)) s) -> keeps P (lookupFib p) R.
Proof.
  intros Hp HR s Hs HP. destruct (Hp s HP) as (e & He & _). unfold lookupFib.
  rewrite (bind_done _ _ _ _ _ (the_pit_done p e s (proj1 He))). unfold gets, mbind, M_bind.
  pose proof (fo_hints _ Hs p e He) as Hh. destruct (i_forwardingHint (pe_interest e)) as [|del fh] eqn:Ei.
  - split_and!; [done|reflexivity|apply HR, Hs].
  - rewrite Hh. pose proof (lookup_delegations_eval R s (del :: fh) Hs (fun n => HR s n Hs) s_emptyEntry (HR s None Hs)) as H.
    destruct (lookup_delegations _ _ _ s) as [f s'|err]; [|done]. destruct H as [-> H]. split_and!; [done|reflexivity|done].
Qed.

Lemma keeps_lookupFib (P : Fw -> Prop) `{!Stable P} p j :
  (forall s, P s -> pending p j s) -> keeps P (lookupFib p) (fun f s => hops_in_table (fe_nextHops f) s).
Proof. intros Hp. apply keeps_lookup with j; [done|]. intros s n. apply fib_of_hops. Qed.

Lemma keeps_find_nextHop (P : Fw -> Prop) `{!Stable P} (T : FacePtr -> Face -> bool) l :
  (forall s, P s -> hops_in_table l s) ->
  keeps P (find_nextHop T l) (fun o s => forall nh, o = Some nh ->
    nh ∈ l /\ intab (nh_face nh) s /\ exists f, is_face (nh_face nh) f s /\ T (nh_face nh) f = true).
Proof.
  induction l as [|x l IH]; intros Hl; simpl; [by apply keeps_ret|].
  eapply keeps_bind; [apply _|apply keeps_the_face|].
  { intros s HP. apply intab_live, Hl; [done|by left]. }
  intros f. apply keeps_if; intros HT.
  - apply keeps_ret. intros s [HP Hf] nh [= <-]. split; [by left|]. split; [apply Hl; [done|by left]|by exists f].
  - eapply keeps_weaken; [apply IH|tauto|].
    + intros s HP y Hy. apply Hl; [done|by right].
    + simpl. intros o s Ho nh ->. destruct (Ho nh eq_refl) as (? & ? & ?). split; [by right|done].
Qed.

(** ** Nexthops that pass the scope test *)

Lemma is_face_static q f g s : is_face q f s -> is_face q g s -> face_static f = face_static g.
Proof. unfold is_face, face_is. congruence. Qed.

Lemma scope_may_send inF i q f s : is_face q f s -> wouldViolateScope inF i f = false -> may_send q i s.
Proof.
  intros Hf Hv g Hg Hl. left. pose proof (is_face_static _ _ _ _ Hf Hg) as E. injection E as _ E _ _ _.
  unfold wouldViolateScope in Hv. rewrite Hl in Hv. case_bool_decide; [congruence|done].
Qed.

Lemma eligible_scope inF i out f e u now : isNextHopEligible inF i out f e u now = true -> wouldViolateScope inF i f = false.
Proof. unfold isNextHopEligible. destruct (wouldViolateScope inF i f); [by rewrite orb_true_r|done]. Qed.

(** The result of a search through the nexthops. *)
Definition good_hop (i : Interest) (o : option NextHop) (s : Fw) : Prop :=
  forall nh, o = Some nh -> intab (nh_face nh) s /\ may_send (nh_face nh) i s.
#[local] Instance stable_good i o : Stable (good_hop i o).
Proof. apply stable_forall. intros nh. apply stable_impl. apply stable_and; apply _. Qed.

Lemma keeps_find_good (P : Fw -> Prop) `{!Stable P} i (T : FacePtr -> Face -> bool) l :
  (forall s, P s -> hops_in_table l s) ->
  (forall q f, T q f = true -> exists inF, wouldViolateScope inF i f = false) ->
  keeps P (find_nextHop T l) (good_hop i).
Proof.
  intros Hl HT. eapply keeps_weaken; [by apply keeps_find_nextHop|done|]. simpl.
  intros o s Ho nh ->. destruct (Ho nh eq_refl) as (_ & Hin & f & Hf & [inF Hv]%HT). split; [done|by eapply scope_may_send].
Qed.

Lemma keeps_send_hop (P : Fw -> Prop) `{!Stable P} p i j nh :
  (forall s, P s -> pending p j s) -> same_request i j -> (forall s, P s -> good_hop i (Some nh) s) ->
  keeps P (sendInterest p (nh_face nh) i;; mret tt) (fun _ _ => True).
Proof.
  intros Hp Hr Hg. apply keeps_void; [done|]. apply keeps_sendInterest with j; [done|done|done|..]; intros s HP; by apply (Hg s HP).
Qed.

Lemma keeps_refuse (P : Fw -> Prop) `{!Stable P} p q r j :
  (forall s, P s -> pending p j s) -> (forall s, P s -> live q s) ->
  keeps P (sendNack p q r;; rejectPendingInterest p) (fun _ _ => True).
Proof. intros Hp Hq. apply keeps_seq; [done|by eapply keeps_sendNack|by apply keeps_reject]. Qed.

(** ** Retransmission suppression *)

Lemma update_const p g e s : ts_pit (fw_tables s) !! p = Some e -> update_pit p (fun _ => g e) s = update_pit p g s.
Proof.
  intros He. unfold update_pit, modify. f_equal. f_equal. unfold pit_modify. f_equal.
  rewrite (alter_is_insert (fun _ => g e) p e) by done. by rewrite (alter_is_insert g p e).
Qed.

(** A decision that writes back what a [keeps]-step of the entry gives. *)
Lemma keeps_decide {A} (P : Fw -> Prop) p j (decide_ : time -> PitEntry -> option (A * PitEntry)) :
  (forall s, P s -> pending p j s) ->
  (forall s e now, fw_ok s -> attached (fw_tables s) p e ->
     exists r g, decide_ now e = Some (r, g e) /\ entry_step s p g) ->
  keeps P (e ← the_pit p; now ← gets fw_now;
           match decide_ now e with None => fail EndIterator | Some (r, e') => update_pit p (fun _ => e');; mret r end)
    (fun _ _ => True).
Proof.
  intros Hp Hd s Hs HP. destruct (Hp s HP) as (e & Ha & _). pose proof Ha as [He _].
  unfold the_pit, gets, mbind, M_bind. rewrite He. unfold mret at 1, M_ret at 1.
  destruct (Hd s e (fw_now s) Hs Ha) as (r & g & -> & Hg). change (fun _ : PitEntry => g e) with (fun _ : PitEntry => g e).
  rewrite update_const by done. unfold update_pit, modify, mret, M_ret.
  split_and!; [by apply fw_ok_update|apply evolves_update, Hg|done].
Qed.

Lemma step_info s p h : entry_step s p (set_pe_info h).
Proof. split; [done|intros e _; apply wf_set_pe_info|done]. Qed.

Lemma max_element_is_Some {A} (key : A -> Z) x l : is_Some (max_element key (x :: l)).
Proof. simpl. destruct (max_element key l); [case_match|]; by eexists. Qed.

Lemma pending_last_outgoing now e : hasPendingOutRecords now e = true -> is_Some (getLastOutgoing e).
Proof.
  unfold hasPendingOutRecords, getLastOutgoing. destruct (pe_outRecords e) as [|r l]; [done|]. intros _.
  apply fmap_is_Some, max_element_is_Some.
Qed.

Lemma keeps_retx_perPitEntry (P : Fw -> Prop) p j :
  (forall s, P s -> pending p j s) -> keeps P (retx_perPitEntry p) (fun _ _ => True).
Proof.
  intros Hp. unfold retx_perPitEntry. eapply keeps_decide; [exact Hp|]. intros s e now Hs _. unfold decidePerPitEntry.
  destruct (hasPendingOutRecords now e) eqn:E; cbn [negb]; [|exists RETX_NEW, (fun e => e); by split].
  destruct (pending_last_outgoing _ _ E) as [last ->]. simpl.
  destruct (insertStrategyInfo _ _ _) as [[pi b] h].
  case_match; eexists _, (set_pe_info _); (split; [done|apply step_info]).
Qed.

Lemma keeps_retx_perUpstream (P : Fw -> Prop) p out j :
  (forall s, P s -> pending p j s) -> keeps P (retx_perUpstream p out) (fun _ _ => True).
Proof.
  intros Hp. unfold retx_perUpstream.
  pose proof (keeps_decide P p j (fun now e => Some (decidePerUpstream now out e)) Hp) as HK.
  assert (keeps P (e ← the_pit p; now ← gets fw_now;
    match Some (decidePerUpstream now out e) with None => fail EndIterator | Some (r, e') => update_pit p (fun _ => e');; mret r end)
    (fun _ _ => True)) as Hk; [|exact Hk].
  apply HK. intros s e now Hs _. unfold decidePerUpstream.
  destruct (getOutRecord e out) as [r|]; [|exists RETX_NEW, (fun e => e); by split].
  destruct (insertStrategyInfo _ _ _) as [[pi b] h].
  case_match; eexists _, (updateOutRecord (set_or_info h) out); (split; [done|apply step_updateOut; by right]).
Qed.

(** The search for the upstream used earliest, where every eligible one has been used. *)
Lemma keeps_and {A} (P : Fw -> Prop) (m : M A) Q Q' :
  keeps P m Q -> keeps P m Q' -> keeps P m (fun a s => Q a s /\ Q' a s).
Proof.
  intros H H' s Hs HP. specialize (H s Hs HP). specialize (H' s Hs HP). destruct (m s); [|done].
  destruct H as (? & ? & ?), H' as (_ & _ & ?). by split_and!.
Qed.

Definition none_passes (T : FacePtr -> Face -> bool) (l : list NextHop) (s : Fw) : Prop :=
  forall nh, nh ∈ l -> exists f, is_face (nh_face nh) f s /\ T (nh_face nh) f = false.
#[local] Instance stable_none_passes T l : Stable (none_passes T l).
Proof.
  intros s s' H1 H2 He H nh Hnh. destruct (H nh Hnh) as (f & Hf & HT). exists f. split; [|done].
  exact (stable s s' H1 H2 He Hf).
Qed.

Lemma keeps_find_none (P : Fw -> Prop) `{!Stable P} (T : FacePtr -> Face -> bool) l :
  (forall s, P s -> hops_in_table l s) ->
  keeps P (find_nextHop T l) (fun o s => o = None -> none_passes T l s).
Proof.
  induction l as [|x l IH]; intros Hl; simpl.
  { apply keeps_ret. intros s _ _ nh ?%not_elem_of_nil. done. }
  eapply keeps_bind; [apply _|apply keeps_the_face|].
  { intros s HP. apply intab_live, Hl; [done|by left]. }
  intros f. apply keeps_if; intros HT; [by apply keeps_ret|].
  assert (keeps (fun s => P s /\ is_face (nh_face x) f s) (find_nextHop T l) (fun o s => o = None -> none_passes T l s)) as Hr.
  { eapply keeps_weaken; [apply IH|tauto|done]. intros s HP y Hy. apply Hl; [done|by right]. }
  eapply (keeps_weaken _ (fun s => P s /\ is_face (nh_face x) f s) _ _
    (fun o s => (o = None -> none_passes T l s) /\ is_face (nh_face x) f s)); [|done|].
  - intros s Hs HP. specialize (Hr s Hs HP). destruct (find_nextHop T l s); [|done].
    destruct Hr as (H1 & H2 & H3). split_and!; [done|done|done|]. exact (stable s s0 Hs H1 H2 (proj2 HP)).
  - simpl. intros o s [Ho Hf] E nh [->|Hnh]%elem_of_cons; [by exists f|by apply Ho].
Qed.

Lemma eligible_static inF i out f g e u now :
  face_static f = face_static g -> isNextHopEligible inF i out f e u now = isNextHopEligible inF i out g e u now.
Proof. intros E. injection E as E1 E2 E3 _ _. unfold isNextHopEligible, wouldViolateScope. by rewrite E1, E2, E3. Qed.

Lemma eligible_used inF i out f e now :
  isNextHopEligible inF i out f e true now = false -> isNextHopEligible inF i out f e false now = true ->
  is_Some (getOutRecord e out).
Proof. unfold isNextHopEligible. case_match; [done|]. destruct (getOutRecord e out); by eauto. Qed.

Lemma keeps_find_earliest (P : Fw -> Prop) `{!Stable P} inF i now e l :
  (forall s, P s -> hops_in_table l s) ->
  (forall s, P s -> none_passes (fun out f => isNextHopEligible inF i out f e true now) l s) ->
  forall found t, (forall s, P s -> good_hop i found s) ->
  keeps P (find_earliest inF i now e l found t) (good_hop i).
Proof.
  revert P Stable0. induction l as [|x l IH]; intros P HSt Hl Hn found t Hf; simpl; [by apply keeps_ret|].
  eapply keeps_bind; [apply _|apply keeps_the_face|].
  { intros s HP. apply intab_live, Hl; [done|by left]. }
  intros f. assert (forall s, P s /\ is_face (nh_face x) f s -> hops_in_table l s) as Hl'.
  { intros s [HP _] y Hy. apply Hl; [done|by right]. }
  assert (forall s, P s /\ is_face (nh_face x) f s ->
            none_passes (fun out f => isNextHopEligible inF i out f e true now) l s) as Hn'.
  { intros s [HP _] y Hy. apply Hn; [done|by right]. }
  apply keeps_if; intros HE; [apply IH; [apply _|done|done|by intros s [? _]; auto]|].
  apply negb_false_iff in HE. destruct (getOutRecord e (nh_face x)) as [r|] eqn:Er.
  - apply keeps_if; intros _; apply IH; (apply _ || done || idtac); [|by intros s [? _]; auto].
    intros s [HP Hx] nh [= <-]. split; [apply Hl; [done|by left]|]. eapply scope_may_send; [done|by eapply eligible_scope].
  - intros s Hs [HP Hx]. destruct (Hn s HP x) as (g & Hg & HT); [by left|].
    rewrite (eligible_static _ _ _ g f) in HT by by eapply is_face_static.
    destruct (eligible_used _ _ _ _ _ _ HT HE) as [? ?]. congruence.
Qed.

Section law_parts.
Context (ingress : FacePtr) (p : PitPtr) (j : Interest).
Let P (s : Fw) : Prop := intab ingress s /\ pending p j s.
#[local] Instance stable_P : Stable P.
Proof. apply stable_and; apply _. Qed.
Let HI s : P s -> live ingress s.
Proof. intros [? _]. by apply intab_live. Qed.
Let HP s : P s -> pending p j s.
Proof. by intros []. Qed.

Lemma bestRoute_interest i : same_request i j -> keeps P (bestRoute_afterReceiveInterest ingress i p) (fun _ _ => True).
Proof.
  intros Hr. eapply keeps_bind; [apply _|apply keeps_the_pit; exact HP|]. intros e.
  apply keeps_then; [apply _|apply keeps_get|]. intros now. apply keeps_if; intros _; [apply keeps_done|].
  eapply keeps_bind; [apply _|apply keeps_lookupFib with j; [apply _|intros s [? _]; auto]|]. intros fib.
  eapply keeps_bind; [apply _|apply keeps_the_face; intros s [[? _] _]; auto|]. intros inF.
  eapply keeps_bind; [apply _|apply keeps_find_good; [apply _|keep_side|]|].
  { intros q f H. apply andb_prop in H as [H _]. exists inF. by apply negb_true_iff in H. }
  intros [nh|]; [|apply keeps_reject; apply _].
  apply keeps_send_hop with j; [apply _|keep_facts; auto|done|keep_facts; done].
Qed.

(** Refusing the Interest, and sending it on a nexthop, once [P] holds. *)
Lemma refuse (P' : Fw -> Prop) `{!Stable P'} r : (forall s, P' s -> P s) -> keeps P' (sendNack p ingress r;; rejectPendingInterest p) (fun _ _ => True).
Proof. intros HPP. apply keeps_refuse with j; [done|..]; intros s Hs; apply HPP in Hs; auto. Qed.

Lemma bestRoute2_interest i : same_request i j -> keeps P (bestRoute2_afterReceiveInterest ingress i p) (fun _ _ => True).
Proof.
  intros Hr.
  apply keeps_then; [apply _|eapply keeps_retx_perPitEntry; exact HP|]. intros sup.
  assert (forall k, keeps P k (fun _ _ => True) -> keeps P (match sup with RETX_SUPPRESS => mret tt | _ => k end) (fun _ _ => True)) as Hk.
  { intros k Hk. destruct sup; [done|done|apply keeps_done]. }
  apply Hk. clear Hk.
  eapply keeps_bind; [apply _|apply keeps_lookupFib with j; [apply _|exact HP]|]. intros fib.
  eapply keeps_bind; [apply _|apply keeps_the_pit; intros s [? _]; auto|]. intros e.
  apply keeps_then; [apply _|apply keeps_get|]. intros now.
  eapply keeps_bind; [apply _|apply keeps_the_face; intros s [[? _] _]; auto|]. intros inF.
  set (P1 := fun s => ((P s /\ hops_in_table (fe_nextHops fib) s) /\ (pe_interest e = j /\ wf_entry e) /\ entry_faces e s) /\ is_face ingress inF s).
  assert (forall s, P1 s -> P s) as H1 by (by intros s [[[? _] _] _]).
  assert (forall s, P1 s -> hops_in_table (fe_nextHops fib) s) as H2 by (by intros s [[[_ ?] _] _]).
  assert (Stable P1) as S1 by (unfold P1; apply _). change (keeps P1 (match sup with RETX_NEW =>
     it ← find_nextHop (fun out f => isNextHopEligible inF i out f e false now) (fe_nextHops fib);
     match it with None => sendNack p ingress NO_ROUTE;; rejectPendingInterest p
                 | Some nh => sendInterest p (nh_face nh) i;; mret tt end
   | _ => it ← find_nextHop (fun out f => isNextHopEligible inF i out f e true now) (fe_nextHops fib);
     match it with Some nh => sendInterest p (nh_face nh) i;; mret tt
     | None => it ← find_earliest inF i now e (fe_nextHops fib) None TIME_MAX;
         match it with None => mret tt | Some nh => sendInterest p (nh_face nh) i;; mret tt end end end) (fun _ _ => True)).
  clearbody P1.
  assert (forall u q f, isNextHopEligible inF i q f e u now = true -> exists inF, wouldViolateScope inF i f = false) as HE.
  { intros u q f H. exists inF. by eapply eligible_scope. }
  assert (keeps P1 (it ← find_nextHop (fun out f => isNextHopEligible inF i out f e true now) (fe_nextHops fib);
     match it with Some nh => sendInterest p (nh_face nh) i;; mret tt
     | None => it ← find_earliest inF i now e (fe_nextHops fib) None TIME_MAX;
         match it with None => mret tt | Some nh => sendInterest p (nh_face nh) i;; mret tt end end) (fun _ _ => True)) as Hretx.
  { eapply keeps_bind; [apply _|apply keeps_and; [apply keeps_find_good; [apply _|done|apply HE]|by apply keeps_find_none]|].
    intros [nh|].
    - apply keeps_send_hop with j; [apply _|intros s [? _]; auto|done|by intros s [_ [? _]]].
    - eapply keeps_bind; [apply _|eapply keeps_find_earliest; [apply _|intros s [? _]; auto|intros s [_ [_ ?]]; auto|done]|].
      intros [nh|]; [|apply keeps_done]. apply keeps_send_hop with j; [apply _|intros s [[? _] _]; auto|done|by intros s [_ ?]]. }
  destruct sup; [|done|done].
  eapply keeps_bind; [apply _|apply keeps_find_good; [apply _|done|apply HE]|]. intros [nh|].
  - apply keeps_send_hop with j; [apply _|intros s [? _]; auto|done|by intros s [_ ?]].
  - apply refuse; [apply _|intros s [? _]; auto].
Qed.

Lemma multicast_nextHop_keeps (P' : Fw -> Prop) `{!Stable P'} inF i nh : same_request i j ->
  (forall s, P' s -> P s) -> (forall s, P' s -> intab (nh_face nh) s) ->
  keeps P' (multicast_nextHop inF i p nh) (fun _ _ => True).
Proof.
  intros Hr HPP Hn. apply keeps_then; [done|eapply keeps_retx_perUpstream; intros s ?; by apply HP, HPP|]. intros sup.
  assert (forall k, keeps P' k (fun _ _ => True) -> keeps P' (match sup with RETX_SUPPRESS => mret tt | _ => k end) (fun _ _ => True)) as Hk.
  { intros k Hk. destruct sup; [done|done|apply keeps_done]. }
  apply Hk. clear Hk.
  eapply keeps_bind; [apply _|apply keeps_the_face; intros s ?; by apply intab_live, Hn|]. intros f.
  eapply keeps_bind; [apply _|apply keeps_the_pit; intros s [? _]; by apply HP, HPP|]. intros e.
  apply keeps_then; [apply _|apply keeps_get|]. intros now. apply keeps_if; intros HE; [apply keeps_done|].
  apply negb_false_iff, eligible_scope in HE.
  apply keeps_then; [apply _| |].
  - apply keeps_sendInterest with j; [apply _|intros s [[? _] _]; by apply HP, HPP|done|intros s [[? _] _]; auto|].
    intros s [[_ Hf] _]. by eapply scope_may_send.
  - intros sent. apply keeps_if; intros _; [|apply keeps_done]. apply keeps_update_pit. intros s Hs _.
    apply step_updateOut. intros r. right. unfold increment_interval. by destruct (insertStrategyInfo _ _ _) as [[pi b] h].
Qed.

Lemma multicast_interest i : same_request i j -> keeps P (multicast_afterReceiveInterest ingress i p) (fun _ _ => True).
Proof.
  intros Hr.
  eapply keeps_bind; [apply _|apply keeps_lookupFib with j; [apply _|exact HP]|]. intros fib.
  eapply keeps_bind; [apply _|apply keeps_the_face; intros s [? _]; auto|]. intros inF.
  apply keeps_seq; [apply _| |].
  - apply keeps_forM; [apply _|]. intros nh Hnh.
    apply multicast_nextHop_keeps; [apply _|done|by intros s [[? _] _]|]. intros s [[_ H] _]. by apply H.
  - eapply keeps_bind; [apply _|apply keeps_the_pit; intros s [[? _] _]; auto|]. intros e.
    apply keeps_then; [apply _|apply keeps_get|]. intros now. apply keeps_if; intros _; [|apply keeps_done].
    apply refuse; [apply _|by intros s [[[? _] _] _]].
Qed.

Lemma processNack_keeps n : EnvLaws -> keeps P (processNack ingress n p) (fun _ _ => True).
Proof.
  intros HEnv. eapply keeps_bind; [apply _|apply keeps_the_pit; exact HP|]. intros e.
  destruct (nack_scan _ _ _ _) as [[k lastf] r].
  assert (forall f, getInRecord e f <> None -> keeps (fun s => P s /\ (pe_interest e = j /\ wf_entry e) /\ entry_faces e s)
            (sendNack p f r;; mret tt) (fun _ _ => True)) as Hone.
  { intros f Hf. apply keeps_void; [apply _|]. apply keeps_sendNack with j; [apply _|intros s [? _]; auto|].
    intros s (_ & _ & He). destruct (getInRecord e f) as [x|] eqn:Ex; [|done]. apply getInRecord_elem in Ex as [Hx <-].
    eauto with ndn. }
  assert (keeps (fun s => P s /\ (pe_interest e = j /\ wf_entry e) /\ entry_faces e s)
    (if (0 <? k)%nat then mret tt else sendNacks p r) (fun _ _ => True)) as Hall.
  { apply keeps_if; intros _; [apply keeps_done|]. eapply keeps_sendNacks; [apply _|intros s [? _]; auto]. }
  destruct k as [|[|k]]; [done| |done]. destruct lastf as [f|]; [|done].
  destruct (getInRecord e f) eqn:Ef; [|done]. apply Hone. congruence.
Qed.

Lemma keeps_filter (P' : Fw -> Prop) `{!Stable P'} i (T : FacePtr -> Face -> bool) l :
  (forall s, P' s -> hops_in_table l s) ->
  (forall q f, T q f = true -> exists inF, wouldViolateScope inF i f = false) ->
  keeps P' (filter_nextHops T l) (fun k s => forall nh, nh ∈ k -> good_hop i (Some nh) s).
Proof.
  intros Hl HT. induction l as [|x l IH]; simpl.
  { apply keeps_ret. intros s _ nh ?%not_elem_of_nil. done. }
  eapply keeps_bind; [apply _|apply keeps_the_face|].
  { intros s Hs. apply intab_live, Hl; [done|by left]. }
  intros f. eapply keeps_bind; [apply _|eapply keeps_weaken; [apply IH|by intros s [? _]|]|].
  { intros s Hs y Hy. apply Hl; [done|by right]. }
  { exact (fun _ _ H => H). }
  intros rest. apply keeps_ret. intros s [[Hs Hf] Hr]. destruct (T (nh_face x) f) eqn:E; [|done].
  intros nh [->|Hnh]%elem_of_cons; [|by apply Hr]. intros y [= <-]. destruct (HT _ _ E) as [inF Hv].
  split; [apply Hl; [done|by left]|by eapply scope_may_send].
Qed.

Lemma random_interest i : same_request i j -> EnvLaws -> keeps P (random_afterReceiveInterest ingress i p) (fun _ _ => True).
Proof.
  intros Hr HEnv. eapply keeps_bind; [apply _|apply keeps_lookupFib with j; [apply _|exact HP]|]. intros fib.
  eapply keeps_bind; [apply _|apply keeps_the_pit; intros s [? _]; auto|]. intros e.
  apply keeps_then; [apply _|apply keeps_get|]. intros now.
  eapply keeps_bind; [apply _|apply keeps_the_face; intros s [[? _] _]; auto|]. intros inF.
  eapply keeps_bind; [apply _|apply keeps_filter with (i := i); [apply _|by intros s [[[_ ?] _] _]|]|].
  { intros q f H. exists inF. by eapply eligible_scope. }
  intros [|nh0 nhs]; [apply refuse; [apply _|by intros s [[[[? _] _] _] _]]|].
  apply keeps_then; [apply _|apply keeps_get|]. intros n.
  apply keeps_seq; [apply _| |].
  - apply keeps_modify. intros s Hs _. split; [by apply (fw_ok_same s); [..|apply Hs|]|by apply evolves_quiet].
  - destruct (env_shuffle n (nh0 :: nhs)) as [|nh k] eqn:E.
    + pose proof (env_shuffle_perm n (nh0 :: nhs)) as HPm. rewrite E in HPm. by apply Permutation_nil_l in HPm.
    + apply keeps_send_hop with j; [apply _|intros s [[[[? _] _] _] _]; auto|done|]. intros s [_ Hg]. apply Hg.
      rewrite <- env_shuffle_perm, E. by left.
Qed.
End law_parts.

(** ** The laws *)

Lemma keeps_used {A} (P : Fw -> Prop) T (m : M A) Q : keeps P m Q -> keeps (fun s => P s /\ uses T s) m Q.
Proof. intros H. eapply keeps_weaken; [exact H|tauto|done]. Qed.

Lemma derive_laws T fi fn :
  (forall ingress i p j, same_request i j -> keeps (fun s => intab ingress s /\ pending p j s) (fi ingress i p) (fun _ _ => True)) ->
  (forall ingress n p j, keeps (fun s => intab ingress s /\ pending p j s) (fn ingress n p) (fun _ _ => True)) ->
  StrategyLaws T (derive fi fn).
Proof.
  intros Hi Hn. split; simpl; intros; try (apply keeps_used); [by apply Hi| | | |done| | |apply keeps_done].
  - apply keeps_done.
  - apply keeps_void; [apply _|]. apply keeps_sendData with j; [apply _|by intros s []|done|]. intros s [? _]. by apply intab_live.
  - apply keeps_seq; [apply _|apply keeps_done|]. apply keeps_sendDataToAll with j; [apply _|by intros s []|done|].
    intros s [? _]. by apply intab_live.
  - apply keeps_done.
  - apply keeps_done.
Qed.

#[global] Instance bestRoute_laws T : StrategyLaws T bestRoute_ops.
Proof. apply derive_laws; intros; [by apply bestRoute_interest|apply keeps_done]. Qed.
#[global] Instance bestRoute2_laws T `{!EnvLaws} : StrategyLaws T bestRoute2_ops.
Proof. apply derive_laws; intros; [by apply bestRoute2_interest|by apply processNack_keeps]. Qed.
#[global] Instance multicast_laws T `{!EnvLaws} : StrategyLaws T multicast_ops.
Proof. apply derive_laws; intros; [by apply multicast_interest|by apply processNack_keeps]. Qed.
#[global] Instance random_laws T `{!EnvLaws} : StrategyLaws T random_ops.
Proof. apply derive_laws; intros; [by apply random_interest|by apply processNack_keeps]. Qed.
End actions.
