(* ===== verification/AccessStrategy.v ===== *)
(** * The access strategy (fw/access-strategy.cpp)

    For the last hop: multicast the first Interest, remember which nexthop brought the Data
    of a prefix, send to that one afterwards, and multicast again when it does not answer in
    the estimated round-trip time. The strategy keeps an item on PIT entries with the timer
    and one on Measurements entries with the last nexthop, and the round-trip times of faces
    of its own. *)

From S2P Require Import Prelude Name Packet FaceKeyed RttEstimator PitEntry FibEntry NodeStore NameTree NameTreeInv.
From S2P Require Import Tables Fib Pit Measurements StrategyRegistry StrategyChoice FaceTable Forwarder Accessor FwAlgorithm Strategy.

(** [MtInfo]. *)
Definition MtInfo_new : StrategyInfo := AccessMtInfo INVALID_FACEID RttEstimator_new.

Section access.
Context `{Env}.

(** [Strategy::getFace]. *)
Definition getFace (id : N) : M (option FacePtr) := faces ← gets fw_faces; mret (ft_get id faces).

Fixpoint access_multicast_loop (inFace : FacePtr) (inF : Face) (i : Interest) (p : PitPtr) (l : list NextHop) (exceptFace : N) (nSent : nat) : M nat :=
  match l with
  | [] => mret nSent
  | nh :: l' =>
      let out := nh_face nh in
      f ← the_face out;
      if (out =? inFace)%N || (f_id f =? exceptFace)%N || wouldViolateScope inF i f
      then access_multicast_loop inFace inF i p l' exceptFace nSent
      else sent ← sendInterest p out i;
           access_multicast_loop inFace inF i p l' exceptFace (if sent : bool then S nSent else nSent)
  end.
Definition access_multicast (inFace : FacePtr) (i : Interest) (p : PitPtr) (fibEntry : FibEntry) (exceptFace : N) : M nat :=
  inF ← the_face inFace;
  access_multicast_loop inFace inF i p (fe_nextHops fibEntry) exceptFace 0.

(** [sendToLastNexthop], with the fields of [mi]. *)
Definition sendToLastNexthop (self : Name) (ingress : FacePtr) (i : Interest) (p : PitPtr) (lastNexthop : N) (rtt : RttEstimator) (fibEntry : FibEntry) : M bool :=
  if (lastNexthop =? INVALID_FACEID)%N then mret false
  else
    inF ← the_face ingress;
    if (lastNexthop =? f_id inF)%N then mret false
    else
      o ← getFace lastNexthop;
      match o with
      | None => mret false
      | Some outFace =>
          if negb (hasNextHop fibEntry outFace) then mret false
          else
            outF ← the_face outFace;
            if wouldViolateScope inF i outF then mret false
            else
              sent ← sendInterest p outFace i;
              if negb sent then mret false
              else
                _ ← insertPitInfo p ACCESS_PIT_INFO (AccessPitInfo None);
                now ← gets fw_now;
                obj ← object_of self;
                putPitInfo p ACCESS_PIT_INFO (AccessPitInfo (Some ((now + re_rto rtt)%Z, obj, f_id inF, lastNexthop)));;
                mret true
      end.

(** [findPrefixMeasurements]: the item of the longest prefix with an entry, if it has one. *)
Definition findPrefixMeasurements (self : Name) (p : PitPtr) : M (option (N * RttEstimator)) :=
  me ← acc_findLongestPrefixMatch_pit self p;
  match me with
  | None => mret None
  | Some n => mi ← getMeasInfo n ACCESS_MT_INFO;
              mret (match mi with Some (AccessMtInfo lastNexthop rtt) => Some (lastNexthop, rtt) | _ => None end)
  end.
(** [addPrefixMeasurements]: the entry, with its item. *)
Definition addPrefixMeasurements (self : Name) (d : Data) : M Name :=
  me ← (match d_name d with [] => mret None | _ => acc_get self (getPrefix (d_name d) (-1)) end);
  me ← (match me with Some n => mret (Some n) | None => acc_get self (d_name d) end);
  match me with
  | None => fail (AssertionFailed AccessStrategy)
  | Some n => acc_extendLifetime n (8000 * ms);; insertMeasInfo n ACCESS_MT_INFO MtInfo_new;; mret n
  end.

Definition access_afterReceiveNewInterest (ingress : FacePtr) (i : Interest) (p : PitPtr) : M unit :=
  self ← strategy_self p;
  fibEntry ← lookupFib p;
  mi ← findPrefixMeasurements self p;
  isSentToLastNexthop ← (match mi with Some (lastNexthop, rtt) => sendToLastNexthop self ingress i p lastNexthop rtt fibEntry | None => mret false end);
  if isSentToLastNexthop : bool then mret tt
  else
    nMulticastSent ← access_multicast ingress i p fibEntry INVALID_FACEID;
    if (nMulticastSent =? 0)%nat then rejectPendingInterest p else mret tt.
Definition access_afterReceiveRetxInterest (ingress : FacePtr) (i : Interest) (p : PitPtr) : M unit :=
  fibEntry ← lookupFib p;
  access_multicast ingress i p fibEntry INVALID_FACEID;; mret tt.
Definition access_afterReceiveInterest (ingress : FacePtr) (i : Interest) (p : PitPtr) : M unit :=
  e ← the_pit p;
  now ← gets fw_now;
  match fixed_decidePerPitEntry now DEFAULT_MIN_RETX_INTERVAL e with
  | None => fail EndIterator
  | Some RETX_NEW => access_afterReceiveNewInterest ingress i p
  | Some RETX_FORWARD => access_afterReceiveRetxInterest ingress i p
  | Some RETX_SUPPRESS => mret tt
  end.

(** [afterRtoTimeout]. *)
Definition afterRtoTimeout (p : PitPtr) (inFaceId firstOutFaceId : N) : M unit :=
  o ← lock_pit p;
  match o with
  | None => fail (AssertionFailed AccessStrategy)
  | Some e =>
      o ← getFace inFaceId;
      match o with
      | None => mret tt
      | Some inFace =>
          match getInRecord e inFace with
          | None => fail (AssertionFailed AccessStrategy)
          | Some r =>
              match ir_interest r with
              | None => fail EndIterator
              | Some i =>
                  fibEntry ← lookupFib p;
                  access_multicast inFace i p fibEntry firstOutFaceId;; mret tt
              end
          end
      end
  end.

(** [m_fit.emplace(id)] and the measurement; gives what the estimator is then. *)
Definition fit_measure (self : Name) (id : N) (rtt : Z) : M RttEstimator :=
  fit ← gets (fun s => default ∅ (ss_fit (fw_strategy s) !! self));
  let fi := addMeasurement rtt (default RttEstimator_new (fit !! id)) in
  modify (fun s => let x := fw_strategy s in
    with_strategy (mkStrategyState (ss_events x) (<[self := <[id := fi]> fit]> (ss_fit x)) (ss_freed x) (ss_replaced x)) s);;
  mret fi.
Definition updateMeasurements (self : Name) (inFace : FacePtr) (d : Data) (rtt : Z) : M unit :=
  inF ← the_face inFace;
  fi ← fit_measure self (f_id inF) rtt;
  n ← addPrefixMeasurements self d;
  mi ← getMeasInfo n ACCESS_MT_INFO;
  match mi with
  | Some (AccessMtInfo lastNexthop r) =>
      putMeasInfo n ACCESS_MT_INFO
        (if negb (lastNexthop =? f_id inF)%N then AccessMtInfo (f_id inF) fi else AccessMtInfo lastNexthop (addMeasurement rtt r))
  | _ => mret tt
  end.
Definition access_beforeSatisfyInterest (p : PitPtr) (ingress : FacePtr) (d : Data) : M unit :=
  pi ← getPitInfo p ACCESS_PIT_INFO;
  (if pi : option StrategyInfo then putPitInfo p ACCESS_PIT_INFO (AccessPitInfo None) else mret tt);;
  e ← the_pit p;
  if negb (hasInRecords e) then mret tt
  else match getOutRecord e ingress with
       | None => mret tt
       | Some r =>
           self ← strategy_self p;
           now ← gets fw_now;
           updateMeasurements self ingress d (now - fr_lastRenewed (or_rec r))
       end.

Definition access_onTimer (o : StrategyObject) (c : StrategyCall) : M unit :=
  match c with CallRtoTimeout p inFace firstOutFace => afterRtoTimeout p inFace firstOutFace | _ => mret tt end.

(** A strategy that overrides [beforeSatisfyInterest], which the default
    [afterReceiveData] calls. *)
Definition derive_measuring (afterInterest : FacePtr -> Interest -> PitPtr -> M unit) (before : PitPtr -> FacePtr -> Data -> M unit)
    (afterNack : FacePtr -> Nack -> PitPtr -> M unit) (timer : StrategyObject -> StrategyCall -> M unit) : StrategyOps :=
  mkStrategyOps afterInterest before base_afterContentStoreHit
    (fun p ingress d => before p ingress d;; sendDataToAll p ingress d)
    afterNack base_onDroppedInterest base_afterNewNextHop false timer.
Definition access_ops : StrategyOps :=
  derive_measuring access_afterReceiveInterest access_beforeSatisfyInterest base_afterReceiveNack access_onTimer.
End access.
