(* ===== verification/NccStrategy.v ===== *)
(** * The NCC strategy (fw/ncc-strategy.cpp)

    Like the forwarder of CCNx 0.7.2: per prefix the best face and the one before, and a
    prediction of the time in which the best face answers, in microseconds; an Interest goes
    to the best face, and to one more nexthop whenever the propagation timer fires. *)

From S2P Require Import Prelude Name Packet FaceKeyed RttEstimator PitEntry FibEntry NodeStore NameTree NameTreeInv.
From S2P Require Import Tables Fib Pit Measurements StrategyRegistry StrategyChoice FaceTable Forwarder Accessor FwAlgorithm Strategy AccessStrategy.

Definition DEFER_FIRST_WITHOUT_BEST_FACE : Z := 4000.
Definition DEFER_RANGE_WITHOUT_BEST_FACE : Z := 75000.
Definition NCC_MEASUREMENTS_LIFETIME : Z := 16000 * ms.
Definition UPDATE_MEASUREMENTS_N_LEVELS : nat := 2.
Definition INITIAL_PREDICTION : Z := 8192.
Definition MIN_PREDICTION : Z := 127.
Definition ADJUST_PREDICT_DOWN_SHIFT : Z := 7.
Definition MAX_PREDICTION : Z := 160000.
Definition ADJUST_PREDICT_UP_SHIFT : Z := 3.

(** ** [MeasurementsEntryInfo] *)

Record NccInfo := mkNccInfo { nc_bestFace : option WeakFace; nc_previousFace : option WeakFace; nc_prediction : Z }.
Definition NccInfo_new : NccInfo := mkNccInfo None None INITIAL_PREDICTION.
Definition ncc_item (x : NccInfo) : StrategyInfo := NccMtInfo (nc_bestFace x) (nc_previousFace x) (nc_prediction x).
Definition to_ncc (i : StrategyInfo) : NccInfo :=
  match i with NccMtInfo b p t => mkNccInfo b p t | _ => NccInfo_new end.

Definition adjustPredictDown (x : NccInfo) : NccInfo :=
  mkNccInfo (nc_bestFace x) (nc_previousFace x)
    (Z.max MIN_PREDICTION (nc_prediction x - Z.shiftr (nc_prediction x) ADJUST_PREDICT_DOWN_SHIFT)).
Definition adjustPredictUp (x : NccInfo) : NccInfo :=
  mkNccInfo (nc_bestFace x) (nc_previousFace x)
    (Z.min MAX_PREDICTION (nc_prediction x + Z.shiftr (nc_prediction x) ADJUST_PREDICT_UP_SHIFT)).

Section ncc.
Context `{Env}.

(** The item of an entry, and a write through its pointer. *)
Definition ncc_get (n : Name) : M NccInfo :=
  o ← getMeasInfo n NCC_MT_INFO; mret (match o with Some i => to_ncc i | None => NccInfo_new end).
Definition ncc_put (n : Name) (x : NccInfo) : M unit := putMeasInfo n NCC_MT_INFO (ncc_item x).

(** [getBestFace], which falls back to the previous face. *)
Definition getBestFace (n : Name) : M (option FacePtr) :=
  x ← ncc_get n;
  best ← lock_face (nc_bestFace x);
  match best with
  | Some q => mret (Some q)
  | None =>
      prev ← lock_face (nc_previousFace x);
      w ← (match prev with Some q => w ← weak_face q; mret (Some w) | None => mret None end);
      ncc_put n (mkNccInfo w (nc_previousFace x) (nc_prediction x));;
      mret prev
  end.
Definition updateBestFace (n : Name) (face : FacePtr) : M unit :=
  x ← ncc_get n;
  best ← lock_face (nc_bestFace x);
  match best with
  | None => w ← weak_face face; ncc_put n (mkNccInfo (Some w) (nc_previousFace x) (nc_prediction x))
  | Some q =>
      if (q =? face)%N then ncc_put n (adjustPredictDown x)
      else w ← weak_face face; ncc_put n (mkNccInfo (Some w) (nc_bestFace x) (nc_prediction x))
  end.

(** [getMeasurementsEntryInfo]: makes the item, with what that of the parent holds, and those
    of the parents that have none, up to the end of the namespace; at most one call for each
    component of the name and one more. *)
Fixpoint getMeasurementsEntryInfo_entry (fuel : nat) (self n : Name) : M unit :=
  '(_, isNew) ← insertMeasInfo n NCC_MT_INFO (ncc_item NccInfo_new);
  if negb isNew then mret tt
  else match fuel with
       | O => mret tt
       | S fuel =>
           parentEntry ← acc_getParent self n;
           match parentEntry with
           | None => mret tt
           | Some parent =>
               getMeasurementsEntryInfo_entry fuel self parent;;
               parentInfo ← ncc_get parent;
               ncc_put n parentInfo
           end
       end.
Definition getMeasurementsEntryInfo (self : Name) (me : option Name) : M Name :=
  match me with
  | None => fail (AssertionFailed NccStrategy)
  | Some n => getMeasurementsEntryInfo_entry (length n) self n;; mret n
  end.
Definition getMeasurementsEntryInfo_pit (self : Name) (p : PitPtr) : M Name :=
  me ← acc_get_pit self p; getMeasurementsEntryInfo self me.

(** The two timers of [PitEntryInfo]: overwriting an [EventId] does not cancel the event, so
    the scheduler keeps it. *)
Definition ncc_pit_get (p : PitPtr) : M (option (time * StrategyObject) * option (time * StrategyObject * N) * Z) :=
  o ← getPitInfo p NCC_PIT_INFO;
  mret (match o with Some (NccPitInfo b t m) => (b, t, m) | _ => (None, None, 0%Z) end).
Definition set_bestFaceTimeout (p : PitPtr) (x : time * StrategyObject) : M unit :=
  '(b, t, m) ← ncc_pit_get p;
  (match b with Some (when, o) => schedule_event when o (CallBestFaceTimeout p) | None => mret tt end);;
  putPitInfo p NCC_PIT_INFO (NccPitInfo (Some x) t m).
Definition set_propagateTimer (p : PitPtr) (x : time * StrategyObject * N) : M unit :=
  '(b, t, m) ← ncc_pit_get p;
  (match t with Some (when, o, q) => schedule_event when o (CallPropagate p q) | None => mret tt end);;
  putPitInfo p NCC_PIT_INFO (NccPitInfo b (Some x) m).
Definition set_maxInterval (p : PitPtr) (m : Z) : M unit :=
  '(b, t, _) ← ncc_pit_get p; putPitInfo p NCC_PIT_INFO (NccPitInfo b t m).

(** A face that is a nexthop and may get the Interest now. *)
Definition can_use (fibEntry : FibEntry) (inF : Face) (i : Interest) (p : PitPtr) (o : option FacePtr) : M (option FacePtr) :=
  match o with
  | None => mret None
  | Some q =>
      if negb (hasNextHop fibEntry q) then mret None
      else
        f ← the_face q;
        if wouldViolateScope inF i f then mret None
        else
          e ← the_pit p;
          now ← gets fw_now;
          mret (if canForwardToLegacy now e q then Some q else None)
  end.
Definition find_forwardable (inF : Face) (i : Interest) (p : PitPtr) (l : list NextHop) : M (option NextHop) :=
  e ← the_pit p;
  now ← gets fw_now;
  find_nextHop (fun out f => negb (wouldViolateScope inF i f) && canForwardToLegacy now e out) l.

(** [maxInterval], with [nUpstreams] a [size_t]. *)
Definition ncc_interval (deferFirst deferRange : Z) (nUpstreams : Z) : Z :=
  if (0 <? nUpstreams)%Z then Z.max 1 (((2 * deferRange + nUpstreams - 1) mod 2 ^ 64) / nUpstreams)%Z else deferFirst.

Definition ncc_afterReceiveInterest (ingress : FacePtr) (i : Interest) (p : PitPtr) : M unit :=
  fibEntry ← lookupFib p;
  let nexthops := fe_nextHops fibEntry in
  if negb (hasNextHops fibEntry) then rejectPendingInterest p
  else
    _ ← insertPitInfo p NCC_PIT_INFO (NccPitInfo None None 0);
    e ← the_pit p;
    now ← gets fw_now;
    if hasPendingOutRecords now e then mret tt
    else
      self ← strategy_self p;
      meInfo ← getMeasurementsEntryInfo_pit self p;
      inF ← the_face ingress;
      obj ← object_of self;
      best ← getBestFace meInfo;
      usable ← can_use fibEntry inF i p best;
      first ← (match usable with
               | Some bestFace =>
                   sendInterest p bestFace i;;
                   x ← ncc_get meInfo;
                   set_bestFaceTimeout p ((now + nc_prediction x * us)%Z, obj);;
                   mret (Some (nc_prediction x, Z.quot (nc_prediction x + 1) 2, (Z.of_nat (length nexthops) - 1) mod 2 ^ 64))%Z
               | None =>
                   it ← find_forwardable inF i p nexthops;
                   match it with
                   | Some nh => sendInterest p (nh_face nh) i;;
                                mret (Some (DEFER_FIRST_WITHOUT_BEST_FACE, DEFER_RANGE_WITHOUT_BEST_FACE, Z.of_nat (length nexthops)))
                   | None => rejectPendingInterest p;; mret None
                   end
               end);
      match first with
      | None => mret tt
      | Some (deferFirst, deferRange, nUpstreams) =>
          x ← ncc_get meInfo;
          prev ← lock_face (nc_previousFace x);
          usable ← can_use fibEntry inF i p prev;
          let nUpstreams := (match usable with Some _ => (nUpstreams - 1) mod 2 ^ 64 | None => nUpstreams end)%Z in
          set_maxInterval p (ncc_interval deferFirst deferRange nUpstreams);;
          set_propagateTimer p ((now + deferFirst * us)%Z, obj, f_id inF)
      end.

(** [doPropagate]; [o] is [this]. The number drawn is below [maxInterval], which counts
    microseconds, and is taken for nanoseconds. *)
Definition doPropagate (o : StrategyObject) (p : PitPtr) (inFaceId : N) : M unit :=
  inFace ← getFace inFaceId;
  entry ← lock_pit p;
  match inFace, entry with
  | Some inFace, Some e =>
      match getInRecord e inFace with
      | None => mret tt
      | Some r =>
          match ir_interest r with
          | None => fail EndIterator
          | Some i =>
              fibEntry ← lookupFib p;
              item ← getPitInfo p NCC_PIT_INFO;
              match item with
              | Some (NccPitInfo _ _ maxInterval) =>
                  meInfo ← getMeasurementsEntryInfo_pit o.1 p;
                  inF ← the_face inFace;
                  x ← ncc_get meInfo;
                  prev ← lock_face (nc_previousFace x);
                  usable ← can_use fibEntry inF i p prev;
                  (match usable with Some q => sendInterest p q i;; mret tt | None => mret tt end);;
                  it ← find_forwardable inF i p (fe_nextHops fibEntry);
                  match it with
                  | None => mret tt
                  | Some nh =>
                      sendInterest p (nh_face nh) i;;
                      n ← gets fw_nRandom;
                      modify (fun s => with_nRandom (n + 1)%N s);;
                      now ← gets fw_now;
                      set_propagateTimer p ((now + env_uniform n (maxInterval - 1))%Z, o, inFaceId)
                  end
              | _ => fail (AssertionFailed NccStrategy)
              end
          end
      end
  | _, _ => mret tt
  end.

(** The loop of the two functions that update the entry and its parent. *)
Fixpoint update_levels (k : nat) (self : Name) (f : Name -> M unit) (me : option Name) : M unit :=
  match k, me with
  | S k, Some n =>
      acc_extendLifetime n NCC_MEASUREMENTS_LIFETIME;;
      n ← getMeasurementsEntryInfo self (Some n);
      f n;;
      parent ← acc_getParent self n;
      update_levels k self f parent
  | _, _ => mret tt
  end.
Definition timeoutOnBestFace (o : StrategyObject) (p : PitPtr) : M unit :=
  entry ← lock_pit p;
  match entry with
  | None => mret tt
  | Some _ =>
      me ← acc_get_pit o.1 p;
      update_levels UPDATE_MEASUREMENTS_N_LEVELS o.1 (fun n => x ← ncc_get n; ncc_put n (adjustPredictUp x)) me
  end.

(** [beforeSatisfyInterest]; it returns from within the loop when the namespace ends. *)
Fixpoint satisfy_levels (k : nat) (self : Name) (ingress : FacePtr) (me : option Name) : M bool :=
  match k with
  | O => mret true
  | S k =>
      match me with
      | None => mret false
      | Some n =>
          acc_extendLifetime n NCC_MEASUREMENTS_LIFETIME;;
          n ← getMeasurementsEntryInfo self (Some n);
          updateBestFace n ingress;;
          parent ← acc_getParent self n;
          satisfy_levels k self ingress parent
      end
  end.
Definition ncc_beforeSatisfyInterest (p : PitPtr) (ingress : FacePtr) (d : Data) : M unit :=
  e ← the_pit p;
  if negb (hasInRecords e) then mret tt
  else
    self ← strategy_self p;
    me ← acc_get_pit self p;
    all ← satisfy_levels UPDATE_MEASUREMENTS_N_LEVELS self ingress me;
    if negb all then mret tt
    else
      item ← getPitInfo p NCC_PIT_INFO;
      match item with
      | Some (NccPitInfo b _ m) =>
          putPitInfo p NCC_PIT_INFO (NccPitInfo b None m);;
          meInfo ← getMeasurementsEntryInfo_pit self p;
          best ← getBestFace meInfo;
          if bool_decide (best = Some ingress) then putPitInfo p NCC_PIT_INFO (NccPitInfo None None m) else mret tt
      | _ => mret tt
      end.

Definition ncc_onTimer (o : StrategyObject) (c : StrategyCall) : M unit :=
  match c with
  | CallPropagate p inFace => doPropagate o p inFace
  | CallBestFaceTimeout p => timeoutOnBestFace o p
  | _ => mret tt
  end.
Definition ncc_ops : StrategyOps :=
  derive_measuring ncc_afterReceiveInterest ncc_beforeSatisfyInterest base_afterReceiveNack ncc_onTimer.
End ncc.
