(* ===== verification/AsfStrategy.v ===== *)
(** * The ASF strategy (fw/asf-strategy.cpp, asf-measurements.cpp, asf-probing-module.cpp)

    Adaptive forwarding by smoothed round-trip times: per prefix and face the estimate, the
    number of timeouts and two timers, in an item on the Measurements entry; Interests go to
    the face that answers fastest, and now and then also to another one, as a probe. *)

From S2P Require Import Prelude Name Uri Packet FaceKeyed RttEstimator PitEntry FibEntry NodeStore NameTree NameTreeInv.
From S2P Require Import Tables Fib Pit Measurements StrategyRegistry StrategyChoice FaceTable Forwarder Accessor FwAlgorithm Strategy AccessStrategy.

Definition RTT_NO_MEASUREMENT : Z := -1.
Definition RTT_TIMEOUT : Z := -2.
Definition ASF_MEASUREMENTS_LIFETIME : Z := 300000 * ms.
Definition DEFAULT_PROBING_INTERVAL : Z := 60000.
Definition MIN_PROBING_INTERVAL : Z := 1000.
Definition DEFAULT_N_SILENT_TIMEOUTS : N := 3.

(** ** Parameters *)

Record AsfParams := mkAsfParams { ap_probingInterval : Z; ap_nMaxSilentTimeouts : N }.
Definition AsfParams_default : AsfParams := mkAsfParams DEFAULT_PROBING_INTERVAL DEFAULT_N_SILENT_TIMEOUTS.

(** [processParams]; [lexical_cast] is that of boost, to [uint64_t]. [None] is the exception
    [std::invalid_argument]. *)
Section params.
Context (lexical_cast : list byte -> option N).

Definition getParamValue (value : list byte) : option N :=
  match value with c :: _ => if Byte.eqb c x2d then None else lexical_cast value | [] => lexical_cast value end.
(** [time::milliseconds(size_t)], a signed number. *)
Definition setProbingInterval (probingInterval : N) (a : AsfParams) : option AsfParams :=
  let z := Z.of_N probingInterval in
  let interval := (if z <? 2 ^ 63 then z else z - 2 ^ 64)%Z in
  if (MIN_PROBING_INTERVAL <=? interval)%Z then Some (mkAsfParams interval (ap_nMaxSilentTimeouts a)) else None.
Definition processParam (c : Component) (a : AsfParams) : option AsfParams :=
  match split_at (fun b => Byte.eqb b x7e) (c_value c) with
  | (_, None) => None
  | (f, Some s) =>
      if bool_decide (f = str "probing-interval") then n ← getParamValue s; setProbingInterval n a
      else if bool_decide (f = str "n-silent-timeouts") then n ← getParamValue s; Some (mkAsfParams (ap_probingInterval a) n)
      else None
  end.
Fixpoint processParams (parsed : Name) (a : AsfParams) : option AsfParams :=
  match parsed with [] => Some a | c :: parsed => a ← processParam c a; processParams parsed a end.

(** Whether the constructor accepts the parameters, and those of an instance it made. *)
Definition asf_params_ok (ps : Name) : bool := if processParams ps AsfParams_default then true else false.
Definition asf_params (instanceName : Name) : AsfParams :=
  default AsfParams_default (processParams (parameters (parseInstanceName instanceName)) AsfParams_default).
End params.

(** ** [FaceInfo] *)

Definition FaceInfo_new : AsfFaceInfo := mkAsfFaceInfo RttEstimator_new RTT_NO_MEASUREMENT [] 0 None None.
Definition fi_cancelTimeout (prefix : Name) (fi : AsfFaceInfo) : AsfFaceInfo :=
  if isPrefixOf (fi_lastInterestName fi) prefix then no_timeoutEvent fi else fi.
Definition fi_recordRtt (rtt : Z) (fi : AsfFaceInfo) : AsfFaceInfo :=
  mkAsfFaceInfo (addMeasurement rtt (fi_rtt fi)) rtt (fi_lastInterestName fi) (fi_nSilentTimeouts fi) (fi_measurementExpiration fi) (fi_timeoutEvent fi).
Definition fi_recordTimeout (interestName : Name) (fi : AsfFaceInfo) : AsfFaceInfo :=
  fi_cancelTimeout interestName
    (mkAsfFaceInfo (fi_rtt fi) RTT_TIMEOUT (fi_lastInterestName fi) (fi_nSilentTimeouts fi) (fi_measurementExpiration fi) (fi_timeoutEvent fi)).
Definition fi_setNSilentTimeouts (n : N) (fi : AsfFaceInfo) : AsfFaceInfo :=
  mkAsfFaceInfo (fi_rtt fi) (fi_lastRtt fi) (fi_lastInterestName fi) n (fi_measurementExpiration fi) (fi_timeoutEvent fi).
Definition fi_extend (t : time) (fi : AsfFaceInfo) : AsfFaceInfo :=
  mkAsfFaceInfo (fi_rtt fi) (fi_lastRtt fi) (fi_lastInterestName fi) (fi_nSilentTimeouts fi) (Some t) (fi_timeoutEvent fi).
Definition fi_hasTimeout (fi : AsfFaceInfo) : bool := (fi_lastRtt fi =? RTT_TIMEOUT)%Z.
Definition getSrtt (fi : AsfFaceInfo) : Z := re_sRtt (fi_rtt fi).
(** [scheduleTimeout], at [now], for the strategy object; [None] is its assertion. *)
Definition fi_scheduleTimeout (now : time) (o : StrategyObject) (name : Name) (fi : AsfFaceInfo) : option AsfFaceInfo :=
  match fi_timeoutEvent fi with
  | Some _ => None
  | None => Some (mkAsfFaceInfo (fi_rtt fi) (fi_lastRtt fi) name (fi_nSilentTimeouts fi) (fi_measurementExpiration fi)
                                (Some ((now + re_rto (fi_rtt fi))%Z, o, name)))
  end.

(** ** The ranking of faces *)

Record FaceStats := mkFaceStats { fs_face : FacePtr; fs_rtt : Z; fs_srtt : Z; fs_cost : N }.
Definition getValueForSorting (x : FaceStats) : Z :=
  if (fs_rtt x =? RTT_TIMEOUT)%Z then TIME_MAX
  else if (fs_rtt x =? RTT_NO_MEASUREMENT)%Z then Z.quot TIME_MAX 2
  else fs_srtt x.
Definition stats_before (x y : FaceStats) : bool :=
  (getValueForSorting x <? getValueForSorting y)%Z
  || ((getValueForSorting x =? getValueForSorting y)%Z && (fs_cost x <? fs_cost y)%N).
(** The first of the [std::set]: of those that compare equal it keeps the first. *)
Fixpoint best_stats (l : list FaceStats) (best : option FaceStats) : option FaceStats :=
  match l with
  | [] => best
  | x :: l => best_stats l (match best with Some b => if stats_before x b then Some x else Some b | None => Some x end)
  end.

(** [FaceInfoCompare], and insertion into the set it orders. *)
Definition info_before (x y : AsfFaceInfo) : bool :=
  (negb (fi_hasTimeout x) && fi_hasTimeout y)
  || (Bool.eqb (fi_hasTimeout x) (fi_hasTimeout y) && (getSrtt x <? getSrtt y)%Z).
Fixpoint ranked_insert (x : AsfFaceInfo * FacePtr) (l : list (AsfFaceInfo * FacePtr)) : list (AsfFaceInfo * FacePtr) :=
  match l with
  | [] => [x]
  | y :: l' => if info_before x.1 y.1 then x :: l
               else if info_before y.1 x.1 then y :: ranked_insert x l'
               else l
  end.

(** [getProbingProbability] and the sums, doubles as multiples of 2^-128: the quotient is
    cut at the last bit, which is set when it is not exact, and rounded. *)
Definition getProbingProbability (rank rankSum nFaces : Z) : Z :=
  let a := (nFaces + 1 - rank)%Z in
  let q := (a * 2 ^ 127 / rankSum)%Z in
  fp_round 53 (2 * q + (if (q * rankSum =? a * 2 ^ 127)%Z then 0 else 1)).
Fixpoint chooseFace_loop (r rank rankSum nFaces offset : Z) (l : list (AsfFaceInfo * FacePtr)) : option FacePtr :=
  match l with
  | [] => None
  | x :: l =>
      let probability := getProbingProbability rank rankSum nFaces in
      if (r <=? fp_round 53 (offset + probability))%Z then Some x.2
      else chooseFace_loop r (rank + 1) rankSum nFaces (fp_round 53 (offset + probability)) l
  end.
Definition chooseFace (r : Z) (l : list (AsfFaceInfo * FacePtr)) : option FacePtr :=
  let n := Z.of_nat (length l) in chooseFace_loop r 1 ((n + 1) * n / 2) n 0 l.

Section asf.
Context `{Env} (params : AsfParams).

(** ** [AsfMeasurements] *)

(** The item of an entry, by its three parts. *)
Definition ns_get (n : Name) : M (gmap N AsfFaceInfo * bool * bool) :=
  o ← getMeasInfo n ASF_NAMESPACE_INFO;
  mret (match o with Some (AsfNamespaceInfo m d f) => (m, d, f) | _ => (∅, false, false) end).
Definition ns_put (n : Name) (m : gmap N AsfFaceInfo) (isProbingDue isFirstProbeScheduled : bool) : M unit :=
  putMeasInfo n ASF_NAMESPACE_INFO (AsfNamespaceInfo m isProbingDue isFirstProbeScheduled).
Definition getFaceInfo_at (n : Name) (faceId : N) : M (option AsfFaceInfo) := '(m, _, _) ← ns_get n; mret (m !! faceId).
(** A write through the pointer to the information of a face. *)
Definition update_faceInfo (n : Name) (faceId : N) (f : AsfFaceInfo -> AsfFaceInfo) : M unit :=
  '(m, d, fp) ← ns_get n; ns_put n (alter f faceId m) d fp.
Definition extendFaceInfoLifetime (n : Name) (faceId : N) : M unit :=
  now ← gets fw_now; update_faceInfo n faceId (fi_extend (now + ASF_MEASUREMENTS_LIFETIME)).
Definition getOrCreateFaceInfo_at (n : Name) (faceId : N) : M unit :=
  '(m, d, fp) ← ns_get n;
  match m !! faceId with
  | Some _ => mret tt
  | None => ns_put n (<[faceId := FaceInfo_new]> m) d fp;; extendFaceInfoLifetime n faceId
  end.

Definition getNamespaceInfo (self prefix : Name) : M (option Name) :=
  me ← acc_findLongestPrefixMatch self prefix;
  match me with
  | None => mret None
  | Some n =>
      acc_extendLifetime n ASF_MEASUREMENTS_LIFETIME;;
      insertMeasInfo n ASF_NAMESPACE_INFO (AsfNamespaceInfo ∅ false false);;
      mret (Some n)
  end.
(** The loop over prefixes of the Interest's name that are longer than the FIB entry's. *)
Fixpoint get_longer (self name : Name) (prefixLens : list nat) : M (option Name) :=
  match prefixLens with
  | [] => mret None
  | k :: ks =>
      me ← acc_get self (getPrefix name (Z.of_nat k));
      match me with Some n => mret (Some n) | None => get_longer self name ks end
  end.
Definition getOrCreateNamespaceInfo (self : Name) (fibEntry : FibEntry) (i : Interest) : M Name :=
  me ← acc_get_fib self fibEntry;
  let first := S (length (fe_prefix fibEntry)) in
  me ← (match me with Some n => mret (Some n) | None => get_longer self (i_name i) (seq first (S (length (i_name i)) - first)) end);
  match me with
  | None => fail (AssertionFailed AsfStrategy)
  | Some n =>
      acc_extendLifetime n ASF_MEASUREMENTS_LIFETIME;;
      insertMeasInfo n ASF_NAMESPACE_INFO (AsfNamespaceInfo ∅ false false);;
      mret n
  end.
Definition getFaceInfo (self : Name) (fibEntry : FibEntry) (i : Interest) (faceId : N) : M (option AsfFaceInfo) :=
  n ← getOrCreateNamespaceInfo self fibEntry i; getFaceInfo_at n faceId.

(** ** [ProbingModule] *)

Definition next_random : M N := n ← gets fw_nRandom; modify (fun s => with_nRandom (n + 1)%N s);; mret n.
Definition scheduleProbe (self : Name) (fibEntry : FibEntry) (interval : Z) : M unit :=
  now ← gets fw_now; o ← object_of self; schedule_event (now + interval * ms) o (CallProbe (fe_prefix fibEntry)).
Definition isProbingNeeded (self : Name) (fibEntry : FibEntry) (i : Interest) : M bool :=
  n ← getOrCreateNamespaceInfo self fibEntry i;
  '(_, _, isFirstProbeScheduled) ← ns_get n;
  (if isFirstProbeScheduled : bool then mret tt
   else k ← next_random;
        scheduleProbe self fibEntry (env_uniform k 5000);;
        '(m, d, _) ← ns_get n; ns_put n m d true);;
  '(_, isProbingDue, _) ← ns_get n; mret isProbingDue.
(** The loop of [getFaceToProbe]: a face without measurements, or the ranked ones. *)
Fixpoint rank_faces (self : Name) (inF : Face) (i : Interest) (fibEntry : FibEntry) (usedF : Face) (l : list NextHop)
    (ranked : list (AsfFaceInfo * FacePtr)) : M (FacePtr + list (AsfFaceInfo * FacePtr)) :=
  match l with
  | [] => mret (inr ranked)
  | hop :: l =>
      f ← the_face (nh_face hop);
      if (f_id f =? f_id inF)%N || (f_id f =? f_id usedF)%N || wouldViolateScope inF i f
      then rank_faces self inF i fibEntry usedF l ranked
      else
        info ← getFaceInfo self fibEntry i (f_id f);
        match info with
        | None => mret (inl (nh_face hop))
        | Some fi => if (fi_lastRtt fi =? RTT_NO_MEASUREMENT)%Z then mret (inl (nh_face hop))
                     else rank_faces self inF i fibEntry usedF l (ranked_insert (fi, nh_face hop) ranked)
        end
  end.
Definition getFaceToProbe (self : Name) (inFace : FacePtr) (i : Interest) (fibEntry : FibEntry) (faceUsed : FacePtr) : M (option FacePtr) :=
  inF ← the_face inFace;
  usedF ← the_face faceUsed;
  r ← rank_faces self inF i fibEntry usedF (fe_nextHops fibEntry) [];
  match r with
  | inl q => mret (Some q)
  | inr [] => mret None
  | inr ranked => k ← next_random;
                  match chooseFace (env_real k) ranked with
                  | Some q => mret (Some q)
                  | None => fail (AssertionFailed AsfStrategy)
                  end
  end.
Definition afterForwardingProbe (self : Name) (fibEntry : FibEntry) (i : Interest) : M unit :=
  n ← getOrCreateNamespaceInfo self fibEntry i;
  '(m, _, fp) ← ns_get n;
  ns_put n m false fp;;
  scheduleProbe self fibEntry (ap_probingInterval params).
(** The callback of [scheduleProbe]. *)
Definition probe_due (self prefix : Name) : M unit :=
  info ← getNamespaceInfo self prefix;
  match info with
  | None => mret tt
  | Some n => '(m, _, fp) ← ns_get n; ns_put n m true fp
  end.

(** ** [AsfStrategy] *)

Definition set_nonce (nonce : N) (i : Interest) : Interest :=
  mkInterest (i_name i) (i_canBePrefix i) (i_mustBeFresh i) nonce (i_lifetime i) (i_hopLimit i)
             (i_forwardingHint i) (i_incomingFaceId i) (i_nextHopFaceId i) (i_pitToken i).
Definition asf_forwardInterest (self : Name) (i : Interest) (outFace : FacePtr) (fibEntry : FibEntry) (p : PitPtr) (wantNewNonce : bool) : M unit :=
  outF ← the_face outFace;
  let faceId := f_id outF in
  (if wantNewNonce then k ← next_random; sendInterest p outFace (set_nonce (env_other_nonce k (i_nonce i)) i) else sendInterest p outFace i);;
  n ← getOrCreateNamespaceInfo self fibEntry i;
  getOrCreateFaceInfo_at n faceId;;
  n ← getOrCreateNamespaceInfo self fibEntry i;
  extendFaceInfoLifetime n faceId;;
  info ← getFaceInfo_at n faceId;
  match info with
  | Some fi =>
      match fi_timeoutEvent fi with
      | Some _ => mret tt
      | None =>
          now ← gets fw_now;
          o ← object_of self;
          match fi_scheduleTimeout now o (i_name i) fi with
          | Some fi' => update_faceInfo n faceId (fun _ => fi')
          | None => fail (AssertionFailed AsfStrategy)
          end
      end
  | None => mret tt
  end.

Definition sendProbe (self : Name) (i : Interest) (ingress faceToUse : FacePtr) (fibEntry : FibEntry) (p : PitPtr) : M unit :=
  needed ← isProbingNeeded self fibEntry i;
  if negb needed then mret tt
  else
    faceToProbe ← getFaceToProbe self ingress i fibEntry faceToUse;
    match faceToProbe with
    | None => mret tt
    | Some q => asf_forwardInterest self i q fibEntry p true;; afterForwardingProbe self fibEntry i
    end.

(** The loop of [getBestFaceForForwarding] over the nexthops. It leaves the PIT entry alone,
    which is read once. *)
Fixpoint rank_nextHops (self : Name) (inF : Face) (i : Interest) (fibEntry : FibEntry) (e : PitEntry) (now : time) (isInterestNew : bool) (l : list NextHop) : M (list FaceStats) :=
  match l with
  | [] => mret []
  | nh :: l =>
      f ← the_face (nh_face nh);
      if negb (isNextHopEligible inF i (nh_face nh) f e (negb isInterestNew) now)
      then rank_nextHops self inF i fibEntry e now isInterestNew l
      else
        info ← getFaceInfo self fibEntry i (f_id f);
        rest ← rank_nextHops self inF i fibEntry e now isInterestNew l;
        mret ((match info with
               | None => mkFaceStats (nh_face nh) RTT_NO_MEASUREMENT RTT_NO_MEASUREMENT (nh_cost nh)
               | Some fi => mkFaceStats (nh_face nh) (fi_lastRtt fi) (getSrtt fi) (nh_cost nh)
               end) :: rest)
  end.
Definition getBestFaceForForwarding (self : Name) (i : Interest) (inF : Face) (fibEntry : FibEntry) (e : PitEntry) (now : time) (isInterestNew : bool) : M (option FacePtr) :=
  l ← rank_nextHops self inF i fibEntry e now isInterestNew (fe_nextHops fibEntry);
  mret (fs_face <$> best_stats l None).

Definition sendNoRouteNack (q : FacePtr) (p : PitPtr) : M unit := sendNack p q NO_ROUTE;; rejectPendingInterest p.

Definition asf_afterReceiveInterest (ingress : FacePtr) (i : Interest) (p : PitPtr) : M unit :=
  self ← strategy_self p;
  suppressResult ← retx_perPitEntry p;
  match suppressResult with
  | RETX_SUPPRESS => mret tt
  | RETX_NEW =>
      fibEntry ← lookupFib p;
      if negb (hasNextHops fibEntry) then sendNoRouteNack ingress p
      else
        inF ← the_face ingress;
        e ← the_pit p;
        now ← gets fw_now;
        faceToUse ← getBestFaceForForwarding self i inF fibEntry e now true;
        match faceToUse with
        | Some q => asf_forwardInterest self i q fibEntry p false;; sendProbe self i ingress q fibEntry p
        | None => sendNoRouteNack ingress p
        end
  | RETX_FORWARD =>
      fibEntry ← lookupFib p;
      inF ← the_face ingress;
      e ← the_pit p;
      now ← gets fw_now;
      faceToUse ← getBestFaceForForwarding self i inF fibEntry e now false;
      match faceToUse with
      | Some q => asf_forwardInterest self i q fibEntry p false
      | None =>
          it ← find_earliest inF i now e (fe_nextHops fibEntry) None TIME_MAX;
          match it with
          | None => mret tt
          | Some nh => sendInterest p (nh_face nh) i;; mret tt
          end
      end
  end.

Definition asf_beforeSatisfyInterest (p : PitPtr) (ingress : FacePtr) (d : Data) : M unit :=
  self ← strategy_self p;
  e ← the_pit p;
  namespaceInfo ← getNamespaceInfo self (pe_name e);
  match namespaceInfo with
  | None => mret tt
  | Some n =>
      inF ← the_face ingress;
      faceInfo ← getFaceInfo_at n (f_id inF);
      match faceInfo with
      | None => mret tt
      | Some _ =>
          now ← gets fw_now;
          (match getOutRecord e ingress with
           | None => mret tt
           | Some r => update_faceInfo n (f_id inF) (fi_recordRtt (now - fr_lastRenewed (or_rec r)))
           end);;
          extendFaceInfoLifetime n (f_id inF);;
          Fw_setExpiryTimer p 50;;
          update_faceInfo n (f_id inF) (fi_cancelTimeout (d_name d))
      end
  end.

Definition onTimeoutOrNack (self interestName : Name) (faceId : N) (isNack : bool) : M unit :=
  namespaceInfo ← getNamespaceInfo self interestName;
  match namespaceInfo with
  | None => mret tt
  | Some n =>
      faceInfo ← getFaceInfo_at n faceId;
      match faceInfo with
      | None => mret tt
      | Some fi =>
          let nTimeouts := ((fi_nSilentTimeouts fi + 1) mod 2 ^ 64)%N in
          update_faceInfo n faceId (fi_setNSilentTimeouts nTimeouts);;
          if (nTimeouts <=? ap_nMaxSilentTimeouts params)%N && negb isNack then
            extendFaceInfoLifetime n faceId;; update_faceInfo n faceId (fi_cancelTimeout interestName)
          else update_faceInfo n faceId (fi_recordTimeout interestName)
      end
  end.
Definition asf_afterReceiveNack (ingress : FacePtr) (n : Nack) (p : PitPtr) : M unit :=
  self ← strategy_self p;
  e ← the_pit p;
  inF ← the_face ingress;
  onTimeoutOrNack self (pe_name e) (f_id inF) true.

Definition asf_onTimer (o : StrategyObject) (c : StrategyCall) : M unit :=
  match c with
  | CallAsfTimeout name faceId => onTimeoutOrNack o.1 name faceId false
  | CallProbe prefix => probe_due o.1 prefix
  | _ => mret tt
  end.
Definition asf_ops : StrategyOps :=
  derive_measuring asf_afterReceiveInterest asf_beforeSatisfyInterest asf_afterReceiveNack asf_onTimer.
End asf.
