(* ===== verification/MeasuringInv.v ===== *)
(** * The measuring strategies meet the contract

    Operations of the accessor change Measurements entries and the items on them and on PIT
    entries only; and a PIT entry always has a strategy in effect. With that, the access, NCC
    and ASF strategies keep the forwarder's invariant ([StrategyLaws]). *)

From S2P Require Import Prelude Name Packet FaceKeyed RttEstimator PitEntry FibEntry NodeStore NameTree NameTreeInv.
From S2P Require Import Tables Fib Pit Measurements StrategyRegistry StrategyChoice Cleanup Frames FaceTable.
From S2P Require Import ContentStore CsInv DeadNonceList RateControl Forwarder Accessor FwAlgorithm Strategy Actions StrategyInv.
From S2P Require Import AccessStrategy NccStrategy AsfStrategy.

(** ** The accessor *)

(** ** A pending entry has a strategy *)

Lemma effective_strategy_pit p e t :
  ts_ok t -> attached t p e -> findEffectiveStrategy_pit e t = findEffectiveStrategy (pe_name e) t.
Proof.
  intros Hok He. destruct (attached_node t p e Hok He) as [Hn Hp].
  unfold findEffectiveStrategy_pit, owner_pit, findEffectiveStrategy. rewrite Hn. simpl.
  rewrite lpm_pit_name; [done|by apply ts_tree|by eapply pits_at_node|].
  apply prefix_take. exists (pit_depth (pe_name e)). split; [apply pit_depth_le|done].
Qed.

Lemma strategy_at_uses on s inst : strategy_at on (fw_tables s) = Some inst -> uses inst.1 s.
Proof.
  unfold strategy_at. intros (n & -> & H)%bind_Some. rewrite nt_get_sc in H.
  apply fmap_Some in H as (e & He & ->). by exists n, e.
Qed.
Lemma effective_uses e s inst : findEffectiveStrategy_pit e (fw_tables s) = Some inst -> uses inst.1 s.
Proof. apply strategy_at_uses. Qed.

Lemma effective_name s n : fw_ok s -> is_Some (findEffectiveStrategy n (fw_tables s)).
Proof. intros Hs. eapply effective_is_Some. apply findEffectiveStrategy_ok; apply Hs. Qed.

Lemma effective_pit s p e :
  fw_ok s -> attached (fw_tables s) p e -> is_Some (findEffectiveStrategy_pit e (fw_tables s)).
Proof. intros Hs He. rewrite (effective_strategy_pit p); [by apply effective_name|apply Hs|done]. Qed.

(** ** The Measurements table only *)

Record meas_only (t t' : TableState) : Prop := {
  mo_ok : ts_ok t';
  mo_fib : fib_same t t';
  mo_sc : sc_same t t';
  mo_pit : ts_pit t' = ts_pit t;
  mo_grows : forall n, is_Some (meas_map (ts_nt t) !! n) -> is_Some (meas_map (ts_nt t') !! n);
}.
Lemma meas_only_refl t : ts_ok t -> meas_only t t.
Proof. by split. Qed.
Lemma meas_only_trans t1 t2 t3 : meas_only t1 t2 -> meas_only t2 t3 -> meas_only t1 t3.
Proof. intros [] []. split; [done|by etrans|by etrans|congruence|auto]. Qed.

Lemma lookup_meas_only name k t :
  ts_ok t -> (k <= length name)%nat -> (k <= getMaxDepth)%nat -> meas_only t (ts_lookup name k t).
Proof.
  intros Hok Hk Hd. assert (tbl_eq (ts_nt (ts_lookup name k t)) (ts_nt t)) as HE by (apply tbl_eq_lookup; [apply Hok|done..]).
  destruct (tbl_eq_same _ t HE) as [HF HS]. split; [by apply ts_ok_lookup|exact HF|exact HS|done|].
  intros n. by rewrite (meas_map_proper _ _ HE).
Qed.
Lemma lookup_node name k t :
  ts_ok t -> (k <= length name)%nat -> (k <= getMaxDepth)%nat -> is_Some (ts_nt (ts_lookup name k t) !! take k name).
Proof. intros Hok Hk Hd. by destruct (nt_lookup_ok name k (ts_nt t)) as (_ & _ & H & _); [apply Hok|..]. Qed.

Lemma meas_node_in m n e : meas_map m !! n = Some e -> is_Some (m !! n).
Proof. unfold meas_map. rewrite lookup_omap. by destruct (m !! n). Qed.

Lemma meas_modify_only f n t : (forall e, me_name (f e) = me_name e) -> ts_ok t -> meas_only t (meas_modify f n t).
Proof.
  intros Hf Hok. destruct (ts_nt t !! n) as [x|] eqn:Hx.
  - assert (is_Some (ts_nt t !! n)) as Hn by by exists x.
    destruct (meas_write_others (fmap f) n (ts_nt t)) as (H1 & H2 & H3).
    split; [|by split|by split|done|].
    + apply (ts_ok_meas_write (fmap f) n t Hn Hok). intros e (y & Hy & ->)%fmap_Some. rewrite Hf. by apply (ts_meas_ok _ Hok).
    + intros k Hk. unfold meas_modify, nte_modify. cbn [ts_nt set_nt ns_modify gmap_store].
      rewrite (meas_write_map (fmap f) n (ts_nt t) Hn). destruct (decide (n = k)) as [<-|].
      * rewrite lookup_partial_alter_eq. by apply fmap_is_Some.
      * by rewrite lookup_partial_alter_ne.
  - assert (meas_modify f n t = t) as ->; [|by apply meas_only_refl].
    unfold meas_modify, nte_modify. cbn [ns_modify gmap_store]. destruct t; cbn in *. unfold set_nt. cbn. f_equal.
    apply map_eq. intros k. rewrite lookup_alter. case_decide; [subst; by rewrite Hx|done].
Qed.

Lemma get_nte_rest now n t :
  sc_map (ts_nt (Meas_get_nte now n t)) = sc_map (ts_nt t) /\ ts_nFib (Meas_get_nte now n t) = ts_nFib t /\
  ts_nSc (Meas_get_nte now n t) = ts_nSc t /\ ts_pit (Meas_get_nte now n t) = ts_pit t.
Proof.
  unfold Meas_get_nte. destruct (nt_get (ts_nt t) n ≫= nte_meas); [done|]. split_and!; [|done..].
  by destruct (meas_write_others (fun _ => Some (new_meas now n)) n (ts_nt t)) as (_ & H & _).
Qed.
Lemma get_nte_only now n t :
  ts_ok t -> is_Some (ts_nt t !! n) ->
  meas_only t (Meas_get_nte now n t) /\ is_Some (meas_map (ts_nt (Meas_get_nte now n t)) !! n).
Proof.
  intros Hok Hn. destruct (Meas_get_nte_ok now n t Hok Hn) as (H1 & _ & _ & H4 & H5 & _).
  destruct (get_nte_rest now n t) as (R1 & R2 & R3 & R4). rewrite H4. split; [split; [done|by split|by split|done|]|].
  - intros k. rewrite H4. destruct (meas_map (ts_nt t) !! n); [done|]. intros Hk.
    destruct (decide (n = k)) as [<-|]; [by rewrite lookup_insert_eq|by rewrite lookup_insert_ne].
  - destruct (meas_map (ts_nt t) !! n) eqn:E; [by rewrite E|]. by rewrite lookup_insert_eq.
Qed.

Lemma fw_ok_meas s t : fw_ok s -> meas_only (fw_tables s) t -> fw_ok (with_tables t s).
Proof.
  intros [H1 H2 H3 H4 H5 H6 H7 H8 H9 H10 H11 H12] [M1 M2 M3 M4 M5]. split; simpl; try done.
  - by eapply fib_same_counted.
  - by eapply sc_same_counted.
  - by rewrite (proj1 M3).
  - intros n f nh. rewrite (proj1 M2). apply H10.
  - intros p e [Hp Hn]. rewrite M4 in Hp. by apply (H11 p).
  - intros p e [Hp Hn]. rewrite M4 in Hp. by apply (H12 p).
Qed.
Lemma evolves_meas s t : meas_only (fw_tables s) t -> evolves s (with_tables t s).
Proof.
  intros [M1 M2 M3 M4 M5]. split; simpl; try done; [apply M3|apply M2| |].
  - intros p e [Hp Hn]. exists e. split; [|done]. split; [by rewrite M4|done].
  - exists []. by rewrite app_nil_r.
Qed.

(** Reading the tables, when the next step is about just these. *)
Lemma keeps_the_tables {A} (P : Fw -> Prop) (k : TableState -> M A) Q :
  (forall t, keeps (fun s => P s /\ fw_tables s = t) (k t) Q) -> keeps P (t ← gets fw_tables; k t) Q.
Proof. intros Hk s Hs HP. by apply (Hk (fw_tables s) s Hs). Qed.

Lemma keeps_update_meas (P : Fw -> Prop) n f : (forall e, me_name (f e) = me_name e) -> keeps P (update_meas n f) (fun _ _ => True).
Proof.
  intros Hf. apply keeps_modify. intros s Hs _. pose proof (meas_modify_only f n (fw_tables s) Hf (fo_tables _ Hs)) as H.
  split; [by apply fw_ok_meas|by apply evolves_meas].
Qed.

(** ** The accessor *)

Definition found_measured (r : option Name) (s : Fw) : Prop := forall n, r = Some n -> measured n s.
#[export] Instance stable_found r : Stable (found_measured r).
Proof. intros s s' H1 H2 He H n ->. exact (stable (P:=measured n) s s' H1 H2 He (H n eq_refl)). Qed.

(** A change of the Measurements table, from the tables that were read, which gives an entry. *)
Lemma keeps_change_read {A} (P : Fw -> Prop) `{!Stable P} t0 t n (m : M A) Q :
  (forall s, fw_ok s -> P s -> fw_tables s = t0 -> meas_only t0 t /\ is_Some (meas_map (ts_nt t) !! n)) ->
  keeps (fun s => P s /\ measured n s) m Q -> keeps (fun s => P s /\ fw_tables s = t0) (modify (with_tables t);; m) Q.
Proof.
  intros Ht Hm s Hs [HP E]. destruct (Ht s Hs HP E) as [Hg Hn]. subst t0.
  pose proof (fw_ok_meas s _ Hs Hg) as H1. pose proof (evolves_meas s _ Hg) as H2.
  specialize (Hm (with_tables t s) H1 (conj (stable _ _ Hs H1 H2 HP) Hn)). unfold modify, mbind, M_bind.
  destruct (m (with_tables t s)) as [a s2|e]; [|by eapply may_fail_evolves]. destruct Hm as (? & ? & ?). split_and!; [done|by etrans|done].
Qed.

Lemma keeps_acc_filter (P : Fw -> Prop) self n :
  (forall s, P s -> measured n s) -> keeps P (acc_filter self n) found_measured.
Proof.
  intros Hn. apply keeps_the_tables. intros t. apply keeps_ret. intros s [HP _] k. case_bool_decide; [|done].
  intros [= <-]. auto.
Qed.

Lemma keeps_acc_get (P : Fw -> Prop) `{!Stable P} self name : keeps P (acc_get self name) found_measured.
Proof.
  apply keeps_then; [done|apply keeps_get|]. intros now. apply keeps_the_tables. intros t.
  unfold Meas_get. eapply keeps_change_read; [done| |by apply keeps_acc_filter; intros ? []].
  intros s Hs _ <-. pose proof (fo_tables _ Hs) as Hok.
  pose proof (lookup_meas_only name (Nat.min (length name) getMaxDepth) (fw_tables s) Hok) as H1.
  pose proof (lookup_node name (Nat.min (length name) getMaxDepth) (fw_tables s) Hok) as H2.
  destruct (get_nte_only now (meas_node name) (ts_lookup name (Nat.min (length name) getMaxDepth) (fw_tables s))) as [H3 H4];
    [apply H1; lia|apply H2; lia|]. split; [|done]. eapply meas_only_trans; [apply H1; lia|done].
Qed.

Lemma keeps_acc_get_fib (P : Fw -> Prop) `{!Stable P} self f :
  (length (fe_prefix f) <= getMaxDepth)%nat -> keeps P (acc_get_fib self f) found_measured.
Proof.
  intros Hd. apply keeps_then; [done|apply keeps_get|]. intros now. apply keeps_the_tables. intros t.
  unfold Meas_get_fib. eapply keeps_change_read; [done| |by apply keeps_acc_filter; intros ? []].
  intros s Hs _ <-. pose proof (fo_tables _ Hs) as Hok. case_bool_decide as Hf.
  - destruct Hf as [x Hx]. apply get_nte_only; [done|]. unfold fib_map in Hx. rewrite lookup_omap in Hx.
    by destruct (ts_nt (fw_tables s) !! fe_prefix f).
  - pose proof (lookup_meas_only (fe_prefix f) (length (fe_prefix f)) (fw_tables s) Hok (le_n _) Hd) as H1.
    pose proof (lookup_node (fe_prefix f) (length (fe_prefix f)) (fw_tables s) Hok (le_n _) Hd) as H2. rewrite firstn_all in H2.
    destruct (get_nte_only now (fe_prefix f) _ (mo_ok _ _ H1) H2) as [H3 H4]. split; [by eapply meas_only_trans|done].
Qed.

(** A PIT entry that is in the PIT has its node; reading it again gives the same. *)
Lemma attached_nte t p e : ts_ok t -> attached t p e -> exists n, pe_nte e = Some n /\ is_Some (ts_nt t !! n).
Proof.
  intros Hok He. destruct (attached_node t p e Hok He) as [Hn Hp]. exists (pit_node (pe_name e)). split; [done|].
  unfold pits_at in Hp. destruct (ts_nt t !! _); [by eexists|]. by apply not_elem_of_nil in Hp.
Qed.

Lemma keeps_acc_get_pit (P : Fw -> Prop) `{!Stable P} self p j :
  (forall s, P s -> pending p j s) -> keeps P (acc_get_pit self p) found_measured.
Proof.
  intros Hp s Hs HP. destruct (Hp s HP) as (e & He & _). destruct (attached_nte _ p e (fo_tables _ Hs) He) as (n & Hn & Hin).
  assert (exists t n', Meas_get_pit (fw_now s) e (fw_tables s) = Some (t, n') /\ meas_only (fw_tables s) t /\ is_Some (meas_map (ts_nt t) !! n'))
    as (t & n' & E & Ht).
  { unfold Meas_get_pit. destruct (hasDigest (pe_name e) && (length (pe_name e) <=? getMaxDepth)%nat) eqn:Ed.
    - apply andb_true_iff in Ed as [_ Hd%Nat.leb_le]. eexists _, _. split; [done|].
      pose proof (lookup_meas_only (pe_name e) (length (pe_name e)) (fw_tables s) (fo_tables _ Hs) (le_n _) Hd) as H1.
      pose proof (lookup_node (pe_name e) (length (pe_name e)) (fw_tables s) (fo_tables _ Hs) (le_n _) Hd) as H2. rewrite firstn_all in H2.
      destruct (get_nte_only (fw_now s) (pe_name e) _ (mo_ok _ _ H1) H2) as [H3 H4]. split; [by eapply meas_only_trans|done].
    - rewrite Hn. eexists _, _. split; [done|]. by apply get_nte_only; [apply Hs|]. }
  pose proof (keeps_change_read (fun _ => P s) (fw_tables s) t n' (acc_filter self n') found_measured) as HK.
  unfold acc_get_pit, the_pit, gets, mbind, M_bind. rewrite (proj1 He). cbn. rewrite E.
  apply HK; [done|apply keeps_acc_filter; by intros ? []|done|done].
Qed.

Lemma keeps_acc_getParent (P : Fw -> Prop) `{!Stable P} self n : keeps P (acc_getParent self n) found_measured.
Proof.
  apply keeps_then; [done|apply keeps_get|]. intros now. apply keeps_the_tables. intros t.
  destruct (Meas_getParent now n t) as [[t' k]|] eqn:E; [|by apply keeps_ret].
  eapply keeps_change_read; [done| |by apply keeps_acc_filter; intros ? []]. intros s Hs _ <-.
  unfold Meas_getParent in E. destruct n as [|c n]; [done|]. apply bind_Some in E as (x & Hx & [= <- <-]).
  apply bind_Some in Hx as (e & He & Hp). apply get_nte_only; [apply Hs|].
  rewrite nt_get_map in He. pose proof (ts_tree _ (fo_tables _ Hs)) as Ht.
  rewrite (ok_parent _ Ht _ _ He) in Hp. injection Hp as <-. apply (ok_up _ Ht); [by eexists|done].
Qed.

Lemma Meas_lpm_measured name t n : ts_ok t -> Meas_lpm name (fun _ => true) t = Some n -> is_Some (meas_map (ts_nt t) !! n).
Proof.
  intros Hok H. apply lpm_name_spec in H as (_ & (e & He & Hsel) & _); [|apply Hok]. unfold meas_pred in Hsel.
  unfold meas_map. rewrite lookup_omap, He. simpl. by destruct (nte_meas e).
Qed.
Lemma keeps_acc_lpm (P : Fw -> Prop) self name : keeps P (acc_findLongestPrefixMatch self name) found_measured.
Proof.
  intros s Hs HP. unfold acc_findLongestPrefixMatch, gets. unfold mbind at 1, M_bind.
  destruct (Meas_lpm name (fun _ => true) (fw_tables s)) as [n|] eqn:E; [|by apply (keeps_ret P)].
  apply (keeps_acc_filter (fun s' => measured n s')); [done|done|]. by apply Meas_lpm_measured in E; [|apply Hs].
Qed.
Lemma keeps_acc_lpm_pit (P : Fw -> Prop) `{!Stable P} self p j :
  (forall s, P s -> pending p j s) -> keeps P (acc_findLongestPrefixMatch_pit self p) found_measured.
Proof.
  intros Hp. keep_bind keeps_the_pit. intros e. apply (keeps_acc_lpm _ self (pe_name e)).
Qed.

Lemma keeps_acc_extendLifetime (P : Fw -> Prop) `{!Stable P} n lifetime : keeps P (acc_extendLifetime n lifetime) (fun _ _ => True).
Proof.
  apply keeps_then; [done|apply keeps_get|]. intros now. apply (keeps_update_meas P n). intros e. unfold extend_to. by case_match.
Qed.

(** ** Items *)

Lemma keeps_the_meas (P : Fw -> Prop) n : (forall s, P s -> measured n s) -> keeps P (the_meas n) (fun _ _ => True).
Proof.
  intros Hn s Hs HP. destruct (Hn s HP) as [e He]. unfold the_meas, gets, mbind, M_bind. rewrite He. by split_and!.
Qed.
Lemma keeps_getMeasInfo (P : Fw -> Prop) `{!Stable P} n id : (forall s, P s -> measured n s) -> keeps P (getMeasInfo n id) (fun _ _ => True).
Proof. intros Hn. keep_bind keeps_the_meas. intros e. by apply keeps_ret. Qed.
Lemma keeps_insertMeasInfo (P : Fw -> Prop) `{!Stable P} n id i : (forall s, P s -> measured n s) -> keeps P (insertMeasInfo n id i) (fun _ _ => True).
Proof.
  intros Hn. keep_bind keeps_the_meas. intros e. destruct (insertStrategyInfo id i (me_info e)) as [[x b] h].
  apply keeps_seq; [apply _|by apply keeps_update_meas|by apply keeps_ret].
Qed.
Lemma keeps_putMeasInfo (P : Fw -> Prop) `{!Stable P} n id i : (forall s, P s -> measured n s) -> keeps P (putMeasInfo n id i) (fun _ _ => True).
Proof. intros Hn. keep_bind keeps_the_meas. intros e. by apply keeps_update_meas. Qed.

Lemma keeps_getPitInfo (P : Fw -> Prop) `{!Stable P} p id j : (forall s, P s -> pending p j s) -> keeps P (getPitInfo p id) (fun _ _ => True).
Proof. intros Hp. keep_bind keeps_the_pit. intros e. by apply keeps_ret. Qed.
Lemma keeps_insertPitInfo (P : Fw -> Prop) `{!Stable P} p id i j : (forall s, P s -> pending p j s) -> keeps P (insertPitInfo p id i) (fun _ _ => True).
Proof.
  intros Hp. keep_bind keeps_the_pit. intros e. destruct (insertStrategyInfo id i (pe_info e)) as [[x b] h].
  apply keeps_seq; [apply _|apply keeps_update_pit; intros; apply step_info|by apply keeps_ret].
Qed.
Lemma step_info_by s p g : entry_step s p (fun e => set_pe_info (g e) e).
Proof. split; [done|intros e _; apply wf_set_pe_info|done]. Qed.
Lemma keeps_putPitInfo (P : Fw -> Prop) `{!Stable P} p id i j : (forall s, P s -> pending p j s) -> keeps P (putPitInfo p id i) (fun _ _ => True).
Proof. intros Hp. keep_bind keeps_the_pit. intros e. apply keeps_update_pit. intros. apply step_info_by. Qed.

(** ** The rest *)

Lemma keeps_strategy_self (P : Fw -> Prop) `{!Stable P} p j : (forall s, P s -> pending p j s) -> keeps P (strategy_self p) (fun _ _ => True).
Proof.
  intros Hp s Hs HP. destruct (Hp s HP) as (e & He & _). unfold strategy_self, the_pit, gets, mbind, M_bind. rewrite (proj1 He). cbn.
  destruct (effective_pit s p e Hs He) as [inst E]. unfold findEffectiveStrategy_pit, strategy_at in E.
  apply bind_Some in E as (n & -> & _). by split_and!.
Qed.
Lemma keeps_object_of (P : Fw -> Prop) `{!Stable P} self : keeps P (object_of self) (fun _ _ => True).
Proof. apply keeps_then; [done|apply keeps_get|]. intros g. by apply keeps_ret. Qed.
Lemma keeps_weak_face (P : Fw -> Prop) `{!Stable P} q : keeps P (weak_face q) (fun _ _ => True).
Proof. apply keeps_then; [done|apply keeps_get|]. intros g. by apply keeps_ret. Qed.
(** A face that is locked is an object. *)
Lemma keeps_lock_face (P : Fw -> Prop) w : keeps P (lock_face w) (fun r s => forall q, r = Some q -> live q s).
Proof.
  intros s Hs HP. destruct w as [[q k]|]; [|by apply (keeps_ret P)]. unfold lock_face, gets, mbind, M_bind, mret, M_ret. cbn.
  split_and!; [done|reflexivity|]. intros r. destruct (_ =? k)%N; [|done]. destruct (ft_heap (fw_faces s) !! q) eqn:E; [|done].
  intros [= <-]. by eexists.
Qed.
(** An entry that is locked is in the PIT. *)
Lemma keeps_lock_pit (P : Fw -> Prop) p :
  keeps P (lock_pit p) (fun r s => forall e, r = Some e -> pending p (pe_interest e) s /\ entry_faces e s /\ wf_entry e).
Proof.
  intros s Hs HP. unfold lock_pit, gets, mbind, M_bind, mret, M_ret. cbn. split_and!; [done|reflexivity|]. intros e.
  destruct (ts_pit (fw_tables s) !! p) as [x|] eqn:E; [|done]. destruct (pe_nte x) eqn:En; [|done]. intros [= <-].
  assert (attached (fw_tables s) p x) as Ha by (split; [done|by rewrite En]). split_and!.
  - by exists x.
  - by apply (fo_records _ Hs p).
  - by eapply ts_pit_wf; [apply Hs|].
Qed.
Lemma keeps_strategy_state (P : Fw -> Prop) f :
  (forall x, ss_replaced (f x) = ss_replaced x) -> keeps P (modify (fun s => with_strategy (f (fw_strategy s)) s)) (fun _ _ => True).
Proof.
  intros Hf. apply keeps_modify. intros s Hs _. split; [by apply (fw_ok_same s); [..|apply Hs|]|]. apply evolves_quiet; try done. apply Hf.
Qed.
Lemma keeps_schedule_event (P : Fw -> Prop) t o c : keeps P (schedule_event t o c) (fun _ _ => True).
Proof. by apply (keeps_strategy_state P (fun x => mkStrategyState (ss_events x ++ [(t, o, c)]) (ss_fit x) (ss_freed x) (ss_replaced x))). Qed.
Lemma keeps_clear_timer (P : Fw -> Prop) src : keeps P (clear_timer src) (fun _ _ => True).
Proof.
  destruct src; try (apply keeps_update_pit; intros; apply step_info_by); [by apply keeps_update_meas|].
  by apply (keeps_strategy_state P (fun x => mkStrategyState (delete k (ss_events x)) (ss_fit x) (ss_freed x) (ss_replaced x))).
Qed.

(** ** The access strategy *)

Section access.
Context {Henv : Env}.

(** ** Strategies that override [beforeSatisfyInterest] *)

Definition ready (T : StrategyType) (q : FacePtr) (p : PitPtr) (j : Interest) (s : Fw) : Prop :=
  (intab q s /\ pending p j s) /\ uses T s.
#[export] Instance stable_ready T q p j : Stable (ready T q p j).
Proof. apply stable_and; apply _. Qed.
Lemma ready_intab T q p j s : ready T q p j s -> intab q s.
Proof. by intros [[? _] _]. Qed.
Lemma ready_live T q p j s : ready T q p j s -> live q s.
Proof. intros [[? _] _]. by apply intab_live. Qed.
Lemma ready_pending T q p j s : ready T q p j s -> pending p j s.
Proof. by intros [[_ ?] _]. Qed.
Lemma ready_uses T q p j s : ready T q p j s -> uses T s.
Proof. by intros [_ ?]. Qed.

Lemma derive_measuring_laws T fi fb fn ft :
  (forall q i p j, same_request i j -> keeps (ready T q p j) (fi q i p) (fun _ _ => True)) ->
  (forall p q d j, keeps (ready T q p j) (fb p q d) (fun _ _ => True)) ->
  (forall q n p j, keeps (ready T q p j) (fn q n p) (fun _ _ => True)) ->
  (forall o c, keeps (uses T) (ft o c) (fun _ _ => True)) ->
  StrategyLaws T (derive_measuring fi fb fn ft).
Proof.
  intros Hi Hb Hn Ht. split; simpl; intros.
  - by apply Hi.
  - apply Hb.
  - apply keeps_void; [apply _|]. apply keeps_sendData with j; [apply _|by intros s [[] _]|done|]. intros s [[? _] _]. by apply intab_live.
  - apply keeps_seq; [apply _|apply (Hb p ingress d j)|]. apply keeps_sendDataToAll with j; [apply _|by intros s [[] _]|done|].
    intros s [[? _] _]. by apply intab_live.
  - apply Hn.
  - apply keeps_done.
  - apply keeps_done.
  - apply Ht.
Qed.

(** ** Common steps *)

Lemma keeps_getFace (P : Fw -> Prop) id : keeps P (getFace id) (fun r s => forall q, r = Some q -> intab q s).
Proof.
  intros s Hs HP. unfold getFace, gets, mbind, M_bind, mret, M_ret. split_and!; [done|reflexivity|].
  intros q Hq. apply in_table_spec; [apply Hs|]. by exists id.
Qed.
Lemma keeps_fails {A} (P : Fw -> Prop) T Q : measuring T = true -> (forall s, P s -> uses T s) -> keeps P (@fail A (AssertionFailed T)) Q.
Proof. intros HT HP s Hs Ps. split; auto. Qed.

Lemma keeps_multicast_loop inFace inF i p ex l : forall (P : Fw -> Prop) `{!Stable P} j n,
  (forall s, P s -> pending p j s) -> same_request i j -> (forall s, P s -> hops_in_table l s) ->
  keeps P (access_multicast_loop inFace inF i p l ex n) (fun _ _ => True).
Proof.
  induction l as [|nh l IH]; intros P HS j n Hp Hr Hl; simpl; [by apply keeps_ret|].
  assert (forall s, P s -> hops_in_table l s) as Hl' by (intros s HP x Hx; apply Hl; [done|by right]).
  assert (forall s, P s -> intab (nh_face nh) s) as Hn by (intros s HP; apply Hl; [done|by left]).
  keep_bind keeps_the_face. intros f. apply keeps_if; intros Hc; [by eapply IH; [apply _|keep_side|done|keep_side]|].
  apply orb_false_iff in Hc as [_ Hc].
  apply keeps_then; [apply _| |intros b; by eapply IH; [apply _|keep_side|done|keep_side]].
  eapply keeps_sendInterest; [apply _|keep_side|done|keep_side|]. intros s [_ Hf]. by eapply scope_may_send.
Qed.
Lemma keeps_access_multicast (P : Fw -> Prop) `{!Stable P} q i p fib ex j :
  (forall s, P s -> pending p j s) -> same_request i j -> (forall s, P s -> live q s) -> (forall s, P s -> hops_in_table (fe_nextHops fib) s) ->
  keeps P (access_multicast q i p fib ex) (fun _ _ => True).
Proof. intros Hp Hr Hq Hl. keep_bind keeps_the_face. intros f. eapply keeps_multicast_loop; [apply _|keep_side|done|keep_side]. Qed.
#[local] Hint Resolve ready_intab ready_live ready_pending ready_uses : ndn.

(** The Interest of an in-record is for the request of its entry. *)
Lemma keeps_recorded {A} (P : Fw -> Prop) (p : PitPtr) e q r i (m : M A) Q :
  (forall s, P s -> wf_entry e) -> getInRecord e q = Some r -> ir_interest r = Some i ->
  (same_request i (pe_interest e) -> keeps P m Q) -> keeps P m Q.
Proof.
  intros Hw Hr Hi Hm s Hs HP. apply Hm; [|done..]. destruct (Hw s HP) as [_ _ H]. apply getInRecord_elem in Hr as [Hr _].
  eapply Forall_forall in H; [|exact Hr]. destruct H as (x & Hx & H). by simplify_eq.
Qed.

(** ** The triggers *)

Lemma keeps_sendToLastNexthop (P : Fw -> Prop) `{!Stable P} self q i p n rtt fib j :
  (forall s, P s -> pending p j s) -> same_request i j -> (forall s, P s -> live q s) ->
  keeps P (sendToLastNexthop self q i p n rtt fib) (fun _ _ => True).
Proof.
  intros Hp Hr Hq. apply keeps_if; intros _; [by apply keeps_ret|]. keep_bind keeps_the_face. intros inF.
  apply keeps_if; intros _; [by apply keeps_ret|]. eapply keeps_bind; [apply _|apply keeps_getFace|]. intros [out|]; [|by apply keeps_ret].
  apply keeps_if; intros _; [by apply keeps_ret|]. keep_bind keeps_the_face. intros outF.
  apply keeps_if; intros Hv; [by apply keeps_ret|].
  apply keeps_then; [apply _| |].
  { eapply keeps_sendInterest; [apply _|keep_side|done|keep_side|]. intros s HP. keep_facts. by eapply scope_may_send. }
  intros sent. apply keeps_if; intros _; [by apply keeps_ret|].
  apply keeps_then; [apply _|eapply keeps_insertPitInfo; [apply _|keep_side]|]. intros _.
  apply keeps_then; [apply _|apply keeps_get|]. intros now. apply keeps_then; [apply _|apply keeps_object_of; apply _|]. intros obj.
  apply keeps_seq; [apply _|eapply keeps_putPitInfo; [apply _|keep_side]|by apply keeps_ret].
Qed.

Lemma keeps_findPrefixMeasurements (P : Fw -> Prop) `{!Stable P} self p j :
  (forall s, P s -> pending p j s) -> keeps P (findPrefixMeasurements self p) (fun _ _ => True).
Proof.
  intros Hp. eapply keeps_bind; [apply _|by eapply keeps_acc_lpm_pit|]. intros [n|]; [|by apply keeps_ret].
  apply keeps_then; [apply _|apply keeps_getMeasInfo; [apply _|intros s [_ H]; by apply H]|]. intros mi. by apply keeps_ret.
Qed.
Lemma keeps_addPrefixMeasurements (P : Fw -> Prop) `{!Stable P} self d :
  (forall s, P s -> uses AccessStrategy s) -> keeps P (addPrefixMeasurements self d) (fun n s => measured n s).
Proof.
  intros HU. eapply keeps_bind; [apply _| |].
  { instantiate (1 := found_measured). destruct (d_name d); [by apply keeps_ret|by apply keeps_acc_get]. }
  intros r. eapply keeps_bind; [apply _| |].
  { instantiate (1 := found_measured). destruct r as [n|]; [apply keeps_ret; by intros s []|apply keeps_acc_get, _]. }
  intros [n|]; [|apply keeps_fails; [done|keep_side]].
  apply keeps_seq; [apply _|apply keeps_acc_extendLifetime, _|].
  apply keeps_then; [apply _|apply keeps_insertMeasInfo; [apply _|intros s [_ H]; by apply H]|]. intros _.
  apply keeps_ret. intros s [_ H]. by apply H.
Qed.

Lemma access_interest q i p j : same_request i j ->
  keeps (ready AccessStrategy q p j) (access_afterReceiveInterest q i p) (fun _ _ => True).
Proof.
  intros Hr. keep_bind keeps_the_pit. intros e. apply keeps_then; [apply _|apply keeps_get|]. intros now.
  unfold fixed_decidePerPitEntry. destruct (hasPendingOutRecords now e) eqn:Ep; cbn [negb].
  - destruct (pending_last_outgoing now e Ep) as [t ->]. cbn. destruct (now - t <? DEFAULT_MIN_RETX_INTERVAL * ms)%Z; [apply keeps_done|].
    eapply keeps_bind; [apply _|eapply keeps_lookupFib; [apply _|keep_side]|]. intros fib.
    apply keeps_void; [apply _|]. eapply keeps_access_multicast; [apply _|keep_side|done|keep_side..].
  - apply keeps_then; [apply _|eapply keeps_strategy_self; [apply _|keep_side]|]. intros self.
    eapply keeps_bind; [apply _|eapply keeps_lookupFib; [apply _|keep_side]|]. intros fib.
    apply keeps_then; [apply _|eapply keeps_findPrefixMeasurements; [apply _|keep_side]|]. intros mi.
    apply keeps_then; [apply _| |].
    { destruct mi as [[n rtt]|]; [eapply keeps_sendToLastNexthop; [apply _|keep_side|done|keep_side..]|by apply keeps_ret]. }
    intros b. apply keeps_if; intros _; [apply keeps_done|].
    apply keeps_then; [apply _|eapply keeps_access_multicast; [apply _|keep_side|done|keep_side..]|]. intros n.
    apply keeps_if; intros _; [apply keeps_reject, _|apply keeps_done].
Qed.

Lemma keeps_fit_measure (P : Fw -> Prop) `{!Stable P} self id rtt : keeps P (fit_measure self id rtt) (fun _ _ => True).
Proof.
  apply keeps_then; [apply _|apply keeps_get|]. intros fit. apply keeps_seq; [apply _| |by apply keeps_ret].
  by apply (keeps_strategy_state P (fun x => mkStrategyState (ss_events x) (<[self := <[id := addMeasurement rtt (default RttEstimator_new (fit !! id))]> fit]> (ss_fit x)) (ss_freed x) (ss_replaced x))).
Qed.
Lemma access_before p q d j : keeps (ready AccessStrategy q p j) (access_beforeSatisfyInterest p q d) (fun _ _ => True).
Proof.
  apply keeps_then; [apply _|eapply keeps_getPitInfo; [apply _|keep_side]|]. intros pi.
  apply keeps_seq; [apply _|destruct pi; [eapply keeps_putPitInfo; [apply _|keep_side]|apply keeps_done]|].
  keep_bind keeps_the_pit. intros e. apply keeps_if; intros _; [apply keeps_done|]. destruct (getOutRecord e q) as [r|]; [|apply keeps_done].
  apply keeps_then; [apply _|eapply keeps_strategy_self; [apply _|keep_side]|]. intros self.
  apply keeps_then; [apply _|apply keeps_get|]. intros now.
  keep_bind keeps_the_face. intros inF. apply keeps_then; [apply _|apply keeps_fit_measure, _|]. intros fi.
  eapply keeps_bind; [apply _|apply keeps_addPrefixMeasurements; [apply _|keep_side]|]. intros n.
  apply keeps_then; [apply _|apply keeps_getMeasInfo; [apply _|by intros s []]|]. intros mi.
  destruct mi as [[]|]; try apply keeps_done. apply keeps_putMeasInfo; [apply _|by intros s []].
Qed.

Lemma access_timer o c : keeps (uses AccessStrategy) (access_onTimer o c) (fun _ _ => True).
Proof.
  destruct c as [p inFace first| | | |]; try apply keeps_done. eapply keeps_bind; [apply _|apply keeps_lock_pit|].
  intros [e|]; [|apply keeps_fails; [done|by intros s []]].
  eapply keeps_weaken with (P' := fun s => (uses AccessStrategy s /\ wf_entry e) /\ entry_faces e s /\ pending p (pe_interest e) s); [|by naive_solver|done].
  eapply keeps_bind; [apply _|apply keeps_getFace|]. intros [q|]; [|apply keeps_done].
  destruct (getInRecord e q) as [r|] eqn:Er; [|apply keeps_fails; [done|keep_side]].
  destruct (ir_interest r) as [i|] eqn:Ei.
  - apply (keeps_recorded _ p e q r i); [keep_side|done|done|]. intros Hr. eapply keeps_bind; [apply _|eapply keeps_lookupFib; [apply _|keep_side]|]. intros fib. apply keeps_void; [apply _|].
    eapply keeps_access_multicast; [apply _|keep_side|done| |keep_side].
    intros s HP. keep_facts. apply intab_live; auto.
  - intros s Hs HP. keep_facts. destruct (in_record_interest e q r) as (x & ?); [done..|congruence].
Qed.

#[global] Instance access_laws : StrategyLaws AccessStrategy access_ops.
Proof. apply derive_measuring_laws; [apply access_interest|apply access_before| |apply access_timer]. intros. apply keeps_done. Qed.
End access.
#[export] Hint Resolve ready_intab ready_live ready_pending ready_uses : ndn.

(** ** The NCC strategy *)

Section ncc.
Context {Henv : Env}.

Lemma keeps_forget {A} (P : Fw -> Prop) (m : M A) Q : keeps P m Q -> keeps P m (fun _ _ => True).
Proof. intros H. by eapply keeps_weaken; [exact H|..]. Qed.

Lemma keeps_ncc_get (P : Fw -> Prop) `{!Stable P} n : (forall s, P s -> measured n s) -> keeps P (ncc_get n) (fun _ _ => True).
Proof. intros Hn. apply keeps_then; [done|by apply keeps_getMeasInfo|]. intros o. by apply keeps_ret. Qed.
Lemma keeps_ncc_put (P : Fw -> Prop) `{!Stable P} n x : (forall s, P s -> measured n s) -> keeps P (ncc_put n x) (fun _ _ => True).
Proof. by apply keeps_putMeasInfo. Qed.

(** A face that is used is live; whether it is in the table shows when it is a nexthop. *)
Definition live_face (o : option FacePtr) (s : Fw) : Prop := forall q, o = Some q -> live q s.
#[local] Instance stable_live_face o : Stable (live_face o).
Proof. apply stable_forall. intros q. apply stable_impl, _. Qed.

Lemma keeps_ncc_getBestFace (P : Fw -> Prop) `{!Stable P} n : (forall s, P s -> measured n s) -> keeps P (getBestFace n) live_face.
Proof.
  intros Hn. apply keeps_then; [done|by apply keeps_ncc_get|]. intros x.
  eapply keeps_bind; [done|apply keeps_lock_face|]. intros best. change (fun s => P s /\ _) with (fun s => P s /\ live_face best s).
  destruct best as [q|]; [apply keeps_ret; by intros s []|].
  eapply keeps_bind; [apply _|apply keeps_lock_face|]. intros prev. change (fun s => (P s /\ live_face None s) /\ _) with (fun s => (P s /\ live_face None s) /\ live_face prev s).
  apply keeps_then; [apply _| |].
  { destruct prev as [q|]; [|by apply keeps_ret]. apply keeps_then; [apply _|apply keeps_weak_face, _|]. intros w. by apply keeps_ret. }
  intros w. apply keeps_seq; [apply _|apply keeps_ncc_put; [apply _|keep_side]|]. apply keeps_ret. by intros s [].
Qed.
Lemma keeps_updateBestFace (P : Fw -> Prop) `{!Stable P} n q : (forall s, P s -> measured n s) -> keeps P (updateBestFace n q) (fun _ _ => True).
Proof.
  intros Hn. apply keeps_then; [done|by apply keeps_ncc_get|]. intros x.
  apply keeps_then; [done|eapply keeps_forget, keeps_lock_face|]. intros best.
  assert (forall w, keeps P (w' ← weak_face q; ncc_put n (w w')) (fun _ _ => True)) as Hw.
  { intros w. apply keeps_then; [done|by apply keeps_weak_face|]. intros w'. by apply keeps_ncc_put. }
  destruct best as [q'|]; [|apply (Hw (fun w => _))]. apply keeps_if; intros _; [by apply keeps_ncc_put|apply (Hw (fun w => _))].
Qed.

Lemma keeps_entry_info fuel self : forall n (P : Fw -> Prop), Stable P -> (forall s, P s -> measured n s) ->
  keeps P (getMeasurementsEntryInfo_entry fuel self n) (fun _ _ => True).
Proof.
  induction fuel as [|fuel IH]; intros n P HS Hn; cbn [getMeasurementsEntryInfo_entry];
    (apply keeps_then; [done|by apply keeps_insertMeasInfo|]); intros [i isNew]; (apply keeps_if; intros _; [apply keeps_done|]).
  - apply keeps_done.
  - eapply keeps_bind; [done|by apply keeps_acc_getParent|]. intros [parent|]; [|apply keeps_done].
    assert (forall s, P s /\ found_measured (Some parent) s -> measured parent s) as Hp by (intros s [_ H]; by apply H).
    apply keeps_seq; [apply _|apply IH; [apply _|done]|].
    apply keeps_then; [apply _|apply keeps_ncc_get; [apply _|done]|]. intros x. apply keeps_ncc_put; [apply _|keep_side].
Qed.
Lemma keeps_measurementsEntryInfo (P : Fw -> Prop) `{!Stable P} self me :
  (forall s, P s -> found_measured me s) -> (forall s, P s -> uses NccStrategy s) ->
  keeps P (getMeasurementsEntryInfo self me) (fun n s => measured n s).
Proof.
  intros Hm HU. destruct me as [n|]; [|by apply keeps_fails].
  assert (forall s, P s -> measured n s) as Hn by (intros s HP; by apply (Hm s HP)).
  apply keeps_seq; [done|by apply keeps_entry_info|]. by apply keeps_ret.
Qed.
Lemma keeps_measurementsEntryInfo_pit (P : Fw -> Prop) `{!Stable P} self p j :
  (forall s, P s -> pending p j s) -> (forall s, P s -> uses NccStrategy s) ->
  keeps P (getMeasurementsEntryInfo_pit self p) (fun n s => measured n s).
Proof.
  intros Hp HU. eapply keeps_bind; [done|by eapply keeps_acc_get_pit|]. intros me. apply keeps_measurementsEntryInfo; [apply _|by intros s []|keep_side].
Qed.

(** ** Timers *)

Lemma keeps_ncc_pit_get (P : Fw -> Prop) `{!Stable P} p j : (forall s, P s -> pending p j s) -> keeps P (ncc_pit_get p) (fun _ _ => True).
Proof. intros Hp. apply keeps_then; [done|by eapply keeps_getPitInfo|]. intros o. by apply keeps_ret. Qed.
Lemma keeps_set_bestFaceTimeout (P : Fw -> Prop) `{!Stable P} p x j : (forall s, P s -> pending p j s) -> keeps P (set_bestFaceTimeout p x) (fun _ _ => True).
Proof.
  intros Hp. apply keeps_then; [done|by eapply keeps_ncc_pit_get|]. intros [[b t] m].
  apply keeps_seq; [done|destruct b as [[]|]; [apply keeps_schedule_event|apply keeps_done]|by eapply keeps_putPitInfo].
Qed.
Lemma keeps_set_propagateTimer (P : Fw -> Prop) `{!Stable P} p x j : (forall s, P s -> pending p j s) -> keeps P (set_propagateTimer p x) (fun _ _ => True).
Proof.
  intros Hp. apply keeps_then; [done|by eapply keeps_ncc_pit_get|]. intros [[b t] m].
  apply keeps_seq; [done|destruct t as [[[] ?]|]; [apply keeps_schedule_event|apply keeps_done]|by eapply keeps_putPitInfo].
Qed.
Lemma keeps_set_maxInterval (P : Fw -> Prop) `{!Stable P} p x j : (forall s, P s -> pending p j s) -> keeps P (set_maxInterval p x) (fun _ _ => True).
Proof. intros Hp. apply keeps_then; [done|by eapply keeps_ncc_pit_get|]. intros [[b t] m]. by eapply keeps_putPitInfo. Qed.

(** ** Faces *)

Definition good_face (i : Interest) (o : option FacePtr) (s : Fw) : Prop := forall q, o = Some q -> intab q s /\ may_send q i s.
#[local] Instance stable_good_face i o : Stable (good_face i o).
Proof. apply stable_forall. intros q. apply stable_impl. apply stable_and; apply _. Qed.

Lemma hop_intab fib q s : hops_in_table (fe_nextHops fib) s -> hasNextHop fib q = true -> intab q s.
Proof. intros Hh [nh [-> Hnh]]%hasNextHop_spec%list_elem_of_fmap. by apply Hh. Qed.
Lemma keeps_can_use (P : Fw -> Prop) `{!Stable P} fib inF i p o j :
  (forall s, P s -> pending p j s) -> (forall s, P s -> hops_in_table (fe_nextHops fib) s) -> keeps P (can_use fib inF i p o) (good_face i).
Proof.
  intros Hp Hl. destruct o as [q|]; [|by apply keeps_ret]. apply keeps_if; intros Hq; [by apply keeps_ret|]. apply negb_false_iff in Hq.
  assert (forall s, P s -> intab q s) as Hi by (intros s HP; eapply hop_intab; eauto).
  keep_bind keeps_the_face. intros f. apply keeps_if; intros Hv; [by apply keeps_ret|].
  keep_bind keeps_the_pit. intros e. apply keeps_then; [apply _|apply keeps_get|]. intros now. apply keeps_ret.
  intros s HP. keep_facts. case_match; [|done]. intros q' [= <-]. split; [auto|by eapply scope_may_send].
Qed.
Lemma keeps_find_forwardable (P : Fw -> Prop) `{!Stable P} inF i p l j :
  (forall s, P s -> pending p j s) -> (forall s, P s -> hops_in_table l s) -> keeps P (find_forwardable inF i p l) (good_hop i).
Proof.
  intros Hp Hl. keep_bind keeps_the_pit. intros e. apply keeps_then; [apply _|apply keeps_get|]. intros now.
  apply keeps_find_good; [apply _|keep_side|]. intros q f [H _]%andb_true_iff. exists inF. by apply negb_true_iff in H.
Qed.
#[local] Instance stable_good_hop' i o : Stable (good_hop i o).
Proof. apply stable_forall. intros q. apply stable_impl. apply stable_and; apply _. Qed.
Lemma keeps_send_face (P : Fw -> Prop) `{!Stable P} p q i j :
  (forall s, P s -> pending p j s) -> same_request i j -> (forall s, P s -> good_face i (Some q) s) ->
  keeps P (sendInterest p q i) (fun _ _ => True).
Proof. intros Hp Hr Hg. apply keeps_sendInterest with j; [done|done|done|..]; intros s HP; by apply (Hg s HP). Qed.

Lemma ncc_interest q i p j : same_request i j -> keeps (ready NccStrategy q p j) (ncc_afterReceiveInterest q i p) (fun _ _ => True).
Proof.
  intros Hr.
  eapply keeps_bind; [apply _|eapply keeps_lookupFib; [apply _|keep_side]|]. intros fib.
  apply keeps_if; intros _; [apply keeps_reject, _|].
  apply keeps_then; [apply _|eapply keeps_insertPitInfo; [apply _|keep_side]|]. intros _.
  keep_bind keeps_the_pit. intros e. apply keeps_then; [apply _|apply keeps_get|]. intros now.
  apply keeps_if; intros _; [apply keeps_done|].
  apply keeps_then; [apply _|eapply keeps_strategy_self; [apply _|keep_side]|]. intros self.
  eapply keeps_bind; [apply _|eapply keeps_measurementsEntryInfo_pit; [apply _|keep_side|keep_side]|]. intros me.
  keep_bind keeps_the_face. intros inF. apply keeps_then; [apply _|apply keeps_object_of, _|]. intros obj.
  apply keeps_then; [apply _|eapply keeps_forget, keeps_ncc_getBestFace; [apply _|keep_side]|]. intros best.
  eapply keeps_bind; [apply _|eapply keeps_can_use; [apply _|keep_side|keep_side]|]. intros usable.
  apply keeps_then; [apply _| |].
  - destruct usable as [bf|].
    + apply keeps_seq; [apply _|eapply keeps_send_face; [apply _|keep_side|done|by intros s []]|].
      apply keeps_then; [apply _|apply keeps_ncc_get; [apply _|keep_side]|]. intros x.
      apply keeps_seq; [apply _|eapply keeps_set_bestFaceTimeout; [apply _|keep_side]|by apply keeps_ret].
    + eapply keeps_bind; [apply _|eapply keeps_find_forwardable; [apply _|keep_side|keep_side]|]. intros [nh|].
      * apply keeps_seq; [apply _| |by apply keeps_ret]. eapply keeps_sendInterest; [apply _|keep_side|done|..]; intros s [_ Hg]; by apply Hg.
      * apply keeps_seq; [apply _|apply keeps_reject, _|by apply keeps_ret].
  - intros [[[dfirst drange] nup]|]; [|apply keeps_done].
    apply keeps_then; [apply _|apply keeps_ncc_get; [apply _|keep_side]|]. intros x.
    apply keeps_then; [apply _|eapply keeps_forget, keeps_lock_face|]. intros prev.
    apply keeps_then; [apply _|eapply keeps_forget, keeps_can_use; [apply _|keep_side|keep_side]|]. intros us'.
    apply keeps_seq; [apply _|eapply keeps_set_maxInterval; [apply _|keep_side]|].
    eapply keeps_set_propagateTimer; [apply _|keep_side].
Qed.

Lemma ncc_propagate o p inFaceId : keeps (uses NccStrategy) (doPropagate o p inFaceId) (fun _ _ => True).
Proof.
  eapply keeps_bind; [apply _|apply keeps_getFace|]. intros q0.
  eapply keeps_bind; [apply _|apply keeps_lock_pit|]. intros e0.
  destruct q0 as [q|]; [|apply keeps_done]. destruct e0 as [e|]; [|apply keeps_done].
  eapply keeps_weaken with (P' := fun s => (ready NccStrategy q p (pe_interest e) s /\ wf_entry e) /\ entry_faces e s);
    [|intros s [[HU Hq] He]; destruct (He e eq_refl) as (? & ? & ?); split; [split; [split; [split; [by apply Hq|done]|done]|done]|done]|done].
  destruct (getInRecord e q) as [r|] eqn:Er; [|apply keeps_done]. destruct (ir_interest r) as [i|] eqn:Ei.
  2: { intros s Hs HP. keep_facts. destruct (in_record_interest e q r) as (x & ?); [done..|congruence]. }
  apply (keeps_recorded _ p e q r i); [keep_side|done|done|]. intros Hr.
  eapply keeps_bind; [apply _|eapply keeps_lookupFib; [apply _|keep_side]|]. intros fib.
  apply keeps_then; [apply _|eapply keeps_getPitInfo; [apply _|keep_side]|]. intros item.
  destruct item as [[]|]; try (apply keeps_fails; [done|keep_side]).
  eapply keeps_bind; [apply _|eapply keeps_measurementsEntryInfo_pit; [apply _|keep_side|keep_side]|]. intros me.
  keep_bind keeps_the_face. intros inF. apply keeps_then; [apply _|apply keeps_ncc_get; [apply _|keep_side]|]. intros x.
  apply keeps_then; [apply _|eapply keeps_forget, keeps_lock_face|]. intros prev.
  eapply keeps_bind; [apply _|eapply keeps_can_use; [apply _|keep_side|keep_side]|]. intros usable.
  apply keeps_seq; [apply _| |].
  { destruct usable as [uq|]; [|apply keeps_done]. apply keeps_void; [apply _|]. eapply keeps_send_face; [apply _|keep_side|done|by intros s []]. }
  eapply keeps_bind; [apply _|eapply keeps_find_forwardable; [apply _|keep_side|keep_side]|]. intros [nh|]; [|apply keeps_done].
  apply keeps_seq; [apply _| |].
  { eapply keeps_sendInterest; [apply _|keep_side|done|..]; intros s [_ Hg]; by apply Hg. }
  apply keeps_then; [apply _|apply keeps_get|]. intros n.
  apply keeps_seq; [apply _| |].
  { apply keeps_modify. intros s Hs _. split; [by apply (fw_ok_same s); [..|apply Hs|]|by apply evolves_quiet]. }
  apply keeps_then; [apply _|apply keeps_get|]. intros now. eapply keeps_set_propagateTimer; [apply _|keep_side].
Qed.

Lemma keeps_update_levels k self f : forall me (P : Fw -> Prop), Stable P ->
  (forall n (P' : Fw -> Prop), Stable P' -> (forall s, P' s -> measured n s) -> keeps P' (f n) (fun _ _ => True)) ->
  (forall s, P s -> found_measured me s) -> (forall s, P s -> uses NccStrategy s) ->
  keeps P (update_levels k self f me) (fun _ _ => True).
Proof.
  induction k as [|k IH]; intros me P HS Hf Hm HU; [apply keeps_done|]. destruct me as [n|]; [|apply keeps_done].
  apply keeps_seq; [done|by apply keeps_acc_extendLifetime|].
  eapply keeps_bind; [done|by apply keeps_measurementsEntryInfo|]. intros n'.
  apply keeps_seq; [apply _|apply Hf; [apply _|by intros s []]|].
  eapply keeps_bind; [apply _|apply keeps_acc_getParent, _|]. intros parent.
  apply IH; [apply _|done|by intros s []|keep_side].
Qed.
Lemma keeps_satisfy_levels k self q : forall me (P : Fw -> Prop), Stable P ->
  (forall s, P s -> found_measured me s) -> (forall s, P s -> uses NccStrategy s) ->
  keeps P (satisfy_levels k self q me) (fun _ _ => True).
Proof.
  induction k as [|k IH]; intros me P HS Hm HU; [by apply keeps_ret|]. destruct me as [n|]; [|by apply keeps_ret].
  apply keeps_seq; [done|by apply keeps_acc_extendLifetime|].
  eapply keeps_bind; [done|by apply keeps_measurementsEntryInfo|]. intros n'.
  apply keeps_seq; [apply _|apply keeps_updateBestFace; [apply _|by intros s []]|].
  eapply keeps_bind; [apply _|apply keeps_acc_getParent, _|]. intros parent.
  apply IH; [apply _|by intros s []|keep_side].
Qed.

Lemma ncc_timer o c : keeps (uses NccStrategy) (ncc_onTimer o c) (fun _ _ => True).
Proof.
  destruct c as [| p inFace|p| |]; try apply keeps_done; [apply ncc_propagate|].
  eapply keeps_bind; [apply _|apply keeps_lock_pit|]. intros [e|]; [|apply keeps_done].
  eapply keeps_weaken with (P' := fun s => uses NccStrategy s /\ pending p (pe_interest e) s);
    [|intros s [HU He]; destruct (He e eq_refl) as (? & _); by split|done].
  eapply keeps_bind; [apply _|eapply keeps_acc_get_pit; [apply _|by intros s []]|]. intros me.
  apply keeps_update_levels; [apply _| |by intros s []|keep_side].
  intros n P' HS' Hn. apply keeps_then; [done|by apply keeps_ncc_get|]. intros x. by apply keeps_ncc_put.
Qed.

Lemma ncc_before p q d j : keeps (ready NccStrategy q p j) (ncc_beforeSatisfyInterest p q d) (fun _ _ => True).
Proof.
  keep_bind keeps_the_pit. intros e. apply keeps_if; intros _; [apply keeps_done|].
  apply keeps_then; [apply _|eapply keeps_strategy_self; [apply _|keep_side]|]. intros self.
  eapply keeps_bind; [apply _|eapply keeps_acc_get_pit; [apply _|keep_side]|]. intros me.
  apply keeps_then; [apply _|apply keeps_satisfy_levels; [apply _|by intros s []|keep_side]|]. intros all.
  apply keeps_if; intros _; [apply keeps_done|].
  apply keeps_then; [apply _|eapply keeps_getPitInfo; [apply _|keep_side]|]. intros item. destruct item as [[]|]; try apply keeps_done.
  apply keeps_seq; [apply _|eapply keeps_putPitInfo; [apply _|keep_side]|].
  eapply keeps_bind; [apply _|eapply keeps_measurementsEntryInfo_pit; [apply _|keep_side|keep_side]|]. intros me'.
  apply keeps_then; [apply _|eapply keeps_forget, keeps_ncc_getBestFace; [apply _|keep_side]|]. intros best.
  apply keeps_if; intros _; [|apply keeps_done]. eapply keeps_putPitInfo; [apply _|keep_side].
Qed.

#[global] Instance ncc_laws : StrategyLaws NccStrategy ncc_ops.
Proof. exact (derive_measuring_laws NccStrategy _ _ _ _ ncc_interest ncc_before (fun _ _ _ _ => keeps_done _) ncc_timer). Qed.
End ncc.

(** ** The ASF strategy *)

Section asf.
Context {Henv : Env} (params : AsfParams).

#[local] Existing Instance stable_none_passes.
(** The FIB entries that a lookup gives have prefixes that the tables can hold. *)
Lemma fib_of_depth s n : fw_ok s -> (length (fe_prefix (fib_of n (fw_tables s))) <= getMaxDepth)%nat.
Proof.
  intros Hs. unfold fib_of. destruct n as [n|]; [|apply Nat.le_0_l]. simpl. rewrite nt_get_fib.
  destruct (fib_map (ts_nt (fw_tables s)) !! n) as [f|] eqn:E; simpl; [|apply Nat.le_0_l].
  destruct (ts_fib_ok _ (fo_tables _ Hs) n f E) as [-> _]. unfold fib_map in E. rewrite lookup_omap in E.
  destruct (ts_nt (fw_tables s) !! n) as [x|] eqn:Ex; [|done]. by eapply (ok_depth _ (ts_tree _ (fo_tables _ Hs))).
Qed.
Definition usable_fib (f : FibEntry) (s : Fw) : Prop := hops_in_table (fe_nextHops f) s /\ (length (fe_prefix f) <= getMaxDepth)%nat.
#[local] Instance stable_usable_fib f : Stable (usable_fib f).
Proof. apply stable_and; apply _. Qed.
Lemma keeps_usable_fib (P : Fw -> Prop) `{!Stable P} p j : (forall s, P s -> pending p j s) -> keeps P (lookupFib p) usable_fib.
Proof.
  intros Hp. apply keeps_lookup with j; [done|]. intros s n Hs. split; [by apply fib_of_hops|by apply fib_of_depth].
Qed.
Lemma usable_hops f s : usable_fib f s -> hops_in_table (fe_nextHops f) s.
Proof. by intros []. Qed.
#[local] Hint Resolve usable_hops : ndn.

(** ** Measurements *)

Lemma keeps_ns_get (P : Fw -> Prop) `{!Stable P} n : (forall s, P s -> measured n s) -> keeps P (ns_get n) (fun _ _ => True).
Proof. intros Hn. apply keeps_then; [done|by apply keeps_getMeasInfo|]. intros o. by apply keeps_ret. Qed.
Lemma keeps_ns_put (P : Fw -> Prop) `{!Stable P} n m d f : (forall s, P s -> measured n s) -> keeps P (ns_put n m d f) (fun _ _ => True).
Proof. by apply keeps_putMeasInfo. Qed.
Lemma keeps_getFaceInfo_at (P : Fw -> Prop) `{!Stable P} n id : (forall s, P s -> measured n s) -> keeps P (getFaceInfo_at n id) (fun _ _ => True).
Proof. intros Hn. apply keeps_then; [done|by apply keeps_ns_get|]. intros [[m d] f]. by apply keeps_ret. Qed.
Lemma keeps_update_faceInfo (P : Fw -> Prop) `{!Stable P} n id f : (forall s, P s -> measured n s) -> keeps P (update_faceInfo n id f) (fun _ _ => True).
Proof. intros Hn. apply keeps_then; [done|by apply keeps_ns_get|]. intros [[m d] fp]. by apply keeps_ns_put. Qed.
Lemma keeps_extendFaceInfoLifetime (P : Fw -> Prop) `{!Stable P} n id : (forall s, P s -> measured n s) -> keeps P (extendFaceInfoLifetime n id) (fun _ _ => True).
Proof. intros Hn. apply keeps_then; [done|apply keeps_get|]. intros now. by apply keeps_update_faceInfo. Qed.
Lemma keeps_getOrCreateFaceInfo_at (P : Fw -> Prop) `{!Stable P} n id : (forall s, P s -> measured n s) -> keeps P (getOrCreateFaceInfo_at n id) (fun _ _ => True).
Proof.
  intros Hn. apply keeps_then; [done|by apply keeps_ns_get|]. intros [[m d] f]. destruct (m !! id); [apply keeps_done|].
  apply keeps_seq; [done|by apply keeps_ns_put|by apply keeps_extendFaceInfoLifetime].
Qed.

(** An entry that has its item. *)
Lemma keeps_with_item (P : Fw -> Prop) `{!Stable P} n (k : M Name) :
  (forall s, P s -> measured n s) -> keeps P (acc_extendLifetime n ASF_MEASUREMENTS_LIFETIME;;
    insertMeasInfo n ASF_NAMESPACE_INFO (AsfNamespaceInfo ∅ false false);; mret n) (fun n s => measured n s).
Proof.
  intros Hn. apply keeps_seq; [done|by apply keeps_acc_extendLifetime|].
  apply keeps_then; [done|by apply keeps_insertMeasInfo|]. intros _. by apply keeps_ret.
Qed.
Lemma keeps_getNamespaceInfo (P : Fw -> Prop) `{!Stable P} self name : keeps P (getNamespaceInfo self name) found_measured.
Proof.
  eapply keeps_bind; [done|by apply keeps_acc_lpm|]. intros [n|]; [|by apply keeps_ret].
  assert (forall s, P s /\ found_measured (Some n) s -> measured n s) as Hn by (intros s [_ H]; by apply H).
  apply keeps_seq; [apply _|by apply keeps_acc_extendLifetime, _|].
  apply keeps_then; [apply _|by apply keeps_insertMeasInfo; [apply _|]|]. intros _. apply keeps_ret. by intros s [].
Qed.
Lemma keeps_get_longer self name ks : forall (P : Fw -> Prop), Stable P -> keeps P (get_longer self name ks) found_measured.
Proof.
  induction ks as [|k ks IH]; intros P HS; simpl; [by apply keeps_ret|].
  eapply keeps_bind; [done|by apply keeps_acc_get|]. intros [n|]; [apply keeps_ret; by intros s []|apply IH, _].
Qed.
Lemma keeps_getOrCreateNamespaceInfo (P : Fw -> Prop) `{!Stable P} self fib i :
  (forall s, P s -> uses AsfStrategy s) -> (forall s, P s -> usable_fib fib s) ->
  keeps P (getOrCreateNamespaceInfo self fib i) (fun n s => measured n s).
Proof.
  intros HU Hf s Hs HP. revert s Hs HP. destruct (decide (length (fe_prefix fib) <= getMaxDepth)%nat) as [Hd|Hd].
  2: { intros s Hs HP. by destruct (Hf s HP). }
  eapply keeps_bind; [done|by apply keeps_acc_get_fib|]. intros r.
  eapply keeps_bind; [apply _| |].
  { instantiate (1 := found_measured). destruct r as [n|]; [apply keeps_ret; by intros s []|apply keeps_get_longer, _]. }
  intros [n|]; [|apply keeps_fails; [done|keep_side]].
  apply (keeps_with_item _ n (mret n)). intros s [_ H]. by apply H.
Qed.
Lemma keeps_getFaceInfo (P : Fw -> Prop) `{!Stable P} self fib i id :
  (forall s, P s -> uses AsfStrategy s) -> (forall s, P s -> usable_fib fib s) -> keeps P (getFaceInfo self fib i id) (fun _ _ => True).
Proof.
  intros HU Hf. eapply keeps_bind; [done|by apply keeps_getOrCreateNamespaceInfo|]. intros n.
  apply keeps_getFaceInfo_at; [apply _|by intros s []].
Qed.

(** ** Probing *)

Lemma keeps_next_random (P : Fw -> Prop) `{!Stable P} : keeps P next_random (fun _ _ => True).
Proof.
  apply keeps_then; [done|apply keeps_get|]. intros n. apply keeps_seq; [done| |by apply keeps_ret].
  apply keeps_modify. intros s Hs _. split; [by apply (fw_ok_same s); [..|apply Hs|]|by apply evolves_quiet].
Qed.
Lemma keeps_scheduleProbe (P : Fw -> Prop) `{!Stable P} self fib t : keeps P (scheduleProbe self fib t) (fun _ _ => True).
Proof.
  apply keeps_then; [done|apply keeps_get|]. intros now. apply keeps_then; [done|by apply keeps_object_of|]. intros o. apply keeps_schedule_event.
Qed.
Lemma keeps_isProbingNeeded (P : Fw -> Prop) `{!Stable P} self fib i :
  (forall s, P s -> uses AsfStrategy s) -> (forall s, P s -> usable_fib fib s) -> keeps P (isProbingNeeded self fib i) (fun _ _ => True).
Proof.
  intros HU Hf. eapply keeps_bind; [done|by apply keeps_getOrCreateNamespaceInfo|]. intros n.
  assert (forall s, P s /\ measured n s -> measured n s) as Hn by (by intros s []).
  apply keeps_then; [apply _|by apply keeps_ns_get, Hn; apply _|]. intros [[m d] f].
  apply keeps_seq; [apply _|apply keeps_if; intros _; [apply keeps_done|]|].
  - apply keeps_then; [apply _|apply keeps_next_random, _|]. intros k. apply keeps_seq; [apply _|apply keeps_scheduleProbe, _|].
    apply keeps_then; [apply _|by apply keeps_ns_get, Hn; apply _|]. intros [[m' d'] f']. by apply keeps_ns_put, Hn; apply _.
  - apply keeps_then; [apply _|by apply keeps_ns_get, Hn; apply _|]. intros [[m' d'] f']. by apply keeps_ret.
Qed.

(** A face of the table that may get the Interest. *)
Definition sendable (i : Interest) (q : FacePtr) (s : Fw) : Prop := intab q s /\ may_send q i s.
#[local] Instance stable_sendable i q : Stable (sendable i q).
Proof. apply stable_and; apply _. Qed.
Definition all_sendable (i : Interest) (l : list FacePtr) (s : Fw) : Prop := forall q, q ∈ l -> sendable i q s.
#[local] Instance stable_all_sendable i l : Stable (all_sendable i l).
Proof. apply stable_forall. intros q. apply stable_impl, _. Qed.
Definition ranking_ok (i : Interest) (r : FacePtr + list (AsfFaceInfo * FacePtr)) (s : Fw) : Prop :=
  match r with inl q => sendable i q s | inr l => all_sendable i l.*2 s end.
#[local] Instance stable_ranking i r : Stable (ranking_ok i r).
Proof. destruct r; apply _. Qed.

Lemma ranked_insert_elem x l q : q ∈ (ranked_insert x l).*2 -> q = x.2 \/ q ∈ l.*2.
Proof.
  induction l as [|y l IH]; simpl; [by intros ->%list_elem_of_singleton; left|].
  destruct (info_before x.1 y.1); simpl; [intros [->|H]%elem_of_cons; auto|].
  destruct (info_before y.1 x.1); simpl; [|by right]. intros [->|H]%elem_of_cons; [right; by left|].
  destruct (IH H); [by left|right; by right].
Qed.
Lemma chooseFace_elem r l q : chooseFace r l = Some q -> q ∈ l.*2.
Proof.
  unfold chooseFace. generalize 1%Z, (Z.of_nat (length l)), ((Z.of_nat (length l) + 1) * Z.of_nat (length l) / 2)%Z, 0%Z.
  induction l as [|x l IH]; intros rank n sum off; cbn [chooseFace_loop]; [done|].
  destruct (r <=? _)%Z; [intros [= <-]; by left|]. intros Hq%IH. by right.
Qed.

Lemma keeps_rank_faces self inF i fib usedF l : forall (P : Fw -> Prop), Stable P -> forall ranked,
  (forall s, P s -> uses AsfStrategy s) -> (forall s, P s -> usable_fib fib s) ->
  (forall s, P s -> hops_in_table l s) -> (forall s, P s -> all_sendable i ranked.*2 s) ->
  keeps P (rank_faces self inF i fib usedF l ranked) (ranking_ok i).
Proof.
  induction l as [|hop l IH]; intros P HS ranked HU Hf Hl Hr; simpl; [by apply keeps_ret|].
  assert (forall s, P s -> hops_in_table l s) as Hl' by (intros s HP x Hx; apply Hl; [done|by right]).
  assert (forall s, P s -> intab (nh_face hop) s) as Hn by (intros s HP; apply Hl; [done|by left]).
  keep_bind keeps_the_face. intros f. apply keeps_if; intros Hc; [apply IH; [apply _|keep_side..]|].
  apply orb_false_iff in Hc as [_ Hc].
  assert (forall s, P s /\ is_face (nh_face hop) f s -> sendable i (nh_face hop) s) as Hs.
  { intros s [HP Hx]. split; [auto|by eapply scope_may_send]. }
  apply keeps_then; [apply _|apply keeps_getFaceInfo; [apply _|keep_side|keep_side]|]. intros [fi|]; [|by apply keeps_ret].
  apply keeps_if; intros _; [by apply keeps_ret|]. apply IH; [apply _|keep_side|keep_side|keep_side|].
  intros s HP q [->|Hq]%ranked_insert_elem; [by apply Hs|]. by apply (Hr s); [apply HP|].
Qed.

Lemma keeps_getFaceToProbe (P : Fw -> Prop) `{!Stable P} self q i fib used :
  (forall s, P s -> uses AsfStrategy s) -> (forall s, P s -> usable_fib fib s) -> (forall s, P s -> live q s) -> (forall s, P s -> live used s) ->
  keeps P (getFaceToProbe self q i fib used) (fun r s => forall q', r = Some q' -> sendable i q' s).
Proof.
  intros HU Hf Hq Hu. keep_bind keeps_the_face. intros inF. keep_bind keeps_the_face. intros usedF.
  eapply keeps_bind; [apply _|apply keeps_rank_faces; [apply _|keep_side|keep_side|keep_side|]|].
  { intros s _ x Hx. by apply not_elem_of_nil in Hx. }
  intros [q'|[|x ranked]]; [apply keeps_ret; intros s [_ H] ? [= <-]; exact H|by apply keeps_ret|].
  apply keeps_then; [apply _|apply keeps_next_random, _|]. intros k.
  destruct (chooseFace (env_real k) (x :: ranked)) as [q'|] eqn:E; [|apply keeps_fails; [done|keep_side]].
  apply keeps_ret. intros s [_ H] ? [= <-]. apply H. by eapply chooseFace_elem.
Qed.
Lemma keeps_afterForwardingProbe (P : Fw -> Prop) `{!Stable P} self fib i :
  (forall s, P s -> uses AsfStrategy s) -> (forall s, P s -> usable_fib fib s) -> keeps P (afterForwardingProbe params self fib i) (fun _ _ => True).
Proof.
  intros HU Hf. eapply keeps_bind; [done|by apply keeps_getOrCreateNamespaceInfo|]. intros n.
  apply keeps_then; [apply _|apply keeps_ns_get; [apply _|by intros s []]|]. intros [[m d] f].
  apply keeps_seq; [apply _|apply keeps_ns_put; [apply _|by intros s []]|apply keeps_scheduleProbe, _].
Qed.

(** ** Forwarding *)

Lemma sendable_nonce i k q s : sendable i q s -> sendable (set_nonce k i) q s.
Proof. done. Qed.
Lemma keeps_asf_forward (P : Fw -> Prop) `{!Stable P} self i q fib p w j :
  (forall s, P s -> pending p j s) -> same_request i j -> (forall s, P s -> sendable i q s) ->
  (forall s, P s -> uses AsfStrategy s) -> (forall s, P s -> usable_fib fib s) ->
  keeps P (asf_forwardInterest self i q fib p w) (fun _ _ => True).
Proof.
  intros Hp Hr Hq HU Hf. eapply keeps_bind; [done|apply keeps_the_face|].
  { intros s HP. apply intab_live, Hq, HP. }
  intros outF. apply keeps_then; [apply _| |].
  { apply keeps_if; intros _.
    - apply keeps_then; [apply _|apply keeps_next_random, _|]. intros k.
      eapply keeps_sendInterest; [apply _|keep_side|done|..]; intros s [HP _]; by apply Hq.
    - eapply keeps_sendInterest; [apply _|keep_side|done|..]; intros s [HP _]; by apply Hq. }
  intros _. eapply keeps_bind; [apply _|apply keeps_getOrCreateNamespaceInfo; [apply _|keep_side|keep_side]|]. intros n0.
  apply keeps_seq; [apply _|apply keeps_getOrCreateFaceInfo_at; [apply _|by intros s []]|].
  eapply keeps_bind; [apply _|apply keeps_getOrCreateNamespaceInfo; [apply _|keep_side|keep_side]|]. intros n.
  apply keeps_seq; [apply _|apply keeps_extendFaceInfoLifetime; [apply _|by intros s []]|].
  apply keeps_then; [apply _|apply keeps_getFaceInfo_at; [apply _|by intros s []]|]. intros [fi|]; [|apply keeps_done].
  destruct (fi_timeoutEvent fi) eqn:E; [apply keeps_done|].
  apply keeps_then; [apply _|apply keeps_get|]. intros now. apply keeps_then; [apply _|apply keeps_object_of, _|]. intros o.
  unfold fi_scheduleTimeout. rewrite E. apply keeps_update_faceInfo; [apply _|by intros s []].
Qed.

Lemma keeps_sendProbe (P : Fw -> Prop) `{!Stable P} self i q used fib p j :
  (forall s, P s -> pending p j s) -> same_request i j -> (forall s, P s -> live q s) -> (forall s, P s -> live used s) ->
  (forall s, P s -> uses AsfStrategy s) -> (forall s, P s -> usable_fib fib s) ->
  keeps P (sendProbe params self i q used fib p) (fun _ _ => True).
Proof.
  intros Hp Hr Hq Hu HU Hf. apply keeps_then; [done|by apply keeps_isProbingNeeded|]. intros b. apply keeps_if; intros _; [apply keeps_done|].
  eapply keeps_bind; [done|by apply keeps_getFaceToProbe|]. intros [q'|]; [|apply keeps_done].
  apply keeps_seq; [apply _|eapply keeps_asf_forward; [apply _|keep_side|done| |keep_side|keep_side]|apply keeps_afterForwardingProbe; [apply _|keep_side..]].
  intros s [_ H]. by apply H.
Qed.

Definition unused_test (inF : Face) (i : Interest) (e : PitEntry) (now : time) (isNew : bool) : FacePtr -> Face -> bool :=
  fun out f => isNextHopEligible inF i out f e (negb isNew) now.
Lemma keeps_rank_nextHops self inF i fib e now isNew l : forall (P : Fw -> Prop), Stable P ->
  (forall s, P s -> uses AsfStrategy s) -> (forall s, P s -> usable_fib fib s) -> (forall s, P s -> hops_in_table l s) ->
  keeps P (rank_nextHops self inF i fib e now isNew l)
    (fun r s => all_sendable i (fs_face <$> r) s /\ (r = [] -> none_passes (unused_test inF i e now isNew) l s)).
Proof.
  induction l as [|nh l IH]; intros P HS HU Hf Hl; simpl.
  { apply keeps_ret. intros s _. split; [intros q ?%not_elem_of_nil; done|intros _ x ?%not_elem_of_nil; done]. }
  assert (forall s, P s -> hops_in_table l s) as Hl' by (intros s HP x Hx; apply Hl; [done|by right]).
  assert (forall s, P s -> intab (nh_face nh) s) as Hn by (intros s HP; apply Hl; [done|by left]).
  keep_bind keeps_the_face. intros f. apply keeps_if; intros Hc.
  - intros s Hs HP. assert (keeps (fun s => P s /\ is_face (nh_face nh) f s) (rank_nextHops self inF i fib e now isNew l)
      (fun r s => all_sendable i (fs_face <$> r) s /\ (r = [] -> none_passes (unused_test inF i e now isNew) l s))) as HK.
    { apply IH; [apply _|keep_side..]. }
    specialize (HK s Hs HP). destruct (rank_nextHops self inF i fib e now isNew l s) as [r s'|]; [|done].
    destruct HK as (H1 & H2 & H3 & H4). split_and!; [done|done|done|]. intros E x [->|Hx]%elem_of_cons; [|by apply H4].
    exists f. split; [exact (stable s s' Hs H1 H2 (proj2 HP))|]. by apply negb_true_iff in Hc.
  - apply negb_false_iff, eligible_scope in Hc.
    apply keeps_then; [apply _|apply keeps_getFaceInfo; [apply _|keep_side|keep_side]|]. intros info.
    eapply keeps_bind; [apply _|apply IH; [apply _|keep_side..]|]. intros rest. apply keeps_ret.
    intros s [[HP Hx] [Hr _]]. split; [|done]. simpl. intros q [->|Hq]%elem_of_cons; [|by apply Hr].
    assert (sendable i (nh_face nh) s) by (split; [auto|by eapply scope_may_send]). by destruct info.
Qed.
Lemma best_stats_spec l : forall b, match best_stats l b with Some x => x ∈ l \/ b = Some x | None => l = [] /\ b = None end.
Proof.
  induction l as [|x l IH]; intros b; simpl; [destruct b; auto|].
  set (b' := match b with Some _ => _ | None => _ end). specialize (IH b'). destruct (best_stats l b') as [y|].
  - destruct IH as [Hy|Hy]; [left; by right|]. unfold b' in Hy.
    destruct b as [b|]; [destruct (stats_before x b)|]; injection Hy as <-; [left; left|by right|left; left].
  - destruct IH as [_ Hy]. unfold b' in Hy. destruct b as [b|]; [by destruct (stats_before x b)|done].
Qed.
Lemma keeps_getBestFace (P : Fw -> Prop) `{!Stable P} self i inF fib e now isNew :
  (forall s, P s -> uses AsfStrategy s) -> (forall s, P s -> usable_fib fib s) ->
  keeps P (getBestFaceForForwarding self i inF fib e now isNew)
    (fun r s => match r with Some q => sendable i q s | None => none_passes (unused_test inF i e now isNew) (fe_nextHops fib) s end).
Proof.
  intros HU Hf. eapply keeps_bind; [done|apply keeps_rank_nextHops; [done|done|done|]|].
  { intros s HP. by apply usable_hops, Hf. }
  intros l. apply keeps_ret. intros s [_ [Hl Hn]]. pose proof (best_stats_spec l None) as H.
  destruct (best_stats l None) as [x|]; simpl; [|by apply Hn, H].
  destruct H as [H|H]; [|done]. by apply Hl, list_elem_of_fmap_2.
Qed.

(** ** The triggers *)

Lemma keeps_noroute (P : Fw -> Prop) `{!Stable P} q p j :
  (forall s, P s -> pending p j s) -> (forall s, P s -> live q s) -> keeps P (sendNoRouteNack q p) (fun _ _ => True).
Proof. apply keeps_refuse, _. Qed.

Lemma asf_interest q i p j : same_request i j ->
  keeps (ready AsfStrategy q p j) (asf_afterReceiveInterest params q i p) (fun _ _ => True).
Proof.
  intros Hr.
  apply keeps_then; [apply _|eapply keeps_strategy_self; [apply _|keep_side]|]. intros self.
  apply keeps_then; [apply _|eapply keeps_retx_perPitEntry; keep_side|]. intros sup. destruct sup; [| |apply keeps_done].
  - eapply keeps_bind; [apply _|eapply keeps_usable_fib; [apply _|keep_side]|]. intros fib.
    apply keeps_if; intros _; [eapply keeps_noroute; [apply _|keep_side|keep_side]|].
    keep_bind keeps_the_face. intros inF. keep_bind keeps_the_pit. intros e. apply keeps_then; [apply _|apply keeps_get|]. intros now.
    eapply keeps_bind; [apply _|apply keeps_getBestFace; [apply _|keep_side|keep_side]|]. intros [q'|].
    + apply keeps_seq; [apply _|eapply keeps_asf_forward; [apply _|keep_side|done|keep_side..]|].
      eapply keeps_sendProbe; [apply _|keep_side|done|keep_side| |keep_side|keep_side]. intros s [_ [H _]]. by apply intab_live.
    + eapply keeps_noroute; [|keep_side|keep_side]. apply _.
  - eapply keeps_bind; [apply _|eapply keeps_usable_fib; [apply _|keep_side]|]. intros fib.
    keep_bind keeps_the_face. intros inF. keep_bind keeps_the_pit. intros e. apply keeps_then; [apply _|apply keeps_get|]. intros now.
    eapply keeps_bind; [apply _|apply keeps_getBestFace; [apply _|keep_side|keep_side]|]. intros [q'|].
    + eapply keeps_asf_forward; [apply _|keep_side|done|keep_side..].
    + eapply keeps_bind; [apply _|eapply keeps_find_earliest; [apply _|keep_side|by intros s []|done]|].
      intros [nh|]; [|apply keeps_done]. eapply keeps_send_hop; [apply _|keep_side|done|by intros s []].
Qed.

Lemma asf_before p q d j : keeps (ready AsfStrategy q p j) (asf_beforeSatisfyInterest p q d) (fun _ _ => True).
Proof.
  apply keeps_then; [apply _|eapply keeps_strategy_self; [apply _|keep_side]|]. intros self. keep_bind keeps_the_pit. intros e.
  eapply keeps_bind; [apply _|apply keeps_getNamespaceInfo, _|]. intros [n|]; [|apply keeps_done].
  assert (forall (X : Fw -> Prop) s, X s /\ found_measured (Some n) s -> measured n s) as Hn by (intros X s [_ H]; by apply H).
  keep_bind keeps_the_face. intros inF.
  eapply keeps_weaken with (P' := fun s => ready AsfStrategy q p j s /\ measured n s);
    [|intros s [[[H _] Hm] _]; split; [done|by apply Hm]|done].
  assert (forall s, ready AsfStrategy q p j s /\ measured n s -> measured n s) as Hm by (by intros s []).
  apply keeps_then; [apply _|by apply keeps_getFaceInfo_at, Hm; apply _|]. intros [fi|]; [|apply keeps_done].
  apply keeps_then; [apply _|apply keeps_get|]. intros now.
  apply keeps_seq; [apply _| |].
  { destruct (getOutRecord e q); [|apply keeps_done]. by apply keeps_update_faceInfo, Hm; apply _. }
  apply keeps_seq; [apply _|by apply keeps_extendFaceInfoLifetime, Hm; apply _|].
  apply keeps_seq; [apply _|apply keeps_setExpiryTimer, _|]. by apply keeps_update_faceInfo, Hm; apply _.
Qed.

Lemma keeps_onTimeoutOrNack (P : Fw -> Prop) `{!Stable P} self name id nack : keeps P (onTimeoutOrNack params self name id nack) (fun _ _ => True).
Proof.
  eapply keeps_bind; [done|by apply keeps_getNamespaceInfo|]. intros [n|]; [|apply keeps_done].
  assert (forall s, P s /\ found_measured (Some n) s -> measured n s) as Hm by (intros s [_ H]; by apply H).
  apply keeps_then; [apply _|by apply keeps_getFaceInfo_at, Hm; apply _|]. intros [fi|]; [|apply keeps_done].
  apply keeps_seq; [apply _|by apply keeps_update_faceInfo, Hm; apply _|]. apply keeps_if; intros _.
  - apply keeps_seq; [apply _|by apply keeps_extendFaceInfoLifetime, Hm; apply _|]. by apply keeps_update_faceInfo, Hm; apply _.
  - by apply keeps_update_faceInfo, Hm; apply _.
Qed.
Lemma asf_nack q n p j : keeps (ready AsfStrategy q p j) (asf_afterReceiveNack params q n p) (fun _ _ => True).
Proof.
  apply keeps_then; [apply _|eapply keeps_strategy_self; [apply _|keep_side]|]. intros self. keep_bind keeps_the_pit. intros e.
  keep_bind keeps_the_face. intros inF. apply keeps_onTimeoutOrNack, _.
Qed.
Lemma asf_timer o c : keeps (uses AsfStrategy) (asf_onTimer params o c) (fun _ _ => True).
Proof.
  destruct c; try apply keeps_done; [apply keeps_onTimeoutOrNack, _|].
  eapply keeps_bind; [apply _|apply keeps_getNamespaceInfo, _|]. intros [n|]; [|apply keeps_done].
  assert (forall s, uses AsfStrategy s /\ found_measured (Some n) s -> measured n s) as Hm by (intros s [_ H]; by apply H).
  apply keeps_then; [apply _|by apply keeps_ns_get, Hm; apply _|]. intros [[m d] f]. by apply keeps_ns_put, Hm; apply _.
Qed.

#[global] Instance asf_laws : StrategyLaws AsfStrategy (asf_ops params).
Proof. exact (derive_measuring_laws AsfStrategy _ _ _ _ asf_interest asf_before asf_nack asf_timer). Qed.
End asf.
