(* ===== verification/Pipelines.v ===== *)
(** * The forwarding pipelines (fw/forwarder.cpp) and the forwarder as a step relation

    The incoming pipelines, on top of the outgoing ones of Forwarder.v and the strategies
    behind the interface [StrategyOps]; then the events that drive the forwarder (packets,
    timers, faces, management commands) and the transition relation they generate. The
    clock stands still while an event is handled. *)

From S2P Require Import Prelude Name Uri Packet FaceKeyed PitEntry FibEntry NodeStore NameTree NameTreeInv.
From S2P Require Import Tables Fib Pit Measurements StrategyRegistry StrategyChoice Cleanup FaceTable ContentStore.
From S2P Require Import DeadNonceList RateControl Forwarder Accessor FwAlgorithm Strategy.

Section pipelines.
Context `{Env} (strategies : StrategyInstance -> StrategyOps).

(** [dispatchToStrategy]. *)
Definition dispatchToStrategy (p : PitPtr) (trigger : StrategyOps -> M unit) : M unit :=
  e ← the_pit p;
  t ← gets fw_tables;
  match findEffectiveStrategy_pit e t with
  | Some inst => trigger (strategies inst)
  | None => fail NullStrategy
  end.

(** ** Interests *)

Definition set_incomingFaceId (id : N) (i : Interest) : Interest :=
  mkInterest (i_name i) (i_canBePrefix i) (i_mustBeFresh i) (i_nonce i) (i_lifetime i) (i_hopLimit i)
             (i_forwardingHint i) (Some id) (i_nextHopFaceId i) (i_pitToken i).
Definition setHopLimit (h : option N) (i : Interest) : Interest :=
  mkInterest (i_name i) (i_canBePrefix i) (i_mustBeFresh i) (i_nonce i) (i_lifetime i) h
             (i_forwardingHint i) (i_incomingFaceId i) (i_nextHopFaceId i) (i_pitToken i).
Definition setForwardingHint (fh : list Delegation) (i : Interest) : Interest :=
  mkInterest (i_name i) (i_canBePrefix i) (i_mustBeFresh i) (i_nonce i) (i_lifetime i) (i_hopLimit i)
             fh (i_incomingFaceId i) (i_nextHopFaceId i) (i_pitToken i).
Definition set_d_incomingFaceId (id : N) (d : Data) : Data :=
  mkData (d_name d) (d_content d) (d_freshness d) (d_digest d) (Some id) (d_pitToken d) (d_noCache d).

Definition onInterestLoop (ingress : FacePtr) (i : Interest) : M unit :=
  f ← the_face ingress;
  if negb (bool_decide (f_linkType f = LINK_TYPE_POINT_TO_POINT)) then mret tt
  else emit (OutNack ingress (mkNack i DUPLICATE)).

Definition onContentStoreMiss (ingress : FacePtr) (p : PitPtr) (i : Interest) : M unit :=
  count incCsMisses;;
  now ← gets fw_now;
  assert_canMatch p i;;
  update_pit p (insertOrUpdateInRecord now ingress i);;
  e ← the_pit p;
  match max_element (fun r => fr_expiry (ir_rec r)) (pe_inRecords e) with
  | None => fail EndIterator
  | Some lastExpiring =>
      let lastExpiryFromNow := (fr_expiry (ir_rec lastExpiring) - now)%Z in
      Fw_setExpiryTimer p (Z.quot lastExpiryFromNow ms);;
      match i_nextHopFaceId i with
      | Some nextHopTag =>
          faces ← gets fw_faces;
          match ft_get nextHopTag faces with
          | Some nextHopFace => onOutgoingInterest p nextHopFace i;; mret tt
          | None => mret tt
          end
      | None => dispatchToStrategy p (fun s => afterReceiveInterest s ingress i p)
      end
  end.

(** The Data object a hit returns is the one in the Content Store: its tags change there. *)
Definition retag_stored (d : Data) (c : Cs) : Cs :=
  set_table (entry_update (fun e => mkCsEntry d (ce_isUnsolicited e) (ce_freshUntil e)) (getFullName d) (cs_table c)) c.
Definition onContentStoreHit (ingress : FacePtr) (p : PitPtr) (i : Interest) (d : Data) : M unit :=
  count incCsHits;;
  let d := set_d_pitToken (i_pitToken i) (set_d_incomingFaceId FACEID_CONTENT_STORE d) in
  modify (fun s => with_cs (retag_stored d (fw_cs s)) s);;
  update_pit p (set_satisfied true (d_freshness d));;
  Fw_setExpiryTimer p 0;;
  dispatchToStrategy p (fun s => afterContentStoreHit s p ingress d).

(** [Pit::insert] always gives an entry. *)
Definition pit_insert (i : Interest) : M PitPtr :=
  t ← gets fw_tables;
  let '(t, (r, _)) := Pit_insert i t in
  modify (with_tables t);;
  match r with Some p => mret p | None => fail EndIterator end.

Definition onIncomingInterest (ingress : FacePtr) (i : Interest) : M unit :=
  f ← the_face ingress;
  let i := set_incomingFaceId (f_id f) i in
  count incInInterests;;
  if bool_decide (i_hopLimit i = Some 0%N) then update_face_object ingress incInHopLimitZero
  else
    let i := match i_hopLimit i with Some h => setHopLimit (Some (h - 1)%N) i | None => i end in
    let isViolatingLocalhost := bool_decide (f_scope f = FACE_SCOPE_NON_LOCAL) && isPrefixOf LOCALHOST (i_name i) in
    if isViolatingLocalhost then mret tt
    else
      hasDuplicateNonceInDnl ← gets (fun s => Dnl_has (i_name i) (i_nonce i) (fw_dnl s));
      if hasDuplicateNonceInDnl : bool then onInterestLoop ingress i
      else
        regions ← gets fw_regions;
        let i := match i_forwardingHint i with
                 | [] => i
                 | fh => if isInProducerRegion regions fh then setForwardingHint [] i else i
                 end in
        p ← pit_insert i;
        e ← the_pit p;
        let dnw := findDuplicateNonce e (i_nonce i) ingress in
        let hasDuplicateNonceInPit :=
          negb (dnw =? DUPLICATE_NONCE_NONE)%Z &&
          (if bool_decide (f_linkType f = LINK_TYPE_POINT_TO_POINT)
           then (Z.land dnw DUPLICATE_NONCE_IN_SAME =? 0)%Z else true) in
        if hasDuplicateNonceInPit then onInterestLoop ingress i
        else if negb (hasInRecords e) then
          now ← gets fw_now;
          c ← gets fw_cs;
          let '(c, r) := Cs_find now i c in
          modify (with_cs c);;
          match r with
          | Some entry => onContentStoreHit ingress p i (ce_data entry)
          | None => onContentStoreMiss ingress p i
          end
        else onContentStoreMiss ingress p i.

Definition pit_erase (p : PitPtr) : M unit := modify (fun s => with_tables (Pit_erase p true (fw_tables s)) s).
Definition onInterestFinalize (p : PitPtr) : M unit :=
  insertDeadNonceList p None;;
  e ← the_pit p;
  count (incSatisfied (pe_isSatisfied e));;
  update_pit p (set_expiryTimer None);;
  pit_erase p.

(** ** Data *)

Definition cs_insert (d : Data) (isUnsolicited : bool) : M unit :=
  now ← gets fw_now; modify (fun s => with_cs (Cs_insert now d isUnsolicited (fw_cs s)) s).

Definition onDataUnsolicited (ingress : FacePtr) (d : Data) : M unit :=
  f ← the_face ingress;
  policy ← gets fw_unsolicited;
  match decide_unsolicited policy f with
  | CACHE => cs_insert d true
  | DROP => mret tt
  end;;
  count incUnsolicitedData.

(** The requests for the segments of a file. [stoi] reads the content as a C string: what
    follows the content in the packet is the type octet of the SignatureInfo, 22, which ends
    the number. An exception ends the program's event loop. *)
Definition segmentCount (d : Data) : option Z := stoi (d_content d ++ [x16]).
Definition segmentName (fileName : text) (segment : nat) : option Name :=
  Name_of_uri (str "/Segment" ++ fileName ++ str "/" ++ to_string (N.of_nat segment)).
Definition segmentInterest (name : Name) (nonce : N) : Interest :=
  mkInterest name false false nonce 200000 None [] None None None.
Definition draw_nonce : M N :=
  n ← gets fw_nRandom; modify (with_nRandom (n + 1)%N);; mret (env_nonce n).
Definition insert_inRecords (now : time) (i : Interest) (l : list InRecord) (e : PitEntry) : PitEntry :=
  fold_left (fun e r => insertOrUpdateInRecord now (ir_face r) i e) l e.
Definition request_segment (p : PitPtr) (fileName : text) (segment : nat) : M unit :=
  match segmentName fileName segment with
  | None => fail UncaughtException
  | Some interestName =>
      nonce ← draw_nonce;
      let interest := segmentInterest interestName nonce in
      localPitEntry ← pit_insert interest;
      e ← the_pit p;
      now ← gets fw_now;
      assert_canMatch localPitEntry interest;;
      update_pit localPitEntry (insert_inRecords now interest (pe_inRecords e))
  end.
Definition file_prefix : Name := [word "File"].
Definition request_segments (p : PitPtr) (d : Data) : M unit :=
  if isPrefixOf file_prefix (d_name d) then
    match segmentCount d with
    | None => fail UncaughtException
    | Some n =>
        let fileName := Name_toUri env_alt_uri (getSubName (d_name d) 1 1) in
        forM (seq 0 (Z.to_nat n)) (request_segment p fileName)
    end
  else mret tt.

(** The branch for a single matching entry. *)
Definition satisfy_one (ingress : FacePtr) (d : Data) (p : PitPtr) : M unit :=
  request_segments p d;;
  Fw_setExpiryTimer p 0;;
  dispatchToStrategy p (fun s => afterReceiveData s p ingress d);;
  update_pit p (set_satisfied true (d_freshness d));;
  insertDeadNonceList p (Some ingress);;
  update_pit p (deleteOutRecord ingress).

(** The branch for several: the loop over the entries, which collects the pending
    downstreams, and the loop over those. *)
Definition unexpired_downstreams (now : time) (e : PitEntry) : list FacePtr :=
  ir_face <$> List.filter (fun r => (now <? fr_expiry (ir_rec r))%Z) (pe_inRecords e).
Fixpoint satisfy_each (ingress : FacePtr) (d : Data) (l : list PitPtr) : M (list FacePtr) :=
  match l with
  | [] => mret []
  | p :: l' =>
      e ← the_pit p;
      now ← gets fw_now;
      let pending := unexpired_downstreams now e in
      Fw_setExpiryTimer p 0;;
      dispatchToStrategy p (fun s => beforeSatisfyInterest s p ingress d);;
      update_pit p (set_satisfied true (d_freshness d));;
      insertDeadNonceList p (Some ingress);;
      update_pit p clearInRecords;;
      update_pit p (deleteOutRecord ingress);;
      rest ← satisfy_each ingress d l';
      mret (pending ++ rest)
  end.
Definition send_pending (ingress : FacePtr) (d : Data) (q : FacePtr) : M unit :=
  f ← the_face q;
  inF ← the_face ingress;
  if (f_id f =? f_id inF)%N && negb (bool_decide (f_linkType f = LINK_TYPE_AD_HOC)) then mret tt
  else onOutgoingData d q;; mret tt.
Definition satisfy_many (ingress : FacePtr) (d : Data) (l : list PitPtr) : M unit :=
  pendingDownstreams ← satisfy_each ingress d l;
  forM (ptr_set pendingDownstreams) (send_pending ingress d).

Definition onIncomingData (ingress : FacePtr) (d : Data) : M unit :=
  f ← the_face ingress;
  let d := set_d_incomingFaceId (f_id f) d in
  count incInData;;
  let isViolatingLocalhost := bool_decide (f_scope f = FACE_SCOPE_NON_LOCAL) && isPrefixOf LOCALHOST (d_name d) in
  if isViolatingLocalhost then mret tt
  else
    t ← gets fw_tables;
    match Pit_findAllDataMatches d t with
    | [] => onDataUnsolicited ingress d
    | pitMatches =>
        cs_insert d false;;
        match pitMatches with
        | [p] => satisfy_one ingress d p
        | _ => satisfy_many ingress d pitMatches
        end
    end.

(** ** Nacks, dropped Interests and new nexthops *)

Definition onIncomingNack (ingress : FacePtr) (n : Nack) : M unit :=
  f ← the_face ingress;
  count incInNacks;;
  if negb (bool_decide (f_linkType f = LINK_TYPE_POINT_TO_POINT)) then mret tt
  else
    t ← gets fw_tables;
    match Pit_find (n_interest n) t with
    | None => mret tt
    | Some p =>
        e ← the_pit p;
        match getOutRecord e ingress with
        | None => mret tt
        | Some outRecord =>
            if negb (i_nonce (n_interest n) =? fr_lastNonce (or_rec outRecord))%N then mret tt
            else
              update_pit p (updateOutRecord (fun r => (setIncomingNack n r).1) ingress);;
              e ← the_pit p;
              now ← gets fw_now;
              (if negb (hasPendingOutRecords now e) then Fw_setExpiryTimer p 0 else mret tt);;
              dispatchToStrategy p (fun s => afterReceiveNack s ingress n p)
        end
    end.

Definition Fw_onDroppedInterest (egress : FacePtr) (i : Interest) : M unit :=
  t ← gets fw_tables;
  match findEffectiveStrategy (i_name i) t with
  | Some inst => onDroppedInterest (strategies inst) egress i
  | None => fail NullStrategy
  end.

(** [onNewNextHop]: the entries the new nexthop may concern. *)
Definition newNextHop_selector : SubTreeSelector :=
  fun name nte =>
    let enabled := match nte_sc nte with
                   | Some s => wantNewNextHopTrigger (strategies (sc_strategy s))
                   | None => false
                   end in
    let noFib := match nte_fib nte with None => true | Some _ => false end in
    let hasPit := match nte_pits nte with [] => false | _ => true end in
    if (length name =? 0)%nat || (enabled && noFib && hasPit) then (true, true)
    else if noFib then (false, true)
    else (false, false).
Definition onNewNextHop (prefix : Name) (nextHop : NextHop) : M unit :=
  m ← gets (fun s => ts_nt (fw_tables s));
  forM (partialEnumerate prefix newNextHop_selector m) (fun nte =>
    t ← gets fw_tables;
    forM (pits_at (ts_nt t) nte) (fun p => dispatchToStrategy p (fun s => afterNewNextHop s nextHop p))).
End pipelines.

(** ** The forwarder as a transition system *)

(** What drives the forwarder: packets on faces, its timers, faces that come and go, and
    the commands of the management. *)
Inductive Event :=
| EvInterest (face : FacePtr) (i : Interest)
| EvData (face : FacePtr) (d : Data)
| EvNack (face : FacePtr) (n : Nack)
| EvDropped (face : FacePtr) (i : Interest)
| EvExpiry (p : PitPtr)
| EvClock (t : time)
| EvDnlMark
| EvDnlAdjust
| EvCsStale (entry : Name)
| EvMeasCleanup (n : Name)
| EvStrategyTimer (src : TimerSource)
| EvAsfExpire (n : Name) (faceId : N)
| EvFaceNew (p : FacePtr) (f : Face)
| EvFaceAdd (p : FacePtr)
| EvFaceRemove (id : N)
| EvFaceFree (p : FacePtr)
| EvFibInsert (prefix : Name)
| EvFibAddNextHop (prefix : Name) (face : FacePtr) (cost : N)
| EvFibRemoveNextHop (prefix : Name) (face : FacePtr)
| EvFibErase (prefix : Name)
| EvSetStrategy (prefix strategyName : Name)
| EvUnsetStrategy (prefix : Name)
| EvCsErase (prefix : Name) (limit : nat)
| EvCsLimit (n : nat).

Section system.
Context `{Env} (registry : Registry) (asf_accepts : Name -> bool) (strategies : StrategyInstance -> StrategyOps).

Definition on_strategy (f : StrategyState -> StrategyState) (s : Fw) : Fw := with_strategy (f (fw_strategy s)) s.
Definition forget_face (id : N) (x : StrategyState) : StrategyState :=
  mkStrategyState (ss_events x) (delete id <$> ss_fit x) (ss_freed x) (ss_replaced x).
(** The object at an address is freed: weak pointers to it expire. *)
Definition count_freed (p : FacePtr) (x : StrategyState) : StrategyState :=
  mkStrategyState (ss_events x) (ss_fit x) (<[p := (default 0 (ss_freed x !! p) + 1)%N]> (ss_freed x)) (ss_replaced x).
(** The strategy object of a prefix is destroyed when its entry gets another one or goes. *)
Definition replace_object (prefix : Name) (x : StrategyState) : StrategyState :=
  mkStrategyState (ss_events x) (delete prefix (ss_fit x)) (ss_freed x)
    (<[prefix := (default 0 (ss_replaced x !! prefix) + 1)%N]> (ss_replaced x)).
Definition owned_strategy (prefix : Name) (t : TableState) : option StrategyInstance := strategy_at (Some prefix) t.
Definition note_replaced (prefix : Name) (t t' : TableState) : M unit :=
  if bool_decide (owned_strategy prefix t' = owned_strategy prefix t) then mret tt else modify (on_strategy (replace_object prefix)).

Definition on_tables (f : TableState -> TableState) : M unit := modify (fun s => with_tables (f (fw_tables s)) s).

(** An operation of the face table, or its assertion. *)
Definition on_faces (f : FaceTable -> option FaceTable) : M unit :=
  t ← gets fw_faces;
  match f t with Some t => modify (with_faces t) | None => fail FaceTableAssertion end.

(** [FaceTable::remove]: the signal [beforeRemove] runs the cleanup first, and the access
    strategies forget the face. *)
Definition face_remove (id : N) : M unit :=
  faces ← gets fw_faces;
  match ft_get id faces with
  | None => fail FaceTableAssertion
  | Some p =>
      on_tables (cleanupOnFaceRemoval p);;
      modify (on_strategy (forget_face id));;
      on_faces (ft_remove id)
  end.

(** [Fib::addOrUpdateNextHop] with its signal [afterNewNextHop]. *)
Definition fib_addOrUpdateNextHop (prefix : Name) (face : FacePtr) (cost : N) : M unit :=
  t ← gets fw_tables;
  let '(t, signal) := Fib_addOrUpdateNextHop prefix face cost t in
  modify (with_tables t);;
  match signal with
  | None => mret tt
  | Some (_, None) => fail EndIterator
  | Some (prefix, Some nextHop) => onNewNextHop strategies prefix nextHop
  end.

Definition strategy_insert (prefix strategyName : Name) : M unit :=
  t ← gets fw_tables;
  match SC_insert registry asf_accepts prefix strategyName t with
  | Some (t', _) => modify (with_tables t');; note_replaced prefix t t'
  | None => fail NullStrategy
  end.
Definition strategy_erase (prefix : Name) : M unit :=
  t ← gets fw_tables;
  match SC_erase registry prefix t with
  | Some t' => modify (with_tables t');; note_replaced prefix t t'
  | None => fail NullStrategy
  end.

(** The callback of a timer, on the strategy object that set it. *)
Definition strategy_timer (src : TimerSource) : M unit :=
  o ← gets (timer_at src);
  match o with
  | None => mret tt
  | Some (_, obj, c) =>
      clear_timer src;;
      inst ← gets (object_strategy obj);
      match inst with Some inst => onTimer (strategies inst) obj c | None => fail (DanglingStrategy obj) end
  end.
(** The callback of [NamespaceInfo::extendFaceInfoLifetime]. *)
Definition without_faceInfo (faceId : N) (i : StrategyInfo) : StrategyInfo :=
  match i with AsfNamespaceInfo m d f => AsfNamespaceInfo (delete faceId m) d f | _ => i end.
Definition asf_expire (n : Name) (faceId : N) : M unit :=
  update_meas n (fun e => set_me_info (alter (without_faceInfo faceId) ASF_NAMESPACE_INFO (me_info e)) e).

Definition handle (ev : Event) : M unit :=
  match ev with
  | EvInterest face i => onIncomingInterest strategies face i
  | EvData face d => onIncomingData strategies face d
  | EvNack face n => onIncomingNack strategies face n
  | EvDropped face i => Fw_onDroppedInterest strategies face i
  | EvExpiry p => onInterestFinalize p
  | EvClock t => modify (with_now t)
  | EvDnlMark => modify (fun s => with_dnl (Dnl_mark (fw_now s) (fw_dnl s)) s)
  | EvDnlAdjust => modify (fun s => with_dnl (Dnl_adjustCapacity (fw_now s) (fw_dnl s)) s)
  | EvCsStale i => modify (fun s => with_cs (cs_moveToStale i (fw_cs s)) s)
  | EvMeasCleanup n => on_tables (Meas_cleanup n)
  | EvStrategyTimer src => strategy_timer src
  | EvAsfExpire n faceId => asf_expire n faceId
  | EvFaceNew p f => modify (fun s => with_faces (face_new p f (fw_faces s)) s)
  | EvFaceAdd p => on_faces (ft_add p)
  | EvFaceRemove id => face_remove id
  | EvFaceFree p => modify (on_strategy (count_freed p));; modify (fun s => with_faces (face_free p (fw_faces s)) s)
  | EvFibInsert prefix => on_tables (fun t => (Fib_insert prefix t).1)
  | EvFibAddNextHop prefix face cost => fib_addOrUpdateNextHop prefix face cost
  | EvFibRemoveNextHop prefix face => on_tables (fun t => (Fib_removeNextHop prefix face t).1)
  | EvFibErase prefix => on_tables (Fib_erase prefix)
  | EvSetStrategy prefix name => strategy_insert prefix name
  | EvUnsetStrategy prefix => strategy_erase prefix
  | EvCsErase prefix limit => modify (fun s => with_cs (Cs_erase prefix limit (fw_cs s)).1 s)
  | EvCsLimit n => modify (fun s => with_cs (setLimit n (fw_cs s)) s)
  end.

(** When an event can happen: packets arrive on faces of the table, timers fire when they
    are due, a face object is new, or has left the table, when it is freed, a face is removed
    when it closes, while it is in the table, and the callers of the tables meet their
    preconditions (a name the tables can hold, an entry that is there, the default strategy
    stays). *)
Definition fib_has (prefix : Name) (s : Fw) : Prop := is_Some (fib_map (ts_nt (fw_tables s)) !! prefix).
Definition enabled (s : Fw) (ev : Event) : Prop :=
  match ev with
  | EvInterest face i => in_table (fw_faces s) face /\ valid_name (i_name i)
  | EvData face d => in_table (fw_faces s) face /\ length (d_digest d) = DIGEST_SIZE /\ valid_name (d_name d)
  | EvNack face _ => in_table (fw_faces s) face
  | EvDropped face _ => in_table (fw_faces s) face
  | EvExpiry p => exists e t, attached (fw_tables s) p e /\ pe_expiryTimer e = Some t /\ (t <= fw_now s)%Z
  | EvClock t => (fw_now s <= t)%Z
  | EvDnlMark => (dnl_markEvent (fw_dnl s) <= fw_now s)%Z
  | EvDnlAdjust => (dnl_adjustEvent (fw_dnl s) <= fw_now s)%Z
  | EvCsStale i => exists q p t, cs_policy (fw_cs s) = PolicyPriorityFifo q /\
                     pf_info q !! i = Some (mkEntryInfo p (Some t)) /\ (t <= fw_now s)%Z
  | EvMeasCleanup n => exists e t, meas_map (ts_nt (fw_tables s)) !! n = Some e /\ me_cleanup e = Some t /\ (t <= fw_now s)%Z
  | EvStrategyTimer src => exists t o c, timer_at src s = Some (t, o, c) /\ (t <= fw_now s)%Z
  | EvAsfExpire n faceId => exists m d f fi t, meas_item n ASF_NAMESPACE_INFO s = Some (AsfNamespaceInfo m d f) /\
      m !! faceId = Some fi /\ fi_measurementExpiration fi = Some t /\ (t <= fw_now s)%Z
  | EvFaceNew p _ => ft_heap (fw_faces s) !! p = None /\ ft_wireless (fw_faces s) <> Some p
  | EvFaceAdd p => (exists f, ft_heap (fw_faces s) !! p = Some f /\ f_id f = INVALID_FACEID) /\
                   (ft_lastFaceId (fw_faces s) + 1 < 2 ^ 64)%N
  | EvFaceRemove id => is_Some (ft_get id (fw_faces s))
  | EvFaceFree p => exists f, ft_heap (fw_faces s) !! p = Some f /\ f_id f = INVALID_FACEID
  | EvFibInsert prefix => (length prefix <= getMaxDepth)%nat
  | EvFibAddNextHop prefix face _ => fib_has prefix s /\ in_table (fw_faces s) face
  | EvFibRemoveNextHop prefix _ => fib_has prefix s
  | EvFibErase prefix => fib_has prefix s
  | EvSetStrategy _ _ => True
  | EvUnsetStrategy prefix => prefix <> []
  | EvCsErase _ _ => True
  | EvCsLimit _ => True
  end.

(** A run of the forwarder from its initial state. *)
Definition Fw_init (now : time) (dnl : DeadNonceList) (policy : UnsolicitedDataPolicy) (regions : list Name) : Fw :=
  mkFw now FaceTable_new ts_init (Cs_new 10) dnl regions policy Counters_new 0 [] ss_init.

Inductive step (s : Fw) : Fw -> Prop :=
| step_event ev s' : enabled s ev -> handle ev s = Done tt s' -> step s s'.

Inductive reachable (s0 : Fw) : Fw -> Prop :=
| reachable_init : reachable s0 s0
| reachable_step s s' : reachable s0 s -> step s s' -> reachable s0 s'.
End system.
