(* ===== verification/PipelinesInv.v ===== *)
(** * The pipelines keep the forwarder's invariant

    For every strategy that meets [StrategyLaws], each incoming pipeline and each other
    event keeps [fw_ok], sends only what [out_ok] allows, and fails only as [may_fail]
    says; so every reachable state is [fw_ok]. *)

From S2P Require Import Prelude Name Uri Packet FaceKeyed PitEntry FibEntry NodeStore NameTree NameTreeInv.
From S2P Require Import Tables Fib Pit Measurements StrategyRegistry StrategyChoice Cleanup Frames FaceTable.
From S2P Require Import ContentStore CsInv DeadNonceList RateControl Forwarder FwAlgorithm Strategy Actions StrategyInv.
From S2P Require Import Accessor MeasuringInv Pipelines.

Section laws.
Context {Henv : Env} (strategies : StrategyInstance -> StrategyOps).
Context {Hlaws : forall inst, StrategyLaws inst.1 (strategies inst)}.

Lemma keeps_dispatch (P : Fw -> Prop) p j trigger :
  (forall s, P s -> pending p j s) ->
  (forall inst, keeps (fun s => P s /\ uses inst.1 s) (trigger (strategies inst)) (fun _ _ => True)) ->
  keeps P (dispatchToStrategy strategies p trigger) (fun _ _ => True).
Proof.
  intros Hp Ht s Hs HP. destruct (Hp s HP) as (e & He & _). pose proof He as [Hp' _].
  unfold dispatchToStrategy, the_pit, gets, mbind, M_bind. rewrite Hp'. simpl.
  destruct (effective_pit s p e Hs He) as [inst E]. rewrite E. apply (Ht inst s Hs). split; [done|by eapply effective_uses].
Qed.

(** ** Interests *)

Lemma keeps_onInterestLoop (P : Fw -> Prop) `{!Stable P} q i :
  (forall s, P s -> live q s) -> keeps P (onInterestLoop q i) (fun _ _ => True).
Proof.
  intros Hq. keep_bind keeps_the_face. intros f. apply keeps_if; intros Hl; [apply keeps_done|].
  apply keeps_emit. intros s Hs HP. keep_facts. exists f. split; [done|].
  by apply negb_false_iff, bool_decide_eq_true in Hl.
Qed.

(** The entry a pipeline inserted its Interest into is for that Interest. *)
Definition requested (p : PitPtr) (i : Interest) (s : Fw) : Prop :=
  exists j, pending p j s /\ same_request i j.
#[export] Instance stable_requested p i : Stable (requested p i).
Proof. intros s s' H1 H2 He (j & Hj & ?). exists j. split; [|done]. exact (stable (P:=pending p j) s s' H1 H2 He Hj). Qed.

Lemma keeps_exists {A B} (P : B -> Fw -> Prop) (m : M A) Q :
  (forall x, keeps (P x) m Q) -> keeps (fun s => exists x, P x s) m Q.
Proof. intros H s Hs [x Px]. by apply (H x). Qed.

(** A forwarding hint that the producer region has not been reached with. *)
Definition outside (i : Interest) (s : Fw) : Prop := isInProducerRegion (fw_regions s) (i_forwardingHint i) = false.
#[export] Instance stable_outside i : Stable (outside i).
Proof. intros s s' _ _ He. unfold outside. by rewrite (ev_regions _ _ He). Qed.
Lemma region_no_hint regions : isInProducerRegion regions [] = false.
Proof. unfold isInProducerRegion. by induction regions. Qed.

Lemma pit_insert_interest i t q x : attached (Pit_insert i t).1 q x -> attached t q x \/ pe_interest x = i.
Proof.
  unfold Pit_insert, Pit_findOrInsert.
  assert (ts_pit (ts_lookup (i_name i) (pit_depth (i_name i)) t) = ts_pit t) as HP by done.
  set (t1 := ts_lookup (i_name i) (pit_depth (i_name i)) t) in *. clearbody t1.
  destruct (find_match _ _ _ t1) as [p|]; cbn [negb fst]; [|unfold new_pit_entry; cbn [fst]]; intros [Hq Hn].
  - rewrite HP in Hq. by left.
  - simpl in Hq. apply lookup_insert_Some in Hq as [[<- <-]|[_ Hq]]; [by right|]. rewrite HP in Hq. by left.
Qed.

Lemma keeps_pit_insert (P : Fw -> Prop) i :
  (forall s, P s -> outside i s) -> keeps P (pit_insert i) (fun p s => requested p i s).
Proof.
  intros Hout s Hs HPs. unfold pit_insert, gets, modify, mbind, M_bind.
  pose proof (pit_findOrInsert_ok i true (fw_tables s) (fo_tables _ Hs)) as H.
  destruct (pit_insert_frame i (fw_tables s) (fo_tables _ Hs)) as (HF & HS & HP & HM).
  pose proof (pit_insert_interest i (fw_tables s)) as HI.
  unfold Pit_insert in *. destruct (Pit_findOrInsert i true (fw_tables s)) as [t' [[p|] b]]; simpl in *.
  2: { by destruct H as (_ & [? _] & _). }
  destruct H as (Hok & (e & He & Hr & _) & _ & Hkeep).
  split_and!; [|split; simpl; try done; [apply HS|apply HF|by rewrite HM| |]|].
  - destruct Hs as [H1 H2 H3 H4 H5 H6 H7 H8 H9 H10 H11 H12]. split; simpl; try done.
    + by eapply fib_same_counted.
    + by eapply sc_same_counted.
    + by rewrite (proj1 HS).
    + intros n f nh. rewrite (proj1 HF). apply H10.
    + intros q x Hx. apply HP in Hx as [Hx|[E1 E2]]; [by apply (H11 q)|].
      split; rewrite ?E1, ?E2; by intros r ?%not_elem_of_nil.
    + intros q x Hx. destruct (HI q x Hx) as [Hx'| ->]; [by apply (H12 q)|by apply Hout].
  - intros q x [Hx Hn]. exists x. split; [|done]. split; [by apply Hkeep|done].
  - exists []. by rewrite app_nil_r.
  - exists (pe_interest e). split; [by exists e|done].
Qed.

Lemma step_insert_requested s p now q i :
  intab q s -> requested p i s -> entry_step s p (insertOrUpdateInRecord now q i).
Proof.
  intros Hq (j & (e & He & <-) & Hr). apply step_insertIn; [done| |by exists e].
  intros e' [He' _]. destruct He as [He _]. rewrite He in He'. by injection He' as <-.
Qed.

(** A pending entry found again in the state. *)
Lemma keeps_the_requested (P : Fw -> Prop) p i :
  (forall s, P s -> requested p i s) ->
  keeps P (the_pit p) (fun e s => (same_request i (pe_interest e) /\ wf_entry e) /\ entry_faces e s).
Proof.
  intros Hp s Hs HP. destruct (Hp s HP) as (j & Hj & Hr).
  pose proof (keeps_the_pit (fun s => pending p j s) p j (fun _ H => H) s Hs Hj) as H.
  destruct (the_pit p s) as [e s'|]; [|done]. destruct H as (H1 & H2 & ((<- & H4) & H5)). by split_and!.
Qed.

Lemma insertOrUpdateInRecord_nonempty now q i e : pe_inRecords (insertOrUpdateInRecord now q i e) <> [].
Proof.
  rewrite insertOrUpdateInRecord_upsert. intros E. assert (q ∈ @nil FacePtr) as H; [|by apply not_elem_of_nil in H].
  change (@nil FacePtr) with (ir_face <$> []). rewrite <- E. apply upsert_keys; [done|by intros []|by left].
Qed.

Lemma keeps_assoc {A B C} (P : Fw -> Prop) (m : M A) (f : A -> M B) (k : B -> M C) R :
  keeps P ((m ≫= f) ≫= k) R -> keeps P (m ≫= fun a => f a ≫= k) R.
Proof.
  intros H s Hs HP. specialize (H s Hs HP). unfold mbind, M_bind in *. by destruct (m s).
Qed.

Lemma keeps_reads {A} (P : Fw -> Prop) (f : Fw -> A) (Q : A -> Fw -> Prop) :
  (forall s, fw_ok s -> P s -> Q (f s) s) -> keeps P (gets f) Q.
Proof. intros H s Hs HP. split_and!; [done|reflexivity|by apply H]. Qed.

Lemma keeps_insert_in (P : Fw -> Prop) `{!Stable P} now p q i :
  (forall s, P s -> intab q s) -> (forall s, P s -> requested p i s) ->
  keeps P (update_pit p (insertOrUpdateInRecord now q i);; the_pit p) (fun e s => pe_inRecords e <> []).
Proof.
  intros Hq Hp s Hs HP.
  assert (entry_step s p (insertOrUpdateInRecord now q i)) as Hstep by auto using step_insert_requested.
  destruct (Hp s HP) as (j & (e & [He Hn] & _) & _).
  unfold update_pit, modify, the_pit, gets, mbind, M_bind. simpl. rewrite lookup_alter_eq, He. simpl.
  split_and!; [by apply fw_ok_update|by apply evolves_update|apply insertOrUpdateInRecord_nonempty].
Qed.

Lemma requested_pending p i s : requested p i s -> exists j, pending p j s.
Proof. intros (j & ? & _). by exists j. Qed.

(** With a requested entry at hand, reason about the Interest it is for. *)
Lemma keeps_requested {A} (P : Fw -> Prop) p i (m : M A) Q :
  (forall s, P s -> requested p i s) -> (forall j, same_request i j -> keeps (fun s => P s /\ pending p j s) m Q) -> keeps P m Q.
Proof. intros Hp Hm s Hs HP. destruct (Hp s HP) as (j & Hj & Hr). by apply (Hm j Hr). Qed.
Lemma keeps_assert_requested (P : Fw -> Prop) p i :
  (forall s, P s -> requested p i s) -> keeps P (assert_canMatch p i) (fun _ _ => True).
Proof. intros Hp. apply (keeps_requested P p i); [done|]. intros j Hr. apply keeps_assert_canMatch with j; [by intros s []|done]. Qed.

(** Data that satisfies an Interest satisfies every Interest of the same request, whatever its tags. *)
Lemma matches_request i j d : same_request i j -> matchesData i d = matchesData j d.
Proof. intros (E1 & E2 & E3). unfold matchesData. by rewrite E1, E2, E3. Qed.

Lemma keeps_onContentStoreMiss (P : Fw -> Prop) `{!Stable P} q p i :
  (forall s, P s -> intab q s) -> (forall s, P s -> requested p i s) ->
  keeps P (onContentStoreMiss strategies q p i) (fun _ _ => True).
Proof.
  intros Hq Hp. apply keeps_seq; [done|apply keeps_count|]. apply keeps_then; [done|apply keeps_get|]. intros now.
  apply keeps_seq; [done|by apply keeps_assert_requested|].
  apply (keeps_assoc P _ (fun _ => the_pit p)). eapply keeps_bind; [done|by apply keeps_insert_in|]. cbn beta. intros e.
  apply keeps_pure. intros Hne.
  destruct (max_element_Some (fun r => fr_expiry (ir_rec r)) (pe_inRecords e) Hne) as (last & -> & _).
  apply keeps_seq; [done|by apply keeps_setExpiryTimer|].
  apply (keeps_requested P p i); [done|]. intros j Hr. destruct (i_nextHopFaceId i) as [tag|] eqn:Et.
  - eapply keeps_bind; [apply _|apply (keeps_reads _ _ (fun faces s => forall h, ft_get tag faces = Some h -> intab h s))|].
    { intros s Hs _ h Hh. apply in_table_spec; [apply Hs|]. by exists tag. }
    cbn beta. intros faces. destruct (ft_get tag faces) as [h|]; [|apply keeps_done].
    apply keeps_void; [apply _|]. eapply keeps_onOutgoingInterest; [apply _|keep_side|done|keep_side|].
    intros s _ f _ _. right. rewrite Et. by eexists.
  - eapply keeps_dispatch; [keep_side|]. intros inst.
    eapply keeps_weaken; [by apply (sl_interest (S:=strategies inst) q i p j)|keep_side|done].
Qed.

Lemma keeps_modify_cs (P : Fw -> Prop) f :
  (forall c, cs_ok c -> cs_within_limit c -> cs_ok (f c) /\ cs_within_limit (f c)) ->
  keeps P (modify (fun s => with_cs (f (fw_cs s)) s)) (fun _ _ => True).
Proof.
  intros Hf. apply keeps_modify. intros s Hs _. split.
  - destruct Hs as [H1 H2 H3 H4 H5 H6 H7 H8 H9 H10 H11 H12]. destruct (Hf (fw_cs s) H5 H6). by split.
  - by apply evolves_quiet.
Qed.

Lemma retag_stored_ok d c : cs_ok c -> cs_within_limit c -> cs_ok (retag_stored d c) /\ cs_within_limit (retag_stored d c).
Proof.
  intros Hok Hw. unfold retag_stored.
  destruct (cs_retag_ok (fun e => mkCsEntry d (ce_isUnsolicited e) (ce_freshUntil e)) (getFullName d) c) as [H1 H2]; [done|done|].
  split; [done|]. unfold cs_within_limit in *. simpl. by rewrite H2.
Qed.

Lemma keeps_onContentStoreHit (P : Fw -> Prop) `{!Stable P} q p i d :
  (forall s, P s -> intab q s) -> (forall s, P s -> requested p i s) -> matchesData i d = true ->
  keeps P (onContentStoreHit strategies q p i d) (fun _ _ => True).
Proof.
  intros Hq Hp Hm. apply keeps_seq; [done|apply keeps_count|].
  apply keeps_seq; [done|apply keeps_modify_cs; intros c; apply retag_stored_ok|].
  apply keeps_seq; [done|apply keeps_update_pit; auto with ndn|].
  apply keeps_seq; [done|by apply keeps_setExpiryTimer|].
  apply (keeps_requested P p i); [done|]. intros j Hr. eapply keeps_dispatch; [keep_side|]. intros inst.
  eapply keeps_weaken; [apply (sl_hit (S:=strategies inst) q _ p j); rewrite <- (matches_request i j) by done; exact Hm|keep_side|done].
Qed.

Lemma keeps_cs_find (P : Fw -> Prop) `{!Stable P} {A} now i (k : option CsEntry -> M A) Q :
  (forall r, (forall e, r = Some e -> matchesData i (ce_data e) = true) -> keeps P (k r) Q) ->
  keeps P (c ← gets fw_cs; let '(c, r) := Cs_find now i c in modify (with_cs c);; k r) Q.
Proof.
  intros Hk s Hs HP. unfold gets, modify, mbind, M_bind. pose proof (cs_find_ok now i (fw_cs s) (fo_cs _ Hs)) as H.
  destruct (Cs_find now i (fw_cs s)) as [c r]. destruct H as (H1 & H2 & H3 & H4).
  assert (fw_ok (with_cs c s)) as Hs'.
  { destruct Hs as [A1 A2 A3 A4 A5 A6 A7 A8 A9 A10 A11 A12]. split; try done. unfold cs_within_limit in *. simpl. congruence. }
  assert (evolves s (with_cs c s)) as He by by apply evolves_quiet.
  assert (forall e, r = Some e -> matchesData i (ce_data e) = true) as Hr.
  { intros e Hr. by destruct (H4 e Hr) as [_ H%canSatisfy_matches]. }
  specialize (Hk r Hr (with_cs c s) Hs' (stable s _ Hs Hs' He HP)).
  destruct (k r (with_cs c s)) as [a s'|x]; [|by eapply may_fail_evolves].
  destruct Hk as (? & ? & ?). split_and!; [done|by etrans|done].
Qed.

(** The Interest with its forwarding hint stripped in the producer region. *)
Definition outside_regions (regions : list Name) (i : Interest) : Interest :=
  match i_forwardingHint i with
  | [] => i
  | fh => if isInProducerRegion regions fh then setForwardingHint [] i else i
  end.
Lemma outside_spec s i : outside (outside_regions (fw_regions s) i) s.
Proof.
  unfold outside, outside_regions. destruct (i_forwardingHint i) as [|x l] eqn:E; [rewrite E; apply region_no_hint|].
  destruct (isInProducerRegion _ (x :: l)) eqn:Er; [apply region_no_hint|by rewrite E].
Qed.

Lemma keeps_onIncomingInterest q i :
  keeps (fun s => intab q s) (onIncomingInterest strategies q i) (fun _ _ => True).
Proof.
  keep_bind keeps_the_face. intros f. apply keeps_seq; [apply _|apply keeps_count|].
  apply keeps_if; intros _; [by apply keeps_face_counter|]. set (i1 := match i_hopLimit _ with Some h => _ | None => _ end).
  clearbody i1. apply keeps_if; intros _; [apply keeps_done|].
  apply keeps_then; [apply _|apply keeps_get|]. intros dup.
  assert (forall P' `{!Stable P'} i, (forall s, P' s -> live q s) -> keeps P' (onInterestLoop q i) (fun _ _ => True)) as Hloop
    by (intros; by apply keeps_onInterestLoop).
  apply keeps_if; intros _; [apply Hloop; [apply _|keep_side]|].
  eapply keeps_bind; [apply _|apply (keeps_reads _ _ (fun regions => outside (outside_regions regions i1)))|].
  { intros s _ _. apply outside_spec. }
  cbn beta. intros regions. fold (outside_regions regions i1). set (i2 := outside_regions regions i1).
  clearbody i2. eapply keeps_bind; [apply _|apply keeps_pit_insert; keep_side|]. intros p.
  eapply keeps_bind; [apply _|apply (keeps_the_requested _ p i2); keep_side|]. intros e. cbn beta.
  apply keeps_if; intros _; [apply Hloop; [apply _|keep_side]|].
  apply keeps_if; intros _; [|apply keeps_onContentStoreMiss; [apply _|keep_side|keep_side]].
  apply keeps_then; [apply _|apply keeps_get|]. intros now. apply keeps_cs_find; [apply _|]. intros [en|] Hen.
  - apply keeps_onContentStoreHit; [apply _|keep_side|keep_side|auto].
  - apply keeps_onContentStoreMiss; [apply _|keep_side|keep_side].
Qed.

(** ** Data *)

Lemma keeps_draw_nonce (P : Fw -> Prop) `{!Stable P} : keeps P draw_nonce (fun _ _ => True).
Proof.
  apply keeps_then; [done|apply keeps_get|]. intros n. apply keeps_seq; [done| |by apply keeps_ret].
  apply keeps_modify. intros s Hs _. split; [by apply (fw_ok_same s); [..|apply Hs|]|]. by apply evolves_quiet.
Qed.

(** The in-records of one entry, copied to another. *)
Lemma step_insert_all s p now i l :
  requested p i s -> (forall r, r ∈ l -> intab (ir_face r) s) -> entry_step s p (insert_inRecords now i l).
Proof.
  intros (j & (e0 & [He0 _] & <-) & Hr) Hl.
  assert (forall l e, pe_nte (insert_inRecords now i l e) = pe_nte e /\ pe_interest (insert_inRecords now i l e) = pe_interest e) as HP.
  { clear. intros l. unfold insert_inRecords. induction l as [|r l IH]; intros e; [done|]. simpl.
    destruct (IH (insertOrUpdateInRecord now (ir_face r) i e)) as [-> ->]. done. }
  split; [by intros e| |].
  - intros e He. rewrite He in He0. injection He0 as ->. revert Hr. clear. unfold insert_inRecords. revert e0.
    induction l as [|r l IH]; intros e Hr Hw; [done|]. simpl. apply IH; [done|]. by apply wf_insertOrUpdateInRecord.
  - intros e _ He. revert e He. unfold insert_inRecords. induction l as [|r l IH]; intros e He; [done|]. simpl.
    apply IH; [intros x Hx; apply Hl; by right|]. destruct He as [H1 H2]. split; [|done].
    rewrite insertOrUpdateInRecord_upsert. apply upsert_in_table; try done. apply Hl. by left.
Qed.

Lemma keeps_request_named (P : Fw -> Prop) `{!Stable P} p fileName k nm j :
  (forall s, P s -> pending p j s) -> segmentName fileName k = Some nm -> keeps P (request_segment p fileName k) (fun _ _ => True).
Proof.
  intros Hp Hn. unfold request_segment. rewrite Hn.
  apply keeps_then; [done|by apply keeps_draw_nonce|]. intros nonce.
  eapply keeps_bind; [done|apply keeps_pit_insert; intros s _; apply region_no_hint|]. intros q. cbn beta. keep_bind keeps_the_pit. intros e.
  apply keeps_then; [apply _|apply keeps_get|]. intros now.
  apply keeps_seq; [apply _|apply keeps_assert_requested; keep_side|].
  apply keeps_update_pit. intros s Hs Hall. keep_facts.
  apply step_insert_all; [done|]. intros r Hr. by eapply entry_in.
Qed.

(** The announcement of a file whose number of segments cannot be read, or the name of one of
    whose segments cannot be built. *)
Definition malformed_announcement (d : Data) : Prop :=
  isPrefixOf file_prefix (d_name d) = true /\
  (segmentCount d = None \/ exists n k, segmentCount d = Some n /\ (k < Z.to_nat n)%nat /\
     segmentName (Name_toUri env_alt_uri (getSubName (d_name d) 1 1)) k = None).
(** The failures that depend on the Data. *)
Definition data_fails (d : Data) (e : fw_error) : Prop :=
  match e with
  | UncaughtException => malformed_announcement d
  | NegativeFreshness => (d_freshness d < 0)%Z
  | _ => False
  end.

Lemma keeps_request_segments (P : Fw -> Prop) `{!Stable P} p d j :
  (forall s, P s -> pending p j s) -> keepsX (data_fails d) P (request_segments p d) (fun _ _ => True).
Proof.
  intros Hp. apply keepsX_if; intros Hf; [|apply keepsX_keeps, keeps_done].
  destruct (segmentCount d) as [n|] eqn:En; [|apply keepsX_fail; intros s _ _; split; [done|by left]].
  apply keepsX_forM; [done|]. intros k Hk%elem_of_seq.
  destruct (segmentName (Name_toUri env_alt_uri (getSubName (d_name d) 1 1)) k) as [nm|] eqn:E.
  - eapply keepsX_keeps, keeps_request_named; [done|exact Hp|exact E].
  - unfold request_segment. rewrite E. apply keepsX_fail. intros s _ _. split; [done|]. right. exists n, k. split_and!; [done|lia|done].
Qed.

Lemma keeps_satisfy_one q d p j : matchesData j d = true ->
  keepsX (data_fails d) (fun s => intab q s /\ pending p j s) (satisfy_one strategies q d p) (fun _ _ => True).
Proof.
  intros Hm. apply keepsX_seq; [apply _|eapply keeps_request_segments; [apply _|keep_side]|].
  apply keepsX_seq; [apply _|apply keepsX_keeps, keeps_setExpiryTimer; apply _|].
  apply keepsX_seq; [apply _|eapply keepsX_keeps, keeps_dispatch; [keep_side|]; intros inst; by apply (sl_data (S:=strategies inst))|].
  eapply keeps_satisfied_dnl; [apply _|keep_side|done|].
  apply keepsX_keeps, keeps_update_pit. auto with ndn.
Qed.

Definition all_pending (l : list PitPtr) (s : Fw) : Prop := forall p, p ∈ l -> exists j, pending p j s.
#[export] Instance stable_all_pending l : Stable (all_pending l).
Proof.
  intros s s' H1 H2 He Hl p Hp. destruct (Hl p Hp) as [j Hj]. exists j.
  exact (stable (P:=pending p j) s s' H1 H2 He Hj).
Qed.
#[export] Instance stable_all_in_table l : Stable (all_in_table l).
Proof. intros s s' H1 H2 He Hl q Hq. exact (stable (P:=intab q) s s' H1 H2 He (Hl q Hq)). Qed.

Lemma keeps_first_pending {A} (P : Fw -> Prop) p l (m : M A) Q :
  (forall s, P s -> all_pending (p :: l) s) -> (forall j, keeps (fun s => P s /\ pending p j s) m Q) -> keeps P m Q.
Proof. intros Hp Hm s Hs HP. destruct (Hp s HP p) as [j Hj]; [by left|]. by apply (Hm j). Qed.

Lemma keepsX_first_pending X {A} (P : Fw -> Prop) p l (m : M A) Q :
  (forall s, P s -> all_pending (p :: l) s) -> (forall j, keepsX X (fun s => P s /\ pending p j s) m Q) -> keepsX X P m Q.
Proof. intros Hp Hm s Hs HP. destruct (Hp s HP p) as [j Hj]; [by left|]. by apply (Hm j). Qed.

Lemma keeps_satisfy_each q d l : forall (P : Fw -> Prop) `{!Stable P},
  (forall s, P s -> intab q s) -> (forall s, P s -> all_pending l s) ->
  keepsX (data_fails d) P (satisfy_each strategies q d l) (fun r s => all_in_table r s).
Proof.
  induction l as [|p l IH]; intros P HS Hq Hl; simpl.
  { apply keepsX_keeps, keeps_ret. intros s _ x Hx. by apply not_elem_of_nil in Hx. }
  apply (keepsX_first_pending _ P p l); [done|]. intros j.
  eapply keepsX_bind; [apply _|apply keepsX_keeps, keeps_the_pit; keep_side|cbn beta]. intros e.
  apply keepsX_then; [apply _|apply keepsX_keeps, keeps_get|]. intros now.
  apply keepsX_seq; [apply _|apply keepsX_keeps, keeps_setExpiryTimer; apply _|].
  apply keepsX_seq; [apply _| |].
  { eapply keepsX_keeps, keeps_dispatch; [keep_side|]. intros inst.
    eapply keeps_weaken; [apply (sl_satisfy (S:=strategies inst))|keep_side|done]. }
  eapply keeps_satisfied_dnl; [apply _|keep_side|done|].
  apply keepsX_seq; [apply _|apply keepsX_keeps, keeps_update_pit; auto with ndn|].
  apply keepsX_seq; [apply _|apply keepsX_keeps, keeps_update_pit; auto with ndn|].
  eapply keepsX_bind; [apply _|apply IH; [apply _|keep_side|]|].
  { intros s [[HP _] _] x Hx. apply (Hl s HP). by right. }
  intros rest. apply keepsX_keeps, keeps_ret. intros s ((_ & _ & He) & Hr) x. rewrite elem_of_app. intros [Hx|Hx]; [|by apply Hr].
  unfold unexpired_downstreams in Hx. apply list_elem_of_fmap in Hx as (r & -> & Hr').
  apply list_elem_of_In, filter_In in Hr' as [Hr' _]. eapply entry_in; [exact He|]. by apply list_elem_of_In.
Qed.

Lemma keeps_satisfy_many q d l :
  keepsX (data_fails d) (fun s => intab q s /\ all_pending l s) (satisfy_many strategies q d l) (fun _ _ => True).
Proof.
  eapply keepsX_bind; [apply _|apply keeps_satisfy_each; [apply _|keep_side|keep_side]|]. intros r.
  apply keepsX_keeps, keeps_forM; [apply _|]. intros x Hx%ptr_set_elem.
  eapply keeps_bind; [apply _|apply keeps_the_face|]; [intros s [_ Hr]; apply intab_live; auto|]. intros f.
  keep_bind keeps_the_face. intros g. apply keeps_if; intros _; [apply keeps_done|].
  apply keeps_void; [apply _|]. apply keeps_onOutgoingData; [apply _|]. intros s (((_ & Hr) & _) & _).
  apply intab_live. auto.
Qed.

Lemma keeps_cs_insert (P : Fw -> Prop) `{!Stable P} d u : keeps P (cs_insert d u) (fun _ _ => True).
Proof.
  apply keeps_then; [done|apply keeps_get|]. intros now. apply keeps_modify_cs. intros c. apply cs_insert_ok.
Qed.

(** Entries whose Interests the Data satisfies. *)
Definition all_matching (d : Data) (l : list PitPtr) (s : Fw) : Prop :=
  forall p, p ∈ l -> exists j, pending p j s /\ matchesData j d = true.
#[export] Instance stable_all_matching d l : Stable (all_matching d l).
Proof.
  intros s s' H1 H2 He Hl p Hp. destruct (Hl p Hp) as (j & Hj & Hm). exists j. split; [|done].
  exact (stable (P:=pending p j) s s' H1 H2 He Hj).
Qed.

Lemma keeps_onIncomingData q d :
  keepsX (data_fails d) (fun s => intab q s) (onIncomingData strategies q d) (fun _ _ => True).
Proof.
  eapply keepsX_bind; [apply _|apply keepsX_keeps, keeps_the_face; keep_side|cbn beta]. intros f.
  apply keepsX_seq; [apply _|apply keepsX_keeps, keeps_count|]. apply keepsX_if; intros _; [apply keepsX_keeps, keeps_done|].
  set (d1 := set_d_incomingFaceId (f_id f) d).
  eapply keepsX_bind; [apply _|apply keepsX_keeps, (keeps_reads _ _ (fun t s => all_matching d1 (Pit_findAllDataMatches d1 t) s))|].
  { intros s Hs _ p Hp. apply findAllDataMatches_sound in Hp as (e & He & Hm); [|apply Hs]. exists (pe_interest e). by split; [exists e|]. }
  cbn beta. intros t. destruct (Pit_findAllDataMatches d1 t) as [|p l].
  - apply keepsX_keeps. keep_bind keeps_the_face. intros g. apply keeps_then; [apply _|apply keeps_get|]. intros pol.
    apply keeps_seq; [apply _| |apply keeps_count].
    destruct (decide_unsolicited pol g); [apply keeps_done|apply keeps_cs_insert; apply _].
  - apply keepsX_seq; [apply _|apply keepsX_keeps, keeps_cs_insert; apply _|]. destruct l as [|p' l].
    + intros s Hs [[Hq _] Hall]. destruct (Hall p) as (j & Hj & Hm); [by left|].
      by apply (keeps_satisfy_one q d1 p j Hm s Hs).
    + eapply keepsX_weaken; [exact (keeps_satisfy_many q d1 (p :: p' :: l))| |done].
      intros s [[Hq _] Hall]. split; [done|]. intros x Hx. destruct (Hall x Hx) as (j & Hj & _). by exists j.
Qed.

(** ** Nacks, dropped Interests and new nexthops *)

Lemma keeps_onIncomingNack q n :
  keeps (fun s => intab q s) (onIncomingNack strategies q n) (fun _ _ => True).
Proof.
  keep_bind keeps_the_face. intros f. apply keeps_seq; [apply _|apply keeps_count|]. apply keeps_if; intros _; [apply keeps_done|].
  eapply keeps_bind; [apply _|apply (keeps_reads _ _ (fun t s => forall p, Pit_find (n_interest n) t = Some p -> all_pending [p] s))|].
  { intros s Hs _ p Hp x ->%list_elem_of_singleton. apply pit_find_attached in Hp as (e & He & _); [|apply Hs].
    by exists (pe_interest e), e. }
  cbn beta. intros t. destruct (Pit_find (n_interest n) t) as [p|]; [|apply keeps_done].
  apply (keeps_first_pending _ p []); [intros s [_ H]; by apply H|]. intros j. keep_bind keeps_the_pit. intros e.
  destruct (getOutRecord e q) as [r|]; [|apply keeps_done]. apply keeps_if; intros _; [apply keeps_done|].
  apply keeps_seq; [apply _|apply keeps_update_pit; intros; apply step_updateOut|].
  { intros x. left. unfold setIncomingNack. by repeat case_match. }
  keep_bind keeps_the_pit. intros e'. apply keeps_then; [apply _|apply keeps_get|]. intros now.
  apply keeps_seq; [apply _|apply keeps_if; intros _; [apply keeps_setExpiryTimer; apply _|apply keeps_done]|].
  eapply keeps_dispatch; [keep_side|]. intros inst.
  eapply keeps_weaken; [apply (sl_nack (S:=strategies inst))|keep_side|done].
Qed.

Lemma keeps_onDroppedInterest q i :
  keeps (fun s => intab q s) (Fw_onDroppedInterest strategies q i) (fun _ _ => True).
Proof.
  intros s Hs Hq. unfold Fw_onDroppedInterest, gets, mbind, M_bind.
  destruct (effective_name s (i_name i) Hs) as [inst ->]. by apply (sl_dropped (S:=strategies inst)).
Qed.

Lemma keeps_onNewNextHop prefix nh :
  keeps (fun s => intab (nh_face nh) s) (onNewNextHop strategies prefix nh) (fun _ _ => True).
Proof.
  apply keeps_then; [apply _|apply keeps_get|]. intros m. apply keeps_forM; [apply _|]. intros n _.
  eapply keeps_bind; [apply _|apply (keeps_reads _ _ (fun t s => all_pending (pits_at (ts_nt t) n) s))|].
  { intros s Hs _ p Hp. apply pits_at_attached in Hp as (e & He & _); [|apply Hs]. by exists (pe_interest e), e. }
  cbn beta. intros t. apply keeps_forM; [apply _|]. intros p Hp.
  apply (keeps_first_pending _ p []); [intros s [_ H] x ->%list_elem_of_singleton; by apply H|]. intros j.
  eapply keeps_dispatch; [keep_side|]. intros inst.
  eapply keeps_weaken; [apply (sl_nexthop (S:=strategies inst))|keep_side|done].
Qed.
End laws.
