(* ===== verification/SystemInv.v ===== *)
(** * Every step of the forwarder keeps its invariant

    The events that are not packets change one component each; with the pipelines this
    gives the safety of every step, and the invariant of every reachable state. *)

From S2P Require Import Prelude Name Uri Packet FaceKeyed PitEntry FibEntry NodeStore NameTree NameTreeInv.
From S2P Require Import Tables Fib Pit Measurements StrategyRegistry StrategyChoice Cleanup Frames FaceTable.
From S2P Require Import ContentStore CsInv DeadNonceList RateControl Forwarder FwAlgorithm Strategy Actions StrategyInv.
From S2P Require Import Accessor MeasuringInv AccessStrategy NccStrategy AsfStrategy Pipelines PipelinesInv.

(** How a step may end: in an [fw_ok] state, having sent what [out_ok] allows, or in one of
    the failures of [may_fail]. *)
Definition safe_end (s : Fw) (r : Result unit) : Prop :=
  match r with
  | Done _ s' => fw_ok s' /\ exists sent, fw_out s' = fw_out s ++ sent /\ Forall (out_ok (fw_faces s)) sent
  | Wrong e => may_fail s e
  end.
Definition safe (P : Fw -> Prop) (m : M unit) : Prop := forall s, fw_ok s -> P s -> safe_end s (m s).

Lemma keeps_safe P m : keeps P m (fun _ _ => True) -> safe P m.
Proof.
  intros H s Hs HP. specialize (H s Hs HP). unfold safe_end. destruct (m s) as [a s'|]; [|done].
  destruct H as (? & He & _). split; [done|apply He].
Qed.

Lemma safe_bind {A} (P : Fw -> Prop) `{!Stable P} (m : M A) f Q :
  keeps P m Q -> (forall a, safe (fun s => P s /\ Q a s) (f a)) -> safe P (m ≫= f).
Proof.
  intros Hm Hf s Hs HP. specialize (Hm s Hs HP). unfold mbind, M_bind. destruct (m s) as [a s1|]; [|done].
  destruct Hm as (Hs1 & He & Qa). specialize (Hf a s1 Hs1 (conj (stable s s1 Hs Hs1 He HP) Qa)).
  unfold safe_end in *. destruct (f a s1) as [b s2|e]; [|by eapply may_fail_evolves].
  destruct Hf as (H2 & n2 & E2 & F2). split; [done|]. destruct He as [_ Hsame _ _ _ _ _ _ (n1 & E1 & F1)].
  exists (n1 ++ n2). rewrite E2, E1, app_assoc. split; [done|]. apply Forall_app. split; [done|].
  eapply Forall_impl; [exact F2|]. intros o. by apply out_ok_same.
Qed.

Lemma safe_modify (P : Fw -> Prop) f :
  (forall s, fw_ok s -> P s -> fw_ok (f s) /\ fw_out (f s) = fw_out s) -> safe P (modify f).
Proof.
  intros H s Hs HP. destruct (H s Hs HP) as [H1 H2]. split; [done|]. exists []. by rewrite app_nil_r.
Qed.

(** The same, with more failures. *)
Definition safe_endX (X : fw_error -> Prop) (s : Fw) (r : Result unit) : Prop :=
  match r with
  | Done _ s' => fw_ok s' /\ exists sent, fw_out s' = fw_out s ++ sent /\ Forall (out_ok (fw_faces s)) sent
  | Wrong e => may_fail s e \/ X e
  end.
Lemma safe_end_X X s r : safe_end s r -> safe_endX X s r.
Proof. destruct r; [done|by left]. Qed.
Lemma keepsX_safe X P m s : keepsX X P m (fun _ _ => True) -> fw_ok s -> P s -> safe_endX X s (m s).
Proof.
  intros H Hs HP. specialize (H s Hs HP). unfold safe_endX. destruct (m s) as [a s'|]; [|done].
  destruct H as (? & He & _). split; [done|apply He].
Qed.
Lemma safeX_bind X {A} (P P1 : Fw -> Prop) `{!Stable P1} (m : M A) f Q s :
  keepsX X P m Q -> (forall s, P s -> P1 s) -> (forall a, safe (fun s => P1 s /\ Q a s) (f a)) ->
  fw_ok s -> P s -> safe_endX X s ((m ≫= f) s).
Proof.
  intros Hm H1 Hf Hs HP. specialize (Hm s Hs HP). unfold mbind, M_bind. destruct (m s) as [a s1|]; [|done].
  destruct Hm as (Hs1 & He & Qa). specialize (Hf a s1 Hs1 (conj (stable s s1 Hs Hs1 He (H1 s HP)) Qa)).
  unfold safe_end, safe_endX in *. destruct (f a s1) as [b s2|e]; [|left; by eapply may_fail_evolves].
  destruct Hf as (H2 & n2 & E2 & F2). split; [done|]. destruct He as [_ Hsame _ _ _ _ _ _ (n1 & E1 & F1)].
  exists (n1 ++ n2). rewrite E2, E1, app_assoc. split; [done|]. apply Forall_app. split; [done|].
  eapply Forall_impl; [exact F2|]. intros o. by apply out_ok_same.
Qed.

(** New tables, on the same faces. *)
Lemma fw_ok_tables s t :
  fw_ok s -> ts_ok t -> fib_counted t -> sc_counted t -> is_Some (sc_map (ts_nt t) !! []) ->
  (forall n f nh, fib_map (ts_nt t) !! n = Some f -> nh ∈ fe_nextHops f -> in_table (fw_faces s) (nh_face nh)) ->
  (forall p e, attached t p e -> records_in_table (fw_faces s) e) ->
  (forall p e, attached t p e -> exists e0, attached (fw_tables s) p e0 /\ pe_interest e = pe_interest e0) -> fw_ok (with_tables t s).
Proof.
  intros Hs ? ? ? ? ? ? Hi. pose proof (fo_hints _ Hs) as Hh. destruct Hs. split; try done.
  intros p e (e0 & He0 & E)%Hi. simpl. rewrite E. by eapply Hh.
Qed.

(** What strategies keep is not part of the invariant. *)
Lemma fw_ok_strategy x s : fw_ok (with_strategy x s) <-> fw_ok s.
Proof. split; by intros []. Qed.
Lemma safe_end_strategy x s s' : fw_ok s' -> fw_out s' = fw_out s -> safe_end s (Done tt (with_strategy x s')).
Proof. intros H1 H2. split; [by apply fw_ok_strategy|]. exists []. by rewrite app_nil_r. Qed.
Lemma note_replaced_end prefix t t' s s' : fw_ok s' -> fw_out s' = fw_out s -> safe_end s (note_replaced prefix t t' s').
Proof.
  intros H1 H2. unfold note_replaced. case_bool_decide; [|by apply safe_end_strategy].
  split; [done|]. exists []. by rewrite app_nil_r.
Qed.

Lemma safe_end_tables s t r :
  sc_map (ts_nt t) = sc_map (ts_nt (fw_tables s)) ->
  (forall n f, fib_map (ts_nt t) !! n = Some f -> fe_nextHops f = [] -> fib_map (ts_nt (fw_tables s)) !! n = Some f) ->
  safe_end (with_tables t s) r -> safe_end s r.
Proof.
  intros E EF. destruct r as [u s'|e]; [done|]. destruct e; simpl; try done; unfold uses; simpl; rewrite ?E; try done.
  intros (Hne & f & Hf & Hh). split; [done|]. exists f. auto.
Qed.

(** A change of the FIB only. *)
Lemma fw_ok_fib s t :
  fw_ok s -> ts_ok t -> fib_counted t -> sc_same (fw_tables s) t -> ts_pit t = ts_pit (fw_tables s) ->
  (forall n f nh, fib_map (ts_nt t) !! n = Some f -> nh ∈ fe_nextHops f -> in_table (fw_faces s) (nh_face nh)) ->
  fw_ok (with_tables t s).
Proof.
  intros Hs Hok Hc HS HP Hh. apply fw_ok_tables; try done.
  - eapply sc_same_counted; [exact HS|apply Hs].
  - rewrite (proj1 HS). apply Hs.
  - intros p e [H1 H2]. rewrite HP in H1. by apply (fo_records _ Hs p).
  - intros p e [H1 H2]. rewrite HP in H1. by exists e.
Qed.

(** New faces, on the same tables. *)
Lemma fw_ok_faces s ft :
  fw_ok s -> ft_ok ft -> (forall p, in_table (fw_faces s) p -> in_table ft p) ->
  (forall w f, ft_wireless ft = Some w -> ft_heap ft !! w = Some f -> is_wireless_multicast f = true) ->
  fw_ok (with_faces ft s).
Proof.
  intros [H1 H2 H3 H4 H5 H6 H7 H8 H9 H10 H11 H12] Hft Hin Hw. split; simpl; try done.
  - intros n f nh Hf Hnh. eapply Hin, H10; eassumption.
  - intros p e He. destruct (H11 p e He) as [A B]. split; intros r Hr; apply Hin; auto.
Qed.

(** ** Timers *)

Section laws.
Context {Henv : Env} (strategies : StrategyInstance -> StrategyOps).
Context {Hlaws : forall inst, StrategyLaws inst.1 (strategies inst)}.
Context (registry : Registry) (asf_accepts : Name -> bool).

Lemma safe_onInterestFinalize p e0 s0 :
  fw_ok s0 -> attached (fw_tables s0) p e0 -> safe_endX (negative_freshness (unfresh e0)) s0 (onInterestFinalize p s0).
Proof.
  intros Hs0 He0. set (j := pe_interest e0).
  apply (safeX_bind _ (fun s => pending p j s /\ ts_pit (fw_tables s) !! p = Some e0) (pending p j) _ _ (fun _ _ => True));
    [by apply keeps_insertDnl; intros s []|by intros s []| |done|split; [by exists e0|apply He0]].
  intros u1. cbn beta.
  eapply safe_bind; [apply _|by apply (keeps_the_pit _ p j); keep_side|]. intros e.
  eapply safe_bind; [apply _|apply keeps_count|]. intros u2.
  eapply safe_bind; [apply _|apply keeps_update_pit; auto with ndn|]. intros u3.
  apply safe_modify. intros s Hs HP. split; [|done]. destruct HP as ((((HP & _) & _) & _) & _).
  destruct HP as (x & Hx & _). set (t := fw_tables s) in *.
  destruct (pit_erase_ok p true t x (fo_tables _ Hs) Hx) as (H1 & H2 & H3).
  destruct (pit_erase_frame p x true t (fo_tables _ Hs) Hx) as [HF HS]. apply fw_ok_tables; try done.
  - eapply fib_same_counted; [exact HF|apply Hs].
  - eapply sc_same_counted; [exact HS|apply Hs].
  - rewrite (proj1 HS). apply Hs.
  - intros n f nh. rewrite (proj1 HF). apply Hs.
  - intros q e' [Hq Hn]. rewrite H2 in Hq. apply lookup_insert_Some in Hq as [[<- <-]|[_ Hq]]; [by destruct Hn|].
    by apply (fo_records _ Hs q).
  - intros q e' [Hq Hn]. rewrite H2 in Hq. apply lookup_insert_Some in Hq as [[<- <-]|[_ Hq]]; [by destruct Hn|]. by exists e'.
Qed.

(** ** Faces *)

Lemma safe_face_new p f :
  safe (fun s => ft_heap (fw_faces s) !! p = None /\ ft_wireless (fw_faces s) <> Some p)
       (modify (fun s => with_faces (face_new p f (fw_faces s)) s)).
Proof.
  apply safe_modify. intros s Hs [Hp Hw]. split; [|done]. apply fw_ok_faces; [done|apply face_new_ok; [apply Hs|done]|..].
  - intros q (g & Hg & Hid). exists g. split; [|done]. simpl. rewrite lookup_insert_ne; [done|congruence].
  - intros w g Hw' Hg. simpl in Hw', Hg. apply lookup_insert_Some in Hg as [[-> _]|[_ Hg]]; [done|]. by apply (fo_wireless _ Hs w).
Qed.

Lemma set_faceId_wireless id f : is_wireless_multicast (set_faceId id f) = is_wireless_multicast f.
Proof. done. Qed.

Lemma safe_face_add p :
  safe (fun s => (exists f, ft_heap (fw_faces s) !! p = Some f /\ f_id f = INVALID_FACEID) /\
                 (ft_lastFaceId (fw_faces s) + 1 < 2 ^ 64)%N)
       (on_faces (ft_add p)).
Proof.
  intros s Hs [(f & Hf & Hid) Hlt]. destruct (add_ok p f (fw_faces s)) as (Hno & t' & E & Hok & Hl & Hfs & Hh & Hw); [apply Hs|done..|].
  unfold on_faces, gets, modify, mbind, M_bind. rewrite E. split; [|exists []; by rewrite app_nil_r].
  apply fw_ok_faces; [done|done| |].
  - intros q (g & Hg & Hgid). unfold in_table. rewrite Hh. exists g. split; [|done]. rewrite lookup_insert_ne; [done|].
    intros <-. congruence.
  - intros w g. rewrite Hw, Hh. destruct (is_wireless_multicast f) eqn:Ew.
    + intros [= <-]. rewrite lookup_insert_eq. by intros [= <-].
    + intros Hwl. rewrite lookup_insert_Some. intros [[<- <-]|[_ Hg]]; [|by apply (fo_wireless _ Hs w)].
      rewrite set_faceId_wireless. by apply (fo_wireless _ Hs p).
Qed.

Lemma safe_face_free p :
  safe (fun s => exists f, ft_heap (fw_faces s) !! p = Some f /\ f_id f = INVALID_FACEID)
       (modify (on_strategy (count_freed p));; modify (fun s => with_faces (face_free p (fw_faces s)) s)).
Proof.
  apply (safe_modify _ (fun s => with_faces (face_free p (fw_faces s)) (on_strategy (count_freed p) s))).
  intros s Hs (f & Hf & Hid). split; [|done].
  apply fw_ok_faces; [by apply fw_ok_strategy|eapply face_free_ok; [apply Hs|done|done]|..].
  - intros q (g & Hg & Hgid). exists g. split; [|done]. simpl. rewrite lookup_delete_ne; [done|]. intros <-. simpl in Hg. congruence.
  - intros w g Hw Hg. simpl in Hw, Hg. apply lookup_delete_Some in Hg as [_ Hg]. by apply (fo_wireless _ Hs w).
Qed.

Lemma in_table_remove id p q t t' :
  ft_faces t !! id = Some p -> ft_remove id t = Some t' -> in_table t q -> q <> p -> in_table t' q.
Proof.
  intros Hp E (f & Hf & Hid) Hne. unfold ft_remove in E. rewrite Hp in E. injection E as <-. exists f. split; [|done]. simpl.
  by rewrite lookup_alter_ne.
Qed.

Lemma safe_face_remove id : safe (fun s => is_Some (ft_get id (fw_faces s))) (face_remove id).
Proof.
  intros s Hs [p Ep]. unfold face_remove, on_faces, on_tables, gets, modify, mbind, M_bind. rewrite Ep. unfold ft_get in Ep. cbn [fw_faces with_tables on_strategy with_strategy].
  destruct Hs as [H1 H2 H3 H4 H5 H6 H7 H8 H9 H10 H11 H12].
  destruct (remove_ok id p (fw_faces s) H8 Ep) as (g0 & t' & Hg0 & Er & Hok & Hh & _ & _ & Hw). rewrite Er.
  split; [|exists []; by rewrite app_nil_r].
  destruct (cleanup_ok p (fw_tables s) H1 H2) as (A1 & A2 & _ & A4 & A5 & _ & A7 & A8).
  split; simpl; try done.
  - unfold sc_counted in *. by rewrite A5, cleanup_nSc.
  - by rewrite A5.
  - intros w f. rewrite Hw, Hh, lookup_insert_Some. intros Hwl [[<- <-]|[_ Hf]]; [|by apply (H9 w)].
    rewrite set_faceId_wireless. by apply (H9 p).
  - intros n f nh Hf Hnh. rewrite A4 in Hf. apply bind_Some in Hf as (f0 & Hf0 & Hd).
    destruct (dropped_hop p f0 f nh) as [Hin Hne]; [by apply (ts_fib_ok _ H1 n f0)|done|done|].
    eapply in_table_remove; [done|done| |done]. by eapply H10.
  - intros q e He. destruct (attached_node _ q e A1 He) as [_ Hq]. rewrite A7 in Hq.
    apply pits_at_attached in Hq as (e0 & He0 & _); [|done]. pose proof (A8 q e0 He0) as E.
    destruct He as [He _]. rewrite He in E. injection E as ->. destruct (H11 q e0 He0) as [B1 B2].
    destruct (ts_pit_wf _ H1 q e0) as [W1 W2 _]; [apply He0|].
    split; intros r Hr; simpl in Hr; apply erase_face_elem in Hr as [Hr Hne]; try done;
      (eapply in_table_remove; [done|done| |done]); auto.
  - intros q e He. destruct (attached_node _ q e A1 He) as [_ Hq]. rewrite A7 in Hq.
    apply pits_at_attached in Hq as (e0 & He0 & _); [|done]. pose proof (A8 q e0 He0) as E.
    destruct He as [He _]. rewrite He in E. injection E as ->. exact (H12 q e0 He0).
Qed.

(** ** The FIB *)

Lemma safe_fib_insert prefix :
  safe (fun _ => (length prefix <= getMaxDepth)%nat) (on_tables (fun t => (Fib_insert prefix t).1)).
Proof.
  apply safe_modify. intros s Hs Hd. split; [|done].
  pose proof (fib_insert_ok prefix (fw_tables s) (fo_tables _ Hs) (fo_fib _ Hs) Hd) as H.
  destruct (fib_insert_frame prefix (fw_tables s) (fo_tables _ Hs) Hd) as [HS HP].
  destruct (Fib_insert prefix (fw_tables s)) as [t b]. destruct H as (H1 & H2 & H3). apply fw_ok_fib; try done.
  intros n f nh. simpl. rewrite H3. destruct (fib_map _ !! prefix); [apply (fo_hops _ Hs)|].
  intros [[_ <-]|[_ Hf]]%lookup_insert_Some; [by intros ?%not_elem_of_nil|by apply (fo_hops _ Hs n)].
Qed.

(** The iterator that [addOrUpdateNextHop] returns is in the list, although it may be at
    another nexthop. *)
Lemma signalled_hop prefix face cost t t' pr o :
  Fib_addOrUpdateNextHop prefix face cost t = (t', Some (pr, o)) ->
  exists e nh, fib_map (ts_nt t) !! prefix = Some e /\ o = Some nh /\
    nh ∈ fe_nextHops (fe_addOrUpdateNextHop face cost e).1.1.
Proof.
  unfold Fib_addOrUpdateNextHop. rewrite nt_get_fib. destruct (fib_map (ts_nt t) !! prefix) as [e|]; [|done].
  pose proof (fe_addOrUpdateNextHop_list face cost e) as HL.
  assert ((fe_addOrUpdateNextHop face cost e).2 = true ->
    (fe_addOrUpdateNextHop face cost e).1.2 < length (upserted face cost (fe_nextHops e)))%nat as Hit.
  { unfold fe_addOrUpdateNextHop, upserted, findNextHop. destruct (findNextHop_from 0 face (fe_nextHops e)); [done|].
    intros _. simpl. rewrite length_app. simpl. lia. }
  destruct (fe_addOrUpdateNextHop face cost e) as [[e' it] isNew] eqn:E. simpl in *. destruct isNew; [|done].
  intros [= _ _ <-]. rewrite <- (sort_by_cost_perm (upserted face cost (fe_nextHops e))), <- HL in Hit.
  destruct (lookup_lt_is_Some_2 (fe_nextHops e') it) as [nh Hnh]; [by apply Hit|].
  exists e, nh. split; [done|]. split; [done|]. rewrite E. by eapply list_elem_of_lookup_2.
Qed.

Lemma safe_fib_add prefix face cost :
  safe (fun s => fib_has prefix s /\ in_table (fw_faces s) face) (fib_addOrUpdateNextHop strategies prefix face cost).
Proof.
  intros s Hs [[e He] Hf]. unfold fib_addOrUpdateNextHop, gets, modify, mbind, M_bind.
  destruct (fib_add_ok prefix face cost e (fw_tables s) (fo_tables _ Hs) (fo_fib _ Hs) He) as (H1 & H2 & H3).
  destruct (fib_add_frame prefix face cost (fw_tables s)) as [HS HP].
  destruct (Fib_addOrUpdateNextHop prefix face cost (fw_tables s)) as [t o] eqn:E. simpl in *.
  assert (forall nh, nh ∈ fe_nextHops (fe_addOrUpdateNextHop face cost e).1.1 -> in_table (fw_faces s) (nh_face nh)) as Hnew.
  { intros nh Hnh. apply added_hop in Hnh as [->|Hnh]; [done|by eapply (fo_hops _ Hs)|].
    by apply (ts_fib_ok _ (fo_tables _ Hs) prefix e). }
  assert (fw_ok (with_tables t s)) as Hs1.
  { apply fw_ok_fib; try done. intros n f nh. rewrite H3.
    intros [[_ <-]|[_ Hx]]%lookup_insert_Some; [apply Hnew|by apply (fo_hops _ Hs n)]. }
  destruct o as [[pr o]|].
  - apply signalled_hop in E as (e0 & nh & He0 & -> & Hnh). rewrite He in He0. injection He0 as <-.
    apply (safe_end_tables s t); [apply HS| |].
    { intros n g Hg Hh. rewrite H3 in Hg. apply lookup_insert_Some in Hg as [[_ <-]|[_ Hg]]; [|done].
      rewrite Hh in Hnh. by apply not_elem_of_nil in Hnh. }
    apply (keeps_safe _ _ (keeps_onNewNextHop strategies pr nh)); [done|]. by apply Hnew.
  - split; [done|]. exists []. by rewrite app_nil_r.
Qed.

Lemma safe_fib_remove prefix face :
  safe (fib_has prefix) (on_tables (fun t => (Fib_removeNextHop prefix face t).1)).
Proof.
  apply safe_modify. intros s Hs [e He]. split; [|done].
  pose proof (fib_remove_ok prefix face e (fw_tables s) (fo_tables _ Hs) (fo_fib _ Hs) He) as H.
  destruct (fib_remove_frame prefix face (fw_tables s)) as [HS HP].
  destruct (Fib_removeNextHop prefix face (fw_tables s)) as [t r]. destruct H as (H1 & H2 & H3 & _).
  apply fw_ok_fib; try done. intros n f nh. simpl. rewrite H3.
  destruct r; [apply (fo_hops _ Hs)| |].
  - intros [[_ <-]|[_ Hf]]%lookup_insert_Some; [|by apply (fo_hops _ Hs n)]. intros Hnh%removed_hop. by eapply (fo_hops _ Hs).
  - intros [_ Hf]%lookup_delete_Some. by apply (fo_hops _ Hs n).
Qed.

Lemma safe_fib_erase prefix : safe (fun s => fib_has prefix s) (on_tables (Fib_erase prefix)).
Proof.
  apply safe_modify. intros s Hs [e He]. split; [|done]. unfold Fib_erase.
  rewrite (findExactMatch_full _ _ (ts_tree _ (fo_tables _ Hs))).
  pose proof (fib_node _ _ _ He) as (x & Hx & _). rewrite Hx. assert (is_Some (ts_nt (fw_tables s) !! prefix)) as Hin by by eexists.
  destruct (fib_erase_map prefix true (fw_tables s) (fo_tables _ Hs) Hin) as (H1 & H2 & H3).
  destruct (fib_erase_frame prefix true (fw_tables s) (fo_tables _ Hs) Hin) as [HS HP].
  apply fw_ok_fib; try done.
  - unfold fib_counted. rewrite H2, H3, map_size_delete, He, (fo_fib _ Hs).
    assert (size (fib_map (ts_nt (fw_tables s))) <> 0%nat); [|lia]. intros E%map_size_empty_inv. by rewrite E in He.
  - intros n f nh. rewrite H2. intros [_ Hf]%lookup_delete_Some. by apply (fo_hops _ Hs n).
Qed.

(** ** Strategy Choice *)

Lemma cleared_records faces e : records_in_table faces e -> records_in_table faces (clear_pit_info e).
Proof.
  intros [H1 H2]. split; intros r Hr; simpl in Hr; apply list_elem_of_fmap in Hr as (x & -> & Hx);
    [by apply (H1 x)|by apply (H2 x)].
Qed.

(** New Strategy Choice entries, with the strategy information of some PIT entries cleared. *)
Lemma fw_ok_sc s t :
  fw_ok s -> ts_ok t -> sc_counted t -> fib_same (fw_tables s) t -> is_Some (sc_map (ts_nt t) !! []) ->
  (forall p, ts_pit t !! p = ts_pit (fw_tables s) !! p \/ ts_pit t !! p = clear_pit_info <$> ts_pit (fw_tables s) !! p) ->
  fw_ok (with_tables t s).
Proof.
  intros Hs Hok Hc HF Hroot HP. apply fw_ok_tables; try done.
  - eapply fib_same_counted; [exact HF|apply Hs].
  - intros n f nh. rewrite (proj1 HF). apply Hs.
  - intros p e [Hp Hn]. destruct (HP p) as [E|E]; rewrite E in Hp; [by apply (fo_records _ Hs p)|].
    apply fmap_Some in Hp as (e0 & Hp & ->). by apply cleared_records, (fo_records _ Hs p).
  - intros p e [Hp Hn]. destruct (HP p) as [E|E]; rewrite E in Hp; [by exists e|].
    apply fmap_Some in Hp as (e0 & Hp & ->). by exists e0.
Qed.

Lemma safe_strategy_insert prefix sname : safe (fun _ => True) (strategy_insert registry asf_accepts prefix sname).
Proof.
  intros s Hs _. unfold strategy_insert, gets, modify, mbind, M_bind.
  destruct (sc_insert_ok registry asf_accepts prefix sname (fw_tables s)) as (t & res & E & H1 & H2 & H3 & H4 & _ & H6);
    [apply Hs..|]. rewrite E. apply note_replaced_end; [|done].
  apply fw_ok_sc; try done; [split; [done|by eapply sc_insert_nFib]|]. case_bool_decide; [|by subst; apply Hs].
  destruct H3 as (inst & _ & ->). rewrite lookup_insert. case_decide; [by eexists|apply Hs].
Qed.

Lemma safe_strategy_erase prefix : safe (fun _ => prefix <> []) (strategy_erase registry prefix).
Proof.
  intros s Hs Hne. unfold strategy_erase, gets, modify, mbind, M_bind.
  destruct (sc_erase_ok registry prefix (fw_tables s)) as (t & E & H1 & H2 & H3 & H4 & _ & H6); [apply Hs..|done|].
  rewrite E. apply note_replaced_end; [|done].
  apply fw_ok_sc; try done; [split; [done|by eapply sc_erase_nFib]|]. rewrite H3, lookup_delete_ne by done. apply Hs.
Qed.

(** ** Dead Nonce List, Content Store, Measurements *)

Lemma safe_dnl op :
  (forall s : Fw, fw_ok s -> dnl_ok (op (fw_now s) (fw_dnl s))) ->
  safe (fun _ => True) (modify (fun s => with_dnl (op (fw_now s) (fw_dnl s)) s)).
Proof. intros Hop. apply safe_modify. intros s Hs _. split; [|done]. apply (fw_ok_same s); [done..|by apply Hop|done]. Qed.

Lemma safe_cs (P : Fw -> Prop) f :
  (forall s, fw_ok s -> P s -> cs_ok (f (fw_cs s)) /\ cs_within_limit (f (fw_cs s))) ->
  safe P (modify (fun s => with_cs (f (fw_cs s)) s)).
Proof. intros Hf. apply safe_modify. intros s Hs HP. split; [|done]. destruct (Hf s Hs HP). by destruct Hs. Qed.

Lemma safe_meas_cleanup n :
  safe (fun s => is_Some (meas_map (ts_nt (fw_tables s)) !! n)) (on_tables (Meas_cleanup n)).
Proof.
  apply safe_modify. intros s Hs [e He]. split; [|done].
  assert (is_Some (ts_nt (fw_tables s) !! n)) as Hn.
  { unfold meas_map in He. rewrite lookup_omap in He. by destruct (ts_nt (fw_tables s) !! n). }
  destruct (meas_cleanup_frame n (fw_tables s) (fo_tables _ Hs) Hn) as (H1 & HF & HS & HP).
  apply fw_ok_fib; try done.
  - eapply fib_same_counted; [exact HF|apply Hs].
  - intros x f nh. rewrite (proj1 HF). apply Hs.
Qed.

(** ** Timers of strategies *)

(** The timer is for a strategy object that is gone. *)
Definition orphaned (src : TimerSource) (s : Fw) (x : fw_error) : Prop :=
  exists t o c, timer_at src s = Some (t, o, c) /\ x = DanglingStrategy o /\ object_strategy o s = None.

Lemma safe_strategy_timer src s : fw_ok s -> safe_endX (orphaned src s) s (strategy_timer strategies src s).
Proof.
  intros Hs. unfold strategy_timer. unfold gets at 1. rewrite (bind_done _ _ (timer_at src s) s s) by done.
  destruct (timer_at src s) as [[[t o] c]|] eqn:Et; [|split; [done|]; exists []; by rewrite app_nil_r].
  apply (keepsX_safe _ (fun s' => object_strategy o s' = object_strategy o s)); [|done..].
  assert (Stable (fun s' => object_strategy o s' = object_strategy o s)) as HS.
  { intros s1 s2 _ _ He E. rewrite <- E, !object_strategy_sc. unfold generation. by rewrite (ev_choice _ _ He), (ev_replaced _ _ He). }
  apply keepsX_seq; [done|apply keepsX_keeps, keeps_clear_timer|]. intros s1 Hs1 E1. unfold gets, mbind, M_bind.
  destruct (object_strategy o s1) as [inst|] eqn:E; [|right; by exists t, o, c].
  apply (keepsX_keeps _ _ _ _ (sl_timer (S:=strategies inst) o c)); [done|].
  unfold object_strategy in E. destruct (_ =? _)%N; [|done]. by eapply strategy_at_uses.
Qed.

(** ** Every event *)

(** The failures that depend on the event: Data that announces a file and is malformed, or
    whose freshness period is negative; the expiry of an entry that such Data satisfied; a
    timer of a strategy object that is gone. *)
Definition event_fails (ev : Event) (s : Fw) (x : fw_error) : Prop :=
  match ev with
  | EvData _ d => data_fails d x
  | EvExpiry p => x = NegativeFreshness /\ exists e, attached (fw_tables s) p e /\ unfresh e = true
  | EvStrategyTimer src => orphaned src s x
  | _ => False
  end.

Lemma handle_safe ev s :
  fw_ok s -> enabled s ev -> safe_endX (event_fails ev s) s (handle registry asf_accepts strategies ev s).
Proof.
  intros Hs He. destruct ev;
    lazymatch goal with
    | |- safe_endX (event_fails (EvData _ _) _) _ _ => idtac
    | |- safe_endX (event_fails (EvExpiry _) _) _ _ => idtac
    | |- safe_endX (event_fails (EvStrategyTimer _) _) _ _ => idtac
    | _ => apply safe_end_X
    end; simpl in *.
  - apply (keeps_safe _ _ (keeps_onIncomingInterest strategies face i)); [done|apply He].
  - apply (keepsX_safe _ (intab face)); [apply (keeps_onIncomingData strategies face d)|done|apply He].
  - by apply (keeps_safe _ _ (keeps_onIncomingNack strategies face n)).
  - by apply (keeps_safe _ _ (keeps_onDroppedInterest strategies face i)).
  - destruct He as (e & t & He & _). pose proof (safe_onInterestFinalize p e s Hs He) as H. unfold safe_endX in *.
    destruct (onInterestFinalize p s); [done|]. destruct H as [H|[-> H]]; [by left|right]. split; [done|by exists e].
  - split; [by destruct Hs|]. exists []. by rewrite app_nil_r.
  - apply (safe_dnl Dnl_mark); [|done|done]. intros s' Hs'. apply (dnl_exec_ok _ (DnlMark (fw_now s'))), Hs'.
  - apply (safe_dnl Dnl_adjustCapacity); [|done|done]. intros s' Hs'. apply (dnl_exec_ok _ (DnlAdjust (fw_now s'))), Hs'.
  - revert s Hs He. apply safe_cs. intros s Hs (q & p & t & Hq & Hi & _).
    assert (p = QUEUE_FIFO) as ->.
    { destruct (fo_cs _ Hs) as [_ Hp]. rewrite Hq in Hp. destruct Hp as [_ _ _ Ht]. apply (Ht _ _ Hi). by eexists. }
    split; [by eapply cs_moveToStale_ok; [apply Hs|..]|]. unfold cs_moveToStale. rewrite Hq. apply (fo_limit _ Hs).
  - destruct He as (e & t & He & _). apply safe_meas_cleanup; [done|by exists e].
  - by apply safe_strategy_timer.
  - by apply (keeps_safe (fun _ => True) (asf_expire n faceId)); [apply keeps_update_meas|..].
  - by apply safe_face_new.
  - by apply safe_face_add.
  - by apply safe_face_remove.
  - by apply safe_face_free.
  - by apply safe_fib_insert.
  - by apply safe_fib_add.
  - by apply safe_fib_remove.
  - by apply safe_fib_erase.
  - by apply safe_strategy_insert.
  - by apply safe_strategy_erase.
  - revert s Hs He. eapply (safe_cs (fun _ => True) (fun c => (Cs_erase _ limit c).1)). intros s Hs _.
    by apply cs_erase_ok; apply Hs.
  - revert s Hs He. apply (safe_cs (fun _ => True) (setLimit n)). intros s Hs _.
    assert (cs_ok (set_limit n (fw_cs s))) as Hok by (by destruct (fo_cs _ Hs)).
    by destruct (evictEntries_ok _ Hok) as (? & ? & _).
Qed.
End laws.

(** C1: Safety of every step. Whatever packet, timer, face change or management command the
    forwarder handles, in any state of its invariant and with any strategies that meet their
    contract, it ends in a state of the invariant: PIT, FIB, Strategy Choice and name tree
    agree, every record and nexthop refers to a face of the face table, the Content Store is
    within its limit. What it sends respects the scope of /localhost, the hop limit and the
    link types. It never dereferences a face or PIT entry that is gone, an end iterator or a
    null strategy, and never sends Data for an entry it does not satisfy or records an
    Interest in an entry it is not for. It fails only where the state has it: the pointer to
    the wireless multicast face is unset or dangles, a forwarding hint leads to a FIB entry
    other than the root's without nexthops, or an assertion of a strategy in use that keeps
    measurements fails; or with these events: an exception only when incoming Data announces
    a file and its number of segments cannot be read or a segment's name cannot be built; the
    assertion on the freshness period only when incoming Data has a negative one, or an
    entry expires that such Data satisfied; a strategy object that is gone only when a timer
    fires that it had set. *)
Theorem forwarder_step_safe {Henv : Env} (registry : Registry) (asf_accepts : Name -> bool)
    (strategies : StrategyInstance -> StrategyOps) (ev : Event) (s : Fw) :
  (forall inst, StrategyLaws inst.1 (strategies inst)) -> fw_ok s -> enabled s ev ->
  match handle registry asf_accepts strategies ev s with
  | Done _ s' => fw_ok s' /\ exists sent, fw_out s' = fw_out s ++ sent /\ Forall (out_ok (fw_faces s)) sent
  | Wrong e => may_fail s e \/ event_fails ev s e
  end.
Proof. intros Hlaws Hs He. by apply handle_safe. Qed.

Lemma Fw_init_ok now dnl policy regions : dnl_ok dnl -> fw_ok (Fw_init now dnl policy regions).
Proof.
  intros Hd. destruct ts_init_ok as (H1 & H2 & H3). destruct (cs_new_ok 10) as [H4 H5].
  assert (fib_map (ts_nt ts_init) = ∅) as HF by vm_cast_no_check (eq_refl (∅ : gmap Name FibEntry)).
  assert (ts_pit ts_init = ∅) as HP by vm_cast_no_check (eq_refl (∅ : gmap PitPtr PitEntry)).
  split; [done|by vm_compute|done|done|done|done|done|exact ft_new_ok|done| | |].
  - intros n f nh Hf. change (fib_map (ts_nt ts_init) !! n = Some f) in Hf. by rewrite HF in Hf.
  - intros p e [Hp _]. change (ts_pit ts_init !! p = Some e) in Hp. by rewrite HP in Hp.
  - intros p e [Hp _]. change (ts_pit ts_init !! p = Some e) in Hp. by rewrite HP in Hp.
Qed.

Lemma reachable_ok {Henv : Env} registry asf_accepts strategies s0 s :
  (forall inst, StrategyLaws inst.1 (strategies inst)) -> fw_ok s0 ->
  reachable registry asf_accepts strategies s0 s -> fw_ok s.
Proof.
  intros Hl H0. induction 1 as [|s s1 _ IH [ev s2 He Hh]]; [done|].
  pose proof (handle_safe strategies registry asf_accepts ev s IH He) as H. rewrite Hh in H. apply H.
Qed.

(** C2: The invariant of every reachable state. From the forwarder's initial state, any
    sequence of events keeps: one strategy in effect for every name, one PIT entry per
    request, every PIT entry's records and every FIB nexthop on faces of the face table, the
    tables' own invariants, and the Content Store within its limit. *)
Theorem reachable_invariant {Henv : Env} (registry : Registry) (asf_accepts : Name -> bool)
    (strategies : StrategyInstance -> StrategyOps) (now : time) (dnl : DeadNonceList)
    (policy : UnsolicitedDataPolicy) (regions : list Name) (s : Fw) :
  (forall inst, StrategyLaws inst.1 (strategies inst)) -> dnl_ok dnl ->
  reachable registry asf_accepts strategies (Fw_init now dnl policy regions) s ->
  fw_ok s /\
  (forall n, is_Some (findEffectiveStrategy n (fw_tables s))) /\
  (forall p q e f, attached (fw_tables s) p e -> attached (fw_tables s) q f ->
     same_request (pe_interest e) (pe_interest f) -> p = q) /\
  (forall p e r, attached (fw_tables s) p e -> r ∈ pe_inRecords e -> exists id, ft_get id (fw_faces s) = Some (ir_face r)).
Proof.
  intros Hl Hd Hr. assert (fw_ok s) as Hs by (eapply reachable_ok; [exact Hl|by apply Fw_init_ok|exact Hr]).
  split_and!; [done|intros n; by apply effective_name| |].
  - intros p q e f [Hp Hpn] [Hq Hqn]. by apply (ts_pit_unique _ (fo_tables _ Hs)).
  - intros p e r He Hin. apply in_table_spec; [apply Hs|]. by apply (fo_records _ Hs p e).
Qed.

(** ** A run *)

(** An environment: the random generator counts, [shuffle] and the sets keep their order,
    the kernel reports nothing, and the URI format is the standard one. *)
#[local] Instance quiet_env : Env := {|
  env_nonce n := n; env_shuffle _ l := l; env_unordered l := l;
  env_station _ _ _ := NoRate; env_alt_uri := false; env_uniform _ _ := 0%Z; env_real _ := 0%Z;
  env_other_nonce n k := (k + 1 + n)%N
|}.
#[local] Instance quiet_laws : EnvLaws.
Proof. split; try done; cbn; intros; lia. Qed.

(** The strategies modelled; the others are parameters, and so is what [boost::lexical_cast]
    makes of the parameters in the name of an ASF strategy. *)
Definition program_strategies (lexical_cast : list byte -> option N) (others : StrategyInstance -> StrategyOps)
    (inst : StrategyInstance) : StrategyOps :=
  match inst.1 with
  | BestRouteStrategy => bestRoute_ops
  | BestRouteStrategy2 => bestRoute2_ops
  | MulticastStrategy => multicast_ops
  | RandomStrategy => random_ops
  | AccessStrategy => access_ops
  | NccStrategy => ncc_ops
  | AsfStrategy => asf_ops (asf_params lexical_cast inst.2)
  | _ => others inst
  end.

#[local] Instance quiet_strategies cast others inst :
  (forall i, StrategyLaws i.1 (others i)) -> StrategyLaws inst.1 (program_strategies cast others inst).
Proof. intros H. unfold program_strategies. destruct inst as [[] n]; cbn; first [apply _|exact (H (_, n))]. Qed.

(** A [lexical_cast] that reads digits. *)
Definition read_digits (l : list byte) : option N :=
  match l with
  | [] => None
  | _ => foldl (fun acc b => n ← acc; let d := Byte.to_N b in if (48 <=? d)%N && (d <=? 57)%N then Some (10 * n + (d - 48))%N else None) (Some 0%N) l
  end.
Definition sample_strategies : StrategyInstance -> StrategyOps := program_strategies read_digits (fun _ => bestRoute_ops).
Definition sample_asf : Name -> bool := asf_params_ok read_digits.
Fixpoint run (evs : list Event) (s : Fw) : option Fw :=
  match evs with
  | [] => Some s
  | ev :: evs' => match handle getRegistry sample_asf sample_strategies ev s with
                  | Done _ s' => run evs' s'
                  | Wrong _ => None
                  end
  end.
Definition sample_dnl : DeadNonceList := mkDnl DEFAULT_LIFETIME [] 128 [] 1200000000 6000000000.
Definition sample_init : Fw := Fw_init 0 sample_dnl DropAll [].
Definition after (evs : list Event) : Fw := default sample_init (run evs sample_init).

(** Two faces, a route to the second one, an Interest that comes in on the first one, and
    the Data that answers it. *)
Definition client : Face := sample_face FACE_SCOPE_LOCAL LINK_TYPE_POINT_TO_POINT.
Definition server : Face := sample_face FACE_SCOPE_NON_LOCAL LINK_TYPE_POINT_TO_POINT.
Definition setup : list Event :=
  [EvFaceNew 10 client; EvFaceAdd 10; EvFaceNew 20 server; EvFaceAdd 20;
   EvFibInsert [word "a"]; EvFibAddNextHop [word "a"] 20 1].
Definition exchange : list Event := [EvInterest 10 sample_interest; EvData 20 sample_data].

(** A list of events that the forwarder handles one after the other. *)
Definition runs (evs : list Event) : Prop :=
  run evs sample_init = Some (after evs) /\ reachable getRegistry sample_asf sample_strategies sample_init (after evs).
Definition is_done {A} (r : Result A) : bool := match r with Done _ _ => true | Wrong _ => false end.

Lemma run_snoc ev evs : forall s,
  run (evs ++ [ev]) s = match run evs s with
                        | Some s' => match handle getRegistry sample_asf sample_strategies ev s' with
                                     | Done _ s'' => Some s''
                                     | Wrong _ => None
                                     end
                        | None => None
                        end.
Proof.
  induction evs as [|x evs IH]; intros s; cbn [run app]; [done|].
  destruct (handle _ _ _ x s) as [u s'|]; [apply IH|done].
Qed.

Lemma handle_done ev evs :
  runs evs -> is_done (handle getRegistry sample_asf sample_strategies ev (after evs)) = true ->
  handle getRegistry sample_asf sample_strategies ev (after evs) = Done tt (after (evs ++ [ev])) /\
  run (evs ++ [ev]) sample_init = Some (after (evs ++ [ev])).
Proof.
  intros [Hr _] Hd. assert (after (evs ++ [ev]) = default sample_init (run (evs ++ [ev]) sample_init)) as -> by reflexivity.
  rewrite run_snoc, Hr. revert Hd. generalize (handle getRegistry sample_asf sample_strategies ev (after evs)).
  intros [[] s'|]; [by split|done].
Qed.

Lemma runs_nil : runs [].
Proof. split; [reflexivity|apply reachable_init]. Qed.
Lemma runs_snoc ev evs :
  runs evs -> enabled (after evs) ev -> is_done (handle getRegistry sample_asf sample_strategies ev (after evs)) = true ->
  runs (evs ++ [ev]).
Proof.
  intros Hr He Hd. destruct (handle_done ev evs Hr Hd) as [Hh Hr']. split; [exact Hr'|].
  eapply reachable_step; [apply Hr|]. by eapply step_event.
Qed.

(** An object looked up in a computed state. *)
Lemma found_default {A} (d : A) (o : option A) : (if o is Some _ then true else false) = true -> o = Some (default d o).
Proof. by destruct o. Qed.

Ltac run_event :=
  match goal with |- runs ?evs =>
    let l := eval vm_compute in (rev evs) in
    match l with ?ev :: ?r =>
      let p := eval vm_compute in (rev r) in
      change evs with (p ++ [ev]); apply runs_snoc; [ | |vm_cast_no_check (eq_refl true)]
    end
  end.
Ltac see_face := eexists; split; [vm_compute; reflexivity|vm_compute; congruence].
Ltac found := apply found_default; vm_cast_no_check (eq_refl true).

Lemma setup_runs : runs setup.
Proof.
  run_event. run_event. run_event. run_event. run_event. run_event.
  1: apply runs_nil.
  - split; [by vm_compute|by vm_compute].
  - split; [see_face|by vm_compute].
  - split; [by vm_compute|by vm_compute].
  - split; [see_face|by vm_compute].
  - vm_compute. lia.
  - split; [eexists; by vm_compute|see_face].
Qed.

Lemma sample_runs : runs (setup ++ exchange).
Proof.
  run_event. run_event.
  1: exact setup_runs.
  - split; [see_face|]. by apply (bool_decide_unpack _).
  - split; [see_face|]. split; [done|]. by apply (bool_decide_unpack _).
Qed.

Lemma sample_dnl_ok : dnl_ok sample_dnl.
Proof. split; by apply Z.leb_le. Qed.

Lemma reachable_invariant_witness :
  reachable getRegistry sample_asf sample_strategies sample_init (after (setup ++ exchange)) /\
  fw_out (after (setup ++ exchange)) =
    [OutInterest 20 (set_incomingFaceId 256 sample_interest); OutData 10 (set_d_incomingFaceId 257 sample_data)] /\
  fw_ok (after (setup ++ exchange)).
Proof.
  split; [exact (proj2 sample_runs)|]. split; [by vm_compute|].
  apply (reachable_invariant getRegistry sample_asf sample_strategies 0 sample_dnl DropAll []);
    [apply _|exact sample_dnl_ok|exact (proj2 sample_runs)].
Defined.

Lemma runs_ok evs : runs evs -> fw_ok (after evs).
Proof.
  intros [_ H]. eapply (reachable_ok getRegistry sample_asf sample_strategies sample_init);
    [intros inst; apply quiet_strategies; apply _|apply Fw_init_ok, sample_dnl_ok|exact H].
Qed.
Lemma after_setup_ok : fw_ok (after setup).
Proof. apply runs_ok, setup_runs. Qed.

Lemma forwarder_step_safe_witness :
  fw_ok (after setup) /\ enabled (after setup) (EvInterest 10 sample_interest) /\
  match handle getRegistry sample_asf sample_strategies (EvInterest 10 sample_interest) (after setup) with
  | Done _ s' => fw_ok s' /\ exists sent, fw_out s' = fw_out (after setup) ++ sent /\
                                          Forall (out_ok (fw_faces (after setup))) sent
  | Wrong e => may_fail (after setup) e \/ event_fails (EvInterest 10 sample_interest) (after setup) e
  end.
Proof.
  assert (enabled (after setup) (EvInterest 10 sample_interest)) as He
    by (split; [see_face|by apply (bool_decide_unpack _)]).
  split; [exact after_setup_ok|]. split; [exact He|].
  apply (forwarder_step_safe getRegistry sample_asf sample_strategies); [apply _|exact after_setup_ok|exact He].
Defined.
