(* ===== verification/Effects.v ===== *)
(** * What handlers leave alone

    [calm m]: [m] leaves no PIT entry without a timer that had one before, and throws no
    exception. So are the strategies and what they call. [only p m]: [m] leaves every PIT
    entry but the one at [p] as it is. So do the deliveries of Data by the strategies
    ([StrategyLocal]). *)

From S2P Require Import Prelude Name Uri Packet FaceKeyed RttEstimator PitEntry FibEntry NodeStore NameTree NameTreeInv.
From S2P Require Import Tables Fib Pit Measurements StrategyRegistry StrategyChoice Cleanup Frames FaceTable.
From S2P Require Import ContentStore DeadNonceList RateControl Forwarder Accessor FwAlgorithm Strategy Actions StrategyInv MeasuringInv.
From S2P Require Import AccessStrategy NccStrategy AsfStrategy.

Definition untimed (t : TableState) (p : PitPtr) : Prop := exists e, attached t p e /\ pe_expiryTimer e = None.
Definition no_new_untimed (s s' : Fw) : Prop := forall p, untimed (fw_tables s') p -> untimed (fw_tables s) p.

#[global] Instance no_new_untimed_preorder : PreOrder no_new_untimed.
Proof. split; [by intros s p|]. intros s1 s2 s3 H1 H2 p Hp. auto. Qed.

Definition calm {A} (m : M A) : Prop :=
  forall s, match m s with Done _ s' => no_new_untimed s s' | Wrong e => e <> UncaughtException end.

Lemma calm_ret {A} (a : A) : calm (mret a).
Proof. intros s. simpl. reflexivity. Qed.
Lemma calm_fail {A} e : e <> UncaughtException -> calm (@fail A e).
Proof. by intros H s. Qed.
Lemma calm_gets {A} (f : Fw -> A) : calm (gets f).
Proof. intros s. simpl. reflexivity. Qed.
Lemma calm_bind {A B} (m : M A) (f : A -> M B) : calm m -> (forall a, calm (f a)) -> calm (m ≫= f).
Proof.
  intros Hm Hf s. specialize (Hm s). unfold mbind, M_bind. destruct (m s) as [a s1|]; [|done].
  specialize (Hf a s1). destruct (f a s1); [by etrans|done].
Qed.
Lemma calm_modify f : (forall s, fw_tables (f s) = fw_tables s) -> calm (modify f).
Proof. intros H s p Hp. by rewrite H in Hp. Qed.
Lemma calm_forM {A} (l : list A) (f : A -> M unit) : (forall x, calm (f x)) -> calm (forM l f).
Proof. intros H. induction l as [|x l IH]; [apply calm_ret|]. by apply calm_bind. Qed.

(** A change that leaves the PIT entries alone. *)
Lemma calm_same_pit f : (forall s, ts_pit (fw_tables (f s)) = ts_pit (fw_tables s)) -> calm (modify f).
Proof. intros H s p (e & [Hp Hn] & He). rewrite H in Hp. by exists e. Qed.
Lemma calm_if {A} (b : bool) (m k : M A) : calm m -> calm k -> calm (if b then m else k).
Proof. by destruct b. Qed.

(** A write to an entry that does not stop its timer. *)
Definition timer_kept (g : PitEntry -> PitEntry) : Prop :=
  keeps_place g /\ forall e, pe_expiryTimer (g e) = None -> pe_expiryTimer e = None.
Lemma calm_update p g : timer_kept g -> calm (update_pit p g).
Proof.
  intros [Hp Ht] s q (e & He & Hn). simpl in He. apply attached_modify in He as (e0 & He0 & ->); [|done].
  exists e0. split; [done|]. case_decide; auto.
Qed.

(** One step into a handler. *)
Create HintDb calm.
#[export] Hint Resolve calm_ret calm_gets : calm.
Ltac calm_step :=
  first [ solve [eauto with calm]
        | apply calm_bind; [|intros ?]
        | apply calm_forM; intros ?
        | apply calm_fail; discriminate
        | apply calm_modify; intros ?; reflexivity
        | apply calm_update; by split
        | case_match ].
Ltac calm := repeat calm_step.

Section base.
Context {Henv : Env}.

Lemma calm_the_face p : calm (the_face p).
Proof. unfold the_face. calm. Qed.
Lemma calm_the_pit p : calm (the_pit p).
Proof. unfold the_pit. calm. Qed.
#[local] Hint Resolve calm_the_face calm_the_pit : calm.

Lemma calm_setExpiryTimer p d : calm (Fw_setExpiryTimer p d).
Proof. unfold Fw_setExpiryTimer. calm. Qed.
Lemma calm_insertDnl p up : calm (insertDeadNonceList p up).
Proof. unfold insertDeadNonceList, dnl_add. calm. Qed.
#[local] Hint Resolve calm_setExpiryTimer calm_insertDnl : calm.

Lemma calm_emit o : calm (emit o).
Proof. unfold emit. calm. Qed.
Lemma calm_count f : calm (count f).
Proof. unfold count. calm. Qed.
Lemma calm_face_object p f : calm (update_face_object p f).
Proof. unfold update_face_object. calm. Qed.
#[local] Hint Resolve calm_emit calm_count calm_face_object : calm.

Lemma calm_outInterest p q i : calm (onOutgoingInterest p q i).
Proof. unfold onOutgoingInterest. calm. Qed.
Lemma calm_outData d q : calm (onOutgoingData d q).
Proof. unfold onOutgoingData. calm. Qed.
Lemma calm_outNack p q r : calm (onOutgoingNack p q r).
Proof. unfold onOutgoingNack. calm. Qed.
#[local] Hint Resolve calm_outInterest calm_outData calm_outNack : calm.

Lemma calm_sendInterest p q i : calm (sendInterest p q i).
Proof. unfold sendInterest. calm. Qed.
Lemma calm_sendData p d q : calm (sendData p d q).
Proof. unfold sendData. calm. Qed.
#[local] Hint Resolve calm_sendInterest calm_sendData : calm.

Lemma calm_pending_downstreams now f l : calm (pending_downstreams now f l).
Proof. induction l as [|r l IH]; simpl; calm. Qed.
Lemma calm_scan l : forall c r, calm (scan_wireless l c r).
Proof. induction l as [|q l IH]; intros c r; simpl; calm. Qed.
#[local] Hint Resolve calm_pending_downstreams calm_scan : calm.

Lemma calm_sendDataToAll p q d : calm (sendDataToAll p q d).
Proof. unfold sendDataToAll, getWirelessMulticastEtherFace, set_rate. calm. Qed.
Lemma calm_sendNacks p r : calm (sendNacks p r).
Proof. unfold sendNacks, sendNack. calm. Qed.
Lemma calm_lookup_delegations t fh : forall f, calm (lookup_delegations t fh f).
Proof. induction fh as [|d l IH]; intros f; simpl; calm. Qed.
#[local] Hint Resolve calm_lookup_delegations : calm.
Lemma calm_lookupFib p : calm (lookupFib p).
Proof. unfold lookupFib. calm. Qed.
#[local] Hint Resolve calm_sendDataToAll calm_sendNacks calm_lookupFib : calm.

Lemma calm_processNack q n p : calm (processNack q n p).
Proof. unfold processNack, sendNack. calm. Qed.
Lemma calm_find_nextHop T l : calm (find_nextHop T l).
Proof. induction l as [|nh l IH]; simpl; calm. Qed.
Lemma calm_filter_nextHops T l : calm (filter_nextHops T l).
Proof. induction l as [|nh l IH]; simpl; calm. Qed.
Lemma calm_find_earliest f i now e l : forall found t, calm (find_earliest f i now e l found t).
Proof. induction l as [|nh l IH]; intros found t; simpl; calm. Qed.
#[local] Hint Resolve calm_processNack calm_find_nextHop calm_filter_nextHops calm_find_earliest : calm.

(** The decision of the retransmission suppression leaves the timer alone. *)
Lemma calm_write_back {A} p (decide_ : time -> PitEntry -> option (A * PitEntry)) :
  (forall now e r e', decide_ now e = Some (r, e') ->
     pe_nte e' = pe_nte e /\ pe_interest e' = pe_interest e /\ pe_expiryTimer e' = pe_expiryTimer e) ->
  calm (e ← the_pit p; now ← gets fw_now;
        match decide_ now e with None => fail EndIterator | Some (r, e') => update_pit p (fun _ => e');; mret r end).
Proof.
  intros Hd s. unfold the_pit, gets, mbind, M_bind. destruct (ts_pit (fw_tables s) !! p) as [e|] eqn:He; [|done].
  simpl. destruct (decide_ (fw_now s) e) as [[r e']|] eqn:E; [|done]. destruct (Hd _ _ _ _ E) as (H1 & H2 & H3).
  simpl. intros q (x & [Hx Hn] & Ht). simpl in Hx. rewrite lookup_alter in Hx. case_decide; [|by exists x].
  subst. rewrite He in Hx. injection Hx as <-. exists e. split; [split; [done|]|]; congruence.
Qed.

Lemma calm_retx_perPitEntry p : calm (retx_perPitEntry p).
Proof.
  apply calm_write_back. intros now e r e'. unfold decidePerPitEntry. case_match; [by intros [= <- <-]|].
  destruct (getLastOutgoing e); [|done]. simpl. destruct (insertStrategyInfo _ _ _) as [[pi b] h].
  case_match; by intros [= <- <-].
Qed.
Lemma calm_retx_perUpstream p out : calm (retx_perUpstream p out).
Proof.
  unfold retx_perUpstream.
  assert (calm (e ← the_pit p; now ← gets fw_now;
    match Some (decidePerUpstream now out e) with None => fail EndIterator | Some (r, e') => update_pit p (fun _ => e');; mret r end)) as H;
    [|exact H].
  apply (calm_write_back p (fun now e => Some (decidePerUpstream now out e))). intros now e r e' [= E]. revert E.
  unfold decidePerUpstream. case_match; [|by intros [= <- <-]].
  destruct (insertStrategyInfo _ _ _) as [[pi b] h]. case_match; by intros [= <- <-].
Qed.
#[local] Hint Resolve calm_retx_perPitEntry calm_retx_perUpstream : calm.

(** ** Access to measurements *)

Lemma calm_acc_filter self n : calm (acc_filter self n).
Proof. unfold acc_filter. calm. Qed.
#[local] Hint Resolve calm_acc_filter : calm.
(** The accessor reads the tables and writes what it changed of them back. *)
Lemma calm_tables_read {A} (g : time -> TableState -> option (TableState * A)) (k : A -> M (option Name)) (m : M (option Name)) :
  (forall now t t' a, g now t = Some (t', a) -> ts_pit t' = ts_pit t) -> (forall a, calm (k a)) -> calm m ->
  calm (now ← gets fw_now; t ← gets fw_tables; match g now t with Some (t, a) => modify (with_tables t);; k a | None => m end).
Proof.
  intros Hg Hk Hm s. unfold gets, mbind, M_bind. destruct (g (fw_now s) (fw_tables s)) as [[t a]|] eqn:E; [|apply Hm].
  specialize (Hk a (with_tables t s)). unfold modify. destruct (k a (with_tables t s)) as [r s'|]; [|done].
  etrans; [|exact Hk]. intros p (e & [Hp Hn] & He). simpl in Hp. rewrite (Hg _ _ _ _ E) in Hp. by exists e.
Qed.
Lemma get_nte_pit now n t : ts_pit (Meas_get_nte now n t) = ts_pit t.
Proof. apply get_nte_rest. Qed.
Lemma calm_acc_get self name : calm (acc_get self name).
Proof. apply (calm_tables_read (fun now t => Some (Meas_get now name t)) _ (mret None)); [|calm..]. intros now t t' a [= <- _]. by rewrite get_nte_pit. Qed.
Lemma calm_acc_get_fib self f : calm (acc_get_fib self f).
Proof.
  apply (calm_tables_read (fun now t => Some (Meas_get_fib now f t)) _ (mret None)); [|calm..]. intros now t t' a [= <- _].
  rewrite get_nte_pit. by case_bool_decide.
Qed.
Lemma calm_acc_get_pit self p : calm (acc_get_pit self p).
Proof.
  apply calm_bind; [calm|]. intros e. apply (calm_tables_read (fun now t => Meas_get_pit now e t)); [|calm..].
  intros now t t' a. unfold Meas_get_pit. case_match; [intros [= <- _]; by rewrite get_nte_pit|].
  intros (n & _ & [= <- _])%bind_Some. apply get_nte_pit.
Qed.
Lemma calm_acc_getParent self n : calm (acc_getParent self n).
Proof.
  apply (calm_tables_read (fun now t => Meas_getParent now n t)); [|calm..]. intros now t t' a. unfold Meas_getParent.
  destruct n; [done|]. intros (x & _ & [= <- _])%bind_Some. apply get_nte_pit.
Qed.
Lemma calm_acc_lpm self name : calm (acc_findLongestPrefixMatch self name).
Proof. unfold acc_findLongestPrefixMatch. calm. Qed.
Lemma calm_acc_lpm_pit self p : calm (acc_findLongestPrefixMatch_pit self p).
Proof. unfold acc_findLongestPrefixMatch_pit. calm. Qed.
Lemma calm_update_meas n f : calm (update_meas n f).
Proof. by apply calm_same_pit. Qed.
Lemma calm_acc_extendLifetime n l : calm (acc_extendLifetime n l).
Proof. apply calm_bind; [calm|]. intros now. by apply calm_same_pit. Qed.
#[local] Hint Resolve calm_acc_get calm_acc_get_fib calm_acc_get_pit calm_acc_getParent calm_acc_lpm calm_acc_lpm_pit
  calm_update_meas calm_acc_extendLifetime : calm.
Lemma calm_the_meas n : calm (the_meas n).
Proof. unfold the_meas. calm. Qed.
#[local] Hint Resolve calm_the_meas : calm.
Lemma calm_getMeasInfo n id : calm (getMeasInfo n id).
Proof. unfold getMeasInfo. calm. Qed.
Lemma calm_insertMeasInfo n id i : calm (insertMeasInfo n id i).
Proof. unfold insertMeasInfo. calm. Qed.
Lemma calm_putMeasInfo n id i : calm (putMeasInfo n id i).
Proof. unfold putMeasInfo. calm. Qed.
Lemma calm_getPitInfo p id : calm (getPitInfo p id).
Proof. unfold getPitInfo. calm. Qed.
Lemma calm_insertPitInfo p id i : calm (insertPitInfo p id i).
Proof. unfold insertPitInfo. calm. Qed.
Lemma calm_putPitInfo p id i : calm (putPitInfo p id i).
Proof. unfold putPitInfo. calm. Qed.
Lemma calm_strategy_self p : calm (strategy_self p).
Proof. unfold strategy_self. calm. Qed.
Lemma calm_object_of self : calm (object_of self).
Proof. unfold object_of. calm. Qed.
Lemma calm_weak_face q : calm (weak_face q).
Proof. unfold weak_face. calm. Qed.
Lemma calm_lock_face w : calm (lock_face w).
Proof. unfold lock_face. calm. Qed.
Lemma calm_lock_pit p : calm (lock_pit p).
Proof. unfold lock_pit. calm. Qed.
Lemma calm_schedule_event t o c : calm (schedule_event t o c).
Proof. unfold schedule_event. calm. Qed.
Lemma calm_clear_timer src : calm (clear_timer src).
Proof. unfold clear_timer. calm. Qed.

#[local] Hint Resolve calm_getMeasInfo calm_insertMeasInfo calm_putMeasInfo calm_getPitInfo calm_insertPitInfo calm_putPitInfo
  calm_strategy_self calm_object_of calm_weak_face calm_lock_face calm_lock_pit calm_schedule_event : calm.

(** ** Strategies *)

Class StrategyCalm (S : StrategyOps) : Prop := {
  sc_interest : forall q i p, calm (afterReceiveInterest S q i p);
  sc_satisfy : forall p q d, calm (beforeSatisfyInterest S p q d);
  sc_hit : forall p q d, calm (afterContentStoreHit S p q d);
  sc_data : forall p q d, calm (afterReceiveData S p q d);
  sc_nack : forall q n p, calm (afterReceiveNack S q n p);
  sc_dropped : forall q i, calm (onDroppedInterest S q i);
  sc_nexthop : forall nh p, calm (afterNewNextHop S nh p);
  sc_timer : forall o c, calm (onTimer S o c);
}.

Lemma derive_calm fi fn : (forall q i p, calm (fi q i p)) -> (forall q n p, calm (fn q n p)) -> StrategyCalm (derive fi fn).
Proof.
  intros Hi Hn. split; simpl; intros; [apply Hi|apply calm_ret| | |apply Hn|apply calm_ret|apply calm_ret|apply calm_ret].
  - unfold base_afterContentStoreHit. calm.
  - unfold base_afterReceiveData, base_beforeSatisfyInterest. calm.
Qed.

#[global] Instance bestRoute_calm : StrategyCalm bestRoute_ops.
Proof. apply derive_calm; intros; [unfold bestRoute_afterReceiveInterest, rejectPendingInterest|]; calm. Qed.
#[global] Instance bestRoute2_calm : StrategyCalm bestRoute2_ops.
Proof.
  apply derive_calm; intros; [|calm]. unfold bestRoute2_afterReceiveInterest, sendNack, rejectPendingInterest. calm.
Qed.
#[global] Instance multicast_calm : StrategyCalm multicast_ops.
Proof.
  apply derive_calm; intros; [|calm].
  unfold multicast_afterReceiveInterest, multicast_nextHop, sendNack, rejectPendingInterest. calm.
Qed.
#[global] Instance random_calm : StrategyCalm random_ops.
Proof.
  apply derive_calm; intros; [|calm]. unfold random_afterReceiveInterest, sendNack, rejectPendingInterest. calm.
Qed.

(** The strategies that measure. *)
Lemma derive_measuring_calm fi fb fn ft :
  (forall q i p, calm (fi q i p)) -> (forall p q d, calm (fb p q d)) -> (forall q n p, calm (fn q n p)) -> (forall o c, calm (ft o c)) ->
  StrategyCalm (derive_measuring fi fb fn ft).
Proof.
  intros Hi Hb Hn Ht. split; simpl; intros; [apply Hi|apply Hb| | |apply Hn|apply calm_ret|apply calm_ret|apply Ht].
  - unfold base_afterContentStoreHit. calm.
  - apply calm_bind; [apply Hb|]. intros _. apply calm_sendDataToAll.
Qed.

Lemma calm_access_multicast q i p fib ex : calm (access_multicast q i p fib ex).
Proof.
  unfold access_multicast. apply calm_bind; [calm|]. intros inF. generalize 0%nat.
  induction (fe_nextHops fib) as [|nh l IH]; intros n; simpl; calm.
Qed.
#[local] Hint Resolve calm_access_multicast : calm.
#[global] Instance access_calm : StrategyCalm access_ops.
Proof.
  apply derive_measuring_calm; intros.
  - unfold access_afterReceiveInterest, access_afterReceiveNewInterest, access_afterReceiveRetxInterest,
      findPrefixMeasurements, sendToLastNexthop, getFace, rejectPendingInterest. calm.
  - unfold access_beforeSatisfyInterest, updateMeasurements, fit_measure, addPrefixMeasurements. calm.
  - unfold base_afterReceiveNack. calm.
  - unfold access_onTimer, afterRtoTimeout, getFace. calm.
Qed.

Lemma calm_ncc_get n : calm (ncc_get n).
Proof. unfold ncc_get. calm. Qed.
Lemma calm_ncc_put n x : calm (ncc_put n x).
Proof. apply calm_putMeasInfo. Qed.
#[local] Hint Resolve calm_ncc_get calm_ncc_put : calm.
Lemma calm_ncc_entry fuel self : forall n, calm (getMeasurementsEntryInfo_entry fuel self n).
Proof. induction fuel as [|fuel IH]; intros n; simpl; calm. Qed.
#[local] Hint Resolve calm_ncc_entry : calm.
Lemma calm_ncc_info self me : calm (getMeasurementsEntryInfo self me).
Proof. unfold getMeasurementsEntryInfo. calm. Qed.
#[local] Hint Resolve calm_ncc_info : calm.
Lemma calm_ncc_info_pit self p : calm (getMeasurementsEntryInfo_pit self p).
Proof. unfold getMeasurementsEntryInfo_pit. calm. Qed.
Lemma calm_getBestFace n : calm (getBestFace n).
Proof. unfold getBestFace. calm. Qed.
Lemma calm_can_use fib f i p o : calm (can_use fib f i p o).
Proof. unfold can_use. calm. Qed.
Lemma calm_find_forwardable f i p l : calm (find_forwardable f i p l).
Proof. unfold find_forwardable. calm. Qed.
Lemma calm_set_propagateTimer p x : calm (set_propagateTimer p x).
Proof. unfold set_propagateTimer, ncc_pit_get. calm. Qed.
#[local] Hint Resolve calm_ncc_info_pit calm_getBestFace calm_can_use calm_find_forwardable calm_set_propagateTimer : calm.
Lemma calm_update_levels k self f : (forall n, calm (f n)) -> forall me, calm (update_levels k self f me).
Proof. intros Hf. induction k as [|k IH]; intros [n|]; simpl; calm. Qed.
Lemma calm_satisfy_levels k self q : forall me, calm (satisfy_levels k self q me).
Proof. induction k as [|k IH]; intros [n|]; simpl; unfold updateBestFace; calm. Qed.
#[local] Hint Resolve calm_satisfy_levels : calm.
#[global] Instance ncc_calm : StrategyCalm ncc_ops.
Proof.
  apply derive_measuring_calm; intros.
  - unfold ncc_afterReceiveInterest, set_bestFaceTimeout, set_maxInterval, ncc_pit_get, rejectPendingInterest. calm.
  - unfold ncc_beforeSatisfyInterest. calm.
  - unfold base_afterReceiveNack. calm.
  - unfold ncc_onTimer, doPropagate, timeoutOnBestFace, getFace. destruct c; calm. apply calm_update_levels. intros n. calm.
Qed.

Section asf.
Context (params : AsfParams).
Lemma calm_ns_get n : calm (ns_get n).
Proof. unfold ns_get. calm. Qed.
Lemma calm_ns_put n m d f : calm (ns_put n m d f).
Proof. apply calm_putMeasInfo. Qed.
#[local] Hint Resolve calm_ns_get calm_ns_put : calm.
Lemma calm_getFaceInfo_at n id : calm (getFaceInfo_at n id).
Proof. unfold getFaceInfo_at. calm. Qed.
Lemma calm_update_faceInfo n id f : calm (update_faceInfo n id f).
Proof. unfold update_faceInfo. calm. Qed.
#[local] Hint Resolve calm_getFaceInfo_at calm_update_faceInfo : calm.
Lemma calm_extendFaceInfoLifetime n id : calm (extendFaceInfoLifetime n id).
Proof. unfold extendFaceInfoLifetime. calm. Qed.
#[local] Hint Resolve calm_extendFaceInfoLifetime : calm.
Lemma calm_getNamespaceInfo self name : calm (getNamespaceInfo self name).
Proof. unfold getNamespaceInfo. calm. Qed.
Lemma calm_get_longer self name ks : calm (get_longer self name ks).
Proof. induction ks as [|k ks IH]; simpl; calm. Qed.
#[local] Hint Resolve calm_getNamespaceInfo calm_get_longer : calm.
Lemma calm_getOrCreateNamespaceInfo self fib i : calm (getOrCreateNamespaceInfo self fib i).
Proof. unfold getOrCreateNamespaceInfo. calm. Qed.
#[local] Hint Resolve calm_getOrCreateNamespaceInfo : calm.
Lemma calm_getFaceInfo self fib i id : calm (getFaceInfo self fib i id).
Proof. unfold getFaceInfo. calm. Qed.
Lemma calm_next_random : calm next_random.
Proof. unfold next_random. calm. Qed.
Lemma calm_scheduleProbe self fib t : calm (scheduleProbe self fib t).
Proof. unfold scheduleProbe. calm. Qed.
#[local] Hint Resolve calm_getFaceInfo calm_next_random calm_scheduleProbe : calm.
Lemma calm_rank_faces self f i fib u l : forall r, calm (rank_faces self f i fib u l r).
Proof. induction l as [|hop l IH]; intros r; simpl; calm. Qed.
Lemma calm_rank_nextHops self f i fib e now b l : calm (rank_nextHops self f i fib e now b l).
Proof. induction l as [|nh l IH]; simpl; calm. Qed.
#[local] Hint Resolve calm_rank_faces calm_rank_nextHops : calm.
Lemma calm_asf_forward self i q fib p b : calm (asf_forwardInterest self i q fib p b).
Proof. unfold asf_forwardInterest, getOrCreateFaceInfo_at. calm. Qed.
#[local] Hint Resolve calm_asf_forward : calm.
Lemma calm_sendProbe self i q u fib p : calm (sendProbe params self i q u fib p).
Proof. unfold sendProbe, isProbingNeeded, getFaceToProbe, afterForwardingProbe. calm. Qed.
Lemma calm_onTimeoutOrNack self n id b : calm (onTimeoutOrNack params self n id b).
Proof. unfold onTimeoutOrNack. calm. Qed.
#[local] Hint Resolve calm_sendProbe calm_onTimeoutOrNack : calm.
#[global] Instance asf_calm : StrategyCalm (asf_ops params).
Proof.
  apply derive_measuring_calm; intros.
  - unfold asf_afterReceiveInterest, getBestFaceForForwarding, sendNoRouteNack, sendNack, rejectPendingInterest. calm.
  - unfold asf_beforeSatisfyInterest. calm.
  - unfold asf_afterReceiveNack. calm.
  - unfold asf_onTimer, probe_due. calm.
Qed.
End asf.
End base.

(** ** Handlers that write to one PIT entry *)

Section only.
Context (p : PitPtr).

Definition only {A} (m : M A) : Prop :=
  forall s, match m s with
            | Done _ s' => forall q, q <> p -> ts_pit (fw_tables s') !! q = ts_pit (fw_tables s) !! q
            | Wrong _ => True
            end.

Lemma only_ret {A} (a : A) : only (mret a).
Proof using Type. by intros s q. Qed.
Lemma only_fail {A} e : only (@fail A e).
Proof using Type. by intros s. Qed.
Lemma only_gets {A} (f : Fw -> A) : only (gets f).
Proof using Type. by intros s q. Qed.
Lemma only_bind {A B} (m : M A) (f : A -> M B) : only m -> (forall a, only (f a)) -> only (m ≫= f).
Proof using Type.
  intros Hm Hf s. specialize (Hm s). unfold mbind, M_bind. destruct (m s) as [a s1|]; [|done].
  specialize (Hf a s1). destruct (f a s1); [|done]. intros q Hq. by rewrite Hf, Hm.
Qed.
Lemma only_modify f : (forall s, ts_pit (fw_tables (f s)) = ts_pit (fw_tables s)) -> only (modify f).
Proof using Type. intros H s q _. by rewrite H. Qed.
Lemma only_update g : only (update_pit p g).
Proof using Type. intros s q Hq. simpl. by rewrite lookup_alter_ne. Qed.
Lemma only_forM {A} (l : list A) (f : A -> M unit) : (forall x, only (f x)) -> only (forM l f).
Proof using Type. intros H. induction l as [|x l IH]; [apply only_ret|]. by apply only_bind. Qed.
End only.

Create HintDb local.
#[export] Hint Resolve only_ret only_gets only_fail only_update : local.
Ltac local_step :=
  first [ solve [eauto with local]
        | apply only_bind; [|intros ?]
        | apply only_forM; intros ?
        | apply only_modify; intros ?; reflexivity
        | case_match ].
Ltac local_ := repeat local_step.

Section actions.
Context {Henv : Env} (p : PitPtr).

Lemma only_the_face q : only p (the_face q).
Proof. unfold the_face. local_. Qed.
Lemma only_the_pit q : only p (the_pit q).
Proof. unfold the_pit. local_. Qed.
#[local] Hint Resolve only_the_face only_the_pit : local.
Lemma only_setExpiryTimer d : only p (Fw_setExpiryTimer p d).
Proof. unfold Fw_setExpiryTimer. local_. Qed.
Lemma only_insertDnl q up : only p (insertDeadNonceList q up).
Proof. unfold insertDeadNonceList, dnl_add. local_. Qed.
Lemma only_outData d q : only p (onOutgoingData d q).
Proof. unfold onOutgoingData, emit, count. local_. Qed.
#[local] Hint Resolve only_outData : local.
Lemma only_sendData d q : only p (sendData p d q).
Proof. unfold sendData. local_. Qed.
#[local] Hint Resolve only_sendData : local.
Lemma only_pending_downstreams now f l : only p (pending_downstreams now f l).
Proof. induction l as [|r l IH]; simpl; local_. Qed.
Lemma only_scan l : forall c r, only p (scan_wireless l c r).
Proof. induction l as [|q l IH]; intros c r; simpl; local_. Qed.
#[local] Hint Resolve only_pending_downstreams only_scan : local.
Lemma only_sendDataToAll q d : only p (sendDataToAll p q d).
Proof. unfold sendDataToAll, getWirelessMulticastEtherFace, set_rate, emit. local_. Qed.

(** ** Access to measurements *)

Lemma only_acc_filter self n : only p (acc_filter self n).
Proof. unfold acc_filter. local_. Qed.
#[local] Hint Resolve only_acc_filter : local.
Lemma only_tables_read {A} (g : time -> TableState -> option (TableState * A)) (k : A -> M (option Name)) (m : M (option Name)) :
  (forall now t t' a, g now t = Some (t', a) -> ts_pit t' = ts_pit t) -> (forall a, only p (k a)) -> only p m ->
  only p (now ← gets fw_now; t ← gets fw_tables; match g now t with Some (t, a) => modify (with_tables t);; k a | None => m end).
Proof.
  intros Hg Hk Hm s. unfold gets, mbind, M_bind. destruct (g (fw_now s) (fw_tables s)) as [[t a]|] eqn:E; [|apply Hm].
  specialize (Hk a (with_tables t s)). unfold modify. destruct (k a (with_tables t s)) as [r s'|]; [|done].
  intros q Hq. rewrite Hk by done. simpl. by rewrite (Hg _ _ _ _ E).
Qed.
Lemma only_acc_get self name : only p (acc_get self name).
Proof.
  apply (only_tables_read (fun now t => Some (Meas_get now name t)) _ (mret None)); [|local_..]. intros now t t' a [= <- _].
  by rewrite get_nte_pit.
Qed.
Lemma only_acc_get_pit self q : only p (acc_get_pit self q).
Proof.
  apply only_bind; [local_|]. intros e. apply (only_tables_read (fun now t => Meas_get_pit now e t)); [|local_..].
  intros now t t' a. unfold Meas_get_pit. case_match; [intros [= <- _]; by rewrite get_nte_pit|].
  intros (n & _ & [= <- _])%bind_Some. apply get_nte_pit.
Qed.
Lemma only_acc_getParent self n : only p (acc_getParent self n).
Proof.
  apply (only_tables_read (fun now t => Meas_getParent now n t)); [|local_..]. intros now t t' a. unfold Meas_getParent.
  destruct n; [done|]. intros (x & _ & [= <- _])%bind_Some. apply get_nte_pit.
Qed.
Lemma only_acc_lpm self name : only p (acc_findLongestPrefixMatch self name).
Proof. unfold acc_findLongestPrefixMatch. local_. Qed.
Lemma only_update_meas n f : only p (update_meas n f).
Proof. by apply only_modify. Qed.
Lemma only_acc_extendLifetime n l : only p (acc_extendLifetime n l).
Proof. apply only_bind; [local_|]. intros now. by apply only_modify. Qed.
#[local] Hint Resolve only_acc_get only_acc_get_pit only_acc_getParent only_acc_lpm only_update_meas only_acc_extendLifetime : local.
Lemma only_the_meas n : only p (the_meas n).
Proof. unfold the_meas. local_. Qed.
#[local] Hint Resolve only_the_meas : local.
Lemma only_getMeasInfo n id : only p (getMeasInfo n id).
Proof. unfold getMeasInfo. local_. Qed.
Lemma only_insertMeasInfo n id i : only p (insertMeasInfo n id i).
Proof. unfold insertMeasInfo. local_. Qed.
Lemma only_putMeasInfo n id i : only p (putMeasInfo n id i).
Proof. unfold putMeasInfo. local_. Qed.
Lemma only_getPitInfo q id : only p (getPitInfo q id).
Proof. unfold getPitInfo. local_. Qed.
Lemma only_putPitInfo id i : only p (putPitInfo p id i).
Proof. unfold putPitInfo. local_. Qed.
Lemma only_strategy_self q : only p (strategy_self q).
Proof. unfold strategy_self. local_. Qed.
Lemma only_weak_face q : only p (weak_face q).
Proof. unfold weak_face. local_. Qed.
Lemma only_lock_face w : only p (lock_face w).
Proof. unfold lock_face. local_. Qed.
#[local] Hint Resolve only_getMeasInfo only_insertMeasInfo only_putMeasInfo only_getPitInfo only_putPitInfo only_strategy_self
  only_weak_face only_lock_face : local.

(** ** What the strategies do before an Interest is satisfied *)

Lemma only_access_before q d : only p (access_beforeSatisfyInterest p q d).
Proof. unfold access_beforeSatisfyInterest, updateMeasurements, fit_measure, addPrefixMeasurements. local_. Qed.

Lemma only_ncc_get n : only p (ncc_get n).
Proof. unfold ncc_get. local_. Qed.
Lemma only_ncc_put n x : only p (ncc_put n x).
Proof. apply only_putMeasInfo. Qed.
#[local] Hint Resolve only_ncc_get only_ncc_put : local.
Lemma only_ncc_entry fuel self : forall n, only p (getMeasurementsEntryInfo_entry fuel self n).
Proof. induction fuel as [|fuel IH]; intros n; simpl; local_. Qed.
#[local] Hint Resolve only_ncc_entry : local.
Lemma only_ncc_info self me : only p (getMeasurementsEntryInfo self me).
Proof. unfold getMeasurementsEntryInfo. local_. Qed.
#[local] Hint Resolve only_ncc_info : local.
Lemma only_ncc_info_pit self q : only p (getMeasurementsEntryInfo_pit self q).
Proof. unfold getMeasurementsEntryInfo_pit. local_. Qed.
Lemma only_getBestFace n : only p (getBestFace n).
Proof. unfold getBestFace. local_. Qed.
#[local] Hint Resolve only_ncc_info_pit only_getBestFace : local.
Lemma only_satisfy_levels k self q : forall me, only p (satisfy_levels k self q me).
Proof. induction k as [|k IH]; intros [n|]; simpl; unfold updateBestFace; local_. Qed.
#[local] Hint Resolve only_satisfy_levels : local.
Lemma only_ncc_before q d : only p (ncc_beforeSatisfyInterest p q d).
Proof. unfold ncc_beforeSatisfyInterest. local_. Qed.

Lemma only_ns_get n : only p (ns_get n).
Proof. unfold ns_get. local_. Qed.
Lemma only_ns_put n m d f : only p (ns_put n m d f).
Proof. apply only_putMeasInfo. Qed.
#[local] Hint Resolve only_ns_get only_ns_put : local.
Lemma only_getFaceInfo_at n id : only p (getFaceInfo_at n id).
Proof. unfold getFaceInfo_at. local_. Qed.
Lemma only_update_faceInfo n id f : only p (update_faceInfo n id f).
Proof. unfold update_faceInfo. local_. Qed.
#[local] Hint Resolve only_getFaceInfo_at only_update_faceInfo : local.
Lemma only_extendFaceInfoLifetime n id : only p (extendFaceInfoLifetime n id).
Proof. unfold extendFaceInfoLifetime. local_. Qed.
Lemma only_getNamespaceInfo self name : only p (getNamespaceInfo self name).
Proof. unfold getNamespaceInfo. local_. Qed.
#[local] Hint Resolve only_extendFaceInfoLifetime only_getNamespaceInfo : local.
Lemma only_asf_before q d : only p (asf_beforeSatisfyInterest p q d).
Proof. unfold asf_beforeSatisfyInterest. local_. Qed.
End actions.

(** ** The strategies *)

Class StrategyLocal {Henv : Env} (S : StrategyOps) : Prop :=
  sl_local : forall p q d, only p (afterReceiveData S p q d).

Section strategies.
Context {Henv : Env}.

Lemma derive_local fi fn : StrategyLocal (derive fi fn).
Proof. intros p q d. apply only_bind; [apply only_ret|]. intros _. apply only_sendDataToAll. Qed.
Lemma derive_measuring_local fi fb fn ft : (forall p q d, only p (fb p q d)) -> StrategyLocal (derive_measuring fi fb fn ft).
Proof. intros Hb p q d. apply only_bind; [apply Hb|]. intros _. apply only_sendDataToAll. Qed.

#[global] Instance bestRoute_local : StrategyLocal bestRoute_ops.
Proof. apply derive_local. Qed.
#[global] Instance bestRoute2_local : StrategyLocal bestRoute2_ops.
Proof. apply derive_local. Qed.
#[global] Instance multicast_local : StrategyLocal multicast_ops.
Proof. apply derive_local. Qed.
#[global] Instance random_local : StrategyLocal random_ops.
Proof. apply derive_local. Qed.
#[global] Instance access_local : StrategyLocal access_ops.
Proof. apply derive_measuring_local, only_access_before. Qed.
#[global] Instance ncc_local : StrategyLocal ncc_ops.
Proof. apply derive_measuring_local, only_ncc_before. Qed.
#[global] Instance asf_local params : StrategyLocal (asf_ops params).
Proof. apply derive_measuring_local, only_asf_before. Qed.
End strategies.
