(* ===== verification/Timers.v ===== *)
(** * Every PIT entry is scheduled to expire

    A PIT entry leaves the PIT when its expiry timer fires, so an entry without a timer would
    stay for ever. The pipelines are calm and set the timer of every entry they make, the
    announcement of a file aside. *)

From S2P Require Import Prelude Name Uri Packet FaceKeyed PitEntry FibEntry NodeStore NameTree NameTreeInv.
From S2P Require Import Tables Fib Pit Measurements StrategyRegistry StrategyChoice Cleanup Frames FaceTable.
From S2P Require Import ContentStore DeadNonceList RateControl Forwarder Accessor FwAlgorithm Strategy Actions StrategyInv MeasuringInv.
From S2P Require Import Pipelines PipelinesInv SystemInv Effects.

(** ** The pipelines *)

#[export] Hint Resolve calm_the_face calm_the_pit calm_setExpiryTimer calm_insertDnl calm_emit calm_count calm_face_object
  calm_outInterest calm_outData : calm.
#[export] Hint Resolve sc_interest sc_satisfy sc_hit sc_data sc_nack sc_dropped sc_nexthop sc_timer : calm.

(** [m] leaves no new entry without a timer, and [p] with one. *)
Definition covers {A} (p : PitPtr) (m : M A) : Prop :=
  forall s, match m s with
            | Done _ s' => forall q, untimed (fw_tables s') q -> untimed (fw_tables s) q /\ q <> p
            | Wrong e => e <> UncaughtException
            end.

Lemma covers_after {A B} p (m : M A) (f : A -> M B) : calm m -> (forall a, covers p (f a)) -> covers p (m ≫= f).
Proof.
  intros Hm Hf s. specialize (Hm s). unfold mbind, M_bind. destruct (m s) as [a s1|]; [|done].
  specialize (Hf a s1). destruct (f a s1); [|done]. intros q Hq. apply Hf in Hq as [Hq Hne]. split; [by apply Hm|done].
Qed.
Lemma covers_before {A B} p (m : M A) (f : A -> M B) : covers p m -> (forall a, calm (f a)) -> covers p (m ≫= f).
Proof.
  intros Hm Hf s. specialize (Hm s). unfold mbind, M_bind. destruct (m s) as [a s1|]; [|done].
  specialize (Hf a s1). destruct (f a s1); [|done]. intros q Hq. by apply Hm, Hf.
Qed.
Lemma covers_set p d : covers p (Fw_setExpiryTimer p d).
Proof.
  intros s. simpl. intros q (e & He & Hn). apply attached_modify in He as (e0 & He0 & ->); [|done].
  case_decide; [by subst|]. split; [by exists e0|done].
Qed.

Section laws.
Context {Henv : Env} (strategies : StrategyInstance -> StrategyOps).
Context {Hcalm : forall inst, StrategyCalm (strategies inst)}.

Lemma calm_dispatch p trigger : (forall inst, calm (trigger (strategies inst))) -> calm (dispatchToStrategy strategies p trigger).
Proof. intros H. unfold dispatchToStrategy. calm. Qed.

Lemma calm_onInterestLoop q i : calm (onInterestLoop q i).
Proof. unfold onInterestLoop. calm. Qed.

Lemma covers_miss q p i : covers p (onContentStoreMiss strategies q p i).
Proof.
  unfold onContentStoreMiss. repeat (apply covers_after; [calm|intros ?]).
  destruct (max_element _ _); [|intros s; discriminate].
  apply covers_before; [apply covers_set|]. intros ?. case_match; [calm|]. apply calm_dispatch. intros. calm.
Qed.
Lemma covers_hit q p i d : covers p (onContentStoreHit strategies q p i d).
Proof.
  unfold onContentStoreHit. do 3 (apply covers_after; [calm|intros ?]).
  apply covers_before; [apply covers_set|]. intros ?. apply calm_dispatch. intros. calm.
Qed.

(** A new entry has no records, so no duplicate nonce; an old one keeps its timer. *)
Lemma untimed_insert i t :
  ts_ok t -> let '(t', (r, _)) := Pit_insert i t in
  forall q, untimed t' q -> untimed t q \/
    (r = Some q /\ forall e, ts_pit t' !! q = Some e -> pe_inRecords e = [] /\ pe_outRecords e = []).
Proof.
  intros Hok. unfold Pit_insert, Pit_findOrInsert.
  assert (ts_pit (ts_lookup (i_name i) (pit_depth (i_name i)) t) = ts_pit t) as HP by done.
  set (t1 := ts_lookup (i_name i) (pit_depth (i_name i)) t) in *. clearbody t1.
  destruct (find_match _ _ _ t1) as [p|]; cbn [negb]; [|unfold new_pit_entry].
  - intros q (e & [Hq Hn] & Ht). rewrite HP in Hq. left. by exists e.
  - intros q (e & [Hq Hn] & Ht). simpl in Hq. apply lookup_insert_Some in Hq as [[<- <-]|[Hne Hq]].
    + right. split; [done|]. intros e. simpl. rewrite lookup_insert_eq. by intros [= <-].
    + left. rewrite HP in Hq. by exists e.
Qed.

Lemma no_records_no_duplicate e nonce q :
  pe_inRecords e = [] -> pe_outRecords e = [] -> findDuplicateNonce e nonce q = DUPLICATE_NONCE_NONE.
Proof. intros H1 H2. unfold findDuplicateNonce. by rewrite H1, H2. Qed.

(** The rest of the Interest pipeline, once the entry is there. *)
Lemma calm_pit_insert_bind i (k : PitPtr -> M unit) s :
  ts_ok (fw_tables s) ->
  (forall p s1 e, ts_pit (fw_tables s1) !! p = Some e -> pe_inRecords e = [] -> pe_outRecords e = [] ->
     match k p s1 with Done _ s2 => forall q, untimed (fw_tables s2) q -> untimed (fw_tables s1) q /\ q <> p | Wrong e => e <> UncaughtException end) ->
  (forall p, calm (k p)) ->
  match (pit_insert i ≫= k) s with Done _ s' => no_new_untimed s s' | Wrong e => e <> UncaughtException end.
Proof.
  intros Hok Hnew Hk. unfold pit_insert, gets, modify, mbind, M_bind.
  pose proof (untimed_insert i (fw_tables s) Hok) as HU. pose proof (pit_findOrInsert_ok i true (fw_tables s) Hok) as HI.
  unfold Pit_insert in *. destruct (Pit_findOrInsert i true (fw_tables s)) as [t' [[p|] b]]; [|done].
  destruct HI as (_ & (e & [He _] & _) & _). simpl.
  set (s1 := with_tables t' s). specialize (Hk p s1).
  assert (untimed t' p -> untimed (fw_tables s) p \/ (pe_inRecords e = [] /\ pe_outRecords e = [])) as Hp.
  { intros Hu. destruct (HU p Hu) as [?|[_ H]]; [by left|right; by apply H]. }
  destruct (decide (pe_inRecords e = [] /\ pe_outRecords e = [])) as [[E1 E2]|Hr].
  - specialize (Hnew p s1 e He E1 E2). destruct (k p s1) as [a s2|]; [|done]. intros q Hq. apply Hnew in Hq as [Hq Hne].
    destruct (HU q Hq) as [?|[[= ->] _]]; done.
  - destruct (k p s1) as [a s2|]; [|done]. intros q Hq. apply Hk in Hq.
    destruct (HU q Hq) as [?|[[= <-] Hx]]; [done|]. by destruct Hr; apply Hx.
Qed.
Lemma covers_calm {A} p (m : M A) : covers p m -> calm m.
Proof. intros H s. specialize (H s). destruct (m s); [|done]. intros q Hq. by apply H. Qed.

Lemma calm_cs_find {B} now i (k : option CsEntry -> M B) :
  (forall r, calm (k r)) -> calm (c ← gets fw_cs; let '(c, r) := Cs_find now i c in modify (with_cs c);; k r).
Proof. intros Hk. apply calm_bind; [calm|]. intros c. destruct (Cs_find now i c). calm. Qed.
Lemma covers_cs_find {B} p now i (k : option CsEntry -> M B) :
  (forall r, covers p (k r)) -> covers p (c ← gets fw_cs; let '(c, r) := Cs_find now i c in modify (with_cs c);; k r).
Proof.
  intros Hk. apply covers_after; [calm|]. intros c. destruct (Cs_find now i c). apply covers_after; [calm|]. intros _. apply Hk.
Qed.

(** What follows the insertion in [onIncomingInterest]. *)
Definition interest_tail (f : Face) (ingress : FacePtr) (i : Interest) (p : PitPtr) : M unit :=
  e ← the_pit p;
  let dnw := findDuplicateNonce e (i_nonce i) ingress in
  let hasDuplicateNonceInPit :=
    negb (dnw =? DUPLICATE_NONCE_NONE)%Z &&
    (if bool_decide (f_linkType f = LINK_TYPE_POINT_TO_POINT)
     then (Z.land dnw DUPLICATE_NONCE_IN_SAME =? 0)%Z else true) in
  if hasDuplicateNonceInPit then onInterestLoop ingress i
  else if negb (hasInRecords e) then
    now ← gets fw_now;
    c ← gets fw_cs;
    let '(c, r) := Cs_find now i c in
    modify (with_cs c);;
    match r with
    | Some entry => onContentStoreHit strategies ingress p i (ce_data entry)
    | None => onContentStoreMiss strategies ingress p i
    end
  else onContentStoreMiss strategies ingress p i.

Lemma covers_hit_or_miss q p i (r : option CsEntry) :
  covers p (match r with Some entry => onContentStoreHit strategies q p i (ce_data entry)
                       | None => onContentStoreMiss strategies q p i end).
Proof. destruct r; [apply covers_hit|apply covers_miss]. Qed.

Lemma calm_interest_tail f q i p : calm (interest_tail f q i p).
Proof.
  apply calm_bind; [calm|]. intros e. cbn beta zeta. apply calm_if; [apply calm_onInterestLoop|].
  apply calm_if; [|eapply covers_calm, covers_miss]. apply calm_bind; [calm|]. intros now. apply calm_cs_find.
  intros r. eapply covers_calm, covers_hit_or_miss.
Qed.

Lemma new_interest_tail f q i p s e :
  ts_pit (fw_tables s) !! p = Some e -> pe_inRecords e = [] -> pe_outRecords e = [] ->
  match interest_tail f q i p s with
  | Done _ s2 => forall x, untimed (fw_tables s2) x -> untimed (fw_tables s) x /\ x <> p
  | Wrong e => e <> UncaughtException
  end.
Proof.
  intros He E1 E2. assert (the_pit p s = Done e s) as Hp by (unfold the_pit, gets, mbind, M_bind; by rewrite He).
  unfold interest_tail, mbind at 1, M_bind at 1. rewrite Hp. rewrite no_records_no_duplicate by done. cbn [negb andb Z.eqb DUPLICATE_NONCE_NONE].
  unfold hasInRecords. rewrite E1. cbn [negb].
  assert (forall m : M unit, covers p m -> match m s with
    | Done _ s2 => forall x, untimed (fw_tables s2) x -> untimed (fw_tables s) x /\ x <> p
    | Wrong e => e <> UncaughtException end) as H by (intros m Hm; apply Hm).
  apply H. apply covers_after; [calm|]. intros now. apply covers_cs_find. intros r. apply covers_hit_or_miss.
Qed.

(** The same, for states with well-formed tables. *)
Definition calm_ok {A} (m : M A) : Prop :=
  forall s, ts_ok (fw_tables s) -> match m s with Done _ s' => no_new_untimed s s' | Wrong e => e <> UncaughtException end.
Lemma calm_ok_calm {A} (m : M A) : calm m -> calm_ok m.
Proof. intros H s _. apply H. Qed.
Lemma calm_ok_bind {A B} (m : M A) (f : A -> M B) :
  calm m -> (forall s, match m s with Done _ s' => fw_tables s' = fw_tables s | Wrong _ => True end) ->
  (forall a, calm_ok (f a)) -> calm_ok (m ≫= f).
Proof.
  intros Hm Ht Hf s Hs. specialize (Hm s). specialize (Ht s). unfold mbind, M_bind. destruct (m s) as [a s1|]; [|done].
  specialize (Hf a s1). rewrite Ht in Hf. specialize (Hf Hs). destruct (f a s1); [by etrans|done].
Qed.

Lemma calm_ok_if {A} (b : bool) (m k : M A) : calm_ok m -> calm_ok k -> calm_ok (if b then m else k).
Proof. by destruct b. Qed.

Lemma the_face_tables p s : match the_face p s with Done _ s' => fw_tables s' = fw_tables s | Wrong _ => True end.
Proof. unfold the_face, gets, mbind, M_bind. by destruct (_ !! p). Qed.

Lemma calm_onIncomingInterest q i : calm_ok (onIncomingInterest strategies q i).
Proof.
  apply calm_ok_bind; [calm|apply the_face_tables|]. intros f.
  apply calm_ok_bind; [calm|done|]. intros _.
  apply calm_ok_if; [apply calm_ok_calm; calm|].
  set (i1 := match i_hopLimit _ with Some h => _ | None => _ end). clearbody i1.
  apply calm_ok_if; [apply calm_ok_calm; calm|].
  apply calm_ok_bind; [calm|done|]. intros dup. apply calm_ok_if; [apply calm_ok_calm, calm_onInterestLoop|].
  apply calm_ok_bind; [calm|done|]. intros regions.
  set (i2 := match i_forwardingHint _ with [] => _ | _ => _ end). clearbody i2. intros s Hs.
  apply (calm_pit_insert_bind i2 (interest_tail f q i2)); [done| |apply calm_interest_tail].
  intros p s1 e. apply new_interest_tail.
Qed.

Lemma calm_satisfy_each q d l : calm (satisfy_each strategies q d l).
Proof. induction l as [|p l IH]; simpl; calm. Qed.

Lemma calm_onIncomingData q d :
  isPrefixOf file_prefix (d_name d) = false -> calm (onIncomingData strategies q d).
Proof.
  intros Hd. unfold onIncomingData. apply calm_bind; [calm|]. intros f. apply calm_bind; [calm|]. intros _.
  case_match; [calm|]. apply calm_bind; [calm|]. intros t. case_match; [unfold onDataUnsolicited, cs_insert; calm|].
  apply calm_bind; [unfold cs_insert; calm|]. intros _. case_match.
  - unfold satisfy_one, request_segments. simpl. rewrite Hd. calm.
  - unfold satisfy_many, send_pending. apply calm_bind; [apply calm_satisfy_each|intros l']. calm.
Qed.

Lemma nack_timer_kept n q : timer_kept (updateOutRecord (fun r => (setIncomingNack n r).1) q).
Proof. by split. Qed.

Lemma calm_onIncomingNack q n : calm (onIncomingNack strategies q n).
Proof.
  unfold onIncomingNack. calm.
Qed.

Lemma calm_onNewNextHop prefix nh : calm (onNewNextHop strategies prefix nh).
Proof. unfold onNewNextHop. calm. Qed.

Lemma calm_strategy_timer src : calm (strategy_timer strategies src).
Proof. unfold strategy_timer. apply calm_bind; [calm|]. intros [[[t o] c]|]; [|calm]. apply calm_bind; [apply calm_clear_timer|]. intros _. calm. Qed.

(** ** The other events *)

Context {Hlaws : forall inst, StrategyLaws inst.1 (strategies inst)}.
Context (registry : Registry) (asf_accepts : Name -> bool).

(** A change of the tables that leaves the PIT entries' timers. *)
Lemma quiet_tables s t :
  (forall p e, attached t p e -> exists e0, attached (fw_tables s) p e0 /\ pe_expiryTimer e = pe_expiryTimer e0) ->
  no_new_untimed s (with_tables t s).
Proof. intros H p (e & He & Ht). destruct (H p e He) as (e0 & He0 & E). exists e0. split; [done|congruence]. Qed.

Lemma quiet_same_pit s t : ts_pit t = ts_pit (fw_tables s) -> no_new_untimed s (with_tables t s).
Proof. intros E. apply quiet_tables. intros p e [Hp Hn]. rewrite E in Hp. by exists e. Qed.

Lemma quiet_finalize p e s :
  fw_ok s -> attached (fw_tables s) p e ->
  match onInterestFinalize p s with Done _ s' => no_new_untimed s s' | Wrong e => e <> UncaughtException end.
Proof.
  intros Hs He. unfold onInterestFinalize.
  pose proof (keeps_insertDnl (fun s => ts_pit (fw_tables s) !! p = Some e) p e None (fun _ H => H) s Hs (proj1 He)) as HK.
  unfold mbind at 1, M_bind at 1. pose proof (calm_insertDnl p None s) as HC.
  destruct (insertDeadNonceList p None s) as [a s1|]; [|done].
  destruct HK as (Hs1 & Hev & _). destruct (ev_attached _ _ Hev p e He) as (e1 & [He1 Hn1] & _).
  unfold the_pit, gets, mbind, M_bind. rewrite He1. simpl. intros q (x & [Hx Hn] & Ht). apply HC.
  set (t := pit_modify (set_expiryTimer None) p (fw_tables s1)) in *.
  assert (ts_ok t) as Hok by (apply ts_ok_pit_modify; [done|intros ? _ []; by split|apply Hs1]).
  assert (attached t p (set_expiryTimer None e1)) as Hat.
  { split; [|done]. unfold t. simpl. by rewrite lookup_alter_eq, He1. }
  destruct (pit_erase_ok p true t _ Hok Hat) as (_ & H2 & _). change (ts_pit (Pit_erase p true t) !! q = Some x) in Hx.
  rewrite H2 in Hx. apply lookup_insert_Some in Hx as [[<- <-]|[Hne Hx]]; [by destruct Hn|].
  unfold t in Hx. simpl in Hx. rewrite lookup_alter_ne in Hx by done. by exists x.
Qed.

Lemma quiet_cleanup s face : fw_ok s -> no_new_untimed s (with_tables (cleanupOnFaceRemoval face (fw_tables s)) s).
Proof.
  intros Hs. destruct (cleanup_ok face (fw_tables s)) as (A1 & _ & _ & _ & _ & _ & A7 & A8); [apply Hs..|].
  apply quiet_tables. intros p e He. destruct (attached_node _ p e A1 He) as [_ Hq]. rewrite A7 in Hq.
  apply pits_at_attached in Hq as (e0 & He0 & _); [|apply Hs]. exists e0. split; [done|].
  destruct He as [He _]. rewrite (A8 p e0 He0) in He. by injection He as <-.
Qed.

Lemma quiet_cleared s t :
  (forall p, ts_pit t !! p = ts_pit (fw_tables s) !! p \/ ts_pit t !! p = clear_pit_info <$> ts_pit (fw_tables s) !! p) ->
  no_new_untimed s (with_tables t s).
Proof.
  intros H. apply quiet_tables. intros p e [Hp Hn]. destruct (H p) as [E|E]; rewrite E in Hp; [by exists e|].
  apply fmap_Some in Hp as (e0 & Hp & ->). by exists e0.
Qed.

Lemma note_replaced_quiet prefix t t' s s' :
  no_new_untimed s s' -> match note_replaced prefix t t' s' with Done _ s'' => no_new_untimed s s'' | Wrong e => e <> UncaughtException end.
Proof. intros H. unfold note_replaced. by case_bool_decide. Qed.
Lemma fib_erase_pit prefix t : ts_pit (Fib_erase prefix t) = ts_pit t.
Proof. unfold Fib_erase. by destruct (findExactMatch _ _ _). Qed.

Definition announces_file (ev : Event) : bool :=
  match ev with EvData _ d => isPrefixOf file_prefix (d_name d) | _ => false end.

Lemma handle_calm ev s :
  fw_ok s -> enabled s ev -> announces_file ev = false ->
  match handle registry asf_accepts strategies ev s with
  | Done _ s' => no_new_untimed s s'
  | Wrong e => e <> UncaughtException
  end.
Proof.
  intros Hs He Ha. destruct ev as [q i|q d|q n|q i|p|t| | |n|n|src|n f|p f|p|id|p|pr|pr q c|pr q|pr|pr sn|pr|pr l|n]; simpl in *.
  - apply calm_onIncomingInterest, Hs.
  - by apply calm_onIncomingData.
  - apply calm_onIncomingNack.
  - unfold Fw_onDroppedInterest. apply (calm_bind (gets fw_tables)); [calm|]. intros t. calm.
  - destruct He as (e & t & He & _). by eapply quiet_finalize.
  - by apply quiet_same_pit.
  - by intros x.
  - by intros x.
  - by intros x.
  - by apply quiet_same_pit.
  - apply calm_strategy_timer.
  - by apply (calm_update_meas n).
  - by intros x.
  - unfold on_faces, gets, modify, mbind, M_bind. destruct (ft_add p _); [by intros x|done].
  - unfold face_remove, on_faces, on_tables, gets, modify, mbind, M_bind, ft_get. destruct (_ !! id); [|done].
    destruct (ft_remove id _); [|done]. by apply quiet_cleanup.
  - by intros x.
  - destruct (fib_insert_frame pr (fw_tables s) (fo_tables _ Hs) He) as [_ HP]. by apply quiet_same_pit.
  - unfold fib_addOrUpdateNextHop, gets, modify, mbind, M_bind.
    destruct (fib_add_frame pr q c (fw_tables s)) as [_ HP].
    destruct (Fib_addOrUpdateNextHop pr q c (fw_tables s)) as [t [[pr' [nh|]]|]]; simpl in HP; [|done|by apply quiet_same_pit].
    pose proof (calm_onNewNextHop pr' nh (with_tables t s)) as HC. simpl.
    destruct (onNewNextHop strategies pr' nh (with_tables t s)); [|done]. etrans; [by apply quiet_same_pit|exact HC].
  - apply quiet_same_pit, fib_remove_frame.
  - apply quiet_same_pit, fib_erase_pit.
  - unfold strategy_insert, gets, modify, mbind, M_bind.
    destruct (sc_insert_ok registry asf_accepts pr sn (fw_tables s)) as (t & res & -> & _ & _ & _ & _ & _ & H6);
      [apply Hs..|]. by apply note_replaced_quiet, quiet_cleared.
  - unfold strategy_erase, gets, modify, mbind, M_bind.
    destruct (sc_erase_ok registry pr (fw_tables s)) as (t & -> & _ & _ & _ & _ & _ & H6); [apply Hs..|done|].
    by apply note_replaced_quiet, quiet_cleared.
  - by intros x.
  - by intros x.
Qed.
End laws.

(** C4: No PIT entry is left behind. In a state where every PIT entry has its expiry timer
    set (the timer whose event takes the entry out of the PIT), every event but the
    announcement of a file leaves it so: in particular an incoming Interest always schedules
    the entry it creates, also when no strategy forwards it, and a Nack, a strategy or a
    retransmission never stops a timer without taking the entry out. Nor do these events
    throw an exception. *)
Theorem entries_expire {Henv : Env} (registry : Registry) (asf_accepts : Name -> bool)
    (strategies : StrategyInstance -> StrategyOps) (ev : Event) (s : Fw) :
  (forall inst, StrategyLaws inst.1 (strategies inst)) -> (forall inst, StrategyCalm (strategies inst)) ->
  fw_ok s -> enabled s ev -> announces_file ev = false ->
  (forall p e, attached (fw_tables s) p e -> is_Some (pe_expiryTimer e)) ->
  match handle registry asf_accepts strategies ev s with
  | Done _ s' => forall p e, attached (fw_tables s') p e -> is_Some (pe_expiryTimer e)
  | Wrong e => e <> UncaughtException
  end.
Proof.
  intros Hl Hc Hs He Ha Ht. pose proof (handle_calm strategies registry asf_accepts ev s Hs He Ha) as H.
  destruct (handle _ _ _ ev s) as [u s'|]; [|done]. intros p e Hp. destruct (pe_expiryTimer e) as [t|] eqn:E; [by eexists|].
  destruct (H p) as (e0 & He0 & E0); [by exists e|]. destruct (Ht p e0 He0) as [t Hte]. congruence.
Qed.

#[local] Existing Instance quiet_env.
#[local] Instance quiet_calm inst : StrategyCalm (sample_strategies inst).
Proof. unfold sample_strategies, program_strategies. destruct inst as [[] n]; cbn; apply _. Qed.
#[local] Instance sample_laws inst : StrategyLaws inst.1 (sample_strategies inst).
Proof. apply quiet_strategies. apply _. Qed.

Lemma entries_expire_witness :
  let s := after setup in
  enabled s (EvInterest 10 sample_interest) /\ announces_file (EvInterest 10 sample_interest) = false /\
  ts_nPit (fw_tables (after (setup ++ [EvInterest 10 sample_interest]))) = 1%Z /\
  forall p e, attached (fw_tables (after (setup ++ [EvInterest 10 sample_interest]))) p e -> is_Some (pe_expiryTimer e).
Proof.
  cbv zeta.
  assert (enabled (after setup) (EvInterest 10 sample_interest)) as He
    by (split; [see_face|by apply (bool_decide_unpack _)]).
  assert (forall p e, attached (fw_tables (after setup)) p e -> is_Some (pe_expiryTimer e)) as Ht.
  { intros p e [Hp _]. assert (ts_pit (fw_tables (after setup)) = ∅) as E
      by vm_cast_no_check (eq_refl (∅ : gmap PitPtr PitEntry)). rewrite E, lookup_empty in Hp. discriminate Hp. }
  split; [exact He|]. split; [reflexivity|]. split; [vm_cast_no_check (eq_refl 1%Z)|].
  pose proof (entries_expire getRegistry sample_asf sample_strategies (EvInterest 10 sample_interest) (after setup)
    sample_laws quiet_calm after_setup_ok He eq_refl Ht) as H.
  assert (handle getRegistry sample_asf sample_strategies (EvInterest 10 sample_interest) (after setup)
    = Done tt (after (setup ++ [EvInterest 10 sample_interest]))) as E
    by (apply handle_done; [exact setup_runs|vm_cast_no_check (eq_refl true)]).
  rewrite E in H. exact H.
Defined.

(** ** The announcement of a file

    The Data of /File/f announces two segments: the forwarder makes the PIT entries for them
    itself, and sets no timer. *)
Definition file_data : Data :=
  mkData [word "File"; word "f"] (str "2") 0 (repeat x07 32) None None false.
Definition file_interest : Interest := mkInterest [word "File"; word "f"] false false 1 4000 None [] None None None.
Definition file_run : list Event :=
  setup ++ [EvFibInsert [word "File"]; EvFibAddNextHop [word "File"] 20 1; EvInterest 10 file_interest; EvData 20 file_data].
Definition untimed_segments (t : TableState) : list Name :=
  omap (fun kv => match pe_nte kv.2, pe_expiryTimer kv.2 with Some _, None => Some (pe_name kv.2) | _, _ => None end)
       (map_to_list (ts_pit t)).

Lemma file_entries_never_expire :
  (if run file_run sample_init is Some _ then true else false) = true /\
  untimed_segments (fw_tables (after file_run)) = [[word "Segment"; word "f"; word "0"]; [word "Segment"; word "f"; word "1"]].
Proof.
  split; [vm_cast_no_check (eq_refl true)|].
  vm_cast_no_check (eq_refl [[word "Segment"; word "f"; word "0"]; [word "Segment"; word "f"; word "1"]]).
Qed.
