(* ===== verification/Multicast.v ===== *)
(** * What the multicast delivery of Data sends (fw/strategy.cpp, sendDataToAll)

    [sendDataToAll] changes the PIT entry while it sends. Here is what it sends, as a
    function of the entry, the faces and the station reports at the call. *)

From S2P Require Import Prelude Name Packet FaceKeyed PitEntry FibEntry NodeStore NameTree NameTreeInv.
From S2P Require Import Tables Fib Pit StrategyRegistry StrategyChoice FaceTable RateControl Forwarder FwAlgorithm.
From S2P Require Import Strategy Actions StrategyInv Pipelines SystemInv.

(** ** The specification *)

Section spec.
Context {Henv : Env} (now : time) (faces : FaceTable) (e : PitEntry) (d : Data).

(** The pending downstreams: faces of the unexpired in-records, except the face the Data
    came from unless it is an ad hoc link. *)
Definition is_downstream (inF : Face) (r : InRecord) : bool :=
  (now <? fr_expiry (ir_rec r))%Z &&
  match ft_heap faces !! ir_face r with
  | Some f => negb ((f_id f =? f_id inF)%N && negb (bool_decide (f_linkType f = LINK_TYPE_AD_HOC)))
  | None => false
  end.
Definition downstreams (inF : Face) : list FacePtr :=
  ptr_set (ir_face <$> filter (fun r => is_downstream inF r = true) (pe_inRecords e)).

(** A downstream on the wireless interface, the multicast group, and the rate the kernel
    reports for it. *)
Definition on_wireless (q : FacePtr) : bool :=
  match ft_heap faces !! q with Some f => String.eqb (f_localHost f) wireless_host | None => false end.
Definition is_group (q : FacePtr) : bool :=
  match ft_heap faces !! q with Some f => String.eqb (f_remoteHost f) multicast_host | None => false end.
Definition rate_of (q : FacePtr) : Z :=
  match ft_heap faces !! q with
  | Some f => get_rate (env_station now (f_localHost f) (f_remoteHost f))
  | None => 0
  end.

(** The decision: multicast for two wireless downstreams, or when the first one is the
    multicast group; the rate is the least of those looked at, and below 999 Mbit/s. *)
Definition decide_multicast (wireless : list FacePtr) : option Z :=
  match wireless with
  | [] => None
  | q :: rest =>
      if is_group q then Some (Z.min 9990 (rate_of q))
      else match rest with [] => None | q' :: _ => Some (Z.min (Z.min 9990 (rate_of q)) (rate_of q')) end
  end.

(** The Data as it goes to a face: with the PIT token of the face's Interest. *)
Definition token_of (q : FacePtr) : option (list byte) :=
  match getInRecord e q with
  | Some r => match ir_interest r with Some i => i_pitToken i | None => None end
  | None => None
  end.
Definition with_token (q : FacePtr) : Data :=
  match token_of q with Some t => set_d_pitToken (Some t) d | None => d end.
Definition data_out (q : FacePtr) : list Output :=
  match ft_heap faces !! q with
  | Some f => if (f_id f =? INVALID_FACEID)%N then []
              else if bool_decide (f_scope f = FACE_SCOPE_NON_LOCAL) && isPrefixOf LOCALHOST (d_name d) then []
              else [OutData q (with_token q)]
  | None => []
  end.
Definition all_out (l : list FacePtr) : list Output := mjoin (data_out <$> l).

(** Everything that is sent; [w] is the wireless multicast face. *)
Definition deliver (inF : Face) (w : FacePtr) (wf : Face) : list Output :=
  let l := downstreams inF in
  match decide_multicast (filter (fun q => on_wireless q = true) l) with
  | Some rate => [OutRate (f_localHost wf) (quantize_rate rate)] ++ data_out w ++
                 all_out (filter (fun q => on_wireless q = false) l)
  | None => all_out l
  end.
End spec.

(** ** Evaluation *)

Lemma filter_bool_cons {A} (P : A -> bool) (b : bool) x l :
  filter (fun x => P x = b) (x :: l) =
    if Bool.eqb (P x) b then x :: filter (fun x => P x = b) l else filter (fun x => P x = b) l.
Proof. rewrite filter_cons. by case_decide as D; destruct (Bool.eqb_spec (P x) b). Qed.

Lemma with_token_name e d q : d_name (with_token e d q) = d_name d.
Proof. unfold with_token. by case_match. Qed.

(** One transmission: its output, and the entry without the in-record. *)
Lemma onOutgoingData_eval d q f s :
  ft_heap (fw_faces s) !! q = Some f ->
  exists b s', onOutgoingData d q s = Done b s' /\ fw_faces s' = fw_faces s /\ fw_tables s' = fw_tables s /\
    fw_now s' = fw_now s /\ fw_out s' = fw_out s ++
      (if (f_id f =? INVALID_FACEID)%N then []
       else if bool_decide (f_scope f = FACE_SCOPE_NON_LOCAL) && isPrefixOf LOCALHOST (d_name d) then []
       else [OutData q d]).
Proof.
  intros Hf. unfold onOutgoingData. rewrite (bind_done _ _ _ _ _ (the_face_done q f s Hf)).
  destruct (_ =? _)%N; [eexists _, _; by rewrite app_nil_r|].
  destruct (_ && _); [eexists _, _; by rewrite app_nil_r|]. by eexists _, _.
Qed.

(** An entry that Data can be sent for. *)
Definition answered (e : PitEntry) (d : Data) : Prop := wf_entry e /\ matchesData (pe_interest e) d = true.
Lemma answered_delete e d q : answered e d -> answered (deleteInRecord q e) d.
Proof. intros [Hw Hm]. split; [by apply wf_deleteInRecord|done]. Qed.

Lemma sendData_mismatch p e d q s :
  ts_pit (fw_tables s) !! p = Some e -> matchesData (pe_interest e) d = false -> sendData p d q s = Wrong DataMismatch.
Proof. intros Hp Hm. unfold sendData. rewrite (bind_done _ _ _ _ _ (the_pit_done p e s Hp)), Hm. done. Qed.

Lemma sendData_eval p e d q f s :
  ts_pit (fw_tables s) !! p = Some e -> answered e d -> ft_heap (fw_faces s) !! q = Some f ->
  exists b s', sendData p d q s = Done b s' /\ fw_faces s' = fw_faces s /\ fw_now s' = fw_now s /\
    ts_pit (fw_tables s') !! p = Some (deleteInRecord q e) /\
    fw_out s' = fw_out s ++ data_out (fw_faces s) e d q.
Proof.
  intros Hp [Hwf Hm] Hf. unfold sendData. rewrite (bind_done _ _ _ _ _ (the_pit_done p e s Hp)), Hm. cbn [negb].
  set (tok := match getInRecord e q with None => _ | Some r => _ end).
  assert (tok s = Done (token_of e q) s) as Ht.
  { unfold tok, token_of. destruct (getInRecord e q) as [r|] eqn:Er; [|done].
    destruct (in_record_interest e q r Hwf Er) as [i Hi]. by rewrite Hi. }
  rewrite (bind_done _ _ _ _ _ Ht). unfold update_pit. unfold mbind at 1, M_bind at 1. simpl.
  set (s1 := with_tables _ s).
  destruct (onOutgoingData_eval (with_token e d q) q f s1 Hf) as (b & s' & E & H1 & H2 & H3 & H4).
  exists b, s'. split_and!; [|by rewrite H1|by rewrite H3| |].
  - rewrite <- E. unfold with_token. by destruct (token_of e q).
  - rewrite H2. simpl. by rewrite lookup_alter_eq, Hp.
  - rewrite H4. unfold data_out. rewrite Hf, with_token_name. done.
Qed.

(** What is sent to the other faces does not depend on the in-record just deleted. *)
Lemma data_out_delete faces e d q q' : q <> q' -> data_out faces (deleteInRecord q e) d q' = data_out faces e d q'.
Proof.
  intros Hne. unfold data_out, with_token, token_of. assert (getInRecord (deleteInRecord q e) q' = getInRecord e q') as ->; [|done].
  by apply find_erase_ne.
Qed.

Lemma all_out_delete faces e d q l : q ∉ l -> all_out faces (deleteInRecord q e) d l = all_out faces e d l.
Proof.
  induction l as [|x l IH]; intros Hq; [done|]. apply not_elem_of_cons in Hq as [Hx Hq].
  unfold all_out in *. csimpl. f_equal; [by apply data_out_delete|by apply IH].
Qed.

Definition all_live (faces : FaceTable) (l : list FacePtr) : Prop := forall q, q ∈ l -> is_Some (ft_heap faces !! q).

(** The loops over the downstreams. *)
Lemma send_list_eval p d l : forall e s,
  ts_pit (fw_tables s) !! p = Some e -> answered e d -> NoDup l -> all_live (fw_faces s) l ->
  exists s', forM l (fun q => sendData p d q;; mret tt) s = Done tt s' /\
    fw_faces s' = fw_faces s /\ fw_out s' = fw_out s ++ all_out (fw_faces s) e d l.
Proof.
  induction l as [|q l IH]; intros e s Hp Hwf Hnd Hl; simpl.
  { exists s. by rewrite app_nil_r. }
  apply NoDup_cons in Hnd as [Hq Hnd]. destruct (Hl q) as [f Hf]; [by left|].
  destruct (sendData_eval p e d q f s Hp Hwf Hf) as (b & s1 & E & H1 & _ & H3 & H4).
  unfold mbind at 1, M_bind at 1. rewrite (bind_done _ _ _ _ _ E). simpl.
  destruct (IH (deleteInRecord q e) s1 H3) as (s2 & E2 & G1 & G2); [by apply answered_delete|done| |].
  { intros x Hx. rewrite H1. apply Hl. by right. }
  exists s2. split_and!; [done|by rewrite G1|].
  rewrite G2, H4, H1, <- app_assoc, all_out_delete by done. done.
Qed.

Lemma send_others_eval p d l : forall e s,
  ts_pit (fw_tables s) !! p = Some e -> answered e d -> NoDup l -> all_live (fw_faces s) l ->
  exists s', forM l (fun q => f ← the_face q;
      if negb (String.eqb (f_localHost f) wireless_host) then sendData p d q;; mret tt else mret tt) s = Done tt s' /\
    fw_faces s' = fw_faces s /\
    fw_out s' = fw_out s ++ all_out (fw_faces s) e d (filter (fun q => on_wireless (fw_faces s) q = false) l).
Proof.
  induction l as [|q l IH]; intros e s Hp Hwf Hnd Hl; simpl.
  { exists s. by rewrite app_nil_r. }
  apply NoDup_cons in Hnd as [Hq Hnd]. destruct (Hl q) as [f Hf]; [by left|].
  assert (all_live (fw_faces s) l) as Hl' by (intros x Hx; apply Hl; by right).
  unfold mbind at 1, M_bind at 1. rewrite (bind_done _ _ _ _ _ (the_face_done q f s Hf)).
  rewrite filter_bool_cons. assert (on_wireless (fw_faces s) q = String.eqb (f_localHost f) wireless_host) as Hw
    by (unfold on_wireless; by rewrite Hf).
  destruct (String.eqb (f_localHost f) wireless_host) eqn:Ew; cbn [negb]; rewrite Hw.
  - simpl. by apply IH.
  - cbn [Bool.eqb]. destruct (sendData_eval p e d q f s Hp Hwf Hf) as (b & s1 & E & H1 & _ & H3 & H4).
    rewrite (bind_done _ _ _ _ _ E). simpl.
    destruct (IH (deleteInRecord q e) s1 H3) as (s2 & E2 & G1 & G2); [by apply answered_delete|done|by rewrite H1|].
    exists s2. split_and!; [done|by rewrite G1|]. rewrite G2, H4, H1, <- app_assoc. f_equal.
    unfold all_out. csimpl. f_equal. apply all_out_delete. intros [_ Hin]%list_elem_of_filter. done.
Qed.

(** The scans. *)
Section scans.
Context {Henv : Env}.

Lemma pending_downstreams_eval inF l s :
  (forall r, r ∈ l -> is_Some (ft_heap (fw_faces s) !! ir_face r)) ->
  pending_downstreams (fw_now s) inF l s =
    Done (ir_face <$> filter (fun r => is_downstream (fw_now s) (fw_faces s) inF r = true) l) s.
Proof.
  induction l as [|r l IH]; intros Hl; [done|]. simpl. rewrite filter_bool_cons. unfold is_downstream at 1.
  destruct (Hl r) as [f Hf]; [by left|]. rewrite Hf.
  specialize (IH (fun x Hx => Hl x (list_elem_of_further _ _ _ Hx))).
  destruct (fw_now s <? _)%Z; cbn [andb Bool.eqb]; [|done].
  rewrite (bind_done _ _ _ _ _ (the_face_done _ f s Hf)), (bind_done _ _ _ _ _ IH).
  by destruct (_ && _).
Qed.

(** From a count of zero the scan stops at the next wireless downstream. *)
Lemma scan_one l rate s :
  all_live (fw_faces s) l ->
  scan_wireless l 0 rate s =
    match filter (fun q => on_wireless (fw_faces s) q = true) l with
    | [] => Done (0, rate)%Z s
    | q :: _ => Done (2, Z.min rate (rate_of (fw_now s) (fw_faces s) q))%Z s
    end.
Proof.
  induction l as [|q l IH]; intros Hl; [done|]. simpl. destruct (Hl q) as [f Hf]; [by left|].
  rewrite (bind_done _ _ _ _ _ (the_face_done q f s Hf)), filter_bool_cons. unfold on_wireless at 1. rewrite Hf.
  assert (all_live (fw_faces s) l) as Hl' by (intros x Hx; apply Hl; by right).
  destruct (String.eqb (f_localHost f) wireless_host).
  - cbn [Bool.eqb]. unfold gets, mbind, M_bind. rewrite orb_true_r. unfold rate_of. rewrite Hf.
    set (x := get_rate _). replace (if (x <? rate)%Z then x else rate) with (Z.min rate x); [done|].
    destruct (Z.ltb_spec x rate); lia.
  - by apply IH.
Qed.

Lemma scan_eval l s :
  all_live (fw_faces s) l ->
  exists c r, scan_wireless l (-1) 9990 s = Done (c, r) s /\
    match decide_multicast (fw_now s) (fw_faces s) (filter (fun q => on_wireless (fw_faces s) q = true) l) with
    | Some rate => (0 < c)%Z /\ r = rate
    | None => (c <= 0)%Z
    end.
Proof.
  induction l as [|q l IH]; intros Hl; [by eexists _, _|]. simpl. destruct (Hl q) as [f Hf]; [by left|].
  rewrite (bind_done _ _ _ _ _ (the_face_done q f s Hf)), filter_bool_cons. unfold on_wireless at 1. rewrite Hf.
  assert (all_live (fw_faces s) l) as Hl' by (intros x Hx; apply Hl; by right).
  destruct (String.eqb (f_localHost f) wireless_host) eqn:Ew.
  2: { by apply IH. }
  cbn [Bool.eqb]. unfold gets, mbind, M_bind. cbn [decide_multicast]. unfold is_group. rewrite Hf.
  set (x := get_rate _). assert ((if (x <? 9990)%Z then x else 9990) = Z.min 9990 (rate_of (fw_now s) (fw_faces s) q))%Z as ->.
  { unfold rate_of. rewrite Hf. fold x. destruct (Z.ltb_spec x 9990); lia. }
  destruct (String.eqb (f_remoteHost f) multicast_host); cbn [orb].
  - eexists _, _. split; [done|]. split; [lia|done].
  - change (0 <? -1 + 1)%Z with false. change (-1 + 1)%Z with 0%Z. cbn iota.
    rewrite scan_one by done. destruct (filter _ l) as [|q' l']; [eexists _, _; split; [done|lia]|].
    eexists _, _. split; [done|]. split; [lia|done].
Qed.
End scans.

(** ** The theorem *)

Lemma ptr_set_spec l : NoDup (ptr_set l) /\ forall q, q ∈ ptr_set l <-> q ∈ l.
Proof.
  unfold ptr_set. split; [rewrite merge_sort_Permutation; apply NoDup_remove_dups|].
  intros q. by rewrite merge_sort_Permutation, elem_of_remove_dups.
Qed.

Lemma downstreams_live {Henv : Env} now faces e inF : all_live faces (downstreams now faces e inF).
Proof.
  intros q Hq. unfold downstreams in Hq. rewrite (proj2 (ptr_set_spec _)) in Hq. apply list_elem_of_fmap in Hq as (r & -> & Hr).
  apply list_elem_of_filter in Hr as [Hr _]. unfold is_downstream in Hr.
  destruct (ft_heap faces !! ir_face r); [by eexists|]. by rewrite andb_false_r in Hr.
Qed.

Section deliver.
Context {Henv : Env} (p : PitPtr) (d : Data) (e : PitEntry).

(** The multicast branch. *)
Lemma multicast_branch w wf rate l s :
  ft_heap (fw_faces s) !! w = Some wf -> f_localHost wf = wireless_host ->
  ts_pit (fw_tables s) !! p = Some e -> answered e d -> NoDup l -> all_live (fw_faces s) l ->
  exists s', (set_rate (f_localHost wf) rate;; _ ← sendData p d w;
      forM l (fun q => f ← the_face q;
        if negb (String.eqb (f_localHost f) wireless_host) then sendData p d q;; mret tt else mret tt)) s = Done tt s' /\
    fw_faces s' = fw_faces s /\
    fw_out s' = fw_out s ++ [OutRate (f_localHost wf) (quantize_rate rate)] ++ data_out (fw_faces s) e d w ++
                all_out (fw_faces s) e d (filter (fun q => on_wireless (fw_faces s) q = false) l).
Proof.
  intros Hw Hh Hp Hwf Hnd Hl. unfold set_rate, emit, modify. unfold mbind at 1, M_bind at 1.
  set (s1 := with_out _ s).
  destruct (sendData_eval p e d w wf s1 Hp Hwf Hw) as (b & s2 & E & H1 & _ & H3 & H4).
  rewrite (bind_done _ _ _ _ _ E).
  destruct (send_others_eval p d l (deleteInRecord w e) s2 H3) as (s3 & E3 & G1 & G2);
    [by apply answered_delete|done|by rewrite H1|].
  exists s3. split_and!; [done|by rewrite G1|]. rewrite G2, H4, H1. simpl. rewrite <- !app_assoc. simpl.
  rewrite all_out_delete; [done|]. intros [Hx _]%list_elem_of_filter. unfold on_wireless in Hx.
  rewrite Hw, Hh in Hx. discriminate Hx.
Qed.

Lemma sendDataToAll_eval inFace inF s :
  fw_ok s -> attached (fw_tables s) p e -> ft_heap (fw_faces s) !! inFace = Some inF ->
  let faces := fw_faces s in
  let l := downstreams (fw_now s) faces e inF in
  let multicast := decide_multicast (fw_now s) faces (filter (fun q => on_wireless faces q = true) l) in
  match sendDataToAll p inFace d s with
  | Done _ s' => exists w wf,
      (is_Some multicast -> ft_wireless faces = Some w /\ ft_heap faces !! w = Some wf) /\
      fw_faces s' = faces /\ fw_out s' = fw_out s ++ deliver (fw_now s) faces e d inF w wf
  | Wrong err => is_Some multicast /\
      (err = UninitialisedFace /\ ft_wireless faces = None \/
       exists w, err = DanglingFace w /\ ft_wireless faces = Some w /\ ft_heap faces !! w = None) \/
      err = DataMismatch /\ matchesData (pe_interest e) d = false /\ l <> []
  end.
Proof.
  intros Hs He Hin faces l multicast. pose proof He as [Hp _].
  assert (wf_entry e) as Hwf by by eapply ts_pit_wf; [apply Hs|].
  unfold sendDataToAll. rewrite (bind_done _ _ _ _ _ (the_pit_done p e s Hp)).
  unfold gets at 1. rewrite (bind_done _ _ (fw_now s) s s) by done.
  rewrite (bind_done _ _ _ _ _ (the_face_done inFace inF s Hin)).
  assert (forall r, r ∈ pe_inRecords e -> is_Some (ft_heap (fw_faces s) !! ir_face r)) as Hrec.
  { intros r Hr. destruct (fo_records _ Hs p e He) as [H _]. destruct (H r Hr) as (f & Hf & _). by eexists. }
  rewrite (bind_done _ _ _ _ _ (pending_downstreams_eval inF (pe_inRecords e) s Hrec)).
  change (ptr_set (ir_face <$> filter _ (pe_inRecords e))) with l.
  assert (NoDup l) as Hnd by apply (ptr_set_spec _). pose proof (downstreams_live (fw_now s) faces e inF) as Hl.
  fold l in Hl. destruct (scan_eval l s Hl) as (c & r & Esc & Hc). rewrite (bind_done _ _ _ _ _ Esc).
  fold faces in Hc. fold multicast in Hc. unfold deliver. fold l. fold multicast.
  destruct multicast as [rate|] eqn:Em.
  - destruct Hc as [Hc ->]. rewrite (proj2 (Z.ltb_lt _ _) Hc).
    destruct (ft_wireless faces) as [w|] eqn:Ew.
    2: { assert (getWirelessMulticastEtherFace s = Wrong UninitialisedFace) as E
           by (unfold getWirelessMulticastEtherFace, gets, mbind, M_bind; fold faces; by rewrite Ew).
         rewrite (bind_wrong _ _ _ _ E). left. split; [by eexists|by left]. }
    assert (getWirelessMulticastEtherFace s = Done w s) as E
      by (unfold getWirelessMulticastEtherFace, gets, mbind, M_bind; fold faces; by rewrite Ew).
    rewrite (bind_done _ _ _ _ _ E). clear E. destruct (ft_heap faces !! w) as [wf|] eqn:Ewf.
    2: { assert (the_face w s = Wrong (DanglingFace w)) as E
           by (unfold the_face, gets, mbind, M_bind; fold faces; by rewrite Ewf).
         rewrite (bind_wrong _ _ _ _ E). left. split; [by eexists|]. right. by exists w. }
    rewrite (bind_done _ _ _ _ _ (the_face_done w wf s Ewf)).
    assert (f_localHost wf = wireless_host) as Hh.
    { pose proof (fo_wireless _ Hs w wf Ew Ewf) as H. unfold is_wireless_multicast in H.
      apply andb_true_iff in H as [H _]. by apply String.eqb_eq. }
    destruct (matchesData (pe_interest e) d) eqn:Hm.
    2: { rewrite (bind_done (set_rate (f_localHost wf) rate) _ tt s (with_out (fw_out s ++ [OutRate (f_localHost wf) (quantize_rate rate)]) s)) by done.
         rewrite (bind_wrong _ _ _ DataMismatch (sendData_mismatch p e d w (with_out (fw_out s ++ [OutRate (f_localHost wf) (quantize_rate rate)]) s) Hp Hm)). right. split_and!; [done|done|].
         intros El. unfold multicast in Em. by rewrite El in Em. }
    destruct (multicast_branch w wf rate l s Ewf Hh Hp (conj Hwf Hm) Hnd Hl) as (s' & E & G1 & G2).
    unfold mbind, M_bind in E |- *. rewrite E. exists w, wf. done.
  - rewrite (proj2 (Z.ltb_ge _ _) Hc). destruct (matchesData (pe_interest e) d) eqn:Hm.
    2: { destruct l as [|q l'] eqn:El.
         - exists inFace, inF. split_and!; [by intros []|done|]. unfold all_out. simpl. by rewrite app_nil_r.
         - simpl. unfold mbind at 1, M_bind at 1.
           rewrite (bind_wrong _ _ _ DataMismatch (sendData_mismatch p e d q s Hp Hm)). by right. }
    destruct (send_list_eval p d l e s Hp (conj Hwf Hm) Hnd Hl) as (s' & E & G1 & G2).
    rewrite E. exists inFace, inF. split_and!; [by intros []|done|done].
Qed.
End deliver.

(** C3: The multicast delivery of Data. [sendDataToAll] sends one Data to every pending
    downstream, each with the PIT token of its own Interest; except that with two wireless
    downstreams (or with the multicast group as the first one) all wireless downstreams get
    one frame on the multicast face, after the multicast rate has been set to the rate of the
    slower of the wireless downstreams looked at. Nothing else is sent; the downstreams are
    exactly the faces of the unexpired in-records, the incoming face left out unless it is
    ad hoc. The only failures are a multicast face that is not there, and the assertion that
    the Data satisfies the entry's Interest, when it does not and there is a downstream. *)
Theorem sendDataToAll_spec {Henv : Env} (p : PitPtr) (d : Data) (e : PitEntry) (inFace : FacePtr) (inF : Face) (s : Fw) :
  fw_ok s -> attached (fw_tables s) p e -> ft_heap (fw_faces s) !! inFace = Some inF ->
  let faces := fw_faces s in
  let l := downstreams (fw_now s) faces e inF in
  let multicast := decide_multicast (fw_now s) faces (filter (fun q => on_wireless faces q = true) l) in
  (NoDup l /\ forall q, q ∈ l <-> exists r, r ∈ pe_inRecords e /\ ir_face r = q /\ is_downstream (fw_now s) faces inF r = true) /\
  match sendDataToAll p inFace d s with
  | Done _ s' => exists w wf,
      (is_Some multicast -> ft_wireless faces = Some w /\ ft_heap faces !! w = Some wf) /\
      fw_faces s' = faces /\ fw_out s' = fw_out s ++ deliver (fw_now s) faces e d inF w wf
  | Wrong err => is_Some multicast /\
      (err = UninitialisedFace /\ ft_wireless faces = None \/
       exists w, err = DanglingFace w /\ ft_wireless faces = Some w /\ ft_heap faces !! w = None) \/
      err = DataMismatch /\ matchesData (pe_interest e) d = false /\ l <> []
  end.
Proof.
  intros Hs He Hin faces l multicast. split; [|by apply sendDataToAll_eval].
  destruct (ptr_set_spec (ir_face <$> filter (fun r => is_downstream (fw_now s) faces inF r = true) (pe_inRecords e))) as [H1 H2].
  split; [exact H1|]. intros q. unfold l, downstreams. rewrite H2, list_elem_of_fmap.
  setoid_rewrite list_elem_of_filter. naive_solver.
Qed.

(** ** An instance: two wireless consumers, the multicast group and a producer *)

#[local] Existing Instance quiet_env.
Definition wifi (remote : string) : Face :=
  mkFace INVALID_FACEID FACE_SCOPE_NON_LOCAL LINK_TYPE_POINT_TO_POINT wireless_host remote 0 0.
Definition multicast_run : list Event :=
  [EvFaceNew 10 (wifi "02:00:00:00:00:01"); EvFaceAdd 10; EvFaceNew 11 (wifi "02:00:00:00:00:02"); EvFaceAdd 11;
   EvFaceNew 12 (wifi multicast_host); EvFaceAdd 12; EvFaceNew 20 server; EvFaceAdd 20;
   EvFibInsert [word "a"]; EvFibAddNextHop [word "a"] 20 1;
   EvInterest 10 sample_interest;
   EvInterest 11 (mkInterest [ascii_component "a"] true false 2 4000 None [] None None None)].
Definition multicast_entry : PitEntry :=
  default (PitEntry_new sample_interest) (ts_pit (fw_tables (after multicast_run)) !! 1%N).
Definition group_face : Face := default server (ft_heap (fw_faces (after multicast_run)) !! 12%N).
Definition server_face : Face := default server (ft_heap (fw_faces (after multicast_run)) !! 20%N).

Lemma multicast_runs : runs multicast_run.
Proof.
  run_event. run_event. run_event. run_event. run_event. run_event.
  run_event. run_event. run_event. run_event. run_event. run_event.
  1: apply runs_nil.
  1, 3, 5, 7: by split; vm_compute.
  1, 2, 3, 4: by split; [see_face|vm_compute].
  - vm_compute. lia.
  - split; [eexists; by vm_compute|see_face].
  - split; [see_face|]. by apply (bool_decide_unpack _).
  - split; [see_face|]. by apply (bool_decide_unpack _).
Qed.

Lemma multicast_run_ok : fw_ok (after multicast_run).
Proof. apply runs_ok, multicast_runs. Qed.

(** Both consumers are served by one frame, at the lowest rate, as the kernel reports none. *)
Lemma sendDataToAll_spec_witness :
  let s := after multicast_run in
  attached (fw_tables s) 1 multicast_entry /\
  (downstreams (fw_now s) (fw_faces s) multicast_entry server_face = [10%N; 11%N]) /\
  (match sendDataToAll 1 20 sample_data s with
   | Done _ s' => exists w wf, fw_out s' = fw_out s ++ deliver (fw_now s) (fw_faces s) multicast_entry sample_data server_face w wf
   | Wrong _ => False
   end) /\
  (deliver (fw_now s) (fw_faces s) multicast_entry sample_data server_face 12 group_face =
    [OutRate wireless_host 10; OutData 12 sample_data]).
Proof.
  assert (attached (fw_tables (after multicast_run)) 1 multicast_entry) as He.
  { split; [found|].
    exists [word "a"]. vm_cast_no_check (eq_refl (Some [word "a"])). }
  assert (ft_heap (fw_faces (after multicast_run)) !! 20%N = Some server_face) as Hin
    by found.
  cbv zeta. split; [exact He|]. split; [vm_cast_no_check (eq_refl [10%N; 11%N])|].
  split; [|vm_cast_no_check (eq_refl [OutRate wireless_host 10; OutData 12 sample_data])].
  destruct (sendDataToAll_spec 1 sample_data multicast_entry 20 server_face (after multicast_run) multicast_run_ok He Hin)
    as [_ H].
  assert (matchesData (pe_interest multicast_entry) sample_data = true) as Ht by vm_cast_no_check (eq_refl true).
  destruct (sendDataToAll 1 20 sample_data (after multicast_run)) as [u s'|err].
  - destruct H as (w & wf & _ & _ & H). exists w, wf. exact H.
  - destruct H as [[_ [[_ H]|(w & _ & H1 & H2)]]|(_ & Hm & _)]; [| |rewrite Ht in Hm; discriminate Hm].
    + assert (ft_wireless (fw_faces (after multicast_run)) = Some 12%N) as E by vm_cast_no_check (eq_refl (Some 12%N)).
      rewrite E in H. discriminate H.
    + assert (ft_wireless (fw_faces (after multicast_run)) = Some 12%N) as E by vm_cast_no_check (eq_refl (Some 12%N)).
      rewrite E in H1. injection H1 as <-.
      assert (ft_heap (fw_faces (after multicast_run)) !! 12%N = Some group_face) as E2
        by found.
      rewrite E2 in H2. discriminate H2.
Defined.
