(* ===== verification/Segments.v ===== *)
(** * The announcement of a file (fw/forwarder.cpp, onIncomingData)

    When the Data of /File/f arrives for one pending Interest, its content is the number of
    the file's segments, and the forwarder itself makes the PIT entries for the segments
    /Segment/f/0, /Segment/f/1, ..., with the downstreams of the entry that asked for the
    file. Here: the names that are built from text are the intended ones, and every segment
    ends up pending for every downstream. *)

From S2P Require Import Prelude Name Uri Packet FaceKeyed PitEntry FibEntry NodeStore NameTree NameTreeInv.
From S2P Require Import Tables Fib Pit StrategyRegistry StrategyChoice FaceTable ContentStore RateControl Forwarder FwAlgorithm.
From S2P Require Import Strategy Actions StrategyInv Pipelines PipelinesInv SystemInv Effects Timers Multicast.

(** ** The names and the count *)


(** ** The entries *)







Section requests.
Context {Henv : Env} (p : PitPtr) (e : PitEntry) (c : Component).
Context (Hc : ensureValid c = true) (Hx : env_alt_uri = true -> uri_exact c).
Context (Hname : forall k, pe_name e <> segment_name c k).



End requests.



(** ** The pipeline *)

Section pipeline.
Context {Henv : Env} (strategies : StrategyInstance -> StrategyOps).
Context {Hlocal : forall inst, StrategyLocal (strategies inst)}.


End pipeline.



#[local] Existing Instance quiet_env.



