(* ===== verification/Drain.v ===== *)
(** * The PIT drains

    Entries whose timers are set go away when the timers fire: the finalize pipeline does not
    fail on an entry of the PIT, unless Data with a negative freshness period satisfied it,
    takes exactly that entry out, and sends nothing. So, when no more packets come, the timers
    empty the PIT. *)

From S2P Require Import Prelude Name Packet FaceKeyed PitEntry FibEntry NodeStore NameTree NameTreeInv.
From S2P Require Import Tables Fib Pit StrategyRegistry StrategyChoice FaceTable DeadNonceList Forwarder Strategy.
From S2P Require Import Actions StrategyInv Pipelines PipelinesInv SystemInv Timers Multicast.

Lemma dnl_adds_eval (name : Name) (l : list OutRecord) : forall s,
  exists s', forM l (fun r => dnl_add name (fr_lastNonce (or_rec r))) s = Done tt s' /\
    fw_tables s' = fw_tables s /\ fw_now s' = fw_now s /\ fw_out s' = fw_out s.
Proof.
  induction l as [|r l IH]; intros s; [by exists s|]. simpl.
  set (s1 := with_dnl (Dnl_add name (fr_lastNonce (or_rec r)) (fw_dnl s)) s). destruct (IH s1) as (s' & E & H). exists s'. split; [exact E|done].
Qed.

Lemma finalize_eval p e s :
  attached (fw_tables s) p e -> unfresh e = false ->
  exists s', onInterestFinalize p s = Done tt s' /\ fw_now s' = fw_now s /\ fw_out s' = fw_out s /\
    fw_tables s' = Pit_erase p true (pit_modify (set_expiryTimer None) p (fw_tables s)).
Proof.
  intros [Hp _] Hf. unfold onInterestFinalize.
  assert (exists s1, insertDeadNonceList p None s = Done tt s1 /\ fw_tables s1 = fw_tables s /\
    fw_now s1 = fw_now s /\ fw_out s1 = fw_out s) as (s1 & E & Ht & Hn & Ho).
  { unfold insertDeadNonceList. rewrite (bind_done _ _ _ _ _ (the_pit_done p e s Hp)). unfold unfresh in Hf. rewrite Hf. unfold gets, mbind, M_bind.
    destruct (negb (needDnl e s)); [by exists s|]. apply dnl_adds_eval. }
  rewrite (bind_done _ _ _ _ _ E). rewrite <- Ht in Hp. rewrite (bind_done _ _ _ _ _ (the_pit_done p e s1 Hp)).
  eexists. split; [done|]. simpl. by rewrite Ht, Hn, Ho.
Qed.

(** After the finalize pipeline: the other entries, and only those. *)
Lemma finalize_attached p e t q f :
  ts_ok t -> attached t p e ->
  attached (Pit_erase p true (pit_modify (set_expiryTimer None) p t)) q f <-> attached t q f /\ q <> p.
Proof.
  intros Hok [Hp Hn]. set (t1 := pit_modify (set_expiryTimer None) p t).
  assert (ts_ok t1) as Hok1 by (apply ts_ok_pit_modify; [done|intros ? _ []; by split|done]).
  assert (attached t1 p (set_expiryTimer None e)) as Ha by (split; [unfold t1; simpl; by rewrite lookup_alter_eq, Hp|done]).
  destruct (pit_erase_ok p true t1 _ Hok1 Ha) as (_ & Hh & _). unfold attached at 1. rewrite Hh. split.
  - intros [Hq Hf]. apply lookup_insert_Some in Hq as [[<- <-]|[Hne Hq]]; [by destruct Hf|].
    unfold t1 in Hq. simpl in Hq. by rewrite lookup_alter_ne in Hq.
  - intros [[Hq Hf] Hne]. rewrite lookup_insert_ne by done. split; [|done]. unfold t1. simpl. by rewrite lookup_alter_ne.
Qed.

(** Steps that only let time pass and fire the expiry timers that are due. *)
Definition is_timer (ev : Event) : bool := match ev with EvClock _ | EvExpiry _ => true | _ => false end.

Section drain.
Context {Henv : Env} (registry : Registry) (asf_accepts : Name -> bool) (strategies : StrategyInstance -> StrategyOps).
Context {Hlaws : forall inst, StrategyLaws inst.1 (strategies inst)}.

Inductive timer_steps : nat -> Fw -> Fw -> Prop :=
| timer_done s : timer_steps 0 s s
| timer_step n ev s s1 s2 : is_timer ev = true -> enabled s ev -> handle registry asf_accepts strategies ev s = Done tt s1 ->
    timer_steps n s1 s2 -> timer_steps (S n) s s2.

(** Entries all due at the present time. *)
Definition due (s : Fw) (p : PitPtr) (e : PitEntry) : Prop :=
  exists t, pe_expiryTimer e = Some t /\ (t <= fw_now s)%Z.

Lemma drain_all l : forall s,
  fw_ok s -> NoDup l -> (forall p, p ∈ l <-> exists e, attached (fw_tables s) p e) ->
  (forall p e, attached (fw_tables s) p e -> due s p e /\ unfresh e = false) ->
  exists s', timer_steps (length l) s s' /\ fw_ok s' /\ fw_out s' = fw_out s /\ forall p e, ~ attached (fw_tables s') p e.
Proof using Hlaws.
  induction l as [|p l IH]; intros s Hs Hnd Hl Hdue.
  { exists s. split_and!; [constructor|done|done|]. intros p e He. assert (p ∈ @nil PitPtr) as H by (apply Hl; by exists e).
    by apply not_elem_of_nil in H. }
  apply NoDup_cons in Hnd as [Hp Hnd]. destruct (proj1 (Hl p)) as [e He]; [by left|].
  destruct (Hdue p e He) as [(t & Ht & Hle) Hfr].
  assert (enabled s (EvExpiry p)) as Hen by (by exists e, t).
  destruct (finalize_eval p e s He Hfr) as (s1 & E & Hn & Ho & Htab).
  pose proof (handle_safe strategies registry asf_accepts (EvExpiry p) s Hs Hen) as Hsafe. simpl in Hsafe.
  rewrite E in Hsafe. destruct Hsafe as [Hs1 _].
  assert (forall q f, attached (fw_tables s1) q f <-> attached (fw_tables s) q f /\ q <> p) as Hat.
  { intros q f. rewrite Htab. eapply finalize_attached; [apply Hs|exact He]. }
  destruct (IH s1 Hs1 Hnd) as (s2 & Hst & Hs2 & Ho2 & Hno).
  - intros q. setoid_rewrite Hat. split.
    + intros Hq. destruct (proj1 (Hl q)) as [f Hf]; [by right|]. exists f. split; [done|]. by intros ->.
    + intros (f & Hf & Hne). assert (q ∈ p :: l) as Hq by (apply Hl; by exists f). by apply elem_of_cons in Hq as [->|?].
  - intros q f [Hf _]%Hat. destruct (Hdue q f Hf) as [(u & Hu & Hule) Hff]. split; [|done]. exists u. by rewrite Hn.
  - exists s2. split_and!; [|done|congruence|done]. simpl. eapply (timer_step _ (EvExpiry p)); [done|exact Hen|exact E|exact Hst].
Qed.

(** The last of the timers. *)
Lemma latest_timer (h : gmap PitPtr PitEntry) :
  exists T, forall p e t, h !! p = Some e -> pe_expiryTimer e = Some t -> (t <= T)%Z.
Proof using Type.
  induction h as [|p e h Hp IH] using map_ind; [exists 0%Z; by intros|]. destruct IH as [T HT].
  exists (Z.max T (default 0 (pe_expiryTimer e))). intros q f t [[<- <-]|[_ Hq]]%lookup_insert_Some Ht.
  - rewrite Ht. simpl. lia.
  - specialize (HT q f t Hq Ht). lia.
Qed.

Lemma attached_list (t : TableState) :
  exists l, NoDup l /\ forall p, p ∈ l <-> exists e, attached t p e.
Proof using Type.
  exists (fst <$> filter (fun kv : PitPtr * PitEntry => is_Some (pe_nte kv.2)) (map_to_list (ts_pit t))). split.
  - apply NoDup_fmap_fst; [|apply NoDup_filter, NoDup_map_to_list].
    intros q e f [_ He]%list_elem_of_filter [_ Hf]%list_elem_of_filter. apply elem_of_map_to_list in He, Hf. congruence.
  - intros p. rewrite list_elem_of_fmap. setoid_rewrite list_elem_of_filter. split.
    + intros ([q e] & -> & Hn & H%elem_of_map_to_list). by exists e.
    + intros (e & He & Hn). exists (p, e). split; [done|]. split; [done|]. by apply elem_of_map_to_list.
Qed.

Lemma drain s :
  fw_ok s -> (forall p e, attached (fw_tables s) p e -> is_Some (pe_expiryTimer e) /\ unfresh e = false) ->
  exists n s', timer_steps n s s' /\ fw_ok s' /\ fw_out s' = fw_out s /\ forall p e, ~ attached (fw_tables s') p e.
Proof using Hlaws.
  intros Hs Ht. destruct (latest_timer (ts_pit (fw_tables s))) as [T HT].
  set (T' := Z.max T (fw_now s)). set (s1 := with_now T' s).
  assert (fw_ok s1) as Hs1 by by destruct Hs.
  destruct (attached_list (fw_tables s)) as (l & Hnd & Hl).
  destruct (drain_all l s1 Hs1 Hnd Hl) as (s2 & Hst & H).
  - intros p e He. destruct (Ht p e He) as [[t Hte] Hf]. split; [|done]. exists t. split; [done|]. destruct He as [He _].
    specialize (HT p e t He Hte). simpl. lia.
  - exists (S (length l)), s2. split; [|done]. eapply (timer_step _ (EvClock T')); [done| |done|exact Hst]. simpl. lia.
Qed.
End drain.

(** C5: The PIT drains. From any state of the invariant in which every entry has its timer
    set, and none was satisfied by Data with a negative freshness period (for which the
    assertion in [insertDeadNonceList] fails), the passing of time and finitely many expiry
    events, each enabled when it comes and none of them failing, lead to a state without PIT
    entries; nothing is sent on the way. *)
Theorem pit_drains {Henv : Env} (registry : Registry) (asf_accepts : Name -> bool)
    (strategies : StrategyInstance -> StrategyOps) (s : Fw) :
  (forall inst, StrategyLaws inst.1 (strategies inst)) -> fw_ok s ->
  (forall p e, attached (fw_tables s) p e -> is_Some (pe_expiryTimer e) /\ ~ (pe_isSatisfied e = true /\ (pe_dataFreshnessPeriod e < 0)%Z)) ->
  exists n s', timer_steps registry asf_accepts strategies n s s' /\ fw_ok s' /\ fw_out s' = fw_out s /\
    forall p e, ~ attached (fw_tables s') p e.
Proof.
  intros Hl Hs Ht. apply drain; [done|done|]. intros p e He. destruct (Ht p e He) as [Hx Hn]. split; [done|].
  apply not_true_iff_false. intros [H1 H2%Z.ltb_lt]%andb_true_iff. by apply Hn.
Qed.

#[local] Existing Instance quiet_env.
Lemma pit_drains_witness :
  ts_nPit (fw_tables (after multicast_run)) = 1%Z /\
  exists n s', timer_steps getRegistry sample_asf sample_strategies n (after multicast_run) s' /\
    forall p e, ~ attached (fw_tables s') p e.
Proof.
  split; [vm_cast_no_check (eq_refl 1%Z)|].
  assert (map_Forall (fun _ e => is_Some (pe_expiryTimer e) /\ ~ (pe_isSatisfied e = true /\ (pe_dataFreshnessPeriod e < 0)%Z)) (ts_pit (fw_tables (after multicast_run)))) as H
    by (apply (bool_decide_unpack _); vm_cast_no_check I).
  destruct (pit_drains getRegistry sample_asf sample_strategies (after multicast_run) sample_laws multicast_run_ok)
    as (n & s' & H1 & _ & _ & H2).
  - intros p e [Hp _]. exact (H p e Hp).
  - exists n, s'. split; [exact H1|exact H2].
Defined.
