(* ===== verification/Drops.v ===== *)
(** * What the forwarder refuses

    The error paths of the incoming Interest pipeline: an exhausted hop limit, the scope of
    /localhost, and nonces seen before, in the Dead Nonce List or in the PIT. *)

From S2P Require Import Prelude Name Packet FaceKeyed PitEntry NodeStore NameTree NameTreeInv Tables Pit.
From S2P Require Import StrategyRegistry StrategyChoice FaceTable DeadNonceList Forwarder FwAlgorithm Strategy.
From S2P Require Import Actions StrategyInv Pipelines SystemInv Timers Multicast.

(** ** The conditions *)

Definition exhausted (i : Interest) : Prop := i_hopLimit i = Some 0%N.
Definition barred (f : Face) (name : Name) : Prop :=
  f_scope f = FACE_SCOPE_NON_LOCAL /\ isPrefixOf LOCALHOST name = true.

(** Another Interest of the entry has the nonce. A retransmission on a point-to-point face
    may keep the nonce: there only other faces count. *)
Definition nonce_repeats (f : Face) (q : FacePtr) (nonce : N) (e : PitEntry) : Prop :=
  (nonce_in e nonce (fun _ => True) \/ nonce_out e nonce (fun _ => True)) /\
  (f_linkType f = LINK_TYPE_POINT_TO_POINT -> ~ nonce_in e nonce (fun g => g = q)).
Definition loops (f : Face) (q : FacePtr) (i : Interest) (s : Fw) : Prop :=
  Dnl_has (i_name i) (i_nonce i) (fw_dnl s) = true \/
  exists p e, attached (fw_tables s) p e /\ same_request i (pe_interest e) /\ nonce_repeats f q (i_nonce i) e.

(** The handling leaves the PIT, the Content Store and the Dead Nonce List alone, and
    counts the Interest. *)
Definition refused (s s' : Fw) : Prop :=
  ts_pit (fw_tables s') = ts_pit (fw_tables s) /\ fw_cs s' = fw_cs s /\ fw_dnl s' = fw_dnl s /\
  fw_now s' = fw_now s /\ fw_counters s' = incInInterests (fw_counters s).

(** ** The pipeline *)

Lemma land_one z : (Z.land z 1 =? 0)%Z = negb (Z.testbit z 0).
Proof.
  change 1%Z with (Z.ones 1). rewrite Z.land_ones by done. rewrite Z.bit0_odd, Zmod_odd. by destruct (Z.odd z).
Qed.

Lemma repeats_found f q nonce e :
  let dnw := findDuplicateNonce e nonce q in
  nonce_repeats f q nonce e ->
  negb (dnw =? DUPLICATE_NONCE_NONE)%Z &&
    (if bool_decide (f_linkType f = LINK_TYPE_POINT_TO_POINT)
     then (Z.land dnw DUPLICATE_NONCE_IN_SAME =? 0)%Z else true) = true.
Proof.
  cbn zeta. destruct (findDuplicateNonce_flags e nonce q) as (H0 & _ & _ & _ & _ & Hnone). intros [Hin Hp].
  apply andb_true_intro. split.
  - apply negb_true_iff, Z.eqb_neq. rewrite Hnone. tauto.
  - destruct (bool_decide_reflect (f_linkType f = LINK_TYPE_POINT_TO_POINT)) as [E|]; [|done].
    change DUPLICATE_NONCE_IN_SAME with 1%Z. rewrite land_one. apply negb_true_iff, not_true_iff_false.
    rewrite H0. by apply Hp.
Qed.

Lemma bind_gets {A B} (g : Fw -> A) (k : A -> M B) s : (gets g ≫= k) s = k (g s) s.
Proof. done. Qed.

Lemma loop_eval q f i s :
  ft_heap (fw_faces s) !! q = Some f ->
  exists s', onInterestLoop q i s = Done tt s' /\ fw_faces s' = fw_faces s /\ fw_tables s' = fw_tables s /\
    fw_cs s' = fw_cs s /\ fw_dnl s' = fw_dnl s /\ fw_now s' = fw_now s /\ fw_counters s' = fw_counters s /\
    fw_out s' = fw_out s ++ (if bool_decide (f_linkType f = LINK_TYPE_POINT_TO_POINT)
                             then [OutNack q (mkNack i DUPLICATE)] else []).
Proof.
  intros Hf. unfold onInterestLoop. rewrite (bind_done _ _ _ _ _ (the_face_done q f s Hf)).
  destruct (bool_decide _); [by eexists|]. exists s. by rewrite app_nil_r.
Qed.

(** Insertion of an Interest whose request has an entry. *)
Lemma pit_insert_existing i p e s :
  ts_ok (fw_tables s) -> attached (fw_tables s) p e -> same_request i (pe_interest e) ->
  exists t, ts_pit t = ts_pit (fw_tables s) /\ pit_insert i s = Done p (with_tables t s).
Proof.
  intros Hok He Hi. unfold pit_insert, gets, mbind, M_bind, Pit_insert.
  pose proof (pit_findOrInsert_ok i true (fw_tables s) Hok) as H.
  assert (ts_pit (ts_lookup (i_name i) (pit_depth (i_name i)) (fw_tables s)) = ts_pit (fw_tables s)) as Ht by done.
  unfold Pit_findOrInsert in *.
  destruct (find_match _ _ _ _) as [r|]; simpl in *.
  - destruct H as (_ & (e' & [_ Hn] & Hi' & He') & _).
    replace r with p; [eexists; split; [|done]; done|]. destruct He as [He Hne]. eapply (ts_pit_unique _ Hok); [exact He|exact He'|done|done|].
    destruct Hi as (?&?&?), Hi' as (?&?&?). split_and!; congruence.
  - destruct H as (_ & _ & Hno & _). exfalso. discriminate (proj2 Hno (ex_intro _ p (ex_intro _ e (conj He Hi)))).
Qed.

(** The pipeline from the nonce detection on; [i] is the Interest as it goes on. *)
Definition detect {Henv : Env} (strategies : StrategyInstance -> StrategyOps) (q : FacePtr) (f : Face) (i : Interest) : M unit :=
  hasDuplicateNonceInDnl ← gets (fun s => Dnl_has (i_name i) (i_nonce i) (fw_dnl s));
  if hasDuplicateNonceInDnl : bool then onInterestLoop q i
  else
    regions ← gets fw_regions;
    let i := match i_forwardingHint i with
             | [] => i
             | fh => if isInProducerRegion regions fh then setForwardingHint [] i else i
             end in
    p ← pit_insert i;
    interest_tail strategies f q i p.

Lemma detect_loops {Henv : Env} strategies f q i s :
  fw_ok s -> ft_heap (fw_faces s) !! q = Some f -> loops f q i s ->
  exists i' s', i_name i' = i_name i /\ i_nonce i' = i_nonce i /\ detect strategies q f i s = Done tt s' /\
    fw_faces s' = fw_faces s /\ ts_pit (fw_tables s') = ts_pit (fw_tables s) /\
    fw_cs s' = fw_cs s /\ fw_dnl s' = fw_dnl s /\ fw_now s' = fw_now s /\ fw_counters s' = fw_counters s /\
    fw_out s' = fw_out s ++ (if bool_decide (f_linkType f = LINK_TYPE_POINT_TO_POINT)
                             then [OutNack q (mkNack i' DUPLICATE)] else []).
Proof.
  intros Hs Hf Hl. unfold detect. rewrite bind_gets.
  destruct (Dnl_has _ _ _) eqn:Ed.
  - destruct (loop_eval q f i s Hf) as (s' & E & H1 & H2 & H). exists i, s'. split_and!; [done|done|done|done|by rewrite H2|apply H..].
  - destruct Hl as [Hl|(p & e & He & Hi & Hr)]; [congruence|].
    rewrite bind_gets.
    set (i' := match i_forwardingHint i with [] => i | _ => _ end).
    assert (i_name i' = i_name i /\ i_nonce i' = i_nonce i /\ same_request i' i) as (Hn & Hc & Hi').
    { unfold i'. destruct (i_forwardingHint i); [done|]. by case_match. }
    destruct (pit_insert_existing i' p e s) as (t & Ht & E); [apply Hs|done|unfold same_request; destruct Hi' as (E1 & E2 & E3); by rewrite E1, E2, E3|].
    rewrite (bind_done _ _ _ _ _ E). unfold interest_tail.
    rewrite (bind_done _ _ _ _ _ (the_pit_done p e (with_tables t s) ltac:(simpl; rewrite Ht; apply He))).
    rewrite Hc, repeats_found by done.
    destruct (loop_eval q f i' (with_tables t s) Hf) as (s' & E' & H1 & H2 & H). exists i', s'.
    split_and!; [done|done|done|done|by rewrite H2|apply H..].
Qed.

(** C6: What the incoming Interest pipeline refuses. A hop limit of zero, or a /localhost
    name from a non-local face: the Interest vanishes (the face counts an exhausted hop
    limit). A nonce seen before, in the Dead Nonce List or on a record of the request's PIT
    entry (on a point-to-point face, not on that face's own record): on a point-to-point
    face one Nack with reason Duplicate goes back, on any other nothing is sent. In every
    case the handler ends without error, counts the Interest, and leaves the PIT, the Content
    Store and the Dead Nonce List as they are. *)
Theorem interest_drops {Henv : Env} (strategies : StrategyInstance -> StrategyOps)
    (q : FacePtr) (f : Face) (i : Interest) (s : Fw) :
  fw_ok s -> ft_heap (fw_faces s) !! q = Some f ->
  exhausted i \/ barred f (i_name i) \/ loops f q i s ->
  exists s', onIncomingInterest strategies q i s = Done tt s' /\ refused s s' /\
    (exhausted i \/ barred f (i_name i) -> fw_out s' = fw_out s) /\
    fw_faces s' = (if bool_decide (i_hopLimit i = Some 0%N)
                   then mkFaceTable (alter incInHopLimitZero q (ft_heap (fw_faces s))) (ft_lastFaceId (fw_faces s))
                                    (ft_faces (fw_faces s)) (ft_wireless (fw_faces s))
                   else fw_faces s) /\
    (~ exhausted i -> ~ barred f (i_name i) ->
     if bool_decide (f_linkType f = LINK_TYPE_POINT_TO_POINT)
     then exists i', i_name i' = i_name i /\ i_nonce i' = i_nonce i /\ fw_out s' = fw_out s ++ [OutNack q (mkNack i' DUPLICATE)]
     else fw_out s' = fw_out s).
Proof.
  intros Hs Hf Hd. unfold onIncomingInterest. rewrite (bind_done _ _ _ _ _ (the_face_done q f s Hf)).
  set (s1 := with_counters (incInInterests (fw_counters s)) s).
  rewrite (bind_done (count incInInterests) _ tt s s1) by done.
  change (i_hopLimit (set_incomingFaceId (f_id f) i)) with (i_hopLimit i).
  destruct (bool_decide_reflect (i_hopLimit i = Some 0%N)) as [Hz|Hz]; [by eexists|].
  set (i1 := match i_hopLimit i with Some _ => _ | None => _ end).
  assert (i_name i1 = i_name i /\ i_nonce i1 = i_nonce i /\ same_request i1 i) as (Hn & Hc & Hi)
    by (unfold i1; by destruct (i_hopLimit i)).
  cbn zeta. rewrite <- Hn in Hd |- *.
  destruct (bool_decide_reflect (f_scope f = FACE_SCOPE_NON_LOCAL)) as [Hsc|Hsc];
    destruct (isPrefixOf LOCALHOST (i_name i1)) eqn:Hlh; cbn [andb].
  1: { exists s1. split_and!; try done. intros _ Hb. by destruct Hb. }
  all: assert (~ barred f (i_name i1)) as Hnb by (intros [? ?]; congruence).
  all: destruct Hd as [?|[?|Hl]]; [done|done|].
  all: assert (loops f q i1 s1) as Hl1 by
      (unfold loops; rewrite Hn, Hc; destruct Hl as [?|(p & e & ? & ? & ?)]; [by left|right; exists p, e; destruct Hi as (E1 & E2 & E3); unfold same_request in *; by rewrite E1, E2, E3]).
  all: assert (fw_ok s1) as Hs1 by by destruct Hs.
  all: destruct (detect_loops strategies f q i1 s1 Hs1 Hf Hl1) as (i2 & s2 & H1 & H2 & E & Hf2 & Hp & Hc2 & Hd2 & Hnow & Hcnt & Ho).
  all: exists s2; split; [exact E|]; split; [by split_and!|]; split; [by intros [?|?]|]; split; [exact Hf2|].
  all: intros _ _; rewrite Ho; destruct (bool_decide _); [exists i2; split_and!; [congruence|congruence|done]|by rewrite app_nil_r].
Qed.

(** After the exchange the Dead Nonce List may hold the nonce; the client's Interest is
    pending, and comes again from another point-to-point face. *)
Definition looping : list Event := setup ++ [EvInterest 10 sample_interest].
#[local] Existing Instance quiet_env.

Lemma looping_runs : runs looping.
Proof.
  run_event.
  1: exact setup_runs.
  split; [see_face|]. by apply (bool_decide_unpack _).
Qed.
Lemma looping_ok : fw_ok (after looping).
Proof. apply runs_ok, looping_runs. Qed.

Definition looping_entry : PitEntry := default (PitEntry_new sample_interest) (ts_pit (fw_tables (after looping)) !! 1%N).
Definition looping_face : Face := default server (ft_heap (fw_faces (after looping)) !! 20%N).

Lemma interest_drops_witness :
  exists s' i', onIncomingInterest sample_strategies 20 sample_interest (after looping) = Done tt s' /\
    i_nonce i' = i_nonce sample_interest /\
    fw_out s' = fw_out (after looping) ++ [OutNack 20 (mkNack i' DUPLICATE)].
Proof.
  assert (ft_heap (fw_faces (after looping)) !! 20%N = Some looping_face) as Hf by found.
  assert (attached (fw_tables (after looping)) 1 looping_entry) as He.
  { split; [found|].
    exists [word "a"]. vm_cast_no_check (eq_refl (Some [word "a"])). }
  destruct (interest_drops sample_strategies 20 looping_face sample_interest (after looping) looping_ok Hf) as (s' & E & _ & _ & _ & H).
  - right. right. right. exists 1%N, looping_entry. split; [exact He|].
    split; [split; [|split]|].
    1: vm_cast_no_check (eq_refl (i_name sample_interest)).
    1: vm_cast_no_check (eq_refl (i_canBePrefix sample_interest)).
    1: vm_cast_no_check (eq_refl (i_mustBeFresh sample_interest)).
    destruct (findDuplicateNonce_flags looping_entry (i_nonce sample_interest) 20) as (Hsame & Hother & _). split.
    + left. destruct (proj1 Hother) as (r & H1 & H2 & _); [vm_cast_no_check (eq_refl true)|]. exact (ex_intro _ r (conj H1 (conj H2 I))).
    + intros _ Hn%Hsame. revert Hn. apply not_true_iff_false. vm_cast_no_check (eq_refl false).
  - assert (bool_decide (f_linkType looping_face = LINK_TYPE_POINT_TO_POINT) = true) as El by vm_cast_no_check (eq_refl true).
    rewrite El in H. destruct H as (i' & _ & Hc & Ho).
    + intros Hb. discriminate Hb.
    + intros [_ Hb]. discriminate Hb.
    + exists s', i'. split; [exact E|]. split; [exact Hc|exact Ho].
Defined.
