(* ===== verification/Measuring.v ===== *)
(** * What the measuring strategies do

    The access strategy: to which nexthops it multicasts, and when it follows the last one.
    The NCC strategy: the range of its prediction. The ASF strategy: its parameters, the
    ranking of the faces and the choice of the one to probe. *)

From S2P Require Import Prelude Name Uri Packet FaceKeyed RttEstimator PitEntry FibEntry NodeStore NameTree NameTreeInv.
From S2P Require Import Tables Fib Pit Measurements StrategyRegistry StrategyChoice FaceTable RateControl Forwarder Accessor FwAlgorithm.
From S2P Require Import Strategy AccessStrategy NccStrategy AsfStrategy Actions StrategyInv MeasuringInv Pipelines SystemInv Multicast Drops.

(** ** Transmission of an Interest *)

(** As it goes out, without the token of the downstream; and what the outgoing pipeline
    refuses. *)
Definition as_sent (i : Interest) : Interest := match i_pitToken i with Some _ => remove_pitToken i | None => i end.
Definition hop_refused (i : Interest) (f : Face) : bool :=
  bool_decide (i_hopLimit i = Some 0%N) && bool_decide (f_scope f = FACE_SCOPE_NON_LOCAL).
(** The faces, but for their counters. *)
Definition same_faces (s s' : Fw) : Prop :=
  ft_faces (fw_faces s') = ft_faces (fw_faces s) /\
  forall q, (fun f => (f_id f, f_scope f)) <$> ft_heap (fw_faces s') !! q = (fun f => (f_id f, f_scope f)) <$> ft_heap (fw_faces s) !! q.
#[global] Instance same_faces_preorder : PreOrder same_faces.
Proof. split; [by intros s|]. intros s1 s2 s3 [H1 H2] [H3 H4]. split; [congruence|]. intros q. by rewrite H4, H2. Qed.
Lemma same_faces_lookup s s' q f :
  same_faces s s' -> ft_heap (fw_faces s) !! q = Some f ->
  exists f', ft_heap (fw_faces s') !! q = Some f' /\ f_id f' = f_id f /\ f_scope f' = f_scope f.
Proof.
  intros [_ H] Hf. specialize (H q). rewrite Hf in H. destruct (ft_heap (fw_faces s') !! q) as [f'|]; [|done].
  injection H as H1 H2. by exists f'.
Qed.

Section eval.
Context {Henv : Env}.

Lemma sendInterest_eval p q i f e s :
  ft_heap (fw_faces s) !! q = Some f -> ts_pit (fw_tables s) !! p = Some e -> same_request i (pe_interest e) ->
  exists s', sendInterest p q i s = Done (negb (hop_refused i f)) s' /\ same_faces s s' /\ fw_now s' = fw_now s /\
    ts_nt (fw_tables s') = ts_nt (fw_tables s) /\ fw_strategy s' = fw_strategy s /\
    fw_out s' = fw_out s ++ (if hop_refused i f then [] else [OutInterest q (as_sent i)]) /\
    ts_pit (fw_tables s') !! p = Some (if hop_refused i f then e else insertOrUpdateOutRecord (fw_now s) q (as_sent i) e).
Proof.
  intros Hf He Hr. assert (sendInterest p q i = onOutgoingInterest p q (as_sent i)) as ->.
  { unfold sendInterest, as_sent. by destruct (i_pitToken i). }
  assert (i_hopLimit (as_sent i) = i_hopLimit i) as Hh by (unfold as_sent; by destruct (i_pitToken i)).
  unfold onOutgoingInterest, hop_refused. rewrite (bind_done _ _ _ _ _ (the_face_done q f s Hf)), Hh.
  destruct (_ && _).
  - eexists. split; [reflexivity|]. simpl. rewrite app_nil_r. split_and!; try done. split; [done|]. intros x. simpl.
    rewrite lookup_alter. case_decide; [subst; by rewrite Hf|done].
  - assert (assert_canMatch p (as_sent i) s = Done tt s) as Ea.
    { unfold assert_canMatch. rewrite (bind_done _ _ _ _ _ (the_pit_done p e s He)).
      rewrite (proj2 (canMatch_spec e (as_sent i) 0 eq_refl)); [done|]. unfold as_sent. by destruct (i_pitToken i). }
    rewrite (bind_done _ _ _ _ _ Ea). eexists. split; [reflexivity|]. simpl.
    split_and!; try done. by rewrite lookup_alter, decide_True, He.
Qed.

(** ** The access strategy *)

(** The nexthops a multicast goes to. *)
Definition multicast_target (faces : FaceTable) (inFace : FacePtr) (inF : Face) (i : Interest) (except : N) (nh : NextHop) : bool :=
  match ft_heap faces !! nh_face nh with
  | Some f => negb ((nh_face nh =? inFace)%N || (f_id f =? except)%N || wouldViolateScope inF i f) && negb (hop_refused i f)
  | None => false
  end.
Definition multicast_to (faces : FaceTable) (inFace : FacePtr) (inF : Face) (i : Interest) (except : N) (l : list NextHop) : list NextHop :=
  filter (fun nh => multicast_target faces inFace inF i except nh = true) l.

Lemma multicast_to_cons faces inFace inF i except nh l f :
  ft_heap faces !! nh_face nh = Some f ->
  multicast_to faces inFace inF i except (nh :: l) =
    if negb ((nh_face nh =? inFace)%N || (f_id f =? except)%N || wouldViolateScope inF i f) && negb (hop_refused i f)
    then nh :: multicast_to faces inFace inF i except l else multicast_to faces inFace inF i except l.
Proof.
  intros Hf. unfold multicast_to. rewrite filter_bool_cons. unfold multicast_target at 1. rewrite Hf. by destruct (_ && _).
Qed.
Lemma multicast_loop_eval inFace inF i p except s0 l : forall s e n,
  same_faces s0 s -> ts_pit (fw_tables s) !! p = Some e -> same_request i (pe_interest e) -> (forall nh, nh ∈ l -> is_Some (ft_heap (fw_faces s0) !! nh_face nh)) ->
  exists s', access_multicast_loop inFace inF i p l except n s = Done (n + length (multicast_to (fw_faces s0) inFace inF i except l))%nat s' /\ fw_now s' = fw_now s /\
    fw_out s' = fw_out s ++ ((fun nh => OutInterest (nh_face nh) (as_sent i)) <$> multicast_to (fw_faces s0) inFace inF i except l) /\
    ts_pit (fw_tables s') !! p = Some (foldl (fun e nh => insertOrUpdateOutRecord (fw_now s) (nh_face nh) (as_sent i) e) e
                                             (multicast_to (fw_faces s0) inFace inF i except l)).
Proof.
  induction l as [|nh l IH]; intros s e n HS He Hr Hl; cbn [access_multicast_loop].
  { exists s. simpl. rewrite Nat.add_0_r, app_nil_r. done. }
  destruct (Hl nh) as [f0 Hf0]; [by left|]. destruct (same_faces_lookup s0 s _ _ HS Hf0) as (f & Hf & Hid & Hsc).
  assert (forall nh, nh ∈ l -> is_Some (ft_heap (fw_faces s0) !! nh_face nh)) as Hl' by (intros x Hx; apply Hl; by right).
  rewrite (bind_done _ _ _ _ _ (the_face_done _ f s Hf)), (multicast_to_cons _ _ _ _ _ _ _ _ Hf0).
  assert (wouldViolateScope inF i f = wouldViolateScope inF i f0) as -> by (unfold wouldViolateScope; by rewrite Hsc).
  assert (hop_refused i f0 = hop_refused i f) as -> by (unfold hop_refused; by rewrite Hsc).
  rewrite Hid. destruct (_ || wouldViolateScope inF i f0); cbn [negb andb]; [by apply IH|].
  destruct (sendInterest_eval p (nh_face nh) i f e s Hf He Hr) as (s1 & E & HS1 & Hnow & _ & _ & Ho & Hp). rewrite (bind_done _ _ _ _ _ E).
  assert (same_faces s0 s1) as HS01 by by etrans.
  assert (same_request i (pe_interest (if hop_refused i f then e else insertOrUpdateOutRecord (fw_now s) (nh_face nh) (as_sent i) e))) as Hr'
    by (by destruct (hop_refused i f)).
  destruct (IH s1 _ (if negb (hop_refused i f) then S n else n) HS01 Hp Hr' Hl') as (s' & E' & Hn' & Ho' & Hp').
  exists s'. rewrite E', Hn', Ho', Hp', Ho, Hnow.
  destruct (hop_refused i f); cbn [negb fmap list_fmap length app foldl]; rewrite ?app_nil_r, <- ?app_assoc; [done|].
  split_and!; [f_equal; lia|done|done|done].
Qed.

Lemma access_multicast_eval inFace inF i p e fib except s0 s :
  same_faces s0 s -> ft_heap (fw_faces s0) !! inFace = Some inF -> ts_pit (fw_tables s) !! p = Some e -> same_request i (pe_interest e) ->
  (forall nh, nh ∈ fe_nextHops fib -> is_Some (ft_heap (fw_faces s0) !! nh_face nh)) ->
  let l := multicast_to (fw_faces s0) inFace inF i except (fe_nextHops fib) in
  exists s', access_multicast inFace i p fib except s = Done (length l) s' /\ fw_now s' = fw_now s /\
    fw_out s' = fw_out s ++ ((fun nh => OutInterest (nh_face nh) (as_sent i)) <$> l) /\
    ts_pit (fw_tables s') !! p = Some (foldl (fun e nh => insertOrUpdateOutRecord (fw_now s) (nh_face nh) (as_sent i) e) e l).
Proof.
  intros HS Hin He Hr Hl l. destruct (same_faces_lookup _ _ _ _ HS Hin) as (inF' & Hin' & Hid & Hsc).
  unfold access_multicast. rewrite (bind_done _ _ _ _ _ (the_face_done _ _ _ Hin')).
  assert (l = multicast_to (fw_faces s0) inFace inF' i except (fe_nextHops fib)) as ->.
  { unfold l, multicast_to. apply list_filter_iff. intros nh. unfold multicast_target, wouldViolateScope. by rewrite Hsc. }
  by apply (multicast_loop_eval inFace inF' i p except s0).
Qed.
(** The FIB entry of a request, and its nexthops' faces: without a forwarding hint that of the
    longest prefix of its name, with one that of the first delegation with nexthops. Every FIB
    entry but the root's has nexthops, once it is complete. *)
Fixpoint first_route (t : TableState) (fh : list Delegation) (found : FibEntry) : FibEntry :=
  match fh with
  | [] => found
  | del :: fh' => let f := Fib_lpm_name (del_name del) t in if hasNextHops f then f else first_route t fh' f
  end.
Definition fib_for (e : PitEntry) (t : TableState) : FibEntry :=
  match i_forwardingHint (pe_interest e) with [] => Fib_lpm_pit e t | fh => first_route t fh s_emptyEntry end.
Definition fib_complete (t : TableState) : Prop := forall n f, fib_map (ts_nt t) !! n = Some f -> n <> [] -> fe_nextHops f <> [].

Lemma lookup_delegations_done s fh : fw_ok s -> fib_complete (fw_tables s) ->
  forall f, lookup_delegations (fw_tables s) fh f s = Done (first_route (fw_tables s) fh f) s.
Proof.
  intros Hs Hc. induction fh as [|d l IH]; intros f; [done|]. simpl. set (g := Fib_lpm_name (del_name d) (fw_tables s)).
  destruct (hasNextHops g) eqn:Eh; [done|]. destruct (fe_prefix g) as [|c n] eqn:Ep; [apply IH|].
  assert (fe_prefix g = [] \/ fib_map (ts_nt (fw_tables s)) !! fe_prefix g = Some g) as [E|E] by (by apply fib_of_prefix); rewrite Ep in E; [done|].
  assert (c :: n <> []) as Hne by done. specialize (Hc _ _ E Hne). unfold hasNextHops in Eh. by destruct (fe_nextHops g).
Qed.
Lemma lookupFib_eval p e s : fw_ok s -> fib_complete (fw_tables s) -> attached (fw_tables s) p e ->
  lookupFib p s = Done (fib_for e (fw_tables s)) s.
Proof.
  intros Hs Hc He. unfold lookupFib. rewrite (bind_done _ _ _ _ _ (the_pit_done _ _ _ (proj1 He))), bind_gets. unfold fib_for.
  pose proof (fo_hints _ Hs p e He) as Hh. destruct (i_forwardingHint (pe_interest e)); [done|]. rewrite bind_gets, Hh.
  by apply lookup_delegations_done.
Qed.
Lemma hops_present p e s :
  fw_ok s -> fib_complete (fw_tables s) -> attached (fw_tables s) p e -> forall nh, nh ∈ fe_nextHops (fib_for e (fw_tables s)) -> is_Some (ft_heap (fw_faces s) !! nh_face nh).
Proof.
  intros Hs Hc Hp nh Hnh. pose proof (keeps_lookupFib (pending p (pe_interest e)) p _ (fun _ H => H) s Hs) as H.
  rewrite (lookupFib_eval _ _ _ Hs Hc Hp) in H. destruct H as (_ & _ & H); [by exists e|].
  destruct (H nh Hnh) as (f & Hf & _). by exists f.
Qed.
(** What the strategy knows of the Interest: the item of the longest prefix of its name that
    has a Measurements entry, when the strategy is in effect there. *)
Definition known_last (self : Name) (e : PitEntry) (t : TableState) : option (N * RttEstimator) :=
  n ← Meas_lpm_pit e (fun _ => true) t;
  if bool_decide (owner_meas n t = Some self) then
    m ← meas_map (ts_nt t) !! n;
    match me_info m !! ACCESS_MT_INFO with Some (AccessMtInfo lastNexthop rtt) => Some (lastNexthop, rtt) | _ => None end
  else None.
(** The last nexthop, when it can be used: another face of the table than the one the
    Interest came in on, still a nexthop, which scope and hop limit allow. *)
Definition usable_face (inF : Face) (i : Interest) (fib : FibEntry) (id : N) (faces : FaceTable) : option FacePtr :=
  if (id =? INVALID_FACEID)%N || (id =? f_id inF)%N then None
  else q ← ft_get id faces;
       f ← ft_heap faces !! q;
       if negb (hasNextHop fib q) || wouldViolateScope inF i f || hop_refused i f then None else Some q.
Definition follows (self : Name) (e : PitEntry) (inF : Face) (i : Interest) (s : Fw) : option (N * RttEstimator * FacePtr) :=
  '(id, rtt) ← known_last self e (fw_tables s);
  q ← usable_face inF i (fib_for e (fw_tables s)) id (fw_faces s); Some (id, rtt, q).

Lemma strategy_self_eval p e self s :
  ts_pit (fw_tables s) !! p = Some e -> owner_pit e (fw_tables s) = Some self -> strategy_self p s = Done self s.
Proof. intros He Ho. unfold strategy_self. rewrite (bind_done _ _ _ _ _ (the_pit_done _ _ _ He)), bind_gets, Ho. done. Qed.
Lemma findPrefixMeasurements_eval self p e s :
  fw_ok s -> ts_pit (fw_tables s) !! p = Some e -> findPrefixMeasurements self p s = Done (known_last self e (fw_tables s)) s.
Proof.
  intros Hs He. unfold findPrefixMeasurements, acc_findLongestPrefixMatch_pit, known_last.
  rewrite (bind_done _ _ (Meas_lpm_pit e (fun _ => true) (fw_tables s) ≫= fun n => if bool_decide (owner_meas n (fw_tables s) = Some self) then Some n else None) s s).
  2: { rewrite (bind_done _ _ _ _ _ (the_pit_done _ _ _ He)), bind_gets. by destruct (Meas_lpm_pit _ _ _). }
  destruct (Meas_lpm_pit e (fun _ => true) (fw_tables s)) as [n|] eqn:En; simpl; [|done]. case_bool_decide; [|done].
  unfold getMeasInfo, the_meas, gets, mbind, M_bind.
  apply Meas_lpm_measured in En as [m Hm]; [|apply Hs]. rewrite Hm. simpl. unfold getStrategyInfo.
  by destruct (me_info m !! ACCESS_MT_INFO) as [[]|].
Qed.

(** The transmission to the last nexthop, which sends nothing when that cannot be used. *)
Lemma sendToLast_eval self p e s ingress inF i id rtt :
  fw_ok s -> ft_heap (fw_faces s) !! ingress = Some inF -> attached (fw_tables s) p e -> same_request i (pe_interest e) ->
  exists s', sendToLastNexthop self ingress i p id rtt (fib_for e (fw_tables s)) s =
    Done (if usable_face inF i (fib_for e (fw_tables s)) id (fw_faces s) then true else false) s' /\
    match usable_face inF i (fib_for e (fw_tables s)) id (fw_faces s) with
    | Some q => fw_out s' = fw_out s ++ [OutInterest q (as_sent i)] /\
        pit_item p ACCESS_PIT_INFO s' = Some (AccessPitInfo (Some ((fw_now s + re_rto rtt)%Z, (self, generation self s), f_id inF, id)))
    | None => fw_out s' = fw_out s /\ same_faces s s' /\ fw_now s' = fw_now s /\ ts_pit (fw_tables s') !! p = Some e
    end.
Proof.
  intros Hs Hin [He [x Hx]] Hr. unfold sendToLastNexthop, usable_face.
  destruct (id =? INVALID_FACEID)%N; [by exists s|]. rewrite (bind_done _ _ _ _ _ (the_face_done _ _ _ Hin)).
  destruct (id =? f_id inF)%N; [by exists s|]. cbn [orb].
  assert (getFace id s = Done (ft_get id (fw_faces s)) s) as Eq by done. rewrite (bind_done _ _ _ _ _ Eq).
  destruct (ft_get id (fw_faces s)) as [q|] eqn:Eg; [|by exists s]. simpl.
  destruct (ft_in _ (fo_faces _ Hs) _ _ Eg) as (f & Hf & _). rewrite Hf. simpl.
  destruct (hasNextHop _ q); simpl; [|by exists s].
  rewrite (bind_done _ _ _ _ _ (the_face_done _ _ _ Hf)). destruct (wouldViolateScope inF i f); [by exists s|]. cbn [orb].
  destruct (sendInterest_eval p q i f e s Hf He Hr) as (s1 & E & HS & Hnow & _ & Hst & Ho & Hp). rewrite (bind_done _ _ _ _ _ E).
  destruct (hop_refused i f); cbn [negb]; [exists s1; by rewrite app_nil_r in Ho|].
  set (e1 := insertOrUpdateOutRecord (fw_now s) q (as_sent i) e) in *.
  unfold insertPitInfo, putPitInfo, object_of, the_pit, update_pit, gets, modify, mbind, M_bind. simpl. rewrite Hp. simpl.
  destruct (insertStrategyInfo ACCESS_PIT_INFO _ _) as [[i0 isNew] h]. simpl. rewrite lookup_alter, decide_True, Hp by done. simpl.
  eexists. split; [reflexivity|]. split; [exact Ho|]. unfold pit_item. simpl. rewrite !lookup_alter, !decide_True, Hp by done. simpl.
  rewrite Hx. simpl. rewrite lookup_insert, decide_True by done. unfold generation. simpl. by rewrite Hnow, Hst.
Qed.

(** C29: What the access strategy does with a new Interest. When it knows the last nexthop of
    the longest prefix with measurements, and that one can be used, the Interest goes there
    and nowhere else, and the timer is set for the estimated timeout. Otherwise it goes to
    every nexthop but the incoming face that scope and hop limit allow, in the order of the
    FIB entry, each with an out-record; if there is none, the Interest is rejected: its PIT
    entry expires at once. The handler ends without error. This is in a state of the invariant,
    for the PIT entry of the Interest, which the strategy is in effect for, when every FIB entry
    but the root's has nexthops ([fib_complete]; an entry without, met through a forwarding
    hint, fails an assertion in any strategy). *)
Theorem access_new_interest (ingress : FacePtr) (inF : Face) (i : Interest) (p : PitPtr) (e : PitEntry) (self : Name) (s : Fw) :
  fw_ok s -> ft_heap (fw_faces s) !! ingress = Some inF -> attached (fw_tables s) p e -> same_request i (pe_interest e) ->
  owner_pit e (fw_tables s) = Some self -> fib_complete (fw_tables s) ->
  let l := multicast_to (fw_faces s) ingress inF i INVALID_FACEID (fe_nextHops (fib_for e (fw_tables s))) in
  exists s', access_afterReceiveNewInterest ingress i p s = Done tt s' /\
  match follows self e inF i s with
  | Some (id, rtt, q) =>
      fw_out s' = fw_out s ++ [OutInterest q (as_sent i)] /\
      pit_item p ACCESS_PIT_INFO s' = Some (AccessPitInfo (Some ((fw_now s + re_rto rtt)%Z, (self, generation self s), f_id inF, id)))
  | None =>
      fw_out s' = fw_out s ++ ((fun nh => OutInterest (nh_face nh) (as_sent i)) <$> l) /\
      exists e', ts_pit (fw_tables s') !! p = Some e' /\
        pe_outRecords e' = pe_outRecords (foldl (fun e nh => insertOrUpdateOutRecord (fw_now s) (nh_face nh) (as_sent i) e) e l) /\
        (l = [] -> pe_expiryTimer e' = Some (fw_now s))
  end.
Proof.
  intros Hs Hin Hp Hr Ho Hc l. unfold access_afterReceiveNewInterest. rewrite (bind_done _ _ _ _ _ (strategy_self_eval _ _ _ _ (proj1 Hp) Ho)).
  rewrite (bind_done _ _ _ _ _ (lookupFib_eval _ _ _ Hs Hc Hp)), (bind_done _ _ _ _ _ (findPrefixMeasurements_eval self p e s Hs (proj1 Hp))).
  assert (forall s1, fw_out s1 = fw_out s -> same_faces s s1 -> fw_now s1 = fw_now s -> ts_pit (fw_tables s1) !! p = Some e ->
    exists s', (nMulticastSent ← access_multicast ingress i p (fib_for e (fw_tables s)) INVALID_FACEID;
      if (nMulticastSent =? 0)%nat then rejectPendingInterest p else mret tt) s1 = Done tt s' /\
    fw_out s' = fw_out s ++ ((fun nh => OutInterest (nh_face nh) (as_sent i)) <$> l) /\
    exists e', ts_pit (fw_tables s') !! p = Some e' /\
      pe_outRecords e' = pe_outRecords (foldl (fun e nh => insertOrUpdateOutRecord (fw_now s) (nh_face nh) (as_sent i) e) e l) /\
      (l = [] -> pe_expiryTimer e' = Some (fw_now s))) as Hm.
  { intros s1 H1 HS H2 H3. destruct (access_multicast_eval ingress inF i p e _ INVALID_FACEID s s1 HS Hin H3 Hr (hops_present _ _ _ Hs Hc Hp)) as (s2 & E & Hn2 & Ho2 & Hp2).
    fold l in E, Ho2, Hp2. rewrite (bind_done _ _ _ _ _ E), <- H1, <- H2. destruct (decide (l = [])) as [->|Hl].
    - eexists. split; [reflexivity|]. split; [done|]. simpl. rewrite lookup_alter, decide_True, Hp2 by done. simpl.
      eexists. split; [reflexivity|]. split; [done|]. intros _. rewrite Hn2. simpl. f_equal. lia.
    - assert ((length l =? 0)%nat = false) as -> by (destruct l; done). exists s2. split; [done|]. split; [done|]. by eexists. }
  unfold follows. destruct (known_last self e (fw_tables s)) as [[id rtt]|]; simpl; [|apply Hm; [done|reflexivity|done|apply Hp]].
  destruct (sendToLast_eval self p e s ingress inF i id rtt Hs Hin Hp Hr) as (s1 & E & H). rewrite (bind_done _ _ _ _ _ E).
  destruct (usable_face _ _ _ _ _) as [q|]; simpl; [by exists s1|]. apply Hm; apply H.
Qed.
End eval.

(** ** The NCC strategy *)

Definition in_range (z : Z) : Prop := (MIN_PREDICTION <= z <= MAX_PREDICTION)%Z.
Definition predict (up : bool) (x : NccInfo) : NccInfo := if up then adjustPredictUp x else adjustPredictDown x.

Lemma predict_range up x : in_range (nc_prediction x) -> in_range (nc_prediction (predict up x)).
Proof.
  unfold in_range, MIN_PREDICTION, MAX_PREDICTION. destruct up; simpl; unfold ADJUST_PREDICT_UP_SHIFT, ADJUST_PREDICT_DOWN_SHIFT.
  all: rewrite Z.shiftr_div_pow2 by done; intros H; unfold MIN_PREDICTION, MAX_PREDICTION.
  - assert (0 <= nc_prediction x / 2 ^ 3)%Z by (apply Z.div_pos; lia). lia.
  - assert (0 <= nc_prediction x / 2 ^ 7)%Z by (apply Z.div_pos; lia). lia.
Qed.
Lemma predict_mono up x y :
  (MIN_PREDICTION <= nc_prediction x <= nc_prediction y)%Z -> (nc_prediction (predict up x) <= nc_prediction (predict up y))%Z.
Proof.
  unfold MIN_PREDICTION. destruct up; simpl; unfold ADJUST_PREDICT_UP_SHIFT, ADJUST_PREDICT_DOWN_SHIFT; rewrite !Z.shiftr_div_pow2 by done; intros H.
  - assert (nc_prediction x / 2 ^ 3 <= nc_prediction y / 2 ^ 3)%Z by (apply Z.div_le_mono; lia). lia.
  - set (a := nc_prediction x) in *. set (b := nc_prediction y) in *. change (2 ^ 7)%Z with 128%Z.
    assert (b / 128 - a / 128 <= b - a)%Z; [|lia].
    pose proof (Z.div_mod a 128). pose proof (Z.div_mod b 128). pose proof (Z.mod_pos_bound a 128). pose proof (Z.mod_pos_bound b 128). lia.
Qed.

Lemma predict_iter up k x y :
  in_range (nc_prediction x) -> in_range (nc_prediction y) -> (nc_prediction x <= nc_prediction y)%Z ->
  in_range (nc_prediction (Nat.iter k (predict up) x)) /\ in_range (nc_prediction (Nat.iter k (predict up) y)) /\
  (nc_prediction (Nat.iter k (predict up) x) <= nc_prediction (Nat.iter k (predict up) y))%Z.
Proof.
  intros Hx Hy Hle. induction k as [|k (H1 & H2 & H3)]; [done|]. rewrite !Nat.iter_succ.
  split_and!; [by apply predict_range..|]. apply predict_mono. split; [apply H1|done].
Qed.
(** The prediction of the NCC strategy. From the start, after any sequence of Data from the
    best face (down by 1/128) and timeouts (up by 1/8), it lies between 127 microseconds and
    160 milliseconds; a timeout never lowers and Data never raises it; and from any value in
    the range 61 timeouts in a row reach the upper end, and 983 Data the lower one. *)
Theorem ncc_prediction_range (moves : list bool) :
  let x := foldl (fun x up => predict up x) NccInfo_new moves in
  in_range (nc_prediction x) /\
  (nc_prediction (adjustPredictDown x) <= nc_prediction x <= nc_prediction (adjustPredictUp x))%Z /\
  nc_prediction (Nat.iter 61 adjustPredictUp x) = MAX_PREDICTION /\
  nc_prediction (Nat.iter 983 adjustPredictDown x) = MIN_PREDICTION.
Proof.
  assert (forall l x, in_range (nc_prediction x) -> in_range (nc_prediction (foldl (fun x up => predict up x) x l))) as Hl.
  { induction l as [|b l IH]; intros x Hx; [done|]. apply IH, predict_range, Hx. }
  intros x. assert (in_range (nc_prediction x)) as Hx by (by apply Hl).
  assert (in_range MIN_PREDICTION /\ in_range MAX_PREDICTION) as [Hmin Hmax] by done. split_and!; [done| | | |].
  - simpl. unfold ADJUST_PREDICT_DOWN_SHIFT. rewrite Z.shiftr_div_pow2 by done. destruct Hx as [Hx _].
    assert (0 <= nc_prediction x / 2 ^ 7)%Z by (apply Z.div_pos; unfold MIN_PREDICTION in Hx; lia). lia.
  - simpl. unfold ADJUST_PREDICT_UP_SHIFT. rewrite Z.shiftr_div_pow2 by done. destruct Hx as [Hx Hx'].
    assert (0 <= nc_prediction x / 2 ^ 3)%Z by (apply Z.div_pos; unfold MIN_PREDICTION in Hx; lia). lia.
  - destruct (predict_iter true 61 (mkNccInfo None None MIN_PREDICTION) x) as (_ & [_ H] & Hle); [done|done|apply Hx|].
    apply Z.le_antisymm; [exact H|]. etrans; [|exact Hle]. by vm_compute.
  - destruct (predict_iter false 983 x (mkNccInfo None None MAX_PREDICTION)) as ([H _] & _ & Hle); [done|done|apply Hx|].
    apply Z.le_antisymm; [|exact H]. etrans; [exact Hle|]. by vm_compute.
Qed.

(** The recursion that makes the items of an entry and its parents: every call goes to a
    shorter name. *)
Section ncc.
Context {Henv : Env}.

Lemma acc_getParent_shorter self n s k s' :
  fw_ok s -> acc_getParent self n s = Done (Some k) s' -> (length k < length n)%nat.
Proof.
  intros Hs. unfold acc_getParent. rewrite !bind_gets. unfold Meas_getParent. destruct n as [|c n]; [done|].
  destruct (nt_get (ts_nt (fw_tables s)) (c :: n) ≫= nte_parent) as [x|] eqn:E; simpl; [|done].
  unfold modify, mbind, M_bind, acc_filter, gets. intros [= H _]. apply bind_Some in E as (e & He & Hx). rewrite nt_get_map in He.
  rewrite (ok_parent _ (ts_tree _ (fo_tables _ Hs)) _ _ He) in Hx. injection Hx as <-.
  simpl in H. case_bool_decide; [|done]. injection H as <-. unfold parent_of. rewrite length_take. simpl. lia.
Qed.

Lemma bind_ext {A B} (m : M A) (f g : A -> M B) s : (forall a s', m s = Done a s' -> f a s' = g a s') -> (m ≫= f) s = (m ≫= g) s.
Proof. intros H. unfold mbind, M_bind. destruct (m s) as [a s'|]; [by apply H|done]. Qed.
Lemma keeps_done_ok {A} (m : M A) (P : Fw -> Prop) Q s a s' : keeps P m Q -> fw_ok s -> P s -> m s = Done a s' -> fw_ok s' /\ evolves s s' /\ Q a s'.
Proof. intros H Hs HP E. specialize (H s Hs HP). by rewrite E in H. Qed.

Lemma ncc_fuel self m : forall n s k1 k2, fw_ok s -> measured n s ->
  (length n <= m)%nat -> (length n <= k1)%nat -> (length n <= k2)%nat ->
  getMeasurementsEntryInfo_entry k1 self n s = getMeasurementsEntryInfo_entry k2 self n s.
Proof.
  assert (forall k s, getMeasurementsEntryInfo_entry k self [] s = getMeasurementsEntryInfo_entry 0 self [] s) as H0.
  { intros [|k] s; [done|]. cbn [getMeasurementsEntryInfo_entry]. apply bind_ext. intros [x b] s' _. by destruct b. }
  induction m as [|m IH]; intros n s k1 k2 Hs Hn Hm H1 H2; (destruct n as [|c n]; [by rewrite (H0 k1), (H0 k2)|]); simpl in Hm; [lia|].
  destruct k1 as [|k1], k2 as [|k2]; simpl in H1, H2; try lia. cbn [getMeasurementsEntryInfo_entry].
  apply bind_ext. intros [x b] s1 E1. destruct b; [|done]. cbn [negb].
  destruct (keeps_done_ok _ (measured (c :: n)) _ _ _ _ (keeps_insertMeasInfo _ _ NCC_MT_INFO (ncc_item NccInfo_new) (fun _ H => H)) Hs Hn E1) as (Hs1 & _ & _).
  apply bind_ext. intros [k|] s2 E2; [|done]. pose proof (acc_getParent_shorter _ _ _ _ _ Hs1 E2) as Hlen. simpl in Hlen.
  destruct (keeps_done_ok _ (fun _ => True) _ _ _ _ (keeps_acc_getParent _ self _) Hs1 I E2) as (Hs2 & _ & Hk).
  unfold mbind at 1 3, M_bind at 1 3. rewrite (IH k s2 k1 k2); [done|done|by apply Hk|lia..].
Qed.

(** More fuel than the length of the name changes nothing: the definition, which starts with
    that much, is the recursion of the code, and it ends. *)
Theorem ncc_recursion_ends (self n : Name) (fuel : nat) (s : Fw) :
  fw_ok s -> measured n s -> (length n <= fuel)%nat ->
  getMeasurementsEntryInfo_entry fuel self n s = getMeasurementsEntryInfo_entry (length n) self n s.
Proof. intros Hs Hn H. by eapply ncc_fuel. Qed.
End ncc.

(** ** The ASF strategy *)

(** *** Parameters *)

Section params.
Context (lexical_cast : list byte -> option N).
Context (cast_range : forall l n, lexical_cast l = Some n -> (n < 2 ^ 64)%N).

(** One parameter: which of the two it is, and its value. *)
Inductive AsfParam := ProbingInterval (ms : Z) | NSilentTimeouts (n : N).
Definition read_param (c : Component) : option AsfParam :=
  match split_at (fun b => Byte.eqb b x7e) (c_value c) with
  | (f, Some s) =>
      if bool_decide (f = str "probing-interval") then
        n ← getParamValue lexical_cast s; a ← setProbingInterval n AsfParams_default; Some (ProbingInterval (ap_probingInterval a))
      else if bool_decide (f = str "n-silent-timeouts") then NSilentTimeouts <$> getParamValue lexical_cast s
      else None
  | _ => None
  end.
Definition apply_param (p : AsfParam) (a : AsfParams) : AsfParams :=
  match p with
  | ProbingInterval z => mkAsfParams z (ap_nMaxSilentTimeouts a)
  | NSilentTimeouts n => mkAsfParams (ap_probingInterval a) n
  end.
Definition valid_param (p : AsfParam) : Prop :=
  match p with ProbingInterval z => (MIN_PROBING_INTERVAL <= z < 2 ^ 63)%Z | NSilentTimeouts _ => True end.

Lemma processParam_read c a : processParam lexical_cast c a = (fun p => apply_param p a) <$> read_param c.
Proof.
  unfold processParam, read_param. destruct (split_at _ (c_value c)) as [f [s|]]; [|done].
  case_bool_decide; [|case_bool_decide; [|done]]; destruct (getParamValue lexical_cast s) as [n|]; try done.
  simpl. unfold setProbingInterval. by destruct (_ <=? _)%Z.
Qed.
Lemma processParams_read parsed : forall a,
  processParams lexical_cast parsed a = (fun ps => foldl (fun a p => apply_param p a) a ps) <$> mapM read_param parsed.
Proof.
  induction parsed as [|c parsed IH]; intros a; [done|]. simpl. rewrite processParam_read.
  destruct (read_param c) as [p|]; [|done]. simpl. rewrite IH. by destruct (mapM read_param parsed).
Qed.
Lemma read_param_valid c p : read_param c = Some p -> valid_param p.
Proof using cast_range.
  unfold read_param. destruct (split_at _ (c_value c)) as [f [s|]]; [|done].
  case_bool_decide; [|case_bool_decide; [|done]]; destruct (getParamValue lexical_cast s) as [n|] eqn:En; simpl; try done; [|by intros [= <-]].
  unfold setProbingInterval. set (z := if (_ <? _)%Z then _ else _). destruct (Z.leb_spec MIN_PROBING_INTERVAL z); [|done].
  simpl. intros [= <-]. split; [done|]. unfold z. destruct (Z.ltb_spec (Z.of_N n) (2 ^ 63)); [done|].
  assert (n < 2 ^ 64)%N; [|lia]. unfold getParamValue in En. destruct s as [|b s]; [by eapply cast_range|].
  destruct (Byte.eqb b x2d); [done|by eapply cast_range].
Qed.

(** The last of each kind counts. *)
Definition last_interval (ps : list AsfParam) (d : Z) : Z :=
  foldl (fun z p => match p with ProbingInterval z' => z' | _ => z end) d ps.
Definition last_timeouts (ps : list AsfParam) (d : N) : N :=
  foldl (fun n p => match p with NSilentTimeouts n' => n' | _ => n end) d ps.
Lemma apply_params_last ps : forall a,
  foldl (fun a p => apply_param p a) a ps = mkAsfParams (last_interval ps (ap_probingInterval a)) (last_timeouts ps (ap_nMaxSilentTimeouts a)).
Proof. induction ps as [|[z|n] ps IH]; intros a; cbn [foldl]; [by destruct a|by rewrite IH..]. Qed.
Lemma last_interval_range ps d :
  (MIN_PROBING_INTERVAL <= d < 2 ^ 63)%Z -> Forall valid_param ps -> (MIN_PROBING_INTERVAL <= last_interval ps d < 2 ^ 63)%Z.
Proof. intros Hd H. revert d Hd. induction H as [|[z|n] ps Hp _ IH]; intros d Hd; simpl; auto. Qed.

(** The parameters of an ASF strategy: its name is accepted when every component after the
    version is one of the two parameters with a value that can be read, and a probing interval
    is at least a second; the last of each kind counts, and the probing interval in use is
    always between a second and 2^63 - 1 milliseconds. *)
Theorem asf_params_spec (parsed : Name) :
  match processParams lexical_cast parsed AsfParams_default with
  | Some a => exists ps, mapM read_param parsed = Some ps /\
      a = mkAsfParams (last_interval ps DEFAULT_PROBING_INTERVAL) (last_timeouts ps DEFAULT_N_SILENT_TIMEOUTS) /\
      (MIN_PROBING_INTERVAL <= ap_probingInterval a < 2 ^ 63)%Z
  | None => exists c, c ∈ parsed /\ read_param c = None
  end.
Proof using cast_range.
  rewrite processParams_read. destruct (mapM read_param parsed) as [ps|] eqn:E; simpl.
  - exists ps. rewrite apply_params_last. split_and!; [done|done| |]; apply last_interval_range; try done.
    all: apply mapM_Some in E; eapply Forall2_Forall_r; [exact E|]; apply Forall_forall; intros c _ p; apply read_param_valid.
  - apply mapM_None in E. by apply Exists_exists in E as (c & Hc & E); exists c.
Qed.
End params.

(** *** Ranking *)

Lemma stats_before_trans_neg x y z : stats_before y x = false -> stats_before z y = false -> stats_before z x = false.
Proof. unfold stats_before. rewrite !orb_false_iff, !andb_false_iff, !Z.ltb_ge, !Z.eqb_neq, !N.ltb_ge. lia. Qed.
Lemma stats_before_asym x y : stats_before x y = true -> stats_before y x = false.
Proof. unfold stats_before. rewrite orb_true_iff, orb_false_iff, andb_true_iff, andb_false_iff, !Z.ltb_lt, Z.ltb_ge, !Z.eqb_eq, Z.eqb_neq, N.ltb_lt, N.ltb_ge. lia. Qed.
Lemma stats_before_step x y z : stats_before x y = true -> stats_before z y = false -> stats_before x z = true.
Proof. unfold stats_before. rewrite !orb_true_iff, orb_false_iff, !andb_true_iff, andb_false_iff, !Z.ltb_lt, Z.ltb_ge, !Z.eqb_eq, Z.eqb_neq, !N.ltb_lt, N.ltb_ge. lia. Qed.

Lemma best_stats_from l : forall b, exists x, best_stats l (Some b) = Some x /\
  ((x = b /\ forall y, y ∈ l -> stats_before y b = false) \/
   exists l1 l2, l = l1 ++ x :: l2 /\ stats_before x b = true /\
     (forall y, y ∈ l1 -> stats_before x y = true) /\ (forall y, y ∈ l2 -> stats_before y x = false)).
Proof.
  induction l as [|y l IH]; intros b; simpl.
  { exists b. split; [done|]. left. split; [done|]. by intros y ?%not_elem_of_nil. }
  destruct (stats_before y b) eqn:Ey.
  - destruct (IH y) as (x & E & [[-> H]|(l1 & l2 & -> & H1 & H2 & H3)]); rewrite E; eexists; (split; [reflexivity|]); right.
    + exists [], l. split_and!; [done|done|by intros z ?%not_elem_of_nil|done].
    + exists (y :: l1), l2. split_and!; [done| |intros z [->|Hz]%elem_of_cons; auto|done].
      destruct (stats_before x b) eqn:Exb; [done|]. exfalso. pose proof (stats_before_asym _ _ H1) as Hyx.
      pose proof (stats_before_trans_neg b x y). pose proof (stats_before_asym _ _ Ey). naive_solver congruence.
  - destruct (IH b) as (x & E & [[-> H]|(l1 & l2 & -> & H1 & H2 & H3)]); rewrite E; eexists; (split; [reflexivity|]).
    + left. split; [done|]. intros z [->|Hz]%elem_of_cons; auto.
    + right. exists (y :: l1), l2. split_and!; [done|done| |done].
      intros z [->|Hz]%elem_of_cons; [|by apply H2]. by eapply stats_before_step.
Qed.

(** The face for forwarding, in the order of [FaceStatsCompare]: no other has a smaller value
    to sort by, or the same and a smaller cost, and of those that compare equal it is the
    first in the FIB entry. *)
Theorem best_stats_least (l : list FaceStats) :
  match best_stats l None with
  | None => l = []
  | Some x => exists l1 l2, l = l1 ++ x :: l2 /\
      (forall y, y ∈ l1 -> stats_before x y = true) /\ (forall y, y ∈ l2 -> stats_before y x = false)
  end.
Proof.
  destruct l as [|y l]; [done|]. simpl. destruct (best_stats_from l y) as (x & -> & [[-> H]|(l1 & l2 & -> & H1 & H2 & H3)]).
  - exists [], l. split_and!; [done|by intros z ?%not_elem_of_nil|done].
  - exists (y :: l1), l2. split_and!; [done|intros z [->|Hz]%elem_of_cons; auto|done].
Qed.

(** ** At concrete states *)

#[local] Existing Instance quiet_env.
#[local] Existing Instance quiet_laws.

(** A second server, with a dearer route. *)
Definition two_servers : list Event :=
  setup ++ [EvFaceNew 30 server; EvFaceAdd 30; EvFibAddNextHop [word "a"] 30 2].
Definition use (s : StrategyType) (prefix : Name) : Event := EvSetStrategy prefix (getStrategyName s).
Definition ask (n : Name) (nonce : N) : Event := EvInterest 10 (mkInterest n false false nonce 4000 None [] None None None).
Definition answer (n : Name) : Event := EvData 20 (mkData n [x01] 0 (repeat x07 32) None None false).
(** The access strategy learns from one exchange that /a/b is behind the first server. *)
Definition learned : list Event :=
  two_servers ++ [use AccessStrategy []; ask [word "a"; word "b"; word "c"] 1; EvClock 1000000;
                  answer [word "a"; word "b"; word "c"]; ask [word "a"; word "b"; word "d"] 2].
Lemma two_servers_runs : runs two_servers.
Proof.
  run_event. run_event. run_event.
  1: exact setup_runs.
  - split; [by vm_compute|by vm_compute].
  - split; [see_face|by vm_compute].
  - split; [eexists; by vm_compute|see_face].
Qed.
Lemma learned_runs : runs learned.
Proof.
  run_event. run_event. run_event. run_event. run_event.
  1: exact two_servers_runs.
  - exact I.
  - split; [see_face|]. by apply (bool_decide_unpack _).
  - vm_compute. by intros [=].
  - split; [see_face|]. split; [done|]. by apply (bool_decide_unpack _).
  - split; [see_face|]. by apply (bool_decide_unpack _).
Qed.

Definition learned_entry : PitEntry := default (PitEntry_new sample_interest) (ts_pit (fw_tables (after learned)) !! 2%N).
Definition learned_client : Face := default client (ft_heap (fw_faces (after learned)) !! 10%N).
Definition learned_interest : Interest := pe_interest learned_entry.

(** The next Interest under /a/b goes to the first server alone. *)
Lemma access_new_interest_witness :
  exists s', access_afterReceiveNewInterest 10 learned_interest 2 (after learned) = Done tt s' /\
    fw_out s' = fw_out (after learned) ++ [OutInterest 20 (as_sent learned_interest)].
Proof.
  assert (attached (fw_tables (after learned)) 2 learned_entry) as He.
  { split; [found|]. exists [word "a"; word "b"; word "d"]. vm_cast_no_check (eq_refl (Some [word "a"; word "b"; word "d"])). }
  assert (ft_heap (fw_faces (after learned)) !! 10%N = Some learned_client) as Hf by found.
  assert (owner_pit learned_entry (fw_tables (after learned)) = Some []) as Ho by vm_cast_no_check (eq_refl (Some ([] : Name))).
  assert (fib_complete (fw_tables (after learned))) as Hc.
  { intros n f. revert n f. assert (bool_decide (map_Forall (fun n f => n <> [] -> fe_nextHops f <> []) (fib_map (ts_nt (fw_tables (after learned))))) = true) as H
      by vm_cast_no_check (eq_refl true).
    exact (bool_decide_eq_true_1 _ H). }
  destruct (access_new_interest 10 learned_client learned_interest 2 learned_entry [] (after learned)
    (runs_ok _ learned_runs) Hf He (conj eq_refl (conj eq_refl eq_refl)) Ho Hc) as (s' & E & H).
  assert (exists id rtt, follows [] learned_entry learned_client learned_interest (after learned) = Some (id, rtt, 20%N)) as (id & rtt & Ef).
  { eexists _, _. vm_compute. reflexivity. }
  rewrite Ef in H. exists s'. split; [exact E|exact (proj1 H)].
Defined.

(** ** Where assertions fail and timers dangle *)

(** How an event ends after others; [None] if one of them fails before. *)
Definition outcome (evs : list Event) (ev : Event) : option (option fw_error) :=
  s ← run evs sample_init;
  Some (match handle getRegistry sample_asf sample_strategies ev s with Done _ _ => None | Wrong e => Some e end).
Definition prefix_ask (n : Name) (nonce : N) : Event := EvInterest 10 (mkInterest n true false nonce 4000 None [] None None None).
Definition asf_with (prefix param : Name) : Event := EvSetStrategy prefix (getStrategyName AsfStrategy ++ param).
Definition measured_by_asf : list Event := two_servers ++ [use AsfStrategy []; ask [word "a"; word "b"] 1; EvClock 1000000].

(** The access strategy asserts that the name of the Data is in its namespace. The name of the
    Interest is, but another strategy has been chosen for a longer prefix of the Data's. *)
Example access_data_elsewhere :
  outcome (two_servers ++ [use AccessStrategy []; use MulticastStrategy [word "a"; word "b"]; prefix_ask [word "a"] 1])
    (answer [word "a"; word "b"; word "c"]) = Some (Some (AssertionFailed AccessStrategy)).
Proof. by vm_compute. Qed.

(** The NCC strategy's timer of a pending Interest, after another instance of the strategy has
    been chosen for the Interest's name: it asserts a Measurements entry that is out of reach. *)
Example ncc_timer_elsewhere :
  outcome (two_servers ++ [use NccStrategy []; ask [word "a"; word "b"] 1; use NccStrategy [word "a"]; EvClock 99000000])
    (EvStrategyTimer (SrcPropagate 1)) = Some (Some (AssertionFailed NccStrategy)).
Proof. by vm_compute. Qed.

(** The ASF strategy, for an Interest with a forwarding hint: the FIB entry of the delegation is
    in the namespace of another strategy, and the Interest's name is not longer than it. *)
Example asf_hint_elsewhere :
  outcome (two_servers ++ [use AsfStrategy [word "x"]])
    (EvInterest 10 (mkInterest [word "x"] false false 1 4000 None [mkDelegation 1 [word "a"]] None None None)) =
  Some (Some (AssertionFailed AsfStrategy)).
Proof. by vm_compute. Qed.

(** The ASF strategy's probing timer and its timeouts keep a pointer to the strategy; choosing
    another one, of another type or with other parameters, destroys it. *)
Example asf_probe_after_change :
  outcome (measured_by_asf ++ [use MulticastStrategy []; EvClock 99000000000]) (EvStrategyTimer (SrcEvent 0)) =
  Some (Some (DanglingStrategy ([], 1%N))).
Proof. by vm_compute. Qed.
Example asf_timeout_after_change :
  outcome (measured_by_asf ++ [asf_with [] [word "probing-interval~2000"]; EvClock 99000000000])
    (EvStrategyTimer (SrcAsf [word "a"] 257)) = Some (Some (DanglingStrategy ([], 1%N))).
Proof. by vm_compute. Qed.

(** ** The choice of a face to probe *)

Definition ranked_faces (n : nat) : list (AsfFaceInfo * FacePtr) := (fun k => (FaceInfo_new, N.of_nat k)) <$> seq 0 n.
(** The greatest number that a draw in double precision gives below one. *)
Definition greatest_draw : Z := 2 ^ 128 - 2 ^ 75.

(** The end of the sums of the probabilities is what a draw is compared with last. *)
Fixpoint probabilities_end (rank rankSum nFaces offset : Z) (k : nat) : Z :=
  match k with
  | O => offset
  | S k => probabilities_end (rank + 1) rankSum nFaces (fp_round 53 (offset + getProbingProbability rank rankSum nFaces)) k
  end.
Lemma chooseFace_loop_some r rankSum nFaces l : forall rank offset,
  l <> [] -> (r <= probabilities_end rank rankSum nFaces offset (length l))%Z ->
  exists q, chooseFace_loop r rank rankSum nFaces offset l = Some q.
Proof.
  induction l as [|x l IH]; intros rank offset Hl Hr; [done|]. cbn [chooseFace_loop length probabilities_end] in *. cbv zeta.
  destruct (Z.leb_spec r (fp_round 53 (offset + getProbingProbability rank rankSum nFaces))) as [|Hlt]; [by eexists|].
  destruct l as [|y l]; [cbn in Hr; lia|]. by apply IH.
Qed.

(** With up to 40 ranked faces some face is chosen, whatever is drawn, except with six and with
    twenty-seven, where the sum of the probabilities is below the greatest draw. *)
Lemma chooseFace_total (r : Z) (l : list (AsfFaceInfo * FacePtr)) :
  (r <= greatest_draw)%Z -> (0 < length l <= 40)%nat -> length l <> 6%nat -> length l <> 27%nat -> exists q, chooseFace r l = Some q.
Proof.
  intros Hr Hl H6 H27. apply chooseFace_loop_some; [intros ->; simpl in Hl; lia|]. etrans; [exact Hr|].
  assert (forallb (fun n => let k := Z.of_nat n in (n =? 6)%nat || (n =? 27)%nat || ((greatest_draw <=? probabilities_end 1 ((k + 1) * k / 2) k 0 n)%Z)) (seq 1 40) = true)
    as H by (vm_compute; reflexivity).
  rewrite forallb_forall in H. specialize (H (length l)). rewrite in_seq in H. specialize (H ltac:(lia)). cbv beta zeta in H.
  rewrite !orb_true_iff, !Nat.eqb_eq, Z.leb_le in H. tauto.
Qed.
Example chooseFace_none :
  chooseFace greatest_draw (ranked_faces 6) = None /\ chooseFace greatest_draw (ranked_faces 27) = None.
Proof. split; vm_compute; reflexivity. Qed.
