(* ===== verification/Block.v ===== *)
(** * TLV elements (ndn-cxx/encoding/block.cpp, block-helpers.cpp)

    A Block is an element of type, length and value with the bytes it is encoded as: those
    it was read from, or those its encoder wrote. Sub-elements are what [Block_parse] reads
    from the value. Encoders are given as the bytes they leave in the buffer. *)

From S2P Require Import Prelude Tlv.

Local Open Scope N_scope.

Record Block := mkBlock { b_type : N; b_value : list byte; b_wire : list byte }.

#[global] Instance Block_eq_dec : EqDecision Block.
Proof. solve_decision. Defined.

Definition b_size (b : Block) : N := N.of_nat (length (b_wire b)).

(** [prependByteArrayBlock] and its like: type, length and value; [makeBinaryBlock]. *)
Definition tlv_wire (type : N) (value : list byte) : list byte :=
  writeVarNumber type ++ writeVarNumber (N.of_nat (length value)) ++ value.
Definition makeBinaryBlock (type : N) (value : list byte) : Block := mkBlock type value (tlv_wire type value).
Definition makeNonNegativeIntegerBlock (type value : N) : Block := makeBinaryBlock type (writeNonNegativeInteger value).
Definition makeEmptyBlock (type : N) : Block := makeBinaryBlock type [].

Definition block_readNonNegativeInteger (b : Block) : tlv_error + N :=
  '(n, _) ← readNonNegativeInteger (length (b_value b)) (b_value b); inr n.

(** One element at the front of a buffer: the body of the loop of [Block::parse], and
    [Block(const uint8_t*, size_t)]. *)
Definition read_element (l : list byte) : tlv_error + (Block * list byte) :=
  '(type, pos) ← readType l;
  '(len, pos) ← readVarNumber pos;
  if N.of_nat (length pos) <? len then inl LengthExceedsBoundary
  else let n := N.to_nat len in
       inr (mkBlock type (take n pos) (take (length l - (length pos - n)) l), drop n pos).
Definition Block_read (l : list byte) : tlv_error + Block := '(b, _) ← read_element l; inr b.

(** [Block::fromBuffer]. *)
Definition Block_fromBuffer (l : list byte) : option Block :=
  '(type, pos) ← readType_opt l;
  '(len, pos) ← readVarNumber_opt pos;
  if N.of_nat (length pos) <? len then None
  else let n := N.to_nat len in Some (mkBlock type (take n pos) (take (length l - (length pos - n)) l)).

(** [Block::parse]. *)
Fixpoint parse_loop (fuel : nat) (l : list byte) : tlv_error + list Block :=
  match l, fuel with
  | [], _ => inr []
  | _, O => inl EmptyBuffer
  | _, S fuel => '(b, rest) ← read_element l; bs ← parse_loop fuel rest; inr (b :: bs)
  end.
Definition Block_parse (value : list byte) : tlv_error + list Block := parse_loop (length value) value.

(** ** What is written is read back *)

(** An element with a shortest encoding. *)
Definition block_ok (b : Block) : Prop :=
  b = makeBinaryBlock (b_type b) (b_value b) /\ 0 < b_type b <= u32_max /\ N.of_nat (length (b_value b)) < 2 ^ 64.

Lemma makeBinaryBlock_ok type value :
  0 < type <= u32_max -> N.of_nat (length value) < 2 ^ 64 -> block_ok (makeBinaryBlock type value).
Proof. by intros. Qed.

Lemma tlv_wire_length type value :
  N.of_nat (length (tlv_wire type value)) =
  sizeOfVarNumber type + sizeOfVarNumber (N.of_nat (length value)) + N.of_nat (length value).
Proof.
  unfold tlv_wire. rewrite !length_app. pose proof (length_writeVarNumber type).
  pose proof (length_writeVarNumber (N.of_nat (length value))). lia.
Qed.
Lemma tlv_wire_cons type value : exists c l, tlv_wire type value = c :: l.
Proof.
  unfold tlv_wire. destruct (writeVarNumber type) as [|c l] eqn:E; [by apply writeVarNumber_nonempty in E|]. by exists c, (l ++ writeVarNumber (N.of_nat (length value)) ++ value).
Qed.

Lemma read_element_wire type value rest :
  0 < type <= u32_max -> N.of_nat (length value) < 2 ^ 64 ->
  read_element (tlv_wire type value ++ rest) = inr (makeBinaryBlock type value, rest).
Proof.
  intros Ht Hv. unfold read_element. set (l := tlv_wire type value ++ rest).
  assert (readType l = inr (type, writeVarNumber (N.of_nat (length value)) ++ value ++ rest)) as ->.
  { unfold l, tlv_wire. rewrite <- !app_assoc. by apply readType_write. }
  cbn [mbind tlv_bind]. rewrite readVarNumber_write by done. cbn [mbind tlv_bind].
  rewrite (proj2 (N.ltb_ge _ _)) by (rewrite length_app; lia). rewrite Nat2N.id.
  unfold makeBinaryBlock. do 3 f_equal; [by rewrite take_app_length| |by rewrite drop_app_length].
  unfold l. rewrite !length_app. replace (_ + _ - _)%nat with (length (tlv_wire type value)) by lia.
  by rewrite take_app_length.
Qed.
Lemma Block_read_wire b rest : block_ok b -> Block_read (b_wire b ++ rest) = inr b.
Proof. intros (-> & Ht & Hv). unfold Block_read. cbn [b_wire makeBinaryBlock]. by rewrite read_element_wire. Qed.

(** The two ways to read an element agree. *)
Lemma fromBuffer_read l b : Block_fromBuffer l = Some b <-> Block_read l = inr b.
Proof.
  unfold Block_fromBuffer, Block_read, read_element, readType, readType_opt, readVarNumber.
  destruct l as [|x l]; [done|]. destruct (readVarNumber_opt (x :: l)) as [[n r]|]; [|done]. cbn [mbind tlv_bind].
  destruct ((n =? 0) || (u32_max <? n)); [done|]. cbn [mbind tlv_bind option_bind].
  destruct r as [|y r]; [done|]. destruct (readVarNumber_opt (y :: r)) as [[m q]|]; [|done]. cbn [mbind tlv_bind option_bind].
  destruct (_ <? _); cbn [mbind tlv_bind]; [done|]. naive_solver.
Qed.

(** A read takes bytes off the buffer, so the loop ends within its fuel. *)
Lemma readVarNumber_opt_shorter l n r : readVarNumber_opt l = Some (n, r) -> (length r < length l)%nat.
Proof.
  unfold readVarNumber_opt, read_number_fast. destruct l as [|x l]; [done|]. cbn [length].
  destruct (bN x <? 253); [intros [= _ <-]; lia|]. intros H. repeat case_match; simplify_eq; rewrite ?length_drop; simpl; lia.
Qed.
Lemma readVarNumber_shorter l n r : readVarNumber l = inr (n, r) -> (length r < length l)%nat.
Proof.
  unfold readVarNumber. destruct l as [|x l]; [done|]. destruct (readVarNumber_opt _) as [[m q]|] eqn:E; [|done].
  intros [= <- <-]. by apply readVarNumber_opt_shorter in E.
Qed.
Lemma read_element_shorter l b r : read_element l = inr (b, r) -> (length r < length l)%nat.
Proof.
  unfold read_element, readType. destruct (readVarNumber l) as [|[t p]] eqn:E1; [done|]. apply readVarNumber_shorter in E1.
  destruct (_ || _); [done|]. cbn [mbind tlv_bind]. destruct (readVarNumber p) as [|[n q]] eqn:E2; [done|].
  apply readVarNumber_shorter in E2. cbn [mbind tlv_bind]. destruct (_ <? _); [done|]. intros [= _ <-]. rewrite length_drop. lia.
Qed.
Lemma parse_loop_fuel m n l : (length l <= m)%nat -> (length l <= n)%nat -> parse_loop m l = parse_loop n l.
Proof.
  revert n l. induction m as [|m IH]; intros [|n] [|x l] Hm Hn; try done; try (simpl in *; lia).
  cbn [parse_loop]. destruct (read_element (x :: l)) as [|[b r]] eqn:E; [done|]. cbn [mbind tlv_bind].
  apply read_element_shorter in E. cbn [length] in *. by rewrite (IH n r) by lia.
Qed.

(** An element whose wire reads as that element; its encoding need not be a shortest one. *)
Definition block_wf (b : Block) : Prop := forall rest, read_element (b_wire b ++ rest) = inr (b, rest).

Lemma block_ok_wf b : block_ok b -> block_wf b.
Proof. intros (Hb & Ht & Hv) rest. rewrite Hb. cbn [makeBinaryBlock b_wire]. by apply read_element_wire. Qed.

(** Reading looks at the bytes it takes only. *)
Lemma read_number_fast_local k l n r :
  read_number_fast k l = Some (true, n, r) -> exists p, l = p ++ r /\ forall r', read_number_fast k (p ++ r') = Some (true, n, r').
Proof.
  unfold read_number_fast. destruct (length l <? k)%nat eqn:El; [done|]. apply Nat.ltb_ge in El.
  intros H. assert ((be_decode (take k l), drop k l) = (n, r)) as [= <- <-] by (by repeat case_match; simplify_eq).
  exists (take k l). split; [by rewrite take_drop|]. intros r'.
  rewrite length_app, length_take, (proj2 (Nat.ltb_ge _ _)) by lia.
  rewrite (take_app_length' (take k l)), (drop_app_length' (take k l)) by (rewrite length_take; lia). by repeat case_match.
Qed.
Lemma readVarNumber_opt_local l n r :
  readVarNumber_opt l = Some (n, r) -> exists p, l = p ++ r /\ forall r', readVarNumber_opt (p ++ r') = Some (n, r').
Proof.
  unfold readVarNumber_opt. destruct l as [|x l]; [done|]. destruct (bN x <? 253) eqn:E.
  { intros [= <- <-]. exists [x]. split; [done|]. intros r'. cbn [app]. by rewrite E. }
  set (k := if bN x =? 253 then 2%nat else if bN x =? 254 then 4%nat else 8%nat).
  destruct (read_number_fast k l) as [[[[] m] q]|] eqn:Er; try done. intros [= <- <-].
  apply read_number_fast_local in Er as (p & -> & Hp). exists (x :: p). split; [done|]. intros r'. cbn [app]. by rewrite E, Hp.
Qed.
Lemma readVarNumber_local l n r :
  readVarNumber l = inr (n, r) -> exists p, l = p ++ r /\ forall r', readVarNumber (p ++ r') = inr (n, r').
Proof.
  unfold readVarNumber. destruct l as [|x l]; [done|]. destruct (readVarNumber_opt (x :: l)) as [[m q]|] eqn:E; [|done]. intros [= <- <-].
  apply readVarNumber_opt_local in E as (p & E & Hp). exists p. split; [done|]. intros r'. rewrite Hp.
  specialize (Hp r'). by destruct (p ++ r').
Qed.
Lemma read_element_wf l b r : read_element l = inr (b, r) -> l = b_wire b ++ r /\ block_wf b.
Proof.
  unfold read_element, readType. destruct (readVarNumber l) as [|[t q]] eqn:E1; [done|]. apply readVarNumber_local in E1 as (p & -> & Hp).
  destruct ((t =? 0) || (u32_max <? t)) eqn:Et; [done|]. cbn [mbind tlv_bind].
  destruct (readVarNumber q) as [|[n v]] eqn:E2; [done|]. apply readVarNumber_local in E2 as (p2 & -> & Hp2). cbn [mbind tlv_bind].
  destruct (N.ltb_spec (N.of_nat (length v)) n) as [|Hn]; [done|]. intros [= <- <-]. cbn [b_wire].
  assert (take (length (p ++ p2 ++ v) - (length v - N.to_nat n)) (p ++ p2 ++ v) = p ++ p2 ++ take (N.to_nat n) v) as ->.
  { rewrite !length_app. replace (_ + _ - _)%nat with (length p + (length p2 + N.to_nat n))%nat by lia. by rewrite !take_app_add. }
  split; [by rewrite <- !app_assoc, take_drop|]. intros rest. unfold read_element, readType. cbn [b_wire].
  rewrite <- !app_assoc, Hp, Et. cbn [mbind tlv_bind]. rewrite Hp2. cbn [mbind tlv_bind].
  rewrite length_app, length_take, (proj2 (N.ltb_ge _ _)) by lia. do 3 f_equal.
  - apply take_app_length'. rewrite length_take. lia.
  - rewrite !length_app, length_take. replace (_ + _ - _)%nat with (length p + (length p2 + N.to_nat n))%nat by lia.
    rewrite !take_app_add. do 2 f_equal. apply take_app_length'. rewrite length_take. lia.
  - apply drop_app_length'. rewrite length_take. lia.
Qed.

Lemma Block_parse_cons b rest :
  block_wf b -> Block_parse (b_wire b ++ rest) = (bs ← Block_parse rest; inr (b :: bs)).
Proof.
  intros Hb. pose proof (Hb rest) as Hr. unfold Block_parse. destruct (b_wire b) as [|x l] eqn:E.
  { specialize (Hb []). rewrite E in Hb. done. }
  cbn [app length parse_loop] in *. rewrite Hr. cbn [mbind tlv_bind].
  by rewrite (parse_loop_fuel _ (length rest)) by (rewrite ?length_app; lia).
Qed.

(** Elements written one after the other are parsed back. *)
Lemma Block_parse_wires bs : Forall block_wf bs -> Block_parse (mjoin (b_wire <$> bs)) = inr bs.
Proof.
  induction 1 as [|b bs Hb _ IH]; [done|].
  change (mjoin (b_wire <$> b :: bs)) with (b_wire b ++ mjoin (b_wire <$> bs)). by rewrite Block_parse_cons, IH.
Qed.
(** Elements that were parsed read as themselves. *)
Lemma parse_loop_wf fuel l bs : parse_loop fuel l = inr bs -> Forall block_wf bs /\ l = mjoin (b_wire <$> bs).
Proof.
  revert l bs. induction fuel as [|fuel IH]; intros [|x l] bs; try done; try (by intros [= <-]).
  cbn [parse_loop]. destruct (read_element (x :: l)) as [|[b r]] eqn:E; [done|]. cbn [mbind tlv_bind].
  destruct (parse_loop fuel r) as [|bs'] eqn:Er; [done|]. cbn [mbind tlv_bind]. intros [= <-].
  apply IH in Er as [H1 ->]. apply read_element_wf in E as [-> H2]. split; [by constructor|done].
Qed.

Lemma block_readNonNegativeInteger_ok type n :
  n < 2 ^ 64 -> block_readNonNegativeInteger (makeNonNegativeIntegerBlock type n) = inr n.
Proof.
  intros Hn. destruct (read_write_nonneg n [] Hn) as [H L]. unfold block_readNonNegativeInteger. cbn [makeNonNegativeIntegerBlock makeBinaryBlock b_value].
  rewrite app_nil_r in H. replace (length (writeNonNegativeInteger n)) with (N.to_nat (sizeOfNonNegativeInteger n)) by lia. by rewrite H.
Qed.
