(* ===== verification/LpPacket.v ===== *)
(** * Link protocol packets (ndn-cxx/lp/packet.cpp, field-decl.hpp, fields.hpp)

    An LpPacket is a sequence of fields in a fixed order. As in the code it is kept as the
    sub-elements of a Block, whose wire is dropped by a change and made again by the encoder. *)

From S2P Require Import Prelude Tlv Block.

Local Open Scope N_scope.

(** [lp::tlv], and the two network packets of [ndn::tlv]. *)
Definition TLV_Interest : N := 5.
Definition TLV_Data : N := 6.
Definition LP_LpPacket : N := 100.
Definition LP_Fragment : N := 80.
Definition LP_Sequence : N := 81.
Definition LP_FragIndex : N := 82.
Definition LP_FragCount : N := 83.
Definition LP_PitToken : N := 98.
Definition LP_Nack : N := 800.
Definition LP_NackReason : N := 801.
Definition LP_NextHopFaceId : N := 816.
Definition LP_IncomingFaceId : N := 817.
Definition LP_CachePolicy : N := 820.
Definition LP_CachePolicyType : N := 821.
Definition LP_CongestionMark : N := 832.
Definition LP_Ack : N := 836.
Definition LP_TxSequence : N := 840.
Definition LP_NonDiscovery : N := 844.
Definition LP_PrefixAnnouncement : N := 848.
Definition LP_HEADER3_MIN : N := 800.
Definition LP_HEADER3_MAX : N := 959.

(** ** Fields *)

Definition FieldSet : list N :=
  [LP_Fragment; LP_Sequence; LP_FragIndex; LP_FragCount; LP_PitToken; LP_Nack; LP_NextHopFaceId; LP_IncomingFaceId;
   LP_CachePolicy; LP_CongestionMark; LP_Ack; LP_TxSequence; LP_NonDiscovery; LP_PrefixAnnouncement].

(** [FieldInfo] of a TLV-TYPE. *)
Definition isRecognized (t : N) : bool := bool_decide (t ∈ FieldSet).
Definition canIgnore (t : N) : bool :=
  negb (isRecognized t) && (LP_HEADER3_MIN <=? t) && (t <=? LP_HEADER3_MAX) && (N.land t 3 =? 0).
Definition isRepeatable (t : N) : bool := t =? LP_Ack.
Definition locationSortOrder (t : N) : N := if t =? LP_Fragment then 2 else 1.
Definition compareFieldSortOrder (first second : N) : bool :=
  (locationSortOrder first <? locationSortOrder second) ||
  ((locationSortOrder first =? locationSortOrder second) && (first <? second)).

(** [DecodeHelper]: the value of a field, for each kind of field. *)
Definition decode_number (b : Block) : tlv_error + N := block_readNonNegativeInteger b.
Definition decode_sequence (b : Block) : tlv_error + N :=
  if (length (b_value b) =? 8)%nat then inr (be_decode (b_value b)) else inl (InvalidValue (b_type b)).
Definition decode_bytes (b : Block) : tlv_error + list byte :=
  match b_value b with [] => inl (InvalidValue (b_type b)) | v => inr v end.
Definition decode_empty (b : Block) : tlv_error + unit :=
  match b_value b with [] => inr tt | _ => inl (InvalidValue (b_type b)) end.

(** [EncodeHelper]: what a value is written as, where it is not the bytes themselves. *)
Definition encode_number (n : N) : list byte := writeNonNegativeInteger n.
Definition encode_sequence (n : N) : list byte := be_encode 8 n.

(** ** Packets *)

Record LpPacket := mkLp { lp_elements : list Block; lp_wire : option Block }.

#[global] Instance LpPacket_eq_dec : EqDecision LpPacket.
Proof. solve_decision. Defined.

Definition LpPacket_new : LpPacket := mkLp [] None.

(** [get<FIELD>(0)] before it is decoded, [has], and [list] before it is decoded. *)
Definition lp_get (t : N) (p : LpPacket) : option Block := find (fun b => b_type b =? t) (lp_elements p).
Definition lp_has (t : N) (p : LpPacket) : bool := existsb (fun b => b_type b =? t) (lp_elements p).
Definition lp_list (t : N) (p : LpPacket) : list Block := List.filter (fun b => b_type b =? t) (lp_elements p).

(** The position of [std::upper_bound] in the sorted fields. *)
Fixpoint insert_field (b : Block) (l : list Block) : list Block :=
  match l with
  | [] => [b]
  | e :: l' => if compareFieldSortOrder (b_type b) (b_type e) then b :: l else e :: insert_field b l'
  end.
Definition lp_insert (b : Block) (p : LpPacket) : LpPacket := mkLp (insert_field b (lp_elements p)) None.
Definition lp_clear (t : N) (p : LpPacket) : LpPacket :=
  mkLp (List.filter (fun b => negb (b_type b =? t)) (lp_elements p)) None.

(** [add]: [None] is the [std::invalid_argument] it throws. *)
Definition lp_add (t : N) (v : list byte) (p : LpPacket) : option LpPacket :=
  if negb (isRepeatable t) && lp_has t p then None else Some (lp_insert (makeBinaryBlock t v) p).
Definition lp_set (t : N) (v : list byte) (p : LpPacket) : LpPacket :=
  lp_insert (makeBinaryBlock t v) (lp_clear t p).

(** [m_wire.encode()]: the packet with its wire. *)
Definition lp_encode (p : LpPacket) : LpPacket :=
  match lp_wire p with
  | Some _ => p
  | None =>
      let elements := (fun e => makeBinaryBlock (b_type e) (b_value e)) <$> lp_elements p in
      mkLp elements (Some (makeBinaryBlock LP_LpPacket (mjoin (b_wire <$> elements))))
  end.

(** [wireEncode]; [None] where a lone fragment is not an element (an exception or an access
    of an empty vector). *)
Definition lp_wireEncode (p : LpPacket) : option Block :=
  let bare := match lp_elements p with [f] => b_type f =? LP_Fragment | _ => false end in
  if bare then
    match lp_elements p with
    | f :: _ => match Block_parse (b_value f) with inr (e :: _) => Some e | _ => None end
    | [] => None
    end
  else lp_wire (lp_encode p).

(** The checks of [wireDecode] on the fields, after the field [prev]. *)
Fixpoint check_fields (prev : option N) (l : list Block) : tlv_error + unit :=
  match l with
  | [] => inr tt
  | b :: l' =>
      let t := b_type b in
      if negb (isRecognized t) && negb (canIgnore t) then inl (UnrecognizedField t)
      else if match prev with Some p => (t =? p) && negb (isRepeatable t) | None => false end then inl (RepeatedField t)
      else if match prev with Some p => negb (t =? p) && negb (compareFieldSortOrder p t) | None => false end
      then inl UnsortedFields
      else check_fields (Some t) l'
  end.
Definition lp_wireDecode (wire : Block) : tlv_error + LpPacket :=
  if (b_type wire =? TLV_Interest) || (b_type wire =? TLV_Data)
  then inr (lp_insert (makeBinaryBlock LP_Fragment (b_wire wire)) LpPacket_new)
  else if negb (b_type wire =? LP_LpPacket) then inl (UnexpectedType (b_type wire))
  else elements ← Block_parse (b_value wire);
       _ ← check_fields None elements;
       inr (mkLp elements (Some wire)).

(** ** The order of fields *)

Definition field_key (t : N) : N := if t =? LP_Fragment then 2 ^ 64 + t else t.
Definition field_before (t u : N) : Prop := compareFieldSortOrder t u = true.
Definition field_le (t u : N) : Prop := field_before t u \/ (t = u /\ isRepeatable t = true).

Lemma field_before_key t u : t < 2 ^ 64 -> u < 2 ^ 64 -> field_before t u <-> field_key t < field_key u.
Proof.
  intros Ht Hu. unfold field_before, compareFieldSortOrder, locationSortOrder, field_key.
  destruct (N.eqb_spec t LP_Fragment) as [->|], (N.eqb_spec u LP_Fragment) as [->|]; cbn [N.ltb N.eqb N.compare Pos.compare Pos.compare_cont Pos.eqb orb andb];
    unfold LP_Fragment in *.
  - rewrite N.ltb_irrefl. split; [done|lia].
  - split; [done|lia].
  - split; [lia|done].
  - apply N.ltb_lt.
Qed.
Lemma field_key_inj t u : t < 2 ^ 64 -> u < 2 ^ 64 -> field_key t = field_key u -> t = u.
Proof. unfold field_key. intros Ht Hu. repeat case_match; bool_to_prop; rewrite ?N.eqb_eq in *; lia. Qed.

(** A field as the application makes it. *)
Definition field_ok (b : Block) : Prop := block_ok b /\ isRecognized (b_type b) = true.
Lemma field_ok_small b : field_ok b -> b_type b < 2 ^ 64.
Proof. intros ((_ & H & _) & _). unfold u32_max in H. lia. Qed.

Definition lp_value (p : LpPacket) : list byte := mjoin (b_wire <$> lp_elements p).
Record lp_ok (p : LpPacket) : Prop := {
  lp_fields : Forall field_ok (lp_elements p);
  lp_sorted : StronglySorted (fun b e => field_le (b_type b) (b_type e)) (lp_elements p);
  lp_cached : match lp_wire p with Some w => w = makeBinaryBlock LP_LpPacket (lp_value p) | None => True end;
}.

Lemma LpPacket_new_ok : lp_ok LpPacket_new.
Proof. split; [constructor|constructor|done]. Qed.

Lemma insert_field_perm b l : insert_field b l ≡ₚ b :: l.
Proof.
  induction l as [|e l IH]; [done|]. simpl. case_match; [done|]. by rewrite IH, Permutation_swap.
Qed.

Lemma field_before_trans t u v :
  t < 2 ^ 64 -> u < 2 ^ 64 -> v < 2 ^ 64 -> field_before t u -> field_le u v -> field_before t v.
Proof.
  intros Ht Hu Hv H1 [H2|[-> _]]; [|done]. apply field_before_key in H1, H2; [|done..]. apply field_before_key; [done..|]. lia.
Qed.
Lemma field_not_before t u : t < 2 ^ 64 -> u < 2 ^ 64 -> compareFieldSortOrder t u = false -> t <> u -> field_before u t.
Proof.
  intros Ht Hu H Hne. apply field_before_key; [done..|]. destruct (N.lt_trichotomy (field_key u) (field_key t)) as [|[E|E]]; [done| |].
  - by apply field_key_inj in E.
  - apply field_before_key in E; [|done..]. unfold field_before in E. congruence.
Qed.

Lemma insert_field_sorted b l :
  field_ok b -> Forall field_ok l -> (isRepeatable (b_type b) = true \/ Forall (fun e => b_type e <> b_type b) l) ->
  StronglySorted (fun b e => field_le (b_type b) (b_type e)) l ->
  StronglySorted (fun b e => field_le (b_type b) (b_type e)) (insert_field b l).
Proof.
  intros Hb Hl Hr Hs. pose proof (field_ok_small b Hb) as Hb'. induction Hs as [|e l Hs IH He]; [repeat constructor|].
  apply Forall_cons in Hl as [He' Hl]. pose proof (field_ok_small e He') as He''. simpl.
  destruct (compareFieldSortOrder (b_type b) (b_type e)) eqn:Ec.
  - constructor; [by constructor|]. constructor; [by left|]. rewrite Forall_forall in He, Hl |- *. intros x Hx. left.
    apply (field_before_trans _ (b_type e)); [done|done|by apply field_ok_small, Hl|exact Ec|by apply He].
  - constructor; [apply IH; [done|]; destruct Hr as [Hr|Hr]; [by left|right; by apply Forall_cons in Hr as [_ Hr]]|].
    rewrite insert_field_perm. constructor; [|done]. destruct (decide (b_type b = b_type e)) as [Eq|Hne].
    + right. split; [done|]. destruct Hr as [Hr|Hr]; [by rewrite <- Eq|]. apply Forall_cons in Hr as [Hr _]. congruence.
    + left. by apply field_not_before.
Qed.

Lemma StronglySorted_filter {A} (R : A -> A -> Prop) (f : A -> bool) l : StronglySorted R l -> StronglySorted R (List.filter f l).
Proof.
  induction 1 as [|x l _ IH Hx]; [constructor|]. simpl. destruct (f x); [|done]. constructor; [done|].
  rewrite Forall_forall in *. intros y [Hy _]%list_elem_of_In%filter_In. by apply Hx, list_elem_of_In.
Qed.

(** ** Operations keep packets in order *)

Lemma lp_clear_ok t p : lp_ok p -> lp_ok (lp_clear t p).
Proof.
  intros [Hf Hs Hc]. split; cbn; [|by apply StronglySorted_filter|done].
  rewrite Forall_forall in *. intros b [Hb _]%list_elem_of_In%filter_In. by apply Hf, list_elem_of_In.
Qed.
Lemma lp_insert_ok b p :
  field_ok b -> lp_ok p -> isRepeatable (b_type b) = true \/ lp_has (b_type b) p = false -> lp_ok (lp_insert b p).
Proof.
  intros Hb [Hf Hs Hc] Hr. split; cbn; [rewrite insert_field_perm; by constructor| |done].
  apply insert_field_sorted; [done..| |done]. destruct Hr as [|Hr]; [by left|right]. unfold lp_has in Hr.
  rewrite Forall_forall. intros e He E. apply not_true_iff_false in Hr. apply Hr, existsb_exists.
  exists e. split; [by apply list_elem_of_In|by apply N.eqb_eq].
Qed.

Lemma lp_has_clear t p : lp_has t (lp_clear t p) = false.
Proof.
  apply not_true_iff_false. unfold lp_has. intros (e & He & E)%existsb_exists. apply filter_In in He as [_ He].
  by rewrite E in He.
Qed.
Lemma lp_has_get t p : lp_has t p = match lp_get t p with Some _ => true | None => false end.
Proof.
  unfold lp_has, lp_get. induction (lp_elements p) as [|b l IH]; [done|]. simpl. by destruct (b_type b =? t).
Qed.

Definition field_value_ok (t : N) (v : list byte) : Prop := isRecognized t = true /\ N.of_nat (length v) < 2 ^ 64.
Lemma field_type_bound t : isRecognized t = true -> 0 < t <= u32_max.
Proof.
  assert (Forall (fun t => 0 < t <= u32_max) FieldSet) as F by (repeat (constructor; [done|]); constructor).
  unfold isRecognized. intros H%bool_decide_eq_true_1. rewrite Forall_forall in F. by apply F.
Qed.
Lemma makeBinaryBlock_field t v : field_value_ok t v -> field_ok (makeBinaryBlock t v).
Proof. intros [Ht Hv]. split; [|done]. apply makeBinaryBlock_ok; [by apply field_type_bound|done]. Qed.

Lemma lp_set_ok t v p : field_value_ok t v -> lp_ok p -> lp_ok (lp_set t v p).
Proof.
  intros Hv Hp. apply lp_insert_ok; [by apply makeBinaryBlock_field|by apply lp_clear_ok|]. right. apply lp_has_clear.
Qed.
Lemma lp_add_ok t v p p' : field_value_ok t v -> lp_ok p -> lp_add t v p = Some p' -> lp_ok p'.
Proof.
  intros Hv Hp. unfold lp_add. destruct (negb _ && _) eqn:E; [done|]. intros [= <-].
  apply lp_insert_ok; [by apply makeBinaryBlock_field|done|]. simpl. apply andb_false_iff in E as [E%negb_false_iff|E]; auto.
Qed.

(** What a get sees after an insertion or a removal. *)
Lemma lp_get_insert_ne t b p : b_type b <> t -> lp_get t (lp_insert b p) = lp_get t p.
Proof.
  intros Hne. unfold lp_get, lp_insert. cbn [lp_elements]. induction (lp_elements p) as [|e l IH]; simpl.
  - by rewrite (proj2 (N.eqb_neq _ _)).
  - case_match; simpl; [by rewrite (proj2 (N.eqb_neq (b_type b) _))|]. by rewrite IH.
Qed.
Lemma lp_get_insert_new b p : lp_has (b_type b) p = false -> lp_get (b_type b) (lp_insert b p) = Some b.
Proof.
  unfold lp_has, lp_get, lp_insert. cbn [lp_elements]. induction (lp_elements p) as [|e l IH]; simpl; [by rewrite N.eqb_refl|].
  intros [He Hl]%orb_false_elim. case_match; simpl; [by rewrite N.eqb_refl|]. rewrite He. auto.
Qed.
Lemma lp_get_clear_ne t u p : t <> u -> lp_get t (lp_clear u p) = lp_get t p.
Proof.
  intros Hne. unfold lp_get, lp_clear. cbn [lp_elements]. induction (lp_elements p) as [|e l IH]; simpl; [done|].
  destruct (N.eqb_spec (b_type e) u) as [->|]; simpl; [by rewrite (proj2 (N.eqb_neq u t))|]. by rewrite IH.
Qed.
Lemma lp_get_set t v p : lp_get t (lp_set t v p) = Some (makeBinaryBlock t v).
Proof. apply (lp_get_insert_new (makeBinaryBlock t v)), lp_has_clear. Qed.
Lemma lp_get_set_ne t u v p : t <> u -> lp_get t (lp_set u v p) = lp_get t p.
Proof. intros Hne. unfold lp_set. by rewrite lp_get_insert_ne, lp_get_clear_ne by (simpl; congruence). Qed.
Lemma lp_get_add_ne t u v p p' : t <> u -> lp_add u v p = Some p' -> lp_get t p' = lp_get t p.
Proof. intros Hne. unfold lp_add. case_match; [done|]. intros [= <-]. apply lp_get_insert_ne. simpl. congruence. Qed.
Lemma lp_get_add t v p p' : lp_has t p = false -> lp_add t v p = Some p' -> lp_get t p' = Some (makeBinaryBlock t v).
Proof. intros Hh. unfold lp_add. case_match; [done|]. intros [= <-]. by apply (lp_get_insert_new (makeBinaryBlock t v)). Qed.

(** ** Sizes *)

Definition fields_size (l : list Block) : N := foldr (fun b n => b_size b + n) 0 l.
Lemma fields_size_wires l : N.of_nat (length (mjoin (b_wire <$> l))) = fields_size l.
Proof.
  induction l as [|b l IH]; [done|]. change (mjoin (b_wire <$> b :: l)) with (b_wire b ++ mjoin (b_wire <$> l)).
  rewrite length_app. unfold fields_size, b_size in *. simpl. lia.
Qed.
Lemma fields_size_perm l l' : l ≡ₚ l' -> fields_size l = fields_size l'.
Proof. unfold fields_size. induction 1; simpl; lia. Qed.
Lemma insert_field_size b l : fields_size (insert_field b l) = b_size b + fields_size l.
Proof. rewrite (fields_size_perm _ _ (insert_field_perm b l)). done. Qed.

(** ** The wire *)

Lemma field_rewrite b : field_ok b -> makeBinaryBlock (b_type b) (b_value b) = b.
Proof. intros ((E & _) & _). by rewrite <- E. Qed.
Lemma lp_encode_ok p : lp_ok p ->
  lp_encode p = mkLp (lp_elements p) (Some (makeBinaryBlock LP_LpPacket (lp_value p))).
Proof.
  intros [Hf _ Hc]. unfold lp_encode. destruct p as [els [w|]]; cbn in *; [by rewrite Hc|].
  assert ((fun e => makeBinaryBlock (b_type e) (b_value e)) <$> els = els) as ->; [|done].
  induction Hf as [|b l Hb _ IH]; [done|]. rewrite fmap_cons, IH. by rewrite field_rewrite.
Qed.

(** A packet without headers. *)
Definition lp_bare (p : LpPacket) : bool := match lp_elements p with [f] => b_type f =? LP_Fragment | _ => false end.
(** What the fragment of such a packet has to be: a whole network packet. *)
Definition bare_ok (p : LpPacket) : Prop :=
  forall f, lp_elements p = [f] -> b_type f = LP_Fragment ->
  exists net, block_ok net /\ (b_type net = TLV_Interest \/ b_type net = TLV_Data) /\ b_value f = b_wire net.

Lemma lp_wireEncode_full p : lp_ok p -> lp_bare p = false -> lp_wireEncode p = Some (makeBinaryBlock LP_LpPacket (lp_value p)).
Proof. intros Hp Hb. unfold lp_wireEncode. unfold lp_bare in Hb. rewrite Hb. by rewrite lp_encode_ok. Qed.
Lemma lp_wireEncode_bare p f net : lp_elements p = [f] -> b_type f = LP_Fragment -> block_ok net -> b_value f = b_wire net ->
  lp_wireEncode p = Some net.
Proof.
  intros E Ht Hn Hv. unfold lp_wireEncode. rewrite E, Ht, Hv. cbn [N.eqb]. rewrite N.eqb_refl.
  rewrite <- (app_nil_r (b_wire net)), Block_parse_cons by (by apply block_ok_wf). done.
Qed.

Lemma check_fields_sorted l : forall prev,
  Forall field_ok l -> StronglySorted (fun b e => field_le (b_type b) (b_type e)) l ->
  (forall t, prev = Some t -> Forall (fun e => field_le t (b_type e)) l) -> check_fields prev l = inr tt.
Proof.
  induction l as [|b l IH]; intros prev Hf Hs Hp; [done|]. apply Forall_cons in Hf as [Hb Hf]. inversion_clear Hs as [|? ? Hs' Hle].
  cbn [check_fields]. rewrite (proj2 Hb). cbn [negb andb].
  assert (match prev with Some p => (b_type b =? p) && negb (isRepeatable (b_type b)) | None => false end = false) as ->.
  { destruct prev as [t|]; [|done]. specialize (Hp t eq_refl). apply Forall_cons in Hp as [[H|[-> H]] _].
    - destruct (N.eqb_spec (b_type b) t) as [E|]; [|done]. subst t. pose proof (field_ok_small b Hb).
      apply field_before_key in H; [lia|done..].
    - by rewrite H, andb_false_r. }
  assert (match prev with Some p => negb (b_type b =? p) && negb (compareFieldSortOrder p (b_type b)) | None => false end = false) as ->.
  { destruct prev as [t|]; [|done]. specialize (Hp t eq_refl). apply Forall_cons in Hp as [[H|[-> H]] _].
    - unfold field_before in H. by rewrite H, andb_false_r.
    - by rewrite N.eqb_refl. }
  apply IH; [done..|]. by intros t [= <-].
Qed.

Lemma lp_roundtrip_ok p :
  lp_ok p -> bare_ok p -> fields_size (lp_elements p) < 2 ^ 64 ->
  exists wire q, lp_wireEncode p = Some wire /\ Block_fromBuffer (b_wire wire) = Some wire /\
    lp_wireDecode wire = inr q /\ lp_elements q = lp_elements p /\ lp_ok q /\ lp_wireEncode q = Some wire.
Proof.
  intros Hp Hbare Hsize. pose proof Hp as [Hf Hs Hc]. destruct (lp_bare p) eqn:Eb.
  - unfold lp_bare in Eb. destruct (lp_elements p) as [|f [|]] eqn:Ee; try done. apply N.eqb_eq in Eb.
    destruct (Hbare f Ee Eb) as (net & Hn & Ht & Hv). exists net, (lp_insert (makeBinaryBlock LP_Fragment (b_wire net)) LpPacket_new).
    apply Forall_cons in Hf as [Hf _]. pose proof (field_rewrite f Hf) as Er. rewrite Eb, Hv in Er.
    assert (lp_elements (lp_insert (makeBinaryBlock LP_Fragment (b_wire net)) LpPacket_new) = [f]) as Eq by (by cbn; rewrite Er).
    split_and!.
    + by eapply lp_wireEncode_bare.
    + apply fromBuffer_read. rewrite <- (app_nil_r (b_wire net)). by apply Block_read_wire.
    + unfold lp_wireDecode. by destruct Ht as [-> | ->].
    + done.
    + apply lp_insert_ok; [by rewrite Er|apply LpPacket_new_ok|by right].
    + by eapply lp_wireEncode_bare.
  - set (wire := makeBinaryBlock LP_LpPacket (lp_value p)). exists wire, (mkLp (lp_elements p) (Some wire)).
    assert (block_ok wire) as Hw. { apply makeBinaryBlock_ok; [done|]. unfold lp_value. by rewrite fields_size_wires. }
    assert (lp_ok (mkLp (lp_elements p) (Some wire))) as Hq by done. split_and!; [|..|done|done|].
    + by apply lp_wireEncode_full.
    + apply fromBuffer_read. rewrite <- (app_nil_r (b_wire wire)). by apply Block_read_wire.
    + unfold lp_wireDecode. cbn [wire makeBinaryBlock b_type b_value N.eqb orb negb]. cbn.
      unfold lp_value. rewrite Block_parse_wires by (eapply Forall_impl; [exact Hf|intros b [? _]; by apply block_ok_wf]). cbn [mbind tlv_bind].
      by rewrite check_fields_sorted.
    + by rewrite lp_wireEncode_full.
Qed.

(** C40: A link protocol packet comes back from its wire. For every packet that the operations
    build (fields recognised, in order, with shortest encodings) whose size fits the length
    field, and whose fragment, if it is the packet's only field, is one whole Interest or Data
    ([bare_ok]; see [lone_fragment] for others), the encoder gives an element that
    [Block::fromBuffer] reads whole, and decoding it gives a packet with the same fields, which
    is encoded the same way again. A packet without headers goes as the bare network packet it
    carries. *)
Theorem lp_roundtrip p :
  lp_ok p -> bare_ok p -> fields_size (lp_elements p) < 2 ^ 64 ->
  exists wire q, lp_wireEncode p = Some wire /\ Block_fromBuffer (b_wire wire) = Some wire /\
    lp_wireDecode wire = inr q /\ lp_elements q = lp_elements p /\ lp_ok q /\ lp_wireEncode q = Some wire.
Proof. apply lp_roundtrip_ok. Qed.

Lemma lp_roundtrip_witness :
  exists wire q, let p := lp_set LP_FragIndex [x01] (lp_set LP_Fragment [x07; x08] LpPacket_new) in
    lp_wireEncode p = Some wire /\ Block_fromBuffer (b_wire wire) = Some wire /\
    lp_wireDecode wire = inr q /\ lp_elements q = lp_elements p /\ lp_ok q /\ lp_wireEncode q = Some wire.
Proof.
  apply (lp_roundtrip (lp_set LP_FragIndex [x01] (lp_set LP_Fragment [x07; x08] LpPacket_new))).
  - repeat apply lp_set_ok; try done. apply LpPacket_new_ok.
  - intros f [=].
  - done.
Defined.

(** A packet whose only field is a fragment is encoded as the first element in the fragment,
    whatever that is: a fragment that is no element makes the encoder throw, and of two
    elements one after the other only the first goes out. *)
Example lone_fragment :
  let packet fragment := lp_set LP_Fragment fragment LpPacket_new in
  lp_wireEncode (packet [x03; xe8]) = None /\
  b_wire <$> lp_wireEncode (packet [x05; x00; x06; x00]) = Some [x05; x00].
Proof. split; vm_compute; reflexivity. Qed.
