(* ===== verification/LpFragments.v ===== *)
(** * Fragmentation (NFD/daemon/face/lp-fragmenter.cpp)

    A packet too big for the link is cut into numbered fragments. Failed assertions and
    uncaught exceptions are [None]. *)

From S2P Require Import Prelude Tlv Block LpPacket.

Local Open Scope N_scope.

(** ** The fragmenter *)

Definition MAX_SINGLE_FRAG_OVERHEAD : N := 1 + 9 + (1 + 1 + 8) + (1 + 9).
Definition MAX_FRAG_OVERHEAD : N := 1 + 9 + (1 + 1 + 8) + (1 + 1 + 8) + (1 + 1 + 8) + (1 + 9).

(** The size of the headers other than the fragment. *)
Definition header_size (elements : list Block) : N :=
  foldr (fun b n => if b_type b =? LP_Fragment then n else b_size b + n) 0 elements.

(** The loop that fills the fragments, with the index it ends at. *)
Fixpoint populate (fuel : nat) (netPkt : list byte) (mtu fragCount payloadSize fragIndex fragBegin fragEnd : N)
    (frags : list LpPacket) : option (N * list LpPacket) :=
  let netPktEnd := N.of_nat (length netPkt) in
  if negb (fragBegin <? netPktEnd) then Some (fragIndex, frags)
  else match fuel with
  | O => None
  | S fuel =>
      frag ← frags !! N.to_nat fragIndex;
      frag ← lp_add LP_FragIndex (encode_number fragIndex) frag;
      frag ← lp_add LP_FragCount (encode_number fragCount) frag;
      let frag := lp_set LP_Fragment (take (N.to_nat (fragEnd - fragBegin)) (drop (N.to_nat fragBegin) netPkt)) frag in
      wire ← lp_wireEncode frag;
      if mtu <? b_size wire then None
      else populate fuel netPkt mtu fragCount payloadSize (fragIndex + 1) fragEnd (N.min netPktEnd (fragEnd + payloadSize))
                    (<[N.to_nat fragIndex := frag]> frags)
  end.

(** [fragmentPacket]: the inner [None] is [false]. *)
Definition fragmentPacket (nMaxFragments : N) (packet : LpPacket) (mtu : N) : option (option (list LpPacket)) :=
  if negb (lp_has LP_Fragment packet) || lp_has LP_FragIndex packet || lp_has LP_FragCount packet then None
  else
    packetWire ← lp_wireEncode packet;
    if MAX_SINGLE_FRAG_OVERHEAD + b_size packetWire <=? mtu then Some (Some [packet])
    else
      fragment ← lp_get LP_Fragment packet;
      netPkt ← match decode_bytes fragment with inr v => Some v | inl _ => None end;
      let netPktSize := N.of_nat (length netPkt) in
      let firstHeaderSize := if b_type packetWire =? LP_LpPacket then header_size (lp_elements (lp_encode packet)) else 0 in
      if mtu <? MAX_FRAG_OVERHEAD + firstHeaderSize + 1 then Some None
      else
        let firstPayloadSize := N.min netPktSize (mtu - firstHeaderSize - MAX_FRAG_OVERHEAD) in
        let payloadSize := mtu - MAX_FRAG_OVERHEAD in
        let fragCount := 1 + (netPktSize - firstPayloadSize) / payloadSize +
                         (if (netPktSize - firstPayloadSize) mod payloadSize =? 0 then 0 else 1) in
        if nMaxFragments <? fragCount then Some None
        else
          '(fragIndex, frags) ← populate (length netPkt) netPkt mtu fragCount payloadSize 0 0 firstPayloadSize
             (packet :: replicate (N.to_nat fragCount - 1) LpPacket_new);
          if fragIndex =? fragCount then Some (Some frags) else None.

(** ** What the fragmenter makes *)

(** Where fragment [i] begins. *)
Definition cut (first payload size : N) (i : nat) : N :=
  match i with O => 0 | S j => N.min size (first + N.of_nat j * payload) end.
Definition pieces (first payload size : N) : N :=
  1 + (size - first) / payload + (if (size - first) mod payload =? 0 then 0 else 1).

Lemma cut_lt first payload size i :
  1 <= first <= size -> 1 <= payload -> cut first payload size i < size <-> N.of_nat i < pieces first payload size.
Proof.
  intros Hf Hp. unfold cut, pieces.
  destruct i as [|j]; [generalize ((size - first) / payload); intros q; case_match; split; lia|].
  pose proof (N.div_mod (size - first) payload ltac:(lia)) as Hd. pose proof (N.mod_lt (size - first) payload ltac:(lia)) as Hm.
  set (q := (size - first) / payload) in *. set (r := (size - first) mod payload) in *.
  destruct (N.eqb_spec r 0) as [->|Hr].
  - split; intros H; [assert (N.of_nat j * payload < payload * q) by lia; assert (N.of_nat j < q) by nia; lia|].
    assert (N.of_nat j < q) by lia. nia.
  - split; intros H; [assert (N.of_nat j * payload < payload * q + r) by lia; assert (N.of_nat j <= q) by nia; lia|].
    assert (N.of_nat j <= q) by lia. nia.
Qed.
Lemma cut_step first payload size j : N.min size (cut first payload size (S j) + payload) = cut first payload size (S (S j)).
Proof. unfold cut. rewrite Nat2N.inj_succ, N.mul_succ_l. lia. Qed.
Lemma cut_le first payload size i : 1 <= first <= size -> 1 <= payload -> cut first payload size i <= cut first payload size (S i) <= size.
Proof. unfold cut. destruct i as [|j]; [lia|]. rewrite Nat2N.inj_succ, N.mul_succ_l. lia. Qed.
Lemma cut_width first payload size i : 1 <= first <= payload -> cut first payload size (S i) - cut first payload size i <= payload.
Proof. unfold cut. destruct i as [|j]; [lia|]. rewrite Nat2N.inj_succ, N.mul_succ_l. lia. Qed.
Lemma pieces_le first payload size : 1 <= first <= size -> 1 <= payload -> pieces first payload size <= size.
Proof.
  intros Hf Hp. destruct (N.le_gt_cases (pieces first payload size) size) as [|H]; [done|]. exfalso.
  assert (cut first payload size (N.to_nat size) < size) as Hc by (apply cut_lt; lia).
  revert Hc. unfold cut. destruct (N.to_nat size) as [|j] eqn:E; [lia|]. nia.
Qed.

Lemma header_size_filter l : header_size l = fields_size (List.filter (fun b => negb (b_type b =? LP_Fragment)) l).
Proof. induction l as [|b l IH]; [done|]. simpl. rewrite IH. by destruct (b_type b =? LP_Fragment). Qed.
Lemma header_size_insert b l : b_type b <> LP_Fragment -> header_size (insert_field b l) = b_size b + header_size l.
Proof.
  intros Hb. rewrite !header_size_filter. transitivity (fields_size (b :: List.filter (fun b => negb (b_type b =? LP_Fragment)) l)); [|done].
  apply fields_size_perm. induction l as [|e l IH]; simpl; [by rewrite (proj2 (N.eqb_neq _ _))|].
  case_match; simpl; [by rewrite (proj2 (N.eqb_neq (b_type b) _))|]. destruct (negb _); [|done]. by rewrite IH, Permutation_swap.
Qed.

Lemma number_block_size t n : t < 253 -> b_size (makeBinaryBlock t (encode_number n)) <= 10.
Proof.
  intros Ht. unfold b_size. cbn [b_wire makeBinaryBlock]. rewrite tlv_wire_length. unfold encode_number, writeNonNegativeInteger, sizeOfVarNumber at 1.
  rewrite (proj2 (N.ltb_lt _ _) Ht). repeat case_match; rewrite ?length_be_encode; vm_compute; discriminate.
Qed.
Lemma block_size_le t v : t < 253 -> b_size (makeBinaryBlock t v) <= 10 + N.of_nat (length v).
Proof.
  intros Ht. unfold b_size. cbn [b_wire makeBinaryBlock]. rewrite tlv_wire_length. unfold sizeOfVarNumber at 1.
  rewrite (proj2 (N.ltb_lt _ _) Ht). pose proof (sizeOfVarNumber_bound (N.of_nat (length v))). lia.
Qed.

Lemma lp_bare_has p t : lp_bare p = true -> lp_has t p = true -> t = LP_Fragment.
Proof.
  unfold lp_bare, lp_has. destruct (lp_elements p) as [|f [|]]; try done. simpl. intros E%N.eqb_eq.
  rewrite orb_false_r. intros Ht%N.eqb_eq. congruence.
Qed.

Section fragmenter.
Context (packet : LpPacket) (net : list byte).
Context (Hok : lp_ok packet) (Hi : lp_has LP_FragIndex packet = false) (Hc : lp_has LP_FragCount packet = false).
Context (Hnet : 1 <= N.of_nat (length net) < 2 ^ 32).

(** The packet that fragment [i] is made from, and the fragment. *)
Definition base (i : nat) : LpPacket := match i with O => packet | _ => LpPacket_new end.
Definition piece (first payload : N) (i : nat) : list byte :=
  let size := N.of_nat (length net) in
  take (N.to_nat (cut first payload size (S i) - cut first payload size i)) (drop (N.to_nat (cut first payload size i)) net).
Definition frag_at (first payload n : N) (i : nat) : LpPacket :=
  lp_set LP_Fragment (piece first payload i)
    (lp_insert (makeBinaryBlock LP_FragCount (encode_number n))
      (lp_insert (makeBinaryBlock LP_FragIndex (encode_number (N.of_nat i))) (base i))).

Lemma base_ok i : lp_ok (base i) /\ lp_has LP_FragIndex (base i) = false /\ lp_has LP_FragCount (base i) = false.
Proof using Hok Hi Hc. destruct i; [done|]. split_and!; [apply LpPacket_new_ok|done|done]. Qed.

Lemma number_field_ok t n : isRecognized t = true -> field_value_ok t (encode_number n).
Proof using Type. intros Ht. split; [done|]. unfold encode_number, writeNonNegativeInteger. repeat case_match; rewrite ?length_be_encode; done. Qed.

Lemma base_adds i n :
  lp_add LP_FragIndex (encode_number (N.of_nat i)) (base i) =
    Some (lp_insert (makeBinaryBlock LP_FragIndex (encode_number (N.of_nat i))) (base i)) /\
  lp_add LP_FragCount (encode_number n) (lp_insert (makeBinaryBlock LP_FragIndex (encode_number (N.of_nat i))) (base i)) =
    Some (lp_insert (makeBinaryBlock LP_FragCount (encode_number n)) (lp_insert (makeBinaryBlock LP_FragIndex (encode_number (N.of_nat i))) (base i))).
Proof using Hok Hi Hc.
  destruct (base_ok i) as (_ & H1 & H2). unfold lp_add. rewrite H1, (lp_has_get LP_FragCount), lp_get_insert_ne, <- lp_has_get, H2 by done. done.
Qed.

Lemma piece_length first payload i : N.of_nat (length (piece first payload i)) <= cut first payload (N.of_nat (length net)) (S i) - cut first payload (N.of_nat (length net)) i.
Proof using Hnet. unfold piece. rewrite length_take. lia. Qed.

Lemma frag_at_ok first payload n i : lp_ok (frag_at first payload n i).
Proof using Hok Hi Hc Hnet.
  destruct (base_ok i) as (H & H1 & H2). unfold frag_at. apply lp_set_ok.
  - split; [done|]. unfold piece. rewrite length_take, length_drop. lia.
  - apply lp_insert_ok; [apply makeBinaryBlock_field, number_field_ok; done| |].
    + apply lp_insert_ok; [apply makeBinaryBlock_field, number_field_ok; done|done|by right].
    + right. cbn [b_type makeBinaryBlock]. by rewrite lp_has_get, lp_get_insert_ne, <- lp_has_get.
Qed.

(** The fields of a fragment. *)
Lemma frag_at_get first payload n i t :
  lp_get t (frag_at first payload n i) =
  if t =? LP_Fragment then Some (makeBinaryBlock LP_Fragment (piece first payload i))
  else if t =? LP_FragCount then Some (makeBinaryBlock LP_FragCount (encode_number n))
  else if t =? LP_FragIndex then Some (makeBinaryBlock LP_FragIndex (encode_number (N.of_nat i)))
  else lp_get t (base i).
Proof using Hok Hi Hc.
  destruct (base_ok i) as (_ & H1 & H2). unfold frag_at.
  destruct (N.eqb_spec t LP_Fragment) as [->|Ht]; [apply lp_get_set|]. rewrite lp_get_set_ne by done.
  destruct (N.eqb_spec t LP_FragCount) as [->|Ht2].
  { apply (lp_get_insert_new (makeBinaryBlock LP_FragCount _)). cbn [b_type makeBinaryBlock].
    by rewrite lp_has_get, lp_get_insert_ne, <- lp_has_get. }
  rewrite lp_get_insert_ne by (simpl; congruence). destruct (N.eqb_spec t LP_FragIndex) as [->|Ht3].
  { by apply (lp_get_insert_new (makeBinaryBlock LP_FragIndex _)). }
  by rewrite lp_get_insert_ne by (simpl; congruence).
Qed.
Lemma frag_at_bare first payload n i : lp_bare (frag_at first payload n i) = false.
Proof using Hok Hi Hc.
  apply not_true_iff_false. intros H. apply (lp_bare_has _ LP_FragIndex) in H; [done|]. by rewrite lp_has_get, frag_at_get.
Qed.

Lemma base_header i : header_size (lp_elements (base i)) <= header_size (lp_elements packet).
Proof using Type. clear Hnet. destruct i; simpl; [done|apply N.le_0_l]. Qed.

(** Its size, also with the sequence number to come. *)
Lemma frag_at_size first payload n i :
  fields_size (lp_elements (frag_at first payload n i)) <=
    header_size (lp_elements (base i)) + 30 + N.of_nat (length (piece first payload i)).
Proof using Hnet.
  unfold frag_at, lp_set, lp_insert at 1. cbn [lp_elements]. rewrite insert_field_size. unfold lp_clear. cbn [lp_elements].
  rewrite <- header_size_filter. unfold lp_insert. cbn [lp_elements]. rewrite !header_size_insert by done.
  pose proof (number_block_size LP_FragIndex (N.of_nat i) ltac:(done)). pose proof (number_block_size LP_FragCount n ltac:(done)).
  pose proof (block_size_le LP_Fragment (piece first payload i) ltac:(done)). lia.
Qed.
Lemma frag_at_wire first payload n i :
  exists wire, lp_wireEncode (frag_at first payload n i) = Some wire /\
    b_size wire <= header_size (lp_elements (base i)) + 40 + N.of_nat (length (piece first payload i)).
Proof using Hok Hi Hc Hnet.
  eexists. split; [apply lp_wireEncode_full; [apply frag_at_ok|apply frag_at_bare]|].
  pose proof (block_size_le LP_LpPacket (lp_value (frag_at first payload n i)) ltac:(done)).
  unfold lp_value in *. rewrite fields_size_wires in H. pose proof (frag_at_size first payload n i). lia.
Qed.

Section cuts.
Context (mtu first payload : N).
Context (Hfirst : 1 <= first <= N.of_nat (length net)) (Hpay : first <= payload).
Context (Hmtu : forall i, header_size (lp_elements (base i)) + 50 + N.of_nat (length (piece first payload i)) <= mtu).
Abbreviation size := (N.of_nat (length net)).
Abbreviation n := (pieces first payload size).

Lemma populate_ok m : forall i frags,
  (i + m)%nat = N.to_nat n -> length frags = N.to_nat n -> (forall j, (i <= j < N.to_nat n)%nat -> frags !! j = Some (base j)) ->
  forall fuel, (m <= fuel)%nat ->
  populate fuel net mtu n payload (N.of_nat i) (cut first payload size i) (cut first payload size (S i)) frags =
  Some (n, take i frags ++ (frag_at first payload n <$> seq i m)).
Proof using Hok Hi Hc Hnet Hfirst Hpay Hmtu.
  induction m as [|m IH]; intros i frags Him Hl Hb fuel Hfuel.
  - assert (negb (cut first payload size i <? size) = true) as Hend.
    { apply negb_true_iff, N.ltb_ge. destruct (N.le_gt_cases size (cut first payload size i)) as [|H]; [done|].
      apply cut_lt in H; [|lia..]. lia. }
    destruct fuel; cbn [populate]; rewrite Hend; rewrite take_ge, app_nil_r by lia; do 2 f_equal; lia.
  - destruct fuel as [|fuel]; [lia|]. cbn [populate].
    assert (cut first payload size i < size) as Hlt by (apply cut_lt; lia). rewrite (proj2 (N.ltb_lt _ _) Hlt). cbn [negb].
    rewrite Nat2N.id, Hb by lia. cbn [mbind option_bind]. destruct (base_adds i n) as [-> E]. cbn [mbind option_bind]. rewrite E. cbn [mbind option_bind].
    destruct (frag_at_wire first payload n i) as (wire & Ew & Hw). unfold frag_at, piece in Ew. cbv zeta in Ew. rewrite Ew. cbn [mbind option_bind].
    rewrite (proj2 (N.ltb_ge _ _)) by (specialize (Hmtu i); lia). rewrite cut_step.
    replace (N.of_nat i + 1) with (N.of_nat (S i)) by lia. rewrite IH; [|lia|by rewrite length_insert| |lia].
    + do 2 f_equal. rewrite (take_S_r _ i (frag_at first payload n i)).
      * by rewrite take_insert_ge, <- app_assoc by lia.
      * apply list_lookup_insert_eq. lia.
    + intros j Hj. rewrite list_lookup_insert_ne by lia. apply Hb. lia.
Qed.

Lemma pieces_concat m : (m <= N.to_nat n)%nat -> mjoin (piece first payload <$> seq 0 m) = take (N.to_nat (cut first payload size m)) net.
Proof using Hnet Hfirst Hpay.
  intros Hm. induction m as [|m IH]; [done|]. rewrite seq_S, fmap_app, join_app, IH by lia. cbn [fmap list_fmap mjoin list_join]. rewrite app_nil_r.
  unfold piece. cbn [Nat.add]. pose proof (cut_le first payload size m ltac:(lia) ltac:(lia)).
  rewrite take_take_drop. f_equal. lia.
Qed.
Lemma pieces_whole : mjoin (piece first payload <$> seq 0 (N.to_nat n)) = net.
Proof using Hnet Hfirst Hpay.
  rewrite pieces_concat by lia. apply take_ge. destruct (N.le_gt_cases size (cut first payload size (N.to_nat n))) as [|H]; [lia|].
  apply cut_lt in H; lia.
Qed.
Lemma piece_nonempty i : (i < N.to_nat n)%nat -> piece first payload i <> [].
Proof using Hnet Hfirst Hpay.
  intros Hlt E. assert (N.of_nat i < n) as H by lia. apply cut_lt in H; [|lia..].
  apply (f_equal length) in E. unfold piece in E. rewrite length_take, length_drop in E. cbn [length] in E.
  assert (cut first payload size i < cut first payload size (S i)); [|pose proof (cut_le first payload size i ltac:(lia) ltac:(lia)); lia].
  revert H. unfold cut. destruct i as [|j]; [lia|]. rewrite Nat2N.inj_succ, N.mul_succ_l. lia.
Qed.
End cuts.
End fragmenter.

Lemma fragment_last l b :
  Forall field_ok l -> StronglySorted (fun b e => field_le (b_type b) (b_type e)) l ->
  find (fun b => b_type b =? LP_Fragment) l = Some b -> fields_size l = header_size l + b_size b.
Proof.
  intros Hl Hs. induction Hs as [|e l Hs IH He]; [done|]. apply Forall_cons in Hl as [Hf Hl]. simpl.
  destruct (N.eqb_spec (b_type e) LP_Fragment) as [E|E]; [|intros H; rewrite IH by done; lia].
  intros [= ->]. destruct l as [|x l]; [simpl; lia|]. apply Forall_cons in He as [[H|[_ H]] _].
  - apply field_before_key in H; [|by apply field_ok_small|apply field_ok_small; by apply Forall_cons in Hl as [? _]].
    apply Forall_cons in Hl as [Hx _]. apply field_ok_small in Hx. rewrite E in H. unfold field_key in H. change (LP_Fragment =? LP_Fragment) with true in H.
    cbv iota in H. destruct (b_type x =? LP_Fragment) eqn:Ex; [apply N.eqb_eq in Ex; rewrite Ex in H|]; unfold LP_Fragment in *; lia.
  - by rewrite E in H.
Qed.

(** No assertion of the fragmenter fails. When it succeeds, either the packet goes as it is,
    with room for a sequence number, or it is cut into at least two pieces. *)
Definition fragmented (nMaxFragments : N) (packet : LpPacket) (net : list byte) (mtu : N) (frags : list LpPacket) : Prop :=
  (frags = [packet] /\ exists wire, lp_wireEncode packet = Some wire /\ MAX_SINGLE_FRAG_OVERHEAD + b_size wire <= mtu) \/
  exists first payload, let n := pieces first payload (N.of_nat (length net)) in
    1 <= first <= N.of_nat (length net) /\ first <= payload /\ 2 <= n <= nMaxFragments /\
    frags = frag_at packet net first payload n <$> seq 0 (N.to_nat n) /\
    forall i, header_size (lp_elements (base packet i)) + 50 + N.of_nat (length (piece net first payload i)) <= mtu.

Lemma packet_wire packet fragment net :
  lp_ok packet -> bare_ok packet -> lp_get LP_Fragment packet = Some fragment -> b_value fragment = net ->
  exists wire, lp_wireEncode packet = Some wire /\
    (if b_type wire =? LP_LpPacket then header_size (lp_elements (lp_encode packet)) else 0) = header_size (lp_elements packet) /\
    b_size wire <= header_size (lp_elements packet) + 20 + N.of_nat (length net).
Proof.
  intros Hok Hbare Hget Hv. destruct (lp_bare packet) eqn:Eb.
  - unfold lp_bare in Eb. destruct (lp_elements packet) as [|f [|]] eqn:Ee; try done. apply N.eqb_eq in Eb.
    destruct (Hbare f Ee Eb) as (n & Hn & Ht & Hv'). exists n. split; [by eapply lp_wireEncode_bare|].
    unfold lp_get in Hget. rewrite Ee in Hget. simpl in Hget. rewrite Eb in Hget. injection Hget as <-.
    assert (header_size [f] = 0) as Hh by (simpl; by rewrite Eb). rewrite Hh. split; [by destruct Ht as [-> | ->]|].
    unfold b_size. rewrite <- Hv', Hv. lia.
  - eexists. split; [by apply lp_wireEncode_full|]. split; [by rewrite lp_encode_ok|].
    pose proof (block_size_le LP_LpPacket (lp_value packet) ltac:(done)) as H. unfold lp_value in *. rewrite fields_size_wires in H.
    rewrite (fragment_last _ fragment) in H; [|by apply lp_fields|by apply lp_sorted|done].
    assert (b_size fragment <= 10 + N.of_nat (length net)) as Hs; [|lia].
    destruct Hok as [Hf _ _]. apply find_some in Hget as [Hin Ht%N.eqb_eq]. rewrite Forall_forall in Hf.
    apply list_elem_of_In, Hf in Hin. rewrite <- (field_rewrite fragment Hin), Hv, Ht. by apply block_size_le.
Qed.

Lemma fragmentPacket_spec nMaxFragments packet fragment net mtu :
  lp_ok packet -> bare_ok packet -> lp_has LP_FragIndex packet = false -> lp_has LP_FragCount packet = false ->
  lp_get LP_Fragment packet = Some fragment -> b_value fragment = net -> 1 <= N.of_nat (length net) < 2 ^ 32 ->
  exists r, fragmentPacket nMaxFragments packet mtu = Some r /\
    forall frags, r = Some frags -> fragmented nMaxFragments packet net mtu frags.
Proof.
  intros Hok Hbare Hi Hc Hget Hv Hnet. destruct (packet_wire _ _ _ Hok Hbare Hget Hv) as (wire & Ew & Eh & Hsize).
  unfold fragmentPacket. rewrite (lp_has_get LP_Fragment), Hget, Hi, Hc. cbn [negb orb]. rewrite Ew. cbn [mbind option_bind].
  destruct (N.leb_spec (MAX_SINGLE_FRAG_OVERHEAD + b_size wire) mtu) as [Hfast|Hslow].
  { eexists. split; [done|]. intros frags [= <-]. left. split; [done|]. by exists wire. }
  assert (decode_bytes fragment = inr net) as ->. { unfold decode_bytes. rewrite Hv. destruct net; [simpl in Hnet; lia|done]. }
  cbn [mbind option_bind]. rewrite Eh. clear Eh. set (hdr := header_size (lp_elements packet)) in *. set (size := N.of_nat (length net)) in *.
  destruct (N.ltb_spec mtu (MAX_FRAG_OVERHEAD + hdr + 1)) as [|Hroom]; [by eexists|].
  change MAX_FRAG_OVERHEAD with 50 in *. change MAX_SINGLE_FRAG_OVERHEAD with 30 in *.
  set (first := N.min size (mtu - hdr - 50)). set (payload := mtu - 50).
  change (1 + (size - first) / payload + (if (size - first) mod payload =? 0 then 0 else 1)) with (pieces first payload size).
  destruct (N.ltb_spec nMaxFragments (pieces first payload size)) as [|Hmax]; [by eexists|].
  assert (1 <= first <= size) as Hfirst by (unfold first; lia). assert (first <= payload) as Hpay by (unfold first, payload; lia).
  assert (2 <= pieces first payload size) as Hn.
  { assert (cut first payload size 1 < size) as H; [|apply cut_lt in H; lia]. unfold cut, first. simpl. lia. }
  assert (forall i, header_size (lp_elements (base packet i)) + 50 + N.of_nat (length (piece net first payload i)) <= mtu) as Hmtu.
  { intros i. destruct i as [|j]; cbn [base LpPacket_new lp_elements].
    - pose proof (piece_length net Hnet first payload 0). unfold cut, first in *. subst hdr size. simpl in *. lia.
    - pose proof (piece_length net Hnet first payload (S j)). pose proof (cut_width first payload size (S j)). subst size payload. simpl header_size. lia. }
  pose proof (pieces_le first payload size Hfirst ltac:(lia)) as Hle.
  pose proof (populate_ok packet net Hok Hi Hc Hnet mtu first payload Hfirst Hpay Hmtu (N.to_nat (pieces first payload size)) 0
                (packet :: replicate (N.to_nat (pieces first payload size) - 1) LpPacket_new)) as E.
  fold size in E. assert (cut first payload size 1 = first) as E1 by (unfold cut; simpl; lia). rewrite E1 in E.
  change (N.of_nat 0) with 0 in E. change (cut first payload size 0) with 0 in E.
  rewrite E; [|done|simpl; rewrite length_replicate; lia| |lia].
  - cbn [mbind option_bind]. rewrite N.eqb_refl. eexists. split; [done|]. intros frags [= <-]. right. exists first, payload. by split_and!; try lia.
  - intros [|j] Hj; [done|]. cbn [base]. simpl. apply lookup_replicate_2. lia.
Qed.
