(* ===== verification/LpReassembly.v ===== *)
(** * Reassembly (NFD/daemon/face/lp-reassembler.cpp, and sequence numbers)

    The receiver collects the fragments of each (endpoint, message identifier) until all are
    there, or a timer drops them. Failed assertions and uncaught exceptions are [None]; a
    [tlv_error] is an exception that the link service catches. Below: the reassembler never
    fails, and what the fragmenter cut is put together again. *)

From S2P Require Import Prelude Tlv Block LpPacket LpFragments.

Local Open Scope N_scope.

(** ** The reassembler *)

Abbreviation EndpointId := N (only parsing).
Abbreviation Key := (N * N)%type (only parsing).

Record PartialPacket := mkPartial {
  pp_fragments : list LpPacket;
  pp_fragCount : N;
  pp_nReceivedFragments : N;
  pp_dropTimer : option Z;
}.
Definition PartialPacket_new : PartialPacket := mkPartial [] 0 0 None.
Abbreviation LpReassembler := (gmap Key PartialPacket) (only parsing).

(** The bytes of the fragments, one after the other. *)
Fixpoint fragments_payload (frags : list LpPacket) : option (tlv_error + list byte) :=
  match frags with
  | [] => Some (inr [])
  | frag :: frags' =>
      b ← lp_get LP_Fragment frag;
      rest ← fragments_payload frags';
      Some (v ← decode_bytes b; l ← rest; inr (v ++ l))
  end.
Definition doReassembly (pp : PartialPacket) : option (tlv_error + Block) :=
  payload ← fragments_payload (pp_fragments pp); Some (fragBuffer ← payload; Block_read fragBuffer).

(** [receiveFragment]: on [Some (netPkt, firstFrag)] a packet is complete. *)
Definition receiveFragment (nMaxFragments : N) (reassemblyTimeout now : Z) (remoteEndpoint : EndpointId) (packet : LpPacket)
    (s : LpReassembler) : option (LpReassembler * (tlv_error + option (Block * LpPacket))) :=
  fragment ← lp_get LP_Fragment packet;
  match (fragIndex ← match lp_get LP_FragIndex packet with Some b => decode_number b | None => inr 0 end;
         fragCount ← match lp_get LP_FragCount packet with Some b => decode_number b | None => inr 1 end;
         inr (fragIndex, fragCount)) with
  | inl e => Some (s, inl e)
  | inr (fragIndex, fragCount) =>
      if fragCount <=? fragIndex then Some (s, inr None)
      else if nMaxFragments <? fragCount then Some (s, inr None)
      else if (fragIndex =? 0) && (fragCount =? 1)
      then Some (s, v ← decode_bytes fragment; netPkt ← Block_read v; inr (Some (netPkt, packet)))
      else match lp_get LP_Sequence packet with
      | None => Some (s, inr None)
      | Some b =>
          match decode_sequence b with
          | inl e => Some (s, inl e)
          | inr sequence =>
              let messageIdentifier := (sequence + (2 ^ 64 - fragIndex)) mod 2 ^ 64 in
              let key := (remoteEndpoint, messageIdentifier) in
              let pp := default PartialPacket_new (s !! key) in
              let isNew := pp_fragCount pp =? 0 in
              let pp := if isNew then mkPartial (replicate (N.to_nat fragCount) LpPacket_new) fragCount 0 (pp_dropTimer pp) else pp in
              let s := <[key := pp]> s in
              if negb isNew && negb (fragCount =? pp_fragCount pp) then Some (s, inr None)
              else
                old ← pp_fragments pp !! N.to_nat fragIndex;
                if lp_has LP_Sequence old then Some (s, inr None)
                else
                  let pp := mkPartial (<[N.to_nat fragIndex := packet]> (pp_fragments pp)) (pp_fragCount pp)
                                      (pp_nReceivedFragments pp + 1) (pp_dropTimer pp) in
                  if pp_nReceivedFragments pp =? pp_fragCount pp then
                    reassembled ← doReassembly pp;
                    match reassembled with
                    | inl e => Some (<[key := pp]> s, inl e)
                    | inr netPkt => firstFrag ← pp_fragments pp !! 0%nat; Some (delete key s, inr (Some (netPkt, firstFrag)))
                    end
                  else
                    let pp := mkPartial (pp_fragments pp) (pp_fragCount pp) (pp_nReceivedFragments pp) (Some (now + reassemblyTimeout)%Z) in
                    Some (<[key := pp]> s, inr None)
          end
      end
  end.

(** [timeoutPartialPacket], with the arguments of the signal [beforeTimeout]. *)
Definition timeoutPartialPacket (key : Key) (s : LpReassembler) : LpReassembler * option (EndpointId * N) :=
  match s !! key with
  | None => (s, None)
  | Some pp => (delete key s, Some (key.1, pp_nReceivedFragments pp))
  end.

(** ** The reassembler with one message *)

(** The partial packet that a packet belongs to. *)
Definition packet_key (ep : EndpointId) (p : LpPacket) : option Key :=
  match lp_get LP_Sequence p with
  | None => None
  | Some b =>
      match decode_sequence b, match lp_get LP_FragIndex p with Some b => decode_number b | None => inr 0 end with
      | inr sequence, inr fragIndex => Some (ep, (sequence + (2 ^ 64 - fragIndex)) mod 2 ^ 64)
      | _, _ => None
      end
  end.

(** What happens to a reassembler: a packet arrives, or a drop timer fires. *)
Inductive LpEvent :=
| FragmentArrives (now : Z) (ep : EndpointId) (p : LpPacket)
| DropTimer (key : Key).
Definition reassembler_step (nMaxFragments : N) (timeout : Z) (ev : LpEvent) (s : LpReassembler)
  : option (LpReassembler * (tlv_error + option (Block * LpPacket))) :=
  match ev with
  | FragmentArrives now ep p => receiveFragment nMaxFragments timeout now ep p s
  | DropTimer key => Some ((timeoutPartialPacket key s).1, inr None)
  end.
Fixpoint reassembler_run (nMaxFragments : N) (timeout : Z) (evs : list LpEvent) (s : LpReassembler)
  : option (LpReassembler * list (tlv_error + option (Block * LpPacket))) :=
  match evs with
  | [] => Some (s, [])
  | ev :: evs =>
      '(s, r) ← reassembler_step nMaxFragments timeout ev s;
      '(s, rs) ← reassembler_run nMaxFragments timeout evs s; Some (s, r :: rs)
  end.

(** Packets of other messages leave a partial packet alone. *)
Lemma receiveFragment_frame nMax timeout now ep p s s' r key :
  packet_key ep p <> Some key -> receiveFragment nMax timeout now ep p s = Some (s', r) -> s' !! key = s !! key.
Proof.
  unfold packet_key, receiveFragment. intros Hk. destruct (lp_get LP_Fragment p) as [b|]; [|done]. cbn [mbind option_bind].
  destruct (match lp_get LP_FragIndex p with Some b => _ | None => _ end) as [e|i]; cbn [mbind tlv_bind]; [by intros [= <- _]|].
  destruct (match lp_get LP_FragCount p with Some b => _ | None => _ end) as [e|c]; cbn [mbind tlv_bind]; [by intros [= <- _]|].
  destruct (c <=? i); [by intros [= <- _]|]. destruct (nMax <? c); [by intros [= <- _]|]. destruct (_ && _); [by intros [= -> _]|].
  destruct (lp_get LP_Sequence p) as [b'|]; [|by intros [= <- _]]. destruct (decode_sequence b') as [e|q]; [by intros [= <- _]|].
  set (k := (ep, (q + (2 ^ 64 - i)) mod 2 ^ 64)) in *. assert (k <> key) as Hne by congruence.
  generalize (default PartialPacket_new (s !! k)). intros pp. generalize (if pp_fragCount pp =? 0 then mkPartial (replicate (N.to_nat c) LpPacket_new) c 0 (pp_dropTimer pp) else pp).
  intros pp1. destruct (_ && _); [intros [= <- _]; by rewrite lookup_insert_ne|].
  destruct (pp_fragments pp1 !! N.to_nat i) as [old|]; [|done]. cbn [mbind option_bind].
  destruct (lp_has LP_Sequence old); [intros [= <- _]; by rewrite lookup_insert_ne|].
  destruct (_ =? _); [|intros [= <- _]; by rewrite !lookup_insert_ne].
  destruct (doReassembly _) as [[e|net]|]; cbn [mbind option_bind]; [intros [= <- _]; by rewrite !lookup_insert_ne| |done].
  destruct (pp_fragments _ !! 0%nat); [|done]. intros [= <- _]. by rewrite lookup_delete_ne, lookup_insert_ne.
Qed.

(** Packet [p] is fragment [i] of the [n] of message [s], and carries [v]. *)
Record fragment_of (n s i : N) (p : LpPacket) (v : list byte) : Prop := {
  fo_index : exists b, lp_get LP_FragIndex p = Some b /\ decode_number b = inr i;
  fo_count : exists b, lp_get LP_FragCount p = Some b /\ decode_number b = inr n;
  fo_sequence : exists b, lp_get LP_Sequence p = Some b /\ decode_sequence b = inr ((s + i) mod 2 ^ 64);
  fo_fragment : exists b, lp_get LP_Fragment p = Some b /\ decode_bytes b = inr v;
}.

Section message.
Context (nMax : N) (timeout : Z) (ep s : N) (ps : list LpPacket) (vs : list (list byte)).
Abbreviation n := (N.of_nat (length ps)).
Abbreviation key := ((ep, s) : Key).
Context (Hn : 2 <= n <= nMax) (Hmax : nMax < 2 ^ 64) (Hs : s < 2 ^ 64).
Context (Hps : forall i p, ps !! i = Some p -> exists v, vs !! i = Some v /\ fragment_of n s (N.of_nat i) p v).
Context (Hvs : length vs = length ps).

(** The fragments in [got] have arrived. *)
Definition collected (got : list nat) (st : LpReassembler) : Prop :=
  NoDup got /\ (forall i, i ∈ got -> (i < length ps)%nat) /\
  match got with
  | [] => st !! key = None
  | _ => exists pp, st !! key = Some pp /\ pp_fragCount pp = n /\ pp_nReceivedFragments pp = N.of_nat (length got) /\
           length (pp_fragments pp) = length ps /\
           forall i p, ps !! i = Some p -> pp_fragments pp !! i = Some (if bool_decide (i ∈ got) then p else LpPacket_new)
  end.

Lemma message_key i : N.of_nat i < n -> ((s + N.of_nat i) mod 2 ^ 64 + (2 ^ 64 - N.of_nat i)) mod 2 ^ 64 = s.
Proof using Hn Hmax Hs.
  clear Hps Hvs. intros Hi. rewrite N.Div0.add_mod_idemp_l. replace (s + N.of_nat i + (2 ^ 64 - N.of_nat i)) with (s + 1 * 2 ^ 64) by lia.
  rewrite N.Div0.mod_add. by apply N.mod_small.
Qed.

Lemma payload_ok frags vs' :
  Forall2 (fun p v => exists b, lp_get LP_Fragment p = Some b /\ decode_bytes b = inr v) frags vs' ->
  fragments_payload frags = Some (inr (mjoin vs')).
Proof using Type.
  induction 1 as [|p v frags vs' (b & E1 & E2) _ IH]; [done|]. cbn [fragments_payload]. rewrite E1, IH. cbn [mbind option_bind]. by rewrite E2.
Qed.

(** The fragment [i] when those of [got] have arrived. *)
Lemma receive_own now got st i p netPkt :
  collected got st -> ps !! i = Some p -> Block_read (mjoin vs) = inr netPkt ->
  exists st' r, receiveFragment nMax timeout now ep p st = Some (st', r) /\
    if bool_decide (i ∈ got) then r = inr None /\ collected got st'
    else if bool_decide (S (length got) = length ps)
    then exists p0, ps !! 0%nat = Some p0 /\ r = inr (Some (netPkt, p0)) /\ st' !! key = None
    else r = inr None /\ collected (i :: got) st'.
Proof using Hn Hmax Hs Hps Hvs.
  intros (Hnd & Hgot & Hst) Hp Hnet. destruct (Hps i p Hp) as (v & Hv & [(b1 & E1 & D1) (b2 & E2 & D2) (b3 & E3 & D3) (b4 & E4 & D4)]).
  pose proof (lookup_lt_Some _ _ _ Hp) as Hlt. unfold receiveFragment. rewrite E4. cbn [mbind option_bind]. rewrite E1, D1, E2, D2, E3.
  cbn [mbind tlv_bind]. rewrite D3. rewrite (proj2 (N.leb_gt _ _)) by lia. rewrite (proj2 (N.ltb_ge _ _)) by lia.
  rewrite (proj2 (N.eqb_neq n 1)) by lia. rewrite andb_false_r. rewrite message_key by lia.
  set (pp := default PartialPacket_new (st !! key)).
  set (pp1 := if pp_fragCount pp =? 0 then mkPartial (replicate (N.to_nat n) LpPacket_new) n 0 (pp_dropTimer pp) else pp).
  assert (pp_fragCount pp1 = n /\ pp_nReceivedFragments pp1 = N.of_nat (length got) /\ length (pp_fragments pp1) = length ps /\
    forall j q, ps !! j = Some q -> pp_fragments pp1 !! j = Some (if bool_decide (j ∈ got) then q else LpPacket_new)) as (Hc & Hr & Hl & Hf).
  { destruct got as [|g got].
    - unfold pp1, pp. rewrite Hst. cbn. rewrite Nat2N.id, length_replicate. split_and!; [done..|].
      intros j q Hq. rewrite lookup_replicate_2 by by eapply lookup_lt_Some. by rewrite bool_decide_false by apply not_elem_of_nil.
    - destruct Hst as (pp' & E & H1 & H2 & H3 & H4). unfold pp1, pp. rewrite E. cbn [from_option id]. rewrite H1.
      rewrite (proj2 (N.eqb_neq n 0)) by lia. done. }
  assert (negb (pp_fragCount pp =? 0) && negb (n =? pp_fragCount pp1) = false) as ->. { by rewrite Hc, N.eqb_refl, andb_false_r. }
  rewrite Nat2N.id. rewrite (Hf i p Hp). cbn [mbind option_bind].
  destruct (bool_decide_reflect (i ∈ got)) as [Hin|Hin].
  - rewrite lp_has_get, E3. eexists _, _. split; [done|]. split; [done|]. split_and!; [done|done|].
    destruct got as [|g got]; [by apply not_elem_of_nil in Hin|]. exists pp1. rewrite lookup_insert_eq. done.
  - cbn [lp_has LpPacket_new lp_elements existsb].
    set (pp2 := mkPartial (<[i := p]> (pp_fragments pp1)) (pp_fragCount pp1) (pp_nReceivedFragments pp1 + 1) (pp_dropTimer pp1)).
    assert (forall j q, ps !! j = Some q -> pp_fragments pp2 !! j = Some (if bool_decide (j ∈ i :: got) then q else LpPacket_new)) as Hf2.
    { intros j q Hq. cbn [pp2 pp_fragments]. destruct (decide (j = i)) as [->|Hne].
      - rewrite list_lookup_insert_eq by lia. rewrite bool_decide_true by by left. congruence.
      - rewrite list_lookup_insert_ne by done. rewrite (Hf j q Hq). f_equal.
        rewrite (bool_decide_ext (j ∈ i :: got) (j ∈ got)); [done|]. rewrite elem_of_cons. tauto. }
    replace (pp_nReceivedFragments pp2 =? pp_fragCount pp2) with (bool_decide (S (length got) = length ps)).
    2:{ cbn [pp2 pp_nReceivedFragments pp_fragCount]. rewrite Hc, Hr. destruct (bool_decide_reflect (S (length got) = length ps)); symmetry; [apply N.eqb_eq|apply N.eqb_neq]; lia. }
    destruct (bool_decide_reflect (S (length got) = length ps)) as [Hall|Hmore].
    + assert (forall j, (j < length ps)%nat -> j ∈ i :: got) as Hcov.
      { assert (seq 0 (length ps) ⊆+ i :: got) as Hsub; [|intros j Hj; apply (elem_of_submseteq (seq 0 (length ps))); [apply elem_of_seq; lia|done]].
        assert (i :: got ⊆+ seq 0 (length ps)) as Hsub.
        { apply NoDup_submseteq; [by constructor|]. intros j [->|Hj]%elem_of_cons; apply elem_of_seq; [lia|]. specialize (Hgot j Hj). lia. }
        apply submseteq_length_Permutation in Hsub; [by rewrite Hsub|rewrite length_seq; simpl; lia]. }
      assert (pp_fragments pp2 = ps) as Eps.
      { apply list_eq_same_length with (n := length ps); [done|cbn [pp2 pp_fragments]; by rewrite length_insert|].
        intros j q q' Hj Hq Hq'. rewrite (Hf2 j q' Hq') in Hq. rewrite bool_decide_true in Hq by by apply Hcov. congruence. }
      unfold doReassembly. rewrite Eps, (payload_ok ps vs).
      * cbn [mbind option_bind tlv_bind]. rewrite Hnet. destruct (lookup_lt_is_Some_2 ps 0%nat ltac:(lia)) as [p0 E0]. rewrite E0. cbn [mbind option_bind].
        eexists _, _. split; [done|]. exists p0. split_and!; [done|done|]. apply lookup_delete_eq.
      * apply Forall2_same_length_lookup. split; [done|]. intros j q w Hq Hw. destruct (Hps j q Hq) as (w' & Hw' & [_ _ _ H]). by simplify_eq.
    + eexists _, _. split; [done|]. split; [done|]. split_and!; [by constructor| |].
      * intros j [->|Hj]%elem_of_cons; [done|auto].
      * eexists. rewrite lookup_insert_eq. split; [done|]. cbn [pp_fragCount pp_nReceivedFragments pp_fragments]. split_and!; [done| | |done].
        -- simpl. lia.
        -- simpl. by rewrite length_insert.
Qed.

(** An event of another message, and one of this message. *)
Definition foreign (ev : LpEvent) : Prop :=
  match ev with
  | FragmentArrives _ ep' p => lp_has LP_Fragment p = true /\ packet_key ep' p <> Some key
  | DropTimer key' => key' <> key
  end.
Definition own (i : nat) (ev : LpEvent) : Prop := exists now p, ps !! i = Some p /\ ev = FragmentArrives now ep p.
End message.

(** ** The reassembler never fails *)

Definition count_received (l : list LpPacket) : nat := length (List.filter (lp_has LP_Sequence) l).
Record partial_ok (pp : PartialPacket) : Prop := {
  po_count : pp_fragCount pp <> 0;
  po_length : length (pp_fragments pp) = N.to_nat (pp_fragCount pp);
  po_received : pp_nReceivedFragments pp = N.of_nat (count_received (pp_fragments pp));
  po_fragment : forall p, p ∈ pp_fragments pp -> lp_has LP_Sequence p = true -> lp_has LP_Fragment p = true;
}.
Definition reassembler_ok (s : LpReassembler) : Prop := map_Forall (fun _ pp => partial_ok pp) s.

Lemma count_received_insert i p old l :
  l !! i = Some old -> lp_has LP_Sequence old = false -> lp_has LP_Sequence p = true ->
  count_received (<[i := p]> l) = S (count_received l).
Proof.
  unfold count_received. revert i. induction l as [|q l IH]; intros [|i] H Ho Hp; try done; simpl in *.
  - injection H as ->. by rewrite Ho, Hp.
  - destruct (lp_has LP_Sequence q); simpl; by rewrite (IH i).
Qed.
Lemma count_received_all l : count_received l = length l -> Forall (fun p => lp_has LP_Sequence p = true) l.
Proof.
  unfold count_received. induction l as [|p l IH]; [constructor|]. simpl. destruct (lp_has LP_Sequence p) eqn:E; simpl; intros H.
  - constructor; [done|]. apply IH. lia.
  - pose proof (filter_length_le (lp_has LP_Sequence) l). lia.
Qed.
Lemma fragments_payload_total l : Forall (fun p => lp_has LP_Fragment p = true) l -> is_Some (fragments_payload l).
Proof.
  induction 1 as [|p l Hp _ [r IH]]; [by eexists|]. cbn [fragments_payload]. rewrite lp_has_get in Hp.
  destruct (lp_get LP_Fragment p); [|done]. rewrite IH. by eexists.
Qed.

Lemma receiveFragment_total nMax timeout now ep p s :
  reassembler_ok s -> lp_has LP_Fragment p = true ->
  exists s' r, receiveFragment nMax timeout now ep p s = Some (s', r) /\ reassembler_ok s'.
Proof.
  intros Hs Hp. unfold receiveFragment. pose proof Hp as Hp'. rewrite lp_has_get in Hp'. destruct (lp_get LP_Fragment p) as [b|]; [|done]. cbn [mbind option_bind].
  destruct (match lp_get LP_FragIndex p with Some b => _ | None => _ end) as [e|i]; cbn [mbind tlv_bind]; [by eexists _, _|].
  destruct (match lp_get LP_FragCount p with Some b => _ | None => _ end) as [e|c]; cbn [mbind tlv_bind]; [by eexists _, _|].
  destruct (N.leb_spec c i); [by eexists _, _|]. destruct (nMax <? c); [by eexists _, _|]. destruct (_ && _); [by eexists _, _|].
  destruct (lp_get LP_Sequence p) as [b'|] eqn:Eq; [|by eexists _, _]. destruct (decode_sequence b') as [e|q]; [by eexists _, _|].
  set (k := (ep, (q + (2 ^ 64 - i)) mod 2 ^ 64)). set (pp := default PartialPacket_new (s !! k)).
  set (pp1 := if pp_fragCount pp =? 0 then mkPartial (replicate (N.to_nat c) LpPacket_new) c 0 (pp_dropTimer pp) else pp).
  assert (partial_ok pp1 /\ (pp_fragCount pp1 = c \/ (negb (pp_fragCount pp =? 0) && negb (c =? pp_fragCount pp1) = true))) as [H1 Hc].
  { unfold pp1. destruct (N.eqb_spec (pp_fragCount pp) 0) as [E|E].
    - split; [|by left]. split; cbn; [lia|by rewrite length_replicate| |].
      + unfold count_received. by induction (N.to_nat c).
      + intros q' Hq'. apply elem_of_replicate in Hq' as [-> _]. done.
    - split; [|destruct (N.eqb_spec c (pp_fragCount pp)); [by left|by right]].
      unfold pp in E |- *. destruct (s !! k) as [pp'|] eqn:Ek; [|done]. by apply Hs in Ek. }
  destruct (negb (pp_fragCount pp =? 0) && negb (c =? pp_fragCount pp1)) eqn:Eb.
  { eexists _, _. split; [done|]. by apply map_Forall_insert_2. }
  destruct Hc as [Hc|]; [|done]. destruct H1 as [P1 P2 P3 P4].
  destruct (lookup_lt_is_Some_2 (pp_fragments pp1) (N.to_nat i) ltac:(lia)) as [old Eo]. rewrite Eo. cbn [mbind option_bind].
  destruct (lp_has LP_Sequence old) eqn:Es. { eexists _, _. split; [done|]. by apply map_Forall_insert_2. }
  assert (lp_has LP_Sequence p = true) as Hseq by (by rewrite lp_has_get, Eq).
  assert (forall t, partial_ok (mkPartial (<[N.to_nat i := p]> (pp_fragments pp1)) (pp_fragCount pp1) (pp_nReceivedFragments pp1 + 1) t)) as H2.
  { intros t. split; cbn [pp_fragments pp_fragCount pp_nReceivedFragments]; [done|by rewrite length_insert| |].
    - rewrite (count_received_insert _ _ old) by done. lia.
    - intros p' [j Hj]%list_elem_of_lookup. destruct (decide (j = N.to_nat i)) as [->|Hne].
      + rewrite list_lookup_insert_eq in Hj by lia. congruence.
      + rewrite list_lookup_insert_ne in Hj by done. apply P4. by eapply list_elem_of_lookup_2. }
  match goal with |- context [if ?c then _ else _] => destruct c eqn:Ec end.
  - apply N.eqb_eq in Ec. cbn [pp_nReceivedFragments pp_fragCount] in Ec. unfold doReassembly.
    pose proof (H2 None) as [Q1 Q2 Q3 Q4]. cbn [pp_fragments pp_fragCount pp_nReceivedFragments] in Q1, Q2, Q3, Q4.
    assert (is_Some (fragments_payload (<[N.to_nat i := p]> (pp_fragments pp1)))) as [r Er].
    { apply fragments_payload_total. assert (Forall (fun p => lp_has LP_Sequence p = true) (<[N.to_nat i := p]> (pp_fragments pp1))) as Ha.
      { apply count_received_all. lia. }
      rewrite Forall_forall in Ha |- *. auto. }
    cbn [pp_fragments]. rewrite Er. cbn [mbind option_bind].
    destruct (lookup_lt_is_Some_2 (<[N.to_nat i := p]> (pp_fragments pp1)) 0%nat ltac:(lia)) as [p0 E0].
    destruct (fragBuffer ← r; Block_read fragBuffer) as [e|net]; cbn [mbind option_bind].
    + eexists _, _. split; [done|]. apply map_Forall_insert_2; [apply H2|]. by apply map_Forall_insert_2.
    + rewrite E0. eexists _, _. split; [done|]. apply map_Forall_delete. by apply map_Forall_insert_2.
  - eexists _, _. split; [done|]. apply map_Forall_insert_2; [apply H2|]. by apply map_Forall_insert_2.
Qed.

(** ** All fragments but one arrive, then the last *)

Section delivery.
Context (nMax : N) (timeout : Z) (ep s : N) (ps : list LpPacket) (vs : list (list byte)) (netPkt : Block).
Abbreviation n := (N.of_nat (length ps)).
Abbreviation key := ((ep, s) : Key).
Context (Hn : 2 <= n <= nMax) (Hmax : nMax < 2 ^ 64) (Hs : s < 2 ^ 64).
Context (Hps : forall i p, ps !! i = Some p -> exists v, vs !! i = Some v /\ fragment_of n s (N.of_nat i) p v).
Context (Hvs : length vs = length ps) (Hnet : Block_read (mjoin vs) = inr netPkt).

(** The results of this message's events are all silent. *)
Definition silent (evs : list LpEvent) (rs : list (tlv_error + option (Block * LpPacket))) : Prop :=
  Forall2 (fun ev r => (exists i, own ep ps i ev) -> r = inr None) evs rs.

Lemma own_not_foreign i ev : own ep ps i ev -> ~ foreign ep s ev.
Proof using Hn Hmax Hs Hps Hvs.
  intros (now & p & Hp & ->) [_ Hk]. apply Hk. destruct (Hps i p Hp) as (v & _ & [(b1 & E1 & D1) _ (b3 & E3 & D3) _]).
  unfold packet_key. rewrite E3, D3, E1, D1. do 2 f_equal. apply lookup_lt_Some in Hp.
  apply (message_key nMax s ps Hn Hmax Hs). lia.
Qed.

Lemma foreign_step st ev got :
  reassembler_ok st -> foreign ep s ev -> collected ep s ps got st ->
  exists st' r, reassembler_step nMax timeout ev st = Some (st', r) /\ reassembler_ok st' /\ collected ep s ps got st'.
Proof using Type.
  intros Hst Hf Hc. assert (forall st', st' !! key = st !! key -> collected ep s ps got st') as Hframe.
  { intros st' E. unfold collected in *. by rewrite E. }
  destruct ev as [now ep' p|k]; cbn [reassembler_step foreign] in *.
  - destruct Hf as [Hp Hk]. destruct (receiveFragment_total nMax timeout now ep' p st Hst Hp) as (st' & r & E & Hok).
    exists st', r. split_and!; [done|done|]. apply Hframe. by eapply receiveFragment_frame.
  - eexists _, _. split; [done|]. unfold timeoutPartialPacket. destruct (st !! k) eqn:E; cbn [fst]; [|done].
    split; [by apply map_Forall_delete|]. apply Hframe. by rewrite lookup_delete_ne.
Qed.

Lemma run_collects last evs : (last < length ps)%nat -> forall got st,
  Forall (fun ev => foreign ep s ev \/ exists i, own ep ps i ev) evs ->
  last ∉ got -> (forall ev, ev ∈ evs -> ~ own ep ps last ev) -> reassembler_ok st -> collected ep s ps got st ->
  exists st' rs got', reassembler_run nMax timeout evs st = Some (st', rs) /\ reassembler_ok st' /\ collected ep s ps got' st' /\
    silent evs rs /\ (last ∉ got') /\ forall j, j ∈ got' <-> j ∈ got \/ exists ev, ev ∈ evs /\ own ep ps j ev.
Proof using Hn Hmax Hs Hps Hvs Hnet.
  intros Hlast. induction evs as [|ev evs IH]; intros got st Hev Hng Hno Hst Hc.
  { exists st, [], got. split_and!; [done|done|done|constructor|done|]. intros j. split; [by left|]. intros [?|(ev & ?%not_elem_of_nil & _)]; done. }
  apply Forall_cons in Hev as [Hev Hevs]. assert (forall ev, ev ∈ evs -> ~ own ep ps last ev) as Hno' by (intros; apply Hno; by right).
  assert (exists st1 r got1, reassembler_step nMax timeout ev st = Some (st1, r) /\ reassembler_ok st1 /\ collected ep s ps got1 st1 /\
    ((exists i, own ep ps i ev) -> r = inr None) /\ (last ∉ got1) /\ forall j, j ∈ got1 <-> j ∈ got \/ own ep ps j ev)
    as (st1 & r & got1 & E & Hst1 & Hc1 & Hr & Hng1 & Hg).
  { destruct Hev as [Hev|[i Hi]]; [|].
    2:{ pose proof Hi as (now & p & Hp & ->). destruct (receive_own nMax timeout ep s ps vs Hn Hmax Hs Hps Hvs now got st i p netPkt Hc Hp Hnet)
        as (st1 & r & E & H). cbn [reassembler_step].
      destruct (receiveFragment_total nMax timeout now ep p st Hst) as (st1' & r' & E' & Hok).
      { destruct (Hps i p Hp) as (v & _ & [_ _ _ (b & Eb & _)]). by rewrite lp_has_get, Eb. }
      rewrite E in E'. injection E' as <- <-.
      assert (forall j, own ep ps j (FragmentArrives now ep p) <-> ps !! j = Some p) as Hown.
      { intros j. split; [by intros (? & ? & ? & [= <- <-])|]. intros Hj. by exists now, p. }
      assert (last <> i) as Hli. { intros ->. by apply (Hno (FragmentArrives now ep p)); [left|]. }
      assert (forall j, ps !! j = Some p -> j = i) as Hinj.
      { intros j Hj. destruct (Hps i p Hp) as (v & _ & [(b & Eb & Db) _ _ _]). destruct (Hps j p Hj) as (v' & _ & [(b' & Eb' & Db') _ _ _]).
        rewrite Eb in Eb'. injection Eb' as <-. rewrite Db in Db'. injection Db'. lia. }
      destruct (bool_decide_reflect (i ∈ got)) as [Hin|Hin].
      + destruct H as [-> Hc1]. exists st1, (inr None), got. split_and!; [done|done|done|done|done|]. intros j. rewrite Hown. split; [by left|].
        intros [?|Hj]; [done|]. by rewrite (Hinj j Hj).
      + destruct (bool_decide_reflect (S (length got) = length ps)) as [Hall|_].
        * exfalso. destruct Hc as (Hnd & Hgot & _). assert (last :: i :: got ⊆+ seq 0 (length ps)) as Hsub.
          { apply NoDup_submseteq; [constructor; [by rewrite elem_of_cons; intros [?|?]|by constructor]|].
            intros j. rewrite !elem_of_cons, elem_of_seq. pose proof (lookup_lt_Some _ _ _ Hp). intros [->|[->|Hj]]; [lia|lia|]. specialize (Hgot j Hj). lia. }
          apply submseteq_length in Hsub. rewrite length_seq in Hsub. simpl in Hsub. lia.
        * destruct H as [-> Hc1]. exists st1, (inr None), (i :: got). split_and!; [done|done|done|done|by rewrite elem_of_cons; intros [?|?]|].
          intros j. rewrite Hown, elem_of_cons. split; [intros [->|?]; auto|]. intros [?|Hj]; [by right|left; auto]. }
    { destruct (foreign_step st ev got Hst Hev Hc) as (st1 & r & E & H1 & H2). assert (forall i, ~ own ep ps i ev) as Hf.
      { intros i Hi. by apply (own_not_foreign i ev). }
      exists st1, r, got. split_and!; [done|done|done|intros [i Hi]; by destruct (Hf i)|done|]. intros j. split; [by left|]. intros [?|Hj]; [done|by destruct (Hf j)]. } }
  destruct (IH got1 st1 Hevs Hng1 Hno' Hst1 Hc1) as (st2 & rs & got2 & E2 & Hst2 & Hc2 & Hsil & Hng2 & Hg2).
  exists st2, (r :: rs), got2. split_and!; [|done|done|by constructor|done|].
  - cbn [reassembler_run]. rewrite E. cbn [mbind option_bind]. by rewrite E2.
  - intros j. rewrite Hg2, Hg. split.
    + intros [[?|?]|(ev' & ? & ?)]; [by left|right; exists ev; split; [by left|done]|right; exists ev'; split; [by right|done]].
    + intros [?|(ev' & [->|?]%elem_of_cons & ?)]; [by left; left|by left; right|right; by exists ev'].
Qed.

Lemma message_delivered last p now evs st :
  ps !! last = Some p -> reassembler_ok st -> st !! key = None ->
  Forall (fun ev => foreign ep s ev \/ exists i, own ep ps i ev) evs ->
  (forall j, (j < length ps)%nat -> (j <> last <-> exists ev, ev ∈ evs /\ own ep ps j ev)) ->
  exists st1 rs st2 first, reassembler_run nMax timeout evs st = Some (st1, rs) /\ silent evs rs /\
    ps !! 0%nat = Some first /\ receiveFragment nMax timeout now ep p st1 = Some (st2, inr (Some (netPkt, first))) /\ st2 !! key = None.
Proof using Hn Hmax Hs Hps Hvs Hnet.
  intros Hp Hst Hkey Hevs Hall. pose proof (lookup_lt_Some _ _ _ Hp) as Hlt.
  assert (collected ep s ps [] st) as H0. { split_and!; [constructor|by intros i ?%not_elem_of_nil|done]. }
  assert (forall ev, ev ∈ evs -> ~ own ep ps last ev) as Hno.
  { intros ev Hin Ho. by apply (proj2 (Hall last Hlt)); [exists ev|]. }
  destruct (run_collects last evs Hlt [] st Hevs ltac:(by apply not_elem_of_nil) Hno Hst H0) as (st1 & rs & got & E & _ & Hc & Hsil & Hng & Hg).
  destruct (receive_own nMax timeout ep s ps vs Hn Hmax Hs Hps Hvs now got st1 last p netPkt Hc Hp Hnet) as (st2 & r & Er & H).
  rewrite bool_decide_false in H by done.
  assert (S (length got) = length ps) as Hlen.
  { destruct Hc as (Hnd & Hgot & _). assert (last :: got ≡ₚ seq 0 (length ps)) as Hperm.
    { apply NoDup_Permutation; [by constructor|apply NoDup_seq|]. intros j. rewrite elem_of_cons, elem_of_seq. split.
      - intros [->|Hj]; [lia|]. specialize (Hgot j Hj). lia.
      - intros [_ Hj]. destruct (decide (j = last)) as [|Hne]; [by left|right]. apply Hg. right. by apply Hall. }
    apply Permutation_length in Hperm. rewrite length_seq in Hperm. simpl in Hperm. lia. }
  rewrite bool_decide_true in H by done. destruct H as (p0 & Hp0 & -> & Hdel).
  exists st1, rs, st2, p0. done.
Qed.
End delivery.

(** ** Over the link *)

(** [GenericLinkService::assignSequences], with the new [m_lastSeqNo]. *)
Fixpoint assignSequences (m_lastSeqNo : N) (pkts : list LpPacket) : N * list LpPacket :=
  match pkts with
  | [] => (m_lastSeqNo, [])
  | pkt :: pkts =>
      let m_lastSeqNo := (m_lastSeqNo + 1) mod 2 ^ 64 in
      let pkt := lp_set LP_Sequence (encode_sequence m_lastSeqNo) pkt in
      let '(m_lastSeqNo, pkts) := assignSequences m_lastSeqNo pkts in (m_lastSeqNo, pkt :: pkts)
  end.

Lemma assignSequences_lookup pkts : forall lastSeq i p, pkts !! i = Some p ->
  (assignSequences lastSeq pkts).2 !! i = Some (lp_set LP_Sequence (encode_sequence ((lastSeq + 1 + N.of_nat i) mod 2 ^ 64)) p).
Proof.
  induction pkts as [|q pkts IH]; intros lastSeq [|i] p H; try done; cbn [assignSequences]; destruct (assignSequences _ pkts) as [l' ps'] eqn:E; cbn [snd].
  - injection H as ->. by rewrite N.add_0_r.
  - specialize (IH ((lastSeq + 1) mod 2 ^ 64) i p H). rewrite E in IH. cbn [snd] in IH. change ((_ :: ps') !! S i) with (ps' !! i). rewrite IH. do 3 f_equal.
    rewrite <- (N.add_assoc _ 1), N.Div0.add_mod_idemp_l. f_equal. lia.
Qed.
Lemma assignSequences_length lastSeq pkts : length (assignSequences lastSeq pkts).2 = length pkts.
Proof.
  revert lastSeq. induction pkts as [|q pkts IH]; intros lastSeq; [done|]. cbn [assignSequences].
  specialize (IH ((lastSeq + 1) mod 2 ^ 64)). destruct (assignSequences _ pkts). simpl in *. by rewrite IH.
Qed.

(** A packet is sent on the link: within the MTU, and what the other side decodes. *)
Definition arrives_as (mtu : N) (p q : LpPacket) : Prop :=
  exists wire, lp_wireEncode p = Some wire /\ b_size wire <= mtu /\
    Block_fromBuffer (b_wire wire) = Some wire /\ lp_wireDecode wire = inr q.

Lemma decode_sequence_ok n : n < 2 ^ 64 -> decode_sequence (makeBinaryBlock LP_Sequence (encode_sequence n)) = inr n.
Proof.
  intros Hn. unfold decode_sequence, encode_sequence. cbn [makeBinaryBlock b_value]. rewrite length_be_encode, be_decode_encode.
  cbn [Nat.eqb]. f_equal. by apply N.mod_small.
Qed.
Lemma header_size_clear t l : header_size (List.filter (fun b => negb (b_type b =? t)) l) <= header_size l.
Proof. induction l as [|b l IH]; [done|]. simpl. destruct (negb _); simpl; destruct (b_type b =? LP_Fragment); lia. Qed.
Lemma fields_size_clear t l : fields_size (List.filter (fun b => negb (b_type b =? t)) l) <= fields_size l.
Proof. induction l as [|b l IH]; [done|]. unfold fields_size in *. simpl. destruct (negb _); simpl; lia. Qed.

(** A packet with a sequence number goes through, when it fits. *)
Lemma sequenced_arrives p seq mtu :
  lp_ok p -> lp_has LP_Fragment p = true -> fields_size (lp_elements p) + 20 <= mtu -> mtu < 2 ^ 64 ->
  let p' := lp_set LP_Sequence (encode_sequence seq) p in
  exists q, arrives_as mtu p' q /\ lp_elements q = lp_elements p'.
Proof.
  intros Hp Hf Hsize Hmtu p'. assert (lp_ok p') as Hp'. { apply lp_set_ok; [|done]. split; [done|]. unfold encode_sequence. by rewrite length_be_encode. }
  assert (lp_bare p' = false) as Hb.
  { apply not_true_iff_false. intros H. apply (lp_bare_has _ LP_Sequence) in H; [done|]. unfold p'. by rewrite lp_has_get, lp_get_set. }
  assert (bare_ok p') as Hbo. { intros f E Ht. unfold lp_bare in Hb. rewrite E, Ht in Hb. done. }
  assert (fields_size (lp_elements p') <= fields_size (lp_elements p) + 10) as Hs.
  { unfold p', lp_set, lp_insert, lp_clear. cbn [lp_elements]. rewrite insert_field_size. pose proof (fields_size_clear LP_Sequence (lp_elements p)).
    assert (b_size (makeBinaryBlock LP_Sequence (encode_sequence seq)) = 10) as ->; [|lia].
    unfold b_size. cbn [makeBinaryBlock b_wire]. rewrite tlv_wire_length. unfold encode_sequence. by rewrite length_be_encode. }
  pose proof (lp_wireEncode_full p' Hp' Hb) as Ew. assert (fields_size (lp_elements p') < 2 ^ 64) as Hlt  by lia.
  destruct (lp_roundtrip_ok p' Hp' Hbo Hlt) as (wire & q & Ew' & Hbuf & Hdec & Hel & _ & _).
  exists q. split; [|done]. exists wire. split_and!; [done| |done|done].
  rewrite Ew in Ew'. injection Ew' as <-. pose proof (block_size_le LP_LpPacket (lp_value p') ltac:(done)) as Hw.
  unfold lp_value in Hw |- *. rewrite fields_size_wires in Hw. lia.
Qed.

Lemma lp_get_elements p q t : lp_elements q = lp_elements p -> lp_get t q = lp_get t p.
Proof. unfold lp_get. by intros ->. Qed.

Lemma run_foreign nMax timeout ep s evs : forall st,
  Forall (foreign ep s) evs -> reassembler_ok st -> st !! (ep, s) = None ->
  exists st' rs, reassembler_run nMax timeout evs st = Some (st', rs) /\ length rs = length evs /\ st' !! (ep, s) = None.
Proof.
  induction evs as [|ev evs IH]; intros st Hf Hst Hk; [by exists st, []|]. apply Forall_cons in Hf as [Hev Hf].
  assert (collected ep s [] [] st) as Hc. { split_and!; [constructor|by intros i ?%not_elem_of_nil|done]. }
  destruct (foreign_step nMax timeout ep s [] st ev [] Hst Hev Hc) as (st1 & r & E & Hst1 & _ & _ & Hk1).
  destruct (IH st1 Hf Hst1 Hk1) as (st2 & rs & E2 & Hl & Hk2). exists st2, (r :: rs). split_and!; [|simpl; by rewrite Hl|done].
  cbn [reassembler_run]. rewrite E. cbn [mbind option_bind]. by rewrite E2.
Qed.

(** What the sender hands to the fragmenter. *)
Record outgoing (packet : LpPacket) (fragment net : Block) : Prop := {
  og_ok : lp_ok packet;
  og_bare : bare_ok packet;
  og_index : lp_has LP_FragIndex packet = false;
  og_count : lp_has LP_FragCount packet = false;
  og_fragment : lp_get LP_Fragment packet = Some fragment;
  og_net : block_ok net /\ b_value fragment = b_wire net;
  og_size : b_size net < 2 ^ 32;
}.

Lemma outgoing_nonempty packet fragment net : outgoing packet fragment net -> 1 <= N.of_nat (length (b_wire net)) < 2 ^ 32.
Proof.
  intros [_ _ _ _ _ [(-> & _) _] Hs]. split; [|exact Hs]. destruct (tlv_wire_cons (b_type net) (b_value net)) as (c & l & E).
  cbn [makeBinaryBlock b_wire]. rewrite E. simpl. lia.
Qed.

(** The size of the fields, from that of the wire. *)
Lemma outgoing_size packet fragment net wire :
  outgoing packet fragment net -> lp_wireEncode packet = Some wire -> fields_size (lp_elements packet) <= b_size wire + 10.
Proof.
  intros [Hok Hbare Hi Hc Hget [Hnet Hv] Hsize] Ew. destruct (lp_bare packet) eqn:Eb.
  - unfold lp_bare in Eb. destruct (lp_elements packet) as [|f [|]] eqn:Ee; try done. apply N.eqb_eq in Eb.
    unfold lp_get in Hget. rewrite Ee in Hget. simpl in Hget. rewrite Eb in Hget. injection Hget as <-.
    assert (lp_wireEncode packet = Some net) as Ew' by (by eapply lp_wireEncode_bare). rewrite Ew in Ew'. injection Ew' as <-.
    destruct Hok as [Hf _ _]. rewrite Ee in Hf. apply Forall_cons in Hf as [Hf _]. rewrite <- (field_rewrite f Hf), Eb, Hv.
    pose proof (block_size_le LP_Fragment (b_wire wire) ltac:(done)). unfold fields_size. simpl. unfold b_size in *. lia.
  - rewrite (lp_wireEncode_full packet Hok Eb) in Ew. injection Ew as <-. unfold b_size. cbn [makeBinaryBlock b_wire].
    rewrite tlv_wire_length. unfold lp_value. rewrite fields_size_wires. lia.
Qed.

Lemma sent_fragments nMaxSend mtu lastSeq packet fragment net frags :
  outgoing packet fragment net -> mtu < 2 ^ 64 -> fragmented nMaxSend packet (b_wire net) mtu frags ->
  forall i p, frags !! i = Some p ->
  let p' := lp_set LP_Sequence (encode_sequence ((lastSeq + 1 + N.of_nat i) mod 2 ^ 64)) p in
  exists q, arrives_as mtu p' q /\ lp_elements q = lp_elements p'.
Proof.
  intros Hout Hmtu Hfr i p Hp. pose proof (outgoing_nonempty _ _ _ Hout) as Hne. destruct Hout as [Hok Hbare Hi Hc Hget [Hnet Hv] Hsize].
  destruct Hfr as [[-> (wire & Ew & Hw)]|(first & payload & Hfirst & Hpay & Hn & -> & Hroom)].
  - apply list_lookup_singleton_Some in Hp as [-> <-]. apply sequenced_arrives; [done|by rewrite lp_has_get, Hget| |done].
    change MAX_SINGLE_FRAG_OVERHEAD with 30 in Hw. pose proof (outgoing_size packet fragment net wire ltac:(by split) Ew). lia.
  - apply list_lookup_fmap_Some in Hp as (j & -> & Hj). apply lookup_seq in Hj as [-> Hj].
    apply sequenced_arrives; [by apply frag_at_ok|by rewrite lp_has_get, frag_at_get| |done].
    pose proof (frag_at_size packet (b_wire net) Hne first payload (pieces first payload (N.of_nat (length (b_wire net)))) i).
    specialize (Hroom i). cbn [Nat.add]. lia.
Qed.

Lemma arrives_as_det mtu p q q' : arrives_as mtu p q -> arrives_as mtu p q' -> q = q'.
Proof. intros (w & E & _ & _ & D) (w' & E' & _ & _ & D'). congruence. Qed.

(** The arrived fragments of a packet that was cut, with the bytes each carries. *)
Lemma arrived_fragment nMaxSend mtu lastSeq packet fragment net first payload qs i q :
  let n := pieces first payload (N.of_nat (length (b_wire net))) in
  let frags := frag_at packet (b_wire net) first payload n <$> seq 0 (N.to_nat n) in
  outgoing packet fragment net -> mtu < 2 ^ 64 -> n < 2 ^ 64 -> 1 <= first <= N.of_nat (length (b_wire net)) -> first <= payload ->
  fragmented nMaxSend packet (b_wire net) mtu frags -> Forall2 (arrives_as mtu) (assignSequences lastSeq frags).2 qs ->
  qs !! i = Some q -> fragment_of n ((lastSeq + 1) mod 2 ^ 64) (N.of_nat i) q (piece (b_wire net) first payload i) /\
  forall t, t ∉ [LP_Sequence; LP_FragIndex; LP_FragCount; LP_Fragment] -> lp_get t q = lp_get t (base packet i).
Proof.
  intros n frags Hout Hmtu Hn Hfirst Hpay Hfr Hqs Hq. pose proof (outgoing_nonempty _ _ _ Hout) as Hne.
  destruct (Forall2_lookup_r _ _ _ _ _ Hqs Hq) as (p' & Hp' & Ha).
  assert (i < N.to_nat n)%nat as Hlt. { apply lookup_lt_Some in Hp'. rewrite assignSequences_length in Hp'. unfold frags in Hp'. by rewrite length_fmap, length_seq in Hp'. }
  assert (frags !! i = Some (frag_at packet (b_wire net) first payload n i)) as Hf.
  { unfold frags. rewrite list_lookup_fmap, (lookup_seq_lt 0) by done. done. }
  pose proof (assignSequences_lookup frags lastSeq i _ Hf) as Hs. rewrite Hp' in Hs. injection Hs as Hs.
  destruct (sent_fragments nMaxSend mtu lastSeq packet fragment net frags Hout Hmtu Hfr i _ Hf) as (q' & Ha' & El).
  rewrite <- Hs in Ha', El. rewrite (arrives_as_det _ _ _ _ Ha' Ha) in El.
  set (seqno := (lastSeq + 1 + N.of_nat i) mod 2 ^ 64) in *.
  assert (forall t, t <> LP_Sequence -> lp_get t q = lp_get t (frag_at packet (b_wire net) first payload n i)) as Hget.
  { intros t Ht. rewrite (lp_get_elements _ _ t El), Hs. by apply lp_get_set_ne. }
  pose proof (frag_at_get packet (b_wire net) (og_ok _ _ _ Hout) (og_index _ _ _ Hout) (og_count _ _ _ Hout) first payload n i) as Hfa.
  split; [split|].
  - eexists. rewrite Hget, Hfa by done. split; [done|]. apply block_readNonNegativeInteger_ok. lia.
  - eexists. rewrite Hget, Hfa by done. split; [done|]. apply block_readNonNegativeInteger_ok. lia.
  - eexists. rewrite (lp_get_elements _ _ LP_Sequence El), Hs, lp_get_set. split; [done|].
    rewrite decode_sequence_ok by (apply N.mod_lt; lia). f_equal. unfold seqno. by rewrite N.Div0.add_mod_idemp_l.
  - eexists. rewrite Hget, Hfa by done. split; [done|]. unfold decode_bytes. cbn [makeBinaryBlock b_value].
    pose proof (piece_nonempty (b_wire net) Hne first payload Hfirst Hpay i Hlt). by destruct (piece _ _ _ i).
  - intros t Ht. rewrite !not_elem_of_cons in Ht. destruct Ht as (H1 & H2 & H3 & H4 & _). rewrite Hget, Hfa by done.
    by rewrite (proj2 (N.eqb_neq _ _) H4), (proj2 (N.eqb_neq _ _) H3), (proj2 (N.eqb_neq _ _) H2).
Qed.

(** The fragments [qs] of the message with key [key] arrive in any order, some more than once,
    among other packets and timers: by [evs] all but fragment [last], then that one. *)
Definition completes (ep s : N) (qs : list LpPacket) (last : nat) (evs : list LpEvent) : Prop :=
  Forall (fun ev => foreign ep s ev \/ exists i, own ep qs i ev) evs /\
  forall j, (j < length qs)%nat -> (j <> last <-> exists ev, ev ∈ evs /\ own ep qs j ev).

(** What the receiver gets then, and not before. *)
Definition delivered (nMax : N) (timeout : Z) (ep s : N) (qs : list LpPacket) (last : nat) (evs : list LpEvent)
    (packet : LpPacket) (net : Block) (st : LpReassembler) : Prop :=
  forall q now, qs !! last = Some q ->
  exists st1 rs st2 first, reassembler_run nMax timeout evs st = Some (st1, rs) /\ silent ep qs evs rs /\
    receiveFragment nMax timeout now ep q st1 = Some (st2, inr (Some (net, first))) /\ st2 !! (ep, s) = None /\
    qs !! 0%nat = Some first /\
    forall t, t ∉ [LP_Sequence; LP_FragIndex; LP_FragCount; LP_Fragment] -> lp_get t first = lp_get t packet.

(** A message of one fragment: nothing of it arrives before. *)
Lemma completes_single ep s q evs : completes ep s [q] 0 evs -> Forall (foreign ep s) evs.
Proof.
  intros [Hevs Hall]. rewrite Forall_forall in Hevs |- *. intros ev Hin. destruct (Hevs ev Hin) as [|[i Ho]]; [done|].
  pose proof Ho as (now' & p & Hp & _). apply list_lookup_singleton_Some in Hp as [-> _]. by destruct (proj2 (Hall 0%nat (le_n 1))); [exists ev|].
Qed.
(** A packet that was not cut is delivered at once. *)
Lemma receive_whole nMax timeout now ep q fragment net st :
  1 <= nMax -> lp_has LP_FragIndex q = false -> lp_has LP_FragCount q = false -> lp_get LP_Fragment q = Some fragment ->
  b_value fragment = b_wire net -> block_ok net ->
  receiveFragment nMax timeout now ep q st = Some (st, inr (Some (net, q))).
Proof.
  intros Hmax Hi Hc Hg Hv Hnet. unfold receiveFragment. rewrite Hg. cbn [mbind option_bind]. rewrite lp_has_get in Hi, Hc.
  destruct (lp_get LP_FragIndex q); [done|]. destruct (lp_get LP_FragCount q); [done|]. cbn [mbind tlv_bind].
  rewrite (proj2 (N.leb_gt _ _)) by lia. rewrite (proj2 (N.ltb_ge _ _)) by lia. cbn [N.eqb Pos.eqb andb].
  assert (decode_bytes fragment = inr (b_wire net)) as ->.
  { unfold decode_bytes. rewrite Hv. destruct (tlv_wire_cons (b_type net) (b_value net)) as (c & l & E). pose proof Hnet as (Eb & _).
    rewrite Eb. cbn [b_wire makeBinaryBlock]. by rewrite E. }
  cbn [mbind tlv_bind]. rewrite <- (app_nil_r (b_wire net)), Block_read_wire by done. done.
Qed.

Lemma single_delivered nMax timeout lastSeq packet fragment net ep st q evs :
  let s := (lastSeq + 1) mod 2 ^ 64 in
  outgoing packet fragment net -> 1 <= nMax -> lp_elements q = lp_elements (lp_set LP_Sequence (encode_sequence s) packet) ->
  reassembler_ok st -> st !! (ep, s) = None -> completes ep s [q] 0 evs ->
  delivered nMax timeout ep s [q] 0 evs packet net st.
Proof.
  intros s Hout Hmax El Hst Hk Hc q' now [= <-]. pose proof (completes_single _ _ _ _ Hc) as Hf.
  destruct (run_foreign nMax timeout ep s evs st Hf Hst Hk) as (st1 & rs & E & Hl & Hk1). exists st1, rs, st1, q.
  assert (forall t, t <> LP_Sequence -> lp_get t q = lp_get t packet) as Hget.
  { intros t Ht. rewrite (lp_get_elements _ _ t El). by apply lp_get_set_ne. }
  destruct Hout as [Hok Hbare Hi Hcn Hg [Hnet Hv] Hsize]. split_and!; [done| | |done|done|].
  - apply Forall2_same_length_lookup. split; [done|]. intros i ev r He Hr [j Ho]. destruct Hc as [_ Hall].
    pose proof Ho as (now' & p & Hp & _). apply list_lookup_singleton_Some in Hp as [-> _].
    destruct (proj2 (Hall 0%nat (le_n 1))); [exists ev; split; [by eapply list_elem_of_lookup_2|done]|done].
  - apply (receive_whole _ _ _ _ _ fragment); try done; [| |by rewrite Hget]; rewrite lp_has_get, Hget, <- lp_has_get by done; done.
  - intros t Ht. apply not_elem_of_cons in Ht as [Ht _]. by apply Hget.
Qed.

(** What the fragmenter cut, every fragment with its sequence number, gets to the other side. *)
Lemma fragments_arrive nMaxSend mtu packet fragment net frags lastSeq :
  outgoing packet fragment net -> mtu < 2 ^ 64 -> fragmented nMaxSend packet (b_wire net) mtu frags ->
  exists qs, Forall2 (arrives_as mtu) (assignSequences lastSeq frags).2 qs.
Proof.
  intros Hout Hmtu Hr. assert (Forall (fun p => exists q, arrives_as mtu p q) (assignSequences lastSeq frags).2) as H; [|by apply Forall_exists_Forall2_l in H].
  apply Forall_lookup. intros i p' Hp'. pose proof (lookup_lt_Some _ _ _ Hp') as Hlt. rewrite assignSequences_length in Hlt.
  destruct (lookup_lt_is_Some_2 frags i Hlt) as [p Hp]. rewrite (assignSequences_lookup frags lastSeq i p Hp) in Hp'. injection Hp' as <-.
  destruct (sent_fragments nMaxSend mtu lastSeq packet fragment net frags Hout Hmtu Hr i p Hp) as (q & Ha & _). by exists q.
Qed.
Lemma fragments_delivered nMaxSend mtu packet fragment net frags lastSeq qs nMax timeout ep st last evs :
  let s := (lastSeq + 1) mod 2 ^ 64 in
  outgoing packet fragment net -> mtu < 2 ^ 64 -> fragmented nMaxSend packet (b_wire net) mtu frags ->
  Forall2 (arrives_as mtu) (assignSequences lastSeq frags).2 qs ->
  1 <= nMax -> nMaxSend <= nMax < 2 ^ 64 -> reassembler_ok st -> st !! (ep, s) = None -> completes ep s qs last evs ->
  delivered nMax timeout ep s qs last evs packet net st.
Proof.
  intros s Hout Hmtu Hr Hqs Hmax1 Hmax Hst Hk Hc. pose proof (outgoing_nonempty _ _ _ Hout) as Hne.
  pose proof (Forall2_length _ _ _ Hqs) as Hlen. rewrite assignSequences_length in Hlen.
  destruct Hr as [[-> Hw]|(first & payload & Hfirst & Hpay & Hn & -> & Hroom)].
  - destruct qs as [|q [|]]; try done. destruct last as [|last]; [|by intros q' now Hq'].
    assert (lp_elements q = lp_elements (lp_set LP_Sequence (encode_sequence s) packet)) as El.
    { destruct (sent_fragments nMaxSend mtu lastSeq packet fragment net [packet] Hout Hmtu ltac:(by left) 0 packet eq_refl) as (q' & Ha & El).
      rewrite N.add_0_r in Ha, El. apply Forall2_cons in Hqs as [Ha' _]. by rewrite <- (arrives_as_det _ _ _ _ Ha Ha'). }
    by eapply single_delivered.
  - set (n := pieces first payload (N.of_nat (length (b_wire net)))) in *. rewrite length_fmap, length_seq in Hlen.
    assert (N.of_nat (length qs) = n) as Hln by lia.
    assert (forall i q, qs !! i = Some q -> fragment_of n s (N.of_nat i) q (piece (b_wire net) first payload i) /\
      forall t, t ∉ [LP_Sequence; LP_FragIndex; LP_FragCount; LP_Fragment] -> lp_get t q = lp_get t (base packet i)) as Hfo.
    { intros i q Hq. eapply arrived_fragment; [done|done|lia|done|done| |done|done]. right. by exists first, payload. }
    set (vs := piece (b_wire net) first payload <$> seq 0 (N.to_nat n)).
    assert (mjoin vs = b_wire net) as Hvs by (by apply pieces_whole).
    intros q now Hq. destruct Hc as [Hev Hall].
    destruct (message_delivered nMax timeout ep s qs vs net) with (last := last) (p := q) (now := now) (evs := evs) (st := st)
      as (st1 & rs & st2 & p0 & E1 & Hsil & E0 & E2 & Hk2); try done.
    + lia.
    + lia.
    + apply N.mod_lt. lia.
    + intros i p Hp. rewrite Hln. exists (piece (b_wire net) first payload i). split; [|by apply Hfo].
      unfold vs. rewrite list_lookup_fmap, (lookup_seq_lt 0); [done|]. apply lookup_lt_Some in Hp. lia.
    + unfold vs. rewrite length_fmap, length_seq. lia.
    + rewrite Hvs, <- (app_nil_r (b_wire net)). apply Block_read_wire. by destruct Hout as [_ _ _ _ _ [? _] _].
    + exists st1, rs, st2, p0. split_and!; try done. by apply (Hfo 0%nat).
Qed.

(** C15: A network packet crosses the link. Whatever the MTU, the fragmenter fails none of its
    assertions; when it accepts the packet, every fragment, with its sequence number, fits the
    MTU and is decoded by the other side. The fragments may then arrive in any order and more
    than once, among packets of other messages, timers of other messages, and over the
    wrap-around of sequence numbers: nothing is delivered until the last missing one arrives,
    which delivers exactly the network packet, once, with the headers it was sent with, and
    leaves no partial packet behind. *)
Theorem fragments_reassemble nMaxSend mtu packet fragment net :
  outgoing packet fragment net -> mtu < 2 ^ 64 ->
  exists r, fragmentPacket nMaxSend packet mtu = Some r /\
  forall frags lastSeq, r = Some frags ->
  exists qs, Forall2 (arrives_as mtu) (assignSequences lastSeq frags).2 qs /\
  forall nMax timeout ep st last evs, let s := (lastSeq + 1) mod 2 ^ 64 in
    1 <= nMax -> nMaxSend <= nMax < 2 ^ 64 -> reassembler_ok st -> st !! (ep, s) = None -> completes ep s qs last evs ->
    delivered nMax timeout ep s qs last evs packet net st.
Proof.
  intros Hout Hmtu. pose proof (outgoing_nonempty _ _ _ Hout) as Hne.
  destruct (fragmentPacket_spec nMaxSend packet fragment (b_wire net) mtu) as (r & Er & Hr); try by destruct Hout as [? ? ? ? ? [? ?] ?].
  exists r. split; [done|]. intros frags lastSeq E. specialize (Hr frags E).
  destruct (fragments_arrive nMaxSend mtu packet fragment net frags lastSeq Hout Hmtu Hr) as [qs Hqs]. exists qs. split; [done|].
  intros nMax timeout ep st last evs s Hmax1 Hmax Hst Hk Hc. by eapply fragments_delivered.
Qed.

(** A Data packet of 32 bytes with a PIT token, over a link of MTU 66. *)
Definition sample_net : Block := makeBinaryBlock TLV_Data (replicate 30 x2a).
Definition sample_packet : LpPacket := lp_set LP_PitToken [x01; x02] (lp_set LP_Fragment (b_wire sample_net) LpPacket_new).

Example sample_fragments :
  (match fragmentPacket 400 sample_packet 66 with Some (Some frags) => (fun p => b_size <$> lp_wireEncode p) <$> frags | _ => [] end)
    = [Some 26; Some 26; Some 14].
Proof. vm_compute. reflexivity. Qed.

Lemma fragments_reassemble_witness :
  exists r, fragmentPacket 400 sample_packet 66 = Some r /\
  forall frags lastSeq, r = Some frags ->
  exists qs, Forall2 (arrives_as 66) (assignSequences lastSeq frags).2 qs /\
  forall nMax timeout ep st last evs, let s := (lastSeq + 1) mod 2 ^ 64 in
    1 <= nMax -> 400 <= nMax < 2 ^ 64 -> reassembler_ok st -> st !! (ep, s) = None -> completes ep s qs last evs ->
    delivered nMax timeout ep s qs last evs sample_packet sample_net st.
Proof.
  apply (fragments_reassemble 400 66 sample_packet (makeBinaryBlock LP_Fragment (b_wire sample_net)) sample_net); [|done].
  split; try done.
  - repeat apply lp_set_ok; try done. apply LpPacket_new_ok.
Defined.
