(* ===== verification/ObjectMonad.v ===== *)
(** * Methods that may throw

    A method of an object as a function of its state. An exception leaves the object as it was
    at the [throw]; [None] is a failed assertion. *)

From S2P Require Import Prelude Tlv.

Inductive Exception := InvalidArgument | TlvError (e : tlv_error) | OtherError (code : N).

Definition OM (S A : Type) : Type := S -> option ((Exception + A) * S).
#[global] Instance OM_ret {S} : MRet (OM S) := fun A x w => Some (inr x, w).
#[global] Instance OM_bind {S} : MBind (OM S) := fun A B f m w =>
  match m w with
  | None => None
  | Some (inl e, w) => Some (inl e, w)
  | Some (inr x, w) => f x w
  end.

Section methods.
Context {S : Type}.

Definition get : OM S S := fun w => Some (inr w, w).
Definition modify (f : S -> S) : OM S unit := fun w => Some (inr tt, f w).
Definition throw {A} (e : Exception) : OM S A := fun w => Some (inl e, w).
Definition lift {A} (r : tlv_error + A) : OM S A := match r with inl e => throw (TlvError e) | inr x => mret x end.
Definition assert (b : bool) : OM S unit := fun w => if b then Some (inr tt, w) else None.

Lemma bind_run {A B} (m : OM S A) (k : A -> OM S B) s x s' : m s = Some (inr x, s') -> (m ≫= k) s = k x s'.
Proof. intros H. unfold mbind, OM_bind. by rewrite H. Qed.
Lemma bind_get {A} (k : S -> OM S A) w : (get ≫= k) w = k w w.
Proof. done. Qed.

(** A method that fails no assertion and keeps [P], whether it throws or not. *)
Definition om_keeps {A} (P : S -> Prop) (m : OM S A) : Prop := forall s, P s -> exists r s', m s = Some (r, s') /\ P s'.

Lemma om_keeps_ret {A} (P : S -> Prop) (x : A) : om_keeps P (mret x).
Proof. intros s Hs. by eexists _, _. Qed.
Lemma om_keeps_throw {A} (P : S -> Prop) e : om_keeps P (throw (A:=A) e).
Proof. intros s Hs. by eexists _, _. Qed.
Lemma om_keeps_lift {A} (P : S -> Prop) (r : tlv_error + A) : om_keeps P (lift r).
Proof. destruct r; [apply om_keeps_throw|apply om_keeps_ret]. Qed.
Lemma om_keeps_modify (P : S -> Prop) f : (forall s, P s -> P (f s)) -> om_keeps P (modify f).
Proof. intros Hf s Hs. eexists _, _. split; [done|auto]. Qed.
Lemma om_keeps_bind {A B} (P : S -> Prop) (m : OM S A) (k : A -> OM S B) :
  om_keeps P m -> (forall x, om_keeps P (k x)) -> om_keeps P (m ≫= k).
Proof.
  intros Hm Hk s Hs. destruct (Hm s Hs) as ([e|x] & s' & E & Hs'); unfold mbind, OM_bind; rewrite E; [by eexists _, _|by apply Hk].
Qed.
Lemma om_keeps_get {B} (P : S -> Prop) (k : S -> OM S B) : (forall s, P s -> exists r s', k s s = Some (r, s') /\ P s') -> om_keeps P (get ≫= k).
Proof. intros Hk s Hs. rewrite bind_get. auto. Qed.
End methods.
Create HintDb om_keeps.
#[export] Hint Resolve om_keeps_ret om_keeps_throw om_keeps_lift : om_keeps.

Ltac run_im := unfold mbind, OM_bind, modify, lift, mret, OM_ret, throw; cbn [negb].
