(* ===== verification/NameWire.v ===== *)
(** * Wire format of names and delegation lists (ndn-cxx name.cpp, delegation-list.cpp)

    A name or a list of delegations as the element that carries it. Exceptions that derive
    from [tlv::Error] are [inl]; a decoder that throws half-way leaves its object in the state
    it returns beside the exception. A component that was read keeps its value and is written
    with the shortest length, where the code copies the bytes it read. *)

From S2P Require Import Prelude Tlv Name Packet Block LpPacket.

Local Open Scope N_scope.

(** [ndn::tlv]. *)
Definition TLV_Name : N := 7.
Definition TLV_Content : N := 21.
Definition TLV_ForwardingHint : N := 30.
Definition TLV_LinkDelegation : N := 31.
Definition TLV_LinkPreference : N := 30.
Definition isCriticalType (t : N) : bool := (t <=? 31) || negb (N.land t 1 =? 0).

(** A [uint64_t] as the [int64_t] count of a duration, and back. *)
Definition to_int64 (n : N) : Z := (Z.of_N n + 2 ^ 63) mod 2 ^ 64 - 2 ^ 63.
Definition to_uint64 (z : Z) : N := Z.to_N (z mod 2 ^ 64).

(** ** Names *)

Definition component_of (e : Block) : Component := mkComponent (b_type e) (b_value e).
(** [Name::wireDecode]: the sub-elements become the components, unchecked. *)
Definition Name_wireDecode (wire : Block) : tlv_error + Name :=
  if negb (b_type wire =? TLV_Name) then inl (UnexpectedType (b_type wire))
  else elements ← Block_parse (b_value wire); inr (List.map component_of elements).
Definition name_block (n : Name) : Block :=
  makeBinaryBlock TLV_Name (mjoin ((fun c => tlv_wire (c_type c) (c_value c)) <$> n)).

(** ** Delegation lists *)

(** [operator<] of delegations: by preference, then by name. *)
Definition Delegation_lt (x y : Delegation) : bool :=
  (del_preference x <? del_preference y) ||
  ((del_preference x =? del_preference y) && match Name_cmp (del_name x) (del_name y) with Lt => true | _ => false end).

Record DelegationList := mkDelegationList { dl_sorted : bool; dl_dels : list Delegation }.

#[global] Instance DelegationList_eq_dec : EqDecision DelegationList.
Proof. solve_decision. Defined.

Definition DelegationList_empty : DelegationList := mkDelegationList true [].

Inductive InsertConflictResolution := INS_REPLACE | INS_APPEND | INS_SKIP.

(** [std::upper_bound] and [insert]. *)
Fixpoint insert_upper (d : Delegation) (l : list Delegation) : list Delegation :=
  match l with
  | [] => [d]
  | e :: l' => if Delegation_lt d e then d :: l else e :: insert_upper d l'
  end.
Definition insertImpl (d : Delegation) (dl : DelegationList) : DelegationList :=
  mkDelegationList (dl_sorted dl) (if negb (dl_sorted dl) then dl_dels dl ++ [d] else insert_upper d (dl_dels dl)).
Fixpoint eraseImpl_loop (preference : option N) (name : Name) (l : list Delegation) : N * list Delegation :=
  match l with
  | [] => (0, [])
  | d :: l =>
      let '(nErased, l) := eraseImpl_loop preference name l in
      if match preference with Some p => del_preference d =? p | None => true end && Name_equals (del_name d) name
      then (nErased + 1, l) else (nErased, d :: l)
  end.
Definition eraseImpl (preference : option N) (name : Name) (dl : DelegationList) : N * DelegationList :=
  let '(n, l) := eraseImpl_loop preference name (dl_dels dl) in (n, mkDelegationList (dl_sorted dl) l).
Definition DelegationList_insert (d : Delegation) (onConflict : InsertConflictResolution) (dl : DelegationList) : bool * DelegationList :=
  match onConflict with
  | INS_REPLACE => (true, insertImpl d (eraseImpl None (del_name d) dl).2)
  | INS_APPEND => (true, insertImpl d dl)
  | INS_SKIP => if negb (existsb (fun del => Name_equals (del_name del) (del_name d)) (dl_dels dl)) then (true, insertImpl d dl) else (false, dl)
  end.
Definition DelegationList_sort (dl : DelegationList) : DelegationList :=
  if dl_sorted dl then dl else fold_left (fun dl d => insertImpl d dl) (dl_dels dl) (mkDelegationList true []).

Definition delegation_block (d : Delegation) : Block :=
  makeBinaryBlock TLV_LinkDelegation (b_wire (makeNonNegativeIntegerBlock TLV_LinkPreference (del_preference d)) ++ Name_wireEncode (del_name d)).
(** [wireEncode], on a list that is not empty. *)
Definition DelegationList_wireEncode (type : N) (dl : DelegationList) : Block :=
  makeBinaryBlock type (mjoin (b_wire ∘ delegation_block <$> dl_dels dl)).

Definition isValidTlvType (type : N) : bool := (type =? TLV_Content) || (type =? TLV_ForwardingHint).
Definition delegation_wireDecode (del : Block) : tlv_error + Delegation :=
  if negb (b_type del =? TLV_LinkDelegation) then inl (UnexpectedType (b_type del))
  else
    elements ← Block_parse (b_value del);
    match elements with
    | [] => inl (InvalidValue TLV_LinkDelegation)
    | p :: elements =>
        if negb (b_type p =? TLV_LinkPreference) then inl (InvalidValue TLV_LinkDelegation)
        else preference ← block_readNonNegativeInteger p;
             match elements with
             | [] => inl (InvalidValue TLV_LinkDelegation)
             | n :: _ => if negb (b_type n =? TLV_Name) then inl (InvalidValue TLV_LinkDelegation)
                         else name ← Name_wireDecode n; inr (mkDelegation preference name)
             end
    end.
Fixpoint delegations_wireDecode (l : list Block) (dl : DelegationList) : option tlv_error * DelegationList :=
  match l with
  | [] => (match dl_dels dl with [] => Some (InvalidValue TLV_ForwardingHint) | _ => None end, dl)
  | del :: l => match delegation_wireDecode del with
                | inl e => (Some e, dl)
                | inr d => delegations_wireDecode l (insertImpl d dl)
                end
  end.
Definition DelegationList_wireDecode (wantSort : bool) (block : Block) (dl : DelegationList) : option tlv_error * DelegationList :=
  if negb (isValidTlvType (b_type block)) then (Some (UnexpectedType (b_type block)), dl)
  else match Block_parse (b_value block) with
       | inl e => (Some e, mkDelegationList wantSort [])
       | inr elements => delegations_wireDecode elements (mkDelegationList wantSort [])
       end.

(** ** The order of a delegation list *)

Definition Delegation_cmp (x y : Delegation) : comparison :=
  pair_cmp N.compare Name_cmp (del_preference x, del_name x) (del_preference y, del_name y).
Lemma Delegation_lt_cmp x y : Delegation_lt x y = match Delegation_cmp x y with Lt => true | _ => false end.
Proof.
  unfold Delegation_lt, Delegation_cmp, pair_cmp, cmp_then. cbn [fst snd]. unfold N.ltb.
  destruct (N.compare_spec (del_preference x) (del_preference y)) as [->|H|H].
  - by rewrite N.eqb_refl.
  - done.
  - by rewrite (proj2 (N.eqb_neq _ _)) by lia.
Qed.
Definition Delegation_le (x y : Delegation) : Prop := Delegation_lt y x = false.
#[global] Instance Delegation_le_trans : Transitive Delegation_le.
Proof.
  intros x y z. unfold Delegation_le. rewrite !Delegation_lt_cmp. intros Hxy Hyz.
  destruct (Delegation_cmp z x) eqn:Ezx; [done| |done]. exfalso.
  assert (Delegation_cmp y x <> Lt) as H1 by (intros E; by rewrite E in Hxy).
  assert (Delegation_cmp z y <> Lt) as H2 by (intros E; by rewrite E in Hyz).
  unfold Delegation_cmp in *. apply H2. eapply cmp_lt_le_trans; [exact Ezx|]. by rewrite cmp_gt_lt.
Qed.
Lemma Delegation_lt_le x y : Delegation_lt x y = true -> Delegation_le x y.
Proof.
  unfold Delegation_le. rewrite !Delegation_lt_cmp. destruct (Delegation_cmp x y) eqn:E; [done| |done]. intros _.
  destruct (Delegation_cmp y x) eqn:E'; try done. exfalso. unfold Delegation_cmp in *. by apply (cmp_asym _ _ E).
Qed.

(** A list that says it is sorted is. *)
Definition dl_ok (dl : DelegationList) : Prop := dl_sorted dl = true -> StronglySorted Delegation_le (dl_dels dl).

Lemma DelegationList_empty_ok : dl_ok DelegationList_empty.
Proof. intros _. constructor. Qed.
#[export] Hint Resolve DelegationList_empty_ok : core.
Lemma insert_upper_perm d l : insert_upper d l ≡ₚ d :: l.
Proof. induction l as [|e l IH]; simpl; [done|]. destruct (Delegation_lt d e); [done|]. rewrite IH. constructor. Qed.
Lemma insert_upper_sorted d l : StronglySorted Delegation_le l -> StronglySorted Delegation_le (insert_upper d l).
Proof.
  induction 1 as [|e l Hl IH He]; simpl; [by repeat constructor|]. destruct (Delegation_lt d e) eqn:E.
  - constructor; [by constructor|]. apply Delegation_lt_le in E. constructor; [done|].
    eapply Forall_impl; [exact He|]. intros x Hx. by etrans.
  - constructor; [done|]. rewrite insert_upper_perm. by constructor.
Qed.
Lemma insertImpl_ok d dl : dl_ok dl -> dl_ok (insertImpl d dl).
Proof. destruct dl as [[] l]; unfold dl_ok; cbn; [|done]. intros H _. by apply insert_upper_sorted, H. Qed.
Lemma insertImpl_sorted d dl : dl_sorted (insertImpl d dl) = dl_sorted dl.
Proof. done. Qed.
Lemma insertImpl_perm d dl : dl_dels (insertImpl d dl) ≡ₚ d :: dl_dels dl.
Proof. unfold insertImpl. cbn. destruct (dl_sorted dl); simpl; [apply insert_upper_perm|]. by rewrite Permutation_app_comm. Qed.
Definition erases (p : option N) (n : Name) (d : Delegation) : bool :=
  match p with Some q => del_preference d =? q | None => true end && Name_equals (del_name d) n.
Lemma eraseImpl_loop_filter p n l : (eraseImpl_loop p n l).2 = filter (fun d => erases p n d = false) l.
Proof.
  induction l as [|d l IH]; [done|]. simpl. destruct (eraseImpl_loop p n l) as [m k]. simpl in IH. subst k.
  rewrite filter_cons. fold (erases p n d). by destruct (erases p n d) eqn:E.
Qed.
Lemma eraseImpl_ok p n dl : dl_ok dl -> dl_ok (eraseImpl p n dl).2.
Proof.
  unfold dl_ok, eraseImpl. pose proof (eraseImpl_loop_filter p n (dl_dels dl)) as E. destruct (eraseImpl_loop _ _ _) as [m l].
  simpl in *. subst l. intros H Hs. specialize (H Hs). clear Hs. induction H as [|d l _ IH Hd]; [constructor|].
  rewrite filter_cons. case_decide; [|done]. constructor; [done|]. apply Forall_forall. intros x Hx.
  apply list_elem_of_filter in Hx as [_ Hx]. by eapply Forall_forall in Hd.
Qed.
Lemma DelegationList_insert_ok d r dl : dl_ok dl -> dl_ok (DelegationList_insert d r dl).2.
Proof.
  intros H. destruct r; cbn; [by apply insertImpl_ok, eraseImpl_ok|by apply insertImpl_ok|].
  destruct (existsb _ _); cbn; [done|by apply insertImpl_ok].
Qed.
Lemma delegations_wireDecode_ok l : forall dl, dl_ok dl -> dl_ok (delegations_wireDecode l dl).2.
Proof. induction l as [|b l IH]; intros dl H; simpl; [done|]. destruct (delegation_wireDecode b); [done|]. by apply IH, insertImpl_ok. Qed.
Lemma delegations_wireDecode_sorted l : forall dl, dl_sorted (delegations_wireDecode l dl).2 = dl_sorted dl.
Proof. induction l as [|b l IH]; intros dl; simpl; [done|]. destruct (delegation_wireDecode b); [done|]. by rewrite IH. Qed.
Lemma DelegationList_wireDecode_ok s b dl : dl_ok dl -> dl_ok (DelegationList_wireDecode s b dl).2.
Proof.
  intros H. unfold DelegationList_wireDecode. destruct (negb _); [done|]. destruct (Block_parse _).
  - intros _. constructor.
  - apply delegations_wireDecode_ok. intros _. constructor.
Qed.
Lemma insert_fold_perm l : forall dl, dl_dels (fold_left (fun dl d => insertImpl d dl) l dl) ≡ₚ l ++ dl_dels dl.
Proof. induction l as [|d l IH]; intros dl; simpl; [done|]. rewrite IH, insertImpl_perm. by rewrite Permutation_middle. Qed.
Lemma insert_fold_ok l : forall dl, dl_ok dl -> dl_ok (fold_left (fun dl d => insertImpl d dl) l dl).
Proof. induction l as [|d l IH]; intros dl H; simpl; [done|]. by apply IH, insertImpl_ok. Qed.
Lemma DelegationList_sort_spec dl :
  dl_ok dl -> dl_ok (DelegationList_sort dl) /\ dl_sorted (DelegationList_sort dl) = true /\ dl_dels (DelegationList_sort dl) ≡ₚ dl_dels dl.
Proof.
  intros H. unfold DelegationList_sort. destruct (dl_sorted dl) eqn:E; [done|]. split_and!.
  - apply insert_fold_ok. intros _. constructor.
  - assert (forall l d, dl_sorted d = true -> dl_sorted (fold_left (fun dl d => insertImpl d dl) l d) = true) as Hf; [|by apply Hf].
    clear. induction l as [|x l IH]; intros d Hd; simpl; [done|]. by apply IH.
  - rewrite insert_fold_perm. by rewrite app_nil_r.
Qed.

(** ** Names and delegations come back *)

Definition comp_wf (c : Component) : Prop := 0 < c_type c <= u32_max /\ N.of_nat (length (c_value c)) < 2 ^ 64.
Definition comp_block (c : Component) : Block := makeBinaryBlock (c_type c) (c_value c).
Definition name_wf (n : Name) : Prop := Forall comp_wf n /\ N.of_nat (length (b_value (name_block n))) < 2 ^ 64.

Lemma name_block_wires n : b_value (name_block n) = mjoin (b_wire <$> (comp_block <$> n)).
Proof. unfold name_block. cbn [makeBinaryBlock b_value]. by rewrite <- list_fmap_compose. Qed.
Lemma Name_wireEncode_block n : Name_wireEncode n = b_wire (name_block n).
Proof.
  unfold Name_wireEncode, name_block. cbn [makeBinaryBlock b_wire]. rewrite !prependVarNumber_write. cbn [snd].
  assert (foldr (fun c buf => comp_wireEncode c ++ buf) [] n = mjoin ((fun c => tlv_wire (c_type c) (c_value c)) <$> n)) as ->; [|done].
  induction n as [|c n IH]; [done|]. cbn [foldr]. rewrite IH, comp_wireEncode_eq. done.
Qed.
Lemma name_block_ok n : name_wf n -> block_ok (name_block n).
Proof. intros [_ H]. by apply makeBinaryBlock_ok. Qed.
Lemma Name_wireDecode_block n : name_wf n -> Name_wireDecode (name_block n) = inr n.
Proof.
  intros [Hn _]. unfold Name_wireDecode. rewrite name_block_wires. cbn [name_block makeBinaryBlock b_type N.eqb negb]. cbn [TLV_Name N.eqb Pos.eqb negb].
  rewrite Block_parse_wires.
  - cbn [mbind tlv_bind]. f_equal. induction n as [|c n IH]; [done|]. apply Forall_cons in Hn as [_ Hn]. cbn. rewrite IH by done. by destruct c.
  - apply Forall_fmap. eapply Forall_impl; [exact Hn|]. intros c [Ht Hv]. by apply block_ok_wf, makeBinaryBlock_ok.
Qed.

Definition delegation_wf (d : Delegation) : Prop :=
  name_wf (del_name d) /\ del_preference d < 2 ^ 64 /\ N.of_nat (length (b_value (delegation_block d))) < 2 ^ 64.
Lemma delegation_block_ok d : delegation_wf d -> block_ok (delegation_block d).
Proof. intros (_ & _ & H). by apply makeBinaryBlock_ok. Qed.
Lemma number_block_ok t n : 0 < t <= u32_max -> block_ok (makeNonNegativeIntegerBlock t n).
Proof.
  intros Ht. apply makeBinaryBlock_ok; [done|]. unfold writeNonNegativeInteger. repeat case_match; rewrite ?length_be_encode; done.
Qed.
Lemma delegation_decode d : delegation_wf d -> delegation_wireDecode (delegation_block d) = inr d.
Proof.
  intros (Hn & Hp & _). unfold delegation_wireDecode. cbn [delegation_block makeBinaryBlock b_type b_value]. cbn [TLV_LinkDelegation N.eqb Pos.eqb negb].
  rewrite Name_wireEncode_block, Block_parse_cons by (by apply block_ok_wf, number_block_ok).
  rewrite <- (app_nil_r (b_wire (name_block _))), Block_parse_cons by (by apply block_ok_wf, name_block_ok). cbn [mbind tlv_bind].
  assert (Block_parse [] = inr []) as -> by done. cbn [mbind tlv_bind].
  rewrite block_readNonNegativeInteger_ok by done. cbn [mbind tlv_bind makeNonNegativeIntegerBlock makeBinaryBlock b_type name_block].
  cbn [TLV_LinkPreference TLV_Name N.eqb Pos.eqb negb]. change (makeBinaryBlock 7 _) with (name_block (del_name d)).
  rewrite Name_wireDecode_block by done. cbn [mbind tlv_bind]. by destruct d.
Qed.

Lemma insert_upper_last d l : Forall (fun e => Delegation_le e d) l -> insert_upper d l = l ++ [d].
Proof. induction 1 as [|e l He _ IH]; [done|]. simpl. unfold Delegation_le in He. by rewrite He, IH. Qed.
Lemma sorted_split l1 d l2 : StronglySorted Delegation_le (l1 ++ d :: l2) -> Forall (fun e => Delegation_le e d) l1.
Proof.
  induction l1 as [|e l1 IH]; [constructor|]. intros Hs. inversion_clear Hs as [|? ? Hs' He]. constructor; [|auto].
  rewrite Forall_app, Forall_cons in He. tauto.
Qed.
Lemma delegations_decode l : forall dels,
  Forall delegation_wf l -> dels ++ l <> [] -> StronglySorted Delegation_le (dels ++ l) ->
  delegations_wireDecode (delegation_block <$> l) (mkDelegationList true dels) = (None, mkDelegationList true (dels ++ l)).
Proof.
  induction l as [|d l IH]; intros dels Hl Hne Hs.
  { rewrite app_nil_r in *. simpl. by destruct dels. }
  apply Forall_cons in Hl as [Hd Hl]. cbn [fmap list_fmap delegations_wireDecode]. rewrite delegation_decode by done.
  unfold insertImpl. cbn [dl_sorted dl_dels negb].
  rewrite insert_upper_last, IH by (first [by rewrite <- app_assoc|done|by eapply sorted_split]). by rewrite <- app_assoc.
Qed.
Definition hint_wf (dl : DelegationList) : Prop :=
  Forall delegation_wf (dl_dels dl) /\ dl_sorted dl = true /\ dl_ok dl /\
  N.of_nat (length (b_value (DelegationList_wireEncode TLV_ForwardingHint dl))) < 2 ^ 64.
Lemma DelegationList_decode dl old :
  dl_dels dl <> [] -> hint_wf dl ->
  DelegationList_wireDecode true (DelegationList_wireEncode TLV_ForwardingHint dl) old = (None, dl).
Proof.
  intros Hne (Hl & Hs & Hok & _). unfold DelegationList_wireDecode, DelegationList_wireEncode. cbn [makeBinaryBlock b_value b_type].
  cbn [isValidTlvType TLV_Content TLV_ForwardingHint N.eqb Pos.eqb orb negb].
  rewrite list_fmap_compose, Block_parse_wires.
  - destruct dl as [s l]. cbn in *. subst s. by rewrite (delegations_decode l []) by auto.
  - apply Forall_fmap. eapply Forall_impl; [exact Hl|]. intros d Hd. by apply block_ok_wf, delegation_block_ok.
Qed.
Lemma to_int64_mod z : (- 2 ^ 63 <= z < 2 ^ 63)%Z -> to_int64 (to_uint64 z) = z.
Proof.
  intros Hz. unfold to_int64, to_uint64. rewrite Z2N.id by (apply Z.mod_pos_bound; lia). rewrite Zplus_mod_idemp_l, Z.mod_small; lia.
Qed.
Lemma to_int64_range n : (- 2 ^ 63 <= to_int64 n < 2 ^ 63)%Z.
Proof. unfold to_int64. pose proof (Z.mod_pos_bound (Z.of_N n + 2 ^ 63) (2 ^ 64) ltac:(lia)). lia. Qed.
Lemma to_uint64_bound z : to_uint64 z < 2 ^ 64.
Proof. unfold to_uint64. pose proof (Z.mod_pos_bound z (2 ^ 64) ltac:(lia)). lia. Qed.
