(* ===== verification/SignatureWire.v ===== *)
(** * Signature information (ndn-cxx key-locator.cpp, signature-info.cpp)

    KeyLocator and SignatureInfo with their wire format. A SignatureInfo keeps the wire it was
    decoded from or last encoded to, until a setter changes it. The blocks given to the
    decoders have a wire. Getters and decoders that throw are [inl]. *)

From S2P Require Import Prelude Tlv Name Packet Block LpPacket NameWire.

Local Open Scope N_scope.

Definition TLV_SignatureInfo : N := 22.
Definition TLV_SignatureValue : N := 23.
Definition TLV_SignatureType : N := 27.
Definition TLV_KeyLocator : N := 28.
Definition TLV_KeyDigest : N := 29.
Definition TLV_SignatureNonce : N := 38.
Definition TLV_SignatureTime : N := 40.
Definition TLV_SignatureSeqNum : N := 42.
Definition TLV_InterestSignatureInfo : N := 44.
Definition TLV_InterestSignatureValue : N := 46.
Definition TLV_ValidityPeriod : N := 253.

(** [operator==] of blocks: the type and the value, whatever the wire. *)
Definition Block_equals (x y : Block) : bool := (b_type x =? b_type y) && bool_decide (b_value x = b_value y).
(** [std::find_if] for a TLV-TYPE. *)
Definition find_type (t : N) (l : list Block) : option Block := List.find (fun b => b_type b =? t) l.

(** The first element of a TLV-TYPE, overwritten through the iterator that found it. *)
Fixpoint replace_type (t : N) (b : Block) (l : list Block) : list Block :=
  match l with
  | [] => []
  | e :: l => if b_type e =? t then b :: l else e :: replace_type t b l
  end.

Lemma block_equals_refl b : Block_equals b b = true.
Proof. unfold Block_equals. by rewrite N.eqb_refl, bool_decide_true. Qed.

(** [readNonNegativeIntegerAs], for a result of at most [max]. *)
Definition readNonNegativeIntegerAs (max : N) (b : Block) : tlv_error + N :=
  value ← block_readNonNegativeInteger b;
  if max <? value then inl (InvalidValue (b_type b)) else inr value.

(** ** Key locators *)

Inductive KeyLocator := KL_None | KL_Name (n : Name) | KL_KeyDigest (b : Block) | KL_Other (type : N).

#[global] Instance KeyLocator_eq_dec : EqDecision KeyLocator.
Proof. solve_decision. Defined.

Definition KeyLocator_wireEncode (k : KeyLocator) : tlv_error + Block :=
  match k with
  | KL_None => inr (makeBinaryBlock TLV_KeyLocator [])
  | KL_Name n => inr (makeBinaryBlock TLV_KeyLocator (Name_wireEncode n))
  | KL_KeyDigest b => inr (makeBinaryBlock TLV_KeyLocator (b_wire b))
  | KL_Other t => inl (UnrecognizedField t)
  end.
Definition KeyLocator_wireDecode (wire : Block) : tlv_error + KeyLocator :=
  if negb (b_type wire =? TLV_KeyLocator) then inl (UnexpectedType (b_type wire))
  else
    elements ← Block_parse (b_value wire);
    match elements with
    | [] => inr KL_None
    | e :: _ => if b_type e =? TLV_Name then n ← Name_wireDecode e; inr (KL_Name n)
                else if b_type e =? TLV_KeyDigest then inr (KL_KeyDigest e)
                else inr (KL_Other (b_type e))
    end.
Definition KeyLocator_getType (k : KeyLocator) : N :=
  match k with KL_None => 0 | KL_Name _ => TLV_Name | KL_KeyDigest _ => TLV_KeyDigest | KL_Other t => t end.
Definition KeyLocator_getName (k : KeyLocator) : tlv_error + Name :=
  match k with KL_Name n => inr n | _ => inl (InvalidValue TLV_KeyLocator) end.
Definition KeyLocator_getKeyDigest (k : KeyLocator) : tlv_error + Block :=
  match k with KL_KeyDigest b => inr b | _ => inl (InvalidValue TLV_KeyLocator) end.
Definition KeyLocator_setKeyDigest (keyDigest : Block) : tlv_error + KeyLocator :=
  if negb (b_type keyDigest =? TLV_KeyDigest) then inl (UnexpectedType (b_type keyDigest)) else inr (KL_KeyDigest keyDigest).
Definition KeyLocator_equals (x y : KeyLocator) : bool :=
  match x, y with
  | KL_None, KL_None => true
  | KL_Name m, KL_Name n => Name_equals m n
  | KL_KeyDigest b, KL_KeyDigest c => Block_equals b c
  | KL_Other s, KL_Other t => s =? t
  | _, _ => false
  end.

(** ** SignatureInfo *)

Record SignatureInfo := mkSignatureInfo {
  si_type : Z;                     (* int32_t, -1 for none *)
  si_keyLocator : option KeyLocator;
  si_otherTlvs : list Block;
  si_wire : option Block;
}.

#[global] Instance SignatureInfo_eq_dec : EqDecision SignatureInfo.
Proof. solve_decision. Defined.

Definition SignatureInfo_empty : SignatureInfo := mkSignatureInfo (-1) None [] None.
Definition SignatureInfo_valid (si : SignatureInfo) : bool := negb (si_type si =? -1)%Z.

(** [wireEncode(encoder, type)]. *)
Definition SignatureInfo_encode (type : N) (si : SignatureInfo) : tlv_error + Block :=
  if (si_type si =? -1)%Z then inl (InvalidValue TLV_SignatureType)
  else
    kl ← match si_keyLocator si with
         | Some k => b ← KeyLocator_wireEncode k; inr [b]
         | None => inr []
         end;
    inr (makeBinaryBlock type (mjoin (b_wire <$> makeNonNegativeIntegerBlock TLV_SignatureType (to_uint64 (si_type si)) :: kl ++ si_otherTlvs si))).
(** [wireEncode(type)]: the wire that is there is taken whatever its type. *)
Definition SignatureInfo_wireEncode (type : N) (si : SignatureInfo) : (tlv_error + Block) * SignatureInfo :=
  match si_wire si with
  | Some b => (inr b, si)
  | None => match SignatureInfo_encode type si with
            | inl e => (inl e, si)
            | inr b => (inr b, mkSignatureInfo (si_type si) (si_keyLocator si) (si_otherTlvs si) (Some b))
            end
  end.

Definition push_other (si : SignatureInfo) (e : Block) : SignatureInfo :=
  mkSignatureInfo (si_type si) (si_keyLocator si) (si_otherTlvs si ++ [e]) (si_wire si).
(** One element of [wireDecode], after the last critical one. *)
Definition signatureinfo_element (lastCriticalElement : N) (si : SignatureInfo) (e : Block) : tlv_error + (N * SignatureInfo) :=
  let t := b_type e in
  if t =? TLV_SignatureType then
    if 0 <? lastCriticalElement then inl UnsortedFields
    else type ← readNonNegativeIntegerAs u16_max e;
         inr (1, mkSignatureInfo (Z.of_N type) (si_keyLocator si) (si_otherTlvs si) (si_wire si))
  else if t =? TLV_KeyLocator then
    if 1 <? lastCriticalElement then inl UnsortedFields
    else k ← KeyLocator_wireDecode e;
         inr (2, mkSignatureInfo (si_type si) (Some k) (si_otherTlvs si) (si_wire si))
  else if t =? TLV_SignatureNonce then
    match b_value e with [] => inl (InvalidValue t) | _ => inr (lastCriticalElement, push_other si e) end
  else if t =? TLV_ValidityPeriod then inr (lastCriticalElement, push_other si e)
  else if isCriticalType t then inl (UnrecognizedField t)
  else inr (lastCriticalElement, push_other si e).
Fixpoint signatureinfo_elements (l : list Block) (last : N) (si : SignatureInfo) : option tlv_error * SignatureInfo :=
  match l with
  | [] => (if (si_type si =? -1)%Z then Some (InvalidValue TLV_SignatureInfo) else None, si)
  | e :: l => match signatureinfo_element last si e with
              | inl err => (Some err, si)
              | inr (last, si) => signatureinfo_elements l last si
              end
  end.
Definition SignatureInfo_wireDecode (type : N) (wire : Block) : option tlv_error * SignatureInfo :=
  let si := mkSignatureInfo (-1) None [] (Some wire) in
  match Block_parse (b_value wire) with
  | inl e => (Some e, si)
  | inr elements => if negb (b_type wire =? type) then (Some (UnexpectedType (b_type wire)), si)
                    else signatureinfo_elements elements 0 si
  end.

(** Fields: a change drops the wire. *)
Definition setSignatureType (type : N) (si : SignatureInfo) : SignatureInfo :=
  if negb (si_type si =? Z.of_N type)%Z then mkSignatureInfo (Z.of_N type) (si_keyLocator si) (si_otherTlvs si) None else si.
Definition getKeyLocator (si : SignatureInfo) : tlv_error + KeyLocator :=
  match si_keyLocator si with Some k => inr k | None => inl (InvalidValue TLV_SignatureInfo) end.
Definition setKeyLocator (keyLocator : option KeyLocator) (si : SignatureInfo) : SignatureInfo :=
  let same := match keyLocator, si_keyLocator si with
              | Some k, Some k' => KeyLocator_equals k k'
              | None, None => true
              | _, _ => false
              end in
  if negb same then mkSignatureInfo (si_type si) keyLocator (si_otherTlvs si) None else si.
Definition findOtherTlv (type : N) (si : SignatureInfo) : option Block := find_type type (si_otherTlvs si).
Definition set_others (l : list Block) (si : SignatureInfo) : SignatureInfo := mkSignatureInfo (si_type si) (si_keyLocator si) l None.
Definition addCustomTlv (block : Block) (si : SignatureInfo) : SignatureInfo :=
  match findOtherTlv (b_type block) si with
  | None => set_others (si_otherTlvs si ++ [block]) si
  | Some existing => if negb (Block_equals existing block) then set_others (replace_type (b_type block) block (si_otherTlvs si)) si else si
  end.
Definition removeCustomTlv (type : N) (si : SignatureInfo) : SignatureInfo :=
  match findOtherTlv type si with
  | None => si
  | Some _ => set_others (filter (fun b => b_type b <> type) (si_otherTlvs si)) si
  end.
Definition si_setNonce (nonce : option (list byte)) (si : SignatureInfo) : SignatureInfo :=
  match nonce with None => removeCustomTlv TLV_SignatureNonce si | Some n => addCustomTlv (makeBinaryBlock TLV_SignatureNonce n) si end.
Definition si_getNonce (si : SignatureInfo) : option (list byte) := b_value <$> findOtherTlv TLV_SignatureNonce si.
(** Milliseconds since the Unix epoch. *)
Definition si_setTime (time : option Z) (si : SignatureInfo) : SignatureInfo :=
  match time with None => removeCustomTlv TLV_SignatureTime si | Some t => addCustomTlv (makeNonNegativeIntegerBlock TLV_SignatureTime (to_uint64 t)) si end.
Definition si_getTime (si : SignatureInfo) : option (tlv_error + Z) :=
  (fun b => n ← block_readNonNegativeInteger b; inr (to_int64 n)) <$> findOtherTlv TLV_SignatureTime si.
Definition si_setSeqNum (seqNum : option N) (si : SignatureInfo) : SignatureInfo :=
  match seqNum with None => removeCustomTlv TLV_SignatureSeqNum si | Some n => addCustomTlv (makeNonNegativeIntegerBlock TLV_SignatureSeqNum n) si end.
Definition si_getSeqNum (si : SignatureInfo) : option (tlv_error + N) :=
  block_readNonNegativeInteger <$> findOtherTlv TLV_SignatureSeqNum si.
(** The validity period as the element it is encoded to. *)
Definition si_setValidityPeriod (validityPeriod : option Block) (si : SignatureInfo) : SignatureInfo :=
  match validityPeriod with None => removeCustomTlv TLV_ValidityPeriod si | Some b => addCustomTlv b si end.

(** [operator==]: the fields. *)
Fixpoint blocks_equal (l k : list Block) : bool :=
  match l, k with
  | [], [] => true
  | b :: l, c :: k => Block_equals b c && blocks_equal l k
  | _, _ => false
  end.
Definition SignatureInfo_equals (x y : SignatureInfo) : bool :=
  (si_type x =? si_type y)%Z &&
  match si_keyLocator x, si_keyLocator y with Some k, Some k' => KeyLocator_equals k k' | None, None => true | _, _ => false end &&
  blocks_equal (si_otherTlvs x) (si_otherTlvs y).

(** ** What is written is read back *)

Definition keyLocator_wf (k : KeyLocator) : Prop :=
  match k with
  | KL_None => True
  | KL_Name n => name_wf n /\ N.of_nat (length (Name_wireEncode n)) < 2 ^ 64
  | KL_KeyDigest b => b_type b = TLV_KeyDigest /\ block_wf b /\ N.of_nat (length (b_wire b)) < 2 ^ 64
  | KL_Other _ => False
  end.
Lemma Block_parse_one b : block_wf b -> Block_parse (b_wire b) = inr [b].
Proof. intros H. rewrite <- (app_nil_r (b_wire b)). rewrite Block_parse_cons by done. done. Qed.
Lemma KeyLocator_roundtrip k :
  keyLocator_wf k -> exists b, KeyLocator_wireEncode k = inr b /\ KeyLocator_wireDecode b = inr k /\ block_ok b /\ b_type b = TLV_KeyLocator.
Proof.
  destruct k as [|n|b|]; simpl; [..|done].
  - intros _. by eexists.
  - intros [Hn Hl]. eexists. split_and!; [done| |by apply makeBinaryBlock_ok|done].
    unfold KeyLocator_wireDecode. cbn [makeBinaryBlock b_type b_value]. rewrite N.eqb_refl, Name_wireEncode_block, Block_parse_one.
    + cbn [negb mbind tlv_bind]. change (b_type (name_block n)) with TLV_Name. rewrite N.eqb_refl. by rewrite Name_wireDecode_block.
    + by apply block_ok_wf, name_block_ok.
  - intros (Ht & Hb & Hl). eexists. split_and!; [done| |by apply makeBinaryBlock_ok|done].
    unfold KeyLocator_wireDecode. cbn [makeBinaryBlock b_type b_value]. rewrite N.eqb_refl, Block_parse_one by done.
    cbn [negb mbind tlv_bind]. by rewrite Ht.
Qed.

(** An element that decoding keeps aside. *)
Definition other_wf (b : Block) : Prop :=
  block_wf b /\ (isCriticalType (b_type b) = false \/ b_type b = TLV_ValidityPeriod) /\
  (b_type b = TLV_SignatureNonce -> b_value b <> []).
Record signatureInfo_wf (type : N) (si : SignatureInfo) : Prop := {
  sw_type : (0 <= si_type si <= 65535)%Z;
  sw_keyLocator : forall k, si_keyLocator si = Some k -> keyLocator_wf k;
  sw_others : Forall other_wf (si_otherTlvs si);
  sw_size : forall b, SignatureInfo_encode type si = inr b -> N.of_nat (length (b_value b)) < 2 ^ 64;
}.

Lemma signatureinfo_others l : forall last si,
  Forall other_wf l -> (si_type si <> -1)%Z ->
  signatureinfo_elements l last si = (None, mkSignatureInfo (si_type si) (si_keyLocator si) (si_otherTlvs si ++ l) (si_wire si)).
Proof.
  induction l as [|e l IH]; intros last si Hl Ht; simpl.
  { rewrite (proj2 (Z.eqb_neq _ _)), app_nil_r by done. by destruct si. }
  apply Forall_cons in Hl as [(_ & Hc & Hn) Hl].
  assert (signatureinfo_element last si e = inr (last, push_other si e)) as ->.
  { unfold signatureinfo_element. assert (b_type e <> TLV_SignatureType /\ b_type e <> TLV_KeyLocator) as [H1 H2].
    { split; intros E; rewrite E in Hc; by destruct Hc. }
    rewrite (proj2 (N.eqb_neq _ _) H1), (proj2 (N.eqb_neq _ _) H2).
    destruct (N.eqb_spec (b_type e) TLV_SignatureNonce) as [E|]; [specialize (Hn E); by destruct (b_value e)|].
    destruct (N.eqb_spec (b_type e) TLV_ValidityPeriod); [done|]. destruct Hc as [->|]; done. }
  rewrite IH by done. destruct si. unfold push_other. simpl. by rewrite <- app_assoc.
Qed.

Lemma readNonNegativeIntegerAs_ok max t n : n <= max -> n < 2 ^ 64 -> readNonNegativeIntegerAs max (makeNonNegativeIntegerBlock t n) = inr n.
Proof.
  intros Hm Hn. unfold readNonNegativeIntegerAs. rewrite block_readNonNegativeInteger_ok by done. cbn [mbind tlv_bind].
  by rewrite (proj2 (N.ltb_ge _ _)).
Qed.

Lemma SignatureInfo_roundtrip type si :
  0 < type <= u32_max -> signatureInfo_wf type si ->
  exists b, SignatureInfo_encode type si = inr b /\ b_type b = type /\ block_ok b /\
    SignatureInfo_wireDecode type b = (None, mkSignatureInfo (si_type si) (si_keyLocator si) (si_otherTlvs si) (Some b)).
Proof.
  intros Htype [Ht Hk Ho Hs]. destruct si as [t k l w]. cbn [si_type si_keyLocator si_otherTlvs si_wire] in *.
  unfold SignatureInfo_encode in *. cbn [si_type si_keyLocator si_otherTlvs] in *. rewrite (proj2 (Z.eqb_neq _ _)) in * by lia.
  assert (to_uint64 t = Z.to_N t) as Eu by (unfold to_uint64; rewrite Z.mod_small by lia; done). rewrite Eu in *.
  assert (block_wf (makeNonNegativeIntegerBlock TLV_SignatureType (Z.to_N t))) as Hnum by (by apply block_ok_wf, number_block_ok).
  assert (Forall block_wf l) as Hl by (eapply Forall_impl; [exact Ho|]; by intros ? []).
  assert (forall st, signatureinfo_element 0 st (makeNonNegativeIntegerBlock TLV_SignatureType (Z.to_N t)) =
    inr (1, mkSignatureInfo t (si_keyLocator st) (si_otherTlvs st) (si_wire st))) as Etype.
  { intros st. unfold signatureinfo_element. cbn [makeNonNegativeIntegerBlock makeBinaryBlock b_type]. rewrite N.eqb_refl. cbn [N.ltb N.compare].
    rewrite readNonNegativeIntegerAs_ok by (unfold u16_max; lia). cbn [mbind tlv_bind]. by rewrite Z2N.id by lia. }
  destruct k as [k|].
  - destruct (KeyLocator_roundtrip k (Hk k eq_refl)) as (b & E1 & E2 & E3 & E4). rewrite E1 in *. cbn [mbind tlv_bind] in *.
    specialize (Hs _ eq_refl). eexists. split_and!; [done|done|by apply makeBinaryBlock_ok|].
    unfold SignatureInfo_wireDecode. cbn [makeBinaryBlock b_type b_value].
    rewrite Block_parse_wires by (repeat apply Forall_cons_2; [done|by apply block_ok_wf|done]). rewrite N.eqb_refl. cbn [negb].
    cbn [signatureinfo_elements]. rewrite Etype. cbn [app signatureinfo_elements]. unfold signatureinfo_element at 1. rewrite E4, E2.
    cbn [TLV_KeyLocator TLV_SignatureType N.eqb Pos.eqb N.ltb N.compare Pos.compare Pos.compare_cont mbind tlv_bind].
    rewrite signatureinfo_others by (first [done|cbn; lia]). done.
  - cbn [mbind tlv_bind app] in *. specialize (Hs _ eq_refl). eexists. split_and!; [done|done|by apply makeBinaryBlock_ok|].
    unfold SignatureInfo_wireDecode. cbn [makeBinaryBlock b_type b_value].
    rewrite Block_parse_wires by (by apply Forall_cons_2). rewrite N.eqb_refl. cbn [negb].
    cbn [signatureinfo_elements]. rewrite Etype. rewrite signatureinfo_others by (first [done|cbn; lia]). done.
Qed.

(** Decoding keeps the wire it is given, and yields a signature type and a wire that agree with it. *)
Lemma signatureinfo_elements_wire l : forall last si, si_wire (signatureinfo_elements l last si).2 = si_wire si.
Proof.
  induction l as [|e l IH]; intros last si; simpl; [done|]. destruct (signatureinfo_element last si e) as [|[n s]] eqn:E; [done|].
  rewrite IH. revert E. unfold signatureinfo_element. destruct (_ =? TLV_SignatureType).
  { destruct (0 <? last); [done|]. destruct (readNonNegativeIntegerAs _ _); [done|]. by intros [= _ <-]. }
  destruct (_ =? TLV_KeyLocator).
  { destruct (1 <? last); [done|]. destruct (KeyLocator_wireDecode _); [done|]. by intros [= _ <-]. }
  destruct (_ =? TLV_SignatureNonce); [destruct (b_value e); [done|]; by intros [= _ <-]|].
  destruct (_ =? TLV_ValidityPeriod); [by intros [= _ <-]|]. destruct (isCriticalType _); [done|]. by intros [= _ <-].
Qed.
Lemma SignatureInfo_wireDecode_wire type b : si_wire (SignatureInfo_wireDecode type b).2 = Some b.
Proof. unfold SignatureInfo_wireDecode. destruct (Block_parse _); [done|]. destruct (negb _); [done|]. by rewrite signatureinfo_elements_wire. Qed.

(** ** Custom elements *)

Lemma find_type_app t l k : find_type t (l ++ k) = match find_type t l with Some b => Some b | None => find_type t k end.
Proof. unfold find_type. induction l as [|e l IH]; simpl; [done|]. by destruct (b_type e =? t). Qed.
Lemma find_type_some t l b : find_type t l = Some b -> b ∈ l /\ b_type b = t.
Proof. intros [H1 H2]%List.find_some. split; [by apply list_elem_of_In|by apply N.eqb_eq]. Qed.
Lemma find_replace t b l :
  find_type t (replace_type (b_type b) b l) = if t =? b_type b then (match find_type t l with Some _ => Some b | None => None end) else find_type t l.
Proof.
  unfold find_type. induction l as [|e l IH]; [by destruct (t =? _)|]. cbn [replace_type List.find].
  destruct (N.eqb_spec (b_type e) (b_type b)) as [E|E]; cbn [List.find].
  - rewrite E, (N.eqb_sym (b_type b) t). by destruct (t =? b_type b).
  - rewrite IH. destruct (N.eqb_spec (b_type e) t) as [<-|Ht]; [by rewrite (proj2 (N.eqb_neq _ _))|done].
Qed.
Lemma find_other_add t b si :
  (b_value <$> findOtherTlv t (addCustomTlv b si)) = if t =? b_type b then Some (b_value b) else b_value <$> findOtherTlv t si.
Proof.
  unfold addCustomTlv. destruct (findOtherTlv (b_type b) si) as [e|] eqn:E.
  - destruct (Block_equals e b) eqn:Eb; cbn [negb].
    + destruct (N.eqb_spec t (b_type b)) as [->|]; [|done]. rewrite E. cbn. f_equal.
      unfold Block_equals in Eb. apply andb_true_iff in Eb as [_ Eb]. by apply bool_decide_eq_true in Eb.
    + unfold findOtherTlv, set_others in *. cbn [si_otherTlvs]. rewrite find_replace. destruct (N.eqb_spec t (b_type b)) as [->|]; [|done]. by rewrite E.
  - unfold findOtherTlv, set_others in *. cbn [si_otherTlvs]. rewrite find_type_app. destruct (N.eqb_spec t (b_type b)) as [->|Ht].
    + rewrite E. unfold find_type. simpl. by rewrite N.eqb_refl.
    + destruct (find_type t _); [done|]. unfold find_type. simpl. by rewrite (proj2 (N.eqb_neq _ t)).
Qed.
Lemma find_filter_ne t u l : find_type t (filter (fun b => b_type b <> u) l) = if t =? u then None else find_type t l.
Proof.
  unfold find_type. induction l as [|e l IH]; simpl; [by destruct (t =? u)|]. rewrite filter_cons. case_decide as H; simpl.
  - rewrite IH. destruct (N.eqb_spec (b_type e) t) as [E|]; [|done]. rewrite E in H. by rewrite (proj2 (N.eqb_neq _ _) H).
  - assert (b_type e = u) as -> by (destruct (N.eq_dec (b_type e) u); [done|contradiction]). rewrite IH. destruct (N.eqb_spec t u) as [->|Ht]; [done|]. by rewrite (proj2 (N.eqb_neq u t)).
Qed.
Lemma find_other_remove t u si : findOtherTlv t (removeCustomTlv u si) = if t =? u then None else findOtherTlv t si.
Proof.
  unfold removeCustomTlv. destruct (findOtherTlv u si) as [e|] eqn:E; [|by destruct (N.eqb_spec t u) as [->|]].
  unfold findOtherTlv, set_others in *. cbn [si_otherTlvs]. apply find_filter_ne.
Qed.
Lemma getNonce_setNonce n si : si_getNonce (si_setNonce n si) = n.
Proof.
  unfold si_getNonce, si_setNonce. destruct n as [n|].
  - by rewrite find_other_add.
  - by rewrite find_other_remove.
Qed.
