(* ===== verification/InterestWire.v ===== *)
(** * Interest packets (ndn-cxx interest.cpp)

    The whole Interest: the fields of the packet format, the parameters and the digest that
    protects them, and the wire the object keeps. The Interest of Packet.v is the part of it
    that the forwarding plane looks at. An operation is a function of the object; an exception
    leaves the object as it was when the exception was thrown, and [None] is a failed
    assertion. SHA-256 is a parameter, [s_autoCheckParametersDigest] and the nonces drawn are
    arguments. *)

From S2P Require Import Prelude Tlv ObjectMonad Name Packet Block LpPacket NameWire SignatureWire.

Local Open Scope N_scope.

Definition TLV_CanBePrefix : N := 33.
Definition TLV_MustBeFresh : N := 18.
Definition TLV_Nonce : N := 10.
Definition TLV_InterestLifetime : N := 12.
Definition TLV_HopLimit : N := 34.
Definition TLV_ApplicationParameters : N := 36.

Definition DEFAULT_INTEREST_LIFETIME : Z := 4000.

Record WireInterest := mkWireInterest {
  wi_name : Name;
  wi_canBePrefix : bool;
  wi_mustBeFresh : bool;
  wi_forwardingHint : DelegationList;
  wi_nonce : option (list byte);
  wi_lifetime : Z;                     (* milliseconds *)
  wi_hopLimit : option byte;
  wi_parameters : list Block;
  wi_wire : option Block;
}.

#[global] Instance WireInterest_eq_dec : EqDecision WireInterest.
Proof. solve_decision. Defined.

Definition with_name n w := mkWireInterest n (wi_canBePrefix w) (wi_mustBeFresh w) (wi_forwardingHint w) (wi_nonce w) (wi_lifetime w) (wi_hopLimit w) (wi_parameters w) (wi_wire w).
Definition with_canBePrefix b w := mkWireInterest (wi_name w) b (wi_mustBeFresh w) (wi_forwardingHint w) (wi_nonce w) (wi_lifetime w) (wi_hopLimit w) (wi_parameters w) (wi_wire w).
Definition with_mustBeFresh b w := mkWireInterest (wi_name w) (wi_canBePrefix w) b (wi_forwardingHint w) (wi_nonce w) (wi_lifetime w) (wi_hopLimit w) (wi_parameters w) (wi_wire w).
Definition with_forwardingHint dl w := mkWireInterest (wi_name w) (wi_canBePrefix w) (wi_mustBeFresh w) dl (wi_nonce w) (wi_lifetime w) (wi_hopLimit w) (wi_parameters w) (wi_wire w).
Definition with_nonce n w := mkWireInterest (wi_name w) (wi_canBePrefix w) (wi_mustBeFresh w) (wi_forwardingHint w) n (wi_lifetime w) (wi_hopLimit w) (wi_parameters w) (wi_wire w).
Definition with_lifetime t w := mkWireInterest (wi_name w) (wi_canBePrefix w) (wi_mustBeFresh w) (wi_forwardingHint w) (wi_nonce w) t (wi_hopLimit w) (wi_parameters w) (wi_wire w).
Definition with_hopLimit h w := mkWireInterest (wi_name w) (wi_canBePrefix w) (wi_mustBeFresh w) (wi_forwardingHint w) (wi_nonce w) (wi_lifetime w) h (wi_parameters w) (wi_wire w).
Definition with_parameters p w := mkWireInterest (wi_name w) (wi_canBePrefix w) (wi_mustBeFresh w) (wi_forwardingHint w) (wi_nonce w) (wi_lifetime w) (wi_hopLimit w) p (wi_wire w).
Definition with_wire b w := mkWireInterest (wi_name w) (wi_canBePrefix w) (wi_mustBeFresh w) (wi_forwardingHint w) (wi_nonce w) (wi_lifetime w) (wi_hopLimit w) (wi_parameters w) b.

Abbreviation IM := (OM WireInterest).
Definition resetWire : IM unit := modify (with_wire None).

(** [findParametersDigestComponent]: -1 for none, -2 for more than one. *)
Fixpoint findDigest_loop (n : Name) (i pos : Z) : Z :=
  match n with
  | [] => pos
  | c :: n => if isParametersSha256Digest c
              then if negb (pos =? -1)%Z then (-2)%Z else findDigest_loop n (i + 1) i
              else findDigest_loop n (i + 1) pos
  end.
Definition findParametersDigestComponent (n : Name) : Z := findDigest_loop n 0 (-1).

Definition hasApplicationParameters (w : WireInterest) : bool := match wi_parameters w with [] => false | _ => true end.

Section interest.
Context (sha256 : list byte -> list byte) (autoCheck : bool).

Definition computeParametersDigest (w : WireInterest) : list byte := sha256 (mjoin (b_wire <$> wi_parameters w)).
(** [isParametersDigestValid]; [None] is the failed assertion. *)
Definition isParametersDigestValid (w : WireInterest) : option bool :=
  let digestIndex := findParametersDigestComponent (wi_name w) in
  if (digestIndex =? -1)%Z then Some (negb (hasApplicationParameters w))
  else if (digestIndex <? 0)%Z then None
  else if negb (hasApplicationParameters w) then Some false
  else match wi_name w !! Z.to_nat digestIndex with
       | Some c => Some (bool_decide (c_value c = computeParametersDigest w))
       | None => None
       end.
Definition addOrReplaceParametersDigestComponent : IM unit :=
  w ← get;
  assert (hasApplicationParameters w);;
  let digestIndex := findParametersDigestComponent (wi_name w) in
  let digestComponent := mkComponent ParametersSha256DigestComponent (computeParametersDigest w) in
  if negb (ensureValid digestComponent) then throw (TlvError (InvalidValue ParametersSha256DigestComponent))
  else if (digestIndex =? -1)%Z then modify (with_name (append (wi_name w) [digestComponent]))
  else assert (0 <=? digestIndex)%Z;; modify (with_name (<[Z.to_nat digestIndex := digestComponent]> (wi_name w))).

(** ** Wire format *)

(** The elements that [wireEncode(encoder)] writes. *)
Definition hint_elements (dl : DelegationList) : list Block :=
  match dl_dels dl with [] => [] | _ => [DelegationList_wireEncode TLV_ForwardingHint dl] end.
Definition interest_elements (w : WireInterest) : list Block :=
  [name_block (wi_name w)]
  ++ (if wi_canBePrefix w then [makeEmptyBlock TLV_CanBePrefix] else [])
  ++ (if wi_mustBeFresh w then [makeEmptyBlock TLV_MustBeFresh] else [])
  ++ hint_elements (wi_forwardingHint w)
  ++ (match wi_nonce w with Some n => [makeBinaryBlock TLV_Nonce n] | None => [] end)
  ++ (if (wi_lifetime w =? DEFAULT_INTEREST_LIFETIME)%Z then [] else [makeNonNegativeIntegerBlock TLV_InterestLifetime (to_uint64 (wi_lifetime w))])
  ++ (match wi_hopLimit w with Some h => [makeBinaryBlock TLV_HopLimit [h]] | None => [] end)
  ++ wi_parameters w.
(** [getNonce], with the nonce that is drawn when there is none. *)
Definition getNonce (fresh : list byte) : IM (list byte) :=
  w ← get;
  match wi_nonce w with
  | Some n => mret n
  | None => modify (with_nonce (Some fresh));; resetWire;; mret fresh
  end.
Definition Interest_encode (fresh : list byte) : IM Block :=
  w ← get;
  let digestIndex := findParametersDigestComponent (wi_name w) in
  assert (negb (digestIndex =? -2)%Z);;
  if (digestIndex =? -1)%Z && hasApplicationParameters w then throw (TlvError (InvalidValue TLV_Interest))
  else if negb (digestIndex =? -1)%Z && negb (hasApplicationParameters w) then throw (TlvError (InvalidValue TLV_Interest))
  else getNonce fresh;; w ← get;
       mret (makeBinaryBlock TLV_Interest (mjoin (b_wire <$> interest_elements w))).

(** One element of [wireDecode]: the index of the last element recognised, in and out. *)
Definition interest_element (lastElement : N) (e : Block) : IM N :=
  let t := b_type e in
  let bad {A} : IM A := throw (TlvError (InvalidValue t)) in
  let empty := match b_value e with [] => true | _ => false end in
  if t =? TLV_CanBePrefix then
    if 2 <=? lastElement then throw (TlvError UnsortedFields) else if negb empty then bad
    else modify (with_canBePrefix true);; mret 2
  else if t =? TLV_MustBeFresh then
    if 3 <=? lastElement then throw (TlvError UnsortedFields) else if negb empty then bad
    else modify (with_mustBeFresh true);; mret 3
  else if t =? TLV_ForwardingHint then
    if 4 <=? lastElement then throw (TlvError UnsortedFields)
    else w ← get;
         let '(err, hint) := DelegationList_wireDecode true e (wi_forwardingHint w) in
         modify (with_forwardingHint hint);;
         match err with Some err => throw (TlvError err) | None => mret 4 end
  else if t =? TLV_Nonce then
    if 5 <=? lastElement then throw (TlvError UnsortedFields) else if negb (length (b_value e) =? 4)%nat then bad
    else modify (with_nonce (Some (b_value e)));; mret 5
  else if t =? TLV_InterestLifetime then
    if 6 <=? lastElement then throw (TlvError UnsortedFields)
    else n ← lift (block_readNonNegativeInteger e); modify (with_lifetime (to_int64 n));; mret 6
  else if t =? TLV_HopLimit then
    if 7 <=? lastElement then mret lastElement
    else match b_value e with [h] => modify (with_hopLimit (Some h));; mret 7 | _ => bad end
  else if t =? TLV_ApplicationParameters then
    if 8 <=? lastElement then mret lastElement
    else w ← get; assert (negb (hasApplicationParameters w));; modify (with_parameters (wi_parameters w ++ [e]));; mret 8
  else if isCriticalType t then throw (TlvError (UnrecognizedField t))
  else w ← get;
       (if hasApplicationParameters w then modify (with_parameters (wi_parameters w ++ [e])) else mret tt);; mret lastElement.
Fixpoint interest_decode_elements (l : list Block) (lastElement : N) : IM N :=
  match l with
  | [] => mret lastElement
  | e :: l => lastElement ← interest_element lastElement e; interest_decode_elements l lastElement
  end.
Definition checkParametersDigest : IM unit :=
  if autoCheck then
    w ← get;
    match isParametersDigestValid w with
    | None => assert false
    | Some valid => if negb valid then throw (TlvError (InvalidValue ParametersSha256DigestComponent)) else mret tt
    end
  else mret tt.
Definition Interest_wireDecode (wire : Block) : IM unit :=
  if negb (b_type wire =? TLV_Interest) then throw (TlvError (UnexpectedType (b_type wire)))
  else
    modify (with_wire (Some wire));;
    elements ← lift (Block_parse (b_value wire));
    match elements with
    | [] => throw (TlvError (InvalidValue TLV_Interest))
    | e :: elements =>
        if negb (b_type e =? TLV_Name) then throw (TlvError (InvalidValue TLV_Interest))
        else
          tempName ← lift (Name_wireDecode e);
          if match tempName with [] => true | _ => false end then throw (TlvError (InvalidValue TLV_Name))
          else if (findParametersDigestComponent tempName =? -2)%Z then throw (TlvError (InvalidValue TLV_Name))
          else
            modify (fun w => mkWireInterest tempName false false DelegationList_empty None DEFAULT_INTEREST_LIFETIME None [] (wi_wire w));;
            interest_decode_elements elements 1;;
            checkParametersDigest
    end.
(** [wireEncode()]: the encoding is decoded into the object itself. *)
Definition Interest_wireEncode (fresh : list byte) : IM Block :=
  w ← get;
  match wi_wire w with
  | Some b => mret b
  | None => wire ← Interest_encode fresh;
            Interest_wireDecode wire;;
            mret wire
  end.

(** ** Fields *)

Definition setName (name : Name) : IM unit :=
  if (findParametersDigestComponent name =? -2)%Z then throw InvalidArgument
  else
    w ← get;
    if negb (Name_equals name (wi_name w)) then
      modify (with_name name);;
      (if hasApplicationParameters w then addOrReplaceParametersDigestComponent else mret tt);;
      resetWire
    else mret tt.
Definition setCanBePrefix (b : bool) : IM unit := modify (with_canBePrefix b);; resetWire.
Definition setMustBeFresh (b : bool) : IM unit := modify (with_mustBeFresh b);; resetWire.
Definition setForwardingHint (value : DelegationList) : IM unit := modify (with_forwardingHint value);; resetWire.
Definition modifyForwardingHint (modifier : DelegationList -> DelegationList) : IM unit :=
  modify (fun w => with_forwardingHint (modifier (wi_forwardingHint w)) w);; resetWire.
Definition setNonce (nonce : option (list byte)) : IM unit :=
  w ← get; if negb (bool_decide (nonce = wi_nonce w)) then modify (with_nonce nonce);; resetWire else mret tt.
(** [refreshNonce], with the nonces that are drawn; [None] when they are all the old one. *)
Definition refreshNonce (draws : list (list byte)) : IM unit :=
  w ← get;
  match wi_nonce w with
  | None => mret tt
  | Some oldNonce => match List.find (fun n => negb (bool_decide (n = oldNonce))) draws with
                     | Some n => modify (with_nonce (Some n));; resetWire
                     | None => assert false
                     end
  end.
Definition setInterestLifetime (lifetime : Z) : IM unit :=
  if (lifetime <? 0)%Z then throw InvalidArgument
  else w ← get; if negb (lifetime =? wi_lifetime w)%Z then modify (with_lifetime lifetime);; resetWire else mret tt.
Definition setHopLimit (hopLimit : option byte) : IM unit :=
  w ← get; if negb (bool_decide (hopLimit = wi_hopLimit w)) then modify (with_hopLimit hopLimit);; resetWire else mret tt.

(** ** Parameters and signature *)

Definition setApplicationParametersInternal (parameters : Block) : IM unit :=
  w ← get;
  match wi_parameters w with
  | [] => modify (with_parameters [parameters])
  | p :: l => assert (b_type p =? TLV_ApplicationParameters);; modify (with_parameters (parameters :: l))
  end.
(** [setApplicationParameters(const Block&)]; a block of another type is wrapped. *)
Definition setApplicationParameters (parameters : Block) : IM unit :=
  if b_type parameters =? 0 then throw InvalidArgument
  else
    setApplicationParametersInternal
      (if b_type parameters =? TLV_ApplicationParameters then parameters else makeBinaryBlock TLV_ApplicationParameters (b_wire parameters));;
    addOrReplaceParametersDigestComponent;;
    resetWire.
(** The two overloads that take the bytes; [None] is a null pointer. *)
Definition setApplicationParameters_bytes (value : option (list byte)) : IM unit :=
  match value with
  | None => throw InvalidArgument
  | Some v =>
      setApplicationParametersInternal (makeBinaryBlock TLV_ApplicationParameters v);;
      addOrReplaceParametersDigestComponent;;
      resetWire
  end.
Definition unsetApplicationParameters : IM unit :=
  modify (with_parameters []);;
  w ← get;
  let digestIndex := findParametersDigestComponent (wi_name w) in
  (if (0 <=? digestIndex)%Z then modify (with_name (delete (Z.to_nat digestIndex) (wi_name w))) else mret tt);;
  resetWire.

Definition findFirstParameter (type : N) (w : WireInterest) : option Block := find_type type (wi_parameters w).
Definition interest_getSignatureInfo (w : WireInterest) : option (tlv_error + SignatureInfo) :=
  (fun b => let '(err, si) := SignatureInfo_wireDecode TLV_InterestSignatureInfo b in
            match err with Some e => inl e | None => inr si end) <$> findFirstParameter TLV_InterestSignatureInfo w.
(** [isSigned] is [noexcept]: [None] is [std::terminate]. *)
Definition isSigned (w : WireInterest) : option bool :=
  if (3 <=? length (wi_parameters w))%nat then
    match interest_getSignatureInfo w with
    | None => Some false
    | Some (inl _) => None
    | Some (inr _) =>
        Some (match findFirstParameter TLV_InterestSignatureValue w with Some _ => true | None => false end &&
              match last (wi_name w) with Some c => c_type c =? ParametersSha256DigestComponent | None => false end)
    end
  else Some false.
(** [insert] before the first element of a TLV-TYPE, or at the end; and just after it. *)
Fixpoint insert_before (t : N) (b : Block) (l : list Block) : list Block :=
  match l with
  | [] => [b]
  | e :: l' => if b_type e =? t then b :: l else e :: insert_before t b l'
  end.
Fixpoint insert_after (t : N) (b : Block) (l : list Block) : list Block :=
  match l with
  | [] => []
  | e :: l' => if b_type e =? t then e :: b :: l' else e :: insert_after t b l'
  end.
(** [setSignatureInfo]; the object that is given keeps the wire made here. *)
Definition interest_setSignatureInfo (info : SignatureInfo) : IM SignatureInfo :=
  w ← get;
  (match wi_parameters w with [] => modify (with_parameters [makeEmptyBlock TLV_ApplicationParameters]) | _ => mret tt end);;
  w ← get;
  let infoIt := findFirstParameter TLV_InterestSignatureInfo w in
  let '(r, info) := SignatureInfo_wireEncode TLV_InterestSignatureInfo info in
  encodedInfo ← lift r;
  let change params := modify (with_parameters params);; addOrReplaceParametersDigestComponent;; resetWire;; mret info in
  match infoIt with
  | Some b => if Block_equals b encodedInfo then mret info
              else change (replace_type TLV_InterestSignatureInfo encodedInfo (wi_parameters w))
  | None => change (insert_before TLV_InterestSignatureValue encodedInfo (wi_parameters w))
  end.
Definition interest_setSignatureValue (value : option (list byte)) : IM unit :=
  match value with
  | None => throw InvalidArgument
  | Some v =>
      w ← get;
      match findFirstParameter TLV_InterestSignatureInfo w with
      | None => throw (TlvError (InvalidValue TLV_InterestSignatureInfo))
      | Some _ =>
          let valueBlock := makeBinaryBlock TLV_InterestSignatureValue v in
          let change params := modify (with_parameters params);; addOrReplaceParametersDigestComponent;; resetWire in
          match findFirstParameter TLV_InterestSignatureValue w with
          | Some b => if Block_equals b valueBlock then mret tt
                      else change (replace_type TLV_InterestSignatureValue valueBlock (wi_parameters w))
          | None => change (insert_after TLV_InterestSignatureInfo valueBlock (wi_parameters w))
          end
      end
  end.
End interest.

(** The constructors. *)
Definition Interest_default : WireInterest :=
  mkWireInterest [] true false DelegationList_empty None DEFAULT_INTEREST_LIFETIME None [] None.
Definition Interest_new (sha256 : list byte -> list byte) (defaultCanBePrefix : option bool) (name : Name) (lifetime : Z) : IM unit :=
  setName sha256 name;; setInterestLifetime lifetime;;
  match defaultCanBePrefix with Some b => setCanBePrefix b | None => mret tt end.

(** ** The digest component of a name *)

Definition is_digest (c : Component) : Prop := isParametersSha256Digest c = true.
Lemma findDigest_none n i pos : Forall (fun c => ~ is_digest c) n -> findDigest_loop n i pos = pos.
Proof.
  intros H. revert i. induction H as [|c n Hc _ IH]; intros i; [done|]. cbn [findDigest_loop].
  unfold is_digest in Hc. apply not_true_iff_false in Hc. by rewrite Hc.
Qed.
Lemma findDigest_found n i pos : (pos <> -1)%Z -> findDigest_loop n i pos = pos \/ findDigest_loop n i pos = (-2)%Z.
Proof.
  revert i. induction n as [|c n IH]; intros i Hp; [by left|]. cbn [findDigest_loop].
  destruct (isParametersSha256Digest c); [|by apply IH]. rewrite (proj2 (Z.eqb_neq _ _)) by done. by right.
Qed.
Lemma findDigest_found_inv n i pos : (0 <= pos)%Z -> findDigest_loop n i pos = pos -> Forall (fun c => ~ is_digest c) n.
Proof.
  revert i. induction n as [|c n IH]; intros i Hp; [constructor|]. cbn [findDigest_loop]. unfold is_digest.
  destruct (isParametersSha256Digest c) eqn:E; [rewrite (proj2 (Z.eqb_neq _ _)) by lia; simpl; lia|]. intros H.
  constructor; [by rewrite E|by eapply IH].
Qed.
Lemma findDigest_one a c b : is_digest c -> Forall (fun c => ~ is_digest c) a -> Forall (fun c => ~ is_digest c) b ->
  findParametersDigestComponent (a ++ c :: b) = Z.of_nat (length a).
Proof.
  intros Hc Ha Hb. unfold findParametersDigestComponent.
  assert (forall i, (0 <= i)%Z -> findDigest_loop (a ++ c :: b) i (-1) = (i + Z.of_nat (length a))%Z) as H; [|by rewrite H].
  induction Ha as [|d a Hd _ IH]; intros i Hi; cbn [app findDigest_loop].
  - unfold is_digest in Hc. rewrite Hc, findDigest_none by done. simpl. lia.
  - unfold is_digest in Hd. apply not_true_iff_false in Hd. rewrite Hd, IH by lia. cbn [length]. lia.
Qed.

(** What the index that is found says. *)
Inductive digest_view (n : Name) : Z -> Prop :=
  | view_none : Forall (fun c => ~ is_digest c) n -> digest_view n (-1)
  | view_one a c b : n = a ++ c :: b -> is_digest c -> Forall (fun c => ~ is_digest c) a -> Forall (fun c => ~ is_digest c) b ->
      digest_view n (Z.of_nat (length a))
  | view_more : digest_view n (-2).
Lemma findDigest_view n : digest_view n (findParametersDigestComponent n).
Proof.
  unfold findParametersDigestComponent.
  assert (forall i, (0 <= i)%Z ->
    (Forall (fun c => ~ is_digest c) n /\ findDigest_loop n i (-1) = (-1)%Z) \/ findDigest_loop n i (-1) = (-2)%Z \/
    exists a c b, n = a ++ c :: b /\ is_digest c /\ Forall (fun c => ~ is_digest c) a /\ Forall (fun c => ~ is_digest c) b /\
      findDigest_loop n i (-1) = (i + Z.of_nat (length a))%Z) as H.
  { induction n as [|c n IH]; intros i Hi; [by left|]. cbn [findDigest_loop].
    destruct (isParametersSha256Digest c) eqn:E; cbn [Z.eqb Pos.eqb negb].
    - destruct (findDigest_found n (i + 1) i) as [H|H]; [lia| |by right; left]. right; right. exists [], c, n. pose proof (findDigest_found_inv n (i + 1) i Hi H).
      split_and!; [done..|]. simpl. lia.
    - assert (~ is_digest c) as Hc by (unfold is_digest; by rewrite E).
      destruct (IH (i + 1)%Z ltac:(lia)) as [[H1 H2]|[H|(a & d & b & -> & H1 & H2 & H3 & H4)]].
      + left. split; [by constructor|done].
      + by right; left.
      + right; right. exists (c :: a), d, b. split_and!; [done..|by constructor|done|]. rewrite H4. cbn [length]. lia. }
  destruct (H 0%Z ltac:(lia)) as [[H1 ->]|[->|(a & c & b & E & H1 & H2 & H3 & ->)]]; [by constructor|constructor|].
  by econstructor.
Qed.
Lemma isParametersDigestValid_total sha256 w :
  findParametersDigestComponent (wi_name w) <> (-2)%Z -> exists v, isParametersDigestValid sha256 w = Some v.
Proof.
  intros H. unfold isParametersDigestValid. destruct (findDigest_view (wi_name w)) as [|a c b E|]; [by eexists| |done].
  rewrite (proj2 (Z.eqb_neq _ _)), (proj2 (Z.ltb_ge _ _)) by lia. destruct (negb _); [by eexists|].
  rewrite Nat2Z.id, E, list_lookup_middle by done. by eexists.
Qed.

(** ** Decoding does not depend on the object *)

Lemma wireDecode_unfold sha256 ac wire :
  exists r : (Exception * bool) + (Name * list Block), (forall w0, Interest_wireDecode sha256 ac wire w0 =
    match r with
    | inl (e, moved) => Some (inl e, if moved then with_wire (Some wire) w0 else w0)
    | inr (name, elements) => (interest_decode_elements elements 1 ≫= fun _ => checkParametersDigest sha256 ac)
        (mkWireInterest name false false DelegationList_empty None DEFAULT_INTEREST_LIFETIME None [] (Some wire))
    end) /\
  match r with
  | inl _ => True
  | inr (name, elements) => name <> [] /\ findParametersDigestComponent name <> (-2)%Z
  end.
Proof.
  unfold Interest_wireDecode. destruct (b_type wire =? TLV_Interest); [|by exists (inl (TlvError (UnexpectedType (b_type wire)), false))].
  destruct (Block_parse (b_value wire)) as [e|[|e elements]]; [by exists (inl (TlvError e, true))|by exists (inl (TlvError (InvalidValue TLV_Interest), true))|].
  run_im. destruct (b_type e =? TLV_Name); [|by exists (inl (TlvError (InvalidValue TLV_Interest), true))].
  destruct (Name_wireDecode e) as [err|[|c n]]; [by exists (inl (TlvError err, true))|by exists (inl (TlvError (InvalidValue TLV_Name), true))|].
  destruct (findParametersDigestComponent (c :: n) =? -2)%Z eqn:Ed.
  - exists (inl (TlvError (InvalidValue TLV_Name), true)). split; [|done]. intros w0. run_im. first [done|by rewrite Ed].
  - exists (inr (c :: n, elements)). split; [|by apply Z.eqb_neq in Ed]. intros w0. run_im. first [done|by rewrite Ed].
Qed.
Lemma wireDecode_indep sha256 ac wire w w' w0 :
  Interest_wireDecode sha256 ac wire w = Some (inr tt, w') -> Interest_wireDecode sha256 ac wire w0 = Some (inr tt, w').
Proof. destruct (wireDecode_unfold sha256 ac wire) as ([[e m]|[n l]] & H & _); rewrite !H; [done|auto]. Qed.

(** ** What is encoded is decoded *)

(** What may follow the application parameters. *)
Definition extra_parameter (b : Block) : Prop :=
  isCriticalType (b_type b) = false /\ b_type b <> TLV_HopLimit /\ b_type b <> TLV_ApplicationParameters.
Definition parameters_wf (l : list Block) : Prop :=
  Forall block_wf l /\ match l with [] => True | p :: l => b_type p = TLV_ApplicationParameters /\ Forall extra_parameter l end.
Definition hint_encodable (dl : DelegationList) : Prop := dl = DelegationList_empty \/ (dl_dels dl <> [] /\ hint_wf dl).

Record interest_wf (sha256 : list byte -> list byte) (w : WireInterest) : Prop := {
  iw_name : wi_name w <> [] /\ name_wf (wi_name w);
  iw_hint : hint_encodable (wi_forwardingHint w);
  iw_nonce : forall n, wi_nonce w = Some n -> length n = 4%nat;
  iw_lifetime : (- 2 ^ 63 <= wi_lifetime w < 2 ^ 63)%Z;
  iw_parameters : parameters_wf (wi_parameters w);
  iw_digest : isParametersDigestValid sha256 w = Some true;
}.

Lemma decode_seg_app l1 l2 last w last' w' :
  interest_decode_elements l1 last w = Some (inr last', w') ->
  interest_decode_elements (l1 ++ l2) last w = interest_decode_elements l2 last' w'.
Proof.
  revert last w. induction l1 as [|e l1 IH]; intros last w; [by intros [= <- <-]|]. cbn [app interest_decode_elements]. run_im.
  destruct (interest_element last e w) as [[[err|n] w1]|]; [done| |done]. apply IH.
Qed.

(** Parameters after the first. *)
Lemma interest_extra l : forall p params w,
  Forall extra_parameter l -> wi_parameters w = p :: params ->
  interest_decode_elements l 8 w = Some (inr 8, with_parameters (p :: params ++ l) w).
Proof.
  induction l as [|b l IH]; intros p params w Hl Hw.
  { rewrite app_nil_r, <- Hw. by destruct w. }
  apply Forall_cons in Hl as [(H1 & H2 & H3) Hl].
  assert (forall t, t <= 31 \/ t = TLV_CanBePrefix -> b_type b <> t) as Hne.
  { intros t Ht E. rewrite E in H1. destruct Ht as [Ht| ->]; [|done]. unfold isCriticalType in H1. by rewrite (proj2 (N.leb_le _ _) Ht) in H1. }
  cbn [interest_decode_elements]. unfold interest_element. cbv zeta.
  rewrite (proj2 (N.eqb_neq _ _) (Hne TLV_CanBePrefix ltac:(by right))).
  rewrite (proj2 (N.eqb_neq _ _) (Hne TLV_MustBeFresh ltac:(by left))), (proj2 (N.eqb_neq _ _) (Hne TLV_ForwardingHint ltac:(by left))).
  rewrite (proj2 (N.eqb_neq _ _) (Hne TLV_Nonce ltac:(by left))), (proj2 (N.eqb_neq _ _) (Hne TLV_InterestLifetime ltac:(by left))).
  rewrite (proj2 (N.eqb_neq _ _) H2), (proj2 (N.eqb_neq _ _) H3), H1. run_im. cbn [get]. unfold hasApplicationParameters. rewrite Hw.
  rewrite (IH p (params ++ [b])); [|done|done]. by rewrite <- app_assoc.
Qed.

(** Each optional element leaves the index below that of the next. *)
Definition decodes_to (l : list Block) (w w' : WireInterest) (k : N) : Prop :=
  forall last, last < k -> exists last', last' < k + 1 /\ interest_decode_elements l last w = Some (inr last', w').
Lemma decodes_nil w k : decodes_to [] w w k.
Proof. intros last Hl. exists last. split; [lia|done]. Qed.
Lemma decodes_canBePrefix w : decodes_to [makeEmptyBlock TLV_CanBePrefix] w (with_canBePrefix true w) 2.
Proof. intros last Hl. exists 2. split; [done|]. cbn. unfold interest_element. cbn. by rewrite (proj2 (N.leb_gt _ _)). Qed.
Lemma decodes_mustBeFresh w : decodes_to [makeEmptyBlock TLV_MustBeFresh] w (with_mustBeFresh true w) 3.
Proof. intros last Hl. exists 3. split; [done|]. cbn. unfold interest_element. cbn. by rewrite (proj2 (N.leb_gt _ _)). Qed.
Lemma decodes_hint dl w : hint_encodable dl -> wi_forwardingHint w = DelegationList_empty -> decodes_to (hint_elements dl) w (with_forwardingHint dl w) 4.
Proof.
  intros [->|[Hne Hwf]] Hw; unfold hint_elements.
  - replace (with_forwardingHint _ w) with w; [apply decodes_nil|]. rewrite <- Hw. by destruct w.
  - assert (match dl_dels dl with [] => [] | _ => [DelegationList_wireEncode TLV_ForwardingHint dl] end = [DelegationList_wireEncode TLV_ForwardingHint dl]) as -> by (by destruct (dl_dels dl)).
    intros last Hl. exists 4. split; [done|]. cbn [interest_decode_elements]. unfold interest_element. cbv zeta.
    change (b_type (DelegationList_wireEncode TLV_ForwardingHint dl)) with TLV_ForwardingHint.
    cbn [TLV_CanBePrefix TLV_MustBeFresh TLV_ForwardingHint N.eqb Pos.eqb]. rewrite (proj2 (N.leb_gt _ _)) by done. run_im. cbn [get].
    by rewrite DelegationList_decode.
Qed.
Lemma decodes_nonce n w : length n = 4%nat -> decodes_to [makeBinaryBlock TLV_Nonce n] w (with_nonce (Some n) w) 5.
Proof. intros Hn last Hl. exists 5. split; [done|]. cbn. unfold interest_element. cbn. by rewrite (proj2 (N.leb_gt _ _)), Hn. Qed.
Lemma decodes_lifetime t w :
  (- 2 ^ 63 <= t < 2 ^ 63)%Z -> wi_lifetime w = DEFAULT_INTEREST_LIFETIME ->
  decodes_to (if (t =? DEFAULT_INTEREST_LIFETIME)%Z then [] else [makeNonNegativeIntegerBlock TLV_InterestLifetime (to_uint64 t)]) w (with_lifetime t w) 6.
Proof.
  intros Ht Hw. destruct (Z.eqb_spec t DEFAULT_INTEREST_LIFETIME) as [->|_].
  { replace (with_lifetime _ w) with w; [apply decodes_nil|]. rewrite <- Hw. by destruct w. }
  intros last Hl. exists 6. split; [done|]. cbn [interest_decode_elements]. unfold interest_element. cbv zeta.
  rewrite block_readNonNegativeInteger_ok by apply to_uint64_bound. cbn [makeNonNegativeIntegerBlock makeBinaryBlock b_type].
  cbn [TLV_CanBePrefix TLV_MustBeFresh TLV_ForwardingHint TLV_Nonce TLV_InterestLifetime N.eqb Pos.eqb]. rewrite (proj2 (N.leb_gt _ _)) by done. run_im.
  by rewrite to_int64_mod.
Qed.
Lemma decodes_hopLimit h w : decodes_to [makeBinaryBlock TLV_HopLimit [h]] w (with_hopLimit (Some h) w) 7.
Proof. intros last Hl. exists 7. split; [done|]. cbn. unfold interest_element. cbn. by rewrite (proj2 (N.leb_gt _ _)). Qed.
Lemma decodes_parameters l w : parameters_wf l -> wi_parameters w = [] -> decodes_to l w (with_parameters l w) 8.
Proof.
  intros [_ Hl] Hw. destruct l as [|p l].
  { replace (with_parameters _ w) with w; [apply decodes_nil|]. rewrite <- Hw. by destruct w. }
  destruct Hl as [Ht Hex]. intros last Hl. exists 8. split; [done|]. cbn [interest_decode_elements]. unfold interest_element. cbv zeta. rewrite Ht.
  cbn [TLV_CanBePrefix TLV_MustBeFresh TLV_ForwardingHint TLV_Nonce TLV_InterestLifetime TLV_HopLimit TLV_ApplicationParameters N.eqb Pos.eqb].
  rewrite (proj2 (N.leb_gt _ _)) by done. run_im. cbn [get]. unfold assert, hasApplicationParameters. rewrite Hw. cbn [negb app].
  by rewrite (interest_extra l p []).
Qed.
Lemma decodes_step l1 l2 w w' w'' last k :
  decodes_to l1 w w' k -> last < k -> (forall last', last' < k + 1 -> exists r, interest_decode_elements l2 last' w' = Some (inr r, w'')) ->
  exists r, interest_decode_elements (l1 ++ l2) last w = Some (inr r, w'').
Proof. intros H Hl H2. destruct (H last Hl) as (last' & Hl' & E). rewrite (decode_seg_app _ _ _ _ _ _ E). by apply H2. Qed.

Lemma interest_elements_decode sha256 w wire :
  interest_wf sha256 w ->
  exists r, interest_decode_elements (drop 1 (interest_elements w)) 1
    (mkWireInterest (wi_name w) false false DelegationList_empty None DEFAULT_INTEREST_LIFETIME None [] (Some wire)) = Some (inr r, with_wire (Some wire) w).
Proof.
  intros [_ Hhint Hnonce Hlt Hp _]. unfold interest_elements. cbn [app drop]. rewrite drop_0.
  destruct w as [name cbp mbf hint nonce lt hop params w0]. cbn in Hhint, Hnonce, Hlt, Hp. cbn [wi_name wi_canBePrefix wi_mustBeFresh wi_forwardingHint wi_nonce wi_lifetime wi_hopLimit wi_parameters].
  eapply (decodes_step _ _ _ (mkWireInterest name cbp false DelegationList_empty None DEFAULT_INTEREST_LIFETIME None [] (Some wire)) _ _ 2);
    [destruct cbp; [apply decodes_canBePrefix|apply decodes_nil]|done|intros l1 Hl1].
  eapply (decodes_step _ _ _ (mkWireInterest name cbp mbf DelegationList_empty None DEFAULT_INTEREST_LIFETIME None [] (Some wire)) _ _ 3);
    [destruct mbf; [apply decodes_mustBeFresh|apply decodes_nil]|done|intros l2 Hl2].
  eapply (decodes_step _ _ _ _ _ _ 4); [by apply decodes_hint|done|intros l3 Hl3].
  eapply (decodes_step _ _ _ (mkWireInterest name cbp mbf hint nonce DEFAULT_INTEREST_LIFETIME None [] (Some wire)) _ _ 5);
    [destruct nonce; [by apply decodes_nonce, Hnonce|apply decodes_nil]|done|intros l4 Hl4].
  eapply (decodes_step _ _ _ _ _ _ 6); [by apply decodes_lifetime|done|intros l5 Hl5].
  eapply (decodes_step _ _ _ (mkWireInterest name cbp mbf hint nonce lt hop [] (Some wire)) _ _ 7);
    [destruct hop; [apply decodes_hopLimit|apply decodes_nil]|done|intros l6 Hl6].
  destruct (decodes_parameters params (mkWireInterest name cbp mbf hint nonce lt hop [] (Some wire)) Hp eq_refl l6 Hl6) as (r & _ & E). by exists r.
Qed.

Lemma interest_elements_wf sha256 w : interest_wf sha256 w -> Forall block_wf (interest_elements w).
Proof.
  intros [[_ Hn] Hhint Hnonce _ [Hp _] _]. unfold interest_elements. repeat (apply Forall_app; split); try done.
  - apply Forall_singleton. by apply block_ok_wf, name_block_ok.
  - destruct (wi_canBePrefix w); [|done]. apply Forall_singleton. by apply block_ok_wf, makeBinaryBlock_ok.
  - destruct (wi_mustBeFresh w); [|done]. apply Forall_singleton. by apply block_ok_wf, makeBinaryBlock_ok.
  - unfold hint_elements. destruct Hhint as [->|[_ (_ & _ & _ & Hs)]]; [done|]. destruct (dl_dels _); [done|].
    apply Forall_singleton. by apply block_ok_wf, makeBinaryBlock_ok.
  - destruct (wi_nonce w); [|done]. apply Forall_singleton. apply block_ok_wf, makeBinaryBlock_ok; [done|]. by rewrite (Hnonce _ eq_refl).
  - destruct (_ =? _)%Z; [done|]. apply Forall_singleton. by apply block_ok_wf, number_block_ok.
  - destruct (wi_hopLimit w); [|done]. apply Forall_singleton. by apply block_ok_wf, makeBinaryBlock_ok.
Qed.

Lemma interest_wf_digest sha256 w :
  interest_wf sha256 w -> findParametersDigestComponent (wi_name w) <> (-2)%Z /\
    (findParametersDigestComponent (wi_name w) =? -1)%Z = negb (hasApplicationParameters w).
Proof.
  intros [_ _ _ _ _ Hv]. revert Hv. unfold isParametersDigestValid. destruct (findDigest_view (wi_name w)) as [|a c b E|]; [..|done].
  - by intros [= ->].
  - rewrite (proj2 (Z.eqb_neq _ _)) by lia. rewrite (proj2 (Z.ltb_ge _ _)) by lia. intros Hv. split; [lia|]. by destruct (hasApplicationParameters w).
Qed.

(** What the sender encodes, its receiver decodes. *)
Lemma interest_roundtrip_ok sha256 ac fresh w :
  let w1 := match wi_nonce w with Some _ => w | None => with_nonce (Some fresh) w end in
  let wire := makeBinaryBlock TLV_Interest (mjoin (b_wire <$> interest_elements w1)) in
  interest_wf sha256 w -> wi_wire w = None -> length fresh = 4%nat -> N.of_nat (length (b_value wire)) < 2 ^ 64 ->
  Interest_wireEncode sha256 ac fresh w = Some (inr wire, with_wire (Some wire) w1) /\
  Block_fromBuffer (b_wire wire) = Some wire /\
  forall w0, Interest_wireDecode sha256 ac wire w0 = Some (inr tt, with_wire (Some wire) w1).
Proof.
  intros w1 wire Hw Hnone Hf Hsize.
  assert (interest_wf sha256 w1) as Hw1.
  { unfold w1. destruct (wi_nonce w) eqn:En; [done|]. destruct Hw as [H1 H2 H3 H4 H5 H6]. split; try done. by intros n [= <-]. }
  assert (forall w0, Interest_wireDecode sha256 ac wire w0 = Some (inr tt, with_wire (Some wire) w1)) as Hd.
  { intros w0. unfold Interest_wireDecode. change (b_type wire) with TLV_Interest. rewrite N.eqb_refl.
    change (b_value wire) with (mjoin (b_wire <$> interest_elements w1)).
    rewrite Block_parse_wires by (by eapply interest_elements_wf). run_im.
    destruct (interest_elements_decode _ _ wire Hw1) as [r Hr]. destruct (interest_wf_digest _ _ Hw1) as [Hd _].
    destruct Hw1 as [[Hne Hn] _ _ _ _ Hv]. assert (interest_elements w1 = name_block (wi_name w1) :: drop 1 (interest_elements w1)) as -> by done.
    change (b_type (name_block (wi_name w1))) with TLV_Name. rewrite N.eqb_refl, Name_wireDecode_block by done.
    rewrite (proj2 (Z.eqb_neq _ _)) by done. destruct (wi_name w1) eqn:En; [done|]. cbn [negb wi_wire with_wire]. rewrite Hr.
    unfold checkParametersDigest. destruct ac; [|done]. run_im. cbn [get].
    assert (isParametersDigestValid sha256 (with_wire (Some wire) w1) = isParametersDigestValid sha256 w1) as -> by done. by rewrite Hv. }
  split_and!; [|apply fromBuffer_read; rewrite <- (app_nil_r (b_wire wire)); by apply Block_read_wire, makeBinaryBlock_ok|done].
  unfold Interest_wireEncode, Interest_encode. run_im. cbn [get]. rewrite Hnone. cbn [get].
  destruct (interest_wf_digest _ _ Hw) as [Hd1 Hd2]. unfold assert. rewrite Hd2, (proj2 (Z.eqb_neq _ _)) by done. cbn [negb].
  assert (getNonce fresh w = Some (inr (default fresh (wi_nonce w)), w1)) as En.
  { unfold getNonce, w1. run_im. cbn [get]. destruct (wi_nonce w); [done|]. cbn. unfold with_wire, with_nonce. cbn. by rewrite Hnone. }
  destruct (hasApplicationParameters w); cbn [negb andb]; rewrite En; cbn [get]; fold wire; by rewrite Hd.
Qed.

(** C17: An Interest survives the wire. One that is well-formed (a name, a nonce of four bytes,
    parameters under their digest, elements short enough) and has no wire yet is encoded,
    with a nonce drawn if it had none; the bytes read as one element, from which any receiver
    decodes that same Interest, whatever its object held before. *)
Theorem interest_roundtrip sha256 autoCheck fresh w :
  let w1 := match wi_nonce w with Some _ => w | None => with_nonce (Some fresh) w end in
  let wire := makeBinaryBlock TLV_Interest (mjoin (b_wire <$> interest_elements w1)) in
  interest_wf sha256 w -> wi_wire w = None -> length fresh = 4%nat -> N.of_nat (length (b_value wire)) < 2 ^ 64 ->
  Interest_wireEncode sha256 autoCheck fresh w = Some (inr wire, with_wire (Some wire) w1) /\
  Block_fromBuffer (b_wire wire) = Some wire /\
  forall w0, Interest_wireDecode sha256 autoCheck wire w0 = Some (inr tt, with_wire (Some wire) w1).
Proof. apply interest_roundtrip_ok. Qed.

(** A name, a hop limit, a lifetime and parameters, under a digest of zeros. *)
Definition zero_digest (l : list byte) : list byte := replicate DIGEST_SIZE x00.
Definition sample_wire_interest : WireInterest :=
  mkWireInterest [ascii_component "a"; mkComponent ParametersSha256DigestComponent (replicate DIGEST_SIZE x00)] true false
    DelegationList_empty None 1000 (Some x07) [makeBinaryBlock TLV_ApplicationParameters [x01; x02]] None.
Lemma interest_roundtrip_witness :
  let w1 := with_nonce (Some [x01; x02; x03; x04]) sample_wire_interest in
  let wire := makeBinaryBlock TLV_Interest (mjoin (b_wire <$> interest_elements w1)) in
  Interest_wireEncode zero_digest true [x01; x02; x03; x04] sample_wire_interest = Some (inr wire, with_wire (Some wire) w1).
Proof.
  apply (interest_roundtrip zero_digest true [x01; x02; x03; x04] sample_wire_interest); [|done..].
  split; [split; [done|split; [|done]]|by left|done|done|split; [|done]|done].
  - by repeat constructor.
  - apply Forall_singleton. by apply block_ok_wf, makeBinaryBlock_ok.
Defined.
