(* ===== verification/InterestObject.v ===== *)
(** * The Interest object (ndn-cxx interest.cpp)

    Every operation of the class on an object in a good state: fields in the range of their
    types, at most one digest component in the name, parameters under their digest, and a
    kept wire that decodes to the very object. Where an exception can leave the object in a
    worse state, examples show it. *)

From S2P Require Import Prelude Tlv ObjectMonad Name Packet Block LpPacket NameWire SignatureWire InterestWire.

Local Open Scope N_scope.

(** ** What decoding yields *)

(** Parameters begin with the ApplicationParameters element. *)
Definition parameters_shape (l : list Block) : Prop := match l with [] => True | p :: _ => b_type p = TLV_ApplicationParameters end.
(** Fields in the range of their types. *)
Record fields_ok (w : WireInterest) : Prop := {
  fo_params : parameters_shape (wi_parameters w);
  fo_hint : dl_ok (wi_forwardingHint w);
  fo_nonce : forall n, wi_nonce w = Some n -> length n = 4%nat;
  fo_lifetime : (- 2 ^ 63 <= wi_lifetime w < 2 ^ 63)%Z;
}.
(** While elements are decoded: no parameters before their element is met. *)
Definition decoding (lastElement : N) (w : WireInterest) : Prop := fields_ok w /\ (lastElement < 8 -> wi_parameters w = []).

Lemma interest_element_ok last e w :
  decoding last w ->
  exists r w', interest_element last e w = Some (r, w') /\ wi_name w' = wi_name w /\ wi_wire w' = wi_wire w /\
    match r with inr last' => decoding last' w' | inl _ => True end.
Proof.
  intros [Hw Hp]. assert (forall t : Exception, exists r w', Some (inl t, w) = Some (r, w') /\ wi_name w' = wi_name w /\ wi_wire w' = wi_wire w /\
    match r : Exception + N with inr last' => decoding last' w' | inl _ => True end) as Hthrow by (intros t; by eexists _, _).
  assert (exists r w', Some (inr last, w) = Some (r, w') /\ wi_name w' = wi_name w /\ wi_wire w' = wi_wire w /\
    match r : Exception + N with inr last' => decoding last' w' | inl _ => True end) as Hsame by (by eexists _, _).
  assert (forall n w', wi_name w' = wi_name w -> wi_wire w' = wi_wire w -> fields_ok w' -> (n < 8 -> wi_parameters w' = []) ->
    exists r w'', Some (inr n, w') = Some (r, w'') /\ wi_name w'' = wi_name w /\ wi_wire w'' = wi_wire w /\
    match r : Exception + N with inr last' => decoding last' w'' | inl _ => True end) as Hset by (intros; by eexists _, _).
  destruct Hw as [H1 H2 H3 H4]. unfold interest_element. cbv zeta.
  destruct (b_type e =? TLV_CanBePrefix).
  { destruct (N.leb_spec 2 last); [apply Hthrow|]. destruct (b_value e); [|apply Hthrow]. run_im. apply Hset; [done..|]. intros _. apply Hp. lia. }
  destruct (b_type e =? TLV_MustBeFresh).
  { destruct (N.leb_spec 3 last); [apply Hthrow|]. destruct (b_value e); [|apply Hthrow]. run_im. apply Hset; [done..|]. intros _. apply Hp. lia. }
  destruct (b_type e =? TLV_ForwardingHint).
  { destruct (N.leb_spec 4 last); [apply Hthrow|]. run_im. cbn [get].
    destruct (DelegationList_wireDecode true e (wi_forwardingHint w)) as [[err|] dl] eqn:E; cbn.
    - by eexists _, _.
    - apply Hset; [done..| |intros _; apply Hp; lia]. split; [done| |done..]. simpl. pose proof (DelegationList_wireDecode_ok true e _ H2) as Hd. by rewrite E in Hd. }
  destruct (b_type e =? TLV_Nonce).
  { destruct (N.leb_spec 5 last); [apply Hthrow|]. destruct (Nat.eqb_spec (length (b_value e)) 4); [|apply Hthrow]. run_im.
    apply Hset; [done..| |intros _; apply Hp; lia]. split; [done..| |done]. by intros n [= <-]. }
  destruct (b_type e =? TLV_InterestLifetime).
  { destruct (N.leb_spec 6 last); [apply Hthrow|]. destruct (block_readNonNegativeInteger e) as [err|n]; [apply Hthrow|]. run_im.
    apply Hset; [done..| |intros _; apply Hp; lia]. split; [done..|]. apply to_int64_range. }
  destruct (b_type e =? TLV_HopLimit).
  { destruct (N.leb_spec 7 last); [apply Hsame|]. destruct (b_value e) as [|h [|]]; [apply Hthrow| |apply Hthrow]. run_im.
    apply Hset; [done..|]. intros _. apply Hp. lia. }
  destruct (N.eqb_spec (b_type e) TLV_ApplicationParameters) as [Et|].
  { destruct (N.leb_spec 8 last); [apply Hsame|]. run_im. unfold assert, hasApplicationParameters. cbn [get]. rewrite (Hp ltac:(lia)). cbn.
    apply Hset; [done..| |done]. split; [|done..]. done. }
  destruct (isCriticalType _); [apply Hthrow|]. run_im. cbn [get]. unfold hasApplicationParameters. destruct (wi_parameters w) as [|p l] eqn:El; [apply Hsame|].
  apply Hset; [done..| |]; [split; [|done..]; done|]. intros Hl. by specialize (Hp Hl).
Qed.
Lemma interest_decode_elements_ok l : forall last w,
  decoding last w ->
  exists r w', interest_decode_elements l last w = Some (r, w') /\ wi_name w' = wi_name w /\ wi_wire w' = wi_wire w /\
    match r with inr last' => fields_ok w' | inl _ => True end.
Proof.
  induction l as [|e l IH]; intros last w Hw; [exists (inr last), w; split_and!; [done..|apply Hw]|]. cbn [interest_decode_elements].
  destruct (interest_element_ok last e w Hw) as (r & w1 & E & Hn & Hb & Hr). run_im. rewrite E. destruct r as [err|last']; [by exists (inl err), w1|].
  destruct (IH last' w1 Hr) as (r & w2 & -> & Hn2 & Hb2 & Hr2). exists r, w2. split_and!; [done|congruence..|done].
Qed.

Section coherence.
Context (sha256 : list byte -> list byte) (autoCheck : bool).

Record interest_ok (w : WireInterest) : Prop := {
  io_fields : fields_ok w;
  io_digest : findParametersDigestComponent (wi_name w) <> (-2)%Z;
  io_valid : autoCheck = true -> wi_parameters w <> [] -> isParametersDigestValid sha256 w = Some true;
  io_wire : forall b, wi_wire w = Some b -> forall w0, Interest_wireDecode sha256 autoCheck b w0 = Some (inr tt, w);
}.

Lemma Interest_default_ok : interest_ok Interest_default.
Proof. split; [split|..]; by auto. Qed.

(** Decoding fails no assertion, and what it accepts is well-formed. *)
Lemma wireDecode_ok wire w :
  exists r w', Interest_wireDecode sha256 autoCheck wire w = Some (r, w') /\ match r with inr _ => interest_ok w' /\ wi_wire w' = Some wire | inl _ => True end.
Proof.
  destruct (wireDecode_unfold sha256 autoCheck wire) as ([[e m]|[n l]] & H & Hn); [eexists _, _; by rewrite H|].
  destruct Hn as [_ Hn]. pose proof (H w) as Hw.
  destruct (interest_decode_elements_ok l 1 (mkWireInterest n false false DelegationList_empty None DEFAULT_INTEREST_LIFETIME None [] (Some wire)))
    as (r & w' & E & En & Eb & Hr); [split; [split|]; by auto|].
  cbn in En, Eb. destruct r as [e|last].
  { exists (inl e), w'. split; [|done]. rewrite Hw. unfold mbind, OM_bind. by rewrite E. }
  assert (Interest_wireDecode sha256 autoCheck wire w = checkParametersDigest sha256 autoCheck w') as Hc.
  { rewrite Hw. unfold mbind, OM_bind. by rewrite E. }
  assert (forall r, checkParametersDigest sha256 autoCheck w' = Some (r, w') -> (autoCheck = true -> r = inr tt -> isParametersDigestValid sha256 w' = Some true) ->
    exists r w', Interest_wireDecode sha256 autoCheck wire w = Some (r, w') /\ match r with inr _ => interest_ok w' /\ wi_wire w' = Some wire | inl _ => True end) as Hgo.
  { intros r Er Hv. exists r, w'. split; [by rewrite Hc|]. destruct r as [|[]]; [done|]. split; [|done]. split; [done|by rewrite En| |].
    - intros Hac _. by apply Hv.
    - intros b Hb w0. rewrite Eb in Hb. injection Hb as <-. apply (wireDecode_indep _ _ _ w). by rewrite Hc. }
  revert Hgo. clear Hc. unfold checkParametersDigest. destruct autoCheck; [|intros Hgo; by apply (Hgo (inr tt))].
  destruct (isParametersDigestValid_total sha256 w') as [v Hv]; [by rewrite En|]. run_im. cbn [get]. rewrite Hv. intros Hgo.
  destruct v; cbn [negb] in Hgo; [by apply (Hgo (inr tt))|]. by eapply Hgo.
Qed.
End coherence.

(** ** Operations *)

Inductive InterestOp :=
  | OpSetName (name : Name)
  | OpSetCanBePrefix (b : bool)
  | OpSetMustBeFresh (b : bool)
  | OpSetForwardingHint (dl : DelegationList)
  | OpInsertDelegation (d : Delegation) (r : InsertConflictResolution)
  | OpGetNonce (fresh : list byte)
  | OpSetNonce (nonce : option (list byte))
  | OpRefreshNonce (draws : list (list byte))
  | OpSetInterestLifetime (lifetime : Z)
  | OpSetHopLimit (hopLimit : option byte)
  | OpSetApplicationParameters (parameters : Block)
  | OpSetApplicationParametersBytes (value : option (list byte))
  | OpUnsetApplicationParameters
  | OpSetSignatureInfo (info : SignatureInfo)
  | OpSetSignatureValue (value : option (list byte))
  | OpWireEncode (fresh : list byte)
  | OpWireDecode (wire : Block).

(** Arguments that have their C++ types; the generator of nonces does not repeat one for ever. *)
Definition op_typed (op : InterestOp) : Prop :=
  match op with
  | OpSetForwardingHint dl => dl_ok dl
  | OpGetNonce fresh | OpWireEncode fresh => length fresh = 4%nat
  | OpSetNonce nonce => forall n, nonce = Some n -> length n = 4%nat
  | OpRefreshNonce draws => Forall (fun n => length n = 4%nat) draws /\ exists m n, m ∈ draws /\ n ∈ draws /\ m <> n
  | OpSetInterestLifetime lifetime => (- 2 ^ 63 <= lifetime < 2 ^ 63)%Z
  | _ => True
  end.
(** The operations that may throw after they have changed the object. *)
Definition partial_on_throw (op : InterestOp) : bool :=
  match op with OpSetSignatureInfo _ | OpWireEncode _ | OpWireDecode _ => true | _ => false end.

Section operations.
Context (sha256 : list byte -> list byte) (autoCheck : bool).
Hypothesis Hlen : forall l, length (sha256 l) = DIGEST_SIZE.

Definition run_op (op : InterestOp) : IM unit :=
  match op with
  | OpSetName name => setName sha256 name
  | OpSetCanBePrefix b => setCanBePrefix b
  | OpSetMustBeFresh b => setMustBeFresh b
  | OpSetForwardingHint dl => setForwardingHint dl
  | OpInsertDelegation d r => modifyForwardingHint (fun dl => (DelegationList_insert d r dl).2)
  | OpGetNonce fresh => getNonce fresh;; mret tt
  | OpSetNonce nonce => setNonce nonce
  | OpRefreshNonce draws => refreshNonce draws
  | OpSetInterestLifetime lifetime => setInterestLifetime lifetime
  | OpSetHopLimit hopLimit => setHopLimit hopLimit
  | OpSetApplicationParameters parameters => setApplicationParameters sha256 parameters
  | OpSetApplicationParametersBytes value => setApplicationParameters_bytes sha256 value
  | OpUnsetApplicationParameters => unsetApplicationParameters
  | OpSetSignatureInfo info => interest_setSignatureInfo sha256 info;; mret tt
  | OpSetSignatureValue value => interest_setSignatureValue sha256 value
  | OpWireEncode fresh => Interest_wireEncode sha256 autoCheck fresh;; mret tt
  | OpWireDecode wire => Interest_wireDecode sha256 autoCheck wire
  end.

(** The object without its wire. *)
Record fieldwise_ok (w : WireInterest) : Prop := {
  fw_fields : fields_ok w;
  fw_digest : findParametersDigestComponent (wi_name w) <> (-2)%Z;
  fw_valid : autoCheck = true -> wi_parameters w <> [] -> isParametersDigestValid sha256 w = Some true;
}.
Lemma reset_ok w : fieldwise_ok w -> interest_ok sha256 autoCheck (with_wire None w).
Proof. intros [[]]. split; [split|..]; done. Qed.
Lemma ok_fieldwise w : interest_ok sha256 autoCheck w -> fieldwise_ok w.
Proof. by intros []. Qed.

(** The outcome that the theorem asks of an operation. *)
Definition good_outcome (may_break : bool) (w : WireInterest) (o : option ((Exception + unit) * WireInterest)) : Prop :=
  exists r w', o = Some (r, w') /\ match r with inr _ => interest_ok sha256 autoCheck w' | inl _ => w' = w \/ may_break = true end.
Lemma good_same b w : interest_ok sha256 autoCheck w -> good_outcome b w (Some (inr tt, w)).
Proof. intros. by exists (inr tt), w. Qed.
Lemma good_throw b w e : good_outcome b w (Some (inl e, w)).
Proof. exists (inl e), w. auto. Qed.
Lemma good_reset b w w' : fieldwise_ok w' -> good_outcome b w (resetWire w').
Proof. intros. exists (inr tt), (with_wire None w'). split; [done|]. by apply reset_ok. Qed.

(** The digest brought up to date. *)
Lemma digest_component_ok w :
  let d := mkComponent ParametersSha256DigestComponent (computeParametersDigest sha256 w) in is_digest d /\ ensureValid d = true.
Proof using Hlen.
  unfold is_digest, isParametersSha256Digest, ensureValid, computeParametersDigest, isSha256Type. cbn [c_type c_value]. rewrite Hlen. done.
Qed.
Lemma valid_at_index w a d b :
  wi_parameters w <> [] -> wi_name w = a ++ d :: b -> is_digest d -> c_value d = computeParametersDigest sha256 w ->
  Forall (fun c => ~ is_digest c) a -> Forall (fun c => ~ is_digest c) b ->
  findParametersDigestComponent (wi_name w) <> (-2)%Z /\ isParametersDigestValid sha256 w = Some true.
Proof.
  intros Hp En Hd Hv Ha Hb. unfold isParametersDigestValid. rewrite En, findDigest_one by done. split; [lia|].
  rewrite (proj2 (Z.eqb_neq _ _)), (proj2 (Z.ltb_ge _ _)) by lia. unfold hasApplicationParameters. destruct (wi_parameters w) eqn:Ep; [done|].
  cbn [negb]. rewrite Nat2Z.id, list_lookup_middle by done. by rewrite bool_decide_true.
Qed.
Lemma addOrReplace_ok w :
  wi_parameters w <> [] -> findParametersDigestComponent (wi_name w) <> (-2)%Z ->
  exists n, addOrReplaceParametersDigestComponent sha256 w = Some (inr tt, with_name n w) /\
    findParametersDigestComponent n <> (-2)%Z /\ isParametersDigestValid sha256 (with_name n w) = Some true.
Proof using Hlen.
  intros Hp Hn. unfold addOrReplaceParametersDigestComponent. run_im. cbn [get]. unfold assert.
  assert (hasApplicationParameters w = true) as -> by (unfold hasApplicationParameters; by destruct (wi_parameters w)).
  destruct (digest_component_ok w) as [Hd Hvd]. rewrite Hvd. cbn [negb]. set (d := mkComponent _ _) in *.
  destruct (findDigest_view (wi_name w)) as [Hno|a c b E Hc Ha Hb|]; [..|done].
  - cbn [Z.eqb Pos.eqb]. exists (append (wi_name w) [d]). split; [done|].
    by apply (valid_at_index (with_name (append (wi_name w) [d]) w) (wi_name w) d []).
  - rewrite (proj2 (Z.eqb_neq _ _)), (proj2 (Z.leb_le _ _)) by lia. rewrite Nat2Z.id, E.
    exists (a ++ d :: b). rewrite <- (Nat.add_0_r (length a)), insert_app_r. split; [done|].
    by apply (valid_at_index (with_name (a ++ d :: b) w) a d b).
Qed.
(** What follows a change of the parameters. *)
Lemma parameters_changed_ok b w w' :
  fields_ok w' -> wi_parameters w' <> [] -> findParametersDigestComponent (wi_name w') <> (-2)%Z ->
  good_outcome b w ((addOrReplaceParametersDigestComponent sha256;; resetWire) w').
Proof using Hlen.
  intros [] Hp Hn. destruct (addOrReplace_ok w' Hp Hn) as (n & E & Hn' & Hv). unfold mbind, OM_bind. rewrite E.
  apply good_reset. by split.
Qed.

Lemma setName_good n w : interest_ok sha256 autoCheck w -> good_outcome false w (setName sha256 n w).
Proof using Hlen.
  intros Hw. unfold setName. destruct (Z.eqb_spec (findParametersDigestComponent n) (-2)); [apply good_throw|]. run_im. cbn [get].
  destruct (Name_equals n (wi_name w)) eqn:En; cbn [negb]; [by apply good_same|]. cbn [modify].
  destruct Hw as [[] _ _ _]. destruct (hasApplicationParameters w) eqn:Ep; unfold hasApplicationParameters in Ep.
  - destruct (wi_parameters w) eqn:E; [done|]. apply (parameters_changed_ok false w (with_name n w)); [split; try done; cbn; by rewrite E|cbn; by rewrite E|done].
  - destruct (wi_parameters w) eqn:E; [|done]. apply good_reset. split; [split; try done; cbn; by rewrite E|done|]. cbn. by rewrite E.
Qed.
Lemma setApplicationParameters_good p w :
  b_type p = TLV_ApplicationParameters -> interest_ok sha256 autoCheck w ->
  good_outcome false w ((setApplicationParametersInternal p;; addOrReplaceParametersDigestComponent sha256;; resetWire) w).
Proof using Hlen.
  intros Ht [[Hs Hh Hn Hl] Hd _ _]. unfold setApplicationParametersInternal. run_im. cbn [get].
  destruct (wi_parameters w) as [|p0 l] eqn:E.
  - cbn [modify]. by apply (parameters_changed_ok false w (with_parameters [p] w)).
  - cbn in Hs. unfold assert. rewrite Hs, N.eqb_refl. cbn [modify]. by apply (parameters_changed_ok false w (with_parameters (p :: l) w)).
Qed.
Lemma unset_good w : interest_ok sha256 autoCheck w -> good_outcome false w (unsetApplicationParameters w).
Proof.
  intros [[] Hd _ _]. unfold unsetApplicationParameters. run_im. cbn [modify get]. change (wi_name (with_parameters [] w)) with (wi_name w).
  destruct (findDigest_view (wi_name w)) as [Hno|a c b E Hc Ha Hb|]; [..|done].
  - cbn [Z.leb Z.compare]. apply good_reset. split; [by split| |done]. unfold findParametersDigestComponent. cbn. by rewrite findDigest_none.
  - rewrite (proj2 (Z.leb_le _ _)) by lia. rewrite Nat2Z.id, E, delete_middle. cbn [modify].
    apply good_reset. split; [by split| |done]. unfold findParametersDigestComponent. cbn. rewrite findDigest_none; [done|]. by apply Forall_app.
Qed.
Lemma simple_reset_good b w f :
  interest_ok sha256 autoCheck w -> (forall v, wi_name (f v) = wi_name v /\ wi_parameters (f v) = wi_parameters v) ->
  dl_ok (wi_forwardingHint (f w)) -> (forall n, wi_nonce (f w) = Some n -> length n = 4%nat) -> (- 2 ^ 63 <= wi_lifetime (f w) < 2 ^ 63)%Z ->
  good_outcome b w ((modify f;; resetWire) w).
Proof.
  intros [[] Hd Hv _] Hf H1 H2 H3. destruct (Hf w) as [En Ep]. run_im. cbn [modify]. apply good_reset. split.
  - split; [by rewrite Ep|done..].
  - by rewrite En.
  - unfold isParametersDigestValid, hasApplicationParameters, computeParametersDigest in *. by rewrite En, Ep.
Qed.
Lemma setSignatureValue_good v w : interest_ok sha256 autoCheck w -> good_outcome false w (interest_setSignatureValue sha256 v w).
Proof using Hlen.
  intros Hw. unfold interest_setSignatureValue. destruct v as [v|]; [|apply good_throw]. run_im. cbn [get].
  destruct (findFirstParameter TLV_InterestSignatureInfo w) as [i|] eqn:Ei; [|apply good_throw].
  pose proof Hw as [[Hs Hh Hn Hl] Hd _ _]. unfold findFirstParameter in *. destruct (wi_parameters w) as [|p l] eqn:E; [done|]. cbn in Hs.
  destruct (find_type TLV_InterestSignatureValue (p :: l)) as [e|].
  - destruct (Block_equals _ _); [by apply good_same|]. cbn [modify replace_type insert_after]. rewrite Hs. cbn [N.eqb Pos.eqb].
    by apply (parameters_changed_ok false w (with_parameters (p :: _) w)).
  - cbn [modify insert_after]. rewrite Hs. cbn [N.eqb Pos.eqb]. by apply (parameters_changed_ok false w (with_parameters (p :: _) w)).
Qed.
Lemma setSignatureInfo_good i w : interest_ok sha256 autoCheck w -> good_outcome true w ((interest_setSignatureInfo sha256 i;; mret tt) w).
Proof using Hlen.
  intros Hw. unfold interest_setSignatureInfo. run_im. cbn [get].
  pose proof Hw as [[Hs Hh Hn Hl] Hd Hv _].
  assert (exists w1 p l, (match wi_parameters w with [] => modify (with_parameters [makeEmptyBlock TLV_ApplicationParameters]) | _ => mret tt end) w = Some (inr tt, w1)
    /\ wi_parameters w1 = p :: l /\ b_type p = TLV_ApplicationParameters /\ fields_ok w1 /\ wi_name w1 = wi_name w /\ (w1 = w \/ l = []))
    as (w1 & p & l & E & Ep & Ht & Hf & En & Hsame).
  { destruct (wi_parameters w) as [|p l] eqn:Ep.
    - exists (with_parameters [makeEmptyBlock TLV_ApplicationParameters] w), (makeEmptyBlock TLV_ApplicationParameters), []. split_and!; try done. by right.
    - exists w, p, l. split_and!; try done; [by split; [rewrite Ep|..]|by left]. }
  unfold modify, mret, OM_ret in E. rewrite E. destruct (SignatureInfo_wireEncode _ i) as [[e|enc] i']; [exists (inl (TlvError e)), w1; auto|].
  unfold findFirstParameter. rewrite Ep. cbn [replace_type insert_before]. unfold find_type. cbn [List.find]. rewrite Ht.
  cbn [TLV_ApplicationParameters TLV_InterestSignatureInfo TLV_InterestSignatureValue N.eqb Pos.eqb].
  assert (forall l', good_outcome true w ((addOrReplaceParametersDigestComponent sha256;; resetWire) (with_parameters (p :: l') w1))) as Hchange.
  { intros l'. destruct Hf. apply (parameters_changed_ok true w (with_parameters (p :: l') w1)); [by split|done|]. cbn. by rewrite En. }
  unfold mbind, OM_bind in Hchange. destruct (List.find _ l) as [e|] eqn:Ef.
  - destruct (Block_equals e enc).
    + destruct Hsame as [->| ->]; [by apply good_same|done].
    + destruct (Hchange (replace_type TLV_InterestSignatureInfo enc l)) as (r & w' & Eq & Hr). cbn [modify]. exists r, w'. split; [|done].
      revert Eq. destruct (addOrReplaceParametersDigestComponent _ _) as [[[|] ?]|]; [done| |done]. unfold resetWire, modify. by intros [= <- <-].
  - destruct (Hchange (insert_before TLV_InterestSignatureValue enc l)) as (r & w' & Eq & Hr). cbn [modify]. exists r, w'. split; [|done].
    revert Eq. destruct (addOrReplaceParametersDigestComponent _ _) as [[[|] ?]|]; [done| |done]. unfold resetWire, modify. by intros [= <- <-].
Qed.
Lemma getNonce_good fresh w : length fresh = 4%nat -> interest_ok sha256 autoCheck w -> good_outcome false w ((getNonce fresh;; mret tt) w).
Proof.
  intros Hf Hw. unfold getNonce. run_im. cbn [get]. destruct (wi_nonce w) eqn:En; [by apply good_same|].
  destruct Hw as [[] Hd Hv _]. apply good_reset. split; [split; try done|done..]. by intros n [= <-].
Qed.
Lemma wireDecode_good wire w : good_outcome true w (Interest_wireDecode sha256 autoCheck wire w).
Proof. destruct (wireDecode_ok sha256 autoCheck wire w) as (r & w' & -> & H). exists r, w'. destruct r as [e|]; [auto|]. split; [done|]. by destruct H. Qed.
Lemma wireEncode_good fresh w :
  length fresh = 4%nat -> interest_ok sha256 autoCheck w -> good_outcome true w ((Interest_wireEncode sha256 autoCheck fresh;; mret tt) w).
Proof.
  intros Hf Hw. unfold Interest_wireEncode. run_im. cbn [get]. destruct (wi_wire w) as [b|] eqn:Eb; [by apply good_same|].
  unfold Interest_encode. run_im. cbn [get]. unfold assert. rewrite (proj2 (Z.eqb_neq _ (-2))) by apply Hw. cbn [negb].
  destruct (_ && hasApplicationParameters w); [apply good_throw|]. destruct (_ && _); [apply good_throw|].
  assert (exists n w1, getNonce fresh w = Some (inr n, w1)) as (n & w1 & ->).
  { unfold getNonce. run_im. cbn [get]. destruct (wi_nonce w); by eexists _, _. }
  cbn [get]. destruct (wireDecode_good (makeBinaryBlock TLV_Interest (mjoin (b_wire <$> interest_elements w1))) w1) as (r & w' & -> & H).
  exists (match r with inl e => inl e | inr _ => inr tt end), w'. destruct r as [e|]; [auto|done].
Qed.

Lemma run_op_good op w : op_typed op -> interest_ok sha256 autoCheck w -> good_outcome (partial_on_throw op) w (run_op op w).
Proof using Hlen.
  intros Hop Hw. pose proof Hw as [[Hs Hh Hn Hl] Hd Hv _]. destruct op; cbn [run_op partial_on_throw op_typed] in *.
  - by apply setName_good.
  - by apply simple_reset_good.
  - by apply simple_reset_good.
  - by apply simple_reset_good.
  - apply simple_reset_good; try done. by apply DelegationList_insert_ok.
  - by apply getNonce_good.
  - unfold setNonce. rewrite bind_get. destruct (bool_decide _); cbn [negb]; [by apply good_same|]. by apply simple_reset_good.
  - unfold refreshNonce. rewrite bind_get. destruct (wi_nonce w) as [old|] eqn:Eo; [|by apply good_same]. destruct Hop as [Hf (m & n & Hm & Hn' & Hne)].
    destruct (List.find _ draws) as [k|] eqn:Ef.
    + apply List.find_some in Ef as [Hin _]. apply simple_reset_good; try done. intros x [= <-]. eapply Forall_forall in Hf; [exact Hf|]. by apply list_elem_of_In.
    + exfalso. assert (forall x, x ∈ draws -> x = old) as Hall.
      { intros x Hx. apply list_elem_of_In in Hx. pose proof (List.find_none _ _ Ef x Hx) as Hx'. apply negb_false_iff in Hx'. by apply bool_decide_eq_true in Hx'. }
      apply Hne. by rewrite (Hall m Hm), (Hall n Hn').
  - unfold setInterestLifetime. destruct (Z.ltb_spec lifetime 0); [apply good_throw|]. rewrite bind_get. destruct (_ =? _)%Z; cbn [negb]; [by apply good_same|].
    by apply simple_reset_good.
  - unfold setHopLimit. rewrite bind_get. destruct (bool_decide _); cbn [negb]; [by apply good_same|]. by apply simple_reset_good.
  - unfold setApplicationParameters. destruct (b_type parameters =? 0); [apply good_throw|].
    destruct (N.eqb_spec (b_type parameters) TLV_ApplicationParameters); by apply setApplicationParameters_good.
  - unfold setApplicationParameters_bytes. destruct value; [|apply good_throw]. by apply setApplicationParameters_good.
  - by apply unset_good.
  - by apply setSignatureInfo_good.
  - by apply setSignatureValue_good.
  - by apply wireEncode_good.
  - apply wireDecode_good.
Qed.
End operations.

(** ** Reachable objects *)

Inductive reachable (sha256 : list byte -> list byte) (autoCheck : bool) : WireInterest -> Prop :=
  | reach_default : reachable sha256 autoCheck Interest_default
  | reach_op op w r w' :
      reachable sha256 autoCheck w -> op_typed op -> run_op sha256 autoCheck op w = Some (r, w') ->
      (forall e, r = inl e -> partial_on_throw op = false) -> reachable sha256 autoCheck w'.

Lemma interest_reachable_ok sha256 autoCheck w :
  (forall l, length (sha256 l) = DIGEST_SIZE) -> reachable sha256 autoCheck w -> interest_ok sha256 autoCheck w.
Proof.
  intros Hlen. induction 1 as [|op w r w' _ IH Hop E Hr]; [apply Interest_default_ok|].
  destruct (run_op_good sha256 autoCheck Hlen op w Hop IH) as (r' & w'' & E' & H). rewrite E in E'. injection E' as <- <-.
  destruct r as [e|]; [|done]. destruct H as [->|H]; [done|]. by rewrite (Hr e) in H.
Qed.

(** C16: The Interest object keeps its invariant. From the default object, by any sequence of
    its operations on well-typed arguments: no assertion of the class fails; the fields stay in
    the range of their types, the hint sorted when it says so, the name with at most one digest
    component; parameters begin with their own element and (when the check is on) are always
    covered by the digest in the name; and a wire that is kept decodes, into any object, to
    exactly this one, so that no setter forgets to drop it. An operation that throws leaves
    the object as it was, except for the encoder, the decoder and [setSignatureInfo]. *)
Theorem interest_operations sha256 autoCheck w :
  (forall l, length (sha256 l) = DIGEST_SIZE) -> reachable sha256 autoCheck w ->
  interest_ok sha256 autoCheck w /\
  forall op, op_typed op -> exists r w', run_op sha256 autoCheck op w = Some (r, w') /\
    match r with inr _ => interest_ok sha256 autoCheck w' | inl _ => w' = w \/ partial_on_throw op = true end.
Proof. intros Hlen Hw%interest_reachable_ok; [|done]. split; [done|]. intros op Hop. by apply run_op_good. Qed.

Lemma interest_operations_witness :
  interest_ok zero_digest true (with_name [ascii_component "a"] Interest_default) /\
  exists r w', run_op zero_digest true (OpSetApplicationParametersBytes (Some [x01])) (with_name [ascii_component "a"] Interest_default) = Some (r, w') /\
    match r with inr _ => interest_ok zero_digest true w' | inl _ => w' = with_name [ascii_component "a"] Interest_default \/ false = true end.
Proof.
  destruct (interest_operations zero_digest true (with_name [ascii_component "a"] Interest_default)) as [H1 H2].
  - intros l. apply length_replicate.
  - eapply (reach_op _ _ (OpSetName [ascii_component "a"]) Interest_default (inr tt)); [constructor|done|done|done].
  - split; [done|]. by apply (H2 (OpSetApplicationParametersBytes (Some [x01]))).
Defined.

(** ** What an exception leaves behind *)

(** An Interest without a name: the first encoding throws, the second gives the bytes that
    did not decode. *)
Example encode_again :
  match Interest_wireEncode zero_digest true [x01; x02; x03; x04] Interest_default with
  | Some (inl e, w) => e = TlvError (InvalidValue TLV_Name) /\ exists b, Interest_wireEncode zero_digest true [x01; x02; x03; x04] w = Some (inr b, w)
  | _ => False
  end.
Proof. vm_compute. split; [reflexivity|]. eexists. reflexivity. Qed.

(** Setting signature information that is not valid throws with the parameters already there:
    the wire that is kept is one without them. *)
Definition encoded_sample : option ((Exception + Block) * WireInterest) :=
  Interest_wireEncode zero_digest true [x01; x02; x03; x04] (with_name [ascii_component "a"] Interest_default).
Example signature_info_throws :
  match encoded_sample with
  | Some (inr b, w) =>
      match interest_setSignatureInfo zero_digest SignatureInfo_empty w with
      | Some (inl e, w') => wi_wire w' = Some b /\ length (wi_parameters w') = 1%nat
      | _ => False
      end
  | _ => False
  end.
Proof. vm_compute. split; reflexivity. Qed.

(** Signature information decoded from a Data keeps the wire of a Data: as the information of
    an Interest it is written with that type, which is critical, and the Interest never decodes. *)
Definition data_signature_info : SignatureInfo :=
  (SignatureInfo_wireDecode TLV_SignatureInfo (makeBinaryBlock TLV_SignatureInfo (b_wire (makeNonNegativeIntegerBlock TLV_SignatureType 0)))).2.
Example signature_info_of_data :
  match interest_setSignatureInfo zero_digest data_signature_info (with_name [ascii_component "a"] Interest_default) with
  | Some (inr _, w) => exists w', Interest_wireEncode zero_digest true [x01; x02; x03; x04] w = Some (inl (TlvError (UnrecognizedField TLV_SignatureInfo)), w')
  | _ => False
  end.
Proof. vm_compute. eexists. reflexivity. Qed.

(** An Interest off the wire whose signature information does not decode: [isSigned] terminates
    the program. *)
Definition malformed_signed : WireInterest :=
  mkWireInterest [ascii_component "a"; mkComponent ParametersSha256DigestComponent (replicate DIGEST_SIZE x00)] false false DelegationList_empty
    (Some [x01; x02; x03; x04]) DEFAULT_INTEREST_LIFETIME None
    [makeEmptyBlock TLV_ApplicationParameters; makeEmptyBlock TLV_InterestSignatureInfo; makeEmptyBlock TLV_InterestSignatureValue] None.
Example isSigned_terminates :
  match Interest_wireEncode zero_digest true [] malformed_signed with
  | Some (inr b, w) => wi_wire w = Some b /\ isSigned w = None
  | _ => False
  end.
Proof. vm_compute. split; reflexivity. Qed.
