(* ===== verification/DataWire.v ===== *)
(** * Data packets (ndn-cxx meta-info.cpp, data.cpp)

    MetaInfo and the whole Data: the fields of the packet format, the wire the object om_keeps
    and the full name it computes from it. The Data of Packet.v is the part that the
    forwarding plane looks at. The caches that const methods of the sub-objects fill are not
    tracked. SHA-256 is a parameter. *)

From S2P Require Import Prelude Tlv ObjectMonad Name Packet Block LpPacket NameWire SignatureWire.

Local Open Scope N_scope.

Definition TLV_MetaInfo : N := 20.
Definition TLV_ContentType : N := 24.
Definition TLV_FreshnessPeriod : N := 25.
Definition TLV_FinalBlockId : N := 26.
Definition ContentType_Blob : N := 0.
Definition DEFAULT_FRESHNESS_PERIOD : Z := 0.

(** ** MetaInfo *)

Record MetaInfo := mkMetaInfo {
  mi_type : N;
  mi_freshness : Z;                 (* milliseconds *)
  mi_finalBlock : option Component;
  mi_app : list Block;
  mi_wire : option Block;
}.

#[global] Instance MetaInfo_eq_dec : EqDecision MetaInfo.
Proof. solve_decision. Defined.

Definition MetaInfo_default : MetaInfo := mkMetaInfo ContentType_Blob DEFAULT_FRESHNESS_PERIOD None [] None.

Definition setType (type : N) (mi : MetaInfo) : MetaInfo := mkMetaInfo type (mi_freshness mi) (mi_finalBlock mi) (mi_app mi) None.
Definition mi_setFreshnessPeriod (freshnessPeriod : Z) (mi : MetaInfo) : Exception + MetaInfo :=
  if (freshnessPeriod <? 0)%Z then inl InvalidArgument
  else inr (mkMetaInfo (mi_type mi) freshnessPeriod (mi_finalBlock mi) (mi_app mi) None).
Definition mi_setFinalBlock (finalBlockId : option Component) (mi : MetaInfo) : MetaInfo :=
  mkMetaInfo (mi_type mi) (mi_freshness mi) finalBlockId (mi_app mi) None.
Definition app_type (b : Block) : bool := (128 <=? b_type b) && (b_type b <=? 252).
Definition with_app (l : list Block) (mi : MetaInfo) : MetaInfo := mkMetaInfo (mi_type mi) (mi_freshness mi) (mi_finalBlock mi) l None.
Definition setAppMetaInfo (info : list Block) (mi : MetaInfo) : tlv_error + MetaInfo :=
  match List.find (fun b => negb (app_type b)) info with
  | Some b => inl (InvalidValue (b_type b))
  | None => inr (with_app info mi)
  end.
Definition addAppMetaInfo (b : Block) (mi : MetaInfo) : tlv_error + MetaInfo :=
  if negb (app_type b) then inl (InvalidValue (b_type b)) else inr (with_app (mi_app mi ++ [b]) mi).
Fixpoint erase_type (t : N) (l : list Block) : option (list Block) :=
  match l with
  | [] => None
  | b :: l => if b_type b =? t then Some l else cons b <$> erase_type t l
  end.
Definition removeAppMetaInfo (t : N) (mi : MetaInfo) : bool * MetaInfo :=
  match erase_type t (mi_app mi) with Some l => (true, with_app l mi) | None => (false, mi) end.
Definition findAppMetaInfo (t : N) (mi : MetaInfo) : option Block := find_type t (mi_app mi).

(** The elements that [wireEncode(encoder)] writes. *)
Definition finalBlock_block (c : Component) : Block := makeBinaryBlock TLV_FinalBlockId (tlv_wire (c_type c) (c_value c)).
Definition metainfo_elements (mi : MetaInfo) : list Block :=
  (if negb (mi_type mi =? ContentType_Blob) then [makeNonNegativeIntegerBlock TLV_ContentType (mi_type mi)] else [])
  ++ (if negb (mi_freshness mi =? DEFAULT_FRESHNESS_PERIOD)%Z then [makeNonNegativeIntegerBlock TLV_FreshnessPeriod (to_uint64 (mi_freshness mi))] else [])
  ++ (match mi_finalBlock mi with Some c => [finalBlock_block c] | None => [] end)
  ++ mi_app mi.
Definition MetaInfo_encode (mi : MetaInfo) : Block := makeBinaryBlock TLV_MetaInfo (mjoin (b_wire <$> metainfo_elements mi)).
Definition MetaInfo_wireEncode (mi : MetaInfo) : Block * MetaInfo :=
  match mi_wire mi with
  | Some b => (b, mi)
  | None => let b := MetaInfo_encode mi in
            (b, mkMetaInfo (mi_type mi) (mi_freshness mi) (mi_finalBlock mi) (mi_app mi) (Some b))
  end.

(** [blockFromValue], and the component made of it. *)
Definition blockFromValue (b : Block) : tlv_error + Block :=
  '(e, rest) ← read_element (b_value b);
  match rest with [] => inr e | _ => inl LengthExceedsBoundary end.
Definition component_from (e : Block) : tlv_error + Component :=
  if negb (ensureValid (component_of e)) then inl (InvalidValue (b_type e)) else inr (component_of e).
(** One optional element of [wireDecode]: taken off the front when it has the type. *)
Definition take_type {A} (t : N) (val : list Block) (found : Block -> OM A unit) (missing : OM A unit) : OM A (list Block) :=
  match val with
  | e :: rest => if b_type e =? t then found e;; mret rest else missing;; mret val
  | [] => missing;; mret val
  end.
Definition mi_keep_type (t : N) mi := mkMetaInfo t (mi_freshness mi) (mi_finalBlock mi) (mi_app mi) (mi_wire mi).
Definition mi_keep_freshness (p : Z) mi := mkMetaInfo (mi_type mi) p (mi_finalBlock mi) (mi_app mi) (mi_wire mi).
Definition mi_keep_finalBlock (c : option Component) mi := mkMetaInfo (mi_type mi) (mi_freshness mi) c (mi_app mi) (mi_wire mi).
Definition mi_keep_app (l : list Block) mi := mkMetaInfo (mi_type mi) (mi_freshness mi) (mi_finalBlock mi) l (mi_wire mi).
Definition mi_keep_wire (b : option Block) mi := mkMetaInfo (mi_type mi) (mi_freshness mi) (mi_finalBlock mi) (mi_app mi) b.
(** [wireDecode]: the elements in their order; those left are added to the application's. *)
Definition MetaInfo_wireDecode (wire : Block) : OM MetaInfo unit :=
  modify (mi_keep_wire (Some wire));;
  val ← lift (Block_parse (b_value wire));
  val ← take_type TLV_ContentType val (fun e => type ← lift (readNonNegativeIntegerAs u32_max e); modify (mi_keep_type type))
          (modify (mi_keep_type ContentType_Blob));
  val ← take_type TLV_FreshnessPeriod val (fun e => n ← lift (block_readNonNegativeInteger e); modify (mi_keep_freshness (to_int64 n)))
          (modify (mi_keep_freshness DEFAULT_FRESHNESS_PERIOD));
  val ← take_type TLV_FinalBlockId val
          (fun e => b ← lift (blockFromValue e); modify (mi_keep_finalBlock None);; c ← lift (component_from b); modify (mi_keep_finalBlock (Some c)))
          (modify (mi_keep_finalBlock None));
  modify (fun mi => mi_keep_app (mi_app mi ++ val) mi).

(** ** Data *)

Record WireData := mkWireData {
  wd_name : Name;
  wd_metaInfo : MetaInfo;
  wd_content : option Block;
  wd_signatureInfo : SignatureInfo;
  wd_signatureValue : option Block;
  wd_wire : option Block;
  wd_fullName : Name;
}.

#[global] Instance WireData_eq_dec : EqDecision WireData.
Proof. solve_decision. Defined.

Definition Data_new (name : Name) : WireData := mkWireData name MetaInfo_default None SignatureInfo_empty None None [].

Definition d_with_name n d := mkWireData n (wd_metaInfo d) (wd_content d) (wd_signatureInfo d) (wd_signatureValue d) (wd_wire d) (wd_fullName d).
Definition d_with_metaInfo m d := mkWireData (wd_name d) m (wd_content d) (wd_signatureInfo d) (wd_signatureValue d) (wd_wire d) (wd_fullName d).
Definition d_with_content c d := mkWireData (wd_name d) (wd_metaInfo d) c (wd_signatureInfo d) (wd_signatureValue d) (wd_wire d) (wd_fullName d).
Definition d_with_signatureInfo s d := mkWireData (wd_name d) (wd_metaInfo d) (wd_content d) s (wd_signatureValue d) (wd_wire d) (wd_fullName d).
Definition d_with_signatureValue v d := mkWireData (wd_name d) (wd_metaInfo d) (wd_content d) (wd_signatureInfo d) v (wd_wire d) (wd_fullName d).
Definition d_with_wire b d := mkWireData (wd_name d) (wd_metaInfo d) (wd_content d) (wd_signatureInfo d) (wd_signatureValue d) b (wd_fullName d).
Definition d_with_fullName n d := mkWireData (wd_name d) (wd_metaInfo d) (wd_content d) (wd_signatureInfo d) (wd_signatureValue d) (wd_wire d) n.

Abbreviation DM := (OM WireData).
Definition data_resetWire : DM unit := modify (d_with_wire None);; modify (d_with_fullName []).

(** [wireEncode(encoder, wantUnsignedPortionOnly)]: the bytes before the type and length. An
    element that is not set is written as type 0 and length 0. *)
Definition block_wire_or_invalid (o : option Block) : list byte := match o with Some b => b_wire b | None => tlv_wire 0 [] end.
Definition data_unsigned_elements (d : WireData) (info : Block) : list Block :=
  [name_block (wd_name d)] ++ [MetaInfo_encode (wd_metaInfo d)]
  ++ (match wd_content d with Some c => [c] | None => [] end) ++ [info].
Definition Data_encode_value (unsignedOnly : bool) (d : WireData) : tlv_error + list byte :=
  if negb unsignedOnly && negb (SignatureInfo_valid (wd_signatureInfo d)) then inl (InvalidValue TLV_SignatureInfo)
  else
    info ← SignatureInfo_encode TLV_SignatureInfo (wd_signatureInfo d);
    inr (mjoin (b_wire <$> data_unsigned_elements d info) ++ (if unsignedOnly then [] else block_wire_or_invalid (wd_signatureValue d))).

(** What [Name::wireDecode] leaves in the name when an element of it does not parse. *)
Fixpoint parse_kept (fuel : nat) (l : list byte) : list Block :=
  match l, fuel with
  | [], _ => []
  | _, O => []
  | _, S fuel => match read_element l with inl _ => [] | inr (b, rest) => b :: parse_kept fuel rest end
  end.
Definition name_kept (e : Block) : Name :=
  match Block_parse (b_value e) with
  | inl LengthExceedsBoundary => []
  | _ => component_of <$> parse_kept (length (b_value e)) (b_value e)
  end.

(** One element of [wireDecode]: the index of the last element recognised, in and out. *)
Definition data_element (lastElement : N) (e : Block) : DM N :=
  let t := b_type e in
  if t =? TLV_MetaInfo then
    if 2 <=? lastElement then throw (TlvError UnsortedFields)
    else d ← get;
         match MetaInfo_wireDecode e (wd_metaInfo d) with
         | None => assert false;; mret 2
         | Some (r, mi) => modify (d_with_metaInfo mi);; match r with inl err => throw err | inr _ => mret 2 end
         end
  else if t =? TLV_Content then
    if 3 <=? lastElement then throw (TlvError UnsortedFields) else modify (d_with_content (Some e));; mret 3
  else if t =? TLV_SignatureInfo then
    if 4 <=? lastElement then throw (TlvError UnsortedFields)
    else let '(err, si) := SignatureInfo_wireDecode TLV_SignatureInfo e in
         modify (d_with_signatureInfo si);;
         match err with Some err => throw (TlvError err) | None => mret 4 end
  else if t =? TLV_SignatureValue then
    if 5 <=? lastElement then throw (TlvError UnsortedFields) else modify (d_with_signatureValue (Some e));; mret 5
  else if isCriticalType t then throw (TlvError (UnrecognizedField t))
  else mret lastElement.
Fixpoint data_elements (l : list Block) (lastElement : N) : DM N :=
  match l with
  | [] => mret lastElement
  | e :: l => lastElement ← data_element lastElement e; data_elements l lastElement
  end.
Definition data_check : DM unit :=
  d ← get;
  if negb (SignatureInfo_valid (wd_signatureInfo d)) then throw (TlvError (InvalidValue TLV_SignatureInfo))
  else match wd_signatureValue d with None => throw (TlvError (InvalidValue TLV_SignatureValue)) | Some _ => mret tt end.
Definition Data_wireDecode (wire : Block) : DM unit :=
  if negb (b_type wire =? TLV_Data) then throw (TlvError (UnexpectedType (b_type wire)))
  else
    modify (d_with_wire (Some wire));;
    elements ← lift (Block_parse (b_value wire));
    match elements with
    | [] => throw (TlvError (InvalidValue TLV_Data))
    | e :: elements =>
        if negb (b_type e =? TLV_Name) then throw (TlvError (InvalidValue TLV_Data))
        else match Name_wireDecode e with
             | inl err => modify (d_with_name (name_kept e));; throw (TlvError err)
             | inr name =>
                 modify (fun d => mkWireData name MetaInfo_default None SignatureInfo_empty None (wd_wire d) []);;
                 data_elements elements 1;;
                 data_check
             end
    end.
(** [wireEncode()], and [wireEncode(encoder, signatureValue)] on the unsigned portion. *)
Definition Data_wireEncode : DM Block :=
  d ← get;
  match wd_wire d with
  | Some b => mret b
  | None => value ← lift (Data_encode_value false d);
            let wire := makeBinaryBlock TLV_Data value in
            Data_wireDecode wire;; mret wire
  end.
Definition Data_wireEncode_signed (unsigned : list byte) (signatureValue : Block) : DM Block :=
  let wire := makeBinaryBlock TLV_Data (unsigned ++ b_wire signatureValue) in
  Data_wireDecode wire;; mret wire.

(** ** Fields of a Data *)

Definition data_setName (name : Name) : DM unit :=
  d ← get; if negb (Name_equals name (wd_name d)) then modify (d_with_name name);; data_resetWire else mret tt.
Definition setMetaInfo (mi : MetaInfo) : DM unit := modify (d_with_metaInfo mi);; data_resetWire.
(** [setContent(const Block&)]; a block of another type is wrapped. *)
Definition setContent (block : Block) : DM unit :=
  if b_type block =? 0 then throw InvalidArgument
  else modify (d_with_content (Some (if b_type block =? TLV_Content then block else makeBinaryBlock TLV_Content (b_wire block))));; data_resetWire.
Definition setContent_bytes (value : option (list byte)) : DM unit :=
  match value with
  | None => throw InvalidArgument
  | Some v => modify (d_with_content (Some (makeBinaryBlock TLV_Content v)));; data_resetWire
  end.
Definition unsetContent : DM unit := modify (d_with_content None);; data_resetWire.
Definition data_setSignatureInfo (info : SignatureInfo) : DM unit := modify (d_with_signatureInfo info);; data_resetWire.
Definition data_setSignatureValue (value : option (list byte)) : DM unit :=
  match value with
  | None => throw InvalidArgument
  | Some v => modify (d_with_signatureValue (Some (makeBinaryBlock TLV_SignatureValue v)));; data_resetWire
  end.
Definition setContentType (type : N) : DM unit :=
  d ← get; if negb (type =? mi_type (wd_metaInfo d)) then modify (d_with_metaInfo (setType type (wd_metaInfo d)));; data_resetWire else mret tt.
Definition data_setFreshnessPeriod (freshnessPeriod : Z) : DM unit :=
  d ← get;
  if negb (freshnessPeriod =? mi_freshness (wd_metaInfo d))%Z then
    match mi_setFreshnessPeriod freshnessPeriod (wd_metaInfo d) with
    | inl e => throw e
    | inr mi => modify (d_with_metaInfo mi);; data_resetWire
    end
  else mret tt.
Definition data_setFinalBlock (finalBlockId : option Component) : DM unit :=
  d ← get;
  if negb (bool_decide (finalBlockId = mi_finalBlock (wd_metaInfo d))) then modify (d_with_metaInfo (mi_setFinalBlock finalBlockId (wd_metaInfo d)));; data_resetWire
  else mret tt.
Definition data_getFullName (sha256 : list byte -> list byte) : DM Name :=
  d ← get;
  match wd_fullName d with
  | [] => match wd_wire d with
          | None => throw (TlvError (InvalidValue TLV_Data))
          | Some b => let n := append (wd_name d) [mkComponent ImplicitSha256DigestComponent (sha256 (b_wire b))] in
                      modify (d_with_fullName n);; mret n
          end
  | n => mret n
  end.
(** [operator==], by what the fields encode to. *)
Definition Data_equals (x y : WireData) : bool :=
  let block_equals (b c : option Block) := match b, c with
                                           | Some b, Some c => Block_equals b c
                                           | None, None => true
                                           | Some b, None | None, Some b => (b_type b =? 0) && match b_value b with [] => true | _ => false end
                                           end in
  Name_equals (wd_name x) (wd_name y) &&
  Block_equals (MetaInfo_wireEncode (wd_metaInfo x)).1 (MetaInfo_wireEncode (wd_metaInfo y)).1 &&
  block_equals (wd_content x) (wd_content y) &&
  SignatureInfo_equals (wd_signatureInfo x) (wd_signatureInfo y) &&
  block_equals (wd_signatureValue x) (wd_signatureValue y).

(** ** Decoding *)

Definition int64_range (z : Z) : Prop := (- 2 ^ 63 <= z < 2 ^ 63)%Z.
Definition mi_ok (mi : MetaInfo) : Prop := int64_range (mi_freshness mi).

Lemma take_type_keeps {S} (P : S -> Prop) t val (found : Block -> OM S unit) missing :
  (forall e, om_keeps P (found e)) -> om_keeps P missing -> om_keeps P (take_type t val found missing).
Proof.
  intros Hf Hm. unfold take_type. destruct val as [|e val]; [apply om_keeps_bind; auto with om_keeps|].
  destruct (b_type e =? t); apply om_keeps_bind; auto with om_keeps.
Qed.
Lemma MetaInfo_wireDecode_keeps wire : om_keeps mi_ok (MetaInfo_wireDecode wire).
Proof.
  unfold MetaInfo_wireDecode. repeat (apply om_keeps_bind; [|intros ?]); auto with om_keeps; try (by apply om_keeps_modify); apply take_type_keeps; try (by apply om_keeps_modify).
  - intros e. apply om_keeps_bind; auto with om_keeps. intros t. by apply om_keeps_modify.
  - intros e. apply om_keeps_bind; auto with om_keeps. intros t. apply om_keeps_modify. intros mi _. apply to_int64_range.
  - intros e. repeat (apply om_keeps_bind; [|intros ?]); auto with om_keeps; by apply om_keeps_modify.
Qed.

(** While elements are decoded. *)
Definition data_decoding (name : Name) (wire : Block) (d : WireData) : Prop :=
  wd_name d = name /\ wd_wire d = Some wire /\ wd_fullName d = [] /\ mi_ok (wd_metaInfo d).
Lemma data_element_keeps name wire last e : om_keeps (data_decoding name wire) (data_element last e).
Proof.
  unfold data_element. cbv zeta. destruct (_ =? TLV_MetaInfo).
  { destruct (2 <=? last); auto with om_keeps. apply om_keeps_get. intros d (H1 & H2 & H3 & H4).
    destruct (MetaInfo_wireDecode_keeps e _ H4) as (r & mi & -> & Hmi). destruct r as [err|]; by eexists _, _. }
  destruct (_ =? TLV_Content).
  { destruct (3 <=? last); auto with om_keeps. apply om_keeps_bind; auto with om_keeps. by apply om_keeps_modify. }
  destruct (_ =? TLV_SignatureInfo).
  { destruct (4 <=? last); auto with om_keeps. destruct (SignatureInfo_wireDecode _ _) as [[err|] si]; (apply om_keeps_bind; [by apply om_keeps_modify|auto with om_keeps]). }
  destruct (_ =? TLV_SignatureValue).
  { destruct (5 <=? last); auto with om_keeps. apply om_keeps_bind; auto with om_keeps. by apply om_keeps_modify. }
  destruct (isCriticalType _); auto with om_keeps.
Qed.
Lemma data_elements_keeps name wire l : forall last, om_keeps (data_decoding name wire) (data_elements l last).
Proof. induction l as [|e l IH]; intros last; cbn [data_elements]; auto with om_keeps. apply om_keeps_bind; [apply data_element_keeps|]. intros n. apply IH. Qed.

(** Decoding does not depend on the object, except for what it leaves when it throws early. *)
Lemma data_wireDecode_unfold wire :
  exists r : (Exception * (WireData -> WireData)) + (Name * list Block), forall d0, Data_wireDecode wire d0 =
    match r with
    | inl (e, f) => Some (inl e, f d0)
    | inr (name, elements) => (data_elements elements 1 ≫= fun _ => data_check) (mkWireData name MetaInfo_default None SignatureInfo_empty None (Some wire) [])
    end.
Proof.
  unfold Data_wireDecode. destruct (b_type wire =? TLV_Data); [|by exists (inl (TlvError (UnexpectedType (b_type wire)), id))].
  destruct (Block_parse (b_value wire)) as [e|[|e elements]];
    [by exists (inl (TlvError e, d_with_wire (Some wire)))|by exists (inl (TlvError (InvalidValue TLV_Data), d_with_wire (Some wire)))|].
  run_im. destruct (b_type e =? TLV_Name); [|by exists (inl (TlvError (InvalidValue TLV_Data), d_with_wire (Some wire)))].
  destruct (Name_wireDecode e) as [err|n]; [by exists (inl (TlvError err, d_with_name (name_kept e) ∘ d_with_wire (Some wire)))|by exists (inr (n, elements))].
Qed.
Lemma data_wireDecode_indep wire d d' d0 : Data_wireDecode wire d = Some (inr tt, d') -> Data_wireDecode wire d0 = Some (inr tt, d').
Proof. destruct (data_wireDecode_unfold wire) as ([[e f]|[n l]] & H); rewrite !H; [done|auto]. Qed.

Record data_ok (sha256 : list byte -> list byte) (d : WireData) : Prop := {
  do_metaInfo : mi_ok (wd_metaInfo d);
  do_wire : forall b, wd_wire d = Some b -> forall d0, Data_wireDecode b d0 = Some (inr tt, d_with_fullName [] d);
  do_signed : wd_wire d <> None -> SignatureInfo_valid (wd_signatureInfo d) = true /\ wd_signatureValue d <> None;
  do_fullName : wd_fullName d = [] \/
    exists b, wd_wire d = Some b /\ wd_fullName d = append (wd_name d) [mkComponent ImplicitSha256DigestComponent (sha256 (b_wire b))];
}.

Lemma data_wireDecode_ok sha256 wire d :
  exists r d', Data_wireDecode wire d = Some (r, d') /\ match r with inr _ => data_ok sha256 d' /\ wd_wire d' = Some wire | inl _ => True end.
Proof.
  destruct (data_wireDecode_unfold wire) as ([[e f]|[n l]] & H); [by eexists _, _; rewrite H|]. pose proof (H d) as Hd.
  destruct (data_elements_keeps n wire l 1 (mkWireData n MetaInfo_default None SignatureInfo_empty None (Some wire) [])) as (r & d' & E & H1 & H2 & H3 & H4).
  { by split_and!. }
  unfold mbind, OM_bind in Hd. rewrite E in Hd. destruct r as [e|last]; [by exists (inl e), d'|].
  unfold data_check in Hd. rewrite bind_get in Hd. destruct (SignatureInfo_valid (wd_signatureInfo d')) eqn:Es; cbn [negb] in Hd; [|by eexists _, _].
  destruct (wd_signatureValue d') eqn:Ev; [|by eexists _, _]. exists (inr tt), d'. split; [done|]. split; [|done]. split; [done| | |by left].
  - intros b0 Hb d0. rewrite H2 in Hb. injection Hb as <-. assert (d_with_fullName [] d' = d') as -> by (rewrite <- H3; by destruct d'). by eapply data_wireDecode_indep.
  - intros _. split; [done|]. by rewrite Ev.
Qed.

(** ** What is encoded is decoded *)

Definition comp_valid (c : Component) : Prop := ensureValid c = true /\ comp_wf c /\ N.of_nat (length (tlv_wire (c_type c) (c_value c))) < 2 ^ 64.
Record metaInfo_wf (mi : MetaInfo) : Prop := {
  mw_type : mi_type mi <= u32_max;
  mw_freshness : int64_range (mi_freshness mi);
  mw_finalBlock : forall c, mi_finalBlock mi = Some c -> comp_valid c;
  mw_app : Forall (fun b => app_type b = true /\ block_wf b) (mi_app mi);
  mw_size : N.of_nat (length (b_value (MetaInfo_encode mi))) < 2 ^ 64;
}.
Lemma blockFromValue_ok c : comp_wf c -> blockFromValue (finalBlock_block c) = inr (comp_block c).
Proof.
  intros [Ht Hv]. unfold blockFromValue, finalBlock_block. cbn [makeBinaryBlock b_value].
  rewrite <- (app_nil_r (tlv_wire _ _)), read_element_wire by done. done.
Qed.
Lemma metainfo_elements_wf mi : metaInfo_wf mi -> Forall block_wf (metainfo_elements mi).
Proof.
  intros [H1 H2 H3 H4 _]. unfold metainfo_elements. repeat (apply Forall_app; split).
  - destruct (negb _); [|done]. apply Forall_singleton. by apply block_ok_wf, number_block_ok.
  - destruct (negb _); [|done]. apply Forall_singleton. by apply block_ok_wf, number_block_ok.
  - destruct (mi_finalBlock mi) as [c|]; [|done]. destruct (H3 c eq_refl) as (_ & _ & Hl). apply Forall_singleton. by apply block_ok_wf, makeBinaryBlock_ok.
  - eapply Forall_impl; [exact H4|]. by intros ? [].
Qed.
(** An element list that does not begin with the type. *)
Definition not_type (t : N) (l : list Block) : Prop := match l with [] => True | b :: _ => b_type b <> t end.
Lemma take_type_missing {S} t l (found : Block -> OM S unit) (missing : OM S unit) s s' :
  not_type t l -> missing s = Some (inr tt, s') -> take_type t l found missing s = Some (inr l, s').
Proof.
  intros Hl E. unfold take_type. destruct l as [|b l]; [|simpl in Hl; rewrite (proj2 (N.eqb_neq _ _)) by done]; unfold mbind, OM_bind; by rewrite E.
Qed.
Lemma take_type_found {S} t b l (found : Block -> OM S unit) (missing : OM S unit) s s' :
  b_type b = t -> found b s = Some (inr tt, s') -> take_type t (b :: l) found missing s = Some (inr l, s').
Proof. intros <- E. unfold take_type. rewrite N.eqb_refl. unfold mbind, OM_bind. by rewrite E. Qed.
Lemma app_not_type t l : Forall (fun b => app_type b = true /\ block_wf b) l -> t < 128 -> not_type t l.
Proof.
  intros Hl Ht. destruct Hl as [|b l [Hb _] _]; [done|]. simpl. intros E. unfold app_type in Hb. rewrite E in Hb.
  apply andb_true_iff in Hb as [Hb _]. apply N.leb_le in Hb. lia.
Qed.
Lemma MetaInfo_decode_elements mi wire :
  metaInfo_wf mi -> b_value wire = mjoin (b_wire <$> metainfo_elements mi) ->
  MetaInfo_wireDecode wire MetaInfo_default = Some (inr tt, mi_keep_wire (Some wire) mi).
Proof.
  intros Hmi Hwire. pose proof Hmi as [H1 H2 H3 H4 _]. unfold MetaInfo_wireDecode. rewrite Hwire.
  rewrite Block_parse_wires by (by apply metainfo_elements_wf).
  destruct mi as [t p c l w]. cbn [mi_type mi_freshness mi_finalBlock mi_app] in *. unfold metainfo_elements. cbn [mi_type mi_freshness mi_finalBlock mi_app].
  set (l2 := (match c with Some c => [finalBlock_block c] | None => [] end) ++ l).
  set (l1 := (if negb (p =? DEFAULT_FRESHNESS_PERIOD)%Z then [makeNonNegativeIntegerBlock TLV_FreshnessPeriod (to_uint64 p)] else []) ++ l2).
  assert (forall t, t < 128 -> t <> TLV_FinalBlockId -> not_type t l2) as Hl2.
  { intros u Hu Hne. unfold l2. destruct c; [by apply not_eq_sym in Hne|]. by apply app_not_type. }
  assert (not_type TLV_ContentType l1) as Hl1.
  { unfold l1. destruct (negb _); [done|]. by apply Hl2. }
  assert (forall s found, (forall s, found (makeNonNegativeIntegerBlock TLV_ContentType t) s = Some (inr tt, mi_keep_type t s)) ->
    take_type TLV_ContentType ((if negb (t =? ContentType_Blob) then [makeNonNegativeIntegerBlock TLV_ContentType t] else []) ++ l1) found (modify (mi_keep_type ContentType_Blob)) s
    = Some (inr l1, mi_keep_type t s)) as E1.
  { intros s found Hf. destruct (N.eqb_spec t ContentType_Blob) as [->|]; cbn [negb app]; [by apply take_type_missing|by apply take_type_found]. }
  assert (forall s found, (forall s, found (makeNonNegativeIntegerBlock TLV_FreshnessPeriod (to_uint64 p)) s = Some (inr tt, mi_keep_freshness p s)) ->
    take_type TLV_FreshnessPeriod l1 found (modify (mi_keep_freshness DEFAULT_FRESHNESS_PERIOD)) s = Some (inr l2, mi_keep_freshness p s)) as E2.
  { intros s found Hf. unfold l1. destruct (Z.eqb_spec p DEFAULT_FRESHNESS_PERIOD) as [->|]; cbn [negb app]; [apply take_type_missing; [by apply Hl2|done]|by apply take_type_found]. }
  assert (forall s found, (forall c', c = Some c' -> found (finalBlock_block c') s = Some (inr tt, mi_keep_finalBlock c s)) ->
    take_type TLV_FinalBlockId l2 found (modify (mi_keep_finalBlock None)) s = Some (inr l, mi_keep_finalBlock c s)) as E3.
  { intros s found Hf. unfold l2. destruct c as [c|]; [apply take_type_found; [done|by apply Hf]|apply take_type_missing; [by apply app_not_type|done]]. }
  unfold mbind at 1, OM_bind at 1. cbn [modify]. unfold mbind at 1, OM_bind at 1. cbn [lift mret OM_ret].
  unfold mbind at 1, OM_bind at 1. rewrite E1; [|intros s; by rewrite readNonNegativeIntegerAs_ok by (unfold u32_max in *; lia)].
  unfold mbind at 1, OM_bind at 1. rewrite E2; [|intros s; rewrite block_readNonNegativeInteger_ok by apply to_uint64_bound; run_im; by rewrite to_int64_mod].
  unfold mbind at 1, OM_bind at 1. rewrite E3; [done|]. intros c' Hc'. destruct (H3 c' Hc') as (Hv & Hc & _). rewrite blockFromValue_ok by done. run_im.
  unfold component_from, comp_block, component_of. cbn [makeBinaryBlock b_type b_value].
  assert (mkComponent (c_type c') (c_value c') = c') as -> by (by destruct c'). rewrite Hv. cbn. by rewrite Hc'.
Qed.
Lemma MetaInfo_roundtrip mi :
  metaInfo_wf mi -> MetaInfo_wireDecode (MetaInfo_encode mi) MetaInfo_default = Some (inr tt, mi_keep_wire (Some (MetaInfo_encode mi)) mi).
Proof. intros H. by apply MetaInfo_decode_elements. Qed.

Record data_wf (d : WireData) : Prop := {
  dw_name : name_wf (wd_name d);
  dw_metaInfo : metaInfo_wf (wd_metaInfo d);
  dw_content : forall c, wd_content d = Some c -> b_type c = TLV_Content /\ block_wf c;
  dw_signatureInfo : signatureInfo_wf TLV_SignatureInfo (wd_signatureInfo d);
  dw_signatureValue : exists v, wd_signatureValue d = Some v /\ b_type v = TLV_SignatureValue /\ block_wf v;
}.
Definition si_with_wire (b : Block) (si : SignatureInfo) : SignatureInfo := mkSignatureInfo (si_type si) (si_keyLocator si) (si_otherTlvs si) (Some b).
(** The object that decoding the encoding gives: the same fields, the wires of its parts kept. *)
Definition data_decoded (info wire : Block) (d : WireData) : WireData :=
  mkWireData (wd_name d) (mi_keep_wire (Some (MetaInfo_encode (wd_metaInfo d))) (wd_metaInfo d)) (wd_content d)
    (si_with_wire info (wd_signatureInfo d)) (wd_signatureValue d) (Some wire) [].

Lemma data_elements_step e l last last' d d' :
  data_element last e d = Some (inr last', d') -> data_elements (e :: l) last d = data_elements l last' d'.
Proof. intros E. cbn [data_elements]. unfold mbind, OM_bind. by rewrite E. Qed.

Lemma data_elements_decode d info v wire :
  data_wf d -> b_type info = TLV_SignatureInfo -> SignatureInfo_wireDecode TLV_SignatureInfo info = (None, si_with_wire info (wd_signatureInfo d)) ->
  wd_signatureValue d = Some v ->
  data_elements (drop 1 (data_unsigned_elements d info) ++ [v]) 1 (mkWireData (wd_name d) MetaInfo_default None SignatureInfo_empty None (Some wire) [])
    = Some (inr 5, data_decoded info wire d).
Proof.
  intros [_ Hm Hc _ (v' & Hv & Htv & _)] Hti Hdec Hv'. rewrite Hv in Hv'. injection Hv' as ->. unfold data_unsigned_elements. cbn [app drop].
  rewrite (data_elements_step _ _ _ 2 _ (mkWireData (wd_name d) (mi_keep_wire (Some (MetaInfo_encode (wd_metaInfo d))) (wd_metaInfo d)) None SignatureInfo_empty None (Some wire) [])).
  2: { unfold data_element. cbv zeta. change (b_type (MetaInfo_encode (wd_metaInfo d))) with TLV_MetaInfo. cbn [N.eqb Pos.eqb TLV_MetaInfo N.leb N.compare Pos.compare Pos.compare_cont].
       rewrite bind_get. cbn [wd_metaInfo]. by rewrite MetaInfo_roundtrip. }
  set (d2 := mkWireData _ _ _ _ _ _ _).
  assert (exists last, last < 4 /\ data_elements (match wd_content d with Some c => [c] | None => [] end ++ [info] ++ [v]) 2 d2 = data_elements ([info] ++ [v]) last (d_with_content (wd_content d) d2))
    as (last & Hlast & Ec).
  { destruct (wd_content d) as [c|]; [|by exists 2]. destruct (Hc c eq_refl) as [Ht _]. exists 3. split; [done|]. apply data_elements_step.
    unfold data_element. cbv zeta. by rewrite Ht. }
  rewrite <- app_assoc, Ec. cbn [app]. erewrite data_elements_step.
  2: { unfold data_element. cbv zeta. rewrite Hti, Hdec. cbn [N.eqb Pos.eqb TLV_MetaInfo TLV_Content TLV_SignatureInfo]. by rewrite (proj2 (N.leb_gt _ _)). }
  erewrite data_elements_step.
  2: { unfold data_element. cbv zeta. by rewrite Htv. }
  cbn. unfold data_decoded. by rewrite Hv.
Qed.
Lemma data_unsigned_wf d info : data_wf d -> block_wf info -> Forall block_wf (data_unsigned_elements d info).
Proof.
  intros [Hn [_ _ _ _ Hm] Hc _ _] Hi. unfold data_unsigned_elements. repeat (apply Forall_app; split).
  - apply Forall_singleton. by apply block_ok_wf, name_block_ok.
  - apply Forall_singleton. by apply block_ok_wf, makeBinaryBlock_ok.
  - destruct (wd_content d) as [c|]; [|done]. apply Forall_singleton. by apply Hc.
  - by apply Forall_singleton.
Qed.

Lemma data_roundtrip_ok d :
  data_wf d -> wd_wire d = None ->
  exists info value, SignatureInfo_encode TLV_SignatureInfo (wd_signatureInfo d) = inr info /\ Data_encode_value false d = inr value /\
    let wire := makeBinaryBlock TLV_Data value in
    N.of_nat (length value) < 2 ^ 64 ->
    Data_wireEncode d = Some (inr wire, data_decoded info wire d) /\
    Block_fromBuffer (b_wire wire) = Some wire /\
    forall d0, Data_wireDecode wire d0 = Some (inr tt, data_decoded info wire d).
Proof.
  intros Hd Hnone. pose proof Hd as [Hn Hm Hc Hs (v & Hv & Htv & Hwv)].
  destruct (SignatureInfo_roundtrip TLV_SignatureInfo (wd_signatureInfo d) ltac:(done) Hs) as (info & Ei & Ht & Hi & Hdec).
  assert (SignatureInfo_valid (wd_signatureInfo d) = true) as Hvalid.
  { unfold SignatureInfo_valid. destruct Hs as [Hs _ _ _]. by rewrite (proj2 (Z.eqb_neq _ _)) by lia. }
  exists info, (mjoin (b_wire <$> data_unsigned_elements d info) ++ b_wire v).
  assert (Data_encode_value false d = inr (mjoin (b_wire <$> data_unsigned_elements d info) ++ b_wire v)) as Ev.
  { unfold Data_encode_value. rewrite Hvalid, Ei. cbn [negb andb mbind tlv_bind]. by rewrite Hv. }
  split_and!; [done|done|]. intros wire Hsize.
  assert (forall d0, Data_wireDecode wire d0 = Some (inr tt, data_decoded info wire d)) as Hdecode.
  { intros d0. unfold Data_wireDecode. change (b_type wire) with TLV_Data. rewrite N.eqb_refl. cbn [negb].
    assert (b_value wire = mjoin (b_wire <$> data_unsigned_elements d info ++ [v])) as ->.
    { rewrite fmap_app, join_app. cbn. by rewrite app_nil_r. }
    rewrite Block_parse_wires by (apply Forall_app; split; [apply data_unsigned_wf; [done|by apply block_ok_wf]|by apply Forall_singleton]).
    assert (data_unsigned_elements d info ++ [v] = name_block (wd_name d) :: drop 1 (data_unsigned_elements d info) ++ [v]) as -> by done.
    unfold mbind at 1, OM_bind at 1. cbn [modify]. unfold mbind at 1, OM_bind at 1. cbn [lift mret OM_ret].
    change (b_type (name_block (wd_name d))) with TLV_Name. rewrite N.eqb_refl, Name_wireDecode_block by done. cbn [negb].
    unfold mbind at 1, OM_bind at 1. cbn [modify wd_wire d_with_wire]. unfold mbind at 1, OM_bind at 1.
    rewrite (data_elements_decode d info v wire) by done. unfold data_check. rewrite bind_get.
    change (SignatureInfo_valid (wd_signatureInfo (data_decoded info wire d))) with (SignatureInfo_valid (wd_signatureInfo d)). rewrite Hvalid. cbn [negb].
    cbn [data_decoded wd_signatureValue]. by rewrite Hv. }
  split_and!; [|apply fromBuffer_read; rewrite <- (app_nil_r (b_wire wire)); by apply Block_read_wire, makeBinaryBlock_ok|done].
  unfold Data_wireEncode. rewrite bind_get, Hnone, Ev. unfold mbind at 1, OM_bind at 1. cbn [lift mret OM_ret]. fold wire.
  unfold mbind, OM_bind. by rewrite Hdecode.
Qed.

(** C18: A signed Data survives the wire. One that is well-formed, with a valid signature
    information and a signature value, and has no wire yet is encoded to bytes that read as one
    element, from which any receiver decodes the same name, MetaInfo, content, signature
    information and value, each with the wire it came in, whatever its object held before. *)
Theorem data_roundtrip d :
  data_wf d -> wd_wire d = None ->
  exists info value, SignatureInfo_encode TLV_SignatureInfo (wd_signatureInfo d) = inr info /\ Data_encode_value false d = inr value /\
    let wire := makeBinaryBlock TLV_Data value in
    N.of_nat (length value) < 2 ^ 64 ->
    Data_wireEncode d = Some (inr wire, data_decoded info wire d) /\
    Block_fromBuffer (b_wire wire) = Some wire /\
    forall d0, Data_wireDecode wire d0 = Some (inr tt, data_decoded info wire d).
Proof. apply data_roundtrip_ok. Qed.

(** A segment with content, a freshness period and a final block, signed with a key's name. *)
Definition sample_data : WireData :=
  mkWireData [ascii_component "a"] (mkMetaInfo 0 1000 (Some (ascii_component "z")) [] None) (Some (makeBinaryBlock TLV_Content [x01; x02]))
    (mkSignatureInfo 3 (Some (KL_Name [ascii_component "k"])) [] None) (Some (makeBinaryBlock TLV_SignatureValue [x07])) None [].
Lemma data_roundtrip_witness :
  exists info value, SignatureInfo_encode TLV_SignatureInfo (wd_signatureInfo sample_data) = inr info /\ Data_encode_value false sample_data = inr value /\
    let wire := makeBinaryBlock TLV_Data value in
    N.of_nat (length value) < 2 ^ 64 ->
    Data_wireEncode sample_data = Some (inr wire, data_decoded info wire sample_data) /\
    Block_fromBuffer (b_wire wire) = Some wire /\
    forall d0, Data_wireDecode wire d0 = Some (inr tt, data_decoded info wire sample_data).
Proof.
  apply (data_roundtrip sample_data); [|reflexivity]. split.
  - split; [|reflexivity]. apply Forall_singleton. split; [split|]; reflexivity || discriminate.
  - split; [discriminate|split; reflexivity || discriminate| |constructor|reflexivity].
    intros c [= <-]. split; [reflexivity|split; [split; [split|]|]]; reflexivity || discriminate.
  - intros c [= <-]. split; [reflexivity|]. apply block_ok_wf, makeBinaryBlock_ok; [split|]; reflexivity || discriminate.
  - split; [split; discriminate| |constructor|intros b [= <-]; reflexivity].
    intros k [= <-]. split; [|reflexivity]. split; [|reflexivity]. apply Forall_singleton. split; [split|]; reflexivity || discriminate.
  - exists (makeBinaryBlock TLV_SignatureValue [x07]). split; [reflexivity|]. split; [reflexivity|].
    apply block_ok_wf, makeBinaryBlock_ok; [split|]; reflexivity || discriminate.
Defined.
