(* ===== verification/DataObject.v ===== *)
(** * The Data object (ndn-cxx data.cpp)

    Every operation of the class keeps the object in a good state: a kept wire decodes to the
    very object, and a full name that was computed is that of the kept wire. Examples show
    what an exception can leave behind. *)

From S2P Require Import Prelude Tlv ObjectMonad Name Packet Block LpPacket NameWire SignatureWire DataWire.

Local Open Scope N_scope.

Inductive DataOp :=
  | DopSetName (name : Name)
  | DopSetMetaInfo (mi : MetaInfo)
  | DopSetContent (block : Block)
  | DopSetContentBytes (value : option (list byte))
  | DopUnsetContent
  | DopSetSignatureInfo (info : SignatureInfo)
  | DopSetSignatureValue (value : option (list byte))
  | DopSetContentType (type : N)
  | DopSetFreshnessPeriod (freshnessPeriod : Z)
  | DopSetFinalBlock (finalBlockId : option Component)
  | DopGetFullName
  | DopWireEncode
  | DopWireEncodeSigned (unsigned : list byte) (signatureValue : Block)
  | DopWireDecode (wire : Block).

(** Arguments that have their C++ types. *)
Definition data_op_typed (op : DataOp) : Prop :=
  match op with
  | DopSetMetaInfo mi => mi_ok mi
  | DopSetFreshnessPeriod p => int64_range p
  | _ => True
  end.
(** The operations that may throw after they have changed the object. *)
Definition data_partial_on_throw (op : DataOp) : bool :=
  match op with DopWireEncode | DopWireEncodeSigned _ _ | DopWireDecode _ => true | _ => false end.

Section operations.
Context (sha256 : list byte -> list byte).

(** The result of a method, not looked at. *)
Definition discard {A} (m : DM A) : DM unit := m;; mret tt.
Definition run_data_op (op : DataOp) : DM unit :=
  match op with
  | DopSetName name => data_setName name
  | DopSetMetaInfo mi => setMetaInfo mi
  | DopSetContent block => setContent block
  | DopSetContentBytes value => setContent_bytes value
  | DopUnsetContent => unsetContent
  | DopSetSignatureInfo info => data_setSignatureInfo info
  | DopSetSignatureValue value => data_setSignatureValue value
  | DopSetContentType type => setContentType type
  | DopSetFreshnessPeriod p => data_setFreshnessPeriod p
  | DopSetFinalBlock c => data_setFinalBlock c
  | DopGetFullName => discard (data_getFullName sha256)
  | DopWireEncode => discard (Data_wireEncode)
  | DopWireEncodeSigned unsigned signatureValue => discard (Data_wireEncode_signed unsigned signatureValue)
  | DopWireDecode wire => Data_wireDecode wire
  end.

Definition data_good (may_break : bool) (d : WireData) (o : option ((Exception + unit) * WireData)) : Prop :=
  exists r d', o = Some (r, d') /\ match r with inr _ => data_ok sha256 d' | inl _ => d' = d \/ may_break = true end.
Lemma data_good_same b d : data_ok sha256 d -> data_good b d (Some (inr tt, d)).
Proof. intros. by exists (inr tt), d. Qed.
Lemma data_good_throw b d e : data_good b d (Some (inl e, d)).
Proof. exists (inl e), d. auto. Qed.
(** A setter: the new field, and no wire. *)
Lemma data_good_set b d f : mi_ok (wd_metaInfo (f d)) -> data_good b d ((modify f;; data_resetWire) d).
Proof. intros H. exists (inr tt), (d_with_fullName [] (d_with_wire None (f d))). split; [done|]. split; [done|done|done|by left]. Qed.
Lemma data_good_decode wire d : data_good true d (Data_wireDecode wire d).
Proof. destruct (data_wireDecode_ok sha256 wire d) as (r & d' & -> & H). exists r, d'. destruct r; [auto|]. split; [done|]. apply H. Qed.
Lemma data_good_discard b d {A B} (m : DM A) (x : B) : data_good b d (discard m d) -> data_good b d (discard (m;; mret x) d).
Proof. unfold discard, mbind, OM_bind. by destruct (m d) as [[[]]|]. Qed.
Lemma data_good_unit b d (m : DM unit) : data_good b d (m d) -> data_good b d (discard m d).
Proof.
  intros (r & d' & E & H). unfold discard, mbind, OM_bind. rewrite E. destruct r as [e|[]]; [by exists (inl e), d'|by exists (inr tt), d'].
Qed.
Lemma data_getFullName_good d : data_ok sha256 d -> data_good false d (discard (data_getFullName sha256) d).
Proof.
  intros Hd. pose proof Hd as [H1 H2 H3 H4]. unfold discard, data_getFullName, mbind, OM_bind. cbn [get].
  destruct (wd_fullName d) as [|c n] eqn:En; [|by apply data_good_same]. destruct (wd_wire d) as [b|] eqn:Eb; [|by apply data_good_throw].
  cbn [modify mret OM_ret]. eexists (inr tt), _. split; [done|]. split; [done| |intros _; by apply H3|].
  - intros b' Hb' d0. simpl in Hb'. rewrite Eb in Hb'. injection Hb' as <-. by rewrite (H2 b eq_refl d0).
  - right. by exists b.
Qed.
Lemma run_data_op_good op d : data_op_typed op -> data_ok sha256 d -> data_good (data_partial_on_throw op) d (run_data_op op d).
Proof.
  intros Hop Hd. pose proof Hd as [Hm _ _ _]. destruct op; cbn [run_data_op data_partial_on_throw data_op_typed] in *.
  - unfold data_setName. rewrite bind_get. destruct (Name_equals _ _); cbn [negb]; [by apply data_good_same|by apply data_good_set].
  - by apply data_good_set.
  - unfold setContent. destruct (_ =? 0); [apply data_good_throw|by apply data_good_set].
  - unfold setContent_bytes. destruct value; [by apply data_good_set|apply data_good_throw].
  - by apply data_good_set.
  - by apply data_good_set.
  - unfold data_setSignatureValue. destruct value; [by apply data_good_set|apply data_good_throw].
  - unfold setContentType. rewrite bind_get. destruct (_ =? _); cbn [negb]; [by apply data_good_same|by apply data_good_set].
  - unfold data_setFreshnessPeriod. rewrite bind_get. destruct (_ =? _)%Z; cbn [negb]; [by apply data_good_same|].
    unfold mi_setFreshnessPeriod. destruct (Z.ltb_spec freshnessPeriod 0); [apply data_good_throw|by apply data_good_set].
  - unfold data_setFinalBlock. rewrite bind_get. destruct (bool_decide _); cbn [negb]; [by apply data_good_same|by apply data_good_set].
  - by apply data_getFullName_good.
  - unfold Data_wireEncode, discard. unfold mbind at 1, OM_bind at 1. rewrite bind_get. destruct (wd_wire d) as [b|]; [by apply data_good_same|].
    destruct (Data_encode_value false d) as [e|value]; [apply data_good_throw|].
    apply (data_good_discard _ _ (Data_wireDecode (makeBinaryBlock TLV_Data value))), data_good_unit, data_good_decode.
  - by apply data_good_discard, data_good_unit, data_good_decode.
  - apply data_good_decode.
Qed.

Inductive data_reachable : WireData -> Prop :=
  | data_reach_new name : data_reachable (Data_new name)
  | data_reach_op op d r d' :
      data_reachable d -> data_op_typed op -> run_data_op op d = Some (r, d') ->
      (forall e, r = inl e -> data_partial_on_throw op = false) -> data_reachable d'.

Lemma data_reachable_ok d : data_reachable d -> data_ok sha256 d.
Proof.
  induction 1 as [name|op d r d' _ IH Hop E Hr]; [by split; [| | |left]|].
  destruct (run_data_op_good op d Hop IH) as (r' & d'' & E' & H). rewrite E in E'. injection E' as <- <-.
  destruct r as [e|]; [|done]. destruct H as [->|H]; [done|]. by rewrite (Hr e) in H.
Qed.
End operations.

(** C19: The Data object keeps its invariant. From a new object, by any sequence of its
    operations: a wire that is kept is that of a signed packet and decodes, into any object,
    to exactly this one; a full name that was computed is the name with the digest of that
    wire, so that every setter drops both; the freshness period stays in the range of its
    type. An operation that throws leaves the object as it was, except for the encoders and
    the decoder. *)
Theorem data_operations sha256 d :
  data_reachable sha256 d ->
  data_ok sha256 d /\
  forall op, data_op_typed op -> exists r d', run_data_op sha256 op d = Some (r, d') /\
    match r with inr _ => data_ok sha256 d' | inl _ => d' = d \/ data_partial_on_throw op = true end.
Proof. intros Hd%data_reachable_ok. split; [done|]. intros op Hop. by apply run_data_op_good. Qed.

Lemma data_operations_witness :
  data_ok (fun _ => []) (Data_new [ascii_component "a"]) /\
  exists r d', run_data_op (fun _ => []) (DopSetContentBytes (Some [x01])) (Data_new [ascii_component "a"]) = Some (r, d') /\
    match r with inr _ => data_ok (fun _ => []) d' | inl _ => d' = Data_new [ascii_component "a"] \/ false = true end.
Proof.
  destruct (data_operations (fun _ => []) (Data_new [ascii_component "a"])) as [H1 H2]; [constructor|].
  split; [exact H1|]. exact (H2 (DopSetContentBytes (Some [x01])) I).
Defined.

(** ** What an exception leaves behind *)

(** Signature information without a value: the first encoding throws, the second gives the
    bytes that did not decode. *)
Example data_encode_again :
  match Data_wireEncode (d_with_signatureInfo (mkSignatureInfo 0 None [] None) (Data_new [ascii_component "a"])) with
  | Some (inl e, d) => e = TlvError (IllegalType 0) /\ exists b, Data_wireEncode d = Some (inr b, d)
  | _ => False
  end.
Proof. vm_compute. split; [reflexivity|]. eexists. reflexivity. Qed.

(** A MetaInfo decoded into an object that was used before: the application's elements add up. *)
Example metainfo_decoded_twice :
  let wire := MetaInfo_encode (mkMetaInfo 0 0 None [makeEmptyBlock 128] None) in
  match (MetaInfo_wireDecode wire;; MetaInfo_wireDecode wire) MetaInfo_default with
  | Some (inr _, mi) => mi_app mi = [makeEmptyBlock 128; makeEmptyBlock 128]
  | _ => False
  end.
Proof. vm_compute. reflexivity. Qed.

(** A freshness period off the wire that no setter accepts. *)
Example freshness_negative :
  let wire := makeBinaryBlock TLV_MetaInfo (b_wire (makeNonNegativeIntegerBlock TLV_FreshnessPeriod (2 ^ 63))) in
  match MetaInfo_wireDecode wire MetaInfo_default with
  | Some (inr _, mi) => mi_freshness mi = (- 2 ^ 63)%Z /\ mi_setFreshnessPeriod (mi_freshness mi) MetaInfo_default = inl InvalidArgument
  | _ => False
  end.
Proof. vm_compute. split; reflexivity. Qed.
