(* ===== verification/LpFields.v ===== *)
(** * Values of link protocol fields (ndn-cxx/lp/nack-header.cpp, cache-policy.cpp,
      pit-token.cpp, prefix-announcement-header.cpp, and prefix-announcement.cpp)

    The classes that the link service decodes from header fields. Conversion of a time in ISO
    form is left to a parameter, since it is done by boost::posix_time, which may throw
    [std::bad_cast] or other exceptions. *)

From S2P Require Import Prelude Tlv Block Name LpPacket NameWire SignatureWire ObjectMonad Packet DataWire.

Local Open Scope N_scope.

(** ** NackHeader *)

(** The value of the enum is an [int]; an unknown one is kept. *)
Record NackHeader := mkNackHeader { nh_reason : N; nh_wire : option Block }.
#[global] Instance NackHeader_eq_dec : EqDecision NackHeader.
Proof. solve_decision. Defined.

Definition NackHeader_new : NackHeader := mkNackHeader 0 None.
Definition nackHeader_encode (h : NackHeader) : Block :=
  makeBinaryBlock LP_Nack (b_wire (makeNonNegativeIntegerBlock LP_NackReason (nh_reason h))).
Definition nackHeader_wireEncode (h : NackHeader) : Block * NackHeader :=
  match nh_wire h with
  | Some b => (b, h)
  | None => let b := nackHeader_encode h in (b, mkNackHeader (nh_reason h) (Some b))
  end.
Definition nackHeader_wireDecode (wire : Block) : tlv_error + NackHeader :=
  if negb (b_type wire =? LP_Nack) then inl (UnexpectedType (b_type wire))
  else
    elements ← Block_parse (b_value wire);
    match elements with
    | [] => inr (mkNackHeader 0 (Some wire))
    | it :: _ => if b_type it =? LP_NackReason then n ← block_readNonNegativeInteger it; inr (mkNackHeader (n mod 2 ^ 32) (Some wire))
                 else inl (UnexpectedType (b_type it))
    end.
Definition getReason (h : NackHeader) : NackReason :=
  if nh_reason h =? 50 then CONGESTION else if nh_reason h =? 100 then DUPLICATE else if nh_reason h =? 150 then NO_ROUTE else NACK_NONE.
Definition setReason (reason : NackReason) (h : NackHeader) : NackHeader := mkNackHeader (nack_underlying reason) None.

(** ** CachePolicy *)

Inductive CachePolicyType := CP_NONE | CP_NO_CACHE.
#[global] Instance CachePolicyType_eq_dec : EqDecision CachePolicyType.
Proof. solve_decision. Defined.
Record CachePolicy := mkCachePolicy { cp_policy : N; cp_wire : option Block }.
#[global] Instance CachePolicy_eq_dec : EqDecision CachePolicy.
Proof. solve_decision. Defined.

Definition CachePolicy_new : CachePolicy := mkCachePolicy 0 None.
Definition getPolicy (c : CachePolicy) : CachePolicyType := if cp_policy c =? 1 then CP_NO_CACHE else CP_NONE.
Definition setPolicy (policy : CachePolicyType) (c : CachePolicy) : CachePolicy :=
  mkCachePolicy (match policy with CP_NONE => 0 | CP_NO_CACHE => 1 end) None.
Definition cachePolicy_wireEncode (c : CachePolicy) : tlv_error + (Block * CachePolicy) :=
  if cp_policy c =? 0 then inl (InvalidValue LP_CachePolicy)
  else match cp_wire c with
  | Some b => inr (b, c)
  | None => let b := makeBinaryBlock LP_CachePolicy (b_wire (makeNonNegativeIntegerBlock LP_CachePolicyType (cp_policy c))) in
            inr (b, mkCachePolicy (cp_policy c) (Some b))
  end.
Definition cachePolicy_wireDecode (wire : Block) : tlv_error + CachePolicy :=
  if negb (b_type wire =? LP_CachePolicy) then inl (UnexpectedType (b_type wire))
  else
    elements ← Block_parse (b_value wire);
    match elements with
    | [] => inl (InvalidValue LP_CachePolicy)
    | it :: _ =>
        if b_type it =? LP_CachePolicyType then
          n ← block_readNonNegativeInteger it;
          let c := mkCachePolicy (n mod 2 ^ 32) (Some wire) in
          if bool_decide (getPolicy c = CP_NONE) then inl (InvalidValue LP_CachePolicyType) else inr c
        else inl (UnexpectedType (b_type it))
    end.

(** ** PitToken *)

Definition PitToken_LENGTH_MAX : nat := 32.
Definition pitToken_validate (v : list byte) : tlv_error + list byte :=
  if ((length v <? 1) || (PitToken_LENGTH_MAX <? length v))%nat then inl (InvalidValue LP_PitToken) else inr v.

(** ** PrefixAnnouncement *)

Definition ContentType_PrefixAnn : N := 5.
Definition TLV_ExpirationPeriod : N := 109.
Definition TLV_NotBefore : N := 254.
Definition TLV_NotAfter : N := 255.
Definition KEYWORD_PA_COMP : Component := mkComponent KeywordNameComponent [x50; x41].
Definition ISO_DATETIME_SIZE : nat := 15.

(** What [time::fromIsoString] may do: a time in nanoseconds, [std::bad_cast], or an exception
    that is not one. *)
Inductive IsoResult := IsoTime (t : Z) | IsoBadCast | IsoOtherException.
(** Such an exception, as the code number of [OtherError]. *)
Definition IsoException : Exception := OtherError 3.

Record PrefixAnnouncement := mkPrefixAnnouncement {
  pa_data : WireData;
  pa_announcedName : Name;
  pa_expiration : Z;
  pa_validity : option (Z * Z);        (* seconds *)
}.
#[global] Instance PrefixAnnouncement_eq_dec : EqDecision PrefixAnnouncement.
Proof. solve_decision. Defined.

Section announcement.
Context (cv : Conventions) (fromIsoString : list byte -> IsoResult).

(** The [try] block that reads one time. *)
Definition iso_time (v : list byte) : Exception + Z :=
  match fromIsoString v with
  | IsoTime t => inr (Z.quot t 1000000000)
  | IsoBadCast => inl (TlvError (InvalidValue TLV_ValidityPeriod))
  | IsoOtherException => inl IsoException
  end.
Definition ValidityPeriod_wireDecode (wire : Block) : Exception + (Z * Z) :=
  match Block_parse (b_value wire) with
  | inl e => inl (TlvError e)
  | inr elements =>
      if negb (b_type wire =? TLV_ValidityPeriod) then inl (TlvError (UnexpectedType (b_type wire)))
      else match elements with
      | [notBefore; notAfter] =>
          if negb (b_type notBefore =? TLV_NotBefore) || negb (length (b_value notBefore) =? ISO_DATETIME_SIZE)%nat
             || negb (b_type notAfter =? TLV_NotAfter) || negb (length (b_value notAfter) =? ISO_DATETIME_SIZE)%nat
          then inl (TlvError (InvalidValue TLV_ValidityPeriod))
          else match iso_time (b_value notBefore) with
          | inl e => inl e
          | inr b => match iso_time (b_value notAfter) with inl e => inl e | inr a => inr (b, a) end
          end
      | _ => inl (TlvError (InvalidValue TLV_ValidityPeriod))
      end
  end.

(** The constructor from a Data. *)
Definition PrefixAnnouncement_fromData (data : WireData) : Exception + PrefixAnnouncement :=
  let dataName := wd_name data in
  let invalid := inl (TlvError (InvalidValue LP_PrefixAnnouncement)) in
  if match rev dataName with
     | c1 :: c2 :: c3 :: _ => negb (bool_decide (c3 = KEYWORD_PA_COMP)) || negb (isVersion cv c2) || negb (isSegment cv c1)
     | _ => true
     end then invalid
  else
    let announcedName := getPrefix dataName (-3) in
    if negb (mi_type (wd_metaInfo data) =? ContentType_PrefixAnn) then invalid
    else match (match wd_content data with Some c => b_value c | None => [] end) with
    | [] => invalid
    | value =>
        match Block_parse value with
        | inl e => inl (TlvError e)
        | inr elements =>
            match (match find_type TLV_ExpirationPeriod elements with None => inl (InvalidValue TLV_ExpirationPeriod) | Some b => block_readNonNegativeInteger b end) with
            | inl e => inl (TlvError e)
            | inr n =>
                match (match find_type TLV_ValidityPeriod elements with
                       | None => inr None
                       | Some b => match ValidityPeriod_wireDecode b with inl e => inl e | inr v => inr (Some v) end
                       end) with
                | inl e => inl e
                | inr validity =>
                    if existsb (fun e => negb (b_type e =? TLV_ExpirationPeriod) && negb (b_type e =? TLV_ValidityPeriod) && isCriticalType (b_type e)) elements
                    then invalid
                    else inr (mkPrefixAnnouncement data announcedName (to_int64 n) validity)
                end
            end
        end
    end.

(** [PrefixAnnouncementHeader::wireDecode]. *)
Definition prefixAnnouncementHeader_wireDecode (wire : Block) : option (Exception + PrefixAnnouncement) :=
  if negb (b_type wire =? LP_PrefixAnnouncement) then Some (inl (TlvError (UnexpectedType (b_type wire))))
  else match Block_parse (b_value wire) with
  | inl e => Some (inl (TlvError e))
  | inr elements =>
      match find_type TLV_Data elements with
      | None => Some (inl (TlvError (InvalidValue TLV_Data)))
      | Some b =>
          match Data_wireDecode b (Data_new []) with
          | None => None
          | Some (inl e, _) => Some (inl e)
          | Some (inr _, data) => Some (PrefixAnnouncement_fromData data)
          end
      end
  end.
(** [PrefixAnnouncementHeader::wireEncode], of an announcement that was decoded. *)
Definition prefixAnnouncementHeader_wireEncode (pa : PrefixAnnouncement) : option (Exception + Block) :=
  match Data_wireEncode (pa_data pa) with
  | None => None
  | Some (inl e, _) => Some (inl e)
  | Some (inr b, _) => Some (inr (makeBinaryBlock LP_PrefixAnnouncement (b_wire b)))
  end.
End announcement.

Lemma nackHeader_roundtrip h : nh_reason h < 2 ^ 32 ->
  exists h', nackHeader_wireDecode (nackHeader_encode h) = inr h' /\ nh_reason h' = nh_reason h.
Proof.
  intros Hr. unfold nackHeader_wireDecode, nackHeader_encode. cbn [b_type b_value makeBinaryBlock]. rewrite N.eqb_refl. cbn [negb].
  rewrite Block_parse_one by (apply block_ok_wf, number_block_ok; done). cbn [mbind tlv_bind].
  rewrite (block_readNonNegativeInteger_ok LP_NackReason (nh_reason h)) by lia. cbn [b_type makeNonNegativeIntegerBlock makeBinaryBlock].
  rewrite N.eqb_refl. cbn [mbind tlv_bind]. eexists. split; [done|]. cbn. by apply N.mod_small.
Qed.
Lemma setReason_bound r h : nh_reason (setReason r h) < 2 ^ 32.
Proof. by destruct r. Qed.
Lemma getReason_setReason r h : getReason (setReason r h) = r.
Proof. by destruct r. Qed.
