(* ===== verification/LpReliability.v ===== *)
(** * Reliability of a link (NFD/daemon/face/lp-reliability.cpp)

    Every fragment sent gets a TxSequence and stays in the map of unacknowledged fragments
    until its Ack comes. A fragment is sent again when its timer fires or when enough later ones
    are acknowledged; after too many retransmissions its whole network packet is given up. The
    clock is read once per event. [std::map] iterators are keys, [end()] is [None]; a pointer to
    a [NetPkt] is an identifier in a store. Failed assertions and uses of an invalid iterator
    are [None]. *)

From S2P Require Import Prelude Tlv Block LpPacket LpReassembly ObjectMonad RttEstimator Packet InterestWire.

Local Open Scope N_scope.

Record RelOptions := mkRelOptions {
  ro_isEnabled : bool;
  ro_maxRetx : N;
  ro_idleAckTimerPeriod : Z;
  ro_seqNumLossThreshold : N;
}.
Definition RelOptions_default : RelOptions := mkRelOptions false 3 5000000 3.

Record UnackedFrag := mkUnackedFrag {
  uf_pkt : LpPacket;
  uf_rtoTimer : option Z;              (* when it fires *)
  uf_sendTime : Z;
  uf_retxCount : N;
  uf_nGreaterSeqAcks : N;
  uf_netPkt : N;
}.
Record NetPkt := mkNetPkt {
  np_unackedFrags : list N;
  np_pkt : LpPacket;
  np_isInterest : bool;
  np_didRetx : bool;
}.
Record LpReliability := mkLpReliability {
  rel_options : RelOptions;
  rel_unackedFrags : gmap N UnackedFrag;
  rel_firstUnackedFrag : option N;
  rel_ackQueue : list N;
  rel_recentRecvSeqs : gmap N Z;
  rel_recentRecvSeqsQueue : list N;
  rel_lastTxSeqNo : N;
  rel_idleAckTimer : option Z;
  rel_rttEst : RttEstimator;
  rel_netPkts : gmap N NetPkt;         (* the objects that [shared_ptr]s point to *)
  rel_nextNetPkt : N;
}.
(** The constructor. *)
Definition LpReliability_new (options : RelOptions) : LpReliability :=
  mkLpReliability options ∅ None [] ∅ [] (2 ^ 64 - 1) None RttEstimator_new ∅ 0.

Definition rel_with_options o r := mkLpReliability o (rel_unackedFrags r) (rel_firstUnackedFrag r) (rel_ackQueue r) (rel_recentRecvSeqs r) (rel_recentRecvSeqsQueue r) (rel_lastTxSeqNo r) (rel_idleAckTimer r) (rel_rttEst r) (rel_netPkts r) (rel_nextNetPkt r).
Definition rel_with_frags m f r := mkLpReliability (rel_options r) m f (rel_ackQueue r) (rel_recentRecvSeqs r) (rel_recentRecvSeqsQueue r) (rel_lastTxSeqNo r) (rel_idleAckTimer r) (rel_rttEst r) (rel_netPkts r) (rel_nextNetPkt r).
Definition rel_with_acks q r := mkLpReliability (rel_options r) (rel_unackedFrags r) (rel_firstUnackedFrag r) q (rel_recentRecvSeqs r) (rel_recentRecvSeqsQueue r) (rel_lastTxSeqNo r) (rel_idleAckTimer r) (rel_rttEst r) (rel_netPkts r) (rel_nextNetPkt r).
Definition rel_with_recent m q r := mkLpReliability (rel_options r) (rel_unackedFrags r) (rel_firstUnackedFrag r) (rel_ackQueue r) m q (rel_lastTxSeqNo r) (rel_idleAckTimer r) (rel_rttEst r) (rel_netPkts r) (rel_nextNetPkt r).
Definition rel_with_last s r := mkLpReliability (rel_options r) (rel_unackedFrags r) (rel_firstUnackedFrag r) (rel_ackQueue r) (rel_recentRecvSeqs r) (rel_recentRecvSeqsQueue r) s (rel_idleAckTimer r) (rel_rttEst r) (rel_netPkts r) (rel_nextNetPkt r).
Definition rel_with_idle t r := mkLpReliability (rel_options r) (rel_unackedFrags r) (rel_firstUnackedFrag r) (rel_ackQueue r) (rel_recentRecvSeqs r) (rel_recentRecvSeqsQueue r) (rel_lastTxSeqNo r) t (rel_rttEst r) (rel_netPkts r) (rel_nextNetPkt r).
Definition rel_with_rtt e r := mkLpReliability (rel_options r) (rel_unackedFrags r) (rel_firstUnackedFrag r) (rel_ackQueue r) (rel_recentRecvSeqs r) (rel_recentRecvSeqsQueue r) (rel_lastTxSeqNo r) (rel_idleAckTimer r) e (rel_netPkts r) (rel_nextNetPkt r).
Definition rel_with_netPkts m n r := mkLpReliability (rel_options r) (rel_unackedFrags r) (rel_firstUnackedFrag r) (rel_ackQueue r) (rel_recentRecvSeqs r) (rel_recentRecvSeqsQueue r) (rel_lastTxSeqNo r) (rel_idleAckTimer r) (rel_rttEst r) m n.

Definition uf_with_timer t f := mkUnackedFrag (uf_pkt f) t (uf_sendTime f) (uf_retxCount f) (uf_nGreaterSeqAcks f) (uf_netPkt f).
Definition uf_with_acks n f := mkUnackedFrag (uf_pkt f) (uf_rtoTimer f) (uf_sendTime f) (uf_retxCount f) n (uf_netPkt f).
Definition np_with_frags l p := mkNetPkt l (np_pkt p) (np_isInterest p) (np_didRetx p).
Definition np_retransmitted p := mkNetPkt (np_unackedFrags p) (np_pkt p) (np_isInterest p) true.

(** The exceptions that are not of the TLV library. *)
Definition LengthError : Exception := OtherError 1.
Definition OutOfRange : Exception := OtherError 2.
(** [get<FIELD>()] of a packet. *)
Definition lp_getAs {S A} (t : N) (decode : Block -> tlv_error + A) (p : LpPacket) : OM S A :=
  match lp_get t p with None => throw OutOfRange | Some b => lift (decode b) end.

(** ** The map of unacknowledged fragments *)

Section map.
Context {V : Type}.
Implicit Types m : gmap N V.

(** [std::map] keeps its keys in order. *)
Definition keys m : list N := merge_sort N.le (map_to_list m).*1.
Definition begin m : option N := head (keys m).
(** [std::next], and the element after an erased one. *)
Definition next_key (k : N) m : option N := head (filter (fun k' => k < k') (keys m)).
(** [emplace_hint]: an element with the key stays as it is. *)
Definition emplace (k : N) (v : V) m : gmap N V := match m !! k with Some _ => m | None => <[k := v]> m end.
End map.

Definition rel_update_frag (k : N) (f : UnackedFrag -> UnackedFrag) (r : LpReliability) : LpReliability :=
  rel_with_frags (alter f k (rel_unackedFrags r)) (rel_firstUnackedFrag r) r.
Definition rel_update_netPkt (id : N) (f : NetPkt -> NetPkt) (r : LpReliability) : LpReliability :=
  rel_with_netPkts (alter f id (rel_netPkts r)) (rel_nextNetPkt r) r.

Definition assignTxSequence (frag : LpPacket) : OM LpReliability (N * LpPacket) :=
  modify (fun r => rel_with_last ((rel_lastTxSeqNo r + 1) mod 2 ^ 64) r);;
  r ← get;
  let txSeq := rel_lastTxSeqNo r in
  if decide (rel_unackedFrags r = ∅) then mret (txSeq, lp_set LP_TxSequence (encode_sequence txSeq) frag)
  else match rel_firstUnackedFrag r with
  | None => assert false;; throw LengthError
  | Some first => if txSeq =? first then throw LengthError
                  else mret (txSeq, lp_set LP_TxSequence (encode_sequence txSeq) frag)
  end.

Definition deleteUnackedFrag (k : N) : OM LpReliability unit :=
  r ← get;
  match rel_firstUnackedFrag r with
  | None => assert false
  | Some first =>
      assert (bool_decide (is_Some (rel_unackedFrags r !! first) /\ is_Some (rel_unackedFrags r !! k)));;
      let m := delete k (rel_unackedFrags r) in
      let next := next_key k m in
      modify (rel_with_frags m
        (if bool_decide (m <> ∅) && (first =? k) then match next with None => begin m | Some n => Some n end
         else if bool_decide (m = ∅) then None
         else Some first))
  end.

(** The loop of [handleOutgoing]; the fragments get their TxSequence. *)
Fixpoint handleOutgoing_loop (now : Z) (id : N) (frags : list LpPacket) : OM LpReliability (list LpPacket) :=
  match frags with
  | [] => mret []
  | frag :: frags =>
      assert (lp_has LP_Sequence frag);;
      '(txSeq, frag) ← assignTxSequence frag;
      modify (fun r => rel_with_frags (emplace txSeq (mkUnackedFrag frag None now 0 0 id) (rel_unackedFrags r)) (rel_firstUnackedFrag r) r);;
      lp_getAs LP_Sequence decode_sequence frag;;
      r ← get;
      modify (rel_update_frag txSeq (fun f => mkUnackedFrag (uf_pkt f) (Some (now + re_rto (rel_rttEst r))%Z) now (uf_retxCount f) (uf_nGreaterSeqAcks f) id));;
      modify (fun r => if (size (rel_unackedFrags r) =? 1)%nat then rel_with_frags (rel_unackedFrags r) (begin (rel_unackedFrags r)) r else r);;
      modify (rel_update_netPkt id (fun p => np_with_frags (np_unackedFrags p ++ [txSeq]) p));;
      rest ← handleOutgoing_loop now id frags;
      mret (frag :: rest)
  end.
Definition handleOutgoing (now : Z) (frags : list LpPacket) (pkt : LpPacket) (isInterest : bool) : OM LpReliability (list LpPacket) :=
  r ← get;
  assert (ro_isEnabled (rel_options r));;
  let id := rel_nextNetPkt r in
  modify (rel_with_netPkts (<[id := mkNetPkt [] pkt isInterest false]> (rel_netPkts r)) (id + 1));;
  handleOutgoing_loop now id frags.

(** [findLostLpPackets]: from the first fragment, around the end of the map, to the one that is
    acknowledged. *)
Fixpoint findLost_loop (fuel : nat) (threshold : N) (it : option N) (ack : N) (m : gmap N UnackedFrag) (lost : list N)
  : option (gmap N UnackedFrag * list N) :=
  match fuel with
  | O => None
  | S fuel =>
      match match it with None => begin m | Some k => Some k end with
      | None => None
      | Some k =>
          if k =? ack then Some (m, lost)
          else
            unackedFrag ← m !! k;
            let unackedFrag := uf_with_acks (uf_nGreaterSeqAcks unackedFrag + 1) unackedFrag in
            let m := <[k := unackedFrag]> m in
            findLost_loop fuel threshold (next_key k m) ack m
              (if threshold <=? uf_nGreaterSeqAcks unackedFrag then lost ++ [k] else lost)
      end
  end.
Definition findLostLpPackets (ack : N) : OM LpReliability (list N) := fun r =>
  match findLost_loop (S (size (rel_unackedFrags r))) (ro_seqNumLossThreshold (rel_options r)) (rel_firstUnackedFrag r) ack (rel_unackedFrags r) [] with
  | None => None
  | Some (m, lost) => Some (inr lost, rel_with_frags m (rel_firstUnackedFrag r) r)
  end.

(** [std::find], and an assignment through the iterator; [None] is [end()]. *)
Fixpoint replace_found (k k' : N) (l : list N) : option (list N) :=
  match l with
  | [] => None
  | x :: l => if x =? k then Some (k' :: l) else l ← replace_found k k' l; Some (x :: l)
  end.

(** ** Acks to send *)

Definition ACK_SIZE : Z := Z.of_N (sizeOfVarNumber LP_Ack + sizeOfVarNumber 8 + 8).
Definition MAX_NDN_PACKET_SIZE : N := 8800.
Definition MTU_UNLIMITED : Z := -1.
Fixpoint piggyback_loop (ackQueue : list N) (pkt : LpPacket) (remainingSpace : Z) : option (list N * LpPacket) :=
  match ackQueue with
  | [] => Some ([], pkt)
  | ackTxSeq :: rest =>
      if (remainingSpace <? ACK_SIZE)%Z then Some (ackQueue, pkt)
      else pkt ← lp_add LP_Ack (encode_sequence ackTxSeq) pkt; piggyback_loop rest pkt (remainingSpace - ACK_SIZE)
  end.
Definition piggyback (pkt : LpPacket) (mtu : Z) : OM LpReliability LpPacket :=
  r ← get;
  assert (ro_isEnabled (rel_options r));;
  match lp_wireEncode pkt with
  | None => assert false;; mret pkt
  | Some wire =>
      assert (b_type wire =? LP_LpPacket);;
      let pktSize := b_size wire in
      let reservedSpace := (Z.of_N (sizeOfVarNumber MAX_NDN_PACKET_SIZE) - Z.of_N (sizeOfVarNumber pktSize))%Z in
      let remainingSpace := ((if (mtu =? MTU_UNLIMITED)%Z then Z.of_N MAX_NDN_PACKET_SIZE else mtu) - reservedSpace)%Z in
      let remainingSpace := (remainingSpace - Z.of_N pktSize)%Z in
      match piggyback_loop (rel_ackQueue r) pkt remainingSpace with
      | None => throw InvalidArgument
      | Some (q, pkt) => modify (rel_with_acks q);; mret pkt
      end
  end.

Definition startIdleAckTimer (now : Z) : OM LpReliability unit :=
  r ← get;
  match rel_idleAckTimer r with
  | Some _ => mret tt
  | None => modify (rel_with_idle (Some (now + ro_idleAckTimerPeriod (rel_options r))%Z))
  end.
Definition setOptions (options : RelOptions) : OM LpReliability unit :=
  assert (0 <? ro_idleAckTimerPeriod options)%Z;;
  r ← get;
  (if ro_isEnabled (rel_options r) && negb (ro_isEnabled options) then modify (rel_with_idle None) else mret tt);;
  modify (rel_with_options options).

(** ** Packets received before *)

(** The loop that forgets old sequences; [operator[]] makes an entry at time zero for a sequence
    that the map does not have. *)
Fixpoint expire_recent (now rto : Z) (queue : list N) (seqs : gmap N Z) : list N * gmap N Z :=
  match queue with
  | [] => ([], seqs)
  | s :: rest =>
      let seqs := emplace s 0%Z seqs in
      if (default 0 (seqs !! s) + rto <? now)%Z then expire_recent now rto rest (delete s seqs)
      else (queue, seqs)
  end.
(** [isDuplicate], and the memory with the new sequence. *)
Definition checkDuplicate (now : Z) (pktSequence : N) : OM LpReliability bool :=
  r ← get;
  let isDuplicate := bool_decide (is_Some (rel_recentRecvSeqs r !! pktSequence)) in
  let '(queue, seqs) := expire_recent now (re_rto (rel_rttEst r)) (rel_recentRecvSeqsQueue r) (rel_recentRecvSeqs r) in
  modify (rel_with_recent (emplace pktSequence now seqs) (queue ++ [pktSequence]));;
  mret isDuplicate.

(** [list<FIELD>()]. *)
Definition decode_all {A} (decode : Block -> tlv_error + A) (l : list Block) : tlv_error + list A :=
  foldr (fun b rest => v ← decode b; rest ← rest; inr (v :: rest)) (inr []) l.

(** ** The link service the object belongs to *)

Inductive LinkCounter :=
| nOutInterests | nOutData | nOutNacks | nInInterests | nInData | nInNacks | nInterestsExceededRetx
| nFragmentationErrors | nOutOverMtu | nInLpInvalid | nReassemblyTimeouts | nInNetInvalid
| nAcknowledged | nRetransmitted | nRetxExhausted | nDuplicateSequence | nCongestionMarked.
#[global] Instance LinkCounter_eq_dec : EqDecision LinkCounter.
Proof. solve_decision. Defined.

(** What the object calls of its link service, whose state is [L]: [sendLpPacket] takes Acks
    from the queue of the object. *)
Class LinkOps (L : Type) := {
  link_sendLpPacket : Z -> LpPacket -> OM (LpReliability * L) unit;
  link_increment : LinkCounter -> L -> L;
  link_onDroppedInterest : WireInterest -> L -> L;
}.

Definition on_rel {L A} (m : OM LpReliability A) : OM (LpReliability * L) A := fun w =>
  match m w.1 with None => None | Some (x, r) => Some (x, (r, w.2)) end.
Definition on_link {L} (f : L -> L) : OM (LpReliability * L) unit := modify (fun w => (w.1, f w.2)).

Section reliability.
Context (sha256 : list byte -> list byte) (autoCheck : bool).
Context {L : Type} `{LinkOps L}.

Definition onLpPacketAcknowledged (k : N) : OM (LpReliability * L) unit :=
  w ← get;
  match rel_unackedFrags w.1 !! k with
  | None => assert false
  | Some frag =>
      let id := uf_netPkt frag in
      match rel_netPkts w.1 !! id with
      | None => assert false
      | Some netPkt =>
          match replace_found k (List.last (np_unackedFrags netPkt) 0) (np_unackedFrags netPkt) with
          | None => assert false
          | Some l =>
              let l := removelast l in
              on_rel (modify (rel_update_netPkt id (np_with_frags l)));;
              (if match l with [] => true | _ => false end
               then on_link (link_increment (if np_didRetx netPkt then nRetransmitted else nAcknowledged))
               else mret tt);;
              on_rel (deleteUnackedFrag k)
          end
      end
  end.

(** The other fragments of a network packet that is given up. *)
Fixpoint delete_others (k : N) (l : list N) : OM LpReliability (list N) :=
  match l with
  | [] => mret []
  | k' :: l =>
      if k' =? k then delete_others k l
      else deleteUnackedFrag k';; removed ← delete_others k l; mret (k' :: removed)
  end.
(** [onDroppedInterest(Interest(frag))]. *)
Definition notify_dropped (pkt : LpPacket) : OM (LpReliability * L) unit :=
  assert (lp_has LP_Fragment pkt);;
  v ← lp_getAs LP_Fragment decode_bytes pkt;
  frag ← lift (Block_read v);
  match Interest_wireDecode sha256 autoCheck frag Interest_default with
  | None => assert false
  | Some (inl e, _) => throw e
  | Some (inr _, interest) => on_link (link_onDroppedInterest interest)
  end.

Definition onLpPacketLost (now : Z) (k : N) : OM (LpReliability * L) (list N) :=
  on_rel (modify (rel_update_frag k (uf_with_timer None)));;
  w ← get;
  match rel_unackedFrags w.1 !! k with
  | None => assert false;; mret []
  | Some txFrag =>
      let id := uf_netPkt txFrag in
      lp_getAs LP_Sequence decode_sequence (uf_pkt txFrag);;
      match rel_netPkts w.1 !! id with
      | None => assert false;; mret []
      | Some netPkt =>
          if ro_maxRetx (rel_options w.1) <=? uf_retxCount txFrag then
            removed ← on_rel (delete_others k (np_unackedFrags netPkt));
            on_link (link_increment nRetxExhausted);;
            (if np_isInterest netPkt then notify_dropped (np_pkt netPkt) else mret tt);;
            on_rel (deleteUnackedFrag k);;
            mret (removed ++ [k])
          else
            '(newTxSeq, pkt) ← on_rel (assignTxSequence (uf_pkt txFrag));
            on_rel (modify (rel_update_netPkt id np_retransmitted));;
            on_rel (modify (fun r => rel_with_frags (emplace newTxSeq (mkUnackedFrag pkt None now 0 0 id) (rel_unackedFrags r)) (rel_firstUnackedFrag r) r));;
            on_rel (modify (rel_update_frag newTxSeq (fun f => mkUnackedFrag (uf_pkt f) (uf_rtoTimer f) (uf_sendTime f) (uf_retxCount txFrag + 1) (uf_nGreaterSeqAcks f) id)));;
            match replace_found k newTxSeq (np_unackedFrags netPkt) with
            | None => assert false;; mret []
            | Some l =>
                on_rel (modify (rel_update_netPkt id (np_with_frags l)));;
                on_rel (deleteUnackedFrag k);;
                w ← get;
                match rel_unackedFrags w.1 !! newTxSeq with
                | None => assert false;; mret []
                | Some newTxFrag =>
                    link_sendLpPacket now (uf_pkt newTxFrag);;
                    w ← get;
                    on_rel (modify (rel_update_frag newTxSeq (uf_with_timer (Some (now + re_rto (rel_rttEst w.1))%Z))));;
                    mret [k]
                end
            end
      end
  end.

(** The fragments considered lost, but for those removed meanwhile. *)
Fixpoint lost_loop (now : Z) (lost removed : list N) : OM (LpReliability * L) unit :=
  match lost with
  | [] => mret tt
  | k :: lost =>
      if bool_decide (k ∈ removed) then lost_loop now lost removed
      else more ← onLpPacketLost now k; lost_loop now lost (removed ++ more)
  end.
Definition processAck (now : Z) (ackTxSeq : N) : OM (LpReliability * L) unit :=
  w ← get;
  match rel_unackedFrags w.1 !! ackTxSeq with
  | None => mret tt
  | Some frag =>
      on_rel (modify (rel_update_frag ackTxSeq (uf_with_timer None)));;
      (if uf_retxCount frag =? 0 then on_rel (modify (fun r => rel_with_rtt (addMeasurement (now - uf_sendTime frag) (rel_rttEst r)) r)) else mret tt);;
      lost ← on_rel (findLostLpPackets ackTxSeq);
      onLpPacketAcknowledged ackTxSeq;;
      lost_loop now lost []
  end.
Fixpoint processAcks (now : Z) (acks : list N) : OM (LpReliability * L) unit :=
  match acks with [] => mret tt | a :: acks => processAck now a;; processAcks now acks end.

Definition processIncomingPacket (now : Z) (pkt : LpPacket) : OM (LpReliability * L) bool :=
  w ← get;
  assert (ro_isEnabled (rel_options w.1));;
  acks ← lift (decode_all decode_sequence (lp_list LP_Ack pkt));
  processAcks now acks;;
  if lp_has LP_Fragment pkt && lp_has LP_TxSequence pkt then
    txSeq ← lp_getAs LP_TxSequence decode_sequence pkt;
    on_rel (modify (fun r => rel_with_acks (rel_ackQueue r ++ [txSeq]) r));;
    isDuplicate ← (if lp_has LP_Sequence pkt
                   then pktSequence ← lp_getAs LP_Sequence decode_sequence pkt; on_rel (checkDuplicate now pktSequence)
                   else mret false);
    on_rel (startIdleAckTimer now);;
    mret (negb isDuplicate)
  else mret true.

(** The timer of a fragment fires. *)
Definition rtoTimer_fires (now : Z) (k : N) : OM (LpReliability * L) unit := onLpPacketLost now k;; mret tt.
(** The idle timer fires: IDLE packets until the queue is empty. *)
Fixpoint idle_loop (fuel : nat) (now : Z) : OM (LpReliability * L) unit :=
  w ← get;
  match rel_ackQueue w.1 with
  | [] => mret tt
  | _ => match fuel with O => assert false | S fuel => link_sendLpPacket now LpPacket_new;; idle_loop fuel now end
  end.
Definition idleAckTimer_fires (fuel : nat) (now : Z) : OM (LpReliability * L) unit :=
  on_rel (modify (rel_with_idle None));; idle_loop fuel now.
End reliability.
