(* ===== verification/LpWindow.v ===== *)
(** * The send window of a link

    The map of unacknowledged fragments and the iterator to the first one, with sequence
    numbers that wrap around, implement a queue: new fragments go to its end, and the first one
    is its head. *)

From S2P Require Import Prelude LpReliability.

Local Open Scope N_scope.

(** How far after [f] a sequence number comes, modulo 2^64. *)
Definition dist (f k : N) : N := if f <=? k then k - f else 2 ^ 64 + k - f.

Ltac dist_cases := unfold dist in *; repeat match goal with
  | |- context [?a <=? ?b] => destruct (N.leb_spec a b)
  | H : context [?a <=? ?b] |- _ => destruct (N.leb_spec a b)
  end.
Lemma dist_lt f k : f < 2 ^ 64 -> k < 2 ^ 64 -> dist f k < 2 ^ 64.
Proof. dist_cases; lia. Qed.
Lemma dist_0 f k : f < 2 ^ 64 -> k < 2 ^ 64 -> dist f k = 0 <-> f = k.
Proof. dist_cases; lia. Qed.
Lemma dist_inj f k k' : f < 2 ^ 64 -> k < 2 ^ 64 -> k' < 2 ^ 64 -> dist f k = dist f k' -> k = k'.
Proof. dist_cases; lia. Qed.
Lemma dist_next f k : f < 2 ^ 64 -> k < 2 ^ 64 -> (k + 1) mod 2 ^ 64 <> f -> dist f ((k + 1) mod 2 ^ 64) = dist f k + 1.
Proof.
  intros Hf Hk. destruct (N.eq_dec k (2 ^ 64 - 1)) as [->|].
  - change ((2 ^ 64 - 1 + 1) mod 2 ^ 64) with 0. dist_cases; lia.
  - rewrite N.mod_small by lia. dist_cases; lia.
Qed.
(** The distances from an element of the window. *)
Lemma dist_from f k x : f < 2 ^ 64 -> k < 2 ^ 64 -> x < 2 ^ 64 ->
  dist k x = if dist f k <=? dist f x then dist f x - dist f k else 2 ^ 64 + dist f x - dist f k.
Proof. dist_cases; lia. Qed.

Section window.
Context {V : Type}.
Implicit Types m : gmap N V.

Lemma elem_of_keys k m : k ∈ keys m <-> is_Some (m !! k).
Proof.
  unfold keys. rewrite merge_sort_Permutation, list_elem_of_fmap. split.
  - intros ([k' v] & -> & Hv%elem_of_map_to_list). by exists v.
  - intros [v Hv]. exists (k, v). by rewrite elem_of_map_to_list.
Qed.
Lemma keys_sorted m : StronglySorted N.lt (keys m).
Proof.
  assert (StronglySorted N.le (keys m)) as Hs by (apply (StronglySorted_merge_sort N.le)).
  assert (NoDup (keys m)) as Hn. { unfold keys. rewrite merge_sort_Permutation. apply NoDup_fst_map_to_list. }
  revert Hn. induction Hs as [|k l Hs IH Hk]; intros Hn; [constructor|]. apply NoDup_cons in Hn as [Hnk Hn]. constructor; [auto|].
  rewrite Forall_forall in Hk |- *. intros x Hx. specialize (Hk x Hx). assert (x <> k) by congruence. lia.
Qed.
Lemma keys_nil m : keys m = [] <-> m = ∅.
Proof.
  split; [|intros ->; by vm_compute]. intros E. apply map_empty. intros k. destruct (m !! k) eqn:Ek; [|done].
  assert (k ∈ keys m) as Hk by (by apply elem_of_keys; eexists). rewrite E in Hk. by apply not_elem_of_nil in Hk.
Qed.

Lemma head_filter_min (P : N -> Prop) `{!forall x, Decision (P x)} l x :
  StronglySorted N.lt l -> head (filter P l) = Some x -> x ∈ l /\ P x /\ forall y, y ∈ l -> P y -> x <= y.
Proof.
  intros Hs. induction Hs as [|k l Hs IH Hk]; [done|]. rewrite filter_cons. destruct (decide (P k)) as [HP|HP].
  - intros [= ->]. split_and!; [by left|done|]. intros y [->|Hy]%elem_of_cons _; [lia|]. rewrite Forall_forall in Hk. specialize (Hk y Hy). lia.
  - intros (Hx & HPx & Hmin)%IH. split_and!; [by right|done|]. intros y [->|Hy]%elem_of_cons Hy'; [done|by apply Hmin].
Qed.

(** The element that follows in the window: the nearest one after. *)
Definition cyc_next (k : N) m : option N := match next_key k m with None => begin m | Some x => Some x end.
Lemma cyc_next_nearest k m :
  m <> ∅ -> (forall y, is_Some (m !! y) -> y < 2 ^ 64) -> k < 2 ^ 64 ->
  exists x, cyc_next k m = Some x /\ is_Some (m !! x) /\ (forall y, is_Some (m !! y) -> y <> k -> dist k x <= dist k y) /\
    (x = k -> forall y, is_Some (m !! y) -> y = k).
Proof.
  intros Hne Hb Hk. pose proof (keys_sorted m) as Hs. unfold cyc_next, next_key. destruct (head (filter (fun k' => k < k') (keys m))) as [x|] eqn:E.
  - apply head_filter_min in E as (Hx & Hkx & Hmin); [|done]. apply elem_of_keys in Hx. exists x. split_and!; [done|done| |lia].
    intros y Hy Hyk. pose proof (Hb _ Hx). pose proof (Hb _ Hy). apply elem_of_keys in Hy. specialize (Hmin y Hy).
    destruct (N.lt_ge_cases k y) as [Hlt|]; [specialize (Hmin Hlt)|]; dist_cases; lia.
  - unfold begin. destruct (keys m) as [|x l] eqn:Ek; [by apply keys_nil in Ek|]. exists x. assert (x ∈ keys m) as Hx by (rewrite Ek; by left).
    rewrite <- Ek in *. apply elem_of_keys in Hx.
    assert (forall y, is_Some (m !! y) -> y <> k -> y < k) as Hall. { intros y Hy Hyk. destruct (N.lt_trichotomy y k) as [|[|Hlt]]; [done..|]. apply elem_of_keys in Hy. exfalso.
      assert (y ∈ filter (fun k' => k < k') (keys m)) as Hin by (by apply list_elem_of_filter).
      destruct (filter _ _); [by apply not_elem_of_nil in Hin|done]. }
    assert (forall y, is_Some (m !! y) -> x <= y) as Hle. { intros y Hy. apply elem_of_keys in Hy. rewrite Ek in Hy, Hs. apply elem_of_cons in Hy as [->|Hy]; [lia|].
      inversion_clear Hs as [|? ? _ Hs']. rewrite Forall_forall in Hs'. specialize (Hs' y Hy). lia. }
    split_and!; [by rewrite Ek|done| |].
    + intros y Hy Hyk. pose proof (Hb _ Hx). pose proof (Hb _ Hy). specialize (Hall y Hy Hyk). specialize (Hle y Hy). dist_cases; lia.
    + intros -> y Hy. specialize (Hle y Hy). destruct (N.eq_dec y k) as [|Hyk]; [done|]. specialize (Hall y Hy Hyk). lia.
Qed.

(** The window: the keys from the first one, around the end of the map. *)
Definition window (first : option N) m : list N :=
  match first with
  | None => []
  | Some f => filter (fun k => f <= k) (keys m) ++ filter (fun k => k < f) (keys m)
  end.
Record window_ok (first : option N) (last : N) m : Prop := {
  wk_bound : forall k, is_Some (m !! k) -> k < 2 ^ 64;
  wk_last : last < 2 ^ 64;
  wk_first : match first with None => m = ∅ | Some f => is_Some (m !! f) end;
  wk_range : forall f k, first = Some f -> is_Some (m !! k) -> dist f k <= dist f last;
}.

Definition before (f : N) : relation N := fun x y => dist f x < dist f y.
#[local] Instance before_antisym f : AntiSymm (=) (before f).
Proof. unfold before. intros x y H1 H2. lia. Qed.

Lemma StronglySorted_filter_sub (P : N -> Prop) `{!forall x, Decision (P x)} (R : relation N) l :
  StronglySorted R l -> StronglySorted R (filter P l).
Proof.
  induction 1 as [|x l _ IH Hx]; [constructor|]. rewrite filter_cons. case_decide; [|done]. constructor; [done|].
  rewrite Forall_forall in *. intros y [_ Hy]%list_elem_of_filter. auto.
Qed.
Lemma StronglySorted_join (R : relation N) l k :
  StronglySorted R l -> StronglySorted R k -> (forall x y, x ∈ l -> y ∈ k -> R x y) -> StronglySorted R (l ++ k).
Proof.
  induction 1 as [|x l _ IH Hx]; intros Hk H; [done|]. simpl. constructor.
  - apply IH; [done|]. intros y z Hy Hz. apply H; [by right|done].
  - rewrite Forall_app. split; [done|]. rewrite Forall_forall. intros y Hy. apply H; [by left|done].
Qed.
Lemma StronglySorted_weaken (R R' : relation N) l :
  StronglySorted R l -> (forall x y, x ∈ l -> y ∈ l -> R x y -> R' x y) -> StronglySorted R' l.
Proof.
  induction 1 as [|x l _ IH Hx]; intros H; [constructor|]. constructor.
  - apply IH. intros y z Hy Hz. apply H; by right.
  - rewrite Forall_forall in *. intros y Hy. apply H; [by left|by right|auto].
Qed.

Lemma elem_of_window first k m : k ∈ window first m -> is_Some (m !! k).
Proof. unfold window. destruct first; [|by intros ?%not_elem_of_nil]. rewrite elem_of_app, !list_elem_of_filter, !elem_of_keys. tauto. Qed.
Lemma window_elem first last k m : window_ok first last m -> is_Some (m !! k) -> k ∈ window first m.
Proof.
  intros Hw Hk. pose proof (wk_first _ _ _ Hw) as Hf. unfold window. destruct first as [f|].
  - rewrite elem_of_app, !list_elem_of_filter, !elem_of_keys. destruct (N.le_gt_cases f k); [left|right]; done.
  - subst m. rewrite lookup_empty in Hk. by destruct Hk.
Qed.
Lemma window_sorted f last m : window_ok (Some f) last m -> StronglySorted (before f) (window (Some f) m).
Proof.
  intros Hw. unfold window. pose proof (wk_bound _ _ _ Hw) as Hb. assert (f < 2 ^ 64) as Hf by (apply Hb, (wk_first _ _ _ Hw)).
  apply StronglySorted_join.
  - eapply StronglySorted_weaken; [apply StronglySorted_filter_sub, keys_sorted|]. intros x y [? ?]%list_elem_of_filter [? ?]%list_elem_of_filter ?.
    unfold before. dist_cases; lia.
  - eapply StronglySorted_weaken; [apply StronglySorted_filter_sub, keys_sorted|]. intros x y [? ?]%list_elem_of_filter [? ?]%list_elem_of_filter ?.
    unfold before. dist_cases; lia.
  - intros x y [? Hx%elem_of_keys%Hb]%list_elem_of_filter [? Hy%elem_of_keys%Hb]%list_elem_of_filter. unfold before. dist_cases; lia.
Qed.
(** A list with the elements of the map in their order is the window. *)
Lemma window_unique f last m l :
  window_ok (Some f) last m -> StronglySorted (before f) l -> (forall k, k ∈ l <-> is_Some (m !! k)) -> window (Some f) m = l.
Proof.
  intros Hw Hs Hl. assert (forall l, StronglySorted (before f) l -> NoDup l) as Hnd.
  { intros l' H. induction H as [|x l' _ IH Hx]; constructor; [|done]. intros Hin. rewrite Forall_forall in Hx. specialize (Hx x Hin). unfold before in Hx. lia. }
  apply (StronglySorted_unique (before f)); [by eapply window_sorted|done|]. apply NoDup_Permutation; [by eapply Hnd, window_sorted|by apply Hnd|].
  intros k. rewrite Hl. split; [apply elem_of_window|by eapply window_elem].
Qed.
Lemma window_head f last m : window_ok (Some f) last m -> exists l, window (Some f) m = f :: l.
Proof.
  intros Hw. pose proof (window_sorted _ _ _ Hw) as Hs. pose proof (window_elem _ _ f _ Hw (wk_first _ _ _ Hw)) as Hin.
  destruct (window (Some f) m) as [|x l] eqn:E; [by apply not_elem_of_nil in Hin|]. exists l. f_equal.
  apply elem_of_cons in Hin as [|Hin]; [done|]. inversion_clear Hs as [|? ? _ Hall]. rewrite Forall_forall in Hall. specialize (Hall f Hin).
  unfold before in Hall. assert (f < 2 ^ 64) as Hf by apply (wk_bound _ _ _ Hw), (wk_first _ _ _ Hw).
  rewrite (proj2 (dist_0 f f Hf Hf) eq_refl) in Hall. lia.
Qed.
Lemma window_empty first last m : window_ok first last m -> window first m = [] <-> m = ∅.
Proof.
  intros Hw. split.
  - intros E. apply map_empty. intros k. destruct (m !! k) eqn:Ek; [|done]. assert (k ∈ window first m) as Hin by (eapply window_elem; [done|by eexists]).
    rewrite E in Hin. by apply not_elem_of_nil in Hin.
  - intros ->. pose proof (wk_first _ _ _ Hw) as Hf. destruct first as [f|]; [|done]. rewrite lookup_empty in Hf. by destruct Hf.
Qed.
Lemma window_next f last m pre k k' post :
  window_ok (Some f) last m -> window (Some f) m = pre ++ k :: k' :: post -> cyc_next k m = Some k'.
Proof.
  intros Hw E. pose proof (wk_bound _ _ _ Hw) as Hb. pose proof (window_sorted _ _ _ Hw) as Hs. rewrite E in Hs.
  assert (forall x, x ∈ pre ++ k :: k' :: post -> is_Some (m !! x)) as Hin by (intros x; rewrite <- E; apply elem_of_window).
  assert (is_Some (m !! k)) as Hk by (apply Hin; rewrite elem_of_app, !elem_of_cons; auto).
  assert (is_Some (m !! k')) as Hk' by (apply Hin; rewrite elem_of_app, !elem_of_cons; auto).
  assert (f < 2 ^ 64) as Hf by apply Hb, (wk_first _ _ _ Hw).
  destruct (cyc_next_nearest k m) as (x & -> & Hx & Hmin & Honly); [intros ->; rewrite lookup_empty in Hk; by destruct Hk|done|auto|]. f_equal.
  assert (StronglySorted (before f) (k :: k' :: post) /\ forall x, x ∈ pre -> before f x k) as [Hs' Hpre].
  { clear - Hs. induction pre as [|y pre IH]; [split; [done|by intros ? ?%not_elem_of_nil]|]. inversion_clear Hs as [|? ? Hs' Hall]. destruct (IH Hs') as [H1 H2].
    split; [done|]. rewrite Forall_forall in Hall. intros x [->|?]%elem_of_cons; [|auto]. apply Hall. rewrite elem_of_app, elem_of_cons. auto. }
  inversion_clear Hs' as [|? ? Hs'' Hall]. inversion_clear Hs'' as [|? ? _ Hall']. rewrite Forall_forall in Hall, Hall'.
  assert (before f k k') as Hkk' by (apply Hall; by left). specialize (Hmin k' Hk' ltac:(intros ->; unfold before in Hkk'; lia)).
  pose proof (Hb _ Hx). pose proof (Hb _ Hk). pose proof (Hb _ Hk'). pose proof (dist_lt f k' Hf ltac:(done)).
  apply (window_elem _ _ _ _ Hw) in Hx. rewrite E, elem_of_app, !elem_of_cons in Hx. unfold before in *.
  rewrite !(dist_from f k) in Hmin by done. destruct Hx as [Hx|[->|[->|Hx]]]; [|exfalso|done|].
  - specialize (Hpre x Hx). destruct (N.leb_spec (dist f k) (dist f k')), (N.leb_spec (dist f k) (dist f x)); lia.
  - specialize (Honly eq_refl k' Hk'). rewrite Honly in Hkk'. lia.
  - specialize (Hall' x Hx). destruct (N.leb_spec (dist f k) (dist f k')), (N.leb_spec (dist f k) (dist f x)); lia.
Qed.

(** ** Operations on the window *)

Lemma window_push first last m v :
  let new := (last + 1) mod 2 ^ 64 in
  window_ok first last m -> first <> Some new ->
  m !! new = None /\
  window_ok (Some (default new first)) new (<[new := v]> m) /\ window (Some (default new first)) (<[new := v]> m) = window first m ++ [new].
Proof.
  intros new Hw Hne. pose proof (wk_bound _ _ _ Hw) as Hb. pose proof (wk_last _ _ _ Hw) as Hl.
  assert (new < 2 ^ 64) as Hnew by (apply N.mod_lt; lia). pose proof (wk_first _ _ _ Hw) as Hf. destruct first as [f|]; cbn [default from_option].
  - assert (f < 2 ^ 64) as Hf64 by (by apply Hb). assert (dist f new = dist f last + 1) as Hd by (apply dist_next; [done|done|]; subst new; congruence).
    assert (forall k, is_Some (m !! k) -> dist f k < dist f new) as Hlt. { intros k Hk. pose proof (wk_range _ _ _ Hw f k eq_refl Hk). lia. }
    assert (m !! new = None) as Hfresh. { destruct (m !! new) eqn:E; [|done]. specialize (Hlt new ltac:(by eexists)). lia. }
    assert (window_ok (Some f) new (<[new := v]> m)) as Hw'.
    { split; [|done| |].
      - intros k. destruct (decide (k = new)) as [->|]; [done|]. rewrite lookup_insert_ne by done. apply Hb.
      - rewrite lookup_insert_is_Some'. by right.
      - intros f' k [= <-]. destruct (decide (k = new)) as [->|]; [done|]. rewrite lookup_insert_ne by done. intros Hk. apply N.lt_le_incl. by apply Hlt. }
    split_and!; [done|done|]. eapply window_unique; [done| |].
    + apply StronglySorted_join; [by eapply window_sorted|by repeat constructor|]. intros x y Hx%elem_of_window Hy%list_elem_of_singleton; subst y. by apply Hlt.
    + intros k. rewrite elem_of_app, list_elem_of_singleton, lookup_insert_is_Some'. split.
      * intros [?%elem_of_window| ->]; auto.
      * intros [->|?]; [by right|left; by eapply window_elem].
  - subst m. split_and!; [done| |].
    + split; [|done| |].
      * intros k. destruct (decide (k = new)) as [->|]; [done|]. rewrite lookup_insert_ne, lookup_empty by done. by intros [? [=]].
      * by rewrite lookup_insert_eq.
      * intros f' k [= <-]. destruct (decide (k = new)) as [->|]; [done|]. rewrite lookup_insert_ne, lookup_empty by done. by intros [? [=]].
    + unfold window. assert (keys (<[new := v]> (∅ : gmap N V)) = [new]) as ->.
      { unfold keys. rewrite insert_empty, map_to_list_singleton. done. }
      rewrite !filter_cons, filter_nil. rewrite decide_True, decide_False by lia. done.
Qed.

(** The iterator after [deleteUnackedFrag]. *)
Definition first_after (first k : N) m : option N :=
  if bool_decide (m <> ∅) && (first =? k) then match next_key k m with None => begin m | Some n => Some n end
  else if bool_decide (m = ∅) then None else Some first.

Lemma window_delete f last m k :
  let m' := delete k m in
  window_ok (Some f) last m -> is_Some (m !! k) ->
  window_ok (first_after f k m') last m' /\ window (first_after f k m') m' = filter (fun x => x <> k) (window (Some f) m).
Proof.
  intros m' Hw Hk. pose proof (wk_bound _ _ _ Hw) as Hb. pose proof (wk_first _ _ _ Hw) as Hf. cbv beta iota in Hf. pose proof (wk_last _ _ _ Hw) as Hl.
  pose proof (Hb _ Hf) as Hf64. pose proof (Hb _ Hk) as Hk64.
  assert (forall x, is_Some (m' !! x) <-> x <> k /\ is_Some (m !! x)) as Hm'. { intros x. unfold m'. rewrite lookup_delete_is_Some. naive_solver. }
  assert (forall x, x ∈ filter (fun x => x <> k) (window (Some f) m) <-> is_Some (m' !! x)) as Helem.
  { intros x. rewrite list_elem_of_filter, Hm'. split; (intros [? Hx]; split; [done|]); [by eapply elem_of_window|by eapply window_elem]. }
  assert (StronglySorted (before f) (filter (fun x => x <> k) (window (Some f) m))) as Hs by (by eapply StronglySorted_filter_sub, window_sorted).
  unfold first_after. destruct (decide (m' = ∅)) as [E|Hne].
  - rewrite (bool_decide_false (m' <> ∅)), (bool_decide_true (m' = ∅)) by naive_solver. cbn [andb]. split.
    + rewrite E. split; [|done|done|done]. intros x. rewrite lookup_empty. by intros [? [=]].
    + cbn [window]. destruct (filter _ _) as [|x l] eqn:El; [done|]. assert (is_Some (m' !! x)) as Hx by (apply Helem; by left).
      rewrite E, lookup_empty in Hx. by destruct Hx.
  - rewrite (bool_decide_true (m' <> ∅)), (bool_decide_false (m' = ∅)) by done. cbn [andb]. destruct (N.eqb_spec f k) as [->|Hfk].
    + change (match next_key k m' with None => begin m' | Some n => Some n end) with (cyc_next k m').
      destruct (cyc_next_nearest k m' Hne) as (x & -> & Hx & Hmin & _); [intros y [_ ?]%Hm'; by apply Hb|done|].
      pose proof (proj1 (Hm' x) Hx) as [Hxk Hxm]. pose proof (Hb _ Hxm) as Hx64.
      assert (forall y, is_Some (m' !! y) -> dist k x <= dist k y) as Hmin'. { intros y Hy. apply Hmin; [done|]. by apply Hm' in Hy as [? _]. }
      assert (window_ok (Some x) last m') as Hw'.
      { split; [intros y [_ ?]%Hm'; by apply Hb|done|done|]. intros ? y [= <-] Hy. pose proof (proj1 (Hm' y) Hy) as [_ Hym]. pose proof (Hb _ Hym).
        rewrite (dist_from k x y), (dist_from k x last) by done. pose proof (Hmin' y Hy). pose proof (wk_range _ _ _ Hw k y eq_refl Hym).
        destruct (N.leb_spec (dist k x) (dist k y)), (N.leb_spec (dist k x) (dist k last)); lia. }
      split; [done|]. eapply window_unique; [done| |done]. eapply StronglySorted_weaken; [done|]. intros y z Hy%Helem Hz%Helem. unfold before.
      pose proof (Hb _ (proj2 (proj1 (Hm' y) Hy))). pose proof (Hb _ (proj2 (proj1 (Hm' z) Hz))).
      rewrite (dist_from k x y), (dist_from k x z) by done. pose proof (Hmin' y Hy). pose proof (Hmin' z Hz).
      destruct (N.leb_spec (dist k x) (dist k y)), (N.leb_spec (dist k x) (dist k z)); lia.
    + assert (window_ok (Some f) last m') as Hw'.
      { split; [intros y [_ ?]%Hm'; by apply Hb|done|by apply Hm'|]. intros ? y [= <-] [_ ?]%Hm'. by apply (wk_range _ _ _ Hw). }
      split; [done|]. by eapply window_unique.
Qed.

(** A change of the values only. *)
Lemma keys_dom {W} (m : gmap N V) (m2 : gmap N W) : (forall k, is_Some (m !! k) <-> is_Some (m2 !! k)) -> keys m = keys m2.
Proof.
  intros H. unfold keys. assert ((map_to_list m).*1 ≡ₚ (map_to_list m2).*1) as Hp.
  { apply NoDup_Permutation; [apply NoDup_fst_map_to_list..|]. intros k. rewrite <- (merge_sort_Permutation N.le (map_to_list m).*1).
    assert (forall U (m : gmap N U), k ∈ (map_to_list m).*1 <-> is_Some (m !! k)) as Hin.
    { intros U m0. rewrite list_elem_of_fmap. split; [intros ([? v] & -> & Hv%elem_of_map_to_list); by exists v|]. intros [v Hv]. exists (k, v). by rewrite elem_of_map_to_list. }
    rewrite merge_sort_Permutation, !Hin. apply H. }
  apply (StronglySorted_unique N.le); [apply (StronglySorted_merge_sort N.le)..|]. by rewrite !merge_sort_Permutation.
Qed.
End window.

Lemma window_dom {V W} first (m : gmap N V) (m2 : gmap N W) : (forall k, is_Some (m !! k) <-> is_Some (m2 !! k)) -> window first m = window first m2.
Proof. intros H. unfold window. by rewrite (keys_dom m m2 H). Qed.
Lemma cyc_next_dom {V W} k (m : gmap N V) (m2 : gmap N W) : (forall k, is_Some (m !! k) <-> is_Some (m2 !! k)) -> cyc_next k m = cyc_next k m2.
Proof. intros H. unfold cyc_next, next_key, begin. by rewrite (keys_dom m m2 H). Qed.
Lemma window_ok_dom {V W} first last (m : gmap N V) (m2 : gmap N W) :
  (forall k, is_Some (m !! k) <-> is_Some (m2 !! k)) -> window_ok first last m -> window_ok first last m2.
Proof.
  intros H [H1 H2 H3 H4]. split; [intros k ?%H; auto|done| |intros f k ? ?%H; auto]. destruct first as [f|]; [by apply H|]. subst m.
  apply map_empty. intros k. destruct (m2 !! k) eqn:E; [|done]. assert (is_Some (m2 !! k)) as [? ?]%H by (by eexists). done.
Qed.

(** ** Looking for lost fragments *)

Definition bump (f : UnackedFrag) : UnackedFrag := uf_with_acks (uf_nGreaterSeqAcks f + 1) f.
(** The map when the fragments in [l] have seen one more Ack. *)
Definition bump_all (l : list N) (m : gmap N UnackedFrag) : gmap N UnackedFrag := fold_left (fun m k => alter bump k m) l m.
Definition counted_out (threshold : N) (m : gmap N UnackedFrag) (k : N) : Prop :=
  match m !! k with Some f => threshold <= uf_nGreaterSeqAcks f + 1 | None => False end.
#[global] Instance counted_out_dec threshold m k : Decision (counted_out threshold m k).
Proof. unfold counted_out. destruct (m !! k); apply _. Defined.

Lemma bump_all_lookup l : forall m k, NoDup l -> bump_all l m !! k = if decide (k ∈ l) then bump <$> m !! k else m !! k.
Proof.
  induction l as [|x l IH]; intros m k Hn; [by rewrite decide_False by apply not_elem_of_nil|]. apply NoDup_cons in Hn as [Hx Hn].
  cbn [bump_all fold_left]. change (bump_all l (alter bump x m) !! k = if decide (k ∈ x :: l) then bump <$> m !! k else m !! k). rewrite IH by done.
  destruct (decide (k = x)) as [->|Hne].
  - rewrite decide_False by done. rewrite decide_True by left. apply lookup_alter_eq.
  - rewrite lookup_alter_ne by done. destruct (decide (k ∈ l)); [rewrite decide_True by (by right)|rewrite decide_False by set_solver]; done.
Qed.
Lemma bump_all_dom l m k : NoDup l -> is_Some (bump_all l m !! k) <-> is_Some (m !! k).
Proof. intros Hn. rewrite bump_all_lookup by done. case_decide; [by rewrite fmap_is_Some|done]. Qed.

Lemma window_NoDup {V} first last (m : gmap N V) : window_ok first last m -> NoDup (window first m).
Proof.
  intros Hw. destruct first as [f|]; [|constructor]. pose proof (window_sorted _ _ _ Hw) as Hs.
  induction Hs as [|x l Hs IH Hx]; constructor; [|done]. intros Hin. rewrite Forall_forall in Hx. specialize (Hx x Hin). unfold before in Hx. lia.
Qed.

Lemma findLost_loop_spec threshold f last ack post todo : forall pre m0 it lost fuel,
  window_ok (Some f) last m0 -> window (Some f) m0 = pre ++ todo ++ ack :: post ->
  match it with None => begin m0 | Some k => Some k end = head (todo ++ [ack]) -> (length todo < fuel)%nat ->
  findLost_loop fuel threshold it ack (bump_all pre m0) lost =
  Some (bump_all (pre ++ todo) m0, lost ++ filter (counted_out threshold m0) todo).
Proof.
  induction todo as [|k todo IH]; intros pre m0 it lost fuel Hw E Hit Hfuel; (destruct fuel as [|fuel]; [simpl in Hfuel; lia|]); cbn [findLost_loop].
  all: pose proof (window_NoDup _ _ _ Hw) as Hnd; rewrite E in Hnd; pose proof (proj1 (proj1 (NoDup_app _ _) Hnd)) as Hpre.
  all: unfold begin in *; rewrite (keys_dom (bump_all pre m0) m0) by (intros; by apply bump_all_dom); rewrite Hit; cbn [app head].
  - rewrite N.eqb_refl, !app_nil_r. done.
  - assert (k <> ack) as Hka. { intros ->. apply NoDup_app in Hnd as (_ & _ & Hnd). simpl in Hnd. apply NoDup_cons in Hnd as [Hnd _]. apply Hnd. rewrite elem_of_app. right. by left. }
    rewrite (proj2 (N.eqb_neq _ _) Hka).
    assert (k ∉ pre) as Hkpre. { intros Hin. apply NoDup_app in Hnd as (_ & Hnd & _). apply (Hnd k Hin). by left. }
    assert (is_Some (m0 !! k)) as [fk Hk]. { apply (elem_of_window (Some f)). rewrite E, elem_of_app. right. by left. }
    rewrite bump_all_lookup, decide_False, Hk by done. cbn [mbind option_bind].
    assert (<[k := bump fk]> (bump_all pre m0) = bump_all (pre ++ [k]) m0) as Em.
    { unfold bump_all. rewrite fold_left_app. cbn [fold_left]. symmetry. change (fold_left (fun m k => alter bump k m) pre m0) with (bump_all pre m0).
      apply (alter_is_insert bump). by rewrite bump_all_lookup, decide_False by done. }
    change (uf_with_acks (uf_nGreaterSeqAcks fk + 1) fk) with (bump fk). rewrite Em.
    assert (NoDup (pre ++ [k])) as Hpk. { apply NoDup_app. split_and!; [done| |by apply NoDup_singleton]. intros x Hx ->%list_elem_of_singleton. done. }
    rewrite (IH (pre ++ [k]) m0); [|done|by rewrite <- app_assoc| |simpl in Hfuel; lia].
    + rewrite <- app_assoc. cbn [app]. do 2 f_equal. rewrite filter_cons.
      assert (counted_out threshold m0 k <-> threshold <= uf_nGreaterSeqAcks fk + 1) as Hc by (unfold counted_out; by rewrite Hk).
      cbn [bump uf_with_acks uf_nGreaterSeqAcks]. destruct (N.leb_spec threshold (uf_nGreaterSeqAcks fk + 1)).
      * rewrite decide_True by (by apply Hc). by rewrite <- app_assoc.
      * rewrite decide_False by (rewrite Hc; lia). done.
    + transitivity (cyc_next k m0).
      { unfold cyc_next, begin, next_key. by rewrite (keys_dom (bump_all (pre ++ [k]) m0) m0) by (intros; by apply bump_all_dom). }
      destruct todo as [|k' todo]; cbn [app head]; eapply window_next; try done; by rewrite E.
Qed.
