(* ===== verification/LpRelInv.v ===== *)
(** * The reliability component keeps its promises

    Against the interface [LinkOps], with the laws that it needs of the link service: no
    assertion fails and no iterator is invalid, whatever Acks arrive and whichever timers fire;
    every network packet handed over is still pending, or was counted once as acknowledged,
    retransmitted or given up. *)

From S2P Require Import Prelude Tlv Block LpPacket LpReassembly ObjectMonad RttEstimator Packet InterestWire LpReliability LpWindow.

Local Open Scope N_scope.

(** ** What is relied on *)

(** A packet that is never sent bare: an IDLE packet, or one with a Sequence. *)
Definition transmittable (pkt : LpPacket) : Prop := lp_ok pkt /\ (pkt = LpPacket_new \/ lp_has LP_Sequence pkt = true).

Class LinkLaws (L : Type) `{LinkOps L} := {
  link_count : LinkCounter -> L -> N;
  (** The MTU has room for an Ack in an IDLE packet. *)
  link_fits_ack : L -> Prop;
  (** What the component's calls leave alone in the service. *)
  link_frame : relation L;
  count_increment c c' l : link_count c (link_increment c' l) = link_count c l + (if decide (c = c') then 1 else 0);
  count_dropped c i l : c <> nInterestsExceededRetx -> link_count c (link_onDroppedInterest i l) = link_count c l;
  frame_preorder :: PreOrder link_frame;
  frame_fits l l' : link_frame l l' -> link_fits_ack l -> link_fits_ack l';
  frame_increment c l : link_frame l (link_increment c l);
  frame_dropped i l : link_frame l (link_onDroppedInterest i l);
  (** Sending takes Acks off the front of the queue and changes nothing else of the object. *)
  send_spec now pkt r l :
    ro_isEnabled (rel_options r) = true -> transmittable pkt ->
    exists taken q l', rel_ackQueue r = taken ++ q /\
      link_sendLpPacket now pkt (r, l) = Some (inr tt, (rel_with_acks q r, l')) /\
      (forall c, c <> nOutOverMtu -> c <> nCongestionMarked -> link_count c l' = link_count c l) /\
      link_frame l l' /\ (link_fits_ack l -> pkt = LpPacket_new -> rel_ackQueue r <> [] -> taken <> []);
}.

(** ** The invariant *)

(** A stored fragment can be sent again. *)
Definition frag_ok (p : LpPacket) : Prop := lp_ok p /\ exists b s, lp_get LP_Sequence p = Some b /\ decode_sequence b = inr s.
Lemma frag_ok_transmittable p : frag_ok p -> transmittable p.
Proof. intros [Hp (b & s & E & _)]. split; [done|right]. by rewrite lp_has_get, E. Qed.

Section invariant.
Context (sha256 : list byte -> list byte) (autoCheck : bool).

(** An Interest that is given up can be told to the strategy. *)
Definition netPkt_ok (p : NetPkt) : Prop :=
  np_isInterest p = true ->
  exists b v frag i, lp_get LP_Fragment (np_pkt p) = Some b /\ decode_bytes b = inr v /\ Block_read v = inr frag /\
    Interest_wireDecode sha256 autoCheck frag Interest_default = Some (inr tt, i).

(** Fragments and network packets point to each other. *)
Record linked (frags : gmap N UnackedFrag) (netPkts : gmap N NetPkt) (next : N) : Prop := {
  lk_frag : forall k f, frags !! k = Some f -> exists np, netPkts !! uf_netPkt f = Some np /\ k ∈ np_unackedFrags np;
  lk_netPkt : forall k f np, frags !! k = Some f -> netPkts !! uf_netPkt f = Some np ->
    NoDup (np_unackedFrags np) /\ netPkt_ok np /\
    forall k', k' ∈ np_unackedFrags np -> exists f', frags !! k' = Some f' /\ uf_netPkt f' = uf_netPkt f;
  lk_next : forall id, is_Some (netPkts !! id) -> id < next;
}.
(** The fragments in [off] have no timer: they are being worked on. *)
Record rel_mid (off : gset N) (r : LpReliability) : Prop := {
  rk_window : window_ok (rel_firstUnackedFrag r) (rel_lastTxSeqNo r) (rel_unackedFrags r);
  rk_linked : linked (rel_unackedFrags r) (rel_netPkts r) (rel_nextNetPkt r);
  rk_frags : forall k f, rel_unackedFrags r !! k = Some f -> frag_ok (uf_pkt f) /\ (k ∉ off -> is_Some (uf_rtoTimer f));
  rk_recent : forall s, is_Some (rel_recentRecvSeqs r !! s) -> s ∈ rel_recentRecvSeqsQueue r;
}.
(** No Ack waits without a timer. *)
Definition acks_timed (r : LpReliability) : Prop := rel_ackQueue r <> [] -> is_Some (rel_idleAckTimer r).
Definition rel_ok (r : LpReliability) : Prop := rel_mid ∅ r /\ acks_timed r.

(** How many sequence numbers the window spans. *)
Definition span (r : LpReliability) : N := match rel_firstUnackedFrag r with None => 0 | Some f => dist f (rel_lastTxSeqNo r) + 1 end.
(** The network packets with fragments to be acknowledged. *)
Definition pending (frags : gmap N UnackedFrag) : gset N := list_to_set ((fun kf => uf_netPkt kf.2) <$> map_to_list frags).

Lemma elem_of_pending id frags : id ∈ pending frags <-> exists k f, frags !! k = Some f /\ uf_netPkt f = id.
Proof.
  unfold pending. rewrite elem_of_list_to_set, list_elem_of_fmap. split.
  - intros ([k f] & -> & Hf%elem_of_map_to_list). by exists k, f.
  - intros (k & f & Hf & <-). exists (k, f). by rewrite elem_of_map_to_list.
Qed.

Lemma LpReliability_new_ok options : rel_ok (LpReliability_new options).
Proof.
  split; [|by intros []]. split; cbn.
  - split; [intros k; rewrite lookup_empty; by intros [? [=]]|done|done|done].
  - split; [intros k f; by rewrite lookup_empty|intros k f np; by rewrite lookup_empty|intros id; rewrite lookup_empty; by intros [? [=]]].
  - intros k f. by rewrite lookup_empty.
  - intros s. rewrite lookup_empty. by intros [? [=]].
Qed.

(** ** Single operations *)

Definition delete_frag (k : N) (r : LpReliability) : LpReliability :=
  let m := delete k (rel_unackedFrags r) in
  rel_with_frags m (match rel_firstUnackedFrag r with None => None | Some f => first_after f k m end) r.

Definition windowed (r : LpReliability) : Prop := window_ok (rel_firstUnackedFrag r) (rel_lastTxSeqNo r) (rel_unackedFrags r).

Lemma deleteUnackedFrag_run k r : windowed r -> is_Some (rel_unackedFrags r !! k) ->
  deleteUnackedFrag k r = Some (inr tt, delete_frag k r) /\ windowed (delete_frag k r) /\ span (delete_frag k r) <= span r /\
  window (rel_firstUnackedFrag (delete_frag k r)) (rel_unackedFrags (delete_frag k r)) =
    filter (fun x => x <> k) (window (rel_firstUnackedFrag r) (rel_unackedFrags r)).
Proof.
  intros Hw Hk. unfold deleteUnackedFrag, delete_frag, windowed, span in *. rewrite bind_get. pose proof (wk_first _ _ _ Hw) as Hf.
  destruct (rel_firstUnackedFrag r) as [f|] eqn:Ef; [|rewrite Hf, lookup_empty in Hk; by destruct Hk].
  destruct (window_delete f _ _ k Hw Hk) as [Hw' Hwin]. split_and!; [|cbn; exact Hw'| |cbn; exact Hwin].
  - rewrite (bool_decide_true (is_Some _ /\ is_Some _)) by (split; [exact Hf|done]). reflexivity.
  - cbn [rel_with_frags rel_firstUnackedFrag rel_lastTxSeqNo]. destruct (first_after f k (delete k (rel_unackedFrags r))) as [f'|] eqn:E; [|lia].
    pose proof (wk_first _ _ _ Hw') as Hf'. cbv beta iota in Hf'. apply lookup_delete_is_Some in Hf' as [_ Hf'].
    pose proof (wk_range _ _ _ Hw f f' eq_refl Hf'). pose proof (wk_bound _ _ _ Hw _ Hf'). pose proof (wk_bound _ _ _ Hw _ Hf). pose proof (wk_last _ _ _ Hw).
    rewrite (dist_from f f' (rel_lastTxSeqNo r)) by done. destruct (N.leb_spec (dist f f') (dist f (rel_lastTxSeqNo r))); lia.
Qed.

Lemma assignTxSequence_run frag r :
  let new := (rel_lastTxSeqNo r + 1) mod 2 ^ 64 in
  windowed r -> span r < 2 ^ 64 ->
  assignTxSequence frag r = Some (inr (new, lp_set LP_TxSequence (encode_sequence new) frag), rel_with_last new r) /\
  rel_firstUnackedFrag r <> Some new.
Proof.
  intros new Hw Hs. pose proof (wk_first _ _ _ Hw) as Hf. unfold windowed, span in *.
  assert (rel_firstUnackedFrag r <> Some new) as Hne.
  { intros E. rewrite E in Hs, Hf. pose proof (wk_bound _ _ _ Hw _ Hf) as Hb. pose proof (wk_last _ _ _ Hw) as Hl. subst new.
    destruct (N.eq_dec (rel_lastTxSeqNo r) (2 ^ 64 - 1)) as [El|].
    - rewrite El in Hs. change ((2 ^ 64 - 1 + 1) mod 2 ^ 64) with 0 in Hs. by vm_compute in Hs.
    - rewrite N.mod_small in Hs by lia. dist_cases; lia. }
  split; [|done]. unfold assignTxSequence. unfold mbind, OM_bind, modify, get. cbn [rel_with_last rel_lastTxSeqNo rel_unackedFrags rel_firstUnackedFrag].
  case_decide; [done|]. destruct (rel_firstUnackedFrag r) as [f|]; [|done]. rewrite (proj2 (N.eqb_neq _ _)) by (intros E; apply Hne; by rewrite <- E). done.
Qed.

Lemma replace_found_spec k k' l : k ∈ l -> exists l1 l2, l = l1 ++ k :: l2 /\ replace_found k k' l = Some (l1 ++ k' :: l2) /\ k ∉ l1.
Proof.
  induction l as [|x l IH]; [by intros ?%not_elem_of_nil|]. intros Hk. cbn [replace_found]. destruct (N.eqb_spec x k) as [->|Hne].
  - exists [], l. split_and!; [done|done|apply not_elem_of_nil].
  - apply elem_of_cons in Hk as [|Hk]; [congruence|]. destruct (IH Hk) as (l1 & l2 & -> & -> & Hn). exists (x :: l1), l2. split_and!; [done|done|].
    intros [|?]%elem_of_cons; congruence.
Qed.
Lemma last_app_cons (l1 : list N) x l2 d : List.last (l1 ++ x :: l2) d = List.last (x :: l2) d.
Proof. induction l1 as [|y l1 IH]; [done|]. rewrite <- IH. simpl. by destruct (l1 ++ x :: l2) eqn:E; [destruct l1|]. Qed.
(** The erasure with the last element. *)
Lemma replace_found_perm k l : k ∈ l -> exists l', replace_found k (List.last l 0) l = Some l' /\ k :: removelast l' ≡ₚ l.
Proof.
  intros Hk. destruct (replace_found_spec k (List.last l 0) l Hk) as (l1 & l2 & El & -> & _). eexists. split; [done|]. subst l.
  rewrite removelast_app by done. destruct l2 as [|y l2].
  - rewrite List.last_last. cbn [removelast]. rewrite app_nil_r. apply Permutation_cons_append.
  - cbn [removelast]. change (match l2 with [] => [] | _ => y :: removelast l2 end) with (removelast (y :: l2)).
    rewrite last_app_cons. change (List.last (k :: y :: l2) 0) with (List.last (y :: l2) 0).
    transitivity (k :: l1 ++ y :: l2); [|apply Permutation_middle]. constructor. apply Permutation_app_head.
    pose proof (app_removelast_last (A:=N) (l := y :: l2) 0 ltac:(done)) as E. rewrite E at 3. apply Permutation_cons_append.
Qed.

(** ** An Ack for a fragment *)

Lemma pending_same frags frags' :
  (forall id, (exists k f, frags !! k = Some f /\ uf_netPkt f = id) <-> (exists k f, frags' !! k = Some f /\ uf_netPkt f = id)) -> pending frags' = pending frags.
Proof. intros Hs. apply set_eq. intros id. by rewrite !elem_of_pending, Hs. Qed.
Lemma pending_without id frags frags' :
  id ∉ pending frags' -> pending frags = {[id]} ∪ pending frags' -> size (pending frags) = S (size (pending frags')).
Proof. intros Hn ->. rewrite size_union by set_solver. by rewrite size_singleton. Qed.

(** The fragments of a set of network packets are dropped, their lists may be anything. *)
Lemma linked_delete_frag frags netPkts next k f np l :
  linked frags netPkts next -> frags !! k = Some f -> netPkts !! uf_netPkt f = Some np -> k :: l ≡ₚ np_unackedFrags np ->
  linked (delete k frags) (alter (np_with_frags l) (uf_netPkt f) netPkts) next.
Proof.
  intros [H1 H2 H3] Hk Hnp Hl. destruct (H2 k f np Hk Hnp) as (Hnd & Hok & Hin). rewrite <- Hl in Hnd. apply NoDup_cons in Hnd as [Hkl Hnd].
  assert (forall k' f', frags !! k' = Some f' -> uf_netPkt f' = uf_netPkt f -> k' ∈ k :: l) as Hcover.
  { intros k' f' Hk' E. destruct (H1 k' f' Hk') as (np' & Hnp' & Hin'). rewrite E, Hnp in Hnp'. injection Hnp' as <-. by rewrite Hl. }
  split.
  - intros k' f' [Hne Hk']%lookup_delete_Some. destruct (decide (uf_netPkt f' = uf_netPkt f)) as [E|E].
    + rewrite E, lookup_alter_eq, Hnp. eexists. split; [done|]. cbn. apply (Hcover k' f') in Hk'; [|done]. apply elem_of_cons in Hk' as [|]; [congruence|done].
    + rewrite lookup_alter_ne by done. by apply H1.
  - intros k' f' np' [Hne Hk']%lookup_delete_Some. destruct (decide (uf_netPkt f' = uf_netPkt f)) as [E|E].
    + rewrite E, lookup_alter_eq, Hnp. intros [= <-]. cbn. split_and!; [done|done|]. intros k2 Hk2.
      assert (k2 <> k) by (intros ->; done). rewrite lookup_delete_ne by done. apply Hin. rewrite <- Hl. by right.
    + rewrite lookup_alter_ne by done. intros Hnp'. destruct (H2 k' f' np' Hk' Hnp') as (Hnd' & Hok' & Hin'). split_and!; [done|done|].
      intros k2 Hk2. destruct (Hin' k2 Hk2) as (f2 & Hf2 & E2). exists f2. split; [|done]. rewrite lookup_delete_ne; [done|]. intros ->. congruence.
  - intros id. rewrite lookup_alter_is_Some. apply H3.
Qed.
Lemma pending_delete frags netPkts next k f np l :
  linked frags netPkts next -> frags !! k = Some f -> netPkts !! uf_netPkt f = Some np -> k :: l ≡ₚ np_unackedFrags np ->
  size (pending frags) = (size (pending (delete k frags)) + match l with [] => 1 | _ => 0 end)%nat.
Proof.
  intros [H1 H2 H3] Hk Hnp Hl. destruct (H2 k f np Hk Hnp) as (Hnd & Hok & Hin).
  assert (forall k' f', frags !! k' = Some f' -> uf_netPkt f' = uf_netPkt f -> k' ∈ k :: l) as Hcover.
  { intros k' f' Hk' E. destruct (H1 k' f' Hk') as (np' & Hnp' & Hin'). rewrite E, Hnp in Hnp'. injection Hnp' as <-. by rewrite Hl. }
  destruct l as [|k2 l].
  - rewrite (pending_without (uf_netPkt f) frags (delete k frags)); [lia| |].
    + intros (k' & f' & [Hne Hk']%lookup_delete_Some & E)%elem_of_pending. apply (Hcover k' f') in Hk'; [|done]. apply list_elem_of_singleton in Hk'. congruence.
    + apply set_eq. intros id. rewrite elem_of_union, elem_of_singleton, !elem_of_pending. split.
      * intros (k' & f' & Hk' & E). destruct (decide (k' = k)) as [->|Hne]; [left; congruence|right]. exists k', f'. by rewrite lookup_delete_ne.
      * intros [->|(k' & f' & [Hne Hk']%lookup_delete_Some & E)]; [by exists k, f|by exists k', f'].
  - rewrite (pending_same frags (delete k frags)); [lia|]. intros id. split.
    + intros (k' & f' & Hk' & E). destruct (decide (k' = k)) as [->|Hne]; [|exists k', f'; by rewrite lookup_delete_ne].
      assert (k2 ∈ np_unackedFrags np) as Hk2 by (rewrite <- Hl; right; by left). destruct (Hin k2 Hk2) as (f2 & Hf2 & E2).
      exists k2, f2. rewrite lookup_delete_ne; [split; [done|congruence]|]. intros ->. rewrite <- Hl in Hnd. apply NoDup_cons in Hnd as [Hnd _]. apply Hnd. by left.
    + intros (k' & f' & [Hne Hk']%lookup_delete_Some & E). by exists k', f'.
Qed.

(** The network packet is done with its last fragment. *)
Lemma pending_last frags netPkts next k f np l :
  linked frags netPkts next -> frags !! k = Some f -> netPkts !! uf_netPkt f = Some np -> k :: l ≡ₚ np_unackedFrags np ->
  uf_netPkt f ∈ pending (delete k frags) <-> l <> [].
Proof.
  intros [H1 H2 H3] Hk Hnp Hl. destruct (H2 k f np Hk Hnp) as (Hnd & Hok & Hin). rewrite <- Hl in Hnd. apply NoDup_cons in Hnd as [Hkl _].
  rewrite elem_of_pending. split.
  - intros (x & fx & [Hne Hx]%lookup_delete_Some & E) ->. destruct (H1 x fx Hx) as (np' & Hnp' & Hxin). rewrite E, Hnp in Hnp'. injection Hnp' as <-.
    rewrite <- Hl in Hxin. apply list_elem_of_singleton in Hxin. congruence.
  - intros Hne. destruct l as [|x l]; [done|]. destruct (Hin x) as (fx & Hfx & E); [rewrite <- Hl; right; by left|].
    exists x, fx. split; [|done]. rewrite lookup_delete_ne; [done|]. intros ->. apply Hkl. by left.
Qed.

(** A change of other members of the fragments. *)
Lemma same_netPkt (frags frags' : gmap N UnackedFrag) : (forall x, uf_netPkt <$> frags' !! x = uf_netPkt <$> frags !! x) ->
  forall x f, frags !! x = Some f -> exists f', frags' !! x = Some f' /\ uf_netPkt f' = uf_netPkt f.
Proof. intros Hs x f Hf. specialize (Hs x). rewrite Hf in Hs. apply fmap_Some in Hs as (f' & ? & ?). by exists f'. Qed.
Lemma linked_values (frags frags' : gmap N UnackedFrag) netPkts next :
  (forall x, uf_netPkt <$> frags' !! x = uf_netPkt <$> frags !! x) -> linked frags netPkts next -> linked frags' netPkts next.
Proof.
  intros Hs [H1 H2 H3]. assert (forall x, uf_netPkt <$> frags !! x = uf_netPkt <$> frags' !! x) as Hs' by done. split; [| |done].
  - intros x f' Hf'. destruct (same_netPkt _ _ Hs' x f' Hf') as (f & Hf & <-). by apply H1.
  - intros x f' np Hf' Hnp. destruct (same_netPkt _ _ Hs' x f' Hf') as (f & Hf & E). rewrite <- E in Hnp. destruct (H2 x f np Hf Hnp) as (Hnd & Hok & Hin).
    split_and!; [done|done|]. intros y Hy. destruct (Hin y Hy) as (fy & Hfy & Ey). destruct (same_netPkt _ _ Hs y fy Hfy) as (fy' & Hfy' & Ey').
    exists fy'. split; [done|congruence].
Qed.
Lemma pending_values (frags frags' : gmap N UnackedFrag) : (forall x, uf_netPkt <$> frags' !! x = uf_netPkt <$> frags !! x) -> pending frags' = pending frags.
Proof.
  intros Hs. apply pending_same. intros id. split; intros (x & f & Hf & <-).
  - destruct (same_netPkt _ _ Hs x f Hf) as (f' & ? & ?). by exists x, f'.
  - destruct (same_netPkt frags' frags (fun x => eq_sym (Hs x)) x f Hf) as (f' & ? & ?). by exists x, f'.
Qed.

(** A network packet goes with all its fragments. *)
Lemma linked_drop frags frags' netPkts next k f np :
  linked frags netPkts next -> frags !! k = Some f -> netPkts !! uf_netPkt f = Some np ->
  (forall x, frags' !! x = if decide (x ∈ np_unackedFrags np) then None else frags !! x) ->
  linked frags' netPkts next /\ size (pending frags) = S (size (pending frags')) /\
  (forall x fx, frags' !! x = Some fx <-> frags !! x = Some fx /\ uf_netPkt fx <> uf_netPkt f).
Proof.
  intros [H1 H2 H3] Hk Hnp Hf. destruct (H2 k f np Hk Hnp) as (Hnd & Hok & Hin).
  assert (forall x fx, frags' !! x = Some fx <-> frags !! x = Some fx /\ uf_netPkt fx <> uf_netPkt f) as Hf'.
  { intros x fx. rewrite Hf. split.
    - case_decide as Hx; [done|]. intros Hfx. split; [done|]. intros E. apply Hx. destruct (H1 x fx Hfx) as (np' & Hnp' & Hin'). congruence.
    - intros [Hfx Hne]. rewrite decide_False; [done|]. intros Hx. destruct (Hin x Hx) as (f2 & Hf2 & E2). congruence. }
  split_and!; [split| |exact Hf'].
  - intros x fx [Hfx _]%Hf'. by apply H1.
  - intros x fx np' [Hfx Hne]%Hf' Hnp'. destruct (H2 x fx np' Hfx Hnp') as (Hnd' & Hok' & Hin'). split_and!; [done|done|].
    intros y Hy. destruct (Hin' y Hy) as (fy & Hfy & Ey). exists fy. split; [|done]. apply Hf'. split; [done|congruence].
  - done.
  - apply (pending_without (uf_netPkt f)).
    + intros (x & fx & [_ Hne]%Hf' & E)%elem_of_pending. done.
    + apply set_eq. intros id. rewrite elem_of_union, elem_of_singleton, !elem_of_pending. split.
      * intros (x & fx & Hfx & E). destruct (decide (id = uf_netPkt f)) as [|Hne]; [by left|right]. exists x, fx. split; [|done]. apply Hf'. split; [done|congruence].
      * intros [->|(x & fx & [Hfx _]%Hf' & E)]; [by exists k, f|by exists x, fx].
Qed.

(** A fragment moves to another sequence number. *)
Lemma linked_move frags netPkts next k f np new f' np' l1 l2 :
  linked frags netPkts next -> frags !! k = Some f -> netPkts !! uf_netPkt f = Some np -> np_unackedFrags np = l1 ++ k :: l2 ->
  frags !! new = None -> uf_netPkt f' = uf_netPkt f -> np_unackedFrags np' = l1 ++ new :: l2 ->
  np_pkt np' = np_pkt np -> np_isInterest np' = np_isInterest np ->
  linked (delete k (<[new := f']> frags)) (<[uf_netPkt f := np']> netPkts) next /\ pending (delete k (<[new := f']> frags)) = pending frags.
Proof.
  intros [H1 H2 H3] Hk Hnp El Hnew Ef' El' Ep Ei. destruct (H2 k f np Hk Hnp) as (Hnd & Hok & Hin).
  assert (new <> k) as Hnk by congruence. rewrite El in Hnd, Hin.
  assert (new ∉ l1 ++ k :: l2) as Hnl. { intros Hx. destruct (Hin new Hx) as (f2 & Hf2 & _). congruence. }
  assert (forall x, x ∈ l1 ++ new :: l2 <-> x = new \/ (x ∈ l1 ++ k :: l2 /\ x <> k)) as Hx.
  { intros x. apply NoDup_app in Hnd as (_ & Hd & Hnd2). apply NoDup_cons in Hnd2 as [Hkl2 _]. rewrite !elem_of_app, !elem_of_cons.
    assert (k ∉ l1) by (intros Hk1; apply (Hd k Hk1); by left). split; [intros [?|[?|?]]|intros [->|[[?|[?|?]] ?]]]; try tauto; right; (split; [tauto|congruence]). }
  assert (forall x fx, delete k (<[new := f']> frags) !! x = Some fx <-> (x = new /\ fx = f') \/ (x <> new /\ x <> k /\ frags !! x = Some fx)) as Hf.
  { intros x fx. rewrite lookup_delete_Some. destruct (decide (x = new)) as [->|Hne]; [rewrite lookup_insert_eq|rewrite lookup_insert_ne by done].
    - split; [intros [_ [= ->]]; by left|]. intros [[_ ->]|[? _]]; done.
    - split; [intros [? ?]; right; done|]. intros [[? _]|(_ & ? & ?)]; done. }
  split; [split|].
  - intros x fx [[-> ->]|(Hxn & Hxk & Hfx)]%Hf.
    + rewrite Ef', lookup_insert_eq. eexists. split; [done|]. rewrite El'. apply Hx. by left.
    + destruct (H1 x fx Hfx) as (npx & Hnpx & Hinx). destruct (decide (uf_netPkt fx = uf_netPkt f)) as [E|E].
      * rewrite E, lookup_insert_eq. eexists. split; [done|]. rewrite El'. apply Hx. right. split; [|done]. rewrite <- El. congruence.
      * rewrite lookup_insert_ne by done. by exists npx.
  - intros x fx npx Hfx Hnpx. destruct (decide (uf_netPkt fx = uf_netPkt f)) as [E|E].
    + rewrite E, lookup_insert_eq in Hnpx. injection Hnpx as <-. rewrite El'. split_and!.
      * apply NoDup_app in Hnd as (Hd1 & Hd & Hnd2). apply NoDup_cons in Hnd2 as [Hkl2 Hd2]. rewrite elem_of_app, elem_of_cons in Hnl.
        apply NoDup_app. split_and!; [done| |constructor; [tauto|done]]. intros y Hy [->|Hy2]%elem_of_cons; [tauto|]. apply (Hd y Hy). by right.
      * unfold netPkt_ok in *. by rewrite Ep, Ei.
      * intros y [->|[Hy Hyk]]%Hx; [exists f'; split; [apply Hf; by left|congruence]|]. destruct (Hin y Hy) as (fy & Hfy & Ey). exists fy.
        split; [|congruence]. apply Hf. right. split_and!; [|done|done]. congruence.
    + rewrite lookup_insert_ne in Hnpx by done. apply Hf in Hfx as [[-> ->]|(Hxn & Hxk & Hfx)]; [congruence|].
      destruct (H2 x fx npx Hfx Hnpx) as (Hnd' & Hok' & Hin'). split_and!; [done|done|]. intros y Hy. destruct (Hin' y Hy) as (fy & Hfy & Ey).
      exists fy. split; [|done]. apply Hf. right. split_and!; [congruence|congruence|done].
  - intros id. destruct (decide (id = uf_netPkt f)) as [->|Hne]; [intros _; apply H3; by eexists|]. rewrite lookup_insert_ne by done. apply H3.
  - apply pending_same. intros id. split.
    + intros (x & fx & Hfx & <-). destruct (decide (x = k)) as [->|Hxk].
      * exists new, f'. split; [apply Hf; by left|congruence].
      * exists x, fx. split; [|done]. apply Hf. right. split_and!; [congruence|done|done].
    + intros (x & fx & Hfx & <-). apply Hf in Hfx as [[-> ->]|(Hxn & Hxk & Hfx)]; [by exists k, f|by exists x, fx].
Qed.

Lemma delete_others_run k l : forall r,
  windowed r -> NoDup l -> (forall x, x ∈ l -> is_Some (rel_unackedFrags r !! x)) ->
  exists m first, delete_others k l r = Some (inr (filter (fun x => x <> k) l), rel_with_frags m first r) /\
    windowed (rel_with_frags m first r) /\ span (rel_with_frags m first r) <= span r /\
    forall x, m !! x = if decide (x ∈ l /\ x <> k) then None else rel_unackedFrags r !! x.
Proof.
  induction l as [|y l IH]; intros r Hw Hnd Hl.
  - exists (rel_unackedFrags r), (rel_firstUnackedFrag r). split_and!; [by destruct r|by destruct r|by destruct r|].
    intros x. rewrite decide_False; [done|]. by intros [?%not_elem_of_nil _].
  - apply NoDup_cons in Hnd as [Hyl Hnd]. cbn [delete_others]. destruct (N.eqb_spec y k) as [->|Hne].
    + destruct (IH r Hw Hnd ltac:(intros; apply Hl; by right)) as (m & first & E & H1 & H2 & H3). exists m, first. rewrite filter_cons, decide_False by congruence.
      split_and!; [done|done|done|]. intros x. rewrite H3. destruct (decide (x ∈ l /\ x <> k)) as [[? ?]|Hn]; [rewrite decide_True by (split; [by right|done]); done|].
      rewrite decide_False; [done|]. intros [[?|?]%elem_of_cons ?]; [done|]. by apply Hn.
    + destruct (deleteUnackedFrag_run y r Hw ltac:(apply Hl; by left)) as (E1 & Hw1 & Hs1 & _). erewrite bind_run by exact E1.
      destruct (IH (delete_frag y r) Hw1 Hnd) as (m & first & E & H1 & H2 & H3).
      { intros x Hx. cbn. rewrite lookup_delete_ne by congruence. apply Hl. by right. }
      exists m, first. erewrite bind_run by exact E. rewrite filter_cons, decide_True by done. split_and!; [done|done|etrans; [exact H2|exact Hs1]|].
      intros x. rewrite H3. cbn [delete_frag rel_with_frags rel_unackedFrags]. destruct (decide (x = y)) as [->|Hxy].
      * rewrite lookup_delete_eq. rewrite (decide_True (P := y ∈ y :: l /\ y <> k)) by (split; [by left|done]). by case_decide.
      * rewrite lookup_delete_ne by done. destruct (decide (x ∈ l /\ x <> k)) as [[? ?]|Hn]; [rewrite decide_True by (split; [by right|done]); done|].
        rewrite decide_False; [done|]. intros [[?|?]%elem_of_cons ?]; [done|]. by apply Hn.
Qed.

(** ** How often fragments can still be sent *)

(** What is left of a fragment: its retransmissions, and being given up. *)
Definition sends_left (maxRetx : N) (f : UnackedFrag) : N := 1 + (maxRetx - uf_retxCount f).
Definition potential (maxRetx : N) (frags : gmap N UnackedFrag) : N := map_fold (fun _ f n => sends_left maxRetx f + n) 0 frags.

Lemma potential_insert maxRetx frags k f : frags !! k = None -> potential maxRetx (<[k := f]> frags) = sends_left maxRetx f + potential maxRetx frags.
Proof. intros Hk. unfold potential. rewrite (map_fold_insert_L (fun _ f n => sends_left maxRetx f + n)); [done| |done]. intros. lia. Qed.
Lemma potential_delete maxRetx frags k f : frags !! k = Some f -> potential maxRetx frags = sends_left maxRetx f + potential maxRetx (delete k frags).
Proof. intros Hk. rewrite <- (insert_delete_id frags k f) at 1 by done. by rewrite potential_insert by apply lookup_delete_eq. Qed.
Lemma potential_mono maxRetx frags' : forall frags, frags' ⊆ frags -> potential maxRetx frags' <= potential maxRetx frags.
Proof.
  induction frags' as [|k f frags' Hk IH] using map_ind; intros frags Hs; [unfold potential at 1; rewrite map_fold_empty; lia|].
  rewrite potential_insert by done. assert (frags !! k = Some f) as Hf by (apply (lookup_weaken (<[k := f]> frags')); [apply lookup_insert_eq|done]).
  rewrite (potential_delete _ frags k f Hf). specialize (IH (delete k frags)). enough (frags' ⊆ delete k frags); [specialize (IH ltac:(done)); lia|].
  apply map_subseteq_spec. intros x fx Hx. assert (x <> k) by congruence. rewrite lookup_delete_ne by done. apply (lookup_weaken (<[k := f]> frags')); [by rewrite lookup_insert_ne|done].
Qed.

Section service.
Context {L : Type} `{Laws : LinkLaws L}.
Implicit Types l : L.

(** Network packets that are done with. *)
Definition settled l : N := link_count nAcknowledged l + link_count nRetransmitted l + link_count nRetxExhausted l.
Definition balance (w : LpReliability * L) : N := N.of_nat (size (pending (rel_unackedFrags w.1))) + settled w.2.
Definition reliability_counters : list LinkCounter := [nAcknowledged; nRetransmitted; nRetxExhausted].

Lemma other_counters c : c ∈ reliability_counters ->
  c <> nInterestsExceededRetx /\ c <> nOutOverMtu /\ c <> nCongestionMarked.
Proof using Type. unfold reliability_counters. rewrite !elem_of_cons. by intros [->|[->|[->|[]%not_elem_of_nil]]]. Qed.

Lemma settled_increment c l : c ∈ reliability_counters -> settled (link_increment c l) = settled l + 1.
Proof using Laws.
  intros Hc. unfold settled. rewrite !count_increment. unfold reliability_counters in Hc. rewrite !elem_of_cons in Hc.
  destruct Hc as [->|[->|[->|[]%not_elem_of_nil]]]; repeat case_decide; try done; lia.
Qed.

Lemma on_rel_run {A} (m : OM LpReliability A) r l x r' : m r = Some (inr x, r') -> on_rel m (r, l) = Some (inr x, (r', l)).
Proof using Type. intros E. unfold on_rel. cbn [fst snd]. by rewrite E. Qed.

(** What the rest of an object is, beside the fragments and the counters. *)
Definition same_rest (r r' : LpReliability) : Prop :=
  rel_options r' = rel_options r /\ rel_ackQueue r' = rel_ackQueue r /\ rel_idleAckTimer r' = rel_idleAckTimer r /\
  rel_recentRecvSeqs r' = rel_recentRecvSeqs r /\ rel_recentRecvSeqsQueue r' = rel_recentRecvSeqsQueue r /\
  rel_nextNetPkt r' = rel_nextNetPkt r.
Lemma same_rest_trans r1 r2 r3 : same_rest r1 r2 -> same_rest r2 r3 -> same_rest r1 r3.
Proof using Type. unfold same_rest. intuition congruence. Qed.

(** What counts: a network packet is acknowledged with its last fragment, at once or after
    retransmissions; it is given up when a fragment of it has been sent often enough; a fragment
    that is sent again leaves a mark on its network packet, and counts nothing. *)
Definition acknowledged_effect (k : N) r l r' l' : Prop := forall f np,
  rel_unackedFrags r !! k = Some f -> rel_netPkts r !! uf_netPkt f = Some np ->
  rel_unackedFrags r' = delete k (rel_unackedFrags r) /\
  (forall c, link_count c l' = link_count c l +
     (if decide (uf_netPkt f ∈ pending (rel_unackedFrags r')) then 0
      else if decide (c = if np_didRetx np then nRetransmitted else nAcknowledged) then 1 else 0)) /\
  (forall id, np_didRetx <$> rel_netPkts r' !! id = np_didRetx <$> rel_netPkts r !! id).
Definition given_up_effect (f : UnackedFrag) r l r' l' : Prop :=
  (forall x fx, rel_unackedFrags r' !! x = Some fx <-> rel_unackedFrags r !! x = Some fx /\ uf_netPkt fx <> uf_netPkt f) /\
  (forall c, c ∈ reliability_counters -> link_count c l' = link_count c l + (if decide (c = nRetxExhausted) then 1 else 0)) /\
  (forall id, np_didRetx <$> rel_netPkts r' !! id = np_didRetx <$> rel_netPkts r !! id).
Definition resent_effect (k : N) (f : UnackedFrag) r l r' l' : Prop :=
  (exists new f', rel_unackedFrags r !! new = None /\ rel_unackedFrags r' = delete k (<[new := f']> (rel_unackedFrags r)) /\
     uf_netPkt f' = uf_netPkt f /\ uf_retxCount f' = uf_retxCount f + 1) /\
  (forall c, c ∈ reliability_counters -> link_count c l' = link_count c l) /\
  (forall id, np_didRetx <$> rel_netPkts r' !! id = if decide (id = uf_netPkt f) then Some true else np_didRetx <$> rel_netPkts r !! id).

Lemma acknowledged_run k r l :
  rel_mid {[k]} r -> is_Some (rel_unackedFrags r !! k) ->
  exists r' l', onLpPacketAcknowledged k (r, l) = Some (inr tt, (r', l')) /\
    rel_mid ∅ r' /\ same_rest r r' /\ rel_rttEst r' = rel_rttEst r /\ rel_lastTxSeqNo r' = rel_lastTxSeqNo r /\
    rel_unackedFrags r' = delete k (rel_unackedFrags r) /\ balance (r', l') = balance (r, l) /\ span r' <= span r /\
    link_frame l l' /\ acknowledged_effect k r l r' l'.
Proof using Type.
  intros Hr [f Hf]. pose proof (rk_linked _ _ Hr) as Hl. destruct (lk_frag _ _ _ Hl k f Hf) as (np & Hnp & Hin).
  destruct (replace_found_perm k (np_unackedFrags np) Hin) as (ls & Els & Hperm).
  set (r1 := rel_update_netPkt (uf_netPkt f) (np_with_frags (removelast ls)) r).
  destruct (deleteUnackedFrag_run k r1 (rk_window _ _ Hr) ltac:(by eexists)) as (Edel & Hw' & Hspan & _).
  set (l' := match removelast ls with [] => link_increment (if np_didRetx np then nRetransmitted else nAcknowledged) l | _ => l end).
  exists (delete_frag k r1), l'. split_and!; [| |done|done|done|done| |exact Hspan| |].
  - unfold onLpPacketAcknowledged. rewrite bind_get. cbn [fst]. rewrite Hf, Hnp, Els.
    erewrite bind_run by (apply on_rel_run; reflexivity). fold r1. unfold l'. destruct (removelast ls); (erewrite bind_run by reflexivity); by apply on_rel_run.
  - split; [exact Hw'| | |exact (rk_recent _ _ Hr)].
    + unfold r1. cbn. eapply linked_delete_frag; [exact Hl|exact Hf|exact Hnp|exact Hperm].
    + intros k' f'. cbn. intros [Hne Hk']%lookup_delete_Some. destruct (rk_frags _ _ Hr k' f' Hk') as [H1 H2]. split; [done|]. intros _. apply H2. set_solver.
  - unfold balance. cbn [fst snd delete_frag rel_with_frags rel_unackedFrags r1 rel_update_netPkt rel_with_netPkts].
    rewrite (pending_delete (rel_unackedFrags r) _ _ k f np _ Hl Hf Hnp Hperm). unfold l'. destruct (removelast ls); [|lia].
    rewrite settled_increment by (destruct (np_didRetx np); set_solver). lia.
  - unfold l'. destruct (removelast ls); [apply frame_increment|done].
  - intros f0 np0 Hf0 Hnp0. rewrite Hf in Hf0. injection Hf0 as <-. rewrite Hnp in Hnp0. injection Hnp0 as <-.
    split_and!; [done| |].
    + intros c. pose proof (pending_last _ _ _ k f np _ Hl Hf Hnp Hperm) as Hlast.
      change (rel_unackedFrags (delete_frag k r1)) with (delete k (rel_unackedFrags r)). unfold l'.
      destruct (removelast ls) as [|y ys]; [rewrite decide_False by (by intros ?%Hlast); by rewrite count_increment|].
      rewrite decide_True by (by apply Hlast). lia.
    + intros id. unfold r1. cbn. destruct (decide (uf_netPkt f = id)) as [<-|Hid]; [by rewrite lookup_alter_eq, Hnp|by rewrite lookup_alter_ne].
Qed.

(** ** A lost fragment *)

(** What sending and giving up leave alone; Acks leave the queue at its front. *)
Definition sent_from (r r' : LpReliability) : Prop :=
  rel_options r' = rel_options r /\ (exists taken, rel_ackQueue r = taken ++ rel_ackQueue r') /\ rel_idleAckTimer r' = rel_idleAckTimer r /\
  rel_recentRecvSeqs r' = rel_recentRecvSeqs r /\ rel_recentRecvSeqsQueue r' = rel_recentRecvSeqsQueue r /\
  rel_nextNetPkt r' = rel_nextNetPkt r /\ rel_rttEst r' = rel_rttEst r.
Lemma sent_from_refl r : sent_from r r.
Proof using Type. split_and!; try done. by exists []. Qed.
Lemma sent_from_trans r1 r2 r3 : sent_from r1 r2 -> sent_from r2 r3 -> sent_from r1 r3.
Proof using Type.
  unfold sent_from. intros (? & (t1 & E1) & ? & ? & ? & ? & ?) (? & (t2 & E2) & ? & ? & ? & ? & ?). split_and!; try congruence.
  exists (t1 ++ t2). by rewrite E1, E2, app_assoc.
Qed.
(** An operation on lost fragments: the books balance. *)
Record lost_post (r : LpReliability) l (removed : list N) (r' : LpReliability) l' (n : N) : Prop := {
  lp_mid : rel_mid ∅ r';
  lp_balance : balance (r', l') = balance (r, l);
  lp_span : span r' <= span r + n;
  lp_sent : sent_from r r';
  lp_kept : forall x, is_Some (rel_unackedFrags r !! x) -> is_Some (rel_unackedFrags r' !! x) \/ x ∈ removed;
  lp_size : (size (rel_unackedFrags r') <= size (rel_unackedFrags r))%nat;
  lp_potential : let max := ro_maxRetx (rel_options r) in
    potential max (rel_unackedFrags r') + (if removed then 0 else 1) <= potential max (rel_unackedFrags r);
  lp_frame : link_frame l l';
}.

Lemma notify_dropped_run p r l : netPkt_ok p -> np_isInterest p = true ->
  exists i, notify_dropped sha256 autoCheck (np_pkt p) (r, l) = Some (inr tt, (r, link_onDroppedInterest i l)).
Proof using Type.
  intros Hp Hi. destruct (Hp Hi) as (b & v & frag & i & E1 & E2 & E3 & E4). exists i. unfold notify_dropped.
  rewrite lp_has_get, E1. cbn [assert]. erewrite bind_run by reflexivity. unfold lp_getAs. rewrite E1, E2. erewrite bind_run by reflexivity.
  rewrite E3. erewrite bind_run by reflexivity. by rewrite E4.
Qed.

Lemma map_size_le (m m' : gmap N UnackedFrag) : (forall x, is_Some (m' !! x) -> is_Some (m !! x)) -> (size m' <= size m)%nat.
Proof using Type. intros Hs. rewrite <- !size_dom. apply subseteq_size. intros x. rewrite !elem_of_dom. apply Hs. Qed.

Lemma given_up_run now k f r l :
  rel_mid ∅ r -> rel_unackedFrags r !! k = Some f -> ro_maxRetx (rel_options r) <= uf_retxCount f ->
  exists removed r' l', onLpPacketLost sha256 autoCheck now k (r, l) = Some (inr removed, (r', l')) /\ lost_post r l removed r' l' 0 /\ removed <> [] /\
    given_up_effect f r l r' l'.
Proof using Type.
  intros Hr Hf Hretx. pose proof (rk_linked _ _ Hr) as Hl. destruct (lk_frag _ _ _ Hl k f Hf) as (np & Hnp & Hin).
  destruct (lk_netPkt _ _ _ Hl k f np Hf Hnp) as (Hnd & Hok & Hall).
  set (r0 := rel_update_frag k (uf_with_timer None) r).
  assert (forall x, is_Some (rel_unackedFrags r0 !! x) <-> is_Some (rel_unackedFrags r !! x)) as Hdom by (intros x; apply lookup_alter_is_Some).
  assert (windowed r0) as Hw0 by (eapply window_ok_dom; [intros x; symmetry; apply Hdom|apply (rk_window _ _ Hr)]).
  destruct (delete_others_run k (np_unackedFrags np) r0 Hw0 Hnd) as (m & first & E & Hw1 & Hs1 & Hm).
  { intros x Hx. apply Hdom. destruct (Hall x Hx) as (fx & Hfx & _). by eexists. }
  set (r1 := rel_with_frags m first r0) in *. set (l1 := link_increment nRetxExhausted l).
  assert (exists l2, (if np_isInterest np then notify_dropped sha256 autoCheck (np_pkt np) else mret tt) (r1, l1) = Some (inr tt, (r1, l2)) /\
    (forall c, c ∈ reliability_counters -> link_count c l2 = link_count c l1) /\ link_frame l l2) as (l2 & En & Hcount & Hframe).
  { destruct (np_isInterest np) eqn:Ei.
    - destruct (notify_dropped_run np r1 l1 Hok Ei) as [i ->]. eexists. split_and!; [done| |].
      + intros c Hc. by apply count_dropped, other_counters.
      + etrans; [apply frame_increment|apply frame_dropped].
    - exists l1. split_and!; [done|done|]. apply frame_increment. }
  assert (settled l2 = settled l + 1) as Hset.
  { transitivity (settled l1); [|apply settled_increment; set_solver]. unfold settled. by rewrite !Hcount by set_solver. }
  assert (is_Some (m !! k)) as Hmk. { rewrite Hm, decide_False by tauto. apply Hdom. by eexists. }
  destruct (deleteUnackedFrag_run k r1 Hw1 Hmk) as (Ed & Hw2 & Hs2 & _).
  assert (forall x, delete k m !! x = if decide (x ∈ np_unackedFrags np) then None else rel_unackedFrags r !! x) as Hm2.
  { intros x. destruct (decide (x = k)) as [->|Hxk]; [rewrite lookup_delete_eq; by rewrite decide_True|]. rewrite lookup_delete_ne, Hm by done.
    destruct (decide (x ∈ np_unackedFrags np)); [by rewrite decide_True|rewrite decide_False by tauto]. cbn. by apply lookup_alter_ne. }
  destruct (linked_drop (rel_unackedFrags r) (delete k m) (rel_netPkts r) (rel_nextNetPkt r) k f np Hl Hf Hnp Hm2) as (Hl2 & Hsize & Hmem).
  exists (filter (fun x => x <> k) (np_unackedFrags np) ++ [k]), (delete_frag k r1), l2. split_and!; [| |by intros [_ ?]%app_eq_nil|].
  - unfold onLpPacketLost. erewrite bind_run by (apply on_rel_run; reflexivity). fold r0. rewrite bind_get. cbn [fst].
    assert (rel_unackedFrags r0 !! k = Some (uf_with_timer None f)) as -> by (cbn; by rewrite lookup_alter_eq, Hf).
    destruct (rk_frags _ _ Hr k f Hf) as [[_ (b & s & Eb & Es)] _]. erewrite bind_run by (unfold lp_getAs; cbn [uf_with_timer uf_pkt]; rewrite Eb, Es; reflexivity).
    cbn [uf_with_timer uf_netPkt uf_retxCount]. change (rel_netPkts r0) with (rel_netPkts r). rewrite Hnp. change (rel_options r0) with (rel_options r).
    rewrite (proj2 (N.leb_le _ _) Hretx). erewrite bind_run by (apply on_rel_run; exact E). erewrite bind_run by reflexivity. fold l1.
    cbn [fst snd]. erewrite bind_run by exact En. erewrite bind_run by (apply on_rel_run; exact Ed). reflexivity.
  - split.
    + split; [exact Hw2|exact Hl2| |exact (rk_recent _ _ Hr)]. intros x fx. cbn. rewrite Hm2. case_decide; [done|]. apply (rk_frags _ _ Hr).
    + unfold balance. cbn [fst snd]. change (rel_unackedFrags (delete_frag k r1)) with (delete k m). rewrite Hset, Hsize. lia.
    + change (span r0) with (span r) in Hs1. lia.
    + split_and!; try done. by exists [].
    + intros x Hx. change (rel_unackedFrags (delete_frag k r1)) with (delete k m). rewrite Hm2. case_decide as Hxl; [right|by left].
      rewrite elem_of_app, list_elem_of_filter, list_elem_of_singleton. destruct (decide (x = k)); tauto.
    + apply map_size_le. intros x. change (rel_unackedFrags (delete_frag k r1)) with (delete k m). rewrite Hm2. case_decide; [by intros [? [=]]|done].
    + cbv zeta. change (rel_unackedFrags (delete_frag k r1)) with (delete k m). rewrite (potential_delete _ (rel_unackedFrags r) k f Hf).
      enough (potential (ro_maxRetx (rel_options r)) (delete k m) <= potential (ro_maxRetx (rel_options r)) (delete k (rel_unackedFrags r))).
      { unfold sends_left. destruct (filter _ _ ++ [k]); lia. }
      apply potential_mono, map_subseteq_spec. intros x fx Hx. destruct (decide (x = k)) as [->|Hxk]; [by rewrite lookup_delete_eq in Hx|].
      rewrite lookup_delete_ne by done. rewrite Hm2 in Hx. by case_decide.
    + done.
  - split_and!; [exact Hmem| |done]. intros c Hc. rewrite Hcount by done. apply count_increment.
Qed.

Lemma frag_ok_tx s p : frag_ok p -> frag_ok (lp_set LP_TxSequence (encode_sequence s) p).
Proof using Type.
  intros [Hp (b & q & E & Eq)]. split; [apply lp_set_ok; [|done]; split; [done|unfold encode_sequence; by rewrite length_be_encode]|].
  exists b, q. by rewrite lp_get_set_ne.
Qed.

Lemma resent_run now k f r l :
  rel_mid ∅ r -> ro_isEnabled (rel_options r) = true -> rel_unackedFrags r !! k = Some f -> uf_retxCount f < ro_maxRetx (rel_options r) -> span r < 2 ^ 64 ->
  exists removed r' l', onLpPacketLost sha256 autoCheck now k (r, l) = Some (inr removed, (r', l')) /\ lost_post r l removed r' l' 1 /\ removed <> [] /\
    resent_effect k f r l r' l'.
Proof using Type.
  intros Hr Hen Hf Hretx Hspan. pose proof (rk_linked _ _ Hr) as Hl. destruct (lk_frag _ _ _ Hl k f Hf) as (np & Hnp & Hin).
  destruct (rk_frags _ _ Hr k f Hf) as [Hfok _]. pose proof (rk_window _ _ Hr) as Hw.
  set (id := uf_netPkt f). set (new := (rel_lastTxSeqNo r + 1) mod 2 ^ 64). set (pkt := lp_set LP_TxSequence (encode_sequence new) (uf_pkt f)).
  set (m0 := alter (uf_with_timer None) k (rel_unackedFrags r)). set (r0 := rel_with_frags m0 (rel_firstUnackedFrag r) r).
  assert (forall x, is_Some (m0 !! x) <-> is_Some (rel_unackedFrags r !! x)) as Hdom by (intros x; apply lookup_alter_is_Some).
  assert (windowed r0) as Hw0 by (eapply window_ok_dom; [intros x; symmetry; apply Hdom|exact Hw]).
  assert (rel_firstUnackedFrag r <> Some new /\ assignTxSequence (uf_pkt f) r0 = Some (inr (new, pkt), rel_with_last new r0)) as [Hne Ea].
  { by destruct (assignTxSequence_run (uf_pkt f) r0 Hw0 Hspan). }
  set (f' := mkUnackedFrag pkt None now (uf_retxCount f + 1) 0 id). set (m1 := <[new := f']> m0).
  destruct (window_push (rel_firstUnackedFrag r) (rel_lastTxSeqNo r) m0 f' Hw0 Hne) as (Hfresh & Hw1 & _). fold new in Hfresh, Hw1. fold m1 in Hw1.
  pose proof (wk_first _ _ _ Hw) as Hfirst. destruct (rel_firstUnackedFrag r) as [first|] eqn:Efirst; [|by rewrite Hfirst, lookup_empty in Hf].
  cbn [r0 rel_with_frags rel_firstUnackedFrag default from_option id] in Hw1.
  destruct (replace_found_spec k new (np_unackedFrags np) Hin) as (l1 & l2 & El & Er & _).
  set (np' := np_with_frags (l1 ++ new :: l2) (np_retransmitted np)).
  set (r1 := mkLpReliability (rel_options r) m1 (Some first) (rel_ackQueue r) (rel_recentRecvSeqs r) (rel_recentRecvSeqsQueue r) new
               (rel_idleAckTimer r) (rel_rttEst r) (<[id := np']> (rel_netPkts r)) (rel_nextNetPkt r)).
  assert (new <> k) as Hnk. { intros E. rewrite E in Hfresh. assert (is_Some (m0 !! k)) as [? ?] by (apply Hdom; by eexists). congruence. }
  assert (m1 !! k = Some (uf_with_timer None f)) as Hm1k by (unfold m1, m0; by rewrite lookup_insert_ne, lookup_alter_eq, Hf).
  destruct (deleteUnackedFrag_run k r1 Hw1 ltac:(eexists; exact Hm1k)) as (Ed & Hw2 & Hs2 & _).
  assert (delete k m1 !! new = Some f') as Hnewf by (unfold m1; by rewrite lookup_delete_ne, lookup_insert_eq by done).
  destruct (send_spec now pkt (delete_frag k r1) l Hen (frag_ok_transmittable _ (frag_ok_tx _ _ Hfok))) as (taken & q & l' & Eq & Es & Hcount & Hframe & _).
  set (f2 := uf_with_timer (Some (now + re_rto (rel_rttEst r))%Z) f').
  set (r' := rel_with_frags (alter (uf_with_timer (Some (now + re_rto (rel_rttEst r))%Z)) new (delete k m1)) (rel_firstUnackedFrag (delete_frag k r1)) (rel_with_acks q (delete_frag k r1))).
  assert (rel_unackedFrags r' = delete k (<[new := f2]> (rel_unackedFrags r))) as Em.
  { change (alter (uf_with_timer (Some (now + re_rto (rel_rttEst r))%Z)) new (delete k m1) = delete k (<[new := f2]> (rel_unackedFrags r))).
    apply map_eq. intros x. destruct (decide (x = new)) as [->|Hx].
    - rewrite lookup_alter_eq, Hnewf, lookup_delete_ne, lookup_insert_eq by done. done.
    - rewrite lookup_alter_ne by done. destruct (decide (x = k)) as [->|Hxk]; [by rewrite !lookup_delete_eq|]. unfold m1, m0.
      by rewrite !lookup_delete_ne, !lookup_insert_ne, lookup_alter_ne by done. }
  assert (rel_unackedFrags r !! new = None) as Hnewr. { apply eq_None_not_Some. rewrite <- Hdom, Hfresh. by intros [? [=]]. }
  destruct (linked_move (rel_unackedFrags r) (rel_netPkts r) (rel_nextNetPkt r) k f np new f2 np' l1 l2 Hl Hf Hnp El Hnewr eq_refl eq_refl eq_refl eq_refl) as [Hl' Hpend].
  exists [k], r', l'. split_and!; [| |done|].
  - unfold onLpPacketLost. erewrite bind_run by (apply on_rel_run; reflexivity). rewrite bind_get. cbn [fst].
    assert (rel_unackedFrags (rel_update_frag k (uf_with_timer None) r) !! k = Some (uf_with_timer None f)) as -> by (cbn; by rewrite lookup_alter_eq, Hf).
    destruct Hfok as [_ (b & s & Eb & Es')]. erewrite bind_run by (unfold lp_getAs; cbn [uf_with_timer uf_pkt]; rewrite Eb, Es'; reflexivity).
    cbn [uf_with_timer uf_netPkt uf_retxCount uf_pkt]. change (rel_netPkts (rel_update_frag k (uf_with_timer None) r)) with (rel_netPkts r). rewrite Hnp.
    change (rel_options (rel_update_frag k (uf_with_timer None) r)) with (rel_options r). rewrite (proj2 (N.leb_gt _ _) Hretx).
    assert (rel_update_frag k (uf_with_timer None) r = r0) as -> by (unfold r0, rel_update_frag; by rewrite Efirst).
    erewrite bind_run by (apply on_rel_run; exact Ea). cbv beta iota. do 3 (erewrite bind_run by (apply on_rel_run; reflexivity)). rewrite Er.
    erewrite bind_run by (apply on_rel_run; reflexivity).
    match goal with |- (on_rel (deleteUnackedFrag k) ≫= _) (?w, l) = _ => assert (w = r1) as -> end.
    { unfold r1, rel_update_netPkt, rel_update_frag, rel_with_netPkts, rel_with_frags, rel_with_last, r0. cbn. unfold emplace. rewrite Hfresh.
      f_equal.
      - rewrite (alter_is_insert _ new (mkUnackedFrag pkt None now 0 0 id)) by (apply lookup_insert_eq). rewrite insert_insert_eq. done.
      - rewrite (alter_is_insert np_retransmitted _ _ _ Hnp). rewrite (alter_is_insert _ _ (np_retransmitted np)) by (apply lookup_insert_eq).
        by rewrite insert_insert_eq. }
    erewrite bind_run by (apply on_rel_run; exact Ed). rewrite bind_get. cbn [fst].
    change (rel_unackedFrags (delete_frag k r1)) with (delete k m1). rewrite Hnewf. cbn [f' uf_pkt].
    erewrite bind_run by exact Es. rewrite bind_get. erewrite bind_run by (apply on_rel_run; reflexivity). reflexivity.
  - split.
    + split.
      * eapply window_ok_dom; [|exact Hw2]. intros x. change (is_Some (delete k m1 !! x) <-> is_Some (alter (uf_with_timer (Some (now + re_rto (rel_rttEst r))%Z)) new (delete k m1) !! x)).
        by rewrite lookup_alter_is_Some.
      * rewrite Em. exact Hl'.
      * rewrite Em. intros x fx [Hxk Hfx]%lookup_delete_Some. destruct (decide (x = new)) as [->|Hx].
        -- rewrite lookup_insert_eq in Hfx. injection Hfx as <-. split; [by apply frag_ok_tx|]. intros _. by eexists.
        -- rewrite lookup_insert_ne in Hfx by done. by apply (rk_frags _ _ Hr).
      * exact (rk_recent _ _ Hr).
    + unfold balance. cbn [fst snd]. rewrite Em, Hpend. unfold settled. by rewrite !Hcount.
    + change (span r') with (span (delete_frag k r1)). etrans; [exact Hs2|]. unfold span. rewrite Efirst. cbn [r1 rel_firstUnackedFrag rel_lastTxSeqNo].
      pose proof (wk_bound _ _ _ Hw first Hfirst). assert (dist first new = dist first (rel_lastTxSeqNo r) + 1) as ->; [|lia].
      apply dist_next; [done|apply (wk_last _ _ _ Hw)|]. intros E. apply Hne. by rewrite <- E.
    + split_and!; try done. by exists taken.
    + intros x Hx. rewrite Em. destruct (decide (x = k)) as [->|Hxk]; [right; by left|left]. rewrite lookup_delete_ne by done.
      apply lookup_insert_is_Some'. by right.
    + rewrite Em. rewrite map_size_delete, map_size_insert. rewrite lookup_insert_ne, Hf, Hnewr by done. lia.
    + cbv zeta. rewrite Em. assert (<[new := f2]> (rel_unackedFrags r) !! k = Some f) as Hk2 by (by rewrite lookup_insert_ne).
      pose proof (potential_delete (ro_maxRetx (rel_options r)) _ k f Hk2) as Ep. rewrite potential_insert in Ep by done.
      unfold sends_left in Ep. cbn [f2 f' uf_with_timer uf_retxCount] in Ep. cbv beta iota. lia.
    + done.
  - split_and!.
    + exists new, f2. by rewrite Em.
    + intros c Hc. by apply Hcount; apply other_counters.
    + intros x. change (rel_netPkts r') with (<[id := np']> (rel_netPkts r)). case_decide as D; [subst x; by rewrite lookup_insert_eq|].
      by rewrite lookup_insert_ne by auto.
Qed.

Lemma lost_run now k r l :
  rel_mid ∅ r -> ro_isEnabled (rel_options r) = true -> is_Some (rel_unackedFrags r !! k) -> span r < 2 ^ 64 ->
  exists removed r' l', onLpPacketLost sha256 autoCheck now k (r, l) = Some (inr removed, (r', l')) /\ lost_post r l removed r' l' 1 /\ removed <> [].
Proof using Type.
  intros Hr Hen [f Hf] Hs. destruct (N.le_gt_cases (ro_maxRetx (rel_options r)) (uf_retxCount f)).
  - destruct (given_up_run now k f r l) as (removed & r' & l' & E & [? ? ? ? ? ? ? ?] & Hne & _); [done..|]. exists removed, r', l'. split_and!; [done| |done]. split; [done|done|lia|done..].
  - destruct (resent_run now k f r l) as (removed & r' & l' & E & P & Hne & _); [done..|]. by exists removed, r', l'.
Qed.
Lemma lost_post_trans r0 l0 k1 r1 l1 n1 k2 r2 l2 n2 :
  lost_post r0 l0 k1 r1 l1 n1 -> lost_post r1 l1 k2 r2 l2 n2 -> lost_post r0 l0 (k1 ++ k2) r2 l2 (n1 + n2).
Proof using Type.
  intros [A1 A2 A3 A4 A5 A6 A8 A7] [B1 B2 B3 B4 B5 B6 B8 B7]. split; [done|congruence|lia|by eapply sent_from_trans| |lia| |].
  - intros x Hx. rewrite elem_of_app. destruct (A5 x Hx) as [Hx1|]; [|auto]. destruct (B5 x Hx1); auto.
  - cbv zeta in *. destruct A4 as (Ho & _). rewrite Ho in B8. destruct k1, k2; cbn [app] in *; lia.
  - by etrans.
Qed.
Lemma lost_post_refl r l : rel_mid ∅ r -> lost_post r l [] r l 0.
Proof using Type. intros Hr. split; [done|done|lia|apply sent_from_refl|auto|lia|cbv zeta; lia|reflexivity]. Qed.

Lemma lost_loop_run now lost : forall removed r l,
  rel_mid ∅ r -> ro_isEnabled (rel_options r) = true -> span r + N.of_nat (length lost) <= 2 ^ 64 -> NoDup lost ->
  (forall x, x ∈ lost -> is_Some (rel_unackedFrags r !! x) \/ x ∈ removed) ->
  exists more r' l', lost_loop sha256 autoCheck now lost removed (r, l) = Some (inr tt, (r', l')) /\ lost_post r l more r' l' (N.of_nat (length lost)).
Proof using Type.
  induction lost as [|k lost IH]; intros removed r l Hr Hen Hs Hnd Hk.
  - exists [], r, l. split; [done|]. by apply lost_post_refl.
  - apply NoDup_cons in Hnd as [Hkl Hnd]. cbn [lost_loop]. cbn [length] in Hs. case_bool_decide as Hrem.
    + destruct (IH removed r l Hr Hen ltac:(lia) Hnd) as (more & r' & l' & E & [? ? ? ? ? ? ? ?]); [intros x Hx; apply Hk; by right|].
      exists more, r', l'. split; [done|]. split; [done|done|cbn [length]; lia|done..].
    + destruct (Hk k ltac:(by left)) as [Hin|]; [|done].
      destruct (lost_run now k r l Hr Hen Hin ltac:(lia)) as (rem & r1 & l1 & E1 & P1 & _). erewrite bind_run by exact E1.
      pose proof P1 as [Q1 Q2 Q3 Q4 Q5 Q6 Q8 Q7].
      destruct (IH (removed ++ rem) r1 l1 Q1) as (more & r' & l' & E & P2); [destruct Q4 as (-> & _); done|lia|done| |].
      { intros x Hx. rewrite elem_of_app. destruct (Hk x ltac:(by right)) as [Hx1|]; [|auto]. destruct (Q5 x Hx1); auto. }
      exists (rem ++ more), r', l'. split; [done|]. replace (N.of_nat (length (k :: lost))) with (1 + N.of_nat (length lost)) by (cbn [length]; lia).
      by eapply lost_post_trans.
Qed.
End service.
End invariant.
