(* ===== verification/LpRelEvents.v ===== *)
(** * The events of the reliability component

    Packets sent and received, and timers: each keeps the invariant of LpRelInv.v. *)

From S2P Require Import Prelude Tlv Block LpPacket LpReassembly ObjectMonad RttEstimator Packet InterestWire LpReliability LpWindow LpRelInv.

Local Open Scope N_scope.

Section events.
Context (sha256 : list byte -> list byte) (autoCheck : bool).
Context {L : Type} `{Laws : LinkLaws L}.
Implicit Types (l : L) (r : LpReliability).
#[local] Notation mid := (rel_mid sha256 autoCheck).

(** What processing Acks leaves alone. *)
Definition acks_from r r' : Prop :=
  rel_options r' = rel_options r /\ (exists taken, rel_ackQueue r = taken ++ rel_ackQueue r') /\ rel_idleAckTimer r' = rel_idleAckTimer r /\
  rel_recentRecvSeqs r' = rel_recentRecvSeqs r /\ rel_recentRecvSeqsQueue r' = rel_recentRecvSeqsQueue r /\ rel_nextNetPkt r' = rel_nextNetPkt r.
Lemma acks_from_trans r1 r2 r3 : acks_from r1 r2 -> acks_from r2 r3 -> acks_from r1 r3.
Proof using Type.
  unfold acks_from. intros (? & (t1 & E1) & ? & ? & ? & ?) (? & (t2 & E2) & ? & ? & ? & ?). split_and!; try congruence.
  exists (t1 ++ t2). by rewrite E1, E2, app_assoc.
Qed.
Lemma acks_from_refl r : acks_from r r.
Proof using Type. split_and!; try done. by exists []. Qed.
Lemma sent_acks r r' : sent_from r r' -> acks_from r r'.
Proof using Type. unfold sent_from, acks_from. tauto. Qed.
Lemma same_rest_acks r r' : same_rest r r' -> acks_from r r'.
Proof using Type. unfold same_rest, acks_from. intros (? & E & ? & ? & ? & ?). split_and!; try done. by exists []. Qed.

Record acked_post r l r' l' (n : N) : Prop := {
  ap_mid : mid ∅ r';
  ap_balance : balance (r', l') = balance (r, l);
  ap_span : span r' <= span r + n;
  ap_from : acks_from r r';
  ap_size : (size (rel_unackedFrags r') <= size (rel_unackedFrags r))%nat;
  ap_frame : link_frame l l';
}.
Lemma acked_post_trans r0 l0 r1 l1 n1 r2 l2 n2 :
  acked_post r0 l0 r1 l1 n1 -> acked_post r1 l1 r2 l2 n2 -> acked_post r0 l0 r2 l2 (n1 + n2).
Proof using Type. intros [A1 A2 A3 A4 A5 A6] [B1 B2 B3 B4 B5 B6]. split; [done|congruence|lia|by eapply acks_from_trans|lia|by etrans]. Qed.

(** The search for lost fragments, from a state of the invariant. *)
Lemma findLost_run k r : windowed r -> is_Some (rel_unackedFrags r !! k) ->
  exists pre post, window (rel_firstUnackedFrag r) (rel_unackedFrags r) = pre ++ k :: post /\
    findLostLpPackets k r = Some (inr (filter (counted_out (ro_seqNumLossThreshold (rel_options r)) (rel_unackedFrags r)) pre),
                                  rel_with_frags (bump_all pre (rel_unackedFrags r)) (rel_firstUnackedFrag r) r).
Proof using Type.
  intros Hw Hk. unfold windowed in Hw. pose proof (wk_first _ _ _ Hw) as Hf.
  assert (k ∈ window (rel_firstUnackedFrag r) (rel_unackedFrags r)) as Hin by (by eapply window_elem).
  apply list_elem_of_split in Hin as (pre & post & E). exists pre, post. split; [done|]. unfold findLostLpPackets.
  destruct (rel_firstUnackedFrag r) as [f|]; [|by destruct pre]. destruct (window_head _ _ _ Hw) as [w Ew].
  assert (length pre < S (size (rel_unackedFrags r)))%nat as Hfuel.
  { assert (NoDup pre) as Hnd. { pose proof (window_NoDup _ _ _ Hw) as Hnd. rewrite E in Hnd. by apply NoDup_app in Hnd as [? _]. }
    assert (length pre <= size (rel_unackedFrags r))%nat; [|lia]. rewrite <- (size_list_to_set (C := gset N)) by done. rewrite <- size_dom.
    apply subseteq_size. intros x Hx%elem_of_list_to_set. apply elem_of_dom, (elem_of_window (Some f)). rewrite E, elem_of_app. by left. }
  pose proof (findLost_loop_spec (ro_seqNumLossThreshold (rel_options r)) f _ k post pre [] (rel_unackedFrags r) (Some f) [] (S (size (rel_unackedFrags r))) Hw E) as Hspec.
  cbn [bump_all fold_left] in Hspec. rewrite Hspec; [done| |done]. rewrite Ew in E. destruct pre as [|x pre]; cbn [app head] in *; congruence.
Qed.

Lemma bump_all_netPkt ls m x : NoDup ls -> uf_netPkt <$> bump_all ls m !! x = uf_netPkt <$> m !! x.
Proof using Type. intros Hn. rewrite bump_all_lookup by done. case_decide; [|done]. by destruct (m !! x). Qed.

(** Other members of an object. *)
Lemma mid_rtt off e r : mid off (rel_with_rtt e r) <-> mid off r.
Proof using Type. split; intros [A B C D]; by split. Qed.

Lemma processAck_run now a r l :
  mid ∅ r -> ro_isEnabled (rel_options r) = true -> span r + N.of_nat (size (rel_unackedFrags r)) <= 2 ^ 64 ->
  exists r' l', processAck sha256 autoCheck now a (r, l) = Some (inr tt, (r', l')) /\ acked_post r l r' l' (N.of_nat (size (rel_unackedFrags r))).
Proof using Type.
  intros Hr Hen Hs. unfold processAck. rewrite bind_get. cbn [fst]. destruct (rel_unackedFrags r !! a) as [f|] eqn:Hf.
  2:{ exists r, l. split; [done|]. split; [done|done|lia|apply acks_from_refl|lia|done]. }
  set (m0 := alter (uf_with_timer None) a (rel_unackedFrags r)).
  set (e := if uf_retxCount f =? 0 then addMeasurement (now - uf_sendTime f) (rel_rttEst r) else rel_rttEst r).
  set (r0 := rel_with_rtt e (rel_with_frags m0 (rel_firstUnackedFrag r) r)).
  assert (forall x, is_Some (m0 !! x) <-> is_Some (rel_unackedFrags r !! x)) as Hdom by (intros x; apply lookup_alter_is_Some).
  assert (forall x, uf_netPkt <$> m0 !! x = uf_netPkt <$> rel_unackedFrags r !! x) as Hnet0.
  { intros x. unfold m0. destruct (decide (x = a)) as [->|]; [rewrite lookup_alter_eq; by destruct (rel_unackedFrags r !! a)|by rewrite lookup_alter_ne]. }
  assert (windowed r0) as Hw0 by (eapply window_ok_dom; [intros x; symmetry; apply Hdom|apply (rk_window _ _ _ _ Hr)]).
  destruct (findLost_run a r0 Hw0 ltac:(apply Hdom; by eexists)) as (pre & post & Ewin & Efind).
  set (lost := filter (counted_out (ro_seqNumLossThreshold (rel_options r0)) (rel_unackedFrags r0)) pre) in *.
  set (r1 := rel_with_frags (bump_all pre (rel_unackedFrags r0)) (rel_firstUnackedFrag r0) r0) in *.
  assert (NoDup (pre ++ a :: post)) as Hnd by (rewrite <- Ewin; by eapply window_NoDup). apply NoDup_app in Hnd as (Hpre & Hpa & _).
  assert (mid {[a]} r1) as Hr1.
  { split; [|exact (linked_values _ _ _ _ _ _ (fun x => eq_trans (bump_all_netPkt pre m0 x Hpre) (Hnet0 x)) (rk_linked _ _ _ _ Hr))| |exact (rk_recent _ _ _ _ Hr)].
    - eapply window_ok_dom; [|exact Hw0]. intros x. symmetry. by apply bump_all_dom.
    - cbn. intros x fx. rewrite bump_all_lookup by done. unfold m0. intros Hx.
      assert (exists f0, rel_unackedFrags r !! x = Some f0 /\ uf_pkt fx = uf_pkt f0 /\ (x <> a -> uf_rtoTimer fx = uf_rtoTimer f0)) as (f0 & Hf0 & Ep & Et).
      { destruct (decide (x = a)) as [->|Hxa].
        - rewrite lookup_alter_eq, Hf in Hx. exists f. split; [done|]. case_decide; injection Hx as <-; done.
        - rewrite lookup_alter_ne in Hx by done. destruct (rel_unackedFrags r !! x) as [f0|]; [|by case_decide]. exists f0. split; [done|].
          case_decide; injection Hx as <-; done. }
      destruct (rk_frags _ _ _ _ Hr x f0 Hf0) as [H1 H2]. split; [by rewrite Ep|]. intros Hxa. rewrite Et by set_solver. apply H2. set_solver. }
  assert (is_Some (rel_unackedFrags r1 !! a)) as Ha by (apply bump_all_dom; [done|]; apply Hdom; by eexists).
  destruct (acknowledged_run sha256 autoCheck a r1 l Hr1 Ha) as (r2 & l2 & Eack & Hr2 & Hrest & _ & _ & Ef2 & Hbal & Hspan2 & Hfits2 & _).
  assert (forall x, x ∈ lost -> x ∈ pre) as Hlost by (intros x; unfold lost; rewrite list_elem_of_filter; tauto).
  assert (forall x, x ∈ pre -> is_Some (rel_unackedFrags r2 !! x)) as Hin2.
  { intros x Hx. rewrite Ef2, lookup_delete_ne by (intros ->; apply (Hpa x Hx); by left). apply bump_all_dom; [done|].
    apply (elem_of_window (rel_firstUnackedFrag r0)). rewrite Ewin, elem_of_app. by left. }
  assert (size (rel_unackedFrags r2) <= size (rel_unackedFrags r))%nat as Hsize2.
  { apply map_size_le. intros x. rewrite Ef2, lookup_delete_is_Some. intros [_ Hx]. apply Hdom. by apply bump_all_dom in Hx. }
  assert (NoDup lost) as Hndl by (by apply NoDup_filter).
  assert (length lost <= size (rel_unackedFrags r2))%nat as Hlen.
  { rewrite <- (size_list_to_set (C := gset N)) by done. rewrite <- size_dom. apply subseteq_size. intros x Hx%elem_of_list_to_set. apply elem_of_dom. auto. }
  change (span r1) with (span r) in Hspan2.
  destruct (lost_loop_run sha256 autoCheck now lost [] r2 l2 Hr2) as (more & r' & l' & Eloop & [P1 P2 P3 P4 P5 P6 P8 P7]).
  { destruct Hrest as (-> & _). done. }
  { lia. }
  { done. }
  { intros x Hx. left. auto. }
  exists r', l'. split.
  - erewrite bind_run by (apply on_rel_run; reflexivity).
    match goal with |- (_ ≫= ?k) (?w, l) = _ => assert ((if uf_retxCount f =? 0 then on_rel (modify (fun r => rel_with_rtt (addMeasurement (now - uf_sendTime f) (rel_rttEst r)) r)) else mret tt) (w, l) = Some (inr tt, (r0, l))) as Ertt end.
    { unfold r0, e. destruct (uf_retxCount f =? 0); [done|]. cbn. by destruct r. }
    erewrite bind_run by exact Ertt. erewrite bind_run by (apply on_rel_run; exact Efind). erewrite bind_run by exact Eack. exact Eloop.
  - split; [done| |lia| |lia|by etrans].
    + rewrite P2, Hbal. unfold balance. cbn [fst snd]. f_equal. do 2 f_equal. unfold r1. cbn [rel_with_frags rel_unackedFrags].
      apply pending_values. intros x. rewrite bump_all_netPkt by done. apply Hnet0.
    + eapply acks_from_trans; [|by apply sent_acks]. eapply (acks_from_trans _ r1); [|by apply same_rest_acks]. split_and!; try done. by exists [].
Qed.

Lemma processAcks_run now acks : forall r l,
  mid ∅ r -> ro_isEnabled (rel_options r) = true -> span r + N.of_nat (length acks) * N.of_nat (size (rel_unackedFrags r)) <= 2 ^ 64 ->
  exists r' l', processAcks sha256 autoCheck now acks (r, l) = Some (inr tt, (r', l')) /\
    acked_post r l r' l' (N.of_nat (length acks) * N.of_nat (size (rel_unackedFrags r))).
Proof using Type.
  induction acks as [|a acks IH]; intros r l Hr Hen Hs.
  - exists r, l. split; [done|]. split; [done|done|lia|apply acks_from_refl|lia|done].
  - cbn [processAcks length] in *. rewrite Nat2N.inj_succ, N.mul_succ_l in *. destruct (processAck_run now a r l Hr Hen ltac:(lia)) as (r1 & l1 & E1 & P1).
    erewrite bind_run by exact E1. pose proof P1 as [Q1 Q2 Q3 Q4 Q5 Q6].
    assert (N.of_nat (length acks) * N.of_nat (size (rel_unackedFrags r1)) <= N.of_nat (length acks) * N.of_nat (size (rel_unackedFrags r))) as Hmul by (apply N.mul_le_mono_l; lia).
    destruct (IH r1 l1 Q1) as (r2 & l2 & E2 & P2); [destruct Q4 as (-> & _); done|lia|]. exists r2, l2. split; [done|].
    destruct (acked_post_trans _ _ _ _ _ _ _ _ P1 P2) as [? ? ? ? ? ?]. split; [done|done|lia|done..].
Qed.

(** ** Sending *)

Lemma linked_add frags netPkts next id np new f :
  linked sha256 autoCheck frags netPkts next -> netPkts !! id = Some np -> netPkt_ok sha256 autoCheck np -> NoDup (np_unackedFrags np) ->
  (forall x, x ∈ np_unackedFrags np -> exists f', frags !! x = Some f' /\ uf_netPkt f' = id) ->
  frags !! new = None -> uf_netPkt f = id ->
  linked sha256 autoCheck (<[new := f]> frags) (<[id := np_with_frags (np_unackedFrags np ++ [new]) np]> netPkts) next /\
  pending (<[new := f]> frags) = {[id]} ∪ pending frags.
Proof using Type.
  intros [H1 H2 H3] Hnp Hok Hnd Hin Hnew Ef. assert (new ∉ np_unackedFrags np) as Hn. { intros Hx. destruct (Hin new Hx) as (f' & Hf' & _). congruence. }
  split; [split|].
  - intros x fx Hx. destruct (decide (x = new)) as [->|Hxn].
    + rewrite lookup_insert_eq in Hx. injection Hx as <-. rewrite Ef, lookup_insert_eq. eexists. split; [done|]. cbn. rewrite elem_of_app. right. by left.
    + rewrite lookup_insert_ne in Hx by done. destruct (H1 x fx Hx) as (npx & Hnpx & Hinx). destruct (decide (uf_netPkt fx = id)) as [E|E].
      * rewrite E, lookup_insert_eq. eexists. split; [done|]. cbn. rewrite elem_of_app. left. congruence.
      * rewrite lookup_insert_ne by done. by exists npx.
  - intros x fx npx Hx Hnpx. destruct (decide (uf_netPkt fx = id)) as [E|E].
    + rewrite E, lookup_insert_eq in Hnpx. injection Hnpx as <-. cbn. split_and!; [|exact Hok|].
      * apply NoDup_app. split_and!; [done| |by apply NoDup_singleton]. intros y Hy ->%list_elem_of_singleton. done.
      * intros y. rewrite elem_of_app, list_elem_of_singleton. intros [Hy| ->].
        -- destruct (Hin y Hy) as (fy & Hfy & Ey). exists fy. rewrite lookup_insert_ne by congruence. split; [done|congruence].
        -- exists f. rewrite lookup_insert_eq. split; [done|congruence].
    + rewrite lookup_insert_ne in Hnpx by done. assert (x <> new) as Hxn. { intros ->. rewrite lookup_insert_eq in Hx. congruence. }
      rewrite lookup_insert_ne in Hx by done. destruct (H2 x fx npx Hx Hnpx) as (A & B & C). split_and!; [done|done|]. intros y Hy.
      destruct (C y Hy) as (fy & Hfy & Ey). exists fy. rewrite lookup_insert_ne by congruence. done.
  - intros id'. destruct (decide (id' = id)) as [->|Hne]; [intros _; apply H3; by eexists|]. rewrite lookup_insert_ne by done. apply H3.
  - apply set_eq. intros id'. rewrite elem_of_union, elem_of_singleton, !elem_of_pending. split.
    + intros (x & fx & Hx & <-). destruct (decide (x = new)) as [->|Hxn]; [rewrite lookup_insert_eq in Hx; left; congruence|right].
      rewrite lookup_insert_ne in Hx by done. by exists x, fx.
    + intros [->|(x & fx & Hx & <-)]; [exists new, f; by rewrite lookup_insert_eq|]. exists x, fx. rewrite lookup_insert_ne by congruence. done.
Qed.

Lemma begin_singleton {V} k (v : V) : begin (<[k := v]> (∅ : gmap N V)) = Some k.
Proof using Type. unfold begin, keys. rewrite insert_empty, map_to_list_singleton. done. Qed.

(** The fragments with the sequence numbers that follow [last]. *)
Fixpoint with_txSeqs (last : N) (frags : list LpPacket) : list LpPacket :=
  match frags with
  | [] => []
  | p :: frags => let s := (last + 1) mod 2 ^ 64 in lp_set LP_TxSequence (encode_sequence s) p :: with_txSeqs s frags
  end.

(** The sequence numbers they get, and the send window as a queue. *)
Fixpoint txSeqs (last : N) (n : nat) : list N :=
  match n with O => [] | S n => let s := (last + 1) mod 2 ^ 64 in s :: txSeqs s n end.
Definition send_queue (r : LpReliability) : list N := window (rel_firstUnackedFrag r) (rel_unackedFrags r).

Record collecting (id : N) (r : LpReliability) : Prop := {
  co_netPkt : exists np, rel_netPkts r !! id = Some np /\ netPkt_ok sha256 autoCheck np /\ NoDup (np_unackedFrags np) /\
    forall x, x ∈ np_unackedFrags np -> exists f, rel_unackedFrags r !! x = Some f /\ uf_netPkt f = id;
}.
(** What handing over a packet leaves alone. *)
Definition handed_from r r' : Prop :=
  rel_options r' = rel_options r /\ rel_ackQueue r' = rel_ackQueue r /\ rel_idleAckTimer r' = rel_idleAckTimer r /\
  rel_recentRecvSeqs r' = rel_recentRecvSeqs r /\ rel_recentRecvSeqsQueue r' = rel_recentRecvSeqsQueue r /\ rel_rttEst r' = rel_rttEst r.

Lemma handleOutgoing_loop_run now id frags : forall r,
  mid ∅ r -> collecting id r -> span r + N.of_nat (length frags) <= 2 ^ 64 -> Forall frag_ok frags ->
  exists r', handleOutgoing_loop now id frags r = Some (inr (with_txSeqs (rel_lastTxSeqNo r) frags), r') /\
    mid ∅ r' /\ handed_from r r' /\ rel_nextNetPkt r' = rel_nextNetPkt r /\ span r' <= span r + N.of_nat (length frags) /\
    pending (rel_unackedFrags r') = (if frags then ∅ else {[id]}) ∪ pending (rel_unackedFrags r) /\
    send_queue r' = send_queue r ++ txSeqs (rel_lastTxSeqNo r) (length frags) /\
    (forall i, np_didRetx <$> rel_netPkts r' !! i = np_didRetx <$> rel_netPkts r !! i).
Proof using Type.
  induction frags as [|p frags IH]; intros r Hr [(np & Hnp & Hok & Hnd & Hin)] Hs Hf.
  - exists r. split_and!; try done; [lia|set_solver|by rewrite app_nil_r].
  - apply Forall_cons in Hf as [Hp Hf]. cbn [length] in Hs. set (new := (rel_lastTxSeqNo r + 1) mod 2 ^ 64). set (p' := lp_set LP_TxSequence (encode_sequence new) p).
    pose proof (rk_window _ _ _ _ Hr) as Hw. destruct (assignTxSequence_run p r Hw ltac:(lia)) as [Ea Hne]. fold new in Ea, Hne. fold p' in Ea.
    set (f := mkUnackedFrag p' (Some (now + re_rto (rel_rttEst r))%Z) now 0 0 id).
    destruct (window_push (rel_firstUnackedFrag r) (rel_lastTxSeqNo r) (rel_unackedFrags r) f Hw Hne) as (Hfresh & Hw' & Hq). fold new in Hfresh, Hw', Hq.
    destruct (linked_add _ _ _ id np new f (rk_linked _ _ _ _ Hr) Hnp Hok Hnd Hin Hfresh eq_refl) as [Hl' Hpend].
    set (np' := np_with_frags (np_unackedFrags np ++ [new]) np).
    set (r' := mkLpReliability (rel_options r) (<[new := f]> (rel_unackedFrags r)) (Some (default new (rel_firstUnackedFrag r))) (rel_ackQueue r)
      (rel_recentRecvSeqs r) (rel_recentRecvSeqsQueue r) new (rel_idleAckTimer r) (rel_rttEst r) (<[id := np']> (rel_netPkts r)) (rel_nextNetPkt r)).
    assert (frag_ok p') as Hp' by (by apply frag_ok_tx).
    assert (mid ∅ r') as Hr'.
    { split; [exact Hw'|exact Hl'| |exact (rk_recent _ _ _ _ Hr)]. intros x fx Hx. cbn in Hx. destruct (decide (x = new)) as [->|Hxn].
      - rewrite lookup_insert_eq in Hx. injection Hx as <-. split; [done|]. intros _. by eexists.
      - rewrite lookup_insert_ne in Hx by done. by apply (rk_frags _ _ _ _ Hr). }
    assert (collecting id r') as Hc'.
    { split. exists np'. cbn. rewrite lookup_insert_eq. split_and!; [done|exact Hok| |].
      - apply NoDup_app. split_and!; [done| |by apply NoDup_singleton]. intros y Hy ->%list_elem_of_singleton. destruct (Hin new Hy) as (? & ? & _). congruence.
      - intros y. rewrite elem_of_app, list_elem_of_singleton. intros [Hy| ->]; [|exists f; by rewrite lookup_insert_eq].
        destruct (Hin y Hy) as (fy & Hfy & Ey). exists fy. rewrite lookup_insert_ne by congruence. done. }
    assert (span r' <= span r + 1) as Hspan.
    { unfold span. cbn [r' rel_firstUnackedFrag rel_lastTxSeqNo]. pose proof (wk_first _ _ _ Hw) as Hfirst. destruct (rel_firstUnackedFrag r) as [first|]; cbn [default from_option Datatypes.id].
      - pose proof (wk_bound _ _ _ Hw first Hfirst). assert (dist first new = dist first (rel_lastTxSeqNo r) + 1) as ->; [|lia].
        apply dist_next; [done|apply (wk_last _ _ _ Hw)|]. intros E. apply Hne. by rewrite <- E.
      - assert (new < 2 ^ 64) as Hn by (apply N.mod_lt; lia). rewrite (proj2 (dist_0 new new Hn Hn) eq_refl). lia. }
    destruct (IH r' Hr' Hc' ltac:(lia) Hf) as (r2 & E2 & Hr2 & Hh & Hnext & Hspan2 & Hpend2 & Hq2 & Hd2). exists r2. split_and!; [|done|exact Hh|exact Hnext|cbn [length]; lia| | |].
    + cbn [handleOutgoing_loop]. destruct Hp as [_ (b & s & Eb & Es)]. rewrite lp_has_get, Eb. erewrite bind_run by reflexivity. erewrite bind_run by exact Ea. cbv beta iota.
      erewrite bind_run by reflexivity. assert (lp_get LP_Sequence p' = Some b) as Eb' by (unfold p'; by rewrite lp_get_set_ne).
      erewrite bind_run by (unfold lp_getAs; rewrite Eb', Es; reflexivity). rewrite bind_get. do 3 (erewrite bind_run by reflexivity).
      match goal with |- (handleOutgoing_loop _ _ _ ≫= _) ?w = _ => assert (w = r') as -> end; [|by erewrite bind_run by exact E2].
      unfold rel_update_frag, rel_update_netPkt, r'. cbn. unfold emplace. rewrite Hfresh, (alter_is_insert _ new (mkUnackedFrag p' None now 0 0 id)), insert_insert_eq by apply lookup_insert_eq.
      change (mkUnackedFrag _ (Some _) _ _ _ _) with f. rewrite map_size_insert_None by done. pose proof (wk_first _ _ _ Hw) as Hfirst.
      assert (alter (fun p => np_with_frags (np_unackedFrags p ++ [new]) p) id (rel_netPkts r) = <[id := np']> (rel_netPkts r)) as En by exact (alter_is_insert _ _ _ _ Hnp).
      destruct (rel_firstUnackedFrag r) as [first|] eqn:Efirst; cbn [default from_option Datatypes.id].
      * assert (size (rel_unackedFrags r) <> 0%nat) as Hsz. { intros E%map_size_empty_inv. rewrite E, lookup_empty in Hfirst. by destruct Hfirst. }
        rewrite (proj2 (Nat.eqb_neq _ _)) by lia. unfold rel_with_netPkts, rel_with_frags, rel_with_last. cbn. by rewrite En.
      * assert (size (rel_unackedFrags r) = 0%nat) as -> by (rewrite Hfirst; apply map_size_empty). cbn [Nat.eqb]. unfold rel_with_netPkts, rel_with_frags, rel_with_last. cbn. rewrite En.
        assert (begin (<[new := f]> (rel_unackedFrags r)) = Some new) as -> by (rewrite Hfirst; apply begin_singleton). done.
    + rewrite Hpend2. cbn [r' rel_unackedFrags]. rewrite Hpend. destruct frags; set_solver.
    + rewrite Hq2. unfold send_queue. cbn [r' rel_firstUnackedFrag rel_unackedFrags rel_lastTxSeqNo]. rewrite Hq, <- app_assoc. done.
    + intros i. rewrite Hd2. cbn. destruct (decide (i = id)) as [->|Hi]; [by rewrite lookup_insert_eq, Hnp|by rewrite lookup_insert_ne by done].
Qed.
Lemma handleOutgoing_run now frags pkt isInterest r l :
  mid ∅ r -> ro_isEnabled (rel_options r) = true -> span r + N.of_nat (length frags) <= 2 ^ 64 -> Forall frag_ok frags -> frags <> [] ->
  netPkt_ok sha256 autoCheck (mkNetPkt [] pkt isInterest false) ->
  exists r', handleOutgoing now frags pkt isInterest r = Some (inr (with_txSeqs (rel_lastTxSeqNo r) frags), r') /\
    mid ∅ r' /\ handed_from r r' /\ rel_nextNetPkt r' = rel_nextNetPkt r + 1 /\ balance (r', l) = balance (r, l) + 1 /\
    send_queue r' = send_queue r ++ txSeqs (rel_lastTxSeqNo r) (length frags) /\
    (forall i, np_didRetx <$> rel_netPkts r' !! i = if decide (i = rel_nextNetPkt r) then Some false else np_didRetx <$> rel_netPkts r !! i).
Proof using Type.
  intros Hr Hen Hs Hf Hne Hok. set (id := rel_nextNetPkt r). set (np := mkNetPkt [] pkt isInterest false).
  set (r0 := rel_with_netPkts (<[id := np]> (rel_netPkts r)) (id + 1) r). pose proof (rk_linked _ _ _ _ Hr) as [H1 H2 H3].
  assert (rel_netPkts r !! id = None) as Hfresh. { destruct (rel_netPkts r !! id) eqn:E; [|done]. pose proof (H3 id ltac:(by eexists)). subst id. lia. }
  assert (mid ∅ r0) as Hr0.
  { split; [exact (rk_window _ _ _ _ Hr)| |exact (rk_frags _ _ _ _ Hr)|exact (rk_recent _ _ _ _ Hr)]. split; cbn.
    - intros x f Hx. destruct (H1 x f Hx) as (npx & Hnpx & Hin). exists npx. rewrite lookup_insert_ne by congruence. done.
    - intros x f npx Hx. destruct (H1 x f Hx) as (npx' & Hnpx' & _). rewrite lookup_insert_ne by congruence. by apply (H2 x).
    - intros i. destruct (decide (i = id)) as [->|Hi]; [lia|]. rewrite lookup_insert_ne by done. intros Hi'. specialize (H3 i Hi'). subst id. lia. }
  assert (collecting id r0) as Hc. { split. exists np. cbn. rewrite lookup_insert_eq. split_and!; [done|exact Hok|constructor|]. by intros x ?%not_elem_of_nil. }
  destruct (handleOutgoing_loop_run now id frags r0 Hr0 Hc Hs Hf) as (r' & E & Hr' & Hh & Hn & _ & Hp & Hq & Hd). exists r'. split_and!; [|done|exact Hh|exact Hn| |exact Hq|].
  - unfold handleOutgoing. rewrite bind_get, Hen. erewrite bind_run by reflexivity. erewrite bind_run by reflexivity. exact E.
  - unfold balance. cbn [fst snd]. rewrite Hp. destruct frags as [|p frags]; [done|]. change (rel_unackedFrags r0) with (rel_unackedFrags r).
    rewrite size_union, size_singleton; [lia|]. intros i ->%elem_of_singleton (x & f & Hx & E')%elem_of_pending.
    destruct (H1 x f Hx) as (npx & Hnpx & _). congruence.
  - intros i. rewrite Hd. cbn. case_decide as D; [subst i; by rewrite lookup_insert_eq|by rewrite lookup_insert_ne by auto].
Qed.

(** ** Receiving *)

Lemma expire_recent_ok now rto q : forall seqs, (forall s, is_Some (seqs !! s) -> s ∈ q) ->
  forall s, is_Some ((expire_recent now rto q seqs).2 !! s) -> s ∈ (expire_recent now rto q seqs).1.
Proof using Type.
  induction q as [|x q IH]; intros seqs Hq; [done|]. cbn [expire_recent].
  assert (forall s, is_Some (emplace x 0%Z seqs !! s) -> s ∈ x :: q) as Hq'.
  { intros s. unfold emplace. destruct (seqs !! x) eqn:E; [apply Hq|]. rewrite lookup_insert_is_Some'. intros [->|Hs]; [by left|auto]. }
  destruct (_ <? now)%Z; [|done]. apply IH. intros s. rewrite lookup_delete_is_Some. intros [Hne Hs]. apply Hq' in Hs. apply elem_of_cons in Hs as [|]; [congruence|done].
Qed.
Lemma checkDuplicate_run now s r : mid ∅ r ->
  exists q m, checkDuplicate now s r = Some (inr (bool_decide (is_Some (rel_recentRecvSeqs r !! s))), rel_with_recent m q r) /\ mid ∅ (rel_with_recent m q r) /\
    is_Some (m !! s) /\ s ∈ q.
Proof using Type.
  intros Hr. unfold checkDuplicate. rewrite bind_get. pose proof (expire_recent_ok now (re_rto (rel_rttEst r)) _ _ (rk_recent _ _ _ _ Hr)) as Hx.
  destruct (expire_recent now (re_rto (rel_rttEst r)) (rel_recentRecvSeqsQueue r) (rel_recentRecvSeqs r)) as [q m]. cbn [fst snd] in Hx.
  assert (forall x, is_Some (emplace s now m !! x) <-> x = s \/ is_Some (m !! x)) as He.
  { intros x. unfold emplace. destruct (m !! s) eqn:E; [|rewrite lookup_insert_is_Some'; naive_solver]. split; [auto|]. intros [->|]; [by eexists|done]. }
  exists (q ++ [s]), (emplace s now m). split_and!; [done| |apply He; by left|rewrite elem_of_app; right; by left].
  destruct Hr as [A B C D]. split; [done|done|done|]. cbn. intros x [->|Hx']%He; rewrite elem_of_app; [right; by left|left; auto].
Qed.

(** An exception of the parser. *)
Definition tlv_exception (e : Exception) : Prop := exists t, e = TlvError t.

Lemma startIdleAckTimer_run now r : mid ∅ r -> exists r', startIdleAckTimer now r = Some (inr tt, r') /\ mid ∅ r' /\ is_Some (rel_idleAckTimer r') /\
  rel_unackedFrags r' = rel_unackedFrags r /\ rel_options r' = rel_options r /\ rel_nextNetPkt r' = rel_nextNetPkt r.
Proof using Type.
  intros Hr. unfold startIdleAckTimer. rewrite bind_get. destruct (rel_idleAckTimer r) eqn:E.
  - exists r. rewrite E. split_and!; try done.
  - eexists. split_and!; [reflexivity| |by eexists|done..]. destruct Hr as [A B C D]. by split.
Qed.

Record step_post r l (res : Exception + unit) r' l' : Prop := {
  sp_mid : mid ∅ r';
  sp_options : rel_options r' = rel_options r;
  sp_throw : forall e, res = inl e -> tlv_exception e;
  sp_timed : res = inr tt -> acks_timed r -> acks_timed r';
  sp_balance : balance (r', l') + rel_nextNetPkt r = balance (r, l) + rel_nextNetPkt r';
  sp_frame : link_frame l l';
}.
Lemma bind_throw {S A B} (m : OM S A) (k : A -> OM S B) s e s' : m s = Some (inl e, s') -> (m ≫= k) s = Some (inl e, s').
Proof using Type. intros E. unfold mbind, OM_bind. by rewrite E. Qed.
Lemma lp_getAs_run {S A} t (decode : Block -> tlv_error + A) p b (w : S) : lp_get t p = Some b ->
  lp_getAs t decode p w = match decode b with inl e => Some (inl (TlvError e), w) | inr x => Some (inr x, w) end.
Proof using Type. intros E. unfold lp_getAs. rewrite E. by destruct (decode b). Qed.

(** A packet is received: no assertion fails, the Acks in it settle what they can. *)
Lemma processIncomingPacket_run now pkt r l :
  mid ∅ r -> ro_isEnabled (rel_options r) = true ->
  span r + N.of_nat (length (lp_list LP_Ack pkt)) * N.of_nat (size (rel_unackedFrags r)) <= 2 ^ 64 ->
  exists res r' l', processIncomingPacket sha256 autoCheck now pkt (r, l) = Some (res, (r', l')) /\
    step_post r l (match res with inl e => inl e | inr _ => inr tt end) r' l'.
Proof using Type.
  intros Hr Hen Hs. unfold processIncomingPacket. rewrite bind_get. cbn [fst]. rewrite Hen. erewrite bind_run by reflexivity.
  destruct (decode_all decode_sequence (lp_list LP_Ack pkt)) as [t|acks] eqn:Eacks.
  { eexists (inl _), r, l. split; [reflexivity|]. split; [done|done|intros e [= <-]; by eexists|done|lia|done]. }
  assert (length acks = length (lp_list LP_Ack pkt)) as Hlen.
  { clear Hs. revert acks Eacks. induction (lp_list LP_Ack pkt) as [|b bs IH]; intros acks; cbn; [by intros [= <-]|]. destruct (decode_sequence b); [done|]. cbn.
    change (foldr _ (inr []) bs) with (decode_all decode_sequence bs). destruct (decode_all decode_sequence bs) as [|l0]; [done|]. intros [= <-]. cbn. f_equal. by apply (IH l0). }
  erewrite bind_run by reflexivity. destruct (processAcks_run now acks r l Hr Hen ltac:(by rewrite Hlen)) as (r1 & l1 & E1 & [Q1 Q2 Q3 (Qo & (taken & Qt) & Qi & _ & _ & Qn) Q5 Q6]).
  erewrite bind_run by exact E1.
  assert (acks_timed r -> acks_timed r1) as Ht1. { unfold acks_timed. intros Ht Hne. rewrite Qi. apply Ht. rewrite Qt. intros [_ E]%app_eq_nil. done. }
  destruct (lp_has LP_Fragment pkt && lp_has LP_TxSequence pkt) eqn:Ehas.
  2:{ eexists (inr _), r1, l1. split; [reflexivity|]. split; [done|done|done|auto|lia|done]. }
  apply andb_true_iff in Ehas as [_ Htx]. rewrite lp_has_get in Htx. destruct (lp_get LP_TxSequence pkt) as [b|] eqn:Eb; [|done].
  pose proof (lp_getAs_run LP_TxSequence decode_sequence pkt b (r1, l1) Eb) as Eget. destruct (decode_sequence b) as [t|txSeq].
  { eexists (inl _), r1, l1. split; [by apply bind_throw|]. split; [done|done|intros e [= <-]; by eexists|done|lia|done]. }
  erewrite bind_run by exact Eget. set (r2 := rel_with_acks (rel_ackQueue r1 ++ [txSeq]) r1). erewrite bind_run by (apply on_rel_run; reflexivity). fold r2.
  assert (mid ∅ r2) as Hr2 by (destruct Q1 as [A B C D]; by split).
  assert (forall isDup r3, mid ∅ r3 -> rel_unackedFrags r3 = rel_unackedFrags r1 -> rel_options r3 = rel_options r1 -> rel_nextNetPkt r3 = rel_nextNetPkt r1 ->
    exists res r' l', (on_rel (startIdleAckTimer now);; mret (negb isDup)) (r3, l1) = Some (res, (r', l')) /\ step_post r l (match res with inl e => inl e | inr _ => inr tt end) r' l') as Hend.
  { intros isDup r3 Hr3 Ef Eo En. destruct (startIdleAckTimer_run now r3 Hr3) as (r4 & E4 & Hr4 & Ht4 & Ef4 & Eo4 & En4).
    eexists (inr _), r4, l1. split; [erewrite bind_run by (apply on_rel_run; exact E4); reflexivity|]. split; [done|congruence|done| | |done].
    - intros _ _ _. exact Ht4.
    - unfold balance in *. cbn [fst snd] in *. rewrite Ef4, Ef, En4, En, Qn. lia. }
  destruct (lp_has LP_Sequence pkt) eqn:Eseq.
  - rewrite lp_has_get in Eseq. destruct (lp_get LP_Sequence pkt) as [b2|] eqn:Eb2; [|done].
    pose proof (lp_getAs_run LP_Sequence decode_sequence pkt b2 (r2, l1) Eb2) as Eget2. destruct (decode_sequence b2) as [t|s].
    + eexists (inl _), r2, l1. split; [by apply bind_throw, bind_throw|]. split; [done|done|intros e [= <-]; by eexists|done| |done].
      unfold balance in *. cbn [fst snd] in *. change (rel_unackedFrags r2) with (rel_unackedFrags r1). change (rel_nextNetPkt r2) with (rel_nextNetPkt r1). lia.
    + destruct (checkDuplicate_run now s r2 Hr2) as (q & m & Ed & Hr3 & _).
      erewrite bind_run by (erewrite bind_run by exact Eget2; apply on_rel_run; exact Ed). by apply Hend.
  - erewrite bind_run by reflexivity. by apply Hend.
Qed.

(** ** Timers *)

Lemma rtoTimer_run now k r l :
  mid ∅ r -> ro_isEnabled (rel_options r) = true -> is_Some (rel_unackedFrags r !! k) -> span r < 2 ^ 64 ->
  exists r' l', rtoTimer_fires sha256 autoCheck now k (r, l) = Some (inr tt, (r', l')) /\ step_post r l (inr tt) r' l' /\ span r' <= span r + 1 /\ balance (r', l') = balance (r, l) /\
    potential (ro_maxRetx (rel_options r)) (rel_unackedFrags r') < potential (ro_maxRetx (rel_options r)) (rel_unackedFrags r).
Proof using Type.
  intros Hr Hen Hk Hs. destruct (lost_run sha256 autoCheck now k r l Hr Hen Hk Hs) as (removed & r' & l' & E & [Q1 Q2 Q3 (Qo & (taken & Qt) & Qi & _ & _ & Qn & _) Q5 Q6 Q8 Q7] & Hne).
  exists r', l'. split_and!; [unfold rtoTimer_fires; by erewrite bind_run by exact E| |done|done|cbv zeta in Q8; destruct removed; [done|lia]]. split; [done|done|done| |lia|done].
  intros _. unfold acks_timed. intros Ht Hq. rewrite Qi. apply Ht. rewrite Qt. intros [_ E']%app_eq_nil. done.
Qed.

Lemma idle_loop_run now fuel : forall r l,
  mid ∅ r -> ro_isEnabled (rel_options r) = true -> link_fits_ack l -> (length (rel_ackQueue r) <= fuel)%nat ->
  exists l', idle_loop fuel now (r, l) = Some (inr tt, (rel_with_acks [] r, l')) /\
    (forall c, c ∈ reliability_counters -> link_count c l' = link_count c l) /\ link_frame l l'.
Proof using Type.
  induction fuel as [|fuel IH]; intros r l Hr Hen Hfit Hlen; cbn [idle_loop]; rewrite bind_get; cbn [fst]; destruct (rel_ackQueue r) as [|a q] eqn:Eq.
  - exists l. split; [|done]. destruct r; cbn in *. by subst.
  - cbn in Hlen. lia.
  - exists l. split; [|done]. destruct r; cbn in *. by subst.
  - destruct (send_spec now LpPacket_new r l Hen) as (taken & q' & l1 & E1 & E2 & E3 & E4); [split; [apply LpPacket_new_ok|by left]|].
    destruct E4 as [Hframe Htaken]. pose proof (frame_fits _ _ Hframe Hfit) as Hfit1. assert (taken <> []) as Hne by (apply Htaken; [done|done|by rewrite Eq]). erewrite bind_run by exact E2.
    destruct (IH (rel_with_acks q' r) l1) as (l' & E & Hset & Hfit'); [destruct Hr as [A B C D]; by split|done|done| |].
    + cbn [rel_with_acks rel_ackQueue]. rewrite E1 in Eq. apply (f_equal length) in Eq. rewrite length_app in Eq. destruct taken; [done|]. cbn in *. lia.
    + exists l'. split_and!; [exact E| |by etrans]. intros c Hc. rewrite Hset by done. by apply E3; apply other_counters.
Qed.

(** ** Everything that happens to the object *)

Inductive RelEvent :=
| HandOver (now : Z) (frags : list LpPacket) (pkt : LpPacket) (isInterest : bool)   (* handleOutgoing *)
| SendOther (now : Z) (pkt : LpPacket)                                               (* a packet goes by the link service *)
| Receive (now : Z) (pkt : LpPacket)
| RtoTimer (now : Z) (k : N)
| IdleTimer (now : Z).
Definition rel_step (ev : RelEvent) : OM (LpReliability * L) unit :=
  match ev with
  | HandOver now frags pkt isInterest => on_rel (handleOutgoing now frags pkt isInterest);; mret tt
  | SendOther now pkt => link_sendLpPacket now pkt
  | Receive now pkt => processIncomingPacket sha256 autoCheck now pkt;; mret tt
  | RtoTimer now k => rtoTimer_fires sha256 autoCheck now k
  | IdleTimer now => w ← get; idleAckTimer_fires (length (rel_ackQueue w.1)) now
  end.

(** When an event can happen: timers fire that are set, the link service hands over fragments
    with a Sequence, and the window is not so wide that the sequence numbers run out. *)
Definition admissible (ev : RelEvent) (w : LpReliability * L) : Prop :=
  let r := w.1 in
  match ev with
  | HandOver now frags pkt isInterest =>
      Forall frag_ok frags /\ frags <> [] /\ netPkt_ok sha256 autoCheck (mkNetPkt [] pkt isInterest false) /\
      span r + N.of_nat (length frags) <= 2 ^ 64
  | SendOther now pkt => transmittable pkt
  | Receive now pkt => span r + N.of_nat (length (lp_list LP_Ack pkt)) * N.of_nat (size (rel_unackedFrags r)) <= 2 ^ 64
  | RtoTimer now k => (exists f t, rel_unackedFrags r !! k = Some f /\ uf_rtoTimer f = Some t /\ (t <= now)%Z) /\ span r < 2 ^ 64
  | IdleTimer now => exists t, rel_idleAckTimer r = Some t /\ (t <= now)%Z
  end.

Inductive reached : LpReliability * L -> Prop :=
| reached_new options l :
    ro_isEnabled options = true -> link_fits_ack l -> settled l = 0 -> reached (LpReliability_new options, l)
| reached_step ev w res w' : reached w -> admissible ev w -> rel_step ev w = Some (res, w') -> reached w'.

Lemma rel_step_run ev r l : mid ∅ r -> ro_isEnabled (rel_options r) = true -> link_fits_ack l -> admissible ev (r, l) ->
  exists res r' l', rel_step ev (r, l) = Some (res, (r', l')) /\ step_post r l res r' l' /\
    forall e, res = inl e -> exists now pkt, ev = Receive now pkt.
Proof using Type.
  intros Hr Hen Hfit Ha. destruct ev as [now frags pkt isInterest|now pkt|now pkt|now k|now]; cbn [rel_step admissible fst] in *.
  - destruct Ha as (H1 & H2 & H3 & H4). destruct (handleOutgoing_run now frags pkt isInterest r l Hr Hen H4 H1 H2 H3) as (r' & E & Hr' & (Ho & Hq & Hi & _) & Hn & Hb & _).
    exists (inr tt), r', l. split_and!; [by erewrite bind_run by (apply on_rel_run; exact E)| |done]. split; [done|done|done| |lia|done].
    intros _. unfold acks_timed. by rewrite Hq, Hi.
  - destruct (send_spec now pkt r l Hen Ha) as (taken & q & l' & E1 & E2 & E3 & E4). exists (inr tt), (rel_with_acks q r), l'. split_and!; [done| |done].
    split; [destruct Hr as [A B C D]; by split|done|done| | |by apply E4].
    + intros _. unfold acks_timed. rewrite E1. cbn [rel_with_acks rel_ackQueue rel_idleAckTimer]. intros Ht Hq. apply Ht. by intros [_ ?]%app_eq_nil.
    + unfold balance, settled. cbn [fst snd rel_with_acks rel_unackedFrags rel_nextNetPkt]. rewrite !E3 by done. lia.
  - destruct (processIncomingPacket_run now pkt r l Hr Hen Ha) as ([e|b] & r' & l' & E & P).
    + exists (inl e), r', l'. split_and!; [by apply bind_throw|done|by eauto].
    + exists (inr tt), r', l'. split_and!; [by erewrite bind_run by exact E|done|done].
  - destruct Ha as [(f & t & Hf & _) Hs]. destruct (rtoTimer_run now k r l Hr Hen ltac:(by eexists) Hs) as (r' & l' & E & P & _). by exists (inr tt), r', l'.
  - rewrite bind_get. cbn [fst]. unfold idleAckTimer_fires. erewrite bind_run by (apply on_rel_run; reflexivity).
    destruct (idle_loop_run now (length (rel_ackQueue r)) (rel_with_idle None r) l) as (l' & E & Hset & Hfit'); [destruct Hr as [A B C D]; by split|done|done|done|].
    eexists (inr tt), _, l'. split_and!; [exact E| |done]. split; [destruct Hr as [A B C D]; by split|done|done| | |done].
    + intros _ _ Hne. by destruct Hne.
    + unfold balance, settled. cbn [fst snd]. rewrite !Hset by set_solver. cbn. lia.
Qed.

(** Handing over, sending and answering count nothing; a packet that is handed over has not been
    sent again. *)
Definition quiet (ev : RelEvent) : Prop := match ev with HandOver _ _ _ _ | SendOther _ _ | IdleTimer _ => True | _ => False end.
Lemma quiet_step ev r l res r' l' : mid ∅ r -> ro_isEnabled (rel_options r) = true -> link_fits_ack l -> admissible ev (r, l) ->
  quiet ev -> rel_step ev (r, l) = Some (res, (r', l')) ->
  (forall c, c ∈ reliability_counters -> link_count c l' = link_count c l) /\
  (forall i, np_didRetx <$> rel_netPkts r' !! i =
     if decide (i = rel_nextNetPkt r /\ rel_nextNetPkt r <> rel_nextNetPkt r') then Some false else np_didRetx <$> rel_netPkts r !! i).
Proof using Type.
  intros Hr Hen Hfit Ha Hq. destruct ev as [now frags pkt isInterest|now pkt| | |now]; try done; cbn [rel_step admissible fst] in *.
  - destruct Ha as (H1 & H2 & H3 & H4). destruct (handleOutgoing_run now frags pkt isInterest r l Hr Hen H4 H1 H2 H3) as (r1 & E & _ & _ & Hn & _ & _ & Hd).
    erewrite bind_run by (apply on_rel_run; exact E). intros [= <- <- <-]. split; [done|]. intros i. rewrite Hd.
    destruct (decide (i = rel_nextNetPkt r)); [rewrite decide_True by (split; [done|lia]); done|by rewrite decide_False by tauto].
  - destruct (send_spec now pkt r l Hen Ha) as (taken & q & l1 & _ & -> & E3 & _). intros [= <- <- <-]. split.
    + intros c Hc. by apply E3; apply other_counters.
    + intros i. rewrite decide_False; [done|]. by intros [_ []].
  - rewrite bind_get. cbn [fst]. unfold idleAckTimer_fires. erewrite bind_run by (apply on_rel_run; reflexivity).
    destruct (idle_loop_run now (length (rel_ackQueue r)) (rel_with_idle None r) l) as (l1 & E & Hset & _); [destruct Hr as [A B C D]; by split|done|done|done|].
    rewrite E. intros [= <- <- <-]. split; [done|]. intros i. rewrite decide_False; [done|]. by intros [_ []].
Qed.

Lemma mid_weaken off off' r : off ⊆ off' -> mid off r -> mid off' r.
Proof using Type. intros Hs [A B C D]. split; [done|done| |done]. intros k f Hf. destruct (C k f Hf) as [C1 C2]. split; [done|]. intros Hk. apply C2. set_solver. Qed.

Lemma reached_ok w : reached w ->
  mid ∅ w.1 /\ ro_isEnabled (rel_options w.1) = true /\ link_fits_ack w.2 /\ rel_nextNetPkt w.1 = balance w.
Proof using Type.
  induction 1 as [options l Hen Hfit Hset|ev [r l] res [r' l'] _ (Hr & Hen & Hfit & Hb) Ha E].
  - split_and!; [by apply LpReliability_new_ok|done|done|]. unfold balance. cbn. by rewrite Hset.
  - destruct (rel_step_run ev r l Hr Hen Hfit Ha) as (res' & r2 & l2 & E' & [P1 P2 P3 P4 P5 P6] & _). rewrite E in E'. injection E' as <- <- <-.
    cbn [fst snd] in *. split_and!; [done|by rewrite P2|by eapply frame_fits|]. lia.
Qed.

(** Timers fire, one after the other, for fragments that are still there. *)
Inductive only_timers : nat -> LpReliability * L -> LpReliability * L -> Prop :=
| no_timers w : only_timers 0 w w
| next_timer n now k w w1 w2 : admissible (RtoTimer now k) w -> rel_step (RtoTimer now k) w = Some (inr tt, w1) -> only_timers n w1 w2 -> only_timers (S n) w w2.

Lemma only_timers_ok n w w' : only_timers n w w' -> forall r l, w = (r, l) -> mid ∅ r -> ro_isEnabled (rel_options r) = true ->
  mid ∅ w'.1 /\ balance w' = balance w /\ rel_options w'.1 = rel_options r /\
  N.of_nat n + potential (ro_maxRetx (rel_options r)) (rel_unackedFrags w'.1) <= potential (ro_maxRetx (rel_options r)) (rel_unackedFrags r).
Proof using Type.
  induction 1 as [w|n now k w [r1 l1] w2 Ha E _ IH]; intros r l -> Hr Hen; [split_and!; [done|done|done|cbn [fst]; lia]|].
  destruct Ha as [(f & t & Hf & _) Hs]. destruct (rtoTimer_run now k r l Hr Hen ltac:(by eexists) Hs) as (r' & l' & E' & [P1 P2 P3 P4 P5 P6] & _ & Hbal & Hp).
  cbn [rel_step] in E. rewrite E in E'. injection E' as <- <-. destruct (IH r1 l1 eq_refl P1) as (Q1 & Q2 & Q3 & Q4); [by rewrite P2|].
  rewrite P2 in Q3, Q4. split_and!; [done|congruence|done|lia].
Qed.
Lemma no_potential max frags : potential max frags = 0 -> frags = ∅.
Proof using Type.
  intros Hp. apply map_empty. intros k. destruct (frags !! k) as [f|] eqn:Hf; [|done]. rewrite (potential_delete _ _ k f Hf) in Hp. unfold sends_left in Hp. lia.
Qed.
Lemma timers_fire m : forall r l, mid ∅ r -> ro_isEnabled (rel_options r) = true -> link_fits_ack l ->
  potential (ro_maxRetx (rel_options r)) (rel_unackedFrags r) <= N.of_nat m -> span r + N.of_nat m <= 2 ^ 64 ->
  exists n w, only_timers n (r, l) w /\ rel_unackedFrags w.1 = ∅.
Proof using Type.
  induction m as [|m IH]; intros r l Hr Hen Hfit Hp Hs; [exists 0%nat, (r, l); split; [apply no_timers|]; apply (no_potential (ro_maxRetx (rel_options r))); cbn [fst]; lia|].
  destruct (decide (rel_unackedFrags r = ∅)) as [E|Hne]; [exists 0%nat, (r, l); split; [apply no_timers|done]|].
  apply map_choose in Hne as (k & f & Hf). destruct (rk_frags _ _ _ _ Hr k f Hf) as [_ Ht]. destruct Ht as [t Ht]; [set_solver|].
  assert (admissible (RtoTimer t k) (r, l)) as Ha. { split; [exists f, t; split_and!; [done|done|lia]|cbn [fst]; lia]. }
  destruct (rtoTimer_run t k r l Hr Hen ltac:(by eexists) ltac:(lia)) as (r1 & l1 & E1 & [P1 P2 P3 P4 P5 P6] & Hs1 & _ & Hp1).
  destruct (IH r1 l1 P1) as (n & w & Hw & Hempty); [by rewrite P2|by eapply frame_fits|rewrite P2; lia|lia|].
  exists (S n), w. split; [|done]. by eapply next_timer.
Qed.
End events.
