(* ===== verification/GenericLinkService.v ===== *)
(** * The link service (NFD/daemon/face/generic-link-service.cpp, link-service.cpp)

    Between the network layer and the transport: tags become header fields and back, packets
    are fragmented and reassembled, sent reliably if that is enabled, and marked when the send
    queue stays long. The state is the pair of the reliability component and the rest. The
    MTU and the queue length of the transport are members, set by whoever drives the model; the
    clock is read once per event. What the service passes on is a trace. *)

From S2P Require Import Prelude Tlv Block Name LpPacket LpFragments LpReassembly ObjectMonad RttEstimator Packet SignatureWire InterestWire DataWire LpFields LpReliability.

Local Open Scope N_scope.

Record LinkOptions := mkLinkOptions {
  lo_allowLocalFields : bool;
  lo_allowFragmentation : bool;
  lo_nMaxFragments : N;                (* fragmenterOptions *)
  lo_allowReassembly : bool;
  lo_reassembler : N * Z;              (* reassemblerOptions: nMaxFragments, reassemblyTimeout *)
  lo_reliability : RelOptions;
  lo_allowCongestionMarking : bool;
  lo_baseCongestionMarkingInterval : Z;
  lo_defaultCongestionThreshold : N;
  lo_allowSelfLearning : bool;
  lo_overrideMtu : Z;
}.
Definition LinkOptions_default : LinkOptions :=
  mkLinkOptions false false 400 false (400, 500000000%Z) RelOptions_default false 100000000 65536 true (2 ^ 63 - 1).

(** The tags of a packet that the link service reads or sets. *)
Record Tags := mkTags {
  tag_incomingFaceId : option N;
  tag_nextHopFaceId : option N;
  tag_cachePolicy : option CachePolicy;
  tag_congestionMark : option N;
  tag_nonDiscovery : bool;
  tag_prefixAnnouncement : option PrefixAnnouncement;
  tag_pitToken : option (list byte);
}.
#[global] Instance Tags_eq_dec : EqDecision Tags.
Proof. solve_decision. Defined.
Definition no_tags : Tags := mkTags None None None None false None None.
Definition with_nextHopFaceId n t := mkTags (tag_incomingFaceId t) (Some n) (tag_cachePolicy t) (tag_congestionMark t) (tag_nonDiscovery t) (tag_prefixAnnouncement t) (tag_pitToken t).
Definition with_cachePolicy c t := mkTags (tag_incomingFaceId t) (tag_nextHopFaceId t) (Some c) (tag_congestionMark t) (tag_nonDiscovery t) (tag_prefixAnnouncement t) (tag_pitToken t).
Definition with_congestionMark n t := mkTags (tag_incomingFaceId t) (tag_nextHopFaceId t) (tag_cachePolicy t) (Some n) (tag_nonDiscovery t) (tag_prefixAnnouncement t) (tag_pitToken t).
Definition with_nonDiscovery t := mkTags (tag_incomingFaceId t) (tag_nextHopFaceId t) (tag_cachePolicy t) (tag_congestionMark t) true (tag_prefixAnnouncement t) (tag_pitToken t).
Definition with_prefixAnnouncement p t := mkTags (tag_incomingFaceId t) (tag_nextHopFaceId t) (tag_cachePolicy t) (tag_congestionMark t) (tag_nonDiscovery t) (Some p) (tag_pitToken t).
Definition with_pitToken v t := mkTags (tag_incomingFaceId t) (tag_nextHopFaceId t) (tag_cachePolicy t) (tag_congestionMark t) (tag_nonDiscovery t) (tag_prefixAnnouncement t) (Some v).

(** What leaves the service: to the transport, and to the forwarding plane. *)
Inductive LinkOut :=
| SendPacket (b : Block)
| AfterReceiveInterest (i : WireInterest) (tags : Tags) (endpoint : EndpointId)
| AfterReceiveData (d : WireData) (tags : Tags) (endpoint : EndpointId)
| AfterReceiveNack (i : WireInterest) (header : NackHeader) (tags : Tags) (endpoint : EndpointId)
| OnDroppedInterest (i : WireInterest).

Record LinkState := mkLinkState {
  ls_options : LinkOptions;
  ls_reassembler : LpReassembler;
  ls_lastSeqNo : N;
  ls_nextMarkTime : option Z;          (* [None] is [TimePoint::max()] *)
  ls_nMarkedSinceInMarkingState : N;
  ls_counters : LinkCounter -> N;
  ls_out : list LinkOut;
  ls_transportMtu : Z;
  ls_sendQueueLength : Z;
}.
Definition ls_with_options o s := mkLinkState o (ls_reassembler s) (ls_lastSeqNo s) (ls_nextMarkTime s) (ls_nMarkedSinceInMarkingState s) (ls_counters s) (ls_out s) (ls_transportMtu s) (ls_sendQueueLength s).
Definition ls_with_reassembler r s := mkLinkState (ls_options s) r (ls_lastSeqNo s) (ls_nextMarkTime s) (ls_nMarkedSinceInMarkingState s) (ls_counters s) (ls_out s) (ls_transportMtu s) (ls_sendQueueLength s).
Definition ls_with_lastSeqNo n s := mkLinkState (ls_options s) (ls_reassembler s) n (ls_nextMarkTime s) (ls_nMarkedSinceInMarkingState s) (ls_counters s) (ls_out s) (ls_transportMtu s) (ls_sendQueueLength s).
Definition ls_with_marking t n s := mkLinkState (ls_options s) (ls_reassembler s) (ls_lastSeqNo s) t n (ls_counters s) (ls_out s) (ls_transportMtu s) (ls_sendQueueLength s).
Definition increment (c : LinkCounter) (s : LinkState) : LinkState :=
  mkLinkState (ls_options s) (ls_reassembler s) (ls_lastSeqNo s) (ls_nextMarkTime s) (ls_nMarkedSinceInMarkingState s)
    (fun c' => if decide (c' = c) then ls_counters s c' + 1 else ls_counters s c') (ls_out s) (ls_transportMtu s) (ls_sendQueueLength s).
Definition emit (o : LinkOut) (s : LinkState) : LinkState :=
  mkLinkState (ls_options s) (ls_reassembler s) (ls_lastSeqNo s) (ls_nextMarkTime s) (ls_nMarkedSinceInMarkingState s) (ls_counters s)
    (ls_out s ++ [o]) (ls_transportMtu s) (ls_sendQueueLength s).

Definition LinkService := (LpReliability * LinkState)%type.
Definition GenericLinkService_new (options : LinkOptions) (transportMtu sendQueueLength : Z) : LinkService :=
  (LpReliability_new (lo_reliability options),
   mkLinkState options ∅ (2 ^ 64 - 2) None 0 (fun _ => 0) [] transportMtu sendQueueLength).
Definition link_setOptions (options : LinkOptions) : OM LinkService unit :=
  on_link (ls_with_options options);; on_rel (setOptions (lo_reliability options)).

(** ** The MTU *)

Definition MIN_MTU : Z := 64.
Definition getEffectiveMtu (s : LinkState) : Z := Z.min (lo_overrideMtu (ls_options s)) (ls_transportMtu s).
Definition canOverrideMtuTo (mtu : Z) (s : LinkState) : bool :=
  if (ls_transportMtu s =? MTU_UNLIMITED)%Z then false else (MIN_MTU <=? mtu)%Z.

(** ** Congestion marks *)

(** [std::sqrt] of a whole number in double precision, as [m / 2^k]. *)
Definition double_sqrt (n : Z) : Z * Z :=
  let k := (52 - Z.log2 n / 2)%Z in
  let s := Z.sqrt (n * 4 ^ k) in
  ((if s <? n * 4 ^ k - s * s then s + 1 else s), k)%Z.
(** A quotient in double precision, truncated. *)
Definition double_quot (num den : Z) : Z :=
  let j := (55 + Z.log2 den)%Z in
  Z.quot (fp_round 53 (2 * (num * 2 ^ j / den) + (if num * 2 ^ j mod den =? 0 then 0 else 1))%Z) (2 ^ (j + 1)).
Definition marking_interval (base : Z) (nMarked : N) : Z :=
  let '(m, k) := double_sqrt (Z.of_N nMarked + 1) in double_quot (fp_round 53 base * 2 ^ k) m.

Definition checkCongestionLevel (now : Z) (pkt : LpPacket) : OM LinkService LpPacket :=
  w ← get;
  let s := w.2 in
  if (ls_sendQueueLength s <? 0)%Z then mret pkt
  else if (Z.of_N (lo_defaultCongestionThreshold (ls_options s)) <? ls_sendQueueLength s)%Z then
    match ls_nextMarkTime s with
    | None => on_link (ls_with_marking (Some (now + lo_baseCongestionMarkingInterval (ls_options s))%Z) (ls_nMarkedSinceInMarkingState s));; mret pkt
    | Some t =>
        if (t <=? now)%Z then
          let pkt := lp_set LP_CongestionMark (encode_number 1) pkt in
          on_link (increment nCongestionMarked);;
          let n := ls_nMarkedSinceInMarkingState s + 1 in
          on_link (ls_with_marking (Some (t + marking_interval (lo_baseCongestionMarkingInterval (ls_options s)) n)%Z) n);;
          mret pkt
        else mret pkt
    end
  else match ls_nextMarkTime s with
  | Some _ => on_link (ls_with_marking None 0);; mret pkt
  | None => mret pkt
  end.

(** ** Sending *)

Definition sendLpPacket (now : Z) (pkt : LpPacket) : OM LinkService unit :=
  w ← get;
  let mtu := getEffectiveMtu w.2 in
  pkt ← (if ro_isEnabled (lo_reliability (ls_options w.2)) then on_rel (piggyback pkt mtu) else mret pkt);
  pkt ← (if lo_allowCongestionMarking (ls_options w.2) then checkCongestionLevel now pkt else mret pkt);
  match lp_wireEncode pkt with
  | None => assert false
  | Some block =>
      if negb (mtu =? MTU_UNLIMITED)%Z && (mtu mod 2 ^ 64 <? Z.of_N (b_size block))%Z
      then on_link (increment nOutOverMtu)
      else on_link (emit (SendPacket block))
  end.
Definition requestIdlePacket (now : Z) : OM LinkService unit := sendLpPacket now LpPacket_new.

(** The service as its reliability component sees it. *)
#[global] Instance LinkState_ops : LinkOps LinkState := {|
  link_sendLpPacket := sendLpPacket;
  link_increment := increment;
  link_onDroppedInterest i s := emit (OnDroppedInterest i) (increment nInterestsExceededRetx s);
|}.

Definition RESERVED_HEADER_SPACE : Z := Z.of_N (sizeOfVarNumber LP_TxSequence + sizeOfVarNumber 8 + 8).
Definition CONGESTION_MARK_SIZE : Z := Z.of_N (sizeOfVarNumber LP_CongestionMark + sizeOfVarNumber 8 + 8).

Fixpoint send_all (now : Z) (frags : list LpPacket) : OM LinkService unit :=
  match frags with [] => mret tt | frag :: frags => sendLpPacket now frag;; send_all now frags end.
Definition sendNetPacket (now : Z) (pkt : LpPacket) (isInterest : bool) : OM LinkService unit :=
  w ← get;
  let o := ls_options w.2 in
  let isEnabled := ro_isEnabled (lo_reliability o) in
  let mtu := getEffectiveMtu w.2 in
  let mtu := if isEnabled && negb (mtu =? MTU_UNLIMITED)%Z then (mtu - RESERVED_HEADER_SPACE)%Z else mtu in
  let mtu := if lo_allowCongestionMarking o && negb (mtu =? MTU_UNLIMITED)%Z then (mtu - CONGESTION_MARK_SIZE)%Z else mtu in
  assert ((mtu =? MTU_UNLIMITED)%Z || (0 <=? mtu)%Z);;
  match (if lo_allowFragmentation o && negb (mtu =? MTU_UNLIMITED)%Z then fragmentPacket (lo_nMaxFragments o) pkt (Z.to_N mtu) else Some (Some [pkt])) with
  | None => assert false
  | Some None => on_link (increment nFragmentationErrors)
  | Some (Some frags) =>
      assert (match frags with [f] => negb (lp_has LP_FragIndex f) && negb (lp_has LP_FragCount f) | _ => true end);;
      frags ← (if isEnabled || (1 <? length frags)%nat then
                 let '(n, frags) := assignSequences (ls_lastSeqNo w.2) frags in on_link (ls_with_lastSeqNo n);; mret frags
               else mret frags);
      frags ← (if isEnabled && match frags with f :: _ => lp_has LP_Fragment f | [] => false end
               then on_rel (handleOutgoing now frags pkt isInterest) else mret frags);
      send_all now frags
  end.

(** [Packet::add]; the exception is [std::invalid_argument]. *)
Definition om_add {S} (t : N) (v : list byte) (p : LpPacket) : OM S LpPacket :=
  match lp_add t v p with None => throw InvalidArgument | Some p => mret p end.
(** The value of a field that is [Some], if it is allowed. *)
Definition add_some {S A} (allowed : bool) (t : N) (encode : A -> list byte) (o : option A) (p : LpPacket) : OM S LpPacket :=
  match o with Some x => if allowed then om_add t (encode x) p else mret p | None => mret p end.

Section link.
Context (sha256 : list byte -> list byte) (autoCheck : bool) (cv : Conventions) (fromIsoString : list byte -> IsoResult).

Definition encodeLpFields (o : LinkOptions) (tags : Tags) (lpPacket : LpPacket) : OM LinkService LpPacket :=
  p ← add_some (lo_allowLocalFields o) LP_IncomingFaceId encode_number (tag_incomingFaceId tags) lpPacket;
  p ← add_some true LP_CongestionMark encode_number (tag_congestionMark tags) p;
  p ← (if lo_allowSelfLearning o && tag_nonDiscovery tags then om_add LP_NonDiscovery [] p else mret p);
  p ← (match tag_prefixAnnouncement tags with
       | Some pa => if lo_allowSelfLearning o then
                      match prefixAnnouncementHeader_wireEncode pa with
                      | None => assert false;; mret p
                      | Some (inl e) => throw e
                      | Some (inr b) => om_add LP_PrefixAnnouncement (b_value b) p
                      end
                    else mret p
       | None => mret p
       end);
  match tag_pitToken tags with
  | Some v => v ← lift (pitToken_validate v); om_add LP_PitToken v p
  | None => mret p
  end.

(** A packet made of the encoding of a network packet: [lp::Packet(wire)]. *)
Definition lp_of_net (wire : Block) : OM LinkService LpPacket := lift (lp_wireDecode wire).
(** [interest.wireEncode()], which does not change what the caller sees of the Interest. *)
Definition interest_wire (fresh : list byte) (interest : WireInterest) : OM LinkService Block :=
  match Interest_wireEncode sha256 autoCheck fresh interest with
  | None => fun _ => None
  | Some (inl e, _) => throw e
  | Some (inr b, _) => mret b
  end.
Definition data_wire (data : WireData) : OM LinkService Block :=
  match Data_wireEncode data with
  | None => fun _ => None
  | Some (inl e, _) => throw e
  | Some (inr b, _) => mret b
  end.

Definition doSendInterest (now : Z) (fresh : list byte) (interest : WireInterest) (tags : Tags) : OM LinkService unit :=
  wire ← interest_wire fresh interest;
  lpPacket ← lp_of_net wire;
  w ← get;
  lpPacket ← encodeLpFields (ls_options w.2) tags lpPacket;
  sendNetPacket now lpPacket true.
Definition doSendData (now : Z) (data : WireData) (tags : Tags) : OM LinkService unit :=
  wire ← data_wire data;
  lpPacket ← lp_of_net wire;
  w ← get;
  lpPacket ← encodeLpFields (ls_options w.2) tags lpPacket;
  sendNetPacket now lpPacket false.
Definition doSendNack (now : Z) (fresh : list byte) (interest : WireInterest) (header : NackHeader) (tags : Tags) : OM LinkService unit :=
  wire ← interest_wire fresh interest;
  lpPacket ← lp_of_net wire;
  lpPacket ← om_add LP_Nack (b_value (nackHeader_wireEncode header).1) lpPacket;
  w ← get;
  lpPacket ← encodeLpFields (ls_options w.2) tags lpPacket;
  sendNetPacket now lpPacket false.

(** The entry points of LinkService. *)
Definition sendInterest now fresh interest tags : OM LinkService unit := on_link (increment nOutInterests);; doSendInterest now fresh interest tags.
Definition sendData now data tags : OM LinkService unit := on_link (increment nOutData);; doSendData now data tags.
Definition sendNack now fresh interest header tags : OM LinkService unit := on_link (increment nOutNacks);; doSendNack now fresh interest header tags.
Definition receiveInterest i tags ep : OM LinkService unit := on_link (increment nInInterests);; on_link (emit (AfterReceiveInterest i tags ep)).
Definition receiveData d tags ep : OM LinkService unit := on_link (increment nInData);; on_link (emit (AfterReceiveData d tags ep)).
Definition receiveNack i h tags ep : OM LinkService unit := on_link (increment nInNacks);; on_link (emit (AfterReceiveNack i h tags ep)).

(** ** Receiving *)

(** A packet from the other side that the service does not accept. *)
Definition reject_net : OM LinkService unit := on_link (increment nInNetInvalid).
(** [make_shared<Interest>(netPkt)], [make_shared<Data>(netPkt)]. *)
Definition new_interest (netPkt : Block) : OM LinkService WireInterest :=
  match Interest_wireDecode sha256 autoCheck netPkt Interest_default with
  | None => fun _ => None
  | Some (inl e, _) => throw e
  | Some (inr _, i) => mret i
  end.
Definition new_data (netPkt : Block) : OM LinkService WireData :=
  match Data_wireDecode netPkt (Data_new []) with
  | None => fun _ => None
  | Some (inl e, _) => throw e
  | Some (inr _, d) => mret d
  end.
(** A tag set from a field that is there. *)
Definition tag_field {A} (t : N) (decode : Block -> tlv_error + A) (set : A -> Tags -> Tags) (p : LpPacket) (tags : Tags) : OM LinkService Tags :=
  if lp_has t p then v ← lp_getAs t decode p; mret (set v tags) else mret tags.

Definition decodeInterest (netPkt : Block) (firstPkt : LpPacket) (ep : EndpointId) : OM LinkService unit :=
  assert (b_type netPkt =? TLV_Interest);;
  assert (negb (lp_has LP_Nack firstPkt));;
  interest ← new_interest netPkt;
  w ← get;
  let o := ls_options w.2 in
  if lp_has LP_NextHopFaceId firstPkt && negb (lo_allowLocalFields o) then mret tt
  else
    tags ← tag_field LP_NextHopFaceId decode_number with_nextHopFaceId firstPkt no_tags;
    if lp_has LP_CachePolicy firstPkt then reject_net
    else
      tags ← tag_field LP_CongestionMark decode_number with_congestionMark firstPkt tags;
      tags ← (if lo_allowSelfLearning o then tag_field LP_NonDiscovery decode_empty (fun _ => with_nonDiscovery) firstPkt tags else mret tags);
      if lp_has LP_PrefixAnnouncement firstPkt then reject_net
      else
        tags ← tag_field LP_PitToken (fun b => v ← decode_bytes b; pitToken_validate v) with_pitToken firstPkt tags;
        receiveInterest interest tags ep.
Definition decodeData (netPkt : Block) (firstPkt : LpPacket) (ep : EndpointId) : OM LinkService unit :=
  assert (b_type netPkt =? TLV_Data);;
  data ← new_data netPkt;
  w ← get;
  let o := ls_options w.2 in
  if lp_has LP_Nack firstPkt then reject_net
  else if lp_has LP_NextHopFaceId firstPkt then reject_net
  else
    tags ← tag_field LP_CachePolicy cachePolicy_wireDecode with_cachePolicy firstPkt no_tags;
    tags ← tag_field LP_CongestionMark decode_number with_congestionMark firstPkt tags;
    if lp_has LP_NonDiscovery firstPkt then reject_net
    else
      tags ← (match lp_get LP_PrefixAnnouncement firstPkt with
              | Some b => if lo_allowSelfLearning o then
                            match prefixAnnouncementHeader_wireDecode cv fromIsoString b with
                            | None => fun _ => None
                            | Some (inl e) => throw e
                            | Some (inr pa) => mret (with_prefixAnnouncement pa tags)
                            end
                          else mret tags
              | None => mret tags
              end);
      receiveData data tags ep.
Definition decodeNack (netPkt : Block) (firstPkt : LpPacket) (ep : EndpointId) : OM LinkService unit :=
  assert (b_type netPkt =? TLV_Interest);;
  assert (lp_has LP_Nack firstPkt);;
  interest ← new_interest netPkt;
  header ← lp_getAs LP_Nack nackHeader_wireDecode firstPkt;
  if lp_has LP_NextHopFaceId firstPkt then reject_net
  else if lp_has LP_CachePolicy firstPkt then reject_net
  else
    tags ← tag_field LP_CongestionMark decode_number with_congestionMark firstPkt no_tags;
    if lp_has LP_NonDiscovery firstPkt then reject_net
    else if lp_has LP_PrefixAnnouncement firstPkt then reject_net
    else receiveNack interest header tags ep.

(** [try { m } catch (const tlv::Error&) { ... }]. *)
Definition try_tlv {S} (m : OM S unit) (handler : OM S unit) : OM S unit := fun s =>
  match m s with Some (inl (TlvError _), s') => handler s' | r => r end.

Definition decodeNetPacket (netPkt : Block) (firstPkt : LpPacket) (ep : EndpointId) : OM LinkService unit :=
  try_tlv
    (if b_type netPkt =? TLV_Interest then
       if lp_has LP_Nack firstPkt then decodeNack netPkt firstPkt ep else decodeInterest netPkt firstPkt ep
     else if b_type netPkt =? TLV_Data then decodeData netPkt firstPkt ep
     else reject_net)
    reject_net.

(** [m_reassembler.receiveFragment(endpoint, pkt)]. *)
Definition reassemble (now : Z) (ep : EndpointId) (pkt : LpPacket) : OM LinkService (option (Block * LpPacket)) :=
  w ← get;
  let '(nMax, timeout) := lo_reassembler (ls_options w.2) in
  match receiveFragment nMax timeout now ep pkt (ls_reassembler w.2) with
  | None => fun _ => None
  | Some (s, r) => on_link (ls_with_reassembler s);; lift r
  end.
Definition receive_lp (now : Z) (pkt : LpPacket) (ep : EndpointId) : OM LinkService unit :=
  w ← get;
  if negb (lp_has LP_Fragment pkt) then mret tt
  else if (lp_has LP_FragIndex pkt || lp_has LP_FragCount pkt) && negb (lo_allowReassembly (ls_options w.2)) then mret tt
  else
    r ← reassemble now ep pkt;
    match r with Some (netPkt, firstPkt) => decodeNetPacket netPkt firstPkt ep | None => mret tt end.
(** The body of the [try] of [doReceivePacket]. *)
Definition receive_packet (now : Z) (packet : Block) (ep : EndpointId) : OM LinkService unit :=
  pkt ← lift (lp_wireDecode packet);
  w ← get;
  if ro_isEnabled (lo_reliability (ls_options w.2)) then
    processIncomingPacket sha256 autoCheck now pkt ≫= fun isNew : bool =>
    if isNew then receive_lp now pkt ep else on_link (increment nDuplicateSequence)
  else receive_lp now pkt ep.
Definition doReceivePacket (now : Z) (packet : Block) (ep : EndpointId) : OM LinkService unit :=
  try_tlv (receive_packet now packet ep) (on_link (increment nInLpInvalid)).

(** A reassembly timer fires: [beforeTimeout] counts. *)
Definition reassembly_timeout (key : N * N) : OM LinkService unit :=
  w ← get;
  let '(s, fired) := timeoutPartialPacket key (ls_reassembler w.2) in
  on_link (ls_with_reassembler s);;
  match fired with Some _ => on_link (increment nReassemblyTimeouts) | None => mret tt end.
End link.
