(* ===== verification/LinkServiceInv.v ===== *)
(** * The link service as its reliability component relies on it

    Acks ride on packets within the MTU, first come first served; the service obeys the laws of
    the interface of LpRelInv.v. *)

From S2P Require Import Prelude Tlv Block Name LpPacket LpFragments LpReassembly ObjectMonad RttEstimator Packet SignatureWire InterestWire DataWire LpFields LpReliability LpRelInv GenericLinkService.

Local Open Scope N_scope.

(** ** Packets with Acks *)

Definition full_packet (p : LpPacket) : Prop := lp_ok p /\ lp_bare p = false.
Lemma transmittable_full p : transmittable p -> full_packet p.
Proof.
  intros [Hp Hs]. split; [done|]. destruct Hs as [->|Hs]; [done|]. apply not_true_iff_false. intros Hb.
  by apply (lp_bare_has _ LP_Sequence) in Hb.
Qed.
Lemma full_wire p : full_packet p -> lp_wireEncode p = Some (makeBinaryBlock LP_LpPacket (lp_value p)).
Proof. intros [? ?]. by apply lp_wireEncode_full. Qed.

Definition ack_block (s : N) : Block := makeBinaryBlock LP_Ack (encode_sequence s).
Lemma ack_field_ok s : field_ok (ack_block s).
Proof. apply makeBinaryBlock_field. split; [done|]. unfold encode_sequence. by rewrite length_be_encode. Qed.
Lemma ack_block_size s : b_size (ack_block s) = 12.
Proof. unfold ack_block, b_size. cbn [b_wire makeBinaryBlock]. rewrite tlv_wire_length. unfold encode_sequence. by rewrite length_be_encode. Qed.

Definition lp_size (p : LpPacket) : N := b_size (makeBinaryBlock LP_LpPacket (lp_value p)).
Lemma lp_size_fields p : lp_size p = 1 + sizeOfVarNumber (fields_size (lp_elements p)) + fields_size (lp_elements p).
Proof. unfold lp_size, b_size. cbn [b_wire makeBinaryBlock]. rewrite tlv_wire_length. unfold lp_value. by rewrite fields_size_wires. Qed.

(** What adding an Ack does: it goes after the Acks that are there. *)
Lemma insert_ack_list b l : Forall field_ok l -> StronglySorted (fun b e => field_le (b_type b) (b_type e)) l -> b_type b = LP_Ack ->
  List.filter (fun b => b_type b =? LP_Ack) (insert_field b l) = List.filter (fun b => b_type b =? LP_Ack) l ++ [b].
Proof.
  intros Hf Hs Hb. induction Hs as [|e l Hs IH He]; cbn [insert_field List.filter]; [by rewrite Hb|].
  apply Forall_cons in Hf as [Hfe Hf]. destruct (compareFieldSortOrder (b_type b) (b_type e)) eqn:E; cbn [List.filter].
  - rewrite Hb in *. cbn [N.eqb]. change (LP_Ack =? LP_Ack) with true. cbv iota.
    assert (forall x, x ∈ e :: l -> b_type x <> LP_Ack) as Hnone.
    { intros x Hx Ex. assert (field_before LP_Ack (b_type x)) as Hbx.
      { apply elem_of_cons in Hx as [->|Hx]; [exact E|]. rewrite Forall_forall in He, Hf. specialize (He x Hx).
        apply (field_before_trans _ (b_type e)); [done|by apply field_ok_small|by apply field_ok_small, Hf|exact E|exact He]. }
      rewrite Ex in Hbx. by vm_compute in Hbx. }
    assert (List.filter (fun b => b_type b =? LP_Ack) (e :: l) = []) as Hnil.
    { clear - Hnone. induction (e :: l) as [|x xs IH]; [done|]. cbn [List.filter]. rewrite (proj2 (N.eqb_neq _ _)) by (apply Hnone; by left).
      apply IH. intros y Hy. apply Hnone. by right. }
    cbn [List.filter] in Hnil. rewrite Hnil. done.
  - rewrite IH by done. by destruct (b_type e =? LP_Ack).
Qed.

Lemma add_ack s p : full_packet p ->
  exists p', lp_add LP_Ack (encode_sequence s) p = Some p' /\ full_packet p' /\
    lp_list LP_Ack p' = lp_list LP_Ack p ++ [ack_block s] /\ fields_size (lp_elements p') = fields_size (lp_elements p) + 12 /\
    forall t, t <> LP_Ack -> lp_get t p' = lp_get t p.
Proof.
  intros [Hp Hb]. exists (lp_insert (ack_block s) p). assert (lp_ok (lp_insert (ack_block s) p)) as Hok by (apply lp_insert_ok; [apply ack_field_ok|done|by left]).
  split_and!; [done| | | |].
  - split; [done|]. apply not_true_iff_false. intros H. apply (lp_bare_has _ LP_Ack) in H; [done|]. unfold lp_has, lp_insert. cbn [lp_elements].
    apply existsb_exists. exists (ack_block s). split; [|done]. apply list_elem_of_In. rewrite insert_field_perm. by left.
  - unfold lp_list, lp_insert. cbn [lp_elements]. by apply insert_ack_list; [apply lp_fields|apply lp_sorted|].
  - unfold lp_insert. cbn [lp_elements]. rewrite insert_field_size, ack_block_size. lia.
  - intros t Ht. apply lp_get_insert_ne. simpl. congruence.
Qed.

(** The loop: as many Acks as fit, from the front of the queue. *)
Lemma piggyback_loop_spec q : forall p room, full_packet p ->
  exists taken q' p', piggyback_loop q p room = Some (q', p') /\ q = taken ++ q' /\ full_packet p' /\
    lp_list LP_Ack p' = lp_list LP_Ack p ++ (ack_block <$> taken) /\
    fields_size (lp_elements p') = fields_size (lp_elements p) + 12 * N.of_nat (length taken) /\
    (forall t, t <> LP_Ack -> lp_get t p' = lp_get t p) /\
    (taken <> [] -> 12 * Z.of_nat (length taken) <= room)%Z /\ (q' = [] \/ (room - 12 * Z.of_nat (length taken) < 12)%Z).
Proof.
  induction q as [|a q IH]; intros p room Hp; cbn [piggyback_loop].
  - exists [], [], p. split_and!; [done|done|done|by rewrite app_nil_r|cbn [length]; lia|done|done|by left].
  - change ACK_SIZE with 12%Z. destruct (Z.ltb_spec room 12) as [Hr|Hr].
    + exists [], (a :: q), p. split_and!; [done|done|done|by rewrite app_nil_r|cbn [length]; lia|done|done|right; cbn [length]; lia].
    + destruct (add_ack a p Hp) as (p1 & E1 & Hp1 & Hl1 & Hs1 & Hg1). rewrite E1. cbn [mbind option_bind].
      destruct (IH p1 (room - 12)%Z Hp1) as (taken & q' & p' & E & -> & Hp' & Hl & Hs & Hg & Hroom & Hmax).
      exists (a :: taken), q', p'. split_and!; try done.
      * rewrite Hl, Hl1, <- app_assoc. done.
      * rewrite Hs, Hs1. cbn [length]. lia.
      * intros t Ht. by rewrite Hg, Hg1.
      * intros _. cbn [length]. destruct taken; [cbn [length]; lia|]. specialize (Hroom ltac:(done)). cbn [length] in *. lia.
      * destruct Hmax as [|Hmax]; [by left|right]. cbn [length]. lia.
Qed.

(** The room that [piggyback] computes. *)
Definition ack_room (mtu : Z) (p : LpPacket) : Z :=
  ((if (mtu =? MTU_UNLIMITED)%Z then 8800 else mtu) - (3 - Z.of_N (sizeOfVarNumber (lp_size p))) - Z.of_N (lp_size p))%Z.
Lemma piggyback_run mtu p r : ro_isEnabled (rel_options r) = true -> full_packet p ->
  exists taken q p', piggyback p mtu r = Some (inr p', rel_with_acks q r) /\ rel_ackQueue r = taken ++ q /\ full_packet p' /\
    lp_list LP_Ack p' = lp_list LP_Ack p ++ (ack_block <$> taken) /\
    fields_size (lp_elements p') = fields_size (lp_elements p) + 12 * N.of_nat (length taken) /\
    (forall t, t <> LP_Ack -> lp_get t p' = lp_get t p) /\
    (taken <> [] -> 12 * Z.of_nat (length taken) <= ack_room mtu p)%Z /\ (q = [] \/ (ack_room mtu p - 12 * Z.of_nat (length taken) < 12)%Z).
Proof.
  intros Hen Hp. unfold piggyback. rewrite bind_get, Hen, (full_wire p Hp). erewrite bind_run by reflexivity. erewrite bind_run by reflexivity.
  change (b_size (makeBinaryBlock LP_LpPacket (lp_value p))) with (lp_size p). fold (ack_room mtu p).
  change ((if (mtu =? MTU_UNLIMITED)%Z then Z.of_N MAX_NDN_PACKET_SIZE else mtu) - (Z.of_N (sizeOfVarNumber MAX_NDN_PACKET_SIZE) - Z.of_N (sizeOfVarNumber (lp_size p))) - Z.of_N (lp_size p))%Z with (ack_room mtu p).
  destruct (piggyback_loop_spec (rel_ackQueue r) p (ack_room mtu p) Hp) as (taken & q & p' & E & Eq & H). rewrite E.
  exists taken, q, p'. split_and!; try apply H; done.
Qed.

Lemma sizeOfVarNumber_cases n : n < 2 ^ 16 -> sizeOfVarNumber n = if n <? 253 then 1 else 3.
Proof. intros Hn. unfold sizeOfVarNumber, u16_max. destruct (n <? 253); [done|]. by rewrite (proj2 (N.leb_le _ _)) by lia. Qed.

(** Acks do not take a packet over the MTU, but for two sizes of it. *)
Lemma piggyback_size mtu p p' k :
  (0 <= mtu < 2 ^ 16)%Z -> lp_size p <> 253%N -> lp_size p <> 254%N -> fields_size (lp_elements p') = fields_size (lp_elements p) + 12 * k ->
  (k <> 0%N -> 12 * Z.of_N k <= ack_room mtu p)%Z -> (Z.of_N (lp_size p) <= mtu -> Z.of_N (lp_size p') <= mtu)%Z.
Proof.
  intros Hmtu H1 H2 Hs Hk Hfit. destruct (N.eq_dec k 0) as [->|Hk0]; [rewrite lp_size_fields, Hs, N.mul_0_r, N.add_0_r, <- lp_size_fields; done|].
  specialize (Hk Hk0). unfold ack_room in Hk. rewrite (proj2 (Z.eqb_neq _ _)) in Hk by (unfold MTU_UNLIMITED; lia).
  pose proof (lp_size_fields p) as Ep. pose proof (lp_size_fields p') as Ep'. set (f := fields_size (lp_elements p)) in *.
  assert (lp_size p < 2 ^ 16) as Hlt by lia. rewrite (sizeOfVarNumber_cases (lp_size p) Hlt) in Hk.
  rewrite (sizeOfVarNumber_cases f) in Ep by lia. rewrite Hs in Ep'.
  assert (f + 12 * k < 2 ^ 16) as Hlt'. { destruct (lp_size p <? 253), (f <? 253); lia. }
  rewrite (sizeOfVarNumber_cases _ Hlt') in Ep'. destruct (N.ltb_spec (lp_size p) 253), (N.ltb_spec f 253), (N.ltb_spec (f + 12 * k) 253); lia.
Qed.

(** ** Sending a packet *)

(** What sending leaves alone in the service. *)
Definition link_same (s s' : LinkState) : Prop :=
  ls_options s' = ls_options s /\ ls_reassembler s' = ls_reassembler s /\ ls_lastSeqNo s' = ls_lastSeqNo s /\
  ls_transportMtu s' = ls_transportMtu s /\ ls_sendQueueLength s' = ls_sendQueueLength s.
Lemma link_same_trans s1 s2 s3 : link_same s1 s2 -> link_same s2 s3 -> link_same s1 s3.
Proof. unfold link_same. intuition congruence. Qed.

Lemma full_set_mark p : full_packet p -> full_packet (lp_set LP_CongestionMark (encode_number 1) p).
Proof.
  intros [Hp Hb]. split; [apply lp_set_ok; [split; [done|by vm_compute]|done]|]. apply not_true_iff_false. intros H.
  apply (lp_bare_has _ LP_CongestionMark) in H; [done|]. by rewrite lp_has_get, lp_get_set.
Qed.

(** What may be added to a packet on its way: Acks, and a congestion mark. *)
Definition dressed (p p' : LpPacket) : Prop := forall t, t <> LP_Ack -> t <> LP_CongestionMark -> lp_get t p' = lp_get t p.

Lemma checkCongestionLevel_run now p r s :
  exists p' s', checkCongestionLevel now p (r, s) = Some (inr p', (r, s')) /\ (full_packet p -> full_packet p') /\
    (p' = p \/ p' = lp_set LP_CongestionMark (encode_number 1) p) /\
    link_same s s' /\ ls_out s' = ls_out s /\ forall c, c <> nCongestionMarked -> ls_counters s' c = ls_counters s c.
Proof.
  unfold checkCongestionLevel. rewrite bind_get. cbn [snd]. destruct (_ <? 0)%Z; [exists p, s; split_and!; try done; by left|].
  destruct (_ <? _)%Z; destruct (ls_nextMarkTime s) as [t|]; [destruct (t <=? now)%Z| | |].
  - eexists _, _. split_and!; [reflexivity|apply full_set_mark|by right|done|done|]. intros c Hc. cbn. by rewrite decide_False.
  - exists p, s. split_and!; try done. by left.
  - eexists p, _. split_and!; [reflexivity|done|by left|done..].
  - eexists p, _. split_and!; [reflexivity|done|by left|done..].
  - exists p, s. split_and!; try done. by left.
Qed.

Lemma sendLpPacket_run now p r s :
  full_packet p -> (ro_isEnabled (lo_reliability (ls_options s)) = true -> ro_isEnabled (rel_options r) = true) ->
  exists taken q p' s', sendLpPacket now p (r, s) = Some (inr tt, (rel_with_acks q r, s')) /\ rel_ackQueue r = taken ++ q /\ full_packet p' /\
    lp_list LP_Ack p' = lp_list LP_Ack p ++ (ack_block <$> taken) /\ dressed p p' /\ link_same s s' /\
    (let mtu := getEffectiveMtu s in
     if negb (mtu =? MTU_UNLIMITED)%Z && (mtu mod 2 ^ 64 <? Z.of_N (lp_size p'))%Z then ls_out s' = ls_out s
     else ls_out s' = ls_out s ++ [SendPacket (makeBinaryBlock LP_LpPacket (lp_value p'))]) /\
    (forall c, c <> nOutOverMtu -> c <> nCongestionMarked -> ls_counters s' c = ls_counters s c) /\
    (if ro_isEnabled (lo_reliability (ls_options s)) then q = [] \/ (ack_room (getEffectiveMtu s) p - 12 * Z.of_nat (length taken) < 12)%Z else taken = []).
Proof.
  intros Hp Hen. unfold sendLpPacket. rewrite bind_get. cbn [snd]. set (mtu := getEffectiveMtu s).
  assert (exists taken q p1, (if ro_isEnabled (lo_reliability (ls_options s)) then on_rel (piggyback p mtu) else mret p) (r, s) = Some (inr p1, (rel_with_acks q r, s)) /\
    rel_ackQueue r = taken ++ q /\ full_packet p1 /\ lp_list LP_Ack p1 = lp_list LP_Ack p ++ (ack_block <$> taken) /\ (forall t, t <> LP_Ack -> lp_get t p1 = lp_get t p) /\
    (if ro_isEnabled (lo_reliability (ls_options s)) then q = [] \/ (ack_room mtu p - 12 * Z.of_nat (length taken) < 12)%Z else taken = []))
    as (taken & q & p1 & E1 & Eq & Hp1 & Hl1 & Hg1 & Hmax).
  { destruct (ro_isEnabled (lo_reliability (ls_options s))).
    - destruct (piggyback_run mtu p r (Hen eq_refl) Hp) as (taken & q & p1 & E & Eq & Hp1 & Hl & _ & Hg & _ & Hmax). exists taken, q, p1.
      split_and!; try done. by apply on_rel_run.
    - exists [], (rel_ackQueue r), p. split_and!; try done; [by destruct r|by rewrite app_nil_r]. }
  erewrite bind_run by exact E1.
  assert (exists p2 s2, (if lo_allowCongestionMarking (ls_options s) then checkCongestionLevel now p1 else mret p1) (rel_with_acks q r, s) = Some (inr p2, (rel_with_acks q r, s2)) /\
    full_packet p2 /\ (p2 = p1 \/ p2 = lp_set LP_CongestionMark (encode_number 1) p1) /\ link_same s s2 /\ ls_out s2 = ls_out s /\
    forall c, c <> nCongestionMarked -> ls_counters s2 c = ls_counters s c) as (p2 & s2 & E2 & Hp2 & Hd & Hs2 & Ho2 & Hc2).
  { destruct (lo_allowCongestionMarking (ls_options s)).
    - destruct (checkCongestionLevel_run now p1 (rel_with_acks q r) s) as (p2 & s2 & E & Hf & H). exists p2, s2. split_and!; try apply H; [done|auto].
    - exists p1, s. split_and!; try done. by left. }
  erewrite bind_run by exact E2. rewrite (full_wire p2 Hp2). cbv zeta.
  change (b_size (makeBinaryBlock LP_LpPacket (lp_value p2))) with (lp_size p2).
  assert (lp_list LP_Ack p2 = lp_list LP_Ack p ++ (ack_block <$> taken)) as Hl2.
  { rewrite <- Hl1. destruct Hd as [->| ->]; [done|]. unfold lp_set, lp_insert, lp_clear, lp_list. cbn [lp_elements]. clear.
    assert (forall b l, b_type b <> LP_Ack -> List.filter (fun b => b_type b =? LP_Ack) (insert_field b l) = List.filter (fun b => b_type b =? LP_Ack) l) as Hins.
    { intros b l Hb. induction l as [|e l IH]; cbn [insert_field]; [cbn; by rewrite (proj2 (N.eqb_neq _ _))|]. destruct (compareFieldSortOrder _ _); cbn [List.filter].
      - rewrite (proj2 (N.eqb_neq (b_type b) LP_Ack) Hb). done.
      - by rewrite IH. }
    rewrite Hins by done. induction (lp_elements p1) as [|e l IH]; [done|]. cbn [List.filter].
    destruct (N.eqb_spec (b_type e) LP_CongestionMark) as [E|E]; cbn [negb List.filter]; rewrite IH; [|done]. rewrite E. done. }
  assert (dressed p p2) as Hdr.
  { intros t Ha Hm. rewrite <- (Hg1 t Ha). destruct Hd as [->| ->]; [done|]. by rewrite lp_get_set_ne. }
  destruct (negb (mtu =? MTU_UNLIMITED)%Z && (mtu mod 2 ^ 64 <? Z.of_N (lp_size p2))%Z) eqn:Emtu.
  - eexists taken, q, p2, _. split_and!; [reflexivity|done|done|done|done|exact Hs2| | |done].
    + rewrite Emtu. exact Ho2.
    + intros c H1 H2. cbn. rewrite decide_False by done. by apply Hc2.
  - eexists taken, q, p2, _. split_and!; [reflexivity|done|done|done|done|exact Hs2| | |done].
    + rewrite Emtu. cbn. by rewrite Ho2.
    + intros c H1 H2. cbn. by apply Hc2.
Qed.

Definition fits_ack (s : LinkState) : Prop :=
  ro_isEnabled (lo_reliability (ls_options s)) = true /\ (getEffectiveMtu s = MTU_UNLIMITED \/ (16 <= getEffectiveMtu s)%Z).
#[global] Instance link_same_preorder : PreOrder link_same.
Proof. split; [done|]. intros s1 s2 s3. apply link_same_trans. Qed.
#[global] Program Instance LinkState_laws : LinkLaws LinkState := {|
  link_count c s := ls_counters s c;
  link_fits_ack := fits_ack;
  link_frame := link_same;
|}.
Next Obligation. intros c c' s. cbn. destruct (decide (c = c')); lia. Qed.
Next Obligation. intros c i s Hc. cbn. by rewrite decide_False. Qed.
Next Obligation. intros s s' (So & _ & _ & Sm & _). unfold fits_ack, getEffectiveMtu. by rewrite So, Sm. Qed.
Next Obligation. done. Qed.
Next Obligation. done. Qed.
Next Obligation.
  intros now p r s Hen Hp. destruct (sendLpPacket_run now p r s (transmittable_full _ Hp) (fun _ => Hen))
    as (taken & q & p' & s' & E & Eq & _ & _ & _ & Hsame & _ & Hc & Hmax).
  exists taken, q, s'. split_and!; [done|exact E|exact Hc|done|]. intros [Hl Hm]. rewrite Hl in Hmax.
  intros -> Hne ->. cbn [app] in Eq. rewrite <- Eq in Hmax. destruct Hmax as [|Hmax]; [done|].
  unfold ack_room in Hmax. change (lp_size LpPacket_new) with 2%N in Hmax. change (sizeOfVarNumber 2) with 1%N in Hmax. cbn [length] in Hmax.
  destruct Hm as [Hm|Hm]; [rewrite Hm in Hmax; by vm_compute in Hmax|]. rewrite (proj2 (Z.eqb_neq _ _)) in Hmax by (unfold MTU_UNLIMITED; lia). lia.
Qed.
