(* ===== verification/LinkReceive.v ===== *)
(** * Receiving anything

    Whatever bytes arrive at the link service, and in whatever state it is, nothing fails: what
    is malformed is counted, the invariants of the components are kept. *)

From S2P Require Import Prelude Tlv Block Name LpPacket LpFragments LpReassembly ObjectMonad RttEstimator Packet NameWire SignatureWire InterestWire InterestObject DataWire DataObject LpFields LpReliability LpWindow LpRelInv LpRelEvents GenericLinkService LinkServiceInv.

Local Open Scope N_scope.

(** ** Methods that throw some exceptions only *)

Section safe.
Context {S : Type} (E : Exception -> Prop).

Definition throws_only {A} (m : OM S A) : Prop := forall s e s', m s = Some (inl e, s') -> E e.
Lemma throws_ret {A} (x : A) : throws_only (mret x).
Proof. by intros s e s' [=]. Qed.
Lemma throws_modify f : throws_only (modify f).
Proof. by intros s e s' [=]. Qed.
Lemma throws_get : throws_only get.
Proof. by intros s e s' [=]. Qed.
Lemma throws_assert b : throws_only (assert b).
Proof. intros s e s'. unfold assert. by destruct b. Qed.
Lemma throws_throw {A} e : E e -> throws_only (throw (A:=A) e).
Proof. by intros He s e' s' [= <- _]. Qed.
Lemma throws_bind {A B} (m : OM S A) (k : A -> OM S B) : throws_only m -> (forall x, throws_only (k x)) -> throws_only (m ≫= k).
Proof.
  intros Hm Hk s e s'. unfold mbind, OM_bind. destruct (m s) as [[[e1|x] s1]|] eqn:Em; [|by apply Hk|done]. intros [= <- _]. by eapply Hm.
Qed.
Lemma throws_lift {A} (r : tlv_error + A) : (forall t, E (TlvError t)) -> throws_only (lift r).
Proof. intros He. destruct r; [apply throws_throw, He|apply throws_ret]. Qed.

(** And they fail no assertion from a state of [P], and keep it. *)
Definition om_safe {A} (P : S -> Prop) (m : OM S A) : Prop := forall s, P s -> exists r s', m s = Some (r, s') /\ P s' /\ forall e, r = inl e -> E e.
Lemma safe_ret {A} P (x : A) : om_safe P (mret x).
Proof. intros s Hs. by exists (inr x), s. Qed.
Lemma safe_throw {A} P e : E e -> om_safe P (throw (A:=A) e).
Proof. intros He s Hs. exists (inl e), s. split_and!; [done|done|]. by intros e' [= <-]. Qed.
Lemma safe_lift {A} P (r : tlv_error + A) : (forall t, E (TlvError t)) -> om_safe P (lift r).
Proof. intros He. destruct r; [apply safe_throw, He|apply safe_ret]. Qed.
Lemma om_safe_bind {A B} P (m : OM S A) (k : A -> OM S B) : om_safe P m -> (forall x, om_safe P (k x)) -> om_safe P (m ≫= k).
Proof.
  intros Hm Hk s Hs. destruct (Hm s Hs) as ([e|x] & s1 & Em & H1 & He); unfold mbind, OM_bind; rewrite Em; [|by apply Hk].
  exists (inl e), s1. split_and!; [done|done|]. intros e' [= <-]. by apply He.
Qed.
End safe.

Ltac solve_throws :=
  repeat first
    [ apply throws_ret | apply throws_modify | apply throws_get | apply throws_assert
    | apply throws_throw; eexists; reflexivity | apply throws_lift; intros ?; eexists; reflexivity
    | apply throws_bind; [|intros ?]
    | match goal with |- throws_only _ (match ?x with _ => _ end) => destruct x end ].

(** The decoders throw what the TLV library throws. *)
Lemma interest_elements_throw l : forall last, throws_only tlv_exception (interest_decode_elements l last).
Proof.
  induction l as [|e l IH]; intros last; cbn [interest_decode_elements]; [apply throws_ret|]. apply throws_bind; [|done].
  unfold interest_element. solve_throws.
Qed.
Lemma interest_wireDecode_throws sha256 ac wire : throws_only tlv_exception (Interest_wireDecode sha256 ac wire).
Proof.
  unfold Interest_wireDecode. solve_throws; [apply interest_elements_throw|]. unfold checkParametersDigest. solve_throws.
Qed.
Lemma take_type_throws {A} t val (found : Block -> OM A unit) missing :
  (forall b, throws_only tlv_exception (found b)) -> throws_only tlv_exception missing -> throws_only tlv_exception (take_type t val found missing).
Proof. intros Hf Hm. unfold take_type. solve_throws; done. Qed.
Lemma metaInfo_wireDecode_throws wire : throws_only tlv_exception (MetaInfo_wireDecode wire).
Proof. unfold MetaInfo_wireDecode. solve_throws; (apply take_type_throws; [intros b|]; solve_throws). Qed.
Lemma data_elements_throw l : forall last, throws_only tlv_exception (data_elements l last).
Proof.
  induction l as [|e l IH]; intros last; cbn [data_elements]; [apply throws_ret|]. apply throws_bind; [|done].
  unfold data_element. destruct (b_type e =? TLV_MetaInfo); [destruct (2 <=? last)|]; [solve_throws| |solve_throws].
  apply throws_bind; [apply throws_get|]. intros d. destruct (MetaInfo_wireDecode e (wd_metaInfo d)) as [[r mi]|] eqn:E; [|solve_throws].
  apply throws_bind; [apply throws_modify|]. intros _. destruct r as [err|[]]; [|apply throws_ret]. apply throws_throw. by eapply metaInfo_wireDecode_throws.
Qed.
Lemma data_wireDecode_throws wire : throws_only tlv_exception (Data_wireDecode wire).
Proof. unfold Data_wireDecode. solve_throws; try apply data_elements_throw; unfold data_check; solve_throws. Qed.

(** ** The link service *)

Section receive.
Context (sha256 : list byte -> list byte) (autoCheck : bool) (cv : Conventions) (fromIsoString : list byte -> IsoResult).

(** An exception of the time library that is not [std::bad_cast]: self-learning is on, and it
    comes with a prefix announcement. *)
Definition escapes (o : LinkOptions) (e : Exception) : Prop :=
  e = IsoException /\ lo_allowSelfLearning o = true /\ exists v, fromIsoString v = IsoOtherException.
Definition iso_exception (e : Exception) : Prop := e = IsoException /\ exists v, fromIsoString v = IsoOtherException.
Definition net_exception (e : Exception) : Prop := tlv_exception e \/ iso_exception e.
Lemma net_tlv t : net_exception (TlvError t).
Proof using Type. left. by eexists. Qed.

(** How the decoding of a network packet ends: it is passed on and counted, refused and counted,
    or an Interest that chooses its next hop is ignored where local fields are not allowed. *)
Inductive delivered : LinkOut -> LinkCounter -> Prop :=
| delivered_interest i tags ep : delivered (AfterReceiveInterest i tags ep) nInInterests
| delivered_data d tags ep : delivered (AfterReceiveData d tags ep) nInData
| delivered_nack i h tags ep : delivered (AfterReceiveNack i h tags ep) nInNacks.
Definition verdict (net : Block) (p : LpPacket) (w w' : LinkService) : Prop :=
  (exists o c, delivered o c /\ w' = (w.1, emit o (increment c w.2))) \/
  w' = (w.1, increment nInNetInvalid w.2) \/
  (w' = w /\ b_type net = TLV_Interest /\ lp_has LP_NextHopFaceId p = true /\ lo_allowLocalFields (ls_options w.2) = false).
(** A method that leaves the state alone until it ends. *)
Definition concludes (E : Exception -> Prop) (w : LinkService) (Q : LinkService -> Prop) (m : OM LinkService unit) : Prop :=
  exists r w', m w = Some (r, w') /\ match r with inl e => w' = w /\ E e | inr _ => Q w' end.
Lemma concludes_bind {A} (E : Exception -> Prop) w Q (m : OM LinkService A) k :
  om_safe E (eq w) m -> (forall x, concludes E w Q (k x)) -> concludes E w Q (m ≫= k).
Proof using Type.
  intros Hm Hk. destruct (Hm w eq_refl) as ([e|x] & w1 & Em & <- & He).
  - exists (inl e), w. split; [by apply bind_throw|]. split; [done|by apply He].
  - destruct (Hk x) as (r & w' & Ek & Hr). exists r, w'. split; [by erewrite bind_run by exact Em|done].
Qed.
Lemma concludes_assert E w Q b (k : unit -> OM LinkService unit) : b = true -> concludes E w Q (k tt) -> concludes E w Q (assert b ≫= k).
Proof using Type. intros -> Hk. by apply concludes_bind; [apply safe_ret|intros []]. Qed.
Lemma concludes_get E w Q (k : LinkService -> OM LinkService unit) : concludes E w Q (k w) -> concludes E w Q (get ≫= k).
Proof using Type. done. Qed.
Lemma refused E net p w : concludes E w (verdict net p w) reject_net.
Proof using Type. eexists (inr tt), _. split; [reflexivity|]. right. by left. Qed.
Lemma getAs_safe {S A} P t (decode : Block -> tlv_error + A) p : lp_has t p = true -> om_safe (S := S) tlv_exception P (lp_getAs t decode p).
Proof using Type. intros Hh. rewrite lp_has_get in Hh. unfold lp_getAs. destruct (lp_get t p); [|done]. apply safe_lift. intros e. by eexists. Qed.
Lemma tag_field_safe {A} P t (decode : Block -> tlv_error + A) set p tags : om_safe tlv_exception P (tag_field t decode set p tags).
Proof using Type. unfold tag_field. destruct (lp_has t p) eqn:E; [|apply safe_ret]. apply om_safe_bind; [by apply getAs_safe|intros v; apply safe_ret]. Qed.

Lemma new_interest_safe P b : om_safe tlv_exception P (new_interest sha256 autoCheck b).
Proof using Type.
  unfold new_interest. destruct (wireDecode_ok sha256 autoCheck b Interest_default) as (r & w' & E & _). rewrite E.
  destruct r as [e|[]]; [|apply safe_ret]. apply safe_throw. by eapply interest_wireDecode_throws.
Qed.
Lemma data_decode_total b : exists r d, Data_wireDecode b (Data_new []) = Some (r, d) /\ forall e, r = inl e -> tlv_exception e.
Proof using sha256.
  destruct (data_wireDecode_ok sha256 b (Data_new [])) as (r & d & E & _). exists r, d. split; [done|]. intros e ->. by eapply data_wireDecode_throws.
Qed.
Lemma new_data_safe P b : om_safe tlv_exception P (new_data b).
Proof using sha256.
  unfold new_data. destruct (data_decode_total b) as (r & d & E & He). rewrite E. destruct r as [e|[]]; [|apply safe_ret]. apply safe_throw. by apply He.
Qed.

Lemma iso_time_throws v e : iso_time fromIsoString v = inl e -> net_exception e.
Proof using Type. unfold iso_time. destruct (fromIsoString v) eqn:E; [done| |]; intros [= <-]; [apply net_tlv|right]. split; [done|by eexists]. Qed.
Lemma validity_throws b e : ValidityPeriod_wireDecode fromIsoString b = inl e -> net_exception e.
Proof using Type.
  unfold ValidityPeriod_wireDecode. destruct (Block_parse _) as [t|els]; [intros [= <-]; apply net_tlv|]. destruct (negb _); [intros [= <-]; apply net_tlv|].
  destruct els as [|x [|y [|]]]; try (intros [= <-]; apply net_tlv). destruct (_ || _); [intros [= <-]; apply net_tlv|].
  destruct (iso_time _ (b_value x)) as [e1|] eqn:E1; [intros [= <-]; by eapply iso_time_throws|].
  destruct (iso_time _ (b_value y)) as [e1|] eqn:E2; [intros [= <-]; by eapply iso_time_throws|done].
Qed.
Lemma fromData_throws d e : PrefixAnnouncement_fromData cv fromIsoString d = inl e -> net_exception e.
Proof using Type.
  unfold PrefixAnnouncement_fromData. cbv zeta. match goal with |- (if ?c then _ else _) = _ -> _ => destruct c end; [intros [= <-]; apply net_tlv|].
  destruct (negb _); [intros [= <-]; apply net_tlv|]. match goal with |- match ?x with _ => _ end = _ -> _ => destruct x as [|v0 v] end; [intros [= <-]; apply net_tlv|].
  destruct (Block_parse _) as [t|els]; [intros [= <-]; apply net_tlv|].
  match goal with |- match ?x with _ => _ end = _ -> _ => destruct x as [t|n] end; [intros [= <-]; apply net_tlv|].
  destruct (find_type TLV_ValidityPeriod els) as [b|]; [destruct (ValidityPeriod_wireDecode fromIsoString b) as [e1|] eqn:E1; [intros [= <-]; by eapply validity_throws|]|].
  all: destruct (existsb _ _); [intros [= <-]; apply net_tlv|done].
Qed.
Lemma announcement_decode b :
  exists r, prefixAnnouncementHeader_wireDecode cv fromIsoString b = Some r /\ forall e, r = inl e -> net_exception e.
Proof using sha256.
  unfold prefixAnnouncementHeader_wireDecode. destruct (negb _); [eexists; split; [done|]; intros e [= <-]; apply net_tlv|].
  destruct (Block_parse _) as [t|els]; [eexists; split; [done|]; intros e [= <-]; apply net_tlv|].
  destruct (find_type _ _) as [d|]; [|eexists; split; [done|]; intros e [= <-]; apply net_tlv].
  destruct (data_decode_total d) as (r & w & -> & He). destruct r as [e|[]]; eexists; (split; [done|]).
  - intros e' [= <-]. left. by apply He.
  - intros e. apply fromData_throws.
Qed.

Lemma passed_on E net p w o c : delivered o c -> concludes E w (verdict net p w) (on_link (increment c);; on_link (emit o)).
Proof using Type. intros Ho. eexists (inr tt), _. split; [reflexivity|]. left. by exists o, c. Qed.

Lemma decodeInterest_verdict w net p ep : b_type net = TLV_Interest -> lp_has LP_Nack p = false ->
  concludes tlv_exception w (verdict net p w) (decodeInterest sha256 autoCheck net p ep).
Proof using Type.
  intros Ht Hn. unfold decodeInterest. apply concludes_assert; [by apply N.eqb_eq|]. apply concludes_assert; [by rewrite Hn|].
  apply concludes_bind; [apply new_interest_safe|intros i]. apply concludes_get. cbv zeta. set (o := ls_options w.2).
  destruct (lp_has LP_NextHopFaceId p && negb (lo_allowLocalFields o)) eqn:El.
  { exists (inr tt), w. split; [done|]. right. right. apply andb_true_iff in El as [? ?%negb_true_iff]. done. }
  apply concludes_bind; [apply tag_field_safe|intros tags]. destruct (lp_has LP_CachePolicy p); [apply refused|].
  apply concludes_bind; [apply tag_field_safe|intros tags1]. apply concludes_bind; [destruct (lo_allowSelfLearning o); [apply tag_field_safe|apply safe_ret]|intros tags2].
  destruct (lp_has LP_PrefixAnnouncement p); [apply refused|]. apply concludes_bind; [apply tag_field_safe|intros tags3]. apply passed_on. constructor.
Qed.
Lemma decodeData_verdict w net p ep : b_type net = TLV_Data ->
  concludes (fun e => tlv_exception e \/ (escapes (ls_options w.2) e /\ lp_has LP_PrefixAnnouncement p = true)) w (verdict net p w)
    (decodeData cv fromIsoString net p ep).
Proof using sha256.
  intros Ht. set (E := fun e => _). assert (forall e, tlv_exception e -> E e) as HE by (by left).
  assert (forall A P (m : OM LinkService A), om_safe tlv_exception P m -> om_safe E P m) as Hw.
  { intros A P m Hm w0 H0. destruct (Hm w0 H0) as (r & w' & ? & ? & He). exists r, w'. split_and!; [done|done|auto]. }
  unfold decodeData. apply concludes_assert; [by apply N.eqb_eq|].
  apply concludes_bind; [apply Hw, new_data_safe|intros d]. apply concludes_get. cbv zeta. set (o := ls_options w.2) in *.
  destruct (lp_has LP_Nack p); [apply refused|]. destruct (lp_has LP_NextHopFaceId p); [apply refused|].
  apply concludes_bind; [apply Hw, tag_field_safe|intros tags]. apply concludes_bind; [apply Hw, tag_field_safe|intros tags1].
  destruct (lp_has LP_NonDiscovery p); [apply refused|].
  apply concludes_bind; [|intros tags2; apply passed_on; constructor].
  destruct (lp_get LP_PrefixAnnouncement p) as [b|] eqn:Eb; [|apply safe_ret]. destruct (lo_allowSelfLearning o) eqn:Eo; [|apply safe_ret].
  destruct (announcement_decode b) as (r & -> & He). destruct r as [e|pa]; [|apply safe_ret]. apply safe_throw.
  destruct (He e eq_refl) as [Ht'|[-> Hv]]; [by left|right]. split; [done|]. by rewrite lp_has_get, Eb.
Qed.
Lemma decodeNack_verdict w net p ep : b_type net = TLV_Interest -> lp_has LP_Nack p = true ->
  concludes tlv_exception w (verdict net p w) (decodeNack sha256 autoCheck net p ep).
Proof using Type.
  intros Ht Hn. unfold decodeNack. apply concludes_assert; [by apply N.eqb_eq|]. apply concludes_assert; [done|].
  apply concludes_bind; [apply new_interest_safe|intros i].
  apply concludes_bind; [by apply getAs_safe|intros h]. destruct (lp_has LP_NextHopFaceId p); [apply refused|].
  destruct (lp_has LP_CachePolicy p); [apply refused|]. apply concludes_bind; [apply tag_field_safe|intros tags].
  destruct (lp_has LP_NonDiscovery p); [apply refused|]. destruct (lp_has LP_PrefixAnnouncement p); [apply refused|]. apply passed_on. constructor.
Qed.
Lemma decodeNetPacket_verdict w net p ep :
  concludes (fun e => escapes (ls_options w.2) e /\ b_type net = TLV_Data /\ lp_has LP_PrefixAnnouncement p = true) w (verdict net p w)
    (decodeNetPacket sha256 autoCheck cv fromIsoString net p ep).
Proof using Type.
  set (E := fun e => _). unfold decodeNetPacket.
  assert (forall m, concludes (fun e => tlv_exception e \/ E e) w (verdict net p w) m -> concludes E w (verdict net p w) (try_tlv m reject_net)) as Htry.
  { intros m ([e|x] & w' & Em & Hr); unfold concludes, try_tlv; rewrite Em; [|by exists (inr x), w'].
    destruct Hr as [-> [[t ->]|He]]; [apply (refused E net p w)|]. exists (inl e), w. split; [|done]. by destruct He as [[-> _] _]. }
  assert (forall m, concludes tlv_exception w (verdict net p w) m -> concludes (fun e => tlv_exception e \/ E e) w (verdict net p w) m) as Hweak.
  { intros m (r & w' & Em & Hr). exists r, w'. split; [done|]. destruct r; [|done]. destruct Hr as [-> He]. split; [done|by left]. }
  apply Htry. destruct (N.eqb_spec (b_type net) TLV_Interest) as [Hi|_].
  { apply Hweak. destruct (lp_has LP_Nack p) eqn:En; [by apply decodeNack_verdict|by apply decodeInterest_verdict]. }
  destruct (N.eqb_spec (b_type net) TLV_Data) as [Hd|_]; [|apply Hweak, refused].
  destruct (decodeData_verdict w net p ep Hd) as (r & w' & Em & Hr). exists r, w'. split; [done|]. destruct r; [|done].
  destruct Hr as [-> [?|[??]]]; (split; [done|]); [by left|by right].
Qed.
Lemma verdict_same net p w w' : verdict net p w w' -> w'.1 = w.1 /\ link_same w.2 w'.2.
Proof using Type. by intros [(o & c & _ & ->)|[->|[-> _]]]. Qed.

(** ** The invariant of the service *)

Record service_ok (w : LinkService) : Prop := {
  so_reliability : rel_mid sha256 autoCheck ∅ w.1;
  so_options : rel_options w.1 = lo_reliability (ls_options w.2);
  so_reassembler : reassembler_ok (ls_reassembler w.2);
}.

Lemma receive_lp_run now p ep w : service_ok w ->
  exists res w', receive_lp sha256 autoCheck cv fromIsoString now p ep w = Some (res, w') /\ service_ok w' /\
    forall e, res = inl e -> tlv_exception e \/ escapes (ls_options w.2) e.
Proof using Type.
  intros Hw. unfold receive_lp. rewrite bind_get. destruct (lp_has LP_Fragment p) eqn:Ef; cbn [negb]; [|by exists (inr tt), w].
  destruct (_ && _); [by exists (inr tt), w|]. destruct w as [r s]. unfold reassemble. pose proof (so_reassembler _ Hw) as Hs. cbn [snd] in Hs.
  unfold mbind at 1, OM_bind at 1. rewrite bind_get. cbn [snd]. destruct (lo_reassembler (ls_options s)) as [nMax timeout].
  destruct (receiveFragment_total nMax timeout now ep p (ls_reassembler s) Hs Ef) as (s1 & res & E & Hs1). rewrite E.
  set (w1 := (r, ls_with_reassembler s1 s) : LinkService). assert (service_ok w1) as Hw1 by (destruct Hw; by split).
  erewrite bind_run by reflexivity. destruct res as [t|[[net first]|]]; cbn [lift].
  - exists (inl (TlvError t)), w1. split_and!; [done|done|]. intros e [= <-]. left. by eexists.
  - cbn [mret OM_ret]. destruct (decodeNetPacket_verdict w1 net first ep) as (r2 & w' & E2 & Hr). exists r2, w'. split; [exact E2|].
    destruct r2 as [e|x]; [destruct Hr as [-> [He _]]; split; [done|]; intros e' [= <-]; by right|].
    apply verdict_same in Hr as [H1 (H2 & H3 & H4)]. split; [|done]. destruct w' as [r' s']. cbn [w1 fst snd] in *. subst r'. destruct Hw as [A B C]. cbn [fst snd] in *.
    split; cbn [fst snd]; [done|by rewrite H2|by rewrite H3].
  - by exists (inr tt), w1.
Qed.

(** The window has room for the retransmissions that the Acks of a packet may cause. *)
Definition room_for_acks (pkt : LpPacket) (w : LinkService) : Prop :=
  ro_isEnabled (rel_options w.1) = true ->
  span w.1 + N.of_nat (length (lp_list LP_Ack pkt)) * N.of_nat (size (rel_unackedFrags w.1)) <= 2 ^ 64.

Lemma service_frame r s r' s' : service_ok (r, s) -> rel_mid sha256 autoCheck ∅ r' -> rel_options r' = rel_options r -> link_same s s' -> service_ok (r', s').
Proof using Type. intros [A B C] Hr Ho (H1 & H2 & _). cbn [fst snd] in *. split; cbn [fst snd]; [done|by rewrite Ho, H1|by rewrite H2]. Qed.

Lemma increment_ok c w : service_ok w -> service_ok (w.1, increment c w.2).
Proof using Type. destruct w as [r s]. intros Hw. eapply service_frame; [exact Hw|apply Hw|done|done]. Qed.
Lemma receive_packet_run now packet ep w :
  service_ok w -> (forall pkt, lp_wireDecode packet = inr pkt -> room_for_acks pkt w) ->
  exists res w', receive_packet sha256 autoCheck cv fromIsoString now packet ep w = Some (res, w') /\ service_ok w' /\
    forall e, res = inl e -> tlv_exception e \/ escapes (ls_options w.2) e.
Proof using Type.
  intros Hw Hroom. destruct w as [r s]. unfold receive_packet. destruct (lp_wireDecode packet) as [t|pkt].
  { exists (inl (TlvError t)), (r, s). split_and!; [done|done|]. intros e [= <-]. left. by eexists. }
  specialize (Hroom pkt eq_refl). unfold room_for_acks in Hroom. cbn [fst] in Hroom. pose proof (so_options _ Hw) as Ho. cbn [fst snd] in Ho.
  erewrite bind_run by reflexivity. rewrite bind_get. cbn [snd]. rewrite <- Ho. destruct (ro_isEnabled (rel_options r)) eqn:Een; [|by apply receive_lp_run].
  destruct (processIncomingPacket_run sha256 autoCheck now pkt r s (so_reliability _ Hw) Een (Hroom eq_refl)) as (res & r1 & s1 & E & [P1 P2 P3 P4 P5 P6]).
  assert (service_ok (r1, s1)) as H1 by (eapply service_frame; [exact Hw|done|done|exact P6]). destruct res as [e|isNew].
  - exists (inl e), (r1, s1). split_and!; [by apply bind_throw|done|]. intros e' [= <-]. left. by apply P3.
  - erewrite bind_run by exact E. destruct isNew.
    + destruct (receive_lp_run now pkt ep (r1, s1) H1) as (res & w' & E' & Hw' & He). exists res, w'. split_and!; [done|done|].
      intros e Hr. destruct P6 as (Hopt & _). cbn [snd] in He. rewrite Hopt in He. by apply He.
    + exists (inr tt), (r1, increment nDuplicateSequence s1). split_and!; [done|by apply (increment_ok _ (r1, s1))|done].
Qed.

(** A packet that the parsers refuse, anywhere, is counted as invalid on the link layer. *)
Lemma invalid_counted now packet ep w t w1 :
  receive_packet sha256 autoCheck cv fromIsoString now packet ep w = Some (inl (TlvError t), w1) ->
  doReceivePacket sha256 autoCheck cv fromIsoString now packet ep w = Some (inr tt, (w1.1, increment nInLpInvalid w1.2)).
Proof using Type. intros E. unfold doReceivePacket, try_tlv. by rewrite E. Qed.

Lemma doReceivePacket_ok now packet ep w :
  service_ok w -> (forall pkt, lp_wireDecode packet = inr pkt -> room_for_acks pkt w) ->
  exists res w', doReceivePacket sha256 autoCheck cv fromIsoString now packet ep w = Some (res, w') /\ service_ok w' /\
    forall e, res = inl e -> escapes (ls_options w.2) e.
Proof using Type.
  intros Hw Hroom. destruct (receive_packet_run now packet ep w Hw Hroom) as (res & w1 & E & H1 & He).
  destruct res as [e|x]; [destruct (He e eq_refl) as [[t ->]|Hesc]|].
  - rewrite (invalid_counted _ _ _ _ _ _ E). eexists _, _. split_and!; [done|by apply increment_ok|done].
  - exists (inl e), w1. split_and!; [|done|by intros e' [= <-]]. unfold doReceivePacket, try_tlv. rewrite E. by destruct Hesc as [-> _].
  - exists (inr x), w1. split_and!; [|done|done]. unfold doReceivePacket, try_tlv. by rewrite E.
Qed.
End receive.
