(* ===== verification/LinkTheorems.v ===== *)
(** * What the link layer promises

    The theorems on the reliability component, over any link service that obeys the laws of
    LpRelInv.v, on Acks that ride on packets, and on receiving anything at all. *)

From S2P Require Import Prelude Tlv Block Name LpPacket LpFragments LpReassembly ObjectMonad RttEstimator Packet NameWire SignatureWire InterestWire InterestObject DataWire DataObject LpFields LpReliability LpWindow LpRelInv LpRelEvents GenericLinkService LinkServiceInv LinkReceive.

Local Open Scope N_scope.

Section reliability.
Context (sha256 : list byte -> list byte) (autoCheck : bool).
Context {L : Type} `{Laws : LinkLaws L}.
Implicit Types (l : L) (r : LpReliability).

Lemma reached_books (w : LpReliability * L) : reached sha256 autoCheck w ->
  rel_nextNetPkt w.1 = N.of_nat (size (pending (rel_unackedFrags w.1))) +
    (link_count nAcknowledged w.2 + link_count nRetransmitted w.2 + link_count nRetxExhausted w.2).
Proof. intros Hw. by destruct (reached_ok sha256 autoCheck w Hw) as (_ & _ & _ & Hb). Qed.

(** C10: The books of reliable delivery balance. Whatever happens to the component, in any order:
    packets handed over, packets received with any Acks, in any order, known or not, and any
    fields, timers that fire, packets that pass by, every network packet that was handed over is
    in exactly one of four states: with fragments to be acknowledged, acknowledged at once,
    acknowledged after retransmissions, or given up; the three counters count the last three.
    Which counter moves, and when, is fixed for each of the places where one can: when the
    last fragment of a packet is acknowledged, [nRetransmitted] if one of its fragments has
    been sent again and [nAcknowledged] if none has, by one, and none with the fragments
    before; when a lost fragment has been sent often enough, [nRetxExhausted] by one, and the
    packet goes with all its fragments; a lost fragment that is sent again takes a new number,
    marks its packet and counts nothing; neither do handing over, which starts a packet
    unmarked, other packets sent, and the idle timer.
    Every stored fragment has its timer; no step fails an assertion, follows an invalid
    iterator or finds the sequence numbers exhausted while the window has room; the only
    exceptions are those of the parser on a received packet. *)
Theorem reliability_invariant (w : LpReliability * L) :
  reached sha256 autoCheck w ->
  rel_nextNetPkt w.1 = N.of_nat (size (pending (rel_unackedFrags w.1))) +
    (link_count nAcknowledged w.2 + link_count nRetransmitted w.2 + link_count nRetxExhausted w.2) /\
  (forall k f, rel_unackedFrags w.1 !! k = Some f -> is_Some (uf_rtoTimer f)) /\
  (forall ev, admissible sha256 autoCheck ev w -> exists res w', rel_step sha256 autoCheck ev w = Some (res, w') /\ reached sha256 autoCheck w' /\
    (forall e, res = inl e -> tlv_exception e /\ exists now pkt, ev = Receive now pkt) /\
    (quiet ev -> (forall c, c ∈ reliability_counters -> link_count c w'.2 = link_count c w.2) /\
       forall i, np_didRetx <$> rel_netPkts w'.1 !! i =
         if decide (i = rel_nextNetPkt w.1 /\ rel_nextNetPkt w.1 <> rel_nextNetPkt w'.1) then Some false else np_didRetx <$> rel_netPkts w.1 !! i)) /\
  (forall k, is_Some (rel_unackedFrags w.1 !! k) ->
    exists r' l', onLpPacketAcknowledged k w = Some (inr tt, (r', l')) /\ acknowledged_effect k w.1 w.2 r' l') /\
  (forall now k f, rel_unackedFrags w.1 !! k = Some f -> span w.1 < 2 ^ 64 ->
    exists removed r' l', onLpPacketLost sha256 autoCheck now k w = Some (inr removed, (r', l')) /\
      if decide (ro_maxRetx (rel_options w.1) <= uf_retxCount f) then given_up_effect f w.1 w.2 r' l'
      else resent_effect k f w.1 w.2 r' l').
Proof.
  intros Hw. destruct (reached_ok sha256 autoCheck w Hw) as (Hm & Hen & Hfit & _). split_and!; [by apply reached_books| | | |].
  - intros k f Hf. apply (rk_frags _ _ _ _ Hm k f Hf). set_solver.
  - intros ev Ha. destruct w as [r l]. destruct (rel_step_run sha256 autoCheck ev r l Hm Hen Hfit Ha) as (res & r' & l' & E & P & He).
    exists res, (r', l'). split_and!; [done|by eapply reached_step|intros e ->; split; [by apply P|by eapply He]|].
    intros Hq. by eapply quiet_step.
  - intros k Hk. destruct w as [r l]. apply (mid_weaken sha256 autoCheck ∅ {[k]}) in Hm; [|set_solver].
    destruct (acknowledged_run sha256 autoCheck k r l Hm Hk) as (r' & l' & E & _ & _ & _ & _ & _ & _ & _ & _ & Heff). by exists r', l'.
  - intros now k f Hf Hs. destruct w as [r l]. case_decide as D.
    + destruct (given_up_run sha256 autoCheck now k f r l Hm Hf D) as (removed & r' & l' & E & _ & _ & Heff). by exists removed, r', l'.
    + destruct (resent_run sha256 autoCheck now k f r l Hm Hen Hf ltac:(cbn [fst] in *; lia) Hs) as (removed & r' & l' & E & _ & _ & Heff). by exists removed, r', l'.
Qed.

(** C11: The send window is a queue. The map of fragments by sequence number with its iterator to
    the first one, over the wrap-around of sequence numbers, implements a list: handing over a
    packet appends the new numbers, deleting a fragment, at the front or not, removes its number,
    and the search for lost packets counts an Ack for the numbers before the acknowledged one,
    and for no other, and returns, in order, those that have counted enough. *)
Theorem send_window_is_queue (w : LpReliability * L) :
  reached sha256 autoCheck w -> let r := w.1 in
  (NoDup (send_queue r) /\ (forall k, k ∈ send_queue r <-> is_Some (rel_unackedFrags r !! k)) /\ head (send_queue r) = rel_firstUnackedFrag r) /\
  (forall now frags pkt isInterest, admissible sha256 autoCheck (HandOver now frags pkt isInterest) w ->
     exists r', handleOutgoing now frags pkt isInterest r = Some (inr (with_txSeqs (rel_lastTxSeqNo r) frags), r') /\
       send_queue r' = send_queue r ++ txSeqs (rel_lastTxSeqNo r) (length frags)) /\
  (forall k, k ∈ send_queue r -> exists r', deleteUnackedFrag k r = Some (inr tt, r') /\
     rel_unackedFrags r' = delete k (rel_unackedFrags r) /\ send_queue r' = filter (fun x => x <> k) (send_queue r)) /\
  (forall k, k ∈ send_queue r -> exists earlier later r', send_queue r = earlier ++ k :: later /\
     findLostLpPackets k r = Some (inr (filter (counted_out (ro_seqNumLossThreshold (rel_options r)) (rel_unackedFrags r)) earlier), r') /\
     send_queue r' = send_queue r /\
     forall x, rel_unackedFrags r' !! x = if decide (x ∈ earlier) then bump <$> rel_unackedFrags r !! x else rel_unackedFrags r !! x).
Proof.
  intros Hw r. destruct (reached_ok sha256 autoCheck w Hw) as (Hm & Hen & Hfit & _). fold r in Hm, Hen. pose proof (rk_window _ _ _ _ Hm) as Hwin.
  assert (forall k, k ∈ send_queue r <-> is_Some (rel_unackedFrags r !! k)) as Hin.
  { intros k. split; [apply elem_of_window|by eapply window_elem]. }
  split_and!.
  - by eapply window_NoDup.
  - exact Hin.
  - unfold send_queue. destruct (rel_firstUnackedFrag r) as [f|] eqn:Ef; [|done]. by destruct (window_head _ _ _ Hwin) as [q ->].
  - intros now frags pkt isInterest (H1 & H2 & H3 & H4). fold r in H4.
    destruct (handleOutgoing_run sha256 autoCheck now frags pkt isInterest r w.2 Hm Hen H4 H1 H2 H3) as (r' & E & _ & _ & _ & _ & Hq & _). by exists r'.
  - intros k Hk%Hin. destruct (deleteUnackedFrag_run k r Hwin Hk) as (E & _ & _ & Hq). by exists (delete_frag k r).
  - intros k Hk%Hin. destruct (findLost_run k r Hwin Hk) as (pre & post & E & Ef). eexists pre, post, _. split_and!; [exact E|exact Ef| |].
    + unfold send_queue. cbn [rel_with_frags rel_firstUnackedFrag rel_unackedFrags]. apply window_dom. intros x. apply bump_all_dom.
      pose proof (window_NoDup _ _ _ Hwin) as Hnd. rewrite E in Hnd. by apply NoDup_app in Hnd as [? _].
    + intros x. cbn [rel_with_frags rel_unackedFrags]. apply bump_all_lookup.
      pose proof (window_NoDup _ _ _ Hwin) as Hnd. rewrite E in Hnd. by apply NoDup_app in Hnd as [? _].
Qed.

End reliability.

(** C14: Acks ride on packets first come first served. Whatever the packet and the MTU, Acks are
    taken from the front of the queue, go after the Acks that the packet has, in their order, and
    change no other field; no more are taken than the computed room allows and no fewer than it
    allows. With an MTU below 2^16, a packet that was within the MTU stays within it, unless its
    size was 253 or 254 octets: the room for a longer TLV-LENGTH is not reserved. Nor is it at
    the next boundary, so nothing is said of greater MTUs ([piggyback_over_large_mtu]). *)
Theorem acks_piggyback mtu p r :
  ro_isEnabled (rel_options r) = true -> full_packet p ->
  exists taken q p', piggyback p mtu r = Some (inr p', rel_with_acks q r) /\ rel_ackQueue r = taken ++ q /\ lp_ok p' /\
    lp_list LP_Ack p' = lp_list LP_Ack p ++ (ack_block <$> taken) /\ (forall t, t <> LP_Ack -> lp_get t p' = lp_get t p) /\
    (taken <> [] -> 12 * Z.of_nat (length taken) <= ack_room mtu p)%Z /\ (q = [] \/ (ack_room mtu p - 12 * Z.of_nat (length taken) < 12)%Z) /\
    ((0 <= mtu < 2 ^ 16)%Z -> lp_size p <> 253 -> lp_size p <> 254 -> (Z.of_N (lp_size p) <= mtu -> Z.of_N (lp_size p') <= mtu)%Z).
Proof.
  intros Hen Hp. destruct (piggyback_run mtu p r Hen Hp) as (taken & q & p' & E & Eq & [Hok _] & Hl & Hs & Hg & Hroom & Hmax).
  exists taken, q, p'. split_and!; try done. intros Hmtu H1 H2. apply (piggyback_size mtu p p' (N.of_nat (length taken))); try done.
  intros Hne. rewrite nat_N_Z. apply Hroom. by intros ->.
Qed.

(** C13: Nothing that arrives breaks the link service. Any block, from any endpoint, at any time,
    in any state of the invariant, reliable or not, with any options, as long as the window of
    sequence numbers has room for the retransmissions that the packet's Acks may cause: no
    assertion of the service or of its components fails, and the invariants are kept. A block
    that is no link packet is counted in [nInLpInvalid] and changes nothing else, and so is
    whatever else the parsers throw on the way (an Ack or a sequence number, the reassembler)
    counted there, in the state that was reached. A reassembled network packet is, and the
    decoding changes nothing else: passed on and counted as an Interest, a Data or a Nack;
    or refused and counted in [nInNetInvalid]; or ignored, which happens only to an Interest
    that chooses its next hop where local fields are not allowed. The only exception that can
    get out is one that the time parser throws besides [std::bad_cast], with self-learning on,
    on a Data with a prefix announcement. *)
Theorem receive_safe sha256 autoCheck cv fromIsoString now packet ep w :
  service_ok sha256 autoCheck w -> (forall pkt, lp_wireDecode packet = inr pkt -> room_for_acks pkt w) ->
  (exists res w', doReceivePacket sha256 autoCheck cv fromIsoString now packet ep w = Some (res, w') /\ service_ok sha256 autoCheck w' /\
    forall e, res = inl e -> escapes fromIsoString (ls_options w.2) e) /\
  (forall t, lp_wireDecode packet = inl t ->
    doReceivePacket sha256 autoCheck cv fromIsoString now packet ep w = Some (inr tt, (w.1, increment nInLpInvalid w.2))) /\
  (forall t w1, receive_packet sha256 autoCheck cv fromIsoString now packet ep w = Some (inl (TlvError t), w1) ->
    doReceivePacket sha256 autoCheck cv fromIsoString now packet ep w = Some (inr tt, (w1.1, increment nInLpInvalid w1.2))) /\
  (forall net first, exists res w', decodeNetPacket sha256 autoCheck cv fromIsoString net first ep w = Some (res, w') /\
    match res with
    | inr _ => verdict net first w w'
    | inl e => w' = w /\ escapes fromIsoString (ls_options w.2) e /\ b_type net = TLV_Data /\ lp_has LP_PrefixAnnouncement first = true
    end).
Proof.
  intros Hw Hroom. split_and!; [by apply doReceivePacket_ok| |apply invalid_counted|intros; by apply decodeNetPacket_verdict].
  intros t Ht. apply (invalid_counted _ _ _ _ _ _ _ _ t w). unfold receive_packet. by rewrite Ht.
Qed.

(** ** At concrete states *)

Definition no_sha (l : list byte) : list byte := replicate 32 x00.
(** A reliable service with an MTU of 1500, and a packet handed to its reliability component. *)
Definition reliable_options : LinkOptions :=
  let o := LinkOptions_default in
  mkLinkOptions true true 400 true (400, 500%Z) (mkRelOptions true 3 5000000 3) true (lo_baseCongestionMarkingInterval o) 100 true (2 ^ 63 - 1).
Definition reliable_service : LinkService := GenericLinkService_new reliable_options 1500 0.
Definition numbered_packet (n : N) : LpPacket := lp_set LP_Sequence (encode_sequence n) (lp_set LP_Fragment [x06; x00] LpPacket_new).
Definition sample_event : RelEvent := HandOver 0 [numbered_packet 7; numbered_packet 8] (numbered_packet 7) false.
Definition one_sent : LinkService :=
  match rel_step no_sha true sample_event reliable_service with Some (_, w) => w | None => reliable_service end.

Lemma numbered_packet_ok n : frag_ok (numbered_packet n).
Proof.
  split; [apply lp_set_ok; [split; [done|]; unfold encode_sequence; by rewrite length_be_encode|apply lp_set_ok; [done|apply LpPacket_new_ok]]|].
  eexists _, (n mod 2 ^ 64). split; [apply lp_get_set|]. unfold decode_sequence, encode_sequence. cbn [b_value makeBinaryBlock].
  by rewrite length_be_encode, be_decode_encode.
Qed.
Lemma one_sent_reached : reached no_sha true one_sent.
Proof.
  assert (reached no_sha true reliable_service) as H0.
  { apply (reached_new no_sha true (mkRelOptions true 3 5000000 3)); [done| |done]. split; [done|right; by vm_compute]. }
  assert (admissible no_sha true sample_event reliable_service) as Ha.
  { split_and!; [apply Forall_cons; split; [apply numbered_packet_ok|apply Forall_singleton, numbered_packet_ok]|done|done|by vm_compute]. }
  destruct (reached_ok no_sha true reliable_service H0) as (Hm & Hen & Hfit & _).
  destruct (rel_step_run no_sha true sample_event reliable_service.1 reliable_service.2 Hm Hen Hfit Ha) as (res & r' & l' & E & _).
  unfold one_sent. change reliable_service with (reliable_service.1, reliable_service.2) at 1. rewrite E. by eapply reached_step.
Qed.
Lemma one_sent_queue : send_queue one_sent.1 = [0; 1].
Proof. by vm_compute. Qed.

Lemma one_sent_frag : is_Some (rel_unackedFrags one_sent.1 !! 1).
Proof. apply (bool_decide_unpack _). by vm_compute. Qed.
Lemma reliability_invariant_witness :
  rel_nextNetPkt one_sent.1 = N.of_nat (size (pending (rel_unackedFrags one_sent.1))) +
    (link_count nAcknowledged one_sent.2 + link_count nRetransmitted one_sent.2 + link_count nRetxExhausted one_sent.2) /\
  exists r' l', onLpPacketAcknowledged 1 one_sent = Some (inr tt, (r', l')) /\ acknowledged_effect 1 one_sent.1 one_sent.2 r' l'.
Proof.
  destruct (reliability_invariant no_sha true one_sent one_sent_reached) as (H1 & _ & _ & H4 & _).
  split; [exact H1|exact (H4 1 one_sent_frag)].
Defined.

Lemma send_window_is_queue_witness :
  let r := one_sent.1 in
  (NoDup (send_queue r) /\ (forall k, k ∈ send_queue r <-> is_Some (rel_unackedFrags r !! k)) /\ head (send_queue r) = rel_firstUnackedFrag r) /\
  (forall now frags pkt isInterest, admissible no_sha true (HandOver now frags pkt isInterest) one_sent ->
     exists r', handleOutgoing now frags pkt isInterest r = Some (inr (with_txSeqs (rel_lastTxSeqNo r) frags), r') /\
       send_queue r' = send_queue r ++ txSeqs (rel_lastTxSeqNo r) (length frags)) /\
  (forall k, k ∈ send_queue r -> exists r', deleteUnackedFrag k r = Some (inr tt, r') /\
     rel_unackedFrags r' = delete k (rel_unackedFrags r) /\ send_queue r' = filter (fun x => x <> k) (send_queue r)) /\
  (forall k, k ∈ send_queue r -> exists earlier later r', send_queue r = earlier ++ k :: later /\
     findLostLpPackets k r = Some (inr (filter (counted_out (ro_seqNumLossThreshold (rel_options r)) (rel_unackedFrags r)) earlier), r') /\
     send_queue r' = send_queue r /\
     forall x, rel_unackedFrags r' !! x = if decide (x ∈ earlier) then bump <$> rel_unackedFrags r !! x else rel_unackedFrags r !! x).
Proof. apply (send_window_is_queue no_sha true one_sent). apply one_sent_reached. Defined.


(** Two Acks are queued, the packet is IDLE. *)
Definition two_acks : LpReliability := rel_with_acks [5; 6] reliable_service.1.
Lemma acks_piggyback_witness :
  exists taken q p', piggyback LpPacket_new 1500 two_acks = Some (inr p', rel_with_acks q two_acks) /\ rel_ackQueue two_acks = taken ++ q /\ lp_ok p' /\
    lp_list LP_Ack p' = lp_list LP_Ack LpPacket_new ++ (ack_block <$> taken) /\ (forall t, t <> LP_Ack -> lp_get t p' = lp_get t LpPacket_new) /\
    (taken <> [] -> 12 * Z.of_nat (length taken) <= ack_room 1500 LpPacket_new)%Z /\
    (q = [] \/ (ack_room 1500 LpPacket_new - 12 * Z.of_nat (length taken) < 12)%Z) /\
    ((0 <= 1500 < 2 ^ 16)%Z -> lp_size LpPacket_new <> 253 -> lp_size LpPacket_new <> 254 ->
     (Z.of_N (lp_size LpPacket_new) <= 1500 -> Z.of_N (lp_size p') <= 1500)%Z).
Proof. apply (acks_piggyback 1500 LpPacket_new two_acks); [reflexivity|split; [apply LpPacket_new_ok|reflexivity]]. Defined.

Lemma receive_safe_witness :
  let garbage := makeBinaryBlock LP_LpPacket [x50; xff] in
  doReceivePacket no_sha true default_conventions (fun _ => IsoBadCast) 0 garbage 1 reliable_service =
    Some (inr tt, (reliable_service.1, increment nInLpInvalid reliable_service.2)).
Proof.
  refine (proj1 (proj2 (receive_safe no_sha true default_conventions (fun _ => IsoBadCast) 0 (makeBinaryBlock LP_LpPacket [x50; xff]) 1 reliable_service _ _))
    _ _).
  - split; [apply LpReliability_new_ok|reflexivity|apply map_Forall_empty].
  - intros pkt Hp. vm_compute in Hp. discriminate.
  - vm_compute. reflexivity.
Defined.

(** ** Where the code does something else *)

(** A packet of 254 octets takes an Ack into 268, over an MTU of 266. *)
Definition packet_254 : LpPacket := lp_set LP_Sequence (encode_sequence 0) (lp_set LP_Fragment (replicate 240 x00) LpPacket_new).
Example piggyback_over_mtu :
  lp_size packet_254 = 254 /\
  match piggyback packet_254 266 (rel_with_acks [5] reliable_service.1) with
  | Some (inr p, r) => lp_size p = 268 /\ rel_ackQueue r = []
  | _ => False
  end.
Proof. vm_compute. split; [reflexivity|split; reflexivity]. Qed.

(** A packet of 65530 octets takes an Ack into 65544, over an MTU of 65542. *)
Definition packet_65530 : LpPacket := lp_set LP_Sequence (encode_sequence 0) (lp_set LP_Fragment (replicate 65512 x00) LpPacket_new).
Example piggyback_over_large_mtu :
  lp_size packet_65530 = 65530 /\
  match piggyback packet_65530 65542 (rel_with_acks [5] reliable_service.1) with
  | Some (inr p, r) => lp_size p = 65544 /\ rel_ackQueue r = []
  | _ => False
  end.
Proof. vm_compute. split; [reflexivity|split; reflexivity]. Qed.

(** Five Acks fill an IDLE packet to the MTU of 64; the congestion mark that is added then takes
    it over the MTU: the packet is dropped, and the Acks are gone. *)
Definition five_acks : LinkService :=
  let s := (GenericLinkService_new reliable_options 64 200).2 in
  (rel_with_acks [1; 2; 3; 4; 5] reliable_service.1, ls_with_marking (Some 0%Z) 0 s).
Example mark_over_mtu :
  match requestIdlePacket 1 five_acks with
  | Some (inr _, (r, s)) => rel_ackQueue r = [] /\ ls_out s = [] /\ ls_counters s nOutOverMtu = 1
  | _ => False
  end.
Proof. vm_compute. split; [reflexivity|split; reflexivity]. Qed.

(** A Sequence that was seen an hour ago, with a timeout of a second, is a duplicate still: the
    memory is searched before old entries are removed. *)
Example old_sequence_is_duplicate :
  match checkDuplicate 3600000000000 7 (rel_with_recent {[7 := 0%Z]} [7] reliable_service.1) with
  | Some (inr isDuplicate, r) => isDuplicate = true /\ rel_recentRecvSeqs r = {[7 := 3600000000000%Z]}
  | _ => False
  end.
Proof. vm_compute. split; reflexivity. Qed.

(** When the Sequence of a packet is malformed, its Ack is queued and no timer is set for it. *)
Example ack_without_timer :
  match processIncomingPacket no_sha true 0 (lp_set LP_Sequence [x00] (lp_set LP_TxSequence (encode_sequence 3) (lp_set LP_Fragment [x06; x00] LpPacket_new))) reliable_service with
  | Some (inl e, (r, _)) => e = TlvError (InvalidValue LP_Sequence) /\ rel_ackQueue r = [3] /\ rel_idleAckTimer r = None
  | _ => False
  end.
Proof. vm_compute. split; [reflexivity|split; reflexivity]. Qed.

(** An exception of the time parser that is not [std::bad_cast] is not caught. *)
Example iso_exception_escapes :
  let time t := makeBinaryBlock t (replicate 15 x30) in
  ValidityPeriod_wireDecode (fun _ => IsoOtherException) (makeBinaryBlock TLV_ValidityPeriod (b_wire (time TLV_NotBefore) ++ b_wire (time TLV_NotAfter)))
    = inl IsoException.
Proof. vm_compute. reflexivity. Qed.
