(* ===== verification/LinkDelivery.v ===== *)
(** * A network packet crosses the link

    Two link services without reliability: what one sends, the other delivers, with the tags
    that the options of both let through. *)

From S2P Require Import Prelude Tlv Block Name LpPacket LpFragments LpReassembly ObjectMonad RttEstimator Packet NameWire SignatureWire InterestWire InterestObject DataWire DataObject LpFields LpReliability LpWindow LpRelInv LpRelEvents GenericLinkService LinkServiceInv LinkReceive.

Local Open Scope N_scope.

(** ** Sending without reliability and marks *)

Record plain_sender (s : LinkState) : Prop := {
  ps_reliability : ro_isEnabled (lo_reliability (ls_options s)) = false;
  ps_marking : lo_allowCongestionMarking (ls_options s) = false;
  ps_fragmentation : lo_allowFragmentation (ls_options s) = true;
  ps_mtu : (0 <= getEffectiveMtu s < 2 ^ 63)%Z;
}.

(** A packet, and the block that is sent for it. *)
Definition sent_as (mtu : N) (p : LpPacket) (b : Block) : Prop := lp_wireEncode p = Some b /\ b_size b <= mtu.

Lemma sendLpPacket_plain now p b r s : plain_sender s -> sent_as (Z.to_N (getEffectiveMtu s)) p b ->
  sendLpPacket now p (r, s) = Some (inr tt, (r, emit (SendPacket b) s)).
Proof.
  intros [H1 H2 H3 H4] [Ew Hsize]. unfold sendLpPacket. rewrite bind_get. cbn [snd]. rewrite H1, H2. do 2 (erewrite bind_run by reflexivity).
  rewrite Ew. rewrite Z.mod_small by lia. rewrite (proj2 (Z.ltb_ge _ _)) by lia. rewrite andb_false_r. done.
Qed.
Lemma emit_plain o s : plain_sender s -> plain_sender (emit o s).
Proof. intros [A B C D]. by split. Qed.

Lemma send_all_plain now ps : forall bs r s, plain_sender s -> Forall2 (sent_as (Z.to_N (getEffectiveMtu s))) ps bs ->
  exists s', send_all now ps (r, s) = Some (inr tt, (r, s')) /\ ls_out s' = ls_out s ++ (SendPacket <$> bs) /\ plain_sender s'.
Proof.
  induction ps as [|p ps IH]; intros bs r s Hs Hb; inversion Hb as [|? b ? bs' Hpb Hb']; subst; clear Hb; cbn [send_all].
  - exists s. by rewrite app_nil_r.
  - erewrite bind_run by (by apply sendLpPacket_plain). destruct (IH bs' r (emit (SendPacket b) s) (emit_plain _ _ Hs) Hb') as (s' & E & Eo & Hp).
    exists s'. split_and!; [done| |done]. rewrite Eo. cbn. by rewrite <- app_assoc.
Qed.

(** The packets that go out: with their sequence numbers if they are several. *)
Definition numbered (lastSeq : N) (frags : list LpPacket) : list LpPacket :=
  match frags with [p] => [p] | _ => (assignSequences lastSeq frags).2 end.

Lemma sendNetPacket_plain now packet fragment net isInterest r s :
  plain_sender s -> outgoing packet fragment net ->
  exists res s', sendNetPacket now packet isInterest (r, s) = Some (inr tt, (r, s')) /\
    fragmentPacket (lo_nMaxFragments (ls_options s)) packet (Z.to_N (getEffectiveMtu s)) = Some res /\
    match res with
    | None => s' = increment nFragmentationErrors s
    | Some frags => exists blocks, Forall2 (sent_as (Z.to_N (getEffectiveMtu s))) (numbered (ls_lastSeqNo s) frags) blocks /\
                      ls_out s' = ls_out s ++ (SendPacket <$> blocks)
    end.
Proof.
  intros Hs Hout. pose proof Hs as [H1 H2 H3 H4]. pose proof (outgoing_nonempty _ _ _ Hout) as Hne. set (mtu := Z.to_N (getEffectiveMtu s)).
  destruct (fragmentPacket_spec (lo_nMaxFragments (ls_options s)) packet fragment (b_wire net) mtu) as (res & Er & Hr); try by destruct Hout as [? ? ? ? ? [? ?] ?].
  unfold sendNetPacket. rewrite bind_get. cbn [snd]. rewrite H1, H2, H3. cbn [andb orb].
  assert ((getEffectiveMtu s =? MTU_UNLIMITED)%Z = false) as -> by (apply Z.eqb_neq; unfold MTU_UNLIMITED; lia).
  rewrite (proj2 (Z.leb_le 0 _)) by lia. erewrite bind_run by reflexivity. cbn [negb]. fold mtu. rewrite Er.
  destruct res as [frags|]; [|eexists None, _; split_and!; reflexivity]. specialize (Hr frags eq_refl).
  assert (forall blocks s0, plain_sender s0 -> getEffectiveMtu s0 = getEffectiveMtu s -> ls_out s0 = ls_out s ->
    Forall2 (sent_as mtu) (numbered (ls_lastSeqNo s) frags) blocks ->
    exists s', send_all now (numbered (ls_lastSeqNo s) frags) (r, s0) = Some (inr tt, (r, s')) /\ ls_out s' = ls_out s ++ (SendPacket <$> blocks)) as Hsend.
  { intros blocks s0 Hs0 Em Eo Hb. destruct (send_all_plain now (numbered (ls_lastSeqNo s) frags) blocks r s0 Hs0) as (s' & E & Eo' & _); [by rewrite Em|].
    exists s'. split; [done|]. by rewrite Eo', Eo. }
  destruct (decide (length frags = 1%nat)) as [Hone|Hmany].
  - destruct frags as [|p [|]]; try done. destruct Hr as [[[= ->] (wire & Ew & Hw)]|(first & payload & _ & _ & Hn & E & _)].
    2:{ apply (f_equal length) in E. rewrite length_fmap, length_seq in E. cbn [length] in E. lia. }
    rewrite (og_index _ _ _ Hout), (og_count _ _ _ Hout). erewrite bind_run by reflexivity. cbn [length Nat.ltb Nat.leb orb].
    do 2 (erewrite bind_run by reflexivity). destruct (Hsend [wire] s Hs eq_refl eq_refl) as (s' & E & Eo).
    { constructor; [|constructor]. split; [done|lia]. }
    exists (Some [packet]), s'. split_and!; [exact E|done|]. exists [wire]. split; [|done]. constructor; [|constructor]. split; [done|lia].
  - assert (numbered (ls_lastSeqNo s) frags = (assignSequences (ls_lastSeqNo s) frags).2) as Enum by (unfold numbered; by destruct frags as [|p [|]]).
    destruct Hr as [[-> _]|(first & payload & Hfirst & Hpay & Hn & Ef & Hroom)]; [done|].
    assert (1 <? length frags = true)%nat as Hlt.
    { apply Nat.ltb_lt. rewrite Ef, length_fmap, length_seq. lia. }
    assert (match frags with [f] => negb (lp_has LP_FragIndex f) && negb (lp_has LP_FragCount f) | _ => true end = true) as Hm by (by destruct frags as [|? [|]]).
    rewrite Hm. erewrite bind_run by reflexivity. rewrite Hlt. cbn [orb].
    destruct (assignSequences (ls_lastSeqNo s) frags) as [n ps] eqn:Ea. cbn [snd] in Enum.
    assert (exists blocks, Forall2 (sent_as mtu) ps blocks) as [blocks Hb].
    { assert (Forall (fun p => exists b, sent_as mtu p b) ps) as H; [|by apply Forall_exists_Forall2_l in H]. apply Forall_lookup. intros i p' Hp'.
      assert (ps = (assignSequences (ls_lastSeqNo s) frags).2) as Eps by (by rewrite Ea). rewrite Eps in Hp'.
      pose proof (lookup_lt_Some _ _ _ Hp') as Hi. rewrite assignSequences_length in Hi. destruct (lookup_lt_is_Some_2 frags i Hi) as [p Hp].
      rewrite (assignSequences_lookup frags _ i p Hp) in Hp'. injection Hp' as <-.
      destruct (sent_fragments (lo_nMaxFragments (ls_options s)) mtu (ls_lastSeqNo s) packet fragment net frags Hout) with (i := i) (p := p)
        as (q & (wire & Ew & Hw & _) & _); [lia|right; exists first, payload; split_and!; try done; lia|done|by exists wire]. }
    erewrite bind_run by (erewrite bind_run by reflexivity; reflexivity). erewrite bind_run by reflexivity. rewrite <- Enum.
    cbn [fst snd]. destruct (Hsend blocks (ls_with_lastSeqNo n s)) as (s' & E & Eo); [destruct Hs as [A B C D]; by split|done|done|by rewrite Enum|].
    exists (Some frags), s'. split_and!; [exact E|done|]. exists blocks. split; [by rewrite Enum|done].
Qed.

(** ** Receiving without reliability *)

(** No reliability, fragments are reassembled; where prefix announcements are read, their times
    do not make the time library throw what the link service does not catch. *)
Record receiving_plainly (fromIsoString : list byte -> IsoResult) (s : LinkState) : Prop := {
  pr_reliability : ro_isEnabled (lo_reliability (ls_options s)) = false;
  pr_reassembly : lo_allowReassembly (ls_options s) = true;
  pr_times : lo_allowSelfLearning (ls_options s) = true -> forall v, fromIsoString v <> IsoOtherException;
}.

Inductive Arrival := Arrives (now : Z) (b : Block) (ep : EndpointId) | TimesOut (key : N * N).
(** The event of the reassembler, for an arrival that reaches it. *)
Definition arrival_event (a : Arrival) : option LpEvent :=
  match a with
  | Arrives now b ep => match lp_wireDecode b with
                        | inr p => if lp_has LP_Fragment p then Some (FragmentArrives now ep p) else None
                        | inl _ => None
                        end
  | TimesOut key => Some (DropTimer key)
  end.

Section receiver.
Context (sha256 : list byte -> list byte) (autoCheck : bool) (cv : Conventions) (fromIsoString : list byte -> IsoResult).
#[local] Notation decode := (decodeNetPacket sha256 autoCheck cv fromIsoString).
#[local] Notation ok := (service_ok sha256 autoCheck).
#[local] Notation plain_receiver := (receiving_plainly fromIsoString).

Definition arrival_step (a : Arrival) : OM LinkService unit :=
  match a with
  | Arrives now b ep => doReceivePacket sha256 autoCheck cv fromIsoString now b ep
  | TimesOut key => reassembly_timeout key
  end.
Fixpoint arrivals_run (l : list Arrival) : OM LinkService unit :=
  match l with [] => mret tt | a :: l => arrival_step a;; arrivals_run l end.

Lemma decode_total net p ep w : plain_receiver w.2 ->
  exists w', decode net p ep w = Some (inr tt, w') /\ w'.1 = w.1 /\ link_same w.2 w'.2.
Proof using Type.
  intros Hp. destruct (decodeNetPacket_verdict sha256 autoCheck cv fromIsoString w net p ep) as ([e|[]] & w' & E & Hr).
  - destruct Hr as (_ & (_ & Hs & v & Hv) & _). by destruct (pr_times _ _ Hp Hs v).
  - exists w'. split; [done|]. by eapply verdict_same.
Qed.

Definition step_result (nMax : N) (timeout : Z) (a : Arrival) (w w' : LinkService) : Prop :=
  match arrival_event a with
  | None => ls_reassembler w'.2 = ls_reassembler w.2 /\ ls_out w'.2 = ls_out w.2
  | Some ev =>
      exists s r, reassembler_step nMax timeout ev (ls_reassembler w.2) = Some (s, r) /\ ls_reassembler w'.2 = s /\
        match r, ev with
        | inr (Some (net, first)), FragmentArrives _ ep _ => decode net first ep (w.1, ls_with_reassembler s w.2) = Some (inr tt, w')
        | _, _ => ls_out w'.2 = ls_out w.2
        end
  end.

Lemma arrival_step_plain nMax timeout a w :
  ok w -> plain_receiver w.2 -> lo_reassembler (ls_options w.2) = (nMax, timeout) ->
  exists w', arrival_step a w = Some (inr tt, w') /\ ls_options w'.2 = ls_options w.2 /\ w'.1 = w.1 /\ step_result nMax timeout a w w'.
Proof using Type.
  intros Hw [Hrel Hre Htimes] Hopt. destruct w as [r s]. cbn [fst snd] in *. destruct a as [now b ep|key]; cbn [arrival_step]; unfold step_result; cbn [arrival_event].
  - unfold doReceivePacket, receive_packet, try_tlv. destruct (lp_wireDecode b) as [t|p].
    { exists (r, increment nInLpInvalid s). split_and!; done. }
    erewrite bind_run by reflexivity. rewrite bind_get. cbn [snd]. rewrite Hrel. unfold receive_lp. rewrite bind_get. cbn [snd].
    destruct (lp_has LP_Fragment p) eqn:Ef; cbn [negb]; [|exists (r, s); split_and!; done]. rewrite Hre. cbn [negb]. rewrite andb_false_r.
    unfold reassemble. unfold mbind at 1, OM_bind at 1. rewrite bind_get. cbn [snd]. rewrite Hopt. cbn [reassembler_step].
    destruct (receiveFragment_total nMax timeout now ep p (ls_reassembler s) (so_reassembler _ _ _ Hw) Ef) as (s1 & res & E & Hs1). rewrite E.
    erewrite bind_run by reflexivity. destruct res as [t|[[net first]|]]; cbn [lift].
    + exists (r, increment nInLpInvalid (ls_with_reassembler s1 s)). split_and!; try done. by exists s1, (inl t).
    + cbn [mret OM_ret]. destruct (decode_total net first ep (r, ls_with_reassembler s1 s)) as (w' & Ed & H1 & H2); [by split|]. cbn [fst snd] in *. rewrite Ed.
      exists w'. split_and!; [done|by destruct H2 as (-> & _)|done|]. exists s1, (inr (Some (net, first))). split_and!; [done|by destruct H2 as (_ & -> & _)|done].
    + exists (r, ls_with_reassembler s1 s). split_and!; try done. by exists s1, (inr None).
  - unfold reassembly_timeout. rewrite bind_get. cbn [snd reassembler_step]. destruct (timeoutPartialPacket key (ls_reassembler s)) as [s1 fired].
    erewrite bind_run by reflexivity. destruct fired as [x|].
    + exists (r, increment nReassemblyTimeouts (ls_with_reassembler s1 s)). split_and!; try done. by exists s1, (inr None).
    + exists (r, ls_with_reassembler s1 s). split_and!; try done. by exists s1, (inr None).
Qed.

Lemma arrival_ok nMax timeout a w w' : ok w -> ls_options w'.2 = ls_options w.2 -> w'.1 = w.1 -> step_result nMax timeout a w w' -> ok w'.
Proof using Type.
  intros [A B C] Ho Hr Hs. split; [by rewrite Hr|by rewrite Hr, Ho|]. unfold step_result in Hs. destruct (arrival_event a) as [ev|] eqn:Eev; [|by destruct Hs as [-> _]].
  destruct Hs as (s & r & E & -> & _). destruct ev as [now ep p|key]; cbn [reassembler_step] in E.
  - destruct (receiveFragment_total nMax timeout now ep p (ls_reassembler w.2) C) as (s' & r' & E' & Hs').
    { destruct a as [n b e|]; cbn in Eev; [|done]. destruct (lp_wireDecode b) as [|q]; [done|]. destruct (lp_has LP_Fragment q) eqn:Eh; [|done]. by injection Eev as _ _ <-. }
    rewrite E in E'. by injection E' as <- _.
  - injection E as <- _. unfold timeoutPartialPacket. destruct (ls_reassembler w.2 !! key); [|done]. by apply map_Forall_delete.
Qed.

(** The service runs its reassembler on the arrivals that reach it. *)
Lemma arrivals_run_plain nMax timeout l : forall w,
  ok w -> plain_receiver w.2 -> lo_reassembler (ls_options w.2) = (nMax, timeout) ->
  exists w' rs, arrivals_run l w = Some (inr tt, w') /\ ok w' /\ plain_receiver w'.2 /\ ls_options w'.2 = ls_options w.2 /\
    reassembler_run nMax timeout (omap arrival_event l) (ls_reassembler w.2) = Some (ls_reassembler w'.2, rs).
Proof using Type.
  induction l as [|a l IH]; intros w Hw Hp Hopt; [by exists w, []|]. cbn [arrivals_run].
  destruct (arrival_step_plain nMax timeout a w Hw Hp Hopt) as (w1 & E1 & Ho1 & Hr1 & Hs1). erewrite bind_run by exact E1.
  assert (plain_receiver w1.2) as Hp1 by (destruct Hp as [A B C]; split; by rewrite Ho1).
  destruct (IH w1) as (w' & rs & E & Hw' & Hp' & Ho' & Er); [by eapply arrival_ok|done|by rewrite Ho1|]. unfold step_result in Hs1.
  change (omap arrival_event (a :: l)) with (match arrival_event a with Some y => y :: omap arrival_event l | None => omap arrival_event l end).
  destruct (arrival_event a) as [ev|].
  - destruct Hs1 as (s & r & Es & <- & _). exists w', (r :: rs). split_and!; [done|done|done|congruence|]. cbn [reassembler_run]. rewrite Es.
    cbn [mbind option_bind]. by rewrite Er.
  - exists w', rs. destruct Hs1 as [Hre _]. rewrite Hre in Er. split_and!; [done|done|done|congruence|done].
Qed.

(** Decoding looks at the other header fields only. *)
Definition same_headers (p q : LpPacket) : Prop := forall t, t ∉ [LP_Sequence; LP_FragIndex; LP_FragCount; LP_Fragment] -> lp_get t q = lp_get t p.
Lemma decode_same_headers net p q ep w : same_headers p q -> decode net q ep w = decode net p ep w.
Proof using Type.
  intros Hs. assert (forall t, t ∉ [LP_Sequence; LP_FragIndex; LP_FragCount; LP_Fragment] -> lp_has t q = lp_has t p) as Hh by (intros t Ht; by rewrite !lp_has_get, Hs).
  unfold decodeNetPacket, try_tlv, decodeInterest, decodeData, decodeNack, tag_field, lp_getAs.
  rewrite (Hs LP_Nack), (Hs LP_NextHopFaceId), (Hs LP_CachePolicy), (Hs LP_CongestionMark), (Hs LP_NonDiscovery), (Hs LP_PrefixAnnouncement), (Hs LP_PitToken) by set_solver.
  rewrite (Hh LP_Nack), (Hh LP_NextHopFaceId), (Hh LP_CachePolicy), (Hh LP_CongestionMark), (Hh LP_NonDiscovery), (Hh LP_PrefixAnnouncement), (Hh LP_PitToken) by set_solver.
  done.
Qed.

(** ** A packet crosses the link *)

(** The blocks of one message: once all but [last] have arrived, whatever else arrives or times
    out, and in any order, that one makes the receiver decode the network packet. *)
Definition blocks_carry (seqno : N) (packet : LpPacket) (net : Block) (blocks : list Block) (w : LinkService) : Prop :=
  exists qs, Forall2 (fun b q => lp_wireDecode b = inr q) blocks qs /\
  forall ep last b l now, blocks !! last = Some b -> ls_reassembler w.2 !! (ep, seqno) = None ->
    completes ep seqno qs last (omap arrival_event l) ->
  exists w1 w2 st, arrivals_run l w = Some (inr tt, w1) /\ arrival_step (Arrives now b ep) w1 = Some (inr tt, w2) /\
    ls_options w1.2 = ls_options w.2 /\ st !! (ep, seqno) = None /\
    decode net packet ep (w1.1, ls_with_reassembler st w1.2) = Some (inr tt, w2).

(** The last block, when its fragment makes the reassembler deliver. *)
Lemma last_arrives nMax timeout now b ep q w st net first packet :
  ok w -> plain_receiver w.2 -> lo_reassembler (ls_options w.2) = (nMax, timeout) ->
  lp_wireDecode b = inr q -> lp_has LP_Fragment q = true -> same_headers packet first ->
  receiveFragment nMax timeout now ep q (ls_reassembler w.2) = Some (st, inr (Some (net, first))) ->
  exists w', arrival_step (Arrives now b ep) w = Some (inr tt, w') /\ decode net packet ep (w.1, ls_with_reassembler st w.2) = Some (inr tt, w').
Proof using Type.
  intros Hw Hp Hopt Hd Hf Hh Hr. destruct (arrival_step_plain nMax timeout (Arrives now b ep) w Hw Hp Hopt) as (w' & E & _ & _ & Hs).
  exists w'. split; [exact E|]. unfold step_result in Hs. cbn [arrival_event] in Hs. rewrite Hd, Hf in Hs. destruct Hs as (s & r & Es & _ & Hdec).
  cbn [reassembler_step] in Es. rewrite Hr in Es. injection Es as <- <-. by rewrite <- (decode_same_headers net packet first).
Qed.

(** A message of one block. *)
Lemma whole_carries packet fragment net b seqno w nMax timeout :
  outgoing packet fragment net -> ok w -> plain_receiver w.2 -> lo_reassembler (ls_options w.2) = (nMax, timeout) -> 1 <= nMax ->
  fields_size (lp_elements packet) < 2 ^ 64 -> lp_wireEncode packet = Some b -> blocks_carry seqno packet net [b] w.
Proof using Type.
  intros Hout Hw Hp Hopt Hmax Hsize Ew. pose proof Hout as [Hok Hbare Hi Hc Hget [Hnet Hv] _].
  destruct (lp_roundtrip_ok packet Hok Hbare Hsize) as (wire & q & Ew' & _ & Hd & El & _). rewrite Ew in Ew'. injection Ew' as <-.
  exists [q]. split; [by constructor|]. intros ep last b' l now Hb Hkey Hcomp. apply list_lookup_singleton_Some in Hb as [-> <-].
  destruct (arrivals_run_plain nMax timeout l w Hw Hp Hopt) as (w1 & rs & E1 & Hw1 & Hp1 & Ho1 & Er1).
  destruct (run_foreign nMax timeout ep seqno _ (ls_reassembler w.2) (completes_single _ _ _ _ Hcomp) (so_reassembler _ _ _ Hw) Hkey) as (st & rs' & E & _ & Hst).
  rewrite Er1 in E. injection E as <- <-. assert (forall t, lp_get t q = lp_get t packet) as Hg by (intros t; by apply lp_get_elements).
  destruct (last_arrives nMax timeout now b ep q w1 (ls_reassembler w1.2) net q packet) as (w2 & E2 & Hdec); try done.
  - by rewrite Ho1.
  - by rewrite lp_has_get, Hg, Hget.
  - intros t _. apply Hg.
  - by apply (receive_whole nMax timeout now ep q fragment net); [done|rewrite lp_has_get, Hg, <- lp_has_get..|rewrite Hg| |].
  - exists w1, w2, (ls_reassembler w1.2). done.
Qed.
(** A message of several. *)
Lemma fragments_carry nMaxSend mtu packet fragment net frags lastSeq blocks w nMax timeout :
  outgoing packet fragment net -> mtu < 2 ^ 64 -> fragmented nMaxSend packet (b_wire net) mtu frags ->
  Forall2 (sent_as mtu) (assignSequences lastSeq frags).2 blocks ->
  ok w -> plain_receiver w.2 -> lo_reassembler (ls_options w.2) = (nMax, timeout) -> 1 <= nMax -> nMaxSend <= nMax < 2 ^ 64 ->
  blocks_carry ((lastSeq + 1) mod 2 ^ 64) packet net blocks w.
Proof using Type.
  intros Hout Hmtu Hfr Hb Hw Hp Hopt Hmax1 Hmax. destruct (fragments_arrive nMaxSend mtu packet fragment net frags lastSeq Hout Hmtu Hfr) as [qs Hqs].
  assert (Forall2 (fun b q => lp_wireDecode b = inr q) blocks qs) as Hd.
  { clear - Hb Hqs. revert qs Hqs. induction Hb as [|p b ps bs [Ew _] _ IH]; intros qs Hqs; inversion Hqs as [|? q ? qs' Ha Hqs']; subst; constructor; [|by apply IH].
    destruct Ha as (wire & Ew' & _ & _ & Hd). rewrite Ew in Ew'. by injection Ew' as <-. }
  exists qs. split; [done|]. intros ep last b l now Hlast Hkey Hcomp. destruct (Forall2_lookup_l _ _ _ _ _ Hd Hlast) as (q & Hq & Edec).
  destruct (arrivals_run_plain nMax timeout l w Hw Hp Hopt) as (w1 & rs & E1 & Hw1 & Hp1 & Ho1 & Er1).
  destruct (fragments_delivered nMaxSend mtu packet fragment net frags lastSeq qs nMax timeout ep (ls_reassembler w.2) last (omap arrival_event l)
    Hout Hmtu Hfr Hqs Hmax1 Hmax (so_reassembler _ _ _ Hw) Hkey Hcomp q now Hq) as (st1 & rs1 & st2 & first & E & _ & Er & Hst & _ & Hh).
  rewrite Er1 in E. injection E as <- <-.
  destruct (last_arrives nMax timeout now b ep q w1 st2 net first packet) as (w2 & E2 & Hdec); try done.
  - by rewrite Ho1.
  - unfold receiveFragment in Er. rewrite lp_has_get. by destruct (lp_get LP_Fragment q).
  - exists w1, w2, st2. done.
Qed.

Lemma packet_crosses now packet fragment net isInterest r s w nMax timeout :
  plain_sender s -> outgoing packet fragment net ->
  ok w -> plain_receiver w.2 -> lo_reassembler (ls_options w.2) = (nMax, timeout) ->
  1 <= nMax -> lo_nMaxFragments (ls_options s) <= nMax < 2 ^ 64 ->
  exists s', sendNetPacket now packet isInterest (r, s) = Some (inr tt, (r, s')) /\
    (s' = increment nFragmentationErrors s \/
     exists blocks, ls_out s' = ls_out s ++ (SendPacket <$> blocks) /\ Forall (fun b => b_size b <= Z.to_N (getEffectiveMtu s)) blocks /\
       blocks_carry ((ls_lastSeqNo s + 1) mod 2 ^ 64) packet net blocks w).
Proof using Type.
  intros Hs Hout Hw Hp Hopt Hmax1 Hmax. destruct (sendNetPacket_plain now packet fragment net isInterest r s Hs Hout) as (res & s' & E & Er & Hres).
  exists s'. split; [exact E|]. destruct res as [frags|]; [right|by left]. destruct Hres as (blocks & Hb & Ho). exists blocks. split_and!; [done| |].
  { clear - Hb. induction Hb as [|p b ps bs [_ H] _ IH]; by constructor. }
  set (mtu := Z.to_N (getEffectiveMtu s)) in *. set (seqno := (ls_lastSeqNo s + 1) mod 2 ^ 64). pose proof (ps_mtu _ Hs) as Hmtu.
  pose proof (outgoing_nonempty _ _ _ Hout) as Hne.
  destruct (fragmentPacket_spec (lo_nMaxFragments (ls_options s)) packet fragment (b_wire net) mtu) as (res & Er' & Hfr); try by destruct Hout as [? ? ? ? ? [? ?] ?].
  rewrite Er in Er'. injection Er' as <-. specialize (Hfr frags eq_refl).
  destruct (decide (length frags = 1%nat)) as [Hone|Hmany].
  - destruct frags as [|p [|]]; try done. destruct Hfr as [[[= ->] (wire & Ew & Hw1)]|(first & payload & _ & _ & Hn & Ef & _)].
    2:{ apply (f_equal length) in Ef. rewrite length_fmap, length_seq in Ef. cbn [length] in Ef. lia. }
    apply Forall2_cons_inv_l in Hb as (b & bs & [Eb _] & Hb%Forall2_nil_inv_l & ->). subst bs. eapply whole_carries; try done.
    pose proof (outgoing_size _ _ _ _ Hout Ew). lia.
  - assert (numbered (ls_lastSeqNo s) frags = (assignSequences (ls_lastSeqNo s) frags).2) as Enum by (unfold numbered; by destruct frags as [|p [|]]).
    rewrite Enum in Hb. eapply fragments_carry; try done. lia.
Qed.
End receiver.
