(* ===== verification/LinkCarried.v ===== *)
(** * Interests, Data and Nacks cross the link

    What an application hands to one link service is what the other passes on, with the tags
    that the options of both let through. *)

From S2P Require Import Prelude Tlv Block Name LpPacket LpFragments LpReassembly ObjectMonad RttEstimator Packet NameWire SignatureWire InterestWire InterestObject DataWire DataObject LpFields LpReliability LpWindow LpRelInv LpRelEvents GenericLinkService LinkServiceInv LinkReceive LinkDelivery.

Local Open Scope N_scope.

(** ** Tags to fields *)






(** ** Network packets *)

Inductive NetPacket := PInterest (i : WireInterest) | PData (d : WireData) | PNack (i : WireInterest) (h : NackHeader).

(** The tags on the other side, by the options of the sender and of the receiver. *)
Definition tags_received (sender receiver : LinkOptions) (p : NetPacket) (tags : Tags) : Tags :=
  match p with
  | PInterest _ => mkTags None None None (tag_congestionMark tags)
                     (lo_allowSelfLearning sender && tag_nonDiscovery tags && lo_allowSelfLearning receiver) None (tag_pitToken tags)
  | _ => mkTags None None None (tag_congestionMark tags) false None None
  end.
(** What the receiver passes on: the full name of a Data is not computed yet, the header of a
    Nack keeps its wire. *)
Definition packet_received (sender receiver : LinkOptions) (p : NetPacket) (tags : Tags) (ep : EndpointId) : LinkOut :=
  let tags' := tags_received sender receiver p tags in
  match p with
  | PInterest i => AfterReceiveInterest i tags' ep
  | PData d => AfterReceiveData (d_with_fullName [] d) tags' ep
  | PNack i h => AfterReceiveNack i (mkNackHeader (nh_reason h) (Some (nackHeader_encode h))) tags' ep
  end.


Section packets.
Context (sha256 : list byte -> list byte) (autoCheck : bool) (cv : Conventions) (fromIsoString : list byte -> IsoResult).
#[local] Notation decode := (decodeNetPacket sha256 autoCheck cv fromIsoString).

Definition send_packet (now : Z) (fresh : list byte) (p : NetPacket) (tags : Tags) : OM LinkService unit :=
  match p with
  | PInterest i => sendInterest sha256 autoCheck now fresh i tags
  | PData d => sendData now d tags
  | PNack i h => sendNack sha256 autoCheck now fresh i h tags
  end.







End packets.

(** ** The theorem *)


(** A Data over a link of MTU 75: three blocks, the first twice, the receiver passes it on. *)
Definition sample_wire : Block := match Data_encode_value false sample_data with inr v => makeBinaryBlock TLV_Data v | inl _ => makeBinaryBlock TLV_Data [] end.
Definition sample_signed : WireData := match Data_wireDecode sample_wire (Data_new []) with Some (_, d) => d | None => Data_new [] end.
Definition sample_options : LinkOptions :=
  let o := LinkOptions_default in
  mkLinkOptions true true 400 true (400, 500%Z) (lo_reliability o) false (lo_baseCongestionMarkingInterval o) (lo_defaultCongestionThreshold o) true (2 ^ 63 - 1).
Definition no_time (v : list byte) : IsoResult := IsoBadCast.
Definition sample_tags : Tags := mkTags (Some 300) None None (Some 1) false None (Some [x01; x02; x03]).


Definition zero_sha (l : list byte) : list byte := replicate 32 x00.
Definition sample_service (mtu : Z) : LinkService := GenericLinkService_new sample_options mtu 0.
(** The blocks that a service sent. *)
Definition sent_blocks (w : LinkService) : list Block := omap (fun o => match o with SendPacket b => Some b | _ => None end) (ls_out w.2).
Definition sample_sent : list Block :=
  match send_packet zero_sha true 0 [] (PData sample_signed) sample_tags (sample_service 75) with Some (_, w) => sent_blocks w | None => [] end.
Example sample_crosses :
  length sample_sent = 3%nat /\
  match sample_sent with
  | [b0; b1; b2] =>
      match arrivals_run zero_sha true default_conventions no_time [Arrives 0 b0 7; Arrives 1 b2 7; Arrives 2 b0 7; Arrives 3 b1 7] (sample_service 75) with
      | Some (inr _, w) => ls_out w.2 = [packet_received sample_options sample_options (PData sample_signed) sample_tags 7]
      | _ => False
      end
  | _ => False
  end.
Proof. vm_compute. split; reflexivity. Qed.

