(* ===== verification/RibEntry.v ===== *)
(** * RIB entries (daemon/rib/route.hpp, rib-entry.cpp)

    Routes and the entries that hold those of one prefix. An entry knows its parent and its
    children in the RIB by name, and has the routes it inherits beside its own. An event is
    the identifier of a scheduled expiration. Prefix announcements are not modelled. *)

From S2P Require Import Prelude Name.

Local Open Scope N_scope.

Definition ROUTE_FLAG_CHILD_INHERIT : N := 1.
Definition ROUTE_FLAG_CAPTURE : N := 2.

Record Route := mkRoute {
  rt_faceId : N;
  rt_origin : N;
  rt_cost : N;
  rt_flags : N;
  rt_expires : option Z;
  rt_event : option N;
}.

#[global] Instance Route_eq_dec : EqDecision Route.
Proof. solve_decision. Defined.

Definition isChildInherit (r : Route) : bool := negb (N.land (rt_flags r) ROUTE_FLAG_CHILD_INHERIT =? 0).
Definition isRibCapture (r : Route) : bool := negb (N.land (rt_flags r) ROUTE_FLAG_CAPTURE =? 0).
Definition compareFaceIdAndOrigin (x y : Route) : bool := (rt_faceId x =? rt_faceId y) && (rt_origin x =? rt_origin y).
Definition compareFaceId (r : Route) (faceId : N) : bool := rt_faceId r =? faceId.

Record RibEntry := mkRibEntry {
  re_id : N;                       (* the object, against another of the same name *)
  re_parent : option Name;
  re_children : list Name;
  re_routes : list Route;
  re_inherited : list Route;
  re_nCapture : N;                 (* m_nRoutesWithCaptureSet, uint64_t *)
}.

Definition RibEntry_new (id : N) : RibEntry := mkRibEntry id None [] [] [] 0.

Definition re_set_parent p e := mkRibEntry (re_id e) p (re_children e) (re_routes e) (re_inherited e) (re_nCapture e).
Definition re_set_children l e := mkRibEntry (re_id e) (re_parent e) l (re_routes e) (re_inherited e) (re_nCapture e).
Definition re_set_routes l e := mkRibEntry (re_id e) (re_parent e) (re_children e) l (re_inherited e) (re_nCapture e).
Definition re_set_inherited l e := mkRibEntry (re_id e) (re_parent e) (re_children e) (re_routes e) l (re_nCapture e).
Definition re_set_nCapture n e := mkRibEntry (re_id e) (re_parent e) (re_children e) (re_routes e) (re_inherited e) n.

Definition findRoute (route : Route) (e : RibEntry) : option Route := List.find (fun r => compareFaceIdAndOrigin r route) (re_routes e).
Definition hasFaceId (e : RibEntry) (faceId : N) : bool := existsb (fun r => compareFaceId r faceId) (re_routes e).
Definition hasCapture (e : RibEntry) : bool := 0 <? re_nCapture e.
Definition getNRoutes (e : RibEntry) : nat := length (re_routes e).

Definition insertRoute (route : Route) (e : RibEntry) : RibEntry * bool :=
  match findRoute route e with
  | Some _ => (e, false)
  | None =>
      let e := if isRibCapture route then re_set_nCapture ((re_nCapture e + 1) mod 2 ^ 64) e else e in
      (re_set_routes (re_routes e ++ [route]) e, true)
  end.
(** [erase] through the iterator that [findRoute] gives; the event that is cancelled. *)
Fixpoint erase_first (route : Route) (l : list Route) : list Route :=
  match l with
  | [] => []
  | r :: l => if compareFaceIdAndOrigin r route then l else r :: erase_first route l
  end.
Definition eraseRoute (route : Route) (e : RibEntry) : RibEntry * option N :=
  match findRoute route e with
  | None => (e, None)
  | Some r =>
      let e := if isRibCapture r then re_set_nCapture ((re_nCapture e + (2 ^ 64 - 1)) mod 2 ^ 64) e else e in
      (re_set_routes (erase_first route (re_routes e)) e, rt_event r)
  end.
(** [*it = route], for the iterator that [findRoute] gives. *)
Fixpoint assign_first (route : Route) (l : list Route) : list Route :=
  match l with
  | [] => []
  | r :: l => if compareFaceIdAndOrigin r route then route :: l else r :: assign_first route l
  end.

Definition addInheritedRoute (route : Route) (e : RibEntry) : RibEntry := re_set_inherited (re_inherited e ++ [route]) e.
Definition removeInheritedRoute (route : Route) (e : RibEntry) : RibEntry :=
  re_set_inherited (List.filter (fun r => negb (compareFaceId r (rt_faceId route))) (re_inherited e)) e.
Definition hasInheritedRoute (e : RibEntry) (route : Route) : bool := existsb (fun r => compareFaceId r (rt_faceId route)) (re_inherited e).
Definition hasChildInheritOnFaceId (e : RibEntry) (faceId : N) : bool :=
  existsb (fun r => (rt_faceId r =? faceId) && isChildInherit r) (re_routes e).

(** The least cost among the routes that a test selects; the first of equals. *)
Fixpoint lowest_cost (sel : Route -> bool) (l : list Route) (candidate : option Route) : option Route :=
  match l with
  | [] => candidate
  | r :: l =>
      lowest_cost sel l
        (if sel r then match candidate with
                       | None => Some r
                       | Some c => if rt_cost r <? rt_cost c then Some r else candidate
                       end
         else candidate)
  end.
Definition getRouteWithLowestCostByFaceId (e : RibEntry) (faceId : N) : option Route :=
  lowest_cost (fun r => rt_faceId r =? faceId) (re_routes e) None.
Definition getRouteWithLowestCostAndChildInheritByFaceId (e : RibEntry) (faceId : N) : option Route :=
  lowest_cost (fun r => (rt_faceId r =? faceId) && isChildInherit r) (re_routes e) None.
(** The second of the routes on the face in the order of cost; [nth_element] may take any of
    those of equal cost, this takes the later one. *)
Fixpoint insert_by_cost (r : Route) (l : list Route) : list Route :=
  match l with
  | [] => [r]
  | x :: l' => if rt_cost r <? rt_cost x then r :: l else x :: insert_by_cost r l'
  end.
Definition getRouteWithSecondLowestCostByFaceId (e : RibEntry) (faceId : N) : option Route :=
  let matches := List.filter (fun r => rt_faceId r =? faceId) (re_routes e) in
  if (length matches <? 2)%nat then None else fold_right insert_by_cost [] (rev matches) !! 1%nat.
