(* ===== verification/RibLookup.v ===== *)
(** * Looking into the RIB (daemon/rib/rib.cpp)

    The table of entries by prefix in the order of names, parents and descendants, and the routes
    that ancestors give. *)

From S2P Require Import Prelude Name Tlv RibEntry.

Local Open Scope N_scope.

Abbreviation RibTable := (gmap Name RibEntry).

(** ** Looking into the table *)

(** The names in the order of [std::map]. *)
Fixpoint insert_name (n : Name) (l : list Name) : list Name :=
  match l with
  | [] => [n]
  | m :: l' => match Name_cmp n m with Lt => n :: l | Eq => l | Gt => m :: insert_name n l' end
  end.
Definition names_of (t : RibTable) : list Name := fold_right insert_name [] (fst <$> map_to_list t).

(** [findParent]: the loop from the longest proper prefix, [getPrefix(size - 1)], to the
    empty name. *)
Fixpoint findParent_loop (t : RibTable) (prefix : Name) (i : nat) : option Name :=
  let n := take i prefix in
  match t !! n with
  | Some _ => Some n
  | None => match i with O => None | S i => findParent_loop t prefix i end
  end.
Definition findParent (t : RibTable) (prefix : Name) : option Name :=
  match length prefix with O => None | S i => findParent_loop t prefix i end.

Definition rib_find (t : RibTable) (prefix : Name) (route : Route) : option Route := e ← t !! prefix; findRoute route e.
(** The prefix itself, or its parent; no further up. *)
Definition findLongestPrefix (t : RibTable) (prefix : Name) (route : Route) : option Route :=
  match rib_find t prefix route with
  | Some r => Some r
  | None => p ← findParent t prefix; rib_find t p route
  end.

(** The names after that of an entry, as long as they are below it. *)
Fixpoint after_name (n : Name) (l : list Name) : list Name :=
  match l with [] => [] | m :: l => if Name_equals m n then l else after_name n l end.
Fixpoint take_below (n : Name) (l : list Name) : list Name :=
  match l with [] => [] | m :: l => if isPrefixOf n m then m :: take_below n l else [] end.
Definition findDescendants (t : RibTable) (prefix : Name) : list Name := take_below prefix (after_name prefix (names_of t)).
Definition findDescendantsForNonInsertedName (t : RibTable) (prefix : Name) : list Name := List.filter (isPrefixOf prefix) (names_of t).

(** [RouteSet]: ordered by face; inserting does not replace. *)
Abbreviation RouteSet := (list Route).
Fixpoint rs_insert (r : Route) (s : RouteSet) : RouteSet :=
  match s with
  | [] => [r]
  | x :: s' => if rt_faceId r <? rt_faceId x then r :: s else if rt_faceId r =? rt_faceId x then s else x :: rs_insert r s'
  end.
Definition rs_find (r : Route) (s : RouteSet) : option Route := List.find (fun x => rt_faceId x =? rt_faceId r) s.
Definition rs_erase (r : Route) (s : RouteSet) : RouteSet := List.filter (fun x => negb (rt_faceId x =? rt_faceId r)) s.

(** [getAncestorRoutes], from an ancestor up; each parent is shorter. *)
Definition insert_inheritable (s : RouteSet) (routes : list Route) : RouteSet :=
  fold_left (fun s r => if isChildInherit r then rs_insert r s else s) routes s.
Fixpoint ancestor_loop (fuel : nat) (t : RibTable) (parent : option Name) (s : RouteSet) : RouteSet :=
  match fuel, parent with
  | S fuel, Some p =>
      match t !! p with
      | None => s
      | Some e => let s := insert_inheritable s (re_routes e) in
                  if hasCapture e then s else ancestor_loop fuel t (re_parent e) s
      end
  | _, _ => s
  end.
Definition getAncestorRoutes (t : RibTable) (name : Name) (e : RibEntry) : RouteSet := ancestor_loop (S (length name)) t (re_parent e) [].
Definition getAncestorRoutes_name (t : RibTable) (name : Name) : RouteSet := ancestor_loop (S (length name)) t (findParent t name) [].
