(* ===== verification/FibUpdater.v ===== *)
(** * What an update of the RIB changes in the FIB (daemon/rib/fib-updater.cpp)

    The updater collects commands, at most one for a name and a face, and changes to the
    inherited routes of entries. A [None] is a null pointer that is followed. *)

From S2P Require Import Prelude Name Tlv RibEntry RibLookup.

Local Open Scope N_scope.

Inductive Action := REGISTER | UNREGISTER | REMOVE_FACE.
#[global] Instance Action_eq_dec : EqDecision Action.
Proof. solve_decision. Defined.
Record RibUpdate := mkRibUpdate { ru_action : Action; ru_name : Name; ru_route : Route }.

Inductive FibAction := ADD_NEXTHOP | REMOVE_NEXTHOP.
#[global] Instance FibAction_eq_dec : EqDecision FibAction.
Proof. solve_decision. Defined.
Record FibUpdate := mkFibUpdate { fu_name : Name; fu_faceId : N; fu_cost : N; fu_action : FibAction }.
#[global] Instance FibUpdate_eq_dec : EqDecision FibUpdate.
Proof. solve_decision. Defined.
Definition createAddUpdate (name : Name) (faceId cost : N) : FibUpdate := mkFibUpdate name faceId cost ADD_NEXTHOP.
Definition createRemoveUpdate (name : Name) (faceId : N) : FibUpdate := mkFibUpdate name faceId 0 REMOVE_NEXTHOP.

(** ** Computing updates *)

Record Updater := mkUpdater {
  up_batchFaceId : N;
  up_batch : list FibUpdate;           (* m_updatesForBatchFaceId *)
  up_nonBatch : list FibUpdate;        (* m_updatesForNonBatchFaceId *)
  up_inherited : list RibUpdate;       (* m_inheritedRoutes *)
}.

(** [addFibUpdate]: one update for a name and a face. *)
Fixpoint put_update (u : FibUpdate) (l : list FibUpdate) : list FibUpdate :=
  match l with
  | [] => [u]
  | x :: l => if Name_equals (fu_name u) (fu_name x) && (fu_faceId u =? fu_faceId x)
              then mkFibUpdate (fu_name x) (fu_faceId x) (fu_cost u) (fu_action u) :: l
              else x :: put_update u l
  end.
Definition addFibUpdate (u : FibUpdate) (p : Updater) : Updater :=
  if fu_faceId u =? up_batchFaceId p
  then mkUpdater (up_batchFaceId p) (put_update u (up_batch p)) (up_nonBatch p) (up_inherited p)
  else mkUpdater (up_batchFaceId p) (up_batch p) (put_update u (up_nonBatch p)) (up_inherited p).
Definition addInherited (name : Name) (route : Route) (p : Updater) : Updater :=
  mkUpdater (up_batchFaceId p) (up_batch p) (up_nonBatch p) (up_inherited p ++ [mkRibUpdate REGISTER name route]).
Definition removeInherited (name : Name) (route : Route) (p : Updater) : Updater :=
  mkUpdater (up_batchFaceId p) (up_batch p) (up_nonBatch p) (up_inherited p ++ [mkRibUpdate UNREGISTER name route]).

Definition addInheritedRoutes (name : Name) (skip : N -> bool) (routesToAdd : RouteSet) (p : Updater) : Updater :=
  fold_left (fun p r => if skip (rt_faceId r) then p
                        else addFibUpdate (createAddUpdate name (rt_faceId r) (rt_cost r)) (addInherited name r p)) routesToAdd p.
Definition removeInheritedRoutes (name : Name) (e : RibEntry) (routesToRemove : RouteSet) (p : Updater) : Updater :=
  fold_left (fun p r => if hasInheritedRoute e r
                        then addFibUpdate (createRemoveUpdate name (rt_faceId r)) (removeInherited name r p) else p) routesToRemove p.

(** [traverseSubTree]: the two loops, with the routes that go on to the children. *)
Fixpoint remove_pass (name : Name) (e : RibEntry) (routes : RouteSet) (p : Updater) : RouteSet * Updater :=
  match routes with
  | [] => ([], p)
  | r :: routes =>
      if hasChildInheritOnFaceId e (rt_faceId r) then remove_pass name e routes p
      else let p := if hasInheritedRoute e r then addFibUpdate (createRemoveUpdate name (rt_faceId r)) (removeInherited name r p) else p in
           let '(rest, p) := remove_pass name e routes p in (r :: rest, p)
  end.
Fixpoint add_pass (name : Name) (e : RibEntry) (routes : RouteSet) (p : Updater) : RouteSet * Updater :=
  match routes with
  | [] => ([], p)
  | r :: routes =>
      if hasChildInheritOnFaceId e (rt_faceId r) then add_pass name e routes p
      else let p := if negb (hasFaceId e (rt_faceId r)) then addFibUpdate (createAddUpdate name (rt_faceId r) (rt_cost r)) (addInherited name r p) else p in
           let '(rest, p) := add_pass name e routes p in (r :: rest, p)
  end.
Fixpoint traverseSubTree (fuel : nat) (t : RibTable) (name : Name) (routesToAdd routesToRemove : RouteSet) (p : Updater) : Updater :=
  match fuel, t !! name with
  | S fuel, Some e =>
      if hasCapture e then p
      else
        let '(routesToRemove, p) := remove_pass name e routesToRemove p in
        let '(routesToAdd, p) := add_pass name e routesToAdd p in
        fold_left (fun p child => traverseSubTree fuel t child routesToAdd routesToRemove p) (re_children e) p
  | _, _ => p
  end.
Definition modifyChildrensInheritedRoutes (t : RibTable) (children : list Name) (routesToAdd routesToRemove : RouteSet) (p : Updater) : Updater :=
  fold_left (fun p child => traverseSubTree (S (size t)) t child routesToAdd routesToRemove p) children p.

Definition createFibUpdatesForNewRibEntry (t : RibTable) (name : Name) (route : Route) (children : list Name) (p : Updater) : Updater :=
  let p := addFibUpdate (createAddUpdate name (rt_faceId route) (rt_cost route)) p in
  let ancestorRoutes := getAncestorRoutes_name t name in
  let same_face f := f =? rt_faceId route in
  match isChildInherit route, isRibCapture route with
  | false, false => addInheritedRoutes name same_face ancestorRoutes p
  | true, true => modifyChildrensInheritedRoutes t children (rs_insert route []) ancestorRoutes p
  | true, false =>
      let p := addInheritedRoutes name same_face ancestorRoutes p in
      modifyChildrensInheritedRoutes t children (rs_insert route (rs_erase route ancestorRoutes)) [] p
  | false, true => modifyChildrensInheritedRoutes t children [] ancestorRoutes p
  end.
Definition cost_at_most (r : Route) (o : option Route) : bool := match o with None => true | Some x => rt_cost r <=? rt_cost x end.
Definition createFibUpdatesForNewRoute (t : RibTable) (name : Name) (e : RibEntry) (route : Route) (captureWasTurnedOn : bool) (p : Updater) : Updater :=
  let prevRoute := getRouteWithLowestCostAndChildInheritByFaceId e (rt_faceId route) in
  let routesToAdd := if isChildInherit route && cost_at_most route prevRoute then rs_insert route [] else [] in
  let routesToRemove := if captureWasTurnedOn then getAncestorRoutes t name e else [] in
  let p := if captureWasTurnedOn then removeInheritedRoutes name e routesToRemove p else p in
  let p := modifyChildrensInheritedRoutes t (re_children e) routesToAdd routesToRemove p in
  if cost_at_most route (getRouteWithLowestCostByFaceId e (rt_faceId route))
  then addFibUpdate (createAddUpdate name (rt_faceId route) (rt_cost route)) p else p.
(** Following a null pointer is [None]. *)
Definition createFibUpdatesForUpdatedRoute (t : RibTable) (name : Name) (e : RibEntry) (route existingRoute : Route) (p : Updater) : option Updater :=
  let costDidChange := negb (rt_cost route =? rt_cost existingRoute) in
  let sameFlags := rt_flags route =? rt_flags existingRoute in
  let prevRoute := getRouteWithLowestCostAndChildInheritByFaceId e (rt_faceId route) in
  let children := modifyChildrensInheritedRoutes t (re_children e) in
  if sameFlags && negb costDidChange then Some p
  else
    '(returned, p) ← (
      if costDidChange then
        lowest ← getRouteWithLowestCostByFaceId e (rt_faceId route);
        p ← (if rt_cost route <=? rt_cost lowest then Some (addFibUpdate (createAddUpdate name (rt_faceId route) (rt_cost route)) p)
             else if rt_cost existingRoute <? rt_cost lowest then
               prev ← prevRoute; Some (addFibUpdate (createAddUpdate name (rt_faceId prev) (rt_cost prev)) p)
             else Some p);
        if cost_at_most route prevRoute && sameFlags && isChildInherit route
        then Some (true, children (rs_insert route []) [] p) else Some (false, p)
      else Some (false, p));
    if returned : bool then Some p
    else
      let p :=
        if negb (isChildInherit existingRoute) && isChildInherit route then
          (if cost_at_most route prevRoute then children (rs_insert route []) [] p else p)
        else if isChildInherit existingRoute && negb (isChildInherit route) then
          let routesToAdd := match prevRoute with
                             | Some prev => rs_insert prev []
                             | None => match rs_find route (getAncestorRoutes t name e) with Some r => rs_insert r [] | None => [] end
                             end in
          children routesToAdd (rs_insert route []) p
        else p in
      let ancestorRoutes := getAncestorRoutes t name e in
      Some (if negb (isRibCapture existingRoute) && isRibCapture route then
              children [] ancestorRoutes (removeInheritedRoutes name e ancestorRoutes p)
            else if isRibCapture existingRoute && negb (isRibCapture route) then
              children ancestorRoutes [] (addInheritedRoutes name (hasFaceId e) ancestorRoutes p)
            else p).
Definition createFibUpdatesForErasedRoute (t : RibTable) (name : Name) (e : RibEntry) (route : Route) (captureWasTurnedOff : bool) (p : Updater) : Updater :=
  let p := addFibUpdate (createRemoveUpdate name (rt_faceId route)) p in
  let ancestorRoutes := getAncestorRoutes t name e in
  let children := modifyChildrensInheritedRoutes t (re_children e) in
  let uncovered := captureWasTurnedOff && negb (getNRoutes e =? 0)%nat in
  let '(uncoveredRoutes, q) := if uncovered then (ancestorRoutes, addInheritedRoutes name (hasFaceId e) ancestorRoutes p) else ([], p) in
  let p :=
    match isChildInherit route, isRibCapture route with
    | true, true => children uncoveredRoutes (rs_insert route []) q
    | true, false => children (if negb (hasCapture e) then ancestorRoutes else []) (rs_insert route []) p
    | false, true => children uncoveredRoutes [] q
    | false, false => p
    end in
  if negb (hasCapture e) && negb (getNRoutes e =? 0)%nat then
    match rs_find route ancestorRoutes with
    | Some r => addFibUpdate (createAddUpdate name (rt_faceId r) (rt_cost r)) (addInherited name r p)
    | None => p
    end
  else p.
Definition createFibUpdatesForErasedRibEntry (name : Name) (e : RibEntry) (p : Updater) : Updater :=
  fold_left (fun p r => addFibUpdate (createRemoveUpdate name (rt_faceId r)) p) (re_inherited e) p.

Definition computeUpdatesForRegistration (t : RibTable) (prefix : Name) (route : Route) (p : Updater) : option Updater :=
  match t !! prefix with
  | Some e =>
      match findRoute route e with
      | None => Some (createFibUpdatesForNewRoute t prefix e route (negb (hasCapture e) && isRibCapture route) p)
      | Some existing =>
          let updated := mkRoute (rt_faceId existing) (rt_origin existing) (rt_cost route) (rt_flags route) (rt_expires route) (rt_event existing) in
          createFibUpdatesForUpdatedRoute t prefix (re_set_routes (assign_first updated (re_routes e)) e) route existing p
      end
  | None =>
      let parent := findParent t prefix in
      let children := List.filter (fun d => match t !! d with Some e => bool_decide (re_parent e = parent) | None => false end)
                        (findDescendantsForNonInsertedName t prefix) in
      Some (createFibUpdatesForNewRibEntry t prefix route children p)
  end.
(** With the event that erasing the route in the copy cancels. *)
Definition computeUpdatesForUnregistration (t : RibTable) (prefix : Name) (route : Route) (p : Updater) : Updater * option N :=
  match t !! prefix with
  | None => (p, None)
  | Some e =>
      match findRoute route e with
      | None => (p, None)
      | Some existing =>
          let '(temp, event) := eraseRoute route e in
          let p := createFibUpdatesForErasedRoute t prefix temp existing (hasCapture e && negb (hasCapture temp)) p in
          let p := match getRouteWithSecondLowestCostByFaceId e (rt_faceId route) with
                   | Some next => createFibUpdatesForNewRoute t prefix temp next false p
                   | None => p
                   end in
          let p := if (getNRoutes e =? 1)%nat then createFibUpdatesForErasedRibEntry prefix e p else p in
          (p, event)
      end
  end.
