(* ===== verification/Rib.v ===== *)
(** * The RIB (daemon/rib/rib.cpp, fib-updater.cpp)

    The table of entries as a tree of prefixes, the queue of updates of which one is in
    progress, and the commands that an update sends. Replies to commands are events; a reply
    carries the update and the callbacks it was bound to. A [None] is a failed assertion or a
    null pointer that is followed. *)

From S2P Require Import Prelude Name Tlv ObjectMonad RibEntry RibLookup FibUpdater.

Local Open Scope N_scope.

(** ** The RIB *)

(** The callbacks of the manager, by identifier. *)
Record QueueItem := mkQueueItem { qi_update : RibUpdate; qi_callback : option N }.

Inductive RibOut :=
  | AfterInsertEntry (name : Name)
  | AfterEraseEntry (name : Name)
  | AfterAddRoute (name : Name) (route : Route)
  | BeforeRemoveRoute (name : Name) (route : Route)
  | SendAddNextHop (u : FibUpdate) (item : QueueItem) (nTimeouts : N)
  | SendRemoveNextHop (u : FibUpdate) (item : QueueItem) (nTimeouts : N)
  | CallSuccess (callback : option N)
  | CallFailure (callback : option N) (code : N).

Record Rib := mkRib {
  rb_table : RibTable;
  rb_faceEntries : list (N * (Name * N));   (* multimap of entries, by face *)
  rb_nItems : N;
  rb_queue : list QueueItem;                (* m_updateBatches, of one update each *)
  rb_inProgress : bool;
  rb_updater : Updater;
  rb_events : gset N;                       (* expirations that are scheduled *)
  rb_nextId : N;
  rb_out : list RibOut;
}.

Definition Rib_empty : Rib := mkRib ∅ [] 0 [] false (mkUpdater 0 [] [] []) ∅ 0 [].

Abbreviation RM := (OM Rib).
Definition on_table (f : RibTable -> RibTable) (s : Rib) : Rib := mkRib (f (rb_table s)) (rb_faceEntries s) (rb_nItems s) (rb_queue s) (rb_inProgress s) (rb_updater s) (rb_events s) (rb_nextId s) (rb_out s).
Definition on_faceEntries f (s : Rib) : Rib := mkRib (rb_table s) (f (rb_faceEntries s)) (rb_nItems s) (rb_queue s) (rb_inProgress s) (rb_updater s) (rb_events s) (rb_nextId s) (rb_out s).
Definition on_nItems f (s : Rib) : Rib := mkRib (rb_table s) (rb_faceEntries s) (f (rb_nItems s)) (rb_queue s) (rb_inProgress s) (rb_updater s) (rb_events s) (rb_nextId s) (rb_out s).
Definition on_queue f (s : Rib) : Rib := mkRib (rb_table s) (rb_faceEntries s) (rb_nItems s) (f (rb_queue s)) (rb_inProgress s) (rb_updater s) (rb_events s) (rb_nextId s) (rb_out s).
Definition set_inProgress b (s : Rib) : Rib := mkRib (rb_table s) (rb_faceEntries s) (rb_nItems s) (rb_queue s) b (rb_updater s) (rb_events s) (rb_nextId s) (rb_out s).
Definition set_updater u (s : Rib) : Rib := mkRib (rb_table s) (rb_faceEntries s) (rb_nItems s) (rb_queue s) (rb_inProgress s) u (rb_events s) (rb_nextId s) (rb_out s).
Definition on_events f (s : Rib) : Rib := mkRib (rb_table s) (rb_faceEntries s) (rb_nItems s) (rb_queue s) (rb_inProgress s) (rb_updater s) (f (rb_events s)) (rb_nextId s) (rb_out s).
Definition set_nextId n (s : Rib) : Rib := mkRib (rb_table s) (rb_faceEntries s) (rb_nItems s) (rb_queue s) (rb_inProgress s) (rb_updater s) (rb_events s) n (rb_out s).
Definition emit (o : RibOut) : RM unit :=
  modify (fun s => mkRib (rb_table s) (rb_faceEntries s) (rb_nItems s) (rb_queue s) (rb_inProgress s) (rb_updater s) (rb_events s) (rb_nextId s) (rb_out s ++ [o])).
Definition cancel (event : option N) : RM unit := match event with Some i => modify (on_events (fun E => E ∖ {[i]})) | None => mret tt end.
Fixpoint forM {S A} (l : list A) (f : A -> OM S unit) : OM S unit := match l with [] => mret tt | x :: l => f x;; forM l f end.

(** Entries of the table. *)
Definition the_entry (name : Name) : RM RibEntry := s ← get; match rb_table s !! name with Some e => mret e | None => assert false;; mret (RibEntry_new 0) end.
Definition put_entry (name : Name) (e : RibEntry) : RM unit := modify (on_table (<[name := e]>)).
Definition addChild (self child : Name) : RM unit :=
  c ← the_entry child;
  assert (bool_decide (re_parent c = None));;
  put_entry child (re_set_parent (Some self) c);;
  e ← the_entry self;
  put_entry self (re_set_children (re_children e ++ [child]) e).
Definition removeChild (self child : Name) : RM unit :=
  c ← the_entry child;
  assert (bool_decide (re_parent c = Some self));;
  put_entry child (re_set_parent None c);;
  e ← the_entry self;
  put_entry self (re_set_children (List.filter (fun n => negb (Name_equals n child)) (re_children e)) e).

(** [std::multimap]: after those of the same face. *)
Fixpoint emplace (f : N) (x : Name * N) (l : list (N * (Name * N))) : list (N * (Name * N)) :=
  match l with
  | [] => [(f, x)]
  | (g, y) :: l' => if f <? g then (f, x) :: l else (g, y) :: emplace f x l'
  end.
Fixpoint unregister (f : N) (x : Name * N) (l : list (N * (Name * N))) : list (N * (Name * N)) :=
  match l with
  | [] => []
  | (g, y) :: l => if (g =? f) && bool_decide (y = x) then l else (g, y) :: unregister f x l
  end.

Definition rib_insert (prefix : Name) (route : Route) : RM unit :=
  s ← get;
  match rb_table s !! prefix with
  | Some entry =>
      let '(entry', didInsert) := insertRoute route entry in
      if didInsert : bool then
        put_entry prefix entry';;
        modify (on_nItems (fun n => (n + 1) mod 2 ^ 64));;
        emit (AfterAddRoute prefix route);;
        modify (on_faceEntries (emplace (rt_faceId route) (prefix, re_id entry)))
      else
        match findRoute route entry with
        | Some old => cancel (rt_event old);; put_entry prefix (re_set_routes (assign_first route (re_routes entry)) entry)
        | None => mret tt
        end
  | None =>
      modify (set_nextId (rb_nextId s + 1));;
      modify (on_nItems (fun n => (n + 1) mod 2 ^ 64));;
      put_entry prefix (insertRoute route (RibEntry_new (rb_nextId s))).1;;
      let parent := findParent (rb_table s) prefix in
      match parent with Some p => addChild p prefix | None => mret tt end;;
      s1 ← get;
      forM (findDescendants (rb_table s1) prefix) (fun child =>
        c ← the_entry child;
        if bool_decide (re_parent c = parent) then
          match parent with Some p => removeChild p child | None => mret tt end;;
          addChild prefix child
        else mret tt);;
      modify (on_faceEntries (emplace (rt_faceId route) (prefix, rb_nextId s)));;
      emit (AfterInsertEntry prefix);;
      emit (AfterAddRoute prefix route)
  end.
Definition eraseEntry (prefix : Name) : RM unit :=
  entry ← the_entry prefix;
  let parent := re_parent entry in
  match parent with Some p => removeChild p prefix | None => mret tt end;;
  forM (re_children entry) (fun child =>
    removeChild prefix child;;
    match parent with Some p => addChild p child | None => mret tt end);;
  modify (on_table (delete prefix));;
  emit (AfterEraseEntry prefix).
Definition rib_erase (prefix : Name) (route : Route) : RM unit :=
  s ← get;
  match rb_table s !! prefix with
  | None => mret tt
  | Some entry =>
      match findRoute route entry with
      | None => mret tt
      | Some r =>
          emit (BeforeRemoveRoute prefix r);;
          let '(entry', event) := eraseRoute route entry in
          cancel event;;
          put_entry prefix entry';;
          modify (on_nItems (fun n => (n + (2 ^ 64 - 1)) mod 2 ^ 64));;
          (if negb (hasFaceId entry' (rt_faceId route)) then modify (on_faceEntries (unregister (rt_faceId route) (prefix, re_id entry))) else mret tt);;
          match re_routes entry' with [] => eraseEntry prefix | _ => mret tt end
      end
  end.
Definition modifyInheritedRoutes (l : list RibUpdate) : RM unit :=
  forM l (fun u =>
    e ← the_entry (ru_name u);
    match ru_action u with
    | REGISTER => put_entry (ru_name u) (addInheritedRoute (ru_route u) e)
    | UNREGISTER => put_entry (ru_name u) (removeInheritedRoute (ru_route u) e)
    | REMOVE_FACE => mret tt
    end).

(** ** The queue and the commands *)

Definition computeUpdates (u : RibUpdate) : RM unit :=
  s ← get;
  let fresh := mkUpdater (rt_faceId (ru_route u)) [] [] [] in
  match ru_action u with
  | REGISTER => match computeUpdatesForRegistration (rb_table s) (ru_name u) (ru_route u) fresh with
                | Some p => modify (set_updater p)
                | None => assert false
                end
  | UNREGISTER => let '(p, event) := computeUpdatesForUnregistration (rb_table s) (ru_name u) (ru_route u) fresh in
                  cancel event;; modify (set_updater p)
  | REMOVE_FACE => let '(p, event) := computeUpdatesForUnregistration (rb_table s) (ru_name u) (ru_route u) fresh in
                   cancel event;; modify (set_updater (mkUpdater (up_batchFaceId p) [] (up_nonBatch p) (up_inherited p)))
  end.
Definition sendUpdates (l : list FibUpdate) (item : QueueItem) : RM unit :=
  forM l (fun u => match fu_action u with ADD_NEXTHOP => emit (SendAddNextHop u item 0) | REMOVE_NEXTHOP => emit (SendRemoveNextHop u item 0) end).

(** [sendBatchFromQueue], [onFibUpdateSuccess] and [sendUpdatesForNonBatchFaceId] call each
    other: an update that changes nothing in the FIB is applied at once and the next is taken.
    Each turn takes one update off the queue. *)
Definition applyUpdate (u : RibUpdate) : RM unit :=
  match ru_action u with
  | REGISTER => rib_insert (ru_name u) (ru_route u)
  | UNREGISTER | REMOVE_FACE => rib_erase (ru_name u) (ru_route u)
  end.
Definition onFibUpdateSuccess (next : RM unit) (item : QueueItem) : RM unit :=
  s ← get;
  applyUpdate (qi_update item);;
  modifyInheritedRoutes (up_inherited (rb_updater s));;
  modify (set_inProgress false);;
  emit (CallSuccess (qi_callback item));;
  next.
Definition sendUpdatesForNonBatchFaceId (next : RM unit) (item : QueueItem) : RM unit :=
  s ← get;
  match up_nonBatch (rb_updater s) with
  | [] => onFibUpdateSuccess next item
  | l => sendUpdates l item
  end.
Definition computeAndSendFibUpdates (next : RM unit) (item : QueueItem) : RM unit :=
  computeUpdates (qi_update item);;
  s ← get;
  match up_batch (rb_updater s) with
  | [] => sendUpdatesForNonBatchFaceId next item
  | l => sendUpdates l item
  end.
Fixpoint sendBatchFromQueue_loop (fuel : nat) : RM unit :=
  s ← get;
  match fuel, rb_queue s with
  | S fuel, item :: rest =>
      if rb_inProgress s then mret tt
      else modify (set_inProgress true);;
           modify (on_queue (fun _ => rest));;
           computeAndSendFibUpdates (sendBatchFromQueue_loop fuel) item
  | _, _ => mret tt
  end.
Definition sendBatchFromQueue : RM unit := s ← get; sendBatchFromQueue_loop (length (rb_queue s)).
Definition onFibUpdateFailure (item : QueueItem) (code : N) : RM unit :=
  modify (set_inProgress false);; emit (CallFailure (qi_callback item) code);; sendBatchFromQueue.

Definition addUpdateToQueue (u : RibUpdate) (callback : option N) : RM unit := modify (on_queue (fun q => q ++ [mkQueueItem u callback])).
Definition beginApplyUpdate (u : RibUpdate) (callback : option N) : RM unit := addUpdateToQueue u callback;; sendBatchFromQueue.
(** An entry that was erased has no routes left. *)
Definition enqueueRemoveFace (ptr : Name * N) (faceId : N) : RM unit :=
  s ← get;
  match rb_table s !! ptr.1 with
  | Some e => if re_id e =? ptr.2
              then forM (List.filter (fun r => rt_faceId r =? faceId) (re_routes e)) (fun r => addUpdateToQueue (mkRibUpdate REMOVE_FACE ptr.1 r) None)
              else mret tt
  | None => mret tt
  end.
Definition beginRemoveFace (faceId : N) : RM unit :=
  s ← get;
  forM (List.filter (fun x => x.1 =? faceId) (rb_faceEntries s)) (fun x => enqueueRemoveFace x.2 faceId);;
  sendBatchFromQueue.
Definition beginRemoveFailedFaces (activeFaceIds : list N) : RM unit :=
  s ← get;
  forM (List.filter (fun x => negb (existsb (N.eqb x.1) activeFaceIds)) (rb_faceEntries s)) (fun x => enqueueRemoveFace x.2 x.1);;
  sendBatchFromQueue.
Definition onRouteExpiration (prefix : Name) (route : Route) : RM unit := beginApplyUpdate (mkRibUpdate UNREGISTER prefix route) None.

(** Replies of the forwarder to a command. *)
Definition MAX_NUM_TIMEOUTS : N := 10.
Definition ERROR_FACE_NOT_FOUND : N := 410.
Definition ERROR_TIMEOUT : N := 10060.
Definition remove_update (u : FibUpdate) (l : list FibUpdate) : list FibUpdate := List.filter (fun x => negb (bool_decide (x = u))) l.
Definition remove_batch u p := mkUpdater (up_batchFaceId p) (remove_update u (up_batch p)) (up_nonBatch p) (up_inherited p).
Definition remove_nonBatch u p := mkUpdater (up_batchFaceId p) (up_batch p) (remove_update u (up_nonBatch p)) (up_inherited p).
Definition after_nonBatch (u : FibUpdate) (item : QueueItem) : RM unit :=
  modify (fun s => set_updater (remove_nonBatch u (rb_updater s)) s);;
  s ← get;
  match up_nonBatch (rb_updater s) with [] => onFibUpdateSuccess sendBatchFromQueue item | _ => mret tt end.
Definition onUpdateSuccess (u : FibUpdate) (item : QueueItem) : RM unit :=
  s ← get;
  if fu_faceId u =? up_batchFaceId (rb_updater s) then
    modify (fun s => set_updater (remove_batch u (rb_updater s)) s);;
    s ← get;
    match up_batch (rb_updater s) with [] => sendUpdatesForNonBatchFaceId sendBatchFromQueue item | _ => mret tt end
  else after_nonBatch u item.
(** Any other error is thrown. *)
Definition onUpdateError (u : FibUpdate) (item : QueueItem) (code nTimeouts : N) : RM unit :=
  if (code =? ERROR_TIMEOUT) && (nTimeouts <? MAX_NUM_TIMEOUTS) then emit (SendAddNextHop u item (nTimeouts + 1))
  else if code =? ERROR_FACE_NOT_FOUND then
    s ← get;
    if fu_faceId u =? up_batchFaceId (rb_updater s) then onFibUpdateFailure item code else after_nonBatch u item
  else throw (OtherError code).
