(* ===== verification/RibTree.v ===== *)
(** * The tree of the RIB (daemon/rib/rib.cpp)

    Every entry is linked to the entry of its longest registered proper prefix and to exactly
    those whose longest it is; inserting and erasing routes keep this and fail no assertion. *)

From S2P Require Import Prelude Name Tlv ObjectMonad RibEntry RibLookup FibUpdater Rib.

(** ** Names in the order of the table *)

Lemma isPrefixOf_spec_eq n m : isPrefixOf n m = bool_decide (n `prefix_of` m).
Proof. apply Bool.eq_iff_eq_true. by rewrite isPrefixOf_spec, bool_decide_eq_true. Qed.

Lemma prefix_below (p x n : Name) : Name_cmp p x = Lt -> Name_cmp x n <> Gt -> p `prefix_of` n -> p `prefix_of` x.
Proof.
  revert x n. induction p as [|c p IH]; intros x n Hpx Hxn Hn; [apply prefix_nil|].
  destruct n as [|d n]; [by apply prefix_nil_not in Hn|]. pose proof (prefix_cons_inv_1 _ _ _ _ Hn) as ->. apply prefix_cons_inv_2 in Hn.
  destruct x as [|e x]; [done|]. cbn [Name_cmp] in *. destruct (comp_cmp d e) eqn:E.
  - apply cmp_eq in E as ->. rewrite cmp_refl in Hxn. apply prefix_cons. by eapply IH.
  - exfalso. apply (cmp_gt_lt (cmp:=comp_cmp)) in E. by rewrite E in Hxn.
  - done.
Qed.
Lemma prefix_le (p n : Name) : p `prefix_of` n -> Name_cmp p n <> Gt.
Proof.
  revert n. induction p as [|c p IH]; intros n Hn; [by destruct n|]. destruct n as [|d n]; [by apply prefix_nil_not in Hn|].
  pose proof (prefix_cons_inv_1 _ _ _ _ Hn) as ->. apply prefix_cons_inv_2 in Hn. cbn [Name_cmp]. rewrite cmp_refl. auto.
Qed.
Lemma prefix_lt (p n : Name) : p `prefix_of` n -> p <> n -> Name_cmp p n = Lt.
Proof.
  intros Hp Hne. apply prefix_le in Hp. destruct (Name_cmp p n) eqn:E; [|done|done]. apply (cmp_eq (cmp:=Name_cmp)) in E. done.
Qed.

Definition names_sorted (l : list Name) : Prop := StronglySorted (fun x y => Name_cmp x y = Lt) l.
Lemma insert_name_elem n l x : x ∈ insert_name n l <-> x = n \/ x ∈ l.
Proof.
  induction l as [|m l IH]; simpl; [by rewrite elem_of_cons|]. destruct (Name_cmp n m) eqn:E; rewrite ?elem_of_cons.
  - apply (cmp_eq (cmp:=Name_cmp)) in E as ->. naive_solver.
  - naive_solver.
  - rewrite IH. naive_solver.
Qed.
Lemma insert_name_sorted n l : names_sorted l -> names_sorted (insert_name n l).
Proof.
  unfold names_sorted. induction 1 as [|m l Hl IH Hm]; simpl; [by repeat constructor|]. destruct (Name_cmp n m) eqn:E.
  - by constructor.
  - constructor; [by constructor|]. constructor; [done|]. eapply Forall_impl; [exact Hm|]. intros x Hx. by eapply cmp_lt_trans.
  - constructor; [done|]. apply Forall_forall. intros x [->|Hx]%insert_name_elem; [by apply (cmp_gt_lt (cmp:=Name_cmp))|]. by eapply Forall_forall in Hm.
Qed.
Lemma names_of_sorted t : names_sorted (names_of t).
Proof. unfold names_of. induction (fst <$> map_to_list t) as [|n l IH]; [constructor|by apply insert_name_sorted]. Qed.
Lemma names_of_elem t n : n ∈ names_of t <-> is_Some (t !! n).
Proof.
  unfold names_of. transitivity (n ∈ (fst <$> map_to_list t)).
  - induction (fst <$> map_to_list t) as [|m l IH]; [done|]. simpl. by rewrite insert_name_elem, IH, elem_of_cons.
  - rewrite list_elem_of_fmap. split.
    + intros ([m e] & -> & H%elem_of_map_to_list). by eexists.
    + intros [e H%elem_of_map_to_list]. by exists (n, e).
Qed.
Lemma after_name_sorted n l : names_sorted l -> n ∈ l -> forall x, x ∈ after_name n l <-> x ∈ l /\ Name_cmp n x = Lt.
Proof.
  unfold names_sorted. induction 1 as [|m l Hl IH Hm]; intros Hn x; [by apply not_elem_of_nil in Hn|]. simpl. destruct (Name_equals m n) eqn:E.
  - apply Name_equals_spec in E as ->. rewrite elem_of_cons. split.
    + intros Hx. split; [by right|]. by eapply Forall_forall in Hm.
    + intros [[->|Hx] Hlt]; [by rewrite cmp_refl in Hlt|done].
  - assert (m <> n) as Hne by (intros ->; by rewrite (proj2 (Name_equals_spec n n)) in E).
    apply elem_of_cons in Hn as [->|Hn]; [done|]. rewrite IH by done. rewrite elem_of_cons. split; [naive_solver|].
    intros [[->|Hx] Hlt]; [|done]. exfalso. eapply Forall_forall in Hm; [|exact Hn]. by apply (cmp_asym _ _ Hlt).
Qed.
Lemma after_name_still_sorted n l : names_sorted l -> names_sorted (after_name n l).
Proof. unfold names_sorted. induction 1 as [|m l Hl IH Hm]; simpl; [constructor|]. by destruct (Name_equals m n). Qed.
Lemma take_below_elem n l x :
  names_sorted l -> Forall (fun y => Name_cmp n y = Lt) l -> x ∈ take_below n l <-> x ∈ l /\ n `prefix_of` x.
Proof.
  unfold names_sorted. induction 1 as [|m l Hl IH Hm]; intros Hf; simpl; [split; [by intros ?%not_elem_of_nil|by intros [?%not_elem_of_nil _]]|]. apply Forall_cons in Hf as [Hnm Hf].
  rewrite isPrefixOf_spec_eq. case_bool_decide as Hp.
  - rewrite !elem_of_cons, IH by done. naive_solver.
  - split; [by intros ?%not_elem_of_nil|]. intros [[->|Hx]%elem_of_cons Hpx]; [done|]. exfalso. apply Hp.
    eapply Forall_forall in Hm; [|exact Hx]. eapply prefix_below; [exact Hnm| |exact Hpx]. by rewrite Hm.
Qed.
Lemma take_below_sorted n l : names_sorted l -> names_sorted (take_below n l).
Proof.
  unfold names_sorted. induction 1 as [|m l Hl IH Hm]; simpl; [constructor|]. destruct (isPrefixOf n m); [|constructor]. constructor; [done|].
  clear -Hm. induction l as [|x l IH]; simpl; [constructor|]. apply Forall_cons in Hm as [H1 H2]. destruct (isPrefixOf n x); [|constructor]. constructor; auto.
Qed.
Lemma names_sorted_NoDup l : names_sorted l -> NoDup l.
Proof.
  unfold names_sorted. induction 1 as [|m l Hl IH Hm]; constructor; [|done]. intros Hin. eapply Forall_forall in Hm; [|exact Hin]. by rewrite cmp_refl in Hm.
Qed.

(** ** Parents *)

(** A proper prefix. *)
Definition above (m n : Name) : Prop := m `prefix_of` n /\ m <> n.
Lemma above_length m n : above m n -> (length m < length n)%nat.
Proof.
  intros [[k ->] Hne]. rewrite length_app. destruct k; [by rewrite app_nil_r in Hne|]. simpl. lia.
Qed.
Lemma above_take m n : above m n <-> exists i, (i < length n)%nat /\ m = take i n.
Proof.
  split.
  - intros H. exists (length m). split; [by apply above_length|]. destruct H as [[k ->] _]. by rewrite take_app_length.
  - intros (i & Hi & ->). split; [apply prefix_take|]. intros E. apply (f_equal length) in E. rewrite length_take in E. lia.
Qed.
Lemma above_trans l m n : above l m -> above m n -> above l n.
Proof. intros [H1 N1] [H2 N2]. split; [by etrans|]. intros ->. apply N2. by apply (anti_symm prefix). Qed.
Lemma above_prefix_trans l m n : above l m -> m `prefix_of` n -> above l n.
Proof. intros [H1 N1] H2. split; [by etrans|]. intros ->. apply N1. by apply (anti_symm prefix). Qed.
Lemma prefix_above_trans l m n : l `prefix_of` m -> above m n -> above l n.
Proof. intros H1 [H2 N2]. split; [by etrans|]. intros ->. apply N2. by apply (anti_symm prefix). Qed.
Lemma prefix_comparable (l m n : Name) : l `prefix_of` n -> m `prefix_of` n -> l = m \/ above l m \/ above m l.
Proof.
  intros H1 H2. destruct (prefix_weak_total _ _ _ H1 H2) as [H|H]; destruct (decide (l = m)) as [->|]; auto; [right; left|right; right]; by split.
Qed.

Definition registered (t : RibTable) (n : Name) : Prop := is_Some (t !! n).
(** The longest registered proper prefix. *)
Definition parent_of (t : RibTable) (n : Name) (o : option Name) : Prop :=
  match o with
  | Some p => registered t p /\ above p n /\ forall q, registered t q -> above q n -> q `prefix_of` p
  | None => forall q, registered t q -> ~ above q n
  end.
Lemma findParent_loop_spec t n i :
  (i < length n)%nat ->
  match findParent_loop t n i with
  | Some p => registered t p /\ above p n /\ forall q, registered t q -> above q n -> (length q <= i)%nat -> q `prefix_of` p
  | None => forall q, registered t q -> above q n -> (i < length q)%nat
  end.
Proof.
  induction i as [|i IH]; intros Hi; cbn [findParent_loop].
  - rewrite take_0. destruct (t !! []) eqn:E.
    + split_and!; [by eexists|split; [apply prefix_nil|by intros <-; simpl in Hi; lia]|]. intros q _ _ Hq. destruct q; [done|simpl in Hq; lia].
    + intros q [e Hq] _. destruct q; [congruence|simpl; lia].
  - destruct (t !! take (S i) n) eqn:E.
    + split_and!; [by eexists|apply above_take; by exists (S i)|]. intros q _ Ha Hq. apply above_take in Ha as (j & Hj & ->).
      rewrite length_take in Hq. assert (j <= S i)%nat by lia. replace (take j n) with (take j (take (S i) n)); [apply prefix_take|]. rewrite take_take. by replace (j `min` S i)%nat with j by lia.
    + specialize (IH ltac:(lia)). assert (forall q, registered t q -> above q n -> length q <> S i) as Hne.
      { intros q [e Hq] Ha Hl. apply above_take in Ha as (j & Hj & ->). rewrite length_take in Hl. replace j with (S i) in Hq by lia. congruence. }
      destruct (findParent_loop t n i) as [p|].
      * destruct IH as (H1 & H2 & H3). split_and!; [done..|]. intros q Hq Ha Hl. apply H3; [done..|]. specialize (Hne q Hq Ha). lia.
      * intros q Hq Ha. specialize (IH q Hq Ha). specialize (Hne q Hq Ha). lia.
Qed.
Lemma findParent_spec t n : parent_of t n (findParent t n).
Proof.
  unfold findParent. destruct (length n) as [|i] eqn:E.
  - intros q _ Ha%above_length. lia.
  - pose proof (findParent_loop_spec t n i ltac:(lia)) as H. destruct (findParent_loop t n i).
    + destruct H as (H1 & H2 & H3). split_and!; [done..|]. intros q Hq Ha. apply H3; [done..|]. apply above_length in Ha. lia.
    + intros q Hq Ha. specialize (H q Hq Ha). apply above_length in Ha. lia.
Qed.
Lemma parent_of_unique t n o o' : parent_of t n o -> parent_of t n o' -> o = o'.
Proof.
  destruct o as [p|], o' as [q|]; simpl; [|intros (H1 & H2 & _) H; by destruct (H p H1)|intros H (H1 & H2 & _); by destruct (H q H1)|done].
  intros (H1 & H2 & H3) (K1 & K2 & K3). f_equal. by apply (anti_symm prefix); auto.
Qed.

(** ** The tree *)

(** The links of every entry are those that a function gives. *)
Definition linked (par : Name -> option Name) (t : RibTable) : Prop :=
  forall n e, t !! n = Some e ->
    re_parent e = par n /\ (forall c, c ∈ re_children e <-> registered t c /\ par c = Some n) /\ NoDup (re_children e).
Definition tree_ok (t : RibTable) : Prop := linked (findParent t) t.

Lemma findParent_dom t t' n : (forall m, registered t m <-> registered t' m) -> findParent t n = findParent t' n.
Proof.
  intros H. apply (parent_of_unique t n); [apply findParent_spec|]. pose proof (findParent_spec t' n) as Hs. destruct (findParent t' n); simpl in *.
  - destruct Hs as (H1 & H2 & H3). split_and!; [by apply H|done|]. intros q Hq. by apply H3, H.
  - intros q Hq. by apply Hs, H.
Qed.
Lemma findParent_above t n p : findParent t n = Some p -> registered t p /\ above p n.
Proof. intros E. pose proof (findParent_spec t n) as H. rewrite E in H. naive_solver. Qed.
Lemma findParent_below t n p q : findParent t n = Some p -> registered t q -> above q n -> q `prefix_of` p.
Proof. intros E. pose proof (findParent_spec t n) as H. rewrite E in H. naive_solver. Qed.

(** Registering a name changes the parents of those right below it. *)
Lemma findParent_insert t prefix e n :
  t !! prefix = None ->
  findParent (<[prefix := e]> t) n = if bool_decide (above prefix n /\ findParent t n = findParent t prefix) then Some prefix else findParent t n.
Proof.
  intros Hnew. apply (parent_of_unique (<[prefix := e]> t) n); [apply findParent_spec|].
  assert (forall q, registered (<[prefix := e]> t) q <-> q = prefix \/ registered t q) as Hreg.
  { intros q. unfold registered. destruct (decide (prefix = q)) as [->|Hne]; [rewrite lookup_insert_eq; split; [by left|by eexists]|rewrite lookup_insert_ne by done; split; [by right|by intros [->|?]]]. }
  pose proof (findParent_spec t n) as Hn. pose proof (findParent_spec t prefix) as Hp. case_bool_decide as Hc.
  - destruct Hc as [Ha E]. split_and!; [apply Hreg; by left|done|]. intros q [->|Hq]%Hreg Hqn; [done|].
    destruct Ha as [Ha _]. destruct (prefix_comparable q prefix n) as [->|[[? _]|Hpq]]; [apply Hqn|done|done|done|].
    exfalso. destruct (findParent t n) as [m|] eqn:Em.
    + destruct (findParent_above _ _ _ (eq_sym E)) as [_ Hmp]. pose proof (findParent_below _ _ _ q Em Hq Hqn) as Hqm.
      pose proof (above_prefix_trans _ _ _ Hpq Hqm) as Hpm. pose proof (above_trans _ _ _ Hpm Hmp) as [_ []]. done.
    + by apply (Hn q).
  - destruct (findParent t n) as [m|] eqn:Em.
    + destruct (findParent_above _ _ _ Em) as [Hm Hmn]. split_and!; [apply Hreg; by right|done|]. intros q [->|Hq]%Hreg Hqn; [|by eapply findParent_below].
      destruct (prefix_comparable prefix m n) as [->|[[? _]|Hmp]]; [apply Hqn|apply Hmn|done|done|]. exfalso. apply Hc. split; [done|].
      apply (parent_of_unique t prefix); [|done]. split_and!; [done|done|]. intros q Hq Hqp. eapply findParent_below; [done|done|]. by eapply above_trans.
    + intros q [->|Hq]%Hreg Hqn; [|by apply (Hn q)]. apply Hc. split; [done|]. apply (parent_of_unique t prefix); [|done]. intros q Hq Hqp. apply (Hn q); [done|]. by eapply above_trans.
Qed.

(** Erasing a name gives those right below it its own parent. *)
Lemma findParent_delete t prefix n :
  registered t prefix -> findParent (delete prefix t) n = if decide (findParent t n = Some prefix) then findParent t prefix else findParent t n.
Proof.
  intros [e He]. assert (<[prefix := e]> (delete prefix t) = t) as Et by (by apply insert_delete_id).
  assert (delete prefix t !! prefix = None) as Hd by apply lookup_delete_eq.
  pose proof (findParent_insert _ prefix e n Hd) as Hn. pose proof (findParent_insert _ prefix e prefix Hd) as Hp. rewrite Et in Hn, Hp.
  rewrite (bool_decide_false (above prefix prefix /\ _)) in Hp by (intros [[_ []] _]; done).
  case_bool_decide as Hc; rewrite Hn, Hp.
  - rewrite decide_True by done. by destruct Hc.
  - rewrite decide_False; [done|]. intros [Hr _]%findParent_above. destruct Hr as [x Hx]. by rewrite Hd in Hx.
Qed.

(** ** Linking entries *)

Definition set_table (t : RibTable) (s : Rib) : Rib := on_table (fun _ => t) s.
Definition t_add (self child : Name) (t : RibTable) : RibTable :=
  alter (fun e => re_set_children (re_children e ++ [child]) e) self (alter (re_set_parent (Some self)) child t).
Definition t_remove (self child : Name) (t : RibTable) : RibTable :=
  alter (fun e => re_set_children (List.filter (fun n => negb (Name_equals n child)) (re_children e)) e) self (alter (re_set_parent None) child t).

Lemma alter_some {A} (f : A -> A) (n : Name) (x : A) (m : gmap Name A) : m !! n = Some x -> alter f n m = <[n := f x]> m.
Proof.
  intros H. apply map_eq. intros k. destruct (decide (n = k)) as [->|Hne].
  - by rewrite lookup_alter_eq, lookup_insert_eq, H.
  - by rewrite lookup_alter_ne, lookup_insert_ne.
Qed.
Lemma the_entry_run n e s : rb_table s !! n = Some e -> the_entry n s = Some (inr e, s).
Proof. intros H. unfold the_entry. rewrite bind_get. by rewrite H. Qed.
Lemma addChild_run self child s c e :
  self <> child -> rb_table s !! child = Some c -> re_parent c = None -> rb_table s !! self = Some e ->
  addChild self child s = Some (inr tt, set_table (t_add self child (rb_table s)) s).
Proof.
  intros Hne Hc Hp He. unfold addChild. erewrite bind_run by (by apply the_entry_run). rewrite Hp.
  erewrite bind_run by (unfold assert; by rewrite bool_decide_true). erewrite bind_run by done.
  erewrite bind_run; [|apply the_entry_run; cbn; by rewrite lookup_insert_ne].
  unfold t_add. rewrite (alter_some _ _ _ _ Hc), (alter_some _ self e) by (by rewrite lookup_insert_ne). done.
Qed.
Lemma removeChild_run self child s c e :
  self <> child -> rb_table s !! child = Some c -> re_parent c = Some self -> rb_table s !! self = Some e ->
  removeChild self child s = Some (inr tt, set_table (t_remove self child (rb_table s)) s).
Proof.
  intros Hne Hc Hp He. unfold removeChild. erewrite bind_run by (by apply the_entry_run). rewrite Hp.
  erewrite bind_run by (unfold assert; by rewrite bool_decide_true). erewrite bind_run by done.
  erewrite bind_run; [|apply the_entry_run; cbn; by rewrite lookup_insert_ne].
  unfold t_remove. rewrite (alter_some _ _ _ _ Hc), (alter_some _ self e) by (by rewrite lookup_insert_ne). done.
Qed.

(** The links of an entry, changed; the rest of it stays. *)
Definition relinked (parent : option Name) (children : list Name) (e : RibEntry) : RibEntry := re_set_parent parent (re_set_children children e).
Lemma t_add_lookup self child t x :
  self <> child ->
  t_add self child t !! x = (fun e => relinked (if decide (x = child) then Some self else re_parent e)
                                        (if decide (x = self) then re_children e ++ [child] else re_children e) e) <$> t !! x.
Proof.
  intros Hne. unfold t_add. destruct (decide (x = self)) as [->|Hs].
  - rewrite lookup_alter_eq, lookup_alter_ne by done. repeat case_decide; simplify_eq; destruct (t !! self) as [[]|]; done.
  - rewrite lookup_alter_ne by done. destruct (decide (x = child)) as [->|Hc].
    + rewrite lookup_alter_eq. repeat case_decide; simplify_eq; destruct (t !! child) as [[]|]; done.
    + rewrite lookup_alter_ne by done. repeat case_decide; simplify_eq; destruct (t !! x) as [[]|]; done.
Qed.
Definition without (child : Name) (l : list Name) : list Name := List.filter (fun n => negb (Name_equals n child)) l.
Lemma without_elem c l x : x ∈ without c l <-> x ∈ l /\ x <> c.
Proof.
  unfold without. rewrite !list_elem_of_In, List.filter_In. rewrite negb_true_iff. split; intros [H1 H2]; (split; [done|]).
  - intros ->. by rewrite (proj2 (Name_equals_spec c c)) in H2.
  - apply not_true_iff_false. by intros ->%Name_equals_spec.
Qed.
Lemma without_nodup c l : NoDup l -> NoDup (without c l).
Proof.
  unfold without. induction 1 as [|x l Hx _ IH]; simpl; [constructor|]. destruct (negb (Name_equals x c)); [|done]. constructor; [|done].
  intros Hin. apply Hx. apply list_elem_of_In, List.filter_In in Hin as [Hin _]. by apply list_elem_of_In.
Qed.
Lemma t_remove_lookup self child t x :
  self <> child ->
  t_remove self child t !! x = (fun e => relinked (if decide (x = child) then None else re_parent e)
                                           (if decide (x = self) then without child (re_children e) else re_children e) e) <$> t !! x.
Proof.
  intros Hne. unfold t_remove. destruct (decide (x = self)) as [->|Hs].
  - rewrite lookup_alter_eq, lookup_alter_ne by done. repeat case_decide; simplify_eq; destruct (t !! self) as [[]|]; done.
  - rewrite lookup_alter_ne by done. destruct (decide (x = child)) as [->|Hc].
    + rewrite lookup_alter_eq. repeat case_decide; simplify_eq; destruct (t !! child) as [[]|]; done.
    + rewrite lookup_alter_ne by done. repeat case_decide; simplify_eq; destruct (t !! x) as [[]|]; done.
Qed.


(** ** The links, given by a function *)

(** What an entry has beside its links. *)
Definition strip (t : RibTable) : RibTable := relinked None [] <$> t.
Definition set_par (child : Name) (o : option Name) (par : Name -> option Name) : Name -> option Name := fun x => if decide (x = child) then o else par x.

Lemma strip_lookup t n : strip t !! n = relinked None [] <$> t !! n.
Proof. apply lookup_fmap. Qed.
Lemma strip_registered t t' n : strip t' = strip t -> registered t' n <-> registered t n.
Proof.
  intros E. apply (f_equal (lookup n)) in E. rewrite !strip_lookup in E. unfold registered.
  destruct (t !! n), (t' !! n); simplify_eq/=; split; intros [? ?]; try done; by eexists.
Qed.
Lemma linked_ext par par' t : (forall n, registered t n -> par n = par' n) -> linked par t -> linked par' t.
Proof.
  intros H Hl n e He. destruct (Hl n e He) as (H1 & H2 & H3). split_and!; [rewrite <- H; [done|by eexists]| |done].
  intros c. rewrite H2. split; intros [Hc Hp]; split; try done; [by rewrite <- H|by rewrite H].
Qed.
Lemma t_add_linked par t self child :
  linked par t -> registered t child -> self <> child -> par child = None ->
  linked (set_par child (Some self) par) (t_add self child t) /\ strip (t_add self child t) = strip t.
Proof.
  intros Hl [c Hc] Hne Hp. assert (strip (t_add self child t) = strip t) as Hs.
  { apply map_eq. intros n. rewrite !strip_lookup, t_add_lookup by done. destruct (t !! n); done. }
  split; [|done]. intros n e' He'. rewrite t_add_lookup in He' by done. destruct (t !! n) as [e|] eqn:He; simplify_eq/=.
  destruct (Hl n e He) as (H1 & H2 & H3). unfold set_par. split_and!.
  - rewrite <- H1. done.
  - intros x. rewrite (strip_registered _ _ _ Hs). repeat case_decide; simplify_eq.
    + rewrite elem_of_app, list_elem_of_singleton. split; [intros _; split; [by eexists|done]|by right].
    + rewrite elem_of_app, H2, list_elem_of_singleton. naive_solver.
    + rewrite H2, Hp. naive_solver.
    + apply H2.
  - case_decide; [|done]. subst. apply NoDup_app. split_and!; [done| |apply NoDup_singleton].
    intros x Hx ->%list_elem_of_singleton. apply H2 in Hx as [_ Hx]. congruence.
Qed.
Lemma t_remove_linked par t self child :
  linked par t -> self <> child -> par child = Some self ->
  linked (set_par child None par) (t_remove self child t) /\ strip (t_remove self child t) = strip t.
Proof.
  intros Hl Hne Hp. assert (strip (t_remove self child t) = strip t) as Hs.
  { apply map_eq. intros n. rewrite !strip_lookup, t_remove_lookup by done. destruct (t !! n); done. }
  split; [|done]. intros n e' He'. rewrite t_remove_lookup in He' by done. destruct (t !! n) as [e|] eqn:He; simplify_eq/=.
  destruct (Hl n e He) as (H1 & H2 & H3). unfold set_par. split_and!.
  - rewrite <- H1. done.
  - intros x. rewrite (strip_registered _ _ _ Hs). repeat case_decide; simplify_eq; rewrite ?without_elem, H2; naive_solver.
  - case_decide; [by apply without_nodup|done].
Qed.

(** Both operations with the optional parent of the callers. *)
Definition detachM (from : option Name) (child : Name) : RM unit := match from with Some p => removeChild p child | None => mret tt end.
Definition attachM (to : option Name) (child : Name) : RM unit := match to with Some p => addChild p child | None => mret tt end.

(** A step that changes the links only, to those of another function. *)
Definition relinks (par : Name -> option Name) (m : RM unit) (s : Rib) : Prop :=
  exists t, m s = Some (inr tt, set_table t s) /\ linked par t /\ strip t = strip (rb_table s).
Lemma relinks_bind par par' m k s :
  relinks par m s -> (forall t, linked par t -> strip t = strip (rb_table s) -> relinks par' k (set_table t s)) -> relinks par' (m;; k) s.
Proof.
  intros (t & Hm & Hl & Hs) Hk. destruct (Hk t Hl Hs) as (t' & Hm' & Hl' & Hs'). exists t'. split_and!; [|done|by rewrite Hs'].
  by rewrite (bind_run _ _ _ _ _ Hm).
Qed.
Lemma relinks_ret par s : linked par (rb_table s) -> relinks par (mret tt) s.
Proof. intros H. exists (rb_table s). split_and!; [by destruct s|done|done]. Qed.
Lemma relinks_ext par par' m s : (forall n, registered (rb_table s) n -> par n = par' n) -> relinks par m s -> relinks par' m s.
Proof.
  intros H (t & Hm & Hl & Hs). exists t. split_and!; [done| |done]. eapply linked_ext; [|done]. intros n Hn. apply H. by apply (strip_registered _ _ _ Hs).
Qed.
Lemma attachM_relinks par to child s :
  linked par (rb_table s) -> registered (rb_table s) child -> (forall p, to = Some p -> registered (rb_table s) p /\ p <> child) -> par child = None ->
  relinks (set_par child to par) (attachM to child) s.
Proof.
  intros Hl [c Hc] Hto Hp. destruct to as [p|]; cbn [attachM].
  - destruct (Hto p eq_refl) as [[e He] Hne]. destruct (t_add_linked par _ p child Hl ltac:(by eexists) Hne Hp) as [H1 H2].
    eexists. split_and!; [eapply addChild_run; [done|done| |done]|exact H1|exact H2]. destruct (Hl _ _ Hc) as [-> _]. done.
  - apply relinks_ret. eapply linked_ext; [|done]. intros n _. unfold set_par. case_decide; congruence.
Qed.
Lemma detachM_relinks par from child s :
  linked par (rb_table s) -> registered (rb_table s) child -> (forall p, from = Some p -> registered (rb_table s) p /\ p <> child) -> par child = from ->
  relinks (set_par child None par) (detachM from child) s.
Proof.
  intros Hl [c Hc] Hto Hp. destruct from as [p|]; cbn [detachM].
  - destruct (Hto p eq_refl) as [[e He] Hne]. destruct (t_remove_linked par _ p child Hl Hne Hp) as [H1 H2].
    eexists. split_and!; [eapply removeChild_run; [done|done| |done]|exact H1|exact H2]. destruct (Hl _ _ Hc) as [-> _]. done.
  - apply relinks_ret. eapply linked_ext; [|done]. intros n _. unfold set_par. case_decide; congruence.
Qed.

(** Children that go from one parent to another. *)
Definition moved (l : list Name) (from to : option Name) (par : Name -> option Name) : Name -> option Name :=
  fun x => if decide (x ∈ l /\ par x = from) then to else par x.
Definition moveM (from to : option Name) (child : Name) : RM unit := detachM from child;; attachM to child.
Lemma moveM_relinks par from to child s :
  linked par (rb_table s) -> registered (rb_table s) child -> par child = from ->
  (forall p, from = Some p \/ to = Some p -> registered (rb_table s) p /\ p <> child) ->
  relinks (set_par child to par) (moveM from to child) s.
Proof.
  intros Hl Hc Hp Hft. eapply relinks_bind; [apply (detachM_relinks par); [done|done|auto|done]|]. intros t Ht Hs.
  assert (forall p, registered t p <-> registered (rb_table s) p) as Hr by (intros p; by apply strip_registered).
  eapply relinks_ext; [|apply (attachM_relinks (set_par child None par)); [done|by apply Hr| |]].
  - intros n _. unfold set_par. by case_decide.
  - intros p ->. destruct (Hft p (or_intror eq_refl)). split; [by apply Hr|done].
  - unfold set_par. by rewrite decide_True.
Qed.
Lemma move_loop l from to par s (body : Name -> RM unit) :
  from <> to -> linked par (rb_table s) -> (forall c, c ∈ l -> registered (rb_table s) c) ->
  (forall p, from = Some p \/ to = Some p -> registered (rb_table s) p /\ p ∉ l) ->
  (forall c t par', c ∈ l -> strip t = strip (rb_table s) -> linked par' t -> par' c = par c ->
     body c (set_table t s) = (if decide (par' c = from) then moveM from to c else mret tt) (set_table t s)) ->
  NoDup l ->
  relinks (moved l from to par) (forM l body) s.
Proof.
  intros Hne Hl Hreg Hft Hbody Hnd. revert par s Hl Hreg Hft Hbody. induction Hnd as [|c l Hc Hnd IH]; intros par s Hl Hreg Hft Hbody; cbn [forM].
  - apply relinks_ret. eapply linked_ext; [|done]. intros n _. unfold moved. rewrite decide_False; [done|]. by intros [?%not_elem_of_nil _].
  - assert (relinks (if decide (par c = from) then set_par c to par else par) (body c) s) as Hstep.
    { pose proof (Hbody c (rb_table s) par ltac:(by left) eq_refl Hl eq_refl) as E. replace (set_table (rb_table s) s) with s in E by (by destruct s).
      assert (relinks (if decide (par c = from) then set_par c to par else par) (if decide (par c = from) then moveM from to c else mret tt) s) as (t & Hm & Ht).
      { case_decide; [|by apply relinks_ret]. apply moveM_relinks; [done|apply Hreg; by left|done|].
        intros p Hp. destruct (Hft p Hp) as [H1 H2]. split; [done|]. intros ->. apply H2. by left. }
      exists t. split; [|done]. by rewrite E. }
    eapply relinks_bind; [exact Hstep|]. intros t Ht Hs. assert (forall p, registered t p <-> registered (rb_table s) p) as Hr by (intros p; by apply strip_registered).
    set (par1 := if decide (par c = from) then set_par c to par else par) in *.
    assert (forall x, x ∈ l -> par1 x = par x) as Hpar1.
    { intros x Hx. unfold par1. case_decide; [|done]. unfold set_par. rewrite decide_False; [done|]. by intros ->. }
    eapply relinks_ext; [|apply (IH par1); [done| | |]].
    + intros n _. unfold moved. unfold par1, set_par.
      destruct (decide (n = c)) as [->|Hnc]; repeat case_decide; rewrite ?elem_of_cons in *; naive_solver.
    + intros x Hx. apply Hr, Hreg. by right.
    + intros p Hp. destruct (Hft p Hp) as [H1 H2]. split; [by apply Hr|]. intros Hin. apply H2. by right.
    + intros x t' par' Hx Hs' Hl' Hp'. apply (Hbody x t' par'); [by right|by rewrite Hs'|done|]. rewrite Hp'. by apply Hpar1.
Qed.

(** ** Inserting and erasing routes *)

Lemma findDescendants_spec t n : registered t n -> NoDup (findDescendants t n) /\ forall x, x ∈ findDescendants t n <-> registered t x /\ above n x.
Proof.
  intros Hn. pose proof (names_of_sorted t) as Hs. assert (n ∈ names_of t) as Hin by by apply names_of_elem.
  pose proof (after_name_still_sorted n _ Hs) as Has. pose proof (after_name_sorted n _ Hs Hin) as Hel. unfold findDescendants. split.
  - apply names_sorted_NoDup. by apply take_below_sorted.
  - intros x. rewrite take_below_elem; [|done|apply Forall_forall; intros y Hy; by apply Hel]. rewrite Hel, names_of_elem. unfold above. split.
    + intros [[H1 H2] H3]. split_and!; [done|done|]. intros ->. by rewrite cmp_refl in H2.
    + intros (H1 & H2 & H3). split_and!; [done|by apply prefix_lt|done].
Qed.

(** What a state has beside the table and the lists of entries. *)
Definition same_rest (s s' : Rib) : Prop := rb_queue s' = rb_queue s /\ rb_inProgress s' = rb_inProgress s /\ rb_updater s' = rb_updater s.

Lemma linked_put par t n e e' :
  linked par t -> t !! n = Some e -> re_parent e' = re_parent e -> re_children e' = re_children e -> linked par (<[n := e']> t).
Proof.
  intros Hl He Hp Hc. assert (forall m, registered (<[n := e']> t) m <-> registered t m) as Hr.
  { intros m. unfold registered. destruct (decide (n = m)) as [->|Hne]; [rewrite lookup_insert_eq, He; split; by eexists|by rewrite lookup_insert_ne]. }
  intros m x Hx. assert (exists y, t !! m = Some y /\ re_parent x = re_parent y /\ re_children x = re_children y) as (y & Hy & -> & ->).
  { destruct (decide (n = m)) as [->|Hne]; [rewrite lookup_insert_eq in Hx; simplify_eq; by exists e|rewrite lookup_insert_ne in Hx by done; by exists x]. }
  destruct (Hl m y Hy) as (H1 & H2 & H3). split_and!; [done| |done]. intros c. by rewrite H2, Hr.
Qed.
Lemma tree_ok_put t n e e' :
  tree_ok t -> t !! n = Some e -> re_parent e' = re_parent e -> re_children e' = re_children e -> tree_ok (<[n := e']> t).
Proof.
  intros Hl He Hp Hc. unfold tree_ok. eapply linked_ext; [|by eapply linked_put]. intros m _. apply findParent_dom. intros k. unfold registered.
  destruct (decide (n = k)) as [->|Hne]; [rewrite lookup_insert_eq, He; split; by eexists|by rewrite lookup_insert_ne].
Qed.
(** A new entry, before it is linked. *)
Lemma linked_new par t n e :
  linked par t -> t !! n = None -> re_parent e = None -> re_children e = [] -> (forall m, registered t m -> par m <> Some n) ->
  linked (set_par n None par) (<[n := e]> t).
Proof.
  intros Hl Hn Hp Hc Hno m x Hx. unfold set_par. destruct (decide (n = m)) as [->|Hne].
  - rewrite lookup_insert_eq in Hx. simplify_eq. rewrite decide_True by done. rewrite Hc. split_and!; [done| |constructor].
    intros c. split; [by intros ?%not_elem_of_nil|]. intros [[y Hy] Hpar]. exfalso. case_decide; [done|]. rewrite lookup_insert_ne in Hy by congruence.
    apply (Hno c); [by eexists|done].
  - rewrite lookup_insert_ne in Hx by done. rewrite decide_False by done. destruct (Hl m x Hx) as (H1 & H2 & H3). split_and!; [done| |done].
    intros c. rewrite H2. unfold registered. destruct (decide (n = c)) as [->|Hnc].
    + rewrite decide_True, Hn by done. split; [by intros [[]%is_Some_None _]|by intros [_ ?]].
    + by rewrite lookup_insert_ne, decide_False.
Qed.

Lemma strip_insert t n e : strip (<[n := e]> t) = <[n := relinked None [] e]> (strip t).
Proof. apply fmap_insert. Qed.
Lemma strip_ext (t t' : RibTable) : strip t' = strip t -> forall n, findParent t' n = findParent t n.
Proof. intros H n. apply findParent_dom. intros m. by apply strip_registered. Qed.

(** The entry that [rib_insert] leaves under the name. *)
Definition inserted (t : RibTable) (prefix : Name) (route : Route) (id : N) : RibEntry :=
  match t !! prefix with
  | None => (insertRoute route (RibEntry_new id)).1
  | Some e => match findRoute route e with
              | Some _ => re_set_routes (assign_first route (re_routes e)) e
              | None => (insertRoute route e).1
              end
  end.
Lemma insertRoute_links route e : re_parent (insertRoute route e).1 = re_parent e /\ re_children (insertRoute route e).1 = re_children e.
Proof. unfold insertRoute. destruct (findRoute route e); [done|]. by destruct (isRibCapture route). Qed.
Lemma insertRoute_did route e : (insertRoute route e).2 = match findRoute route e with Some _ => false | None => true end.
Proof. unfold insertRoute. by destruct (findRoute route e). Qed.

Definition insert_body (prefix : Name) (parent : option Name) (child : Name) : RM unit :=
  c ← the_entry child;
  if bool_decide (re_parent c = parent) then detachM parent child;; addChild prefix child else mret tt.
Lemma insert_links prefix route id s :
  tree_ok (rb_table s) -> rb_table s !! prefix = None ->
  let s0 := set_table (<[prefix := (insertRoute route (RibEntry_new id)).1]> (rb_table s)) s in
  relinks (findParent (rb_table s0))
    (attachM (findParent (rb_table s) prefix) prefix;;
     s1 ← get; forM (findDescendants (rb_table s1) prefix) (insert_body prefix (findParent (rb_table s) prefix))) s0.
Proof.
  intros Ht Hn. set (e0 := (insertRoute route (RibEntry_new id)).1). cbn zeta. set (s0 := set_table _ s). set (t := rb_table s) in *.
  destruct (insertRoute_links route (RibEntry_new id)) as [He1 He2]. fold e0 in He1, He2. cbn in He1, He2.
  assert (linked (set_par prefix None (findParent t)) (rb_table s0)) as Hl0.
  { apply linked_new; [done|done|done|done|]. intros m _ [Hr _]%findParent_above. destruct Hr as [x Hx]. congruence. }
  assert (registered (rb_table s0) prefix) as Hreg0 by (cbn; eexists; by rewrite lookup_insert_eq).
  assert (forall m, registered t m -> registered (rb_table s0) m /\ m <> prefix) as Hregt.
  { intros m [x Hx]. assert (m <> prefix) by congruence. split; [|done]. exists x. cbn. by rewrite lookup_insert_ne. }
  eapply relinks_bind.
  { apply (attachM_relinks (set_par prefix None (findParent t))); [done|done| |unfold set_par; by rewrite decide_True].
    intros p [Hp _]%findParent_above. by apply Hregt. }
  intros t2 Hl2 Hs2. set (par2 := set_par prefix (findParent t prefix) (set_par prefix None (findParent t))) in *.
  assert (forall m, registered t2 m <-> registered (rb_table s0) m) as Hr2 by (intros m; by apply strip_registered).
  destruct (findDescendants_spec t2 prefix ltac:(by apply Hr2)) as [Hnd Hdesc]. unfold relinks. rewrite bind_get.
  change (relinks (findParent (rb_table s0)) (forM (findDescendants (rb_table (set_table t2 s0)) prefix) (insert_body prefix (findParent t prefix))) (set_table t2 s0)).
  assert (forall x, findParent t x <> Some prefix) as Hnp.
  { intros x [Hr _]%findParent_above. destruct Hr as [y Hy]. congruence. }
  eapply relinks_ext; [|eapply (move_loop _ (findParent t prefix) (Some prefix) par2)].
  - intros n Hn2. cbn in Hn2. unfold moved, par2, set_par. cbn. rewrite findParent_insert by done. destruct (decide (n = prefix)) as [->|Hne].
    + rewrite !decide_False, !bool_decide_false; [done|by intros [[_ []] _]|]. intros [[_ Ha]%Hdesc _]. by destruct Ha as [_ []].
    + assert (n ∈ findDescendants t2 prefix <-> above prefix n) as Hin by (rewrite Hdesc; tauto). repeat case_decide; repeat case_bool_decide as HB; tauto.
  - apply Hnp.
  - done.
  - intros c [Hc _]%Hdesc. done.
  - intros p Hp. split.
    + apply Hr2. destruct Hp as [[Hp _]%findParent_above|[= <-]]; [by apply Hregt|done].
    + intros [_ Ha]%Hdesc. destruct Hp as [[_ Hp]%findParent_above|[= <-]]; [|by destruct Ha]. pose proof (above_trans _ _ _ Ha Hp) as [_ []]. done.
  - intros c t' par' Hc Hs' Hl' _. cbn in Hs'. apply Hdesc in Hc as [Hc Ha]. apply (strip_registered _ _ _ Hs') in Hc as [ce Hce].
    unfold insert_body. rewrite (bind_run _ _ _ _ _ (the_entry_run c ce (set_table t' _) Hce)). destruct (Hl' c ce Hce) as (-> & _ & _).
    by case_decide; case_bool_decide.
  - done.
Qed.

Lemma linked_delete par t n : linked par t -> par n = None -> (forall m, registered t m -> par m <> Some n) -> linked par (delete n t).
Proof.
  intros Hl Hp Hno m e He. apply lookup_delete_Some in He as [Hne He]. destruct (Hl m e He) as (H1 & H2 & H3). split_and!; [done| |done].
  intros c. rewrite H2. unfold registered. destruct (decide (n = c)) as [->|Hnc]; [|by rewrite lookup_delete_ne].
  rewrite lookup_delete_eq. split; [intros [_ ?]; congruence|by intros [[]%is_Some_None _]].
Qed.

Definition erase_body (prefix : Name) (parent : option Name) (child : Name) : RM unit := removeChild prefix child;; attachM parent child.
Lemma erase_links prefix e s :
  tree_ok (rb_table s) -> rb_table s !! prefix = Some e ->
  exists par, (forall n, registered (rb_table s) n -> n <> prefix -> par n = findParent (delete prefix (rb_table s)) n) /\ par prefix = None /\
    relinks par (detachM (re_parent e) prefix;; forM (re_children e) (erase_body prefix (re_parent e))) s.
Proof.
  intros Ht He. set (t := rb_table s) in *. destruct (Ht prefix e He) as (Hp & Hc & Hnd). rewrite Hp. set (parent := findParent t prefix) in *.
  set (par1 := set_par prefix None (findParent t)). exists (moved (re_children e) (Some prefix) parent par1).
  assert (forall n, n ∈ re_children e -> n <> prefix) as Hcne by (intros n [_ [_ [_ Hn]]%findParent_above]%Hc ->; by apply Hn).
  assert (parent <> Some prefix) as Hpne by (intros [_ [_ []]]%findParent_above; done).
  assert (moved (re_children e) (Some prefix) parent par1 prefix = None) as Hmp.
  { unfold moved, par1, set_par. repeat case_decide; naive_solver. }
  split_and!; [|done|].
  - intros n Hn Hne. rewrite findParent_delete by (by eexists). unfold moved, par1, set_par. fold t parent. rewrite !(decide_False (P:=n = prefix)) by done.
    pose proof (Hc n) as Hcn. repeat case_decide; tauto.
  - eapply relinks_bind; [apply (detachM_relinks (findParent t)); [done|by eexists| |done]|].
    { intros p [Hr [_ Hne]]%findParent_above. done. }
    intros t2 Hl2 Hs2. fold par1 in Hl2. assert (forall m, registered t2 m <-> registered t m) as Hr2 by (intros m; by apply strip_registered).
    apply move_loop; [done|done| | | |done].
    + intros c [Hr _]%Hc. by apply Hr2.
    + intros p Hpp. split; [apply Hr2|].
      * destruct Hpp as [[= <-]|[Hr _]%findParent_above]; [by eexists|done].
      * intros Hin. destruct Hpp as [[= <-]|[_ Ha]%findParent_above]; [by apply (Hcne prefix)|].
        apply Hc in Hin as [_ [_ Ha']%findParent_above]. destruct (above_trans _ _ _ Ha Ha') as [_ []]. done.
    + intros c t' par' Hcin _ _ Hpar. rewrite decide_True; [done|]. rewrite Hpar. unfold par1, set_par. rewrite decide_False by (by apply Hcne).
      by apply Hc in Hcin as [_ ?].
Qed.

Definition cancelled (event : option N) (s : Rib) : Rib := match event with Some i => on_events (fun E => E ∖ {[i]}) s | None => s end.
Lemma cancel_run event s : cancel event s = Some (inr tt, cancelled event s).
Proof. by destruct event. Qed.
Lemma cancelled_rest event s : rb_table (cancelled event s) = rb_table s /\ same_rest s (cancelled event s).
Proof. by destruct event. Qed.

Lemma run_tail (A : RM unit) (B : Rib -> RM unit) (C : RM unit) s t :
  (A;; s1 ← get; B s1) s = Some (inr tt, t) -> (A;; s1 ← get; B s1;; C) s = C t.
Proof.
  unfold mbind, OM_bind. destruct (A s) as [[[?|[]] s1]|]; [done| |done]. cbn. destruct (B s1 s1) as [[[?|[]] s2]|]; [done| |done]. by intros [= ->].
Qed.
Lemma run_both (A B C : RM unit) s t : (A;; B) s = Some (inr tt, t) -> (A;; B;; C) s = C t.
Proof.
  unfold mbind, OM_bind. destruct (A s) as [[[?|[]] s1]|]; [done| |done]. destruct (B s1) as [[[?|[]] s2]|]; [done| |done]. by intros [= ->].
Qed.
Lemma rib_insert_ok prefix route s :
  tree_ok (rb_table s) ->
  exists s', rib_insert prefix route s = Some (inr tt, s') /\ tree_ok (rb_table s') /\
    strip (rb_table s') = <[prefix := relinked None [] (inserted (rb_table s) prefix route (rb_nextId s))]> (strip (rb_table s)) /\ same_rest s s'.
Proof.
  intros Ht. unfold rib_insert, inserted. rewrite bind_get. destruct (rb_table s !! prefix) as [e|] eqn:He.
  - pose proof (insertRoute_did route e) as Hdid. pose proof (insertRoute_links route e) as [H1 H2]. destruct (insertRoute route e) as [e' didInsert]; cbn [fst snd] in *. subst didInsert.
    destruct (findRoute route e) as [old|] eqn:Hf.
    + rewrite (bind_run _ _ _ _ _ (cancel_run _ _)). eexists. split; [reflexivity|]. destruct (cancelled_rest (rt_event old) s) as [Htab Hrest].
      cbn [on_table rb_table]. rewrite Htab. split_and!; [by eapply tree_ok_put|apply strip_insert|exact Hrest].
    + do 4 (rewrite (bind_run _ _ _ tt _ eq_refl)) || idtac. eexists. split; [reflexivity|]. split_and!; [by eapply tree_ok_put|apply strip_insert|done].
  - rewrite (bind_run _ _ _ tt _ eq_refl), (bind_run _ _ _ tt _ eq_refl), (bind_run _ _ _ tt _ eq_refl).
    set (s1 := on_nItems _ _). set (s0 := on_table _ s1).
    destruct (insert_links prefix route (rb_nextId s) s1 Ht He) as (t & Hrun & Hl & Hs). fold s0 in Hrun, Hl, Hs.
    change (set_table (<[prefix := (insertRoute route (RibEntry_new (rb_nextId s))).1]> (rb_table s1)) s1) with s0 in Hrun, Hl, Hs.
    assert (tree_ok t) as Hok. { eapply linked_ext; [|exact Hl]. intros n _. apply findParent_dom. intros m. symmetry. by apply strip_registered. }
    rewrite (run_tail _ _ _ _ _ Hrun). eexists. split; [reflexivity|]. split_and!; [done| |done].
    etrans; [exact Hs|apply strip_insert].
Qed.

(** The table that [rib_erase] leaves, but for the links. *)
Definition erased (t : RibTable) (prefix : Name) (route : Route) : RibTable :=
  match t !! prefix with
  | None => t
  | Some e => match findRoute route e with
              | None => t
              | Some _ => match re_routes (eraseRoute route e).1 with [] => delete prefix t | _ => <[prefix := (eraseRoute route e).1]> t end
              end
  end.
Lemma eraseRoute_links route e : re_parent (eraseRoute route e).1 = re_parent e /\ re_children (eraseRoute route e).1 = re_children e.
Proof. unfold eraseRoute. destruct (findRoute route e) as [r|]; [|done]. by destruct (isRibCapture r). Qed.

Lemma eraseEntry_run prefix e s :
  tree_ok (rb_table s) -> rb_table s !! prefix = Some e ->
  exists s', eraseEntry prefix s = Some (inr tt, s') /\ tree_ok (rb_table s') /\ strip (rb_table s') = delete prefix (strip (rb_table s)) /\ same_rest s s'.
Proof.
  intros Ht He. destruct (erase_links prefix e s Ht He) as (par & Hpar & Hpp & t & Hrun & Hl & Hs).
  unfold eraseEntry. rewrite (bind_run _ _ _ _ _ (the_entry_run _ _ _ He)).
  rewrite (run_both _ _ _ _ _ Hrun).
  eexists. split; [reflexivity|]. assert (forall n, registered t n <-> registered (rb_table s) n) as Hr by (intros n; by apply strip_registered).
  assert (strip (delete prefix t) = delete prefix (strip (rb_table s))) as Hsd by (unfold strip; rewrite fmap_delete; by f_equal).
  split_and!; [|exact Hsd|done]. eapply (linked_ext par).
  - intros n [x Hn]. cbn in Hn. apply lookup_delete_Some in Hn as [Hne Hn]. rewrite Hpar; [|apply Hr; by eexists|done].
    apply findParent_dom. intros m. apply (strip_registered (delete prefix t)). rewrite Hsd. unfold strip. by rewrite fmap_delete.
  - apply linked_delete; [done|done|]. intros m Hm Hpm. destruct (decide (m = prefix)) as [->|Hne]; [congruence|].
    rewrite Hpar in Hpm by (first [by apply Hr|done]). apply findParent_above in Hpm as [[x Hx] _]. by rewrite lookup_delete_eq in Hx.
Qed.
Lemma rib_erase_ok prefix route s :
  tree_ok (rb_table s) ->
  exists s', rib_erase prefix route s = Some (inr tt, s') /\ tree_ok (rb_table s') /\
    strip (rb_table s') = strip (erased (rb_table s) prefix route) /\ same_rest s s'.
Proof.
  intros Ht. unfold rib_erase, erased. rewrite bind_get. destruct (rb_table s !! prefix) as [e|] eqn:He; [|by eexists].
  pose proof (eraseRoute_links route e) as [H1 H2]. destruct (findRoute route e) as [r|] eqn:Hf; [|by eexists].
  rewrite (bind_run _ _ _ tt _ eq_refl). destruct (eraseRoute route e) as [e' event] eqn:Ee; cbn [fst snd] in *.
  rewrite (bind_run _ _ _ _ _ (cancel_run _ _)). set (s1 := cancelled event _).
  assert (rb_table s1 = rb_table s /\ same_rest s s1) as [Htab Hrest] by (by destruct event).
  rewrite (bind_run _ _ _ tt _ eq_refl), (bind_run _ _ _ tt _ eq_refl).
  set (s2 := on_nItems _ _). assert (exists s3, (if negb (hasFaceId e' (rt_faceId route)) then modify (on_faceEntries (unregister (rt_faceId route) (prefix, re_id e))) else mret tt) s2 = Some (inr tt, s3)
    /\ rb_table s3 = <[prefix := e']> (rb_table s) /\ same_rest s s3) as (s3 & Hs3 & Htab3 & Hrest3).
  { destruct (negb _); (eexists; split; [reflexivity|]; split; [cbn; by rewrite Htab|exact Hrest]). }
  rewrite (bind_run _ _ _ _ _ Hs3). assert (tree_ok (rb_table s3)) as Ht3 by (rewrite Htab3; by eapply tree_ok_put).
  destruct (re_routes e') eqn:Er.
  - destruct (eraseEntry_run prefix e' s3 Ht3) as (s' & Hrun & Hok & Hs & Hrest'); [rewrite Htab3; apply lookup_insert_eq|].
    exists s'. split; [done|]. split; [done|]. split; [|unfold same_rest in *; destruct_and!; split_and!; congruence].
    rewrite Hs, Htab3. unfold strip. by rewrite fmap_insert, delete_insert_eq, fmap_delete.
  - exists s3. split_and!; [done|done|by rewrite Htab3|apply Hrest3..].
Qed.

(** ** What the RIB is, to its users *)

(** A map from prefixes to non-empty lists of routes, one for each face and origin. *)
Definition routes_of (t : RibTable) : gmap Name (list Route) := re_routes <$> t.
Definition put_route (route : Route) (l : list Route) : list Route :=
  if existsb (fun r => compareFaceIdAndOrigin r route) l then assign_first route l else l ++ [route].
Definition spec_step (u : RibUpdate) (m : gmap Name (list Route)) : gmap Name (list Route) :=
  match ru_action u with
  | REGISTER => <[ru_name u := put_route (ru_route u) (default [] (m !! ru_name u))]> m
  | UNREGISTER | REMOVE_FACE =>
      match m !! ru_name u with
      | None => m
      | Some l => match erase_first (ru_route u) l with [] => delete (ru_name u) m | l => <[ru_name u := l]> m end
      end
  end.
Record routes_ok (m : gmap Name (list Route)) : Prop := {
  ro_nonempty : forall n l, m !! n = Some l -> l <> [];
  ro_unique : forall n l, m !! n = Some l -> NoDup ((fun r => (rt_faceId r, rt_origin r)) <$> l);
}.

Lemma routes_of_strip t : routes_of (strip t) = routes_of t.
Proof. unfold routes_of, strip. rewrite <- map_fmap_compose. by apply map_fmap_ext. Qed.
Lemma findRoute_existsb route e : existsb (fun r => compareFaceIdAndOrigin r route) (re_routes e) = match findRoute route e with Some _ => true | None => false end.
Proof. unfold findRoute. induction (re_routes e) as [|r l IH]; [done|]. simpl. by destruct (compareFaceIdAndOrigin r route). Qed.
Lemma inserted_routes t prefix route id : re_routes (inserted t prefix route id) = put_route route (default [] (routes_of t !! prefix)).
Proof.
  unfold inserted, routes_of. rewrite lookup_fmap. destruct (t !! prefix) as [e|]; cbn [fmap option_fmap option_map default].
  - unfold put_route, Datatypes.id. rewrite findRoute_existsb. unfold insertRoute. destruct (findRoute route e); [done|]. by destruct (isRibCapture route).
  - cbn. by destruct (isRibCapture route).
Qed.
Lemma erase_first_absent route l : List.find (fun r => compareFaceIdAndOrigin r route) l = None -> erase_first route l = l.
Proof. induction l as [|r l IH]; [done|]. simpl. destruct (compareFaceIdAndOrigin r route); [done|]. intros H. by rewrite IH. Qed.
Lemma eraseRoute_routes route e r : findRoute route e = Some r -> re_routes (eraseRoute route e).1 = erase_first route (re_routes e).
Proof. intros H. unfold eraseRoute. rewrite H. by destruct (isRibCapture r). Qed.
Lemma erased_routes t prefix route :
  routes_ok (routes_of t) ->
  routes_of (erased t prefix route) =
    match routes_of t !! prefix with None => routes_of t | Some l => match erase_first route l with [] => delete prefix (routes_of t) | l => <[prefix := l]> (routes_of t) end end.
Proof.
  intros [Hne _]. specialize (Hne prefix). unfold erased, routes_of in *. rewrite lookup_fmap in *. destruct (t !! prefix) as [e|] eqn:He; [|done]. cbn [fmap option_fmap option_map] in *.
  destruct (findRoute route e) as [r|] eqn:Hf.
  - pose proof (eraseRoute_routes _ _ _ Hf) as Er. destruct (eraseRoute route e) as [e' ev]. cbn [fst] in *. rewrite <- Er.
    destruct (re_routes e') eqn:El; [by rewrite fmap_delete|]. rewrite fmap_insert. by rewrite El.
  - rewrite (erase_first_absent _ _ Hf). destruct (re_routes e) as [|r l] eqn:Er; [by destruct (Hne [])|]. symmetry. apply map_eq. intros n.
    destruct (decide (prefix = n)) as [->|Hn]; [rewrite lookup_insert_eq, lookup_fmap, He; cbn; by rewrite Er|by rewrite lookup_insert_ne].
Qed.

Lemma key_eq r route : compareFaceIdAndOrigin r route = true <-> (rt_faceId r, rt_origin r) = (rt_faceId route, rt_origin route).
Proof. unfold compareFaceIdAndOrigin. rewrite andb_true_iff, !N.eqb_eq. split; [by intros [-> ->]|by intros [= -> ->]]. Qed.
Lemma assign_first_keys route l : (fun r => (rt_faceId r, rt_origin r)) <$> assign_first route l = (fun r => (rt_faceId r, rt_origin r)) <$> l.
Proof. induction l as [|r l IH]; [done|]. simpl. destruct (compareFaceIdAndOrigin r route) eqn:E; [apply key_eq in E; csimpl; by rewrite E|csimpl; by rewrite IH]. Qed.
Lemma erase_first_keys route l : ((fun r => (rt_faceId r, rt_origin r)) <$> erase_first route l) `sublist_of` ((fun r => (rt_faceId r, rt_origin r)) <$> l).
Proof. induction l as [|r l IH]; [done|]. simpl. destruct (compareFaceIdAndOrigin r route); [by apply sublist_cons|by apply sublist_skip]. Qed.
Lemma put_route_unique route l : NoDup ((fun r => (rt_faceId r, rt_origin r)) <$> l) -> NoDup ((fun r => (rt_faceId r, rt_origin r)) <$> put_route route l).
Proof.
  intros H. unfold put_route. destruct (existsb _ l) eqn:E; [by rewrite assign_first_keys|]. rewrite fmap_app. apply NoDup_app. split_and!; [done| |apply NoDup_singleton].
  intros k Hk Hk'. csimpl in Hk'. apply list_elem_of_singleton in Hk' as ->. apply list_elem_of_fmap in Hk as (r & Hr & Hin).
  apply not_true_iff_false in E. apply E. apply existsb_exists. exists r. split; [by apply list_elem_of_In|by apply key_eq].
Qed.
Lemma put_route_nonempty route l : put_route route l <> [].
Proof. unfold put_route. destruct (existsb _ l) eqn:E; [|by destruct l]. destruct l as [|r l]; [done|]. simpl. by destruct (compareFaceIdAndOrigin r route). Qed.
Lemma spec_step_ok u m : routes_ok m -> routes_ok (spec_step u m).
Proof.
  intros [H1 H2]. unfold spec_step. assert (forall l, l <> [] -> NoDup ((fun r => (rt_faceId r, rt_origin r)) <$> l) -> routes_ok (<[ru_name u := l]> m)) as Hins.
  { intros l Hl Hnd. split; intros n l' Hl'; (destruct (decide (ru_name u = n)) as [<-|Hne]; [rewrite lookup_insert_eq in Hl'; by simplify_eq|rewrite lookup_insert_ne in Hl' by done; eauto]). }
  assert (routes_ok (match m !! ru_name u with None => m | Some l => match erase_first (ru_route u) l with [] => delete (ru_name u) m | l => <[ru_name u := l]> m end end)) as Her.
  { destruct (m !! ru_name u) as [l|] eqn:E; [|by split]. destruct (erase_first (ru_route u) l) as [|r l'] eqn:El.
    - split; intros n x Hx; apply lookup_delete_Some in Hx as [_ Hx]; eauto.
    - apply Hins; [done|]. eapply sublist_NoDup; [by apply (H2 _ _ E)|]. rewrite <- El. apply erase_first_keys. }
  destruct (ru_action u); [|exact Her..]. apply Hins; [apply put_route_nonempty|]. apply put_route_unique. destruct (m !! ru_name u) eqn:E; [by eapply H2|constructor].
Qed.

Lemma applyUpdate_ok u s :
  tree_ok (rb_table s) -> routes_ok (routes_of (rb_table s)) ->
  exists s', applyUpdate u s = Some (inr tt, s') /\ tree_ok (rb_table s') /\ routes_of (rb_table s') = spec_step u (routes_of (rb_table s)) /\ same_rest s s'.
Proof.
  intros Ht Hr. assert (exists s', rib_erase (ru_name u) (ru_route u) s = Some (inr tt, s') /\ tree_ok (rb_table s') /\
    routes_of (rb_table s') = routes_of (erased (rb_table s) (ru_name u) (ru_route u)) /\ same_rest s s') as Her.
  { destruct (rib_erase_ok (ru_name u) (ru_route u) s Ht) as (s' & H1 & H2 & H3 & H4). exists s'. split_and!; [done|done| |apply H4..].
    rewrite <- routes_of_strip, H3. apply routes_of_strip. }
  unfold applyUpdate, spec_step. destruct (ru_action u).
  - destruct (rib_insert_ok (ru_name u) (ru_route u) s Ht) as (s' & H1 & H2 & H3 & H4). exists s'. split_and!; [done|done| |apply H4..].
    rewrite <- routes_of_strip, H3. unfold routes_of at 1. rewrite fmap_insert. cbn. rewrite inserted_routes. f_equal. apply routes_of_strip.
  - rewrite erased_routes in Her by done. exact Her.
  - rewrite erased_routes in Her by done. exact Her.
Qed.

(** C21: from a well-linked RIB, applying any updates in turn fails no assertion and leaves
    the RIB that of the plain map of prefixes to routes; every entry keeps a route and at most
    one for each face and origin, and is linked to the entry of its longest registered proper
    prefix, its parent, and to exactly the entries whose parent it is. *)
Theorem rib_is_a_map : forall us s,
  tree_ok (rb_table s) -> routes_ok (routes_of (rb_table s)) ->
  exists s', forM us applyUpdate s = Some (inr tt, s') /\
    routes_of (rb_table s') = fold_left (fun m u => spec_step u m) us (routes_of (rb_table s)) /\ routes_ok (routes_of (rb_table s')) /\
    (forall n e, rb_table s' !! n = Some e ->
       parent_of (rb_table s') n (re_parent e) /\ NoDup (re_children e) /\
       forall c, c ∈ re_children e <-> registered (rb_table s') c /\ parent_of (rb_table s') c (Some n)).
Proof.
  induction us as [|u us IH]; intros s Ht Hr.
  - exists s. split_and!; [done|done|done|]. intros n e He. destruct (Ht n e He) as (-> & H2 & H3). split_and!; [apply findParent_spec|done|].
    intros c. rewrite H2. split; intros [Hc Hp]; (split; [done|]).
    + rewrite <- Hp. apply findParent_spec.
    + eapply parent_of_unique; [apply findParent_spec|done].
  - destruct (applyUpdate_ok u s Ht Hr) as (s1 & Hrun & Ht1 & Hr1 & _). destruct (IH s1 Ht1) as (s' & Hrun' & Heq & Hok & Hlinks); [rewrite Hr1; by apply spec_step_ok|].
    exists s'. split_and!; [cbn [forM]; by rewrite (bind_run _ _ _ _ _ Hrun)|cbn; by rewrite <- Hr1|done|done].
Qed.

Definition rib_example : list RibUpdate :=
  let comp x := generic [x] in
  let a := [comp "a"%byte] in let ab := [comp "a"%byte; comp "b"%byte] in
  let r flags := mkRoute 1 0 10 flags None None in
  [mkRibUpdate REGISTER ab (r 0%N); mkRibUpdate REGISTER [] (r 3%N); mkRibUpdate REGISTER a (r 1%N); mkRibUpdate UNREGISTER [] (r 0%N)].
Lemma rib_empty_ok : tree_ok (rb_table Rib_empty) /\ routes_ok (routes_of (rb_table Rib_empty)).
Proof.
  change (rb_table Rib_empty) with (∅ : RibTable). split; [intros n e He; by rewrite lookup_empty in He|].
  unfold routes_of. rewrite fmap_empty. split; intros n l Hl; by rewrite lookup_empty in Hl.
Qed.
Lemma rib_is_a_map_witness :
  exists s', forM rib_example applyUpdate Rib_empty = Some (inr tt, s') /\ size (routes_of (rb_table s')) = 2%nat.
Proof.
  destruct (rib_is_a_map rib_example Rib_empty (proj1 rib_empty_ok) (proj2 rib_empty_ok)) as (s' & H1 & H2 & _).
  exists s'. split; [exact H1|]. rewrite H2. vm_compute. reflexivity.
Defined.
