(* ===== verification/RibFib.v ===== *)
(** * The FIB that the RIB asks for (daemon/rib/rib.cpp, fib-updater.cpp)

    A prefix has, in the FIB, its own routes at their least cost and, for the other faces, the
    route with the child-inherit flag of its nearest ancestor that has one, unless it or an
    ancestor in between has a route with the capture flag. The updater's effects for a new
    prefix and for a prefix that goes take the FIB and the inherited routes from those of the
    table before the update to those of the table after it. *)

From S2P Require Import Prelude Name Tlv ObjectMonad RibEntry RibLookup FibUpdater Rib RibTree.

(** ** What an update changes *)

(** The FIB, by prefix and face. *)
Abbreviation FibTable := (gmap (Name * N) N).
Definition fib_apply (u : FibUpdate) (fib : FibTable) : FibTable :=
  match fu_action u with
  | ADD_NEXTHOP => <[(fu_name u, fu_faceId u) := fu_cost u]> fib
  | REMOVE_NEXTHOP => delete (fu_name u, fu_faceId u) fib
  end.
Definition fib_apply_all (l : list FibUpdate) (fib : FibTable) : FibTable := fold_left (fun fib u => fib_apply u fib) l fib.

Definition on_key (n : Name) (f : N) (u : FibUpdate) : bool := Name_equals n (fu_name u) && (f =? fu_faceId u)%N.
Definition nexthop_of (u : FibUpdate) : option N := match fu_action u with ADD_NEXTHOP => Some (fu_cost u) | REMOVE_NEXTHOP => None end.
(** What a list of commands, of an updater and of the inherited routes, leaves of a name and a
    face; [None] when they are not touched. *)
Definition fib_effect (l : list FibUpdate) (n : Name) (f : N) : option (option N) := nexthop_of <$> List.find (on_key n f) l.
Definition inherited_effect (l : list RibUpdate) (n : Name) (f : N) : option bool :=
  fold_left (fun acc u => if Name_equals n (ru_name u) && (f =? rt_faceId (ru_route u))%N then Some (bool_decide (ru_action u = REGISTER)) else acc) l None.
Definition effect (p : Updater) (n : Name) (f : N) : option (option N) * option bool :=
  (fib_effect (if (f =? up_batchFaceId p)%N then up_batch p else up_nonBatch p) n f, inherited_effect (up_inherited p) n f).

Lemma Name_equals_refl n : Name_equals n n = true.
Proof. by apply Name_equals_spec. Qed.
Lemma Name_equals_ne n m : n <> m -> Name_equals n m = false.
Proof. intros H. apply not_true_iff_false. by intros ?%Name_equals_spec. Qed.
Lemma on_key_spec n f u : on_key n f u = true <-> n = fu_name u /\ f = fu_faceId u.
Proof. unfold on_key. by rewrite andb_true_iff, Name_equals_spec, N.eqb_eq. Qed.
Lemma put_update_find n f u l :
  List.find (on_key n f) (put_update u l) = if on_key n f u then Some (mkFibUpdate n f (fu_cost u) (fu_action u)) else List.find (on_key n f) l.
Proof.
  induction l as [|x l IH]; simpl.
  - destruct (on_key n f u) eqn:E; [|done]. apply on_key_spec in E as [-> ->]. by destruct u.
  - change (Name_equals (fu_name u) (fu_name x) && (fu_faceId u =? fu_faceId x)%N) with (on_key (fu_name u) (fu_faceId u) x).
    destruct (on_key (fu_name u) (fu_faceId u) x) eqn:Eu; simpl.
    + apply on_key_spec in Eu as [E1 E2].
      assert (forall y, fu_name y = fu_name x -> fu_faceId y = fu_faceId x -> on_key n f y = on_key n f u) as Hk by (intros y Hn Hf; unfold on_key; by rewrite Hn, Hf, E1, E2).
      rewrite (Hk x), (Hk (mkFibUpdate _ _ _ _)) by done. destruct (on_key n f u) eqn:E; [|done]. apply on_key_spec in E as [-> ->]. by rewrite E1, E2.
    + destruct (on_key n f x) eqn:Ex; [|done]. destruct (on_key n f u) eqn:E; [|done].
      apply on_key_spec in E as [-> ->]. by rewrite Ex in Eu.
Qed.
Lemma effect_fib u p n f :
  effect (addFibUpdate u p) n f = (if on_key n f u then Some (nexthop_of u) else (effect p n f).1, (effect p n f).2).
Proof.
  unfold effect, addFibUpdate. destruct (fu_faceId u =? up_batchFaceId p)%N eqn:Eb; cbn [up_batchFaceId up_batch up_nonBatch up_inherited fst snd]; f_equal.
  - apply N.eqb_eq in Eb. destruct (f =? up_batchFaceId p)%N eqn:Ef.
    + unfold fib_effect. rewrite put_update_find. by destruct (on_key n f u).
    + destruct (on_key n f u) eqn:E; [|done]. apply on_key_spec in E as [_ ->]. apply N.eqb_neq in Ef. done.
  - apply N.eqb_neq in Eb. destruct (f =? up_batchFaceId p)%N eqn:Ef.
    + destruct (on_key n f u) eqn:E; [|done]. apply on_key_spec in E as [_ ->]. by apply N.eqb_eq in Ef.
    + unfold fib_effect. rewrite put_update_find. by destruct (on_key n f u).
Qed.
Lemma effect_addInherited name r p n f :
  effect (addInherited name r p) n f = ((effect p n f).1, if Name_equals n name && (f =? rt_faceId r)%N then Some true else (effect p n f).2).
Proof. unfold effect. cbn. f_equal. unfold inherited_effect. by rewrite fold_left_app. Qed.
Lemma effect_removeInherited name r p n f :
  effect (removeInherited name r p) n f = ((effect p n f).1, if Name_equals n name && (f =? rt_faceId r)%N then Some false else (effect p n f).2).
Proof. unfold effect. cbn. f_equal. unfold inherited_effect. by rewrite fold_left_app. Qed.

(** The two halves of what is done for a route at a name. *)
Lemma effect_add name r p n f :
  effect (addFibUpdate (createAddUpdate name (rt_faceId r) (rt_cost r)) (addInherited name r p)) n f =
    if Name_equals n name && (f =? rt_faceId r)%N then (Some (Some (rt_cost r)), Some true) else effect p n f.
Proof.
  rewrite effect_fib, effect_addInherited. cbn [fst snd]. unfold on_key, createAddUpdate, nexthop_of. cbn [fu_name fu_faceId fu_action fu_cost].
  destruct (_ && _); [done|by destruct (effect p n f)].
Qed.
Lemma effect_remove name r p n f :
  effect (addFibUpdate (createRemoveUpdate name (rt_faceId r)) (removeInherited name r p)) n f =
    if Name_equals n name && (f =? rt_faceId r)%N then (Some None, Some false) else effect p n f.
Proof.
  rewrite effect_fib, effect_removeInherited. cbn [fst snd]. unfold on_key, createRemoveUpdate, nexthop_of. cbn [fu_name fu_faceId fu_action fu_cost].
  destruct (_ && _); [done|by destruct (effect p n f)].
Qed.

(** ** The loops over routes *)

Abbreviation faces l := (rt_faceId <$> l).
Definition at_face (f : N) (s : list Route) : option Route := List.find (fun r => (rt_faceId r =? f)%N) s.
Lemma at_face_spec f s r : NoDup (faces s) -> at_face f s = Some r <-> r ∈ s /\ rt_faceId r = f.
Proof.
  unfold at_face. induction s as [|x s IH]; simpl; [by split; [|intros [?%not_elem_of_nil _]]|]. intros [Hx Hs]%NoDup_cons. rewrite elem_of_cons. destruct (_ =? _)%N eqn:E.
  - apply N.eqb_eq in E. split; [intros [= ->]; by split; [left|]|]. intros [[->|Hr] Hf]; [done|]. exfalso. apply Hx. rewrite E, <- Hf. by apply list_elem_of_fmap_2.
  - apply N.eqb_neq in E. rewrite IH by done. naive_solver.
Qed.
Lemma at_face_none f s : at_face f s = None <-> f ∉ faces s.
Proof.
  unfold at_face. induction s as [|x s IH]; [by split; [intros _ ?%not_elem_of_nil|]|]. csimpl. rewrite not_elem_of_cons. destruct (_ =? _)%N eqn:E.
  - apply N.eqb_eq in E. naive_solver.
  - apply N.eqb_neq in E. rewrite IH. naive_solver.
Qed.
Lemma at_face_face f s r : at_face f s = Some r -> rt_faceId r = f.
Proof. intros H. apply List.find_some in H as [_ H]. by apply N.eqb_eq. Qed.
Lemma at_face_filter f s (keep : N -> bool) : at_face f (List.filter (fun r => keep (rt_faceId r)) s) = if keep f then at_face f s else None.
Proof.
  unfold at_face. induction s as [|x s IH]; simpl; [by destruct (keep f)|]. destruct (keep (rt_faceId x)) eqn:K; simpl; destruct (rt_faceId x =? f)%N eqn:E; rewrite ?IH; try done.
  - apply N.eqb_eq in E. subst. by rewrite K.
  - apply N.eqb_eq in E. subst. by rewrite K.
Qed.
Lemma filter_faces_nodup s (keep : Route -> bool) : NoDup (faces s) -> NoDup (faces (List.filter keep s)).
Proof.
  induction s as [|x s IH]; [done|]. csimpl. intros [Hx Hs]%NoDup_cons. destruct (keep x); [|auto]. csimpl. apply NoDup_cons. split; [|auto].
  intros (y & Hy & Hin)%list_elem_of_fmap. apply Hx. rewrite Hy. apply list_elem_of_fmap_2. apply list_elem_of_In, List.filter_In in Hin as [Hin _]. by apply list_elem_of_In.
Qed.

Section route_loop.
Context (name : Name) (sel : N -> bool) (val : Route -> option (option N) * option bool) (step : Route -> Updater -> Updater).
Context (Hstep : forall r p n f, effect (step r p) n f = if Name_equals n name && (f =? rt_faceId r)%N && sel f then val r else effect p n f).
Lemma route_loop s p n f :
  NoDup (faces s) ->
  effect (fold_left (fun p r => step r p) s p) n f = match (if Name_equals n name && sel f then at_face f s else None) with Some r => val r | None => effect p n f end.
Proof.
  revert p. induction s as [|x s IH]; intros p Hnd; [by destruct (_ && _)|]. csimpl in Hnd. apply NoDup_cons in Hnd as [Hx Hs]. cbn [fold_left]. rewrite IH by done. rewrite Hstep.
  unfold at_face. cbn [List.find]. rewrite (N.eqb_sym (rt_faceId x)). destruct (Name_equals n name), (sel f), (f =? rt_faceId x)%N eqn:E; cbn [andb]; try done.
  apply N.eqb_eq in E. subst. change (match at_face (rt_faceId x) s with Some r => val r | None => val x end = val x). by rewrite (proj2 (at_face_none _ _) Hx).
Qed.
End route_loop.

Definition added (r : Route) : option (option N) * option bool := (Some (Some (rt_cost r)), Some true).
Definition removed : option (option N) * option bool := (Some None, Some false).
Lemma addInheritedRoutes_effect name skip s p n f :
  NoDup (faces s) ->
  effect (addInheritedRoutes name skip s p) n f = match (if Name_equals n name && negb (skip f) then at_face f s else None) with Some r => added r | None => effect p n f end.
Proof.
  intros Hnd. apply (route_loop name (fun f => negb (skip f)) added
    (fun r p => if skip (rt_faceId r) then p else addFibUpdate (createAddUpdate name (rt_faceId r) (rt_cost r)) (addInherited name r p))); [|done].
  clear. intros r p n f. destruct (Name_equals n name) eqn:En, (f =? rt_faceId r)%N eqn:Ef; [apply N.eqb_eq in Ef; subst|..]; destruct (skip (rt_faceId r)) eqn:Es; rewrite ?effect_add, ?En, ?Ef, ?N.eqb_refl, ?Es; done.
Qed.
Lemma hasInheritedRoute_face e r r' : rt_faceId r = rt_faceId r' -> hasInheritedRoute e r = hasInheritedRoute e r'.
Proof. unfold hasInheritedRoute. by intros ->. Qed.
(** Whether an entry inherits a route on a face. *)
Definition has_inherited (e : RibEntry) (f : N) : bool := existsb (fun r => (rt_faceId r =? f)%N) (re_inherited e).
Lemma removeInheritedRoutes_effect name e s p n f :
  NoDup (faces s) ->
  effect (removeInheritedRoutes name e s p) n f = match (if Name_equals n name && has_inherited e f then at_face f s else None) with Some _ => removed | None => effect p n f end.
Proof.
  intros Hnd. apply (route_loop name (has_inherited e) (fun _ => removed)
    (fun r p => if hasInheritedRoute e r then addFibUpdate (createRemoveUpdate name (rt_faceId r)) (removeInherited name r p) else p)); [|done].
  clear. intros r p n f. change (hasInheritedRoute e r) with (has_inherited e (rt_faceId r)).
  destruct (Name_equals n name) eqn:En, (f =? rt_faceId r)%N eqn:Ef; [apply N.eqb_eq in Ef; subst|..]; destruct (has_inherited e (rt_faceId r)) eqn:Es; rewrite ?effect_remove, ?En, ?Ef, ?N.eqb_refl, ?Es; done.
Qed.

(** The passes are loops over the routes that go on. *)
Definition going_on (e : RibEntry) (s : RouteSet) : RouteSet := List.filter (fun r => negb (hasChildInheritOnFaceId e (rt_faceId r))) s.
Lemma remove_pass_loop name e s p : remove_pass name e s p = (going_on e s, removeInheritedRoutes name e (going_on e s) p).
Proof.
  revert p. induction s as [|r s IH]; intros p; [done|]. cbn [remove_pass going_on List.filter]. destruct (hasChildInheritOnFaceId e (rt_faceId r)); cbn [negb]; [apply IH|].
  rewrite IH. done.
Qed.
Lemma add_pass_loop name e s p : add_pass name e s p = (going_on e s, addInheritedRoutes name (hasFaceId e) (going_on e s) p).
Proof.
  revert p. induction s as [|r s IH]; intros p; [done|]. cbn [add_pass going_on List.filter]. destruct (hasChildInheritOnFaceId e (rt_faceId r)); cbn [negb]; [apply IH|].
  rewrite IH. cbn. by destruct (hasFaceId e (rt_faceId r)).
Qed.
Lemma at_face_going_on e s f : at_face f (going_on e s) = if hasChildInheritOnFaceId e f then None else at_face f s.
Proof. unfold going_on. rewrite (at_face_filter f s (fun g => negb (hasChildInheritOnFaceId e g))). by destruct (hasChildInheritOnFaceId e f). Qed.

(** ** What a prefix inherits *)

Definition captures (e : RibEntry) : bool := existsb isRibCapture (re_routes e).
(** The prefixes of a name whose length is at least [lo] and less than [hi], the longest first. *)
Definition down (n : Name) (hi lo : nat) : list Name := (fun i => take i n) <$> rev (seq lo (hi - lo)).
(** The route on the face that an entry gives to those below it. *)
Definition gives (e : RibEntry) (f : N) : option Route := List.find (fun r => (rt_faceId r =? f)%N && isChildInherit r) (re_routes e).
(** The first of the names that are registered and give a route on the face or capture. *)
Fixpoint scan (t : RibTable) (f : N) (l : list Name) : option (option Route) :=
  match l with
  | [] => None
  | n :: l => match t !! n with
              | None => scan t f l
              | Some e => match gives e f with
                          | Some r => Some (Some r)
                          | None => if captures e then Some None else scan t f l
                          end
              end
  end.
Definition inherits (t : RibTable) (n : Name) (f : N) : option Route := mjoin (scan t f (down n (length n) 0)).

Lemma scan_app t f l l' : scan t f (l ++ l') = match scan t f l with None => scan t f l' | x => x end.
Proof. induction l as [|n l IH]; [done|]. cbn [scan app]. destruct (t !! n); [|done]. destruct (gives _ f); [done|]. by destruct (captures _). Qed.
Lemma scan_ext t t' f l : (forall n, n ∈ l -> re_routes <$> t' !! n = re_routes <$> t !! n) -> scan t' f l = scan t f l.
Proof.
  induction l as [|n l IH]; intros H; [done|]. cbn [scan]. pose proof (H n ltac:(by left)) as Hn. rewrite IH by (intros m Hm; apply H; by right).
  unfold gives, captures. destruct (t !! n), (t' !! n); simplify_eq/=; [by rewrite Hn|done].
Qed.
Lemma scan_unregistered t f l : (forall n, n ∈ l -> ~ registered t n) -> scan t f l = None.
Proof.
  induction l as [|n l IH]; intros H; [done|]. cbn [scan]. destruct (t !! n) eqn:E; [|apply IH; intros m Hm; apply H; by right].
  exfalso. apply (H n); [by left|by eexists].
Qed.
Lemma down_elem n hi lo x : (hi <= S (length n))%nat -> x ∈ down n hi lo <-> x `prefix_of` n /\ (lo <= length x < hi)%nat.
Proof.
  intros Hhi. unfold down. rewrite list_elem_of_fmap. split.
  - intros (i & -> & Hi). apply list_elem_of_In, in_rev, in_seq in Hi. split; [apply prefix_take|]. rewrite length_take. lia.
  - intros [[k ->] Hx]. exists (length x). rewrite take_app_length. split; [done|]. apply list_elem_of_In, in_rev. rewrite rev_involutive. apply in_seq. lia.
Qed.
Lemma down_split n hi mid lo : (lo <= mid <= hi)%nat -> down n hi lo = down n hi mid ++ down n mid lo.
Proof.
  intros H. unfold down. replace (hi - lo)%nat with ((mid - lo) + (hi - mid))%nat by lia. rewrite seq_app, rev_app_distr, fmap_app. by replace (lo + (mid - lo))%nat with mid by lia.
Qed.
Lemma down_prefix m n hi lo : m `prefix_of` n -> (hi <= S (length m))%nat -> down n hi lo = down m hi lo.
Proof.
  intros [k ->] H. unfold down. apply list_fmap_ext. intros j i Hi. apply list_elem_of_lookup_2, list_elem_of_In, in_rev, in_seq in Hi.
  rewrite take_app_le by lia. done.
Qed.
Lemma down_one n i : down n (S i) i = [take i n].
Proof. unfold down. by replace (S i - i)%nat with 1%nat by lia. Qed.

(** From a name below a prefix down to the prefix; what is inherited passes there. *)
Lemma scan_above t f m n : above m n ->
  scan t f (down n (length n) 0) = match scan t f (down n (length n) (S (length m))) with
                                   | Some x => Some x
                                   | None => match scan t f [m] with Some x => Some x | None => scan t f (down m (length m) 0) end
                                   end.
Proof.
  intros Ha. pose proof (above_length _ _ Ha) as Hl. destruct Ha as [Hp _]. rewrite (down_split n (length n) (S (length m)) 0), scan_app by lia.
  destruct (scan t f (down n _ _)); [done|]. rewrite (down_split n (S (length m)) (length m) 0), scan_app by lia. rewrite down_one.
  rewrite (down_prefix m n (length m)) by (first [done|lia]). destruct Hp as [k ->]. by rewrite take_app_length.
Qed.

(** ** Passing routes to the subtree *)

(** A name in the subtree of [d] that routes on the face pass down to. *)
Definition reaches (t : RibTable) (d n : Name) (f : N) : Prop :=
  d `prefix_of` n /\ registered t n /\ scan t f (down n (S (length n)) (length d)) = None.
#[global] Instance reaches_dec t d n f : Decision (reaches t d n f).
Proof. unfold reaches, registered. apply _. Defined.
Definition passed (t : RibTable) (A R : RouteSet) (n : Name) (f : N) (old : option (option N) * option bool) : option (option N) * option bool :=
  match t !! n with
  | None => old
  | Some e => match (if hasFaceId e f then None else at_face f A) with
              | Some r => added r
              | None => match (if has_inherited e f then at_face f R else None) with Some _ => removed | None => old end
              end
  end.

Definition below (t : RibTable) (d : Name) : gset Name := filter (fun n => d `prefix_of` n) (dom t).
Lemma below_lt t c d : above d c -> registered t d -> (size (below t c) < size (below t d))%nat.
Proof.
  intros Ha Hd. apply subset_size. split.
  - intros n. unfold below. rewrite !elem_of_filter. intros [Hn Hr]. split; [|done]. destruct Ha as [Ha _]. by etrans.
  - intros H. assert (d ∈ below t c) as [Hdc _]%elem_of_filter by (apply H; apply elem_of_filter; split; [done|by apply elem_of_dom]).
    destruct Ha as [H1 H2]. apply H2. by apply (anti_symm prefix).
Qed.
Lemma below_size t d : (size (below t d) <= size t)%nat.
Proof. rewrite <- size_dom. apply subseteq_size. intros n. unfold below. rewrite elem_of_filter. by intros [_ ?]. Qed.

(** The names right below a name: with no registered name in between. *)
Definition right_below (t : RibTable) (d c : Name) : Prop := registered t c /\ above d c /\ forall q, registered t q -> above q c -> ~ above d q.
Lemma right_below_towards t d n : registered t n -> above d n -> exists c, right_below t d c /\ c `prefix_of` n.
Proof.
  remember (length n) as k eqn:Hk. revert n Hk. induction (lt_wf k) as [k _ IH]. intros n -> Hn Ha.
  pose proof (findParent_spec t n) as Hp. destruct (findParent t n) as [p|] eqn:E.
  - destruct Hp as (Hp1 & Hp2 & Hp3). destruct (prefix_comparable d p n (proj1 Ha) (proj1 Hp2)) as [->|[Hdp|Hpd]].
    + exists n. split; [|done]. split_and!; [done|apply Ha..|]. intros q Hq Hqn [H1 H2]. apply H2. apply (anti_symm prefix); auto.
    + destruct (IH (length p) (above_length _ _ Hp2) p eq_refl Hp1 Hdp) as (c & H1 & H2). exists c. split; [done|]. etrans; [done|apply Hp2].
    + exists n. split; [|done]. split_and!; [done|apply Ha..|]. intros q Hq Hqn Hdq. destruct (above_prefix_trans _ _ _ Hdq (Hp3 q Hq Hqn)) as [H1 H2]. apply H2. by apply (anti_symm prefix); [|apply Hpd].
  - exists n. split; [|done]. split_and!; [done|apply Ha..|]. intros q Hq Hqn. by destruct (Hp q Hq).
Qed.
Lemma right_below_apart t d c c' n : right_below t d c -> right_below t d c' -> c `prefix_of` n -> c' `prefix_of` n -> c = c'.
Proof.
  intros (H1 & H2 & H3) (K1 & K2 & K3) Hp Hp'. destruct (prefix_comparable c c' n Hp Hp') as [?|[H|H]]; [done| |]; exfalso; [by apply (K3 c)|by apply (H3 c')].
Qed.
Lemma scan_right_below t d c n f :
  right_below t d c -> c `prefix_of` n -> scan t f (down n (S (length n)) (S (length d))) = scan t f (down n (S (length n)) (length c)).
Proof.
  intros (Hr & Ha & Hno) Hcn. pose proof (above_length _ _ Ha) as Hl. pose proof (prefix_length _ _ Hcn) as Hl'.
  rewrite (down_split n (S (length n)) (length c) (S (length d))), scan_app by lia.
  rewrite (scan_unregistered _ _ (down n (length c) (S (length d)))); [by destruct (scan t f _)|].
  intros m [Hm Hml]%down_elem Hmr; [|lia]. apply (Hno m Hmr).
  - destruct (prefix_weak_total m c n Hm Hcn) as [H|H]; [|apply prefix_length in H; lia]. split; [done|]. intros ->. lia.
  - destruct Ha as [Ha _]. destruct (prefix_weak_total m d n Hm ltac:(by etrans)) as [H|H]; [apply prefix_length in H; lia|]. split; [done|]. intros ->. lia.
Qed.
Lemma children_right_below t d e c : tree_ok t -> t !! d = Some e -> c ∈ re_children e <-> right_below t d c.
Proof.
  intros Ht He. destruct (Ht d e He) as (_ & Hcs & _). rewrite Hcs. split.
  - intros [Hr Hc]. split_and!; [done|by apply findParent_above in Hc as [_ [??]]..|]. intros q Hq Hqc [H1 H2]. pose proof (findParent_below _ _ _ _ Hc Hq Hqc). apply H2. by apply (anti_symm prefix).
  - intros (Hr & Ha & Hno). split; [done|]. apply (parent_of_unique t c); [apply findParent_spec|]. split_and!; [by eexists|apply Ha..|]. intros q Hq Hqc.
    destruct (prefix_comparable d q c (proj1 Ha) (proj1 Hqc)) as [->|[H|H]]; [done|by destruct (Hno q)|apply H].
Qed.
(** Those that become children of a name that is not registered. *)
Lemma parent_right_below t d c : t !! d = None -> registered t c -> above d c -> findParent t c = findParent t d <-> right_below t d c.
Proof.
  intros Hd Hr Ha. split.
  - intros E. split_and!; [done|apply Ha..|]. intros q Hq Hqc Hdq. pose proof (findParent_spec t c) as Hc. rewrite E in Hc. destruct (findParent t d) as [p|] eqn:Ep.
    + destruct (findParent_above _ _ _ Ep) as [_ Hpd]. destruct Hc as (_ & _ & Hc). pose proof (Hc q Hq Hqc) as Hqp. destruct (above_trans _ _ _ (above_prefix_trans _ _ _ Hdq Hqp) Hpd) as [_ []]. done.
    + by apply (Hc q).
  - intros (_ & _ & Hno). apply (parent_of_unique t c); [apply findParent_spec|]. pose proof (findParent_spec t d) as Hp.
    assert (forall q, registered t q -> above q c -> above q d) as Hq.
    { intros q Hq Hqc. destruct (prefix_comparable d q c (proj1 Ha) (proj1 Hqc)) as [->|[H|H]]; [destruct Hq as [x Hx]; congruence|by destruct (Hno q)|done]. }
    destruct (findParent t d) as [p|].
    + destruct Hp as (H1 & H2 & H3). split_and!; [done|by apply (above_trans _ d)..|]. intros q Hq1 Hq2. auto.
    + intros q Hq1 Hq2. apply (Hp q); auto.
Qed.

Lemma scan_none t f l : scan t f l = None <-> forall n e, n ∈ l -> t !! n = Some e -> gives e f = None /\ captures e = false.
Proof.
  induction l as [|n l IH]; cbn [scan]; [by split; [intros _ n e ?%not_elem_of_nil|]|]. split.
  - intros H m e [->|Hm]%elem_of_cons He.
    + rewrite He in H. by destruct (gives e f), (captures e).
    + apply (proj1 IH) with m; [|done|done]. destruct (t !! n) as [e'|]; [|done]. by destruct (gives e' f), (captures e').
  - intros H. destruct (t !! n) as [e|] eqn:He; [|apply IH; intros m e Hm; apply H; by right].
    destruct (H n e ltac:(by left) He) as [-> ->]. apply IH. intros m e' Hm. apply H. by right.
Qed.
Lemma gives_childInherit e f : hasChildInheritOnFaceId e f = match gives e f with Some _ => true | None => false end.
Proof. unfold hasChildInheritOnFaceId, gives. induction (re_routes e) as [|r l IH]; [done|]. simpl. by destruct (_ && _). Qed.

(** Those below a name that routes on the face pass down to from it. *)
Definition reaches_under (t : RibTable) (d n : Name) (f : N) : Prop :=
  above d n /\ registered t n /\ scan t f (down n (S (length n)) (S (length d))) = None.
#[global] Instance reaches_under_dec t d n f : Decision (reaches_under t d n f).
Proof. unfold reaches_under, above, registered. apply _. Defined.

Section traverse.
Context (t : RibTable) (Htree : tree_ok t) (Hcount : forall n e, t !! n = Some e -> hasCapture e = captures e).

Lemma reaches_top d n f e : reaches t d n f -> t !! d = Some e -> gives e f = None /\ captures e = false.
Proof.
  intros (Hp & _ & Hs) He. eapply scan_none; [exact Hs| |done]. apply down_elem; [lia|]. split; [done|]. apply prefix_length in Hp. lia.
Qed.
Lemma reaches_self d f e : t !! d = Some e -> gives e f = None -> captures e = false -> reaches t d d f.
Proof.
  intros He Hg Hc. split_and!; [done|by eexists|]. rewrite down_one, take_ge by lia. cbn. by rewrite He, Hg, Hc.
Qed.
Lemma reaches_right_below d c n f : right_below t d c -> reaches t c n f <-> reaches_under t d n f /\ c `prefix_of` n.
Proof.
  intros Hc. pose proof Hc as (Hr & Ha & _). unfold reaches, reaches_under. split.
  - intros (Hcn & Hn & Hs). rewrite (scan_right_below _ _ _ _ _ Hc Hcn). split; [|done]. split; [by eapply above_prefix_trans|done].
  - intros ((Han & Hn & Hs) & Hcn). by rewrite (scan_right_below _ _ _ _ _ Hc Hcn) in Hs.
Qed.
Lemma reaches_under_top d n f e : t !! d = Some e -> n <> d -> reaches t d n f <-> reaches_under t d n f /\ gives e f = None /\ captures e = false.
Proof.
  intros He Hne. assert (forall k, n = d ++ k -> scan t f (down n (S (length n)) (length d)) =
    match scan t f (down n (S (length n)) (S (length d))) with Some x => Some x | None => scan t f [d] end) as Hsc.
  { intros k ->. rewrite (down_split _ _ (S (length d)) (length d)), scan_app, down_one, take_app_length by (rewrite length_app; lia). by destruct (scan t f (down _ _ _)). }
  unfold reaches, reaches_under. split.
  - intros ([k Hk] & Hn & Hs). rewrite (Hsc k Hk) in Hs. destruct (scan t f (down n (S (length n)) (S (length d)))) eqn:Es; [done|]. cbn in Hs. rewrite He in Hs.
    destruct (gives e f); [done|]. destruct (captures e); [done|]. split; [|done]. split; [|done]. split; [by exists k|congruence].
  - intros (([[k Hk] _] & Hn & Hs) & Hg & Hc). split_and!; [by exists k|done|]. rewrite (Hsc k Hk), Hs. cbn. by rewrite He, Hg, Hc.
Qed.
Lemma passed_going_on A R e n f old : gives e f = None -> passed t (going_on e A) (going_on e R) n f old = passed t A R n f old.
Proof. intros Hg. unfold passed. by rewrite !at_face_going_on, gives_childInherit, Hg. Qed.

Lemma children_effect A R (go : Name -> Updater -> Updater) d cs p n f :
  (forall c, c ∈ cs <-> right_below t d c) -> NoDup cs ->
  (forall c p, c ∈ cs -> effect (go c p) n f = if decide (reaches t c n f) then passed t A R n f (effect p n f) else effect p n f) ->
  effect (fold_left (fun p c => go c p) cs p) n f = if decide (reaches_under t d n f) then passed t A R n f (effect p n f) else effect p n f.
Proof.
  intros Hcs Hnd Hgo. transitivity (if decide (Exists (fun c => reaches t c n f) cs) then passed t A R n f (effect p n f) else effect p n f).
  - assert (forall c, c ∈ cs -> right_below t d c) as Hrb by (intros c; apply Hcs). clear Hcs. revert p. induction Hnd as [|c cs Hc Hnd IH]; intros p; cbn [fold_left].
    + rewrite decide_False; [done|]. by intros (c & ?%not_elem_of_nil & _)%Exists_exists.
    + rewrite IH; [|intros x q Hx; apply Hgo; by right|intros x Hx; apply Hrb; by right].
      rewrite Hgo by (by left). destruct (decide (reaches t c n f)) as [Hr|Hr].
      * rewrite decide_False, decide_True; [done|by left|]. intros (c' & Hc' & Hr')%Exists_exists. apply Hc.
        replace c with c'; [done|]. eapply (right_below_apart t d); [apply Hrb; by right|apply Hrb; by left|apply Hr'|apply Hr].
      * destruct (decide (Exists (fun c => reaches t c n f) cs)) as [Hex|Hno]; [rewrite decide_True; [done|by right]|].
        rewrite decide_False; [done|]. by intros [?|?]%Exists_cons.
  - assert (Exists (fun c => reaches t c n f) cs <-> reaches_under t d n f) as Hiff.
    { rewrite Exists_exists. split.
      - intros (c & Hc%Hcs & Hr). by eapply reaches_right_below.
      - intros Hr. destruct (right_below_towards t d n) as (c & Hc & Hcn); [apply Hr..|]. exists c. split; [by apply Hcs|]. by apply (reaches_right_below d). }
    repeat case_decide; tauto.
Qed.
Lemma traverse_effect fuel d A R p n f :
  (size (below t d) < fuel)%nat -> registered t d -> NoDup (faces A) -> NoDup (faces R) ->
  effect (traverseSubTree fuel t d A R p) n f = if decide (reaches t d n f) then passed t A R n f (effect p n f) else effect p n f.
Proof.
  revert d A R p n f. induction fuel as [|fuel IH]; intros d A R p n f Hfuel [e He] HA HR; [lia|]. cbn [traverseSubTree]. rewrite He, (Hcount _ _ He).
  destruct (captures e) eqn:Hca.
  { rewrite decide_False; [done|]. intros Hr. destruct (reaches_top _ _ _ _ Hr He). congruence. }
  rewrite remove_pass_loop, add_pass_loop. pose proof (fun c => children_right_below t d e c Htree He) as Hcs. destruct (Htree d e He) as (_ & _ & Hnd).
  rewrite (children_effect (going_on e A) (going_on e R) _ d); [|done|done|].
  2: { intros c q (Hr & Ha & _)%Hcs. apply IH; [|done|by apply filter_faces_nodup..]. pose proof (below_lt t c d Ha ltac:(by eexists)). lia. }
  rewrite addInheritedRoutes_effect, removeInheritedRoutes_effect by (by apply filter_faces_nodup).
  destruct (decide (n = d)) as [->|Hne].
  - rewrite (decide_False (P:=reaches_under _ _ _ _)) by (intros [[_ []] _]; done).
    rewrite Name_equals_refl. cbn [andb]. rewrite !at_face_going_on, gives_childInherit. destruct (gives e f) eqn:Hg.
    + rewrite decide_False; [by destruct (negb _), (has_inherited e f)|]. intros Hr. destruct (reaches_top _ _ _ _ Hr He). congruence.
    + rewrite decide_True by (by eapply reaches_self). unfold passed. rewrite He. by destruct (hasFaceId e f).
  - rewrite (Name_equals_ne n d) by done. cbn [andb].
    pose proof (reaches_under_top d n f e He Hne) as Htop. destruct (decide (reaches_under t d n f)) as [Hr|Hno].
    + destruct (gives e f) as [r|] eqn:Hg.
      * unfold passed at 1. rewrite !at_face_going_on, gives_childInherit, Hg. rewrite decide_False by (intros (_ & ? & _)%Htop; done).
        destruct (t !! n) as [x|]; [|done]. by destruct (hasFaceId x f), (has_inherited x f).
      * rewrite passed_going_on by done. rewrite decide_True; [done|]. apply Htop. by split_and!.
    + rewrite decide_False; [done|]. intros Hr. by apply Htop in Hr as [? _].
Qed.
Lemma modifyChildren_effect d cs A R p n f :
  (forall c, c ∈ cs <-> right_below t d c) -> NoDup cs -> NoDup (faces A) -> NoDup (faces R) ->
  effect (modifyChildrensInheritedRoutes t cs A R p) n f = if decide (reaches_under t d n f) then passed t A R n f (effect p n f) else effect p n f.
Proof.
  intros Hcs Hnd HA HR. apply children_effect; [done|done|]. intros c q (Hr & _)%Hcs. apply traverse_effect; [|done..]. pose proof (below_size t c). lia.
Qed.
End traverse.

(** ** Well-formed updaters *)

(** One command for a name and a face, in the list of its face; inherited routes are only
    added and removed. *)
Record up_wf (p : Updater) : Prop := {
  uw_batch_keys : NoDup ((fun u => (fu_name u, fu_faceId u)) <$> up_batch p);
  uw_nonBatch_keys : NoDup ((fun u => (fu_name u, fu_faceId u)) <$> up_nonBatch p);
  uw_batch : forall u, u ∈ up_batch p -> fu_faceId u = up_batchFaceId p;
  uw_nonBatch : forall u, u ∈ up_nonBatch p -> fu_faceId u <> up_batchFaceId p;
  uw_inherited : forall u, u ∈ up_inherited p -> ru_action u <> REMOVE_FACE;
}.
Lemma put_update_keys u l k : k ∈ ((fun u => (fu_name u, fu_faceId u)) <$> put_update u l) <-> k = (fu_name u, fu_faceId u) \/ k ∈ ((fun u => (fu_name u, fu_faceId u)) <$> l).
Proof.
  induction l as [|x l IH]; csimpl; [by rewrite list_elem_of_singleton, elem_of_nil; naive_solver|].
  destruct (_ && _) eqn:E; csimpl; rewrite !elem_of_cons, ?IH; [|naive_solver]. cbn [fu_name fu_faceId].
  apply andb_true_iff in E as [E1%Name_equals_spec E2%N.eqb_eq]. rewrite E1, E2. naive_solver.
Qed.
Lemma put_update_nodup u l : NoDup ((fun u => (fu_name u, fu_faceId u)) <$> l) -> NoDup ((fun u => (fu_name u, fu_faceId u)) <$> put_update u l).
Proof.
  induction l as [|x l IH]; csimpl; [intros _; apply NoDup_singleton|]. intros [Hx Hl]%NoDup_cons. destruct (_ && _) eqn:E; csimpl; apply NoDup_cons; (split; [|auto]); [done|].
  rewrite put_update_keys. intros [[= E1 E2]|?]; [|done]. by rewrite E1, E2, Name_equals_refl, N.eqb_refl in E.
Qed.
Lemma put_update_face u l x : x ∈ put_update u l -> fu_faceId x = fu_faceId u \/ exists y, y ∈ l /\ fu_faceId x = fu_faceId y.
Proof.
  intros H. assert ((fu_name x, fu_faceId x) ∈ ((fun u => (fu_name u, fu_faceId u)) <$> put_update u l)) as Hk by (apply list_elem_of_fmap; by exists x).
  apply put_update_keys in Hk as [[= _ ->]|(y & [= _ E] & Hy)%list_elem_of_fmap]; [by left|right; by exists y].
Qed.
Lemma up_wf_addFibUpdate u p : up_wf p -> up_wf (addFibUpdate u p).
Proof.
  intros [H1 H2 H3 H4 H5]. unfold addFibUpdate. destruct (fu_faceId u =? up_batchFaceId p)%N eqn:E; split; cbn; auto using put_update_nodup.
  - apply N.eqb_eq in E. intros x [->|(y & Hy & ->)]%put_update_face; auto.
  - apply N.eqb_neq in E. intros x [->|(y & Hy & ->)]%put_update_face; auto.
Qed.
Lemma up_wf_addInherited name r p : up_wf p -> up_wf (addInherited name r p).
Proof. intros [H1 H2 H3 H4 H5]. split; cbn; auto. intros u [?| ->%list_elem_of_singleton]%elem_of_app; auto. Qed.
Lemma up_wf_removeInherited name r p : up_wf p -> up_wf (removeInherited name r p).
Proof. intros [H1 H2 H3 H4 H5]. split; cbn; auto. intros u [?| ->%list_elem_of_singleton]%elem_of_app; auto. Qed.
Lemma up_wf_fold {A} (g : Updater -> A -> Updater) l p : (forall p x, up_wf p -> up_wf (g p x)) -> up_wf p -> up_wf (fold_left g l p).
Proof. intros Hg. revert p. induction l as [|x l IH]; intros p Hp; [done|]. apply IH. auto. Qed.
Lemma up_wf_fresh f : up_wf (mkUpdater f [] [] []).
Proof. split; cbn; [constructor|constructor|by intros ? ?%not_elem_of_nil..]. Qed.
Create HintDb up_wf.
#[export] Hint Resolve up_wf_addFibUpdate up_wf_addInherited up_wf_removeInherited up_wf_fresh : up_wf.

Lemma up_wf_addInheritedRoutes name skip s p : up_wf p -> up_wf (addInheritedRoutes name skip s p).
Proof. intros H. apply up_wf_fold; [|done]. intros q r Hq. destruct (skip _); auto with up_wf. Qed.
Lemma up_wf_removeInheritedRoutes name e s p : up_wf p -> up_wf (removeInheritedRoutes name e s p).
Proof. intros H. apply up_wf_fold; [|done]. intros q r Hq. destruct (hasInheritedRoute _ _); auto with up_wf. Qed.
#[export] Hint Resolve up_wf_addInheritedRoutes up_wf_removeInheritedRoutes : up_wf.
Lemma up_wf_traverse fuel t d A R p : up_wf p -> up_wf (traverseSubTree fuel t d A R p).
Proof.
  revert d A R p. induction fuel as [|fuel IH]; intros d A R p Hp; [done|]. cbn [traverseSubTree]. destruct (t !! d) as [e|]; [|done]. destruct (hasCapture e); [done|].
  rewrite remove_pass_loop, add_pass_loop. apply up_wf_fold; auto with up_wf.
Qed.
Lemma up_wf_modifyChildren t cs A R p : up_wf p -> up_wf (modifyChildrensInheritedRoutes t cs A R p).
Proof. intros H. apply up_wf_fold; [|done]. auto using up_wf_traverse. Qed.
#[export] Hint Resolve up_wf_modifyChildren : up_wf.

(** What the commands leave in the FIB. *)
Lemma fib_apply_all_lookup l fib n f :
  NoDup ((fun u => (fu_name u, fu_faceId u)) <$> l) -> fib_apply_all l fib !! (n, f) = match fib_effect l n f with Some o => o | None => fib !! (n, f) end.
Proof.
  unfold fib_apply_all, fib_effect. revert fib. induction l as [|u l IH]; intros fib Hnd; [done|]. csimpl in Hnd. apply NoDup_cons in Hnd as [Hu Hl].
  cbn [fold_left List.find]. rewrite IH by done. destruct (on_key n f u) eqn:E.
  - apply on_key_spec in E as [-> ->]. destruct (List.find _ l) as [x|] eqn:Ex.
    + exfalso. apply List.find_some in Ex as [Hin [E1 E2]%on_key_spec]. apply Hu. rewrite E1, E2. apply list_elem_of_fmap. exists x. split; [done|by apply list_elem_of_In].
    + cbn. unfold fib_apply, nexthop_of. destruct (fu_action u); [by rewrite lookup_insert_eq|by rewrite lookup_delete_eq].
  - destruct (List.find _ l); [done|]. assert ((fu_name u, fu_faceId u) <> (n, f)) as Hne.
    { intros [= <- <-]. apply not_true_iff_false in E. apply E. by apply on_key_spec. }
    cbn. unfold fib_apply. destruct (fu_action u); [by rewrite lookup_insert_ne|by rewrite lookup_delete_ne].
Qed.
Lemma fib_effect_none l n f : (forall u, u ∈ l -> fu_faceId u <> f) -> fib_effect l n f = None.
Proof.
  intros H. unfold fib_effect. destruct (List.find _ l) as [u|] eqn:E; [|done]. apply List.find_some in E as [Hin [_ Ef]%on_key_spec]. exfalso. by apply (H u); [apply list_elem_of_In|].
Qed.
Definition commands (p : Updater) : list FibUpdate := up_batch p ++ up_nonBatch p.
Lemma commands_effect p fib n f : up_wf p -> fib_apply_all (commands p) fib !! (n, f) = match (effect p n f).1 with Some o => o | None => fib !! (n, f) end.
Proof.
  intros [H1 H2 H3 H4 _]. unfold commands, fib_apply_all. rewrite fold_left_app. fold (fib_apply_all (up_batch p) fib). fold (fib_apply_all (up_nonBatch p) (fib_apply_all (up_batch p) fib)).
  rewrite !fib_apply_all_lookup by done. unfold effect. cbn [fst]. destruct (f =? up_batchFaceId p)%N eqn:E.
  - apply N.eqb_eq in E as ->. by rewrite (fib_effect_none (up_nonBatch p)).
  - apply N.eqb_neq in E. rewrite (fib_effect_none (up_batch p)); [done|]. intros u Hu. rewrite H3 by done. congruence.
Qed.

(** And in the lists of inherited routes. *)
Lemma inherited_effect_cons u l n f :
  inherited_effect (u :: l) n f = match inherited_effect l n f with
                                  | Some b => Some b
                                  | None => if Name_equals n (ru_name u) && (f =? rt_faceId (ru_route u))%N then Some (bool_decide (ru_action u = REGISTER)) else None
                                  end.
Proof.
  unfold inherited_effect. cbn [fold_left]. set (g := fun acc u => _). generalize (if Name_equals n (ru_name u) && (f =? rt_faceId (ru_route u))%N then Some (bool_decide (ru_action u = REGISTER)) else None).
  assert (forall o, fold_left g l o = match fold_left g l None with Some b => Some b | None => o end) as H; [|exact H].
  induction l as [|x l IH]; intros o; [done|]. cbn [fold_left]. rewrite IH. rewrite (IH (g None x)). destruct (fold_left g l None); [done|]. unfold g. by destruct (_ && _).
Qed.
Lemma existsb_face_filter f g l :
  existsb (fun r => (rt_faceId r =? f)%N) (List.filter (fun r => negb (rt_faceId r =? g)%N) l) = negb (f =? g)%N && existsb (fun r => (rt_faceId r =? f)%N) l.
Proof.
  induction l as [|r l IH]; cbn; [by rewrite andb_false_r|]. destruct (rt_faceId r =? g)%N eqn:E; cbn; rewrite IH.
  - apply N.eqb_eq in E as ->. rewrite (N.eqb_sym g). by destruct (f =? g)%N.
  - destruct (rt_faceId r =? f)%N eqn:E'; cbn; [|done]. apply N.eqb_eq in E' as <-. by rewrite E.
Qed.
Lemma modifyInherited_run l s :
  (forall u, u ∈ l -> ru_action u <> REMOVE_FACE /\ registered (rb_table s) (ru_name u)) ->
  exists t ri, modifyInheritedRoutes l s = Some (inr tt, set_table t s) /\
    (forall n, t !! n = (fun e => re_set_inherited (ri n) e) <$> rb_table s !! n) /\
    (forall n e f, rb_table s !! n = Some e -> existsb (fun r => (rt_faceId r =? f)%N) (ri n) = default (has_inherited e f) (inherited_effect l n f)).
Proof.
  revert s. induction l as [|u l IH]; intros s Hl.
  - exists (rb_table s), (fun n => match rb_table s !! n with Some e => re_inherited e | None => [] end). split; [by destruct s|]. split.
    + intros n. by destruct (rb_table s !! n) as [[]|].
    + intros n e f ->. done.
  - destruct (Hl u ltac:(by left)) as [Ha [e He]]. set (e1 := match ru_action u with REGISTER => addInheritedRoute (ru_route u) e | _ => removeInheritedRoute (ru_route u) e end).
    destruct (IH (set_table (<[ru_name u := e1]> (rb_table s)) s)) as (t & ri & Hrun & Ht & Hri).
    { intros x Hx. destruct (Hl x ltac:(by right)) as [H1 [y H2]]. split; [done|]. cbn. unfold registered. destruct (decide (ru_name u = ru_name x)) as [<-|Hne].
      - rewrite lookup_insert_eq. by eexists. - rewrite lookup_insert_ne by done. by eexists. }
    exists t, ri. split_and!.
    + unfold modifyInheritedRoutes. cbn [forM]. unfold modifyInheritedRoutes in Hrun.
      assert ((e ← the_entry (ru_name u);
               match ru_action u with
               | REGISTER => put_entry (ru_name u) (addInheritedRoute (ru_route u) e)
               | UNREGISTER => put_entry (ru_name u) (removeInheritedRoute (ru_route u) e)
               | REMOVE_FACE => mret tt
               end) s = Some (inr tt, set_table (<[ru_name u := e1]> (rb_table s)) s)) as Hu.
      { rewrite (bind_run _ _ _ _ _ (the_entry_run _ _ _ He)). unfold e1. by destruct (ru_action u). }
      rewrite (bind_run _ _ _ _ _ Hu). exact Hrun.
    + intros n. rewrite Ht. cbn. destruct (decide (ru_name u = n)) as [<-|Hne]; [|by rewrite lookup_insert_ne]. rewrite lookup_insert_eq, He. unfold e1. cbn. by destruct (ru_action u).
    + intros n x f Hx. rewrite inherited_effect_cons. destruct (decide (ru_name u = n)) as [<-|Hne].
      * rewrite He in Hx. simplify_eq. rewrite (Hri _ e1 f) by (cbn; apply lookup_insert_eq). destruct (inherited_effect l (ru_name u) f) as [b|]; [done|]. cbn.
        rewrite Name_equals_refl. cbn [andb]. unfold e1, has_inherited. destruct (ru_action u); [| |done]; cbn.
        -- rewrite existsb_app. cbn. rewrite orb_false_r, (N.eqb_sym f). destruct (_ =? f)%N; cbn; [by rewrite orb_true_r|by rewrite orb_false_r].
        -- unfold compareFaceId. rewrite existsb_face_filter. by destruct (f =? _)%N.
      * rewrite (Hri n x f) by (cbn; by rewrite lookup_insert_ne). rewrite (Name_equals_ne n) by congruence.
        by destruct (inherited_effect l n f).
Qed.

(** ** The routes of the ancestors *)

Lemma rs_insert_elem r s x : x ∈ faces (rs_insert r s) <-> x = rt_faceId r \/ x ∈ faces s.
Proof.
  induction s as [|y s IH]; csimpl; [by rewrite list_elem_of_singleton, elem_of_nil; naive_solver|]. destruct (_ <? _)%N; csimpl; [by rewrite !elem_of_cons|].
  destruct (_ =? _)%N eqn:E; csimpl; rewrite !elem_of_cons, ?IH; [apply N.eqb_eq in E; rewrite E; naive_solver|naive_solver].
Qed.
Lemma rs_insert_sorted r s : StronglySorted N.lt (faces s) -> StronglySorted N.lt (faces (rs_insert r s)).
Proof.
  induction s as [|y s IH]; csimpl; [by repeat constructor|]. intros [Hs Hy]%StronglySorted_inv. destruct (_ <? _)%N eqn:E; csimpl.
  - apply N.ltb_lt in E. constructor; [by constructor|]. constructor; [done|]. eapply Forall_impl; [exact Hy|]. intros x Hx. by etrans.
  - apply N.ltb_ge in E. destruct (_ =? _)%N eqn:E'; csimpl; [by constructor|]. apply N.eqb_neq in E'. constructor; [auto|].
    apply Forall_forall. intros x [->|Hx]%rs_insert_elem; [lia|]. by eapply Forall_forall in Hy.
Qed.
Lemma sorted_nodup (l : list N) : StronglySorted N.lt l -> NoDup l.
Proof. induction 1 as [|x l Hl IH Hx]; constructor; [|done]. intros Hin. eapply Forall_forall in Hx; [|exact Hin]. lia. Qed.
Lemma at_face_insert f r s :
  StronglySorted N.lt (faces s) -> at_face f (rs_insert r s) = match at_face f s with Some x => Some x | None => if (rt_faceId r =? f)%N then Some r else None end.
Proof.
  unfold at_face. induction s as [|y s IH]; [done|]. csimpl. intros [Hs Hy]%StronglySorted_inv. destruct (_ <? _)%N eqn:E.
  - cbn [List.find]. apply N.ltb_lt in E. destruct (rt_faceId r =? f)%N eqn:Er; [|by destruct (rt_faceId y =? f)%N, (List.find _ s)].
    apply N.eqb_eq in Er. destruct (rt_faceId y =? f)%N eqn:Ey; [apply N.eqb_eq in Ey; lia|].
    destruct (List.find _ s) as [x|] eqn:Ex; [|done]. exfalso. apply List.find_some in Ex as [Hin Ex%N.eqb_eq]. eapply Forall_forall in Hy; [|apply list_elem_of_fmap_2, list_elem_of_In, Hin]. lia.
  - destruct (rt_faceId r =? rt_faceId y)%N eqn:E'; cbn [List.find].
    + apply N.eqb_eq in E' as ->. by destruct (rt_faceId y =? f)%N, (List.find _ s).
    + rewrite IH by done. by destruct (rt_faceId y =? f)%N.
Qed.
Lemma insert_inheritable_spec s l :
  StronglySorted N.lt (faces s) ->
  StronglySorted N.lt (faces (insert_inheritable s l)) /\
  forall f, at_face f (insert_inheritable s l) = match at_face f s with Some x => Some x | None => List.find (fun r => (rt_faceId r =? f)%N && isChildInherit r) l end.
Proof.
  unfold insert_inheritable. revert s. induction l as [|r l IH]; intros s Hs; cbn [fold_left List.find].
  - split; [done|]. intros f. change (at_face f s = match at_face f s with Some x => Some x | None => None end). by destruct (at_face f s).
  - destruct (isChildInherit r).
    + destruct (IH (rs_insert r s) (rs_insert_sorted _ _ Hs)) as [H1 H2]. split; [done|]. intros f. rewrite H2, at_face_insert by done. destruct (at_face f s); [done|].
      by destruct (rt_faceId r =? f)%N.
    + destruct (IH s Hs) as [H1 H2]. split; [done|]. intros f. rewrite H2. by destruct (rt_faceId r =? f)%N.
Qed.

(** What a name inherits is that of its parent and of what the parent inherits. *)
Definition from_parent (t : RibTable) (o : option Name) (f : N) : option Route :=
  match o with Some p => mjoin (scan t f (down p (S (length p)) 0)) | None => None end.
Lemma scan_up t f n p : parent_of t n (Some p) -> scan t f (down n (length n) 0) = scan t f (down p (S (length p)) 0).
Proof.
  intros (Hr & Ha & Hno). pose proof (above_length _ _ Ha) as Hl. rewrite (down_split n (length n) (S (length p)) 0), scan_app by lia. rewrite scan_unregistered.
  - rewrite (down_prefix p n); [done|apply Ha|lia].
  - intros m [Hm Hml]%down_elem Hmr; [|lia]. assert (above m n) as Hmn by (split; [done|intros ->; lia]). pose proof (Hno m Hmr Hmn) as Hmp. apply prefix_length in Hmp. lia.
Qed.
Lemma inherits_parent t n f : inherits t n f = from_parent t (findParent t n) f.
Proof.
  unfold inherits, from_parent. pose proof (findParent_spec t n) as H. destruct (findParent t n) as [p|]; [by rewrite (scan_up _ _ _ _ H)|].
  rewrite scan_unregistered; [done|]. intros m [Hm Hml]%down_elem Hmr; [|lia]. apply (H m Hmr). split; [done|]. intros ->. lia.
Qed.
Lemma ancestor_loop_spec t fuel o s :
  tree_ok t -> (forall n e, t !! n = Some e -> hasCapture e = captures e) -> (forall p, o = Some p -> registered t p /\ (length p < fuel)%nat) -> StronglySorted N.lt (faces s) ->
  StronglySorted N.lt (faces (ancestor_loop fuel t o s)) /\
  forall f, at_face f (ancestor_loop fuel t o s) = match at_face f s with Some x => Some x | None => from_parent t o f end.
Proof.
  intros Ht Hcount. revert o s. induction fuel as [|fuel IH]; intros o s Ho Hs.
  - destruct o as [p|]; [destruct (Ho p eq_refl); lia|]. split; [done|]. intros f. change (at_face f s = match at_face f s with Some x => Some x | None => None end). by destruct (at_face f s).
  - destruct o as [p|]; [|split; [done|]; intros f; change (at_face f s = match at_face f s with Some x => Some x | None => None end); by destruct (at_face f s)]. destruct (Ho p eq_refl) as [[e He] Hl]. cbn [ancestor_loop]. rewrite He, (Hcount _ _ He).
    destruct (insert_inheritable_spec s (re_routes e) Hs) as [H1 H2]. cbn [from_parent].
    assert (forall f, scan t f (down p (S (length p)) 0) = match gives e f with Some r => Some (Some r) | None => if captures e then Some None else scan t f (down p (length p) 0) end) as Hsc.
    { intros f. rewrite (down_split p (S (length p)) (length p) 0) by lia. rewrite down_one, take_ge by done. cbn [app scan]. by rewrite He. }
    destruct (captures e).
    + split; [done|]. intros f. rewrite H2. destruct (at_face f s); [done|]. rewrite Hsc. fold (gives e f). destruct (gives e f); [done|done].
    + destruct (Ht p e He) as (-> & _). destruct (IH (findParent t p) (insert_inheritable s (re_routes e))) as [H3 H4]; [|done|].
      * intros q [Hq Ha%above_length]%findParent_above. split; [done|lia].
      * split; [done|]. intros f. rewrite H4, H2, <- inherits_parent. destruct (at_face f s); [done|]. rewrite Hsc. fold (gives e f). destruct (gives e f); [done|done].
Qed.
Lemma getAncestorRoutes_spec t n :
  tree_ok t -> (forall n e, t !! n = Some e -> hasCapture e = captures e) ->
  StronglySorted N.lt (faces (getAncestorRoutes_name t n)) /\ forall f, at_face f (getAncestorRoutes_name t n) = inherits t n f.
Proof.
  intros Ht Hc. destruct (ancestor_loop_spec t (S (length n)) (findParent t n) [] Ht Hc) as [H1 H2]; [|constructor|].
  - intros p [Hp Ha%above_length]%findParent_above. split; [done|lia].
  - split; [done|]. intros f. unfold getAncestorRoutes_name. rewrite H2. by rewrite inherits_parent.
Qed.

(** ** What the FIB shall be *)

Definition nexthop (t : RibTable) (n : Name) (f : N) : option N :=
  match t !! n with
  | None => None
  | Some e => match getRouteWithLowestCostByFaceId e f with
              | Some r => Some (rt_cost r)
              | None => if captures e then None else rt_cost <$> inherits t n f
              end
  end.
Record follows (t : RibTable) (fib : FibTable) : Prop := {
  fo_tree : tree_ok t;
  fo_routes : routes_ok (routes_of t);
  fo_count : forall n e, t !! n = Some e -> hasCapture e = captures e;
  fo_fib : forall n f, fib !! (n, f) = nexthop t n f;
  fo_inherited : forall n e f, t !! n = Some e ->
    has_inherited e f = negb (hasFaceId e f) && negb (captures e) && match inherits t n f with Some _ => true | None => false end;
}.

Lemma lowest_cost_none sel l c : lowest_cost sel l c = None <-> c = None /\ existsb sel l = false.
Proof.
  revert c. induction l as [|r l IH]; intros c; cbn; [naive_solver|]. rewrite IH. destruct (sel r); cbn; [|done]. split; [|naive_solver]. destruct c as [x|]; [destruct (_ <? _)%N|]; naive_solver.
Qed.
Lemma own_face e f : hasFaceId e f = match getRouteWithLowestCostByFaceId e f with Some _ => true | None => false end.
Proof.
  unfold hasFaceId, getRouteWithLowestCostByFaceId, compareFaceId. pose proof (lowest_cost_none (fun r => (rt_faceId r =? f)%N) (re_routes e) None) as H. destruct (lowest_cost _ _ _).
  - destruct (existsb _ _) eqn:E; [done|]. discriminate (proj2 H (conj eq_refl eq_refl)).
  - by destruct (proj1 H eq_refl) as [_ ->].
Qed.
(** The cost in the FIB is the least of the face's routes. *)
Lemma lowest_cost_least sel l c r :
  lowest_cost sel l c = Some r -> (c = Some r \/ r ∈ l /\ sel r = true) /\ (forall x, c = Some x \/ x ∈ l /\ sel x = true -> (rt_cost r <= rt_cost x)%N).
Proof.
  revert c. induction l as [|y l IH]; intros c; cbn.
  - intros ->. split; [by left|]. intros x [[= ->]|[?%not_elem_of_nil _]]; [lia|done].
  - intros H. destruct (IH _ H) as [H1 H2]. destruct (sel y) eqn:Es.
    + destruct c as [c|]; [destruct (rt_cost y <? rt_cost c)%N eqn:Ec; [apply N.ltb_lt in Ec|apply N.ltb_ge in Ec]|].
      * split; [destruct H1 as [[= ->]|[??]]; [right; split; [by left|done]|right; split; [by right|done]]|].
        intros x [[= ->]|[[->|Hx]%elem_of_cons Hs]]; [specialize (H2 y ltac:(by left)); lia|by apply H2; left|apply H2; by right].
      * split; [destruct H1 as [[= ->]|[??]]; [by left|right; split; [by right|done]]|].
        intros x [[= ->]|[[->|Hx]%elem_of_cons Hs]]; [by apply H2; left|specialize (H2 c ltac:(by left)); lia|apply H2; by right].
      * split; [destruct H1 as [[= ->]|[??]]; [right; split; [by left|done]|right; split; [by right|done]]|].
        intros x [[=]|[[->|Hx]%elem_of_cons Hs]]; [by apply H2; left|apply H2; by right].
    + split; [destruct H1 as [->|[??]]; [by left|right; split; [by right|done]]|].
      intros x [->|[[->|Hx]%elem_of_cons Hs]]; [by apply H2; left|congruence|apply H2; by right].
Qed.

(** ** Names and routes that stay *)

(** Entries that differ in their links alone. *)
Definition same_data (e e' : RibEntry) : Prop := re_routes e' = re_routes e /\ re_inherited e' = re_inherited e /\ re_nCapture e' = re_nCapture e.
Lemma relinked_data e e' : relinked None [] e' = relinked None [] e -> same_data e e'.
Proof. destruct e, e'. by intros [=]. Qed.
Lemma strip_data t t' n e' : strip t' !! n = strip t !! n -> t' !! n = Some e' -> exists e, t !! n = Some e /\ same_data e e'.
Proof.
  intros H He'. rewrite !strip_lookup, He' in H. destruct (t !! n) as [e|]; [|done]. exists e. split; [done|]. apply relinked_data. by apply (inj Some) in H.
Qed.
Lemma strip_routes t t' n : strip t' !! n = strip t !! n -> re_routes <$> t' !! n = re_routes <$> t !! n.
Proof.
  rewrite !strip_lookup. destruct (t !! n) as [e|], (t' !! n) as [e'|]; cbn; try done. intros H. apply (inj Some) in H. by destruct (relinked_data e e' H) as [-> _].
Qed.
Lemma same_data_facts e e' : same_data e e' ->
  captures e' = captures e /\ hasCapture e' = hasCapture e /\ forall f, hasFaceId e' f = hasFaceId e f /\ gives e' f = gives e f /\ has_inherited e' f = has_inherited e f
    /\ getRouteWithLowestCostByFaceId e' f = getRouteWithLowestCostByFaceId e f.
Proof.
  intros (H1 & H2 & H3). unfold captures, hasCapture, hasFaceId, gives, has_inherited, getRouteWithLowestCostByFaceId. by rewrite H1, H2, H3.
Qed.
Lemma inherits_ext t t' n f : (forall m, above m n -> re_routes <$> t' !! m = re_routes <$> t !! m) -> inherits t' n f = inherits t n f.
Proof.
  intros H. unfold inherits. f_equal. apply scan_ext. intros m [Hm Hl]%down_elem; [|lia]. apply H. split; [done|]. intros ->. lia.
Qed.
Lemma gives_own e f r : gives e f = Some r -> hasFaceId e f = true.
Proof.
  unfold gives, hasFaceId, compareFaceId. intros [Hin [H _]%andb_true_iff]%List.find_some. apply existsb_exists. by exists r.
Qed.

Lemma passed_follows t fib A R n e f :
  follows t fib -> t !! n = Some e -> captures e = false ->
  let I := match at_face f A with Some r => Some r | None => match at_face f R with Some _ => None | None => inherits t n f end end in
  let o := passed t A R n f (None, None) in
  match o.1 with Some x => x | None => fib !! (n, f) end = match getRouteWithLowestCostByFaceId e f with Some r => Some (rt_cost r) | None => rt_cost <$> I end /\
  default (has_inherited e f) o.2 = negb (hasFaceId e f) && match I with Some _ => true | None => false end.
Proof.
  intros Hf He Hc. cbn zeta. unfold passed. rewrite He. pose proof (fo_inherited _ _ Hf n e f He) as Hi. pose proof (fo_fib _ _ Hf n f) as Hff. unfold nexthop in Hff. rewrite He, Hc in Hff.
  rewrite Hc in Hi. cbn in Hi. pose proof (own_face e f) as Hown. destruct (hasFaceId e f) eqn:Eo; cbn in Hi |- *.
  - rewrite Hi. cbn. rewrite Hff. split; [|by rewrite ?Hi]. by destruct (getRouteWithLowestCostByFaceId e f).
  - destruct (getRouteWithLowestCostByFaceId e f); [done|]. destruct (at_face f A); [done|]. rewrite Hi. cbn. destruct (inherits t n f) as [r|] eqn:Ei; cbn; rewrite ?Hff, ?Hi.
    + destruct (at_face f R); cbn; rewrite ?Hff, ?Hi; done.
    + destruct (at_face f R); done.
Qed.

(** ** Completing an update *)

Lemma inherited_effect_some l u : u ∈ l -> inherited_effect l (ru_name u) (rt_faceId (ru_route u)) <> None.
Proof.
  induction l as [|x l IH]; [by intros ?%not_elem_of_nil|]. intros [->|H]%elem_of_cons; rewrite inherited_effect_cons.
  - rewrite Name_equals_refl, N.eqb_refl. by destruct (inherited_effect l _ _).
  - specialize (IH H). by destruct (inherited_effect l _ _).
Qed.
Lemma tree_ok_data t t' : (forall n, (fun e => (re_parent e, re_children e)) <$> t' !! n = (fun e => (re_parent e, re_children e)) <$> t !! n) -> tree_ok t -> tree_ok t'.
Proof.
  intros H Ht. assert (forall n, registered t' n <-> registered t n) as Hr.
  { intros n. specialize (H n). unfold registered. destruct (t !! n), (t' !! n); simplify_eq/=; split; intros [? ?]; try done; by eexists. }
  intros n e' He'. specialize (H n) as Hn. rewrite He' in Hn. destruct (t !! n) as [e|] eqn:He; [|done]. cbn in Hn. injection Hn as E1 E2.
  destruct (Ht n e He) as (H1 & H2 & H3). assert (forall m, findParent t' m = findParent t m) as Hp by (intros m; by apply findParent_dom).
  rewrite E1, E2, Hp. split_and!; [done| |done]. intros c. by rewrite H2, Hr, Hp.
Qed.
Lemma follows_step p fib s :
  up_wf p -> tree_ok (rb_table s) -> routes_ok (routes_of (rb_table s)) -> (forall n e, rb_table s !! n = Some e -> hasCapture e = captures e) ->
  (forall n f, match (effect p n f).1 with Some o => o | None => fib !! (n, f) end = nexthop (rb_table s) n f) ->
  (forall n f, (effect p n f).2 <> None -> registered (rb_table s) n) ->
  (forall n e f, rb_table s !! n = Some e -> default (has_inherited e f) (effect p n f).2 =
     negb (hasFaceId e f) && negb (captures e) && match inherits (rb_table s) n f with Some _ => true | None => false end) ->
  exists s', modifyInheritedRoutes (up_inherited p) s = Some (inr tt, s') /\ follows (rb_table s') (fib_apply_all (commands p) fib) /\
    routes_of (rb_table s') = routes_of (rb_table s) /\ same_rest s s'.
Proof.
  intros Hw Ht Hro Hc Hfib Hreg Hinh. destruct (modifyInherited_run (up_inherited p) s) as (t & ri & Hrun & Hlk & Hri).
  { intros u Hu. split; [by eapply uw_inherited|]. apply (Hreg _ (rt_faceId (ru_route u))). by apply inherited_effect_some. }
  exists (set_table t s). split; [done|]. cbn [rb_table set_table on_table].
  assert (forall n, re_routes <$> t !! n = re_routes <$> rb_table s !! n) as Hroutes by (intros n; rewrite Hlk; by destruct (rb_table s !! n)).
  assert (routes_of t = routes_of (rb_table s)) as Hrt by (apply map_eq; intros n; unfold routes_of; rewrite !lookup_fmap; apply Hroutes).
  split; [|split; [done|done]]. split.
  - eapply tree_ok_data; [|exact Ht]. intros n. rewrite Hlk. by destruct (rb_table s !! n).
  - by rewrite Hrt.
  - intros n e' He'. rewrite Hlk in He'. destruct (rb_table s !! n) as [e|] eqn:He; simplify_eq/=. exact (Hc n e He).
  - intros n f. rewrite commands_effect, Hfib by done. unfold nexthop. rewrite (inherits_ext (rb_table s) t) by done. rewrite Hlk. by destruct (rb_table s !! n).
  - intros n e' f He'. rewrite Hlk in He'. destruct (rb_table s !! n) as [e|] eqn:He; simplify_eq/=. rewrite (inherits_ext (rb_table s) t) by done.
      unfold has_inherited. cbn. rewrite (Hri n e f He). exact (Hinh n e f He).
Qed.

(** ** A new prefix *)

Lemma filter_faces_sorted s (keep : Route -> bool) : StronglySorted N.lt (faces s) -> StronglySorted N.lt (faces (List.filter keep s)).
Proof.
  induction s as [|x s IH]; [done|]. csimpl. intros [Hs Hx]%StronglySorted_inv. destruct (keep x); [|auto]. csimpl. constructor; [auto|].
  apply Forall_forall. intros f (y & -> & Hy)%list_elem_of_fmap. eapply Forall_forall in Hx; [exact Hx|]. apply list_elem_of_fmap_2.
  apply list_elem_of_In, List.filter_In in Hy as [Hy _]. by apply list_elem_of_In.
Qed.
Lemma passed_nothing t n f old : passed t [] [] n f old = old.
Proof. unfold passed. destruct (t !! n) as [e|]; [|done]. by destruct (hasFaceId e f), (has_inherited e f). Qed.

Section new_prefix.
Context (t : RibTable) (fib : FibTable) (Hfol : follows t fib) (name : Name) (route : Route) (Hnew : t !! name = None).

Definition new_children : list Name :=
  List.filter (fun d => match t !! d with Some e => bool_decide (re_parent e = findParent t name) | None => false end) (findDescendantsForNonInsertedName t name).
Lemma new_children_spec : (forall c, c ∈ new_children <-> right_below t name c) /\ NoDup new_children.
Proof.
  unfold new_children, findDescendantsForNonInsertedName. split.
  - intros c. rewrite list_elem_of_In, !List.filter_In, <- list_elem_of_In, names_of_elem, isPrefixOf_spec. split.
    + intros [[[e He] Hp] Hpar]. rewrite He in Hpar. apply bool_decide_eq_true in Hpar. destruct (fo_tree _ _ Hfol c e He) as (Hpe & _).
      apply parent_right_below; [done|by eexists|split; [done|intros ->; congruence]|congruence].
    + intros Hc. pose proof Hc as ([e He] & Ha & _). destruct (fo_tree _ _ Hfol c e He) as (Hpe & _). split; [split; [by eexists|apply Ha]|].
      rewrite He. apply bool_decide_eq_true. rewrite Hpe. by apply parent_right_below; [done|by eexists|done|].
  - apply NoDup_ListNoDup, List.NoDup_filter, List.NoDup_filter, NoDup_ListNoDup, names_sorted_NoDup, names_of_sorted.
Qed.
Definition new_added : RouteSet :=
  if isChildInherit route then if isRibCapture route then rs_insert route [] else rs_insert route (rs_erase route (getAncestorRoutes_name t name)) else [].
Definition new_removed : RouteSet := if isRibCapture route then getAncestorRoutes_name t name else [].
Lemma new_added_spec :
  NoDup (faces new_added) /\ forall f, at_face f new_added = if isChildInherit route then if (rt_faceId route =? f)%N then Some route else if isRibCapture route then None else inherits t name f else None.
Proof.
  destruct (getAncestorRoutes_spec t name (fo_tree _ _ Hfol) (fo_count _ _ Hfol)) as [Hs Ha]. set (anc := getAncestorRoutes_name t name) in *. unfold new_added. fold anc.
  destruct (isChildInherit route); [|split; [constructor|done]]. destruct (isRibCapture route).
  - split; [apply NoDup_singleton|]. intros f. cbn. by destruct (_ =? _)%N.
  - assert (StronglySorted N.lt (faces (rs_erase route anc))) as Hse by (by apply filter_faces_sorted). split; [by apply sorted_nodup, rs_insert_sorted|].
    intros f. rewrite at_face_insert by done. unfold rs_erase. rewrite (at_face_filter f anc (fun g => negb (g =? rt_faceId route)%N)), Ha, (N.eqb_sym f).
    destruct (_ =? _)%N; [done|]. cbn. by destruct (inherits t name f).
Qed.
Lemma new_removed_spec : NoDup (faces new_removed) /\ forall f, at_face f new_removed = if isRibCapture route then inherits t name f else None.
Proof.
  destruct (getAncestorRoutes_spec t name (fo_tree _ _ Hfol) (fo_count _ _ Hfol)) as [Hs Ha]. unfold new_removed. destruct (isRibCapture route); [|split; [constructor|done]].
  split; [by apply sorted_nodup|done].
Qed.

Definition new_updates : Updater := createFibUpdatesForNewRibEntry t name route new_children (mkUpdater (rt_faceId route) [] [] []).
Lemma new_compute : computeUpdatesForRegistration t name route (mkUpdater (rt_faceId route) [] [] []) = Some new_updates.
Proof. unfold computeUpdatesForRegistration. by rewrite Hnew. Qed.
Lemma new_wf : up_wf new_updates.
Proof. unfold new_updates, createFibUpdatesForNewRibEntry. destruct (isChildInherit route), (isRibCapture route); auto 8 with up_wf. Qed.
Lemma new_effect n f :
  effect new_updates n f =
    if Name_equals n name then
      if (f =? rt_faceId route)%N then (Some (Some (rt_cost route)), None)
      else if isRibCapture route then (None, None) else match inherits t name f with Some r => added r | None => (None, None) end
    else if decide (reaches_under t name n f) then passed t new_added new_removed n f (None, None) else (None, None).
Proof.
  destruct new_children_spec as [Hch Hnd], new_added_spec as [Hna _], new_removed_spec as [Hnr _].
  destruct (getAncestorRoutes_spec t name (fo_tree _ _ Hfol) (fo_count _ _ Hfol)) as [Hs Ha].
  set (own := addFibUpdate (createAddUpdate name (rt_faceId route) (rt_cost route)) (mkUpdater (rt_faceId route) [] [] [])).
  set (p1 := if isRibCapture route then own else addInheritedRoutes name (fun g => (g =? rt_faceId route)%N) (getAncestorRoutes_name t name) own).
  assert (effect new_updates n f = if decide (reaches_under t name n f) then passed t new_added new_removed n f (effect p1 n f) else effect p1 n f) as ->.
  { pose proof (modifyChildren_effect t (fo_tree _ _ Hfol) (fo_count _ _ Hfol) name new_children new_added new_removed p1 n f Hch Hnd Hna Hnr) as Hm.
    rewrite <- Hm. unfold new_updates, createFibUpdatesForNewRibEntry. fold own. unfold new_added, new_removed, p1 in *. destruct (isChildInherit route), (isRibCapture route); try done.
    rewrite Hm. case_decide; [|done]. by rewrite passed_nothing. }
  assert (effect own n f = (if Name_equals n name && (f =? rt_faceId route)%N then Some (Some (rt_cost route)) else None, None)) as Hown.
  { unfold own. rewrite effect_fib. unfold effect, on_key. cbn. destruct (Name_equals n name), (f =? rt_faceId route)%N; done. }
  assert (effect p1 n f = if Name_equals n name then if (f =? rt_faceId route)%N then (Some (Some (rt_cost route)), None)
      else if isRibCapture route then (None, None) else match inherits t name f with Some r => added r | None => (None, None) end else (None, None)) as ->.
  { unfold p1. destruct (isRibCapture route); [rewrite Hown; by destruct (Name_equals n name), (_ =? _)%N|].
    rewrite addInheritedRoutes_effect, Hown, Ha by (by apply sorted_nodup). destruct (Name_equals n name); [|done]. cbn. destruct (_ =? _)%N; [done|]. by destruct (inherits t name f). }
  destruct (Name_equals n name) eqn:E; [|done]. apply Name_equals_spec in E as ->. rewrite decide_False; [done|]. by intros [[_ []] _].
Qed.
End new_prefix.

(** ** What those below inherit *)

Lemma inherits_above t f m n : above m n ->
  inherits t n f = match scan t f (down n (length n) (S (length m))) with
                   | Some x => x
                   | None => match scan t f [m] with Some x => x | None => inherits t m f end
                   end.
Proof. intros Ha. unfold inherits. rewrite (scan_above _ _ _ _ Ha). destruct (scan t f (down n _ _)); [done|]. by destruct (scan t f [m]). Qed.
Lemma reaches_under_split t d n f e : t !! n = Some e ->
  reaches_under t d n f <-> above d n /\ gives e f = None /\ captures e = false /\ scan t f (down n (length n) (S (length d))) = None.
Proof.
  intros He. assert (above d n -> scan t f (down n (S (length n)) (S (length d))) = match gives e f with Some r => Some (Some r) | None => if captures e then Some None else scan t f (down n (length n) (S (length d))) end) as Hs.
  { intros Ha%above_length. rewrite (down_split n (S (length n)) (length n)), scan_app, down_one, take_ge by lia. cbn. rewrite He. destruct (gives e f); [done|]. by destruct (captures e). }
  unfold reaches_under. split.
  - intros (Ha & _ & H). rewrite (Hs Ha) in H. by destruct (gives e f), (captures e).
  - intros (Ha & Hg & Hc & H). split; [done|]. split; [by eexists|]. by rewrite (Hs Ha), Hg, Hc.
Qed.

(** Routes passed down from a name make what those below it have of what they shall have. *)
Lemma subtree_follows t fib t1 name A R n e f :
  follows t fib -> t !! n = Some e ->
  (forall m, m <> name -> re_routes <$> t1 !! m = re_routes <$> t !! m) ->
  (above name n -> scan t f (down n (length n) (S (length name))) = None ->
     inherits t1 n f = match at_face f A with Some r => Some r | None => match at_face f R with Some _ => None | None => inherits t n f end end) ->
  let o := if decide (reaches_under t name n f) then passed t A R n f (None, None) else (None, None) in
  match o.1 with Some x => x | None => fib !! (n, f) end =
    match getRouteWithLowestCostByFaceId e f with Some r => Some (rt_cost r) | None => if captures e then None else rt_cost <$> inherits t1 n f end /\
  default (has_inherited e f) o.2 = negb (hasFaceId e f) && negb (captures e) && match inherits t1 n f with Some _ => true | None => false end.
Proof.
  intros Hf He Hr Hin. cbn zeta. pose proof (reaches_under_split t name n f e He) as Hru. case_decide as Hd.
  - apply Hru in Hd as (Ha & Hg & Hc & Hs). destruct (passed_follows t fib A R n e f Hf He Hc) as [H1 H2]. rewrite (Hin Ha Hs), Hc. cbn [negb andb]. rewrite andb_true_r. by split.
  - cbn [fst snd]. change (default (has_inherited e f) None) with (has_inherited e f). rewrite (fo_fib _ _ Hf), (fo_inherited _ _ Hf n e f He). unfold nexthop. rewrite He.
    assert (hasFaceId e f = true \/ captures e = true \/ inherits t1 n f = inherits t n f) as Hcase.
    { destruct (captures e) eqn:Hc; [by right; left|]. destruct (gives e f) as [r|] eqn:Hg; [left; by eapply gives_own|]. right; right.
      destruct (decide (above name n)) as [Ha|Hna].
      - rewrite !(inherits_above _ _ name n Ha). assert (scan t1 f (down n (length n) (S (length name))) = scan t f (down n (length n) (S (length name)))) as ->.
        { apply scan_ext. intros m [_ Hm]%down_elem; [|lia]. apply Hr. intros ->. lia. }
        destruct (scan t f _) eqn:Es; [done|]. exfalso. apply Hd, Hru. done.
      - apply inherits_ext. intros m Hm. apply Hr. by intros ->. }
    pose proof (own_face e f) as Hown. destruct (getRouteWithLowestCostByFaceId e f); destruct Hcase as [H|[H|H]]; rewrite ?H in *; rewrite ?Hown; cbn; rewrite ?andb_false_r; done.
Qed.

(** ** What an update leaves *)

(** What the effects of an updater shall be, for the table [t1] after the update. *)
Record settles (p : Updater) (t1 : RibTable) (fib : FibTable) (n : Name) : Prop := {
  se_count : forall e, t1 !! n = Some e -> hasCapture e = captures e;
  se_fib : forall f, match (effect p n f).1 with Some o => o | None => fib !! (n, f) end = nexthop t1 n f;
  se_registered : forall f, (effect p n f).2 <> None -> registered t1 n;
  se_inherited : forall e f, t1 !! n = Some e -> default (has_inherited e f) (effect p n f).2 =
    negb (hasFaceId e f) && negb (captures e) && match inherits t1 n f with Some _ => true | None => false end;
}.
(** The updater that an update computes is the right one. *)
Definition planned (u : RibUpdate) (t : RibTable) (fib : FibTable) (p : Updater) : Prop :=
  up_wf p /\
  (forall s, rb_table s = t -> exists s0, computeUpdates u s = Some (inr tt, s0) /\ rb_updater s0 = p /\ rb_table s0 = t /\
     rb_queue s0 = rb_queue s /\ rb_inProgress s0 = rb_inProgress s /\ rb_out s0 = rb_out s) /\
  (forall s s1, rb_table s = t -> applyUpdate u s = Some (inr tt, s1) -> forall n, settles p (rb_table s1) fib n).

(** The entries other than that of a name, with their effects those of the routes passed down
    from it. *)
Lemma settles_others t fib t1 name A R p :
  follows t fib -> (forall n, n <> name -> strip t1 !! n = strip t !! n) ->
  (forall n f, n <> name -> effect p n f = if decide (reaches_under t name n f) then passed t A R n f (None, None) else (None, None)) ->
  (forall n f, above name n -> scan t f (down n (length n) (S (length name))) = None ->
     inherits t1 n f = match at_face f A with Some r => Some r | None => match at_face f R with Some _ => None | None => inherits t n f end end) ->
  forall n, n <> name -> settles p t1 fib n.
Proof.
  intros Hf Hother Heff Hin n Hne. assert (forall m, m <> name -> re_routes <$> t1 !! m = re_routes <$> t !! m) as Hroutes by (intros m Hm; by apply strip_routes, Hother).
  pose proof (Hother n Hne) as Hn. pose proof (strip_lookup t n) as Hst. pose proof (strip_lookup t1 n) as Hst1. destruct (t1 !! n) as [e1|] eqn:He1.
  - destruct (strip_data t t1 n e1 Hn He1) as (e & He & Hd). destruct (same_data_facts _ _ Hd) as (Hc & Hh & Hfacts). split.
    + intros x Hx. rewrite He1 in Hx. injection Hx as <-. rewrite Hc, Hh. exact (fo_count _ _ Hf n e He).
    + intros f. rewrite Heff by done. destruct (subtree_follows t fib t1 name A R n e f Hf He Hroutes (Hin n f)) as [H _]. rewrite H. unfold nexthop. destruct (Hfacts f) as (_ & _ & _ & Hl). by rewrite He1, Hl, Hc.
    + intros f _. by eexists.
    + intros x f Hx. rewrite He1 in Hx. injection Hx as <-. rewrite Heff by done. destruct (subtree_follows t fib t1 name A R n e f Hf He Hroutes (Hin n f)) as [_ H]. destruct (Hfacts f) as (Ho & _ & Hi & _). by rewrite Ho, Hi, Hc.
  - assert (t !! n = None) as He by (rewrite Hn, Hst in Hst1; by destruct (t !! n)). split; [congruence| | |congruence].
    + intros f. rewrite Heff by done. unfold passed, nexthop. rewrite He1, He. pose proof (fo_fib _ _ Hf n f) as Hff. unfold nexthop in Hff. rewrite He in Hff. by case_decide.
    + intros f. rewrite Heff by done. unfold passed. rewrite He. by case_decide.
Qed.

Lemma single_route e r : re_routes e = [r] ->
  captures e = isRibCapture r /\ forall f, gives e f = (if (rt_faceId r =? f)%N && isChildInherit r then Some r else None) /\
    hasFaceId e f = (rt_faceId r =? f)%N /\ getRouteWithLowestCostByFaceId e f = if (rt_faceId r =? f)%N then Some r else None.
Proof. intros H. unfold captures, gives, hasFaceId, getRouteWithLowestCostByFaceId. rewrite H. cbn. by rewrite orb_false_r; split; [|intros f; rewrite orb_false_r]. Qed.
Lemma new_entry t t1 name route id :
  strip t1 = <[name := relinked None [] (insertRoute route (RibEntry_new id)).1]> (strip t) ->
  (exists e, t1 !! name = Some e /\ re_routes e = [route] /\ re_inherited e = [] /\ hasCapture e = isRibCapture route) /\
  forall n, n <> name -> strip t1 !! n = strip t !! n.
Proof.
  intros H. split; [|intros n Hne; by rewrite H, lookup_insert_ne]. apply (f_equal (lookup name)) in H. rewrite lookup_insert_eq, strip_lookup in H.
  destruct (t1 !! name) as [e|]; [|done]. exists e. split; [done|]. apply (inj Some), relinked_data in H as (H1 & H2 & H3). unfold hasCapture. rewrite H1, H2, H3. cbn. by destruct (isRibCapture route).
Qed.

Lemma new_prefix_inherits t fib name route t1 e1 n f :
  follows t fib -> t !! name = None -> (forall n, n <> name -> strip t1 !! n = strip t !! n) -> t1 !! name = Some e1 -> re_routes e1 = [route] ->
  above name n -> scan t f (down n (length n) (S (length name))) = None ->
  inherits t1 n f = match at_face f (new_added t name route) with
                    | Some r => Some r
                    | None => match at_face f (new_removed t name route) with Some _ => None | None => inherits t n f end
                    end.
Proof.
  intros Hf Hn Hother He1 Hr1 Ha Hs. destruct (new_added_spec t fib Hf name route) as [_ ->], (new_removed_spec t fib Hf name route) as [_ ->].
  destruct (single_route e1 route Hr1) as (Hc & Hfacts). destruct (Hfacts f) as (Hg & _). rewrite !(inherits_above _ _ name n Ha).
  assert (scan t1 f (down n (length n) (S (length name))) = None) as ->.
  { rewrite <- Hs. apply scan_ext. intros m [_ Hm]%down_elem; [|lia]. apply strip_routes, Hother. intros ->. lia. }
  assert (inherits t1 name f = inherits t name f) as -> by (apply inherits_ext; intros m [_ Hm]; by apply strip_routes, Hother).
  rewrite Hs. cbn [scan]. rewrite Hn, He1, Hg, Hc. destruct (isChildInherit route), (rt_faceId route =? f)%N, (isRibCapture route), (inherits t name f); done.
Qed.
Lemma new_prefix_settles t fib name route id t1 :
  follows t fib -> t !! name = None -> strip t1 = <[name := relinked None [] (insertRoute route (RibEntry_new id)).1]> (strip t) ->
  forall n, settles (new_updates t name route) t1 fib n.
Proof.
  intros Hf Hn Hstrip. destruct (new_entry t t1 name route id Hstrip) as [(e1 & He1 & Hr1 & Hi1 & Hh1) Hother]. destruct (single_route e1 route Hr1) as (Hc1 & Hfacts).
  assert (forall f, inherits t1 name f = inherits t name f) as Hinh by (intros f; apply inherits_ext; intros m [_ Hm]; by apply strip_routes, Hother).
  assert (forall f, effect (new_updates t name route) name f = if (f =? rt_faceId route)%N then (Some (Some (rt_cost route)), None)
      else if isRibCapture route then (None, None) else match inherits t name f with Some r => added r | None => (None, None) end) as Hself.
  { intros f. rewrite (new_effect t fib Hf) by done. by rewrite Name_equals_refl. }
  intros n. destruct (decide (n = name)) as [->|Hne].
  - split.
    + intros e He. simplify_eq. by rewrite Hc1, Hh1.
    + intros f. destruct (Hfacts f) as (_ & _ & Hl). rewrite Hself, (fo_fib _ _ Hf). unfold nexthop. rewrite He1, Hn, Hl, Hc1, Hinh, (N.eqb_sym f).
      destruct (rt_faceId route =? f)%N; [done|]. destruct (isRibCapture route); [done|]. by destruct (inherits t name f).
    + intros f _. by eexists.
    + intros e f He. simplify_eq. destruct (Hfacts f) as (_ & Ho & _). rewrite Hself, Ho, Hc1, Hinh, (N.eqb_sym f). unfold has_inherited. rewrite Hi1. cbn.
      destruct (rt_faceId route =? f)%N; [done|]. destruct (isRibCapture route); [done|]. by destruct (inherits t name f).
  - apply (settles_others t fib t1 name (new_added t name route) (new_removed t name route) (new_updates t name route) Hf Hother); [|intros m f Ha Hs; by eapply new_prefix_inherits|done].
    intros m f Hm. rewrite (new_effect t fib Hf) by done. by rewrite Name_equals_ne.
Qed.
Lemma new_prefix_planned t fib name route :
  follows t fib -> t !! name = None -> planned (mkRibUpdate REGISTER name route) t fib (new_updates t name route).
Proof.
  intros Hf Hn. split; [apply new_wf|split].
  - intros s Hs. exists (set_updater (new_updates t name route) s). split; [|done]. unfold computeUpdates. rewrite bind_get. cbn [ru_action ru_name ru_route]. by rewrite Hs, new_compute.
  - intros s s1 Hs Hrun. change (applyUpdate (mkRibUpdate REGISTER name route)) with (rib_insert name route) in Hrun. rewrite <- Hs in *.
    destruct (rib_insert_ok name route s (fo_tree _ _ Hf)) as (s1' & Hrun' & _ & Hstrip & _). rewrite Hrun in Hrun'. simplify_eq.
    unfold inserted in Hstrip. rewrite Hn in Hstrip. by eapply new_prefix_settles.
Qed.

(** ** A prefix that goes *)

Lemma traverse_nothing fuel t d p : traverseSubTree fuel t d [] [] p = p.
Proof.
  revert d p. induction fuel as [|fuel IH]; intros d p; [done|]. cbn [traverseSubTree]. destruct (t !! d) as [e|]; [|done]. destruct (hasCapture e); [done|]. cbn [remove_pass add_pass].
  induction (re_children e) as [|c l IHl]; [done|]. cbn [fold_left]. by rewrite IH.
Qed.
Lemma modifyChildren_nothing t cs p : modifyChildrensInheritedRoutes t cs [] [] p = p.
Proof. unfold modifyChildrensInheritedRoutes. induction cs as [|c cs IH]; [done|]. cbn [fold_left]. by rewrite traverse_nothing. Qed.


Section last_route.
Context (t : RibTable) (fib : FibTable) (Hfol : follows t fib) (name : Name) (route r : Route) (e : RibEntry).
Context (He : t !! name = Some e) (Hr : re_routes e = [r]) (Hcap : isRibCapture r = false) (Hkey : compareFaceIdAndOrigin r route = true).

Definition gone_added : RouteSet := if isChildInherit r then getAncestorRoutes_name t name else [].
Definition gone_removed : RouteSet := if isChildInherit r then [r] else [].
Definition gone_updates : Updater :=
  createFibUpdatesForErasedRibEntry name e
    (modifyChildrensInheritedRoutes t (re_children e) gone_added gone_removed
       (addFibUpdate (createRemoveUpdate name (rt_faceId r)) (mkUpdater (rt_faceId route) [] [] []))).
Lemma gone_compute : exists event, computeUpdatesForUnregistration t name route (mkUpdater (rt_faceId route) [] [] []) = (gone_updates, event).
Proof.
  assert (findRoute route e = Some r) as Hfind by (unfold findRoute; rewrite Hr; cbn; by rewrite Hkey).
  pose proof (eraseRoute_routes route e r Hfind) as Her. destruct (eraseRoute_links route e) as [Hpar Hch]. rewrite Hr in Her. cbn in Her. rewrite Hkey in Her.
  assert (hasCapture (eraseRoute route e).1 = hasCapture e) as Hhc by (unfold eraseRoute; by rewrite Hfind, Hcap).
  assert (hasCapture e = false) as Hhe by (rewrite (fo_count _ _ Hfol name e He); destruct (single_route e r Hr) as [-> _]; done).
  unfold computeUpdatesForUnregistration. rewrite He, Hfind. destruct (eraseRoute route e) as [temp event]. cbn [fst snd] in *. exists event. f_equal.
  assert (getNRoutes temp = 0%nat) as Hn0 by (unfold getNRoutes; by rewrite Her). assert (getNRoutes e = 1%nat) as Hn1 by (unfold getNRoutes; by rewrite Hr).
  assert (getRouteWithSecondLowestCostByFaceId e (rt_faceId route) = None) as ->.
  { unfold getRouteWithSecondLowestCostByFaceId. rewrite Hr. cbn. by destruct (_ =? _)%N. }
  assert (getAncestorRoutes t name temp = getAncestorRoutes_name t name) as Hanc.
  { unfold getAncestorRoutes, getAncestorRoutes_name. rewrite Hpar. by destruct (fo_tree _ _ Hfol name e He) as (-> & _). }
  rewrite Hn1. cbn [Nat.eqb]. unfold gone_updates, gone_added, gone_removed. f_equal. unfold createFibUpdatesForErasedRoute. rewrite Hn0, Hhc, Hhe, Hcap, Hanc, Hch. cbn [andb negb Nat.eqb].
  destruct (isChildInherit r); [done|]. by rewrite modifyChildren_nothing.
Qed.
Lemma gone_wf : up_wf gone_updates.
Proof. unfold gone_updates. apply up_wf_fold; auto with up_wf. Qed.
Lemma erasedEntry_effect p n f :
  effect (createFibUpdatesForErasedRibEntry name e p) n f = (if Name_equals n name && has_inherited e f then Some None else (effect p n f).1, (effect p n f).2).
Proof.
  unfold createFibUpdatesForErasedRibEntry, has_inherited. revert p. induction (re_inherited e) as [|x l IH]; intros p; cbn [fold_left existsb].
  - rewrite andb_false_r. by destruct (effect p n f).
  - rewrite IH, effect_fib. cbn [fst snd]. unfold on_key, createRemoveUpdate, nexthop_of. cbn [fu_name fu_faceId fu_action]. rewrite (N.eqb_sym f).
    by destruct (Name_equals n name), (rt_faceId x =? f)%N, (existsb _ l).
Qed.
Lemma gone_effect n f :
  effect gone_updates n f =
    if Name_equals n name then (if (rt_faceId r =? f)%N || has_inherited e f then Some None else None, None)
    else if decide (reaches_under t name n f) then passed t gone_added gone_removed n f (None, None) else (None, None).
Proof.
  destruct (getAncestorRoutes_spec t name (fo_tree _ _ Hfol) (fo_count _ _ Hfol)) as [Hs _]. destruct (fo_tree _ _ Hfol name e He) as (_ & _ & Hnd).
  unfold gone_updates. rewrite erasedEntry_effect.
  rewrite (modifyChildren_effect t (fo_tree _ _ Hfol) (fo_count _ _ Hfol) name); [|intros c; apply (children_right_below t name e c (fo_tree _ _ Hfol) He)|done|unfold gone_added; destruct (isChildInherit r); [by apply sorted_nodup|constructor]|unfold gone_removed; destruct (isChildInherit r); [apply NoDup_singleton|constructor]].
  set (own := addFibUpdate _ _). assert (effect own n f = (if Name_equals n name && (rt_faceId r =? f)%N then Some None else None, None)) as Hown.
  { unfold own. rewrite effect_fib. unfold effect, on_key. cbn. rewrite (N.eqb_sym f (rt_faceId r)). by destruct (Name_equals n name), (rt_faceId r =? f)%N, (f =? rt_faceId route)%N. }
  rewrite Hown. destruct (Name_equals n name) eqn:E.
  - apply Name_equals_spec in E as ->. rewrite decide_False by (intros [[_ []] _]; done). cbn. by destruct (rt_faceId r =? f)%N, (has_inherited e f).
  - cbn [andb]. case_decide; [|done]. by destruct (passed _ _ _ _ _ _).
Qed.
End last_route.

Section last_route_settles.
Context (t : RibTable) (fib : FibTable) (Hfol : follows t fib) (name : Name) (route r : Route) (e : RibEntry).
Context (He : t !! name = Some e) (Hr : re_routes e = [r]) (Hcap : isRibCapture r = false) (Hkey : compareFaceIdAndOrigin r route = true).
Context (t1 : RibTable) (Hstrip : strip t1 = delete name (strip t)).

Lemma gone_other n : n <> name -> strip t1 !! n = strip t !! n.
Proof. intros Hne. by rewrite Hstrip, lookup_delete_ne. Qed.
Lemma gone_name : t1 !! name = None.
Proof. pose proof (f_equal (lookup name) Hstrip) as H. rewrite lookup_delete_eq, strip_lookup in H. by destruct (t1 !! name). Qed.
Lemma gone_inherits n f :
  above name n -> scan t f (down n (length n) (S (length name))) = None ->
  inherits t1 n f = match at_face f (gone_added t name r) with
                    | Some x => Some x
                    | None => match at_face f (gone_removed r) with Some _ => None | None => inherits t n f end
                    end.
Proof.
  intros Ha Hs. destruct (single_route e r Hr) as (Hc & Hfacts). destruct (Hfacts f) as (Hg & _). rewrite !(inherits_above _ _ name n Ha).
  destruct (getAncestorRoutes_spec t name (fo_tree _ _ Hfol) (fo_count _ _ Hfol)) as [_ Hanc].
  assert (scan t1 f (down n (length n) (S (length name))) = None) as ->.
  { rewrite <- Hs. apply scan_ext. intros m [_ Hm]%down_elem; [|lia]. apply strip_routes, gone_other. intros ->. lia. }
  assert (inherits t1 name f = inherits t name f) as -> by (apply inherits_ext; intros m [_ Hm]; by apply strip_routes, gone_other).
  rewrite Hs. cbn [scan]. rewrite gone_name, He, Hg, Hc, Hcap. unfold gone_added, gone_removed. destruct (isChildInherit r).
  - rewrite Hanc. unfold at_face. cbn. by destruct (inherits t name f), (rt_faceId r =? f)%N.
  - by rewrite andb_false_r.
Qed.
Lemma gone_settles n : settles (gone_updates t name route r e) t1 fib n.
Proof.
  pose proof (gone_effect t fib Hfol name route r e He) as Heff. destruct (decide (n = name)) as [->|Hne].
  - pose proof gone_name as H1. split; [congruence| | |congruence].
    + intros f. rewrite Heff, Name_equals_refl. destruct (single_route e r Hr) as (Hc & Hfacts). destruct (Hfacts f) as (_ & Ho & Hl).
      unfold nexthop. rewrite H1. cbn [fst]. destruct (rt_faceId r =? f)%N eqn:Ef; [done|]. destruct (has_inherited e f) eqn:Hi; [done|]. cbn.
      rewrite (fo_fib _ _ Hfol). unfold nexthop. rewrite He, Hl, Hc, Hcap. rewrite (fo_inherited _ _ Hfol name e f He), Ho, Hc, Hcap in Hi. cbn in Hi. by destruct (inherits t name f).
    + intros f. by rewrite Heff, Name_equals_refl.
  - apply (settles_others t fib t1 name (gone_added t name r) (gone_removed r)); [done|apply gone_other| |apply gone_inherits|done].
    intros m f Hm. by rewrite Heff, Name_equals_ne.
Qed.
End last_route_settles.

Lemma last_route_planned t fib name route r e :
  follows t fib -> t !! name = Some e -> re_routes e = [r] -> isRibCapture r = false -> compareFaceIdAndOrigin r route = true ->
  planned (mkRibUpdate UNREGISTER name route) t fib (gone_updates t name route r e).
Proof.
  intros Hf He Hr Hcap Hkey. destruct (gone_compute t fib Hf name route r e He Hr Hcap Hkey) as [event Hcomp]. split; [apply gone_wf|split].
  - intros s Hs. exists (set_updater (gone_updates t name route r e) (cancelled event s)). split; [|by destruct event].
    unfold computeUpdates. rewrite bind_get. cbn [ru_action ru_name ru_route]. rewrite Hs, Hcomp. by rewrite (bind_run _ _ _ _ _ (cancel_run _ _)).
  - intros s s1 Hs Hrun n. change (applyUpdate (mkRibUpdate UNREGISTER name route)) with (rib_erase name route) in Hrun.
    destruct (rib_erase_ok name route s) as (s1' & Hrun' & _ & Hstrip & _); [rewrite Hs; apply Hf|]. rewrite Hrun in Hrun'. simplify_eq.
    apply gone_settles; try done. rewrite Hstrip. unfold erased. rewrite He.
    assert (findRoute route e = Some r) as Hfind by (unfold findRoute; rewrite Hr; cbn; by rewrite Hkey). rewrite Hfind, (eraseRoute_routes route e r Hfind), Hr. cbn. rewrite Hkey. unfold strip. by rewrite fmap_delete.
Qed.
(** Nothing is done for a route that is not there. *)
Lemma no_route_planned t fib name route :
  follows t fib -> (forall e, t !! name = Some e -> findRoute route e = None) ->
  planned (mkRibUpdate UNREGISTER name route) t fib (mkUpdater (rt_faceId route) [] [] []).
Proof.
  intros Hf Hno. split; [apply up_wf_fresh|split].
  - intros s Hs. exists (set_updater (mkUpdater (rt_faceId route) [] [] []) s). split; [|done]. unfold computeUpdates. rewrite bind_get. cbn [ru_action ru_name ru_route]. rewrite Hs.
    unfold computeUpdatesForUnregistration. destruct (t !! name) as [e|] eqn:He; [by rewrite (Hno e eq_refl)|done].
  - intros s s1 Hs Hrun n. assert (rb_table s1 = t) as ->.
    { change (applyUpdate (mkRibUpdate UNREGISTER name route)) with (rib_erase name route) in Hrun. unfold rib_erase in Hrun. rewrite bind_get, Hs in Hrun.
      destruct (t !! name) as [e|] eqn:He; [rewrite (Hno e eq_refl) in Hrun|]; by injection Hrun as <-. }
    assert (forall f, effect (mkUpdater (rt_faceId route) [] [] []) n f = (None, None)) as Heff by (intros f; unfold effect; cbn; by destruct (_ =? _)%N).
    split.
    + intros e. apply Hf.
    + intros f. rewrite Heff. apply Hf.
    + intros f. by rewrite Heff.
    + intros e f He. rewrite Heff. by apply Hf.
Qed.

(** Updates for which the commands are right: a new prefix, or the last route of a prefix when
    it has no capture flag. *)
Definition plain (u : RibUpdate) (m : gmap Name (list Route)) : Prop :=
  match ru_action u with
  | REGISTER => m !! ru_name u = None
  | UNREGISTER => match m !! ru_name u with
                  | None => True
                  | Some l => match List.find (fun r => compareFaceIdAndOrigin r (ru_route u)) l with
                              | None => True
                              | Some r => l = [r] /\ isRibCapture r = false
                              end
                  end
  | REMOVE_FACE => False
  end.
Lemma plain_planned u t fib : follows t fib -> plain u (routes_of t) -> exists p, planned u t fib p.
Proof.
  intros Hf. unfold plain, routes_of. rewrite lookup_fmap. destruct u as [a name route]. cbn [ru_action ru_name ru_route]. destruct a; [|destruct (t !! name) as [e|] eqn:He|done].
  - intros Hn. eexists. apply new_prefix_planned; [done|]. by destruct (t !! name).
  - cbn. destruct (List.find _ (re_routes e)) as [r|] eqn:Hfind.
    + intros [Hr Hcap]. eexists. eapply last_route_planned; [done|done|done|done|]. by apply List.find_some in Hfind as [_ ?].
    + intros _. eexists. apply no_route_planned; [done|]. intros x Hx. simplify_eq. done.
  - intros _. eexists. apply no_route_planned; [done|]. intros x Hx. congruence.
Qed.
