(* ===== verification/RibQueue.v ===== *)
(** * Updates of the RIB and their commands (daemon/rib/rib.cpp, fib-updater.cpp)

    An update from its request to the callback: the commands of its face are sent first, those
    of other faces when every one of the first has succeeded, and the RIB is changed when all
    have, whatever the order of the replies. *)

From S2P Require Import Prelude Name Tlv ObjectMonad RibEntry RibLookup FibUpdater Rib RibTree RibFib.

(** ** Commands *)

Definition send_of (item : QueueItem) (u : FibUpdate) : RibOut :=
  match fu_action u with ADD_NEXTHOP => SendAddNextHop u item 0 | REMOVE_NEXTHOP => SendRemoveNextHop u item 0 end.
Definition add_out (l : list RibOut) (s : Rib) : Rib :=
  mkRib (rb_table s) (rb_faceEntries s) (rb_nItems s) (rb_queue s) (rb_inProgress s) (rb_updater s) (rb_events s) (rb_nextId s) (rb_out s ++ l).
Lemma sendUpdates_run l item s : sendUpdates l item s = Some (inr tt, add_out (send_of item <$> l) s).
Proof.
  revert s. induction l as [|u l IH]; intros s.
  - destruct s as [? ? ? ? ? ? ? ? out]. unfold add_out. cbn. by rewrite app_nil_r.
  - unfold sendUpdates in *. cbn [forM]. assert (forall k, ((match fu_action u with ADD_NEXTHOP => emit (SendAddNextHop u item 0) | REMOVE_NEXTHOP => emit (SendRemoveNextHop u item 0) end) ;; k) s = (k : RM unit) (add_out [send_of item u] s)) as Hu
      by (intros k; unfold send_of; by destruct (fu_action u)).
    rewrite Hu, IH. unfold add_out. cbn. by rewrite <- app_assoc.
Qed.

Lemma fib_effect_perm l l' n f :
  NoDup ((fun u => (fu_name u, fu_faceId u)) <$> l) -> l' ≡ₚ l -> fib_effect l' n f = fib_effect l n f.
Proof.
  intros Hnd Hp. assert (forall u l, NoDup ((fun u => (fu_name u, fu_faceId u)) <$> l) -> List.find (on_key n f) l = Some u <-> u ∈ l /\ on_key n f u = true) as Hfind.
  { clear. intros u l Hnd. induction l as [|x l IH]; cbn; [by split; [|intros [?%not_elem_of_nil _]]|]. csimpl in Hnd. apply NoDup_cons in Hnd as [Hx Hl]. rewrite elem_of_cons. destruct (on_key n f x) eqn:E.
    - split; [intros [= ->]; by split; [left|]|]. intros [[->|Hu] Hk]; [done|]. exfalso. apply Hx. apply on_key_spec in E as [-> ->], Hk as [-> ->]. by apply (list_elem_of_fmap_2 (fun u => (fu_name u, fu_faceId u))).
    - rewrite IH by done. split; [naive_solver|]. intros [[->|Hu] Hk]; [congruence|done]. }
  unfold fib_effect. f_equal. apply option_eq. intros u. rewrite !Hfind; [by rewrite Hp|done|by rewrite Hp].
Qed.
(** The order of the commands does not matter to the FIB. *)
Lemma fib_apply_all_perm l l' fib : NoDup ((fun u => (fu_name u, fu_faceId u)) <$> l) -> l' ≡ₚ l -> fib_apply_all l' fib = fib_apply_all l fib.
Proof.
  intros Hnd Hp. apply map_eq. intros [n f]. rewrite !fib_apply_all_lookup; [by rewrite (fib_effect_perm l l')|done|by rewrite Hp].
Qed.

(** ** An update at a time *)

Definition idle (s : Rib) : Prop := rb_queue s = [] /\ rb_inProgress s = false.
(** An update whose commands are on their way. *)
Record under_way (u : RibUpdate) (t : RibTable) (fib : FibTable) (p : Updater) (batch nonBatch : list FibUpdate) (s : Rib) : Prop := {
  uy_planned : planned u t fib p;
  uy_follows : follows t fib;
  uy_table : rb_table s = t;
  uy_queue : rb_queue s = [];
  uy_progress : rb_inProgress s = true;
  uy_updater : rb_updater s = mkUpdater (up_batchFaceId p) batch nonBatch (up_inherited p);
}.

(** The end of an update: the RIB is changed, and the callback is called. *)
Lemma onFibUpdateSuccess_run next u cb t fib p batch nonBatch s :
  under_way u t fib p batch nonBatch s -> (forall s, rb_queue s = [] -> next s = Some (inr tt, s)) ->
  exists s' out, onFibUpdateSuccess next (mkQueueItem u cb) s = Some (inr tt, s') /\ idle s' /\ rb_out s' = out ++ [CallSuccess cb] /\
    follows (rb_table s') (fib_apply_all (commands p) fib) /\ routes_of (rb_table s') = spec_step u (routes_of t).
Proof.
  intros [(Hw & _ & Hset) Hf Ht Hq Hp Hu] Hnext. unfold onFibUpdateSuccess. rewrite bind_get, Hu. cbn [qi_update up_inherited].
  destruct (applyUpdate_ok u s) as (s1 & Happ & Ht1 & Hro & Hq1 & _); [rewrite Ht; apply Hf..|]. specialize (Hset s s1 Ht Happ).
  destruct (follows_step p fib s1 Hw Ht1) as (s2 & Hrun & Hf' & Hr & Hq2 & _); [rewrite Hro, Ht; apply spec_step_ok, Hf|intros n; apply Hset..|].
  rewrite (bind_run _ _ _ _ _ Happ), (bind_run _ _ _ _ _ Hrun), (bind_run _ _ _ tt _ eq_refl), (bind_run _ _ _ tt _ eq_refl). cbn [qi_callback].
  rewrite Hnext by (cbn; congruence). eexists _, (rb_out s2). split; [reflexivity|]. split; [split; [cbn; congruence|done]|]. split; [done|]. split; [exact Hf'|]. etrans; [exact Hr|]. by rewrite Hro, Ht.
Qed.
Lemma sendBatch_nothing s : rb_queue s = [] -> sendBatchFromQueue s = Some (inr tt, s).
Proof. intros H. unfold sendBatchFromQueue. rewrite bind_get. unfold sendBatchFromQueue_loop. rewrite H. cbn. rewrite bind_get. by rewrite ?H. Qed.

(** The state an update leaves. *)
Definition completed (u : RibUpdate) (cb : option N) (t : RibTable) (fib : FibTable) (p : Updater) (s' : Rib) : Prop :=
  idle s' /\ (exists out, rb_out s' = out ++ [CallSuccess cb]) /\ follows (rb_table s') (fib_apply_all (commands p) fib) /\ routes_of (rb_table s') = spec_step u (routes_of t).
Lemma finish_run u cb t fib p batch nonBatch s :
  under_way u t fib p batch nonBatch s -> exists s', onFibUpdateSuccess sendBatchFromQueue (mkQueueItem u cb) s = Some (inr tt, s') /\ completed u cb t fib p s'.
Proof.
  intros H. destruct (onFibUpdateSuccess_run sendBatchFromQueue u cb t fib p batch nonBatch s H sendBatch_nothing) as (s' & out & H1 & H2 & H3 & H4 & H5).
  exists s'. split; [done|]. split; [done|]. split; [by exists out|by split].
Qed.

Lemma remove_update_perm u l l' : NoDup l -> l ≡ₚ u :: l' -> remove_update u l ≡ₚ l'.
Proof.
  intros Hnd Hp. assert (forall l, remove_update u l = base.filter (fun x => x <> u) l) as Hr.
  { clear. induction l as [|x l IH]; [done|]. cbn [remove_update List.filter]. rewrite filter_cons. unfold remove_update in IH. rewrite IH. case_bool_decide; by case_decide. }
  rewrite Hr, Hp. rewrite filter_cons, decide_False by (intros H; by apply H). rewrite Hp in Hnd. apply NoDup_cons in Hnd as [Hu _].
  clear -Hu. induction l' as [|x l' IH]; [done|]. apply not_elem_of_cons in Hu as [Hx Hu]. rewrite filter_cons, decide_True by congruence. by rewrite IH.
Qed.

Definition replies (item : QueueItem) (l : list FibUpdate) : RM unit := forM l (fun c => onUpdateSuccess c item).
Lemma nonBatch_step u cb t fib p batch nonBatch c l s :
  under_way u t fib p batch nonBatch s -> NoDup nonBatch -> fu_faceId c <> up_batchFaceId p -> nonBatch ≡ₚ c :: l ->
  exists s', onUpdateSuccess c (mkQueueItem u cb) s = Some (inr tt, s') /\
    match l with [] => completed u cb t fib p s' | _ => exists nonBatch', nonBatch' ≡ₚ l /\ under_way u t fib p batch nonBatch' s' end.
Proof.
  intros Hw Hnd Hc Hp. pose proof (remove_update_perm c nonBatch l Hnd Hp) as Hrem. unfold onUpdateSuccess. rewrite bind_get, (uy_updater _ _ _ _ _ _ _ Hw). cbn [up_batchFaceId].
  rewrite (proj2 (N.eqb_neq _ _) Hc). unfold after_nonBatch. rewrite (bind_run _ _ _ tt _ eq_refl), bind_get, (uy_updater _ _ _ _ _ _ _ Hw). cbn [rb_updater set_updater up_nonBatch remove_nonBatch up_batchFaceId up_batch up_inherited].
  set (s1 := set_updater _ s). assert (under_way u t fib p batch (remove_update c nonBatch) s1) as Hw1 by (split; [apply Hw..|done]).
  destruct (remove_update c nonBatch) as [|x m] eqn:Em.
  - apply Permutation_nil in Hrem as ->. eapply finish_run, Hw1.
  - exists s1. split; [done|]. destruct l as [|y l]; [symmetry in Hrem; by apply Permutation_nil in Hrem|]. by exists (x :: m).
Qed.
Lemma nonBatch_run u cb t fib p batch nonBatch l s :
  under_way u t fib p batch nonBatch s -> NoDup nonBatch -> (forall c, c ∈ nonBatch -> fu_faceId c <> up_batchFaceId p) -> l ≡ₚ nonBatch -> nonBatch <> [] ->
  exists s', replies (mkQueueItem u cb) l s = Some (inr tt, s') /\ completed u cb t fib p s'.
Proof.
  revert nonBatch s. induction l as [|c l IH]; intros nonBatch s Hw Hnd Hf Hp Hne; [symmetry in Hp; by apply Permutation_nil_r in Hp|].
  destruct (nonBatch_step u cb t fib p batch nonBatch c l s Hw Hnd) as (s1 & Hrun & Hs1); [apply Hf; rewrite <- Hp; by left|done|].
  unfold replies in *. cbn [forM]. rewrite (bind_run _ _ _ _ _ Hrun). destruct l as [|d l]; [by exists s1|]. destruct Hs1 as (nonBatch' & Hp' & Hw').
  apply (IH nonBatch'); [done| | |done|].
  - rewrite Hp'. rewrite <- Hp in Hnd. by apply NoDup_cons in Hnd as [_ ?].
  - intros x Hx. apply Hf. rewrite <- Hp. right. by rewrite <- Hp'.
  - intros ->. by apply Permutation_nil_l in Hp'.
Qed.

(** Once the commands of the update's face are done, the others are sent. *)
Lemma nonBatch_sent u cb t fib p batch nonBatch s :
  under_way u t fib p batch nonBatch s ->
  exists s', sendUpdatesForNonBatchFaceId sendBatchFromQueue (mkQueueItem u cb) s = Some (inr tt, s') /\
    match nonBatch with [] => completed u cb t fib p s' | _ => under_way u t fib p batch nonBatch s' /\ rb_out s' = rb_out s ++ (send_of (mkQueueItem u cb) <$> nonBatch) end.
Proof.
  intros Hw. unfold sendUpdatesForNonBatchFaceId. rewrite bind_get, (uy_updater _ _ _ _ _ _ _ Hw). cbn [up_nonBatch]. destruct nonBatch as [|c l]; [by eapply finish_run|].
  rewrite sendUpdates_run. eexists. split; [reflexivity|]. split; [|done]. split; apply Hw.
Qed.
Lemma batch_step u cb t fib p batch nonBatch c l s :
  under_way u t fib p batch nonBatch s -> NoDup batch -> fu_faceId c = up_batchFaceId p -> batch ≡ₚ c :: l ->
  exists s', onUpdateSuccess c (mkQueueItem u cb) s = Some (inr tt, s') /\
    match l with
    | [] => match nonBatch with [] => completed u cb t fib p s' | _ => under_way u t fib p [] nonBatch s' /\ rb_out s' = rb_out s ++ (send_of (mkQueueItem u cb) <$> nonBatch) end
    | _ => exists batch', batch' ≡ₚ l /\ under_way u t fib p batch' nonBatch s' /\ rb_out s' = rb_out s
    end.
Proof.
  intros Hw Hnd Hc Hp. pose proof (remove_update_perm c batch l Hnd Hp) as Hrem. unfold onUpdateSuccess. rewrite bind_get, (uy_updater _ _ _ _ _ _ _ Hw). cbn [up_batchFaceId].
  rewrite (proj2 (N.eqb_eq _ _) Hc), (bind_run _ _ _ tt _ eq_refl), bind_get, (uy_updater _ _ _ _ _ _ _ Hw). cbn [rb_updater set_updater up_batch remove_batch up_batchFaceId up_nonBatch up_inherited].
  set (s1 := set_updater _ s). assert (under_way u t fib p (remove_update c batch) nonBatch s1) as Hw1 by (split; [apply Hw..|done]).
  destruct (remove_update c batch) as [|x m] eqn:Em.
  - apply Permutation_nil in Hrem as ->. apply (nonBatch_sent u cb) in Hw1. exact Hw1.
  - exists s1. split; [done|]. destruct l as [|y l]; [symmetry in Hrem; by apply Permutation_nil in Hrem|]. by exists (x :: m).
Qed.
Lemma batch_run u cb t fib p batch nonBatch l s :
  under_way u t fib p batch nonBatch s -> NoDup batch -> (forall c, c ∈ batch -> fu_faceId c = up_batchFaceId p) -> l ≡ₚ batch -> batch <> [] ->
  exists s', replies (mkQueueItem u cb) l s = Some (inr tt, s') /\
    match nonBatch with [] => completed u cb t fib p s' | _ => under_way u t fib p [] nonBatch s' /\ rb_out s' = rb_out s ++ (send_of (mkQueueItem u cb) <$> nonBatch) end.
Proof.
  revert batch s. induction l as [|c l IH]; intros batch s Hw Hnd Hf Hp Hne; [symmetry in Hp; by apply Permutation_nil_r in Hp|].
  destruct (batch_step u cb t fib p batch nonBatch c l s Hw Hnd) as (s1 & Hrun & Hs1); [apply Hf; rewrite <- Hp; by left|done|].
  unfold replies in *. cbn [forM]. rewrite (bind_run _ _ _ _ _ Hrun). destruct l as [|d l]; [by exists s1|]. destruct Hs1 as (batch' & Hp' & Hw' & Hout). rewrite <- Hout.
  apply (IH batch'); [done| | |done|].
  - rewrite Hp'. rewrite <- Hp in Hnd. by apply NoDup_cons in Hnd as [_ ?].
  - intros x Hx. apply Hf. rewrite <- Hp. right. by rewrite <- Hp'.
  - intros ->. by apply Permutation_nil_l in Hp'.
Qed.

Lemma replies_app item l l' s s1 : replies item l s = Some (inr tt, s1) -> replies item (l ++ l') s = replies item l' s1.
Proof.
  unfold replies. revert s. induction l as [|c l IH]; intros s; cbn [forM app]; [by intros [= ->]|]. unfold mbind, OM_bind.
  destruct (onUpdateSuccess c item s) as [[[?|[]] s0]|]; [done| |done]. apply IH.
Qed.
Lemma begin_run u cb s fib p :
  idle s -> follows (rb_table s) fib -> planned u (rb_table s) fib p ->
  exists s1, beginApplyUpdate u cb s = Some (inr tt, s1) /\
    match up_batch p, up_nonBatch p with
    | [], [] => completed u cb (rb_table s) fib p s1
    | [], l | l, _ => under_way u (rb_table s) fib p (up_batch p) (up_nonBatch p) s1 /\ rb_out s1 = rb_out s ++ (send_of (mkQueueItem u cb) <$> l)
    end.
Proof.
  intros [Hq Hi] Hf Hp. unfold beginApplyUpdate, addUpdateToQueue. rewrite (bind_run _ _ _ tt _ eq_refl). unfold sendBatchFromQueue. rewrite bind_get. cbn [rb_queue on_queue]. rewrite Hq. cbn [app length].
  cbn [sendBatchFromQueue_loop]. rewrite bind_get. cbn [rb_queue on_queue rb_inProgress]. rewrite Hq, Hi. cbn [app]. rewrite (bind_run _ _ _ tt _ eq_refl), (bind_run _ _ _ tt _ eq_refl).
  set (s0 := on_queue _ (set_inProgress true _)). unfold computeAndSendFibUpdates. pose proof Hp as (_ & Hcomp & _). destruct (Hcomp s0 eq_refl) as (s0' & Hrun & Hu & Ht & Hq' & Hi' & Ho'). cbn [qi_update].
  rewrite (bind_run _ _ _ _ _ Hrun), bind_get, Hu. assert (under_way u (rb_table s) fib p (up_batch p) (up_nonBatch p) s0') as Hw by (split; try done; by destruct p).
  destruct (up_batch p) as [|c l] eqn:Eb.
  - unfold sendUpdatesForNonBatchFaceId. rewrite bind_get, Hu. destruct (up_nonBatch p) as [|c l] eqn:En.
    + eapply onFibUpdateSuccess_run in Hw as (s' & out & H1 & H2 & H3 & H4 & H5); [exists s'; split; [exact H1|]; split; [done|split; [by exists out|by split]]|].
      intros x Hx. by rewrite bind_get.
    + rewrite sendUpdates_run. eexists. split; [reflexivity|]. split; [split; apply Hw|]. cbn. by rewrite Ho'.
  - rewrite sendUpdates_run. eexists. split; [reflexivity|]. split; [split; apply Hw|]. cbn. by rewrite Ho'.
Qed.

(** The replies to the commands, in any order for each of the two lists. *)
Lemma replies_run u cb s fib p s1 lb ln :
  planned u (rb_table s) fib p ->
  match up_batch p, up_nonBatch p with
  | [], [] => completed u cb (rb_table s) fib p s1
  | [], l | l, _ => under_way u (rb_table s) fib p (up_batch p) (up_nonBatch p) s1 /\ rb_out s1 = rb_out s ++ (send_of (mkQueueItem u cb) <$> l)
  end ->
  lb ≡ₚ up_batch p -> ln ≡ₚ up_nonBatch p ->
  (lb <> [] -> ln <> [] -> exists s2, replies (mkQueueItem u cb) lb s1 = Some (inr tt, s2) /\ rb_out s2 = rb_out s1 ++ (send_of (mkQueueItem u cb) <$> up_nonBatch p)) /\
  exists s', replies (mkQueueItem u cb) (lb ++ ln) s1 = Some (inr tt, s') /\ completed u cb (rb_table s) fib p s'.
Proof.
  intros ([H1 H2 H3 H4 _] & _) Hs1 Hlb Hln. apply NoDup_fmap_1 in H1, H2. destruct (up_batch p) as [|c l] eqn:Eb.
  - apply Permutation_nil_r in Hlb as ->. split; [done|]. cbn [app]. destruct (up_nonBatch p) as [|d m] eqn:En; [apply Permutation_nil_r in Hln as ->; by exists s1|].
    eapply nonBatch_run; [apply Hs1|done|done|done|done].
  - assert (lb <> []) as Hne by (intros ->; by apply Permutation_nil_l in Hlb). destruct (up_nonBatch p) as [|d m] eqn:En.
    + apply Permutation_nil_r in Hln as ->. rewrite !(app_nil_r lb). split; [done|]. destruct Hs1 as [Hw _].
      exact (batch_run u cb _ _ _ _ _ lb s1 Hw H1 H3 Hlb ltac:(done)).
    + destruct Hs1 as [Hw _]. destruct (batch_run u cb _ _ _ _ _ lb s1 Hw H1 H3 Hlb ltac:(done)) as (s2 & Hrun & Hw2 & Hout). split; [intros _ _; by exists s2|].
      rewrite (replies_app _ _ _ _ _ Hrun). eapply nonBatch_run; [exact Hw2|done|done|done|done].
Qed.

(** C20: when no update is in progress and the RIB and the FIB agree, registering a new prefix, or
    unregistering the last route of a prefix when it has no capture flag, sends the commands
    for the route's face and, when each of these has succeeded, those for other faces; when all
    have succeeded, in any order, the RIB is changed and the callback called, no update is in
    progress, and the FIB is again what the table asks for: for a prefix its own routes at least
    cost and, unless it or one in between captures, the child-inherit routes of its nearest
    ancestors. *)
Theorem update_completes : forall u cb s fib,
  idle s -> follows (rb_table s) fib -> plain u (routes_of (rb_table s)) ->
  exists p s1, beginApplyUpdate u cb s = Some (inr tt, s1) /\
    (up_batch p <> [] -> rb_out s1 = rb_out s ++ (send_of (mkQueueItem u cb) <$> up_batch p)) /\
    (up_batch p = [] -> up_nonBatch p <> [] -> rb_out s1 = rb_out s ++ (send_of (mkQueueItem u cb) <$> up_nonBatch p)) /\
    forall lb ln, lb ≡ₚ up_batch p -> ln ≡ₚ up_nonBatch p ->
      (lb <> [] -> ln <> [] -> exists s2, replies (mkQueueItem u cb) lb s1 = Some (inr tt, s2) /\ rb_out s2 = rb_out s1 ++ (send_of (mkQueueItem u cb) <$> up_nonBatch p)) /\
      exists s' out, replies (mkQueueItem u cb) (lb ++ ln) s1 = Some (inr tt, s') /\ rb_out s' = out ++ [CallSuccess cb] /\
        idle s' /\ routes_of (rb_table s') = spec_step u (routes_of (rb_table s)) /\
        follows (rb_table s') (fib_apply_all (lb ++ ln) fib) /\
        forall n f, fib_apply_all (lb ++ ln) fib !! (n, f) = nexthop (rb_table s') n f.
Proof.
  intros u cb s fib Hi Hf Hp. destruct (plain_planned u (rb_table s) fib Hf Hp) as [p Hpl]. destruct (begin_run u cb s fib p Hi Hf Hpl) as (s1 & Hrun & Hs1).
  exists p, s1. split; [done|]. split; [intros Hb; by destruct (up_batch p); [|apply Hs1]|]. split; [intros Hb Hn; rewrite Hb in Hs1; by destruct (up_nonBatch p); [|apply Hs1]|].
  intros lb ln Hlb Hln. pose proof (uw_batch_keys _ (proj1 Hpl)) as Hkb. pose proof (uw_nonBatch_keys _ (proj1 Hpl)) as Hkn.
  assert (fib_apply_all (lb ++ ln) fib = fib_apply_all (commands p) fib) as ->.
  { unfold commands, fib_apply_all. rewrite !fold_left_app. fold (fib_apply_all lb fib) (fib_apply_all (up_batch p) fib). rewrite (fib_apply_all_perm (up_batch p) lb) by done. by apply (fib_apply_all_perm (up_nonBatch p) ln). }
  apply NoDup_fmap_1 in Hkb, Hkn. destruct (replies_run u cb s fib p s1 lb ln Hpl Hs1 Hlb Hln) as (Hmid & s' & Hrun' & H1 & [out H2] & H3 & H4).
  split; [done|]. exists s', out. split_and!; try done. apply H3.
Qed.

(** ** Evaluated *)

(** Every command succeeds, in the order they are sent. *)
Definition command_of (o : RibOut) : option (FibUpdate * QueueItem) :=
  match o with SendAddNextHop u item _ | SendRemoveNextHop u item _ => Some (u, item) | _ => None end.
Fixpoint answer (fuel k : nat) (s : Rib) (fib : FibTable) : option (Rib * FibTable) :=
  match fuel, rb_out s !! k with
  | S fuel, Some o =>
      match command_of o with
      | None => answer fuel (S k) s fib
      | Some (u, item) => match onUpdateSuccess u item s with
                          | Some (inr tt, s) => answer fuel (S k) s (fib_apply u fib)
                          | _ => None
                          end
      end
  | _, _ => Some (s, fib)
  end.
Fixpoint serve (us : list RibUpdate) (s : Rib) (fib : FibTable) : option (Rib * FibTable) :=
  match us with
  | [] => Some (s, fib)
  | u :: us => match beginApplyUpdate u None s with
               | Some (inr tt, s1) => match answer 100 (length (rb_out s)) s1 fib with Some (s, fib) => serve us s fib | None => None end
               | _ => None
               end
  end.
Module Cases.
Local Open Scope N_scope.
Definition a : Name := [generic ["a"%byte]].
Definition ab : Name := a ++ [generic ["b"%byte]].
Definition abc : Name := ab ++ [generic ["c"%byte]].
Definition reg (n : Name) (face origin cost flags : N) : RibUpdate := mkRibUpdate REGISTER n (mkRoute face origin cost flags None None).
Definition unreg (n : Name) (face origin : N) : RibUpdate := mkRibUpdate UNREGISTER n (mkRoute face origin 0 0 None None).
(** After the updates, a prefix and a face: the FIB, and what the table asks for. *)
Definition fib_after (us : list RibUpdate) (n : Name) (f : N) : option (option N * option N) :=
  (fun x => (x.2 !! (n, f), nexthop (rb_table x.1) n f)) <$> serve us Rib_empty ∅.

(** A child inherits; a capturing prefix in between stops it, and gives its own route. *)
Example inherits_from_root : fib_after [reg [] 1 0 5 1; reg ab 3 0 10 0; reg a 2 0 10 0] ab 1 = Some (Some 5, Some 5).
Proof. vm_compute. reflexivity. Qed.
Example capture_stops_root : fib_after [reg [] 1 0 5 1; reg ab 3 0 10 0; reg a 2 0 10 3] ab 1 = Some (None, None).
Proof. vm_compute. reflexivity. Qed.
Example capture_gives_own : fib_after [reg [] 1 0 5 1; reg ab 3 0 10 0; reg a 2 0 10 3] ab 2 = Some (Some 10, Some 10).
Proof. vm_compute. reflexivity. Qed.

(** Unregistering the costlier of two routes of a face takes the face from the FIB. *)
Example costlier_route_erased : fib_after [reg a 1 0 10 0; reg a 1 128 50 0; unreg a 1 128] a 1 = Some (None, Some 10).
Proof. vm_compute. reflexivity. Qed.
(** Raising the cost of the cheaper of two routes without the child-inherit flag follows a null
    pointer. *)
Example null_route_followed : serve [reg a 1 0 10 0; reg a 1 128 50 0; reg a 1 0 100 0] Rib_empty ∅ = None.
Proof. vm_compute. reflexivity. Qed.
(** When a capturing prefix goes, those below it do not get the routes it kept from them. *)
Example capture_gone : fib_after [reg [] 1 0 5 1; reg a 2 0 10 2; reg ab 3 0 10 0; unreg a 2 0] ab 1 = Some (None, Some 5).
Proof. vm_compute. reflexivity. Qed.
(** Erasing one child-inherit route gives those below the ancestors' routes over the prefix's
    other child-inherit routes. *)
Example ancestor_over_own : fib_after [reg [] 1 0 5 1; reg a 1 0 7 1; reg a 2 0 10 1; reg ab 3 0 10 0; unreg a 2 0] ab 1 = Some (Some 5, Some 7).
Proof. vm_compute. reflexivity. Qed.
(** A prefix that inherits a face and then has a route of its own on it still counts as
    inheriting: when the ancestor's route goes, so does its own from the FIB. *)
Example own_route_removed : fib_after [reg [] 1 0 5 1; reg a 2 0 10 0; reg a 1 0 20 0; unreg [] 1 0] a 1 = Some (None, Some 20).
Proof. vm_compute. reflexivity. Qed.
(** Of two child-inherit routes on a face a new prefix takes the first, one that was there before
    the last cheaper. *)
Example first_or_cheapest :
  fst <$> fib_after [reg [] 1 0 50 1; reg [] 1 128 5 1; reg a 2 0 10 0] a 1 = Some (Some 50) /\
  fst <$> fib_after [reg a 2 0 10 0; reg [] 1 0 50 1; reg [] 1 128 5 1] a 1 = Some (Some 5).
Proof. split; vm_compute; reflexivity. Qed.
(** A route updated to capture is not counted, and uncounted when it goes. *)
Example capture_uncounted :
  (fun x => re_nCapture <$> rb_table x.1 !! a) <$> serve [reg a 1 0 10 0; reg a 2 0 10 0; reg a 1 0 10 2; unreg a 1 0] Rib_empty ∅ = Some (Some (2 ^ 64 - 1)).
Proof. vm_compute. reflexivity. Qed.
(** The entries of a face outlive the table's. *)
Example stale_face_entry :
  (fun x => (length (rb_faceEntries x.1), size (rb_table x.1))) <$> serve [reg a 1 0 10 0; reg a 1 128 50 0; unreg a 1 0; unreg a 1 128] Rib_empty ∅ = Some (1%nat, 0%nat).
Proof. vm_compute. reflexivity. Qed.
(** The expiration of a route is cancelled when its unregistration is only being computed. *)
Example expiration_cancelled :
  match rib_insert a (mkRoute 1 0 10 0 (Some 100%Z) (Some 7)) (on_events (fun E => {[7]} ∪ E) Rib_empty) with
  | Some (_, s) => match beginApplyUpdate (unreg a 1 0) None s with
                   | Some (_, s1) => (bool_decide (7 ∈ rb_events s), bool_decide (7 ∈ rb_events s1), size (rb_table s1)) = (true, false, 1%nat)
                   | None => False
                   end
  | None => False
  end.
Proof. vm_compute. reflexivity. Qed.
(** A command to remove that times out is sent again as one to add. *)
Example removal_retried_as_add s item : onUpdateError (createRemoveUpdate a 1) item ERROR_TIMEOUT 0 s = Some (inr tt, add_out [SendAddNextHop (createRemoveUpdate a 1) item 1] s).
Proof. reflexivity. Qed.
(** Each of several commands whose face is gone calls the callback, and each starts another update
    while one is in progress. *)
Definition is_failure (o : RibOut) : bool := match o with CallFailure _ _ => true | _ => false end.
Example failures_of_one_update :
  match serve [reg a 2 0 10 0] Rib_empty ∅ with
  | Some (s, _) =>
      let u := reg [] 1 0 5 1 in let item := mkQueueItem u (Some 9) in
      match (beginApplyUpdate u (Some 9);; beginApplyUpdate (reg ab 1 0 10 0) None;; beginApplyUpdate (reg abc 1 0 10 0) None;;
             onUpdateError (createAddUpdate [] 1 5) item ERROR_FACE_NOT_FOUND 0;; onUpdateError (createAddUpdate a 1 5) item ERROR_FACE_NOT_FOUND 0) s with
      | Some (_, s1) => (length (List.filter is_failure (rb_out s1)), length (rb_queue s1), size (rb_table s1)) = (2%nat, 0%nat, 1%nat)
      | None => False
      end
  | None => False
  end.
Proof. vm_compute. reflexivity. Qed.
End Cases.

Lemma follows_empty : follows (rb_table Rib_empty) ∅.
Proof.
  split; [apply rib_empty_ok..| | |]; change (rb_table Rib_empty) with (∅ : RibTable).
  - intros n e He. by rewrite lookup_empty in He.
  - intros n f. unfold nexthop. by rewrite !lookup_empty.
  - intros n e f He. by rewrite lookup_empty in He.
Qed.
Lemma update_completes_witness :
  exists p s1 s', beginApplyUpdate (Cases.reg Cases.a 1 0 5 1) (Some 3%N) Rib_empty = Some (inr tt, s1) /\
    replies (mkQueueItem (Cases.reg Cases.a 1 0 5 1) (Some 3%N)) (up_batch p ++ up_nonBatch p) s1 = Some (inr tt, s') /\ idle s' /\ nexthop (rb_table s') Cases.a 1 = fib_apply_all (up_batch p ++ up_nonBatch p) ∅ !! (Cases.a, 1%N).
Proof.
  destruct (update_completes (Cases.reg Cases.a 1 0 5 1) (Some 3%N) Rib_empty ∅) as (p & s1 & H1 & _ & _ & H2); [by split|exact follows_empty|reflexivity|].
  destruct (H2 (up_batch p) (up_nonBatch p) (Permutation_refl _) (Permutation_refl _)) as (_ & s' & out & H3 & _ & H4 & _ & _ & H5).
  exists p, s1, s'. split; [exact H1|]. split; [exact H3|]. split; [exact H4|]. by rewrite H5.
Defined.
