(* ===== verification/Readvertise.v ===== *)
(** * Readvertising of routes (rib/readvertise)

    Routes of the RIB that lie under an identity of the key chain are advertised, as prefixes,
    to another RIB by commands, which are refreshed and retried on timers. A readvertised route
    is an object at an address; the routes of the RIB, the commands under way and the timers
    refer to it. Using an address without an object, and a failed assertion, are [None]. *)

From S2P Require Import Prelude Tlv Name Packet ObjectMonad.

Local Open Scope N_scope.

(** ** The policy (host-to-gateway-readvertise-policy.cpp) *)

Definition IGNORE_COMPONENT : Component := ascii_component "nrd".
Definition DEFAULT_REFRESH_INTERVAL : Z := 25000.
Definition LOCALHOP_TOP_PREFIX : Name := [ascii_component "localhop"; ascii_component "nfd"].

(** [ReadvertiseAction]; the signer is by the identity. *)
Record ReadvertiseAction := mkAction { act_prefix : Name; act_signer : Name }.

(** The name of an identity without a last component "nrd". *)
Definition identity_prefix (identity : Name) : Name :=
  match last identity with
  | Some c => if bool_decide (c = IGNORE_COMPONENT) then getPrefix identity (-1) else identity
  | None => identity
  end.
Fixpoint scan_identities (identities : list Name) (prefixToAdvertise : Name) (signingIdentity : option Name) : option ReadvertiseAction :=
  match identities with
  | [] => (mkAction prefixToAdvertise) <$> signingIdentity
  | identity :: rest =>
      if isPrefixOf (identity_prefix identity) prefixToAdvertise then scan_identities rest (identity_prefix identity) (Some identity)
      else scan_identities rest prefixToAdvertise signingIdentity
  end.
Definition handleNewRoute (identities : list Name) (ribEntryName : Name) : option ReadvertiseAction :=
  if isPrefixOf LOCALHOST ribEntryName || Name_equals ribEntryName LOCALHOP_TOP_PREFIX then None
  else scan_identities identities ribEntryName None.

(** ** The state (readvertise.hpp, readvertised-route.hpp) *)

Inductive RrAction := RrAdvertise | RrWithdraw.
#[global] Instance RrAction_eq_dec : EqDecision RrAction.
Proof. solve_decision. Defined.

Record ReadvertisedRoute := mkRr {
  rr_prefix : Name;
  rr_signer : option Name;
  rr_nRibRoutes : N;
  rr_retryDelay : Z;                         (* milliseconds *)
  rr_retryEvt : option (Z * RrAction);       (* when, and what it does *)
}.
Definition ReadvertisedRoute_new (prefix : Name) : ReadvertisedRoute := mkRr prefix None 0 0 None.
Definition rr_with_signer i rr := mkRr (rr_prefix rr) i (rr_nRibRoutes rr) (rr_retryDelay rr) (rr_retryEvt rr).
Definition rr_with_n n rr := mkRr (rr_prefix rr) (rr_signer rr) n (rr_retryDelay rr) (rr_retryEvt rr).
Definition rr_with_delay d rr := mkRr (rr_prefix rr) (rr_signer rr) (rr_nRibRoutes rr) d (rr_retryEvt rr).
Definition rr_with_evt e rr := mkRr (rr_prefix rr) (rr_signer rr) (rr_nRibRoutes rr) (rr_retryDelay rr) e.

(** What identifies a [RibRouteRef]: name, face, origin. *)
Definition RouteKey : Type := Name * N * N.
(** A command under way: its callbacks hold the iterator. *)
Definition RrCommand : Type := RrAction * N.

Record Readvertise := mkReadvertise {
  ra_rrs : gmap N ReadvertisedRoute;         (* m_rrs, by address *)
  ra_next : N;                               (* the next address *)
  ra_routeToRr : gmap RouteKey N;
  ra_isAvailable : bool;                     (* of the destination *)
  ra_commands : list RrCommand;              (* sent, without a reply *)
  ra_sent : list (RrAction * Name * option Name);   (* the commands, as sent *)
}.
Definition Readvertise_new : Readvertise := mkReadvertise ∅ 0 ∅ false [] [].
Definition ra_with_rrs m s := mkReadvertise m (ra_next s) (ra_routeToRr s) (ra_isAvailable s) (ra_commands s) (ra_sent s).
Definition ra_with_routes m s := mkReadvertise (ra_rrs s) (ra_next s) m (ra_isAvailable s) (ra_commands s) (ra_sent s).
Definition ra_with_available b s := mkReadvertise (ra_rrs s) (ra_next s) (ra_routeToRr s) b (ra_commands s) (ra_sent s).
Definition ra_with_commands l s := mkReadvertise (ra_rrs s) (ra_next s) (ra_routeToRr s) (ra_isAvailable s) l (ra_sent s).
Definition ra_send a id rr s :=
  mkReadvertise (ra_rrs s) (ra_next s) (ra_routeToRr s) (ra_isAvailable s) (ra_commands s ++ [(a, id)]) (ra_sent s ++ [(a, rr_prefix rr, rr_signer rr)]).

Abbreviation RM := (OM Readvertise) (only parsing).
(** Following an iterator. *)
Definition the_rr (id : N) : RM ReadvertisedRoute := fun s => match ra_rrs s !! id with None => None | Some rr => Some (inr rr, s) end.
Definition update_rr (id : N) (f : ReadvertisedRoute -> ReadvertisedRoute) : RM unit :=
  the_rr id;; modify (fun s => ra_with_rrs (alter f id (ra_rrs s)) s).
Definition erase_rr (id : N) : RM unit := the_rr id;; modify (fun s => ra_with_rrs (delete id (ra_rrs s)) s).

(** [m_rrs.emplace(prefix)]: the readvertised route, new or not. *)
Definition find_rr (prefix : Name) (m : gmap N ReadvertisedRoute) : option N :=
  fst <$> head (filter (fun kv : N * ReadvertisedRoute => rr_prefix kv.2 = prefix) (map_to_list m)).
Definition emplace_rr (prefix : Name) : RM N := fun s =>
  match find_rr prefix (ra_rrs s) with
  | Some id => Some (inr id, s)
  | None => Some (inr (ra_next s), mkReadvertise (<[ra_next s := ReadvertisedRoute_new prefix]> (ra_rrs s)) (ra_next s + 1) (ra_routeToRr s) (ra_isAvailable s) (ra_commands s) (ra_sent s))
  end.
(** The addresses in the order of the set, which is that of the prefixes. *)
Definition rr_before (x y : N * ReadvertisedRoute) : Prop := Name_cmp (rr_prefix x.2) (rr_prefix y.2) <> Gt.
#[global] Instance rr_before_dec x y : Decision (rr_before x y).
Proof. unfold rr_before. destruct (Name_cmp _ _); (left; discriminate) || (right; congruence). Defined.
Definition rr_order (m : gmap N ReadvertisedRoute) : list N := fst <$> merge_sort rr_before (map_to_list m).

(** ** The operations (readvertise.cpp) *)

Definition RETRY_DELAY_MIN : Z := 50000.
Definition RETRY_DELAY_MAX : Z := 3600000.
(** With the number that the generator gave. *)
Definition randomizeTimer (baseTimer random : Z) : Z := Z.max (baseTimer + random) 0.

Definition advertise (id : N) : RM unit :=
  rr ← the_rr id;
  assert (0 <? rr_nRibRoutes rr);;
  s ← get;
  if negb (ra_isAvailable s) then mret tt else modify (ra_send RrAdvertise id rr).
Definition withdraw (id : N) : RM unit :=
  rr ← the_rr id;
  assert (rr_nRibRoutes rr =? 0);;
  s ← get;
  if negb (ra_isAvailable s) then erase_rr id else modify (ra_send RrWithdraw id rr).

(** The callbacks of the two commands; [refresh] is the interval of the policy. *)
Definition advertise_success (refresh now random : Z) (id : N) : RM unit :=
  update_rr id (fun rr => rr_with_evt (Some (now + randomizeTimer refresh random, RrAdvertise)%Z) (rr_with_delay RETRY_DELAY_MIN rr)).
Definition command_failure (a : RrAction) (now random : Z) (id : N) : RM unit :=
  update_rr id (fun rr => let d := Z.min RETRY_DELAY_MAX (rr_retryDelay rr * 2) in
                          rr_with_evt (Some (now + randomizeTimer d random, a)%Z) (rr_with_delay d rr)).
Definition withdraw_success (id : N) : RM unit := erase_rr id.

Definition afterAddRoute (identities : list Name) (ribRoute : RouteKey) : RM unit :=
  match handleNewRoute identities ribRoute.1.1 with
  | None => mret tt
  | Some action =>
      id ← emplace_rr (act_prefix action);
      update_rr id (rr_with_signer (Some (act_signer action)));;
      s ← get;
      assert (bool_decide (ra_routeToRr s !! ribRoute = None));;
      modify (fun s => ra_with_routes (<[ribRoute := id]> (ra_routeToRr s)) s);;
      rr ← the_rr id;
      update_rr id (fun rr => rr_with_n ((rr_nRibRoutes rr + 1) mod 2 ^ 64) rr);;
      if 0 <? rr_nRibRoutes rr then mret tt
      else update_rr id (rr_with_delay RETRY_DELAY_MIN);; advertise id
  end.
Definition beforeRemoveRoute (ribRoute : RouteKey) : RM unit :=
  s ← get;
  match ra_routeToRr s !! ribRoute with
  | None => mret tt
  | Some id =>
      modify (fun s => ra_with_routes (delete ribRoute (ra_routeToRr s)) s);;
      update_rr id (fun rr => rr_with_n ((rr_nRibRoutes rr + (2 ^ 64 - 1)) mod 2 ^ 64) rr);;
      rr ← the_rr id;
      if 0 <? rr_nRibRoutes rr then mret tt
      else update_rr id (rr_with_delay RETRY_DELAY_MIN);; withdraw id
  end.

Fixpoint advertise_all (ids : list N) : RM unit :=
  match ids with [] => mret tt | id :: ids => update_rr id (rr_with_delay RETRY_DELAY_MIN);; advertise id;; advertise_all ids end.
Definition afterDestinationAvailable : RM unit := s ← get; advertise_all (rr_order (ra_rrs s)).
Definition afterDestinationUnavailable : RM unit :=
  modify (fun s => ra_with_rrs (rr_with_evt None <$> filter (fun kv : N * ReadvertisedRoute => 0 < rr_nRibRoutes kv.2) (ra_rrs s)) s).

(** ** The destination (readvertise-destination.cpp, nfd-rib-readvertise-destination.cpp) *)

Definition setAvailability (isAvailable : bool) : RM unit :=
  s ← get;
  if bool_decide (ra_isAvailable s = isAvailable) then mret tt
  else modify (ra_with_available isAvailable);;
       (if isAvailable then afterDestinationAvailable else afterDestinationUnavailable).
Definition handleRibInsert (commandPrefix name : Name) : RM unit := if isPrefixOf name commandPrefix then setAvailability true else mret tt.
Definition handleRibErase (commandPrefix name : Name) : RM unit := if isPrefixOf name commandPrefix then setAvailability false else mret tt.

(** ** Everything that happens to it *)

Inductive RaEvent :=
| RaAddRoute (identities : list Name) (ribRoute : RouteKey)
| RaRemoveRoute (ribRoute : RouteKey)
| RaInsertEntry (name : Name)
| RaEraseEntry (name : Name)
| RaReply (now random : Z) (c : RrCommand) (success : bool)
| RaTimer (now : Z) (id : N).

(** A command that has its reply. *)
Fixpoint remove_first (c : RrCommand) (l : list RrCommand) : list RrCommand :=
  match l with [] => [] | x :: l => if decide (x = c) then l else x :: remove_first c l end.

Section events.
Context (refresh : Z) (commandPrefix : Name).

Definition ra_step (ev : RaEvent) : RM unit :=
  match ev with
  | RaAddRoute identities r => afterAddRoute identities r
  | RaRemoveRoute r => beforeRemoveRoute r
  | RaInsertEntry name => handleRibInsert commandPrefix name
  | RaEraseEntry name => handleRibErase commandPrefix name
  | RaReply now random (a, id) success =>
      modify (fun s => ra_with_commands (remove_first (a, id) (ra_commands s)) s);;
      (if success then match a with RrAdvertise => advertise_success refresh now random id | RrWithdraw => withdraw_success id end
       else command_failure a now random id)
  | RaTimer now id =>
      rr ← the_rr id;
      update_rr id (rr_with_evt None);;
      match rr_retryEvt rr with Some (_, RrAdvertise) => advertise id | Some (_, RrWithdraw) => withdraw id | None => mret tt end
  end.
End events.
