(* ===== verification/ReadvertiseInv.v ===== *)
(** * Readvertising keeps its books

    The invariant of rib/readvertise, kept by every event that comes in time, that is, by
    replies and timers that still fit what is wanted of their route; and what happens when they
    do not. *)

From S2P Require Import Prelude Tlv Name Packet ObjectMonad Readvertise.

Local Open Scope N_scope.

(** ** The policy *)

(** The action is for the shortest identity, without its "nrd", above the route. *)
Definition chosen (identities : list Name) (name : Name) (a : ReadvertiseAction) : Prop :=
  act_signer a ∈ identities /\ act_prefix a = identity_prefix (act_signer a) /\ act_prefix a `prefix_of` name /\
  forall i, i ∈ identities -> identity_prefix i `prefix_of` name -> (length (act_prefix a) <= length (identity_prefix i))%nat.

Lemma scan_spec rest : forall (seen : list Name) (name cur : Name) (who : option Name),
  cur `prefix_of` name ->
  match who with
  | Some i => chosen seen name (mkAction cur i)
  | None => cur = name /\ forall i, i ∈ seen -> ~ identity_prefix i `prefix_of` name
  end ->
  match scan_identities rest cur who with
  | Some a => chosen (seen ++ rest) name a
  | None => forall i, i ∈ seen ++ rest -> ~ identity_prefix i `prefix_of` name
  end.
Proof.
  induction rest as [|i rest IH]; intros seen name cur who Hcur Hwho; cbn [scan_identities].
  - rewrite app_nil_r. destruct who as [j|]; cbn; [done|by destruct Hwho].
  - replace (seen ++ i :: rest) with ((seen ++ [i]) ++ rest) by (by rewrite <- app_assoc). destruct (isPrefixOf (identity_prefix i) cur) eqn:E.
    + apply isPrefixOf_spec in E. apply IH; [by etrans|]. split_and!; [set_solver|done|by etrans|].
      intros j [Hj| ->%list_elem_of_singleton]%elem_of_app Hp; cbn [act_prefix]; [|done]. pose proof (prefix_length _ _ E) as Hl.
      destruct who as [k|]; [destruct Hwho as (_ & _ & _ & Hmin); specialize (Hmin j Hj Hp); cbn in Hmin; lia|]. by destruct Hwho as [_ H]; destruct (H j Hj).
    + apply IH; [done|]. assert (~ identity_prefix i `prefix_of` cur) as Hn by (intros H; apply isPrefixOf_spec in H; congruence).
      destruct who as [k|].
      * destruct Hwho as (H1 & H2 & H3 & Hmin). split_and!; [set_solver|done|done|]. intros j [Hj| ->%list_elem_of_singleton]%elem_of_app Hp; [by apply Hmin|].
        cbn [act_prefix]. destruct (prefix_weak_total (identity_prefix i) cur name Hp Hcur) as [H|H]; [done|by apply prefix_length].
      * destruct Hwho as [-> H]. split; [done|]. intros j [Hj| ->%list_elem_of_singleton]%elem_of_app; [by apply H|done].
Qed.
Lemma handleNewRoute_spec identities name :
  match handleNewRoute identities name with
  | Some a => chosen identities name a
  | None => LOCALHOST `prefix_of` name \/ name = LOCALHOP_TOP_PREFIX \/ forall i, i ∈ identities -> ~ identity_prefix i `prefix_of` name
  end.
Proof.
  unfold handleNewRoute. destruct (isPrefixOf LOCALHOST name) eqn:E1; [left; by apply isPrefixOf_spec|]. cbn [orb].
  destruct (Name_equals name LOCALHOP_TOP_PREFIX) eqn:E2; [right; left; by apply Name_equals_spec|].
  pose proof (scan_spec identities [] name name None ltac:(done) ltac:(split; [done|by intros i ?%not_elem_of_nil])) as H. cbn [app] in H.
  destruct (scan_identities identities name None); auto.
Qed.

(** ** The invariant *)

(** How many routes refer to an object. *)
Definition routes_of (id : N) (m : gmap RouteKey N) : N := N.of_nat (size (filter (fun kv : RouteKey * N => kv.2 = id) m)).
Lemma routes_of_insert id id' r m : m !! r = None -> routes_of id (<[r := id']> m) = routes_of id m + (if decide (id' = id) then 1 else 0).
Proof.
  intros Hr. unfold routes_of. destruct (decide (id' = id)) as [->|Hne].
  - rewrite map_filter_insert_True by done. rewrite map_size_insert_None; [lia|]. apply map_lookup_filter_None. by left.
  - rewrite map_filter_insert_False by done. rewrite delete_id by done. lia.
Qed.
Lemma routes_of_delete id id' r m : m !! r = Some id' -> routes_of id m = routes_of id (delete r m) + (if decide (id' = id) then 1 else 0).
Proof. intros Hr. rewrite <- (insert_delete_id m r id' Hr) at 1. by rewrite routes_of_insert by apply lookup_delete_eq. Qed.
Lemma routes_of_pos r id m : m !! r = Some id -> 0 < routes_of id m.
Proof. intros Hr. rewrite (routes_of_delete id id r m Hr), decide_True by done. lia. Qed.
Lemma routes_of_bound id m : routes_of id m <= N.of_nat (size m).
Proof. unfold routes_of. pose proof (map_size_filter (fun kv : RouteKey * N => kv.2 = id) m). lia. Qed.

(** What is to be done about a readvertised route. *)
Definition wanted (rr : ReadvertisedRoute) : RrAction := if rr_nRibRoutes rr =? 0 then RrWithdraw else RrAdvertise.
(** It is on the way: a command, or a timer. *)
Definition busy (commands : list RrCommand) (id : N) (rr : ReadvertisedRoute) : Prop :=
  (wanted rr, id) ∈ commands \/ exists t, rr_retryEvt rr = Some (t, wanted rr).

Record ra_ok (s : Readvertise) : Prop := {
  ao_address : forall id, is_Some (ra_rrs s !! id) -> id < ra_next s;
  ao_prefix : forall id id' rr rr', ra_rrs s !! id = Some rr -> ra_rrs s !! id' = Some rr' -> rr_prefix rr = rr_prefix rr' -> id = id';
  ao_routes : forall r id, ra_routeToRr s !! r = Some id -> is_Some (ra_rrs s !! id);
  ao_count : forall id rr, ra_rrs s !! id = Some rr -> rr_nRibRoutes rr = routes_of id (ra_routeToRr s);
  ao_delay : forall id rr, ra_rrs s !! id = Some rr -> (RETRY_DELAY_MIN <= rr_retryDelay rr <= RETRY_DELAY_MAX)%Z;
  ao_gone : ra_isAvailable s = false -> forall id rr, ra_rrs s !! id = Some rr -> 0 < rr_nRibRoutes rr;
  ao_busy : ra_isAvailable s = true -> forall id rr, ra_rrs s !! id = Some rr -> busy (ra_commands s) id rr;
}.
Lemma Readvertise_new_ok : ra_ok Readvertise_new.
Proof. split; cbn; try done; intros ?; intros; try (rewrite lookup_empty in *; done || by destruct H). Qed.

Lemma find_rr_spec p m :
  match find_rr p m with
  | Some id => exists rr, m !! id = Some rr /\ rr_prefix rr = p
  | None => forall id rr, m !! id = Some rr -> rr_prefix rr <> p
  end.
Proof.
  unfold find_rr. destruct (filter _ (map_to_list m)) as [|[id rr] l] eqn:E; cbn.
  - intros id rr Hid Hp. assert ((id, rr) ∈ filter (fun kv : N * ReadvertisedRoute => rr_prefix kv.2 = p) (map_to_list m)) as Hin.
    { apply list_elem_of_filter. split; [done|by apply elem_of_map_to_list]. } rewrite E in Hin. by apply not_elem_of_nil in Hin.
  - assert ((id, rr) ∈ filter (fun kv : N * ReadvertisedRoute => rr_prefix kv.2 = p) (map_to_list m)) as Hin by (rewrite E; by left).
    apply list_elem_of_filter in Hin as [Hp Hin%elem_of_map_to_list]. by exists rr.
Qed.
Lemma rr_order_elem m id : id ∈ rr_order m <-> is_Some (m !! id).
Proof.
  unfold rr_order. rewrite list_elem_of_fmap. setoid_rewrite merge_sort_Permutation. split.
  - intros ([k rr] & -> & H%elem_of_map_to_list). by exists rr.
  - intros [rr H]. exists (id, rr). by rewrite elem_of_map_to_list.
Qed.
Lemma rr_order_NoDup m : NoDup (rr_order m).
Proof. unfold rr_order. rewrite merge_sort_Permutation. apply NoDup_fst_map_to_list. Qed.

(** ** Changing one object *)

Lemma the_rr_run id rr s : ra_rrs s !! id = Some rr -> the_rr id s = Some (inr rr, s).
Proof. intros H. unfold the_rr. by rewrite H. Qed.
Lemma update_rr_run id rr f s : ra_rrs s !! id = Some rr -> update_rr id f s = Some (inr tt, ra_with_rrs (<[id := f rr]> (ra_rrs s)) s).
Proof. intros H. unfold update_rr. erewrite bind_run by by apply the_rr_run. unfold modify. by rewrite (alter_is_insert f id rr). Qed.
Lemma advertise_run id rr s : ra_rrs s !! id = Some rr -> 0 < rr_nRibRoutes rr ->
  advertise id s = Some (inr tt, if ra_isAvailable s then ra_send RrAdvertise id rr s else s).
Proof.
  intros H Hn. unfold advertise. erewrite bind_run by by apply the_rr_run. rewrite (proj2 (N.ltb_lt _ _)) by done. erewrite bind_run by reflexivity.
  rewrite bind_get. by destruct (ra_isAvailable s).
Qed.
Lemma withdraw_run id rr s : ra_rrs s !! id = Some rr -> rr_nRibRoutes rr = 0 ->
  withdraw id s = Some (inr tt, if ra_isAvailable s then ra_send RrWithdraw id rr s else ra_with_rrs (delete id (ra_rrs s)) s).
Proof.
  intros H Hn. unfold withdraw. erewrite bind_run by by apply the_rr_run. rewrite Hn. erewrite bind_run by reflexivity.
  rewrite bind_get. destruct (ra_isAvailable s); [done|]. cbn [negb]. unfold erase_rr. by erewrite bind_run by by apply the_rr_run.
Qed.

(** The object at [id] becomes [rr']; the routes to the others stay, commands about them too. *)
Record put_ok (s : Readvertise) (id : N) (rr' : ReadvertisedRoute) (s' : Readvertise) : Prop := {
  pu_rrs : ra_rrs s' = <[id := rr']> (ra_rrs s);
  pu_next : id < ra_next s' /\ ra_next s <= ra_next s';
  pu_prefix : match ra_rrs s !! id with
              | Some rr => rr_prefix rr' = rr_prefix rr
              | None => forall id' rr, ra_rrs s !! id' = Some rr -> rr_prefix rr <> rr_prefix rr'
              end;
  pu_routes : forall r id', ra_routeToRr s' !! r = Some id' -> id' = id \/ ra_routeToRr s !! r = Some id';
  pu_others : forall id', id' <> id -> routes_of id' (ra_routeToRr s') = routes_of id' (ra_routeToRr s);
  pu_count : rr_nRibRoutes rr' = routes_of id (ra_routeToRr s');
  pu_delay : (RETRY_DELAY_MIN <= rr_retryDelay rr' <= RETRY_DELAY_MAX)%Z;
  pu_available : ra_isAvailable s' = ra_isAvailable s;
  pu_gone : ra_isAvailable s = false -> 0 < rr_nRibRoutes rr';
  pu_commands : forall a id', id' <> id -> (a, id') ∈ ra_commands s -> (a, id') ∈ ra_commands s';
  pu_busy : ra_isAvailable s = true -> busy (ra_commands s') id rr';
}.
Lemma put_keeps s id rr' s' : ra_ok s -> put_ok s id rr' s' -> ra_ok s'.
Proof.
  intros [A B C D E F G] [P1 [P2 P3] P4 P5 P6 P7 P8 P9 P10 P11 P12]. rewrite <- P9 in *.
  assert (forall x rrx, ra_rrs s' !! x = Some rrx -> (x = id /\ rrx = rr') \/ (x <> id /\ ra_rrs s !! x = Some rrx)) as Hl.
  { intros x rrx. rewrite P1. intros [[<- <-]|[? ?]]%lookup_insert_Some; [by left|right; done]. }
  split.
  - intros x [rrx [[-> _]|[_ Hx]]%Hl]; [done|]. specialize (A x ltac:(by eexists)). lia.
  - intros x y rrx rry Hx Hy Hp. destruct (Hl x rrx Hx) as [[-> ->]|[Nx Hx']], (Hl y rry Hy) as [[-> ->]|[Ny Hy']]; [done| | |by eapply B].
    + destruct (ra_rrs s !! id) as [rr|] eqn:Eid; [|by destruct (P4 y rry Hy')]. rewrite P4 in Hp. by apply (B id y rr rry).
    + destruct (ra_rrs s !! id) as [rr|] eqn:Eid; [|by destruct (P4 x rrx Hx')]. rewrite P4 in Hp. by apply (B x id rrx rr).
  - intros r x Hr. rewrite P1. destruct (decide (x = id)) as [->|Hne]; [by rewrite lookup_insert_eq|]. rewrite lookup_insert_ne by done.
    destruct (P5 r x Hr) as [->|]; [done|by eapply C].
  - intros x rrx [[-> ->]|[Hne Hx]]%Hl; [done|]. rewrite P6 by done. by apply D.
  - intros x rrx [[-> ->]|[Hne Hx]]%Hl; [done|by eapply E].
  - intros Ha x rrx [[-> ->]|[Hne Hx]]%Hl; [by apply P10|by eapply F].
  - intros Ha x rrx [[-> ->]|[Hne Hx]]%Hl; [by apply P12|]. destruct (G Ha x rrx Hx) as [Hc|Ht]; [left; by apply P11|by right].
Qed.
(** An object without routes goes. *)
Lemma delete_keeps s id rr s' :
  ra_ok s -> ra_rrs s !! id = Some rr -> routes_of id (ra_routeToRr s') = 0 ->
  ra_rrs s' = delete id (ra_rrs s) -> ra_next s' = ra_next s -> ra_isAvailable s' = ra_isAvailable s ->
  (forall r id', ra_routeToRr s' !! r = Some id' -> ra_routeToRr s !! r = Some id') ->
  (forall id', id' <> id -> routes_of id' (ra_routeToRr s') = routes_of id' (ra_routeToRr s)) ->
  (forall a id', id' <> id -> (a, id') ∈ ra_commands s -> (a, id') ∈ ra_commands s') -> ra_ok s'.
Proof.
  intros [A B C D E F G] Hid Hz P1 P2 P3 P4 P5 P6. rewrite <- P3 in *.
  assert (forall x rrx, ra_rrs s' !! x = Some rrx -> x <> id /\ ra_rrs s !! x = Some rrx) as Hl.
  { intros x rrx. rewrite P1. intros [? ?]%lookup_delete_Some. done. }
  split.
  - intros x [rrx [_ Hx]%Hl]. rewrite P2. apply A. by eexists.
  - intros x y rrx rry [_ Hx]%Hl [_ Hy]%Hl. by apply (B x y).
  - intros r x Hr. rewrite P1. destruct (decide (x = id)) as [->|Hne]; [pose proof (routes_of_pos r id _ Hr); lia|].
    rewrite lookup_delete_ne by done. by eapply C, P4.
  - intros x rrx [Hne Hx]%Hl. rewrite P5 by done. by apply D.
  - intros x rrx [_ Hx]%Hl. by eapply E.
  - intros Ha x rrx [_ Hx]%Hl. by eapply F.
  - intros Ha x rrx [Hne Hx]%Hl. destruct (G Ha x rrx Hx) as [Hc|Ht]; [left; by apply P6|by right].
Qed.

Lemma remove_first_ne c x l : x <> c -> x ∈ l -> x ∈ remove_first c l.
Proof.
  intros Hne. induction l as [|y l IH]; [done|]. cbn [remove_first]. case_decide; subst; intros [->|Hx]%elem_of_cons; try done.
  - by left.
  - right. auto.
Qed.

(** ** Routes come and go *)

Lemma emplace_rr_run p s : ra_ok s ->
  exists id s1 rr0, emplace_rr p s = Some (inr id, s1) /\ ra_rrs s1 = <[id := rr0]> (ra_rrs s) /\ rr_prefix rr0 = p /\
    id < ra_next s1 /\ ra_next s <= ra_next s1 /\ ra_routeToRr s1 = ra_routeToRr s /\ ra_isAvailable s1 = ra_isAvailable s /\ ra_commands s1 = ra_commands s /\
    rr_nRibRoutes rr0 = routes_of id (ra_routeToRr s) /\
    (ra_rrs s !! id = Some rr0 \/
     (rr0 = ReadvertisedRoute_new p /\ ra_rrs s !! id = None /\ forall id' rr, ra_rrs s !! id' = Some rr -> rr_prefix rr <> p)).
Proof.
  intros Hs. unfold emplace_rr. pose proof (find_rr_spec p (ra_rrs s)) as Hf. destruct (find_rr p (ra_rrs s)) as [id|].
  - destruct Hf as (rr & Hrr & Hp). exists id, s, rr. split_and!; try done; [by rewrite insert_id|apply (ao_address s Hs); by eexists|by apply (ao_count s Hs)|by left].
  - assert (ra_rrs s !! ra_next s = None) as Hnone.
    { destruct (ra_rrs s !! ra_next s) as [rr|] eqn:E; [|done]. pose proof (ao_address s Hs (ra_next s) ltac:(by eexists)). lia. }
    eexists _, _, (ReadvertisedRoute_new p). split_and!; try reflexivity; [cbn; lia|cbn; lia| |right; done].
    cbn. symmetry. destruct (N.eq_0_gt_0_cases (routes_of (ra_next s) (ra_routeToRr s))) as [|Hpos]; [done|exfalso].
    unfold routes_of in Hpos. assert (filter (fun kv : RouteKey * N => kv.2 = ra_next s) (ra_routeToRr s) <> ∅) as (r & x & Hx)%map_choose.
    { intros E. rewrite E, map_size_empty in Hpos. lia. }
    apply map_lookup_filter_Some in Hx as [Hx E]. cbn in E. subst x. destruct (ao_routes s Hs r _ Hx) as [rr Hrr]. congruence.
Qed.

Lemma afterAddRoute_keeps identities r s : ra_ok s -> ra_routeToRr s !! r = None -> N.of_nat (size (ra_routeToRr s)) < 2 ^ 64 - 1 ->
  exists s', afterAddRoute identities r s = Some (inr tt, s') /\ ra_ok s'.
Proof.
  intros Hs Hr Hsize. unfold afterAddRoute. destruct (handleNewRoute identities r.1.1) as [action|]; [|by exists s].
  destruct (emplace_rr_run (act_prefix action) s Hs) as (id & s1 & rr0 & E & E1 & Hp & Hid & Hnext & Er & Ea & Ec & Hn & Hold).
  erewrite bind_run by exact E. pose proof (routes_of_bound id (ra_routeToRr s)) as Hb.
  assert (ra_rrs s1 !! id = Some rr0) as H1 by (rewrite E1; apply lookup_insert_eq). erewrite bind_run by by apply update_rr_run.
  rewrite bind_get. cbn [ra_with_rrs ra_routeToRr]. rewrite Er, Hr, bool_decide_true by done. do 2 (erewrite bind_run by reflexivity).
  set (rr1 := rr_with_signer (Some (act_signer action)) rr0). erewrite bind_run by (apply the_rr_run; cbn; apply lookup_insert_eq).
  erewrite bind_run by (apply update_rr_run; cbn; apply lookup_insert_eq). cbn [ra_with_rrs ra_with_routes ra_rrs ra_next ra_routeToRr ra_isAvailable ra_commands ra_sent].
  rewrite insert_insert_eq. set (rr2 := rr_with_n ((rr_nRibRoutes rr1 + 1) mod 2 ^ 64) rr1).
  assert (rr_nRibRoutes rr2 = routes_of id (<[r := id]> (ra_routeToRr s))) as Hn2.
  { cbn. rewrite routes_of_insert, decide_True by done. rewrite Hn. apply N.mod_small. lia. }
  assert (match ra_rrs s !! id with Some rr => rr_prefix rr2 = rr_prefix rr | None => forall id' rr, ra_rrs s !! id' = Some rr -> rr_prefix rr <> rr_prefix rr2 end) as Hpre.
  { cbn. destruct Hold as [->|(-> & -> & Hf)]; done. }
  assert (forall x id', <[r := id]> (ra_routeToRr s) !! x = Some id' -> id' = id \/ ra_routeToRr s !! x = Some id') as Hrt.
  { intros x id' [[_ <-]|[_ Hx]]%lookup_insert_Some; [by left|by right]. }
  assert (forall id', id' <> id -> routes_of id' (<[r := id]> (ra_routeToRr s)) = routes_of id' (ra_routeToRr s)) as Ho.
  { intros id' Hne. rewrite routes_of_insert by done. rewrite decide_False by done. lia. }
  destruct (0 <? rr_nRibRoutes rr1) eqn:Epos.
  - apply N.ltb_lt in Epos. destruct Hold as [Hold|(-> & _)]; [|done]. eexists. split; [reflexivity|]. apply (put_keeps s id rr2); [done|].
    split; cbn [ra_with_rrs ra_with_routes ra_rrs ra_next ra_routeToRr ra_isAvailable ra_commands ra_sent]; rewrite ?Er, ?Ea, ?Ec; try done.
    + by rewrite E1, insert_insert_eq.
    + by apply (ao_delay s Hs id rr0).
    + intros _. rewrite Hn2, routes_of_insert, decide_True by done. lia.
    + intros Hav. destruct (ao_busy s Hs Hav id rr0 Hold) as [H|H]; unfold busy.
      * left. unfold wanted in *. cbn in Epos. rewrite (proj2 (N.eqb_neq _ _)) in H by lia. rewrite (proj2 (N.eqb_neq _ _)); [done|]. rewrite Hn2, routes_of_insert, decide_True by done. lia.
      * right. unfold wanted in *. cbn in Epos. rewrite (proj2 (N.eqb_neq _ _)) in H by lia. rewrite (proj2 (N.eqb_neq _ _)); [done|]. rewrite Hn2, routes_of_insert, decide_True by done. lia.
  - erewrite bind_run by (apply update_rr_run; cbn; apply lookup_insert_eq). cbn [ra_with_rrs ra_with_routes ra_rrs ra_next ra_routeToRr ra_isAvailable ra_commands ra_sent].
    rewrite insert_insert_eq. set (rr3 := rr_with_delay RETRY_DELAY_MIN rr2).
    assert (0 < rr_nRibRoutes rr3) as Hpos by (change (0 < rr_nRibRoutes rr2); rewrite Hn2, routes_of_insert, decide_True by done; lia).
    eexists. split; [apply (advertise_run id rr3); [cbn; apply lookup_insert_eq|done]|]. cbn [ra_with_rrs ra_with_routes ra_isAvailable]. rewrite Ea.
    apply (put_keeps s id rr3); [done|]. destruct (ra_isAvailable s) eqn:Eav;
      (split; cbn [ra_send ra_with_rrs ra_with_routes ra_rrs ra_next ra_routeToRr ra_isAvailable ra_commands ra_sent]; rewrite ?Er, ?Ea, ?Ec; try done); try (by rewrite E1, insert_insert_eq).
    + intros a id' _ H. apply elem_of_app. by left.
    + intros _. left. unfold wanted. rewrite (proj2 (N.eqb_neq _ _)) by lia. apply elem_of_app. right. by left.
    + congruence.
Qed.

Lemma beforeRemoveRoute_keeps r s : ra_ok s -> N.of_nat (size (ra_routeToRr s)) < 2 ^ 64 ->
  exists s', beforeRemoveRoute r s = Some (inr tt, s') /\ ra_ok s'.
Proof.
  intros Hs Hsize. unfold beforeRemoveRoute. rewrite bind_get. destruct (ra_routeToRr s !! r) as [id|] eqn:Er; [|by exists s].
  destruct (ao_routes s Hs r id Er) as [rr Hrr]. pose proof (ao_count s Hs id rr Hrr) as Hn. pose proof (routes_of_pos r id _ Er) as Hpos.
  pose proof (routes_of_bound id (ra_routeToRr s)) as Hb. pose proof (routes_of_delete id id r _ Er) as Hd. rewrite decide_True in Hd by done.
  erewrite bind_run by reflexivity. erewrite bind_run by (apply update_rr_run; exact Hrr). cbn [ra_with_rrs ra_with_routes ra_rrs ra_next ra_routeToRr ra_isAvailable ra_commands ra_sent].
  set (rr1 := rr_with_n ((rr_nRibRoutes rr + (2 ^ 64 - 1)) mod 2 ^ 64) rr). erewrite bind_run by (apply the_rr_run; cbn; apply lookup_insert_eq).
  assert (rr_nRibRoutes rr1 = routes_of id (delete r (ra_routeToRr s))) as Hn1.
  { cbn [rr1 rr_with_n rr_nRibRoutes]. rewrite Hn. replace (routes_of id (ra_routeToRr s) + (2 ^ 64 - 1)) with (routes_of id (delete r (ra_routeToRr s)) + 1 * 2 ^ 64) by lia.
    rewrite N.Div0.mod_add. apply N.mod_small. lia. }
  assert (forall x id', delete r (ra_routeToRr s) !! x = Some id' -> ra_routeToRr s !! x = Some id') as Hrt by (intros x id' [_ Hx]%lookup_delete_Some; done).
  assert (forall id', id' <> id -> routes_of id' (delete r (ra_routeToRr s)) = routes_of id' (ra_routeToRr s)) as Ho.
  { intros id' Hne. rewrite (routes_of_delete id' id r _ Er), decide_False by done. lia. }
  destruct (0 <? rr_nRibRoutes rr1) eqn:Epos.
  - apply N.ltb_lt in Epos. eexists. split; [reflexivity|]. apply (put_keeps s id rr1); [done|].
    split; cbn [ra_with_rrs ra_with_routes ra_rrs ra_next ra_routeToRr ra_isAvailable ra_commands ra_sent]; try done.
    + split; [apply (ao_address s Hs); by eexists|done].
    + by rewrite Hrr.
    + intros x id' Hx. right. by apply Hrt.
    + by apply (ao_delay s Hs id rr).
    + intros Hav. destruct (ao_busy s Hs Hav id rr Hrr) as [H|H]; unfold busy, wanted in *; rewrite (proj2 (N.eqb_neq _ _)) in H by lia;
        rewrite (proj2 (N.eqb_neq (rr_nRibRoutes rr1) _)) by lia; [by left|by right].
  - apply N.ltb_ge in Epos. assert (rr_nRibRoutes rr1 = 0) as Hz by lia. erewrite bind_run by (apply update_rr_run; cbn; apply lookup_insert_eq).
    cbn [ra_with_rrs ra_with_routes ra_rrs ra_next ra_routeToRr ra_isAvailable ra_commands ra_sent]. rewrite insert_insert_eq. set (rr2 := rr_with_delay RETRY_DELAY_MIN rr1).
    eexists. split; [apply (withdraw_run id rr2); [cbn; apply lookup_insert_eq|exact Hz]|]. cbn [ra_with_rrs ra_with_routes ra_isAvailable].
    destruct (ra_isAvailable s) eqn:Eav.
    + apply (put_keeps s id rr2); [done|]. split; cbn [ra_send ra_with_rrs ra_with_routes ra_rrs ra_next ra_routeToRr ra_isAvailable ra_commands ra_sent]; try done.
      * split; [apply (ao_address s Hs); by eexists|done].
      * by rewrite Hrr.
      * intros x id' Hx. right. by apply Hrt.
      * congruence.
      * intros a id' _ H. apply elem_of_app. by left.
      * intros _. left. unfold wanted. change (rr_nRibRoutes rr2) with (rr_nRibRoutes rr1). rewrite Hz. apply elem_of_app. right. by left.
    + apply (delete_keeps s id rr); cbn [ra_with_rrs ra_with_routes ra_rrs ra_next ra_routeToRr ra_isAvailable ra_commands ra_sent]; try done.
      * by rewrite <- Hn1.
      * by rewrite delete_insert_eq.
Qed.

(** ** The destination comes and goes *)

Lemma advertise_all_run ids : forall s,
  ra_isAvailable s = true -> (forall id, id ∈ ids -> exists rr, ra_rrs s !! id = Some rr /\ 0 < rr_nRibRoutes rr) ->
  exists s', advertise_all ids s = Some (inr tt, s') /\ ra_next s' = ra_next s /\ ra_routeToRr s' = ra_routeToRr s /\ ra_isAvailable s' = true /\
    ra_commands s' = ra_commands s ++ ((RrAdvertise,.) <$> ids) /\
    forall id, ra_rrs s' !! id = if decide (id ∈ ids) then rr_with_delay RETRY_DELAY_MIN <$> ra_rrs s !! id else ra_rrs s !! id.
Proof.
  induction ids as [|id ids IH]; intros s Ha Hids; cbn [advertise_all].
  - exists s. split_and!; try done. by rewrite app_nil_r.
  - destruct (Hids id ltac:(by left)) as (rr & Hrr & Hn). erewrite bind_run by by apply update_rr_run.
    erewrite bind_run by (apply (advertise_run id (rr_with_delay RETRY_DELAY_MIN rr)); [cbn; apply lookup_insert_eq|done]).
    cbn [ra_with_rrs ra_isAvailable]. rewrite Ha. set (s1 := ra_send _ _ _ _).
    destruct (IH s1) as (s' & E & E1 & E2 & E3 & E4 & E5); [done| |].
    { intros x Hx. cbn. destruct (decide (x = id)) as [->|Hne]; [rewrite lookup_insert_eq; by eexists|]. rewrite lookup_insert_ne by done. apply Hids. by right. }
    exists s'. split_and!; [exact E|done|done|done| |].
    + rewrite E4. cbn. by rewrite <- app_assoc.
    + intros x. rewrite E5. cbn [s1 ra_send ra_with_rrs ra_rrs]. destruct (decide (x = id)) as [->|Hne].
      * rewrite (decide_True (P := id ∈ id :: ids)) by by left. rewrite lookup_insert_eq, Hrr. cbn. by destruct (decide (id ∈ ids)).
      * rewrite lookup_insert_ne by done. destruct (decide (x ∈ ids)); [rewrite decide_True by (by right)|rewrite decide_False by set_solver]; done.
Qed.

Lemma setAvailability_keeps b s : ra_ok s -> exists s', setAvailability b s = Some (inr tt, s') /\ ra_ok s'.
Proof.
  intros Hs. unfold setAvailability. rewrite bind_get. case_bool_decide as Hb; [by exists s|]. erewrite bind_run by reflexivity. destruct b.
  - assert (ra_isAvailable s = false) as Ha by (by destruct (ra_isAvailable s)). unfold afterDestinationAvailable. rewrite bind_get.
    destruct (advertise_all_run (rr_order (ra_rrs s)) (ra_with_available true s)) as (s' & E & E1 & E2 & E3 & E4 & E5); [done| |].
    { intros id [rr Hrr]%rr_order_elem. exists rr. split; [done|by apply (ao_gone s Hs Ha id)]. }
    exists s'. split; [exact E|]. cbn in E1, E2, E4, E5.
    assert (forall id, ra_rrs s' !! id = rr_with_delay RETRY_DELAY_MIN <$> ra_rrs s !! id) as Hl.
    { intros id. rewrite E5. case_decide as Hin; [done|]. rewrite rr_order_elem, <- eq_None_not_Some in Hin. by rewrite Hin. }
    destruct Hs as [A B C D F G H]. split.
    + intros id. rewrite Hl, fmap_is_Some, E1. apply A.
    + intros id id' rr rr'. rewrite !Hl. intros (x & Hx & ->)%fmap_Some_1 (y & Hy & ->)%fmap_Some_1. by apply (B id id' x y).
    + intros r id. rewrite E2, Hl, fmap_is_Some. apply C.
    + intros id rr. rewrite Hl, E2. intros (x & Hx & ->)%fmap_Some_1. by apply (D id x).
    + intros id rr. rewrite Hl. by intros (x & Hx & ->)%fmap_Some_1.
    + congruence.
    + intros _ id rr. rewrite Hl. intros (x & Hx & ->)%fmap_Some_1. left. rewrite E4. apply elem_of_app. right. unfold wanted.
      change (rr_nRibRoutes (rr_with_delay RETRY_DELAY_MIN x)) with (rr_nRibRoutes x). specialize (G Ha id x Hx). rewrite (proj2 (N.eqb_neq _ _)) by lia.
      apply list_elem_of_fmap. exists id. split; [done|]. apply rr_order_elem. by eexists.
  - unfold afterDestinationUnavailable. eexists. split; [reflexivity|]. destruct Hs as [A B C D F G H].
    assert (forall id rr, (rr_with_evt None <$> filter (fun kv : N * ReadvertisedRoute => 0 < rr_nRibRoutes kv.2) (ra_rrs s)) !! id = Some rr ->
      exists x, ra_rrs s !! id = Some x /\ 0 < rr_nRibRoutes x /\ rr = rr_with_evt None x) as Hl.
    { intros id rr. rewrite lookup_fmap. intros (x & [Hx Hn]%map_lookup_filter_Some & ->)%fmap_Some_1. by exists x. }
    split; cbn [ra_with_available ra_with_rrs ra_rrs ra_next ra_routeToRr ra_isAvailable ra_commands].
    + intros id [rr (x & Hx & _)%Hl]. apply A. by eexists.
    + intros id id' rr rr' (x & Hx & _ & ->)%Hl (y & Hy & _ & ->)%Hl. by apply (B id id' x y).
    + intros r id Hr. destruct (C r id Hr) as [x Hx]. rewrite lookup_fmap, fmap_is_Some. exists x. apply map_lookup_filter_Some. split; [done|].
      cbn. rewrite (D id x Hx). by eapply routes_of_pos.
    + intros id rr (x & Hx & _ & ->)%Hl. by apply (D id x).
    + intros id rr (x & Hx & _ & ->)%Hl. by apply (F id x).
    + by intros _ id rr (x & Hx & Hn & ->)%Hl.
    + done.
Qed.

(** ** Replies and timers *)

(** A change of an object that has the same prefix and routes. *)
Lemma modify_keeps s id rr rr' commands sent :
  ra_ok s -> ra_rrs s !! id = Some rr -> rr_prefix rr' = rr_prefix rr -> rr_nRibRoutes rr' = rr_nRibRoutes rr ->
  (RETRY_DELAY_MIN <= rr_retryDelay rr' <= RETRY_DELAY_MAX)%Z ->
  (forall a id', id' <> id -> (a, id') ∈ ra_commands s -> (a, id') ∈ commands) ->
  (ra_isAvailable s = true -> busy commands id rr') ->
  ra_ok (mkReadvertise (<[id := rr']> (ra_rrs s)) (ra_next s) (ra_routeToRr s) (ra_isAvailable s) commands sent).
Proof.
  intros Hs Hrr Hp Hn Hd Hc Hb. apply (put_keeps s id rr'); [done|]. split; cbn; try done.
  - split; [apply (ao_address s Hs); by eexists|done].
  - by rewrite Hrr.
  - by right.
  - rewrite Hn. by apply (ao_count s Hs).
  - intros Ha. rewrite Hn. by apply (ao_gone s Hs Ha id).
Qed.

Section events.
Context (refresh : Z) (commandPrefix : Name).
#[local] Notation step := (ra_step refresh commandPrefix).

(** What can happen: signals of new routes, replies to commands, timers that are due. *)
Definition ra_possible (ev : RaEvent) (s : Readvertise) : Prop :=
  match ev with
  | RaAddRoute _ r => ra_routeToRr s !! r = None /\ N.of_nat (size (ra_routeToRr s)) < 2 ^ 64 - 1
  | RaRemoveRoute r => N.of_nat (size (ra_routeToRr s)) < 2 ^ 64
  | RaReply _ random c _ => c ∈ ra_commands s /\ (-5 <= random <= 5)%Z
  | RaTimer now id => exists rr t a, ra_rrs s !! id = Some rr /\ rr_retryEvt rr = Some (t, a) /\ (t <= now)%Z
  | _ => True
  end.
(** It comes in time: its route is there and wants just that. *)
Definition in_time (ev : RaEvent) (s : Readvertise) : Prop :=
  match ev with
  | RaReply _ _ (a, id) _ => exists rr, ra_rrs s !! id = Some rr /\ wanted rr = a
  | RaTimer _ id => exists rr t, ra_rrs s !! id = Some rr /\ rr_retryEvt rr = Some (t, wanted rr)
  | _ => True
  end.

Lemma wanted_withdraw rr : wanted rr = RrWithdraw -> rr_nRibRoutes rr = 0.
Proof. unfold wanted. by destruct (N.eqb_spec (rr_nRibRoutes rr) 0). Qed.
Lemma wanted_advertise rr : wanted rr = RrAdvertise -> 0 < rr_nRibRoutes rr.
Proof. unfold wanted. destruct (N.eqb_spec (rr_nRibRoutes rr) 0); [done|]. intros _. lia. Qed.

Lemma reply_keeps now random a id success s : ra_ok s -> ra_possible (RaReply now random (a, id) success) s -> in_time (RaReply now random (a, id) success) s ->
  exists s', step (RaReply now random (a, id) success) s = Some (inr tt, s') /\ ra_ok s'.
Proof.
  intros Hs [Hc Hrand] (rr & Hrr & Hw). cbn [ra_step]. erewrite bind_run by reflexivity. set (cmds := remove_first (a, id) (ra_commands s)). set (s1 := ra_with_commands cmds s).
  assert (forall a' id', id' <> id -> (a', id') ∈ ra_commands s -> (a', id') ∈ cmds) as Hcmds by (intros a' id' Hne; apply remove_first_ne; congruence).
  pose proof (ao_delay s Hs id rr Hrr) as Hd. assert (ra_rrs s1 !! id = Some rr) as Hrr1 by done. assert (RETRY_DELAY_MIN <= RETRY_DELAY_MAX)%Z as Hmm by done. destruct success.
  - destruct a.
    + unfold advertise_success. rewrite (update_rr_run id rr) by done. eexists. split; [reflexivity|]. apply (modify_keeps s id rr); try done. intros _. right. eexists. cbn. by rewrite <- Hw.
    + unfold withdraw_success, erase_rr. erewrite bind_run by by apply the_rr_run. eexists. split; [reflexivity|]. apply (delete_keeps s id rr); try done.
      cbn. rewrite <- (ao_count s Hs id rr Hrr). by apply wanted_withdraw.
  - unfold command_failure. rewrite (update_rr_run id rr) by done. eexists. split; [reflexivity|]. apply (modify_keeps s id rr); try done.
    + cbn. unfold RETRY_DELAY_MIN, RETRY_DELAY_MAX in *. lia.
    + intros _. right. eexists. cbn. by rewrite <- Hw.
Qed.
Lemma timer_keeps now id s : ra_ok s -> in_time (RaTimer now id) s ->
  exists s', step (RaTimer now id) s = Some (inr tt, s') /\ ra_ok s'.
Proof.
  intros Hs (rr & t & Hrr & Ht). cbn [ra_step]. erewrite bind_run by by apply the_rr_run. erewrite bind_run by by apply update_rr_run. rewrite Ht.
  pose proof (ao_delay s Hs id rr Hrr) as Hd. set (rr1 := rr_with_evt None rr). set (s1 := ra_with_rrs (<[id := rr1]> (ra_rrs s)) s).
  assert (ra_rrs s1 !! id = Some rr1) as Hrr1 by apply lookup_insert_eq.
  assert (forall a' id', id' <> id -> (a', id') ∈ ra_commands s -> (a', id') ∈ ra_commands s ++ [(wanted rr, id)]) as Hcmds by (intros; apply elem_of_app; by left).
  destruct (wanted rr) eqn:Ew.
  - apply wanted_advertise in Ew as Hn. rewrite (advertise_run id rr1) by done. eexists. split; [reflexivity|]. change (ra_isAvailable s1) with (ra_isAvailable s). destruct (ra_isAvailable s) eqn:Ea.
    + apply (modify_keeps s id rr); try done. intros _. left. change (wanted rr1) with (wanted rr). rewrite Ew. apply elem_of_app. right. by left.
    + unfold s1, ra_with_rrs. apply (modify_keeps s id rr); try done. congruence.
  - apply wanted_withdraw in Ew as Hn. rewrite (withdraw_run id rr1) by done. eexists. split; [reflexivity|]. change (ra_isAvailable s1) with (ra_isAvailable s). destruct (ra_isAvailable s) eqn:Ea.
    + apply (modify_keeps s id rr); try done. intros _. left. change (wanted rr1) with (wanted rr). rewrite Ew. apply elem_of_app. right. by left.
    + pose proof (ao_gone s Hs Ea id rr Hrr). lia.
Qed.

Lemma ra_step_keeps ev s : ra_ok s -> ra_possible ev s -> in_time ev s -> exists s', step ev s = Some (inr tt, s') /\ ra_ok s'.
Proof.
  intros Hs Hp Ht. destruct ev as [identities r|r|name|name|now random [a id] success|now id]; cbn [ra_step].
  - destruct Hp. by apply afterAddRoute_keeps.
  - by apply beforeRemoveRoute_keeps.
  - unfold handleRibInsert. destruct (isPrefixOf _ _); [by apply setAvailability_keeps|by exists s].
  - unfold handleRibErase. destruct (isPrefixOf _ _); [by apply setAvailability_keeps|by exists s].
  - by apply reply_keeps.
  - by apply (timer_keeps now).
Qed.

Inductive ra_reached : Readvertise -> Prop :=
| ra_reached_new : ra_reached Readvertise_new
| ra_reached_step ev s r s' : ra_reached s -> ra_possible ev s -> in_time ev s -> step ev s = Some (r, s') -> ra_reached s'.
Lemma ra_reached_ok s : ra_reached s -> ra_ok s.
Proof.
  induction 1 as [|ev s r s' _ IH Hp Ht E]; [apply Readvertise_new_ok|]. destruct (ra_step_keeps ev s IH Hp Ht) as (s2 & E2 & Hs2).
  rewrite E in E2. by injection E2 as _ <-.
Qed.
End events.

(** C23: Readvertising keeps its books. As long as every reply and every timer comes while its
    route still wants it, whatever routes and whatever destination come and go: no assertion
    fails and no iterator dangles; there is one object per prefix, and it counts the routes
    that refer to it; without a destination only prefixes with routes are kept; with one, every
    object has a command under way or a timer set for what it wants, advertising when it has
    routes and withdrawing when it has none; and the delays of retries stay between 50 seconds
    and one hour. *)
Theorem readvertise_invariant refresh commandPrefix s :
  ra_reached refresh commandPrefix s ->
  (forall id rr, ra_rrs s !! id = Some rr ->
     rr_nRibRoutes rr = routes_of id (ra_routeToRr s) /\ (50000 <= rr_retryDelay rr <= 3600000)%Z /\
     (forall id' rr', ra_rrs s !! id' = Some rr' -> rr_prefix rr' = rr_prefix rr -> id' = id) /\
     (if ra_isAvailable s then busy (ra_commands s) id rr else 0 < rr_nRibRoutes rr)) /\
  (forall r id, ra_routeToRr s !! r = Some id -> is_Some (ra_rrs s !! id)) /\
  forall ev, ra_possible ev s -> in_time ev s -> exists s', ra_step refresh commandPrefix ev s = Some (inr tt, s') /\ ra_reached refresh commandPrefix s'.
Proof.
  intros Hr. pose proof (ra_reached_ok _ _ _ Hr) as Hs. split_and!.
  - intros id rr Hrr. split_and!; [by apply (ao_count s Hs)|by apply (ao_delay s Hs id rr)|by apply (ao_delay s Hs id rr)| |].
    + intros id' rr' Hrr' Hp. by apply (ao_prefix s Hs id' id rr' rr).
    + destruct (ra_isAvailable s) eqn:Ea; [by apply (ao_busy s Hs)|by apply (ao_gone s Hs Ea id)].
  - apply (ao_routes s Hs).
  - intros ev Hp Ht. destruct (ra_step_keeps refresh commandPrefix ev s Hs Hp Ht) as (s' & E & _). exists s'. split; [done|]. by eapply ra_reached_step.
Qed.

(** ** At concrete states *)

Definition sample_identities : list Name := [[ascii_component "a"; ascii_component "b"]; [ascii_component "a"; ascii_component "nrd"]].
Definition sample_route : RouteKey := ([ascii_component "a"; ascii_component "b"; ascii_component "c"], 300, 0).
Example shortest_identity : handleNewRoute sample_identities sample_route.1.1 = Some (mkAction [ascii_component "a"] [ascii_component "a"; ascii_component "nrd"]).
Proof. vm_compute. reflexivity. Qed.

Fixpoint ra_run (evs : list RaEvent) : RM unit := match evs with [] => mret tt | ev :: evs => ra_step 25000 LOCALHOP_TOP_PREFIX ev;; ra_run evs end.
Definition advertised : Readvertise :=
  match ra_run [RaInsertEntry LOCALHOP_TOP_PREFIX; RaAddRoute sample_identities sample_route] Readvertise_new with Some (_, s) => s | None => Readvertise_new end.
Example advertised_sent : ra_sent advertised = [(RrAdvertise, [ascii_component "a"], Some [ascii_component "a"; ascii_component "nrd"])].
Proof. vm_compute. reflexivity. Qed.

Lemma advertised_reached : ra_reached 25000 LOCALHOP_TOP_PREFIX advertised.
Proof.
  pose proof (ra_reached_new 25000 LOCALHOP_TOP_PREFIX) as H0.
  destruct (ra_step_keeps 25000 LOCALHOP_TOP_PREFIX (RaInsertEntry LOCALHOP_TOP_PREFIX) Readvertise_new) as (s1 & E1 & H1); [apply Readvertise_new_ok|done|done|].
  assert (ra_reached 25000 LOCALHOP_TOP_PREFIX s1) as R1 by (by apply (ra_reached_step _ _ (RaInsertEntry LOCALHOP_TOP_PREFIX) Readvertise_new (inr tt))).
  assert (ra_step 25000 LOCALHOP_TOP_PREFIX (RaInsertEntry LOCALHOP_TOP_PREFIX) Readvertise_new = Some (inr tt, ra_with_available true Readvertise_new)) as E1' by (vm_compute; reflexivity).
  assert (ra_routeToRr s1 = ∅) as Em by (rewrite E1 in E1'; by injection E1' as ->).
  assert (ra_possible (RaAddRoute sample_identities sample_route) s1) as Hp by (cbn [ra_possible]; by rewrite Em).
  destruct (ra_step_keeps 25000 LOCALHOP_TOP_PREFIX (RaAddRoute sample_identities sample_route) s1 H1 Hp I) as (s2 & E2 & H2).
  assert (advertised = s2) as ->.
  { unfold advertised. cbn [ra_run]. erewrite bind_run by exact E1. by erewrite bind_run by exact E2. }
  by apply (ra_reached_step _ _ (RaAddRoute sample_identities sample_route) s1 (inr tt)).
Qed.

Lemma readvertise_invariant_witness :
  (forall id rr, ra_rrs advertised !! id = Some rr ->
     rr_nRibRoutes rr = routes_of id (ra_routeToRr advertised) /\ (50000 <= rr_retryDelay rr <= 3600000)%Z /\
     (forall id' rr', ra_rrs advertised !! id' = Some rr' -> rr_prefix rr' = rr_prefix rr -> id' = id) /\
     (if ra_isAvailable advertised then busy (ra_commands advertised) id rr else 0 < rr_nRibRoutes rr)) /\
  (forall r id, ra_routeToRr advertised !! r = Some id -> is_Some (ra_rrs advertised !! id)) /\
  forall ev, ra_possible ev advertised -> in_time ev advertised ->
    exists s', ra_step 25000 LOCALHOP_TOP_PREFIX ev advertised = Some (inr tt, s') /\ ra_reached 25000 LOCALHOP_TOP_PREFIX s'.
Proof. apply (readvertise_invariant 25000 LOCALHOP_TOP_PREFIX advertised). apply advertised_reached. Defined.

(** ** Replies and timers that come too late *)

(** The route goes while its refresh timer is set; the timer fires before the reply to the
    withdraw command, and the assertion of [advertise] fails. *)
Example refresh_after_removal :
  match ra_run [RaReply 0 0 (RrAdvertise, 0) true; RaRemoveRoute sample_route] advertised with
  | Some (inr _, s) => rr_retryEvt <$> ra_rrs s !! 0 = Some (Some (25000%Z, RrAdvertise)) /\ ra_run [RaTimer 25000 0] s = None
  | _ => False
  end.
Proof. vm_compute. split; reflexivity. Qed.
(** The route comes back while its withdraw command is under way: the reply to that erases the
    object, and when the route goes again its iterator dangles. *)
Example withdrawn_while_wanted :
  match ra_run [RaReply 0 0 (RrAdvertise, 0) true; RaRemoveRoute sample_route; RaAddRoute sample_identities sample_route; RaReply 1 0 (RrWithdraw, 0) true] advertised with
  | Some (inr _, s) => ra_routeToRr s !! sample_route = Some 0 /\ ra_rrs s = ∅ /\ ra_run [RaRemoveRoute sample_route] s = None
  | _ => False
  end.
Proof. vm_compute. split; [reflexivity|split; reflexivity]. Qed.
(** The destination goes while a withdraw command is under way: the object is erased, and the
    reply uses its iterator. *)
Example reply_after_unavailable :
  match ra_run [RaReply 0 0 (RrAdvertise, 0) true; RaRemoveRoute sample_route; RaEraseEntry LOCALHOP_TOP_PREFIX] advertised with
  | Some (inr _, s) => ra_commands s = [(RrWithdraw, 0)] /\ ra_run [RaReply 1 0 (RrWithdraw, 0) false] s = None
  | _ => False
  end.
Proof. vm_compute. split; reflexivity. Qed.
(** A withdraw command failed and is to be tried again when the route comes back: the timer is
    not cancelled, and the assertion of [withdraw] fails if the reply to the new advertise
    command has not replaced it. *)
Example retry_after_return :
  match ra_run [RaReply 0 0 (RrAdvertise, 0) true; RaRemoveRoute sample_route; RaReply 1 0 (RrWithdraw, 0) false; RaAddRoute sample_identities sample_route] advertised with
  | Some (inr _, s) => rr_retryEvt <$> ra_rrs s !! 0 = Some (Some (100001%Z, RrWithdraw)) /\ ra_run [RaTimer 100001 0] s = None
  | _ => False
  end.
Proof. vm_compute. split; reflexivity. Qed.
