(* ===== verification/ClientFace.v ===== *)
(** * The client face of ndn-cxx (face.cpp, impl/face-impl.hpp, impl/pending-interest.hpp,
    impl/record-container.hpp, interest-filter.cpp)

    What an application talks to: it expresses Interests with callbacks, sets Interest
    filters, puts Data and Nacks; packets arrive from the forwarder. An operation of the
    application only posts an action to the I/O service's queue; the actions run in order,
    so a callback never changes the tables while they are visited. The packets sent, the
    callbacks called and the handles given out are one trace of outputs. Record numbers are
    unbounded; the encoding of packets, and the exception for an oversized one, are left out. *)

From S2P Require Import Prelude Name Packet.

Inductive PendingInterestOrigin := APP | FORWARDER.

(** [InterestFilter]; the regular expression is a matcher of the components from a position. *)
Record InterestFilter := mkFilter {
  if_prefix : Name;
  if_allowsLoopback : bool;
  if_regexFilter : option (Name -> nat -> nat -> bool);
}.
Definition filter_doesMatch (f : InterestFilter) (name : Name) : bool :=
  isPrefixOf (if_prefix f) name &&
  match if_regexFilter f with
  | None => true
  | Some match_ => match_ name (length (if_prefix f)) (length name - length (if_prefix f))%nat
  end.

(** ** [RecordContainer]: a map from record numbers, visited in ascending order *)

Definition RecordId := N.
Section container.
Context {T : Type}.
Definition rc_get (id : RecordId) (l : list (RecordId * T)) : option T :=
  snd <$> find (fun r => (r.1 =? id)%N) l.
Fixpoint rc_put (id : RecordId) (x : T) (l : list (RecordId * T)) : list (RecordId * T) :=
  match l with
  | [] => [(id, x)]
  | (k, y) :: l' => if (k <? id)%N then (k, y) :: rc_put id x l'
                    else if (k =? id)%N then l else (id, x) :: l
  end.
Definition rc_erase (id : RecordId) (l : list (RecordId * T)) : list (RecordId * T) :=
  List.filter (fun r => negb (r.1 =? id)%N) l.
Definition rc_update (f : T -> T) (id : RecordId) (l : list (RecordId * T)) : list (RecordId * T) :=
  (fun r => if (r.1 =? id)%N then (r.1, f r.2) else r) <$> l.

(** [removeIf]: the visitor sees a state, may change the record and says whether to erase it. *)
Fixpoint removeIf {S : Type} (f : S -> RecordId -> T -> S * (bool * T)) (s : S) (l : list (RecordId * T))
  : S * list (RecordId * T) :=
  match l with
  | [] => (s, [])
  | (id, x) :: l' =>
      let '(s, (wantErase, x)) := f s id x in
      let '(s, l'') := removeIf f s l' in
      (s, if wantErase : bool then l'' else (id, x) :: l'')
  end.
End container.

(** ** The face

    [C] stands for the three callbacks of an expressed Interest, [F] for the callback of an
    Interest filter. *)
Section face.
Context {C F : Type}.

Record PendingInterest := mkPending {
  pi_interest : Interest;
  pi_origin : PendingInterestOrigin;
  pi_callbacks : option C;             (* given exactly for the origin [APP] *)
  pi_nNotNacked : Z;
  pi_leastSevereNack : option Nack;
}.
Definition pending_app (i : Interest) (cb : C) : PendingInterest := mkPending i APP (Some cb) 0 None.
Definition pending_forwarder (i : Interest) : PendingInterest := mkPending i FORWARDER None 0 None.

Definition recordForwarding (e : PendingInterest) : PendingInterest :=
  mkPending (pi_interest e) (pi_origin e) (pi_callbacks e) (pi_nNotNacked e + 1) (pi_leastSevereNack e).
(** [recordNack]: the Nack to report, when all destinations have sent one. *)
Definition recordNack (n : Nack) (e : PendingInterest) : PendingInterest * option Nack :=
  let nNotNacked := (pi_nNotNacked e - 1)%Z in
  let least := match pi_leastSevereNack e with
               | Some m => if isLessSevere (n_reason n) (n_reason m) then n else m
               | None => n
               end in
  (mkPending (pi_interest e) (pi_origin e) (pi_callbacks e) nNotNacked (Some least),
   if (0 <? nNotNacked)%Z then None else Some least).

(** Its assertion, [m_nNotNacked >= 0] once the Nack is counted. *)
Definition recordNack_asserts (e : PendingInterest) : bool := (0 <=? pi_nNotNacked e - 1)%Z.

(** What an action does to the outside: a callback called, a packet sent, a handle returned;
    and an assertion that fails on a record. A build with assertions ends there, one without
    goes on as the model does. *)
Inductive FaceOutput :=
| DataCallback (id : RecordId) (cb : C) (i : Interest) (d : Data)
| NackCallback (id : RecordId) (cb : C) (i : Interest) (n : Nack)
| TimeoutCallback (id : RecordId) (cb : C) (i : Interest)
| InterestCallback (cb : F) (filter : InterestFilter) (i : Interest)
| SendInterest (i : Interest)
| SendData (d : Data)
| SendNack (n : Nack)
| GiveHandle (id : RecordId) (cb : C) (i : Interest)
| FailedAssertion (id : RecordId) (origin : PendingInterestOrigin).

(** What the application's calls post. *)
Inductive Action :=
| DoExpress (id : RecordId) (i : Interest) (cb : C)
| DoExpressDumb (id : RecordId) (i : Interest) (cb : C)
| DoRemovePending (id : RecordId)
| DoRemoveAllPending
| DoSetFilter (id : RecordId) (filter : InterestFilter) (cb : F)
| DoUnsetFilter (id : RecordId)
| DoPutData (d : Data)
| DoPutNack (n : Nack).

Record ClientFace := mkClientFace {
  cf_pending : list (RecordId * PendingInterest);
  cf_lastId : RecordId;
  cf_filters : list (RecordId * (InterestFilter * F));
  cf_lastFilterId : RecordId;
  cf_posted : list Action;
}.
Definition ClientFace_new : ClientFace := mkClientFace [] 0%N [] 0%N [].
Definition set_pending l s := mkClientFace l (cf_lastId s) (cf_filters s) (cf_lastFilterId s) (cf_posted s).
Definition set_lastId n s := mkClientFace (cf_pending s) n (cf_filters s) (cf_lastFilterId s) (cf_posted s).
Definition set_filters l s := mkClientFace (cf_pending s) (cf_lastId s) l (cf_lastFilterId s) (cf_posted s).
Definition set_posted l s := mkClientFace (cf_pending s) (cf_lastId s) (cf_filters s) (cf_lastFilterId s) l.
Definition post (a : Action) s := set_posted (cf_posted s ++ [a]) s.

(** *** [Face::Impl] *)

(** [dispatchInterest]: the filters that match the pending Interest [id]. *)
Definition record_doesMatch (f : InterestFilter) (e : PendingInterest) : bool :=
  (match pi_origin e with FORWARDER => true | APP => false end || if_allowsLoopback f)
  && filter_doesMatch f (i_name (pi_interest e)).
Definition dispatchInterest (id : RecordId) (i : Interest) (s : ClientFace) : ClientFace * list FaceOutput :=
  match rc_get id (cf_pending s) with
  | None => (s, [])
  | Some entry =>
      let '((entry, calls), _) := removeIf (fun '(entry, calls) _ '(filter, cb) =>
          (if record_doesMatch filter entry
           then (recordForwarding entry, calls ++ [InterestCallback cb filter i])
           else (entry, calls), (false, (filter, cb)))) (entry, []) (cf_filters s) in
      (set_pending (rc_update (fun _ => entry) id (cf_pending s)) s, calls)
  end.

Definition Impl_expressInterest (id : RecordId) (i : Interest) (cb : C) (s : ClientFace) : ClientFace * list FaceOutput :=
  let s := set_pending (rc_put id (pending_app i cb) (cf_pending s)) s in
  let s := set_pending (rc_update recordForwarding id (cf_pending s)) s in
  let '(s, calls) := dispatchInterest id i s in
  (s, SendInterest i :: calls).

Definition Impl_expressDumbInterest (id : RecordId) (i : Interest) (cb : C) (s : ClientFace) : ClientFace * list FaceOutput :=
  let s := set_pending (rc_put id (pending_app i cb) (cf_pending s)) s in
  let s := set_pending (rc_update recordForwarding id (cf_pending s)) s in
  dispatchInterest id i s.

(** The visitor of [satisfyPendingInterests]; it sets whether an Interest of the application
    and one of the forwarder matched. *)
Definition satisfy_visit (d : Data) (s : bool * bool * list FaceOutput) (id : RecordId) (entry : PendingInterest)
  : bool * bool * list FaceOutput * (bool * PendingInterest) :=
  let '(hasAppMatch, hasForwarderMatch, calls) := s in
  if negb (matchesData (pi_interest entry) d) then (s, (false, entry))
  else match pi_origin entry with
       | APP => ((true, hasForwarderMatch, calls ++ match pi_callbacks entry with
                                                    | Some cb => [DataCallback id cb (pi_interest entry) d]
                                                    | None => []
                                                    end), (true, entry))
       | FORWARDER => ((hasAppMatch, true, calls), (true, entry))
       end.
(** The last component: whether the Data should be sent to the forwarder. *)
Definition satisfyPendingInterests (d : Data) (s : ClientFace) : ClientFace * list FaceOutput * bool :=
  let '((hasAppMatch, hasForwarderMatch, calls), l) := removeIf (satisfy_visit d) (false, false, []) (cf_pending s) in
  (set_pending l s, calls, hasForwarderMatch || negb hasAppMatch).

(** The visitor of [nackPendingInterests]; it sets the Nack to send. *)
Definition nack_visit (n : Nack) (s : option Nack * list FaceOutput) (id : RecordId) (entry : PendingInterest)
  : option Nack * list FaceOutput * (bool * PendingInterest) :=
  let '(outNack, calls) := s in
  if negb (matchesInterest (n_interest n) (pi_interest entry)) then (s, (false, entry))
  else
    let calls := calls ++ (if recordNack_asserts entry then [] else [FailedAssertion id (pi_origin entry)]) in
    let '(entry, outNack1) := recordNack n entry in
    match outNack1 with
    | None => ((outNack, calls), (false, entry))
    | Some m =>
        match pi_origin entry with
        | APP => ((outNack, calls ++ match pi_callbacks entry with
                                     | Some cb => [NackCallback id cb (pi_interest entry) m]
                                     | None => []
                                     end), (true, entry))
        | FORWARDER => ((Some m, calls), (true, entry))
        end
    end.
(** The last component: the Nack to send to the forwarder. *)
Definition nackPendingInterests (n : Nack) (s : ClientFace) : ClientFace * list FaceOutput * option Nack :=
  let '((outNack, calls), l) := removeIf (nack_visit n) (None, []) (cf_pending s) in
  (set_pending l s, calls, outNack).

Definition processIncomingInterest (i : Interest) (s : ClientFace) : ClientFace * list FaceOutput :=
  let id := (cf_lastId s + 1)%N in
  let s := set_lastId id s in
  let s := set_pending (rc_put id (pending_forwarder i) (cf_pending s)) s in
  dispatchInterest id i s.

Definition putData (d : Data) (s : ClientFace) : ClientFace * list FaceOutput :=
  let '(s, calls, shouldSendToForwarder) := satisfyPendingInterests d s in
  (s, calls ++ if shouldSendToForwarder then [SendData d] else []).
Definition putNack (n : Nack) (s : ClientFace) : ClientFace * list FaceOutput :=
  let '(s, calls, outNack) := nackPendingInterests n s in
  (s, calls ++ match outNack with Some m => [SendNack m] | None => [] end).

(** [PendingInterest::invokeTimeoutCallback]. *)
Definition invokeTimeoutCallback (id : RecordId) (s : ClientFace) : ClientFace * list FaceOutput :=
  match rc_get id (cf_pending s) with
  | None => (s, [])
  | Some entry =>
      (set_pending (rc_erase id (cf_pending s)) s,
       match pi_callbacks entry with Some cb => [TimeoutCallback id cb (pi_interest entry)] | None => [] end)
  end.

(** The first posted action runs. *)
Definition run_action (a : Action) (s : ClientFace) : ClientFace * list FaceOutput :=
  match a with
  | DoExpress id i cb => Impl_expressInterest id i cb s
  | DoExpressDumb id i cb => Impl_expressDumbInterest id i cb s
  | DoRemovePending id => (set_pending (rc_erase id (cf_pending s)) s, [])
  | DoRemoveAllPending => (set_pending [] s, [])
  | DoSetFilter id filter cb => (set_filters (rc_put id (filter, cb) (cf_filters s)) s, [])
  | DoUnsetFilter id => (set_filters (rc_erase id (cf_filters s)) s, [])
  | DoPutData d => putData d s
  | DoPutNack n => putNack n s
  end.

(** *** [Face], and what happens to it *)

Inductive FaceEvent :=
| Express (i : Interest) (cb : C)
| ExpressDumb (i : Interest) (cb : C)
| Cancel (id : RecordId)
| RemoveAllPendingInterests
| SetInterestFilter (filter : InterestFilter) (cb : F)
| UnsetInterestFilter (id : RecordId)
| Put (d : Data)
| PutN (n : Nack)
| RunPosted
| ReceiveInterest (i : Interest)
| ReceiveData (d : Data)
| ReceiveNack (n : Nack)
| Timeout (id : RecordId).

Definition expressInterest (i : Interest) (cb : C) (s : ClientFace) : ClientFace * list FaceOutput :=
  let id := (cf_lastId s + 1)%N in (post (DoExpress id i cb) (set_lastId id s), [GiveHandle id cb i]).
Definition expressDumbInterest (i : Interest) (cb : C) (s : ClientFace) : ClientFace * list FaceOutput :=
  let id := (cf_lastId s + 1)%N in (post (DoExpressDumb id i cb) (set_lastId id s), [GiveHandle id cb i]).
Definition setInterestFilter (filter : InterestFilter) (cb : F) (s : ClientFace) : ClientFace :=
  let id := (cf_lastFilterId s + 1)%N in
  post (DoSetFilter id filter cb) (mkClientFace (cf_pending s) (cf_lastId s) (cf_filters s) id (cf_posted s)).

Definition face_step (ev : FaceEvent) (s : ClientFace) : ClientFace * list FaceOutput :=
  match ev with
  | Express i cb => expressInterest i cb s
  | ExpressDumb i cb => expressDumbInterest i cb s
  | Cancel id => (post (DoRemovePending id) s, [])
  | RemoveAllPendingInterests => (post DoRemoveAllPending s, [])
  | SetInterestFilter filter cb => (setInterestFilter filter cb s, [])
  | UnsetInterestFilter id => (post (DoUnsetFilter id) s, [])
  | Put d => (post (DoPutData d) s, [])
  | PutN n => (post (DoPutNack n) s, [])
  | RunPosted => match cf_posted s with
                 | [] => (s, [])
                 | a :: l => run_action a (set_posted l s)
                 end
  | ReceiveInterest i => processIncomingInterest i s
  | ReceiveData d => let '(s, calls, _) := satisfyPendingInterests d s in (s, calls)
  | ReceiveNack n => let '(s, calls, _) := nackPendingInterests n s in (s, calls)
  | Timeout id => invokeTimeoutCallback id s
  end.
Fixpoint face_run (evs : list FaceEvent) (s : ClientFace) : ClientFace * list FaceOutput :=
  match evs with
  | [] => (s, [])
  | ev :: evs' => let '(s, out) := face_step ev s in
                  let '(s, out') := face_run evs' s in (s, out ++ out')
  end.

(** ** Expressed Interests and their callbacks *)

(** What was expressed, which callbacks were called, and what still waits: in the queue of
    posted actions or in the table. *)
Definition Request : Type := RecordId * C * Interest.
Definition handles (tr : list FaceOutput) : list Request :=
  omap (fun o => match o with GiveHandle id cb i => Some (id, cb, i) | _ => None end) tr.
Definition ended (tr : list FaceOutput) : list Request :=
  omap (fun o => match o with
                 | DataCallback id cb i _ | NackCallback id cb i _ | TimeoutCallback id cb i => Some (id, cb, i)
                 | _ => None
                 end) tr.
Definition queued (l : list Action) : list Request :=
  omap (fun a => match a with DoExpress id i cb | DoExpressDumb id i cb => Some (id, cb, i) | _ => None end) l.
Definition request_of (r : RecordId * PendingInterest) : option Request :=
  (fun cb => (r.1, cb, pi_interest r.2)) <$> pi_callbacks r.2.
Definition pending_requests (l : list (RecordId * PendingInterest)) : list Request := omap request_of l.
#[local] Arguments pending_requests _ : simpl never.
Definition waiting (s : ClientFace) : list Request := queued (cf_posted s) ++ pending_requests (cf_pending s).
Definition withdraws (ev : FaceEvent) : bool :=
  match ev with Cancel _ | RemoveAllPendingInterests => true | _ => false end.

Definition entry_ok (r : RecordId * PendingInterest) : Prop :=
  match pi_origin r.2 with APP => is_Some (pi_callbacks r.2) | FORWARDER => pi_callbacks r.2 = None end.
Definition queued_ids (l : list Action) : list RecordId := (fun r => r.1.1) <$> queued l.
Definition ids_of (s : ClientFace) : list RecordId := queued_ids (cf_posted s) ++ (fst <$> cf_pending s).

(** The face's invariant: record numbers are given once. [quiet] says in addition that
    nothing that withdraws Interests waits in the queue. *)
Record face_ok (s : ClientFace) : Prop := {
  fo_ids : NoDup (ids_of s);
  fo_bound : forall id, id ∈ ids_of s -> (id <= cf_lastId s)%N;
  fo_entries : Forall entry_ok (cf_pending s);
}.
Definition no_withdrawal (l : list Action) : Prop := (DoRemoveAllPending ∉ l) /\ forall id, (DoRemovePending id ∉ l).

(** *** The container *)

Lemma rc_put_fresh {T} id (x : T) l : id ∉ (fst <$> l) -> rc_put id x l ≡ₚ ((id, x) :: l).
Proof.
  induction l as [|[k y] l IH]; [done|]. cbn [rc_put fmap list_fmap fst]. rewrite not_elem_of_cons. intros [Hk Hl].
  destruct (k <? id)%N; [rewrite IH by done; apply Permutation_swap|]. by rewrite (proj2 (N.eqb_neq k id)) by congruence.
Qed.
Lemma rc_update_ids {T} (f : T -> T) id l : fst <$> rc_update f id l = fst <$> l.
Proof. unfold rc_update. rewrite <- list_fmap_compose. apply list_fmap_ext. intros ? [k x] _. simpl. by destruct (_ =? _)%N. Qed.
Lemma rc_erase_ids {T} id (l : list (RecordId * T)) : sublist (fst <$> rc_erase id l) (fst <$> l).
Proof.
  induction l as [|[k x] l IH]; [done|]. unfold rc_erase in *. simpl. destruct (negb _); simpl; by constructor.
Qed.
Lemma rc_get_elem {T} id (l : list (RecordId * T)) x : rc_get id l = Some x -> (id, x) ∈ l.
Proof.
  unfold rc_get. intros ([k y] & [E Hk]%find_some & ->)%fmap_Some. simpl in Hk. apply N.eqb_eq in Hk as ->. by apply list_elem_of_In.
Qed.

(** An update that keeps the requests and the origins of the records it changes. *)
Definition agrees (e e' : PendingInterest) : Prop :=
  pi_interest e' = pi_interest e /\ pi_callbacks e' = pi_callbacks e /\ pi_origin e' = pi_origin e.
Lemma pending_cons r l : pending_requests (r :: l) = option_list (request_of r) ++ pending_requests l.
Proof. unfold pending_requests. simpl. by destruct (request_of r). Qed.
Lemma rc_update_requests f id l :
  (forall e, (id, e) ∈ l -> agrees e (f e)) -> pending_requests (rc_update f id l) = pending_requests l.
Proof.
  intros Hf. induction l as [|[k e] l IH]; [done|].
  change (rc_update f id ((k, e) :: l)) with ((if (k =? id)%N then (k, f e) else (k, e)) :: rc_update f id l).
  rewrite !pending_cons, IH by (intros e' He'; apply Hf; by right). f_equal.
  destruct (N.eqb_spec k id) as [->|]; [|done]. destruct (Hf e) as (Hi & Hc & _); [left|].
  unfold request_of. simpl. by rewrite Hi, Hc.
Qed.
Lemma rc_update_entries f id l :
  (forall e, (id, e) ∈ l -> agrees e (f e)) -> Forall entry_ok l -> Forall entry_ok (rc_update f id l).
Proof.
  intros Hf Hl. apply Forall_fmap, Forall_forall. intros [k e] Hin. rewrite Forall_forall in Hl. specialize (Hl _ Hin).
  unfold entry_ok in *. simpl. destruct (N.eqb_spec k id) as [->|]; [|done]. simpl. by destruct (Hf e Hin) as (_ & -> & ->).
Qed.
Lemma rc_unique {T} (l : list (RecordId * T)) id x y : NoDup (fst <$> l) -> (id, x) ∈ l -> (id, y) ∈ l -> x = y.
Proof.
  induction l as [|[k z] l IH]; [by intros _ ?%not_elem_of_nil|]. cbn. intros [Hk Hl]%NoDup_cons.
  assert (forall w, (k, w) ∈ l -> False) as Hno by (intros w Hw; apply Hk, list_elem_of_fmap; by exists (k, w)).
  intros [Hx|Hx]%elem_of_cons [Hy|Hy]%elem_of_cons; simplify_eq; [done|by destruct (Hno y)|by destruct (Hno x)|by apply IH].
Qed.

(** *** What the operations do to the requests *)

(** An operation that only updates records. *)
Definition same_requests (s s' : ClientFace) (out : list FaceOutput) : Prop :=
  cf_posted s' = cf_posted s /\ cf_lastId s' = cf_lastId s /\
  pending_requests (cf_pending s') = pending_requests (cf_pending s) /\
  fst <$> cf_pending s' = fst <$> cf_pending s /\
  (Forall entry_ok (cf_pending s) -> Forall entry_ok (cf_pending s')) /\ handles out = [] /\ ended out = [].

Lemma handles_app l l' : handles (l ++ l') = handles l ++ handles l'.
Proof. apply omap_app. Qed.
Lemma ended_app l l' : ended (l ++ l') = ended l ++ ended l'.
Proof. apply omap_app. Qed.

Lemma dispatch_loop i l : forall e0 e calls,
  agrees e0 e -> handles calls = [] -> ended calls = [] ->
  let '((e', calls'), _) := removeIf (fun '(entry, calls) (_ : RecordId) '(filter, cb) =>
      (if record_doesMatch filter entry
       then (recordForwarding entry, calls ++ [InterestCallback cb filter i])
       else (entry, calls), (false, (filter, cb)))) (e, calls) l in
  agrees e0 e' /\ handles calls' = [] /\ ended calls' = [].
Proof.
  induction l as [|[k [filter cb]] l IH]; intros e0 e calls He Hh Hd; [done|]. cbn [removeIf].
  destruct (record_doesMatch filter e).
  - specialize (IH e0 (recordForwarding e) (calls ++ [InterestCallback cb filter i])).
    destruct (removeIf _ _ l) as [[e' calls'] l']. apply IH; [done|by rewrite handles_app, Hh|by rewrite ended_app, Hd].
  - specialize (IH e0 e calls He Hh Hd). by destruct (removeIf _ _ l) as [[e' calls'] l'].
Qed.

Lemma dispatch_same id i s :
  NoDup (fst <$> cf_pending s) -> let '(s', out) := dispatchInterest id i s in same_requests s s' out.
Proof.
  intros Hnd. unfold dispatchInterest. destruct (rc_get id (cf_pending s)) as [e|] eqn:E; [|by split_and!].
  pose proof (dispatch_loop i (cf_filters s) e e [] ltac:(by split_and!) eq_refl eq_refl) as H.
  destruct (removeIf _ _ _) as [[e' calls] l']. destruct H as (He & Hh & Hd).
  assert (forall x, (id, x) ∈ cf_pending s -> agrees x e') as Hag.
  { intros x Hx. replace x with e; [done|]. eapply rc_unique; [exact Hnd|by apply rc_get_elem|done]. }
  split_and!; [done|done|by apply rc_update_requests|apply rc_update_ids|by apply rc_update_entries|done|done].
Qed.

(** An operation that ends requests: with the records it keeps and the calls it makes. *)
Definition ends_requests (l l' : list (RecordId * PendingInterest)) (out : list FaceOutput) : Prop :=
  sublist (fst <$> l') (fst <$> l) /\ (Forall entry_ok l -> Forall entry_ok l') /\ handles out = [] /\
  (Forall entry_ok l -> pending_requests l ≡ₚ ended out ++ pending_requests l').

Lemma request_app k e : pi_origin e = APP -> entry_ok (k, e) -> exists cb, pi_callbacks e = Some cb.
Proof. unfold entry_ok. simpl. by intros ->. Qed.
Lemma request_forwarder k e : pi_origin e = FORWARDER -> entry_ok (k, e) -> request_of (k, e) = None.
Proof. unfold entry_ok, request_of. simpl. by intros -> ->. Qed.

(** A visit of the records, as a relation between the records before and after and the calls
    each makes. *)
Lemma ends_nil : ends_requests [] [] [].
Proof. by split_and!. Qed.
Lemma ends_keep r r' l l' out :
  r'.1 = r.1 -> (entry_ok r -> entry_ok r') -> request_of r' = request_of r ->
  ends_requests l l' out -> ends_requests (r :: l) (r' :: l') out.
Proof.
  intros Hk He Hr (Hs & Hl & Hh & Hp). split_and!; [cbn; rewrite Hk; by constructor| |done|].
  - intros [? ?]%Forall_cons. constructor; auto.
  - intros [? ?]%Forall_cons. rewrite !pending_cons, Hr. rewrite Hp by done. rewrite !app_assoc.
    apply Permutation_app_tail, Permutation_app_comm.
Qed.
Lemma ends_drop r l l' out calls :
  handles calls = [] -> (entry_ok r -> ended calls = option_list (request_of r)) ->
  ends_requests l l' out -> ends_requests (r :: l) l' (calls ++ out).
Proof.
  intros Hc He (Hs & Hl & Hh & Hp). split_and!; [cbn; by constructor| |by rewrite handles_app, Hc|].
  - by intros [? ?]%Forall_cons; auto.
  - intros [? ?]%Forall_cons. rewrite pending_cons, ended_app, He by done. rewrite Hp by done. by rewrite app_assoc.
Qed.

Lemma ends_silent l l' out calls :
  handles calls = [] -> ended calls = [] -> ends_requests l l' out -> ends_requests l l' (calls ++ out).
Proof.
  intros Hc He (Hs & Hl & Hh & Hp). split_and!; [done|done|by rewrite handles_app, Hc|]. intros H. by rewrite ended_app, He, Hp.
Qed.

Lemma satisfy_loop d l : forall app fwd calls,
  let '((_, _, calls'), l') := removeIf (satisfy_visit d) (app, fwd, calls) l in
  exists out, calls' = calls ++ out /\ ends_requests l l' out.
Proof.
  induction l as [|[k e] l IH]; intros app fwd calls; [exists []; by rewrite app_nil_r|]. cbn [removeIf].
  unfold satisfy_visit at 1. destruct (matchesData (pi_interest e) d); cbn [negb].
  - destruct (pi_origin e) eqn:Eo.
    + set (call := match pi_callbacks e with Some cb => _ | None => [] end).
      specialize (IH true fwd (calls ++ call)). destruct (removeIf _ _ l) as [[[a f] c] l'].
      destruct IH as (out & -> & H). exists (call ++ out). split; [by rewrite app_assoc|].
      apply ends_drop; [by unfold call; destruct (pi_callbacks e)| |done].
      intros [cb Hcb]%request_app; [|done]. unfold call, request_of. simpl. by rewrite Hcb.
    + specialize (IH app true calls). destruct (removeIf _ _ l) as [[[a f] c] l'].
      destruct IH as (out & -> & H). exists out. split; [done|].
      apply (ends_drop _ _ _ _ []); [done| |done]. intros He. by rewrite request_forwarder.
  - specialize (IH app fwd calls). destruct (removeIf _ _ l) as [[[a f] c] l'].
    destruct IH as (out & -> & H). exists out. split; [done|]. by apply ends_keep.
Qed.

Lemma nack_loop n l : forall outNack calls,
  let '((_, calls'), l') := removeIf (nack_visit n) (outNack, calls) l in
  exists out, calls' = calls ++ out /\ ends_requests l l' out.
Proof.
  induction l as [|[k e] l IH]; intros o calls; [exists []; by rewrite app_nil_r|]. cbn [removeIf].
  unfold nack_visit at 1. destruct (matchesInterest (n_interest n) (pi_interest e)); cbn [negb].
  - set (check := if recordNack_asserts e then [] else _).
    assert (handles check = [] /\ ended check = []) as [Hc1 Hc2] by (unfold check; by destruct (recordNack_asserts e)).
    unfold recordNack at 1. set (e' := mkPending _ _ _ _ _). cbn beta iota zeta.
    destruct (0 <? pi_nNotNacked e - 1)%Z; cbn beta iota.
    + specialize (IH o (calls ++ check)). destruct (removeIf _ _ l) as [[o' c] l'].
      destruct IH as (out & -> & H). exists (check ++ out). split; [by rewrite app_assoc|]. apply ends_silent; [done|done|]. by apply ends_keep.
    + destruct (pi_origin e') eqn:Eo.
      * set (call := match pi_callbacks e' with Some cb => _ | None => [] end).
        specialize (IH o ((calls ++ check) ++ call)). destruct (removeIf _ _ l) as [[o' c] l'].
        destruct IH as (out & -> & H). exists (check ++ call ++ out). split; [by rewrite !app_assoc|]. apply ends_silent; [done|done|].
        apply ends_drop; [by unfold call; destruct (pi_callbacks e')| |done].
        intros [cb Hcb]%request_app; [|done]. unfold call, request_of. simpl. by rewrite Hcb.
      * match goal with |- context [removeIf _ (?o1, calls ++ check) l] => specialize (IH o1 (calls ++ check)) end.
        destruct (removeIf _ _ l) as [[o' c] l'].
        destruct IH as (out & -> & H). exists (check ++ out). split; [by rewrite app_assoc|]. apply ends_silent; [done|done|].
        apply (ends_drop _ _ _ _ []); [done| |done]. intros He. by rewrite request_forwarder.
  - specialize (IH o calls). destruct (removeIf _ _ l) as [[o' c] l'].
    destruct IH as (out & -> & H). exists out. split; [done|]. by apply ends_keep.
Qed.

(** *** The invariant and the account of the requests *)

Lemma ids_pending s : face_ok s -> NoDup (fst <$> cf_pending s).
Proof. intros [H _ _]. by apply NoDup_app in H as (_ & _ & ?). Qed.

Lemma same_ok s s' out : same_requests s s' out -> face_ok s -> face_ok s' /\ waiting s' = waiting s.
Proof.
  intros (Hq & Hl & Hr & Hi & He & _) [H1 H2 H3].
  assert (ids_of s' = ids_of s) as E by (unfold ids_of; by rewrite Hq, Hi).
  split; [split; [by rewrite E|by rewrite E, Hl|auto]|]. unfold waiting. by rewrite Hq, Hr.
Qed.
Lemma update_same f id s :
  (forall e, agrees e (f e)) -> same_requests s (set_pending (rc_update f id (cf_pending s)) s) [].
Proof.
  intros Hf. split_and!; [done|done|by apply rc_update_requests|apply rc_update_ids|by apply rc_update_entries|done|done].
Qed.

Lemma put_ok id e s :
  face_ok s -> id ∉ ids_of s -> (id <= cf_lastId s)%N -> entry_ok (id, e) ->
  let s' := set_pending (rc_put id e (cf_pending s)) s in
  face_ok s' /\ waiting s' ≡ₚ option_list (request_of (id, e)) ++ waiting s.
Proof.
  intros [H1 H2 H3] Hid Hle He. cbn zeta. unfold ids_of in Hid. rewrite not_elem_of_app in Hid. destruct Hid as [Hq Hp].
  pose proof (rc_put_fresh id e (cf_pending s) Hp) as Hput.
  assert (ids_of (set_pending (rc_put id e (cf_pending s)) s) ≡ₚ id :: ids_of s) as E.
  { unfold ids_of. simpl. rewrite Hput. simpl. by rewrite Permutation_middle. }
  split; [split|].
  - rewrite E. apply NoDup_cons. split; [|done]. unfold ids_of. by rewrite not_elem_of_app.
  - intros k. rewrite E, elem_of_cons. intros [->|?]; [done|by apply H2].
  - simpl. rewrite Hput. by constructor.
  - assert (pending_requests (rc_put id e (cf_pending s)) ≡ₚ pending_requests ((id, e) :: cf_pending s)) as Hr
      by (unfold pending_requests; by rewrite Hput).
    unfold waiting. simpl. rewrite Hr, pending_cons, !app_assoc. apply Permutation_app_tail, Permutation_app_comm.
Qed.

Lemma ends_ok l' out s :
  ends_requests (cf_pending s) l' out -> face_ok s ->
  face_ok (set_pending l' s) /\ waiting s ≡ₚ ended out ++ waiting (set_pending l' s).
Proof.
  intros (Hs & He & _ & Hp) [H1 H2 H3].
  assert (sublist (ids_of (set_pending l' s)) (ids_of s)) as E by (by apply sublist_app).
  split; [split|].
  - by eapply sublist_NoDup.
  - intros id Hid. apply H2. by eapply elem_of_sublist.
  - by apply He.
  - unfold waiting. simpl. rewrite Hp by done. rewrite !app_assoc. apply Permutation_app_tail, Permutation_app_comm.
Qed.

Lemma erase_split id l :
  pending_requests l ≡ₚ pending_requests (List.filter (fun r => (r.1 =? id)%N) l) ++ pending_requests (rc_erase id l).
Proof.
  induction l as [|[k e] l IH]; [done|]. rewrite pending_cons, IH. unfold rc_erase. simpl. destruct (k =? id)%N; simpl.
  - by rewrite pending_cons, app_assoc.
  - rewrite pending_cons, !app_assoc. apply Permutation_app_tail, Permutation_app_comm.
Qed.
Lemma filter_unique {T} id (x : T) l :
  NoDup (fst <$> l) -> (id, x) ∈ l -> List.filter (fun r => (r.1 =? id)%N) l = [(id, x)].
Proof.
  induction l as [|[k y] l IH]; [by intros _ ?%not_elem_of_nil|]. cbn [fmap list_fmap fst]. intros [Hk Hl]%NoDup_cons Hx.
  simpl. destruct (N.eqb_spec k id) as [->|Hne].
  - apply elem_of_cons in Hx as [[= ->]|Hx]; [|by destruct Hk; apply list_elem_of_fmap; exists (id, x)]. f_equal.
    clear IH. induction l as [|[j z] l IH]; [done|]. cbn in *. apply not_elem_of_cons in Hk as [Hj Hk]. apply NoDup_cons in Hl as [_ Hl].
    rewrite (proj2 (N.eqb_neq j id)) by congruence. by apply IH.
  - apply elem_of_cons in Hx as [[= -> _]|Hx]; [done|]. by apply IH.
Qed.

(** The step: nothing expressed is lost or answered twice. *)
Definition accounts (s : ClientFace) (out : list FaceOutput) (s' : ClientFace) (w : list Request) : Prop :=
  waiting s ++ handles out ≡ₚ ended out ++ waiting s' ++ w.

Lemma dispatch_accounts id i s :
  face_ok s -> let '(s', out) := dispatchInterest id i s in
  face_ok s' /\ waiting s' = waiting s /\ handles out = [] /\ ended out = [] /\ cf_posted s' = cf_posted s /\ cf_lastId s' = cf_lastId s.
Proof.
  intros Hs. pose proof (dispatch_same id i s (ids_pending s Hs)) as H. destruct (dispatchInterest id i s) as [s' out].
  destruct (same_ok s s' out H Hs) as [H1 H2]. destruct H as (Hq & Hl & _ & _ & _ & Hh & Hd). by split_and!.
Qed.

(** A new record is entered and dispatched. *)
Lemma enter_ok id e i s (fwd : bool) :
  face_ok s -> id ∉ ids_of s -> (id <= cf_lastId s)%N -> entry_ok (id, e) ->
  let s1 := set_pending (rc_put id e (cf_pending s)) s in
  let s2 := if fwd then set_pending (rc_update recordForwarding id (cf_pending s1)) s1 else s1 in
  let '(s', out) := dispatchInterest id i s2 in
  face_ok s' /\ waiting s' ≡ₚ option_list (request_of (id, e)) ++ waiting s /\
  handles out = [] /\ ended out = [] /\ cf_posted s' = cf_posted s /\ cf_lastId s' = cf_lastId s.
Proof.
  intros Hs Hid Hle He s1 s2. destruct (put_ok id e s Hs Hid Hle He) as [Hs1 Hw1]. fold s1 in Hs1, Hw1.
  assert (face_ok s2 /\ waiting s2 = waiting s1 /\ cf_posted s2 = cf_posted s /\ cf_lastId s2 = cf_lastId s) as (Hs2 & Hw2 & Hq & Hl).
  { unfold s2. destruct fwd; [|done]. destruct (same_ok s1 _ [] (update_same recordForwarding id s1 ltac:(done)) Hs1). by split_and!. }
  pose proof (dispatch_accounts id i s2 Hs2) as H. destruct (dispatchInterest id i s2) as [s' out].
  destruct H as (H1 & H2 & H3 & H4 & H5 & H6). rewrite H2, Hw2. split_and!; [done|done|done|done|congruence|congruence].
Qed.

(** What a step does to requests and record numbers. *)
Record step_ok (ev : option FaceEvent) (s : ClientFace) (out : list FaceOutput) (s' : ClientFace) : Prop := {
  so_ok : face_ok s';
  so_account : exists w, accounts s out s' w /\
    (no_withdrawal (cf_posted s) -> from_option (fun ev => withdraws ev = false) True ev -> w = [] /\ no_withdrawal (cf_posted s'));
  so_ids : (handles out = [] /\ (cf_lastId s <= cf_lastId s')%N) \/
           exists cb i, handles out = [((cf_lastId s + 1)%N, cb, i)] /\ cf_lastId s' = (cf_lastId s + 1)%N;
}.

Lemma no_withdrawal_app l a : no_withdrawal l -> match a with DoRemoveAllPending | DoRemovePending _ => False | _ => True end ->
  no_withdrawal (l ++ [a]).
Proof.
  intros [H1 H2] Ha. split; [|intros id]; rewrite elem_of_app, list_elem_of_singleton; (intros [H|<-]; [|done]); [by apply H1|by apply (H2 id)].
Qed.

Lemma post_step ev a s :
  face_ok s -> queued [a] = [] ->
  (from_option (fun ev => withdraws ev = false) True ev -> match a with DoRemoveAllPending | DoRemovePending _ => False | _ => True end) ->
  step_ok ev s [] (post a s).
Proof.
  intros [H1 H2 H3] Hq Ha. assert (queued (cf_posted s ++ [a]) = queued (cf_posted s)) as E.
  { unfold queued at 1. rewrite omap_app. fold (queued [a]). by rewrite Hq, app_nil_r. }
  assert (ids_of (post a s) = ids_of s) as Ei by (unfold ids_of, queued_ids; simpl; by rewrite E).
  split; [split; [by rewrite Ei|by rewrite Ei|done]| |left; by split].
  exists []. unfold accounts, waiting. simpl. rewrite E, !app_nil_r. split; [done|]. intros Hn Hev. split; [done|].
  apply no_withdrawal_app; [done|by apply Ha].
Qed.

Lemma express_step ev dumb i cb s :
  face_ok s ->
  let id := (cf_lastId s + 1)%N in
  let a := if dumb : bool then DoExpressDumb id i cb else DoExpress id i cb in
  step_ok ev s [GiveHandle id cb i] (post a (set_lastId id s)).
Proof.
  intros [H1 H2 H3] id a. assert (queued (cf_posted s ++ [a]) = queued (cf_posted s) ++ [(id, cb, i)]) as E.
  { unfold queued. rewrite omap_app. by destruct dumb. }
  assert (ids_of (post a (set_lastId id s)) ≡ₚ id :: ids_of s) as Ei.
  { unfold ids_of, queued_ids. simpl. rewrite E, fmap_app. simpl. rewrite <- app_assoc. simpl. by rewrite Permutation_middle. }
  split; [split|exists []|right; by exists cb, i].
  - rewrite Ei. apply NoDup_cons. split; [|done]. intros Hid%H2. unfold id in Hid. lia.
  - intros k. rewrite Ei, elem_of_cons. intros [->|Hk%H2]; simpl; unfold id; lia.
  - done.
  - unfold accounts, waiting. simpl. rewrite E, !app_nil_r, <- !app_assoc. split; [by rewrite (Permutation_app_comm (pending_requests _))|].
    intros Hn _. split; [done|]. apply no_withdrawal_app; [done|by destruct dumb].
Qed.

(** An action taken out of the queue. *)
Lemma pop_ok a l s : cf_posted s = a :: l -> queued [a] = [] -> face_ok s -> face_ok (set_posted l s) /\ waiting (set_posted l s) = waiting s.
Proof.
  intros Hp Hq [H1 H2 H3]. assert (queued l = queued (cf_posted s)) as E.
  { rewrite Hp. unfold queued in *. change (a :: l) with ([a] ++ l). by rewrite omap_app, Hq. }
  assert (ids_of (set_posted l s) = ids_of s) as Ei by (unfold ids_of, queued_ids; simpl; by rewrite E).
  split; [split; [by rewrite Ei|by rewrite Ei|done]|]. unfold waiting. simpl. by rewrite E.
Qed.
Lemma no_withdrawal_tail a l : no_withdrawal (a :: l) -> no_withdrawal l.
Proof. intros [H1 H2]. split; [|intros id H]; [intros H; apply H1; by right|apply (H2 id); by right]. Qed.

(** Operations on the table alone, from the state [s0] that the step leaves of the queue. *)
Lemma table_step ev s s0 l' out :
  face_ok s0 -> waiting s0 = waiting s -> cf_lastId s0 = cf_lastId s -> (no_withdrawal (cf_posted s) -> no_withdrawal (cf_posted s0)) ->
  ends_requests (cf_pending s0) l' out -> step_ok ev s out (set_pending l' s0).
Proof.
  intros H0 Hw Hl Hn He. destruct (ends_ok l' out s0 He H0) as [H1 H2]. destruct He as (_ & _ & Hh & _).
  split; [done|exists []|left; split; [done|simpl; lia]]. unfold accounts. rewrite Hh, !app_nil_r, <- Hw. split; [done|].
  intros ?%Hn _. by split.
Qed.
Lemma satisfy_step d s :
  let '(s', out, _) := satisfyPendingInterests d s in exists l', s' = set_pending l' s /\ ends_requests (cf_pending s) l' out.
Proof.
  unfold satisfyPendingInterests. pose proof (satisfy_loop d (cf_pending s) false false []) as H.
  destruct (removeIf _ _ _) as [[[a f] c] l']. destruct H as (out & -> & H). by exists l'.
Qed.
Lemma nack_step n s :
  let '(s', out, _) := nackPendingInterests n s in exists l', s' = set_pending l' s /\ ends_requests (cf_pending s) l' out.
Proof.
  unfold nackPendingInterests. pose proof (nack_loop n (cf_pending s) None []) as H.
  destruct (removeIf _ _ _) as [[o c] l']. destruct H as (out & -> & H). by exists l'.
Qed.
Lemma ends_send l l' out o : handles [o] = [] -> ended [o] = [] -> ends_requests l l' out -> ends_requests l l' (out ++ [o]).
Proof.
  intros H1 H2 (Hs & He & Hh & Hp). split_and!; [done|done|by rewrite handles_app, Hh, H1|].
  intros H. by rewrite ended_app, H2, app_nil_r, Hp.
Qed.
Lemma erase_entries id l : Forall entry_ok l -> Forall entry_ok (rc_erase id l).
Proof.
  intros H. apply Forall_forall. intros r [Hr _]%list_elem_of_In%filter_In. rewrite Forall_forall in H. by apply H, list_elem_of_In.
Qed.

Lemma timeout_ends id e l :
  NoDup (fst <$> l) -> rc_get id l = Some e ->
  ends_requests l (rc_erase id l) (match pi_callbacks e with Some cb => [TimeoutCallback id cb (pi_interest e)] | None => [] end).
Proof.
  intros Hnd Hg%rc_get_elem. split_and!; [apply rc_erase_ids| |by destruct (pi_callbacks e)|].
  - apply erase_entries.
  - intros _. rewrite (erase_split id l), (filter_unique id e l Hnd Hg), pending_cons. unfold request_of. simpl.
    rewrite app_nil_r. by destruct (pi_callbacks e).
Qed.

(** The posted actions, one kind at a time. *)
Lemma express_action dumb a l id i cb s :
  face_ok s -> cf_posted s = a :: l -> queued [a] = [(id, cb, i)] ->
  let s1 := set_pending (rc_put id (pending_app i cb) (cf_pending s)) (set_posted l s) in
  let s2 := set_pending (rc_update recordForwarding id (cf_pending s1)) s1 in
  let '(s', out) := dispatchInterest id i s2 in
  step_ok (Some RunPosted) s ((if dumb : bool then [] else [SendInterest i]) ++ out) s'.
Proof.
  intros [H1 H2 H3] Hp Hq. assert (queued (cf_posted s) = (id, cb, i) :: queued l) as E.
  { rewrite Hp. unfold queued in *. change (a :: l) with ([a] ++ l). by rewrite omap_app, Hq. }
  assert (ids_of s = id :: ids_of (set_posted l s)) as Ei by (unfold ids_of, queued_ids; simpl; by rewrite E).
  rewrite Ei in H1, H2. apply NoDup_cons in H1 as [Hid Hnd].
  assert (face_ok (set_posted l s)) as H0 by (split; [done|intros k Hk; apply H2; by right|done]).
  pose proof (enter_ok id (pending_app i cb) i (set_posted l s) true H0 Hid (H2 id ltac:(left)) (ex_intro _ cb eq_refl)) as H.
  cbn zeta in H |- *. destruct (dispatchInterest _ _ _) as [s' out]. destruct H as (H4 & H5 & H6 & H7 & H8 & H9).
  assert (waiting s = (id, cb, i) :: waiting (set_posted l s)) as Hw by (unfold waiting; simpl; by rewrite E).
  split; [done|exists []|left; rewrite handles_app, H6; split; [by destruct dumb|rewrite H9; simpl; lia]].
  unfold accounts. rewrite handles_app, ended_app, H6, H7, Hw, H5, !app_nil_r.
  split; [destruct dumb; cbn; by rewrite app_nil_r|]. rewrite Hp. intros ?%no_withdrawal_tail _. by rewrite H8.
Qed.

Lemma withdraw_action a l w l' s :
  face_ok s -> cf_posted s = a :: l -> queued [a] = [] -> (no_withdrawal (a :: l) -> False) ->
  pending_requests (cf_pending s) ≡ₚ w ++ pending_requests l' ->
  sublist (fst <$> l') (fst <$> cf_pending s) -> (Forall entry_ok (cf_pending s) -> Forall entry_ok l') ->
  step_ok (Some RunPosted) s [] (set_pending l' (set_posted l s)).
Proof.
  intros Hs Hp Hq Hno Hw Hsub He. destruct (pop_ok a l s Hp Hq Hs) as [[H1 H2 H3] Hw0].
  assert (sublist (ids_of (set_pending l' (set_posted l s))) (ids_of (set_posted l s))) as Hids by (by apply sublist_app).
  split; [split|exists w|left; split; [done|simpl; lia]].
  - by eapply sublist_NoDup.
  - intros id Hid. apply (H2 id). by eapply elem_of_sublist.
  - by apply He.
  - unfold accounts. rewrite <- Hw0. unfold waiting. simpl. rewrite Hw, !app_nil_r, <- app_assoc, Hp. split; [|by intros ?%Hno].
    apply Permutation_app_head, Permutation_app_comm.
Qed.

Lemma table_action a l l' out s :
  face_ok s -> cf_posted s = a :: l -> queued [a] = [] -> ends_requests (cf_pending s) l' out ->
  step_ok (Some RunPosted) s out (set_pending l' (set_posted l s)).
Proof.
  intros Hs Hp Hq He. destruct (pop_ok a l s Hp Hq Hs). apply table_step; [done|done|done| |done].
  rewrite Hp. apply no_withdrawal_tail.
Qed.

Lemma filters_action a l f s :
  face_ok s -> cf_posted s = a :: l -> queued [a] = [] -> step_ok (Some RunPosted) s [] (set_filters f (set_posted l s)).
Proof.
  intros Hs Hp Hq. destruct (pop_ok a l s Hp Hq Hs) as [[H1 H2 H3] Hw].
  split; [by split|exists []|left; split; [done|simpl; lia]].
  unfold accounts. rewrite <- Hw, !app_nil_r. split; [done|]. rewrite Hp. by intros ?%no_withdrawal_tail _.
Qed.

Lemma action_step a l s : face_ok s -> cf_posted s = a :: l ->
  let '(s', out) := run_action a (set_posted l s) in step_ok (Some RunPosted) s out s'.
Proof.
  intros Hs Hp. destruct a as [id i cb|id i cb|id| |id filter cb|id|d|n]; cbn [run_action].
  - unfold Impl_expressInterest. pose proof (express_action false _ l id i cb s Hs Hp eq_refl) as H. cbn zeta in H |- *.
    by destruct (dispatchInterest _ _ _).
  - exact (express_action true _ l id i cb s Hs Hp eq_refl).
  - eapply withdraw_action; [done|done|done| |apply erase_split|apply rc_erase_ids|apply erase_entries].
    intros [_ H]. by apply (H id); left.
  - apply (withdraw_action _ _ (pending_requests (cf_pending s)) [] _ Hs Hp); [done| |by rewrite app_nil_r|apply sublist_nil_l|done].
    intros [H _]. by apply H; left.
  - by eapply filters_action.
  - by eapply filters_action.
  - unfold putData. pose proof (satisfy_step d (set_posted l s)) as H. destruct (satisfyPendingInterests _ _) as [[s' out] b].
    destruct H as (l' & -> & H). eapply table_action; [done|done|done|]. destruct b; [by apply ends_send|by rewrite app_nil_r].
  - unfold putNack. pose proof (nack_step n (set_posted l s)) as H. destruct (nackPendingInterests _ _) as [[s' out] o].
    destruct H as (l' & -> & H). eapply table_action; [done|done|done|]. destruct o; [by apply ends_send|by rewrite app_nil_r].
Qed.

Lemma face_step_ok ev s : face_ok s -> let '(s', out) := face_step ev s in step_ok (Some ev) s out s'.
Proof.
  intros Hs. assert (forall l' out, ends_requests (cf_pending s) l' out -> step_ok (Some ev) s out (set_pending l' s)) as Htable
    by (intros; by apply table_step).
  destruct ev as [i cb|i cb|id| |filter cb|id|d|n| |i|d|n|id]; cbn [face_step].
  - exact (express_step _ false i cb s Hs).
  - exact (express_step _ true i cb s Hs).
  - by apply post_step.
  - by apply post_step.
  - destruct (post_step (Some (SetInterestFilter filter cb)) (DoSetFilter (cf_lastFilterId s + 1)%N filter cb) s Hs) as [H1 H2 H3]; [done|done|].
    destruct H1 as [H4 H5 H6]. split; [by split|exact H2|exact H3].
  - by apply post_step.
  - by apply post_step.
  - by apply post_step.
  - destruct (cf_posted s) as [|a l] eqn:Hp; [|by apply action_step].
    split; [done|exists []; split; [by unfold accounts; rewrite !app_nil_r|by rewrite Hp]|left; split; [done|lia]].
  - unfold processIncomingInterest. set (s0 := set_lastId (cf_lastId s + 1)%N s). destruct Hs as [H1 H2 H3].
    pose proof (enter_ok (cf_lastId s + 1)%N (pending_forwarder i) i s0 false) as H. cbn zeta in H.
    change (cf_pending s0) with (cf_pending s) in H. destruct (dispatchInterest _ _ _) as [s' out].
    destruct H as (H4 & H5 & H6 & H7 & H8 & H9).
    { split; [done| |done]. intros k Hk%H2. simpl. lia. }
    { intros Hk%H2. lia. }
    { simpl. lia. }
    { done. }
    split; [done|exists []|left; split; [done|rewrite H9; simpl; lia]]. unfold accounts. rewrite H6, H7, H5, !app_nil_r. split; [done|].
    intros ? _. by rewrite H8.
  - pose proof (satisfy_step d s) as H. destruct (satisfyPendingInterests _ _) as [[s' out] b]. destruct H as (l' & -> & H). by apply Htable.
  - pose proof (nack_step n s) as H. destruct (nackPendingInterests _ _) as [[s' out] b]. destruct H as (l' & -> & H). by apply Htable.
  - unfold invokeTimeoutCallback. destruct (rc_get id (cf_pending s)) as [e|] eqn:E.
    + apply Htable, timeout_ends; [by apply ids_pending|done].
    + split; [done|exists []; split; [by unfold accounts; rewrite !app_nil_r|done]|left; split; [done|lia]].
Qed.

Definition fresh_handles (s : ClientFace) (out : list FaceOutput) (s' : ClientFace) : Prop :=
  NoDup ((fun r : Request => r.1.1) <$> handles out) /\ (cf_lastId s <= cf_lastId s')%N /\
  forall r, r ∈ handles out -> (cf_lastId s < r.1.1 <= cf_lastId s')%N.

Lemma face_run_ok evs : forall s, face_ok s ->
  let '(s', out) := face_run evs s in
  face_ok s' /\ fresh_handles s out s' /\
  exists w, accounts s out s' w /\ (no_withdrawal (cf_posted s) -> Forall (fun ev => withdraws ev = false) evs -> w = []).
Proof.
  induction evs as [|ev evs IH]; intros s Hs; cbn [face_run].
  { split; [done|]. split; [split_and!; [constructor|lia|by intros r ?%not_elem_of_nil]|].
    exists []. split; [by unfold accounts; rewrite !app_nil_r|done]. }
  pose proof (face_step_ok ev s Hs) as Hstep. destruct (face_step ev s) as [s1 o1].
  destruct Hstep as [Hs1 (w1 & Ha1 & Hw1) Hid]. specialize (IH s1 Hs1). destruct (face_run evs s1) as [s2 o2].
  destruct IH as (Hs2 & (Hnd & Hle & Hb) & w2 & Ha2 & Hw2). split; [done|]. split.
  - unfold fresh_handles. rewrite handles_app. destruct Hid as [[-> Hl]|(cb & i & -> & Hl)].
    + simpl. split_and!; [done|lia|]. intros r Hr%Hb. lia.
    + simpl. split_and!; [|lia|].
      * apply NoDup_cons. split; [|done]. intros (r & Hr1 & Hr2%Hb)%list_elem_of_fmap. simpl in Hr1. destruct r as [[k c] j]. simpl in *. subst k. lia.
      * intros r [->|Hr%Hb]%elem_of_cons; simpl; lia.
  - exists (w1 ++ w2). split.
    + unfold accounts in *. rewrite handles_app, ended_app, app_assoc, Ha1.
      rewrite <- !app_assoc. apply Permutation_app_head. rewrite (Permutation_app_comm w1), app_assoc, Ha2.
      rewrite <- !app_assoc. do 2 apply Permutation_app_head. apply Permutation_app_comm.
    + intros Hn [Hev Hevs]%Forall_cons. destruct (Hw1 Hn Hev) as [-> Hn1]. by apply Hw2.
Qed.

(** *** The assertion of [recordNack] *)

(** An Interest of the application that is in the table has been forwarded somewhere that has
    not sent a Nack. *)
Definition counted (r : RecordId * PendingInterest) : Prop := pi_origin r.2 = APP -> (1 <= pi_nNotNacked r.2)%Z.
(** Only records of the forwarder fail it. *)
Definition app_asserts (out : list FaceOutput) : Prop := forall id origin, FailedAssertion id origin ∈ out -> origin = FORWARDER.
Definition asserts_ok (s' : ClientFace) (out : list FaceOutput) : Prop := Forall counted (cf_pending s') /\ app_asserts out.

Lemma app_asserts_app l l' : app_asserts (l ++ l') <-> app_asserts l /\ app_asserts l'.
Proof. unfold app_asserts. setoid_rewrite elem_of_app. naive_solver. Qed.
Lemma app_asserts_silent l : Forall (fun o => match o with FailedAssertion _ _ => False | _ => True end) l -> app_asserts l.
Proof. intros H id o Hin. rewrite Forall_forall in H. by destruct (H _ Hin). Qed.
Lemma counted_sub (l l' : list (RecordId * PendingInterest)) : (forall r, r ∈ l' -> r ∈ l) -> Forall counted l -> Forall counted l'.
Proof. rewrite !Forall_forall. auto. Qed.
Lemma erase_elem id (l : list (RecordId * PendingInterest)) r : r ∈ rc_erase id l -> r ∈ l.
Proof. intros [Hr _]%list_elem_of_In%filter_In. by apply list_elem_of_In. Qed.
Lemma rc_put_elem {T} id (x : T) l r : r ∈ rc_put id x l -> r = (id, x) \/ r ∈ l.
Proof.
  induction l as [|[k y] l IH]; cbn [rc_put]; [intros ->%list_elem_of_singleton; by left|].
  destruct (k <? id)%N; [|destruct (k =? id)%N]; rewrite ?elem_of_cons; naive_solver.
Qed.

Lemma satisfy_asserts d l : forall a, let '((_, _, calls), l') := removeIf (satisfy_visit d) a l in
  Forall counted l -> app_asserts a.2 -> Forall counted l' /\ app_asserts calls.
Proof.
  induction l as [|[k e] l IH]; intros [[x y] calls]; [done|]. cbn [removeIf snd]. unfold satisfy_visit at 1.
  destruct (matchesData (pi_interest e) d); cbn [negb].
  - destruct (pi_origin e); (match goal with |- context [removeIf _ ?a l] => specialize (IH a) end);
      destruct (removeIf _ _ l) as [[[? ?] c] l']; cbn [snd] in IH; intros [_ Hl]%Forall_cons Hc; apply IH; try done.
    apply app_asserts_app. split; [done|]. apply app_asserts_silent. destruct (pi_callbacks e); by repeat constructor.
  - specialize (IH (x, y, calls)). destruct (removeIf _ _ l) as [[[? ?] c] l']. cbn [snd] in IH.
    intros [He Hl]%Forall_cons Hc. destruct (IH Hl Hc). split; [by constructor|done].
Qed.
Lemma nack_asserts n l : forall a, let '((_, calls), l') := removeIf (nack_visit n) a l in
  Forall counted l -> app_asserts a.2 -> Forall counted l' /\ app_asserts calls.
Proof.
  induction l as [|[k e] l IH]; intros [x calls]; [done|]. cbn [removeIf snd]. unfold nack_visit at 1.
  destruct (matchesInterest (n_interest n) (pi_interest e)); cbn [negb].
  2:{ specialize (IH (x, calls)). destruct (removeIf _ _ l) as [[? c] l']. cbn [snd] in IH.
      intros [He Hl]%Forall_cons Hc. destruct (IH Hl Hc). split; [by constructor|done]. }
  set (check := if recordNack_asserts e then [] else _).
  assert (counted (k, e) -> app_asserts check) as Hcheck.
  { unfold check, recordNack_asserts, counted. cbn [snd]. intros He id o. destruct (Z.leb_spec 0 (pi_nNotNacked e - 1)); [by intros ?%not_elem_of_nil|].
    intros [= -> ->]%list_elem_of_singleton. destruct (pi_origin e); [|done]. specialize (He eq_refl). lia. }
  unfold recordNack at 1. set (e' := mkPending _ _ _ _ _). cbn beta iota zeta.
  destruct (0 <? pi_nNotNacked e - 1)%Z eqn:Epos; cbn beta iota.
  - specialize (IH (x, calls ++ check)). destruct (removeIf _ _ l) as [[? c] l']. cbn [snd] in IH.
    intros [He Hl]%Forall_cons Hc. destruct IH as [H1 H2]; [done|apply app_asserts_app; auto|]. split; [|done].
    constructor; [|done]. intros _. apply Z.ltb_lt in Epos. cbn. lia.
  - destruct (pi_origin e'); (match goal with |- context [removeIf _ ?a l] => specialize (IH a) end);
      destruct (removeIf _ _ l) as [[? c] l']; cbn [snd] in IH; intros [He Hl]%Forall_cons Hc; apply IH; try done; rewrite ?app_asserts_app.
    + split_and!; [done|auto|]. apply app_asserts_silent. destruct (pi_callbacks e'); by repeat constructor.
    + auto.
Qed.

Lemma dispatch_counts i l : forall e calls, app_asserts calls ->
  let '((e', calls'), _) := removeIf (fun '(entry, calls) (_ : RecordId) '(filter, cb) =>
      (if record_doesMatch filter entry
       then (recordForwarding entry, calls ++ [InterestCallback cb filter i])
       else (entry, calls), (false, (filter, cb)))) (e, calls) l in
  pi_origin e' = pi_origin e /\ (pi_nNotNacked e <= pi_nNotNacked e')%Z /\ app_asserts calls'.
Proof.
  induction l as [|[k [filter cb]] l IH]; intros e calls Hc; [done|]. cbn [removeIf]. destruct (record_doesMatch filter e).
  - specialize (IH (recordForwarding e) (calls ++ [InterestCallback cb filter i])). destruct (removeIf _ _ l) as [[e' calls'] l'].
    destruct IH as (H1 & H2 & H3); [|split_and!; [done|simpl in H2; lia|done]].
    apply app_asserts_app. split; [done|]. apply app_asserts_silent. by repeat constructor.
  - specialize (IH e calls Hc). by destruct (removeIf _ _ l) as [[e' calls'] l'].
Qed.
Lemma update_counted f id l : (forall e, (id, e) ∈ l -> counted (id, f e)) ->
  (forall k e, (k, e) ∈ l -> k <> id -> counted (k, e)) -> Forall counted (rc_update f id l).
Proof.
  intros Hf Hl. apply Forall_fmap, Forall_forall. intros [k e] Hin. simpl. destruct (N.eqb_spec k id) as [->|]; [by apply Hf|by apply Hl].
Qed.
Lemma dispatch_asserts id i s : Forall counted (cf_pending s) -> let '(s', out) := dispatchInterest id i s in asserts_ok s' out.
Proof.
  intros Hs. unfold dispatchInterest. destruct (rc_get id (cf_pending s)) as [e|] eqn:E; [|by split; [|by intros ? ? ?%not_elem_of_nil]].
  pose proof (dispatch_counts i (cf_filters s) e [] ltac:(by intros ? ? ?%not_elem_of_nil)) as H.
  destruct (removeIf _ _ _) as [[e' calls] l']. destruct H as (Ho & Hn & Hc). split; [|done]. rewrite Forall_forall in Hs.
  apply update_counted; [|intros; by apply Hs]. intros e0 _. apply rc_get_elem in E. specialize (Hs _ E). unfold counted in *. simpl in *.
  rewrite Ho. intros Ha. specialize (Hs Ha). lia.
Qed.
(** An Interest of the application is counted as forwarded before it is dispatched. *)
Lemma express_asserts id i cb s : Forall counted (cf_pending s) ->
  let s1 := set_pending (rc_put id (pending_app i cb) (cf_pending s)) s in
  let '(s', out) := dispatchInterest id i (set_pending (rc_update recordForwarding id (cf_pending s1)) s1) in asserts_ok s' out.
Proof.
  intros Hs s1. apply dispatch_asserts. simpl. rewrite Forall_forall in Hs. apply update_counted.
  - intros e [[= ->]|He%Hs]%rc_put_elem; unfold counted in *; simpl in *; [lia|]. intros Ho. specialize (He Ho). lia.
  - intros k e [[= -> ->]|He]%rc_put_elem Hk; [done|by apply Hs].
Qed.

Lemma action_asserts a s : Forall counted (cf_pending s) -> let '(s', out) := run_action a s in asserts_ok s' out.
Proof.
  intros Hs. assert (app_asserts []) as Hnil by (by intros ? ? ?%not_elem_of_nil).
  assert (forall l o, app_asserts l -> match o with FailedAssertion _ _ => False | _ => True end -> app_asserts (l ++ [o])) as Hsend.
  { intros l o Hl Ho. apply app_asserts_app. split; [done|]. apply app_asserts_silent. by repeat constructor. }
  destruct a as [id i cb|id i cb|id| |id filter cb|id|d|n]; cbn [run_action]; try (split; [|exact Hnil]; simpl).
  - unfold Impl_expressInterest. pose proof (express_asserts id i cb s Hs) as H. cbn zeta in H |- *. destruct (dispatchInterest _ _ _) as [s' out].
    destruct H as [H1 H2]. split; [done|]. apply (app_asserts_app [_]). split; [|done]. apply app_asserts_silent. by repeat constructor.
  - apply (express_asserts id i cb s Hs).
  - by eapply counted_sub; [apply erase_elem|].
  - constructor.
  - done.
  - done.
  - unfold putData, satisfyPendingInterests. pose proof (satisfy_asserts d (cf_pending s) (false, false, [])) as H.
    destruct (removeIf _ _ _) as [[[? ?] calls] l']. destruct H as [H1 H2]; [done|done|]. split; [done|].
    destruct (_ || _); [by apply Hsend|by rewrite app_nil_r].
  - unfold putNack, nackPendingInterests. pose proof (nack_asserts n (cf_pending s) (None, [])) as H.
    destruct (removeIf _ _ _) as [[o calls] l']. destruct H as [H1 H2]; [done|done|]. split; [done|].
    destruct o; [by apply Hsend|by rewrite app_nil_r].
Qed.
Lemma step_asserts ev s : Forall counted (cf_pending s) -> let '(s', out) := face_step ev s in asserts_ok s' out.
Proof.
  intros Hs. assert (app_asserts []) as Hnil by (by intros ? ? ?%not_elem_of_nil).
  assert (forall o, match o with FailedAssertion _ _ => False | _ => True end -> app_asserts [o]) as Hone
    by (intros o Ho; apply app_asserts_silent; by repeat constructor).
  destruct ev as [i cb|i cb|id| |filter cb|id|d|n| |i|d|n|id]; cbn [face_step]; try by split.
  - split; [done|by apply Hone].
  - split; [done|by apply Hone].
  - destruct (cf_posted s) as [|a l]; [by split|]. by apply action_asserts.
  - apply dispatch_asserts. simpl. rewrite Forall_forall in *. intros r [->|Hr]%rc_put_elem; [done|by apply Hs].
  - unfold satisfyPendingInterests. pose proof (satisfy_asserts d (cf_pending s) (false, false, [])) as H.
    destruct (removeIf _ _ _) as [[[? ?] calls] l']. by apply H.
  - unfold nackPendingInterests. pose proof (nack_asserts n (cf_pending s) (None, [])) as H.
    destruct (removeIf _ _ _) as [[o calls] l']. by apply H.
  - unfold invokeTimeoutCallback. destruct (rc_get id (cf_pending s)) as [e|]; [|by split].
    split; [by eapply counted_sub; [apply erase_elem|]|]. destruct (pi_callbacks e); [by apply Hone|done].
Qed.
Lemma run_asserts evs : forall s, Forall counted (cf_pending s) -> app_asserts (face_run evs s).2.
Proof.
  induction evs as [|ev evs IH]; intros s Hs; cbn [face_run]; [by intros ? ? ?%not_elem_of_nil|].
  pose proof (step_asserts ev s Hs) as H. destruct (face_step ev s) as [s1 o1]. destruct H as [H1 H2]. specialize (IH s1 H1).
  destruct (face_run evs s1) as [s2 o2]. by apply app_asserts_app.
Qed.
End face.
#[global] Arguments ClientFace_new {C F}.

(** C22: Every expressed Interest is answered once. Over any sequence of calls of the
    application (expressing Interests, to the forwarder or only locally, cancelling,
    filters, putting Data and Nacks), of incoming packets, timeouts and runs of the posted
    actions: each record number is handed out once, and the Interests expressed are, as a
    multiset, those for which exactly one of the Data, Nack and timeout callbacks was called
    (with the callbacks and the Interest they were expressed with), those still waiting, and
    those withdrawn, of which there are none if nothing was cancelled. The assertion on the
    destinations that have not sent a Nack fails for no Interest of the application; only one
    that the forwarder passed to it can make it fail ([nack_without_filter]). *)
Theorem callbacks_once {C F : Type} (evs : list (@FaceEvent C F)) :
  let '(s, out) := face_run evs ClientFace_new in
  NoDup ((fun r => r.1.1) <$> handles out) /\
  exists withdrawn, handles out ≡ₚ ended out ++ waiting s ++ withdrawn /\
    (Forall (fun ev => withdraws ev = false) evs -> withdrawn = []) /\
    (forall id origin, FailedAssertion id origin ∈ out -> origin = FORWARDER).
Proof.
  assert (face_ok (@ClientFace_new C F)) as H0 by (split; [constructor|by intros id ?%not_elem_of_nil|constructor]).
  pose proof (face_run_ok evs ClientFace_new H0) as H. pose proof (run_asserts evs ClientFace_new ltac:(constructor)) as Hassert.
  destruct (face_run evs ClientFace_new) as [s out].
  destruct H as (_ & (Hnd & _) & w & Ha & Hw). split; [done|]. exists w. split_and!; [exact Ha| |exact Hassert].
  intros Hevs. apply Hw; [|done]. split; [|intros id]; apply not_elem_of_nil.
Qed.

(** The forwarder passes on an Interest that no filter of the application matches, and the
    application answers it with a Nack: the Nack is not one of a destination that was counted. *)
Example nack_without_filter :
  let n := mkNack sample_interest NO_ROUTE in
  let '(s, out) := face_run [ReceiveInterest sample_interest; PutN n; RunPosted] (ClientFace_new (C := N) (F := unit)) in
  out = [FailedAssertion 1%N FORWARDER; SendNack n].
Proof. by vm_compute. Qed.

(** Two Interests for the same name, one of them local: one Data answers both. *)
Example two_answers :
  let i := sample_interest in
  let '(s, out) := face_run [Express i 1%N; ExpressDumb i 2%N; RunPosted; RunPosted; ReceiveData sample_data; ReceiveData sample_data]
                     (ClientFace_new (F := unit)) in
  out = [GiveHandle 1%N 1%N i; GiveHandle 2%N 2%N i; SendInterest i; DataCallback 1%N 1%N i sample_data; DataCallback 2%N 2%N i sample_data] /\
  waiting s = [].
Proof. by vm_compute. Qed.
