(* ===== verification/FileTransfer.v ===== *)
(** * File transfer (NDN/transmission: FileServer.cpp, FileClient.hpp)

    The producer announces the number of segments of a file under /File/f, pushes all
    segments /Segment/f/k, and answers requests for single segments; the consumer asks for
    /File/f, then waits for every segment and writes the file. The consumer runs on the
    client face of ClientFace.v. The file system is a function from paths to contents;
    memory from [malloc] starts undefined ([None] cells), and an access outside of a buffer,
    or an exception, is [None]. *)

From S2P Require Import Prelude Name Uri Packet ClientFace.

Definition MAX_SEGMENT_SIZE : Z := 8000.

(** [std::to_string] of an [int]. *)
Definition int_to_string (z : Z) : text :=
  if (z <? 0)%Z then x2d :: to_string (Z.to_N (- z)) else to_string (Z.to_N z).

Section transfer.
(** The disk; the implicit digest and the nonce of a packet, which signing and the random
    generator decide; the URI format of the process's environment. *)
Context (files : text -> option (list byte)) (digest : Name -> list byte -> list byte) (nonce : Name -> N) (alt : bool).

Definition make_data (name : Name) (content : list byte) : Data :=
  mkData name content 0 (digest name content) None None false.

(** [Name("/Segment" + fileName + "/" + to_string(segment))]. *)
Definition Segment_name (fileName : text) (segment : Z) : option Name :=
  Name_of_uri (str "/Segment" ++ fileName ++ str "/" ++ int_to_string segment).

(** What [file.seekg(offset, ios::beg)] and [file.read] of [size] bytes give: nothing when
    the position is negative, and at most the rest of the file. *)
Definition read_file (content : list byte) (offset size : Z) : list byte :=
  if (offset <? 0)%Z then [] else take (Z.to_nat size) (drop (Z.to_nat offset) content).

(** ** The producer *)

Record FileServer := mkServer { sharedFileName : text; sharedSegment : Z }.
Definition FileServer_new : FileServer := mkServer [] 0.

Definition getFileSize (fileName : text) : Z :=
  match files fileName with Some f => i32 (Z.of_nat (length f)) | None => -1 end.

Definition onFileInterest (dir : text) (i : Interest) (s : FileServer) : FileServer * Data :=
  let fileName := Name_toUri alt (getSubName (i_name i) 1 1) in
  let fileSize := getFileSize (dir ++ fileName) in
  let segmentCount := Z.quot fileSize MAX_SEGMENT_SIZE in
  let segmentCount := if (Z.rem fileSize MAX_SEGMENT_SIZE =? 0)%Z then segmentCount else (segmentCount + 1)%Z in
  (mkServer fileName segmentCount, make_data (i_name i) (int_to_string segmentCount)).

(** [onSegmentInterest]: the outer [None] is an exception, the inner one no reply. *)
Definition segment_reply (dir fileName : text) (segment : Z) : option (option Data) :=
  match files (dir ++ fileName) with
  | None => Some None
  | Some f =>
      let content := read_file f (i32 (segment * MAX_SEGMENT_SIZE)) MAX_SEGMENT_SIZE in
      name ← Segment_name fileName segment; Some (Some (make_data name content))
  end.
Definition onSegmentInterest (dir : text) (i : Interest) : option (option Data) :=
  let fileName := Name_toUri alt (getSubName (i_name i) 1 1) in
  segmentNumber ← stoi (drop 1 (Name_toUri alt (getSubName (i_name i) 2 1)));
  segment_reply dir fileName segmentNumber.

(** [FilePusher::run], after it was notified: the Data it pushes. *)
Definition pushData (dir fileName : text) (segment : Z) : option (option Data) := segment_reply dir fileName segment.
Fixpoint push_loop (dir fileName : text) (i : Z) (fuel : nat) : option (list Data) :=
  match fuel with
  | O => Some []
  | Datatypes.S fuel' =>
      d ← pushData dir fileName i; rest ← push_loop dir fileName (i + 1) fuel';
      Some (match d with Some d => d :: rest | None => rest end)
  end.
Definition FilePusher_run (dir : text) (s : FileServer) : option (list Data) :=
  push_loop dir (sharedFileName s) 0 (Z.to_nat (sharedSegment s)).

(** ** The consumer

    Buffers and the cells for the last segment's size live in heaps; [m_buffer] and [m_size]
    are indices into them. *)

Record FileClient := mkClient {
  c_buffers : list (list (option byte));
  c_sizes : list (option Z);
  m_buffer : option nat;
  m_size : option nat;
  m_segment : option Z;
  m_count : Z;
}.
Definition FileClient_new : FileClient := mkClient [] [] None None None 0.

Inductive ClientCallback :=
| OnFile (fileName : text)
| OnSegment (segment : Z) (buffer : nat)
| OnLastSegment (segment : Z) (buffer lastSize : nat).

Definition request (name : Name) : Interest := mkInterest name false false (nonce name) 100000 None [] None None None.

(** [buffer[i+bias] = content[i]] for all [i]. *)
Definition store (bias : Z) (content : list byte) (buffer : list (option byte)) : option (list (option byte)) :=
  if (bias <? 0)%Z || (Z.of_nat (length buffer) <? bias + Z.of_nat (length content))%Z then
    match content with [] => Some buffer | _ => None end
  else Some (list_inserts (Z.to_nat bias) (Some <$> content) buffer).

(** The Interests for all segments but the last. *)
Fixpoint segment_requests (fileName : text) (buffer : nat) (segment : Z) (fuel : nat)
  : option (list (Interest * ClientCallback)) :=
  match fuel with
  | O => Some []
  | Datatypes.S fuel' =>
      interestName ← Segment_name fileName segment;
      rest ← segment_requests fileName buffer (segment + 1) fuel';
      Some ((request interestName, OnSegment segment buffer) :: rest)
  end.
Definition onFile (d : Data) (fileName : text) (c : FileClient) : option (FileClient * list (Interest * ClientCallback)) :=
  segmentNumber ← stoi (d_content d ++ [x16]);
  let buffer := length (c_buffers c) in
  let lastSize := length (c_sizes c) in
  let segment := i32 (segmentNumber - 1) in
  let c := mkClient (c_buffers c ++ [replicate (Z.to_nat (segmentNumber * MAX_SEGMENT_SIZE)) None])
                    (c_sizes c ++ [None]) (Some buffer) (Some lastSize) (Some segment) (m_count c) in
  requests ← segment_requests fileName buffer 0 (Z.to_nat segment);
  interestName ← Segment_name fileName segment;
  Some (c, requests ++ [(request interestName, OnLastSegment segment buffer lastSize)]).

Definition onSegment (d : Data) (segment : Z) (buffer : nat) (c : FileClient) : option FileClient :=
  content ← c_buffers c !! buffer;
  content ← store (i32 (segment * MAX_SEGMENT_SIZE)) (d_content d) content;
  Some (mkClient (<[buffer := content]> (c_buffers c)) (c_sizes c) (m_buffer c) (m_size c) (m_segment c) (m_count c + 1)).
Definition onLastSegment (d : Data) (segment : Z) (buffer lastSize : nat) (c : FileClient) : option FileClient :=
  c ← onSegment d segment buffer c;
  Some (mkClient (c_buffers c) (<[lastSize := Some (Z.of_nat (length (d_content d)))]> (c_sizes c))
                 (m_buffer c) (m_size c) (m_segment c) (m_count c)).

(** A Data callback, with the Interests it expresses. *)
Definition onData (cb : ClientCallback) (d : Data) (c : FileClient) : option (FileClient * list (Interest * ClientCallback)) :=
  match cb with
  | OnFile fileName => onFile d fileName c
  | OnSegment segment buffer => (fun c => (c, [])) <$> onSegment d segment buffer c
  | OnLastSegment segment buffer lastSize => (fun c => (c, [])) <$> onLastSegment d segment buffer lastSize c
  end.

(** The application on its face: callbacks run in the order they are called. *)
Definition App : Type := @ClientFace ClientCallback unit * FileClient.
Definition express_all (l : list (Interest * ClientCallback)) (f : @ClientFace ClientCallback unit) : @ClientFace ClientCallback unit :=
  fold_left (fun f r => (expressDumbInterest r.1 r.2 f).1) l f.
Fixpoint run_callbacks (out : list (@FaceOutput ClientCallback unit)) (a : App) : option App :=
  match out with
  | [] => Some a
  | DataCallback _ cb _ d :: out' =>
      let '(f, c) := a in
      '(c, requests) ← onData cb d c; run_callbacks out' (express_all requests f, c)
  | FailedAssertion _ _ :: _ => None
  | _ :: out' => run_callbacks out' a
  end.
Definition app_step (ev : @FaceEvent ClientCallback unit) (a : App) : option App :=
  let '(f, c) := a in
  let '(f, out) := face_step ev f in run_callbacks out (f, c).
Fixpoint app_run (evs : list (@FaceEvent ClientCallback unit)) (a : App) : option App :=
  match evs with
  | [] => Some a
  | ev :: evs' => a ← app_step ev a; app_run evs' a
  end.

(** [getFile] up to [processEvents], and the bytes it writes afterwards. *)
Definition getFile (name : text) (a : App) : option App :=
  interestName ← Name_of_uri name;
  let fileName := Name_toUri alt (getSubName interestName 1 1) in
  app_step (Express (request interestName) (OnFile fileName)) a.
Definition file_written (c : FileClient) : option (list (option byte)) :=
  b ← m_buffer c;
  buffer ← c_buffers c !! b;
  l ← m_size c;
  size ← mjoin (c_sizes c !! l);
  segment ← m_segment c;
  let count := i32 (segment * MAX_SEGMENT_SIZE + size) in
  if (count <? 0)%Z || (Z.of_nat (length buffer) <? count)%Z then None else Some (take (Z.to_nat count) buffer).
End transfer.

(** ** What the producer sends *)

(** The number of segments of a file, and segment [k]. *)
Definition segments (f : list byte) : nat := Z.to_nat ((Z.of_nat (length f) + 7999) / 8000).
Definition chunk (f : list byte) (k : nat) : list byte := read_file f (Z.of_nat k * MAX_SEGMENT_SIZE) MAX_SEGMENT_SIZE.
Definition segment_data (digest : Name -> list byte -> list byte) (c : Component) (f : list byte) (k : nat) : Data :=
  make_data digest (segment_name c k) (chunk f k).

Lemma segments_spec f k : (k < segments f)%nat <-> (Z.of_nat k * 8000 < Z.of_nat (length f))%Z.
Proof.
  unfold segments. assert (0 <= (Z.of_nat (length f) + 7999) / 8000)%Z by (Z.to_euclidean_division_equations; lia).
  split; intros Hk; [assert (Z.of_nat k < (Z.of_nat (length f) + 7999) / 8000)%Z by lia|
    assert (Z.of_nat k < (Z.of_nat (length f) + 7999) / 8000)%Z; [|lia]]; Z.to_euclidean_division_equations; lia.
Qed.
Lemma segments_small f : (Z.of_nat (length f) < 2 ^ 31)%Z -> (Z.of_nat (segments f) * 8000 < 2 ^ 31 + 8000)%Z.
Proof. unfold segments. intros H. rewrite Z2Nat.id; Z.to_euclidean_division_equations; lia. Qed.

Lemma int_to_string_nat k : int_to_string (Z.of_nat k) = to_string (N.of_nat k).
Proof.
  unfold int_to_string. rewrite (proj2 (Z.ltb_ge _ _)) by lia. f_equal. lia.
Qed.

Section producer.
Context (files : text -> option (list byte)) (digest : Name -> list byte -> list byte) (alt : bool).
Context (c : Component) (Hv : ensureValid c = true) (Hx : alt = true -> uri_exact c).

Lemma Segment_name_ok k : Segment_name (Name_toUri alt [c]) (Z.of_nat k) = Some (segment_name c k).
Proof using Hv Hx. unfold Segment_name. rewrite int_to_string_nat. by apply segment_uri_parses. Qed.

Context (dir : text) (f : list byte) (Hf : files (dir ++ Name_toUri alt [c]) = Some f).
Context (Hlen : (0 < length f)%nat) (Hmax : (Z.of_nat (length f) < 2 ^ 31)%Z).

Lemma segment_reply_ok k :
  (k < segments f)%nat -> segment_reply files digest dir (Name_toUri alt [c]) (Z.of_nat k) = Some (Some (segment_data digest c f k)).
Proof using Hf Hlen Hmax Hv Hx.
  intros Hk%segments_spec. unfold segment_reply. rewrite Hf, Segment_name_ok. simpl. do 2 f_equal. unfold segment_data. f_equal.
  unfold chunk. by rewrite i32_small by (unfold MAX_SEGMENT_SIZE; lia).
Qed.

Lemma onFileInterest_ok i a rest s :
  i_name i = a :: c :: rest ->
  onFileInterest files digest alt dir i s =
    (mkServer (Name_toUri alt [c]) (Z.of_nat (segments f)), make_data digest (i_name i) (to_string (N.of_nat (segments f)))).
Proof using Hf Hlen Hmax.
  intros Hi. unfold onFileInterest. rewrite Hi, getSubName_second. unfold getFileSize. rewrite Hf, i32_small by lia.
  assert ((if (Z.rem (Z.of_nat (length f)) MAX_SEGMENT_SIZE =? 0)%Z then Z.quot (Z.of_nat (length f)) MAX_SEGMENT_SIZE
           else (Z.quot (Z.of_nat (length f)) MAX_SEGMENT_SIZE + 1)%Z) = Z.of_nat (segments f)) as ->.
  { unfold MAX_SEGMENT_SIZE, segments. rewrite Z2Nat.id by (Z.to_euclidean_division_equations; lia).
    destruct (Z.eqb_spec (Z.rem (Z.of_nat (length f)) 8000) 0); Z.to_euclidean_division_equations; lia. }
  by rewrite int_to_string_nat.
Qed.

Lemma push_loop_ok n : forall k, (k + n <= segments f)%nat ->
  push_loop files digest dir (Name_toUri alt [c]) (Z.of_nat k) n = Some (segment_data digest c f <$> seq k n).
Proof using Hf Hlen Hmax Hv Hx.
  induction n as [|n IH]; intros k Hk; [done|]. cbn [push_loop]. unfold pushData. rewrite segment_reply_ok by lia. simpl.
  replace (Z.of_nat k + 1)%Z with (Z.of_nat (S k)) by lia. rewrite IH by lia. done.
Qed.

Lemma onSegmentInterest_ok i k :
  alt = true -> i_name i = segment_name c k -> (k < segments f)%nat ->
  onSegmentInterest files digest alt dir i = Some (Some (segment_data digest c f k)).
Proof using Hf Hlen Hmax Hv Hx.
  intros Ha Hi Hk. unfold onSegmentInterest. rewrite Hi. unfold segment_name at 1 2. rewrite getSubName_second, getSubName_third.
  replace (Name_toUri alt [number_component (N.of_nat k)]) with (Name_toUri true [number_component (N.of_nat k)]) by (by rewrite Ha).
  rewrite number_uri. cbn [drop]. rewrite drop_0, <- (app_nil_r (to_string (N.of_nat k))).
  apply segments_spec in Hk as Hk'. rewrite stoi_decimal by (done || lia). cbn [mbind option_bind].
  rewrite nat_N_Z. by apply segment_reply_ok.
Qed.
End producer.

(** ** The consumer's face *)

Section face_lemmas.
Context {C F : Type}.
Abbreviation CFace := (@ClientFace C F).

(** The records of Interests expressed by the application, each sent to one destination. *)
Definition sent_record (r : RecordId * (Interest * C)) : RecordId * PendingInterest :=
  (r.1, mkPending r.2.1 APP (Some r.2.2) 1 None).

Lemma rc_put_last {T} id (x : T) l : Forall (fun r => (r.1 < id)%N) l -> rc_put id x l = l ++ [(id, x)].
Proof.
  induction 1 as [|[k y] l Hk _ IH]; [done|]. simpl in *. by rewrite (proj2 (N.ltb_lt _ _)) by done; rewrite IH.
Qed.
Lemma rc_update_last {T} (g : T -> T) id (x : T) l :
  Forall (fun r => (r.1 < id)%N) l -> rc_update g id (l ++ [(id, x)]) = l ++ [(id, g x)].
Proof.
  induction 1 as [|[k y] l Hk _ IH]; [unfold rc_update; simpl; by rewrite N.eqb_refl|]. simpl in Hk.
  change (rc_update g id (((k, y) :: l) ++ [(id, x)])) with ((if (k =? id)%N then (k, g y) else (k, y)) :: rc_update g id (l ++ [(id, x)])).
  by rewrite IH, (proj2 (N.eqb_neq _ _)) by lia.
Qed.
Lemma rc_get_last {T} id (x : T) l : Forall (fun r => (r.1 < id)%N) l -> rc_get id (l ++ [(id, x)]) = Some x.
Proof.
  induction 1 as [|[k y] l Hk _ IH]; unfold rc_get in *; simpl in *; [by rewrite N.eqb_refl|].
  by rewrite (proj2 (N.eqb_neq _ _)) by lia.
Qed.

(** Without Interest filters, an expressed Interest is entered last. *)
Lemma express_dumb_idle id i cb (s : CFace) :
  cf_filters s = [] -> Forall (fun r => (r.1 < id)%N) (cf_pending s) ->
  Impl_expressDumbInterest id i cb s = (set_pending (cf_pending s ++ [sent_record (id, (i, cb))]) s, []).
Proof.
  intros Hf Hl. unfold Impl_expressDumbInterest, dispatchInterest. simpl.
  rewrite rc_put_last, rc_update_last, rc_get_last, Hf by done. simpl. by rewrite rc_update_last.
Qed.

(** The Data callbacks, where all records are the application's. *)
Lemma satisfy_sent (s : CFace) d l :
  cf_pending s = sent_record <$> l ->
  let m := fun r : RecordId * (Interest * C) => matchesData r.2.1 d in
  let '(s', calls, _) := satisfyPendingInterests d s in
  s' = set_pending (sent_record <$> List.filter (fun r => negb (m r)) l) s /\
  calls = (fun r => DataCallback r.1 r.2.2 r.2.1 d) <$> List.filter m l.
Proof.
  intros Hp m. unfold satisfyPendingInterests. rewrite Hp.
  assert (forall app fwd calls, exists app', removeIf (satisfy_visit (F := F) d) (app, fwd, calls) (sent_record <$> l) =
    ((app', fwd, calls ++ ((fun r => DataCallback r.1 r.2.2 r.2.1 d) <$> List.filter m l)),
     sent_record <$> List.filter (fun r => negb (m r)) l)) as H.
  { clear Hp. induction l as [|[id [i cb]] l IH]; intros app fwd calls; [exists app; by rewrite app_nil_r|].
    destruct (matchesData i d) eqn:Em; assert (m (id, (i, cb)) = matchesData i d) as Hm by done; rewrite Em in Hm;
      cbn [fmap list_fmap removeIf sent_record List.filter fst snd]; rewrite Hm; unfold satisfy_visit at 1; cbn; rewrite Em; cbn.
    - destruct (IH true fwd (calls ++ [DataCallback id cb i d])) as [a E]. rewrite E. exists a. by rewrite <- app_assoc.
    - destruct (IH app fwd calls) as [a E]. rewrite E. by exists a. }
  destruct (H false false []) as [a E]. rewrite E. done.
Qed.
End face_lemmas.

(** ** The consumer *)

Lemma read_file_length f off size : (0 <= off)%Z -> length (read_file f off size) = Nat.min (Z.to_nat size) (length f - Z.to_nat off).
Proof. intros H. unfold read_file. rewrite (proj2 (Z.ltb_ge _ _)) by lia. by rewrite length_take, length_drop. Qed.
Lemma read_file_lookup f off size j : (0 <= off)%Z -> (Z.of_nat j < size)%Z -> read_file f off size !! j = f !! (Z.to_nat off + j)%nat.
Proof. intros H Hj. unfold read_file. rewrite (proj2 (Z.ltb_ge _ _)) by lia. rewrite lookup_take_lt by lia. apply lookup_drop. Qed.

Lemma matchesData_exact i d :
  i_canBePrefix i = false -> i_mustBeFresh i = false -> length (i_name i) <> (length (d_name d) + 1)%nat ->
  matchesData i d = Name_equals (i_name i) (d_name d).
Proof.
  intros Hc Hf Hl. unfold matchesData. rewrite (proj2 (Nat.eqb_neq _ _) Hl), Hc, Hf. by destruct (Name_equals _ _).
Qed.

Section consumer.
Context (digest : Name -> list byte -> list byte) (nonce : Name -> N) (alt : bool).
Context (c : Component) (Hv : ensureValid c = true) (Hx : alt = true -> uri_exact c).
Context (f : list byte) (Hlen : (0 < length f)%nat) (Hmax : (Z.of_nat (length f) < 2 ^ 31)%Z).
Abbreviation n := (segments f).
Abbreviation fileName := (Name_toUri alt [c]).

Lemma segments_pos : (0 < n)%nat.
Proof using Hlen. apply segments_spec. lia. Qed.
Lemma segments_max : (Z.of_nat n < 2 ^ 31)%Z.
Proof using Hlen Hmax. pose proof (segments_small f Hmax). lia. Qed.

(** The request for segment [k], with the buffer and the size cell at [b] and [l]. *)
Definition segment_request (b l : nat) (k : nat) : Interest * ClientCallback :=
  (request nonce (segment_name c k),
   if (S k =? n)%nat then OnLastSegment (Z.of_nat k) b l else OnSegment (Z.of_nat k) b).

Lemma segment_requests_ok b m : forall k,
  segment_requests nonce fileName b (Z.of_nat k) m =
  Some ((fun j => (request nonce (segment_name c j), OnSegment (Z.of_nat j) b)) <$> seq k m).
Proof using Hv Hx Hlen.
  induction m as [|m IH]; intros k; [done|]. cbn [segment_requests]. rewrite Segment_name_ok by done.
  replace (Z.of_nat k + 1)%Z with (Z.of_nat (S k)) by lia. rewrite IH. done.
Qed.

Lemma onFile_ok d a :
  d_content d = to_string (N.of_nat n) ->
  let b := length (c_buffers a) in let l := length (c_sizes a) in
  onFile nonce d fileName a =
  Some (mkClient (c_buffers a ++ [replicate (Z.to_nat (Z.of_nat n * MAX_SEGMENT_SIZE)) None]) (c_sizes a ++ [None])
                 (Some b) (Some l) (Some (Z.of_nat (n - 1))) (m_count a),
        segment_request b l <$> seq 0 n).
Proof using Hv Hx Hlen Hmax.
  intros Hd b l. pose proof segments_pos. pose proof segments_max. unfold onFile.
  rewrite Hd, stoi_decimal by (done || lia). cbn [mbind option_bind]. rewrite nat_N_Z.
  replace (i32 (Z.of_nat n - 1)) with (Z.of_nat (n - 1)) by (rewrite i32_small; lia).
  rewrite Nat2Z.id, (segment_requests_ok _ _ 0), Segment_name_ok by done. cbn [mbind option_bind]. do 2 f_equal.
  replace (seq 0 n) with (seq 0 (n - 1) ++ [n - 1]%nat).
  - rewrite fmap_app. f_equal.
    + apply list_fmap_ext. intros i j Hj%lookup_seq. unfold segment_request. by rewrite (proj2 (Nat.eqb_neq _ _)) by lia.
    + simpl. unfold segment_request. by rewrite (proj2 (Nat.eqb_eq _ _)) by lia.
  - replace n with (S (n - 1)) at 3 by lia. by rewrite seq_S.
Qed.

(** The Interests that wait, as records numbered from [id]. *)
Definition numbered (id : N) (b l : nat) (k : nat) : RecordId * (Interest * ClientCallback) :=
  ((id + N.of_nat k)%N, segment_request b l k).
Definition posts (id : N) (b l : nat) (k : nat) : @Action ClientCallback unit :=
  DoExpressDumb (id + N.of_nat k)%N (segment_request b l k).1 (segment_request b l k).2.

Lemma express_all_ok id b l m : forall k (s : @ClientFace ClientCallback unit),
  (cf_lastId s + 1 = id + N.of_nat k)%N ->
  express_all (segment_request b l <$> seq k m) s =
  mkClientFace (cf_pending s) (cf_lastId s + N.of_nat m)%N (cf_filters s) (cf_lastFilterId s) (cf_posted s ++ (posts id b l <$> seq k m)).
Proof using Hlen.
  induction m as [|m IH]; intros k s Hk.
  - simpl. destruct s. simpl. by rewrite N.add_0_r, app_nil_r.
  - cbn [seq fmap list_fmap]. unfold express_all in *. cbn [fold_left].
    rewrite IH by (simpl; lia). simpl. rewrite <- app_assoc. f_equal; [lia|]. simpl. do 2 f_equal. unfold posts. by rewrite Hk.
Qed.

Lemma run_posted_all id b l m : forall k (s : @ClientFace ClientCallback unit) a,
  cf_filters s = [] -> cf_posted s = posts id b l <$> seq k m -> cf_pending s = sent_record <$> (numbered id b l <$> seq 0 k) ->
  app_run nonce (replicate m RunPosted) (s, a) =
  Some (set_posted [] (set_pending (sent_record <$> (numbered id b l <$> seq 0 (k + m))) s), a).
Proof using Hlen.
  induction m as [|m IH]; intros k s a Hf Hp Hq.
  - simpl. rewrite Nat.add_0_r, <- Hq. destruct s. simpl in *. by rewrite Hp.
  - cbn [replicate app_run]. unfold app_step at 1. cbn [face_step]. rewrite Hp. cbn [seq fmap list_fmap run_action posts].
    rewrite express_dumb_idle; [|done|].
    + cbn [run_callbacks mbind option_bind]. rewrite (IH (S k)); [|done|done|].
      * rewrite Nat.add_succ_comm. by destruct s.
      * rewrite seq_S, !fmap_app. simpl. by rewrite Hq.
    + cbn [cf_pending set_posted]. rewrite Hq. apply Forall_fmap, Forall_fmap, Forall_forall. intros j Hj%elem_of_seq. simpl. lia.
Qed.

(** ** Receiving the segments *)

(** What has arrived so far is in the buffer; [rem] are the segments still waited for. *)
Record receiving (id : N) (b l : nat) (rem : list nat) (s : @ClientFace ClientCallback unit) (a : FileClient) : Prop := {
  rv_posted : cf_posted s = [];
  rv_pending : cf_pending s = sent_record <$> (numbered id b l <$> rem);
  rv_rem : NoDup rem /\ forall k, k ∈ rem -> (k < n)%nat;
  rv_buffer : m_buffer a = Some b /\ exists buf, c_buffers a !! b = Some buf /\ Z.of_nat (length buf) = (Z.of_nat n * MAX_SEGMENT_SIZE)%Z /\
    forall p x, f !! p = Some x -> Z.to_nat (Z.of_nat p / MAX_SEGMENT_SIZE) ∉ rem -> buf !! p = Some (Some x);
  rv_size : m_size a = Some l /\ exists z, c_sizes a !! l = Some z /\
    ((n - 1)%nat ∉ rem -> z = Some (Z.of_nat (length (chunk f (n - 1)))));
  rv_segment : m_segment a = Some (Z.of_nat (n - 1));
}.

Lemma matches_segment b l j k :
  matchesData (segment_request b l k).1 (segment_data digest c f j) = (k =? j)%nat.
Proof using Hlen.
  rewrite matchesData_exact by done. destruct (Nat.eqb_spec k j) as [->|Hne]; [by apply Name_equals_spec|].
  apply not_true_iff_false. intros E%Name_equals_spec. by apply segment_name_inj in E.
Qed.

Lemma filter_segments id b l rem j (pos : bool) :
  List.filter (fun r : RecordId * (Interest * ClientCallback) =>
     (if pos then fun x => x else negb) (matchesData r.2.1 (segment_data digest c f j))) (numbered id b l <$> rem) =
  numbered id b l <$> List.filter (fun k => (if pos then fun x => x else negb) (k =? j)%nat) rem.
Proof using Hlen.
  induction rem as [|k rem IH]; [done|]. cbn [fmap list_fmap List.filter]. rewrite IH. unfold numbered at 1. cbn [snd].
  rewrite matches_segment. by destruct (_ (k =? j)%nat).
Qed.

Lemma filter_here rem j : NoDup rem -> List.filter (fun k => (k =? j)%nat) rem = if bool_decide (j ∈ rem) then [j] else [].
Proof using Type.
  induction 1 as [|k rem Hk _ IH]; [done|]. cbn [List.filter]. rewrite IH. destruct (Nat.eqb_spec k j) as [->|Hne].
  - rewrite (bool_decide_false _ Hk). by rewrite bool_decide_true by left.
  - destruct (bool_decide_reflect (j ∈ rem)); [by rewrite bool_decide_true by by right|].
    rewrite bool_decide_false; [done|]. intros [?|?]%elem_of_cons; [congruence|done].
Qed.
Lemma elem_of_rest rem j k : k ∈ List.filter (fun k => negb (k =? j)%nat) rem <-> k ∈ rem /\ k <> j.
Proof using Type. rewrite list_elem_of_In, filter_In, <- list_elem_of_In, negb_true_iff, Nat.eqb_neq. done. Qed.
Lemma nodup_rest rem j : NoDup rem -> NoDup (List.filter (fun k => negb (k =? j)%nat) rem).
Proof using Type.
  induction 1 as [|k rem Hk _ IH]; [constructor|]. simpl. destruct (negb _); [|done]. constructor; [|done].
  rewrite elem_of_rest. tauto.
Qed.

(** A segment goes to its place in the buffer. *)
Lemma chunk_length j : (j < n)%nat -> Z.of_nat (length (chunk f j)) = Z.min 8000 (Z.of_nat (length f) - Z.of_nat j * 8000).
Proof using Hlen. intros Hj%segments_spec. unfold chunk, MAX_SEGMENT_SIZE. rewrite read_file_length by lia. lia. Qed.

Lemma store_ok j buf :
  (j < n)%nat -> Z.of_nat (length buf) = (Z.of_nat n * MAX_SEGMENT_SIZE)%Z ->
  store (i32 (Z.of_nat j * MAX_SEGMENT_SIZE)) (chunk f j) buf =
  Some (list_inserts (Z.to_nat (Z.of_nat j * MAX_SEGMENT_SIZE)) (Some <$> chunk f j) buf).
Proof using Hlen Hmax.
  intros Hj Hb. pose proof (chunk_length j Hj) as Hl. apply segments_spec in Hj as Hj'. unfold MAX_SEGMENT_SIZE in *.
  rewrite i32_small by lia. unfold store. rewrite (proj2 (Z.ltb_ge _ _)) by lia. by rewrite (proj2 (Z.ltb_ge _ _)) by lia.
Qed.

Lemma stored_lookup j buf p x :
  (j < n)%nat -> Z.of_nat (length buf) = (Z.of_nat n * MAX_SEGMENT_SIZE)%Z -> f !! p = Some x ->
  list_inserts (Z.to_nat (Z.of_nat j * MAX_SEGMENT_SIZE)) (Some <$> chunk f j) buf !! p =
  if (Z.to_nat (Z.of_nat p / MAX_SEGMENT_SIZE) =? j)%nat then Some (Some x) else buf !! p.
Proof using Hlen.
  clear digest. intros Hj Hb Hp. pose proof (chunk_length j Hj) as Hl. apply segments_spec in Hj as Hj'.
  pose proof (lookup_lt_Some _ _ _ Hp) as Hpl. unfold MAX_SEGMENT_SIZE in *.
  assert (Z.to_nat (Z.of_nat p / 8000) = j <-> (Z.of_nat j * 8000 <= Z.of_nat p < Z.of_nat j * 8000 + 8000)%Z) as Hd
    by (Z.to_euclidean_division_equations; lia).
  destruct (Nat.eqb_spec (Z.to_nat (Z.of_nat p / 8000)) j) as [E|E].
  - rewrite list_lookup_inserts by (rewrite ?length_fmap; lia). rewrite list_lookup_fmap. unfold chunk, MAX_SEGMENT_SIZE.
    rewrite read_file_lookup by lia. replace (_ + _)%nat with p by lia. by rewrite Hp.
  - destruct (decide (Z.of_nat p < Z.of_nat j * 8000)%Z); [by apply list_lookup_inserts_lt; lia|].
    apply list_lookup_inserts_ge. rewrite length_fmap. lia.
Qed.

(** The callback of a segment. *)
Lemma onData_segment id b l rem j s s' a :
  (j < n)%nat -> receiving id b l rem s a ->
  let rem' := List.filter (fun k => negb (k =? j)%nat) rem in
  cf_posted s' = [] -> cf_pending s' = sent_record <$> (numbered id b l <$> rem') ->
  exists a', onData nonce (segment_request b l j).2 (segment_data digest c f j) a = Some (a', []) /\ receiving id b l rem' s' a'.
Proof using Hlen Hmax.
  intros Hj [H1 H2 [Hnd Hrem] (Hb & buf & Hbuf & Hbl & Hdone) (Hs & z & Hz & Hlast) Hseg] rem' Hp' Hq'.
  set (buf' := list_inserts (Z.to_nat (Z.of_nat j * MAX_SEGMENT_SIZE)) (Some <$> chunk f j) buf).
  set (a1 := mkClient (<[b := buf']> (c_buffers a)) (c_sizes a) (m_buffer a) (m_size a) (m_segment a) (m_count a + 1)).
  assert (onSegment (segment_data digest c f j) (Z.of_nat j) b a = Some a1) as E.
  { unfold onSegment. rewrite Hbuf. cbn [mbind option_bind segment_data make_data d_content]. by rewrite store_ok. }
  assert (NoDup rem' /\ forall k, k ∈ rem' -> (k < n)%nat) as Hrem'.
  { split; [by apply nodup_rest|]. intros k [Hk _]%elem_of_rest. auto. }
  assert (c_buffers a1 !! b = Some buf') as Hbuf' by (apply list_lookup_insert_eq; by eapply lookup_lt_Some).
  assert (Z.of_nat (length buf') = (Z.of_nat n * MAX_SEGMENT_SIZE)%Z) as Hbl' by (unfold buf'; by rewrite length_inserts).
  assert (forall p x, f !! p = Some x -> Z.to_nat (Z.of_nat p / MAX_SEGMENT_SIZE) ∉ rem' -> buf' !! p = Some (Some x)) as Hdone'.
  { intros p x Hp Hk. unfold buf'. rewrite (stored_lookup j buf p x) by done.
    destruct (Nat.eqb_spec (Z.to_nat (Z.of_nat p / MAX_SEGMENT_SIZE)) j); [done|]. apply Hdone; [done|]. intros Hin. apply Hk, elem_of_rest. done. }
  unfold segment_request. cbn [snd]. destruct (Nat.eqb_spec (S j) n) as [En|En]; cbn [onData].
  - unfold onLastSegment. rewrite E. cbn [mbind option_bind fmap option_fmap option_map].
    eexists. split; [done|]. split; [done|done|done|split; [done|]; by exists buf'| |done].
    split; [done|]. eexists. split; [apply list_lookup_insert_eq; by eapply lookup_lt_Some|]. intros _. simpl. by replace (n - 1)%nat with j by lia.
  - rewrite E. cbn [fmap option_fmap option_map]. exists a1. split; [done|]. split; [done|done|done|split; [done|]; by exists buf'| |done].
    split; [done|]. exists z. split; [done|]. intros Hk. apply Hlast. intros Hin. apply Hk, elem_of_rest. split; [done|lia].
Qed.

Lemma receive_segment id b l rem j s a :
  (j < n)%nat -> receiving id b l rem s a ->
  exists s' a', app_step nonce (ReceiveData (segment_data digest c f j)) (s, a) = Some (s', a') /\
    receiving id b l (List.filter (fun k => negb (k =? j)%nat) rem) s' a'.
Proof using Hlen Hmax.
  intros Hj Hr. pose proof Hr as [Hp Hq [Hnd Hrem] _ _ _].
  pose proof (satisfy_sent s (segment_data digest c f j) _ Hq) as H. cbv beta zeta in H.
  rewrite (filter_segments id b l rem j false), (filter_segments id b l rem j true), filter_here in H by done.
  cbn [app_step face_step]. destruct (satisfyPendingInterests _ s) as [[s' calls] x]. destruct H as [-> ->]. cbv iota beta.
  destruct (onData_segment id b l rem j s (set_pending (sent_record <$> (numbered id b l <$> List.filter (fun k => negb (k =? j)%nat) rem)) s) a Hj Hr Hp eq_refl)
    as (a' & E & H).
  destruct (bool_decide_reflect (j ∈ rem)) as [Hin|Hin].
  - cbn [fmap list_fmap run_callbacks numbered fst snd]. rewrite E. cbn [mbind option_bind run_callbacks express_all fold_left].
    eexists. exists a'. split; [done|exact H].
  - cbn [fmap list_fmap run_callbacks]. exists (set_pending (sent_record <$> (numbered id b l <$> List.filter (fun k => negb (k =? j)%nat) rem)) s), a. split; [done|].
    replace (List.filter (fun k => negb (k =? j)%nat) rem) with rem; [by destruct Hr|].
    clear - Hin. induction rem as [|k rem IH]; [done|]. apply not_elem_of_cons in Hin as [Hk Hin]. simpl.
    rewrite (proj2 (Nat.eqb_neq k j)) by done. simpl. by rewrite <- IH.
Qed.

Lemma receive_all id b l ks : forall rem s a,
  Forall (fun k => (k < n)%nat) ks -> receiving id b l rem s a ->
  exists s' a' rem', app_run nonce ((fun k => ReceiveData (segment_data digest c f k)) <$> ks) (s, a) = Some (s', a') /\
    receiving id b l rem' s' a' /\ forall k, k ∈ rem' <-> k ∈ rem /\ k ∉ ks.
Proof using Hlen Hmax.
  induction ks as [|j ks IH]; intros rem s a Hks Hr.
  { exists s, a, rem. split_and!; [done|done|]. intros k. split; [intros ?; split; [done|apply not_elem_of_nil]|by intros [? _]]. }
  apply Forall_cons in Hks as [Hj Hks]. destruct (receive_segment id b l rem j s a Hj Hr) as (s1 & a1 & E & Hr1).
  destruct (IH _ s1 a1 Hks Hr1) as (s2 & a2 & rem2 & E2 & Hr2 & Hrem). exists s2, a2, rem2. split_and!; [|done|].
  - cbn [fmap list_fmap app_run]. rewrite E. exact E2.
  - intros k. rewrite Hrem, elem_of_rest, not_elem_of_cons. tauto.
Qed.

Lemma received_all id b l s a : receiving id b l [] s a -> file_written a = Some (Some <$> f) /\ cf_pending s = [].
Proof using Hlen Hmax.
  intros [_ Hq _ (Hb & buf & Hbuf & Hbl & Hdone) (Hs & z & Hz & Hlast) Hseg]. split; [|done].
  pose proof segments_pos as Hn. assert (n - 1 < n)%nat as Hn1 by lia. pose proof (chunk_length _ Hn1) as Hc. apply segments_spec in Hn1.
  assert (~ (n < n)%nat) as Hn2 by lia. rewrite segments_spec in Hn2. unfold MAX_SEGMENT_SIZE in *.
  unfold file_written. rewrite Hb, Hs, Hseg. cbn [mbind option_bind]. rewrite Hbuf, Hz. cbn [mbind option_bind mjoin option_join].
  rewrite Hlast by apply not_elem_of_nil. cbn [mbind option_bind]. unfold MAX_SEGMENT_SIZE.
  replace (Z.of_nat (n - 1) * 8000 + Z.of_nat (length (chunk f (n - 1))))%Z with (Z.of_nat (length f)) by lia.
  rewrite i32_small by lia. rewrite (proj2 (Z.ltb_ge _ _)) by lia. rewrite (proj2 (Z.ltb_ge _ _)) by lia. cbn [orb].
  f_equal. rewrite Nat2Z.id. apply list_eq. intros p. rewrite list_lookup_fmap. destruct (f !! p) as [x|] eqn:Ep.
  - pose proof (lookup_lt_Some _ _ _ Ep). rewrite lookup_take_lt by done. apply Hdone; [done|apply not_elem_of_nil].
  - apply lookup_ge_None in Ep. rewrite lookup_take_ge by done. done.
Qed.

(** The face when nothing is going on, and the announcement. *)
Definition idle (s : @ClientFace ClientCallback unit) : Prop := cf_posted s = [] /\ cf_pending s = [] /\ cf_filters s = [].
Definition file_name : Name := [generic (str "File"); c].
Definition announcement : Data := make_data digest file_name (to_string (N.of_nat n)).

Lemma express_idle id i cb (s : @ClientFace ClientCallback unit) :
  cf_filters s = [] -> cf_pending s = [] ->
  Impl_expressInterest id i cb s = (set_pending [sent_record (id, (i, cb))] s, [SendInterest i]).
Proof using Type.
  intros Hf Hp. assert (Forall (fun r : RecordId * PendingInterest => (r.1 < id)%N) (cf_pending s)) as Hl by (by rewrite Hp).
  pose proof (express_dumb_idle id i cb s Hf Hl) as H. unfold Impl_expressDumbInterest in H. unfold Impl_expressInterest.
  cbv zeta in H |- *. rewrite H. by rewrite Hp.
Qed.

Lemma announce name s0 a0 :
  Name_of_uri name = Some file_name -> idle s0 ->
  let b := length (c_buffers a0) in let l := length (c_sizes a0) in
  exists s1 s2 a2, getFile nonce alt name (s0, a0) = Some (s1, a0) /\
    app_run nonce (RunPosted :: ReceiveData announcement :: replicate n RunPosted) (s1, a0) = Some (s2, a2) /\
    receiving (cf_lastId s0 + 2) b l (seq 0 n) s2 a2.
Proof using Hv Hx Hlen Hmax.
  intros Hname (Hp & Hq & Hf) b l. pose proof segments_pos as Hn. unfold getFile. rewrite Hname. cbn [mbind option_bind].
  unfold file_name at 2. rewrite getSubName_second. cbn [app_step face_step expressInterest run_callbacks].
  set (i := request nonce file_name). set (cb := OnFile fileName). set (s1 := post _ _).
  set (s2 := set_pending [sent_record ((cf_lastId s0 + 1)%N, (i, cb))] (set_posted [] s1)).
  assert (app_step nonce RunPosted (s1, a0) = Some (s2, a0)) as E1.
  { unfold app_step. cbn [face_step]. assert (cf_posted s1 = [DoExpress (cf_lastId s0 + 1)%N i cb]) as -> by (unfold s1; simpl; by rewrite Hp).
    cbn [run_action]. by rewrite express_idle. }
  set (a3 := mkClient (c_buffers a0 ++ [replicate (Z.to_nat (Z.of_nat n * MAX_SEGMENT_SIZE)) None]) (c_sizes a0 ++ [None])
                      (Some b) (Some l) (Some (Z.of_nat (n - 1))) (m_count a0)).
  set (s3 := express_all (segment_request b l <$> seq 0 n) (set_pending [] s2)).
  assert (app_step nonce (ReceiveData announcement) (s2, a0) = Some (s3, a3)) as E2.
  { pose proof (satisfy_sent s2 announcement [((cf_lastId s0 + 1)%N, (i, cb))] eq_refl) as H. cbv beta zeta in H.
    assert (matchesData i announcement = true) as Hm by (rewrite matchesData_exact by done; by apply Name_equals_spec).
    cbn [List.filter fst snd] in H. rewrite Hm in H. cbn [negb fmap list_fmap fst snd] in H.
    unfold app_step. cbn [face_step]. destruct (satisfyPendingInterests announcement s2) as [[s' calls] x].
    destruct H as [-> ->]. cbn [run_callbacks]. unfold cb. cbn [onData]. by rewrite (onFile_ok announcement a0 eq_refl). }
  exists s1. eexists _, a3. split; [done|]. cbn [app_run]. rewrite E1. cbn [mbind option_bind]. rewrite E2. cbn [mbind option_bind].
  unfold s3. rewrite (express_all_ok (cf_lastId s0 + 2) b l n 0) by (simpl; lia).
  rewrite (run_posted_all (cf_lastId s0 + 2) b l n 0) by done. split; [done|].
  split; [done|done|split; [apply NoDup_seq|intros k Hk%elem_of_seq; lia]| | |done].
  - split; [done|]. eexists. split; [unfold b; simpl; by rewrite lookup_app_r, Nat.sub_diag by lia|].
    rewrite length_replicate. unfold MAX_SEGMENT_SIZE. split; [lia|]. intros p y Hpy Hno. exfalso. apply Hno, elem_of_seq. split; [lia|].
    apply lookup_lt_Some in Hpy. apply segments_spec. Z.to_euclidean_division_equations; lia.
  - split; [done|]. exists None. split; [unfold l; simpl; by rewrite lookup_app_r, Nat.sub_diag by lia|].
    intros Hno. exfalso. apply Hno, elem_of_seq. lia.
Qed.
End consumer.

Lemma app_run_app nonce evs1 evs2 a : app_run nonce (evs1 ++ evs2) a = (a ← app_run nonce evs1 a; app_run nonce evs2 a).
Proof. revert a. induction evs1 as [|ev evs IH]; intros a; [done|]. cbn [app app_run]. destruct (app_step nonce ev a); simpl; [apply IH|done]. Qed.

(** ** The transfer *)

(** C8: A file of 1 to 2^31-1 bytes, shared under a one-component name, is transferred. The
    producer announces its number of segments, pushes all of them in order, and answers a
    request for any one of them (in the alternate URI format) with the same packet. The
    consumer, on a face without other work, asks for the file; after the announcement and
    once its Interests are expressed, the segments may arrive in any order, more than once:
    when each has arrived, no Interest is pending and what the consumer writes is the file,
    with no byte of uninitialised memory. *)
Theorem file_transfer files digest nonce dir salt calt c f (name : text) ks s0 a0 :
  ensureValid c = true -> (salt = true \/ calt = true -> uri_exact c) ->
  files (dir ++ Name_toUri salt [c]) = Some f -> (0 < length f)%nat -> (Z.of_nat (length f) < 2 ^ 31)%Z ->
  Name_of_uri name = Some (file_name c) -> idle s0 -> (forall k, k ∈ ks <-> (k < segments f)%nat) ->
  exists server announced,
    (forall s, onFileInterest files digest salt dir (request nonce (file_name c)) s = (server, announced)) /\
    FilePusher_run files digest dir server = Some (segment_data digest c f <$> seq 0 (segments f)) /\
    (salt = true -> forall k, (k < segments f)%nat ->
       onSegmentInterest files digest salt dir (request nonce (segment_name c k)) = Some (Some (segment_data digest c f k))) /\
    exists s1 s2 a2,
      getFile nonce calt name (s0, a0) = Some (s1, a0) /\
      app_run nonce (RunPosted :: ReceiveData announced :: replicate (segments f) RunPosted
                     ++ ((fun k => ReceiveData (segment_data digest c f k)) <$> ks)) (s1, a0) = Some (s2, a2) /\
      cf_pending s2 = [] /\ file_written a2 = Some (Some <$> f).
Proof.
  intros Hv Hx Hf Hlen Hmax Hname Hidle Hks.
  assert (salt = true -> uri_exact c) as Hxs by auto. assert (calt = true -> uri_exact c) as Hxc by auto.
  exists (mkServer (Name_toUri salt [c]) (Z.of_nat (segments f))), (announcement digest c f). split_and!.
  - intros s. by apply onFileInterest_ok with (a := generic (str "File")) (rest := []).
  - unfold FilePusher_run. cbn [sharedFileName sharedSegment]. rewrite Nat2Z.id. by apply (push_loop_ok _ _ _ c Hv Hxs dir f Hf Hlen Hmax _ 0).
  - intros Hs k Hk. by apply onSegmentInterest_ok.
  - destruct (announce digest nonce calt c Hv Hxc f Hlen Hmax name s0 a0 Hname Hidle) as (s1 & s2 & a2 & E1 & E2 & H).
    destruct (receive_all digest nonce c f Hlen Hmax _ _ _ ks _ s2 a2 (proj2 (Forall_forall _ _) (fun k Hk => proj1 (Hks k) Hk)) H)
      as (s3 & a3 & rem & E3 & H3 & Hrem).
    assert (rem = []) as ->.
    { destruct rem as [|k rem]; [done|]. exfalso. destruct (proj1 (Hrem k)) as [Hk Hk']; [by left|].
      apply Hk', Hks. apply elem_of_seq in Hk. lia. }
    apply received_all in H3 as [Hw Hq]; [|done..]. exists s1, s3, a3. split_and!; [done| |done|done].
    match goal with |- app_run _ ?evs _ = _ =>
      change evs with ((@RunPosted ClientCallback unit :: ReceiveData (announcement digest c f) :: replicate (segments f) RunPosted)
                       ++ ((fun k => ReceiveData (segment_data digest c f k)) <$> ks)) end.
    rewrite app_run_app, E2. exact E3.
Qed.

(** A file of three bytes. *)
Definition sample_files (path : text) : option (list byte) :=
  if bool_decide (path = str "/srv/f") then Some [x01; x02; x03] else None.
Lemma file_transfer_witness :
  exists server announced,
    (forall s, onFileInterest sample_files (fun _ _ => []) true (str "/srv") (request (fun _ => 0%N) (file_name (generic (str "f")))) s = (server, announced)) /\
    FilePusher_run sample_files (fun _ _ => []) (str "/srv") server =
      Some (segment_data (fun _ _ => []) (generic (str "f")) [x01; x02; x03] <$> seq 0 (segments [x01; x02; x03])) /\
    (true = true -> forall k, (k < segments [x01; x02; x03])%nat ->
       onSegmentInterest sample_files (fun _ _ => []) true (str "/srv") (request (fun _ => 0%N) (segment_name (generic (str "f")) k)) =
         Some (Some (segment_data (fun _ _ => []) (generic (str "f")) [x01; x02; x03] k))) /\
    exists s1 s2 a2,
      getFile (fun _ => 0%N) true (str "/File/f") (ClientFace_new, FileClient_new) = Some (s1, FileClient_new) /\
      app_run (fun _ => 0%N) (RunPosted :: ReceiveData announced :: replicate (segments [x01; x02; x03]) RunPosted
         ++ ((fun k => ReceiveData (segment_data (fun _ _ => []) (generic (str "f")) [x01; x02; x03] k)) <$> [0%nat; 0%nat])) (s1, FileClient_new) = Some (s2, a2) /\
      cf_pending s2 = [] /\ file_written a2 = Some [Some x01; Some x02; Some x03].
Proof.
  apply (file_transfer sample_files (fun _ _ => []) (fun _ => 0%N) (str "/srv") true true (generic (str "f")) [x01; x02; x03]);
    [reflexivity|intros _ n [y [=]] _ _|vm_compute; reflexivity|simpl; lia|simpl; lia|vm_compute; reflexivity|done|].
  intros k. assert (segments [x01; x02; x03] = 1%nat) as -> by reflexivity. rewrite !elem_of_cons, elem_of_nil. lia.
Defined.

(** What is announced for an empty or missing file, what a consumer asks for then, and the
    request that the producer reads as one for segment 8. *)
Example odd_files :
  let server s name := onFileInterest s (fun _ _ => []) false (str "/srv") (request (fun _ => 0%N) name) FileServer_new in
  let requests s name := (fun r => List.map (fun q => i_name (fst q)) (snd r)) <$>
     onFile (fun _ => 0%N) (snd (server s name)) (str "/f") FileClient_new in
  let request_for k := request (fun _ => 0%N) (segment_name (generic (str "f")) k) in
  let size3 (_ : text) := Some [x01; x02; x03] in
  sharedSegment (server (fun _ => Some []) (file_name (generic (str "f")))).1 = 0%Z /\
  sharedSegment (server (fun _ => None) (file_name (generic (str "f")))).1 = 1%Z /\
  requests (fun _ => Some []) (file_name (generic (str "f"))) = Some [[generic (str "Segment"); generic (str "f"); generic (str "-1")]] /\
  d_name <$> (mjoin (onSegmentInterest size3 (fun _ _ => []) true (str "/srv") (request_for 0%nat))) = Some (segment_name (generic (str "f")) 0) /\
  d_name <$> (mjoin (onSegmentInterest size3 (fun _ _ => []) false (str "/srv") (request_for 0%nat))) = Some (segment_name (generic (str "f")) 8).
Proof. vm_compute. split_and!; reflexivity. Qed.
